(* ===== verification/_CoqProject ===== *)
-Q . S2P
Prelude.v
Decimal.v
ExceptionHandlers.v
BucketList.v
AttributeSet.v
ScopedAttributes.v
AttributeValueSet.v
ValueExtraction.v
Predicates.v
RecordOrdering.v
Core.v
FileNamePattern.v
FileCollector.v
TextFileBackend.v
Rotation.v
Queues.v
FifoQueue.v
OnceBlock.v
GlobalLoggers.v
Locks.v
AsyncSink.v
Format.v
Dump.v
DumpAvx2.v
ScopeFormat.v
NamedScope.v
IpcQueue.v
IpcSystem.v
DateTimeFormat.v
DefaultFormatter.v
CodeConvert.v
StreamBuf.v
Decorators.v
Manipulators.v
StringLiteral.v
AttributeNames.v
Frontend.v
SinkDelivery.v
Syslog.v
TextBackends.v
Loggers.v
RecordStream.v
ParserUtils.v
SettingsParser.v
FilterParser.v
DefaultFilter.v
FormatterParser.v
SettingsValues.v
InitSettings.v
