(* ===== verification/Prelude.v ===== *)
(** * Boost.Log: a verification of the logging core, its sinks and its formatting

    Boost.Log is a C++ library. A logging statement asks the core to open a
    record: the core composes the attribute values of the record from the
    attributes of the source, of the thread and of the core, applies the global
    filter and the filters of the registered sinks, and remembers the sinks that
    accept. The statement formats the message and pushes the record; the core
    passes it to the accepting sinks, trying not to wait for a sink that is
    busy. A sink consists of a frontend, which synchronizes, queues and formats,
    and of a backend, which writes; the text file backend rotates its files and
    hands finished files to a collector that enforces limits.

    The development is a shallow embedding: every definition is a translation
    of code under src/, executable where the code is, and the theorems are
    about these definitions.

    ** The files and what they model

    - [Prelude]: outcomes of C++ code, a state monad with exceptions, bounded
      loops, machine-width arithmetic, lemmas and tactics.
    - [Decimal]: decimal numerals as printed by streams and read by the integer
      parser of Boost.Spirit, which is a class with its documented laws and a
      concrete instance.
    - [ExceptionHandlers]: utility/exception_handler.hpp, with its nested try
      blocks.
    - [BucketList]: the intrusive list with sixteen hash buckets that both
      attribute containers use (src/src/attribute_set_impl.hpp,
      src/src/attribute_value_set.cpp): pointers are addresses, a node is found,
      linked, appended and unlinked as in the source. The representation
      predicate [wf] relates it to a finite map.
    - [AttributeSet]: [attribute_set] with its node pool: insertion, lookup,
      erasure of elements and ranges, copying, clearing. [ScopedAttributes]:
      guards that add an attribute for the time of a block
      (attributes/scoped_attribute.hpp), and the counter of
      attributes/counter.hpp.
    - [AttributeValueSet]: [attribute_value_set]: lazy acquisition of values,
      [find], [freeze], insertion, copying, creation from a range.
    - [ValueExtraction]: extraction and visitation of values by name and type,
      type dispatchers, references to values of several types
      (attributes/value_extraction.hpp, value_visitation.hpp,
      fallback_policy.hpp, utility/value_ref.hpp, utility/type_dispatch).
      [Predicates]: the presence of an attribute, predicates on its value and the
      filter of severities by channel (expressions/predicates,
      detail/attribute_predicate.hpp). [RecordOrdering]:
      utility/record_ordering.hpp.
    - [AttributeNames]: the table of attribute names
      (src/src/attribute_name.cpp), used by any number of threads.
    - [Core]: src/src/core.cpp: the registry, thread data, [open_record],
      [push_record_move] with its retry loop and random shuffle.
    - [FileNamePattern], [FileCollector], [TextFileBackend], [Rotation]: the
      parts of src/src/text_file_backend.cpp. The file system, the collector as
      seen by the backend, the file stream and the calendar are classes, whose
      laws are the documented behaviour that the code relies on; the sample
      modules instantiate them.
    - [Queues]: the record queues of asynchronous sinks with both overflow
      strategies (src/include/boost/log/sinks/bounded_fifo_queue.hpp,
      bounded_ordering_queue.hpp, unbounded_ordering_queue.hpp,
      block_on_overflow.hpp, drop_on_overflow.hpp) as a transition system.
    - [FifoQueue]: [unbounded_fifo_queue] on the queue with two locks
      (src/src/threadsafe_queue.cpp) and the event built on an atomic flag
      (src/src/event.cpp): producers, interrupting threads and a consumer as a
      transition system over a heap of nodes.
    - [OnceBlock]: blocks that are executed once (src/src/once_block.cpp over
      POSIX threads), for any number of threads and blocks; [GlobalLoggers]: the
      loggers shared by the modules of a program
      (src/src/global_logger_storage.cpp). [Locks]: the locks that the methods
      of multithreaded loggers take (detail/locks.hpp, utility/strictest_lock.hpp,
      sources/basic_logger.hpp), for any number of threads.
    - [AsyncSink]: [asynchronous_sink] (async_frontend.hpp): any number of
      threads in its public methods, interleaved at critical sections, accesses
      to atomic flags and calls of the queue and the backend.
    - [Format]: src/src/format_parser.cpp and detail/format.hpp.
    - [Dump]: src/src/dump.cpp, dump_ssse3.cpp and manipulators/dump.hpp, with
      the vector instructions as functions on lists of bytes; [DumpAvx2]:
      dump_avx2.cpp on top of it and the choice of the routine.
    - [ScopeFormat]: src/src/named_scope_format_parser.cpp.
    - [NamedScope]: src/src/named_scope.cpp and the formatter of
      expressions/formatters/named_scope.hpp: the scopes of a thread as a
      circular list in a heap, copied when a value is detached.
    - [IpcQueue]: the message queue in shared memory
      (src/src/posix/ipc_reliable_message_queue.cpp, ipc_sync_wrappers.hpp,
      murmur3.hpp): the header and the ring of blocks, creating and opening
      a queue, sending, receiving, clearing, local stops.
    - [IpcSystem]: any number of senders and a receiver in several processes,
      interleaved at the mutex and the condition variables, with processes that
      die at any point.
    - [DateTimeFormat]: src/src/date_time_format_parser.cpp and the formatters
      that are built from its callbacks
      (src/include/boost/log/detail/date_time_format_parser.hpp,
      decomposed_time.hpp, src/src/decomposed_time.cpp,
      support/date_time.hpp). [DefaultFormatter]:
      src/src/setup/default_formatter_factory.cpp.
    - [CodeConvert]: src/src/code_conversion.cpp. The facet of the locale is
      a class with its documented behaviour.
    - [StreamBuf]: detail/attachable_sstream_buf.hpp,
      utility/formatting_ostream.hpp and
      expressions/formatters/max_size_decorator.hpp. [Decorators]: the
      replacement of patterns in formatted text (char_decorator.hpp,
      csv_decorator.hpp, xml_decorator.hpp and c_decorator.hpp).
      [Manipulators]: ranges, tuples and optional values, automatic newlines
      and conditional formatters (utility/manipulators,
      expressions/formatters/if.hpp).
      [StringLiteral]: utility/string_literal.hpp.
    - [Frontend]: [basic_sink_frontend] and [basic_formatting_sink_frontend]
      with the synchronous and the unlocked frontend (basic_sink_frontend.hpp,
      sync_frontend.hpp, unlocked_frontend.hpp): formatting contexts of the
      threads with their versions, in one thread and in any number of threads.
    - [SinkDelivery]: the frontends as the sinks of the core.
    - [Syslog]: src/src/syslog_backend.cpp and sinks/attribute_mapping.hpp, with
      sockets, the resolver, the clock and the codes of the system as
      parameters. [TextBackends]: the backends for streams, for a file per
      record and for the inter-process queue, the default sink
      (text_ostream_backend.cpp, text_multifile_backend.cpp,
      text_ipc_message_queue_backend.hpp, default_sink.cpp) and the text of
      identifiers (id_formatting.hpp).
    - [Loggers]: basic_logger.hpp and the severity, channel and exception handler
      features, in any order, over the core; the levels of the threads and the
      objects of channel attributes are shared state.
    - [RecordStream]: src/src/record_ostream.cpp and the pump and statement macro
      of sources/record_ostream.hpp: pools of streams, nested statements and
      exceptions.
    - [ParserUtils], [SettingsParser], [FilterParser], [FormatterParser]: the
      parsers of src/src/setup. The property tree and the factories of filters
      and formatters are classes.
    - [DefaultFilter]: the default filter factory, which implements the
      interface of the filter parser, with the predicates of
      utility/functional and the severity names of src/src/trivial.cpp.
    - [SettingsValues], [InitSettings]: src/src/setup/init_from_settings.cpp:
      the values of parameters and the construction of sinks and of the core's
      settings from a tree of settings. The factories are parameters.

    ** How code is represented

    A function returns an [outcome]: a value, an exception, or [Stuck] for
    undefined behaviour (a null or dangling pointer, an index out of range, a
    failed assertion). Stateful code is in the monad [sm], in which the state
    survives an exception. Pointers into lists of nodes are addresses, pointers
    into strings are positions. Unsigned integers are numbers with an explicit
    reduction where they can wrap ([u32], [u64]). User code (filters, sinks,
    attributes, handlers) is a parameter that may act on a world and throw.
    Concurrent code is an inductive step relation with the program counters of
    the threads; the theorems hold for all reachable states.

    ** What the theorems show

    - Attribute containers: every operation implements the corresponding one on
      finite maps and keeps the list, the buckets and the pool consistent; no
      operation has undefined behaviour. A lookup in the values of a record
      returns the value of the innermost attribute, and acquiring values lazily
      is the same as acquiring them at once. Extraction by type gives the value,
      or what the function promises when it is absent or of another type, and no
      pointer is used with a wrong type; predicates decide what they say of the
      values of the record; scoped attributes are in effect exactly in their
      blocks, exceptions included.
    - Names and globals: equal strings have equal identifiers for all threads,
      and different ones different identifiers; a once block succeeds once, and
      who passes it finds it completed, and there is progress when blocks are
      nested in one order (nested in themselves or in opposite orders they
      deadlock); threads that call methods of loggers do
      not deadlock unless a method locks its logger twice; all modules use one global logger per
      tag; an exception is passed to the handler when one of its types matches.
    - Core: opening a record accepts exactly the sinks the filters accept, in
      the order of the registry, on every path including exceptions of user
      code; all values are acquired even when no sink accepts. Pushing delivers the
      record to every sink once, whatever the order in which sinks are busy, unless a
      value cannot be detached from the thread, when no sink is called, or a
      failure is not handled, when the remaining sinks are not served; a whole statement never has undefined behaviour;
      the registry behaves as an ordered set.
    - Statements: a record that a logger opens has the attributes of the logger
      over those of the thread and of the core, with the severity and channel of
      the statement; features work in any order and copies of loggers are
      independent (the attributes of the features are registered in a copy also
      when they were removed from the original). Each record is pushed with exactly
      the text of its own expression, whatever is nested in it, and streams return
      to their pool; the loop of the statement is executed once unless the core
      leaves the record in its handle. A
      sink formats a record with settings that were current during the call, one
      thread at a time uses the backend, and a pushed record is written once by
      every accepting sink.
    - Text files: patterns are parsed and matched in bounded time, and the names
      a pattern generates are recognized when files are scanned; the collector
      keeps its account of the total size, erases the oldest files while the limits
      would be exceeded and finds a free name;
      the backend keeps its invariant on every path, opens a file within its
      loop bound, appends the text of the record to it and respects the rotation size; daily, weekly and interval
      rotation happen exactly at the scheduled times.
    - Asynchronous sinks: queues respect their capacity, lose and duplicate
      nothing, keep the order of a FIFO and never forget a blocked producer; at
      most one thread feeds the backend; a flush of an idle sink that is not
      to stop drains the queue. The unbounded queue is a FIFO for any number of producers, frees
      its nodes, and a consumer is not left blocked with a record to take.
    - Formatting: format strings have the meaning their syntax says, formatters
      are reusable after exceptions, the SSSE3 and AVX2 dump routines are
      equivalent to the generic one, function names are extracted safely from any signature
      and correctly from plain ones; date and time formats print what their
      placeholders say; strings are converted through a small buffer as by one
      call of the facet; a formatting stream writes the text of any sequence of
      operations, cut at the limits of nested parts; decorated text can be read
      back, and nothing before it is changed; a range is one line with
      delimiters; the texts of dates, times and
      durations can be read back, and special values have their names; string literals are ordered
      lexicographically; the scopes of a thread are
      a stack, a detached value keeps the scopes of its time and frees only its own
      nodes, and the formatter
      prints the innermost ones up to the depth.
    - Other backends: a syslog packet is read back when it fits and is cut
      otherwise, and the native syslog service is opened once and closed with
      its last user; a record is written to every good stream of a backend and
      to no other one; every file has the lines of the records that are routed
      to it, in order; the text of an identifier is read back.
    - Inter-process queue: sending and receiving implement a bounded FIFO of
      messages on every path, also when a message wraps around the end of the
      ring; in every interleaving of processes, dying ones included, messages
      are received whole, once and in order, and no wake-up is lost.
    - Setup parsers: the text of settings, of a filter expression or of a format
      string is read back as what it was written from, errors carry their line,
      and every input is read to an end without undefined behaviour. An integer
      comparison in a filter decides the comparison of the numbers. The
      initialization from settings adds the sinks of all sections in order or none, and the parameters
      of a text file sink have the values the settings say.
    - Deviations from the intended behaviour are theorems too: a pattern with an
      escaped percent character is not recognized, a failed open loses the next
      record, rotation on a day of the month throws or drifts, three races
      of the asynchronous frontend (a record missed by a flush, producers
      blocked by a late flush, a lost request to stop), a mutex that stays
      unusable after a process died and another one was waiting, the twelve-hour
      format, converted strings that exceed the limit of a stream, a conversion
      that throws at the limit, section headers with the prefix [Sink:], keyword
      operators behind a presence test, negative operands for unsigned
      attributes, a rotation interval of zero, characters of a failed formatter in
      the next record, the severity of a record changed by a nested statement, a
      statement that does not end when a value cannot be detached, texts of
      negative durations, an ordering in which records without the value precede
      each other, escape sequences before the decorated text, a pattern without
      characters, a global logger whose construction uses another one, handlers
      that catch their own exceptions, loggers that wait for themselves when
      they are swapped with themselves or when opening a record throws.

    ** Bounds

    Loops that are not structural have a bound on the number of iterations, and
    the theorems show that it is never reached: the length of the string for the
    parsers; the number of sinks and rounds for the core; [2 ^ 32] and [2 ^ 33]
    iterations for the searches over 32-bit file counters ([sm_while], which
    runs a loop with a logarithmic descriptor). Strings shorter than [2 ^ 32]
    characters are assumed where the code stores positions as [unsigned int].
    The parsers of filters and formatters have the length of their input as
    fuel, twice for the mutual recursion of filters. A queue in shared memory has
    less than [2 ^ 32] bytes of blocks, as its arithmetic requires, and messages
    less than [2 ^ 32] bytes. Inputs of the setup parsers have no octal escape
    sequences ([no_octal]) where undefined behaviour is excluded, because the
    code reads behind the end of a string that ends in one.

    ** What is not modelled

    Locking in the sequential components (critical sections are atomic), weak
    memory orders (atomic operations are sequentially consistent), events on
    other primitives than an atomic flag, code for Windows, regular expressions,
    wide characters in the parsers, decorators and literals, Boost.Phoenix
    expressions, moving of loggers, the wrappers of mutexes and threads of the
    system, the dates of Boost.DateTime beyond their documented contents ([to_tm] is
    a parameter of [DefaultFormatter]), identifiers of processes and threads, messages of exceptions,
    permissions of files. A formatter acts on its
    stream only and does not log to its own sink. User code that the core calls
    can read the severity level of its thread and does not set it. Mutexes of
    loggers always block when they are locked again by their owner. Levels are integers that fit
    in the storage of the thread.

    ** This file

    Shared vocabulary: outcomes of C++ code (values, exceptions, undefined
    behaviour), machine-width arithmetic, character strings, and the list
    lemmas and tactics the components use. *)

From Stdlib Require Import ZArith Ascii String.
From stdpp Require Import base numbers list gmap strings.

Create HintDb boostlog.

(** * Outcomes

    A C++ call returns a value, leaves by an exception, or has undefined
    behaviour (a null or dangling pointer is used, a [BOOST_ASSERT] fails).
    [Stuck] is that third case; loops that are given a step bound also end in
    [Stuck] when the bound is exhausted, so that a theorem that excludes
    [Stuck] excludes both. *)

(** The exception types the modelled sources throw; [ex_user] stands for
    whatever a user-supplied functor, sink or attribute throws. *)
Inductive exn : Type :=
| ex_user (code : Z)
| ex_invalid_argument
| ex_out_of_range
| ex_bad_day_of_month
| ex_filesystem_error
| ex_parse_error (position : nat)
| ex_limitation_error (position : nat)
| ex_setup_error
| ex_unexpected_call
| ex_logic_error
| ex_capacity_limit_reached
| ex_bad_alloc
| ex_system_error
| ex_conversion_error
| ex_invalid_value
| ex_missing_value
| ex_invalid_type.

#[export] Instance exn_eq_dec : EqDecision exn.
Proof. solve_decision. Defined.

Inductive outcome (A : Type) : Type :=
| Ok (a : A)
| Throw (e : exn)
| Stuck.
Arguments Ok {A} a.
Arguments Throw {A} e.
Arguments Stuck {A}.

Definition obind {A B} (m : outcome A) (k : A → outcome B) : outcome B :=
  match m with
  | Ok a => k a
  | Throw e => Throw e
  | Stuck => Stuck
  end.

(** A null or dangling pointer dereference is undefined behaviour. *)
Definition of_ptr {A} (m : option A) : outcome A :=
  match m with Some a => Ok a | None => Stuck end.

Declare Scope log_scope.
Delimit Scope log_scope with log.
Notation "'let*' x := m 'in' k" := (obind m (λ x, k))
  (at level 10, x pattern, m at level 100, k at level 200, only parsing) : log_scope.
Open Scope log_scope.

Definition is_ok {A} (m : outcome A) : bool :=
  match m with Ok _ => true | _ => false end.

(** ** Stateful code that may throw

    The state survives an exception: [sm] returns it on every path. *)

Definition sm (St X : Type) : Type := St → outcome X * St.

#[export] Instance sm_ret {St} : MRet (sm St) := λ X x σ, (Ok x, σ).

#[export] Instance sm_bind {St} : MBind (sm St) := λ X Y k m σ,
  match m σ with
  | (Ok x, σ') => k x σ'
  | (Throw e, σ') => (Throw e, σ')
  | (Stuck, σ') => (Stuck, σ')
  end.

Lemma sm_bind_run {St X Y} (m : sm St X) (k : X → sm St Y) σ :
  (m ≫= k) σ = match m σ with
               | (Ok x, σ') => k x σ'
               | (Throw e, σ') => (Throw e, σ')
               | (Stuck, σ') => (Stuck, σ')
               end.
Proof. done. Qed.

Definition sm_get {St} : sm St St := λ σ, (Ok σ, σ).
Definition sm_put {St} (σ' : St) : sm St unit := λ _, (Ok (), σ').
Definition sm_modify {St} (f : St → St) : sm St unit := λ σ, (Ok (), f σ).
Definition sm_lift {St X} (m : outcome X) : sm St X := λ σ, (m, σ).
Definition sm_throw {St X} (e : exn) : sm St X := λ σ, (Throw e, σ).

(** [try { m } catch (...) { h }]. *)
Definition sm_catch {St X} (m : sm St X) (h : exn → sm St X) : sm St X := λ σ,
  match m σ with
  | (Throw e, σ') => h e σ'
  | r => r
  end.

(** Runs the next call of a sequence. *)
Ltac sm_step := rewrite sm_bind_run; cbn [mret sm_ret sm_get sm_put sm_modify sm_lift sm_throw].

(** A computation establishes [Q] on normal return and [E] when it throws,
    and has no undefined behaviour. *)
Definition sm_triple {St X} (P : St → Prop) (m : sm St X)
    (Q : X → St → Prop) (E : exn → St → Prop) : Prop :=
  ∀ σ, P σ → match m σ with
             | (Ok x, σ') => Q x σ'
             | (Throw e, σ') => E e σ'
             | (Stuck, _) => False
             end.

Lemma sm_triple_bind {St X Y} P (m : sm St X) (k : X → sm St Y) R Q E :
  sm_triple P m R E → (∀ x, sm_triple (R x) (k x) Q E) → sm_triple P (m ≫= k) Q E.
Proof.
  intros Hm Hk σ Hσ. specialize (Hm σ Hσ). unfold mbind, sm_bind.
  destruct (m σ) as [[x|e|] σ']; [by apply Hk|done|done].
Qed.

Lemma sm_triple_ret {St X} (P : St → Prop) (x : X) Q E :
  (∀ σ, P σ → Q x σ) → sm_triple P (mret x) Q E.
Proof. intros H σ Hσ. by apply H. Qed.

Lemma sm_triple_weaken {St X} (P P' : St → Prop) (m : sm St X) Q Q' E E' :
  sm_triple P' m Q' E' → (∀ σ, P σ → P' σ) → (∀ x σ, Q' x σ → Q x σ) →
  (∀ e σ, E' e σ → E e σ) → sm_triple P m Q E.
Proof.
  intros Hm HP HQ HE σ Hσ. specialize (Hm σ (HP _ Hσ)).
  destruct (m σ) as [[x|e|] σ']; auto.
Qed.

(** A run that ends: with [Q], or with an exception. *)
Definition sm_safe {St X} (r : outcome X * St) (Q : X → St → Prop) : Prop :=
  match r with
  | (Ok x, σ) => Q x σ
  | (Throw _, _) => True
  | (Stuck, _) => False
  end.

Lemma sm_safe_bind {St X Y} (m : sm St X) (k : X → sm St Y) σ R Q :
  sm_safe (m σ) R → (∀ x σ', R x σ' → sm_safe (k x σ') Q) → sm_safe ((m ≫= k) σ) Q.
Proof. intros Hm Hk. rewrite sm_bind_run. destruct (m σ) as [[x|e|] σ']; [by apply Hk|done|done]. Qed.

Lemma sm_safe_weaken {St X} (r : outcome X * St) (Q Q' : X → St → Prop) :
  sm_safe r Q → (∀ x σ, Q x σ → Q' x σ) → sm_safe r Q'.
Proof. destruct r as [[x|e|] σ]; cbn; auto. Qed.

(** ** Loops

    [sm_loop d step a] runs [step] until it returns [inr], at most [2 ^ d]
    times, so that a loop over a 32-bit counter needs [d = 32] and can still be
    evaluated. *)

Fixpoint sm_loop {St A B} (d : nat) (step : A → sm St (A + B)) (a : A) : sm St (A + B) :=
  match d with
  | 0 => step a
  | S d =>
      r ← sm_loop d step a;
      match r with
      | inl a => sm_loop d step a
      | inr b => mret (inr b)
      end
  end.

(** [while (true) { step }] with a bound on the number of iterations. *)
Definition sm_while {St A B} (d : nat) (step : A → sm St (A + B)) (a : A) : sm St B :=
  r ← sm_loop d step a;
  match r with
  | inl _ => sm_lift Stuck
  | inr b => mret b
  end.

(** One iteration keeps [I] and decreases the variant [v], or ends the loop. *)
Definition loop_body {St A B} (I : A → St → Prop) (v : A → St → Z)
    (step : A → sm St (A + B)) (Q : B → St → Prop) (E : exn → St → Prop) : Prop :=
  ∀ a σ, I a σ → match step a σ with
                 | (Ok (inl a'), σ') => I a' σ' ∧ (0 ≤ v a' σ' < v a σ)%Z
                 | (Ok (inr b), σ') => Q b σ'
                 | (Throw e, σ') => E e σ'
                 | (Stuck, _) => False
                 end.

Lemma sm_loop_rule {St A B} (I : A → St → Prop) v (step : A → sm St (A + B)) Q E d a σ :
  loop_body I v step Q E → I a σ →
  match sm_loop d step a σ with
  | (Ok (inl a'), σ') => I a' σ' ∧ (0 ≤ v a' σ' ≤ v a σ - 2 ^ Z.of_nat d)%Z
  | (Ok (inr b), σ') => Q b σ'
  | (Throw e, σ') => E e σ'
  | (Stuck, _) => False
  end.
Proof.
  intros Hbody. revert a σ. induction d as [|d IH]; intros a σ Ha; cbn [sm_loop].
  - specialize (Hbody a σ Ha). destruct (step a σ) as [[[a'|b]|e|] σ']; [|done..].
    destruct Hbody as [H1 H2]. split; [done|]. simpl. lia.
  - rewrite sm_bind_run. pose proof (IH a σ Ha) as H1.
    destruct (sm_loop d step a σ) as [[[a1|b]|e|] σ1]; [|done..]. destruct H1 as [Ha1 Hv1].
    pose proof (IH a1 σ1 Ha1) as H2. destruct (sm_loop d step a1 σ1) as [[[a2|b]|e|] σ2]; [|done..].
    destruct H2 as [Ha2 Hv2]. split; [done|].
    rewrite Nat2Z.inj_succ, Z.pow_succ_r by lia. lia.
Qed.

(** A loop whose variant starts below the bound terminates. *)
Lemma sm_while_rule {St A B} (I : A → St → Prop) v (step : A → sm St (A + B)) Q E d a σ :
  loop_body I v step Q E → I a σ → (v a σ < 2 ^ Z.of_nat d)%Z →
  match sm_while d step a σ with
  | (Ok b, σ') => Q b σ'
  | (Throw e, σ') => E e σ'
  | (Stuck, _) => False
  end.
Proof.
  intros Hbody Ha Hv. unfold sm_while. rewrite sm_bind_run.
  pose proof (sm_loop_rule I v step Q E d a σ Hbody Ha) as H.
  destruct (sm_loop d step a σ) as [[[a1|b]|e|] σ1]; [|done..]. destruct H as [_ H]. lia.
Qed.

(** * Machine integers *)

Definition u32 (x : Z) : Z := (x mod 2 ^ 32)%Z.
Definition u64 (x : Z) : Z := (x mod 2 ^ 64)%Z.
Definition u32_max : Z := (2 ^ 32 - 1)%Z.

Lemma u32_range x : (0 ≤ u32 x < 2 ^ 32)%Z.
Proof. apply Z.mod_pos_bound. lia. Qed.

Lemma u64_range x : (0 ≤ u64 x < 2 ^ 64)%Z.
Proof. apply Z.mod_pos_bound. lia. Qed.

Lemma u32_id x : (0 ≤ x < 2 ^ 32)%Z → u32 x = x.
Proof. apply Z.mod_small. Qed.

Lemma u64_id x : (0 ≤ x < 2 ^ 64)%Z → u64 x = x.
Proof. apply Z.mod_small. Qed.

Lemma u32_pred x : u32 x ≠ 0%Z → u32 (x - 1) = (u32 x - 1)%Z.
Proof.
  intros Hx. pose proof (u32_range x) as Hr. unfold u32 in *. symmetry.
  apply Z.mod_unique_pos with (q := (x / 2 ^ 32)%Z); [lia|].
  pose proof (Z.div_mod x (2 ^ 32) ltac:(lia)). lia.
Qed.

Lemma u32_sub_zero a b : (0 ≤ a < 2 ^ 32)%Z → (0 ≤ b < 2 ^ 32)%Z → u32 (a - b) = 0%Z → a = b.
Proof.
  intros Ha Hb Hz. unfold u32 in Hz. destruct (Z.le_gt_cases b a).
  - rewrite Z.mod_small in Hz; lia.
  - rewrite <- (Z.mod_add _ 1) in Hz by lia. rewrite Z.mod_small in Hz; lia.
Qed.

Lemma u32_sub_r x y : u32 (x - u32 y) = u32 (x - y).
Proof. unfold u32. by rewrite Zminus_mod_idemp_r. Qed.

Lemma u64_add_l x y : u64 (u64 x + y) = u64 (x + y).
Proof. unfold u64. by rewrite Zplus_mod_idemp_l. Qed.

Lemma u64_add_r x y : u64 (x + u64 y) = u64 (x + y).
Proof. unfold u64. by rewrite Zplus_mod_idemp_r. Qed.

Lemma u64_sub_l x y : u64 (u64 x - y) = u64 (x - y).
Proof. unfold u64. by rewrite Zminus_mod_idemp_l. Qed.

Lemma u64_sub_r x y : u64 (x - u64 y) = u64 (x - y).
Proof. unfold u64. by rewrite Zminus_mod_idemp_r. Qed.

#[export] Hint Resolve u32_range u64_range : boostlog.

(** * Characters and strings

    A [std::string] is a list of [char]; a literal of the source is written
    as a Rocq string and converted by [str_lit]. *)

Abbreviation str := (list ascii).

Definition str_lit (s : string) : str := list_ascii_of_string s.

(** The text that a pointer to the characters of the string stands for where a
    zero ends it. *)
Fixpoint c_str (s : str) : str :=
  match s with
  | [] => []
  | c :: s => if decide (c = Ascii.zero) then [] else c :: c_str s
  end.

Lemma c_str_id s : Ascii.zero ∉ s → c_str s = s.
Proof.
  induction s as [|c s IH]; [done|]. intros [Hc Hs]%not_elem_of_cons. cbn. rewrite decide_False by congruence. by rewrite IH.
Qed.

(** [isdigit] in the "C" locale. *)
Definition is_digit (c : ascii) : bool :=
  let n := nat_of_ascii c in (48 <=? n) && (n <=? 57).

Definition digit_value (c : ascii) : Z := Z.of_nat (nat_of_ascii c) - 48.

Definition digit_char (d : Z) : ascii := ascii_of_nat (Z.to_nat (d + 48)).

(** * Lists *)

(** Index of the first element that satisfies a test; the length when there
    is none ([std::find] and [std::find_if]). *)
Fixpoint find_pos {A} (P : A → bool) (l : list A) : nat :=
  match l with
  | [] => 0
  | x :: t => if P x then 0 else S (find_pos P t)
  end.

Lemma find_pos_le {A} (P : A → bool) l : find_pos P l ≤ length l.
Proof. induction l as [|x t IH]; simpl; [lia|]. destruct (P x); lia. Qed.

Lemma find_pos_take {A} (P : A → bool) l :
  Forall (λ x, P x = false) (take (find_pos P l) l).
Proof.
  induction l as [|x t IH]; simpl; [constructor|].
  destruct (P x) eqn:E; simpl; constructor; auto.
Qed.

Lemma find_pos_drop {A} (P : A → bool) l x t :
  drop (find_pos P l) l = x :: t → P x = true.
Proof.
  induction l as [|y s IH]; simpl; [done|].
  destruct (P y) eqn:E; simpl; [by intros [= -> ->]|auto].
Qed.

Lemma find_pos_app_skip {A} (P : A → bool) l1 l2 :
  Forall (λ x, P x = false) l1 →
  find_pos P (l1 ++ l2) = length l1 + find_pos P l2.
Proof. induction 1 as [|x t Hx _ IH]; simpl; [done|]. by rewrite Hx, IH. Qed.

Lemma last_app_cons {A} (l : list A) x t : last (l ++ x :: t) = last (x :: t).
Proof. rewrite last_app. by destruct (last (x :: t)) eqn:E; [|apply last_None in E]. Qed.

Lemma last_cons_default {A} (x : A) t : last (x :: t) = Some (default x (last t)).
Proof. rewrite last_cons. by destruct (last t). Qed.

Lemma concat_filter_app {A B} (f : A → list B) l1 x l2 :
  concat (f <$> l1 ++ x :: l2) = concat (f <$> l1) ++ f x ++ concat (f <$> l2).
Proof. by rewrite fmap_app, concat_app. Qed.

Lemma app_mid_assoc {A} (pre s1 : list A) x s2 post :
  pre ++ (s1 ++ x :: s2) ++ post = (pre ++ s1) ++ x :: (s2 ++ post).
Proof. by rewrite <- !app_assoc. Qed.

Lemma filter_none {A} (P : A → Prop) `{!∀ x, Decision (P x)} l :
  Forall (λ x, ¬ P x) l → filter P l = [].
Proof. induction 1 as [|x l Hx _ IH]; [done|]. by rewrite filter_cons, decide_False. Qed.

Lemma filter_every {A} (P : A → Prop) `{!∀ x, Decision (P x)} l :
  Forall P l → filter P l = l.
Proof. induction 1 as [|x l Hx _ IH]; [done|]. rewrite filter_cons, decide_True by done. by rewrite IH. Qed.

(** * Tactics *)

(** Case analysis on the scrutinee of a [match] or [if] in the goal or in a
    hypothesis, keeping its equation. *)
Ltac case_step :=
  match goal with
  | |- context [match ?x with _ => _ end] =>
      lazymatch x with context [match _ with _ => _ end] => fail | _ => idtac end;
      destruct x eqn:?
  | H : context [match ?x with _ => _ end] |- _ =>
      lazymatch x with context [match _ with _ => _ end] => fail | _ => idtac end;
      destruct x eqn:?
  end.

Ltac inv_all := repeat (case_step; simplify_eq/=).

(** Turns the boolean comparisons of the code into propositions. *)
Ltac to_prop :=
  repeat match goal with
  | H : (_ && _)%bool = true |- _ => apply andb_true_iff in H as [? ?]
  | H : (_ && _)%bool = false |- _ => apply andb_false_iff in H
  | H : (_ || _)%bool = false |- _ => apply orb_false_iff in H as [? ?]
  | H : (_ || _)%bool = true |- _ => apply orb_true_iff in H
  | H : negb _ = true |- _ => apply negb_true_iff in H
  | H : negb _ = false |- _ => apply negb_false_iff in H
  | H : (_ <=? _)%nat = true |- _ => apply Nat.leb_le in H
  | H : (_ <=? _)%nat = false |- _ => apply Nat.leb_gt in H
  | H : (_ <? _)%nat = true |- _ => apply Nat.ltb_lt in H
  | H : (_ <? _)%nat = false |- _ => apply Nat.ltb_ge in H
  | H : (_ =? _)%nat = true |- _ => apply Nat.eqb_eq in H
  | H : (_ =? _)%nat = false |- _ => apply Nat.eqb_neq in H
  | H : (_ <=? _)%Z = true |- _ => apply Z.leb_le in H
  | H : (_ <=? _)%Z = false |- _ => apply Z.leb_gt in H
  | H : (_ <? _)%Z = true |- _ => apply Z.ltb_lt in H
  | H : (_ <? _)%Z = false |- _ => apply Z.ltb_ge in H
  | H : (_ =? _)%Z = true |- _ => apply Z.eqb_eq in H
  | H : (_ =? _)%Z = false |- _ => apply Z.eqb_neq in H
  | H : (_ <? _)%N = true |- _ => apply N.ltb_lt in H
  | H : (_ <? _)%N = false |- _ => apply N.ltb_ge in H
  end.
