(* ===== verification/Decimal.v ===== *)
(** Decimal numerals: what [std::ostream] prints for an unsigned number with a
    width and a fill character, and what Boost.Spirit's [extract_uint] reads
    back. *)

From Stdlib Require Import ZArith Ascii String.
From stdpp Require Import base numbers list.
From S2P Require Import Prelude.
Local Open Scope Z_scope.

(** * Printing *)

Fixpoint dec_loop (fuel : nat) (n : Z) (acc : str) : str :=
  match fuel with
  | O => acc
  | S k =>
      let acc := digit_char (n mod 10) :: acc in
      if n <? 10 then acc else dec_loop k (n / 10) acc
  end.

(** [strm << n]; a number below 2^k has at most k digits. *)
Definition dec (n : Z) : str := dec_loop (S (Z.to_nat (Z.log2 n))) n [].

(** Right alignment in a field of [width] characters. *)
Definition pad_left (fill : ascii) (width : nat) (s : str) : str :=
  replicate (width - length s) fill ++ s.

(** * Reading *)

Definition undec (s : str) : Z := fold_left (λ acc c, acc * 10 + digit_value c) s 0.

Definition all_digits (s : str) : Prop := Forall (λ c, is_digit c = true) s.

(** [c] does not begin with a digit. *)
Definition stops_digits (s : str) : Prop :=
  match s with [] => True | c :: _ => is_digit c = false end.

(** [qi::extract_uint< unsigned int, 10, 1, -1 >] reads as many digits as there
    are, at least one; it fails when the number does not fit. *)
Class ExtractUint := {
  extract_uint : str → option (Z * str);
  extract_uint_digits : ∀ ds rest, all_digits ds → ds ≠ [] → stops_digits rest →
    extract_uint (ds ++ rest) = if undec ds <? 2 ^ 32 then Some (undec ds, rest) else None;
  extract_uint_none : ∀ s, stops_digits s → extract_uint s = None }.

(** * Lemmas *)

Lemma digit_char_ok d : 0 ≤ d < 10 → is_digit (digit_char d) = true ∧ digit_value (digit_char d) = d.
Proof.
  intros Hd. assert (d = 0 ∨ d = 1 ∨ d = 2 ∨ d = 3 ∨ d = 4 ∨ d = 5 ∨ d = 6 ∨ d = 7 ∨ d = 8 ∨ d = 9) by lia.
  naive_solver.
Qed.

Lemma undec_snoc s c : undec (s ++ [c]) = undec s * 10 + digit_value c.
Proof. unfold undec. by rewrite fold_left_app. Qed.

Lemma undec_app_acc s acc :
  fold_left (λ acc c, acc * 10 + digit_value c) s acc = acc * 10 ^ Z.of_nat (length s) + undec s.
Proof.
  revert acc. induction s as [|c s IH] using rev_ind; intros acc; [unfold undec; simpl; lia|].
  rewrite fold_left_app, undec_snoc, length_app. simpl. rewrite IH.
  rewrite Nat2Z.inj_add, Z.pow_add_r by lia. simpl. lia.
Qed.

Lemma undec_cons c s : undec (c :: s) = digit_value c * 10 ^ Z.of_nat (length s) + undec s.
Proof. unfold undec at 1. cbn [fold_left]. rewrite undec_app_acc. simpl. lia. Qed.

(** The numeral that [dec_loop] prepends: its value, digits and length. *)
Lemma dec_loop_spec fuel n acc :
  0 ≤ n < 2 ^ Z.of_nat fuel → (0 < fuel)%nat →
  ∃ ds, dec_loop fuel n acc = ds ++ acc ∧ ds ≠ [] ∧ all_digits ds ∧ undec ds = n.
Proof.
  revert n acc. induction fuel as [|k IH]; intros n acc Hn Hf; [lia|]. cbn [dec_loop].
  pose proof (Z.mod_pos_bound n 10 ltac:(lia)) as Hm. destruct (digit_char_ok (n mod 10) Hm) as [Hd Hv].
  destruct (n <? 10) eqn:E; to_prop.
  - exists [digit_char (n mod 10)]. split_and!; [done|done|by repeat constructor|].
    unfold undec. simpl. rewrite Hv, Z.mod_small; lia.
  - pose proof (Z.div_mod n 10 ltac:(lia)).
    assert (n / 10 < 2 ^ Z.of_nat k).
    { replace (Z.of_nat (S k)) with (Z.of_nat k + 1) in Hn by lia. rewrite Z.pow_add_r in Hn by lia.
      pose proof (Z.pow_pos_nonneg 2 (Z.of_nat k)). lia. }
    destruct k as [|k]; [simpl in *; lia|].
    destruct (IH (n / 10) (digit_char (n mod 10) :: acc)) as (ds & -> & Hne & Had & Hun); [lia|lia|].
    exists (ds ++ [digit_char (n mod 10)]). split_and!.
    + by rewrite <- app_assoc.
    + intros Hnil. apply app_eq_nil in Hnil as [? [=]].
    + apply Forall_app. by split; [|repeat constructor].
    + rewrite undec_snoc, Hun, Hv. lia.
Qed.

Lemma dec_spec n : 0 ≤ n → dec n ≠ [] ∧ all_digits (dec n) ∧ undec (dec n) = n.
Proof.
  intros Hn. unfold dec. destruct (dec_loop_spec (S (Z.to_nat (Z.log2 n))) n []) as (ds & -> & ?); [|lia|].
  - split; [done|]. rewrite Nat2Z.inj_succ, Z2Nat.id by apply Z.log2_nonneg.
    destruct (decide (n = 0)) as [->|]; [done|]. apply Z.log2_spec. lia.
  - by rewrite app_nil_r.
Qed.

(** A number below [10 ^ k] has at most [k] digits. *)
Lemma dec_loop_length fuel k n acc :
  0 ≤ n < 10 ^ Z.of_nat k → (0 < k)%nat → (length (dec_loop fuel n acc) ≤ k + length acc)%nat.
Proof.
  revert k n acc. induction fuel as [|f IH]; intros k n acc Hn Hk; cbn [dec_loop]; [lia|].
  destruct (n <? 10) eqn:E; to_prop; [cbn [length]; lia|].
  destruct k as [|[|k]]; [lia|cbn in Hn; lia|].
  replace (Z.of_nat (S (S k))) with (Z.of_nat (S k) + 1) in Hn by lia. rewrite Z.pow_add_r in Hn by lia.
  specialize (IH (S k) (n / 10) (digit_char (n mod 10) :: acc)). cbn [length] in IH.
  pose proof (Z.div_mod n 10 ltac:(lia)). pose proof (Z.mod_pos_bound n 10 ltac:(lia)). lia.
Qed.

Lemma dec_length k n : 0 ≤ n < 10 ^ Z.of_nat k → (0 < k)%nat → (length (dec n) ≤ k)%nat.
Proof. intros Hn Hk. unfold dec. rewrite <- (Nat.add_0_r k). by apply (dec_loop_length _ k n []). Qed.

Lemma all_digits_app s t : all_digits (s ++ t) ↔ all_digits s ∧ all_digits t.
Proof. apply Forall_app. Qed.

Lemma pad_zero_spec width s :
  all_digits s → all_digits (pad_left "0" width s) ∧ undec (pad_left "0" width s) = undec s ∧
  (width ≤ length (pad_left "0" width s))%nat.
Proof.
  intros Hs. unfold pad_left. split_and!.
  - apply all_digits_app. split; [|done]. by apply Forall_replicate.
  - induction (width - length s)%nat as [|k IH]; [done|]. cbn [replicate app]. rewrite undec_cons, IH.
    change (digit_value "0") with 0. lia.
  - rewrite length_app, length_replicate. lia.
Qed.

Lemma undec_nonneg s : all_digits s → 0 ≤ undec s.
Proof.
  induction s as [|c s IH] using rev_ind; [done|]. intros [Hs Hc]%all_digits_app. rewrite undec_snoc.
  unfold all_digits in Hc. rewrite Forall_singleton in Hc. unfold is_digit in Hc. cbv zeta in Hc.
  apply andb_true_iff in Hc as [Hc%Nat.leb_le _]. unfold digit_value. specialize (IH Hs). lia.
Qed.

(** Any string is a run of digits and a rest that does not begin with one. *)
Lemma split_digits s : ∃ ds rest, s = ds ++ rest ∧ all_digits ds ∧ stops_digits rest.
Proof.
  induction s as [|c s (ds & rest & -> & Hd & Hr)];
    [exists [], []; split_and!; [done|constructor|done]|].
  destruct (is_digit c) eqn:E; [exists (c :: ds), rest; split_and!; [done|by constructor|done]|].
  exists [], (c :: ds ++ rest). split_and!; [done|constructor|done].
Qed.

Lemma extract_uint_some {E : ExtractUint} s n rest :
  extract_uint s = Some (n, rest) → 0 ≤ n < 2 ^ 32 ∧ (length rest < length s)%nat.
Proof.
  intros H. destruct (split_digits s) as (ds & r & -> & Hd & Hr).
  destruct ds as [|c ds]; [by rewrite extract_uint_none in H|].
  rewrite extract_uint_digits in H by done. destruct (_ <? _) eqn:El; [|done]. to_prop. simplify_eq.
  split; [split; [by apply undec_nonneg|done]|]. rewrite length_app. simpl. lia.
Qed.

(** A concrete [extract_uint]. *)
Fixpoint take_digits (s : str) : str * str :=
  match s with
  | c :: t => if is_digit c then let '(ds, rest) := take_digits t in (c :: ds, rest) else ([], s)
  | [] => ([], [])
  end.

Lemma take_digits_app ds rest :
  all_digits ds → stops_digits rest → take_digits (ds ++ rest) = (ds, rest).
Proof.
  intros Hd Hr. induction Hd as [|c ds Hc _ IH]; simpl; [|by rewrite Hc, IH].
  destruct rest as [|c rest]; [done|]. simpl in *. by rewrite Hr.
Qed.

Definition spirit_extract_uint (s : str) : option (Z * str) :=
  let '(ds, rest) := take_digits s in
  match ds with
  | [] => None
  | _ => if undec ds <? 2 ^ 32 then Some (undec ds, rest) else None
  end.

Lemma spirit_extract_digits ds rest :
  all_digits ds → ds ≠ [] → stops_digits rest →
  spirit_extract_uint (ds ++ rest) = if undec ds <? 2 ^ 32 then Some (undec ds, rest) else None.
Proof. intros Hd Hne Hr. unfold spirit_extract_uint. rewrite take_digits_app by done. by destruct ds. Qed.

Lemma spirit_extract_none s : stops_digits s → spirit_extract_uint s = None.
Proof. destruct s as [|c s]; [done|]. unfold spirit_extract_uint. simpl. by intros ->. Qed.

Definition spirit_extract : ExtractUint := {|
  extract_uint := spirit_extract_uint;
  extract_uint_digits := spirit_extract_digits;
  extract_uint_none := spirit_extract_none |}.

(** * Readers of texts with numbers *)

Definition expect (c : ascii) (s : str) : option str :=
  match s with
  | d :: s => if decide (c = d) then Some s else None
  | [] => None
  end.

Definition read_number (s : str) : option (Z * str) :=
  let (ds, rest) := take_digits s in
  match ds with [] => None | _ => Some (undec ds, rest) end.

Lemma expect_char c s : expect c (c :: s) = Some s.
Proof. cbn. by rewrite decide_True. Qed.

Lemma read_dec ds rest : all_digits ds → ds ≠ [] → stops_digits rest → read_number (ds ++ rest) = Some (undec ds, rest).
Proof. intros Hd Hne Hr. unfold read_number. rewrite take_digits_app by done. by destruct ds. Qed.

Lemma read_padded width z rest : (0 < width)%nat → 0 ≤ z → stops_digits rest →
  read_number (pad_left "0" width (dec z) ++ rest) = Some (z, rest).
Proof.
  intros Hw Hz Hr. destruct (dec_spec z Hz) as (Hne & Hd & Hu). destruct (pad_zero_spec width (dec z) Hd) as (H1 & H2 & H3).
  rewrite read_dec; [by rewrite H2, Hu|done| |done]. destruct (pad_left _ width (dec z)); [|done]. cbn in H3. lia.
Qed.
