(* ===== verification/ExceptionHandlers.v ===== *)
(** Exception handlers: src/include/boost/log/utility/exception_handler.hpp.

    A handler is called while an exception is being handled, throws it again and
    passes it to a function if it is of one of some types. *)

From stdpp Require Import base list.
From S2P Require Import Prelude.

Section handlers.
(** Types of exceptions, which exceptions they catch, and the function of the
    user, with and without an exception. *)
Context {T W : Type} (catches : T → exn → bool) (m_Handler : exn → sm W unit) (m_Handler_ : sm W unit).

(** [eh_root::operator()]: [throw;]. *)
Definition eh_root (e : exn) : sm W unit := sm_throw e.

(** [eh_cons::operator()]. *)
Definition eh_cons (t : T) (base : exn → sm W unit) (e : exn) : sm W unit :=
  sm_catch (base e) (λ e', if catches t e' then m_Handler e' else sm_throw e').

(** [mpl::fold] over the types. *)
Definition exception_handler (types : list T) : exn → sm W unit := fold_left (λ base t, eh_cons t base) types eh_root.

Definition nothrow_exception_handler (types : list T) (e : exn) : sm W unit :=
  sm_catch (exception_handler types e) (λ _, m_Handler_).

(** [make_exception_suppressor]. *)
Definition exception_suppressor (e : exn) : sm W unit := mret ().

(** * What handlers do *)

(** The first type that catches the exception decides; an exception of the
    function goes on to the types behind it. *)
Fixpoint handle_with (types : list T) (e : exn) (w : W) : outcome unit * W :=
  match types with
  | [] => (Throw e, w)
  | t :: types =>
      if catches t e then match m_Handler e w with (Throw e', w') => handle_with types e' w' | r => r end
      else handle_with types e w
  end.

Lemma fold_handle types base e w :
  fold_left (λ base t, eh_cons t base) types base e w =
    match base e w with (Throw e', w') => handle_with types e' w' | r => r end.
Proof.
  revert base e w. induction types as [|t types IH]; intros base e w; cbn [fold_left].
  { by destruct (base e w) as [[]]. }
  rewrite IH. unfold eh_cons, sm_catch. destruct (base e w) as [[x|e'|] w']; [done| |done]. cbn [handle_with].
  by destruct (catches t e').
Qed.

Lemma exception_handler_run types e w : exception_handler types e w = handle_with types e w.
Proof. unfold exception_handler. by rewrite fold_handle. Qed.

(** The types as the clauses of one [catch] statement. *)
Definition try_catch (types : list T) (e : exn) (w : W) : outcome unit * W :=
  if existsb (λ t, catches t e) types then m_Handler e w else (Throw e, w).

(** With a function that does not throw, a handler does what the [catch] clauses
    in the same order would do, and the one that does not throw calls the function
    without an exception for the others; only this call can throw. *)
Theorem handlers_catch types e w : (∀ e w e', (m_Handler e w).1 ≠ Throw e') →
  exception_handler types e w = try_catch types e w ∧
  nothrow_exception_handler types e w = (if existsb (λ t, catches t e) types then m_Handler e w else m_Handler_ w).
Proof.
  intros Hh. assert (exception_handler types e w = try_catch types e w) as E.
  { rewrite exception_handler_run. unfold try_catch. induction types as [|t types IH]; [done|]. cbn [handle_with existsb].
    destruct (catches t e); [|done]. cbn. pose proof (Hh e w) as H. by destruct (m_Handler e w) as [[x|e'|] w']; [|by destruct (H e')|]. }
  split; [done|]. unfold nothrow_exception_handler, sm_catch. rewrite E. unfold try_catch.
  destruct (existsb _ types); [|done]. pose proof (Hh e w) as H. by destruct (m_Handler e w) as [[x|e'|] w']; [|by destruct (H e')|].
Qed.

(** The function is called at most once for every type. *)
Fixpoint handler_calls (types : list T) (e : exn) (w : W) : nat :=
  match types with
  | [] => 0
  | t :: types =>
      if catches t e then match m_Handler e w with (Throw e', w') => S (handler_calls types e' w') | _ => 1 end
      else handler_calls types e w
  end.

Lemma handler_calls_bound types e w : handler_calls types e w ≤ length types.
Proof.
  revert e w. induction types as [|t types IH]; intros e w; cbn; [done|]. destruct (catches t e).
  - destruct (m_Handler e w) as [[x|e'|] w']; [lia| |lia]. specialize (IH e' w'). lia.
  - specialize (IH e w). lia.
Qed.
End handlers.

(** * Example *)

Module sample_handlers.
(** Exceptions by their types; the function counts its calls and throws
    [ex_system_error] when it gets [ex_bad_alloc]. *)
Definition same_type (t e : exn) : bool := bool_decide (t = e).
Definition count (e : exn) : sm nat unit := λ n, (if decide (e = ex_bad_alloc) then Throw ex_system_error else Ok (), S n).

(** The exception of the function is passed to it as well, which the clauses of a
    [catch] statement do not do. *)
Example handler_catches_itself :
  exception_handler same_type count [ex_bad_alloc; ex_system_error] ex_bad_alloc 0 = (Ok (), 2) ∧
  try_catch same_type count [ex_bad_alloc; ex_system_error] ex_bad_alloc 0 = (Throw ex_system_error, 1).
Proof. done. Qed.
End sample_handlers.
