(* ===== verification/BucketList.v ===== *)
(** The intrusive list with hash buckets shared by [attribute_set] and
    [attribute_value_set] (src/src/attribute_set_impl.hpp and
    src/src/attribute_value_set.cpp): nodes linked in one list, a table of
    sixteen buckets that hold pointers to the first and the last node of
    their run, and each run sorted by attribute id. *)

From Stdlib Require Import ZArith.
From stdpp Require Import base numbers gmap sorting functions list.
From S2P Require Import Prelude.

(** Node addresses; a null pointer is [None]. *)
Abbreviation addr := N.

Record node (V : Type) := Node { n_addr : addr; n_key : N; n_data : V }.
Arguments Node {V} n_addr n_key n_data.
Arguments n_addr {V} _.
Arguments n_key {V} _.
Arguments n_data {V} _.

(** [first] and [last] of a bucket; both null when the bucket is empty. *)
Record bucket := Bucket { b_first : option addr; b_last : option addr }.

Definition bucket_count : N := N.shiftl 1 4.

(** [m_Buckets[id & (bucket_count - 1)]]: the index of the bucket. *)
Definition get_bucket (id : N) : nat := N.to_nat (N.land id (bucket_count - 1)).

Definition empty_table : list bucket :=
  replicate (N.to_nat bucket_count) (Bucket None None).

Section operations.
Context {V : Type}.
Implicit Types (l : list (node V)) (n : node V).

(** Reading through a pointer: [None] when no live node has the address. *)
Fixpoint deref l (p : addr) : option (node V) :=
  match l with
  | [] => None
  | n :: t => if decide (n_addr n = p) then Some n else deref t p
  end.

(** [node_traits::get_next]; [None] is the list's end node. *)
Fixpoint get_next l (p : addr) : option addr :=
  match l with
  | [] => None
  | n :: t => if decide (n_addr n = p) then n_addr <$> head t else get_next t p
  end.

(** [node_traits::get_previous]; [None] is the list's end node. *)
Fixpoint get_previous l (p : addr) : option addr :=
  match l with
  | [] => None
  | n :: t =>
      match t with
      | m :: _ => if decide (n_addr m = p) then Some (n_addr n) else get_previous t p
      | [] => None
      end
  end.

(** [m_Nodes.insert(it, n)]: before the node [pos] points to, at the end
    when [pos] is the end iterator. *)
Fixpoint list_insert l (pos : option addr) n : list (node V) :=
  match l with
  | [] => [n]
  | m :: t => if decide (Some (n_addr m) = pos) then n :: m :: t
              else m :: list_insert t pos n
  end.

Fixpoint list_erase l (p : addr) : list (node V) :=
  match l with
  | [] => []
  | m :: t => if decide (n_addr m = p) then t else m :: list_erase t p
  end.

(** The loop of [find_in_bucket]; the bound is the number of nodes. *)
Fixpoint find_in_bucket_loop (fuel : nat) l (key : N) (b : bucket)
    (p : option addr) : outcome (option addr) :=
  match fuel with
  | O => Stuck
  | S fuel =>
      if decide (p = b_last b) then Ok p
      else
        let* a := of_ptr p in
        let* n := of_ptr (deref l a) in
        if (n_key n <? key)%N then find_in_bucket_loop fuel l key b (get_next l a)
        else Ok p
  end.

Definition find_in_bucket l (key : N) (b : bucket) : outcome (option addr) :=
  find_in_bucket_loop (S (length l)) l key b (b_first b).

(** Links the new node [n]: where it goes in the list and what becomes of
    its bucket's boundaries, given the node [p] found in the bucket. *)
Definition link_node l (tbl : list bucket) (p : option addr) n
    : outcome (list (node V) * list bucket) :=
  let i := get_bucket (n_key n) in
  let* b := of_ptr (tbl !! i) in
  if decide (b_first b = None) then
    Ok (list_insert l None n, <[i := Bucket (Some (n_addr n)) (Some (n_addr n))]> tbl)
  else
    let* a := of_ptr p in
    let* w := of_ptr (deref l a) in
    if bool_decide (p = b_last b) && (n_key w <? n_key n)%N then
      Ok (list_insert l (get_next l a) n, <[i := Bucket (b_first b) (Some (n_addr n))]> tbl)
    else if decide (p = b_first b) then
      Ok (list_insert l (Some a) n, <[i := Bucket (Some (n_addr n)) (b_last b)]> tbl)
    else
      Ok (list_insert l (Some a) n, tbl).

(** Appends a copied node and extends its bucket (copy construction). *)
Definition append_node l (tbl : list bucket) n
    : outcome (list (node V) * list bucket) :=
  let i := get_bucket (n_key n) in
  let* b := of_ptr (tbl !! i) in
  if decide (b_first b = None) then
    Ok (l ++ [n], <[i := Bucket (Some (n_addr n)) (Some (n_addr n))]> tbl)
  else
    Ok (l ++ [n], <[i := Bucket (b_first b) (Some (n_addr n))]> tbl).

(** The value lookup of both containers: search the bucket and compare
    the key of the node found. [inl] is the node with the key, [inr] the
    place where the search stopped. *)
Definition lookup_node l (tbl : list bucket) (key : N)
    : outcome (node V + option addr) :=
  let* b := of_ptr (tbl !! get_bucket key) in
  match b_first b with
  | None => Ok (inr None)
  | Some _ =>
      let* p := find_in_bucket l key b in
      let* a := of_ptr p in
      let* n := of_ptr (deref l a) in
      if decide (n_key n = key) then Ok (inl n) else Ok (inr p)
  end.
End operations.

(** * The representation invariant *)

Section invariant.
Context {V : Type}.
Implicit Types (l : list (node V)) (n : node V) (seg : nat → list (node V)).

(** [seg i] is the run of nodes of bucket [i], [order] the order in which
    the runs appear in the list. *)
Record repr (order : list nat) seg l (tbl : list bucket) : Prop := Repr {
  repr_order : NoDup order;
  repr_outside : ∀ i, i ∉ order → seg i = [];
  repr_nodes : l = concat (seg <$> order);
  repr_hash : ∀ i, Forall (λ n, get_bucket (n_key n) = i) (seg i);
  repr_sorted : ∀ i, StronglySorted N.lt (n_key <$> seg i);
  repr_addrs : NoDup (n_addr <$> l);
  repr_table_len : length tbl = N.to_nat bucket_count;
  repr_table : ∀ i b, tbl !! i = Some b →
    b = Bucket (n_addr <$> head (seg i)) (n_addr <$> last (seg i)) }.

(** The container is well formed. *)
Definition wf l (tbl : list bucket) : Prop := ∃ order seg, repr order seg l tbl.

(** The finite map the nodes represent. *)
Definition to_map l : gmap N V := list_to_map ((λ n, (n_key n, n_data n)) <$> l).

(** Where [find_in_bucket] stops in a run. *)
Fixpoint stop_node (key : N) (s : list (node V)) : option (node V) :=
  match s with
  | [] => None
  | n :: t =>
      match t with
      | [] => Some n
      | _ => if (n_key n <? key)%N then stop_node key t else Some n
      end
  end.

(** Insertion of a node in a sorted run. *)
Fixpoint run_insert n (s : list (node V)) : list (node V) :=
  match s with
  | [] => [n]
  | m :: t => if (n_key m <? n_key n)%N then m :: run_insert n t else n :: m :: t
  end.
End invariant.

(** * Lemmas *)

Section lemmas.
Context {V : Type}.
Implicit Types (l s pre post : list (node V)) (n m : node V).
Implicit Types (seg : nat → list (node V)).

Lemma get_bucket_lt id : get_bucket id < N.to_nat bucket_count.
Proof.
  unfold get_bucket. replace (bucket_count - 1)%N with (N.ones 4) by done.
  rewrite N.land_ones. pose proof (N.mod_lt id (2 ^ 4)).
  change bucket_count with (2 ^ 4)%N. lia.
Qed.

Lemma fresh_not_in l1 l2 n :
  NoDup (n_addr <$> l1 ++ n :: l2) → n_addr n ∉ (n_addr <$> l1).
Proof. rewrite fmap_app, NoDup_app. set_solver. Qed.

Lemma deref_mid l1 n l2 :
  n_addr n ∉ (n_addr <$> l1) → deref (l1 ++ n :: l2) (n_addr n) = Some n.
Proof.
  induction l1 as [|m t IH]; simpl; intros Hn.
  - by rewrite decide_True.
  - rewrite decide_False by set_solver. apply IH. set_solver.
Qed.

Lemma get_next_mid l1 n l2 :
  n_addr n ∉ (n_addr <$> l1) →
  get_next (l1 ++ n :: l2) (n_addr n) = n_addr <$> head l2.
Proof.
  induction l1 as [|m t IH]; simpl; intros Hn.
  - by rewrite decide_True.
  - rewrite decide_False by set_solver. apply IH. set_solver.
Qed.

Lemma list_insert_mid l1 n m l2 :
  n_addr m ∉ (n_addr <$> l1) →
  list_insert (l1 ++ m :: l2) (Some (n_addr m)) n = l1 ++ n :: m :: l2.
Proof.
  induction l1 as [|k t IH]; simpl; intros Hn.
  - by rewrite decide_True.
  - rewrite decide_False by set_solver. f_equal. apply IH. set_solver.
Qed.

Lemma list_insert_end l n : list_insert l None n = l ++ [n].
Proof. induction l as [|m t IH]; simpl; [done|]. by rewrite IH. Qed.

Lemma list_insert_after l1 n m l2 :
  NoDup (n_addr <$> l1 ++ m :: l2) →
  list_insert (l1 ++ m :: l2) (n_addr <$> head l2) n = l1 ++ m :: n :: l2.
Proof.
  intros Hnd. destruct l2 as [|k t]; simpl.
  - by rewrite list_insert_end, <- app_assoc.
  - rewrite cons_middle, app_assoc in Hnd |- *.
    rewrite list_insert_mid by (by eapply fresh_not_in). by rewrite <- app_assoc.
Qed.

Lemma get_previous_mid l1 m n l2 :
  NoDup (n_addr <$> l1 ++ m :: n :: l2) →
  get_previous (l1 ++ m :: n :: l2) (n_addr n) = Some (n_addr m).
Proof.
  induction l1 as [|k t IH]; intros Hnd.
  - simpl. by rewrite decide_True.
  - inversion Hnd as [|?? Hk Hnd']; subst. destruct t as [|k' t'].
    + simpl in *. rewrite decide_False; [by rewrite decide_True|].
      inversion Hnd'; set_solver.
    + simpl. rewrite decide_False; [by apply IH|].
      simpl in Hnd'. inversion Hnd' as [|?? Hk' _]; subst.
      rewrite fmap_app in Hk'. set_solver.
Qed.

Lemma list_erase_mid l1 n l2 :
  n_addr n ∉ (n_addr <$> l1) →
  list_erase (l1 ++ n :: l2) (n_addr n) = l1 ++ l2.
Proof.
  induction l1 as [|k t IH]; simpl; intros Hn.
  - by rewrite decide_True.
  - rewrite decide_False by set_solver. f_equal. apply IH. set_solver.
Qed.

Lemma split_addr_unique (l1 k1 l2 k2 : list (node V)) n :
  n_addr n ∉ (n_addr <$> l1) → n_addr n ∉ (n_addr <$> k1) →
  l1 ++ n :: l2 = k1 ++ n :: k2 → l1 = k1 ∧ l2 = k2.
Proof.
  revert k1. induction l1 as [|x l1 IH]; intros [|y k1] Hl Hk He; simplify_eq/=.
  - done.
  - set_solver.
  - set_solver.
  - destruct (IH k1) as [-> ->]; set_solver.
Qed.

(** ** The search loop *)

Lemma find_in_bucket_loop_run pre s1 n s2 post key first fuel :
  NoDup (n_addr <$> pre ++ (s1 ++ n :: s2) ++ post) →
  length s2 < fuel →
  find_in_bucket_loop fuel (pre ++ (s1 ++ n :: s2) ++ post) key
    (Bucket first (n_addr <$> last (n :: s2))) (Some (n_addr n))
  = Ok (n_addr <$> stop_node key (n :: s2)).
Proof.
  revert s1 n fuel. induction s2 as [|m s2 IH]; intros s1 n [|fuel] Hnd Hf; simpl in Hf; try lia.
  - simpl. by rewrite decide_True.
  - assert (Hl : pre ++ (s1 ++ n :: m :: s2) ++ post
                 = (pre ++ s1) ++ n :: (m :: s2 ++ post)) by (by rewrite <- !app_assoc).
    assert (Hn : n_addr n ∉ (n_addr <$> pre ++ s1))
      by (rewrite Hl in Hnd; by eapply fresh_not_in).
    cbn [find_in_bucket_loop]. rewrite decide_False.
    2:{ simpl. rewrite last_cons_default. simpl. intros [= He].
        rewrite Hl, fmap_app, NoDup_app in Hnd. destruct Hnd as (_ & _ & Hnd).
        rewrite fmap_cons in Hnd. apply NoDup_cons in Hnd as [Hnd _]. apply Hnd.
        rewrite He. rewrite fmap_cons, fmap_app.
        destruct (last s2) as [x|] eqn:Ex; simpl; [|set_solver].
        apply last_Some in Ex as [s' ->]. rewrite fmap_app. set_solver. }
    cbn [of_ptr obind]. rewrite Hl, deref_mid by done. cbn [of_ptr obind].
    rewrite get_next_mid by done.
    change (stop_node key (n :: m :: s2))
      with (if (n_key n <? key)%N then stop_node key (m :: s2) else Some n).
    destruct (n_key n <? key)%N; [|done]. cbn [head fmap option_fmap option_map].
    change (last (n :: m :: s2)) with (last (m :: s2)).
    rewrite <- Hl, cons_middle, (app_assoc s1). apply IH; [|lia].
    by rewrite <- (app_assoc s1).
Qed.

Lemma find_in_bucket_run pre s post key :
  NoDup (n_addr <$> pre ++ s ++ post) →
  find_in_bucket (pre ++ s ++ post) key (Bucket (n_addr <$> head s) (n_addr <$> last s))
  = Ok (n_addr <$> stop_node key s).
Proof.
  intros Hnd. unfold find_in_bucket. destruct s as [|n s].
  - done.
  - apply (find_in_bucket_loop_run pre [] n s post); [done|].
    rewrite !length_app. simpl. lia.
Qed.

Lemma stop_node_split key s n :
  StronglySorted N.lt (n_key <$> s) → stop_node key s = Some n →
  ∃ s1 s2, s = s1 ++ n :: s2 ∧ Forall (λ m, (n_key m < key)%N) s1 ∧
    (s2 = [] ∨ (key ≤ n_key n)%N).
Proof.
  induction s as [|m s IH]; [done|]. intros Hs Hst.
  destruct s as [|k s].
  - simpl in Hst. simplify_eq. exists [], []. auto.
  - change (stop_node key (m :: k :: s))
      with (if (n_key m <? key)%N then stop_node key (k :: s) else Some m) in Hst.
    destruct (n_key m <? key)%N eqn:E; to_prop; simplify_eq.
    + inversion Hs; subst. destruct IH as (s1 & s2 & -> & Hlt & Hge); auto.
      exists (m :: s1), s2. repeat split; auto.
    + exists [], (k :: s). repeat split; auto.
Qed.

Lemma stop_node_None key s : stop_node key s = None → s = [].
Proof.
  induction s as [|m [|k s] IH]; [done|done|].
  change (stop_node key (m :: k :: s))
    with (if (n_key m <? key)%N then stop_node key (k :: s) else Some m).
  case_match; [|done]. intros H'. by apply IH in H'.
Qed.

(** In a sorted run the node where the search stops has the key exactly
    when the run has the key. *)
Lemma stop_node_key key s n m :
  StronglySorted N.lt (n_key <$> s) → stop_node key s = Some n →
  m ∈ s → n_key m = key → m = n.
Proof.
  intros Hs Hst Hm Hk. destruct (stop_node_split _ _ _ Hs Hst) as (s1 & s2 & -> & Hlt & Hge).
  rewrite elem_of_app, elem_of_cons in Hm. destruct Hm as [Hm|[->|Hm]]; [|done|].
  - rewrite Forall_forall in Hlt. specialize (Hlt _ Hm). lia.
  - destruct Hge as [->|Hge]; [by apply elem_of_nil in Hm|].
    rewrite fmap_app in Hs. apply StronglySorted_app_1_r in Hs.
    simpl in Hs. inversion Hs as [|?? _ Hall]; subst.
    rewrite Forall_fmap, Forall_forall in Hall. specialize (Hall _ Hm). simpl in Hall. lia.
Qed.

Lemma run_insert_elem n s m : m ∈ run_insert n s ↔ m = n ∨ m ∈ s.
Proof. induction s as [|k s IH]; simpl; [set_solver|]. case_match; set_solver. Qed.

Lemma run_insert_perm n s : run_insert n s ≡ₚ n :: s.
Proof.
  induction s as [|k s IH]; simpl; [done|]. case_match; [|done].
  rewrite IH. constructor.
Qed.

Lemma run_insert_sorted n s :
  StronglySorted N.lt (n_key <$> s) → n_key n ∉ (n_key <$> s) →
  StronglySorted N.lt (n_key <$> run_insert n s).
Proof.
  induction s as [|k s IH]; simpl; intros Hs Hn; [by repeat constructor|].
  inversion Hs as [|?? Hs' Hall]; subst.
  destruct (n_key k <? n_key n)%N eqn:E; to_prop.
  - simpl. constructor; [apply IH; set_solver|].
    rewrite (run_insert_perm n s). simpl. constructor; auto.
  - assert (n_key k ≠ n_key n) by set_solver.
    simpl. constructor; [done|]. constructor; [lia|].
    eapply Forall_impl; [done|]. simpl. intros. lia.
Qed.

Lemma run_insert_split n s1 m s2 :
  Forall (λ k, (n_key k < n_key n)%N) s1 →
  run_insert n (s1 ++ m :: s2)
  = s1 ++ (if (n_key m <? n_key n)%N then m :: run_insert n s2 else n :: m :: s2).
Proof.
  induction 1 as [|k s1 Hk _ IH]; simpl; [done|].
  apply N.ltb_lt in Hk. by rewrite Hk, IH.
Qed.
End lemmas.

(** * Behaviour of the operations under the invariant *)

Section behaviour.
Context {V : Type}.
Implicit Types (l s pre post : list (node V)) (n m : node V).
Implicit Types (seg : nat → list (node V)) (tbl : list bucket).

Lemma empty_repr : repr [] (λ _, []) ([] : list (node V)) empty_table.
Proof.
  split; try done; try constructor.
  intros i b Hb. apply lookup_replicate in Hb as [-> _]. done.
Qed.

Lemma repr_split order seg l tbl i :
  repr order seg l tbl → ∃ pre post, l = pre ++ seg i ++ post.
Proof.
  intros Hr. destruct (decide (i ∈ order)) as [Hi|Hi].
  - apply list_elem_of_split in Hi as (o1 & o2 & ->).
    eexists _, _. rewrite (repr_nodes _ _ _ _ Hr). apply concat_filter_app.
  - exists l, []. rewrite (repr_outside _ _ _ _ Hr) by done. by rewrite !app_nil_r.
Qed.

Lemma repr_bucket order seg l tbl i :
  repr order seg l tbl → i < N.to_nat bucket_count →
  tbl !! i = Some (Bucket (n_addr <$> head (seg i)) (n_addr <$> last (seg i))).
Proof.
  intros Hr Hi. rewrite <- (repr_table_len _ _ _ _ Hr) in Hi.
  destruct (lookup_lt_is_Some_2 tbl i Hi) as [b Hb].
  rewrite Hb. f_equal. by eapply repr_table.
Qed.

Lemma repr_elem order seg l tbl n :
  repr order seg l tbl → n ∈ l ↔ n ∈ seg (get_bucket (n_key n)).
Proof.
  intros Hr. rewrite (repr_nodes _ _ _ _ Hr), list_elem_of_In, in_concat. split.
  - intros (s & Hs & Hn). apply list_elem_of_In, list_elem_of_fmap in Hs as (i & -> & Hi).
    apply list_elem_of_In in Hn. pose proof (repr_hash _ _ _ _ Hr i) as Hh.
    rewrite Forall_forall in Hh. by rewrite (Hh _ Hn).
  - intros Hn. exists (seg (get_bucket (n_key n))). split; [|by apply list_elem_of_In].
    apply list_elem_of_In, list_elem_of_fmap. eexists. split; [done|].
    destruct (decide (get_bucket (n_key n) ∈ order)) as [|Ho]; [done|].
    rewrite (repr_outside _ _ _ _ Hr) in Hn by done. by apply elem_of_nil in Hn.
Qed.

Lemma sorted_keys_NoDup s : StronglySorted N.lt (n_key <$> s) → NoDup (n_key <$> s).
Proof.
  induction (n_key <$> s) as [|k ks IH]; intros Hs; constructor; inversion Hs as [|?? Hs' Hall]; subst.
  - intros Hk. rewrite Forall_forall in Hall. specialize (Hall _ Hk). lia.
  - auto.
Qed.

Lemma concat_keys_NoDup order seg :
  NoDup order →
  (∀ i, Forall (λ n, get_bucket (n_key n) = i) (seg i)) →
  (∀ i, StronglySorted N.lt (n_key <$> seg i)) →
  NoDup (n_key <$> concat (seg <$> order)).
Proof.
  intros Hnd Hh Hs. induction Hnd as [|i order Hi Hnd IH]; simpl; [constructor|].
  rewrite fmap_app, NoDup_app. repeat split; [by apply sorted_keys_NoDup| |done].
  intros k Hk1 Hk2. apply list_elem_of_fmap in Hk1 as (n & -> & Hn).
  apply list_elem_of_fmap in Hk2 as (m & Hkm & Hm).
  apply list_elem_of_In, in_concat in Hm as (s & Hss & Hm).
  apply list_elem_of_In, list_elem_of_fmap in Hss as (j & -> & Hj).
  apply list_elem_of_In in Hm.
  pose proof (Hh i) as Hi'. pose proof (Hh j) as Hj'. rewrite Forall_forall in Hi', Hj'.
  specialize (Hi' _ Hn). specialize (Hj' _ Hm). rewrite Hkm in Hi'. congruence.
Qed.

Lemma repr_keys_NoDup order seg l tbl : repr order seg l tbl → NoDup (n_key <$> l).
Proof.
  intros Hr. rewrite (repr_nodes _ _ _ _ Hr).
  apply concat_keys_NoDup; [eapply repr_order|eapply repr_hash|eapply repr_sorted]; done.
Qed.

Lemma wf_keys_NoDup l tbl : wf l tbl → NoDup (n_key <$> l).
Proof. intros (? & ? & ?). by eapply repr_keys_NoDup. Qed.

Lemma to_map_lookup l k v :
  NoDup (n_key <$> l) →
  to_map l !! k = Some v ↔ ∃ n, n ∈ l ∧ n_key n = k ∧ n_data n = v.
Proof.
  intros Hnd. unfold to_map. rewrite <- elem_of_list_to_map.
  - rewrite list_elem_of_fmap. split; [intros (n & [= -> ->] & ?)|intros (n & ? & <- & <-)]; eauto.
  - rewrite <- list_fmap_compose. done.
Qed.

Lemma to_map_lookup_None l k : to_map l !! k = None ↔ k ∉ (n_key <$> l).
Proof.
  unfold to_map. rewrite <- not_elem_of_list_to_map. by rewrite <- list_fmap_compose.
Qed.

Lemma to_map_perm l1 l2 :
  NoDup (n_key <$> l1) → l1 ≡ₚ l2 → to_map l1 = to_map l2.
Proof.
  intros Hnd Hp. unfold to_map. apply list_to_map_proper; [|by rewrite Hp].
  rewrite <- list_fmap_compose. done.
Qed.

(** ** Lookup *)

Lemma lookup_node_spec order seg l tbl key :
  repr order seg l tbl →
  (∃ n, n ∈ l ∧ n_key n = key ∧ lookup_node l tbl key = Ok (inl n)) ∨
  ((key ∉ (n_key <$> l)) ∧
   lookup_node l tbl key = Ok (inr (n_addr <$> stop_node key (seg (get_bucket key))))).
Proof.
  intros Hr. set (i := get_bucket key).
  destruct (repr_split _ _ _ _ i Hr) as (pre & post & Hl).
  unfold lookup_node. fold i.
  rewrite (repr_bucket _ _ _ _ i Hr) by apply get_bucket_lt. simpl.
  assert (Hno : key ∈ (n_key <$> l) → ∃ m, m ∈ seg i ∧ n_key m = key).
  { intros (m & -> & Hm)%list_elem_of_fmap. exists m. split; [|done].
    by apply (repr_elem _ _ _ _ _ Hr) in Hm. }
  destruct (head (seg i)) as [h|] eqn:Eh.
  2:{ right. apply head_None in Eh. rewrite Eh in *. split; [|done].
      intros (m & Hm & _)%Hno. by apply elem_of_nil in Hm. }
  pose proof (repr_addrs _ _ _ _ Hr) as Hnd.
  assert (Hfib : find_in_bucket l key
      (Bucket (n_addr <$> Some h) (n_addr <$> last (seg i))) = Ok (n_addr <$> stop_node key (seg i))).
  { rewrite <- Eh. rewrite Hl in Hnd |- *. by apply find_in_bucket_run. }
  simpl in Hfib |- *. rewrite Hfib. simpl.
  destruct (stop_node key (seg i)) as [n|] eqn:Est.
  2:{ apply stop_node_None in Est. by rewrite Est in Eh. }
  simpl. pose proof (repr_sorted _ _ _ _ Hr i) as Hs.
  destruct (stop_node_split _ _ _ Hs Est) as (s1 & s2 & Hseg & _ & _).
  assert (Hd : deref l (n_addr n) = Some n).
  { rewrite Hl, Hseg, app_mid_assoc in Hnd |- *.
    apply deref_mid. by eapply fresh_not_in. }
  rewrite Hd. simpl. case_decide as Hk.
  - left. exists n. repeat split; [|done]. apply (repr_elem _ _ _ _ _ Hr). rewrite Hk. fold i.
    rewrite Hseg. set_solver.
  - right. split; [|done]. intros (m & Hm & Hmk)%Hno.
    by rewrite (stop_node_key _ _ _ _ Hs Est Hm Hmk) in Hmk.
Qed.

(** ** Replacing the run of one bucket *)

Lemma concat_update order seg i s :
  i ∉ order → concat ((<[i := s]> seg : nat → list (node V)) <$> order) = concat (seg <$> order).
Proof.
  induction order as [|j order IH]; simpl; [done|]. intros Hi.
  rewrite fn_lookup_insert_ne by set_solver. f_equal. apply IH. set_solver.
Qed.

(** A bucket whose run changes from [seg i] to [s] with the table updated
    accordingly keeps the container well formed. *)
Lemma repr_update o1 o2 seg l tbl i s :
  repr (o1 ++ i :: o2) seg l tbl →
  Forall (λ n, get_bucket (n_key n) = i) s →
  StronglySorted N.lt (n_key <$> s) →
  NoDup (n_addr <$> concat (seg <$> o1) ++ s ++ concat (seg <$> o2)) →
  i < N.to_nat bucket_count →
  repr (o1 ++ i :: o2) (<[i := s]> seg)
    (concat (seg <$> o1) ++ s ++ concat (seg <$> o2))
    (<[i := Bucket (n_addr <$> head s) (n_addr <$> last s)]> tbl).
Proof.
  intros Hr Hh Hs Hnd Hi. pose proof (repr_order _ _ _ _ Hr) as Hord.
  apply NoDup_app in Hord as (Ho1 & Hd & Ho2). apply NoDup_cons in Ho2 as [Hio2 _].
  assert (Hio1 : i ∉ o1) by (intros H'; apply (Hd i H'); set_solver).
  split.
  - eapply repr_order; done.
  - intros j Hj. rewrite fn_lookup_insert_ne by set_solver. by eapply repr_outside.
  - rewrite concat_filter_app, !concat_update by done. by rewrite fn_lookup_insert.
  - intros j. destruct (decide (i = j)) as [<-|]; [by rewrite fn_lookup_insert|].
    rewrite fn_lookup_insert_ne by done. by eapply repr_hash.
  - intros j. destruct (decide (i = j)) as [<-|]; [by rewrite fn_lookup_insert|].
    rewrite fn_lookup_insert_ne by done. by eapply repr_sorted.
  - done.
  - rewrite length_insert. by eapply repr_table_len.
  - intros j b. destruct (decide (i = j)) as [<-|].
    + rewrite list_lookup_insert_eq by (rewrite (repr_table_len _ _ _ _ Hr); done).
      intros [= <-]. by rewrite fn_lookup_insert.
    + rewrite list_lookup_insert_ne, fn_lookup_insert_ne by done. by eapply repr_table.
Qed.

(** An empty bucket may be given any place in the order of runs, in
    particular the last one. *)
Lemma repr_empty_last order seg l tbl i :
  repr order seg l tbl → seg i = [] → ∃ o, repr (o ++ [i]) seg l tbl.
Proof.
  intros Hr Hi. destruct (decide (i ∈ order)) as [Ho|Ho].
  - apply list_elem_of_split in Ho as (o1 & o2 & ->). exists (o1 ++ o2).
    pose proof (repr_order _ _ _ _ Hr) as Hnd.
    assert (Hp : (o1 ++ o2) ++ [i] ≡ₚ o1 ++ i :: o2) by (by rewrite <- Permutation_cons_append, Permutation_middle).
    destruct Hr as [_ Hout Hn Hh Hs Ha Hl Ht]. split; try done.
    + by rewrite Hp.
    + intros j. rewrite Hp. apply Hout.
    + rewrite Hn, concat_filter_app, !fmap_app, !concat_app. simpl. by rewrite Hi, app_nil_r.
  - exists order. destruct Hr as [Hnd Hout Hn Hh Hs Ha Hl Ht]. split; try done.
    + rewrite NoDup_app. repeat split; [done|set_solver|apply NoDup_singleton].
    + intros j Hj. apply Hout. set_solver.
    + rewrite fmap_app, concat_app. simpl. by rewrite Hi, !app_nil_r.
Qed.

(** ** Insertion *)

Lemma link_node_nonempty o1 o2 seg l tbl n w :
  repr (o1 ++ get_bucket (n_key n) :: o2) seg l tbl →
  stop_node (n_key n) (seg (get_bucket (n_key n))) = Some w →
  n_key n ∉ (n_key <$> seg (get_bucket (n_key n))) →
  let s := run_insert n (seg (get_bucket (n_key n))) in
  ∃ tbl', link_node l tbl (Some (n_addr w)) n
    = Ok (concat (seg <$> o1) ++ s ++ concat (seg <$> o2), tbl') ∧
    tbl' = <[get_bucket (n_key n) := Bucket (n_addr <$> head s) (n_addr <$> last s)]> tbl.
Proof.
  set (i := get_bucket (n_key n)). intros Hr Hst Hnk s.
  pose proof (repr_nodes _ _ _ _ Hr) as Hl. rewrite concat_filter_app in Hl.
  pose proof (repr_addrs _ _ _ _ Hr) as Hnd.
  pose proof (repr_bucket _ _ _ _ i Hr (get_bucket_lt _)) as Hb.
  destruct (stop_node_split _ _ _ (repr_sorted _ _ _ _ Hr i) Hst) as (s1 & s2 & Hseg & Hlt & Hge).
  rewrite Hseg, app_mid_assoc in Hl. rewrite Hl in Hnd.
  pose proof (fresh_not_in _ _ _ Hnd) as Hw.
  assert (Hfa : ∃ f, b_first (Bucket (n_addr <$> head (seg i)) (n_addr <$> last (seg i))) = Some f)
    by (rewrite Hseg; destruct s1; simpl; eauto).
  destruct Hfa as [f Hf].
  unfold link_node. fold i. rewrite Hb. cbn [of_ptr obind]. rewrite Hf. rewrite decide_False by done.
  rewrite Hl, deref_mid by done. cbn [of_ptr obind b_first b_last] in *.
  assert (Hkw : n_key w ≠ n_key n).
  { intros He. apply Hnk. rewrite Hseg, <- He. set_solver. }
  assert (Hs : s = s1 ++ (if (n_key w <? n_key n)%N then w :: run_insert n s2 else n :: w :: s2))
    by (unfold s; rewrite Hseg; by apply run_insert_split).
  assert (Hlast : bool_decide (Some (n_addr w) = n_addr <$> last (seg i)) = bool_decide (s2 = [])).
  { apply bool_decide_ext. rewrite Hseg, last_app_cons, last_cons_default. simpl.
    split; [|by intros ->]. intros [= He]. destruct (last s2) as [x|] eqn:Ex.
    - exfalso. apply last_Some in Ex as [s' ->]. simpl in He.
      rewrite fmap_app, NoDup_app in Hnd. destruct Hnd as (_ & _ & Hnd).
      rewrite fmap_cons, NoDup_cons in Hnd. apply (proj1 Hnd). rewrite He, !fmap_app. set_solver.
    - by apply last_None. }
  rewrite Hlast. clear Hlast. destruct (n_key w <? n_key n)%N eqn:Ewn; to_prop.
  - destruct Hge as [->|]; [|lia]. rewrite bool_decide_eq_true_2 by done. simpl.
    eexists. split; [|done]. rewrite get_next_mid, list_insert_after by done.
    rewrite Hs. simpl. rewrite last_app_cons. f_equal. f_equal.
    + by rewrite <- !app_assoc.
    + f_equal. f_equal. rewrite Hseg in Hf. by destruct s1.
  - rewrite andb_false_r, list_insert_mid by done. rewrite Hs.
    assert (Hlast2 : last (s1 ++ n :: w :: s2) = last (seg i)).
    { by rewrite Hseg, !last_app_cons. }
    rewrite Hlast2. case_decide as Hd.
    + eexists. split; [|done].
      assert (s1 = []) as ->.
      { destruct s1 as [|x s1]; [done|]. exfalso. rewrite Hseg in Hf. simpl in Hf.
        assert (n_addr w = n_addr x) as Hwx by congruence.
        apply Hw. rewrite Hwx, fmap_app. set_solver. }
      simpl. by rewrite app_nil_r.
    + eexists. split; [|done]. f_equal. f_equal; [by rewrite <- !app_assoc|].
      symmetry. apply list_insert_id. rewrite Hb. f_equal. f_equal.
      destruct s1 as [|x s1]; [|by rewrite Hseg].
      exfalso. apply Hd. rewrite Hseg in Hf. simpl in Hf. congruence.
Qed.

Lemma link_node_spec order seg l tbl n :
  repr order seg l tbl →
  n_addr n ∉ (n_addr <$> l) →
  n_key n ∉ (n_key <$> l) →
  ∃ l' tbl',
    link_node l tbl (n_addr <$> stop_node (n_key n) (seg (get_bucket (n_key n)))) n = Ok (l', tbl') ∧
    wf l' tbl' ∧ l' ≡ₚ n :: l.
Proof.
  set (i := get_bucket (n_key n)). intros Hr Hna Hnk.
  assert (Hnk' : n_key n ∉ (n_key <$> seg i)).
  { intros (m & He & Hm)%list_elem_of_fmap. apply Hnk, list_elem_of_fmap. exists m. split; [done|].
    apply (repr_elem _ _ _ _ _ Hr). by rewrite <- He. }
  assert (Hrun : Forall (λ m, get_bucket (n_key m) = i) (run_insert n (seg i))).
  { rewrite run_insert_perm. constructor; [done|]. by eapply repr_hash. }
  pose proof (run_insert_sorted n _ (repr_sorted _ _ _ _ Hr i) Hnk') as Hsorted.
  assert (Hstep : ∀ o1 o2, repr (o1 ++ i :: o2) seg l tbl →
    repr (o1 ++ i :: o2) (<[i := run_insert n (seg i)]> seg)
      (concat (seg <$> o1) ++ run_insert n (seg i) ++ concat (seg <$> o2))
      (<[i := Bucket (n_addr <$> head (run_insert n (seg i))) (n_addr <$> last (run_insert n (seg i)))]> tbl) ∧
    concat (seg <$> o1) ++ run_insert n (seg i) ++ concat (seg <$> o2) ≡ₚ n :: l).
  { intros o1 o2 Hr'.
    assert (Hp : concat (seg <$> o1) ++ run_insert n (seg i) ++ concat (seg <$> o2) ≡ₚ n :: l).
    { rewrite (repr_nodes _ _ _ _ Hr'), concat_filter_app, run_insert_perm.
      simpl. by rewrite <- Permutation_middle. }
    split; [|done]. apply (repr_update o1 o2 seg l tbl); try done.
    - rewrite Hp. simpl. constructor; [done|]. by eapply repr_addrs.
    - apply get_bucket_lt. }
  destruct (stop_node (n_key n) (seg i)) as [w|] eqn:Est.
  - assert (Ho : i ∈ order).
    { destruct (decide (i ∈ order)) as [|Ho]; [done|].
      by rewrite (repr_outside _ _ _ _ Hr i Ho) in Est. }
    apply list_elem_of_split in Ho as (o1 & o2 & ->).
    destruct (link_node_nonempty _ _ _ _ _ _ _ Hr Est Hnk') as (tbl' & Hlk & ->).
    destruct (Hstep o1 o2 Hr) as [Hr' Hp].
    eexists _, _. split; [exact Hlk|]. split; [by eexists _, _|done].
  - apply stop_node_None in Est.
    destruct (repr_empty_last _ _ _ _ _ Hr Est) as [o Hr1].
    destruct (Hstep o [] Hr1) as [Hr' Hp]. rewrite Est in *. simpl in *.
    eexists _, _. split; [|split; [by eexists _, _|exact Hp]].
    unfold link_node. fold i. rewrite (repr_bucket _ _ _ _ i Hr) by apply get_bucket_lt.
    rewrite Est. simpl. rewrite list_insert_end. f_equal. f_equal.
    pose proof (repr_nodes _ _ _ _ Hr1) as Hn. rewrite concat_filter_app, Est in Hn.
    simpl in Hn. rewrite app_nil_r in Hn. by rewrite Hn.
Qed.
End behaviour.

(** ** Removal *)

Section removal.
Context {V : Type}.
Implicit Types (l s pre post : list (node V)) (n m : node V).
Implicit Types (seg : nat → list (node V)) (tbl : list bucket).

(** The bucket boundaries after its node [n] is unlinked, as [erase]
    computes them from the list. *)
Definition unlink_bucket l (b : bucket) (p : addr) : bucket :=
  if decide (Some p = b_first b) then
    if decide (Some p = b_last b) then Bucket None None
    else Bucket (get_next l p) (b_last b)
  else if decide (Some p = b_last b) then Bucket (b_first b) (get_previous l p)
  else b.

Lemma unlink_bucket_run pre s1 n s2 post :
  NoDup (n_addr <$> pre ++ (s1 ++ n :: s2) ++ post) →
  unlink_bucket (pre ++ (s1 ++ n :: s2) ++ post)
    (Bucket (n_addr <$> head (s1 ++ n :: s2)) (n_addr <$> last (s1 ++ n :: s2))) (n_addr n)
  = Bucket (n_addr <$> head (s1 ++ s2)) (n_addr <$> last (s1 ++ s2)).
Proof.
  intros Hnd. unfold unlink_bucket. cbn [b_first b_last].
  assert (Hrun : NoDup (n_addr <$> s1 ++ n :: s2)).
  { rewrite !fmap_app, !NoDup_app in Hnd. rewrite fmap_app. apply NoDup_app.
    destruct Hnd as (_ & _ & (?&?) & _). done. }
  pose proof (fresh_not_in _ _ _ Hrun) as Hs1.
  assert (Hs2 : n_addr n ∉ (n_addr <$> s2)).
  { rewrite fmap_app, NoDup_app in Hrun. destruct Hrun as (_ & _ & Hrun).
    rewrite fmap_cons in Hrun. by apply NoDup_cons in Hrun as [? _]. }
  rewrite app_mid_assoc in Hnd |- *. pose proof (fresh_not_in _ _ _ Hnd) as Hn.
  rewrite last_app_cons, last_cons_default.
  assert (Hlast : Some (n_addr n) = n_addr <$> Some (default n (last s2)) ↔ s2 = []).
  { simpl. split; [|by intros ->]. intros [= He]. destruct (last s2) as [x|] eqn:Ex.
    - exfalso. apply last_Some in Ex as [s' ->]. simpl in He. apply Hs2. rewrite He, fmap_app. set_solver.
    - by apply last_None. }
  destruct s1 as [|x s1]; simpl head.
  - rewrite decide_True by done. rewrite get_next_mid by done.
    destruct s2 as [|y s2]; [simpl; by rewrite decide_True|]. rewrite decide_False by (by rewrite Hlast).
    simpl app. by rewrite last_cons_default.
  - rewrite decide_False.
    2:{ simpl. intros [= He]. apply Hs1. rewrite He. set_solver. }
    destruct s2 as [|y s2].
    + rewrite decide_True by (by rewrite Hlast). rewrite app_nil_r.
      destruct (exists_last (l := x :: s1)) as (s' & m & Hx); [done|].
      assert (Hm : last (x :: s1) = Some m) by (rewrite Hx; apply last_snoc).
      rewrite Hm. rewrite Hx, (app_assoc pre), <- (app_assoc (pre ++ s')) in Hnd |- *.
      cbn [app] in *. rewrite get_previous_mid by done. by rewrite <- Hx.
    + rewrite decide_False by (by rewrite Hlast). f_equal.
      by rewrite last_app_cons, last_cons_default.
Qed.

Lemma StronglySorted_remove (ks1 : list N) k ks2 :
  StronglySorted N.lt (ks1 ++ k :: ks2) → StronglySorted N.lt (ks1 ++ ks2).
Proof.
  rewrite !StronglySorted_app. intros (Hx & H1 & H2). inversion H2; subst.
  repeat split; [|done|done]. intros. apply Hx; [done|]. set_solver.
Qed.

Lemma unlink_spec order seg l tbl n b :
  repr order seg l tbl → n ∈ l → tbl !! get_bucket (n_key n) = Some b →
  ∃ l1 l2, l = l1 ++ n :: l2 ∧ list_erase l (n_addr n) = l1 ++ l2 ∧
    wf (l1 ++ l2) (<[get_bucket (n_key n) := unlink_bucket l b (n_addr n)]> tbl).
Proof.
  set (i := get_bucket (n_key n)). intros Hr Hn Hb.
  apply (repr_elem _ _ _ _ _ Hr) in Hn as Hseg. fold i in Hseg.
  assert (Ho : i ∈ order).
  { destruct (decide (i ∈ order)) as [|Ho]; [done|].
    rewrite (repr_outside _ _ _ _ Hr i Ho) in Hseg. by apply elem_of_nil in Hseg. }
  apply list_elem_of_split in Ho as (o1 & o2 & ->).
  apply list_elem_of_split in Hseg as (s1 & s2 & Hseg).
  pose proof (repr_nodes _ _ _ _ Hr) as Hl. rewrite concat_filter_app, Hseg in Hl.
  pose proof (repr_addrs _ _ _ _ Hr) as Hnd.
  rewrite (repr_table _ _ _ _ Hr _ _ Hb), Hseg, Hl.
  rewrite Hl in Hnd. rewrite unlink_bucket_run by done.
  exists (concat (seg <$> o1) ++ s1), (s2 ++ concat (seg <$> o2)).
  rewrite app_mid_assoc in Hnd |- *. split; [done|].
  split; [apply list_erase_mid; by eapply fresh_not_in|].
  exists (o1 ++ i :: o2), (<[i := s1 ++ s2]> seg).
  replace ((concat (seg <$> o1) ++ s1) ++ s2 ++ concat (seg <$> o2))
    with (concat (seg <$> o1) ++ (s1 ++ s2) ++ concat (seg <$> o2)) by (by rewrite <- !app_assoc).
  apply (repr_update o1 o2 seg l tbl); [done| | | |apply get_bucket_lt].
  - pose proof (repr_hash _ _ _ _ Hr i) as Hh. rewrite Hseg in Hh.
    apply Forall_app in Hh as [? Hh]. inversion Hh; subst. by apply Forall_app.
  - pose proof (repr_sorted _ _ _ _ Hr i) as Hs. rewrite Hseg, !fmap_app in Hs.
    rewrite fmap_app. by eapply StronglySorted_remove.
  - rewrite fmap_app, fmap_cons in Hnd. apply NoDup_app in Hnd as (H1 & H2 & H3).
    apply NoDup_cons in H3 as [_ H3].
    rewrite <- app_assoc, app_assoc, fmap_app. apply NoDup_app. repeat split; [done| |done].
    intros x Hx ?. apply (H2 x Hx). set_solver.
Qed.
End removal.

(** ** Copying *)

Section copying.
Context {V : Type}.
Implicit Types (l s : list (node V)) (n m : node V).
Implicit Types (seg : nat → list (node V)) (tbl : list bucket).

(** The nodes of a bucket, in list order. *)
Definition bucket_nodes l (i : nat) : list (node V) :=
  filter (λ n, get_bucket (n_key n) = i) l.

(** The table points to the first and the last node of every bucket. *)
Definition table_of l tbl : Prop :=
  length tbl = N.to_nat bucket_count ∧
  ∀ i b, tbl !! i = Some b →
    b = Bucket (n_addr <$> head (bucket_nodes l i)) (n_addr <$> last (bucket_nodes l i)).

Lemma table_of_empty : table_of [] empty_table.
Proof. split; [done|]. intros i b Hb. by apply lookup_replicate in Hb as [-> _]. Qed.

Lemma bucket_nodes_snoc_eq l n :
  bucket_nodes (l ++ [n]) (get_bucket (n_key n)) = bucket_nodes l (get_bucket (n_key n)) ++ [n].
Proof. unfold bucket_nodes. by rewrite filter_app, filter_cons, decide_True. Qed.

Lemma bucket_nodes_snoc_ne l n i :
  get_bucket (n_key n) ≠ i → bucket_nodes (l ++ [n]) i = bucket_nodes l i.
Proof.
  intros. unfold bucket_nodes. rewrite filter_app, filter_cons, decide_False by done.
  apply app_nil_r.
Qed.

Lemma append_node_spec l tbl n :
  table_of l tbl →
  ∃ tbl', append_node l tbl n = Ok (l ++ [n], tbl') ∧ table_of (l ++ [n]) tbl'.
Proof.
  intros [Hlen Ht]. set (i := get_bucket (n_key n)).
  destruct (lookup_lt_is_Some_2 tbl i) as [b Hb]; [rewrite Hlen; apply get_bucket_lt|].
  assert (Hgen : ∀ f, f = n_addr <$> head (bucket_nodes l i ++ [n]) →
    table_of (l ++ [n]) (<[i := Bucket f (Some (n_addr n))]> tbl)).
  { intros f ->. split; [by rewrite length_insert|]. intros j c.
    destruct (decide (i = j)) as [<-|Hij].
    - rewrite list_lookup_insert_eq by (eapply lookup_lt_Some; done). intros [= <-].
      unfold i. rewrite bucket_nodes_snoc_eq, last_snoc. done.
    - rewrite list_lookup_insert_ne, bucket_nodes_snoc_ne by done. apply Ht. }
  unfold append_node. fold i. rewrite Hb. simpl. pose proof (Ht _ _ Hb) as ->. simpl.
  destruct (bucket_nodes l i) as [|h t] eqn:E; simpl.
  - eexists. split; [done|]. by apply Hgen.
  - eexists. split; [done|]. by apply Hgen.
Qed.

Lemma repr_bucket_nodes order seg l tbl i : repr order seg l tbl → bucket_nodes l i = seg i.
Proof.
  intros [Hnd Hout -> Hh _ _ _ _]. unfold bucket_nodes.
  destruct (decide (i ∈ order)) as [Hi|Hi].
  2:{ rewrite Hout by done. clear Hout Hnd. induction order as [|j order IH]; [done|].
      rewrite fmap_cons. cbn [concat]. rewrite filter_app, IH by set_solver. rewrite app_nil_r.
      apply filter_none. eapply Forall_impl; [apply Hh|]. simpl. set_solver. }
  clear Hout. induction Hnd as [|j order Hj Hnd IH]; [by apply elem_of_nil in Hi|].
  rewrite fmap_cons. cbn [concat]. rewrite filter_app. destruct (decide (i = j)) as [<-|Hij].
  - rewrite filter_every by apply Hh.
    replace (filter _ _) with ([] : list (node V)); [by rewrite app_nil_r|].
    symmetry. apply filter_none. apply Forall_forall. intros m Hm.
    apply list_elem_of_In, in_concat in Hm as (s & Hs & Hm).
    apply list_elem_of_In, list_elem_of_fmap in Hs as (k & -> & Hk).
    pose proof (Hh k) as Hhk. rewrite Forall_forall in Hhk.
    rewrite (Hhk m) by (by apply list_elem_of_In). intros ->. done.
  - rewrite IH by set_solver. replace (filter _ _) with ([] : list (node V)); [done|].
    symmetry. apply filter_none. eapply Forall_impl; [apply Hh|]. simpl. intros. by subst.
Qed.

(** A list with the same keys as a well-formed one and a table of its own
    is well formed: the runs of a copy are those of the original. *)
Lemma relabel_wf order seg l tbl (g : node V → node V) tbl' :
  repr order seg l tbl → (∀ n, n_key (g n) = n_key n) →
  NoDup (n_addr <$> (g <$> l)) → table_of (g <$> l) tbl' → wf (g <$> l) tbl'.
Proof.
  intros Hr Hg Hnd [Hlen Ht]. exists order, (λ i, g <$> seg i).
  assert (Hb : ∀ i, bucket_nodes (g <$> l) i = g <$> seg i).
  { intros i. rewrite <- (repr_bucket_nodes _ _ _ _ i Hr). unfold bucket_nodes.
    clear -Hg. induction l as [|m l IH]; [done|].
    rewrite fmap_cons, !filter_cons, Hg, IH.
    by destruct (decide (get_bucket (n_key m) = i)). }
  assert (Hks : ∀ s, n_key <$> (g <$> s) = n_key <$> s).
  { intros s. rewrite <- list_fmap_compose. apply list_fmap_ext. intros; simpl; apply Hg. }
  split; try done.
  - by eapply repr_order.
  - intros i Hi. by rewrite (repr_outside _ _ _ _ Hr).
  - rewrite (repr_nodes _ _ _ _ Hr). clear. induction order; [done|].
    rewrite !fmap_cons. cbn [concat]. by rewrite fmap_app, IHorder.
  - intros i. rewrite Forall_fmap. eapply Forall_impl; [by eapply repr_hash|].
    intros m Hm; simpl. by rewrite Hg.
  - intros i. rewrite Hks. by eapply repr_sorted.
  - intros i b Hib. rewrite (Ht _ _ Hib). by rewrite Hb.
Qed.

Lemma relabel_exists (h : V → V) (sys : list addr) l :
  NoDup (n_key <$> l) → length l ≤ length sys →
  ∃ g : node V → node V, (∀ n, n_key (g n) = n_key n) ∧ (∀ n, n ∈ l → n_data (g n) = h (n_data n)) ∧
    zip_with (λ a n, Node a (n_key n) (h (n_data n))) sys l = g <$> l.
Proof.
  revert sys. induction l as [|n l IH]; intros [|a sys] Hnd Hlen; simpl in *; try lia.
  - exists id. split_and!; [done| |done]. by intros ? ?%elem_of_nil.
  - exists id. split_and!; [done| |done]. by intros ? ?%elem_of_nil.
  - apply NoDup_cons in Hnd as [Hn Hnd]. destruct (IH sys Hnd) as (g & Hk & Hd & Hz); [lia|].
    assert (Hne : ∀ m, m ∈ l → n_key m ≠ n_key n).
    { intros m Hm He. apply Hn. rewrite <- He. by apply list_elem_of_fmap_2. }
    exists (λ m, if decide (n_key m = n_key n) then Node a (n_key m) (h (n_data m)) else g m).
    split_and!.
    + intros m. by case_decide.
    + intros m Hm. case_decide as He; [done|]. apply Hd. by apply elem_of_cons in Hm as [->|?].
    + rewrite decide_True by done. f_equal. rewrite Hz. apply list_fmap_ext. intros i m Hm.
      rewrite decide_False; [done|]. apply Hne, list_elem_of_lookup. eauto.
Qed.
End copying.
