(* ===== verification/AttributeSet.v ===== *)
(** [attribute_set] (src/src/attribute_set_impl.hpp, src/src/attribute_set.cpp):
    the container of attributes a source, a thread or the core owns, with its
    pooling node allocator. The nodes and the bucket table are those of
    BucketList; the theorems relate every operation to a finite map from
    attribute ids to attributes and show that no operation follows a null or
    dangling pointer. *)

From Stdlib Require Import ZArith.
From stdpp Require Import base numbers gmap sorting functions list.
From S2P Require Import Prelude BucketList.

(** [attribute_name::uninitialized]: the id of a default-constructed name.
    [attribute_name::id] asserts that it is never asked for. *)
Definition uninitialized : N := N.ones 32.

Definition name_id (key : N) : outcome N :=
  if decide (key = uninitialized) then Stuck else Ok key.

Definition max_pool_size : nat := 8.

Record attribute_set (A : Type) := AttributeSet {
  m_Nodes : list (node A);
  m_Buckets : list bucket;
  (** [m_Pool] up to [m_PooledCount], the most recently pooled node first. *)
  m_Pool : list addr }.
Arguments AttributeSet {A} m_Nodes m_Buckets m_Pool.
Arguments m_Nodes {A} _.
Arguments m_Buckets {A} _.
Arguments m_Pool {A} _.

(** [pool_allocator::allocate]; [sys] is the address the system allocator
    returns when the pool is empty. *)
Definition allocate (sys : addr) (pool : list addr) : addr * list addr :=
  match pool with
  | p :: rest => (p, rest)
  | [] => (sys, [])
  end.

(** [pool_allocator::deallocate]. *)
Definition deallocate (p : addr) (pool : list addr) : list addr :=
  if length pool <? max_pool_size then p :: pool else pool.

Section operations.
Context {A : Type}.
Implicit Types (s : attribute_set A) (key : N).

Definition empty_set : attribute_set A := AttributeSet [] empty_table [].

Definition size s : nat := length (m_Nodes s).

(** The result is an iterator (the node's address) and whether the element
    was inserted. *)
Definition insert (sys : addr) key (data : A) s : outcome (addr * bool * attribute_set A) :=
  let* id := name_id key in
  let* r := lookup_node (m_Nodes s) (m_Buckets s) id in
  match r with
  | inl n => Ok (n_addr n, false, s)
  | inr p =>
      let '(a, pool) := allocate sys (m_Pool s) in
      let* (l, tbl) := link_node (m_Nodes s) (m_Buckets s) p (Node a id data) in
      Ok (a, true, AttributeSet l tbl pool)
  end.

(** [find(key)]; [None] is the end iterator. *)
Definition find key s : outcome (option addr) :=
  let* id := name_id key in
  let* r := lookup_node (m_Nodes s) (m_Buckets s) id in
  match r with
  | inl n => Ok (Some (n_addr n))
  | inr _ => Ok None
  end.

(** [erase(iterator)]. *)
Definition erase_iter (p : addr) s : outcome (attribute_set A) :=
  let l := m_Nodes s in
  let* n := of_ptr (deref l p) in
  let* id := name_id (n_key n) in
  let i := get_bucket id in
  let* b := of_ptr (m_Buckets s !! i) in
  Ok (AttributeSet (list_erase l p) (<[i := unlink_bucket l b p]> (m_Buckets s)) (deallocate p (m_Pool s))).

(** [erase(key_type)]: the number of erased elements. *)
Definition erase_key key s : outcome (nat * attribute_set A) :=
  let* it := find key s in
  match it with
  | Some p => let* s' := erase_iter p s in Ok (1, s')
  | None => Ok (0, s)
  end.

(** [erase(begin, end)]; an iterator is an address, [None] the end. *)
Fixpoint erase_range (fuel : nat) (begin last : option addr) s : outcome (attribute_set A) :=
  if decide (begin = last) then Ok s
  else
    match fuel with
    | O => Stuck
    | S fuel =>
        let* p := of_ptr begin in
        let next := get_next (m_Nodes s) p in
        let* s' := erase_iter p s in
        erase_range fuel next last s'
    end.

(** [clear()]: every node is disposed of from the front, then the buckets
    are reset. *)
Definition clear s : attribute_set A :=
  AttributeSet [] empty_table
    (fold_left (λ pool n, deallocate (n_addr n) pool) (m_Nodes s) (m_Pool s)).

(** The copy constructor; [sys] are the addresses of the new nodes. *)
Fixpoint copy_nodes (sys : list addr) (that : list (node A))
    (l : list (node A)) (tbl : list bucket) : outcome (attribute_set A) :=
  match that with
  | [] => Ok (AttributeSet l tbl [])
  | n :: t =>
      match sys with
      | [] => Stuck
      | a :: sys =>
          let* id := name_id (n_key n) in
          let* (l', tbl') := append_node l tbl (Node a id (n_data n)) in
          copy_nodes sys t l' tbl'
      end
  end.

Definition copy (sys : list addr) s : outcome (attribute_set A) :=
  copy_nodes sys (m_Nodes s) [] empty_table.
End operations.

(** * The contract *)

Section contract.
Context {A : Type}.
Implicit Types (s : attribute_set A) (key : N).

(** The finite map a set stands for. *)
Definition abs s : gmap N A := to_map (m_Nodes s).

(** Addresses the set owns: live nodes and pooled ones. *)
Definition owned s : list addr := (n_addr <$> m_Nodes s) ++ m_Pool s.

Record set_wf s : Prop := SetWf {
  set_wf_nodes : wf (m_Nodes s) (m_Buckets s);
  set_wf_names : Forall (λ n, n_key n ≠ uninitialized) (m_Nodes s);
  set_wf_owned : NoDup (owned s);
  set_wf_pool : length (m_Pool s) ≤ max_pool_size }.

Lemma empty_set_wf : set_wf (empty_set (A := A)).
Proof.
  split; simpl; [exists [], (λ _, []); apply empty_repr|constructor|constructor|].
  unfold max_pool_size. lia.
Qed.

Lemma name_id_ok key : key ≠ uninitialized → name_id key = Ok key.
Proof. intros. unfold name_id. by rewrite decide_False. Qed.

Lemma abs_lookup s key v :
  set_wf s → abs s !! key = Some v ↔ ∃ n, n ∈ m_Nodes s ∧ n_key n = key ∧ n_data n = v.
Proof. intros Hs. apply to_map_lookup. eapply wf_keys_NoDup, set_wf_nodes, Hs. Qed.

Lemma abs_lookup_None s key : abs s !! key = None ↔ key ∉ (n_key <$> m_Nodes s).
Proof. apply to_map_lookup_None. Qed.

Lemma deref_node s n : set_wf s → n ∈ m_Nodes s → deref (m_Nodes s) (n_addr n) = Some n.
Proof.
  intros Hs (l1 & l2 & Hl)%list_elem_of_split. pose proof (set_wf_owned _ Hs) as Hnd.
  unfold owned in Hnd. apply NoDup_app in Hnd as [Hnd _]. rewrite Hl in *.
  apply deref_mid. by eapply fresh_not_in.
Qed.

Lemma deref_elem (l : list (node A)) p n : deref l p = Some n → n ∈ l ∧ n_addr n = p.
Proof.
  induction l as [|m t IH]; simpl; [done|]. case_decide.
  - intros [= ->]. set_solver.
  - intros [? ?]%IH. set_solver.
Qed.

(** Lookup through the interface: the value found is the map's. *)
Lemma find_spec s key :
  set_wf s → key ≠ uninitialized →
  ∃ it, find key s = Ok it ∧
    match it with
    | Some p => ∃ n, deref (m_Nodes s) p = Some n ∧ n_key n = key ∧ abs s !! key = Some (n_data n)
    | None => abs s !! key = None
    end.
Proof.
  intros Hs Hk. unfold find. rewrite name_id_ok by done. simpl.
  destruct (set_wf_nodes _ Hs) as (order & seg & Hr).
  destruct (lookup_node_spec _ _ _ _ key Hr) as [(n & Hn & Hnk & ->)|[Hno ->]]; simpl.
  - eexists. split; [done|]. exists n. repeat split; [by apply deref_node|done|].
    apply abs_lookup; eauto.
  - eexists. split; [done|]. by apply abs_lookup_None.
Qed.

Lemma insert_present sys key data s v :
  set_wf s → key ≠ uninitialized → abs s !! key = Some v →
  ∃ n, insert sys key data s = Ok (n_addr n, false, s) ∧ n ∈ m_Nodes s ∧ n_key n = key ∧ n_data n = v.
Proof.
  intros Hs Hk Hv. unfold insert. rewrite name_id_ok by done. simpl.
  destruct (set_wf_nodes _ Hs) as (order & seg & Hr).
  destruct (lookup_node_spec _ _ _ _ key Hr) as [(n & Hn & Hnk & ->)|[Hno _]]; simpl.
  - exists n. repeat split; try done.
    assert (abs s !! key = Some (n_data n)) by (apply abs_lookup; eauto). congruence.
  - apply abs_lookup_None in Hno. congruence.
Qed.

Lemma insert_absent_nodes sys key data s :
  set_wf s → key ≠ uninitialized → sys ∉ owned s → abs s !! key = None →
  ∃ a s', insert sys key data s = Ok (a, true, s') ∧ set_wf s' ∧ m_Nodes s' ≡ₚ Node a key data :: m_Nodes s ∧
    abs s' = <[key := data]> (abs s) ∧ deref (m_Nodes s') a = Some (Node a key data).
Proof.
  intros Hs Hk Hsys Hv. unfold insert. rewrite name_id_ok by done. simpl.
  destruct (set_wf_nodes _ Hs) as (order & seg & Hr).
  apply abs_lookup_None in Hv.
  destruct (lookup_node_spec _ _ _ _ key Hr) as [(n & Hn & Hnk & _)|[Hno ->]]; simpl.
  { exfalso. apply Hv, list_elem_of_fmap. eauto. }
  destruct (allocate sys (m_Pool s)) as [a pool] eqn:Ea.
  assert (Ha : (a ∉ (n_addr <$> m_Nodes s)) ∧ NoDup ((n_addr <$> m_Nodes s) ++ a :: pool)
               ∧ length pool ≤ max_pool_size).
  { pose proof (set_wf_owned _ Hs) as Hnd. pose proof (set_wf_pool _ Hs) as Hpl.
    unfold owned in Hnd, Hsys. unfold allocate in Ea.
    destruct (m_Pool s) as [|p rest]; simplify_eq; simpl in *.
    - rewrite app_nil_r in Hnd, Hsys. repeat split; [done| |lia].
      apply NoDup_app. repeat split; [done|set_solver|apply NoDup_singleton].
    - repeat split; [|done|lia]. apply NoDup_app in Hnd as (_ & Hd & _). set_solver. }
  destruct Ha as (Ha & Hnd & Hpl).
  destruct (link_node_spec _ _ _ _ (Node a key data) Hr Ha Hv) as (l' & tbl' & Hlk & Hwf & Hp).
  simpl in Hlk. rewrite Hlk. simpl. eexists _, _. split; [done|].
  assert (Hs' : set_wf (AttributeSet l' tbl' pool)).
  { split; simpl; [done| | |done].
    - rewrite Hp. constructor; [done|]. apply Hs.
    - unfold owned. simpl. rewrite Hp. simpl. by rewrite Permutation_middle. }
  split; [done|]. split; [done|]. split.
  - unfold abs. simpl. rewrite (to_map_perm l' (Node a key data :: m_Nodes s));
      [done| |done]. by eapply wf_keys_NoDup.
  - apply (deref_node (AttributeSet l' tbl' pool) (Node a key data)); [done|].
    simpl. rewrite Hp. set_solver.
Qed.

Lemma insert_absent sys key data s :
  set_wf s → key ≠ uninitialized → sys ∉ owned s → abs s !! key = None →
  ∃ a s', insert sys key data s = Ok (a, true, s') ∧ set_wf s' ∧
    abs s' = <[key := data]> (abs s) ∧ deref (m_Nodes s') a = Some (Node a key data).
Proof. intros H1 H2 H3 H4. destruct (insert_absent_nodes sys key data s H1 H2 H3 H4) as (a & s' & ? & ? & _ & ?). eauto. Qed.
End contract.

(** * Removal *)

Section removal.
Context {A : Type}.
Implicit Types (s : attribute_set A) (key : N) (l : list (node A)).

Lemma deallocate_elem a p pool : a ∈ deallocate p pool → a = p ∨ a ∈ pool.
Proof. unfold deallocate. case_match; set_solver. Qed.

Lemma deallocate_NoDup p pool : NoDup (p :: pool) → NoDup (deallocate p pool).
Proof. unfold deallocate. case_match; [done|]. by inversion 1. Qed.

Lemma deallocate_length p pool :
  length pool ≤ max_pool_size → length (deallocate p pool) ≤ max_pool_size.
Proof. unfold deallocate. case_match; to_prop; simpl; lia. Qed.

Lemma abs_remove l1 n l2 :
  NoDup (n_key <$> l1 ++ n :: l2) →
  to_map (l1 ++ l2) = delete (n_key n) (to_map (V := A) (l1 ++ n :: l2)).
Proof.
  intros Hnd. assert (Hp : n :: l1 ++ l2 ≡ₚ l1 ++ n :: l2) by apply Permutation_middle.
  rewrite <- (to_map_perm (n :: l1 ++ l2) (l1 ++ n :: l2)) by (try done; by rewrite Hp).
  unfold to_map. simpl. rewrite delete_insert_id; [done|].
  apply to_map_lookup_None. rewrite <- Hp in Hnd. by apply NoDup_cons in Hnd as [? _].
Qed.

Lemma erase_iter_spec p n s :
  set_wf s → deref (m_Nodes s) p = Some n →
  ∃ s' l1 l2, erase_iter p s = Ok s' ∧ set_wf s' ∧
    m_Nodes s = l1 ++ n :: l2 ∧ m_Nodes s' = l1 ++ l2 ∧
    abs s' = delete (n_key n) (abs s).
Proof.
  intros Hs Hd. destruct (deref_elem _ _ _ Hd) as [Hn <-].
  pose proof (set_wf_names _ Hs) as Hnames. rewrite Forall_forall in Hnames.
  unfold erase_iter. rewrite Hd. simpl. rewrite name_id_ok by auto. simpl.
  destruct (set_wf_nodes _ Hs) as (order & seg & Hr).
  destruct (lookup_lt_is_Some_2 (m_Buckets s) (get_bucket (n_key n))) as [b Hb].
  { rewrite (repr_table_len _ _ _ _ Hr). apply get_bucket_lt. }
  rewrite Hb. simpl.
  destruct (unlink_spec _ _ _ _ _ _ Hr Hn Hb) as (l1 & l2 & Hl & He & Hwf).
  eexists _, l1, l2. split; [done|]. simpl. rewrite He. repeat split; try done; simpl.
  - pose proof (set_wf_names _ Hs) as Hf. rewrite Hl in Hf.
    apply Forall_app in Hf as [? Hf]. inversion Hf; subst. by apply Forall_app.
  - pose proof (set_wf_owned _ Hs) as Ho. unfold owned in Ho |- *. simpl. rewrite Hl in Ho.
    assert (Hp : NoDup ((n_addr <$> l1 ++ l2) ++ n_addr n :: m_Pool s)).
    { rewrite fmap_app in Ho |- *. rewrite fmap_cons in Ho.
      rewrite <- Permutation_middle. by rewrite <- Permutation_middle in Ho. }
    apply NoDup_app in Hp as (H1 & H2 & H3). apply NoDup_app. repeat split; [done| |].
    + intros a Ha [->|Hin]%deallocate_elem; apply (H2 _ Ha); set_solver.
    + by apply deallocate_NoDup.
  - apply deallocate_length, Hs.
  - unfold abs. simpl. rewrite Hl. apply abs_remove. rewrite <- Hl.
    eapply wf_keys_NoDup, set_wf_nodes, Hs.
Qed.

Lemma erase_key_spec key s :
  set_wf s → key ≠ uninitialized →
  ∃ c s', erase_key key s = Ok (c, s') ∧ set_wf s' ∧
    abs s' = delete key (abs s) ∧ c = match abs s !! key with Some _ => 1 | None => 0 end.
Proof.
  intros Hs Hk. unfold erase_key.
  destruct (find_spec s key Hs Hk) as (it & -> & Hit). simpl. destruct it as [p|].
  - destruct Hit as (n & Hd & <- & Hv).
    destruct (erase_iter_spec _ _ _ Hs Hd) as (s' & _ & _ & -> & Hs' & _ & _ & Habs). simpl.
    exists 1, s'. rewrite Hv. done.
  - exists 0, s. rewrite Hit. by rewrite delete_id.
Qed.

Lemma erase_range_spec l1 mid l2 s fuel :
  set_wf s → m_Nodes s = l1 ++ mid ++ l2 → length mid ≤ fuel →
  ∃ s', erase_range fuel (n_addr <$> head (mid ++ l2)) (n_addr <$> head l2) s = Ok s' ∧
    set_wf s' ∧ m_Nodes s' = l1 ++ l2.
Proof.
  revert s fuel. induction mid as [|n mid IH]; intros s fuel Hs Hl Hf.
  - exists s. destruct fuel; simpl; (rewrite decide_True by done); eauto.
  - destruct fuel as [|fuel]; simpl in Hf; [lia|].
    pose proof (set_wf_owned _ Hs) as Hnd. unfold owned in Hnd.
    apply NoDup_app in Hnd as [Hnd _]. rewrite Hl in Hnd.
    assert (Hn : n_addr n ∉ (n_addr <$> l1)) by (by eapply fresh_not_in).
    cbn [erase_range head app fmap option_fmap option_map]. rewrite decide_False.
    2:{ destruct l2 as [|m l2]; simpl; [done|]. intros [= He].
        rewrite fmap_app, NoDup_app in Hnd. destruct Hnd as (_ & _ & Hnd). simpl in Hnd.
        apply NoDup_cons in Hnd as [Hnd _]. apply Hnd. rewrite fmap_app, He. set_solver. }
    simpl. rewrite Hl. simpl. rewrite get_next_mid by done.
    assert (Hd : deref (m_Nodes s) (n_addr n) = Some n) by (rewrite Hl; by apply deref_mid).
    destruct (erase_iter_spec _ _ _ Hs Hd) as (s' & k1 & k2 & -> & Hs' & Hk & Hk' & _). simpl.
    assert (k1 = l1 ∧ k2 = mid ++ l2) as [-> ->].
    { apply (split_addr_unique k1 l1 k2 (mid ++ l2) n); [|done|by rewrite <- Hk, Hl].
      apply (fresh_not_in _ k2). by rewrite <- Hk, Hl. }
    destruct (IH s' fuel Hs' Hk' ltac:(lia)) as (s'' & Hs'' & ?). eauto.
Qed.

Lemma clear_spec s : set_wf s → set_wf (clear s) ∧ abs (clear s) = ∅.
Proof.
  intros Hs. split; [|done]. split; simpl.
  - exists [], (λ _, []). apply empty_repr.
  - constructor.
  - pose proof (set_wf_owned _ Hs) as Hnd. unfold owned in *. simpl.
    revert Hnd. generalize (m_Pool s). induction (m_Nodes s) as [|n l IH]; intros pool Hnd; [done|].
    simpl in *. apply NoDup_cons in Hnd as [Hn Hnd]. apply IH.
    apply NoDup_app in Hnd as (H1 & H2 & H3). apply NoDup_app. repeat split; [done| |].
    + intros a Ha [->|Hin]%deallocate_elem; [set_solver|by eapply H2].
    + apply deallocate_NoDup. constructor; [set_solver|done].
  - pose proof (set_wf_pool _ Hs) as Hp. revert Hp. generalize (m_Pool s).
    induction (m_Nodes s) as [|n l IH]; intros pool Hp; simpl; [done|].
    apply IH. by apply deallocate_length.
Qed.
End removal.

(** * Copy construction *)

Section copying.
Context {A : Type}.
Implicit Types (s : attribute_set A) (l : list (node A)).

Lemma copy_nodes_spec sys that l tbl :
  Forall (λ n, n_key n ≠ uninitialized) that → length that ≤ length sys → table_of l tbl →
  ∃ tbl', copy_nodes sys that l tbl
    = Ok (AttributeSet (l ++ zip_with (λ a n, Node a (n_key n) (n_data n)) sys that) tbl' []) ∧
    table_of (l ++ zip_with (λ a n, Node a (n_key n) (n_data n)) sys that) tbl'.
Proof.
  revert sys l tbl. induction that as [|n that IH]; intros sys l tbl Hn Hlen Ht.
  - exists tbl. simpl. destruct sys; simpl; by rewrite app_nil_r.
  - destruct sys as [|a sys]; simpl in Hlen; [lia|]. inversion Hn; subst.
    cbn [copy_nodes]. rewrite name_id_ok by done. cbn [obind].
    destruct (append_node_spec l tbl (Node a (n_key n) (n_data n)) Ht) as (tbl1 & -> & Ht1).
    cbn [obind]. destruct (IH sys _ _ H2 ltac:(lia) Ht1) as (tbl' & -> & Ht').
    exists tbl'. simpl. rewrite <- app_assoc in *. done.
Qed.

Lemma copy_spec sys s :
  set_wf s → NoDup sys → length sys = size s →
  ∃ s', copy sys s = Ok s' ∧ set_wf s' ∧ abs s' = abs s ∧
    (λ n, (n_key n, n_data n)) <$> m_Nodes s' = (λ n, (n_key n, n_data n)) <$> m_Nodes s ∧
    owned s' = sys.
Proof.
  intros Hs Hsys Hlen. unfold copy, size in *.
  destruct (copy_nodes_spec sys (m_Nodes s) [] empty_table (set_wf_names _ Hs) ltac:(lia) table_of_empty)
    as (tbl' & -> & Ht). simpl in *.
  destruct (set_wf_nodes _ Hs) as (order & seg & Hr).
  destruct (relabel_exists (λ x, x) sys (m_Nodes s)) as (g & Hk & Hd & Hz); [by eapply repr_keys_NoDup|lia|].
  assert (Haddr : n_addr <$> (g <$> m_Nodes s) = sys).
  { rewrite <- Hz. clear -Hlen. revert Hlen. generalize (m_Nodes s). induction sys as [|a sys IH];
      intros [|n l] Hlen; simpl in *; try done. f_equal. apply IH. lia. }
  assert (Hkd : (λ n, (n_key n, n_data n)) <$> (g <$> m_Nodes s) = (λ n, (n_key n, n_data n)) <$> m_Nodes s).
  { rewrite <- list_fmap_compose. apply list_fmap_ext. intros i n Hn. simpl.
    rewrite Hk, Hd; [done|]. apply list_elem_of_lookup. eauto. }
  rewrite Hz in *. eexists. split; [done|].
  assert (Hwf : wf (g <$> m_Nodes s) tbl').
  { eapply relabel_wf; eauto. by rewrite Haddr. }
  unfold owned, abs, to_map. simpl. rewrite Haddr, app_nil_r, Hkd.
  repeat split; simpl; try done.
  - rewrite Forall_fmap. eapply Forall_impl; [apply Hs|]. intros n Hn; simpl. by rewrite Hk.
  - unfold owned. simpl. by rewrite Haddr, app_nil_r.
  - unfold max_pool_size. lia.
Qed.
End copying.

(** * Interface

    What the other components rely on: the set can be searched and iterated,
    and the two agree. *)

Class AttrStore (A S : Type) := {
  store_find : N → S → outcome (option A);
  store_elements : S → list (N * A);
  store_wf : S → Prop;
  store_keys_NoDup : ∀ s, store_wf s → NoDup (store_elements s).*1;
  store_names : ∀ s, store_wf s → Forall (λ kv, kv.1 ≠ uninitialized) (store_elements s);
  store_find_ok : ∀ s key, store_wf s → key ≠ uninitialized →
    store_find key s = Ok ((list_to_map (store_elements s) : gmap N A) !! key) }.

(** Searching through [find] and reading the attribute the iterator denotes. *)
Definition find_attr {A} (key : N) (s : attribute_set A) : outcome (option A) :=
  let* it := find key s in
  match it with
  | Some p => let* n := of_ptr (deref (m_Nodes s) p) in Ok (Some (n_data n))
  | None => Ok None
  end.

Definition elements {A} (s : attribute_set A) : list (N * A) :=
  (λ n, (n_key n, n_data n)) <$> m_Nodes s.

#[export] Program Instance attribute_set_store A : AttrStore A (attribute_set A) := {|
  store_find := find_attr;
  store_elements := elements;
  store_wf := set_wf |}.
Next Obligation.
  intros A s Hs. unfold elements. rewrite <- list_fmap_compose.
  eapply wf_keys_NoDup, set_wf_nodes, Hs.
Qed.
Next Obligation.
  intros A s Hs. unfold elements. rewrite Forall_fmap. eapply Forall_impl; [apply Hs|done].
Qed.
Next Obligation.
  intros A s key Hs Hk. unfold find_attr.
  destruct (find_spec s key Hs Hk) as (it & -> & Hit). simpl. destruct it as [p|].
  - destruct Hit as (n & -> & <- & Hv). simpl. unfold abs, to_map in Hv. unfold elements. by rewrite Hv.
  - unfold elements. unfold abs, to_map in Hit. by rewrite Hit.
Qed.

(** * Theorems *)

(** What [insert] means for the map: an attribute that is already present is
    not replaced. *)
Definition insert_spec {A} (key : N) (data : A) (m : gmap N A) : gmap N A :=
  match m !! key with Some _ => m | None => <[key := data]> m end.

(** C4: [attribute_set::insert] refines insertion without overwriting into a
    finite map: for any well-formed set, any initialized attribute name and any
    address the system allocator may return, the operation does not touch a null
    or dangling pointer, keeps the buckets, runs and node pool well formed, adds
    the attribute only when the name is absent, reports whether it did, and
    returns an iterator to the element with that name. *)
Theorem insert_refines {A} (sys : addr) (key : N) (data : A) (s : attribute_set A) :
  set_wf s → key ≠ uninitialized → sys ∉ owned s →
  ∃ it inserted s', insert sys key data s = Ok (it, inserted, s') ∧ set_wf s' ∧
    abs s' = insert_spec key data (abs s) ∧
    inserted = bool_decide (abs s !! key = None) ∧
    ∃ n, deref (m_Nodes s') it = Some n ∧ n_key n = key ∧ abs s' !! key = Some (n_data n).
Proof.
  intros Hs Hk Hsys. unfold insert_spec. destruct (abs s !! key) as [v|] eqn:E.
  - destruct (insert_present sys key data s v Hs Hk E) as (n & -> & Hn & Hnk & Hnv).
    eexists _, _, s. split_and!; try done.
    exists n. split_and!; [by apply deref_node|done|]. by rewrite E, Hnv.
  - destruct (insert_absent sys key data s Hs Hk Hsys E) as (a & s' & -> & Hs' & Habs & Hd).
    eexists _, _, s'. split_and!; try done.
    exists (Node a key data). split_and!; [done|done|]. by rewrite Habs, lookup_insert_eq.
Qed.

(** [attribute_set::erase] by name refines deletion from the finite map and
    returns the number of erased attributes (0 or 1); the bucket boundaries, the
    runs and the pool of at most eight nodes stay well formed, and no address is
    at once live and pooled. *)
Theorem erase_refines {A} (key : N) (s : attribute_set A) :
  set_wf s → key ≠ uninitialized →
  ∃ c s', erase_key key s = Ok (c, s') ∧ set_wf s' ∧ abs s' = delete key (abs s) ∧
    c = match abs s !! key with Some _ => 1 | None => 0 end.
Proof. intros Hs Hk. by apply erase_key_spec. Qed.

(** The copy constructor of [attribute_set] builds a well-formed set with
    the same attributes in the same iteration order, whose nodes are exactly the
    newly allocated ones: the copy shares no node with the original. *)
Theorem copy_refines {A} (sys : list addr) (s : attribute_set A) :
  set_wf s → NoDup sys → length sys = size s → (∀ a, a ∈ sys → a ∉ owned s) →
  ∃ s', copy sys s = Ok s' ∧ set_wf s' ∧ elements s' = elements s ∧
    (∀ a, a ∈ owned s' → a ∉ owned s).
Proof.
  intros Hs Hsys Hlen Hfresh. destruct (copy_spec sys s Hs Hsys Hlen) as (s' & -> & Hs' & _ & He & Ho).
  exists s'. split_and!; [done|done|done|]. by rewrite Ho.
Qed.

(** A set with two attributes in one bucket (ids 1 and 17) and one in another. *)
Definition sample_set : attribute_set nat :=
  AttributeSet [Node 10%N 1%N 5; Node 12%N 17%N 7; Node 11%N 2%N 6]
    (<[2 := Bucket (Some 11%N) (Some 11%N)]> (<[1 := Bucket (Some 10%N) (Some 12%N)]> empty_table)) [].

Lemma sample_set_wf : set_wf sample_set.
Proof.
  destruct (insert_absent 10%N 1%N 5 empty_set empty_set_wf) as (a1 & s1 & H1 & W1 & _);
    [done|by apply not_elem_of_nil|done|].
  vm_compute in H1. injection H1 as <- <-.
  destruct (insert_absent 11%N 2%N 6 _ W1) as (a2 & s2 & H2 & W2 & _);
    [done|vm_compute; set_solver|done|].
  vm_compute in H2. injection H2 as <- <-.
  destruct (insert_absent 12%N 17%N 7 _ W2) as (a3 & s3 & H3 & W3 & _);
    [done|vm_compute; set_solver|done|].
  vm_compute in H3. injection H3 as <- <-. exact W3.
Qed.

Lemma insert_refines_witness :
  ∃ it s', insert 20%N 33%N 9 sample_set = Ok (it, true, s') ∧ abs s' !! 33%N = Some 9.
Proof.
  destruct (insert_refines 20%N 33%N 9 sample_set) as (it & b & s' & Hi & _ & Ha & Hb & _).
  - apply sample_set_wf.
  - discriminate.
  - vm_compute. set_solver.
  - exists it, s'. split; [rewrite Hi, Hb; reflexivity|]. rewrite Ha. reflexivity.
Defined.

Lemma erase_refines_witness :
  ∃ s', erase_key 17%N sample_set = Ok (1, s') ∧ abs s' !! 17%N = None ∧ abs s' !! 1%N = Some 5.
Proof.
  destruct (erase_refines 17%N sample_set) as (c & s' & He & _ & Ha & Hc).
  - apply sample_set_wf.
  - discriminate.
  - exists s'. split; [rewrite He, Hc; reflexivity|]. rewrite Ha. split; reflexivity.
Defined.

Lemma copy_refines_witness :
  ∃ s', copy [30%N; 31%N; 32%N] sample_set = Ok s' ∧ elements s' = [(1%N, 5); (17%N, 7); (2%N, 6)].
Proof.
  destruct (copy_refines [30%N; 31%N; 32%N] sample_set) as (s' & Hc & _ & He & _).
  - apply sample_set_wf.
  - apply (bool_decide_unpack _). reflexivity.
  - reflexivity.
  - intros a Ha. vm_compute in Ha |- *. set_solver.
  - exists s'. split; [exact Hc|]. rewrite He. reflexivity.
Defined.
