(* ===== verification/ScopedAttributes.v ===== *)
(** Attributes that a scope adds and removes, and counters:
    src/include/boost/log/attributes/scoped_attribute.hpp and counter.hpp.

    A guard adds an attribute to the attributes of a logger or of the thread when it
    is constructed and removes it, through the iterator it got, when it is
    destroyed, also by an exception. *)

From Stdlib Require Import ZArith.
From stdpp Require Import base numbers list gmap.
From S2P Require Import Prelude BucketList AttributeSet.

(** * Guards *)

Section guards.
Context {A : Type}.

(** The iterator, if there is something to remove: [m_pLogger] or [m_pCore] is not
    null. *)
Record guard := Guard { m_itAttribute : option addr }.

(** The constructor; [sys] is the address of a new node. *)
Definition new_guard (sys : addr) (name : N) (attr : A) (s : attribute_set A) : outcome (guard * attribute_set A) :=
  let* (it, inserted, s) := insert sys name attr s in
  Ok (Guard (if inserted : bool then Some it else None), s).

(** The move constructor: the new guard and what is left of the old one. *)
Definition move_guard (that : guard) : guard * guard := (that, Guard None).

(** The destructor. *)
Definition destroy_guard (g : guard) (s : attribute_set A) : outcome (attribute_set A) :=
  match m_itAttribute g with
  | Some it => erase_iter it s
  | None => Ok s
  end.

(** * Programs with scopes *)

(** The macro in a block; [observe] is where a record is made, [raise] throws. *)
Inductive block :=
| observe
| raise (e : exn)
| scope (name : N) (attr : A) (body : block)
| seq_ (first second : block).

(** The addresses of nodes: one that the set does not own. *)
Context (new_node : list addr → addr).

(** The attributes, and the ones that records were made with. *)
Abbreviation M := (sm (attribute_set A * list (gmap N A))).

(** The end of the scope of a guard; a destructor that throws terminates the
    program. *)
Definition leave (g : guard) (m : M unit) : M unit := λ σ,
  let '(r, (s, log)) := m σ in
  match destroy_guard g s with
  | Ok s => (r, (s, log))
  | _ => (Stuck, (s, log))
  end.

Fixpoint run (b : block) : M unit :=
  match b with
  | observe => sm_modify (λ '(s, log), (s, log ++ [abs s]))
  | raise e => sm_throw e
  | seq_ b1 b2 => run b1;; run b2
  | scope name attr body =>
      '(s, log) ← sm_get;
      '(g, s') ← sm_lift (new_guard (new_node (owned s)) name attr s);
      sm_put (s', log);;
      leave g (run body)
  end.

(** Names that are initialized. *)
Fixpoint block_ok (b : block) : Prop :=
  match b with
  | scope name _ body => name ≠ uninitialized ∧ block_ok body
  | seq_ b1 b2 => block_ok b1 ∧ block_ok b2
  | _ => True
  end.

(** What records see: the outermost attribute of a name. *)
Fixpoint meaning (b : block) (env : gmap N A) : outcome unit * list (gmap N A) :=
  match b with
  | observe => (Ok (), [env])
  | raise e => (Throw e, [])
  | seq_ b1 b2 =>
      match meaning b1 env with
      | (Ok _, l) => let (r, l') := meaning b2 env in (r, l ++ l')
      | r => r
      end
  | scope name attr body => meaning body (env ∪ {[name := attr]})
  end.

Lemma new_guard_spec sys name attr s : set_wf s → name ≠ uninitialized → sys ∉ owned s →
  ∃ g s', new_guard sys name attr s = Ok (g, s') ∧ set_wf s' ∧ abs s' = abs s ∪ {[name := attr]} ∧
    ∀ t, set_wf t → m_Nodes t ≡ₚ m_Nodes s' → ∃ t', destroy_guard g t = Ok t' ∧ set_wf t' ∧ m_Nodes t' ≡ₚ m_Nodes s.
Proof.
  intros Hs Hn Hsys. unfold new_guard. destruct (abs s !! name) as [v|] eqn:E.
  - destruct (insert_present sys name attr s v Hs Hn E) as (n & -> & _). eexists _, s. split; [done|]. split; [done|].
    split; [|intros t Ht Hp; by exists t].
    apply map_eq. intros k. destruct (decide (k = name)) as [-> |Hk].
    + by rewrite E, (lookup_union_Some_l _ _ _ _ E).
    + rewrite lookup_union_l; [done|]. by rewrite lookup_singleton_ne.
  - destruct (insert_absent_nodes sys name attr s Hs Hn Hsys E) as (a & s' & -> & Hs' & Hp & Ha & Hd). eexists _, s'.
    split; [done|]. split; [done|]. split.
    + rewrite Ha. by apply insert_union_singleton_r.
    + intros t Ht Hperm. cbn. assert (Node a name attr ∈ m_Nodes t) as Hin by (rewrite Hperm, Hp; set_solver).
      pose proof (deref_node t (Node a name attr) Ht Hin) as Hdt. cbn in Hdt.
      destruct (erase_iter_spec a _ t Ht Hdt) as (t' & l1 & l2 & Et & Ht' & E1 & E2 & _). exists t'. split; [done|]. split; [done|].
      rewrite E2. apply (Permutation_cons_inv (a := Node a name attr)). rewrite Permutation_middle, <- E1. by rewrite Hperm.
Qed.

(** Every run of a block ends with the nodes it began with. *)
Lemma run_meaning b s log : (∀ l, new_node l ∉ l) → block_ok b → set_wf s →
  ∃ s', run b (s, log) = ((meaning b (abs s)).1, (s', log ++ (meaning b (abs s)).2)) ∧ set_wf s' ∧ m_Nodes s' ≡ₚ m_Nodes s.
Proof.
  intros Hnew. revert s log. induction b as [|e|name attr body IH|b1 IH1 b2 IH2]; intros s log Hb Hs; cbn [run meaning].
  - by exists s.
  - exists s. by rewrite app_nil_r.
  - destruct Hb as [Hn Hb]. rewrite sm_bind_run. cbn [sm_get].
    destruct (new_guard_spec (new_node (owned s)) name attr s Hs Hn (Hnew _)) as (g & s1 & E & Hs1 & Ha & Hd).
    rewrite sm_bind_run, E. cbn [sm_lift]. rewrite sm_bind_run. cbn [sm_put]. unfold leave.
    destruct (IH s1 log Hb Hs1) as (s2 & -> & Hs2 & Hp). destruct (Hd s2 Hs2 Hp) as (s3 & -> & Hs3 & Hp3).
    exists s3. by rewrite Ha.
  - destruct Hb as [Hb1 Hb2]. rewrite sm_bind_run. destruct (IH1 s log Hb1 Hs) as (s1 & -> & Hs1 & Hp1).
    destruct (meaning b1 (abs s)) as [[[]|e|] l] eqn:E; cbn [fst snd].
    + destruct (IH2 s1 (log ++ l) Hb2 Hs1) as (s2 & -> & Hs2 & Hp2). exists s2.
      assert (abs s1 = abs s) as ->.
      { apply to_map_perm; [|by symmetry]. eapply wf_keys_NoDup, set_wf_nodes, Hs1. }
      destruct (meaning b2 (abs s)) as [r l']. cbn. rewrite app_assoc. split; [done|]. split; [done|]. by rewrite Hp2.
    + by exists s1.
    + by exists s1.
Qed.

(** Scopes do not outlive their blocks: whatever happens in a block, nested scopes
    and exceptions included, the set has the same attributes after it, each record
    is made with the attributes of the scopes around it, an outer one before an
    inner one of the same name, and no iterator is used after its node is gone. *)
Theorem scopes_restore b s : (∀ l, new_node l ∉ l) → block_ok b → set_wf s →
  ∃ s', run b (s, []) = ((meaning b (abs s)).1, (s', (meaning b (abs s)).2)) ∧ set_wf s' ∧ abs s' = abs s ∧
    (meaning b (abs s)).1 ≠ Stuck.
Proof.
  intros Hnew Hb Hs. destruct (run_meaning b s [] Hnew Hb Hs) as (s' & E & Hs' & Hp). exists s'. split; [done|]. split; [done|]. split.
  - apply to_map_perm; [|done]. eapply wf_keys_NoDup, set_wf_nodes, Hs'.
  - clear. generalize (abs s). induction b as [|e|name attr body IH|b1 IH1 b2 IH2]; intros env; cbn; [done|done|apply IH|].
    specialize (IH1 env). destruct (meaning b1 env) as [[[]|e|] l]; [|done..]. specialize (IH2 env).
    by destruct (meaning b2 env).
Qed.
End guards.

(** * Counters *)

(** [counter::impl] for an unsigned type of [width] bits. *)
Record counter := Counter { m_counter : Z; m_step : Z; width : Z }.

(** [get_value]: [fetch_add] returns the previous value. *)
Definition get_value (c : counter) : Z * counter :=
  (m_counter c, Counter ((m_counter c + m_step c) mod 2 ^ width c) (m_step c) (width c)).

Fixpoint get_values (n : nat) (c : counter) : list Z :=
  match n with
  | O => []
  | S n => let (x, c) := get_value c in x :: get_values n c
  end.

Lemma get_values_lookup n c i : (0 ≤ m_counter c < 2 ^ width c)%Z → i < n →
  get_values n c !! i = Some ((m_counter c + Z.of_nat i * m_step c) mod 2 ^ width c)%Z.
Proof.
  revert c i. induction n as [|n IH]; intros c i Hc Hi; [lia|]. destruct i as [|i]; cbn [get_values get_value lookup list_lookup].
  - by rewrite Z.add_0_r, Z.mod_small.
  - rewrite IH; [|cbn; apply Z.mod_pos_bound; lia|lia]. cbn [m_counter m_step width]. f_equal.
    rewrite Zplus_mod_idemp_l. f_equal. lia.
Qed.

(** The values of a counter with an odd step, such as the one of line numbers, are
    different until all values of the type have been used, in whatever order
    threads get them. *)
Theorem counter_unique n c : (0 ≤ m_counter c < 2 ^ width c)%Z → (0 ≤ width c)%Z → Z.odd (m_step c) = true →
  (Z.of_nat n ≤ 2 ^ width c)%Z → NoDup (get_values n c).
Proof.
  intros Hc Hw Hodd Hn. apply NoDup_alt. intros i j x Hi Hj.
  assert (∀ k y, get_values n c !! k = Some y → k < n ∧ y = ((m_counter c + Z.of_nat k * m_step c) mod 2 ^ width c)%Z) as H.
  { intros k y Hk. assert (length (get_values n c) = n) as Hlen by (clear; revert c; induction n; intros; cbn; [done|by rewrite IHn]).
    apply lookup_lt_Some in Hk as Hlt. rewrite Hlen in Hlt. split; [done|]. rewrite get_values_lookup in Hk by done. congruence. }
  apply H in Hi as [Hin ->]. apply H in Hj as [Hjn E].
  assert ((2 ^ width c | (Z.of_nat i - Z.of_nat j) * m_step c)%Z) as Hdiv.
  { apply Z.mod_divide; [lia|]. rewrite Z.mul_sub_distr_r.
    rewrite <- (Z.add_simpl_l (m_counter c) (Z.of_nat i * m_step c)).
    replace (m_counter c + Z.of_nat i * m_step c - m_counter c - Z.of_nat j * m_step c)%Z
      with ((m_counter c + Z.of_nat i * m_step c) - (m_counter c + Z.of_nat j * m_step c))%Z by lia.
    rewrite Zminus_mod, E, Z.sub_diag. apply Z.mod_0_l. lia. }
  assert (Z.gcd (2 ^ width c) (m_step c) = 1)%Z as Hgcd.
  { apply Z.coprime_pow_l; [done|]. apply Z.odd_spec in Hodd as [k Hk]. apply Z.bezout_1_gcd. exists (- k)%Z, 1%Z. lia. }
  rewrite Z.mul_comm in Hdiv. apply Z.gauss in Hdiv; [|done]. apply Z.divide_abs_r in Hdiv.
  destruct (decide (i = j)); [done|]. apply Z.divide_pos_le in Hdiv; lia.
Qed.
