(* ===== verification/AttributeValueSet.v ===== *)
(** [attribute_value_set] (src/src/attribute_value_set.cpp): the attribute
    values of one log record. Values are acquired lazily: a lookup first
    searches the nodes already acquired, then asks the source, the thread and
    the global attribute set, in that order; [freeze] acquires everything that
    is left. *)

From Stdlib Require Import ZArith.
From stdpp Require Import base numbers gmap sorting functions list.
From S2P Require Import Prelude BucketList AttributeSet.

(** A value with the [m_DynamicallyAllocated] flag of its node. *)
Abbreviation vnode V := (node (V * bool)).

Record attribute_value_set (V S : Type) := ValueSet {
  m_pSourceAttributes : option S;
  m_pThreadAttributes : option S;
  m_pGlobalAttributes : option S;
  v_Nodes : list (vnode V);
  v_Buckets : list bucket;
  (** The unused slots [m_pEnd .. m_pEOS) of the preallocated storage. *)
  v_Storage : list addr }.
Arguments ValueSet {V S}.
Arguments m_pSourceAttributes {V S} _.
Arguments m_pThreadAttributes {V S} _.
Arguments m_pGlobalAttributes {V S} _.
Arguments v_Nodes {V S} _.
Arguments v_Buckets {V S} _.
Arguments v_Storage {V S} _.

(** Operator [new]: an address that is not in use. *)
Definition new_addr (used : list addr) : addr := N.succ (foldr N.max 0%N used).

Section operations.
Context {A V W S : Type} `{!AttrStore A S}.
(** [attribute::get_value]: user code that may change the world or throw. *)
Context (get_value : A → W → outcome V * W).

Abbreviation vset := (attribute_value_set V S).
Abbreviation M := (sm (vset * W)).
Implicit Types (v : vset) (key : N).

Definition used_addrs v : list addr := (n_addr <$> v_Nodes v) ++ v_Storage v.

Definition set_nodes v l tbl storage : vset :=
  ValueSet (m_pSourceAttributes v) (m_pThreadAttributes v) (m_pGlobalAttributes v) l tbl storage.

Definition run_get_value (a : A) : M V := λ '(v, w),
  let '(r, w') := get_value a w in (r, (v, w')).

(** [insert_node]: takes a slot of the storage or allocates. *)
Definition insert_node key (where_ : option addr) (data : V) : M addr :=
  '(v, w) ← sm_get;
  let '(p, dynamic, storage) :=
    match v_Storage v with
    | p :: rest => (p, false, rest)
    | [] => (new_addr (used_addrs v), true, [])
    end in
  '(l, tbl) ← sm_lift (link_node (v_Nodes v) (v_Buckets v) where_ (Node p key (data, dynamic)));
  _ ← sm_put (set_nodes v l tbl storage, w);
  mret p.

Definition try_acquire key (where_ : option addr) (attrs : option S) : M (option addr) :=
  match attrs with
  | None => mret None
  | Some s =>
      it ← sm_lift (store_find key s);
      match it with
      | None => mret None
      | Some a =>
          data ← run_get_value a;
          p ← insert_node key where_ data;
          mret (Some p)
      end
  end.

(** [freeze_node]: the source's attribute hides the thread's, which hides
    the global one. *)
Definition freeze_node key (where_ : option addr) : M (option addr) :=
  '(v, _) ← sm_get;
  r ← try_acquire key where_ (m_pSourceAttributes v);
  match r with
  | Some p => mret (Some p)
  | None =>
      r ← try_acquire key where_ (m_pThreadAttributes v);
      match r with
      | Some p => mret (Some p)
      | None => try_acquire key where_ (m_pGlobalAttributes v)
      end
  end.

(** [find]: the value found, [None] for the end iterator. *)
Definition find_node key : M (option addr) :=
  '(v, _) ← sm_get;
  id ← sm_lift (name_id key);
  r ← sm_lift (lookup_node (v_Nodes v) (v_Buckets v) id);
  match r with
  | inl n => mret (Some (n_addr n))
  | inr p => freeze_node id p
  end.

Definition find_value key : M (option V) :=
  it ← find_node key;
  match it with
  | None => mret None
  | Some p =>
      '(v, _) ← sm_get;
      n ← sm_lift (of_ptr (deref (v_Nodes v) p));
      mret (Some (n_data n).1)
  end.

(** [freeze_nodes_from]: acquires the values that are not acquired yet. *)
Fixpoint freeze_nodes_from (attrs : list (N * A)) : M unit :=
  match attrs with
  | [] => mret ()
  | (key, a) :: rest =>
      '(v, _) ← sm_get;
      id ← sm_lift (name_id key);
      r ← sm_lift (lookup_node (v_Nodes v) (v_Buckets v) id);
      match r with
      | inl _ => freeze_nodes_from rest
      | inr p =>
          data ← run_get_value a;
          _ ← insert_node id p data;
          freeze_nodes_from rest
      end
  end.

Definition drop_source v := ValueSet None (m_pThreadAttributes v) (m_pGlobalAttributes v)
  (v_Nodes v) (v_Buckets v) (v_Storage v).
Definition drop_thread v := ValueSet (m_pSourceAttributes v) None (m_pGlobalAttributes v)
  (v_Nodes v) (v_Buckets v) (v_Storage v).
Definition drop_global v := ValueSet (m_pSourceAttributes v) (m_pThreadAttributes v) None
  (v_Nodes v) (v_Buckets v) (v_Storage v).

Definition freeze_set (attrs : option S) (drop : vset → vset) : M unit :=
  match attrs with
  | None => mret ()
  | Some s =>
      _ ← freeze_nodes_from (store_elements s);
      sm_modify (λ '(v, w), (drop v, w))
  end.

(** [freeze]: source, thread and global attributes in this order; a set is
    forgotten once all of its values are acquired. *)
Definition freeze : M unit :=
  '(v, _) ← sm_get;
  _ ← freeze_set (m_pSourceAttributes v) drop_source;
  _ ← freeze_set (m_pThreadAttributes v) drop_thread;
  freeze_set (m_pGlobalAttributes v) drop_global.

(** [size]: freezes, then counts. *)
Definition vsize : M nat :=
  _ ← freeze;
  '(v, _) ← sm_get;
  mret (length (v_Nodes v)).

(** [insert(key, mapped)]. *)
Definition insert_value key (mapped : V) : M (addr * bool) :=
  '(v, _) ← sm_get;
  id ← sm_lift (name_id key);
  b ← sm_lift (of_ptr (v_Buckets v !! get_bucket id));
  p ← sm_lift (find_in_bucket (v_Nodes v) id b);
  match p with
  | None => q ← insert_node id None mapped; mret (q, true)
  | Some a =>
      n ← sm_lift (of_ptr (deref (v_Nodes v) a));
      if decide (n_key n = id) then mret (a, false)
      else q ← insert_node id p mapped; mret (q, true)
  end.
End operations.

(** * Construction *)

Section construction.
Context {A V W S : Type} `{!AttrStore A S}.
Context (get_value : A → W → outcome V * W).
Abbreviation vset := (attribute_value_set V S).

(** The addresses of a fresh block of [n] nodes. *)
Definition new_storage (n : nat) : list addr := N.of_nat <$> seq 1 n.

(** [create(element_count, source, thread, global)]. *)
Definition create (element_count : nat) (source thread global : option S) : vset :=
  ValueSet source thread global [] empty_table (new_storage element_count).

(** [create(source_attrs, thread_attrs, global_attrs, reserve_count)]. *)
Definition create_from_sets (source thread global : S) (reserve_count : nat) : vset :=
  create (length (store_elements source) + length (store_elements thread)
          + length (store_elements global) + reserve_count)
    (Some source) (Some thread) (Some global).

(** [copy_nodes_from]: [m_pEnd++] past the end of the storage is undefined. *)
Fixpoint copy_nodes_from (from : list (vnode V)) (p : vset) : outcome vset :=
  match from with
  | [] => Ok p
  | n :: rest =>
      match v_Storage p with
      | [] => Stuck
      | a :: storage =>
          let* id := name_id (n_key n) in
          let* (l, tbl) := append_node (v_Nodes p) (v_Buckets p) (Node a id ((n_data n).1, false)) in
          copy_nodes_from rest (set_nodes p l tbl storage)
      end
  end.

(** [create(attribute_value_set const&, thread, global, reserve)]: the
    source set is frozen by [size()]; the outcome is the new set, the state
    the (frozen) source. *)
Definition create_from_values (thread global : S) (reserve_count : nat)
    : sm (vset * W) vset :=
  n ← vsize get_value;
  '(v, _) ← sm_get;
  sm_lift (copy_nodes_from (v_Nodes v)
    (create (n + length (store_elements thread) + length (store_elements global) + reserve_count)
       None (Some thread) (Some global))).

(** [create(BOOST_RV_REF(attribute_value_set), thread, global, reserve)]. *)
Definition create_move (source : vset) (thread global : S) : vset :=
  ValueSet (m_pSourceAttributes source) (Some thread) (Some global)
    (v_Nodes source) (v_Buckets source) (v_Storage source).

(** [copy(that)]. *)
Definition copy_values : sm (vset * W) vset :=
  n ← vsize get_value;
  '(v, _) ← sm_get;
  sm_lift (copy_nodes_from (v_Nodes v) (create n None None None)).
End construction.

(** * Invariant and abstraction *)

Section invariant.
Context {A V W S : Type} `{!AttrStore A S}.
Context (get_value : A → W → outcome V * W).
Abbreviation vset := (attribute_value_set V S).
Implicit Types (v : vset) (w : W) (key : N).

(** The attributes of an optional set as a map. *)
Definition attrs_map (s : option S) : gmap N A :=
  match s with Some s => list_to_map (store_elements s) | None => ∅ end.

(** The attributes not yet forgotten, the source's first. *)
Definition pending v : gmap N A :=
  attrs_map (m_pSourceAttributes v) ∪ attrs_map (m_pThreadAttributes v)
    ∪ attrs_map (m_pGlobalAttributes v).

(** The values already acquired. *)
Definition frozen v : gmap N V := fst <$> to_map (v_Nodes v).

Definition opt_wf (s : option S) : Prop :=
  match s with Some s => store_wf s | None => True end.

Record vset_wf v : Prop := VsetWf {
  vset_wf_nodes : wf (v_Nodes v) (v_Buckets v);
  vset_wf_names : Forall (λ n, n_key n ≠ uninitialized) (v_Nodes v);
  vset_wf_addrs : NoDup (used_addrs v);
  vset_wf_source : opt_wf (m_pSourceAttributes v);
  vset_wf_thread : opt_wf (m_pThreadAttributes v);
  vset_wf_global : opt_wf (m_pGlobalAttributes v) }.

Definition same_sets v v' : Prop :=
  m_pSourceAttributes v' = m_pSourceAttributes v ∧
  m_pThreadAttributes v' = m_pThreadAttributes v ∧
  m_pGlobalAttributes v' = m_pGlobalAttributes v.

Lemma same_sets_pending v v' : same_sets v v' → pending v' = pending v.
Proof. intros (H1 & H2 & H3). unfold pending. by rewrite H1, H2, H3. Qed.

Lemma same_sets_trans v1 v2 v3 : same_sets v1 v2 → same_sets v2 v3 → same_sets v1 v3.
Proof. unfold same_sets. intuition congruence. Qed.

Lemma new_addr_fresh used : new_addr used ∉ used.
Proof.
  intros Hin. assert (Hle : ∀ a, a ∈ used → (a ≤ foldr N.max 0%N used)%N).
  { clear. induction used as [|b used IH]; intros a Ha; [by apply elem_of_nil in Ha|].
    simpl. apply elem_of_cons in Ha as [->|Ha]; [lia|]. specialize (IH _ Ha). lia. }
  specialize (Hle _ Hin). unfold new_addr in Hle. lia.
Qed.

Lemma frozen_lookup_None v key : frozen v !! key = None ↔ key ∉ (n_key <$> v_Nodes v).
Proof. unfold frozen. rewrite lookup_fmap, fmap_None. apply to_map_lookup_None. Qed.

Lemma frozen_lookup v n : vset_wf v → n ∈ v_Nodes v → frozen v !! n_key n = Some (n_data n).1.
Proof.
  intros Hv Hn. unfold frozen. rewrite lookup_fmap.
  rewrite (proj2 (to_map_lookup (v_Nodes v) (n_key n) (n_data n) (wf_keys_NoDup _ _ (vset_wf_nodes _ Hv)))); [done|].
  eauto.
Qed.

Lemma vderef_node v n : vset_wf v → n ∈ v_Nodes v → deref (v_Nodes v) (n_addr n) = Some n.
Proof.
  intros Hv (l1 & l2 & Hl)%list_elem_of_split. pose proof (vset_wf_addrs _ Hv) as Hnd.
  unfold used_addrs in Hnd. apply NoDup_app in Hnd as [Hnd _]. rewrite Hl in *.
  apply deref_mid. by eapply fresh_not_in.
Qed.

Lemma insert_node_spec v w key p data :
  vset_wf v → key ≠ uninitialized → lookup_node (v_Nodes v) (v_Buckets v) key = Ok (inr p) →
  ∃ a v' dyn, insert_node key p data (v, w) = (Ok a, (v', w)) ∧ vset_wf v' ∧ same_sets v v' ∧
    frozen v' = <[key := data]> (frozen v) ∧
    deref (v_Nodes v') a = Some (Node a key (data, dyn)).
Proof.
  intros Hv Hk Hlk. destruct (vset_wf_nodes _ Hv) as (order & seg & Hr).
  destruct (lookup_node_spec _ _ _ _ key Hr) as [(n & _ & _ & E)|[Hno E]];
    rewrite Hlk in E; simplify_eq.
  pose proof (vset_wf_addrs _ Hv) as Hnd.
  set (slot := match v_Storage v with
               | p :: rest => (p, false, rest)
               | [] => (new_addr (used_addrs v), true, []) end).
  assert (Hslot : (slot.1.1 ∉ (n_addr <$> v_Nodes v)) ∧ NoDup ((n_addr <$> v_Nodes v) ++ slot.1.1 :: slot.2)).
  { unfold slot. pose proof (new_addr_fresh (used_addrs v)) as Hnew. unfold used_addrs in *.
    destruct (v_Storage v) as [|a rest]; simpl.
    - rewrite app_nil_r in *. split; [done|].
      apply NoDup_app. split_and!; [done|set_solver|apply NoDup_singleton].
    - split; [|done]. apply NoDup_app in Hnd as (_ & Hd & _). set_solver. }
  destruct slot as [[a dyn] storage] eqn:Eslot. simpl in Hslot. destruct Hslot as [Ha Hnd'].
  destruct (link_node_spec _ _ _ _ (Node a key (data, dyn)) Hr Ha Hno) as (l' & tbl' & Hlink & Hwf & Hp).
  exists a, (set_nodes v l' tbl' storage), dyn.
  assert (Hv' : vset_wf (set_nodes v l' tbl' storage)).
  { destruct Hv. split; try done; unfold used_addrs; simpl.
    - rewrite Hp. by constructor.
    - rewrite Hp. simpl. by rewrite Permutation_middle. }
  split_and!; [|done|done| |].
  - unfold insert_node, sm_get, mbind, sm_bind. fold slot. simpl in Hlink. simpl.
    change (match v_Storage v with [] => _ | p :: rest => _ end) with slot. rewrite Eslot.
    unfold sm_lift. rewrite Hlink. done.
  - unfold frozen. simpl. rewrite (to_map_perm l' (Node a key (data, dyn) :: v_Nodes v));
      [|by eapply wf_keys_NoDup|done]. unfold to_map. simpl. by rewrite fmap_insert.
  - apply (vderef_node (set_nodes v l' tbl' storage) (Node a key (data, dyn))); [done|].
    simpl. rewrite Hp. set_solver.
Qed.

(** The result of acquiring the attribute [o] under the name [key]. *)
Definition acquire_post v w key (o : option A) (r : outcome (option addr) * (vset * W)) : Prop :=
  match o with
  | None => r = (Ok None, (v, w))
  | Some a =>
      match get_value a w with
      | (Ok x, w') => ∃ q v' dyn, r = (Ok (Some q), (v', w')) ∧
          vset_wf v' ∧ same_sets v v' ∧ frozen v' = <[key := x]> (frozen v) ∧
          deref (v_Nodes v') q = Some (Node q key (x, dyn))
      | (Throw e, w') => r = (Throw e, (v, w'))
      | (Stuck, w') => r = (Stuck, (v, w'))
      end
  end.

Lemma try_acquire_spec v w key p s :
  vset_wf v → key ≠ uninitialized → opt_wf s →
  lookup_node (v_Nodes v) (v_Buckets v) key = Ok (inr p) →
  acquire_post v w key (attrs_map s !! key) (try_acquire get_value key p s (v, w)).
Proof.
  intros Hv Hk Hs Hlk. unfold acquire_post.
  destruct s as [s|]; simpl in *; [|by rewrite lookup_empty].
  unfold sm_lift, mbind, sm_bind. rewrite store_find_ok by done.
  destruct (_ !! key) as [a|]; [|done]. unfold run_get_value.
  destruct (get_value a w) as [[x|e|] w']; [|done|done].
  destruct (insert_node_spec v w' key p x Hv Hk Hlk) as (q & v' & dyn & -> & ? & ? & ? & ?).
  exists q, v', dyn. done.
Qed.

(** Asking the next set when the first has no attribute with the name. *)
Lemma acquire_post_else v w key o1 o2 (m1 m2 : sm (vset * W) (option addr)) :
  acquire_post v w key o1 (m1 (v, w)) →
  acquire_post v w key o2 (m2 (v, w)) →
  acquire_post v w key (match o1 with Some a => Some a | None => o2 end)
    ((r ← m1; match r with Some p => mret (Some p) | None => m2 end) (v, w)).
Proof.
  intros H1 H2. unfold mbind, sm_bind. destruct o1 as [a|]; simpl in *.
  - destruct (get_value a w) as [[x|e|] w'].
    + destruct H1 as (q & v' & dyn & -> & ?). exists q, v', dyn. done.
    + by rewrite H1.
    + by rewrite H1.
  - by rewrite H1.
Qed.

(** What a lookup does, by cases: an acquired value is returned and nothing
    changes; otherwise the first attribute with the name is asked. *)
Definition find_post v w key (r : outcome (option V) * (vset * W)) : Prop :=
  match frozen v !! key with
  | Some x => r = (Ok (Some x), (v, w))
  | None =>
      match pending v !! key with
      | None => r = (Ok None, (v, w))
      | Some a =>
          match get_value a w with
          | (Ok x, w') => ∃ v', r = (Ok (Some x), (v', w')) ∧ vset_wf v' ∧ same_sets v v' ∧
              frozen v' = <[key := x]> (frozen v)
          | (Throw e, w') => r = (Throw e, (v, w'))
          | (Stuck, w') => r = (Stuck, (v, w'))
          end
      end
  end.

Lemma pending_lookup v key :
  pending v !! key =
  match attrs_map (m_pSourceAttributes v) !! key with
  | Some a => Some a
  | None => match attrs_map (m_pThreadAttributes v) !! key with
            | Some a => Some a
            | None => attrs_map (m_pGlobalAttributes v) !! key
            end
  end.
Proof.
  unfold pending. rewrite !lookup_union.
  destruct (attrs_map (m_pSourceAttributes v) !! key), (attrs_map (m_pThreadAttributes v) !! key),
    (attrs_map (m_pGlobalAttributes v) !! key); done.
Qed.

Lemma find_value_spec v w key :
  vset_wf v → key ≠ uninitialized → find_post v w key (find_value get_value key (v, w)).
Proof.
  intros Hv Hk. unfold find_post.
  destruct (vset_wf_nodes _ Hv) as (order & seg & Hr).
  destruct (lookup_node_spec _ _ _ _ key Hr) as [(n & Hn & Hnk & Hlk)|[Hno Hlk]].
  - unfold find_value, find_node, sm_get, sm_lift, mbind, sm_bind.
    rewrite name_id_ok, Hlk by done. rewrite <- Hnk, (frozen_lookup v n) by done.
    simpl. by rewrite vderef_node.
  - rewrite (proj2 (frozen_lookup_None v key)) by done. rewrite pending_lookup.
    assert (Hf : acquire_post v w key (match attrs_map (m_pSourceAttributes v) !! key with
        | Some a => Some a
        | None => match attrs_map (m_pThreadAttributes v) !! key with
                  | Some a => Some a
                  | None => attrs_map (m_pGlobalAttributes v) !! key end end)
        (find_node get_value key (v, w))).
    { unfold find_node, sm_get, sm_lift. rewrite sm_bind_run, sm_bind_run, name_id_ok by done.
      rewrite sm_bind_run, Hlk. unfold freeze_node, sm_get. rewrite sm_bind_run.
      apply acquire_post_else; [|apply acquire_post_else];
        apply try_acquire_spec; done || by apply Hv. }
    unfold find_value. rewrite sm_bind_run. revert Hf. unfold acquire_post.
    destruct (match attrs_map (m_pSourceAttributes v) !! key with Some a => Some a | None => _ end) as [a|].
    + destruct (get_value a w) as [[x|e|] w'].
      * intros (q & v' & dyn & -> & Hv' & Hss & Hfr & Hd). exists v'.
        unfold sm_get, sm_lift, mbind, sm_bind. rewrite Hd. done.
      * by intros ->.
      * by intros ->.
    + by intros ->.
Qed.
End invariant.

(** * Freezing *)

Section freezing.
Context {A V W S : Type} `{!AttrStore A S}.
Context (get_value : A → W → outcome V * W).
Abbreviation vset := (attribute_value_set V S).
Implicit Types (v : vset) (w : W) (key : N) (src : gmap N A).

(** [v'] has all the values of [v] and perhaps more, each of them returned
    by the attribute [src] has under its name. *)
Record extends src v v' : Prop := Extends {
  ext_wf : vset_wf v';
  ext_mono : frozen v ⊆ frozen v';
  ext_origin : ∀ key x, frozen v' !! key = Some x → frozen v !! key = None →
    ∃ a w1 w2, src !! key = Some a ∧ get_value a w1 = (Ok x, w2) }.

(** The exception comes from an attribute. *)
Definition thrown (e : exn) : Prop := ∃ a w1 w2, get_value a w1 = (Throw e, w2).

(** The attributes of a set in the order [freeze] walks it, and those of the
    three sets of a record one after the other. *)
Definition attr_list (s : option S) : list (N * A) :=
  match s with Some s => store_elements s | None => [] end.
Definition pending_list v : list (N * A) :=
  attr_list (m_pSourceAttributes v) ++ attr_list (m_pThreadAttributes v)
    ++ attr_list (m_pGlobalAttributes v).

(** The reference of [freeze]: the attributes of [l] in turn, each whose name
    has no value yet is asked for its value, once; the first one that does not
    return a value ends the walk. *)
Fixpoint acquire_all (l : list (N * A)) (m : gmap N V) w : outcome unit * (gmap N V * W) :=
  match l with
  | [] => (Ok (), (m, w))
  | (key, a) :: rest =>
      match m !! key with
      | Some _ => acquire_all rest m w
      | None =>
          match get_value a w with
          | (Ok x, w') => acquire_all rest (<[key := x]> m) w'
          | (Throw e, w') => (Throw e, (m, w'))
          | (Stuck, w') => (Stuck, (m, w'))
          end
      end
  end.

Lemma acquire_all_app l1 l2 m w :
  acquire_all (l1 ++ l2) m w =
  match acquire_all l1 m w with
  | (Ok _, (m', w')) => acquire_all l2 m' w'
  | r => r
  end.
Proof.
  revert m w. induction l1 as [|[key a] l1 IH]; intros m w; [done|]. simpl.
  destruct (m !! key); [done|]. by destruct (get_value a w) as [[] ?].
Qed.

(** The values that are acquired: nothing is overwritten, a new value comes
    from the first attribute with its name, and when no attribute throws every
    name has a value. *)
Lemma acquire_all_values l m w :
  let '(r, (m', _)) := acquire_all l m w in
  m ⊆ m' ∧
  (∀ key x, m' !! key = Some x → m !! key = None →
    ∃ a w1 w2, (list_to_map l : gmap N A) !! key = Some a ∧ get_value a w1 = (Ok x, w2)) ∧
  match r with
  | Ok _ => ∀ key, is_Some ((list_to_map l : gmap N A) !! key) → is_Some (m' !! key)
  | Throw e => ∃ a w1 w2, get_value a w1 = (Throw e, w2)
  | Stuck => ∃ a w1, (get_value a w1).1 = Stuck
  end.
Proof.
  revert m w. induction l as [|[key a] l IH]; intros m w; simpl.
  { split_and!; [done|intros; congruence|]. intros key [? E]. by rewrite lookup_empty in E. }
  assert (∀ m1 m' : gmap N V, m1 ⊆ m' → is_Some (m1 !! key) → is_Some (m' !! key)) as Hmono.
  { intros m1 m' Hs [x Hx]. exists x. by eapply lookup_weaken. }
  destruct (m !! key) as [y|] eqn:Ek.
  - specialize (IH m w). destruct (acquire_all l m w) as [r [m' w']]. destruct IH as (Hm & Ho & Hr).
    split_and!; [done| |].
    + intros k x Hx Hn. rewrite lookup_insert. case_decide; [congruence|eauto].
    + destruct r; [|done..]. intros k. rewrite lookup_insert. case_decide; subst; eauto.
  - destruct (get_value a w) as [[x|e|] w1] eqn:Eg.
    + specialize (IH (<[key := x]> m) w1). destruct (acquire_all l _ w1) as [r [m' w']].
      destruct IH as (Hm & Ho & Hr). split_and!.
      * etrans; [|exact Hm]. by apply insert_subseteq.
      * intros k z Hz Hn. rewrite lookup_insert. case_decide as Hk.
        -- subst k. exists a, w, w1. split; [done|]. rewrite Eg.
           eapply (lookup_weaken _ _ key x) in Hm; [|apply lookup_insert_eq]. congruence.
        -- apply Ho; [done|]. by rewrite lookup_insert_ne.
      * destruct r; [|done..]. intros k. rewrite lookup_insert. case_decide; subst; [|eauto].
        intros _. eapply Hmono; [exact Hm|]. rewrite lookup_insert_eq. eauto.
    + split_and!; [done|intros; congruence|eauto].
    + split_and!; [done|intros; congruence|]. exists a, w. by rewrite Eg.
Qed.

Lemma attrs_map_list (s : option S) : attrs_map s = list_to_map (attr_list s).
Proof. by destruct s. Qed.

Lemma pending_map v : pending v = list_to_map (pending_list v).
Proof. unfold pending, pending_list. by rewrite !attrs_map_list, !list_to_map_app, (assoc_L (∪)). Qed.

(** Walking a list of attributes in the node-based set is [acquire_all] on its
    values. *)
Lemma freeze_nodes_exact elems v w :
  vset_wf v → Forall (λ kv, kv.1 ≠ uninitialized) elems →
  let r := acquire_all elems (frozen v) w in
  ∃ v', freeze_nodes_from get_value elems (v, w) = (r.1, (v', r.2.2)) ∧
    vset_wf v' ∧ same_sets v v' ∧ frozen v' = r.2.1.
Proof.
  revert v w. induction elems as [|[key a] elems IH]; intros v w Hv Hnames; [by exists v|].
  apply Forall_cons in Hnames as [Hk Hnames]. cbn [fst] in Hk. cbn [freeze_nodes_from acquire_all].
  unfold sm_get, sm_lift. rewrite sm_bind_run, sm_bind_run, name_id_ok, sm_bind_run by done.
  destruct (vset_wf_nodes _ Hv) as (order & seg & Hr).
  destruct (lookup_node_spec _ _ _ _ key Hr) as [(n & Hn & Hnk & ->)|[Hno Hlk]].
  - rewrite <- Hnk, (frozen_lookup v n) by done. by apply IH.
  - rewrite Hlk, (proj2 (frozen_lookup_None v key)), sm_bind_run by done. unfold run_get_value.
    destruct (get_value a w) as [[x|e|] w'] eqn:Eg; [|by exists v..].
    destruct (insert_node_spec v w' key _ x Hv Hk Hlk) as (q & v1 & dyn & Hins & Hv1 & Hss & Hf & _).
    rewrite sm_bind_run, Hins, <- Hf. destruct (IH v1 w' Hv1 Hnames) as (v' & -> & ? & ? & ?).
    exists v'. split_and!; [done..| |done]. by eapply same_sets_trans.
Qed.

Lemma freeze_set_exact s drop v w :
  vset_wf v → opt_wf s → (∀ v', vset_wf v' → vset_wf (drop v') ∧ frozen (drop v') = frozen v') →
  let r := acquire_all (attr_list s) (frozen v) w in
  ∃ v1 v', freeze_set get_value s drop (v, w) = (r.1, (v', r.2.2)) ∧
    vset_wf v' ∧ frozen v' = r.2.1 ∧ same_sets v v1 ∧
    v' = match r.1, s with Ok _, Some _ => drop v1 | _, _ => v1 end.
Proof.
  intros Hv Hs Hdrop. destruct s as [s|]; simpl; [|by exists v, v].
  unfold freeze_set. rewrite sm_bind_run.
  destruct (freeze_nodes_exact (store_elements s) v w Hv (store_names _ Hs)) as (v1 & -> & Hv1 & Hss & Hf).
  exists v1. destruct (acquire_all (store_elements s) (frozen v) w) as [[[]|e|] [m w']]; simpl in *;
    [|by exists v1..]. destruct (Hdrop v1 Hv1) as [Hwd Hfd]. exists (drop v1). unfold sm_modify.
  split_and!; [done..|congruence|done|done].
Qed.

Lemma drop_wf v :
  vset_wf v →
  (vset_wf (drop_source v) ∧ frozen (drop_source v) = frozen v) ∧
  (vset_wf (drop_thread v) ∧ frozen (drop_thread v) = frozen v) ∧
  (vset_wf (drop_global v) ∧ frozen (drop_global v) = frozen v).
Proof. intros []. split_and!; done. Qed.

(** Freezing is [acquire_all] over the source's, the thread's and the global
    attributes; the sets are forgotten when it succeeds. *)
Lemma freeze_exact v w :
  vset_wf v →
  let r := acquire_all (pending_list v) (frozen v) w in
  ∃ v', freeze get_value (v, w) = (r.1, (v', r.2.2)) ∧ vset_wf v' ∧ frozen v' = r.2.1 ∧
    (r.1 = Ok () →
      m_pSourceAttributes v' = None ∧ m_pThreadAttributes v' = None ∧ m_pGlobalAttributes v' = None).
Proof.
  intros Hv. unfold freeze, sm_get, pending_list. rewrite !acquire_all_app, !sm_bind_run.
  destruct (freeze_set_exact (m_pSourceAttributes v) drop_source v w Hv (vset_wf_source _ Hv)
    (λ v' H, proj1 (drop_wf v' H))) as (u1 & v1 & -> & Hv1 & Hf1 & Hs1 & Hd1).
  destruct (acquire_all _ (frozen v) w) as [[[]|e|] [m1 w1]]; cbn [fst snd] in *; [|by exists v1..].
  rewrite sm_bind_run, <- Hf1, acquire_all_app.
  destruct (freeze_set_exact (m_pThreadAttributes v) drop_thread v1 w1 Hv1 (vset_wf_thread _ Hv)
    (λ v' H, proj1 (proj2 (drop_wf v' H)))) as (u2 & v2 & -> & Hv2 & Hf2 & Hs2 & Hd2).
  destruct (acquire_all _ (frozen v1) w1) as [[[]|e|] [m2 w2]]; cbn [fst snd] in *; [|by exists v2..].
  rewrite <- Hf2.
  destruct (freeze_set_exact (m_pGlobalAttributes v) drop_global v2 w2 Hv2 (vset_wf_global _ Hv)
    (λ v' H, proj2 (proj2 (drop_wf v' H)))) as (u3 & v3 & -> & Hv3 & Hf3 & Hs3 & Hd3).
  exists v3. split_and!; [done..|]. intros Hok. rewrite Hok in Hd3. subst v3 v2 v1. unfold same_sets in *.
  repeat case_match; simpl in *; destruct_and?; simplify_eq/=; split_and!; congruence.
Qed.

Lemma freeze_spec v w :
  (∀ a w, (get_value a w).1 ≠ Stuck) → vset_wf v →
  match freeze get_value (v, w) with
  | (Ok _, (v', _)) => extends (pending v) v v' ∧
      m_pSourceAttributes v' = None ∧ m_pThreadAttributes v' = None ∧ m_pGlobalAttributes v' = None ∧
      ∀ key, is_Some (pending v !! key) → is_Some (frozen v' !! key)
  | (Throw e, (v', _)) => extends (pending v) v v' ∧ thrown e
  | (Stuck, _) => False
  end.
Proof.
  intros Hsafe Hv. destruct (freeze_exact v w Hv) as (v' & -> & Hv' & Hf & Hsets).
  pose proof (acquire_all_values (pending_list v) (frozen v) w) as Ha. rewrite pending_map.
  destruct (acquire_all (pending_list v) (frozen v) w) as [[[]|e|] [m w']]; cbn [fst snd] in *; subst m;
    destruct Ha as (Hm & Ho & Hr).
  - split_and!; [by split|by apply Hsets..|done].
  - split; [by split|done].
  - destruct Hr as (a & w1 & Hs). by apply (Hsafe a w1).
Qed.
End freezing.

(** * Attributes without side effects *)

Section pure.
Context {A V W S : Type} `{!AttrStore A S}.
Context (val : A → V).
Abbreviation vset := (attribute_value_set V S).
Implicit Types (v : vset) (w : W) (key : N).

Definition pure_value (a : A) (w : W) : outcome V * W := (Ok (val a), w).

(** The values the record has, acquired or not. *)
Definition view v : gmap N V := frozen v ∪ (val <$> pending v).

Lemma pure_find v w key :
  vset_wf v → key ≠ uninitialized →
  ∃ v', find_value pure_value key (v, w) = (Ok (view v !! key), (v', w)) ∧
    vset_wf v' ∧ view v' = view v.
Proof.
  intros Hv Hk. pose proof (find_value_spec pure_value v w key Hv Hk) as H.
  unfold find_post in H. unfold view at 1. rewrite lookup_union, lookup_fmap.
  destruct (frozen v !! key) as [x|] eqn:Ef.
  - rewrite H. exists v. split; [|done]. by destruct (val <$> pending v !! key).
  - destruct (pending v !! key) as [a|] eqn:Ep; [|rewrite H; by exists v]. simpl in H.
    destruct H as (v' & -> & Hv' & Hss & Hfr). exists v'. split_and!; [done..|].
    unfold view. rewrite (same_sets_pending _ _ Hss), Hfr. rewrite <- insert_union_l.
    apply insert_id. by rewrite lookup_union, Ef, lookup_fmap, Ep.
Qed.

Lemma acquire_all_pure l (m : gmap N V) w :
  acquire_all pure_value l m w = (Ok (), (m ∪ (val <$> (list_to_map l : gmap N A)), w)).
Proof.
  revert m. induction l as [|[key a] l IH]; intros m; simpl.
  { by rewrite fmap_empty, map_union_empty. }
  rewrite fmap_insert. destruct (m !! key) as [x|] eqn:Ek; rewrite IH; f_equal; f_equal.
  - apply map_eq. intros k. rewrite !lookup_union, lookup_insert. case_decide; [subst|done].
    rewrite Ek. by destruct ((_ <$> _) !! k).
  - rewrite <- insert_union_l. by apply insert_union_r.
Qed.

Lemma pure_freeze v w :
  vset_wf v →
  ∃ v', freeze pure_value (v, w) = (Ok (), (v', w)) ∧ vset_wf v' ∧
    frozen v' = view v ∧ pending v' = ∅.
Proof.
  intros Hv. destruct (freeze_exact pure_value v w Hv) as (v' & Hfr & Hv' & Hf & Hsets).
  rewrite acquire_all_pure in Hfr, Hf, Hsets. destruct (Hsets eq_refl) as (H1 & H2 & H3).
  exists v'. split_and!; [done..| |].
  - by rewrite Hf, <- pending_map.
  - unfold pending. rewrite H1, H2, H3. simpl. by rewrite !map_empty_union.
Qed.
End pure.

(** * Copies *)

Section copies.
Context {A V W S : Type} `{!AttrStore A S}.
Context (get_value : A → W → outcome V * W).
Context (get_value_safe : ∀ a w, (get_value a w).1 ≠ Stuck).
Abbreviation vset := (attribute_value_set V S).
Implicit Types (v p : vset) (w : W).

Definition copied (x : V * bool) : V * bool := (x.1, false).

Lemma copy_nodes_from_spec (from : list (vnode V)) p :
  Forall (λ n, n_key n ≠ uninitialized) from → length from ≤ length (v_Storage p) →
  table_of (v_Nodes p) (v_Buckets p) →
  ∃ tbl', let l := v_Nodes p ++ zip_with (λ a n, Node a (n_key n) (copied (n_data n))) (v_Storage p) from in
    copy_nodes_from from p = Ok (set_nodes p l tbl' (drop (length from) (v_Storage p))) ∧
    table_of l tbl'.
Proof.
  revert p. induction from as [|n from IH]; intros p Hn Hlen Ht.
  - exists (v_Buckets p). simpl. rewrite zip_with_nil_r, app_nil_r. split; [|done]. by destruct p.
  - inversion Hn as [|?? Hk Hn']; subst. cbn [copy_nodes_from]. destruct (v_Storage p) as [|a storage] eqn:Es;
      simpl in Hlen; [lia|]. rewrite name_id_ok by done. cbn [obind].
    destruct (append_node_spec _ _ (Node a (n_key n) (copied (n_data n))) Ht) as (tbl1 & Happ & Ht1).
    unfold copied in Happ at 1. rewrite Happ. cbn [obind].
    destruct (IH (set_nodes p (v_Nodes p ++ [Node a (n_key n) (copied (n_data n))]) tbl1 storage) Hn')
      as (tbl' & Hc & Ht'); [simpl; lia|done|].
    exists tbl'. simpl in *. rewrite <- app_assoc in Hc, Ht'. simpl in *. by rewrite Hc.
Qed.

Lemma new_storage_NoDup n : NoDup (new_storage n).
Proof. apply NoDup_fmap; [apply _|]. apply NoDup_seq. Qed.

Lemma length_new_storage n : length (new_storage n) = n.
Proof. unfold new_storage. by rewrite length_fmap, length_seq. Qed.

Lemma create_wf n (s t g : option S) :
  opt_wf s → opt_wf t → opt_wf g → vset_wf (V := V) (create n s t g).
Proof.
  intros. split; simpl; try done.
  - exists [], (λ _, []). apply empty_repr.
  - apply new_storage_NoDup.
Qed.

(** A copy into a set created with enough room. *)
Lemma copy_into_created v n (t g : option S) :
  vset_wf v → length (v_Nodes v) ≤ n → opt_wf t → opt_wf g →
  ∃ p, copy_nodes_from (v_Nodes v) (create n None t g) = Ok p ∧ vset_wf p ∧
    frozen p = frozen v ∧ pending_list p = attr_list t ++ attr_list g ∧
    length (v_Storage p) = n - length (v_Nodes v).
Proof.
  intros Hv Hn Ht Hg.
  destruct (copy_nodes_from_spec (v_Nodes v) (create n None t g) (vset_wf_names _ Hv))
    as (tbl' & Hc & Htab); [simpl; by rewrite length_new_storage|apply table_of_empty|].
  destruct (vset_wf_nodes _ Hv) as (order & seg & Hr). simpl in Hc, Htab.
  destruct (relabel_exists copied (new_storage n) (v_Nodes v)) as (f & Hk & Hd & Hz);
    [by eapply repr_keys_NoDup|by rewrite length_new_storage|].
  rewrite Hz in *. eexists. split; [exact Hc|].
  assert (Haddr : n_addr <$> (f <$> v_Nodes v) = take (length (v_Nodes v)) (new_storage n)).
  { rewrite <- Hz. clear. generalize (new_storage n). induction (v_Nodes v) as [|m l IH];
      intros [|a st]; simpl; try done. by rewrite IH. }
  assert (Hwf : wf (f <$> v_Nodes v) tbl').
  { eapply relabel_wf; eauto. rewrite Haddr.
    pose proof (new_storage_NoDup n) as Hnd. rewrite <- (take_drop (length (v_Nodes v))) in Hnd.
    by apply NoDup_app in Hnd as [? _]. }
  split_and!.
  - split; simpl; try done.
    + rewrite Forall_fmap. eapply Forall_impl; [apply Hv|]. intros m Hm; simpl. by rewrite Hk.
    + unfold used_addrs. simpl. rewrite Haddr, take_drop. apply new_storage_NoDup.
  - unfold frozen, to_map. simpl. rewrite <- !list_to_map_fmap, <- !list_fmap_compose. f_equal.
    apply list_fmap_ext. intros i m Hm. simpl. rewrite Hk, Hd; [done|]. apply list_elem_of_lookup. eauto.
  - done.
  - simpl. by rewrite length_drop, length_new_storage.
Qed.
End copies.

(** * Theorems *)

(** C5: a lookup in an [attribute_value_set] returns an already acquired value
    without touching the world; otherwise it calls [get_value] exactly once, on
    the source's attribute with that name, else the thread's, else the global
    one, and remembers the value; when no set has the name it returns the end
    iterator and changes nothing, and when [get_value] throws the set is
    unchanged. *)
Theorem find_value_exact {A V W S} `{!AttrStore A S} (get_value : A → W → outcome V * W)
    (v : attribute_value_set V S) (w : W) (key : N) :
  vset_wf v → key ≠ uninitialized → find_post get_value v w key (find_value get_value key (v, w)).
Proof. intros Hv Hk. by apply find_value_spec. Qed.

(** C6: [freeze] walks the attributes of the source, then of the thread, then
    of the global set, and asks exactly those whose names have no value yet,
    each once and in this order: its result, the values of the set and the
    final world are those of [acquire_all], for attributes that act on the
    world and throw. No acquired value is changed, and every new value is the
    result of the attribute that has the name in the source set, else in the
    thread set, else in the global set. When no attribute throws, every name
    has a value and the sets are forgotten; otherwise the exception propagates
    and the set is well formed with the values acquired so far. *)
Theorem freeze_complete {A V W S} `{!AttrStore A S} (get_value : A → W → outcome V * W)
    (v : attribute_value_set V S) (w : W) :
  vset_wf v →
  let '(r, (m, w')) := acquire_all get_value (pending_list v) (frozen v) w in
  ∃ v', freeze get_value (v, w) = (r, (v', w')) ∧ frozen v' = m ∧
    extends get_value (pending v) v v' ∧
    (r = Ok () →
      m_pSourceAttributes v' = None ∧ m_pThreadAttributes v' = None ∧ m_pGlobalAttributes v' = None ∧
      ∀ key, is_Some (pending v !! key) → is_Some (frozen v' !! key)).
Proof.
  intros Hv. destruct (freeze_exact get_value v w Hv) as (v' & Hfr & Hv' & Hf & Hsets).
  pose proof (acquire_all_values get_value (pending_list v) (frozen v) w) as Ha. rewrite pending_map.
  destruct (acquire_all get_value (pending_list v) (frozen v) w) as [r [m w']]; cbn [fst snd] in *.
  destruct Ha as (Hm & Ho & Hr). exists v'. subst m. split_and!; [done..|by split|].
  intros ->. destruct (Hsets eq_refl) as (? & ? & ?). by split_and!.
Qed.

(** Looking up several names in turn, as a filter does. *)
Fixpoint find_all {A V W S} `{!AttrStore A S} (get_value : A → W → outcome V * W)
    (keys : list N) : sm (attribute_value_set V S * W) (list (option V)) :=
  match keys with
  | [] => mret []
  | key :: rest =>
      x ← find_value get_value key;
      xs ← find_all get_value rest;
      mret (x :: xs)
  end.

(** Lazy acquisition cannot be observed when attribute values do not
    depend on the moment they are acquired: any sequence of lookups returns
    what the record's complete set of values has under the names, and freezing
    after the lookups gives the same values as freezing at once. *)
Theorem lazy_acquisition {A V W S} `{!AttrStore A S} (val : A → V)
    (v : attribute_value_set V S) (w : W) (keys : list N) :
  vset_wf v → Forall (λ key, key ≠ uninitialized) keys →
  ∃ v1 v2 v3,
    find_all (pure_value val) keys (v, w) = (Ok ((λ key, view val v !! key) <$> keys), (v1, w)) ∧
    freeze (pure_value val) (v1, w) = (Ok (), (v2, w)) ∧
    freeze (pure_value val) (v, w) = (Ok (), (v3, w)) ∧
    frozen v2 = view val v ∧ frozen v3 = view val v.
Proof.
  intros Hv Hkeys.
  assert (∃ v1, find_all (pure_value val) keys (v, w) = (Ok ((λ key, view val v !! key) <$> keys), (v1, w)) ∧
            vset_wf v1 ∧ view val v1 = view val v) as (v1 & Hf & Hv1 & Hview).
  { revert v Hv. induction Hkeys as [|key keys Hk _ IH]; intros v Hv; [by exists v|].
    destruct (pure_find val v w key Hv Hk) as (v' & Hf & Hv' & Hview).
    destruct (IH v' Hv') as (v1 & Hf1 & Hv1 & Hview1). exists v1.
    cbn [find_all]. rewrite sm_bind_run, Hf, sm_bind_run, Hf1, Hview. split_and!; [done|done|].
    by rewrite Hview1. }
  destruct (pure_freeze val v1 w Hv1) as (v2 & H2 & _ & F2 & _).
  destruct (pure_freeze val v w Hv) as (v3 & H3 & _ & F3 & _).
  rewrite Hview in F2. exists v1, v2, v3. by split_and!.
Qed.

Lemma create_from_values_spec {A V W S} `{!AttrStore A S} (get_value : A → W → outcome V * W)
    (v : attribute_value_set V S) (w : W) (thread global : S) (reserve_count : nat) :
  (∀ a w, (get_value a w).1 ≠ Stuck) → vset_wf v → store_wf thread → store_wf global →
  match create_from_values get_value thread global reserve_count (v, w) with
  | (Ok p, (v', _)) => vset_wf p ∧ frozen p = frozen v' ∧ extends get_value (pending v) v v' ∧
      pending p = attrs_map (Some thread) ∪ attrs_map (Some global) ∧
      length (v_Storage p)
        = length (store_elements thread) + length (store_elements global) + reserve_count
  | (Throw e, _) => thrown get_value e
  | (Stuck, _) => False
  end.
Proof.
  intros Hsafe Hv Ht Hg. unfold create_from_values, vsize, sm_get. rewrite !sm_bind_run.
  pose proof (freeze_spec get_value v w Hsafe Hv) as Hf.
  destruct (freeze get_value (v, w)) as [[[]|e|] [v' w']]; [|apply Hf|done].
  destruct Hf as (Hext & _). rewrite sm_bind_run. unfold sm_lift. simpl.
  destruct (copy_into_created (A := A) v' (length (v_Nodes v') + length (store_elements thread)
      + length (store_elements global) + reserve_count) (Some thread) (Some global))
    as (p & -> & Hp & Hfr & Hpend & Hst); [apply Hext|lia|done|done|].
  split_and!; [done..| |rewrite Hst; lia].
  by rewrite pending_map, Hpend, list_to_map_app.
Qed.

(** Constructing the values of a record from an existing value set freezes
    that set, copies all of its values without ever running past the
    preallocated storage, and leaves room for one node per thread and global
    attribute plus the requested reserve. *)
Theorem create_from_values_ok {A V W S} `{!AttrStore A S} (get_value : A → W → outcome V * W)
    (v : attribute_value_set V S) (w : W) (thread global : S) (reserve_count : nat) :
  (∀ a w, (get_value a w).1 ≠ Stuck) → vset_wf v → store_wf thread → store_wf global →
  match create_from_values get_value thread global reserve_count (v, w) with
  | (Ok p, (v', _)) => vset_wf p ∧ frozen p = frozen v' ∧ extends get_value (pending v) v v' ∧
      pending p = attrs_map (Some thread) ∪ attrs_map (Some global) ∧
      length (v_Storage p)
        = length (store_elements thread) + length (store_elements global) + reserve_count
  | (Throw e, _) => thrown get_value e
  | (Stuck, _) => False
  end.
Proof. intros. by apply create_from_values_spec. Qed.

(** A record whose source has attributes 1 and 2, the thread 2 and 3, and no
    global attributes; an attribute counts its evaluations in the world. *)
Definition sample_thread : attribute_set nat :=
  AttributeSet [Node 10%N 2%N 20; Node 11%N 3%N 30]
    (<[3 := Bucket (Some 11%N) (Some 11%N)]> (<[2 := Bucket (Some 10%N) (Some 10%N)]> empty_table)) [].

Lemma sample_thread_wf : set_wf sample_thread.
Proof.
  destruct (insert_absent 10%N 2%N 20 empty_set empty_set_wf) as (a1 & s1 & H1 & W1 & _);
    [done|by apply not_elem_of_nil|done|].
  vm_compute in H1. injection H1 as <- <-.
  destruct (insert_absent 11%N 3%N 30 _ W1) as (a2 & s2 & H2 & W2 & _);
    [done|vm_compute; set_solver|done|].
  vm_compute in H2. injection H2 as <- <-. exact W2.
Qed.

Definition sample_values : attribute_value_set nat (attribute_set nat) :=
  create_from_sets sample_set sample_thread empty_set 2.

Lemma sample_values_wf : vset_wf sample_values.
Proof. apply create_wf; [apply sample_set_wf|apply sample_thread_wf|apply empty_set_wf]. Qed.

(** An attribute that counts how often any value was acquired. *)
Definition counting_value (a : nat) (w : nat) : outcome nat * nat := (Ok (a + w), S w).

Lemma find_value_exact_witness :
  find_post counting_value sample_values 0 2%N (find_value counting_value 2%N (sample_values, 0)) ∧
  pending sample_values !! 2%N = Some 6.
Proof.
  split; [|reflexivity]. apply (find_value_exact counting_value sample_values 0 2%N).
  - apply sample_values_wf.
  - discriminate.
Defined.

(** The second attribute that is asked throws. *)
Definition failing_value (a : nat) (w : nat) : outcome nat * nat :=
  if decide (w = 1) then (Throw (ex_user 3), S w) else (Ok (a + w), S w).

Lemma freeze_complete_witness :
  match freeze counting_value (sample_values, 0), freeze failing_value (sample_values, 0) with
  | (Ok _, (v', w')), (Throw _, (v2, w2)) => is_Some (frozen v' !! 3%N) ∧ w' = 4 ∧ w2 = 2
  | _, _ => False
  end.
Proof.
  pose proof (freeze_complete counting_value sample_values 0 sample_values_wf) as H.
  pose proof (freeze_complete failing_value sample_values 0 sample_values_wf) as H2.
  destruct (acquire_all counting_value _ _ _) as [r [m w']] eqn:E. vm_compute in E. injection E as <- _ <-.
  destruct (acquire_all failing_value _ _ _) as [r2 [m2 w2]] eqn:E2. vm_compute in E2. injection E2 as <- _ <-.
  destruct H as (v' & -> & _ & _ & H), H2 as (v2 & -> & _). split_and!; [|done..].
  apply H; [done|]. vm_compute. eauto.
Defined.

Lemma lazy_acquisition_witness :
  ∃ v1, find_all (pure_value S) [3%N; 17%N; 9%N] (sample_values, ()) = (Ok [Some 31; Some 8; None], (v1, ())).
Proof.
  destruct (lazy_acquisition S sample_values () [3%N; 17%N; 9%N]) as (v1 & v2 & v3 & Hf & _).
  - apply sample_values_wf.
  - repeat constructor; discriminate.
  - exists v1. rewrite Hf. reflexivity.
Defined.

Lemma create_from_values_ok_witness :
  match create_from_values counting_value sample_thread empty_set 3 (sample_values, 0) with
  | (Ok p, _) => length (v_Storage p) = 5
  | _ => False
  end.
Proof.
  pose proof (create_from_values_ok counting_value sample_values 0 sample_thread empty_set 3
    (λ a w H, ltac:(discriminate H)) sample_values_wf sample_thread_wf empty_set_wf) as H.
  destruct (create_from_values counting_value sample_thread empty_set 3 (sample_values, 0))
    as [[p|e|] [v' w']] eqn:E; [|vm_compute in E; discriminate E|done].
  apply H.
Defined.
