(* ===== verification/ValueExtraction.v ===== *)
(** Type dispatching and extraction of attribute values:
    src/include/boost/log/utility/type_dispatch, attributes/value_visitation.hpp,
    attributes/value_extraction.hpp, attributes/fallback_policy.hpp,
    utility/value_ref.hpp and detail/value_ref_visitation.hpp.

    A value passes itself to a visitor through a dispatcher that supports some
    types. A visitor is called through a function pointer of its argument's type,
    and a value is read through a pointer that was cast to its type; both are
    undefined for another type. *)

From Stdlib Require Import ZArith.
From stdpp Require Import base numbers list gmap sorting.
From S2P Require Import Prelude BucketList AttributeSet AttributeValueSet.

(** * Binary search *)

Section lower_bound.
Context {A : Type} (key : A → N).

(** [std::lower_bound] on [len] elements from [first], in an array ordered by
    the keys. *)
Fixpoint lower_bound_loop (fuel : nat) (l : list A) (k : N) (first len : nat) : nat :=
  match fuel with
  | 0 => first
  | S fuel =>
      if decide (len = 0) then first
      else
        let half := len / 2 in
        match l !! (first + half) with
        | Some x =>
            if decide (key x < k)%N then lower_bound_loop fuel l k (S (first + half)) (len - half - 1)
            else lower_bound_loop fuel l k first half
        | None => first
        end
  end.

Definition lower_bound (l : list A) (k : N) : nat := lower_bound_loop (length l) l k 0 (length l).

Definition sorted_by_key (l : list A) : Prop := ∀ i j x y, l !! i = Some x → l !! j = Some y → i ≤ j → (key x ≤ key y)%N.

Lemma lower_bound_loop_spec fuel l k first len :
  sorted_by_key l → first + len ≤ length l → len ≤ fuel →
  (∀ i x, l !! i = Some x → i < first → (key x < k)%N) →
  (∀ i x, l !! i = Some x → first + len ≤ i → (k ≤ key x)%N) →
  let it := lower_bound_loop fuel l k first len in
  it ≤ length l ∧ (∀ i x, l !! i = Some x → i < it → (key x < k)%N) ∧ (∀ i x, l !! i = Some x → it ≤ i → (k ≤ key x)%N).
Proof.
  intros Hs. revert first len. induction fuel as [|fuel IH]; intros first len Hle Hfuel Hlo Hhi; cbn [lower_bound_loop].
  { assert (len = 0) as -> by lia. rewrite Nat.add_0_r in *. done. }
  case_decide as Hlen; [subst len; rewrite Nat.add_0_r in *; done|].
  assert (len / 2 < len) by (apply Nat.div_lt; lia).
  destruct (lookup_lt_is_Some_2 l (first + len / 2)) as [x Hx]; [lia|]. rewrite Hx. case_decide as Hk.
  - apply IH; [lia..| |].
    + intros i y Hy Hi. assert (key y ≤ key x)%N by (eapply Hs; [done|done|lia]). lia.
    + intros i y Hy Hi. apply (Hhi i y Hy). lia.
  - apply IH; [lia|lia|done|]. intros i y Hy Hi. assert (key x ≤ key y)%N by (eapply Hs; [done|done|lia]). lia.
Qed.

(** What is found is an element with the key, if there is one. *)
Lemma lower_bound_found l k : sorted_by_key l →
  match l !! lower_bound l k with
  | Some x => if decide (key x = k) then x ∈ l else k ∉ key <$> l
  | None => k ∉ key <$> l
  end.
Proof.
  intros Hs. destruct (lower_bound_loop_spec (length l) l k 0 (length l)) as (_ & Hlo & Hhi); [done|lia|lia|lia| |].
  { intros i x Hi%lookup_lt_Some ?. lia. }
  fold (lower_bound l k) in Hlo, Hhi.
  assert (∀ y, y ∈ l → key y = k → ∃ x, l !! lower_bound l k = Some x ∧ key x = k) as Hex.
  { intros y [i Hi]%list_elem_of_lookup Hk. assert (lower_bound l k ≤ i) as Hge.
    { destruct (decide (lower_bound l k ≤ i)); [done|]. specialize (Hlo i y Hi ltac:(lia)). lia. }
    destruct (lookup_lt_is_Some_2 l (lower_bound l k)) as [x Hx]; [apply lookup_lt_Some in Hi; lia|].
    exists x. split; [done|]. pose proof (Hs _ _ _ _ Hx Hi Hge). pose proof (Hhi _ _ Hx ltac:(lia)). lia. }
  destruct (l !! lower_bound l k) as [x|] eqn:E; [case_decide|].
  - by eapply list_elem_of_lookup_2.
  - intros (y & Hy & Hin)%list_elem_of_fmap. destruct (Hex y Hin ltac:(done)) as (z & Hz & Hk). congruence.
  - intros (y & Hy & Hin)%list_elem_of_fmap. destruct (Hex y Hin ltac:(done)) as (z & Hz & _). done.
Qed.
End lower_bound.

(** * Dispatchers *)

Section dispatch.
(** Values, and the types they have. *)
Context {val : Type} (type_of : val → N).
Context {W : Type}.

Definition visitor : Type := val → sm W unit.

(** A visitor and the type that its trampoline takes. *)
Record callback := Callback { m_pVisitor : visitor; m_pTrampoline : N }.

Definition call_back (c : callback) (v : val) : sm W unit :=
  if decide (m_pTrampoline c = type_of v) then m_pVisitor c v else sm_lift Stuck.

(** [type_dispatcher]: [get_callback] for a type; an empty callback is [None]. *)
Definition type_dispatcher : Type := N → option callback.

(** The dispatching map of a sequence of types, with the trampolines. *)
Definition init_dispatching_map (ts : list N) : list (N * N) := (λ t, (t, t)) <$> ts.

Definition dispatching_map_order (left right : N * N) : bool := (left.1 <? right.1)%N.

(** The array is sorted when no element is ordered before the previous one. *)
Definition not_after (left right : N * N) : Prop := dispatching_map_order right left = false.

#[local] Instance not_after_dec a b : Decision (not_after a b).
Proof. unfold not_after. apply _. Defined.

Definition get_dispatching_map (ts : list N) : list (N * N) := merge_sort not_after (init_dispatching_map ts).

Definition type_sequence_dispatcher (ts : list N) (f : visitor) : type_dispatcher := λ type,
  let map := get_dispatching_map ts in
  match map !! lower_bound fst map type with
  | Some e => if decide (e.1 = type) then Some (Callback f e.2) else None
  | None => None
  end.

Definition single_type_dispatcher (t : N) (f : visitor) : type_dispatcher := λ type,
  if decide (type = t) then Some (Callback f t) else None.

(** The types of [static_type_dispatcher]. *)
Inductive value_types := single_type (t : N) | type_sequence (ts : list N).

Definition static_type_dispatcher (ts : value_types) (f : visitor) : type_dispatcher :=
  match ts with
  | single_type t => single_type_dispatcher t f
  | type_sequence ts => type_sequence_dispatcher ts f
  end.

(** [dynamic_type_dispatcher]. *)
Abbreviation dispatching_map := (gmap N callback).
Definition register_type (t : N) (f : visitor) (d : dispatching_map) : dispatching_map := <[t := Callback f t]> d.
Definition registered_types_count (d : dispatching_map) : nat := base.size d.
Definition dynamic_type_dispatcher (d : dispatching_map) : type_dispatcher := λ type, d !! type.

(** [attribute_value::dispatch]. *)
Definition dispatch (v : option val) (d : type_dispatcher) : sm W bool :=
  match v with
  | None => mret false
  | Some x =>
      match d (type_of x) with
      | Some c => call_back c x;; mret true
      | None => mret false
      end
  end.

Definition types_list (ts : value_types) : list N := match ts with single_type t => [t] | type_sequence ts => ts end.

Lemma not_after_le a b : not_after a b ↔ (a.1 ≤ b.1)%N.
Proof. unfold not_after, dispatching_map_order. rewrite N.ltb_ge. done. Qed.

#[local] Instance not_after_trans : Transitive not_after.
Proof. intros a b c. rewrite !not_after_le. lia. Qed.
#[local] Instance not_after_total : Total not_after.
Proof. intros a b. rewrite !not_after_le. lia. Qed.

Lemma dispatching_map_sorted ts : sorted_by_key fst (get_dispatching_map ts).
Proof.
  intros i j x y Hx Hy Hij. destruct (decide (i = j)) as [-> |Hne]; [by simplify_eq|].
  pose proof (StronglySorted_merge_sort not_after (init_dispatching_map ts)) as Hs.
  fold (get_dispatching_map ts) in Hs. revert i j Hx Hy Hij Hne.
  induction Hs as [|a l Hl IH Ha]; intros i j Hx Hy Hij Hne; [done|].
  destruct j as [|j]; [lia|]. destruct i as [|i]; cbn in *.
  - injection Hx as <-. rewrite Forall_forall in Ha. apply not_after_le, Ha. by eapply list_elem_of_lookup_2.
  - apply (IH i j); [done|done|lia|lia].
Qed.

Lemma dispatching_map_elem ts e : e ∈ get_dispatching_map ts ↔ e.1 ∈ ts ∧ e.2 = e.1.
Proof.
  unfold get_dispatching_map. rewrite merge_sort_Permutation. unfold init_dispatching_map. rewrite list_elem_of_fmap.
  destruct e as [t t']. cbn. split; [intros (s & [= -> ->] & ?); done|intros [? ->]; by exists t].
Qed.

Lemma type_sequence_callback ts f t :
  type_sequence_dispatcher ts f t = if decide (t ∈ ts) then Some (Callback f t) else None.
Proof.
  unfold type_sequence_dispatcher. set (map := get_dispatching_map ts).
  pose proof (lower_bound_found fst map t (dispatching_map_sorted ts)) as Hfound.
  assert (∀ t, t ∈ map.*1 ↔ t ∈ ts) as Hin.
  { intros s. rewrite list_elem_of_fmap. split.
    - by intros (e & -> & [He _]%dispatching_map_elem).
    - intros Hs. exists (s, s). split; [done|]. by apply dispatching_map_elem. }
  destruct (map !! lower_bound fst map t) as [e|]; [case_decide as He|]; rewrite ?Hin in Hfound.
  - apply dispatching_map_elem in Hfound as [Ht He2]. subst t. rewrite decide_True by done. by rewrite He2.
  - by rewrite decide_False.
  - by rewrite decide_False.
Qed.

(** The visitor gets the value exactly when its type is supported. *)
Lemma static_dispatch_run ts f v : dispatch v (static_type_dispatcher ts f) =
  match v with
  | Some x => if decide (type_of x ∈ types_list ts) then f x;; mret true else mret false
  | None => mret false
  end.
Proof.
  destruct v as [x|]; [|done]. unfold dispatch. destruct ts as [t|ts]; cbn [static_type_dispatcher types_list].
  - unfold single_type_dispatcher. case_decide as Ht; [|by rewrite decide_False by set_solver].
    rewrite decide_True by set_solver. unfold call_back. cbn. by rewrite decide_True.
  - rewrite type_sequence_callback. case_decide; [|done]. unfold call_back. cbn. by rewrite decide_True.
Qed.

(** A dispatcher with registered visitors. *)
Fixpoint registered (l : list (N * visitor)) : dispatching_map :=
  match l with
  | [] => ∅
  | (t, f) :: l => register_type t f (registered l)
  end.

(** The visitor that was registered last, which comes first in the list. *)
Lemma dynamic_dispatch_run l v : dispatch v (dynamic_type_dispatcher (registered l)) =
  match v with
  | Some x => match list_find (λ p, p.1 = type_of x) l with Some (_, p) => p.2 x;; mret true | None => mret false end
  | None => mret false
  end.
Proof.
  destruct v as [x|]; [|done]. unfold dispatch, dynamic_type_dispatcher.
  assert (registered l !! type_of x = match list_find (λ p, p.1 = type_of x) l with
    | Some (_, p) => Some (Callback p.2 (type_of x)) | None => None end) as ->.
  { induction l as [|[t f] l IH]; cbn; [apply lookup_empty|]. unfold register_type.
    destruct (decide (t = type_of x)) as [-> |Hne]; [by rewrite lookup_insert_eq|].
    rewrite lookup_insert_ne, IH by done. by destruct (list_find _ l) as [[]|]. }
  destruct (list_find _ l) as [[i p]|]; [|done]. unfold call_back. cbn. by rewrite decide_True.
Qed.
End dispatch.

(** * Visitation *)

Section visitation.
Context {val : Type} (type_of : val → N) {W : Type}.

(** The policies for values that are missing or have another type. *)
Inductive fallback_policy := fallback_to_none | fallback_to_throw | fallback_to_default (d : val).

Definition apply_default {W} (p : fallback_policy) (f : visitor (val := val) (W := W)) : sm W bool :=
  match p with
  | fallback_to_default d => f d;; mret true
  | _ => mret false
  end.

Definition on_invalid_type (p : fallback_policy) : outcome unit :=
  match p with fallback_to_throw => Throw ex_invalid_type | _ => Ok () end.

Definition on_missing_value (p : fallback_policy) : outcome unit :=
  match p with fallback_to_throw => Throw ex_missing_value | _ => Ok () end.

Inductive visitation_result := visitation_ok | value_not_found | value_has_invalid_type.

(** [value_visitor_invoker::operator()] with a value. *)
Definition invoke_visitor (ts : value_types) (p : fallback_policy) (v : option val) (f : visitor (W := W)) : sm W visitation_result :=
  match v with
  | Some _ =>
      done ← dispatch type_of v (static_type_dispatcher ts f);
      done ← (if done : bool then mret true else apply_default p f);
      if done : bool then mret visitation_ok else sm_lift (on_invalid_type p);; mret value_has_invalid_type
  | None =>
      done ← apply_default p f;
      if done : bool then mret visitation_ok else sm_lift (on_missing_value p);; mret value_not_found
  end.

(** The value that is selected, by the types and the policy. *)
Definition fall_back (p : fallback_policy) (e : exn) : outcome (option val) :=
  match p with
  | fallback_to_none => Ok None
  | fallback_to_throw => Throw e
  | fallback_to_default d => Ok (Some d)
  end.

Definition selected (ts : value_types) (p : fallback_policy) (v : option val) : outcome (option val) :=
  match v with
  | Some x => if decide (type_of x ∈ types_list ts) then Ok (Some x) else fall_back p ex_invalid_type
  | None => fall_back p ex_missing_value
  end.

Definition failure (v : option val) : visitation_result :=
  match v with Some _ => value_has_invalid_type | None => value_not_found end.

Lemma invoke_visitor_run ts p v f w : invoke_visitor ts p v f w =
  match selected ts p v with
  | Ok (Some x) => (f x;; mret visitation_ok) w
  | Ok None => (Ok (failure v), w)
  | Throw e => (Throw e, w)
  | Stuck => (Stuck, w)
  end.
Proof.
  unfold invoke_visitor, selected, fall_back, failure. rewrite static_dispatch_run.
  destruct v as [x|]; [destruct (decide _)|].
  - rewrite !sm_bind_run. by destruct (f x w) as [[]].
  - rewrite sm_bind_run. cbn. destruct p as [| |d]; cbn; [done..|]. rewrite !sm_bind_run. by destruct (f d w) as [[]].
  - destruct p as [| |d]; cbn; [done..|]. rewrite !sm_bind_run. by destruct (f d w) as [[]].
Qed.

(** * References to values *)

(** [singular_ref] and [variant_ref]; the index is used by the latter. *)
Record value_ref := ValueRef { m_ptr : option val; m_type_idx : nat }.

Definition empty_ref : value_ref := ValueRef None 0.

(** [value_ref_base]: a sequence of one type is treated as the type. *)
Definition ref_types (ts : value_types) : value_types :=
  match ts with type_sequence [t] => single_type t | _ => ts end.

(** [mpl::index_of]. *)
Definition index_of (l : list N) (t : N) : nat := match list_find (t =.) l with Some (i, _) => i | None => length l end.

(** The constructor from a value of one of the types. *)
Definition make_ref (ts : value_types) (x : val) : value_ref :=
  match ref_types ts with
  | single_type _ => ValueRef (Some x) 0
  | type_sequence l => ValueRef (Some x) (index_of l (type_of x))
  end.

Definition reset_ref (r : value_ref) : value_ref := empty_ref.
Definition swap_refs (p : value_ref * value_ref) : value_ref * value_ref := (p.2, p.1).
Definition which (ts : value_types) (r : value_ref) : nat :=
  match ref_types ts with single_type _ => 0 | type_sequence _ => m_type_idx r end.

(** Using a pointer as a pointer to the type [t]. *)
Definition cast (t : N) (x : val) : outcome val := if decide (type_of x = t) then Ok x else Stuck.

(** [get_ptr] and [get] for the type [t]. *)
Definition get_ptr (ts : value_types) (t : N) (r : value_ref) : outcome (option val) :=
  match ref_types ts with
  | single_type _ => Ok (m_ptr r)
  | type_sequence l =>
      if decide (m_type_idx r = index_of l t) then
        match m_ptr r with
        | Some x => let* y := cast t x in Ok (Some y)
        | None => Ok None
        end
      else Ok None
  end.

Definition get_ref (ts : value_types) (t : N) (r : value_ref) : outcome val :=
  let* p := get_ptr ts t r in of_ptr p.

(** [apply_visitor_dispatch]: sequences of up to [limit] types are dispatched by
    a switch, longer ones are split. *)
Fixpoint apply_visitor_dispatch {Y} (limit fuel : nat) (l : list N) (x : val) (idx : nat) (f : val → outcome Y) : outcome Y :=
  if decide (length l ≤ limit) then
    let* t := of_ptr (if decide (0 < idx < length l) then l !! idx else l !! 0) in
    let* y := cast t x in f y
  else
    match fuel with
    | 0 => Stuck
    | S fuel =>
        let half := length l / 2 in
        if decide (idx < half) then apply_visitor_dispatch limit fuel (take half l) x idx f
        else apply_visitor_dispatch limit fuel (drop half l) x (idx - half) f
    end.

Context (limit : nat).

Definition do_apply_visitor {Y} (l : list N) (x : val) (idx : nat) (f : val → outcome Y) : outcome Y :=
  if decide (idx < length l) then apply_visitor_dispatch limit (length l) l x idx f else Stuck.

Definition visit_ptr {Y} (ts : value_types) (f : val → outcome Y) (x : val) (r : value_ref) : outcome Y :=
  match ref_types ts with
  | single_type _ => f x
  | type_sequence l => do_apply_visitor l x (m_type_idx r) f
  end.

Definition apply_visitor {Y} (ts : value_types) (f : val → outcome Y) (r : value_ref) : outcome Y :=
  match m_ptr r with
  | Some x => visit_ptr ts f x r
  | None => Stuck
  end.

Definition apply_visitor_optional {Y} (ts : value_types) (f : val → outcome Y) (r : value_ref) : outcome (option Y) :=
  match m_ptr r with
  | Some x => let* y := visit_ptr ts f x r in Ok (Some y)
  | None => Ok None
  end.

Definition apply_visitor_or_default {Y} (ts : value_types) (f : val → outcome Y) (d : Y) (r : value_ref) : outcome Y :=
  match m_ptr r with
  | Some x => visit_ptr ts f x r
  | None => Ok d
  end.

(** The comparisons of a reference with a value, by [op], which is [equal_to],
    [not_equal_to], [less] and so on. *)
Definition compare_ref (ts : value_types) (op : val → val → bool) (r : value_ref) (u : val) : outcome bool :=
  apply_visitor_or_default ts (λ x, Ok (op x u)) false r.

(** The output operators. *)
Definition output_ref (ts : value_types) (print : val → outcome unit) (r : value_ref) : outcome unit :=
  match m_ptr r with
  | Some _ => apply_visitor ts print r
  | None => Ok ()
  end.

(** A reference to the value [x], which any visitor can be applied to. *)
Definition refers (ts : value_types) (r : value_ref) (x : val) : Prop :=
  m_ptr r = Some x ∧ ∀ Y (f : val → outcome Y), visit_ptr ts f x r = f x.

Lemma index_of_lookup l t : t ∈ l → l !! index_of l t = Some t.
Proof.
  intros Ht. unfold index_of. destruct (list_find_elem_of (t =.) l t Ht ltac:(done)) as [[i y] E]. rewrite E.
  apply list_find_Some in E as (Hi & -> & _). done.
Qed.

Lemma apply_visitor_dispatch_run {Y} fuel l x idx (f : val → outcome Y) : 0 < limit → length l ≤ fuel →
  l !! idx = Some (type_of x) → apply_visitor_dispatch limit fuel l x idx f = f x.
Proof.
  intros Hlim. revert l idx. induction fuel as [|fuel IH]; intros l idx Hl Hx; cbn [apply_visitor_dispatch].
  { apply lookup_lt_Some in Hx. lia. }
  case_decide as Hlen.
  - assert ((if decide (0 < idx < length l) then l !! idx else l !! 0) = Some (type_of x)) as ->.
    { case_decide as Hi; [done|]. apply lookup_lt_Some in Hx as ?. by replace 0 with idx by lia. }
    unfold cast. cbn. by rewrite decide_True.
  - assert (length l / 2 < length l) by (apply Nat.div_lt; lia).
    assert (0 < length l / 2) by (apply Nat.div_str_pos; lia).
    case_decide as Hi; apply IH; rewrite ?length_take, ?length_drop; try lia.
    + by rewrite lookup_take_lt.
    + rewrite lookup_drop. by replace (length l / 2 + (idx - length l / 2)) with idx by lia.
Qed.

Lemma types_list_ref ts : types_list (ref_types ts) = types_list ts.
Proof. by destruct ts as [t|[|t [|]]]. Qed.

Lemma make_ref_refers ts x : 0 < limit → type_of x ∈ types_list ts → refers ts (make_ref ts x) x.
Proof.
  intros Hlim. rewrite <- types_list_ref. intros Hx. unfold refers, make_ref, visit_ptr.
  destruct (ref_types ts) as [t|l]; [done|]. split; [done|]. intros Y f. cbn in Hx |- *. unfold do_apply_visitor.
  pose proof (index_of_lookup l _ Hx) as Hi. rewrite decide_True by by eapply lookup_lt_Some.
  by apply apply_visitor_dispatch_run.
Qed.

(** * Extraction *)

(** [value_extractor::operator()] with a value. *)
Definition extract_value (ts : value_types) (p : fallback_policy) (v : option val) : outcome value_ref :=
  let initializer : visitor (W := value_ref) := λ x, sm_put (make_ref ts x) in
  let run : sm value_ref unit :=
    match v with
    | Some _ =>
        done ← dispatch type_of v (static_type_dispatcher ts initializer);
        if done : bool then mret ()
        else done ← apply_default p initializer; if done : bool then mret () else sm_lift (on_invalid_type p)
    | None => done ← apply_default p initializer; if done : bool then mret () else sm_lift (on_missing_value p)
    end in
  let (r, res) := run empty_ref in
  let* _ := r in Ok res.

(** [unwrap_value_ref]: the value itself for a single type. *)
Definition unwrap_value_ref (ts : value_types) (r : value_ref) : outcome (value_ref + val) :=
  match ts with
  | type_sequence _ => Ok (inl r)
  | single_type t => let* x := get_ref ts t r in Ok (inr x)
  end.

(** [result_of::extract_or_default]: the types with the type of the default value. *)
Definition extracted_type (ts : value_types) (t : N) : value_types :=
  match ts with
  | type_sequence l => if decide (t ∈ l) then type_sequence l else type_sequence (l ++ [t])
  | single_type s => if decide (s = t) then single_type s else type_sequence [s; t]
  end.

Lemma extracted_type_list ts t s : s ∈ types_list (extracted_type ts t) ↔ s ∈ types_list ts ∨ s = t.
Proof. destruct ts as [s'|l]; cbn; case_decide; cbn; set_solver. Qed.

Definition ref_of (ts : value_types) (o : option val) : value_ref :=
  match o with Some x => make_ref ts x | None => empty_ref end.

Lemma extract_value_run ts p v : extract_value ts p v = (let* o := selected ts p v in Ok (ref_of ts o)).
Proof.
  unfold extract_value, selected. rewrite static_dispatch_run.
  destruct v as [x|]; [destruct (decide _)|]; [done|..]; by destruct p.
Qed.
End visitation.

(** * Values of a record *)

Section named.
Context {val : Type} (type_of : val → N) {A W S : Type} `{!AttrStore A S}.
(** Acquisition of a value, which may be empty. *)
Context (get_value : A → W → outcome (option val) * W).
Context (limit : nat).

Abbreviation M := (sm (attribute_value_set (option val) S * W)).

Definition on_world {Y} (m : sm W Y) : M Y := λ '(v, w), let (r, w') := m w in (r, (v, w')).

(** [operator()] with a name: the name is attached to an exception, which is
    otherwise passed on as it is. *)
Definition visit_named (ts : value_types) (p : fallback_policy) (name : N) (f : visitor (W := W)) : M visitation_result :=
  it ← find_value get_value name;
  on_world (invoke_visitor type_of ts p (mjoin it) f).

Definition extract_named (ts : value_types) (p : fallback_policy) (name : N) : M (value_ref (val := val)) :=
  it ← find_value get_value name;
  sm_lift (extract_value type_of ts p (mjoin it)).

(** [extract], [extract_or_throw] and [extract_or_default]. *)
Definition extract (ts : value_types) (name : N) : M value_ref := extract_named ts fallback_to_none name.

Definition extract_or_throw (ts : value_types) (name : N) : M (value_ref + val) :=
  r ← extract_named ts fallback_to_throw name; sm_lift (unwrap_value_ref type_of ts r).

Definition extract_or_default (ts : value_types) (name : N) (d : val) : M (value_ref + val) :=
  let ts := extracted_type ts (type_of d) in
  r ← extract_named ts (fallback_to_default d) name; sm_lift (unwrap_value_ref type_of ts r).

(** A result with the value that was selected. *)
Definition reads (ts : value_types) (r : outcome (value_ref + val)) (x : outcome (option val)) : Prop :=
  match x with
  | Ok (Some y) => ∃ res, r = Ok res ∧ match res with inl ref => refers type_of limit ts ref y | inr z => z = y end
  | Ok None => r = Ok (inl empty_ref)
  | Throw e => r = Throw e
  | Stuck => r = Stuck
  end.

(** The default value can be referred to. *)
Definition policy_ok (ts : value_types) (p : fallback_policy) : Prop :=
  match p with fallback_to_default d => type_of d ∈ types_list ts | _ => True end.

Lemma selected_type ts p v x : policy_ok ts p → selected type_of ts p v = Ok (Some x) → type_of x ∈ types_list ts.
Proof. destruct v, p; cbn; repeat case_decide; intros ? [= <-]; done. Qed.

Lemma unwrap_reads ts p v : 0 < limit → policy_ok ts p → p ≠ fallback_to_none →
  reads ts (let* r := extract_value type_of ts p v in unwrap_value_ref type_of ts r) (selected type_of ts p v).
Proof.
  intros Hlim Hp Hne. rewrite extract_value_run.
  destruct (selected type_of ts p v) as [[x|]|e|] eqn:E; [|exfalso|done|done].
  - cbn. pose proof (selected_type ts p v x Hp E) as Hx. destruct ts as [t|l]; [by exists (inr x)|].
    exists (inl (make_ref type_of (type_sequence l) x)). split; [done|]. by apply make_ref_refers.
  - destruct v, p; cbn in E; repeat case_decide; done.
Qed.

Lemma extract_reads ts v : 0 < limit →
  reads ts (let* r := extract_value type_of ts fallback_to_none v in Ok (inl r)) (selected type_of ts fallback_to_none v).
Proof.
  intros Hlim. rewrite extract_value_run. destruct (selected _ _ _ _) as [[x|]|e|] eqn:E; [|done..]. cbn. eexists. split; [done|].
  apply make_ref_refers; [done|]. by eapply (selected_type ts fallback_to_none).
Qed.

(** A visitor is called once with the selected value, if there is one. *)
Lemma visit_named_run ts p name f σ : visit_named ts p name f σ =
  match find_value get_value name σ with
  | (Ok a, σ') =>
      match selected type_of ts p (mjoin a) with
      | Ok (Some x) => on_world (f x;; mret visitation_ok) σ'
      | Ok None => (Ok (failure (mjoin a)), σ')
      | Throw e => (Throw e, σ')
      | Stuck => (Stuck, σ')
      end
  | (Throw e, σ') => (Throw e, σ')
  | (Stuck, σ') => (Stuck, σ')
  end.
Proof.
  unfold visit_named. rewrite sm_bind_run. destruct (find_value get_value name σ) as [[a|e|] [v w]]; [|done..].
  unfold on_world. rewrite invoke_visitor_run. by destruct (selected _ _ _ _) as [[]|e|].
Qed.

(** C35: extraction of values. [extract], [extract_or_throw] and
    [extract_or_default], for a type or a sequence of types, look the name up once
    in the values of the record. They give the value that is found if its type
    is one of the types, or the one of the default value; otherwise an empty
    reference, an exception that tells whether the value is missing or has
    another type, or the default value. Through a reference any visitor gets
    exactly this value, whatever the number of types, and no pointer is used as
    a pointer to another type. *)
Theorem extraction_exact ts name d v w : 0 < limit → vset_wf v → name ≠ uninitialized →
  let '(o, σ) := find_value get_value name (v, w) in
  let value types p := let* a := o in selected type_of types p (mjoin a) in
  find_post get_value v w name (o, σ) ∧
  (∃ r, extract ts name (v, w) = (r, σ) ∧
    reads ts (let* x := r in Ok (inl x)) (value ts fallback_to_none)) ∧
  (∃ r, extract_or_throw ts name (v, w) = (r, σ) ∧ reads ts r (value ts fallback_to_throw)) ∧
  (∃ r, extract_or_default ts name d (v, w) = (r, σ) ∧
    let ts' := extracted_type ts (type_of d) in reads ts' r (value ts' (fallback_to_default d))).
Proof.
  intros Hlim Hv Hname. pose proof (find_value_spec get_value v w name Hv Hname) as Hpost.
  destruct (find_value get_value name (v, w)) as [o σ] eqn:E. cbn zeta. split; [done|].
  assert (∀ ts p, extract_named ts p name (v, w) = (let* a := o in extract_value type_of ts p (mjoin a), σ)) as Hn.
  { intros ts' p. unfold extract_named. rewrite sm_bind_run, E. by destruct o. }
  assert (∀ ts p, (r ← extract_named ts p name; sm_lift (unwrap_value_ref type_of ts r)) (v, w) =
    (let* a := o in let* r := extract_value type_of ts p (mjoin a) in unwrap_value_ref type_of ts r, σ)) as Hu.
  { intros ts' p. rewrite sm_bind_run, Hn. destruct o as [a|e|]; [|done..]. cbn. by destruct (extract_value _ _ _ _). }
  split; [|split].
  - unfold extract. rewrite Hn. eexists. split; [done|]. destruct o as [a|e|]; [|done..]. by apply extract_reads.
  - unfold extract_or_throw. rewrite Hu. eexists. split; [done|]. destruct o as [a|e|]; [|done..]. by apply unwrap_reads.
  - unfold extract_or_default. cbn zeta. rewrite Hu. eexists. split; [done|]. destruct o as [a|e|]; [|done..].
    apply unwrap_reads; [done| |done]. apply extracted_type_list. by right.
Qed.
(** The value of a name in a record that has all its values. *)
Definition value_in (v : attribute_value_set (option val) S) (name : N) : option val := mjoin (frozen v !! name).

Lemma find_frozen v w name : vset_wf v → name ≠ uninitialized → pending v = ∅ →
  find_value get_value name (v, w) = (Ok (frozen v !! name), (v, w)).
Proof.
  intros Hv Hn Hp. pose proof (find_value_spec get_value v w name Hv Hn) as H. unfold find_post in H.
  rewrite Hp, lookup_empty in H. by destruct (frozen v !! name).
Qed.
End named.

(** * Examples *)

Module sample_extraction.
(** Values that are pairs of a type and a number; the record has the values 6
    and 20 of the types 2 and 0 under the names 2 and 3. *)
Definition value : Type := N * nat.
Definition value_type (x : value) : N := x.1.

Definition acquire (a : nat) (w : nat) : outcome (option value) * nat := (Ok (Some (N.of_nat (a mod 4), a)), S w).

Definition record_values : attribute_value_set (option value) (attribute_set nat) :=
  create_from_sets sample_set sample_thread empty_set 2.

Lemma record_values_wf : vset_wf record_values.
Proof. apply create_wf; [apply sample_set_wf|apply sample_thread_wf|apply empty_set_wf]. Qed.

(** Twelve types, more than the switch for one type has cases. *)
Definition many_types : value_types := type_sequence [11; 7; 3; 5; 8; 4; 2; 9; 1; 6; 0; 10]%N.

(** A visitor of the reference to the value of the name 2 gets 6. *)
Lemma extraction_exact_witness :
  (∃ r, (extract value_type acquire many_types 2 (record_values, 0)).1 = Ok r ∧ refers value_type 1 many_types r (2%N, 6)) ∧
  (extract_or_throw value_type acquire (single_type 3) 2 (record_values, 0)).1 = Throw ex_invalid_type ∧
  (extract_or_default value_type acquire (single_type 3) 9 (3%N, 50) (record_values, 0)).1 = Ok (inr (3%N, 50)).
Proof.
  split; [|split].
  - pose proof (extraction_exact value_type acquire 1 many_types 2 (3%N, 50) record_values 0 ltac:(lia) record_values_wf ltac:(done)) as H.
    destruct (find_value acquire 2 (record_values, 0)) as [o σ] eqn:E. destruct H as (_ & (r & Er & Hr) & _).
    rewrite Er. vm_compute in E. injection E as <- <-. destruct Hr as (res & Hres & Href).
    destruct r as [r| |]; [|done..]. injection Hres as <-. by exists r.
  - by vm_compute.
  - by vm_compute.
Defined.
End sample_extraction.
