(* ===== verification/Predicates.v ===== *)
(** Predicates on the values of a record: expressions/predicates/has_attr.hpp,
    detail/attribute_predicate.hpp, which is_in_range, begins_with, ends_with and
    contains are made of, and expressions/predicates/channel_severity_filter.hpp.

    A predicate looks values up while a record is being opened, which acquires
    them from the attributes, so that it changes the set of values. A visitor
    stores its answer in a variable of the predicate. *)

From Stdlib Require Import ZArith.
From stdpp Require Import base numbers list gmap.
From S2P Require Import Prelude BucketList AttributeSet AttributeValueSet ValueExtraction.

#[export] Instance visitation_result_eq_dec : EqDecision visitation_result.
Proof. solve_decision. Defined.

Section predicates.
Context {val : Type} (type_of : val → N) {A W S : Type} `{!AttrStore A S}.
Context (get_value : A → W → outcome (option val) * W).

Abbreviation values := (attribute_value_set (option val) S).
Abbreviation M := (sm (values * W)).

(** * Presence *)

(** [has_attribute], with the types of values and without them. *)
Definition has_attribute (ts : value_types) (name : N) : M bool :=
  r ← visit_named type_of get_value ts fallback_to_none name (λ _, mret ());
  mret (bool_decide (r = visitation_ok)).

Definition has_attribute_any (name : N) : M bool :=
  it ← find_value get_value name; mret (bool_decide (is_Some it)).

(** * Visitors with a variable *)

Abbreviation L := (sm (bool * (values * W))).

Definition on_values {Y} (m : M Y) : L Y := λ '(b, σ), let (r, σ') := m σ in (r, (b, σ')).

(** [save_result]. *)
Definition save_result (res : bool) : L unit := sm_modify (λ '(_, σ), (res, σ)).

(** [value_visitor_invoker::operator()] with a name. *)
Definition invoke (ts : value_types) (p : fallback_policy) (name : N) (f : val → L unit) : L unit :=
  it ← on_values (find_value get_value name);
  invoke_visitor type_of ts p (mjoin it) f;; mret ().

(** The variable with its first value, and what it holds in the end. *)
Definition with_result (res : bool) (m : L unit) : M bool := λ σ,
  let '(r, (b, σ')) := m (res, σ) in (let* _ := r in Ok b, σ').

(** [attribute_predicate] with its predicate and argument. *)
Definition attribute_predicate (ts : value_types) (p : fallback_policy) (name : N) (pred : val → bool) : M bool :=
  with_result false (invoke ts p name (λ x, save_result (pred x))).

(** * Channels and severity levels *)

(** The order of channels and the comparison of levels. *)
Context (channel_less severity_compare : val → val → bool).

Definition equivalent (a b : val) : bool := negb (channel_less a b) && negb (channel_less b a).

(** [std::map]: entries with keys that are not equivalent. *)
Abbreviation mapping := (list (val * val)).

Fixpoint map_find (k : val) (m : mapping) : option val :=
  match m with
  | [] => None
  | (c, s) :: m => if equivalent c k then Some s else map_find k m
  end.

(** [insert], and the assignment to the entry when it is there. *)
Fixpoint map_assign (k s : val) (m : mapping) : mapping :=
  match m with
  | [] => [(k, s)]
  | (c, s') :: m => if equivalent c k then (c, s) :: m else (c, s') :: map_assign k s m
  end.

Record channel_severity_filter := ChannelFilter {
  m_channel_name : N; m_severity_name : N; channel_type : N; severity_type : N;
  m_channel_policy : fallback_policy (val := val); m_severity_policy : fallback_policy (val := val);
  m_mapping : mapping; m_default : bool }.

Definition new_filter (channel_name severity_name ct st : N) (pc ps : fallback_policy) : channel_severity_filter :=
  ChannelFilter channel_name severity_name ct st pc ps [] false.

Definition set_mapping (m : mapping) (t : channel_severity_filter) : channel_severity_filter :=
  ChannelFilter (m_channel_name t) (m_severity_name t) (channel_type t) (severity_type t)
    (m_channel_policy t) (m_severity_policy t) m (m_default t).

(** [add], also through [operator\[\]]. *)
Definition add (channel severity : val) (t : channel_severity_filter) : channel_severity_filter :=
  set_mapping (map_assign channel severity (m_mapping t)) t.

Definition set_default (def : bool) (t : channel_severity_filter) : channel_severity_filter :=
  ChannelFilter (m_channel_name t) (m_severity_name t) (channel_type t) (severity_type t)
    (m_channel_policy t) (m_severity_policy t) (m_mapping t) def.

Definition visit_severity (left right : val) : L unit := save_result (severity_compare left right).

Definition visit_channel (t : channel_severity_filter) (channel : val) : L unit :=
  match map_find channel (m_mapping t) with
  | Some severity => invoke (single_type (severity_type t)) (m_severity_policy t) (m_severity_name t) (λ s, visit_severity s severity)
  | None => mret ()
  end.

Definition call_filter (t : channel_severity_filter) : M bool :=
  with_result (m_default t) (invoke (single_type (channel_type t)) (m_channel_policy t) (m_channel_name t) (visit_channel t)).

(** * What predicates decide *)

(** Attributes whose values are acquired without effects. *)
Context (current : A → option val).
Definition pure_attributes : Prop := ∀ a w, get_value a w = (Ok (current a), w).

(** The value of a name, whether it has been acquired or not. *)
Definition value_of (v : values) (name : N) : option val :=
  mjoin (match frozen v !! name with Some x => Some x | None => current <$> pending v !! name end).

(** The set as programs see it. *)
Definition same_values (v v' : values) : Prop := vset_wf v' ∧ ∀ name, value_of v' name = value_of v name.

Lemma same_values_trans v1 v2 v3 : same_values v1 v2 → same_values v2 v3 → same_values v1 v3.
Proof. intros [_ H1] [H2 H3]. split; [done|]. intros name. by rewrite H3. Qed.

Lemma find_pure v w name : pure_attributes → vset_wf v → name ≠ uninitialized →
  ∃ it v', find_value get_value name (v, w) = (Ok it, (v', w)) ∧ mjoin it = value_of v name ∧ same_values v v'.
Proof.
  intros Hpure Hv Hn. pose proof (find_value_spec get_value v w name Hv Hn) as H. unfold find_post in H.
  unfold value_of at 1. destruct (frozen v !! name) as [x|] eqn:Ef; [by eexists _, v|].
  destruct (pending v !! name) as [a|] eqn:Ep; [|by eexists _, v]. rewrite (Hpure a w) in H.
  destruct H as (v' & -> & Hv' & Hs & Hf). eexists _, v'. split; [done|]. split; [done|]. split; [done|].
  intros n. unfold value_of. rewrite Hf, (same_sets_pending v v' Hs). destruct (decide (n = name)) as [-> |Hne].
  - by rewrite lookup_insert_eq, Ef, Ep.
  - by rewrite lookup_insert_ne.
Qed.

Definition run_post {Y} (v : values) (w : W) (r : outcome Y) (res : outcome Y * (values * W)) : Prop :=
  ∃ v', res = (r, (v', w)) ∧ same_values v v'.

Lemma invoke_pure ts p name f b v w : pure_attributes → vset_wf v → name ≠ uninitialized →
  ∃ v', same_values v v' ∧ invoke ts p name f (b, (v, w)) =
    match selected type_of ts p (value_of v name) with
    | Ok (Some x) => f x (b, (v', w))
    | Ok None => (Ok (), (b, (v', w)))
    | Throw e => (Throw e, (b, (v', w)))
    | Stuck => (Stuck, (b, (v', w)))
    end.
Proof.
  intros Hpure Hv Hn. destruct (find_pure v w name Hpure Hv Hn) as (it & v' & E & Hit & Hs). exists v'. split; [done|].
  unfold invoke. rewrite sm_bind_run. unfold on_values. rewrite E, sm_bind_run, invoke_visitor_run, Hit.
  destruct (selected type_of ts p (value_of v name)) as [[x|]|e|]; [|done..].
  rewrite sm_bind_run. by destruct (f x (b, (v', w))) as [[[]|e|] σ].
Qed.

(** The answer of a predicate: that of the value that is selected, if any. *)
Lemma attribute_predicate_pure ts p name pred v w : pure_attributes → vset_wf v → name ≠ uninitialized →
  run_post v w (let* x := selected type_of ts p (value_of v name) in Ok (from_option pred false x))
    (attribute_predicate ts p name pred (v, w)).
Proof.
  intros Hpure Hv Hn. unfold attribute_predicate, with_result.
  destruct (invoke_pure ts p name (λ x, save_result (pred x)) false v w Hpure Hv Hn) as (v' & Hs & ->).
  exists v'. split; [|done]. by destruct (selected type_of ts p (value_of v name)) as [[x|]|e|].
Qed.

Lemma has_attribute_pure ts name v w : pure_attributes → vset_wf v → name ≠ uninitialized →
  run_post v w (Ok (match value_of v name with Some x => bool_decide (type_of x ∈ types_list ts) | None => false end))
    (has_attribute ts name (v, w)).
Proof.
  intros Hpure Hv Hn. destruct (find_pure v w name Hpure Hv Hn) as (it & v' & E & Hit & Hs). exists v'. split; [|done].
  unfold has_attribute. rewrite sm_bind_run, visit_named_run, E, Hit. destruct (value_of v name) as [x|]; cbn; [|done].
  case_decide as Ht; [by rewrite (bool_decide_eq_true_2 _ Ht)|by rewrite (bool_decide_eq_false_2 _ Ht)].
Qed.

(** ** Thresholds *)

(** [channel_less] is a strict weak order, which [std::map] requires. *)
Context `{!Equivalence (λ a b, equivalent a b : Prop)}.

Lemma equivalent_left a b c : equivalent a b → equivalent a c = equivalent b c.
Proof.
  intros Hab. apply eq_bool_prop_intro. split; intros H; [|by etransitivity]. etransitivity; [|exact H]. by symmetry.
Qed.

Lemma map_find_assign k s m c : map_find c (map_assign k s m) = if equivalent k c then Some s else map_find c m.
Proof.
  induction m as [|[k' s'] m IH]; cbn; [done|]. destruct (equivalent k' k) eqn:E; cbn.
  - rewrite (equivalent_left k' k c) by (by rewrite E). by destruct (equivalent k c).
  - rewrite IH. destruct (equivalent k' c) eqn:E1; [|done]. destruct (equivalent k c) eqn:E2; [|done].
    assert (equivalent k' k) as H by (etransitivity; [by rewrite E1|]; symmetry; by rewrite E2). by rewrite E in H.
Qed.

(** A filter with the thresholds that were added, the last one first. *)
Fixpoint with_thresholds (l : list (val * val)) (t : channel_severity_filter) : channel_severity_filter :=
  match l with
  | [] => t
  | (c, s) :: l => add c s (with_thresholds l t)
  end.

(** The threshold of a channel. *)
Definition threshold (l : list (val * val)) (c : val) : option val :=
  snd ∘ snd <$> list_find (λ e, equivalent e.1 c) l.

Lemma with_thresholds_find l t c : m_mapping t = [] → map_find c (m_mapping (with_thresholds l t)) = threshold l c.
Proof.
  intros Ht. induction l as [|[k s] l IH]; [by cbn; rewrite Ht|]. cbn [with_thresholds add set_mapping m_mapping].
  rewrite map_find_assign, IH. unfold threshold. cbn. destruct (equivalent k c); cbn; [done|].
  by destruct (list_find _ l) as [[]|].
Qed.

Lemma with_thresholds_rest l t : let t' := with_thresholds l t in
  m_channel_name t' = m_channel_name t ∧ m_severity_name t' = m_severity_name t ∧ channel_type t' = channel_type t ∧
  severity_type t' = severity_type t ∧ m_channel_policy t' = m_channel_policy t ∧
  m_severity_policy t' = m_severity_policy t ∧ m_default t' = m_default t.
Proof. by induction l as [|[k s] l IH]. Qed.

(** Predicates on lazily acquired values. With attributes whose values are
    acquired without effects, the filter of channels by severity decides what the
    values say, whether they have been acquired or not: the level of a record is
    compared with the threshold that was added last for its channel, and the
    default decides when there is no channel, no threshold or no level; missing
    and mistyped values are treated as the policies say. The other predicates
    decide their condition for the value. None of them changes what later lookups
    find. *)
Theorem predicates_exact cn sn ct st pc ps l def ts p name pred v w :
  pure_attributes → vset_wf v → cn ≠ uninitialized → sn ≠ uninitialized → name ≠ uninitialized →
  run_post v w
    (let* c := selected type_of (single_type ct) pc (value_of v cn) in
     match c ≫= threshold l with
     | None => Ok def
     | Some t => let* s := selected type_of (single_type st) ps (value_of v sn) in
                 Ok (from_option (λ s, severity_compare s t) def s)
     end)
    (call_filter (set_default def (with_thresholds l (new_filter cn sn ct st pc ps))) (v, w)) ∧
  run_post v w (let* x := selected type_of ts p (value_of v name) in Ok (from_option pred false x))
    (attribute_predicate ts p name pred (v, w)) ∧
  run_post v w (Ok (match value_of v name with Some x => bool_decide (type_of x ∈ types_list ts) | None => false end))
    (has_attribute ts name (v, w)).
Proof.
  intros Hpure Hv Hcn Hsn Hname. split; [|split; [by apply attribute_predicate_pure|by apply has_attribute_pure]].
  destruct (with_thresholds_rest l (new_filter cn sn ct st pc ps)) as (H1 & H2 & H3 & H4 & H5 & H6 & _).
  pose proof (with_thresholds_find l (new_filter cn sn ct st pc ps)) as Hfind.
  destruct (with_thresholds l (new_filter cn sn ct st pc ps)) as [cn' sn' ct' st' pc' ps' m def'].
  cbn in H1, H2, H3, H4, H5, H6. subst cn' sn' ct' st' pc' ps'. unfold call_filter, set_default, with_result.
  cbn [m_channel_name m_severity_name channel_type severity_type m_channel_policy m_severity_policy m_mapping m_default].
  destruct (invoke_pure (single_type ct) pc cn (visit_channel (ChannelFilter cn sn ct st pc ps m def)) def v w Hpure Hv Hcn)
    as (v1 & Hs1 & E1). rewrite E1.
  destruct (selected type_of (single_type ct) pc (value_of v cn)) as [[c|]|e|]; [|by exists v1..].
  unfold visit_channel. cbn [m_mapping obind mbind option_bind] in Hfind |- *. rewrite (Hfind c eq_refl).
  destruct (threshold l c) as [t|]; [|by exists v1]. cbn [severity_type m_severity_policy m_severity_name].
  destruct (invoke_pure (single_type st) ps sn (λ s, visit_severity s t) def v1 w Hpure (proj1 Hs1) Hsn) as (v2 & Hs2 & E2).
  rewrite E2, (proj2 Hs1 sn). exists v2. split; [|by eapply same_values_trans].
  by destruct (selected type_of (single_type st) ps (value_of v sn)) as [[s|]|e|].
Qed.
End predicates.

(** * Example *)

Module sample_predicates.
(** Channels have the type 3 and levels the type 2; the record of the example of
    extraction has the channel 7 under the name 17 and the level 6 under the name
    2, and its values have not been acquired. *)
Definition acquire_pure (a : nat) (w : nat) : outcome (option sample_extraction.value) * nat :=
  (Ok (Some (N.of_nat (a mod 4), a)), w).

Definition less (a b : sample_extraction.value) : bool := a.2 <? b.2.
Definition at_least (a b : sample_extraction.value) : bool := b.2 <=? a.2.

#[local] Instance less_equivalence : Equivalence (λ a b, equivalent less a b : Prop).
Proof.
  assert (∀ a b, equivalent less a b ↔ a.2 = b.2) as H.
  { intros a b. unfold equivalent, less. rewrite andb_True, !negb_True. split.
    - intros [H1 H2]. destruct (Nat.ltb_spec a.2 b.2), (Nat.ltb_spec b.2 a.2); naive_solver lia.
    - intros ->. rewrite Nat.ltb_irrefl. naive_solver. }
  split; red; intros *; rewrite ?H; congruence.
Qed.

Definition filter_of (l : list (sample_extraction.value * sample_extraction.value)) : channel_severity_filter :=
  set_default true (with_thresholds less l (new_filter 17 2 3 2 fallback_to_none fallback_to_throw)).

(** The threshold 9 of the channel, which was added after the threshold 5. *)
Definition thresholds : list (sample_extraction.value * sample_extraction.value) :=
  [((3%N, 7), (2%N, 9)); ((3%N, 8), (2%N, 1)); ((3%N, 7), (2%N, 5))].

Lemma predicates_exact_witness :
  (call_filter sample_extraction.value_type acquire_pure less at_least (filter_of thresholds) (sample_extraction.record_values, 0)).1 = Ok false ∧
  (call_filter sample_extraction.value_type acquire_pure less at_least (filter_of (tail thresholds)) (sample_extraction.record_values, 0)).1 = Ok true.
Proof.
  assert (∀ l, ∃ v', call_filter sample_extraction.value_type acquire_pure less at_least (filter_of l) (sample_extraction.record_values, 0) =
    (match threshold less l (3%N, 7) with None => Ok true | Some t => Ok (at_least (2%N, 6) t) end, (v', 0))) as H.
  { intros l. destruct (predicates_exact sample_extraction.value_type acquire_pure less at_least
      (λ a, Some (N.of_nat (a mod 4), a)) 17 2 3 2 fallback_to_none fallback_to_throw l true (single_type 2) fallback_to_none 2
      (λ _, true) sample_extraction.record_values 0) as [(v' & E & _) _]; [done|apply sample_extraction.record_values_wf|done..|].
    by exists v'. }
  split; edestruct H as [v' ->]; by vm_compute.
Defined.
End sample_predicates.
