(* ===== verification/RecordOrdering.v ===== *)
(** Orders of records for the ordering queues:
    src/include/boost/log/utility/record_ordering.hpp.

    [attribute_value_ordering] compares two records by the values of an attribute.
    The values of the second record are visited by the visitor of the value of the
    first one, which stores the answer in a variable of the predicate. *)

From Stdlib Require Import ZArith.
From stdpp Require Import base numbers list gmap.
From S2P Require Import Prelude BucketList AttributeSet AttributeValueSet ValueExtraction Predicates.

Section ordering.
Context {val : Type} (type_of : val → N) {A W S : Type} `{!AttrStore A S}.
Context (get_value : A → W → outcome (option val) * W).

Abbreviation values := (attribute_value_set (option val) S).

(** ** Addresses *)

(** [abstract_ordering]: the addresses of the values of the records. *)
Definition abstract_ordering {R} (fun_ : N → N → bool) (address : R → N) (left right : R) : bool :=
  fun_ (address left) (address right).

(** ** Attribute values *)

(** The variable and the two records. *)
Abbreviation L := (sm (bool * (values * values * W))).

Definition on_left {Y} (m : sm (values * W) Y) : L Y := λ '(b, (l, r, w)),
  let '(x, (l', w')) := m (l, w) in (x, (b, (l', r, w'))).
Definition on_right {Y} (m : sm (values * W) Y) : L Y := λ '(b, (l, r, w)),
  let '(x, (r', w')) := m (r, w) in (x, (b, (l, r', w'))).

(** [visit] of a value of the left and of the right record. *)
Definition visit_left (ts : value_types) (name : N) (f : val → L unit) : L visitation_result :=
  it ← on_left (find_value get_value name); invoke_visitor type_of ts fallback_to_none (mjoin it) f.
Definition visit_right (ts : value_types) (name : N) (f : val → L unit) : L visitation_result :=
  it ← on_right (find_value get_value name); invoke_visitor type_of ts fallback_to_none (mjoin it) f.

Context (ts : value_types) (fun_ : val → val → bool) (m_name : N).

Definition l2_visitor (left right : val) : L unit := sm_modify (λ '(_, σ), (fun_ left right, σ)).
Definition l1_visitor (left : val) : L unit := visit_right ts m_name (l2_visitor left);; mret ().

(** [operator()]. *)
Definition compare_values : L bool :=
  r ← visit_left ts m_name l1_visitor;
  if decide (r = visitation_ok) then '(result, _) ← sm_get; mret result
  else r ← visit_right ts m_name (λ _, mret ()); mret (bool_decide (r ≠ visitation_ok)).

Definition attribute_value_ordering (left right : values) (w : W) : outcome bool :=
  (compare_values (false, (left, right, w))).1.

(** * What is decided *)

(** The value that is compared, of a record with all its values. *)
Definition key (v : values) : option val :=
  x ← value_in v m_name; if decide (type_of x ∈ types_list ts) then Some x else None.

Definition ordered (left right : option val) : bool :=
  match left, right with
  | Some a, Some b => fun_ a b
  | Some _, None | None, Some _ => false
  | None, None => true
  end.

(** A record in a queue. *)
Definition complete (v : values) : Prop := vset_wf v ∧ pending v = ∅.

Lemma visit_left_run b l r w f : complete l → m_name ≠ uninitialized →
  visit_left ts m_name f (b, (l, r, w)) =
    match key l with
    | Some x => (f x;; mret visitation_ok) (b, (l, r, w))
    | None => (Ok (failure (value_in l m_name)), (b, (l, r, w)))
    end.
Proof.
  intros [Hl Hp] Hn. unfold visit_left, on_left, key. rewrite sm_bind_run, (find_frozen get_value l w) by done.
  rewrite invoke_visitor_run. unfold selected, value_in. destruct (mjoin (frozen l !! m_name)) as [x|]; [|done]. cbn.
  by case_decide.
Qed.

Lemma visit_right_run b l r w f : complete r → m_name ≠ uninitialized →
  visit_right ts m_name f (b, (l, r, w)) =
    match key r with
    | Some x => (f x;; mret visitation_ok) (b, (l, r, w))
    | None => (Ok (failure (value_in r m_name)), (b, (l, r, w)))
    end.
Proof.
  intros [Hr Hp] Hn. unfold visit_right, on_right, key. rewrite sm_bind_run, (find_frozen get_value r w) by done.
  rewrite invoke_visitor_run. unfold selected, value_in. destruct (mjoin (frozen r !! m_name)) as [x|]; [|done]. cbn.
  by case_decide.
Qed.

Lemma failure_not_ok (v : option val) : failure v ≠ visitation_ok.
Proof. by destruct v. Qed.

Lemma ordering_run l r w : complete l → complete r → m_name ≠ uninitialized →
  attribute_value_ordering l r w = Ok (ordered (key l) (key r)).
Proof.
  intros Hl Hr Hn. unfold attribute_value_ordering, compare_values. rewrite sm_bind_run, visit_left_run by done.
  destruct (key l) as [a|]; cbn [ordered].
  - rewrite sm_bind_run. unfold l1_visitor. rewrite sm_bind_run, visit_right_run by done. destruct (key r) as [b|].
    + done.
    + cbn. done.
  - rewrite decide_False by apply failure_not_ok. rewrite sm_bind_run, visit_right_run by done. destruct (key r) as [b|].
    + done.
    + cbn. by rewrite bool_decide_eq_true_2 by apply failure_not_ok.
Qed.

(** The order of records by an attribute. Two records that both have a value of
    one of the types are ordered as the values are. A record that has one and a
    record that has none are not ordered either way. But two records without a
    value, also a record and itself, are ordered before each other both ways, so
    that they are not equivalent and the predicate is not a strict order. *)
Theorem ordering_by_value l r w : complete l → complete r → m_name ≠ uninitialized →
  (∀ a b, key l = Some a → key r = Some b → attribute_value_ordering l r w = Ok (fun_ a b)) ∧
  (is_Some (key l) → key r = None →
    attribute_value_ordering l r w = Ok false ∧ attribute_value_ordering r l w = Ok false) ∧
  (key l = None → key r = None → attribute_value_ordering l l w = Ok true ∧
    attribute_value_ordering l r w = Ok true ∧ attribute_value_ordering r l w = Ok true).
Proof.
  intros Hl Hr Hn. rewrite !ordering_run by done. split_and!.
  - by intros a b -> ->.
  - by intros [a ->] ->.
  - by intros -> ->.
Qed.
End ordering.

(** * Example *)

Module sample_order.
(** The record of the example of extraction, with all its values. *)
Definition record_values : attribute_value_set (option sample_extraction.value) (attribute_set nat) :=
  (freeze sample_extraction.acquire (sample_extraction.record_values, 0)).2.1.

Lemma record_complete : complete record_values.
Proof.
  pose proof (freeze_spec sample_extraction.acquire _ 0 ltac:(done) sample_extraction.record_values_wf) as H.
  unfold record_values. destruct (freeze _ _) as [[[]|e|] [v w]] eqn:E; [|by vm_compute in E..]. destruct H as (H1 & H2 & H3 & H4 & _).
  split; [apply H1|]. unfold pending. cbn. rewrite H2, H3, H4. done.
Qed.

(** By the name 2 it is not before itself; by the name 9, which has no value, it is. *)
Lemma ordering_by_value_witness :
  attribute_value_ordering sample_extraction.value_type sample_extraction.acquire (single_type 2)
    sample_predicates.less 2 record_values record_values 0 = Ok false ∧
  attribute_value_ordering sample_extraction.value_type sample_extraction.acquire (single_type 2)
    sample_predicates.less 9 record_values record_values 0 = Ok true.
Proof.
  split.
  - apply (ordering_by_value sample_extraction.value_type sample_extraction.acquire (single_type 2) sample_predicates.less 2
      record_values record_values 0 record_complete record_complete ltac:(done)) with (a := (2%N, 6)) (b := (2%N, 6)); by vm_compute.
  - apply (ordering_by_value sample_extraction.value_type sample_extraction.acquire (single_type 2) sample_predicates.less 9
      record_values record_values 0 record_complete record_complete ltac:(done)); by vm_compute.
Defined.
End sample_order.
