(* ===== verification/Core.v ===== *)
(** The logging core (src/src/core.cpp): the registry of sinks, the global
    and thread-specific attributes, and the two halves of a log statement:
    [open_record] filters a record and collects the sinks that accept it,
    [push_record_move] passes it to these sinks. *)

From Stdlib Require Import ZArith.
From stdpp Require Import base numbers gmap sorting functions list.
From S2P Require Import Prelude BucketList AttributeSet AttributeValueSet.

(** A sink is known by the identity of its object. *)
Abbreviation sink_id := nat.

(** A filter is user code that looks attribute values up, may act on the
    world (take a lock, run the sink's own exception handler), may throw and
    may handle what its parts throw. *)
Inductive query (V W : Type) : Type :=
| QRet (accept : bool)
| QThrow (e : exn)
| QFind (key : N) (k : option V → query V W)
| QDo (act : W → outcome bool * W) (k : bool → query V W)
| QTry (body : query V W) (handler : exn → query V W).
Arguments QRet {V W}.
Arguments QThrow {V W}.
Arguments QFind {V W}.
Arguments QDo {V W}.
Arguments QTry {V W}.

(** The record implementation. The accepting sinks are weak pointers; their
    number is [m_accepting_sink_count]. *)
Record private_data (V AS : Type) := PrivateData {
  m_attribute_values : attribute_value_set V AS;
  m_accepting_sinks : list sink_id;
  m_accepting_sink_capacity : Z;
  m_detach_from_thread_needed : bool }.
Arguments PrivateData {V AS}.
Arguments m_attribute_values {V AS} _.
Arguments m_accepting_sinks {V AS} _.
Arguments m_accepting_sink_capacity {V AS} _.
Arguments m_detach_from_thread_needed {V AS} _.

(** The virtual functions of a sink; [expired] tells whether the sink object
    has been destroyed, which is what [weak_ptr::lock] finds out. *)
Record sink_ops (V AS W : Type) := SinkOps {
  will_consume : sink_id → query V W;
  is_cross_thread : sink_id → bool;
  try_consume : sink_id → private_data V AS → sm W bool;
  consume : sink_id → private_data V AS → sm W unit;
  flush_sink : sink_id → sm W unit;
  expired : sink_id → W → bool }.
Arguments SinkOps {V AS W}.
Arguments will_consume {V AS W} _ _.
Arguments is_cross_thread {V AS W} _ _.
Arguments try_consume {V AS W} _ _ _.
Arguments consume {V AS W} _ _ _.
Arguments flush_sink {V AS W} _ _.
Arguments expired {V AS W} _ _ _.

Record thread_data (AS R : Type) := ThreadData {
  m_thread_attributes : AS;
  m_rng : R }.
Arguments ThreadData {AS R}.
Arguments m_thread_attributes {AS R} _.
Arguments m_rng {AS R} _.

(** [core::implementation]; an empty filter accepts everything, an empty
    exception handler is [None]. *)
Record core (V AS R W : Type) := Core {
  m_sinks : list sink_id;
  m_default_sink : sink_id;
  m_global_attributes : AS;
  m_thread_data : gmap nat (thread_data AS R);
  m_enabled : bool;
  m_filter : query V W;
  m_exception_handler : option (exn → sm W unit) }.
Arguments Core {V AS R W}.
Arguments m_sinks {V AS R W} _.
Arguments m_default_sink {V AS R W} _.
Arguments m_global_attributes {V AS R W} _.
Arguments m_thread_data {V AS R W} _.
Arguments m_enabled {V AS R W} _.
Arguments m_filter {V AS R W} _.
Arguments m_exception_handler {V AS R W} _.

(** * Operations *)

(** [catch (...) { if (m_exception_handler.empty()) throw; m_exception_handler(); }] *)
Definition handle {W} (h : option (exn → sm W unit)) (e : exn) : sm W unit :=
  match h with
  | None => sm_throw e
  | Some f => f e
  end.

(** [a[i]] and [a[j]] exchange their values; an index out of range is
    undefined. *)
Definition swap {A} (a : list A) (i j : nat) : outcome (list A) :=
  match a !! i, a !! j with
  | Some x, Some y => Ok (<[j := x]> (<[i := y]> a))
  | _, _ => Stuck
  end.

(** The random number generator of Boost.Random. *)
Class Rng (R : Type) := {
  rng_seed : nat → R;
  rng_next : R → Z * R }.

(** [random_shuffle(begin, end, rng)] with [it] at index [it]; [n] is
    [end - it]. *)
Fixpoint shuffle_loop {A R} `{!Rng R} (n it : nat) (a : list A) (rng : R) : outcome (list A * R) :=
  match n with
  | 0 => Ok (a, rng)
  | S n' =>
      let '(x, rng') := rng_next rng in
      let where_ := Z.to_nat (x mod (Z.of_nat it + 1)) in
      let* a' := (if decide (where_ = it) then Ok a else swap a where_ it) in
      shuffle_loop n' (S it) a' rng'
  end.

Definition random_shuffle {A R} `{!Rng R} (end_ : nat) (a : list A) (rng : R) : outcome (list A * R) :=
  shuffle_loop (end_ - 1) 1 a rng.

Section operations.
Context {A V AS R W : Type} `{!AttrStore A AS} `{!Rng R}.
Context (get_value : A → W → outcome V * W).
(** [attribute_value::detach_from_thread]: user code that may throw. *)
Context (detach_from_thread : V → sm W V).
Context (ops : sink_ops V AS W).
(** The default-constructed (empty) attribute set of a new thread. *)
Context (empty_attrs : AS).

Abbreviation vset := (attribute_value_set V AS).
Abbreviation rec := (private_data V AS).
Abbreviation core_t := (core V AS R W).
Implicit Types (c : core_t) (w : W) (v : vset) (p : rec) (s : sink_id).

(** ** The registry of sinks, attributes, filter and handler *)

Definition set_sinks l c : core_t := Core l (m_default_sink c) (m_global_attributes c)
  (m_thread_data c) (m_enabled c) (m_filter c) (m_exception_handler c).
Definition with_threads t c : core_t := Core (m_sinks c) (m_default_sink c) (m_global_attributes c)
  t (m_enabled c) (m_filter c) (m_exception_handler c).

Definition set_logging_enabled (enabled : bool) c : bool * core_t :=
  (m_enabled c, Core (m_sinks c) (m_default_sink c) (m_global_attributes c)
    (m_thread_data c) enabled (m_filter c) (m_exception_handler c)).

Definition add_sink s c : core_t :=
  if decide (s ∈ m_sinks c) then c else set_sinks (m_sinks c ++ [s]) c.

Fixpoint erase_first s (l : list sink_id) : list sink_id :=
  match l with
  | [] => []
  | x :: t => if decide (x = s) then t else x :: erase_first s t
  end.

Definition remove_sink s c : core_t := set_sinks (erase_first s (m_sinks c)) c.

Definition remove_all_sinks c : core_t := set_sinks [] c.

Definition set_global_attributes (attrs : AS) c : core_t := Core (m_sinks c) (m_default_sink c) attrs
  (m_thread_data c) (m_enabled c) (m_filter c) (m_exception_handler c).

Definition set_filter (f : query V W) c : core_t := Core (m_sinks c) (m_default_sink c)
  (m_global_attributes c) (m_thread_data c) (m_enabled c) f (m_exception_handler c).

Definition reset_filter c : core_t := set_filter (QRet true) c.

Definition set_exception_handler h c : core_t := Core (m_sinks c) (m_default_sink c)
  (m_global_attributes c) (m_thread_data c) (m_enabled c) (m_filter c) h.

(** [get_thread_data] with [init_thread_data]: creates the calling thread's
    data on first use. *)
Definition get_thread_data (tid : nat) c : thread_data AS R * core_t :=
  match m_thread_data c !! tid with
  | Some d => (d, c)
  | None =>
      let d := ThreadData empty_attrs (rng_seed tid) in
      (d, with_threads (<[tid := d]> (m_thread_data c)) c)
  end.

Definition set_thread_attributes (tid : nat) (attrs : AS) c : core_t :=
  let '(d, c') := get_thread_data tid c in
  with_threads (<[tid := ThreadData attrs (m_rng d)]> (m_thread_data c')) c'.

(** ** Opening a record *)

Fixpoint eval (q : query V W) : sm (vset * W) bool :=
  match q with
  | QRet b => mret b
  | QThrow e => sm_throw e
  | QFind key k => x ← find_value get_value key; eval (k x)
  | QDo act k => λ '(v, w), let '(r, w') := act w in
      match r with
      | Ok b => eval (k b) (v, w')
      | Throw e => (Throw e, (v, w'))
      | Stuck => (Stuck, (v, w'))
      end
  | QTry body handler => sm_catch (eval body) (λ e, eval (handler e))
  end.

(** The source attributes of the three [open_record] overloads. *)
Inductive source_attributes : Type :=
| FromSet (attrs : AS)
| FromValues (values : vset)
| FromMoved (values : vset).

(** The view of the attribute values, not frozen yet. *)
Definition compose (src : source_attributes) (thread global : AS) : sm W vset := λ w,
  match src with
  | FromSet attrs => (Ok (create_from_sets attrs thread global 8), w)
  | FromValues values =>
      let '(r, (_, w')) := create_from_values get_value thread global 8 (values, w) in (r, w')
  | FromMoved values => (Ok (create_move values thread global), w)
  end.

(** The pair of [rec_impl] and the attribute values [values] points to: the
    local set as long as no sink has accepted the record, the record's own
    set (to which the local one is moved) afterwards. *)
Inductive opening : Type :=
| NullRec (attr_values : vset)
| Rec (rec_impl : rec).

Definition values_of (o : opening) : vset :=
  match o with
  | NullRec v => v
  | Rec p => m_attribute_values p
  end.

Definition update_values (o : opening) v : opening :=
  match o with
  | NullRec _ => NullRec v
  | Rec p => Rec (PrivateData v (m_accepting_sinks p) (m_accepting_sink_capacity p)
                    (m_detach_from_thread_needed p))
  end.

(** Runs code on the attribute values [values] points to. *)
Definition on_values {X} (m : sm (vset * W) X) : sm (opening * W) X := λ '(o, w),
  let '(r, (v, w')) := m (values_of o, w) in (r, (update_values o v, w')).

Definition on_world {X} (m : sm W X) : sm (opening * W) X := λ '(o, w),
  let '(r, w') := m w in (r, (o, w')).

Definition create_record v (capacity : Z) : rec := PrivateData v [] capacity false.

(** [BOOST_ASSERT(m_accepting_sink_count < m_accepting_sink_capacity)]. *)
Definition push_back_accepting_sink s p : outcome rec :=
  if (Z.of_nat (length (m_accepting_sinks p)) <? m_accepting_sink_capacity p)%Z then
    Ok (PrivateData (m_attribute_values p) (m_accepting_sinks p ++ [s])
          (m_accepting_sink_capacity p)
          (m_detach_from_thread_needed p || is_cross_thread ops s))
  else Stuck.

Definition apply_sink_filter (h : option (exn → sm W unit)) s (remaining_capacity : Z)
    : sm (opening * W) unit :=
  sm_catch
    (accept ← on_values (eval (will_consume ops s));
     if accept : bool then
       '(o, w) ← sm_get;
       let impl := match o with
                   | NullRec v => create_record v remaining_capacity
                   | Rec p => p
                   end in
       p ← sm_lift (push_back_accepting_sink s impl);
       sm_put (Rec p, w)
     else mret ())
    (λ e, on_world (handle h e)).

Fixpoint apply_sink_filters h (sinks : list sink_id) (remaining_capacity : Z)
    : sm (opening * W) unit :=
  match sinks with
  | [] => mret ()
  | s :: rest =>
      _ ← apply_sink_filter h s remaining_capacity;
      apply_sink_filters h rest (u32 (remaining_capacity - 1))
  end.

Definition record_of (o : opening) : option rec :=
  match o with NullRec _ => None | Rec p => Some p end.

(** The part of [open_record] inside the [try] block; the outcome of the sink
    filters is kept apart because an exception that leaves them does not run
    the handler again ([invoke_exception_handler]). *)
Definition open_record (tid : nat) (src : source_attributes) : sm (core_t * W) (option rec) :=
  λ '(c, w),
  if negb (m_enabled c) then (Ok None, (c, w)) else
  let '(d, c) := get_thread_data tid c in
  let h := m_exception_handler c in
  let failed e w := let '(r, w') := handle h e w in ((let* _ := r in Ok None), (c, w')) in
  match compose src (m_thread_attributes d) (m_global_attributes c) w with
  | (Throw e, w) => failed e w
  | (Stuck, w) => (Stuck, (c, w))
  | (Ok v, w) =>
    match eval (m_filter c) (v, w) with
    | (Throw e, (_, w)) => failed e w
    | (Stuck, (_, w)) => (Stuck, (c, w))
    | (Ok false, (_, w)) => (Ok None, (c, w))
    | (Ok true, (v, w)) =>
      let sinks := m_sinks c in
      match (if decide (sinks = []) then apply_sink_filter h (m_default_sink c) 1
             else apply_sink_filters h sinks (u32 (Z.of_nat (length sinks)))) (NullRec v, w) with
      | (Throw e, (_, w)) => (Throw e, (c, w))
      | (Stuck, (_, w)) => (Stuck, (c, w))
      | (Ok _, (o, w)) =>
        if (match o with
            | Rec p => bool_decide (length (m_accepting_sinks p) = 0)
            | NullRec _ => false
            end) then (Ok None, (c, w))
        else match on_values (freeze get_value) (o, w) with
             | (Ok _, (o, w)) => (Ok (record_of o), (c, w))
             | (Throw e, (_, w)) => failed e w
             | (Stuck, (_, w)) => (Stuck, (c, w))
             end
      end
    end
  end.

(** ** Pushing a record *)

(** The loop of [record::lock] that detaches the values in the order of the
    nodes; the state is the nodes as the loop leaves them. *)
Fixpoint detach_nodes (l : list (vnode V)) (w : W) : outcome unit * (list (vnode V) * W) :=
  match l with
  | [] => (Ok (), ([], w))
  | n :: rest =>
      match detach_from_thread (n_data n).1 w with
      | (Ok x, w) =>
          let '(r, (rest', w)) := detach_nodes rest w in
          (r, (Node (n_addr n) (n_key n) (x, (n_data n).2) :: rest', w))
      | (Throw e, w) => (Throw e, (n :: rest, w))
      | (Stuck, w) => (Stuck, (n :: rest, w))
      end
  end.

Definition with_values v p : rec :=
  PrivateData v (m_accepting_sinks p) (m_accepting_sink_capacity p) (m_detach_from_thread_needed p).

(** [record::lock] on the handle of a record: iterating over the values freezes
    them; the record is taken from the handle only when every value has been
    detached. Nothing is meant by the handle after undefined behaviour. *)
Definition lock_record : sm (option rec * W) rec := λ '(h, w),
  match h with
  | None => (Stuck, (None, w))
  | Some p =>
      if m_detach_from_thread_needed p then
        match freeze get_value (m_attribute_values p, w) with
        | (Ok _, (v, w)) =>
            let '(r, (nodes, w)) := detach_nodes (v_Nodes v) w in
            let p := with_values (set_nodes v nodes (v_Buckets v) (v_Storage v)) p in
            match r with
            | Ok _ => (Ok p, (None, w))
            | Throw e => (Throw e, (Some p, w))
            | Stuck => (Stuck, (None, w))
            end
        | (Throw e, (v, w)) => (Throw e, (Some (with_values v p), w))
        | (Stuck, (_, w)) => (Stuck, (None, w))
        end
      else (Ok p, (None, w))
  end.

(** The variables of the delivery loop: the array of locked sinks and the
    indices [it] and [end] into it; [begin] is index 0. *)
Record pushing := Pushing {
  slots : list sink_id;
  it : nat;
  end_ : nat;
  shuffled : bool }.

Abbreviation P := (sm (pushing * (core_t * W))).

Definition in_world {X} (m : sm W X) : P X := λ '(b, (c, w)),
  let '(r, w') := m w in (r, (b, (c, w'))).

Definition modify_vars (f : pushing → pushing) : P unit := sm_modify (λ '(b, cw), (f b, cw)).

(** [--end; end->swap( *it);] *)
Definition drop_sink : P unit :=
  '(b, cw) ← sm_get;
  match end_ b with
  | 0 => sm_lift Stuck
  | S e =>
      a ← sm_lift (swap (slots b) e (it b));
      sm_put (Pushing a (it b) e (shuffled b), cw)
  end.

(** The loop that offers the record to the sinks from [it] to [end] without
    blocking; the result is [all_locked]. *)
Fixpoint try_round (fuel : nat) p (all_locked : bool) : P bool :=
  '(b, _) ← sm_get;
  if decide (it b = end_ b) then mret all_locked else
  match fuel with
  | 0 => sm_lift Stuck
  | S n =>
      s ← sm_lift (of_ptr (slots b !! it b));
      consumed ← in_world (try_consume ops s p);
      if consumed : bool then
        _ ← drop_sink;
        try_round n p false
      else
        _ ← modify_vars (λ b, Pushing (slots b) (S (it b)) (end_ b) (shuffled b));
        try_round n p all_locked
  end.

Definition shuffle_sinks (tid : nat) : P unit :=
  '(b, (c, w)) ← sm_get;
  if shuffled b then mret () else
  let '(d, c) := get_thread_data tid c in
  '(a, rng) ← sm_lift (random_shuffle (end_ b) (slots b) (m_rng d));
  sm_put (Pushing a (it b) (end_ b) true,
          (with_threads (<[tid := ThreadData (m_thread_attributes d) rng]> (m_thread_data c)) c, w)).

(** One iteration of [while (true)]; the result tells whether to break. *)
Definition push_round (tid : nat) p : P bool :=
  '(b, _) ← sm_get;
  all_locked ← try_round (end_ b - it b) p true;
  _ ← modify_vars (λ b, Pushing (slots b) 0 (end_ b) (shuffled b));
  '(b, _) ← sm_get;
  if decide (end_ b = 0) then mret true else
  if all_locked : bool then
    _ ← shuffle_sinks tid;
    '(b, _) ← sm_get;
    s ← sm_lift (of_ptr (slots b !! it b));
    _ ← in_world (consume ops s p);
    _ ← drop_sink;
    mret false
  else mret false.

(** [while (true) try { ... } catch (...) { ... }]. *)
Fixpoint push_loop (fuel : nat) (tid : nat) p : P unit :=
  match fuel with
  | 0 => sm_lift Stuck
  | S n =>
      '(_, (c, _)) ← sm_get;
      stop ← sm_catch (push_round tid p)
        (λ e, _ ← in_world (handle (m_exception_handler c) e); _ ← drop_sink; mret false);
      if stop : bool then mret () else push_loop n tid p
  end.

(** [push_record_move]; the first part of the state is the caller's handle. A
    record with no accepting sink would make the code dereference the begin
    iterator of an empty vector. *)
Definition push_record (tid : nat) : sm (option rec * (core_t * W)) unit := λ '(hd, (c, w)),
  let h := m_exception_handler c in
  let failed hd e c w := let '(r, w') := handle h e w in (r, (hd, (c, w'))) in
  match lock_record (hd, w) with
  | (Throw e, (hd, w)) => failed hd e c w
  | (Stuck, (hd, w)) => (Stuck, (hd, (c, w)))
  | (Ok p, (hd, w)) =>
      match m_accepting_sinks p with
      | [] => (Stuck, (hd, (c, w)))
      | accepting =>
          let locked := filter (λ s, expired ops s w = false) accepting in
          let n := length locked in
          match push_loop (S n) tid p (Pushing locked 0 n (bool_decide (n ≤ 1)), (c, w)) with
          | (Ok _, (_, cw)) => (Ok (), (hd, cw))
          | (Throw e, (_, (c, w))) => failed hd e c w
          | (Stuck, (_, cw)) => (Stuck, (hd, cw))
          end
      end
  end.

(** ** Flushing *)

Fixpoint flush_all h (sinks : list sink_id) : sm W unit :=
  match sinks with
  | [] => mret ()
  | s :: rest =>
      _ ← sm_catch (flush_sink ops s) (handle h);
      flush_all h rest
  end.

Definition flush : sm (core_t * W) unit := λ '(c, w),
  let h := m_exception_handler c in
  let '(r, w') := flush_all h (if decide (m_sinks c = []) then [m_default_sink c] else m_sinks c) w in
  (r, (c, w')).
End operations.

(** The operations that go through [attribute_set]. *)
Section attributes.
Context {A V R W : Type} `{!Rng R}.
Abbreviation core_t := (core V (attribute_set A) R W).

Definition add_global_attribute (sys : addr) (name : N) (attr : A) (c : core_t)
    : outcome (addr * bool * core_t) :=
  let* (p, inserted, s) := insert sys name attr (m_global_attributes c) in
  Ok (p, inserted, set_global_attributes s c).

Definition remove_global_attribute (p : addr) (c : core_t) : outcome core_t :=
  let* s := erase_iter p (m_global_attributes c) in
  Ok (set_global_attributes s c).

Definition add_thread_attribute (tid : nat) (sys : addr) (name : N) (attr : A) (c : core_t)
    : outcome (addr * bool * core_t) :=
  let '(d, c) := get_thread_data empty_set tid c in
  let* (p, inserted, s) := insert sys name attr (m_thread_attributes d) in
  Ok (p, inserted, set_thread_attributes empty_set tid s c).

Definition remove_thread_attribute (tid : nat) (p : addr) (c : core_t) : outcome core_t :=
  let '(d, c) := get_thread_data empty_set tid c in
  let* s := erase_iter p (m_thread_attributes d) in
  Ok (set_thread_attributes empty_set tid s c).
End attributes.

(** * Arrays of sinks *)

Section arrays.
Context {A : Type}.
Implicit Types (a : list A).

Lemma split_at a i x : a !! i = Some x → ∃ l1 l2, a = l1 ++ x :: l2 ∧ length l1 = i.
Proof. intros H. exists (take i a), (drop (S i) a). split; [by rewrite take_drop_middle|].
  apply length_take_le. apply lookup_lt_Some in H. lia. Qed.

Lemma swap_same a i : i < length a → swap a i i = Ok a.
Proof.
  intros Hi. destruct (lookup_lt_is_Some_2 a i Hi) as [x Hx]. unfold swap. rewrite Hx.
  by rewrite !(list_insert_id a i x Hx).
Qed.

(** Moving the element at [i] to the later position [j]. *)
Lemma swap_back (l1 : list A) x l2 y l3 :
  swap (l1 ++ x :: l2 ++ y :: l3) (length l1 + S (length l2)) (length l1)
  = Ok (l1 ++ y :: l2 ++ x :: l3).
Proof.
  unfold swap. rewrite lookup_app_r by lia.
  replace (length l1 + S (length l2) - length l1) with (S (length l2)) by lia.
  rewrite lookup_cons, list_lookup_middle by done.
  rewrite (list_lookup_middle l1) by done. f_equal.
  rewrite (insert_app_r_alt l1) by lia.
  replace (length l1 + S (length l2) - length l1) with (S (length l2)) by lia.
  change (<[S (length l2):=x]> (x :: l2 ++ y :: l3)) with (x :: <[length l2:=x]> (l2 ++ y :: l3)).
  rewrite (insert_app_r_alt l2) by lia. rewrite (insert_app_r_alt l1) by lia.
  by rewrite !Nat.sub_diag.
Qed.

Lemma swap_comm a i j : i < length a → j < length a → swap a i j = swap a j i.
Proof.
  intros Hi Hj. destruct (lookup_lt_is_Some_2 a i Hi) as [x Hx].
  destruct (lookup_lt_is_Some_2 a j Hj) as [y Hy]. unfold swap. rewrite Hx, Hy.
  destruct (decide (i = j)) as [->|]; [congruence|]. by rewrite list_insert_insert_ne.
Qed.

(** Exchanging two positions inside the first [n]: a permutation of the first
    [n] that keeps the rest. *)
Lemma swap_prefix a i j n :
  i < n → j < n → n ≤ length a →
  ∃ a', swap a i j = Ok a' ∧ take n a' ≡ₚ take n a ∧ drop n a' = drop n a.
Proof.
  assert (∀ i j, i < j → j < n → n ≤ length a →
    ∃ a', swap a j i = Ok a' ∧ take n a' ≡ₚ take n a ∧ drop n a' = drop n a) as Hlt.
  { clear i j. intros i j Hij Hj Hn.
    destruct (lookup_lt_is_Some_2 a i) as [x Hx]; [lia|].
    destruct (split_at a i x Hx) as (l1 & t & -> & <-).
    rewrite length_app in Hn. cbn [length] in Hn.
    destruct (lookup_lt_is_Some_2 t (j - S (length l1))) as [y Hy]; [lia|].
    destruct (split_at t _ y Hy) as (l2 & l3 & -> & Hl2).
    replace j with (length l1 + S (length l2)) by lia. rewrite swap_back. eexists; split; [done|].
    replace n with (length (l1 ++ x :: l2 ++ [y]) + (n - S j))
      by (rewrite length_app; cbn [length]; rewrite length_app; cbn [length]; lia).
    replace (l1 ++ x :: l2 ++ y :: l3) with ((l1 ++ x :: l2 ++ [y]) ++ l3) by (by simplify_list_eq).
    replace (l1 ++ y :: l2 ++ x :: l3) with ((l1 ++ y :: l2 ++ [x]) ++ l3) by (by simplify_list_eq).
    assert (length (l1 ++ x :: l2 ++ [y]) = length (l1 ++ y :: l2 ++ [x])) as E
      by (rewrite !length_app; cbn [length]; rewrite !length_app; done).
    rewrite take_app_add, drop_app_add. rewrite E, take_app_add, drop_app_add. split; [|done].
    apply Permutation_app_tail. solve_Permutation. }
  intros Hi Hj Hn. destruct (decide (i = j)) as [->|]; [exists a; by rewrite swap_same by lia|].
  destruct (decide (i < j)); [rewrite swap_comm by lia|]; apply Hlt; lia.
Qed.

Lemma shuffle_loop_ok {R} `{!Rng R} k m a (rng : R) :
  k + m ≤ length a →
  ∃ a' rng', shuffle_loop k m a rng = Ok (a', rng') ∧
    take (k + m) a' ≡ₚ take (k + m) a ∧ drop (k + m) a' = drop (k + m) a.
Proof.
  revert m a rng. induction k as [|k IH]; intros m a rng Hk; [by exists a, rng|].
  cbn [shuffle_loop]. destruct (rng_next rng) as [x rng1].
  set (where_ := Z.to_nat (x mod (Z.of_nat m + 1))).
  assert (where_ ≤ m) as Hwh.
  { unfold where_. pose proof (Z.mod_pos_bound x (Z.of_nat m + 1)). lia. }
  assert (∃ a1, (if decide (where_ = m) then Ok a else swap a where_ m) = Ok a1 ∧
    take (S k + m) a1 ≡ₚ take (S k + m) a ∧ drop (S k + m) a1 = drop (S k + m) a)
    as (a1 & -> & Hp & Hd).
  { case_decide; [by exists a|]. apply swap_prefix; lia. }
  assert (length a1 = length a) as Hlen.
  { apply Permutation_length in Hp. rewrite !length_take in Hp.
    apply (f_equal length) in Hd. rewrite !length_drop in Hd. lia. }
  cbn [obind]. destruct (IH (S m) a1 rng1) as (a2 & rng2 & -> & Hp2 & Hd2); [lia|].
  exists a2, rng2. replace (S k + m) with (k + S m) in * by lia. split_and!; [done| |congruence].
  by rewrite Hp2.
Qed.

Lemma random_shuffle_ok {R} `{!Rng R} n a (rng : R) :
  0 < n → n ≤ length a →
  ∃ a' rng', random_shuffle n a rng = Ok (a', rng') ∧
    take n a' ≡ₚ take n a ∧ drop n a' = drop n a.
Proof.
  intros Hn Hl. unfold random_shuffle.
  destruct (shuffle_loop_ok (n - 1) 1 a rng) as (a' & rng' & H); [lia|].
  replace (n - 1 + 1) with n in H by lia. by exists a', rng'.
Qed.
End arrays.

(** * Delivery

    To speak about the calls a push makes, the world is paired with a trace;
    [traced] sinks append what happened to it and otherwise behave as given. *)

Inductive event : Type :=
| EvTried (s : sink_id) (consumed : bool)
| EvConsumed (s : sink_id)
| EvFailed (s : sink_id) (e : exn)
| EvHandled (e : exn) (threw : option exn).

Abbreviation trace := (list event).

(** The sinks that are done with the record: they took it or failed. *)
Definition settles (ev : event) : option sink_id :=
  match ev with
  | EvTried s true | EvConsumed s | EvFailed s _ => Some s
  | _ => None
  end.
Definition settled (tr : trace) : list sink_id := omap settles tr.

Definition errors (tr : trace) : list exn :=
  omap (λ ev, match ev with EvFailed _ e => Some e | _ => None end) tr.

(** The calls of the exception handler: what was being handled, and what the
    handler has thrown itself. *)
Definition handled (tr : trace) : list (exn * option exn) :=
  omap (λ ev, match ev with EvHandled e threw => Some (e, threw) | _ => None end) tr.

(** Every failure of a sink was passed to the handler, which returned. *)
Definition all_handled (tr : trace) : Prop := handled tr = (λ e, (e, None)) <$> errors tr.

(** Runs [m] on the world and appends the event it amounts to. *)
Definition trace_call {W X} (m : sm W X) (done_ : X → event) (failed : exn → list event)
    : sm (W * trace) X := λ '(w, tr),
  let '(r, w') := m w in
  (r, (w', match r with
           | Ok x => tr ++ [done_ x]
           | Throw e => tr ++ failed e
           | Stuck => tr
           end)).

(** Runs [m] on the world without an event. *)
Definition untraced {W X} (m : sm W X) : sm (W * trace) X := λ '(w, tr),
  let '(r, w') := m w in (r, (w', tr)).

Definition traced {V AS W} (o : sink_ops V AS W) (wc : sink_id → query V (W * trace))
    : sink_ops V AS (W * trace) := {|
  will_consume := wc;
  is_cross_thread := is_cross_thread o;
  try_consume s p := trace_call (try_consume o s p) (EvTried s) (λ e, [EvFailed s e]);
  consume s p := trace_call (consume o s p) (λ _, EvConsumed s) (λ e, [EvFailed s e]);
  flush_sink s := untraced (flush_sink o s);
  expired s wt := expired o s wt.1 |}.

Definition traced_handler {W} (f : exn → sm W unit) (e : exn) : sm (W * trace) unit :=
  trace_call (f e) (λ _, EvHandled e None) (λ e', [EvHandled e (Some e')]).

(** A sink whose functions have no undefined behaviour. *)
Definition ops_safe {V AS W} (o : sink_ops V AS W) : Prop :=
  ∀ s p w, (try_consume o s p w).1 ≠ Stuck ∧ (consume o s p w).1 ≠ Stuck.

(** The sinks have no undefined behaviour for the record [p] while [J] holds of
    the world and the trace, and keep [J]. *)
Definition ops_keep {V AS W} (o : sink_ops V AS W) (wc : sink_id → query V (W * trace)) (J : W * trace → Prop)
    (p : private_data V AS) : Prop :=
  ∀ s wt, J wt →
    ((try_consume (traced o wc) s p wt).1 ≠ Stuck ∧ J (try_consume (traced o wc) s p wt).2) ∧
    ((consume (traced o wc) s p wt).1 ≠ Stuck ∧ J (consume (traced o wc) s p wt).2).

(** The handler has no undefined behaviour and keeps [J]. *)
Definition handler_keeps {W} (f : exn → sm W unit) (J : W * trace → Prop) : Prop :=
  ∀ e wt, J wt → (traced_handler f e wt).1 ≠ Stuck ∧ J (traced_handler f e wt).2.

(** What [catch (...) { if (m_exception_handler.empty()) throw; m_exception_handler(); }]
    makes of the exception [e]: its outcome and the calls it makes. *)
Definition handling {W} (h : option (exn → sm W unit)) (e : exn) (r : outcome unit) (evs : trace) : Prop :=
  match h with
  | None => r = Throw e ∧ evs = []
  | Some f => (∃ w, (f e w).1 = r) ∧
      match r with
      | Ok _ => evs = [EvHandled e None]
      | Throw e' => evs = [EvHandled e (Some e')]
      | Stuck => False
      end
  end.

Lemma handle_traced {W} (h : option (exn → sm W unit)) (J : W * trace → Prop) e w tr :
  (∀ f, h = Some f → handler_keeps f J) → J (w, tr) →
  ∃ r w' evs, handle (traced_handler <$> h) e (w, tr) = (r, (w', tr ++ evs)) ∧
    handling h e r evs ∧ J (w', tr ++ evs).
Proof.
  intros Hh HJ. destruct h as [f|]; cbn.
  - destruct (Hh f eq_refl e _ HJ) as [Hs HJ']. unfold traced_handler, trace_call in *.
    destruct (f e w) as [r w'] eqn:E. cbn in Hs, HJ'.
    destruct r as [[]|e'|]; [| |done]; (do 3 eexists; split; [done|]; split; [|done]);
      (split; [exists w; by rewrite E|done]).
  - exists (Throw e), w, []. by rewrite app_nil_r.
Qed.

Section delivery.
Context {A V AS R W : Type} `{!AttrStore A AS} `{!Rng R}.
Context (ops : sink_ops V AS W) (wc : sink_id → query V (W * trace)).
Context (empty_attrs : AS) (tid : nat) (p : private_data V AS).
(** What holds of the world and the calls made so far. *)
Context (J : W * trace → Prop) (Hops : ops_keep ops wc J p).
(** The live sinks to deliver to. *)
Context (live : list sink_id).
Abbreviation core_t := (core V AS R (W * trace)).
Implicit Types (b : pushing) (c : core_t) (w : W) (tr : trace).

Record loop_inv b tr : Prop := LoopInv {
  inv_slots : slots b ≡ₚ live;
  inv_it : it b ≤ end_ b;
  inv_end : end_ b ≤ length (slots b);
  inv_settled : settled tr ≡ₚ drop (end_ b) (slots b);
  inv_errors : all_handled tr }.

(** A sink failed at position [it]. *)
Definition fail_inv (e : exn) b tr : Prop :=
  ∃ tr0 s, tr = tr0 ++ [EvFailed s e] ∧ loop_inv b tr0 ∧ slots b !! it b = Some s ∧ it b < end_ b.

Lemma settled_app tr1 tr2 : settled (tr1 ++ tr2) = settled tr1 ++ settled tr2.
Proof. apply omap_app. Qed.
Lemma errors_app tr1 tr2 : errors (tr1 ++ tr2) = errors tr1 ++ errors tr2.
Proof. apply omap_app. Qed.
Lemma all_handled_app tr1 tr2 : all_handled tr1 → all_handled tr2 → all_handled (tr1 ++ tr2).
Proof. unfold all_handled, handled. rewrite errors_app, omap_app, fmap_app. congruence. Qed.

(** Dropping the sink at [it] after it has settled. *)
Lemma drop_sink_ok b c wt s tr evs :
  loop_inv b tr → slots b !! it b = Some s → it b < end_ b →
  settled evs = [s] → all_handled (tr ++ evs) →
  ∃ b', drop_sink (b, (c, wt)) = (Ok (), (b', (c, wt))) ∧
    loop_inv b' (tr ++ evs) ∧ it b' = it b ∧ S (end_ b') = end_ b ∧ shuffled b' = shuffled b.
Proof.
  intros [Hs Hi He Hset Herr] Hl Hlt Hev Hh. unfold drop_sink, sm_get, sm_put, sm_lift.
  rewrite sm_bind_run. destruct (end_ b) as [|e] eqn:Ee; [lia|]. rewrite sm_bind_run.
  assert (∃ a', swap (slots b) e (it b) = Ok a' ∧ a' ≡ₚ slots b ∧ drop e a' = s :: drop (S e) (slots b))
    as (a' & -> & Hp & Hd).
  { destruct (decide (it b = e)) as [E|Hne].
    - subst e. exists (slots b). rewrite swap_same by lia. split_and!; [done..|]. by apply drop_S.
    - destruct (split_at _ _ _ Hl) as (l1 & t & Esl & Hl1). rewrite Esl in He |- *.
      rewrite length_app in He. cbn [length] in He.
      destruct (lookup_lt_is_Some_2 t (e - S (it b))) as [y Hy]; [lia|].
      destruct (split_at t _ y Hy) as (l2 & l3 & -> & Hl2).
      replace e with (length l1 + S (length l2)) by lia. rewrite <- Hl1, swap_back.
      eexists; split_and!; [done|solve_Permutation|].
      replace (S (length l1 + S (length l2))) with (length l1 + S (S (length l2))) by lia.
      rewrite !drop_app_add. cbn [drop]. rewrite drop_app_length.
      rewrite <- (Nat.add_1_r (length l2)), drop_app_add. done. }
  eexists; split; [done|]. split; [|done]. split; cbn [slots it end_].
  - by rewrite Hp.
  - lia.
  - rewrite Hp. lia.
  - rewrite settled_app, Hev, Hset, Hd. by rewrite Permutation_app_comm.
  - done.
Qed.

Lemma no_settle_inv b tr evs :
  loop_inv b tr → settled evs = [] → all_handled evs → loop_inv b (tr ++ evs).
Proof.
  intros [] H1 H2. split; try done.
  - by rewrite settled_app, H1, app_nil_r.
  - by apply all_handled_app.
Qed.

Lemma try_round_ok fuel al b c w tr :
  loop_inv b tr → J (w, tr) → end_ b - it b ≤ fuel →
  match try_round (traced ops wc) fuel p al (b, (c, (w, tr))) with
  | (Ok al', (b', (c', (w', tr')))) => (loop_inv b' tr' ∧ J (w', tr')) ∧ it b' = end_ b' ∧ c' = c ∧
      end_ b' ≤ end_ b ∧ (al' = false → al = false ∨ end_ b' < end_ b)
  | (Throw e, (b', (c', (w', tr')))) => (fail_inv e b' tr' ∧ J (w', tr')) ∧ c' = c ∧ end_ b' ≤ end_ b
  | (Stuck, _) => False
  end.
Proof.
  revert al b w tr. induction fuel as [|n IH]; intros al b w tr Hinv HJ Hfuel;
    cbn [try_round]; unfold sm_get; rewrite sm_bind_run; pose proof (inv_it _ _ Hinv) as Hit.
  - case_decide as Hd; [|lia]. simpl. split_and!; auto.
  - case_decide as Hd; [simpl; split_and!; auto|].
    destruct (lookup_lt_is_Some_2 (slots b) (it b)) as [s Hs];
      [pose proof (inv_end _ _ Hinv); lia|].
    rewrite sm_bind_run. unfold sm_lift. rewrite Hs. cbn [of_ptr].
    pose proof (proj1 (Hops s (w, tr) HJ)) as [Hsafe HJ'].
    rewrite sm_bind_run. unfold in_world at 1. cbn [traced try_consume] in *. unfold trace_call in *.
    destruct (try_consume ops s p w) as [[[]|e|] w']; cbn [fst snd] in Hsafe, HJ'; [| | |done].
    + rewrite sm_bind_run.
      destruct (drop_sink_ok b c (w', tr ++ [EvTried s true]) s tr [EvTried s true]) as (b' & -> & Hinv' & Hb1 & Hb2 & _);
        [done|done|lia|done|apply all_handled_app; [apply Hinv|done]|].
      specialize (IH false b' w' _ Hinv' HJ').
      destruct (try_round _ n p false _) as [[al'|e|] [b2 [c2 [w2 tr2]]]]; [| |apply IH; lia].
      * destruct IH as ([I1 IJ] & I2 & I3 & I4 & I5); [lia|]. split_and!; [done..|lia|]. intros _. right. lia.
      * destruct IH as ([I1 IJ] & I2 & I3); [lia|]. split_and!; [done..|lia].
    + rewrite sm_bind_run. cbn [modify_vars sm_modify].
      specialize (IH al (Pushing (slots b) (S (it b)) (end_ b) (shuffled b)) w' (tr ++ [EvTried s false])).
      cbn [end_ it] in IH. unfold modify_vars, sm_modify.
      destruct (try_round _ n p al _) as [[al'|e|] [b2 [c2 [w2 tr2]]]].
      all: apply IH; [|done|lia]; apply no_settle_inv; [|done..]; destruct Hinv; split; simpl; try done; lia.
    + split; [|done]. split; [|done]. exists tr, s. split_and!; [done..|lia].
Qed.

Lemma get_thread_data_handler c :
  m_exception_handler (get_thread_data empty_attrs tid c).2 = m_exception_handler c.
Proof. unfold get_thread_data. by destruct (m_thread_data c !! tid). Qed.

Lemma shuffle_sinks_ok b c w tr :
  loop_inv b tr → 0 < end_ b →
  ∃ b' c', shuffle_sinks empty_attrs tid (b, (c, (w, tr))) = (Ok (), (b', (c', (w, tr)))) ∧
    loop_inv b' tr ∧ it b' = it b ∧ end_ b' = end_ b ∧ m_exception_handler c' = m_exception_handler c.
Proof.
  intros [Hs Hi He Hset Herr] Hlt. unfold shuffle_sinks, sm_get, sm_lift, sm_put. rewrite sm_bind_run.
  destruct (shuffled b); [by exists b, c|].
  pose proof (get_thread_data_handler c) as Hc.
  destruct (get_thread_data empty_attrs tid c) as [d c1]. rewrite sm_bind_run.
  destruct (random_shuffle_ok (end_ b) (slots b) (m_rng d)) as (a & rng & -> & Hp & Hd); [done|done|].
  assert (a ≡ₚ slots b) as Hperm.
  { rewrite <- (take_drop (end_ b) a), <- (take_drop (end_ b) (slots b)). by rewrite Hp, Hd. }
  eexists _, _; split; [done|]. split_and!; [|done..].
  split; cbn [slots it end_]; [by rewrite Hperm|done|by rewrite Hperm|by rewrite Hd|done].
Qed.

Lemma push_round_ok b c w tr :
  loop_inv b tr → J (w, tr) →
  match push_round (traced ops wc) empty_attrs tid p (b, (c, (w, tr))) with
  | (Ok stop, (b', (c', (w', tr')))) => (loop_inv b' tr' ∧ J (w', tr')) ∧
      m_exception_handler c' = m_exception_handler c ∧
      if stop then end_ b' = 0 else end_ b' < end_ b
  | (Throw e, (b', (c', (w', tr')))) => (fail_inv e b' tr' ∧ J (w', tr')) ∧
      m_exception_handler c' = m_exception_handler c ∧ end_ b' ≤ end_ b
  | (Stuck, _) => False
  end.
Proof.
  intros Hinv HJ. unfold push_round, sm_get. rewrite sm_bind_run, sm_bind_run.
  pose proof (try_round_ok (end_ b - it b) true b c w tr Hinv HJ) as Ht.
  destruct (try_round _ _ p true _) as [[al|e|] [b1 [c1 [w1 tr1]]]];
    [|destruct Ht as (? & -> & ?); auto|by apply Ht].
  destruct Ht as ([Hinv1 HJ1] & Hit & -> & Hle & Hal); [done|].
  unfold modify_vars at 1, sm_modify. rewrite sm_bind_run, sm_bind_run. cbn [end_].
  assert (loop_inv (Pushing (slots b1) 0 (end_ b1) (shuffled b1)) tr1) as Hinv2
    by (destruct Hinv1; split; simpl; try done; lia).
  case_decide as He; [done|]. destruct al; [|split_and!; [done..|]; cbn [end_]; naive_solver lia].
  rewrite sm_bind_run.
  destruct (shuffle_sinks_ok _ c w1 tr1 Hinv2) as (b2 & c2 & -> & Hinv3 & Hit3 & He3 & Hc3);
    [cbn [end_]; lia|]. cbn [end_ it] in Hit3, He3. rewrite sm_bind_run.
  destruct (lookup_lt_is_Some_2 (slots b2) (it b2)) as [s Hs];
    [pose proof (inv_end _ _ Hinv3); lia|].
  rewrite sm_bind_run. unfold sm_lift. rewrite Hs. cbn [of_ptr]. rewrite sm_bind_run.
  pose proof (proj2 (Hops s (w1, tr1) HJ1)) as [Hsafe HJ2].
  unfold in_world. cbn [traced consume] in *. unfold trace_call in *.
  destruct (consume ops s p w1) as [[[]|e|] w2]; cbn [fst snd] in Hsafe, HJ2; [| |done].
  - rewrite sm_bind_run.
    destruct (drop_sink_ok b2 c2 (w2, tr1 ++ [EvConsumed s]) s tr1 [EvConsumed s])
      as (b3 & -> & Hinv4 & Hb1 & Hb2 & _);
      [done|done|lia|done|apply all_handled_app; [apply Hinv3|done]|].
    split_and!; [done..|lia].
  - split; [|by split; [|lia]]. split; [|done]. exists tr1, s. split_and!; [done..|lia].
Qed.

(** The loop ends after at most one iteration per sink and one more. *)
Lemma push_loop_ok fuel b c w tr h :
  loop_inv b tr → J (w, tr) → end_ b < fuel → m_exception_handler c = traced_handler <$> h →
  (∀ f, h = Some f → handler_keeps f J) →
  match push_loop (traced ops wc) empty_attrs fuel tid p (b, (c, (w, tr))) with
  | (Ok _, (_, (_, (w', tr')))) => (settled tr' ≡ₚ live ∧ all_handled tr') ∧ J (w', tr')
  | (Throw e1, (_, (_, (w', tr')))) => J (w', tr') ∧
      ∃ s e tr0 evs unserved, tr' = (tr0 ++ [EvFailed s e]) ++ evs ∧
        settled (tr0 ++ [EvFailed s e]) ++ unserved ≡ₚ live ∧ all_handled tr0 ∧
        handling h e (Throw e1) evs
  | (Stuck, _) => False
  end.
Proof.
  intros Hinv HJ Hf Hc Hh. revert b c w tr Hinv HJ Hf Hc.
  induction fuel as [|n IH]; intros b c w tr Hinv HJ Hf Hc; [lia|].
  cbn [push_loop]. unfold sm_get. rewrite sm_bind_run, sm_bind_run. unfold sm_catch.
  pose proof (push_round_ok b c w tr Hinv HJ) as Hr.
  destruct (push_round _ _ tid p _) as [[stop|e|] [b1 [c1 [w1 tr1]]]]; [| |done].
  - destruct Hr as ([Hinv1 HJ1] & Hc1 & Hstop). destruct stop.
    + simpl. destruct Hinv1 as [Hsl _ _ Hset Herr]. split; [|done]. split; [|done]. rewrite Hset, Hstop. done.
    + apply IH; [done|done|lia|congruence].
  - destruct Hr as (((tr0 & s & -> & Hinv1 & Hs & Hlt) & HJ1) & Hc1 & Hle). rewrite sm_bind_run, Hc.
    unfold in_world at 1. destruct (handle_traced h J e w1 _ Hh HJ1) as (r & w2 & evs & -> & Hr & HJ2).
    destruct r as [[]|e1|].
    + assert (evs = [EvHandled e None]) as -> by (destruct h; [by destruct Hr|by destruct Hr]).
      rewrite <- (assoc_L (++)) in HJ2 |- *. rewrite sm_bind_run.
      destruct (drop_sink_ok b1 c1 (w2, tr0 ++ [EvFailed s e] ++ [EvHandled e None]) s tr0
        ([EvFailed s e] ++ [EvHandled e None])) as (b2 & -> & Hinv2 & Hb1 & Hb2 & _);
        [done|done|done|done|apply all_handled_app; [apply Hinv1|done]|].
      simpl. apply IH; [done|done|lia|]. by rewrite Hc1, Hc.
    + split; [done|]. destruct Hinv1 as [Hsl _ He Hset Herr].
      destruct (split_at _ _ _ Hs) as (l1 & t & Esl & Hl1).
      exists s, e, tr0, evs, (l1 ++ take (end_ b1 - S (length l1)) t). split_and!; [done| |done|done].
      rewrite settled_app, Hset, <- Hsl, Esl. simpl.
      rewrite drop_app_ge by lia. replace (end_ b1 - length l1) with (S (end_ b1 - S (length l1))) by lia.
      cbn [drop]. rewrite <- (take_drop (end_ b1 - S (length l1)) t) at 3. solve_Permutation.
    + destruct h; [by destruct Hr|by destruct Hr].
Qed.
End delivery.

(** * Opening *)

(** No attribute set is left to acquire values from. *)
Definition all_frozen {V AS} (v : attribute_value_set V AS) : Prop :=
  m_pSourceAttributes v = None ∧ m_pThreadAttributes v = None ∧ m_pGlobalAttributes v = None.

Section opening_lemmas.
Context {A V AS R W : Type} `{!AttrStore A AS} `{!Rng R}.
Context (get_value : A → W → outcome V * W).
Context (get_value_safe : ∀ a w, (get_value a w).1 ≠ Stuck).
Context (ops : sink_ops V AS W).
Abbreviation vset := (attribute_value_set V AS).
Implicit Types (v : vset) (w : W) (q : query V W) (s : sink_id).

Lemma freeze_noop v w : all_frozen v → freeze get_value (v, w) = (Ok (), (v, w)).
Proof. intros (H1 & H2 & H3). unfold freeze, sm_get. rewrite sm_bind_run, H1, H2, H3. done. Qed.







Definition source_wf (src : source_attributes (V := V) (AS := AS)) : Prop :=
  match src with
  | FromSet attrs => store_wf attrs
  | FromValues v | FromMoved v => vset_wf v
  end.


(** The invariant of the core; registered sinks are distinct. *)
Record core_wf (empty_attrs : AS) (c : core V AS R W) : Prop := CoreWf {
  core_sinks_NoDup : NoDup (m_sinks c);
  core_sinks_count : (Z.of_nat (length (m_sinks c)) < 2 ^ 32)%Z;
  core_global_wf : store_wf (m_global_attributes c);
  core_empty_wf : store_wf empty_attrs;
  core_threads_wf : ∀ tid d, m_thread_data c !! tid = Some d → store_wf (m_thread_attributes d) }.

(** The sinks a record is offered to. *)
Definition offered (c : core V AS R W) : list sink_id :=
  if decide (m_sinks c = []) then [m_default_sink c] else m_sinks c.


Lemma get_thread_data_ok empty_attrs tid c :
  core_wf empty_attrs c →
  let '(d, c') := get_thread_data empty_attrs tid c in
  store_wf (m_thread_attributes d) ∧ core_wf empty_attrs c' ∧
  ∃ t, c' = with_threads t c ∧ t !! tid = Some d.
Proof.
  intros Hc. unfold get_thread_data. destruct (m_thread_data c !! tid) as [d|] eqn:E.
  - split_and!; [by eapply core_threads_wf|done|]. exists (m_thread_data c). by destruct c.
  - destruct Hc as [H1 H2 H3 H4 H5]. split_and!; [done| |by eexists; split; [|apply lookup_insert_eq]].
    split; try done. simpl. intros tid' d'. rewrite lookup_insert_Some. naive_solver.
Qed.




End opening_lemmas.

(** * Specification of opening

    The attribute values of a record as a map of those acquired so far and the
    attributes that are still to be asked. *)

Section spec.
Context {A V AS R W : Type} `{!AttrStore A AS} `{!Rng R}.
Context (get_value : A → W → outcome V * W).
Context (ops : sink_ops V AS W).
Abbreviation vset := (attribute_value_set V AS).
Implicit Types (m : gmap N V) (w : W) (v : vset) (q : query V W) (s : sink_id) (pend : gmap N A).

(** A filter of a record with the acquired values [m] and the attributes
    [pend]: a name it looks up is acquired once, the first time. *)
Fixpoint query_run pend q m w : outcome bool * (gmap N V * W) :=
  match q with
  | QRet b => (Ok b, (m, w))
  | QThrow e => (Throw e, (m, w))
  | QFind key k =>
      match m !! key, pend !! key with
      | Some x, _ => query_run pend (k (Some x)) m w
      | None, None => query_run pend (k None) m w
      | None, Some a =>
          match get_value a w with
          | (Ok x, w') => query_run pend (k (Some x)) (<[key := x]> m) w'
          | (Throw e, w') => (Throw e, (m, w'))
          | (Stuck, w') => (Stuck, (m, w'))
          end
      end
  | QDo act k => let '(r, w') := act w in
      match r with
      | Ok b => query_run pend (k b) m w'
      | Throw e => (Throw e, (m, w'))
      | Stuck => (Stuck, (m, w'))
      end
  | QTry body handler =>
      match query_run pend body m w with
      | (Throw e, (m', w')) => query_run pend (handler e) m' w'
      | r => r
      end
  end.

(** The sinks that accept the record: a sink whose filter, or an attribute it
    asks for, fails is skipped after the handler has run, and the failure ends
    the search when there is no handler or the handler throws. *)
Fixpoint accepting_run (h : option (exn → sm W unit)) pend (sinks : list sink_id) m w
    : outcome (list sink_id) * (gmap N V * W) :=
  match sinks with
  | [] => (Ok [], (m, w))
  | s :: rest =>
      match query_run pend (will_consume ops s) m w with
      | (Ok true, (m1, w1)) =>
          let '(r, mw) := accepting_run h pend rest m1 w1 in ((let* l := r in Ok (s :: l)), mw)
      | (Ok false, (m1, w1)) => accepting_run h pend rest m1 w1
      | (Throw e, (m1, w1)) =>
          match handle h e w1 with
          | (Ok _, w2) => accepting_run h pend rest m1 w2
          | (Throw e', w2) => (Throw e', (m1, w2))
          | (Stuck, w2) => (Stuck, (m1, w2))
          end
      | (Stuck, mw) => (Stuck, mw)
      end
  end.

(** The attributes to ask, in order, and the values the record starts with:
    the source's attributes come before the thread's, and these before the
    global ones. Values given by reference are all acquired first. *)
Definition compose_run (src : source_attributes (V := V) (AS := AS)) (thread global : AS) w
    : outcome (list (N * A) * gmap N V) * W :=
  let others := store_elements thread ++ store_elements global in
  match src with
  | FromSet attrs => (Ok (store_elements attrs ++ others, ∅), w)
  | FromValues v =>
      let '(r, (m, w')) := acquire_all get_value (pending_list v) (frozen v) w in
      ((let* _ := r in Ok (others, m)), w')
  | FromMoved v => (Ok (attr_list (m_pSourceAttributes v) ++ others, frozen v), w)
  end.

(** What the caller of [open_record] gets: the accepting sinks, the values
    and whether the record must be detached from the thread. All attributes are
    acquired after the filters of the sinks, also when no sink has accepted the
    record. *)
Definition open_run (c : core V AS R W) (src : source_attributes (V := V) (AS := AS)) (thread : AS) w
    : outcome (option (list sink_id * gmap N V * bool)) * W :=
  let failed e w := let '(r, w') := handle (m_exception_handler c) e w in ((let* _ := r in Ok None), w') in
  if negb (m_enabled c) then (Ok None, w) else
  match compose_run src thread (m_global_attributes c) w with
  | (Throw e, w) => failed e w
  | (Stuck, w) => (Stuck, w)
  | (Ok (l, m), w) =>
    match query_run (list_to_map l) (m_filter c) m w with
    | (Throw e, (_, w)) => failed e w
    | (Stuck, (_, w)) => (Stuck, w)
    | (Ok false, (_, w)) => (Ok None, w)
    | (Ok true, (m, w)) =>
      match accepting_run (m_exception_handler c) (list_to_map l) (offered c) m w with
      | (Throw e, (_, w)) => (Throw e, w)
      | (Stuck, (_, w)) => (Stuck, w)
      | (Ok sinks, (m, w)) =>
        match acquire_all get_value l m w with
        | (Throw e, (_, w)) => failed e w
        | (Stuck, (_, w)) => (Stuck, w)
        | (Ok _, (m, w)) =>
            (Ok (if decide (sinks = []) then None
                 else Some (sinks, m, existsb (is_cross_thread ops) sinks)), w)
        end
      end
    end
  end.

Definition describe (p : private_data V AS) : list sink_id * gmap N V * bool :=
  (m_accepting_sinks p, frozen (m_attribute_values p), m_detach_from_thread_needed p).

(** The names a filter looks up are initialized. *)
Fixpoint query_names q : Prop :=
  match q with
  | QRet _ | QThrow _ => True
  | QFind key k => key ≠ uninitialized ∧ ∀ x, query_names (k x)
  | QDo act k => ∀ b, query_names (k b)
  | QTry body handler => query_names body ∧ ∀ e, query_names (handler e)
  end.

(** A value set with the values [m] and the attributes of [l] still to ask. *)
Definition represents v (l : list (N * A)) m : Prop := vset_wf v ∧ pending_list v = l ∧ frozen v = m.

Lemma same_sets_list v v' : same_sets v v' → pending_list v' = pending_list v.
Proof. intros (H1 & H2 & H3). unfold pending_list. by rewrite H1, H2, H3. Qed.

Lemma eval_run q v l m w :
  query_names q → represents v l m →
  let r := query_run (list_to_map l) q m w in
  ∃ v', eval get_value q (v, w) = (r.1, (v', r.2.2)) ∧ represents v' l r.2.1.
Proof.
  revert v m w. induction q as [b|e|key k IH|act k IH|body IHb handler IHh]; intros v m w Hq Hv;
    cbn [eval query_run].
  - by exists v.
  - by exists v.
  - destruct Hq as [Hk Hq]. rewrite sm_bind_run. destruct Hv as (Hwf & Hl & Hm).
    pose proof (find_value_spec get_value v w key Hwf Hk) as Hf. unfold find_post in Hf.
    rewrite pending_map, Hl, Hm in Hf. destruct (m !! key) as [x|]; [rewrite Hf; by apply IH|].
    destruct ((list_to_map l : gmap N A) !! key) as [a|]; [|rewrite Hf; by apply IH].
    destruct (get_value a w) as [[x|e|] w1]; [|rewrite Hf; by exists v..].
    destruct Hf as (v1 & -> & Hwf1 & Hss & Hf1). apply IH; [done|].
    split_and!; [done|by rewrite (same_sets_list _ _ Hss)|done].
  - destruct (act w) as [[b|e|] w1]; [by apply IH|by exists v..].
  - destruct Hq as [Hb Hh]. unfold sm_catch. destruct (IHb v m w Hb Hv) as (v1 & -> & Hv1).
    destruct (query_run _ body m w) as [[b|e|] [m1 w1]]; cbn [fst snd] in *; [by exists v1| |by exists v1].
    by apply IHh.
Qed.

Definition accepted (o : opening (V := V) (AS := AS)) : list sink_id :=
  match o with NullRec _ => [] | Rec p => m_accepting_sinks p end.

(** A record under construction with the values [m] and room for [rest]
    more sinks. *)
Record building (l : list (N * A)) m (rest : nat) (o : opening (V := V) (AS := AS)) : Prop := Building {
  build_values : represents (values_of o) l m;
  build_room : match o with
    | NullRec _ => True
    | Rec p => m_accepting_sinks p ≠ [] ∧
        (Z.of_nat (length (m_accepting_sinks p) + rest) ≤ m_accepting_sink_capacity p)%Z ∧
        m_detach_from_thread_needed p = existsb (is_cross_thread ops) (m_accepting_sinks p)
    end }.

Lemma push_back_building l m m' rest o v' s cap :
  building l m (S rest) o → represents v' l m' → (Z.of_nat (S rest) ≤ cap)%Z →
  ∃ p, push_back_accepting_sink ops s
      (match update_values o v' with NullRec v => create_record v cap | Rec p => p end) = Ok p ∧
    building l m' rest (Rec p) ∧ m_accepting_sinks p = accepted o ++ [s].
Proof.
  intros [_ Hr] Hv' Hcap. unfold push_back_accepting_sink, create_record.
  destruct o as [v|p]; cbn [update_values m_accepting_sinks m_accepting_sink_capacity length].
  - rewrite (proj2 (Z.ltb_lt _ _)) by lia. eexists; split; [done|]. split; [|done].
    split; [done|]. cbn. split_and!; [done|lia|by rewrite orb_false_r].
  - destruct Hr as (Hne & Hr & Hd). rewrite (proj2 (Z.ltb_lt _ _)) by lia. eexists; split; [done|].
    split; [|done]. split; [done|]. cbn. rewrite length_app, existsb_app, Hd. cbn. split_and!.
    + intros ?%app_nil. naive_solver.
    + lia.
    + by rewrite orb_false_r.
Qed.

(** The loop over the sinks. *)
Lemma accepting_refines h sinks l m o w :
  (∀ s, s ∈ sinks → query_names (will_consume ops s)) → (Z.of_nat (length sinks) < 2 ^ 32)%Z →
  building l m (length sinks) o →
  let r := accepting_run h (list_to_map l) sinks m w in
  ∃ o', apply_sink_filters get_value ops h sinks (Z.of_nat (length sinks)) (o, w)
      = ((let* _ := r.1 in Ok ()), (o', r.2.2)) ∧
    ∀ a, r.1 = Ok a → building l r.2.1 0 o' ∧ accepted o' = accepted o ++ a.
Proof.
  intros Hq. revert o m w. induction sinks as [|s rest IH]; intros o m w Hlen Ho.
  - exists o. split; [done|]. intros a [= <-]. by rewrite app_nil_r.
  - cbn [apply_sink_filters accepting_run length] in *. rewrite sm_bind_run.
    unfold apply_sink_filter at 1, sm_catch. rewrite sm_bind_run. unfold on_values.
    destruct (eval_run (will_consume ops s) (values_of o) l m w) as (v1 & -> & Hv1);
      [apply Hq; set_solver|apply Ho|].
    rewrite u32_id by lia.
    replace (Z.of_nat (S (length rest)) - 1)%Z with (Z.of_nat (length rest)) by lia.
    assert (∀ m1, represents v1 l m1 → building l m1 (length rest) (update_values o v1)) as Hskip.
    { intros m1 Hm1. destruct Ho as [? Hr]. destruct o as [v|p]; split; cbn; [done..|]. cbn in Hr. naive_solver lia. }
    assert (accepted (update_values o v1) = accepted o) as Hacc by (by destruct o).
    destruct (query_run _ (will_consume ops s) m w) as [[[]|e|] [m1 w1]]; cbn [fst snd] in *.
    + unfold sm_get, sm_lift, sm_put. rewrite sm_bind_run, sm_bind_run.
      destruct (push_back_building l m m1 (length rest) o v1 s (Z.of_nat (S (length rest)))) as (p & -> & Hp & Ha);
        [done..|].
      destruct (IH ltac:(set_solver) (Rec p) m1 w1) as (o' & -> & Ho'); [lia|done|]. exists o'.
      destruct (accepting_run h _ rest m1 w1) as [[a|e|] [m2 w2]]; (split; [done|]); intros a' [= <-].
      destruct (Ho' a eq_refl) as [H1 H2]. split; [done|]. rewrite H2. cbn [accepted]. by rewrite Ha, <- app_assoc.
    + unfold mret at 1, sm_ret.
      destruct (IH ltac:(set_solver) (update_values o v1) m1 w1) as (o' & -> & Ho'); [lia|auto|].
      exists o'. by rewrite Hacc in Ho'.
    + unfold on_world. destruct (handle h e w1) as [[]  w2]; [|by eexists..].
      destruct (IH ltac:(set_solver) (update_values o v1) m1 w2) as (o' & -> & Ho'); [lia|auto|].
      exists o'. by rewrite Hacc in Ho'.
    + by eexists.
Qed.

Lemma compose_runs src thread global w :
  source_wf src → store_wf thread → store_wf global →
  match compose_run src thread global w with
  | (Ok (l, m), w') => ∃ v, compose get_value src thread global w = (Ok v, w') ∧ represents v l m
  | (Throw e, w') => compose get_value src thread global w = (Throw e, w')
  | (Stuck, w') => compose get_value src thread global w = (Stuck, w')
  end.
Proof.
  intros Hs Ht Hg. destruct src as [attrs|v|v]; simpl in Hs |- *.
  - eexists; split; [done|]. split_and!; [by apply create_wf|done|apply fmap_empty].
  - unfold create_from_values, vsize, sm_get, sm_lift. rewrite !sm_bind_run.
    destruct (freeze_exact get_value v w Hs) as (v' & -> & Hv' & Hfr & _).
    destruct (acquire_all _ _ _ w) as [[[]|e|] [m w']]; cbn [fst snd obind] in *; [|done..].
    rewrite sm_bind_run. unfold mret, sm_ret. rewrite sm_bind_run.
    destruct (copy_into_created (A := A) v' (length (v_Nodes v') + length (store_elements thread)
      + length (store_elements global) + 8) (Some thread) (Some global))
      as (p & E & Hp & Hfp & Hpend & _); [done|lia|done|done|]. rewrite E.
    exists p. split; [done|]. by split_and!; [|rewrite Hpend|congruence].
  - eexists; split; [done|]. destruct Hs. split_and!; [by split|done|done].
Qed.

Lemma filters_refine (c : core V AS R W) l m v w :
  (∀ s, s ∈ offered c → query_names (will_consume ops s)) →
  (Z.of_nat (length (m_sinks c)) < 2 ^ 32)%Z → represents v l m →
  let r := accepting_run (m_exception_handler c) (list_to_map l) (offered c) m w in
  ∃ o', (if decide (m_sinks c = [])
         then apply_sink_filter get_value ops (m_exception_handler c) (m_default_sink c) 1
         else apply_sink_filters get_value ops (m_exception_handler c) (m_sinks c)
                (u32 (Z.of_nat (length (m_sinks c))))) (NullRec v, w)
      = ((let* _ := r.1 in Ok ()), (o', r.2.2)) ∧
    ∀ a, r.1 = Ok a → building l r.2.1 0 o' ∧ accepted o' = a.
Proof.
  intros Hq Hlen Hv.
  destruct (accepting_refines (m_exception_handler c) (offered c) l m (NullRec v) w) as (o' & He & Ho');
    [done|unfold offered; case_decide; simpl; lia|by split|].
  exists o'. split; [|done]. rewrite <- He. unfold offered. case_decide; [|by rewrite u32_id by lia].
  cbn [apply_sink_filters length Z.of_nat]. rewrite sm_bind_run.
  by destruct (apply_sink_filter _ _ _ _ _ _) as [[[]| |] [o1 w1]].
Qed.

(** The end of [open_record]: all values are acquired, with or without a
    record. *)
Lemma freeze_building l m o w :
  building l m 0 o →
  let r := acquire_all get_value l m w in
  ∃ o', on_values (freeze get_value) (o, w) = (r.1, (o', r.2.2)) ∧
    describe <$> record_of o' = (if decide (accepted o = []) then None
      else Some (accepted o, r.2.1, existsb (is_cross_thread ops) (accepted o))).
Proof.
  intros [(Hwf & Hl & Hm) Hr]. unfold on_values.
  destruct (freeze_exact get_value (values_of o) w Hwf) as (v' & -> & _ & Hf & _). rewrite Hl, Hm in *.
  eexists. split; [done|]. destruct o as [v|p]; cbn in *; [done|]. destruct Hr as (Hne & _ & Hd).
  rewrite decide_False by done. unfold describe. cbn. by rewrite Hf, Hd.
Qed.

Lemma open_record_run empty_attrs tid src c w :
  core_wf empty_attrs c → source_wf src → query_names (m_filter c) →
  (∀ s, s ∈ offered c → query_names (will_consume ops s)) →
  let '(d, c1) := get_thread_data empty_attrs tid c in
  let sp := open_run c src (m_thread_attributes d) w in
  ∃ r, open_record get_value ops empty_attrs tid src (c, w) = (r, (if m_enabled c then c1 else c, sp.2)) ∧
    (let* o := r in Ok (describe <$> o)) = sp.1.
Proof.
  intros Hc Hsrc Hqf Hqs. unfold open_record, open_run.
  pose proof (get_thread_data_ok empty_attrs tid c Hc) as Hd.
  destruct (get_thread_data empty_attrs tid c) as [d c1]. destruct Hd as (Hd & _ & t & -> & _).
  destruct (m_enabled c); cbn [negb]; [|by eexists].
  cbn [with_threads m_exception_handler m_global_attributes m_filter m_sinks m_default_sink].
  assert (∀ e w', let r := handle (m_exception_handler c) e w' in
    ∃ res, (let '(r, w2) := r in ((let* _ := r in Ok (@None (private_data V AS))), (with_threads t c, w2)))
      = (res, (with_threads t c, (let '(r, w2) := r in ((let* _ := r in Ok (@None (list sink_id * gmap N V * bool))), w2)).2)) ∧
      (let* o := res in Ok (describe <$> o)) = (let '(r, w2) := r in ((let* _ := r in Ok None), w2)).1) as Hfail.
  { intros e w'. destruct (handle _ e w') as [[]  w2]; by eexists. }
  pose proof (compose_runs src (m_thread_attributes d) (m_global_attributes c) w Hsrc Hd (core_global_wf _ _ Hc)) as Hco.
  destruct (compose_run _ _ _ w) as [[[l m]|e|] w1]; [|rewrite Hco; apply Hfail|rewrite Hco; by eexists].
  destruct Hco as (v & -> & Hv).
  destruct (eval_run (m_filter c) v l m w1 Hqf Hv) as (v1 & -> & Hv1).
  destruct (query_run _ (m_filter c) m w1) as [[[]|e|] [m1 w2]]; cbn [fst snd] in *;
    [|by eexists|apply Hfail|by eexists].
  destruct (filters_refine c l m1 v1 w2) as (o' & -> & Ho'); [done|apply Hc|done|].
  destruct (accepting_run _ _ (offered c) m1 w2) as [[sinks|e|] [m2 w3]]; cbn [fst snd obind] in *; [|by eexists..].
  destruct (Ho' sinks eq_refl) as [Hb <-].
  replace (match o' with Rec p => _ | NullRec _ => false end) with false
    by (destruct o' as [|p]; [done|]; symmetry; apply bool_decide_eq_false;
        intros ?%length_zero_iff_nil; by destruct (build_room _ _ _ _ Hb) as [? _]).
  destruct (freeze_building l m2 o' w3 Hb) as (o2 & -> & Hdesc).
  destruct (acquire_all _ l m2 w3) as [[[]|e|] [m3 w4]]; cbn [fst snd] in *; [|apply Hfail|by eexists].
  eexists. split; [done|]. cbn [obind]. by rewrite Hdesc.
Qed.
End spec.

(** ** Attributes without side effects

    When attribute values do not depend on the moment of acquisition, a filter
    is a function of the complete set of values of the record. *)

Section pure_spec.
Context {A V AS R W : Type} `{!AttrStore A AS} `{!Rng R}.
Context (get_value : A → W → outcome V * W) (val : A → V).
Context (pure : ∀ a w, get_value a w = (Ok (val a), w)).
Context (ops : sink_ops V AS W).
Implicit Types (m : gmap N V) (w : W) (q : query V W) (s : sink_id) (pend : gmap N A).

Fixpoint query_sem q m w : outcome bool * W :=
  match q with
  | QRet b => (Ok b, w)
  | QThrow e => (Throw e, w)
  | QFind key k => query_sem (k (m !! key)) m w
  | QDo act k => let '(r, w') := act w in
      match r with
      | Ok b => query_sem (k b) m w'
      | Throw e => (Throw e, w')
      | Stuck => (Stuck, w')
      end
  | QTry body handler =>
      match query_sem body m w with
      | (Throw e, w') => query_sem (handler e) m w'
      | r => r
      end
  end.

(** The sinks that accept a record with the values [m]. *)
Fixpoint accepting (h : option (exn → sm W unit)) (sinks : list sink_id) m w
    : outcome (list sink_id) * W :=
  match sinks with
  | [] => (Ok [], w)
  | s :: rest =>
      match query_sem (will_consume ops s) m w with
      | (Ok true, w1) =>
          let '(r, w2) := accepting h rest m w1 in ((let* l := r in Ok (s :: l)), w2)
      | (Ok false, w1) => accepting h rest m w1
      | (Throw e, w1) =>
          match handle h e w1 with
          | (Ok _, w2) => accepting h rest m w2
          | (Throw e', w2) => (Throw e', w2)
          | (Stuck, w2) => (Stuck, w2)
          end
      | (Stuck, w1) => (Stuck, w1)
      end
  end.

(** The values of a record: the source's take priority over the thread's,
    and these over the global ones. *)
Definition composed (src : source_attributes (V := V) (AS := AS)) (thread global : AS) : gmap N V :=
  match src with
  | FromSet attrs => val <$> (attrs_map (Some attrs) ∪ attrs_map (Some thread) ∪ attrs_map (Some global))
  | FromValues v => view val v ∪ (val <$> (attrs_map (Some thread) ∪ attrs_map (Some global)))
  | FromMoved v => frozen v ∪ (val <$> (attrs_map (m_pSourceAttributes v)
                     ∪ attrs_map (Some thread) ∪ attrs_map (Some global)))
  end.

Definition open_spec (c : core V AS R W) m w : outcome (option (list sink_id * gmap N V * bool)) * W :=
  if negb (m_enabled c) then (Ok None, w) else
  match query_sem (m_filter c) m w with
  | (Ok false, w1) => (Ok None, w1)
  | (Ok true, w1) =>
      match accepting (m_exception_handler c) (offered c) m w1 with
      | (Ok [], w2) => (Ok None, w2)
      | (Ok l, w2) => (Ok (Some (l, m, existsb (is_cross_thread ops) l)), w2)
      | (Throw e, w2) => (Throw e, w2)
      | (Stuck, w2) => (Stuck, w2)
      end
  | (Throw e, w1) =>
      let '(r, w2) := handle (m_exception_handler c) e w1 in ((let* _ := r in Ok None), w2)
  | (Stuck, w1) => (Stuck, w1)
  end.

(** All the values of a record. *)
Definition complete pend m : gmap N V := m ∪ (val <$> pend).

Lemma complete_acquire pend m key a :
  m !! key = None → pend !! key = Some a → complete pend (<[key := val a]> m) = complete pend m.
Proof.
  intros Hm Hp. unfold complete. rewrite <- insert_union_l. apply insert_id.
  by rewrite lookup_union, Hm, lookup_fmap, Hp.
Qed.

Lemma query_run_pure pend q m w :
  let r := query_run get_value pend q m w in
  (r.1, r.2.2) = query_sem q (complete pend m) w ∧ complete pend r.2.1 = complete pend m.
Proof.
  revert m w. induction q as [b|e|key k IH|act k IH|body IHb handler IHh]; intros m w; cbn [query_run query_sem];
    [done|done|..].
  - assert (complete pend m !! key = match m !! key, pend !! key with
        | Some x, _ => Some x | None, Some a => Some (val a) | None, None => None end) as ->.
    { unfold complete. rewrite lookup_union, lookup_fmap. by destruct (m !! key), (pend !! key). }
    destruct (m !! key) as [x|] eqn:Em; [apply IH|]. destruct (pend !! key) as [a|] eqn:Ep; [|apply IH].
    rewrite pure. rewrite <- (complete_acquire pend m key a Em Ep). apply IH.
  - destruct (act w) as [[b|e|] w1]; [apply IH|done..].
  - destruct (IHb m w) as [H1 H2]. destruct (query_run _ _ body m w) as [[b|e|] [m1 w1]]; cbn [fst snd] in *.
    + by rewrite <- H1.
    + rewrite <- H1, <- H2. apply IHh.
    + by rewrite <- H1.
Qed.

Lemma accepting_run_pure h pend sinks m w :
  let r := accepting_run get_value ops h pend sinks m w in
  (r.1, r.2.2) = accepting h sinks (complete pend m) w ∧ complete pend r.2.1 = complete pend m.
Proof.
  revert m w. induction sinks as [|s rest IH]; intros m w; [done|]. cbn [accepting_run accepting].
  destruct (query_run_pure pend (will_consume ops s) m w) as [<- <-].
  destruct (query_run _ _ _ m w) as [[[]|e|] [m1 w1]]; cbn [fst snd]; [|apply IH| |done].
  - destruct (IH m1 w1) as [<- <-]. by destruct (accepting_run _ _ _ _ _ m1 w1) as [r [m2 w2]].
  - destruct (handle h e w1) as [[]  w2]; [apply IH|done..].
Qed.

Lemma acquire_all_total l m w :
  acquire_all get_value l m w = (Ok (), (complete (list_to_map l) m, w)).
Proof.
  unfold complete. rewrite <- (acquire_all_pure val). revert m. induction l as [|[key a] l IH]; intros m; [done|]. simpl.
  rewrite pure. by destruct (m !! key); rewrite IH.
Qed.

Lemma compose_run_pure src thread global w :
  ∃ l m, compose_run get_value src thread global w = (Ok (l, m), w) ∧
    complete (list_to_map l) m = composed src thread global.
Proof.
  unfold compose_run. destruct src as [attrs|v|v].
  - eexists _, _. split; [done|]. unfold complete. cbn. by rewrite map_empty_union, !list_to_map_app, (assoc_L (∪)).
  - rewrite acquire_all_total. eexists _, _. split; [done|]. unfold complete. cbn.
    by rewrite <- pending_map, list_to_map_app.
  - eexists _, _. split; [done|]. unfold complete. cbn.
    by rewrite attrs_map_list, !list_to_map_app, (assoc_L (∪)).
Qed.

Lemma open_run_pure (c : core V AS R W) src thread w :
  open_run get_value ops c src thread w = open_spec c (composed src thread (m_global_attributes c)) w.
Proof.
  unfold open_run, open_spec. destruct (m_enabled c); cbn [negb]; [|done].
  destruct (compose_run_pure src thread (m_global_attributes c) w) as (l & m & -> & Hm).
  destruct (query_run_pure (list_to_map l) (m_filter c) m w) as [Hq Hm1]. rewrite Hm in Hq, Hm1. rewrite <- Hq.
  destruct (query_run _ _ _ m w) as [[[]|e|] [m1 w1]]; cbn [fst snd] in *; [|done..].
  destruct (accepting_run_pure (m_exception_handler c) (list_to_map l) (offered c) m1 w1) as [Ha Hm2].
  rewrite Hm1 in Ha, Hm2. rewrite <- Ha.
  destruct (accepting_run _ _ _ _ _ m1 w1) as [[a|e|] [m2 w2]]; cbn [fst snd] in *; [|done..].
  rewrite acquire_all_total, Hm2. by destruct a.
Qed.

Lemma open_record_spec empty_attrs tid src (c : core V AS R W) w :
  core_wf empty_attrs c → source_wf src → query_names (m_filter c) →
  (∀ s, s ∈ offered c → query_names (will_consume ops s)) →
  let '(d, c1) := get_thread_data empty_attrs tid c in
  let m := composed src (m_thread_attributes d) (m_global_attributes c) in
  ∃ r, open_record get_value ops empty_attrs tid src (c, w)
      = (r, (if m_enabled c then c1 else c, (open_spec c m w).2)) ∧
    (let* o := r in Ok (describe <$> o)) = (open_spec c m w).1.
Proof.
  intros Hc Hsrc Hqf Hqs. pose proof (open_record_run get_value ops empty_attrs tid src c w Hc Hsrc Hqf Hqs) as H.
  destruct (get_thread_data empty_attrs tid c) as [d c1]. by rewrite open_run_pure in H.
Qed.
End pure_spec.

(** * Pushing an opened record *)

Section pushing_lemmas.
Context {A V AS R W : Type} `{!AttrStore A AS} `{!Rng R}.
Context (get_value : A → W * trace → outcome V * (W * trace)).
Context (detach : V → sm W V).
Context (ops : sink_ops V AS W) (wc : sink_id → query V (W * trace)).
Context (empty_attrs : AS) (tid : nat).
Implicit Types (c : core V AS R (W * trace)) (p : private_data V AS).

(** The sinks the record is passed to: those still alive when it is locked. *)
Definition alive p (w : W) : list sink_id :=
  filter (λ s, expired ops s w = false) (m_accepting_sinks p).

(** A record whose values are all acquired, detached from its thread when it is
    passed between threads: the outcome, the record and the world. *)
Definition detach_record p (w : W) : outcome unit * (private_data V AS * W) :=
  if m_detach_from_thread_needed p then
    let v := m_attribute_values p in
    let '(r, (nodes, w')) := detach_nodes detach (v_Nodes v) w in
    (r, (with_values (set_nodes v nodes (v_Buckets v) (v_Storage v)) p, w'))
  else (Ok (), (p, w)).

(** What pushing the record [p] in the world [w] comes to: its outcome, the
    record left in the handle and the calls it has made.
    - Every live sink has settled the record, every failure has been handled.
    - A value could not be detached; no sink was called, and the record is still
      in the handle.
    - The failure [e] of a sink was not handled, because there is no handler or
      the handler threw [e1]: the sinks before it have settled the record, the
      others are not served, and [e1] is handled as a failure of the push. *)
Inductive delivery (h : option (exn → sm W unit)) p (w : W)
    : outcome unit → option (private_data V AS) → trace → Prop :=
| Delivered p' w' tr :
    detach_record p w = (Ok (), (p', w')) →
    settled tr ≡ₚ alive p w' → all_handled tr → delivery h p w (Ok ()) None tr
| Undetached e p' w' r tr :
    detach_record p w = (Throw e, (p', w')) →
    handling h e r tr → delivery h p w r (Some p') tr
| Aborted p' w' s e tr evs e1 evs1 unserved r :
    detach_record p w = (Ok (), (p', w')) →
    settled (tr ++ [EvFailed s e]) ++ unserved ≡ₚ alive p w' → all_handled tr →
    handling h e (Throw e1) evs → handling h e1 r evs1 →
    delivery h p w r None (((tr ++ [EvFailed s e]) ++ evs) ++ evs1).

Definition delivery_post (h : option (exn → sm W unit)) p (w : W)
    (r : outcome unit * (option (private_data V AS) * (core V AS R (W * trace) * (W * trace)))) : Prop :=
  delivery h p w r.1 r.2.1 r.2.2.2.2.

Lemma detach_nodes_untraced l w tr :
  let r := detach_nodes detach l w in
  detach_nodes (λ x, untraced (detach x)) l (w, tr) = (r.1, (r.2.1, (r.2.2, tr))).
Proof.
  revert w. induction l as [|n l IH]; intros w; [done|]. simpl.
  destruct (detach (n_data n).1 w) as [[x|e|] w1]; [|done..]. rewrite IH.
  by destruct (detach_nodes detach l w1) as [r [l' w2]].
Qed.

Lemma lock_record_run p w tr :
  all_frozen (m_attribute_values p) →
  let r := detach_record p w in
  match r.1 with
  | Ok _ => lock_record get_value (λ x, untraced (detach x)) (Some p, (w, tr)) = (Ok r.2.1, (None, (r.2.2, tr)))
  | Throw e => lock_record get_value (λ x, untraced (detach x)) (Some p, (w, tr)) = (Throw e, (Some r.2.1, (r.2.2, tr)))
  | Stuck => True
  end.
Proof.
  intros Hfr. unfold lock_record, detach_record. rewrite freeze_noop, detach_nodes_untraced by done.
  destruct (m_detach_from_thread_needed p); [|done].
  by destruct (detach_nodes detach _ w) as [[]  [nodes w1]].
Qed.

Lemma detach_record_sinks p w : m_accepting_sinks (detach_record p w).2.1 = m_accepting_sinks p.
Proof.
  unfold detach_record. destruct (m_detach_from_thread_needed p); [|done].
  by destruct (detach_nodes detach _ w) as [[]  [nodes w1]].
Qed.

Lemma push_record_keeps c p h w (J : W * trace → Prop) :
  let d := detach_record p w in
  d.1 ≠ Stuck → ops_keep ops wc J d.2.1 → m_exception_handler c = traced_handler <$> h →
  (∀ f, h = Some f → handler_keeps f J) →
  m_accepting_sinks p ≠ [] → all_frozen (m_attribute_values p) → J (d.2.2, []) →
  let r := push_record get_value (λ x, untraced (detach x)) (traced ops wc) empty_attrs tid (Some p, (c, (w, []))) in
  delivery_post h p w r ∧ J r.2.2.2.
Proof.
  intros d Hd Hops Hc Hh Hne Hfr HJ r. subst r. unfold push_record.
  pose proof (lock_record_run p w [] Hfr) as Hlock. cbv zeta in Hlock. fold d in Hlock.
  destruct d as [[[]|e|] [p' w1]] eqn:Ed; cbn [fst snd] in *; [| |done]; rewrite Hlock; clear Hlock.
  2:{ rewrite Hc. destruct (handle_traced h J e w1 [] Hh HJ) as (r & w2 & evs & -> & Hr & HJ2).
      split; [|done]. by eapply Undetached. }
  assert (m_accepting_sinks p' = m_accepting_sinks p) as Hp'.
  { pose proof (detach_record_sinks p w) as H. fold d in H. by rewrite Ed in H. }
  unfold delivery_post. rewrite <- Hp' in Hne.
  destruct (m_accepting_sinks p') as [|s0 l0] eqn:Es; [done|]. cbn [traced expired fst].
  assert (filter (λ s, expired ops s w1 = false) (s0 :: l0) = alive p w1) as ->.
  { unfold alive. by rewrite Hp'. }
  set (live := alive p w1).
  pose proof (push_loop_ok ops wc empty_attrs tid p' J Hops live (S (length live))
    (Pushing live 0 (length live) (bool_decide (length live ≤ 1))) c w1 [] h) as Hl.
  specialize (Hl ltac:(split; simpl; [done|lia|lia|by rewrite drop_all|done]) HJ ltac:(simpl; lia) Hc Hh).
  destruct (push_loop _ _ _ _ p' _) as [[[]|e1|] [b' [c' [w2 tr2]]]]; [| |done].
  - destruct Hl as [[H1 H2] H3]. split; [|done]. by eapply Delivered.
  - destruct Hl as (HJ2 & s & e & tr0 & evs & unserved & -> & Hset & Hall & Hhan). rewrite Hc.
    destruct (handle_traced h J e1 w2 _ Hh HJ2) as (r & w3 & evs1 & -> & Hr & HJ3).
    split; [|done]. by eapply Aborted.
Qed.

(** User code without undefined behaviour. *)
Definition detach_safe : Prop := ∀ x w, (detach x w).1 ≠ Stuck.
Definition handler_safe (h : option (exn → sm W unit)) : Prop := ∀ f, h = Some f → ∀ e w, (f e w).1 ≠ Stuck.

Lemma detach_record_safe p w : detach_safe → (detach_record p w).1 ≠ Stuck.
Proof.
  intros Hd. unfold detach_record. destruct (m_detach_from_thread_needed p); [|done].
  assert (∀ l w, (detach_nodes detach l w).1 ≠ Stuck) as H.
  { induction l as [|n l IH]; intros w'; [done|]. simpl. pose proof (Hd (n_data n).1 w') as Hn.
    destruct (detach (n_data n).1 w') as [[x|e|] w1]; [|done|done]. specialize (IH w1).
    by destruct (detach_nodes detach l w1) as [r [l' w2]]. }
  specialize (H (v_Nodes (m_attribute_values p)) w).
  by destruct (detach_nodes detach _ w) as [[]  [nodes w1]].
Qed.

Lemma push_record_spec c p h w :
  ops_safe ops → detach_safe → m_exception_handler c = traced_handler <$> h → handler_safe h →
  m_accepting_sinks p ≠ [] → all_frozen (m_attribute_values p) →
  delivery_post h p w
    (push_record get_value (λ x, untraced (detach x)) (traced ops wc) empty_attrs tid (Some p, (c, (w, [])))).
Proof.
  intros Hops Hd Hc Hh Hne Hfr. apply (push_record_keeps c p h w (λ _, True)); try done.
  - by apply detach_record_safe.
  - intros s [w' tr] _. destruct (Hops s (detach_record p w).2.1 w') as [H1 H2]. cbn. unfold trace_call.
    by destruct (try_consume ops s _ w'), (consume ops s _ w').
  - intros f Hf e [w' tr] _. pose proof (Hh f Hf e w') as Hs. unfold traced_handler, trace_call.
    by destruct (f e w').
Qed.
End pushing_lemmas.

(** * The registry of sinks as a set *)

Inductive registry_op : Type :=
| AddSink (s : sink_id)
| RemoveSink (s : sink_id)
| RemoveAllSinks
| SetLoggingEnabled (enabled : bool).

Definition run_registry_op {V AS R W} (o : registry_op) (c : core V AS R W) : core V AS R W :=
  match o with
  | AddSink s => add_sink s c
  | RemoveSink s => remove_sink s c
  | RemoveAllSinks => remove_all_sinks c
  | SetLoggingEnabled b => (set_logging_enabled b c).2
  end.

Definition registry_spec (o : registry_op) (m : gset sink_id) : gset sink_id :=
  match o with
  | AddSink s => {[s]} ∪ m
  | RemoveSink s => m ∖ {[s]}
  | RemoveAllSinks => ∅
  | SetLoggingEnabled _ => m
  end.

Lemma erase_first_spec s (l : list sink_id) :
  NoDup l → NoDup (erase_first s l) ∧
  (list_to_set (erase_first s l) : gset sink_id) = list_to_set l ∖ {[s]}.
Proof.
  induction 1 as [|x t Hx Hnd [IH1 IH2]]; simpl; [split; [constructor|set_solver]|].
  case_decide as Hd; [subst; set_solver|]. split; [|set_solver].
  constructor; [|done]. intros Hin. apply Hx. apply (elem_of_list_to_set (C := gset sink_id)) in Hin.
  set_solver.
Qed.

Lemma run_registry_op_spec {V AS R W} o (c : core V AS R W) :
  NoDup (m_sinks c) →
  NoDup (m_sinks (run_registry_op o c)) ∧
  (list_to_set (m_sinks (run_registry_op o c)) : gset sink_id) = registry_spec o (list_to_set (m_sinks c)).
Proof.
  intros Hc. destruct o as [s|s| |b]; simpl.
  - unfold add_sink. case_decide; simpl; [set_solver|]. split; [|set_solver].
    apply NoDup_app. split_and!; [done|set_solver|apply NoDup_singleton].
  - by apply erase_first_spec.
  - split; [constructor|done].
  - done.
Qed.

(** * Theorems *)

(** The registry of sinks is a set: whatever sequence of additions,
    removals and enabling of logging is performed, no sink is ever registered
    twice and the registered sinks are those the same sequence of set
    operations gives. *)
Theorem registry_refines_set {V AS R W} (l : list registry_op) (c : core V AS R W) :
  NoDup (m_sinks c) →
  let c' := foldl (flip run_registry_op) c l in
  NoDup (m_sinks c') ∧
  (list_to_set (m_sinks c') : gset sink_id) = foldl (flip registry_spec) (list_to_set (m_sinks c)) l.
Proof.
  revert c. induction l as [|o l IH]; intros c Hc; [done|]. simpl.
  destruct (run_registry_op_spec o c Hc) as [H1 H2]. rewrite <- H2. by apply IH.
Qed.

(** C1: [open_record] refines its specification, for attributes, filters and
    handlers that act on the world and may throw: the result, the values of the
    record, the core and the final world are those of [open_run]. Nothing is
    opened when logging is disabled or the global filter rejects the record;
    otherwise the record has exactly the sinks whose filters accept it, in
    registration order (the default sink when none is registered), every value
    is acquired once, the first time a filter looks it up or at the end, and
    the record is marked for detaching when one of its sinks is cross-thread.
    All values are acquired also when no sink has accepted the record. A sink
    whose filter, or an attribute it asks for, fails is skipped after the
    exception handler has run; a failure of the global filter or of an attribute
    acquired before or after the sinks' filters goes to the handler and gives no
    record; without a handler, or when it throws, the exception propagates.
    The names that filters look up are initialized, and the core, its attribute
    sets and the source are well formed. *)
Theorem open_record_refines {A V AS R W} `{!AttrStore A AS} `{!Rng R} (get_value : A → W → outcome V * W)
    (ops : sink_ops V AS W) (empty_attrs : AS) (tid : nat) (src : source_attributes)
    (c : core V AS R W) (w : W) :
  core_wf empty_attrs c → source_wf src → query_names (m_filter c) →
  (∀ s, s ∈ offered c → query_names (will_consume ops s)) →
  let '(d, c1) := get_thread_data empty_attrs tid c in
  let sp := open_run get_value ops c src (m_thread_attributes d) w in
  ∃ r, open_record get_value ops empty_attrs tid src (c, w) = (r, (if m_enabled c then c1 else c, sp.2)) ∧
    (let* o := r in Ok (describe <$> o)) = sp.1.
Proof. apply open_record_run. Qed.

(** C2: [push_record_move] terminates, for sinks, handlers and values to detach
    that may all throw but have no undefined behaviour, and has one of three
    results. Either every accepting sink that is still alive has settled the
    record exactly once (the sink consumes it, through [try_consume] or, when
    the sinks are busy, a blocking [consume], or the sink throws), and every
    failure was passed to the handler once, which returned. Or a value of a
    record that is passed between threads could not be detached: no sink is
    called, the exception goes to the handler, and the record stays in its
    handle with the values before that one detached. Or a failure was not
    handled, because there is no handler or the handler threw: the sinks so far
    have settled the record once, the remaining ones are not served, and the
    exception that left the inner handler goes through the outer one. The
    record's values are acquired and it has an accepting sink, as
    [open_record] leaves it. *)
Theorem push_record_delivers {A V AS R W} `{!AttrStore A AS} `{!Rng R}
    (get_value : A → W * trace → outcome V * (W * trace)) (detach : V → sm W V)
    (ops : sink_ops V AS W) (wc : sink_id → query V (W * trace)) (empty_attrs : AS) (tid : nat)
    (c : core V AS R (W * trace)) (p : private_data V AS) (h : option (exn → sm W unit)) (w : W) :
  ops_safe ops → detach_safe detach → m_exception_handler c = traced_handler <$> h → handler_safe h →
  m_accepting_sinks p ≠ [] → all_frozen (m_attribute_values p) →
  delivery_post detach ops h p w
    (push_record get_value (λ x, untraced (detach x)) (traced ops wc) empty_attrs tid (Some p, (c, (w, [])))).
Proof. apply push_record_spec. Qed.


(** * Examples

    Three sinks: 1 accepts records that have attribute 2 and is always ready,
    2 fails, and 3 is busy, so that it only consumes when the core blocks on
    it. *)

Module sample.
#[local] Instance nat_rng : Rng nat := {| rng_seed := λ n, n; rng_next := λ n, (Z.of_nat n, S n) |}.

Definition filter_of {W} (s : sink_id) : query nat W :=
  QFind 2%N (λ x, match x with Some _ => QRet true | None => QRet (bool_decide (s = 3)) end).

Definition ops (W : Type) : sink_ops nat (attribute_set nat) W := {|
  will_consume := filter_of;
  is_cross_thread s := bool_decide (s = 3);
  try_consume s p w := if decide (s = 2) then (Throw (ex_user 7), w) else (Ok (bool_decide (s = 1)), w);
  consume s p w := (Ok (), w);
  flush_sink s w := (Ok (), w);
  expired s w := false |}.

Definition swallow {W} (e : exn) : sm W unit := λ w, (Ok (), w).

Definition sample_core {W} (h : option (exn → sm W unit)) : core nat (attribute_set nat) nat W :=
  Core [1; 2; 3] 0 sample_thread ∅ true (QRet true) h.

Lemma sample_core_wf {W} (h : option (exn → sm W unit)) : core_wf empty_set (sample_core h).
Proof.
  split; simpl; [apply (bool_decide_unpack _); reflexivity|lia|apply sample_thread_wf|apply empty_set_wf|].
  intros tid d. by rewrite lookup_empty.
Qed.

Definition sample_record : private_data nat (attribute_set nat) :=
  PrivateData (create 0 None None None) [1; 2; 3] 3 true.

Lemma ops_are_safe : ops_safe (ops nat).
Proof. intros s p w. simpl. by case_decide. Qed.


Lemma registry_refines_set_witness :
  NoDup (m_sinks (foldl (flip run_registry_op) (sample_core (W := unit) None)
           [AddSink 2; RemoveSink 1; AddSink 5; AddSink 5])).
Proof.
  apply (registry_refines_set [AddSink 2; RemoveSink 1; AddSink 5; AddSink 5] (sample_core (W := unit) None)).
  apply (bool_decide_unpack _). reflexivity.
Defined.

(** Attributes that count their acquisitions; 4 attributes of the source, the
    thread and the core, one of which is hidden. *)
Lemma open_record_refines_witness :
  ∃ r c' w', open_record counting_value (ops nat) empty_set 4 (FromSet sample_set) (sample_core None, 0)
    = (r, (c', w')) ∧ w' = 4 ∧ (let* o := r in Ok ((λ p, (describe p).1.1) <$> o)) = Ok (Some [1; 2; 3]).
Proof.
  pose proof (open_record_refines counting_value (ops nat) empty_set 4 (FromSet sample_set) (sample_core None) 0
    (sample_core_wf None) sample_set_wf I) as H.
  destruct H as (r & Hr & Hs).
  - intros s _. split; [discriminate|]. by intros [x|].
  - exists r. do 2 eexists. split; [exact Hr|]. split; [vm_compute; reflexivity|]. clear Hr.
    apply (f_equal (λ r, let* o := r in Ok ((λ x, x.1.1) <$> o))) in Hs.
    transitivity (Ok (Some [1; 2; 3])); [|reflexivity]. etrans; [|etrans; [exact Hs|vm_compute; reflexivity]].
    by destruct r as [[p|]|e|].
Defined.

(** Values that are detached as they are, and values that cannot be detached. *)
Definition keep {W} (x : nat) : sm W nat := mret x.

(** A handler that throws the exception again. *)
Definition rethrow {W} (e : exn) : sm W unit := sm_throw e.

Lemma push_record_delivers_witness :
  ∃ c' w' tr, push_record (R := nat) (λ a w, (Ok a, w)) (λ x, untraced (keep x)) (traced (ops nat) filter_of) empty_set 4
    (Some sample_record, (sample_core (Some (traced_handler swallow)), (0, []))) = (Ok (), (None, (c', (w', tr)))) ∧
    settled tr ≡ₚ [1; 2; 3] ∧ handled tr = [(ex_user 7, None)].
Proof.
  pose proof (push_record_delivers (R := nat) (λ a w, (Ok a, w)) keep (ops nat) filter_of empty_set 4
    (sample_core (Some (traced_handler swallow))) sample_record (Some swallow) 0 ops_are_safe) as H.
  specialize (H ltac:(done) eq_refl ltac:(by intros f [= <-]) ltac:(done) ltac:(done)). unfold delivery_post in H.
  destruct (push_record _ _ _ _ _ _) as [[[]|e|] [hd [c' [w' tr]]]] eqn:E; [|vm_compute in E; discriminate E..].
  exists c', w', tr. vm_compute in E. injection E as <- <- <- <-. split; [done|].
  inversion H as [p' w1 tr1 Hd Hs Hall| |p' w1 s e tr1 evs e1 evs1 uns r Hd Hs Hall Hh Hh1 Htr].
  - split; [|reflexivity]. injection Hd as <- <-. exact Hs.
  - exfalso. destruct Hh as [[w2 Hw2] _]. discriminate Hw2.
Defined.

(** With a handler that throws again, sink 2 fails before sink 3 is served, and
    the handler is called a second time with its own exception. *)
Example rethrowing_handler_skips_sinks :
  (push_record (R := nat) (λ a w, (Ok a, w)) (λ x, untraced (keep x)) (traced (ops nat) filter_of) empty_set 4
    (Some sample_record, (sample_core (Some (traced_handler rethrow)), (0, [])))).2.2.2.2
  = [EvTried 1 true; EvTried 3 false; EvFailed 2 (ex_user 7); EvHandled (ex_user 7) (Some (ex_user 7));
     EvHandled (ex_user 7) (Some (ex_user 7))].
Proof. reflexivity. Qed.


(** When no sink accepts a record, [rec_impl] is null, the check for zero
    accepting sinks does not apply, and all attribute values are acquired
    although no record is returned. *)
Theorem rejected_record_acquires_values :
  (let ops := SinkOps (λ _, QRet false) (λ _, false) (λ _ _ w, (Ok true, w)) (λ _ _ w, (Ok (), w))
                (λ _ w, (Ok (), w)) (λ _ _, false) in
   open_record counting_value ops empty_set 4 (FromSet sample_set) (sample_core None, 0))
  = (Ok None, ((get_thread_data empty_set 4 (sample_core None)).2, 4)).
Proof. reflexivity. Qed.
End sample.
