(* ===== verification/FileNamePattern.v ===== *)
(** File name patterns of the text file backend
    (src/src/text_file_backend.cpp): parsing a pattern into a generator of
    file names and matching existing file names against the pattern. *)

From Stdlib Require Import ZArith Ascii String.
From stdpp Require Import base numbers sets list.
From S2P Require Import Prelude Decimal.

Local Open Scope char_scope.

(** * Placeholders *)

(** [placeholder == c] for one of the date and time components of two digits. *)
Definition is_two_digits (c : ascii) : bool :=
  bool_decide (c ∈ ["S"; "M"; "H"; "d"; "m"; "y"]).

Fixpoint skip_digits (it : str) : str :=
  match it with
  | c :: t => if is_digit c then skip_digits t else it
  | [] => []
  end.

(** [scan_digits]: [n] digits have to follow. *)
Fixpoint scan_digits (it : str) (n : Z) : option str :=
  if (n <=? 0)%Z then Some it else
  match it with
  | [] => None
  | c :: t => if is_digit c then scan_digits t (n - 1) else None
  end.

Section patterns.
Context {extract : ExtractUint}.
(** [posix_time::time_res_traits::num_fractional_digits()]. *)
Context (num_fractional_digits : Z).

(** [parse_counter_placeholder]: the text after the placeholder, when there is
    one, and the width, which is left alone unless digits are read. *)
Definition parse_counter_placeholder (it : str) (width : Z) : option str * Z :=
  match it with
  | [] => (None, width)
  | c :: t =>
      let it := if bool_decide (c ∈ ["0"; " "; "+"; "-"]) then t else it in
      match it with
      | [] => (None, width)
      | c :: _ =>
          let '(r, width) :=
            if is_digit c then
              match extract_uint it with
              | None => (None, width)
              | Some (w, rest) => (Some rest, w)
              end
            else (Some it, width) in
          match r with
          | None | Some [] => (None, width)
          | Some (c :: t) =>
              let it := if bool_decide (c = ".") then skip_digits t else c :: t in
              match it with
              | [] => (None, width)
              | c :: t => if bool_decide (c = "N") then (Some t, width) else (None, width)
              end
          end
      end
  end.

(** * Matching *)

(** What [match_pattern] returns: the result, [file_counter] and
    [file_counter_parsed]. *)
Abbreviation match_result := (bool * Z * bool)%type.

(** The loop of [match_pattern] and the test after it; [f] and [p] are the
    rests of the file name and of the pattern. *)
Fixpoint match_loop (fuel : nat) (f p : str) (placeholder_expected : bool)
    (file_counter : Z) (parsed : bool) : outcome match_result :=
  match f, p with
  | f_c :: f', p_c :: p' =>
      match fuel with
      | 0 => Stuck
      | S n =>
          if negb placeholder_expected then
            if bool_decide (p_c = "%") then match_loop n f p' true file_counter parsed
            else if bool_decide (p_c = f_c) then match_loop n f' p' false file_counter parsed
            else Ok (false, file_counter, parsed)
          else if bool_decide (p_c = "%") then
            if bool_decide (p_c = f_c) then match_loop n f' p' false file_counter parsed
            else Ok (false, file_counter, parsed)
          else
            let time_component k :=
              match scan_digits f k with
              | None => Ok (false, file_counter, parsed)
              | Some f => match_loop n f p' false file_counter parsed
              end in
            if is_two_digits p_c then time_component 2%Z
            else if bool_decide (p_c = "Y") then time_component 4%Z
            else if bool_decide (p_c = "f") then time_component num_fractional_digits
            else
              match parse_counter_placeholder p 0 with
              | (None, _) => Throw ex_invalid_argument
              | (Some p, width) =>
                  match scan_digits f width with
                  | None => Ok (false, file_counter, parsed)
                  | Some f1 =>
                      let f1 := skip_digits f1 in
                      match extract_uint (take (length f - length f1) f) with
                      | None => Ok (false, file_counter, parsed)
                      | Some (number, unread) => match_loop n (unread ++ f1) p false number true
                      end
                  end
              end
      end
  | _, _ =>
      match p with
      | [] =>
          match f with
          | [] => Ok (true, file_counter, parsed)
          | _ => Ok (match scan_digits f (Z.of_nat (length f)) with Some _ => true | None => false end,
                     file_counter, parsed)
          end
      | _ => Ok (false, file_counter, parsed)
      end
  end.

Definition match_pattern (file_name pattern : str) : outcome match_result :=
  match_loop (length pattern) file_name pattern false 0 false.

(** * Generating *)

Record pattern_scan := PatternScan {
  placeholder_count : nat;
  width : Z;
  counter_pos : option nat;
  name_pattern : str }.

(** The loop of [parse_file_name_pattern]; [before] and [after] are the parts
    of [name_pattern] before and from [it] on. *)
Fixpoint scan_placeholders (fuel : nat) (before after : str) (count : nat) (width : Z)
    (pos : option nat) : outcome pattern_scan :=
  match fuel with
  | 0 => Stuck
  | S n =>
      let k := find_pos (λ c, bool_decide (c = "%")) after in
      let before := before ++ take k after in
      let continue_ before after count width pos :=
        match after with
        | [] => Ok (PatternScan count width pos before)
        | _ => scan_placeholders n before after count width pos
        end in
      match drop k after with
      | [] => Ok (PatternScan count width pos before)
      | percent :: [] => Ok (PatternScan count width pos (before ++ [percent]))
      | percent :: (c :: after') as after =>
          if bool_decide (c = "%") then continue_ (before ++ [percent; c]) after' count width pos
          else
            match pos with
            | Some _ => continue_ (before ++ [percent]) after (S count) width pos
            | None =>
                match parse_counter_placeholder after width with
                | (Some rest, width) => continue_ before rest count width (Some (length before))
                | (None, width) => continue_ (before ++ [percent]) after (S count) width None
                end
            end
      end
  end.

(** [file_counter_formatter]: inserts the counter, filled with zeros. *)
Definition file_counter_formatter (pos : nat) (width : Z) (pattern : str) (counter : Z) : str :=
  take pos pattern ++ pad_left "0" (Z.to_nat width) (dec counter) ++ drop pos pattern.

(** The file name generator for a pattern. [date_and_time_formatter] formats
    the current time with Boost.DateTime. *)
Definition file_name_generator (date_and_time_formatter : str → str) (st : pattern_scan)
    (counter : Z) : str :=
  let name := match counter_pos st with
              | Some pos => file_counter_formatter pos (width st) (name_pattern st) counter
              | None => name_pattern st
              end in
  if (0 <? placeholder_count st)%nat then date_and_time_formatter name else name.

Definition parse_file_name_pattern (pattern : str) : outcome pattern_scan :=
  scan_placeholders (S (length pattern)) [] pattern 0 0 None.

(** * Termination *)

Lemma skip_digits_length it : length (skip_digits it) ≤ length it.
Proof. induction it as [|c t IH]; simpl; [lia|]. destruct (is_digit c); simpl; lia. Qed.

Lemma parse_counter_length it w rest w' :
  parse_counter_placeholder it w = (Some rest, w') → length rest < length it.
Proof.
  unfold parse_counter_placeholder. intros H. destruct it as [|c t]; [done|].
  set (it1 := if bool_decide _ then t else c :: t) in H.
  assert (length it1 ≤ S (length t)) by (unfold it1; case_bool_decide; simpl; lia).
  destruct it1 as [|c1 t1]; [done|]. destruct (is_digit c1).
  - destruct (extract_uint (c1 :: t1)) as [[w1 r1]|] eqn:E; [|done]. apply extract_uint_some in E as [_ E].
    destruct r1 as [|c2 t2]; [done|]. simpl in *. pose proof (skip_digits_length t2).
    case_bool_decide; [destruct (skip_digits t2) as [|c3 t3]; [done|]|];
      case_bool_decide; simplify_eq/=; lia.
  - pose proof (skip_digits_length t1).
    case_bool_decide; [destruct (skip_digits t1) as [|c3 t3]; [done|]|];
      case_bool_decide; simplify_eq/=; lia.
Qed.

Lemma match_loop_total fuel f p b c k :
  length p ≤ fuel → match match_loop fuel f p b c k with Stuck => False | _ => True end.
Proof.
  revert f p b c k. induction fuel as [|n IH]; intros f p b c k Hf;
    destruct f as [|f_c f'], p as [|p_c p']; simpl in Hf; try (exact I); [lia|].
  assert (length p' ≤ n) by lia. cbn [match_loop].
  destruct b; cbn [negb].
  - case_bool_decide; [case_bool_decide; [by apply IH|done]|].
    destruct (is_two_digits p_c); [destruct (scan_digits _ _); [by apply IH|done]|].
    case_bool_decide; [destruct (scan_digits _ _); [by apply IH|done]|].
    case_bool_decide; [destruct (scan_digits _ _); [by apply IH|done]|].
    destruct (parse_counter_placeholder (p_c :: p') 0) as [[p|] width] eqn:E; [|done].
    apply parse_counter_length in E. simpl in E.
    destruct (scan_digits _ _); [|done]. destruct (extract_uint _) as [[? ?]|]; [|done]. apply IH. lia.
  - case_bool_decide; [by apply IH|]. case_bool_decide; [by apply IH|done].
Qed.

(** A counter that was parsed fits [unsigned int]. *)
Lemma match_loop_counter fuel f p b c k m n parsed :
  (0 ≤ c < 2 ^ 32)%Z → match_loop fuel f p b c k = Ok (m, n, parsed) → (0 ≤ n < 2 ^ 32)%Z.
Proof.
  revert f p b c k. induction fuel as [|g IH]; intros f p b c k Hc;
    destruct f as [|f_c f'], p as [|p_c p']; cbn [match_loop]; try (intros [= <- <- <-]; done).
  destruct b; cbn [negb].
  - case_bool_decide; [case_bool_decide; [by apply IH|by intros [= <- <- <-]]|].
    destruct (is_two_digits p_c); [destruct (scan_digits _ _); [by apply IH|by intros [= <- <- <-]]|].
    case_bool_decide; [destruct (scan_digits _ _); [by apply IH|by intros [= <- <- <-]]|].
    case_bool_decide; [destruct (scan_digits _ _); [by apply IH|by intros [= <- <- <-]]|].
    destruct (parse_counter_placeholder (p_c :: p') 0) as [[p|] width]; [|done].
    destruct (scan_digits _ _); [|by intros [= <- <- <-]].
    destruct (extract_uint _) as [[x r]|] eqn:E; [|by intros [= <- <- <-]].
    apply extract_uint_some in E as [E _]. by apply IH.
  - case_bool_decide; [by apply IH|]. case_bool_decide; [by apply IH|by intros [= <- <- <-]].
Qed.

Lemma scan_placeholders_total fuel before after count w pos :
  length after < fuel →
  match scan_placeholders fuel before after count w pos with Ok _ => True | _ => False end.
Proof.
  revert before after count w pos. induction fuel as [|n IH]; intros before after count w pos Hf; [lia|].
  cbn [scan_placeholders]. set (k := find_pos _ after).
  destruct (drop k after) as [|x [|c after']] eqn:Ed; [done|done|].
  assert (S (S (length after')) ≤ length after).
  { change (S (S (length after'))) with (length (x :: c :: after')). rewrite <- Ed, length_drop. lia. }
  case_bool_decide; [destruct after'; [done|apply IH; simpl in *; lia]|].
  destruct pos; [apply IH; simpl in *; lia|].
  destruct (parse_counter_placeholder (c :: after') w) as [[rest|] w'] eqn:E; [|apply IH; simpl in *; lia].
  apply parse_counter_length in E. destruct rest; [done|]. apply IH. simpl in *. lia.
Qed.

Lemma parse_total pattern : ∃ st, parse_file_name_pattern pattern = Ok st.
Proof.
  pose proof (scan_placeholders_total (S (length pattern)) [] pattern 0 0 None ltac:(lia)) as H.
  unfold parse_file_name_pattern. destruct (scan_placeholders _ _ _ _ _ _); [eauto|done|done].
Qed.

(** * Patterns as sequences of tokens *)

Inductive token : Type :=
| TLit (c : ascii)
| TPercent
| TTime (c : ascii).

Definition is_time (c : ascii) : bool :=
  is_two_digits c || bool_decide (c = "Y") || bool_decide (c = "f").

Definition time_width (c : ascii) : Z :=
  if is_two_digits c then 2 else if bool_decide (c = "Y") then 4 else num_fractional_digits.

Definition token_wf (t : token) : Prop :=
  match t with
  | TLit c => c ≠ "%"
  | TPercent => True
  | TTime c => is_time c = true
  end.

Definition token_text (t : token) : str :=
  match t with
  | TLit c => [c]
  | TPercent => ["%"; "%"]
  | TTime c => ["%"; c]
  end.

Definition text (ts : list token) : str := concat (token_text <$> ts).

Definition is_time_token (t : token) : bool := match t with TTime _ => true | _ => false end.
Definition time_tokens (ts : list token) : nat := length (List.filter is_time_token ts).

(** What the tokens stand for when the time components are [tv]. *)
Definition render_token (tv : ascii → str) (t : token) : str :=
  match t with
  | TLit c => [c]
  | TPercent => ["%"]
  | TTime c => tv c
  end.
Definition render (tv : ascii → str) (ts : list token) : str := concat (render_token tv <$> ts).

(** Time components are printed with their fixed number of digits. *)
Definition components_ok (tv : ascii → str) : Prop :=
  ∀ c, is_time c = true → all_digits (tv c) ∧ tv c ≠ [] ∧ Z.of_nat (length (tv c)) = time_width c.

Lemma text_cons t ts : text (t :: ts) = token_text t ++ text ts.
Proof. done. Qed.
Lemma render_cons tv t ts : render tv (t :: ts) = render_token tv t ++ render tv ts.
Proof. done. Qed.
Lemma text_app ts1 ts2 : text (ts1 ++ ts2) = text ts1 ++ text ts2.
Proof. unfold text. by rewrite fmap_app, concat_app. Qed.
Lemma render_app tv ts1 ts2 : render tv (ts1 ++ ts2) = render tv ts1 ++ render tv ts2.
Proof. unfold render. by rewrite fmap_app, concat_app. Qed.
Lemma time_tokens_app ts1 ts2 : time_tokens (ts1 ++ ts2) = time_tokens ts1 + time_tokens ts2.
Proof. unfold time_tokens. by rewrite List.filter_app, length_app. Qed.

Lemma scan_digits_app ds rest n :
  all_digits ds → (n ≤ Z.of_nat (length ds))%Z →
  scan_digits (ds ++ rest) n = Some (drop (Z.to_nat n) ds ++ rest).
Proof.
  intros Hd. revert n. induction Hd as [|c ds Hc _ IH]; intros n Hn; simpl in Hn.
  - destruct rest; cbn [app scan_digits]; rewrite (proj2 (Z.leb_le _ _)) by lia; by rewrite drop_nil.
  - cbn [app scan_digits]. destruct (n <=? 0)%Z eqn:E; to_prop.
    + replace (Z.to_nat n) with 0 by lia. done.
    + rewrite Hc, IH by lia. replace (Z.to_nat n) with (S (Z.to_nat (n - 1))) by lia. done.
Qed.

Lemma skip_digits_app ds rest : all_digits ds → stops_digits rest → skip_digits (ds ++ rest) = rest.
Proof.
  intros Hd Hr. induction Hd as [|c ds Hc _ IH]; simpl; [|by rewrite Hc].
  destruct rest as [|c rest]; [done|]. simpl in *. by rewrite Hr.
Qed.

Lemma scan_all_digits ds : all_digits ds → scan_digits ds (Z.of_nat (length ds)) = Some [].
Proof.
  intros Hd. rewrite <- (app_nil_r ds) at 1. rewrite scan_digits_app by done.
  by rewrite Nat2Z.id, drop_all.
Qed.

(** ** Matching tokens *)

Lemma match_token t tv n f p c k :
  token_wf t → components_ok tv →
  match_loop (length (token_text t) + n) (render_token tv t ++ f) (token_text t ++ p) false c k
  = match_loop n f p false c k.
Proof.
  intros Ht Htv. destruct t as [x| |x]; cbn [token_wf token_text render_token length app Nat.add] in *.
  - cbn [match_loop negb]. rewrite bool_decide_eq_false_2 by done. by rewrite bool_decide_eq_true_2.
  - cbn [match_loop negb]. done.
  - destruct (Htv x Ht) as (Hd & Hne & Hw). unfold time_width in Hw.
    destruct (tv x) as [|y ys] eqn:Etv; [done|]. cbn [app match_loop negb].
    change (y :: ys ++ f) with ((y :: ys) ++ f).
    rewrite (bool_decide_eq_true_2 ("%" = "%")) by done.
    assert (x ≠ "%") as Hx by (intros ->; done). rewrite (bool_decide_eq_false_2 (x = "%")) by done.
    assert (∀ w, w = Z.of_nat (length (y :: ys)) → scan_digits ((y :: ys) ++ f) w = Some f) as Hscan.
    { intros w ->. rewrite scan_digits_app by done. by rewrite Nat2Z.id, drop_all. }
    unfold is_time in Ht. destruct (is_two_digits x); [by rewrite Hscan|].
    case_bool_decide; [by rewrite Hscan|]. simpl in Ht. rewrite Ht. by rewrite Hscan.
Qed.

Lemma match_tokens ts tv n f p c k :
  Forall token_wf ts → components_ok tv →
  match_loop (length (text ts) + n) (render tv ts ++ f) (text ts ++ p) false c k
  = match_loop n f p false c k.
Proof.
  intros Hts Htv. induction Hts as [|t ts Ht _ IH]; [done|].
  rewrite text_cons, render_cons, length_app, <- !app_assoc, <- Nat.add_assoc.
  by rewrite match_token.
Qed.

(** The text of a counter placeholder begins with none of the characters of
    the other placeholders. *)
Lemma counter_first x t w rest w' :
  parse_counter_placeholder (x :: t) w = (Some rest, w') →
  x ≠ "%" ∧ is_time x = false.
Proof.
  intros Hp. split; [by intros ->|]. destruct (is_time x) eqn:E; [|done]. exfalso.
  unfold is_time, is_two_digits in E.
  repeat rewrite orb_true_iff in E. rewrite !bool_decide_eq_true in E.
  assert (x ∈ ["S"; "M"; "H"; "d"; "m"; "y"; "Y"; "f"]) as Hx by set_solver. clear E.
  repeat (apply elem_of_cons in Hx as [->|Hx]; [done|]). by apply elem_of_nil in Hx.
Qed.

Lemma match_counter n ds f spec p w c k :
  parse_counter_placeholder (spec ++ p) 0 = (Some p, w) →
  all_digits ds → ds ≠ [] → (w ≤ Z.of_nat (length ds))%Z → (undec ds < 2 ^ 32)%Z → stops_digits f →
  match_loop (S (S n)) (ds ++ f) ("%" :: spec ++ p) false c k = match_loop n f p false (undec ds) true.
Proof.
  intros Hp Hd Hne Hw Hu Hf. destruct (spec ++ p) as [|x t] eqn:Es; [done|].
  destruct (counter_first _ _ _ _ _ Hp) as [Hx Ht]. unfold is_time in Ht.
  apply orb_false_iff in Ht as [[Ht1 Ht2]%orb_false_iff Ht3].
  destruct ds as [|y ys]; [done|]. cbn [app match_loop negb].
  rewrite (bool_decide_eq_true_2 ("%" = "%")), (bool_decide_eq_false_2 (x = "%")), Ht1, Ht2, Ht3, Hp by done.
  change (y :: ys ++ f) with ((y :: ys) ++ f). rewrite scan_digits_app by done.
  rewrite skip_digits_app; [|by apply Forall_drop|done].
  rewrite length_app, Nat.add_sub, take_app_length.
  pose proof (extract_uint_digits (y :: ys) [] Hd Hne I) as He. rewrite app_nil_r in He. rewrite He.
  rewrite (proj2 (Z.ltb_lt _ _)) by done. done.
Qed.

(** ** Parsing tokens *)

Lemma scan_fuel n m before after count w pos :
  length after < n → length after < m →
  scan_placeholders n before after count w pos = scan_placeholders m before after count w pos.
Proof.
  revert m before after count w pos. induction n as [|n IH]; intros m before after count w pos Hn Hm; [lia|].
  destruct m as [|m]; [lia|]. cbn [scan_placeholders]. set (k := find_pos _ after).
  destruct (drop k after) as [|x [|c after']] eqn:Ed; [done|done|].
  assert (S (S (length after')) ≤ length after).
  { change (S (S (length after'))) with (length (x :: c :: after')). rewrite <- Ed, length_drop. lia. }
  case_bool_decide; [destruct after'; [done|apply IH; simpl in *; lia]|].
  destruct pos; [apply IH; simpl in *; lia|].
  destruct (parse_counter_placeholder (c :: after') w) as [[rest|] w'] eqn:E; [|apply IH; simpl in *; lia].
  apply parse_counter_length in E. destruct rest; [done|]. apply IH; simpl in *; lia.
Qed.

(** Scanning with enough fuel. *)
Definition scan_from before after count w pos : outcome pattern_scan :=
  scan_placeholders (S (length after)) before after count w pos.

Lemma scan_from_nil before count w pos :
  scan_from before [] count w pos = Ok (PatternScan count w pos before).
Proof. unfold scan_from. simpl. by rewrite app_nil_r. Qed.

(** Continuing the loop is scanning from the new position. *)
Lemma scan_continue n before after count w pos :
  length after < n →
  match after with
  | [] => Ok (PatternScan count w pos before)
  | _ => scan_placeholders n before after count w pos
  end = scan_from before after count w pos.
Proof.
  intros Hn. destruct after as [|x after]; [by rewrite scan_from_nil|]. apply scan_fuel; simpl in *; lia.
Qed.

Lemma scan_literal before c after count w pos :
  c ≠ "%" → scan_from before (c :: after) count w pos = scan_from (before ++ [c]) after count w pos.
Proof.
  intros Hc. unfold scan_from. etrans; [|apply (scan_fuel (S (S (length after)))); lia].
  cbn [length scan_placeholders find_pos]. rewrite bool_decide_eq_false_2 by done.
  cbn [take drop]. by rewrite <- app_assoc.
Qed.

Lemma scan_escape before after count w pos :
  scan_from before ("%" :: "%" :: after) count w pos = scan_from (before ++ ["%"; "%"]) after count w pos.
Proof.
  unfold scan_from at 1. cbn [length]. remember (S (S (length after))) as n eqn:En.
  cbn [scan_placeholders find_pos].
  rewrite bool_decide_eq_true_2 by done. cbn [take drop]. rewrite app_nil_r.
  rewrite bool_decide_eq_true_2 by done. apply scan_continue. lia.
Qed.

Lemma time_not_counter c t w : is_time c = true → parse_counter_placeholder (c :: t) w = (None, w).
Proof.
  intros E. unfold is_time, is_two_digits in E. rewrite !orb_true_iff, !bool_decide_eq_true in E.
  assert (c ∈ ["S"; "M"; "H"; "d"; "m"; "y"; "Y"; "f"]) as Hx by set_solver. clear E.
  repeat (apply elem_of_cons in Hx as [->|Hx]; [reflexivity|]). by apply elem_of_nil in Hx.
Qed.

Lemma scan_time before c after count w pos :
  is_time c = true →
  scan_from before ("%" :: c :: after) count w pos
  = scan_from (before ++ ["%"; c]) after (S count) w pos.
Proof.
  intros Hc. assert (c ≠ "%") as Hne by (intros ->; done).
  trans (scan_from (before ++ ["%"]) (c :: after) (S count) w pos).
  - unfold scan_from at 1. cbn [length]. remember (S (S (length after))) as n eqn:En.
    cbn [scan_placeholders find_pos].
    rewrite bool_decide_eq_true_2 by done. cbn [take drop]. rewrite app_nil_r.
    rewrite bool_decide_eq_false_2 by done. rewrite time_not_counter by done.
    destruct pos; apply scan_fuel; simpl; lia.
  - rewrite scan_literal by done. by rewrite <- app_assoc.
Qed.

Lemma scan_counter before spec after count w w' :
  parse_counter_placeholder (spec ++ after) w = (Some after, w') →
  scan_from before ("%" :: spec ++ after) count w None
  = scan_from before after count w' (Some (length before)).
Proof.
  intros Hp. destruct (spec ++ after) as [|x t] eqn:Es; [done|].
  destruct (counter_first _ _ _ _ _ Hp) as [Hx _]. pose proof (parse_counter_length _ _ _ _ Hp) as Hl.
  unfold scan_from at 1. cbn [length]. remember (S (S (length t))) as n eqn:En.
  cbn [scan_placeholders find_pos].
  rewrite bool_decide_eq_true_2 by done. cbn [take drop]. rewrite app_nil_r.
  rewrite bool_decide_eq_false_2 by done. rewrite Hp. apply scan_continue. simpl in *. lia.
Qed.

Lemma scan_tokens ts before after count w pos :
  Forall token_wf ts →
  scan_from before (text ts ++ after) count w pos
  = scan_from (before ++ text ts) after (count + time_tokens ts) w pos.
Proof.
  intros Hts. revert before count. induction Hts as [|t ts Ht _ IH]; intros before count.
  - simpl. by rewrite app_nil_r, Nat.add_0_r.
  - rewrite text_cons, <- app_assoc. unfold time_tokens. destruct t as [c| |c]; cbn [token_text app List.filter is_time_token] in *.
    + rewrite scan_literal, IH by done. by rewrite <- app_assoc.
    + rewrite scan_escape, IH. by rewrite <- app_assoc.
    + rewrite scan_time, IH by done. rewrite <- app_assoc. cbn [length]. by rewrite Nat.add_succ_r.
Qed.

Lemma parse_tokens pre spec post w :
  Forall token_wf pre → Forall token_wf post →
  parse_counter_placeholder (spec ++ text post) 0 = (Some (text post), w) →
  parse_file_name_pattern (text pre ++ "%" :: spec ++ text post)
  = Ok (PatternScan (time_tokens (pre ++ post)) w (Some (length (text pre))) (text (pre ++ post))).
Proof.
  intros Hpre Hpost Hp.
  change (parse_file_name_pattern ?s) with (scan_from [] s 0 0 None).
  rewrite scan_tokens by done. cbn [app]. rewrite (scan_counter _ _ _ _ _ _ Hp).
  rewrite <- (app_nil_r (text post)) at 1. rewrite scan_tokens, scan_from_nil by done.
  by rewrite text_app, time_tokens_app.
Qed.

(** ** Generated names *)

Definition formatter_ok (fmt : str → str) (tv : ascii → str) : Prop :=
  ∀ ts, Forall token_wf ts → fmt (text ts) = render tv ts.

Lemma text_literals ds : text (TLit <$> ds) = ds.
Proof. induction ds as [|c ds IH]; [done|]. rewrite fmap_cons, text_cons, IH. done. Qed.
Lemma render_literals tv ds : render tv (TLit <$> ds) = ds.
Proof. induction ds as [|c ds IH]; [done|]. rewrite fmap_cons, render_cons, IH. done. Qed.

Lemma digits_are_literals ds : all_digits ds → Forall token_wf (TLit <$> ds).
Proof.
  intros Hd. rewrite Forall_fmap. eapply Forall_impl; [exact Hd|]. intros c Hc ->. done.
Qed.

Lemma plain_text tv ts : time_tokens ts = 0 → TPercent ∉ ts → text ts = render tv ts.
Proof.
  induction ts as [|t ts IH]; [done|]. intros H0 Hp. rewrite text_cons, render_cons.
  destruct t as [c| |c]; [|set_solver|done]. rewrite IH; [done|done|set_solver].
Qed.

Lemma generate_tokens fmt tv pre post w counter :
  Forall token_wf pre → Forall token_wf post → formatter_ok fmt tv → (0 ≤ counter)%Z →
  (0 < time_tokens (pre ++ post) ∨ TPercent ∉ pre ++ post) →
  file_name_generator fmt
    (PatternScan (time_tokens (pre ++ post)) w (Some (length (text pre))) (text (pre ++ post))) counter
  = render tv pre ++ pad_left "0" (Z.to_nat w) (dec counter) ++ render tv post.
Proof.
  intros Hpre Hpost Hfmt Hc Hkind. unfold file_name_generator, file_counter_formatter.
  cbn [counter_pos width name_pattern placeholder_count].
  rewrite text_app, take_app_length, drop_app_length.
  set (ds := pad_left "0" (Z.to_nat w) (dec counter)).
  assert (all_digits ds) as Hd by (apply pad_zero_spec, dec_spec; done).
  assert (text pre ++ ds ++ text post = text (pre ++ (TLit <$> ds) ++ post)) as ->
    by (by rewrite !text_app, text_literals).
  assert (render tv pre ++ ds ++ render tv post = render tv (pre ++ (TLit <$> ds) ++ post)) as ->
    by (by rewrite !render_app, render_literals).
  destruct (0 <? time_tokens (pre ++ post))%nat eqn:E; to_prop.
  - apply Hfmt. apply Forall_app; split; [done|]. apply Forall_app; split; [by apply digits_are_literals|done].
  - rewrite time_tokens_app in E. destruct Hkind as [Hk|Hk]; [rewrite time_tokens_app in Hk; lia|].
    apply plain_text.
    + rewrite !time_tokens_app. assert (time_tokens (TLit <$> ds) = 0) as ->; [|lia].
      clear. by induction ds.
    + intros Hin. apply Hk. apply elem_of_app in Hin as [?|Hin]; [set_solver|].
      apply elem_of_app in Hin as [Hin|?]; [|set_solver]. apply list_elem_of_fmap in Hin as (? & ? & _). done.
Qed.

Lemma generated_matches fmt tv pre spec post w counter suffix :
  Forall token_wf pre → Forall token_wf post → components_ok tv → formatter_ok fmt tv →
  parse_counter_placeholder (spec ++ text post) 0 = (Some (text post), w) →
  (0 ≤ counter < 2 ^ 32)%Z → (0 < time_tokens (pre ++ post) ∨ TPercent ∉ pre ++ post) →
  all_digits suffix → stops_digits (render tv post ++ suffix) →
  ∃ st, parse_file_name_pattern (text pre ++ "%" :: spec ++ text post) = Ok st ∧
    match_pattern (file_name_generator fmt st counter ++ suffix)
      (text pre ++ "%" :: spec ++ text post) = Ok (true, counter, true).
Proof.
  intros Hpre Hpost Htv Hfmt Hp Hc Hkind Hsuf Hstop. eexists; split; [by apply parse_tokens|].
  rewrite (generate_tokens fmt tv) by (done || lia). unfold match_pattern.
  destruct (dec_spec counter) as (Hne & Hd & Hu); [lia|].
  destruct (pad_zero_spec (Z.to_nat w) (dec counter) Hd) as (Hd' & Hu' & Hlen).
  set (ds := pad_left "0" (Z.to_nat w) (dec counter)) in *.
  assert (ds ≠ []) as Hne'.
  { intros Hnil. apply (f_equal undec) in Hnil as Hz. unfold ds, pad_left in Hnil.
    apply app_eq_nil in Hnil as [_ ?]. done. }
  pose proof (parse_counter_length _ _ _ _ Hp) as Hl. rewrite length_app in Hl.
  rewrite <- !app_assoc, length_app, match_tokens by done. cbn [length]. rewrite length_app.
  replace (S (length spec + length (text post))) with (S (S (length (text post) + (length spec - 1)))) by lia.
  rewrite (match_counter _ ds _ spec _ w) by (done || lia).
  rewrite <- (app_nil_r (text post)) at 2. rewrite match_tokens, Hu', Hu by done.
  destruct suffix as [|x suffix]; [by destruct (length spec - 1)|].
  destruct (length spec - 1); cbn [match_loop]; by rewrite scan_all_digits.
Qed.
End patterns.

(** * Theorems *)

(** Parsing a file name pattern always terminates with a generator, and
    matching a file name against a pattern always terminates, with a result
    or with the [std::invalid_argument] of an unsupported placeholder. *)
Theorem patterns_total {extract : ExtractUint} (frac : Z) (file_name pattern : str) :
  (∃ st, parse_file_name_pattern pattern = Ok st) ∧
  ((∃ r, match_pattern frac file_name pattern = Ok r) ∨
   (∃ e, match_pattern frac file_name pattern = Throw e)).
Proof.
  split.
  - apply parse_total.
  - pose proof (match_loop_total frac (length pattern) file_name pattern false 0 false ltac:(lia)) as H.
    unfold match_pattern. destruct (match_loop _ _ _ _ _ _ _); eauto. done.
Qed.

(** Scanning recognizes what the backend generates. Whatever counter is
    used, the file name generated for a pattern with a counter placeholder
    matches the pattern and gives the counter back, also after the collector
    has appended its own number to avoid a name clash; date and time
    placeholders may occur, and escaped percent characters when there is a
    date or time placeholder. The text after the counter must not begin with
    a digit. *)
Theorem generated_name_recognized {extract : ExtractUint} (frac : Z) (fmt : str → str) (tv : ascii → str)
    (pre : list token) (spec : str) (post : list token) (w counter : Z) (suffix : str) :
  Forall token_wf pre → Forall token_wf post → components_ok frac tv → formatter_ok fmt tv →
  parse_counter_placeholder (spec ++ text post) 0 = (Some (text post), w) →
  (0 ≤ counter < 2 ^ 32)%Z → (0 < time_tokens (pre ++ post) ∨ TPercent ∉ pre ++ post) →
  all_digits suffix → stops_digits (render tv post ++ suffix) →
  ∃ st, parse_file_name_pattern (text pre ++ "%" :: spec ++ text post) = Ok st ∧
    match_pattern frac (file_name_generator fmt st counter ++ suffix)
      (text pre ++ "%" :: spec ++ text post) = Ok (true, counter, true).
Proof. apply generated_matches. Qed.

Module sample.
(** Time components printed as zeros of the right width. *)
Definition zero_time (c : ascii) : str := replicate (Z.to_nat (time_width 6 c)) "0".

Fixpoint zero_format (s : str) : str :=
  match s with
  | "%" :: t => match t with
                | "%" :: r => "%" :: zero_format r
                | c :: r => zero_time c ++ zero_format r
                | [] => ["%"]
                end
  | c :: t => c :: zero_format t
  | [] => []
  end.

Lemma zero_time_ok : components_ok 6 zero_time.
Proof.
  intros c Hc. unfold zero_time. assert (0 < time_width 6 c)%Z as Hw.
  { unfold time_width. destruct (is_two_digits c); [lia|]. case_bool_decide; lia. }
  split_and!.
  - by apply Forall_replicate.
  - destruct (Z.to_nat (time_width 6 c)) eqn:E; [lia|done].
  - rewrite length_replicate. lia.
Qed.

Lemma zero_format_ok : formatter_ok zero_format zero_time.
Proof.
  intros ts Hts. induction Hts as [|t ts Ht _ IH]; [done|].
  rewrite text_cons, render_cons. destruct t as [c| |c]; simpl in *; rewrite <- IH; [|done|].
  - change (zero_format (c :: text ts) = c :: zero_format (text ts)).
    destruct c as [[] [] [] [] [] [] [] []]; done.
  - change (zero_format ("%" :: c :: text ts) = zero_time c ++ zero_format (text ts)).
    destruct c as [[] [] [] [] [] [] [] []]; done.
Qed.

Lemma generated_name_recognized_witness :
  let pre := [TLit "l"; TTime "Y"; TPercent] in
  let post := [TLit "."; TTime "d"] in
  ∃ st, parse_file_name_pattern (extract := spirit_extract) (str_lit "l%Y%%%05N.%d") = Ok st ∧
    file_name_generator zero_format st 42 = str_lit "l0000%00042.00" ∧
    match_pattern (extract := spirit_extract) 6 (str_lit "l0000%00042.0000007") (str_lit "l%Y%%%05N.%d")
      = Ok (true, 42%Z, true).
Proof.
  destruct (generated_name_recognized (extract := spirit_extract) 6 zero_format zero_time
    [TLit "l"; TTime "Y"; TPercent] (str_lit "05N") [TLit "."; TTime "d"] 5 42 (str_lit "00007"))
    as (st & Hst & Hm).
  - repeat constructor. discriminate.
  - repeat constructor. discriminate.
  - apply zero_time_ok.
  - apply zero_format_ok.
  - reflexivity.
  - lia.
  - left. vm_compute. lia.
  - repeat constructor.
  - reflexivity.
  - exists st. split; [exact Hst|]. vm_compute in Hst. injection Hst as <-.
    split; [reflexivity|]. exact Hm.
Defined.

(** A pattern with an escaped percent character and a counter but no date
    or time placeholder: the generated name keeps both percent characters, so
    scanning does not recognize it. *)
Theorem escaped_percent_not_recognized :
  ∃ st, parse_file_name_pattern (extract := spirit_extract) (str_lit "a%%b_%N.log") = Ok st ∧
    file_name_generator zero_format st 5 = str_lit "a%%b_5.log" ∧
    match_pattern (extract := spirit_extract) 6 (str_lit "a%%b_5.log") (str_lit "a%%b_%N.log")
      = Ok (false, 0%Z, false).
Proof. eexists. split; [reflexivity|]. split; reflexivity. Qed.
End sample.
