(* ===== verification/FileCollector.v ===== *)
(** The file collector (src/src/text_file_backend.cpp, [file_collector] and
    [file_collector_repository]): the storage of rotated log files and its
    limits on total size, free space and number of files. *)

From Stdlib Require Import ZArith Ascii String.
From stdpp Require Import base numbers sets sorting list.
From S2P Require Import Prelude Decimal FileNamePattern.
Local Open Scope Z_scope.

(** * The file system

    What the code uses of Boost.Filesystem, as operations on a file system
    state: the throwing overloads return through [sm], the overloads with an
    [error_code] return [None] on an error. Path operations do not look at the
    file system. *)

Inductive file_type : Type := regular_file | directory_file | other_file | status_error.

Inductive rename_result : Type := rename_ok | rename_cross_device | rename_failed.

#[export] Instance file_type_eq_dec : EqDecision file_type.
Proof. solve_decision. Defined.

Class FileSystem (FS P : Type) := {
  empty_path : P;
  filename : P → str;
  parent_path : P → P;
  has_parent_path : P → bool;
  append : P → str → P;
  absolute : P → P → P;
  last_write_time : P → sm FS Z;
  file_size : P → sm FS Z;
  file_size_ec : P → FS → option Z;
  status : P → FS → file_type;
  file_exists : P → sm FS bool;
  remove : P → sm FS unit;
  space_available : P → sm FS Z;
  equivalent : P → P → sm FS bool;
  equivalent_ec : P → P → FS → option bool;
  system_complete : P → sm FS P;
  system_complete_ec : P → FS → option P;
  create_directories : P → sm FS unit;
  rename_file : P → P → FS → rename_result * FS;
  copy_file : P → P → sm FS unit;
  directory_entries : P → sm FS (list P) }.

(** No operation of the file system has undefined behaviour. *)
Class FileSystemSafe (FS P : Type) `{!FileSystem FS P} := {
  last_write_time_safe : ∀ p w, (last_write_time p w).1 ≠ Stuck;
  file_size_safe : ∀ p w, (file_size p w).1 ≠ Stuck;
  file_exists_safe : ∀ p w, (file_exists p w).1 ≠ Stuck;
  remove_safe : ∀ p w, (remove p w).1 ≠ Stuck;
  space_available_safe : ∀ p w, (space_available p w).1 ≠ Stuck;
  equivalent_safe : ∀ p q w, (equivalent p q w).1 ≠ Stuck;
  system_complete_safe : ∀ p w, (system_complete p w).1 ≠ Stuck;
  create_directories_safe : ∀ p w, (create_directories p w).1 ≠ Stuck;
  copy_file_safe : ∀ p q w, (copy_file p q w).1 ≠ Stuck;
  directory_entries_safe : ∀ p w, (directory_entries p w).1 ≠ Stuck }.

(** * State *)

Record file_info (P : Type) := FileInfo {
  m_Size : Z;
  m_TimeStamp : Z;
  m_Path : P }.
Arguments FileInfo {P}.
Arguments m_Size {P} _.
Arguments m_TimeStamp {P} _.
Arguments m_Path {P} _.

Record file_collector (P : Type) := FileCollector {
  m_MaxSize : Z;
  m_MinFreeSpace : Z;
  m_MaxFiles : Z;
  m_BasePath : P;
  m_StorageDir : P;
  m_Files : list (file_info P);
  m_TotalSize : Z }.
Arguments FileCollector {P}.
Arguments m_MaxSize {P} _.
Arguments m_MinFreeSpace {P} _.
Arguments m_MaxFiles {P} _.
Arguments m_BasePath {P} _.
Arguments m_StorageDir {P} _.
Arguments m_Files {P} _.
Arguments m_TotalSize {P} _.

Inductive scan_method : Type := no_scan | scan_matching | scan_all.
#[export] Instance scan_method_eq_dec : EqDecision scan_method.
Proof. solve_decision. Defined.

Record scan_result := ScanResult {
  found_count : Z;
  last_file_counter : option Z }.

Section operations.
Context {FS P : Type} `{!FileSystem FS P} {extract : ExtractUint}.
Context (num_fractional_digits : Z).
Abbreviation collector := (file_collector P).
Abbreviation M := (sm (collector * FS)).
Implicit Types (c : collector) (w : FS) (p : P) (info : file_info P).

(** Runs a file system operation. *)
Definition in_fs {X} (m : sm FS X) : M X := λ '(c, w),
  let '(r, w') := m w in (r, (c, w')).

Definition set_files c (files : list (file_info P)) (total : Z) : collector :=
  FileCollector (m_MaxSize c) (m_MinFreeSpace c) (m_MaxFiles c) (m_BasePath c) (m_StorageDir c) files total.

Definition make_absolute c p : P := absolute p (m_BasePath c).

(** The constructor, with [filesystem::current_path()] as an argument. *)
Definition create_collector (current_path target_dir : P) (max_size min_free_space max_files : Z)
    : sm FS collector :=
  let dir := absolute target_dir current_path in
  _ ← create_directories dir;
  mret (FileCollector max_size min_free_space max_files current_path dir [] 0).

(** [move_file]: renames, or copies and removes across devices. *)
Definition move_file (from to : P) : sm FS unit := λ w,
  match rename_file from to w with
  | (rename_ok, w) => (Ok (), w)
  | (rename_cross_device, w) => (copy_file from to ≫= λ _, remove from) w
  | (rename_failed, w) => (Throw ex_filesystem_error, w)
  end.

(** One iteration of the search for an unused name: [file_name] followed by
    the counter [n] with at least five digits. *)
Definition mangle_step (dir : P) (file_name : str) (n : Z) : sm FS (Z + P) :=
  let p := append dir (file_counter_formatter (length file_name) 5 file_name n) in
  taken ← file_exists p;
  if negb taken then mret (inr p)
  else if n =? u32_max then sm_throw ex_filesystem_error
  else mret (inl (n + 1)).

(** Where the file goes: to the storage under its own name when the name is
    not in use. The counter has 32 bits. *)
Definition target_path (dir : P) (file_name : str) : sm FS P :=
  let p := append dir file_name in
  taken ← file_exists p;
  if taken : bool then sm_while 32 (mangle_step dir file_name) 0 else mret p.

(** The loop that forgets the entry of the file that is being stored. *)
Fixpoint forget_entry (p : P) (w : FS) (kept files : list (file_info P)) (total : Z)
    : list (file_info P) * Z :=
  match files with
  | [] => (kept, total)
  | info :: rest =>
      match equivalent_ec (m_Path info) p w with
      | Some true => (kept ++ rest, u64 (total - m_Size info))
      | _ => forget_entry p w (kept ++ [info]) rest total
      end
  end.

Definition forget_stored (p : P) (w : FS) c : collector :=
  let '(files, total) := forget_entry p w [] (m_Files c) (m_TotalSize c) in
  set_files c files total.

Definition over_limit c (new_size free_space : Z) : bool :=
  (m_MaxSize c <? u64 (m_TotalSize c + new_size))
  || (negb (m_MinFreeSpace c =? 0) && (free_space <? m_MinFreeSpace c))
  || (m_MaxFiles c <=? Z.of_nat (length (m_Files c))).

(** [catch (system::system_error&)]. *)
Definition catch_system_error {X} (m : sm FS X) : sm FS (option X) := λ w,
  match m w with
  | (Ok x, w) => (Ok (Some x), w)
  | (Throw e, w) => if decide (e = ex_filesystem_error) then (Ok None, w) else (Throw e, w)
  | (Stuck, w) => (Stuck, w)
  end.

(** The loop that erases old files; [m_Files] is [kept ++ rest] and [it] is at
    the first element of [rest]. *)
Fixpoint erase_old (kept rest : list (file_info P)) (new_size free_space : Z) : M unit :=
  match rest with
  | [] => mret ()
  | old :: rest' =>
      '(c, w) ← sm_get;
      if over_limit c new_size free_space then
        let erased := set_files c (kept ++ rest') (u64 (m_TotalSize c - m_Size old)) in
        if decide (status (m_Path old) w = regular_file) then
          r ← in_fs (catch_system_error
            (_ ← remove (m_Path old);
             if m_MinFreeSpace c =? 0 then mret free_space else space_available (m_StorageDir c)));
          match r with
          | Some free_space =>
              _ ← sm_modify (λ '(_, w), (erased, w));
              erase_old kept rest' new_size free_space
          | None => erase_old (kept ++ [old]) rest' new_size free_space
          end
        else
          _ ← sm_put (erased, w);
          erase_old kept rest' new_size free_space
      else mret ()
  end.

(** The directory of the file, the name it gets in the storage and the free
    space, which is only queried when there is a limit. *)
Definition source_dir c (src_path : P) : sm FS P :=
  if has_parent_path src_path then system_complete (parent_path src_path) else mret (m_BasePath c).

Definition destination c (in_target_dir : bool) (name : str) : sm FS P :=
  if in_target_dir then mret (append (m_StorageDir c) name)
  else p ← target_path (m_StorageDir c) name;
       _ ← create_directories (m_StorageDir c);
       mret p.

Definition query_free_space c : sm FS Z :=
  if m_MinFreeSpace c =? 0 then mret 0 else space_available (m_StorageDir c).

Definition place_file (in_target_dir : bool) (src_path path : P) : sm FS unit :=
  if in_target_dir then mret () else move_file src_path path.

Definition store_file (src_path : P) : M unit :=
  '(c, _) ← sm_get;
  stamp ← in_fs (last_write_time src_path);
  size ← in_fs (file_size src_path);
  dir ← in_fs (source_dir c src_path);
  in_target_dir ← in_fs (equivalent dir (m_StorageDir c));
  path ← in_fs (destination c in_target_dir (filename src_path));
  _ ← sm_modify (λ '(c, w), ((if in_target_dir : bool then forget_stored path w c else c), w));
  free_space ← in_fs (query_free_space c);
  '(c, _) ← sm_get;
  _ ← erase_old [] (m_Files c) size free_space;
  _ ← in_fs (place_file in_target_dir src_path path);
  sm_modify (λ '(c, w),
    (set_files c (m_Files c ++ [FileInfo size stamp path]) (u64 (m_TotalSize c + size)), w)).

(** [is_in_storage]. *)
Definition is_in_storage c (src_path : P) w : bool :=
  let name := filename src_path in
  let trg_path := append (m_StorageDir c) name in
  let src_dir := if has_parent_path src_path then system_complete_ec (parent_path src_path) w
                 else Some (m_BasePath c) in
  match src_dir with
  | None => false
  | Some dir =>
      if decide (status trg_path w = regular_file) then
        match equivalent_ec (append dir name) trg_path w with Some b => b | None => false end
      else false
  end.

(** ** Scanning *)

(** [std::find_if(m_Files.begin(), m_Files.end(), equivalent_file(path))]. *)
Fixpoint known_file (files : list (file_info P)) (p : P) : sm FS bool :=
  match files with
  | [] => mret false
  | info :: rest =>
      same ← equivalent (m_Path info) p;
      if same : bool then mret true else known_file rest p
  end.

(** [file_number >= last_file_counter] accounting for the overflow. *)
Definition counter_not_older (last : option Z) (number : Z) : bool :=
  match last with
  | None => true
  | Some l => u32 (number - l) <? 2 ^ 31
  end.

Definition update_counter (last : option Z) (parsed : bool) (number : Z) : option Z :=
  if parsed && counter_not_older last number then Some number else last.

(** The loop over the directory: the files found, their total size and the
    result so far. *)
Fixpoint scan_directory (stored : list (file_info P)) (mask : option str) (entries : list P)
    (files : list (file_info P)) (total : Z) (result : scan_result)
    : sm FS (list (file_info P) * Z * scan_result) :=
  match entries with
  | [] => mret (files, total, result)
  | p :: rest =>
      w ← sm_get;
      if decide (status p w = regular_file) then
        known ← known_file stored p;
        if known : bool then scan_directory stored mask rest files total result
        else
          '(matched, number, parsed) ← sm_lift
            (match mask with
             | None => Ok (true, 0, false)
             | Some mask => match_pattern num_fractional_digits (filename p) mask
             end);
          if matched : bool then
            size ← file_size p;
            stamp ← last_write_time p;
            scan_directory stored mask rest (files ++ [FileInfo size stamp p]) (u64 (total + size))
              (ScanResult (found_count result + 1)
                 (update_counter (last_file_counter result) parsed number))
          else scan_directory stored mask rest files total result
      else scan_directory stored mask rest files total result
  end.

(** [std::list::sort] with [order_by_timestamp], a stable sort. *)
Fixpoint insert_by_time info (l : list (file_info P)) : list (file_info P) :=
  match l with
  | [] => [info]
  | x :: t => if m_TimeStamp x <? m_TimeStamp info then x :: insert_by_time info t else info :: l
  end.
Definition sort_by_time (l : list (file_info P)) : list (file_info P) :=
  foldr insert_by_time [] l.

Definition scan_for_files (method : scan_method) (pattern : P) : M scan_result :=
  if decide (method = no_scan) then mret (ScanResult 0 None) else
  '(c, w) ← sm_get;
  let dir := if decide (method = scan_matching) then
               if has_parent_path pattern then make_absolute c (parent_path pattern) else m_StorageDir c
             else m_StorageDir c in
  let mask := if decide (method = scan_matching) then Some (filename pattern) else None in
  if decide (status dir w = directory_file) then
    entries ← in_fs (directory_entries dir);
    '(files, total, result) ← in_fs (scan_directory (m_Files c) mask entries [] 0 (ScanResult 0 None));
    _ ← sm_modify (λ '(c, w),
      (set_files c (sort_by_time (m_Files c ++ files)) (u64 (m_TotalSize c + total)), w));
    mret result
  else mret (ScanResult 0 None).

(** [update]. *)
Definition update_limits (max_size min_free_space max_files : Z) c : collector :=
  FileCollector (Z.min (m_MaxSize c) max_size) (Z.max (m_MinFreeSpace c) min_free_space)
    (Z.min (m_MaxFiles c) max_files) (m_BasePath c) (m_StorageDir c) (m_Files c) (m_TotalSize c).

(** ** The repository of collectors

    A collector is shared by the sinks; [m_alive] tells whether
    [shared_from_this] succeeds, that is whether it is not being destroyed. *)
Record repository_entry := RepositoryEntry {
  m_Id : nat;
  m_alive : bool;
  m_Collector : collector }.

(** [std::find_if] over the collectors with [is_governed]. *)
Fixpoint find_governing (dir : P) (i : nat) (l : list repository_entry) : sm FS (option nat) :=
  match l with
  | [] => mret None
  | r :: rest =>
      same ← equivalent (m_StorageDir (m_Collector r)) dir;
      if same : bool then mret (Some i) else find_governing dir (S i) rest
  end.

(** [get_collector]: the index of the collector in the list. *)
Definition get_collector (new_id : nat) (current_path target_dir : P)
    (max_size min_free_space max_files : Z)
    : sm (list repository_entry * FS) nat := λ '(l, w),
  match find_governing target_dir 0 l w with
  | (Throw e, w) => (Throw e, (l, w))
  | (Stuck, w) => (Stuck, (l, w))
  | (Ok found, w) =>
      let existing := i ← found; r ← l !! i; if m_alive r then Some (i, r) else None in
      match existing with
      | Some (i, r) =>
          let c := update_limits max_size min_free_space max_files (m_Collector r) in
          (Ok i, (<[i := RepositoryEntry (m_Id r) true c]> l, w))
      | None =>
          match create_collector current_path target_dir max_size min_free_space max_files w with
          | (Ok c, w) => (Ok (length l), (l ++ [RepositoryEntry new_id true c], w))
          | (Throw e, w) => (Throw e, (l, w))
          | (Stuck, w) => (Stuck, (l, w))
          end
      end
  end.

(** [remove_collector]. *)
Definition remove_collector (id : nat) (l : list repository_entry) : list repository_entry :=
  filter (λ r, m_Id r ≠ id) l.
End operations.

(** * Accounting and limits *)

Section correctness.
Context {FS P : Type} `{!FileSystem FS P} `{!FileSystemSafe FS P} {extract : ExtractUint}.
Abbreviation collector := (file_collector P).
Implicit Types (c : collector) (w : FS) (p : P) (info : file_info P) (files : list (file_info P)).

Definition total_size files : Z := foldr (λ info s, m_Size info + s) 0 files.

Lemma total_size_app l1 l2 : total_size (l1 ++ l2) = total_size l1 + total_size l2.
Proof. induction l1 as [|x l1 IH]; simpl; [done|]. rewrite IH. lia. Qed.

(** [m_TotalSize] is the total size of the stored files, modulo the width of
    [uintmax_t]. *)
Definition accounted c : Prop := m_TotalSize c = u64 (total_size (m_Files c)).

Definition same_config c c' : Prop :=
  m_MaxSize c' = m_MaxSize c ∧ m_MinFreeSpace c' = m_MinFreeSpace c ∧ m_MaxFiles c' = m_MaxFiles c ∧
  m_BasePath c' = m_BasePath c ∧ m_StorageDir c' = m_StorageDir c.

Lemma same_config_trans c1 c2 c3 : same_config c1 c2 → same_config c2 c3 → same_config c1 c3.
Proof. unfold same_config. intuition congruence. Qed.

(** Removing one entry and its size. *)
Lemma accounted_erase c l1 info l2 :
  accounted c → m_Files c = l1 ++ info :: l2 →
  accounted (set_files c (l1 ++ l2) (u64 (m_TotalSize c - m_Size info))).
Proof.
  unfold accounted. intros -> ->. simpl. rewrite u64_sub_l, !total_size_app. f_equal. simpl. lia.
Qed.

Lemma accounted_add c info :
  accounted c → accounted (set_files c (m_Files c ++ [info]) (u64 (m_TotalSize c + m_Size info))).
Proof.
  unfold accounted. intros ->. simpl. rewrite u64_add_l, total_size_app. f_equal. simpl. lia.
Qed.

(** Storing a file of [size] bytes beside [files] would exceed the limits. *)
Definition over c files (size free : Z) : bool :=
  over_limit (set_files c files (u64 (total_size files))) size free.

Lemma over_accounted c0 c size free :
  accounted c → same_config c0 c → over c0 (m_Files c) size free = over_limit c size free.
Proof.
  intros Ha (H1 & H2 & H3 & _). unfold over, over_limit. simpl. by rewrite Ha, H1, H2, H3.
Qed.

(** The free space of the storage, which is asked for only when it is limited. *)
Definition measured c (free : Z) : Prop :=
  m_MinFreeSpace c = 0 ∨ ∃ w, (space_available (m_StorageDir c) w).1 = Ok free.

(** An old file that is erased, or was no longer there, and the free space
    afterwards. *)
Definition erasable c info (free free' : Z) : Prop :=
  (∃ w, status (m_Path info) w ≠ regular_file) ∧ free' = free ∨
  (∃ w, (remove (m_Path info) w).1 = Ok ()) ∧ (m_MinFreeSpace c = 0 ∧ free' = free ∨ measured c free').

(** An old file that stays: it cannot be erased, or the free space cannot be
    found out after that. *)
Definition unerasable c info : Prop :=
  ∃ w w1, status (m_Path info) w = regular_file ∧
    (remove (m_Path info) w = (Throw ex_filesystem_error, w1) ∨
     (remove (m_Path info) w).1 = Ok () ∧ (space_available (m_StorageDir c) w1).1 = Throw ex_filesystem_error).

(** The walk over the old files, from the oldest one, for a new file of [size]
    bytes: with the free space [free], the files [kept] so far and the files
    [rest] still to consider, it leaves [final] and the free space [free']. A
    file is considered only while the limits would be exceeded; it is erased
    unless that is impossible. *)
Inductive erasing c (size : Z) : Z → list (file_info P) → list (file_info P) → list (file_info P) → Z → Prop :=
| erasing_end free kept : erasing c size free kept [] kept free
| erasing_enough free kept old rest :
    over c (kept ++ old :: rest) size free = false →
    erasing c size free kept (old :: rest) (kept ++ old :: rest) free
| erasing_erased free free1 kept old rest final free' :
    over c (kept ++ old :: rest) size free = true → erasable c old free free1 →
    erasing c size free1 kept rest final free' →
    erasing c size free kept (old :: rest) final free'
| erasing_kept free kept old rest final free' :
    over c (kept ++ old :: rest) size free = true → unerasable c old →
    erasing c size free (kept ++ [old]) rest final free' →
    erasing c size free kept (old :: rest) final free'.

(** At the end the new file fits, or none of the files left can be erased. *)
Lemma erasing_limits c size free kept rest final free' :
  erasing c size free kept rest final free' → Forall (unerasable c) kept →
  over c final size free' = false ∨ Forall (unerasable c) final.
Proof.
  induction 1 as [| |free free1 kept old rest final free' Ho He H IH|free kept old rest final free' Ho He H IH];
    intros Hk; [by right|by left|auto|].
  apply IH, Forall_app. split; [done|by constructor].
Qed.

Lemma catch_system_error_safe {X} (m : sm FS X) w :
  (m w).1 ≠ Stuck → (catch_system_error m w).1 ≠ Stuck.
Proof. unfold catch_system_error. destruct (m w) as [[x|e|] w']; simpl; [done| |done]. by case_decide. Qed.

Lemma remove_and_query_safe p (b : bool) free dir w :
  ((_ ← remove p; if b then mret free else space_available dir) w : outcome Z * FS).1 ≠ Stuck.
Proof.
  rewrite sm_bind_run. pose proof (remove_safe p w). destruct (remove p w) as [[]  w1]; [|done|done].
  destruct b; [done|apply space_available_safe].
Qed.

(** One file is erased, through the file system. *)
Lemma erase_one_ok c old free w :
  status (m_Path old) w = regular_file →
  match catch_system_error (_ ← remove (m_Path old);
      if m_MinFreeSpace c =? 0 then mret free else space_available (m_StorageDir c)) w with
  | (Ok (Some free1), _) => erasable c old free free1
  | (Ok None, _) => unerasable c old
  | (Throw _, _) => True
  | (Stuck, _) => False
  end.
Proof.
  intros Hs. unfold catch_system_error, erasable, unerasable, measured. rewrite sm_bind_run.
  pose proof (remove_safe (m_Path old) w) as Hr. destruct (remove (m_Path old) w) as [[[]|e|] w1] eqn:E; [| |done].
  - destruct (m_MinFreeSpace c =? 0) eqn:Em; to_prop.
    { right. split; [exists w; by rewrite E|by left]. }
    pose proof (space_available_safe (m_StorageDir c) w1) as Hsp.
    destruct (space_available (m_StorageDir c) w1) as [[free1|e|] w2] eqn:E2; [| |done].
    + right. split; [exists w; by rewrite E|]. right. right. exists w1. by rewrite E2.
    + case_decide as He; [|done]. subst e. exists w, w1. rewrite E. split; [done|]. right. by rewrite E2.
  - case_decide as He; [|done]. subst e. exists w, w1. rewrite E. by split; [|left].
Qed.

Lemma erase_old_ok c0 kept rest size free c w :
  accounted c → same_config c0 c → m_Files c = kept ++ rest →
  match erase_old kept rest size free (c, w) with
  | (Ok _, (c', _)) => accounted c' ∧ same_config c0 c' ∧
      ∃ free', erasing c0 size free kept rest (m_Files c') free'
  | (Throw _, (c', _)) => accounted c' ∧ same_config c0 c'
  | (Stuck, _) => False
  end.
Proof.
  revert kept free c w. induction rest as [|old rest IH]; intros kept free c w Ha Hcfg Hf.
  - split_and!; [done|done|]. exists free. rewrite Hf, app_nil_r. constructor.
  - pose proof (over_accounted c0 c size free Ha Hcfg) as Ho. rewrite Hf in Ho.
    assert (∀ w' free1, over_limit c size free = true → erasable c0 old free free1 →
      match erase_old kept rest size free1 (set_files c (kept ++ rest) (u64 (m_TotalSize c - m_Size old)), w') with
      | (Ok _, (c', _)) => accounted c' ∧ same_config c0 c' ∧
          ∃ free', erasing c0 size free kept (old :: rest) (m_Files c') free'
      | (Throw _, (c', _)) => accounted c' ∧ same_config c0 c'
      | (Stuck, _) => False end) as Hdrop.
    { intros w' free1 Hl He. pose proof (IH kept free1 _ w' (accounted_erase c _ _ _ Ha Hf) Hcfg eq_refl) as H.
      destruct (erase_old kept rest size free1 _) as [[]  [c2 w2]]; [|done|done].
      destruct H as (? & ? & free' & H). split_and!; [done..|]. exists free'.
      eapply erasing_erased; [by rewrite Ho|done|done]. }
    cbn [erase_old]. unfold sm_get. rewrite sm_bind_run. destruct (over_limit c size free) eqn:El.
    + case_decide as Hs.
      * rewrite sm_bind_run. unfold in_fs at 1. destruct Hcfg as (Hc1 & Hc2 & Hc3 & Hc4 & Hc5).
        pose proof (erase_one_ok c0 old free w Hs) as Hc. rewrite <- Hc2, <- Hc5 in Hc.
        destruct (catch_system_error _ w) as [[[free1|]|e|] w1]; [| |done|done].
        -- rewrite sm_bind_run. unfold sm_modify. by apply Hdrop.
        -- pose proof (IH (kept ++ [old]) free c w1 Ha) as H. rewrite <- app_assoc in H.
           specialize (H ltac:(done) Hf).
           destruct (erase_old (kept ++ [old]) rest size free (c, w1)) as [[]  [c2 w2]]; [|done|done].
           destruct H as (? & ? & free' & H). split_and!; [done..|]. exists free'. by eapply erasing_kept; [rewrite Ho| |].
      * rewrite sm_bind_run. unfold sm_put. apply Hdrop; [done|]. left. split; [by exists w|done].
    + split_and!; [done|done|]. exists free. rewrite Hf. apply erasing_enough. by rewrite Ho.
Qed.

(** The known files, without the entry of the file [p] itself, if it has one. *)
Definition forgotten p (files known : list (file_info P)) : Prop :=
  known = files ∨ ∃ l1 x l2 w, files = l1 ++ x :: l2 ∧ known = l1 ++ l2 ∧ equivalent_ec (m_Path x) p w = Some true.

Lemma forget_entry_ok p w kept files total l t :
  total = u64 (total_size (kept ++ files)) → forget_entry p w kept files total = (l, t) →
  t = u64 (total_size l) ∧ forgotten p (kept ++ files) l.
Proof.
  revert kept total. induction files as [|info rest IH]; intros kept total Ht; simpl.
  - intros [= <- <-]. rewrite app_nil_r in *. by split; [|left].
  - assert (forget_entry p w (kept ++ [info]) rest total = (l, t) →
      t = u64 (total_size l) ∧ forgotten p (kept ++ info :: rest) l) as Hnext.
    { intros Hl. replace (kept ++ info :: rest) with ((kept ++ [info]) ++ rest) by (by simplify_list_eq).
      apply (IH (kept ++ [info]) total); [|done]. rewrite Ht. by simplify_list_eq. }
    destruct (equivalent_ec (m_Path info) p w) as [[]|] eqn:Eq; [|done..].
    intros [= <- <-]. split; [|right; by exists kept, info, rest, w].
    rewrite Ht, u64_sub_l, !total_size_app. f_equal. simpl. lia.
Qed.

(** The name chosen for a file was not in use when it was tested. *)
Definition was_free p : Prop := ∃ w w', file_exists p w = (Ok false, w').

Lemma target_path_ok dir name w :
  match target_path dir name w with
  | (Ok p, _) => was_free p
  | (Throw _, _) => True
  | (Stuck, _) => False
  end.
Proof.
  unfold target_path. rewrite sm_bind_run. pose proof (file_exists_safe (append dir name) w) as Hs.
  destruct (file_exists (append dir name) w) as [[[]|e|] w1] eqn:E; [|by exists w, w1|done|done].
  apply (sm_while_rule (λ n _, 0 ≤ n ≤ u32_max) (λ n _, u32_max - n)); [|done|unfold u32_max; lia].
  intros n σ Hn. unfold mangle_step. rewrite sm_bind_run.
  set (p := append dir _). pose proof (file_exists_safe p σ) as Hsp.
  destruct (file_exists p σ) as [[[]|e'|] σ1] eqn:Ep; [|by exists σ, σ1|done|done].
  simpl. destruct (n =? u32_max) eqn:En; [done|]. to_prop. simpl. lia.
Qed.

Lemma move_file_safe from to w : (move_file from to w).1 ≠ Stuck.
Proof.
  unfold move_file. destruct (rename_file from to w) as [[]  w1]; [done| |done].
  rewrite sm_bind_run. pose proof (copy_file_safe from to w1).
  destruct (copy_file from to w1) as [[]  w2]; [apply remove_safe|done|done].
Qed.

(** The state after a successful [store_file]: the new file is last, the files
    before it are what the walk left of the known ones. *)
Definition store_post (src_path : P) c c' : Prop :=
  accounted c' ∧ same_config c c' ∧
  ∃ info known old free free', m_Files c' = old ++ [info] ∧
    (∃ w, (file_size src_path w).1 = Ok (m_Size info)) ∧
    forgotten (m_Path info) (m_Files c) known ∧ measured c free ∧
    erasing c (m_Size info) free [] known old free'.

(** Steps over a file system operation that leaves the collector alone. *)
Ltac fs_step m safe x w :=
  rewrite sm_bind_run; unfold in_fs at 1; pose proof safe;
  destruct m as [[x|?|] w]; [|done|done].

Lemma source_dir_safe c (src_path : P) w : (source_dir c src_path w).1 ≠ Stuck.
Proof. unfold source_dir. destruct (has_parent_path src_path); [apply system_complete_safe|done]. Qed.

Lemma destination_safe c (b : bool) name w : (destination c b name w).1 ≠ Stuck.
Proof.
  unfold destination. destruct b; [done|]. rewrite sm_bind_run.
  pose proof (target_path_ok (m_StorageDir c) name w) as Ht.
  destruct (target_path (m_StorageDir c) name w) as [[p|e|] w1]; [|done|done]. rewrite sm_bind_run.
  pose proof (create_directories_safe (m_StorageDir c) w1).
  by destruct (create_directories (m_StorageDir c) w1) as [[]  w2].
Qed.

Lemma query_free_space_safe c w : (query_free_space c w).1 ≠ Stuck.
Proof. unfold query_free_space. destruct (m_MinFreeSpace c =? 0); [done|apply space_available_safe]. Qed.

Lemma place_file_safe b src_path path w : (place_file b src_path path w).1 ≠ Stuck.
Proof. unfold place_file. destruct b; [done|apply move_file_safe]. Qed.

Lemma forget_stored_ok p w c :
  accounted c → accounted (forget_stored p w c) ∧ same_config c (forget_stored p w c) ∧
  forgotten p (m_Files c) (m_Files (forget_stored p w c)).
Proof.
  intros Ha. unfold forget_stored. destruct (forget_entry p w [] (m_Files c) (m_TotalSize c)) as [l t] eqn:E.
  destruct (forget_entry_ok p w [] (m_Files c) (m_TotalSize c) l t Ha E) as [-> Hl]. by split_and!.
Qed.

Lemma query_free_space_measured c w free w' : query_free_space c w = (Ok free, w') → measured c free.
Proof.
  unfold query_free_space, measured. destruct (m_MinFreeSpace c =? 0) eqn:E; to_prop; [by left|].
  intros H. right. exists w. by rewrite H.
Qed.

Lemma store_file_ok src_path c w :
  accounted c →
  match store_file src_path (c, w) with
  | (Ok _, (c', _)) => store_post src_path c c'
  | (Throw _, (c', _)) => accounted c' ∧ same_config c c'
  | (Stuck, _) => False
  end.
Proof.
  intros Ha. unfold store_file, sm_get. rewrite sm_bind_run.
  fs_step (last_write_time src_path w) (last_write_time_safe src_path w) stamp w0.
  rewrite sm_bind_run. unfold in_fs at 1. pose proof (file_size_safe src_path w0).
  destruct (file_size src_path w0) as [[sz|?|] w1] eqn:Esz; [|done|done].
  fs_step (source_dir c src_path w1) (source_dir_safe c src_path w1) dir w2.
  fs_step (equivalent dir (m_StorageDir c) w2) (equivalent_safe dir (m_StorageDir c) w2) local_ w3.
  fs_step (destination c local_ (filename src_path) w3) (destination_safe c local_ (filename src_path) w3) path w4.
  rewrite sm_bind_run. unfold sm_modify at 1.
  set (c1 := if local_ then forget_stored path w4 c else c).
  assert (accounted c1 ∧ same_config c c1 ∧ forgotten path (m_Files c) (m_Files c1)) as (Ha1 & Hs1 & Hsub)
    by (unfold c1; destruct local_; [by apply forget_stored_ok|by split_and!; [..|left]]).
  rewrite sm_bind_run. unfold in_fs at 1. pose proof (query_free_space_safe c w4) as Hfree.
  destruct (query_free_space c w4) as [[free|e|] w5] eqn:Efree; [|by split|done].
  rewrite sm_bind_run, sm_bind_run.
  pose proof (erase_old_ok c [] (m_Files c1) sz free c1 w5 Ha1 Hs1 eq_refl) as He.
  destruct (erase_old [] (m_Files c1) sz free (c1, w5)) as [[]  [c2 w6]]; [|done|done].
  destruct He as (Ha2 & Hs2 & free' & He).
  rewrite sm_bind_run. unfold in_fs. pose proof (place_file_safe local_ src_path path w6) as Hmove.
  destruct (place_file local_ src_path path w6) as [[]  w7]; [|by split|done].
  unfold sm_modify. split_and!; [by apply (accounted_add c2 (FileInfo sz stamp path))|done|].
  exists (FileInfo sz stamp path), (m_Files c1), (m_Files c2), free, free'.
  split_and!; [done|exists w0; by rewrite Esz|done|by eapply query_free_space_measured|done].
Qed.

(** ** Scanning *)

(** The newest counter of the files found so far. *)
Definition newest (found : list (option Z)) (start : option Z) : option Z :=
  foldl (λ last o, match o with Some n => update_counter last true n | None => last end) start found.

(** A file found by a scan with [mask] and the counter its name has. *)
Definition found_by (frac : Z) (mask : option str) (x : file_info P * option Z) : Prop :=
  match mask with
  | None => x.2 = None
  | Some m => ∃ n parsed, match_pattern frac (filename (m_Path x.1)) m = Ok (true, n, parsed) ∧
      x.2 = if parsed : bool then Some n else None
  end.

Lemma known_file_safe files p w : (known_file files p w).1 ≠ Stuck.
Proof.
  revert w. induction files as [|info rest IH]; intros w; [done|]. cbn [known_file]. rewrite sm_bind_run.
  pose proof (equivalent_safe (m_Path info) p w).
  destruct (equivalent (m_Path info) p w) as [[[]|e|] w1]; [done|apply IH|done|done].
Qed.

Lemma match_pattern_safe frac name mask : match_pattern frac name mask ≠ Stuck.
Proof.
  pose proof (match_loop_total frac (length mask) name mask false 0 false ltac:(lia)) as H.
  unfold match_pattern. by intros E; rewrite E in H.
Qed.

Lemma scan_directory_ok frac stored mask entries files total result w :
  total = u64 (total_size files) →
  match scan_directory frac stored mask entries files total result w with
  | (Ok (files', total', result'), _) => ∃ found, files' = files ++ found.*1 ∧
      total' = u64 (total_size files') ∧
      found_count result' = found_count result + Z.of_nat (length found) ∧
      last_file_counter result' = newest (found.*2) (last_file_counter result) ∧
      Forall (found_by frac mask) found
  | (Throw _, _) => True
  | (Stuck, _) => False
  end.
Proof.
  revert files total result w. induction entries as [|p rest IH]; intros files total result w Ht.
  - exists []. split_and!; [by rewrite app_nil_r|done|simpl; lia|done|constructor].
  - cbn [scan_directory]. unfold sm_get, sm_lift. rewrite sm_bind_run.
    case_decide; [|by apply IH]. rewrite sm_bind_run. pose proof (known_file_safe stored p w).
    destruct (known_file stored p w) as [[[]|e|] w1]; [by apply IH| |done|done]. rewrite sm_bind_run.
    set (r := match mask with None => _ | Some _ => _ end).
    assert (r ≠ Stuck) as Hr by (unfold r; destruct mask; [apply match_pattern_safe|done]).
    destruct r as [[[matched number] parsed]|e|] eqn:Er; [|done|done].
    destruct matched; [|by apply IH]. rewrite sm_bind_run. pose proof (file_size_safe p w1).
    destruct (file_size p w1) as [[size|e|] w2]; [|done|done]. rewrite sm_bind_run.
    pose proof (last_write_time_safe p w2). destruct (last_write_time p w2) as [[stamp|e|] w3]; [|done|done].
    set (info := FileInfo size stamp p).
    specialize (IH (files ++ [info]) (u64 (total + size)) (ScanResult (found_count result + 1)
       (update_counter (last_file_counter result) parsed number)) w3).
    destruct (scan_directory _ _ _ _ _ _ _ _) as [[[[files' total'] result']|e|] w4]; [|done|].
    + destruct IH as (found & -> & Ht' & Hc & Hl & Hf).
      { rewrite Ht, u64_add_l, total_size_app. f_equal. simpl. lia. }
      exists ((info, if parsed then Some number else None) :: found). cbn [fmap list_fmap fst snd length] in *.
      split_and!; [by rewrite <- app_assoc|by rewrite Ht', <- app_assoc|simpl in Hc; lia| |].
      * rewrite Hl. unfold newest. cbn [foldl last_file_counter]. f_equal.
        destruct parsed; [done|]. by unfold update_counter.
      * constructor; [|done]. unfold found_by, r in *. destruct mask; [by exists number, parsed|].
        by injection Er as <- <-.
    + apply IH. rewrite Ht, u64_add_l, total_size_app. f_equal. simpl. lia.
Qed.

Definition older_or_same (x y : file_info P) : Prop := m_TimeStamp x ≤ m_TimeStamp y.

Lemma insert_by_time_perm info files : insert_by_time info files ≡ₚ info :: files.
Proof.
  induction files as [|x l IH]; simpl; [done|]. destruct (_ <? _); [|done]. rewrite IH. apply Permutation_swap.
Qed.

Lemma sort_by_time_perm files : sort_by_time files ≡ₚ files.
Proof. induction files as [|x l IH]; simpl; [done|]. by rewrite insert_by_time_perm, IH. Qed.

Lemma insert_by_time_sorted info files :
  StronglySorted older_or_same files → StronglySorted older_or_same (insert_by_time info files).
Proof.
  unfold older_or_same. induction 1 as [|x l Hs IH Hx]; simpl; [by repeat constructor|].
  destruct (m_TimeStamp x <? m_TimeStamp info) eqn:E; to_prop.
  - constructor; [done|]. rewrite insert_by_time_perm. constructor; [lia|done].
  - constructor; [by constructor|]. constructor; [done|].
    eapply Forall_impl; [exact Hx|]. simpl. lia.
Qed.

Lemma sort_by_time_sorted files : StronglySorted older_or_same (sort_by_time files).
Proof. induction files as [|x l IH]; simpl; [constructor|]. by apply insert_by_time_sorted. Qed.

Lemma total_size_perm l1 l2 : l1 ≡ₚ l2 → total_size l1 = total_size l2.
Proof. induction 1; simpl; lia. Qed.

Definition scan_post frac (mask : option str) c c' (r : scan_result) : Prop :=
  accounted c' ∧ same_config c c' ∧
  ∃ found, m_Files c' ≡ₚ m_Files c ++ found.*1 ∧ Forall (found_by frac mask) found ∧
    (found ≠ [] → StronglySorted older_or_same (m_Files c')) ∧
    found_count r = Z.of_nat (length found) ∧ last_file_counter r = newest (found.*2) None.

Lemma scan_for_files_ok frac method pattern c w :
  accounted c →
  match scan_for_files frac method pattern (c, w) with
  | (Ok r, (c', _)) =>
      scan_post frac (if decide (method = scan_matching) then Some (filename pattern) else None) c c' r
  | (Throw _, (c', _)) => c' = c
  | (Stuck, _) => False
  end.
Proof.
  intros Ha. assert (∀ mask, scan_post frac mask c c (ScanResult 0 None)) as Hnone.
  { intros mask. split_and!; [done|done|]. exists []. split_and!; [by rewrite app_nil_r|constructor|done..]. }
  unfold scan_for_files. case_decide; [apply Hnone|]. unfold sm_get. rewrite sm_bind_run.
  case_decide; [|apply Hnone]. rewrite sm_bind_run. unfold in_fs at 1.
  set (dir := if decide _ then _ else _). pose proof (directory_entries_safe dir w) as Hde.
  destruct (directory_entries dir w) as [[entries|e|] w1]; [|done|done]. rewrite sm_bind_run. unfold in_fs.
  set (mask := if decide _ then _ else _).
  pose proof (scan_directory_ok frac (m_Files c) mask entries [] 0 (ScanResult 0 None) w1 eq_refl) as Hs.
  destruct (scan_directory _ _ _ _ _ _ _ w1) as [[[[files total] r]|e|] w2]; [|done|done].
  destruct Hs as (found & -> & -> & Hc & Hl & Hf). unfold sm_modify. rewrite sm_bind_run. simpl.
  split_and!; [|done|].
  - unfold accounted. simpl. rewrite Ha, u64_add_l, u64_add_r, (total_size_perm _ _ (sort_by_time_perm _)).
    by rewrite total_size_app.
  - exists found. split_and!; [apply sort_by_time_perm|done|intros _; apply sort_by_time_sorted|simpl in Hc; lia|done].
Qed.
End correctness.

(** ** Counters *)

(** The distance of a counter from [base], going upwards with wrap-around. *)
Definition age (base n : Z) : Z := u32 (n - base).

Lemma counter_not_older_age base l n :
  age base l < 2 ^ 31 → age base n < 2 ^ 31 →
  counter_not_older (Some l) n = (age base l <=? age base n).
Proof.
  unfold counter_not_older, age. intros Hl Hn.
  assert (u32 (n - l) = (u32 (n - base) - u32 (l - base)) mod 2 ^ 32) as ->.
  { unfold u32. rewrite <- Zminus_mod. f_equal. lia. }
  pose proof (u32_range (n - base)). pose proof (u32_range (l - base)).
  set (x := u32 (n - base)) in *. set (y := u32 (l - base)) in *.
  destruct (y <=? x) eqn:E; to_prop; [apply Z.ltb_lt|apply Z.ltb_ge].
  - rewrite Z.mod_small; lia.
  - replace (x - y) with (x - y + 2 ^ 32 + (-1) * 2 ^ 32) by lia.
    rewrite Z.mod_add, Z.mod_small; lia.
Qed.

Lemma newest_spec base found start :
  Forall (λ o, match o with Some n => age base n < 2 ^ 31 | None => True end) (start :: found) →
  match newest found start with
  | Some m => Some m ∈ start :: found ∧ ∀ n, Some n ∈ start :: found → age base n ≤ age base m
  | None => ∀ n, Some n ∉ start :: found
  end.
Proof.
  revert start. induction found as [|o found IH]; intros start Hall; cbn [newest foldl].
  - destruct start as [m|]; [|set_solver]. split; [set_solver|]. intros n Hn.
    apply list_elem_of_singleton in Hn. by simplify_eq.
  - set (start' := match o with Some n => update_counter start true n | None => start end).
    assert (start' ∈ [start; o] ∧ ∀ n, Some n ∈ [start; o] → ∃ m, start' = Some m ∧ age base n ≤ age base m)
      as [Hin Hmax].
    { unfold start', update_counter. rewrite !Forall_cons in Hall. destruct Hall as (Hs & Ho & _).
      destruct o as [x|]; [|split; [set_solver|]; intros n Hn;
        apply elem_of_cons in Hn as [<-|Hn%list_elem_of_singleton]; [by exists n|done]].
      destruct start as [y|]; cbn [andb]; [|split; [set_solver|]; intros n Hn;
        apply elem_of_cons in Hn as [?|Hn%list_elem_of_singleton]; [done|]; simplify_eq; by exists x].
      rewrite (counter_not_older_age base) by done.
      destruct (age base y <=? age base x) eqn:E; to_prop.
      - split; [set_solver|]. intros n Hn. exists x. split; [done|].
        apply elem_of_cons in Hn as [?|Hn%list_elem_of_singleton]; simplify_eq; lia.
      - split; [set_solver|]. intros n Hn. exists y. split; [done|].
        apply elem_of_cons in Hn as [?|Hn%list_elem_of_singleton]; simplify_eq; lia. }
    specialize (IH start'). change (foldl _ _ found) with (newest found start'). clearbody start'.
    assert (Forall (λ o, match o with Some n => age base n < 2 ^ 31 | None => True end) (start' :: found)) as Hall'.
    { rewrite !Forall_cons in Hall. constructor; [|apply Hall].
      apply elem_of_cons in Hin as [->|Hin%list_elem_of_singleton]; [apply Hall|rewrite Hin; apply Hall]. }
    specialize (IH Hall'). destruct (newest found start') as [m|].
    + destruct IH as [IH1 IH2].
      split; [apply elem_of_cons in IH1 as [->|?]; set_solver|]. intros n Hn.
      assert (Some n ∈ [start; o] ∨ Some n ∈ found) as [Hn'|Hn'] by set_solver.
      * destruct (Hmax n Hn') as (k & Hk & Hle). etrans; [exact Hle|]. apply IH2. rewrite Hk. set_solver.
      * apply IH2. set_solver.
    + intros n Hn. assert (Some n ∈ [start; o] ∨ Some n ∈ found) as [Hn'|Hn'] by set_solver.
      * destruct (Hmax n Hn') as (k & Hk & _). apply (IH k). rewrite Hk. apply elem_of_cons. by left.
      * apply (IH n). apply elem_of_cons. by right.
Qed.

Lemma newest_elem found start m : newest found start = Some m → Some m ∈ start :: found.
Proof.
  revert start. induction found as [|o found IH]; intros start; cbn [newest foldl].
  - intros ->. set_solver.
  - intros H. apply IH in H. apply elem_of_cons in H as [H|H]; [|set_solver].
    destruct o as [n|]; [|set_solver]. unfold update_counter in H. case_match; set_solver.
Qed.

Lemma found_counter_range {FS P} `{!FileSystem FS P} {extract : ExtractUint} frac mask
    (found : list (file_info P * option Z)) m :
  Forall (found_by frac mask) found → newest (found.*2) None = Some m → 0 ≤ m < 2 ^ 32.
Proof.
  intros Hf Hm. apply newest_elem in Hm. apply elem_of_cons in Hm as [?|Hm]; [done|].
  apply list_elem_of_fmap in Hm as ([info o] & Ho & Hin). simpl in Ho. subst o.
  rewrite Forall_forall in Hf. specialize (Hf _ Hin). unfold found_by in Hf. destruct mask; [|done].
  destruct Hf as (n & [] & Hmatch & Hn); simpl in Hn; [|done]. simplify_eq.
  unfold match_pattern in Hmatch. by eapply (match_loop_counter frac) in Hmatch.
Qed.

(** * Interface

    What the text file backend relies on: a collector has operations with no
    undefined behaviour that keep its invariant. *)

Class Collector (C FS P : Type) := {
  collector_store_file : P → sm (C * FS) unit;
  collector_is_in_storage : C → P → FS → bool;
  collector_scan_for_files : scan_method → P → sm (C * FS) scan_result;
  collector_ok : C → Prop;
  collector_store_ok : ∀ p c w, collector_ok c →
    match collector_store_file p (c, w) with
    | (Ok _, (c', _)) | (Throw _, (c', _)) => collector_ok c'
    | (Stuck, _) => False
    end;
  collector_scan_ok : ∀ m p c w, collector_ok c →
    match collector_scan_for_files m p (c, w) with
    | (Ok r, (c', _)) => collector_ok c' ∧
        ∀ n, last_file_counter r = Some n → 0 ≤ n < 2 ^ 32
    | (Throw _, (c', _)) => collector_ok c'
    | (Stuck, _) => False
    end }.

#[export] Program Instance file_collector_interface {FS P} `{!FileSystem FS P} `{!FileSystemSafe FS P}
    {extract : ExtractUint} (frac : Z) : Collector (file_collector P) FS P := {|
  collector_store_file := store_file;
  collector_is_in_storage := is_in_storage;
  collector_scan_for_files := scan_for_files frac;
  collector_ok := accounted |}.
Next Obligation.
  intros FS P ? ? ? frac p c w Hc. pose proof (store_file_ok p c w Hc) as H. simpl.
  destruct (store_file p (c, w)) as [[]  [c' w']]; [apply H|apply H|done].
Qed.
Next Obligation.
  intros FS P ? ? ? frac m p c w Hc. pose proof (scan_for_files_ok frac m p c w Hc) as H. simpl.
  destruct (scan_for_files frac m p (c, w)) as [[r|e|] [c' w']]; [|by rewrite H|done].
  destruct H as (? & _ & found & _ & Hf & _ & _ & Hl). split; [done|]. intros n Hn.
  rewrite Hl in Hn. by eapply found_counter_range.
Qed.

(** * Theorems *)

(** C13: storing a file keeps the account of the total size exact (modulo the
    width of [uintmax_t]) on every path, exceptions included, and never uses
    an invalid entry. On success the new file is the last entry; the other
    entries are what is left of the known files (without the entry of the file
    itself) by walking them from the oldest one: a file is erased only while the
    total size, the free space or the number of files would exceed the limits,
    and as long as they would, every file is erased unless it cannot be erased or
    the free space cannot be found out after it was; the newer files are all
    kept. Afterwards the limits hold, or every file left could not be erased.
    The file system has no undefined behaviour. *)
Theorem store_file_limits {FS P} `{!FileSystem FS P} `{!FileSystemSafe FS P} (src_path : P)
    (c : file_collector P) (w : FS) :
  accounted c →
  match store_file src_path (c, w) with
  | (Ok _, (c', _)) => accounted c' ∧ same_config c c' ∧
      ∃ info known old free free', m_Files c' = old ++ [info] ∧
        (∃ w, (file_size src_path w).1 = Ok (m_Size info)) ∧
        forgotten (m_Path info) (m_Files c) known ∧ measured c free ∧
        erasing c (m_Size info) free [] known old free' ∧
        (m_TotalSize c' ≤ m_MaxSize c ∧ Z.of_nat (length (m_Files c')) ≤ m_MaxFiles c ∧
           (m_MinFreeSpace c = 0 ∨ m_MinFreeSpace c ≤ free') ∨
         Forall (unerasable c) old)
  | (Throw _, (c', _)) => accounted c' ∧ same_config c c'
  | (Stuck, _) => False
  end.
Proof.
  intros Hc. pose proof (store_file_ok src_path c w Hc) as H.
  destruct (store_file src_path (c, w)) as [[]  [c' w']]; [|done|done].
  destruct H as (Ha & Hs & info & known & old & free & free' & Hf & Hsz & Hk & Hm & He). split_and!; [done..|].
  exists info, known, old, free, free'. split_and!; [done..|].
  destruct (erasing_limits _ _ _ _ _ _ _ He (Forall_nil_2 _)) as [Hlim|Hun]; [left|by right].
  unfold over, over_limit in Hlim. simpl in Hlim. to_prop. rewrite Ha, Hf, total_size_app, length_app. simpl.
  rewrite u64_add_l in *. rewrite Z.add_0_r. split_and!; [lia|lia|].
  destruct (decide (m_MinFreeSpace c = 0)); [by left|right]. naive_solver lia.
Qed.

(** The search for the name under which a file is stored terminates; the
    name it returns was not in use when it was tested, so that storing a file
    does not overwrite another one; when all names are in use it ends with the
    documented exception. *)
Theorem target_path_is_free {FS P} `{!FileSystem FS P} `{!FileSystemSafe FS P}
    (dir : P) (name : str) (w : FS) :
  match target_path dir name w with
  | (Ok p, _) => was_free p
  | (Throw _, _) => True
  | (Stuck, _) => False
  end.
Proof. apply target_path_ok. Qed.

(** Scanning adds every regular file of the directory that is not known
    yet and, with [scan_matching], matches the pattern; the account of the
    total size stays exact, the files are in chronological order afterwards,
    and nothing changes when an exception is thrown. The last counter that is
    reported is the newest one, comparing counters with wrap-around, when all
    counters found lie within half of the counter range. *)
Theorem scan_for_files_complete {FS P} `{!FileSystem FS P} `{!FileSystemSafe FS P} {extract : ExtractUint}
    (frac : Z) (method : scan_method) (pattern : P) (c : file_collector P) (w : FS) :
  accounted c →
  match scan_for_files frac method pattern (c, w) with
  | (Ok r, (c', _)) => accounted c' ∧ same_config c c' ∧
      ∃ found, m_Files c' ≡ₚ m_Files c ++ found.*1 ∧
        Forall (found_by frac (if decide (method = scan_matching) then Some (filename pattern) else None)) found ∧
        (found ≠ [] → StronglySorted older_or_same (m_Files c')) ∧
        found_count r = Z.of_nat (length found) ∧
        ∀ base, (∀ n, Some n ∈ found.*2 → age base n < 2 ^ 31) →
          match last_file_counter r with
          | Some m => Some m ∈ found.*2 ∧ ∀ n, Some n ∈ found.*2 → age base n ≤ age base m
          | None => ∀ n, Some n ∉ found.*2
          end
  | (Throw _, (c', _)) => c' = c
  | (Stuck, _) => False
  end.
Proof.
  intros Hc. pose proof (scan_for_files_ok frac method pattern c w Hc) as H.
  destruct (scan_for_files frac method pattern (c, w)) as [[r|e|] [c' w']]; [|done|done].
  destruct H as (Ha & Hs & found & Hf & Hby & Hsort & Hcount & Hlast). split_and!; [done..|].
  exists found. split_and!; [done..|]. intros base Hbase. rewrite Hlast.
  pose proof (newest_spec base (found.*2) None) as Hn.
  destruct (newest (found.*2) None) as [m|].
  - destruct Hn as [Hn1 Hn2].
    + constructor; [done|]. apply Forall_forall. intros [n|] Hin; [by apply Hbase|done].
    + split; [by apply elem_of_cons in Hn1 as [?|?]|]. intros n Hin. apply Hn2, elem_of_cons. by right.
  - intros n Hin. eapply Hn; [|apply elem_of_cons; by right].
    constructor; [done|]. apply Forall_forall. intros [k|] Hk; [by apply Hbase|done].
Qed.

(** * A concrete file system

    A path is a directory and a file name; the file system is the list of its
    files with sizes and times on a disk of 1000 bytes. *)
Module sample_fs.
Abbreviation path := (str * str)%type.
Abbreviation fs := (list (path * (Z * Z))).

Fixpoint find_file (p : path) (w : fs) : option (Z * Z) :=
  match w with
  | [] => None
  | (q, d) :: t => if decide (q = p) then Some d else find_file p t
  end.

Definition used (w : fs) : Z := foldr (λ x s, x.2.1 + s) 0 w.

Definition read_file {X} (f : Z * Z → X) (p : path) : sm fs X := λ w,
  match find_file p w with
  | Some d => (Ok (f d), w)
  | None => (Throw ex_filesystem_error, w)
  end.

Definition remove_file (p : path) : sm fs unit := λ w,
  (if decide (p.2 = str_lit "locked") then Throw ex_filesystem_error else Ok (),
   if decide (p.2 = str_lit "locked") then w else filter (λ x, x.1 ≠ p) w).

#[export] Instance list_fs : FileSystem fs path := {|
  empty_path := ([], []);
  filename p := p.2;
  parent_path p := (p.1, []);
  has_parent_path p := true;
  append p s := (p.1, s);
  absolute p base := p;
  last_write_time := read_file snd;
  file_size := read_file fst;
  file_size_ec p w := fst <$> find_file p w;
  status p w := match p.2 with [] => directory_file | _ =>
    match find_file p w with Some _ => regular_file | None => status_error end end;
  file_exists p w := (Ok (match find_file p w with Some _ => true | None => false end), w);
  remove := remove_file;
  space_available p w := (Ok (1000 - used w), w);
  equivalent p q w := (Ok (bool_decide (p = q)), w);
  equivalent_ec p q w := Some (bool_decide (p = q));
  system_complete p w := (Ok p, w);
  system_complete_ec p w := Some p;
  create_directories p w :=
    (if decide (p = ([], [])) then Throw ex_filesystem_error else Ok (), w);
  rename_file p q w :=
    match find_file p w with
    | Some d => (rename_ok, (q, d) :: filter (λ x, x.1 ≠ p ∧ x.1 ≠ q) w)
    | None => (rename_failed, w)
    end;
  copy_file p q w := (Ok (), w);
  directory_entries p w := (Ok (filter (λ q, q.1 = p.1) w.*1), w) |}.

#[export] Instance list_fs_safe : FileSystemSafe fs path.
Proof.
  split; try done; intros p w; simpl; unfold read_file, remove_file; (by case_match) || by case_decide.
Qed.

Definition file (dir name : string) : path := (str_lit dir, str_lit name).

(** Two files in the storage, of which the older one cannot be erased, and a
    new file [tmp/n]. *)
Definition world : fs :=
  [(file "s" "locked", (300, 1)); (file "s" "b", (200, 2)); (file "s" "c", (100, 3));
   (file "t" "n", (50, 4))].

Definition full_collector : file_collector path :=
  FileCollector 1000 0 3 (str_lit "t", []) (str_lit "s", [])
    [FileInfo 300 1 (file "s" "locked"); FileInfo 200 2 (file "s" "b"); FileInfo 100 3 (file "s" "c")] 600.

Lemma store_file_limits_witness :
  match store_file (file "t" "n") (full_collector, world) with
  | (Ok _, (c', w')) => accounted c' ∧ m_TotalSize c' = 450 ∧
      m_Path <$> m_Files c' = [file "s" "locked"; file "s" "c"; file "s" "n"]
  | _ => False
  end.
Proof.
  pose proof (store_file_limits (file "t" "n") full_collector world eq_refl) as H.
  destruct (store_file (file "t" "n") (full_collector, world)) as [[]  [c' w']] eqn:E;
    [|vm_compute in E; discriminate E..].
  destruct H as [H _]. split; [exact H|]. vm_compute in E. injection E as <- <-. split; reflexivity.
Defined.

Lemma target_path_is_free_witness :
  match target_path (str_lit "s", []) (str_lit "b") world with
  | (Ok p, _) => was_free p ∧ p = file "s" "b00000"
  | _ => False
  end.
Proof.
  pose proof (target_path_is_free (str_lit "s", []) (str_lit "b") world) as H.
  destruct (target_path (str_lit "s", []) (str_lit "b") world) as [[p|e|] w'] eqn:E;
    [|vm_compute in E; discriminate E..].
  split; [exact H|]. vm_compute in E. by injection E as <- <-.
Defined.

Definition old_logs : fs :=
  [(file "s" "l_7.log", (10, 9)); (file "s" "other", (5, 1)); (file "s" "l_12.log", (20, 3))].

Lemma scan_for_files_complete_witness :
  match scan_for_files (extract := spirit_extract) 6 scan_matching (file "s" "l_%N.log")
          (FileCollector 1000 0 9 (str_lit "t", []) (str_lit "s", []) [] 0, old_logs) with
  | (Ok r, (c', _)) => accounted c' ∧ last_file_counter r = Some 12 ∧
      m_Path <$> m_Files c' = [file "s" "l_12.log"; file "s" "l_7.log"]
  | _ => False
  end.
Proof.
  pose proof (scan_for_files_complete (extract := spirit_extract) 6 scan_matching (file "s" "l_%N.log")
    (FileCollector 1000 0 9 (str_lit "t", []) (str_lit "s", []) [] 0) old_logs eq_refl) as H.
  destruct (scan_for_files _ _ _ _) as [[r|e|] [c' w']] eqn:E; [|vm_compute in E; discriminate E..].
  destruct H as [H _]. split; [exact H|]. vm_compute in E. injection E as <- <- <-. split; reflexivity.
Defined.
End sample_fs.
