(* ===== verification/TextFileBackend.v ===== *)
(** The text file sink backend (src/src/text_file_backend.cpp,
    [text_file_backend]): writes formatted records to a file, opens files
    named by a pattern with a counter and rotates them by size or time. *)

From Stdlib Require Import ZArith Ascii String.
From stdpp Require Import base numbers list.
From S2P Require Import Prelude Decimal FileNamePattern FileCollector.
Local Open Scope Z_scope.

(** * The file stream

    What the code uses of [filesystem::ofstream]. Opening may fail, which shows
    in [stream_is_open]; writing may put the stream into a failed state. *)

Record open_mode := OpenMode {
  mode_in : bool;
  mode_out : bool;
  mode_app : bool;
  mode_ate : bool;
  mode_trunc : bool;
  mode_binary : bool }.

Class FileStream (F FS P : Type) := {
  stream_init : F;
  stream_good : F → bool;
  stream_is_open : F → bool;
  stream_open : P → open_mode → F → FS → F * FS;
  stream_tellp : F → FS → Z;
  stream_write : str → F → FS → F * FS;
  stream_flush : F → FS → F * FS;
  stream_close : F → FS → F * FS;
  stream_clear : F → F;
  stream_init_closed : stream_is_open stream_init = false;
  stream_close_closed : ∀ f w, stream_is_open (stream_close f w).1 = false;
  stream_clear_open : ∀ f, stream_is_open (stream_clear f) = stream_is_open f;
  stream_clear_good : ∀ f, stream_good (stream_clear f) = true;
  stream_write_open : ∀ s f w, stream_is_open (stream_write s f w).1 = stream_is_open f;
  stream_flush_open : ∀ f w, stream_is_open (stream_flush f w).1 = stream_is_open f }.

(** What is in the file behind an open stream: as documented for output streams,
    a stream that is good after a write has written all the characters at the
    end, and a stream that has failed stays failed until it is cleared. *)
Class StreamContent (F FS P : Type) `{!FileStream F FS P} := {
  stream_content : F → FS → str;
  write_content : ∀ s f w, stream_is_open f = true → stream_good (stream_write s f w).1 = true →
    stream_content (stream_write s f w).1 (stream_write s f w).2 = stream_content f w ++ s;
  flush_content : ∀ f w, stream_good (stream_flush f w).1 = true →
    stream_content (stream_flush f w).1 (stream_flush f w).2 = stream_content f w;
  write_bad : ∀ s f w, stream_good f = false → stream_good (stream_write s f w).1 = false;
  flush_bad : ∀ f w, stream_good f = false → stream_good (stream_flush f w).1 = false }.

Inductive auto_newline_mode : Type := disabled_auto_newline | always_insert | insert_if_missing.

(** * State *)

(** The settings; a handler gets the stream and may write to it. *)
Record settings (F FS P : Type) := Settings {
  m_FileNamePattern : P;
  m_BackendDir : P;
  m_FileNameGenerator : pattern_scan;
  m_Target : option (P * P * pattern_scan);
  m_FileOpenMode : open_mode;
  m_OpenHandler : option (sm (F * FS) unit);
  m_CloseHandler : option (sm (F * FS) unit);
  m_FileRotationSize : Z;
  m_TimeBasedRotation : option (sm FS bool);
  m_AutoNewlineMode : auto_newline_mode;
  m_AutoFlush : bool;
  m_FinalRotationEnabled : bool }.
Arguments Settings {F FS P}.
Arguments m_FileNamePattern {F FS P} _.
Arguments m_BackendDir {F FS P} _.
Arguments m_FileNameGenerator {F FS P} _.
Arguments m_Target {F FS P} _.
Arguments m_FileOpenMode {F FS P} _.
Arguments m_OpenHandler {F FS P} _.
Arguments m_CloseHandler {F FS P} _.
Arguments m_FileRotationSize {F FS P} _.
Arguments m_TimeBasedRotation {F FS P} _.
Arguments m_AutoNewlineMode {F FS P} _.
Arguments m_AutoFlush {F FS P} _.
Arguments m_FinalRotationEnabled {F FS P} _.

(** What changes while the backend is running. *)
Record running (C F P : Type) := Running {
  m_FileCounter : Z;
  m_FileName : P;
  m_File : F;
  m_CharactersWritten : Z;
  m_pFileCollector : option C;
  m_FileCounterIsLastUsed : bool;
  m_IsFirstFile : bool }.
Arguments Running {C F P}.
Arguments m_FileCounter {C F P} _.
Arguments m_FileName {C F P} _.
Arguments m_File {C F P} _.
Arguments m_CharactersWritten {C F P} _.
Arguments m_pFileCollector {C F P} _.
Arguments m_FileCounterIsLastUsed {C F P} _.
Arguments m_IsFirstFile {C F P} _.

Section backend.
Context {C F FS P : Type} `{!EqDecision P} `{!FileSystem FS P} `{!FileStream F FS P} `{!Collector C FS P}
  {extract : ExtractUint}.
(** Boost.DateTime's formatting of the current time. *)
Context (date_and_time_formatter : FS → str → str).

Abbreviation state := (running C F P).
Abbreviation M := (sm (state * FS)).
Abbreviation config := (settings F FS P).
Implicit Types (s : config) (b : state) (w : FS).

Definition set_file f b : state := Running (m_FileCounter b) (m_FileName b) f (m_CharactersWritten b)
  (m_pFileCollector b) (m_FileCounterIsLastUsed b) (m_IsFirstFile b).
Definition set_written n b : state := Running (m_FileCounter b) (m_FileName b) (m_File b) n
  (m_pFileCollector b) (m_FileCounterIsLastUsed b) (m_IsFirstFile b).
Definition set_name p b : state := Running (m_FileCounter b) p (m_File b) (m_CharactersWritten b)
  (m_pFileCollector b) (m_FileCounterIsLastUsed b) (m_IsFirstFile b).
Definition set_counter n b : state := Running n (m_FileName b) (m_File b) (m_CharactersWritten b)
  (m_pFileCollector b) (m_FileCounterIsLastUsed b) (m_IsFirstFile b).
Definition set_last_used b : state := Running (m_FileCounter b) (m_FileName b) (m_File b)
  (m_CharactersWritten b) (m_pFileCollector b) true (m_IsFirstFile b).
Definition set_not_first b : state := Running (m_FileCounter b) (m_FileName b) (m_File b)
  (m_CharactersWritten b) (m_pFileCollector b) (m_FileCounterIsLastUsed b) false.
Definition set_file_collector c b : state := Running (m_FileCounter b) (m_FileName b) (m_File b)
  (m_CharactersWritten b) c (m_FileCounterIsLastUsed b) (m_IsFirstFile b).

Definition modify (f : state → state) : M unit := sm_modify (λ '(b, w), (f b, w)).

(** Runs a file system operation. *)
Definition in_world {X} (m : sm FS X) : M X := λ '(b, w),
  let '(r, w') := m w in (r, (b, w')).

(** Runs a stream operation on [m_File]. *)
Definition on_stream (op : F → FS → F * FS) : M unit := λ '(b, w),
  let '(f, w') := op (m_File b) w in (Ok (), (set_file f b, w')).

(** Calls a handler with [m_File]. *)
Definition call_handler (h : sm (F * FS) unit) : M unit := λ '(b, w),
  let '(r, (f, w')) := h (m_File b, w) in (r, (set_file f b, w')).

(** [m_pFileCollector->store_file(p)], when there is a collector. *)
Definition collect (p : P) : M unit := λ '(b, w),
  match m_pFileCollector b with
  | None => (Ok (), (b, w))
  | Some c =>
      let '(r, (c', w')) := collector_store_file p (c, w) in
      (r, (set_file_collector (Some c') b, w'))
  end.

(** ** Setup *)

(** [construct]: the default pattern is ["%5N.log"]. *)
Definition default_file_name_pattern : str := str_lit "%5N.log".

(** [parse_file_name_pattern] on a path: the directory, the pattern and the
    generator. *)
Definition parse_pattern (current_path pattern : P) : outcome (P * P * pattern_scan) :=
  let* g := parse_file_name_pattern (filename pattern) in
  Ok (append empty_path (filename pattern), absolute (parent_path pattern) current_path, g).

Definition set_open_mode (mode : open_mode) : open_mode :=
  OpenMode false true (mode_app mode)
    (if mode_app mode then true else mode_ate mode)
    (if mode_app mode then mode_trunc mode else true) (mode_binary mode).

Definition construct (current_path : P) (pattern target : option P) (mode : open_mode)
    (rotation_size : Z) (time_rotation : option (sm FS bool)) (newline : auto_newline_mode)
    (auto_flush final_rotation : bool) : outcome (config * state) :=
  let* (pat, dir, gen) := parse_pattern current_path
    (default (append empty_path default_file_name_pattern) pattern) in
  let* target := match target with
                 | None => Ok None
                 | Some p => let* t := parse_pattern current_path p in Ok (Some t)
                 end in
  Ok (Settings pat dir gen target (set_open_mode mode) None None rotation_size time_rotation
        newline auto_flush final_rotation,
      Running 0 empty_path stream_init 0 None false true).

(** ** Closing and rotating *)

(** [close_file] with the close handler that is in place. *)
Definition close_file (handler : option (sm (F * FS) unit)) : M unit :=
  '(b, _) ← sm_get;
  _ ← (if stream_is_open (m_File b) then
         _ ← match handler with
             | None => mret ()
             | Some h =>
                 _ ← modify (λ b, set_file (stream_clear (m_File b)) b);
                 call_handler h
             end;
         on_stream stream_close
       else mret ());
  modify (λ b, set_name empty_path (set_written 0 (set_file (stream_clear (m_File b)) b))).

(** The new name of a rotated file when a target pattern is set. *)
Definition rename_rotated s (prev : P) : M P :=
  match m_Target s with
  | None => mret prev
  | Some (_, dir, gen) =>
      '(b, w) ← sm_get;
      let new_name := append dir
        (file_name_generator (date_and_time_formatter w) gen (m_FileCounter b)) in
      if decide (new_name = prev) then mret prev
      else
        _ ← in_world (create_directories (parent_path new_name));
        _ ← in_world (move_file prev new_name);
        mret new_name
  end.

Definition rotate_file s (handler : option (sm (F * FS) unit)) : M unit :=
  '(b, _) ← sm_get;
  let prev := m_FileName b in
  _ ← close_file handler;
  '(_, w) ← sm_get;
  if decide (status prev w = regular_file) then
    name ← rename_rotated s prev;
    collect name
  else mret ().

(** ** Writing a record *)

(** What happens first: a stream that is not operational is closed, a file
    that is full or due is rotated. The result is [use_prev_file_name] with the
    name. *)
Definition check_file s (message_size : Z) : M (option P) :=
  '(b, _) ← sm_get;
  if negb (stream_good (m_File b)) then
    let prev := m_FileName b in
    _ ← close_file (m_CloseHandler s);
    '(_, w) ← sm_get;
    match file_size_ec prev w with
    | None => mret (Some prev)
    | Some size =>
        if size =? 0 then mret (Some prev)
        else _ ← collect prev; mret None
    end
  else if stream_is_open (m_File b) then
    due ← (if m_FileRotationSize s <=? u64 (m_CharactersWritten b + message_size) then mret true
           else match m_TimeBasedRotation s with
                | None => mret false
                | Some predicate => in_world predicate
                end);
    if due : bool then _ ← rotate_file s (m_CloseHandler s); mret None else mret None
  else mret None.

(** The name of the file for the current counter. *)
Definition name_for s w (counter : Z) : P :=
  append (m_BackendDir s)
    (file_name_generator (date_and_time_formatter w) (m_FileNameGenerator s) counter).

(** Whether the counter has to be incremented before a file is opened. *)
Definition increment_needed s b w : bool :=
  if m_IsFirstFile b && mode_app (m_FileOpenMode s) then
    let last_name := name_for s w (m_FileCounter b) in
    match m_pFileCollector b with
    | Some c => negb (collector_is_in_storage c last_name w)
    | None => negb (bool_decide (status last_name w = regular_file))
    end
  else true.

(** The name of the next file; the counter is advanced if need be. *)
Definition next_name s (use_prev : option P) : M P :=
  match use_prev with
  | Some prev => mret prev
  | None =>
      '(b, w) ← sm_get;
      _ ← (if m_FileCounterIsLastUsed b then
             if increment_needed s b w then modify (set_counter (u32 (m_FileCounter b + 1)))
             else mret ()
           else modify set_last_used);
      '(b, w) ← sm_get;
      mret (name_for s w (m_FileCounter b))
  end.

(** The open handler may write to the file; the size is updated. *)
Definition run_open_handler s : M unit :=
  match m_OpenHandler s with
  | None => mret ()
  | Some h =>
      _ ← call_handler h;
      '(b, w) ← sm_get;
      modify (set_written (u64 (stream_tellp (m_File b) w)))
  end.

(** One iteration of [while (!m_File.is_open())]. *)
Definition open_step s (message_size last_file_counter : Z) (use_prev : option P)
    : M (option P + unit) :=
  '(b, _) ← sm_get;
  if stream_is_open (m_File b) then mret (inr ()) else
  name ← next_name s use_prev;
  _ ← in_world (create_directories (parent_path name));
  _ ← on_stream (stream_open name (m_FileOpenMode s));
  '(b, w) ← sm_get;
  if negb (stream_is_open (m_File b)) then sm_throw ex_filesystem_error else
  let written := u64 (stream_tellp (m_File b) w) in
  _ ← modify (λ b, set_written written (set_not_first (set_name name b)));
  if (0 <? written) && (m_FileRotationSize s <=? u64 (written + message_size))
     && negb (m_FileCounter b =? last_file_counter)
  then
    _ ← rotate_file s None;
    mret (inl None)
  else
    _ ← run_open_handler s;
    mret (inr ()).

(** The loop: a counter of 32 bits, and at most three more iterations. *)
Definition open_file s (message_size : Z) (use_prev : option P) : M unit :=
  '(b, _) ← sm_get;
  sm_while 33 (open_step s message_size (u32 (m_FileCounter b - 1))) use_prev.

Definition ends_with_newline (message : str) : bool :=
  match last message with
  | Some c => bool_decide (c = "010"%char)
  | None => false
  end.

Definition insert_newline s (message : str) : bool :=
  match m_AutoNewlineMode s with
  | disabled_auto_newline => false
  | always_insert => true
  | insert_if_missing => negb (ends_with_newline message)
  end.

Definition write_record s (message : str) : M unit :=
  _ ← on_stream (stream_write message);
  _ ← modify (λ b, set_written (u64 (m_CharactersWritten b + Z.of_nat (length message))) b);
  _ ← (if insert_newline s message then
         _ ← on_stream (stream_write ["010"%char]);
         modify (λ b, set_written (u64 (m_CharactersWritten b + 1)) b)
       else mret ());
  if m_AutoFlush s then on_stream stream_flush else mret ().

Definition consume s (message : str) : M unit :=
  let size := Z.of_nat (length message) in
  use_prev ← check_file s size;
  _ ← open_file s size use_prev;
  write_record s message.

(** ** The remaining operations *)

Definition flush : M unit :=
  '(b, _) ← sm_get;
  if stream_is_open (m_File b) then on_stream stream_flush else mret ().

(** The destructor: exceptions of the final rotation are swallowed. *)
Definition destroy s : M unit :=
  '(b, _) ← sm_get;
  if m_FinalRotationEnabled s && stream_is_open (m_File b) && (0 <? m_CharactersWritten b) then
    sm_catch (rotate_file s (m_CloseHandler s)) (λ _, mret ())
  else mret ().

Definition scan_for_files s (method : scan_method) (update_counter : bool) : M Z := λ '(b, w),
  match m_pFileCollector b with
  | None => (Throw ex_setup_error, (b, w))
  | Some c =>
      let pattern := match m_Target s with Some (p, _, _) => p | None => m_FileNamePattern s end in
      let '(r, (c', w')) := collector_scan_for_files method pattern (c, w) in
      let b := set_file_collector (Some c') b in
      match r with
      | Throw e => (Throw e, (b, w'))
      | Stuck => (Stuck, (b, w'))
      | Ok result =>
          let b := match last_file_counter result with
                   | Some last =>
                       if update_counter && (negb (m_FileCounterIsLastUsed b)
                            || counter_not_older (Some (m_FileCounter b)) last)
                       then set_last_used (set_counter last b) else b
                   | None => b
                   end in
          (Ok (found_count result), (b, w'))
      end
  end.

(** * Invariant *)

(** The state after [close_file]. *)
Definition closed b : Prop :=
  stream_is_open (m_File b) = false ∧ m_FileName b = empty_path ∧ m_CharactersWritten b = 0.

Definition collector_in_order b : Prop :=
  match m_pFileCollector b with Some c => collector_ok c | None => True end.

Definition backend_ok b : Prop :=
  0 ≤ m_FileCounter b < 2 ^ 32 ∧ collector_in_order b ∧
  (stream_is_open (m_File b) = true ∨ closed b).

(** Handlers do not close the stream; user code has no undefined behaviour. *)
Definition handler_ok (h : option (sm (F * FS) unit)) : Prop :=
  match h with
  | None => True
  | Some h => ∀ f w, match h (f, w) with
                     | (Stuck, _) => False
                     | (_, (f', _)) => stream_is_open f' = stream_is_open f
                     end
  end.

Definition settings_ok s : Prop :=
  handler_ok (m_OpenHandler s) ∧ handler_ok (m_CloseHandler s) ∧
  match m_TimeBasedRotation s with Some p => ∀ w, (p w).1 ≠ Stuck | None => True end.

(** The fields rotation leaves alone. *)
Definition frame b b' : Prop :=
  m_FileCounter b' = m_FileCounter b ∧ m_FileCounterIsLastUsed b' = m_FileCounterIsLastUsed b ∧
  m_IsFirstFile b' = m_IsFirstFile b ∧ (collector_in_order b → collector_in_order b').

Lemma frame_refl b : frame b b.
Proof. by split_and!. Qed.

Lemma frame_trans b1 b2 b3 : frame b1 b2 → frame b2 b3 → frame b1 b3.
Proof. unfold frame. intuition congruence. Qed.

(** A rotation step keeps the frame and leaves an open or a closed file. *)
Definition steady b b' : Prop :=
  frame b b' ∧ (stream_is_open (m_File b') = true ∨ closed b').

Lemma steady_ok b b' : backend_ok b → steady b b' → backend_ok b'.
Proof. intros (H1 & H2 & _) ((E & _ & _ & Hc) & Ho). rewrite <- E in H1. split_and!; [lia|lia|by apply Hc|done]. Qed.

Lemma close_file_ok h b w :
  handler_ok h → (stream_is_open (m_File b) = true ∨ closed b) →
  match close_file h (b, w) with
  | (Ok _, (b', _)) => frame b b' ∧ closed b' ∧ m_pFileCollector b' = m_pFileCollector b
  | (Throw _, (b', _)) => steady b b'
  | (Stuck, _) => False
  end.
Proof.
  intros Hh Hb. unfold close_file, sm_get. rewrite sm_bind_run, sm_bind_run.
  destruct (stream_is_open (m_File b)) eqn:Eo.
  - rewrite sm_bind_run. destruct h as [h|].
    + unfold modify at 1, sm_modify. rewrite sm_bind_run. unfold call_handler.
      pose proof (Hh (m_File (set_file (stream_clear (m_File b)) b)) w) as Hs.
      destruct (h (_, w)) as [[[]|e|] [f w1]]; [| |done].
      * unfold on_stream. pose proof (stream_close_closed f w1) as Hc. cbn [set_file m_File].
        destruct (stream_close f w1) as [f2 w2]. simpl in *. split; [done|]. split; [|done].
        split; [simpl; by rewrite stream_clear_open|done].
      * split; [done|]. left. simpl in *. by rewrite Hs, stream_clear_open.
    + unfold mret, sm_ret, on_stream. pose proof (stream_close_closed (m_File b) w) as Hc.
      destruct (stream_close (m_File b) w) as [f2 w2]. simpl in *. split; [done|]. split; [|done].
      split; [simpl; by rewrite stream_clear_open|done].
  - destruct Hb as [?|(_ & Hn & Hw)]; [done|]. unfold mret, sm_ret, modify, sm_modify. simpl.
    split; [done|]. split; [|done]. split; [simpl; by rewrite stream_clear_open|done].
Qed.

Lemma collect_ok p b w :
  collector_in_order b → (stream_is_open (m_File b) = true ∨ closed b) →
  match collect p (b, w) with
  | (Ok _, (b', _)) | (Throw _, (b', _)) => steady b b' ∧ m_File b' = m_File b
  | (Stuck, _) => False
  end.
Proof.
  intros Hc Hb. unfold collect, collector_in_order in *.
  destruct (m_pFileCollector b) as [c|] eqn:E; [|done].
  pose proof (collector_store_ok p c w Hc) as Hs.
  destruct (collector_store_file p (c, w)) as [[]  [c' w']]; [| |done]; by split.
Qed.

Context `{!FileSystemSafe FS P}.

Lemma rename_rotated_ok s prev b w :
  match rename_rotated s prev (b, w) with
  | (Ok _, (b', _)) | (Throw _, (b', _)) => b' = b
  | (Stuck, _) => False
  end.
Proof.
  unfold rename_rotated. destruct (m_Target s) as [[[p dir] gen]|]; [|done].
  unfold sm_get. rewrite sm_bind_run. case_decide; [done|]. rewrite sm_bind_run. unfold in_world at 1.
  set (name := append dir _). pose proof (create_directories_safe (parent_path name) w).
  destruct (create_directories (parent_path name) w) as [[]  w1]; [|done|done].
  rewrite sm_bind_run. unfold in_world. pose proof (move_file_safe prev name w1).
  by destruct (move_file prev name w1) as [[]  w2].
Qed.

Lemma rotate_file_ok s h b w :
  handler_ok h → collector_in_order b → (stream_is_open (m_File b) = true ∨ closed b) →
  match rotate_file s h (b, w) with
  | (Ok _, (b', _)) => steady b b' ∧ stream_is_open (m_File b') = false
  | (Throw _, (b', _)) => steady b b'
  | (Stuck, _) => False
  end.
Proof.
  intros Hh Hc Hb. unfold rotate_file, sm_get. rewrite sm_bind_run, sm_bind_run.
  pose proof (close_file_ok h b w Hh Hb) as Hcl.
  destruct (close_file h (b, w)) as [[]  [b1 w1]]; [|done|done]. destruct Hcl as (Hf & Hclosed & _).
  rewrite sm_bind_run. case_decide; [|split; [by split; [|right]|apply Hclosed]].
  rewrite sm_bind_run. pose proof (rename_rotated_ok s (m_FileName b) b1 w1) as Hr.
  destruct (rename_rotated s (m_FileName b) (b1, w1)) as [[name|e|] [b2 w2]]; [| |done];
    subst b2; [|by split; [|right]].
  pose proof (collect_ok name b1 w2) as Hs.
  destruct (collect name (b1, w2)) as [[]  [b3 w3]];
    (destruct Hs as [[Hf' Hb'] Hm] || apply Hs); [by apply Hf|by right| |by apply Hf|by right| |by apply Hf|by right].
  - split; [split; [by eapply frame_trans|done]|]. rewrite Hm. apply Hclosed.
  - split; [by eapply frame_trans|done].
Qed.

Lemma check_file_ok s size b w :
  settings_ok s → backend_ok b →
  match check_file s size (b, w) with
  | (Ok use_prev, (b', _)) => steady b b' ∧
      (stream_is_open (m_File b') = true → use_prev = None ∧ b' = b ∧
         u64 (m_CharactersWritten b + size) < m_FileRotationSize s)
  | (Throw _, (b', _)) => steady b b'
  | (Stuck, _) => False
  end.
Proof.
  intros (Hoh & Hch & Hp) (_ & Hc & Hb). unfold check_file, sm_get. rewrite sm_bind_run.
  destruct (stream_good (m_File b)); cbn [negb].
  - destruct (stream_is_open (m_File b)) eqn:Eo; [|split; [split; [apply frame_refl|];
      destruct Hb as [?|Hb]; [done|by right]|congruence]].
    rewrite sm_bind_run. set (m := if m_FileRotationSize s <=? _ then _ else _).
    assert (match m (b, w) with
      | (Ok due, (b', _)) => b' = b ∧ (due = false → u64 (m_CharactersWritten b + size) < m_FileRotationSize s)
      | (Throw _, (b', _)) => b' = b
      | (Stuck, _) => False end) as Hm.
    { unfold m. destruct (m_FileRotationSize s <=? _) eqn:El; [done|]. to_prop.
      destruct (m_TimeBasedRotation s) as [pr|]; [|done]. unfold in_world. pose proof (Hp w).
      by destruct (pr w) as [[]  w1]. }
    destruct (m (b, w)) as [[due|e|] [b1 w1]]; [|subst; by split; [|left]|done].
    destruct Hm as [-> Hdue]. destruct due.
    + rewrite sm_bind_run. pose proof (rotate_file_ok s (m_CloseHandler s) b w1 Hch Hc (or_introl Eo)) as Hr.
      destruct (rotate_file s (m_CloseHandler s) (b, w1)) as [[]  [b2 w2]]; [|done|done].
      destruct Hr as [Hr1 Hr2]. split; [done|congruence].
    + split; [by split; [|left]|]. intros _. auto.
  - rewrite sm_bind_run. pose proof (close_file_ok (m_CloseHandler s) b w Hch Hb) as Hcl.
    destruct (close_file (m_CloseHandler s) (b, w)) as [[]  [b1 w1]]; [|done|done].
    destruct Hcl as (Hf & Hclosed & _). rewrite sm_bind_run.
    assert (steady b b1) by (by split; [|right]). assert (stream_is_open (m_File b1) = false) by apply Hclosed.
    destruct (file_size_ec (m_FileName b) w1) as [size'|]; [|split; [done|congruence]].
    destruct (size' =? 0); [split; [done|congruence]|]. rewrite sm_bind_run.
    pose proof (collect_ok (m_FileName b) b1 w1 ltac:(by apply Hf) (or_intror Hclosed)) as Hs.
    destruct (collect (m_FileName b) (b1, w1)) as [[]  [b2 w2]]; [| |done];
      destruct Hs as [[Hf2 Hb2] Hm2].
    + split; [split; [by eapply frame_trans|done]|]. rewrite Hm2. congruence.
    + split; [by eapply frame_trans|done].
Qed.

(** ** Opening the next file *)

(** How [next_name] advances the counter. *)
Inductive advance (use_prev : option P) b : state → Prop :=
| advance_reuse p : use_prev = Some p → advance use_prev b b
| advance_first : m_FileCounterIsLastUsed b = false → advance use_prev b (set_last_used b)
| advance_append : m_FileCounterIsLastUsed b = true → m_IsFirstFile b = true → advance use_prev b b
| advance_next : m_FileCounterIsLastUsed b = true →
    advance use_prev b (set_counter (u32 (m_FileCounter b + 1)) b).

Lemma next_name_ok s use_prev b w :
  ∃ name b', next_name s use_prev (b, w) = (Ok name, (b', w)) ∧ advance use_prev b b'.
Proof.
  unfold next_name. destruct use_prev as [p|]; [eexists _, _; split; [done|by eapply advance_reuse]|].
  unfold sm_get. rewrite sm_bind_run, sm_bind_run. destruct (m_FileCounterIsLastUsed b) eqn:El.
  - unfold increment_needed. destruct (m_IsFirstFile b && mode_app (m_FileOpenMode s)) eqn:Ef.
    + apply andb_true_iff in Ef as [Ef _]. set (inc := match m_pFileCollector b with Some _ => _ | None => _ end).
      destruct inc; eexists _, _; (split; [done|]); [by apply advance_next|by apply advance_append].
    + eexists _, _. split; [done|by apply advance_next].
  - eexists _, _. split; [done|by apply advance_first].
Qed.

Lemma advance_ok use_prev b b' :
  advance use_prev b b' → backend_ok b →
  backend_ok b' ∧ m_File b' = m_File b ∧ (closed b → closed b').
Proof. intros [p Hp|Hl|Hl Hf|Hl] Hb; split_and!; try done. split_and!; [apply u32_range..|apply Hb|apply Hb]. Qed.

(** The number of counters left before the loop has used all of them, and the
    iterations that do not advance the counter. *)
Definition open_variant (last : Z) (use_prev : option P) b : Z :=
  u32 (last - m_FileCounter b) + match use_prev with Some _ => 1 | None => 0 end
  + (if m_FileCounterIsLastUsed b then 0 else 1) + (if m_IsFirstFile b then 1 else 0).

Lemma advance_variant last use_prev b b' :
  advance use_prev b b' → 0 ≤ last < 2 ^ 32 → 0 ≤ m_FileCounter b < 2 ^ 32 → m_FileCounter b ≠ last →
  0 ≤ open_variant last None (set_not_first b') < open_variant last use_prev b.
Proof.
  intros Hadv Hlast Hc Hne. unfold open_variant. pose proof (u32_range (last - m_FileCounter b)).
  destruct Hadv as [p ->|Hl|Hl Hf|Hl]; simpl.
  - destruct (m_FileCounterIsLastUsed b), (m_IsFirstFile b); lia.
  - rewrite Hl. destruct use_prev, (m_IsFirstFile b); lia.
  - rewrite Hl, Hf. destruct use_prev; lia.
  - rewrite Hl, u32_sub_r.
    assert (u32 (last - m_FileCounter b) ≠ 0) as Hnz
      by (intros Hz; apply Hne; symmetry; by apply u32_sub_zero).
    replace (last - (m_FileCounter b + 1)) with (last - m_FileCounter b - 1) by lia.
    rewrite u32_pred by done. destruct use_prev, (m_IsFirstFile b); lia.
Qed.

(** The file a record is written to: it was open before and the record fits,
    or it was opened now and had [start] characters. *)
Definition ready s (size last : Z) b0 b : Prop :=
  stream_is_open (m_File b) = true ∧ backend_ok b ∧
  (b = b0 ∨ ∃ start,
     (start = 0 ∨ u64 (start + size) < m_FileRotationSize s ∨ m_FileCounter b = last) ∧
     (m_OpenHandler s = None → m_CharactersWritten b = start)).

Lemma open_handler_ok s size last b0 b w :
  settings_ok s → stream_is_open (m_File b) = true → backend_ok b →
  (m_CharactersWritten b = 0 ∨ u64 (m_CharactersWritten b + size) < m_FileRotationSize s ∨ m_FileCounter b = last) →
  match run_open_handler s (b, w) with
  | (Ok _, (b', _)) => ready s size last b0 b'
  | (Throw _, (b', _)) => backend_ok b'
  | (Stuck, _) => False
  end.
Proof.
  intros (Hh & _) Ho (Hcnt & Hcol & _) Hw. unfold run_open_handler.
  destruct (m_OpenHandler s) as [h|] eqn:Eh.
  - rewrite sm_bind_run. unfold call_handler. pose proof (Hh (m_File b) w) as Hs.
    destruct (h (m_File b, w)) as [[[]|e|] [f w1]]; [| |done].
    + unfold sm_get. rewrite sm_bind_run. unfold modify, sm_modify.
      unfold ready. rewrite Eh. cbn in *. rewrite Ho in Hs. split_and!; [done| |].
      * split_and!; [cbn; lia|cbn; lia|done|by left].
      * right. exists (m_CharactersWritten b). by split.
    + cbn in *. rewrite Ho in Hs. split_and!; [cbn; lia|cbn; lia|done|by left].
  - unfold ready. rewrite Eh. unfold mret, sm_ret. split_and!; [done| |].
    + split_and!; [cbn; lia|cbn; lia|done|by left].
    + right. exists (m_CharactersWritten b). by split.
Qed.

Definition open_inv s last b0 (_ : option P) (σ : state * FS) : Prop :=
  backend_ok σ.1 ∧ m_FileCounter σ.1 ≠ last ∧ (stream_is_open (m_File σ.1) = true → σ.1 = b0).

Lemma open_step_ok s size last b0 :
  settings_ok s → 0 ≤ last < 2 ^ 32 →
  loop_body (open_inv s last b0) (λ use_prev σ, open_variant last use_prev σ.1)
    (open_step s size last) (λ _ σ, ready s size last b0 σ.1) (λ _ σ, backend_ok σ.1).
Proof.
  intros Hs Hlast use_prev [b w] (Hb & Hne & Hopen). cbn [fst] in *.
  unfold open_step, sm_get. rewrite sm_bind_run.
  destruct (stream_is_open (m_File b)) eqn:Eo.
  { split_and!; [done|done|]. left. by apply Hopen. }
  rewrite sm_bind_run. destruct (next_name_ok s use_prev b w) as (name & b1 & -> & Hadv).
  assert (closed b) as Hcl by (destruct Hb as (_ & _ & [?|?]); [congruence|done]).
  destruct (advance_ok _ _ _ Hadv Hb) as ((Hc1 & Hcol1 & _) & Hf1 & Hcl1). specialize (Hcl1 Hcl).
  rewrite sm_bind_run. unfold in_world at 1. pose proof (create_directories_safe (parent_path name) w).
  destruct (create_directories (parent_path name) w) as [[]  w1]; [|split_and!; [cbn; lia|cbn; lia|done|by right]|done].
  rewrite sm_bind_run. unfold on_stream at 1.
  destruct (stream_open name (m_FileOpenMode s) (m_File b1) w1) as [f w2]. rewrite sm_bind_run.
  cbn [set_file m_File m_FileCounter]. destruct (stream_is_open f) eqn:Ef; cbn [negb];
    [|split_and!; [cbn; lia|cbn; lia|done|right; destruct Hcl1; by split]].
  cbv zeta. set (written := u64 (stream_tellp f w2)). rewrite sm_bind_run. unfold modify at 1, sm_modify.
  set (b3 := set_written written (set_not_first (set_name name (set_file f b1)))).
  assert (backend_ok b3) as Hb3 by (split_and!; [cbn; lia|cbn; lia|done|by left]).
  destruct (_ && _ && _) eqn:Ecnd.
  - rewrite sm_bind_run. to_prop.
    pose proof (rotate_file_ok s None b3 w2 I ltac:(apply Hb3) ltac:(by left)) as Hr.
    destruct (rotate_file s None (b3, w2)) as [[]  [b4 w4]]; [|by eapply steady_ok|done].
    destruct Hr as [Hst Hcl4]. cbn [fst]. pose proof Hst as [(E1 & E2 & E3 & _) _].
    split; [split_and!; [by eapply steady_ok|cbn; by rewrite E1|cbn; congruence]|].
    pose proof (advance_variant last use_prev b b1 Hadv Hlast ltac:(apply Hb) Hne) as Hv.
    unfold open_variant in Hv |- *. cbn [fst]. rewrite E1, E2, E3. exact Hv.
  - rewrite sm_bind_run. pose proof (open_handler_ok s size last b0 b3 w2 Hs Ef Hb3) as Hh.
    assert (m_CharactersWritten b3 = 0 ∨ u64 (m_CharactersWritten b3 + size) < m_FileRotationSize s
      ∨ m_FileCounter b3 = last) as Hw.
    { cbn. pose proof (u64_range (stream_tellp f w2)) as Hr. fold written in Hr.
      apply andb_false_iff in Ecnd as [[E|E]%andb_false_iff|E]; to_prop; [left; lia|by right; left|by right; right]. }
    specialize (Hh Hw). by destruct (run_open_handler s (b3, w2)) as [[]  [b4 w4]].
Qed.

Lemma open_file_ok s size use_prev b w :
  settings_ok s → backend_ok b →
  match open_file s size use_prev (b, w) with
  | (Ok _, (b', _)) => ready s size (u32 (m_FileCounter b - 1)) b b'
  | (Throw _, (b', _)) => backend_ok b'
  | (Stuck, _) => False
  end.
Proof.
  intros Hs Hb. unfold open_file, sm_get. rewrite sm_bind_run.
  set (last := u32 (m_FileCounter b - 1)). pose proof (u32_range (m_FileCounter b - 1)) as Hlast.
  pose proof (sm_while_rule (open_inv s last b) (λ up σ, open_variant last up σ.1)
    (open_step s size last) (λ _ σ, ready s size last b σ.1) (λ _ σ, backend_ok σ.1) 33 use_prev (b, w)
    (open_step_ok s size last b Hs Hlast)) as Hl.
  destruct (sm_while 33 (open_step s size last) use_prev (b, w)) as [[[]|e|] [b' w']]; apply Hl.
  all: try (split_and!; [done| |done]; cbn; unfold last;
    destruct (decide (m_FileCounter b = 0)) as [->|]; [done|]; destruct Hb; rewrite u32_id; lia).
  all: unfold open_variant; pose proof (u32_range (last - m_FileCounter (b, w).1));
    destruct use_prev, (m_FileCounterIsLastUsed (b, w).1), (m_IsFirstFile (b, w).1); lia.
Qed.

(** How many characters a record takes. *)
Definition record_size s (message : str) : Z :=
  Z.of_nat (length message) + (if insert_newline s message then 1 else 0).

Lemma on_stream_ok op b w :
  (∀ f w, stream_is_open (op f w).1 = stream_is_open f) →
  ∃ f w', on_stream op (b, w) = (Ok (), (set_file f b, w')) ∧ stream_is_open f = stream_is_open (m_File b).
Proof.
  intros Hop. unfold on_stream. specialize (Hop (m_File b) w). destruct (op (m_File b) w) as [f w']. eauto.
Qed.

Lemma write_record_ok s message b w :
  ∃ f w', write_record s message (b, w)
      = (Ok (), (set_file f (set_written (u64 (m_CharactersWritten b + record_size s message)) b), w')) ∧
    stream_is_open f = stream_is_open (m_File b).
Proof.
  unfold write_record, record_size. rewrite sm_bind_run.
  destruct (on_stream_ok (stream_write message) b w) as (f1 & w1 & -> & H1); [apply stream_write_open|].
  unfold modify. rewrite sm_bind_run. unfold sm_modify at 1. rewrite sm_bind_run.
  set (b1 := set_written _ (set_file f1 b)).
  destruct (insert_newline s message).
  - rewrite sm_bind_run.
    destruct (on_stream_ok (stream_write ["010"%char]) b1 w1) as (f2 & w2 & -> & H2); [apply stream_write_open|].
    unfold sm_modify. destruct (m_AutoFlush s).
    + destruct (on_stream_ok stream_flush (set_written (u64 (m_CharactersWritten (set_file f2 b1) + 1)) (set_file f2 b1)) w2)
        as (f3 & w3 & -> & H3); [apply stream_flush_open|].
      exists f3, w3. split; [|cbn in *; congruence]. cbn. by rewrite u64_add_l, Z.add_assoc.
    + exists f2, w2. split; [|cbn in *; congruence]. cbn. by rewrite u64_add_l, Z.add_assoc.
  - unfold mret at 1, sm_ret. rewrite Z.add_0_r. destruct (m_AutoFlush s).
    + destruct (on_stream_ok stream_flush b1 w1) as (f3 & w3 & -> & H3); [apply stream_flush_open|].
      exists f3, w3. split; [done|cbn in *; congruence].
    + exists f1, w1. split; [done|congruence].
Qed.

(** A record was written in [(b, w)]: the file was made ready in [b0], with the
    characters of its own that it had then. *)
Definition consumed s (message : str) b w b' : Prop :=
  let size := Z.of_nat (length message) in
  backend_ok b' ∧
  ∃ use_prev σ1 b0 w0, check_file s size (b, w) = (Ok use_prev, σ1) ∧
    open_file s size use_prev σ1 = (Ok (), (b0, w0)) ∧ stream_is_open (m_File b0) = true ∧
    (m_OpenHandler s = None →
     m_CharactersWritten b0 = 0 ∨ u64 (m_CharactersWritten b0 + size) < m_FileRotationSize s ∨
     m_FileCounter b' = u32 (m_FileCounter b - 1)).

Lemma consume_spec s message b w :
  settings_ok s → backend_ok b →
  match consume s message (b, w) with
  | (Ok _, (b', _)) => consumed s message b w b'
  | (Throw _, (b', _)) => backend_ok b'
  | (Stuck, _) => False
  end.
Proof.
  intros Hs Hb. unfold consume. rewrite sm_bind_run.
  pose proof (check_file_ok s (Z.of_nat (length message)) b w Hs Hb) as Hc.
  destruct (check_file s (Z.of_nat (length message)) (b, w)) as [[use_prev|e|] [b1 w1]] eqn:E1;
    [|by eapply steady_ok|done].
  destruct Hc as [Hst Hopen]. assert (backend_ok b1) as Hb1 by (by eapply steady_ok).
  rewrite sm_bind_run. pose proof (open_file_ok s (Z.of_nat (length message)) use_prev b1 w1 Hs Hb1) as Ho.
  destruct (open_file s (Z.of_nat (length message)) use_prev (b1, w1)) as [[[]|e|] [b2 w2]] eqn:E2; [|done|done].
  destruct Ho as (Ho & Hb2 & Hready).
  destruct (write_record_ok s message b2 w2) as (f & w3 & -> & Hf). rewrite Ho in Hf.
  split.
  - destruct Hb2 as (? & ? & _). split_and!; [cbn; lia|cbn; lia|done|by left].
  - exists use_prev, (b1, w1), b2, w2. split_and!; [done..|]. intros Hnone. cbn.
    destruct Hst as [(Ecnt & _) _]. rewrite <- Ecnt.
    destruct Hready as [->|(start & Hstart & Hchars)].
    + right; left. destruct (Hopen Ho) as (_ & -> & ?). done.
    + by rewrite (Hchars Hnone).
Qed.

(** ** What is in the file *)

(** The characters of a record: the message, with a newline as configured. *)
Definition record_text s (message : str) : str :=
  match m_AutoNewlineMode s with
  | disabled_auto_newline => message
  | always_insert => message ++ ["010"%char]
  | insert_if_missing => if decide (last message = Some "010"%char) then message else message ++ ["010"%char]
  end.

Lemma record_text_newline s message :
  record_text s message = message ++ (if insert_newline s message then ["010"%char] else []).
Proof.
  unfold record_text, insert_newline, ends_with_newline. destruct (m_AutoNewlineMode s); [by rewrite app_nil_r|done|].
  destruct (last message) as [c|]; cbn; [|done]. destruct (decide (c = "010"%char)) as [->|Hc].
  - rewrite decide_True by done. rewrite bool_decide_eq_true_2 by done. cbn. by rewrite app_nil_r.
  - rewrite decide_False by congruence. by rewrite bool_decide_eq_false_2.
Qed.

Lemma record_size_text s message : record_size s message = Z.of_nat (length (record_text s message)).
Proof.
  rewrite record_text_newline, length_app. unfold record_size. destruct (insert_newline s message); cbn; lia.
Qed.

Section content.
Context `{!StreamContent F FS P}.

(** The stream [f'], if it is good, has [text] after what was in [f]. *)
Definition appended (text : str) (f : F) w (f' : F) w' : Prop :=
  stream_is_open f' = stream_is_open f ∧ (stream_good f' = true → stream_good f = true ∧
    stream_content f' w' = stream_content f w ++ text).

Lemma good_before (g g' : bool) : (g = false → g' = false) → g' = true → g = true.
Proof. destruct g; naive_solver. Qed.

Lemma stream_write_appended text f w : stream_is_open f = true →
  appended text f w (stream_write text f w).1 (stream_write text f w).2.
Proof.
  intros Ho. split; [apply stream_write_open|]. intros Hg. split; [|by apply write_content].
  eapply good_before; [|exact Hg]. apply write_bad.
Qed.

Lemma stream_flush_appended f w : appended [] f w (stream_flush f w).1 (stream_flush f w).2.
Proof.
  split; [apply stream_flush_open|]. intros Hg. rewrite app_nil_r. split; [|by apply flush_content].
  eapply good_before; [|exact Hg]. apply flush_bad.
Qed.

Lemma appended_trans t1 t2 f1 w1 f2 w2 f3 w3 :
  appended t1 f1 w1 f2 w2 → appended t2 f2 w2 f3 w3 → appended (t1 ++ t2) f1 w1 f3 w3.
Proof.
  intros [O1 C1] [O2 C2]. split; [congruence|]. intros Hg. destruct (C2 Hg) as [Hg2 E2].
  destruct (C1 Hg2) as [Hg1 E1]. split; [done|]. by rewrite E2, E1, (assoc_L (++)).
Qed.

Lemma write_record_content s message b w :
  stream_is_open (m_File b) = true →
  let r := write_record s message (b, w) in
  m_FileName r.2.1 = m_FileName b ∧ appended (record_text s message) (m_File b) w (m_File r.2.1) r.2.2.
Proof.
  intros Ho r. subst r. rewrite record_text_newline. unfold write_record, on_stream, modify, sm_modify.
  rewrite sm_bind_run. pose proof (stream_write_appended message (m_File b) w Ho) as H1.
  destruct (stream_write message (m_File b) w) as [f1 w1]. rewrite !sm_bind_run. cbn [fst snd] in H1.
  assert (∃ f2 w2, appended (message ++ if insert_newline s message then ["010"%char] else []) (m_File b) w f2 w2 ∧
    ∃ n, (if insert_newline s message
     then (_ ← on_stream (stream_write ["010"%char]); modify (λ b, set_written (u64 (m_CharactersWritten b + 1)) b)) : M unit
     else mret ()) (set_written (u64 (m_CharactersWritten (set_file f1 b) + Z.of_nat (length message))) (set_file f1 b), w1)
     = (Ok (), (set_written n (set_file f2 b), w2))) as (f2 & w2 & H2 & n & E2).
  { destruct (insert_newline s message).
    - unfold on_stream, modify, sm_modify. rewrite sm_bind_run. cbn [m_File set_written set_file].
      pose proof (stream_write_appended ["010"%char] f1 w1 ltac:(rewrite (proj1 H1); done)) as H2.
      destruct (stream_write ["010"%char] f1 w1) as [f2 w2]. exists f2, w2. split; [by eapply appended_trans|by eexists].
    - exists f1, w1. rewrite app_nil_r. split; [done|by eexists]. }
  unfold on_stream, modify, sm_modify in E2. rewrite E2. destruct (m_AutoFlush s); [|done].
  cbn [m_File set_written set_file]. pose proof (stream_flush_appended f2 w2) as H3.
  destruct (stream_flush f2 w2) as [f3 w3]. split; [done|]. rewrite <- (app_nil_r (message ++ _)). by eapply appended_trans.
Qed.
End content.

(** ** The other operations *)

Lemma flush_ok b w : ∃ f w', flush (b, w) = (Ok (), (set_file f b, w')) ∧
  stream_is_open f = stream_is_open (m_File b).
Proof.
  unfold flush, sm_get. rewrite sm_bind_run. destruct (stream_is_open (m_File b)) eqn:Eo.
  - destruct (on_stream_ok stream_flush b w) as (f & w' & -> & Hf); [apply stream_flush_open|].
    exists f, w'. by rewrite Hf.
  - exists (m_File b), w. split; [by destruct b|done].
Qed.

(** The destructor does not throw. *)
Lemma destroy_ok s b w :
  settings_ok s → backend_ok b → ∃ b' w', destroy s (b, w) = (Ok (), (b', w')) ∧ backend_ok b'.
Proof.
  intros (_ & Hch & _) Hb. unfold destroy, sm_get. rewrite sm_bind_run.
  destruct (_ && _ && _); [|by exists b, w]. unfold sm_catch.
  pose proof (rotate_file_ok s (m_CloseHandler s) b w Hch ltac:(apply Hb) ltac:(apply Hb)) as Hr.
  destruct (rotate_file s (m_CloseHandler s) (b, w)) as [[[]|e|] [b' w']]; [| |done];
    eexists _, _; (split; [done|]); by eapply steady_ok; [|apply Hr].
Qed.

(** What scanning does to the counter. *)
Definition scan_counter (update : bool) b b' : Prop :=
  (m_FileCounter b' = m_FileCounter b ∧ m_FileCounterIsLastUsed b' = m_FileCounterIsLastUsed b) ∨
  (update = true ∧ m_FileCounterIsLastUsed b' = true ∧
   (m_FileCounterIsLastUsed b = true → counter_not_older (Some (m_FileCounter b)) (m_FileCounter b') = true)).

Lemma scan_for_files_safe s method update b w :
  backend_ok b →
  match scan_for_files s method update (b, w) with
  | (Ok _, (b', _)) => backend_ok b' ∧ scan_counter update b b'
  | (Throw _, (b', _)) => backend_ok b'
  | (Stuck, _) => False
  end.
Proof.
  intros (Hcnt & Hcol & Hfile). unfold scan_for_files, collector_in_order in *.
  destruct (m_pFileCollector b) as [c|] eqn:Ec; [|split_and!; [lia|lia|by unfold collector_in_order; rewrite Ec|done]].
  set (p := match m_Target s with Some _ => _ | None => _ end).
  pose proof (collector_scan_ok method p c w Hcol) as Hs.
  destruct (collector_scan_for_files method p (c, w)) as [[r|e|] [c' w']]; [| |done].
  - destruct Hs as [Hc' Hlast]. set (b1 := set_file_collector (Some c') b).
    assert (backend_ok b1) as Hb1 by (split_and!; [cbn; lia|cbn; lia|done|done]).
    destruct (last_file_counter r) as [n|]; [|split; [done|by left]].
    destruct (update && _) eqn:Eu; [|split; [done|by left]]. to_prop.
    split; [split_and!; [cbn; by apply Hlast|cbn; by apply Hlast|done|done]|]. right. split_and!; [done|done|].
    intros Hl. cbn in H0 |- *. rewrite Hl in H0. by destruct H0.
  - split_and!; [cbn; lia|cbn; lia|done|done].
Qed.

(** The operations a user of the backend performs. *)
Inductive operation : Type :=
| OpConsume (message : str)
| OpFlush
| OpRotate
| OpScan (method : scan_method) (update : bool)
| OpSetCollector (c : option C)
| OpDestroy.

Definition run_operation s (o : operation) : M unit :=
  match o with
  | OpConsume message => consume s message
  | OpFlush => flush
  | OpRotate => rotate_file s (m_CloseHandler s)
  | OpScan method update => _ ← scan_for_files s method update; mret ()
  | OpSetCollector c => modify (set_file_collector c)
  | OpDestroy => destroy s
  end.

Definition operation_ok (o : operation) : Prop :=
  match o with OpSetCollector (Some c) => collector_ok c | _ => True end.

Lemma run_operation_ok s o b w :
  settings_ok s → operation_ok o → backend_ok b →
  match run_operation s o (b, w) with
  | (Ok _, (b', _)) | (Throw _, (b', _)) => backend_ok b'
  | (Stuck, _) => False
  end.
Proof.
  intros Hs Ho Hb. destruct o as [message| | |method update|c|]; cbn [run_operation].
  - pose proof (consume_spec s message b w Hs Hb) as H.
    destruct (consume s message (b, w)) as [[]  [b' w']]; [apply H|done|done].
  - destruct (flush_ok b w) as (f & w' & -> & Hf). destruct Hb as (? & ? & Hb).
    split_and!; [cbn; lia|cbn; lia|done|]. destruct Hb as [Hb|(Hb & Hb2)]; [left; cbn; congruence|].
    right. split; [cbn; congruence|done].
  - pose proof (rotate_file_ok s (m_CloseHandler s) b w ltac:(apply Hs) ltac:(apply Hb) ltac:(apply Hb)) as H.
    destruct (rotate_file s (m_CloseHandler s) (b, w)) as [[]  [b' w']]; [| |done]; by eapply steady_ok; [|apply H].
  - rewrite sm_bind_run. pose proof (scan_for_files_safe s method update b w Hb) as H.
    destruct (scan_for_files s method update (b, w)) as [[]  [b' w']]; [apply H|done|done].
  - destruct Hb as (? & ? & Hb). split_and!; [cbn; lia|cbn; lia| |done].
    unfold collector_in_order. by destruct c.
  - destruct (destroy_ok s b w Hs Hb) as (b' & w' & -> & ?). done.
Qed.

(** States reachable by operations, each of which may end by an exception
    that the caller handles. *)
Inductive reachable s : state * FS → state * FS → Prop :=
| reach_refl σ : reachable s σ σ
| reach_step σ1 σ2 o : reachable s σ1 σ2 → operation_ok o →
    reachable s σ1 (run_operation s o σ2).2
| reach_world σ1 b w w' : reachable s σ1 (b, w) → reachable s σ1 (b, w').

Lemma reachable_ok s σ1 σ2 : settings_ok s → backend_ok σ1.1 → reachable s σ1 σ2 → backend_ok σ2.1.
Proof.
  intros Hs H1 Hr. induction Hr as [σ|σ1 σ2 o _ IH Ho|σ1 b w w' _ IH]; [done| |by apply IH].
  destruct σ2 as [b w]. pose proof (run_operation_ok s o b w Hs Ho (IH H1)) as H.
  by destruct (run_operation s o (b, w)) as [[]  [b' w']].
Qed.
End backend.

(** * Theorems *)

(** C14: writing a record terminates, whatever files exist, and has no
    undefined behaviour; it leaves the backend consistent also when an
    exception is thrown. On success a file is open, and the message, with the
    newline it is to have, is at the end of what was in that file when it was
    made ready, unless the stream has failed; the characters are counted. When
    there is no open handler the file was empty before, or the record did not
    reach the rotation size, or every value of the file counter has been tried.
    The file system, the handlers and the rotation predicate have no undefined
    behaviour, and the backend was consistent before. *)
Theorem consume_bounded {C F FS P} `{!EqDecision P} `{!FileSystem FS P} `{!FileStream F FS P}
    `{!Collector C FS P} `{!FileSystemSafe FS P} `{!StreamContent F FS P} (fmt : FS → str → str)
    (s : settings F FS P) (message : str) (b : running C F P) (w : FS) :
  settings_ok s → backend_ok b →
  let size := Z.of_nat (length message) in
  match consume fmt s message (b, w) with
  | (Ok _, (b', w')) => backend_ok b' ∧ stream_is_open (m_File b') = true ∧
      ∃ use_prev σ1 b0 w0, check_file fmt s size (b, w) = (Ok use_prev, σ1) ∧
        open_file fmt s size use_prev σ1 = (Ok (), (b0, w0)) ∧
        stream_is_open (m_File b0) = true ∧ m_FileName b' = m_FileName b0 ∧
        (stream_good (m_File b') = true →
           stream_content (m_File b') w' = stream_content (m_File b0) w0 ++ record_text s message) ∧
        m_CharactersWritten b' = u64 (m_CharactersWritten b0 + Z.of_nat (length (record_text s message))) ∧
        (m_OpenHandler s = None →
         m_CharactersWritten b0 = 0 ∨ u64 (m_CharactersWritten b0 + size) < m_FileRotationSize s ∨
         m_FileCounter b' = u32 (m_FileCounter b - 1))
  | (Throw _, (b', _)) => backend_ok b'
  | (Stuck, _) => False
  end.
Proof.
  intros Hs Hb size. pose proof (consume_spec fmt s message b w Hs Hb) as Hc.
  unfold consume in *. fold size in Hc |- *. rewrite sm_bind_run in *.
  destruct (check_file fmt s size (b, w)) as [[use_prev|e|] σ1] eqn:E1; [|done|done]. rewrite sm_bind_run in *.
  destruct (open_file fmt s size use_prev σ1) as [[[]|e|] [b0 w0]] eqn:E2; [|done|done].
  destruct (write_record_ok s message b0 w0) as (f & w' & E3 & Hf).
  pose proof (write_record_content s message b0 w0) as Hw. rewrite E3 in Hc, Hw |- *. cbn [fst snd] in Hw.
  destruct Hc as (Hok & up & σ & b1 & w1 & E1' & E2' & Ho & Hcount). fold size in E1', E2', Hcount.
  rewrite E1 in E1'. injection E1' as <- <-. rewrite E2 in E2'. injection E2' as <- <-.
  destruct (Hw Ho) as [Hname [_ Hcont]]. rewrite <- record_size_text.
  split; [done|]. split; [cbn; congruence|]. exists use_prev, σ1, b0, w0. split_and!; try done.
  intros Hg. by apply Hcont.
Qed.

(** C18: construction always succeeds, the open mode is for output, appends
    or truncates, and seeks to the end when it appends; and after any sequence
    of operations, with exceptions in between and other changes of the file
    system, the backend is consistent: it has a file open, or no file name and
    no characters counted. *)
Theorem backend_invariant {C F FS P} `{!EqDecision P} `{!FileSystem FS P} `{!FileStream F FS P}
    `{!Collector C FS P} `{!FileSystemSafe FS P} {extract : ExtractUint} (fmt : FS → str → str)
    (cwd : P) (pattern target : option P) (mode : open_mode) (rotation_size : Z)
    (time_rotation : option (sm FS bool)) (newline : auto_newline_mode) (auto_flush final : bool) :
  match time_rotation with Some p => ∀ w, (p w).1 ≠ Stuck | None => True end →
  ∃ (s : settings F FS P) (b : running C F P),
    construct cwd pattern target mode rotation_size time_rotation newline auto_flush final = Ok (s, b) ∧
    (mode_out (m_FileOpenMode s) = true ∧ mode_in (m_FileOpenMode s) = false ∧
     if mode_app (m_FileOpenMode s) then mode_ate (m_FileOpenMode s) = true
     else mode_trunc (m_FileOpenMode s) = true) ∧
    ∀ w b' w', reachable fmt s (b, w) (b', w') → backend_ok b'.
Proof.
  intros Ht. unfold construct, parse_pattern.
  destruct (parse_total (filename (default (append empty_path default_file_name_pattern) pattern))) as [g ->].
  cbn [obind].
  set (b := Running 0 empty_path stream_init 0 None false true : running C F P).
  assert (backend_ok b) as Hb.
  { split_and!; [cbn; lia|cbn; lia|done|]. right. split; [apply stream_init_closed|done]. }
  assert (∀ t, ∃ t', match t with
      | None => Ok None
      | Some p => let* t := (let* g := parse_file_name_pattern (filename p) in
          Ok (append empty_path (filename p), absolute (parent_path p) cwd, g)) in Ok (Some t)
      end = Ok t') as Htarget.
  { intros [p|]; [|by eexists]. destruct (parse_total (filename p)) as [g' ->]. by eexists. }
  destruct (Htarget target) as [t' ->]. cbn [obind].
  eexists _, b. split; [done|]. split; [cbn; by destruct (mode_app mode)|].
  intros w b' w' Hr. refine (reachable_ok fmt _ (b, w) (b', w') _ Hb Hr). by split_and!.
Qed.

(** Scanning for files needs a collector and keeps the backend
    consistent; it leaves the file counter alone or, when asked to update it,
    sets it to the last counter found, never back from a counter that was
    already used. *)
Theorem scan_advances_counter {C F FS P} `{!EqDecision P} `{!FileSystem FS P} `{!FileStream F FS P}
    `{!Collector C FS P} (s : settings F FS P) (method : scan_method) (update : bool)
    (b : running C F P) (w : FS) :
  backend_ok b →
  match scan_for_files s method update (b, w) with
  | (Ok _, (b', _)) => backend_ok b' ∧ m_pFileCollector b ≠ None ∧
      ((m_FileCounter b' = m_FileCounter b ∧ m_FileCounterIsLastUsed b' = m_FileCounterIsLastUsed b) ∨
       (update = true ∧ m_FileCounterIsLastUsed b' = true ∧
        (m_FileCounterIsLastUsed b = true → u32 (m_FileCounter b' - m_FileCounter b) < 2 ^ 31)))
  | (Throw e, (b', _)) => backend_ok b' ∧ (m_pFileCollector b = None → e = ex_setup_error ∧ b' = b)
  | (Stuck, _) => False
  end.
Proof.
  intros Hb. pose proof (scan_for_files_safe s method update b w Hb) as H.
  unfold scan_for_files in *. destruct (m_pFileCollector b) as [c|]; [|by split].
  destruct (collector_scan_for_files _ _ _) as [[r|e|] [c' w']]; [|by split|done].
  destruct H as [H1 H2]. split_and!; [done|done|]. destruct H2 as [?|(? & ? & Hn)]; [by left|right].
  split_and!; [done|done|]. intros Hl. specialize (Hn Hl). unfold counter_not_older in Hn. by to_prop.
Qed.

(** * Examples

    A stream on the file system of [FileCollector]; opening fails while there
    is a file [dev/offline]. *)
Module sample_backend.
Import sample_fs.

Record stream := Stream {
  file_of : option path;
  good : bool;
  (** What was written since the file was opened. *)
  text_of : str }.

Definition set_size (p : path) (n : Z) (w : fs) : fs := (p, (n, 9)) :: filter (λ x, x.1 ≠ p) w.

Definition size_of (p : path) (w : fs) : Z := match find_file p w with Some d => d.1 | None => 0 end.

#[export] Program Instance list_stream : FileStream stream fs path := {|
  stream_init := Stream None true [];
  stream_good := good;
  stream_is_open f := match file_of f with Some _ => true | None => false end;
  stream_open p mode f w :=
    match find_file (file "dev" "offline") w with
    | Some _ => (Stream None false [], w)
    | None => (Stream (Some p) true [], set_size p (if mode_trunc mode then 0 else size_of p w) w)
    end;
  stream_tellp f w := match file_of f with Some p => size_of p w | None => -1 end;
  stream_write s f w :=
    (Stream (file_of f) (good f) (text_of f ++ s),
     match file_of f with Some p => set_size p (size_of p w + Z.of_nat (length s)) w | None => w end);
  stream_flush f w := (f, w);
  stream_close f w := (Stream None (good f) (text_of f), w);
  stream_clear f := Stream (file_of f) true (text_of f) |}.
Solve All Obligations with done.

#[export] Instance list_stream_content : StreamContent stream fs path.
Proof. refine {| stream_content f w := text_of f |}; done. Defined.

#[export] Instance sample_collector : Collector (file_collector path) fs path :=
  file_collector_interface (extract := spirit_extract) 6.

Definition logs : settings stream fs path :=
  Settings (file "" "l%N") (str_lit "s", []) (PatternScan 0 0 (Some 1%nat) (str_lit "l")) None
    (OpenMode false true true true false false) None None 10 None insert_if_missing false true.

Definition start : running (file_collector path) stream path :=
  Running 0 ([], []) (Stream None true []) 0 None false true.

Lemma logs_ok : settings_ok logs.
Proof. done. Qed.

Lemma start_ok : backend_ok start.
Proof. split_and!; [cbn; lia|cbn; lia|done|]. by right. Qed.

(** Appending: the file [l0] is full, so the record goes to [l1]. *)
Definition full_disk : fs := [(file "s" "l0", (9, 1))].

Lemma consume_bounded_witness :
  match consume (λ _ x, x) logs (str_lit "abc") (start, full_disk) with
  | (Ok _, (b', w')) => backend_ok b' ∧ m_CharactersWritten b' = 4 ∧ m_FileName b' = file "s" "l1" ∧
      text_of (m_File b') = record_text logs (str_lit "abc")
  | _ => False
  end.
Proof.
  pose proof (consume_bounded (λ _ x, x) logs (str_lit "abc") start full_disk logs_ok start_ok) as H.
  destruct (consume _ _ _ _) as [[]  [b' w']] eqn:E; [|vm_compute in E; discriminate E..].
  split; [apply H|]. vm_compute in E. injection E as <- <-. split_and!; reflexivity.
Defined.

Lemma backend_invariant_witness :
  ∃ (s : settings stream fs path) (b : running (file_collector path) stream path),
    construct (extract := spirit_extract) (str_lit "d", []) None None
      (OpenMode true false true false false false) 100 None always_insert true false = Ok (s, b) ∧
    mode_ate (m_FileOpenMode s) = true.
Proof.
  destruct (backend_invariant (C := file_collector path) (F := stream) (extract := spirit_extract)
    (λ (_ : fs) x, x) (str_lit "d", []) None None
    (OpenMode true false true false false false) 100 None always_insert true false I)
    as (s & b & Hc & Hm & _).
  exists s, b. split; [exact Hc|]. vm_compute in Hc. injection Hc as <- <-. apply Hm.
Defined.

Lemma scan_advances_counter_witness :
  let b := Running 3 ([], []) (Stream None true []) 0
    (Some (FileCollector 1000 0 9 (str_lit "d", []) (str_lit "s", []) [] 0)) true false in
  match scan_for_files (Settings (file "s" "l%N") (str_lit "s", []) (PatternScan 0 0 (Some 1%nat) (str_lit "l"))
          None (OpenMode false true true true false false) None None 10 None insert_if_missing false true)
          scan_matching true (b, [(file "s" "l7", (9, 1))]) with
  | (Ok n, (b', _)) => backend_ok b' ∧ n = 1 ∧ m_FileCounter b' = 7
  | _ => False
  end.
Proof.
  intros b. pose proof (scan_advances_counter (Settings (file "s" "l%N") (str_lit "s", [])
    (PatternScan 0 0 (Some 1%nat) (str_lit "l")) None (OpenMode false true true true false false)
    None None 10 None insert_if_missing false true) scan_matching true b [(file "s" "l7", (9, 1))]) as H.
  destruct (scan_for_files _ _ _ _) as [[n|e|] [b' w']] eqn:E; [|vm_compute in E; discriminate E..].
  assert (backend_ok b) as Hb by (split_and!; [cbn; lia|cbn; lia|done|by right]).
  split; [apply H, Hb|]. vm_compute in E. injection E as <- <- <-. split; reflexivity.
Defined.

(** After a failed attempt to open a file the stream stays in the failed
    state with an empty file name; the next record tries to reuse that empty
    name and is lost with an exception, although the file could be opened
    again by then. The record after it is written. *)
Theorem failed_open_loses_next_record :
  let offline := [(file "dev" "offline", (0, 0))] in
  match consume (λ _ x, x) logs (str_lit "1") (start, offline) with
  | (Throw _, (b1, _)) =>
      match consume (λ _ x, x) logs (str_lit "2") (b1, []) with
      | (Throw ex_filesystem_error, (b2, w2)) => w2 = [] ∧
          match consume (λ _ x, x) logs (str_lit "3") (b2, w2) with
          | (Ok _, (b3, w3)) => w3 = [(file "s" "l1", (2, 9))]
          | _ => False
          end
      | _ => False
      end
  | _ => False
  end.
Proof. vm_compute. split; reflexivity. Qed.
End sample_backend.
