(* ===== verification/Rotation.v ===== *)
(** Time-based file rotation (src/src/text_file_backend.cpp,
    [rotation_at_time_point] and [rotation_at_time_interval]). A time point is
    a number of seconds; a date is the number of a day. *)

From Stdlib Require Import ZArith.
From stdpp Require Import base numbers.
From S2P Require Import Prelude.
Local Open Scope Z_scope.

(** What the code uses of Boost.DateTime's Gregorian calendar. *)
Class Calendar := {
  day_of_week : Z → Z;
  year_month_day : Z → Z * Z * Z;
  make_date : Z → Z → Z → outcome Z;
  add_month : Z → Z;
  day_of_week_range : ∀ d, 0 ≤ day_of_week d < 7;
  day_of_week_succ : ∀ d, day_of_week (d + 1) = (day_of_week d + 1) mod 7 }.

Definition seconds_per_day : Z := 86400.
Definition date_of (t : Z) : Z := t / seconds_per_day.
Definition time_of_day (t : Z) : Z := t mod seconds_per_day.
Definition at_time (date time : Z) : Z := date * seconds_per_day + time.

(** * State and operations *)

Inductive day_kind : Type :=
| not_specified
| weekday (day : Z)
| monthday (day : Z).

Record rotation_at_time_point := RotationPoint {
  m_Day : day_kind;
  m_Hour : Z;
  m_Minute : Z;
  m_Second : Z;
  m_Previous : option Z }.

(** [check_time_point_validity]. *)
Definition check_time_point_validity (hour minute second : Z) : outcome unit :=
  if 24 <=? hour then Throw ex_out_of_range
  else if 60 <=? minute then Throw ex_out_of_range
  else if 60 <=? second then Throw ex_out_of_range
  else Ok ().

(** The three constructors. *)
Definition make_rotation (day : day_kind) (hour minute second : Z) : outcome rotation_at_time_point :=
  let* _ := check_time_point_validity hour minute second in
  Ok (RotationPoint day hour minute second None).

Definition rotation_time (r : rotation_at_time_point) : Z :=
  m_Hour r * 3600 + m_Minute r * 60 + m_Second r.

(** The next rotation after the previous one. *)
Definition next_rotation {cal : Calendar} (r : rotation_at_time_point) (previous : Z) : outcome Z :=
  let time := rotation_time r in
  let time_of_day_passed := time <=? time_of_day previous in
  let previous_date := date_of previous in
  match m_Day r with
  | not_specified =>
      Ok (at_time (if time_of_day_passed then previous_date + 1 else previous_date) time)
  | weekday day =>
      let previous_weekday := day_of_week previous_date in
      let next_date := previous_date + (day - previous_weekday) in
      let next_date :=
        if (day <? previous_weekday) || ((day =? previous_weekday) && time_of_day_passed)
        then next_date + 7 else next_date in
      Ok (at_time next_date time)
  | monthday day =>
      let '(year, month, previous_monthday) := year_month_day previous_date in
      let* next_date := make_date year month day in
      let next_date :=
        if (day <? previous_monthday) || ((day =? previous_monthday) && time_of_day_passed)
        then add_month next_date else next_date in
      Ok (at_time next_date time)
  end.

Definition set_previous (now : Z) (r : rotation_at_time_point) : rotation_at_time_point :=
  RotationPoint (m_Day r) (m_Hour r) (m_Minute r) (m_Second r) (Some now).

(** [rotation_at_time_point::operator()] at the time [now]. *)
Definition check_time_point {cal : Calendar} (now : Z) (r : rotation_at_time_point)
    : outcome (bool * rotation_at_time_point) :=
  match m_Previous r with
  | None => Ok (false, set_previous now r)
  | Some previous =>
      let* next := next_rotation r previous in
      if next <=? now then Ok (true, set_previous now r) else Ok (false, r)
  end.

Record rotation_at_time_interval := RotationInterval {
  m_Interval : Z;
  m_IntervalPrevious : option Z }.

Definition check_time_interval (now : Z) (r : rotation_at_time_interval)
    : bool * rotation_at_time_interval :=
  match m_IntervalPrevious r with
  | None => (false, RotationInterval (m_Interval r) (Some now))
  | Some previous =>
      if m_Interval r <=? now - previous then (true, RotationInterval (m_Interval r) (Some now))
      else (false, r)
  end.

(** * Specification *)

(** The days on which rotation takes place. *)
Definition rotation_day {cal : Calendar} (r : rotation_at_time_point) (date : Z) : Prop :=
  match m_Day r with
  | not_specified => True
  | weekday day => day_of_week date = day
  | monthday day => ∃ y m, year_month_day date = (y, m, day)
  end.

(** A rotation is due after [previous] and not later than [now]. *)
Definition due {cal : Calendar} (r : rotation_at_time_point) (previous now : Z) : Prop :=
  ∃ date, rotation_day r date ∧ previous < at_time date (rotation_time r) ≤ now.

Definition rotation_wf (r : rotation_at_time_point) : Prop :=
  0 ≤ m_Hour r < 24 ∧ 0 ≤ m_Minute r < 60 ∧ 0 ≤ m_Second r < 60 ∧
  match m_Day r with weekday d => 0 ≤ d < 7 | _ => True end.

Section correctness.
Context {cal : Calendar}.
Implicit Types (r : rotation_at_time_point).

Lemma rotation_time_range r : rotation_wf r → 0 ≤ rotation_time r < seconds_per_day.
Proof. unfold rotation_wf, rotation_time, seconds_per_day. lia. Qed.

Lemma time_split t : t = at_time (date_of t) (time_of_day t) ∧ 0 ≤ time_of_day t < seconds_per_day.
Proof.
  unfold at_time, date_of, time_of_day, seconds_per_day.
  pose proof (Z.div_mod t 86400). pose proof (Z.mod_pos_bound t 86400). lia.
Qed.

Lemma day_of_week_add d k : 0 ≤ k → day_of_week (d + k) = (day_of_week d + k) mod 7.
Proof.
  intros Hk. revert k Hk. apply natlike_ind.
  - rewrite !Z.add_0_r. symmetry. apply Z.mod_small, day_of_week_range.
  - intros k Hk IH. replace (d + Z.succ k) with (d + k + 1) by lia.
    rewrite day_of_week_succ, IH, Zplus_mod_idemp_l. f_equal. lia.
Qed.

(** Days of the same week day are a whole number of weeks apart. *)
Lemma day_of_week_diff d1 d2 :
  (day_of_week d2 - day_of_week d1) mod 7 = (d2 - d1) mod 7.
Proof.
  pose proof (day_of_week_range d1). pose proof (day_of_week_range d2).
  destruct (Z.le_gt_cases d1 d2).
  - replace d2 with (d1 + (d2 - d1)) at 1 by lia. rewrite day_of_week_add by lia.
    rewrite Zminus_mod_idemp_l. f_equal. lia.
  - replace d1 with (d2 + (d1 - d2)) at 1 by lia. rewrite day_of_week_add by lia.
    rewrite Zminus_mod_idemp_r. f_equal. lia.
Qed.

(** [next] is the first rotation after [previous]. *)
Definition first_after r (previous next : Z) : Prop :=
  previous < next ∧ (∃ date, rotation_day r date ∧ next = at_time date (rotation_time r)) ∧
  ∀ date, rotation_day r date → previous < at_time date (rotation_time r) →
    next ≤ at_time date (rotation_time r).

Lemma first_after_due r previous next now :
  first_after r previous next → ((next <=? now) = true ↔ due r previous now).
Proof.
  intros (Hlt & (date & Hd & ->) & Hfirst). unfold due. rewrite Z.leb_le. split.
  - intros Hle. by exists date.
  - intros (d & Hday & Hp & Hn). specialize (Hfirst d Hday Hp). lia.
Qed.

Lemma daily_next r previous :
  rotation_wf r → m_Day r = not_specified →
  ∃ next, next_rotation r previous = Ok next ∧ first_after r previous next.
Proof.
  intros Hr Hd. pose proof (rotation_time_range r Hr) as Ht.
  destruct (time_split previous) as [Hp Htod].
  unfold next_rotation, first_after, rotation_day. rewrite Hd. eexists; split; [done|].
  revert Hp. generalize (date_of previous) (time_of_day previous) (rotation_time r) Htod Ht.
  intros d tod t Htod' Ht' ->. unfold at_time, seconds_per_day in *.
  destruct (t <=? tod) eqn:E; to_prop; (split_and!; [lia|by eexists|]); intros date _ Hlt; nia.
Qed.

Lemma weekly_next r day previous :
  rotation_wf r → m_Day r = weekday day →
  ∃ next, next_rotation r previous = Ok next ∧ first_after r previous next.
Proof.
  intros Hr Hd. pose proof (rotation_time_range r Hr) as Ht.
  assert (0 ≤ day < 7) as Hday by (unfold rotation_wf in Hr; rewrite Hd in Hr; lia).
  destruct (time_split previous) as [Hp Htod].
  unfold next_rotation, first_after, rotation_day. rewrite Hd. eexists; split; [done|].
  revert Hp. generalize (date_of previous) (time_of_day previous) (rotation_time r) Htod Ht.
  intros d tod t Htod' Ht' ->. pose proof (day_of_week_range d) as Hw.
  match goal with |- context [if ?c then ?a else ?b] => set (next := if c then a else b) end.
  assert (day_of_week next = day ∧ (d < next ∨ d = next ∧ tod < t) ∧ next ≤ d + 7 ∧
    (next = d + 7 → t ≤ tod)) as (Hn & Hlt & Hle & Hseven).
  { unfold next. destruct ((day <? day_of_week d) || ((day =? day_of_week d) && (t <=? tod))) eqn:E; to_prop.
    - replace (d + (day - day_of_week d) + 7) with (d + (day - day_of_week d + 7)) by lia.
      rewrite day_of_week_add by lia.
      replace (day_of_week d + (day - day_of_week d + 7)) with (day + 1 * 7) by lia.
      rewrite Z.mod_add, Z.mod_small by lia. destruct E as [E|E]; to_prop; lia.
    - assert (day_of_week d ≤ day) by lia. rewrite day_of_week_add by lia.
      replace (day_of_week d + (day - day_of_week d)) with day by lia. rewrite Z.mod_small by lia.
      destruct H0; to_prop; lia. }
  clearbody next. unfold at_time, seconds_per_day in *. split_and!; [nia|by exists next|].
  intros date Hdate Hafter.
  pose proof (day_of_week_diff date next) as Hdiff. rewrite Hdate, Hn, Z.sub_diag, Z.mod_0_l in Hdiff by lia.
  assert (∃ k, next - date = 7 * k) as [k Hk].
  { exists ((next - date) / 7). pose proof (Z.div_mod (next - date) 7 ltac:(lia)). lia. }
  nia.
Qed.
End correctness.

(** * Theorems *)

(** Rotation every day and every week is exact: the check reports that
    the file has to be rotated if and only if a rotation time of the
    schedule has passed since the previous rotation (or since the first
    check); it then starts over from the current time and otherwise changes
    nothing. *)
Theorem scheduled_rotation_exact {cal : Calendar} (r : rotation_at_time_point) (previous now : Z) :
  rotation_wf r → (∀ day, m_Day r ≠ monthday day) → m_Previous r = Some previous →
  ∃ result r', check_time_point now r = Ok (result, r') ∧ (result = true ↔ due r previous now) ∧
    r' = if result then set_previous now r else r.
Proof.
  intros Hr Hkind Hp.
  assert (∃ next, next_rotation r previous = Ok next ∧ first_after r previous next) as (next & Hn & Hf).
  { destruct (m_Day r) as [|day|day] eqn:Ed; [by apply daily_next|by eapply weekly_next|by destruct (Hkind day)]. }
  unfold check_time_point. rewrite Hp, Hn. cbn [obind].
  pose proof (first_after_due r previous next now Hf) as Hdue.
  destruct (next <=? now); eexists _, _; (split; [done|]); by split.
Qed.

(** Rotation by interval: the times at which rotation is reported are at
    least the interval apart and no later than the first check after the
    interval has passed. *)
Theorem interval_rotation_exact (r : rotation_at_time_interval) (previous now : Z) :
  m_IntervalPrevious r = Some previous →
  let '(result, r') := check_time_interval now r in
  (result = true ↔ previous + m_Interval r ≤ now) ∧
  m_IntervalPrevious r' = (if result then Some now else Some previous) ∧ m_Interval r' = m_Interval r.
Proof.
  intros Hp. unfold check_time_interval. rewrite Hp.
  destruct (m_Interval r <=? now - previous) eqn:E; to_prop; split_and!; try done; lia.
Qed.

(** * The Gregorian calendar

    Days are counted from 1 March of year 0, as in the usual conversion
    between day numbers and dates. *)
Module gregorian.
Definition is_leap (y : Z) : bool := ((y mod 4 =? 0) && negb (y mod 100 =? 0)) || (y mod 400 =? 0).

Definition days_in_month (y m : Z) : Z :=
  if m =? 2 then if is_leap y then 29 else 28
  else if (m =? 4) || (m =? 6) || (m =? 9) || (m =? 11) then 30 else 31.

(** The day number of a date: months count from March. *)
Definition day_number (y m d : Z) : Z :=
  let y := if m <=? 2 then y - 1 else y in
  let m := (m + 9) mod 12 in
  365 * y + y / 4 - y / 100 + y / 400 + (153 * m + 2) / 5 + d - 1.

Definition date_of_number (n : Z) : Z * Z * Z :=
  let era := n / 146097 in
  let doe := n mod 146097 in
  let yoe := (doe - doe / 1460 + doe / 36524 - doe / 146096) / 365 in
  let doy := doe - (365 * yoe + yoe / 4 - yoe / 100) in
  let mp := (5 * doy + 2) / 153 in
  let d := doy - (153 * mp + 2) / 5 + 1 in
  let m := if mp <? 10 then mp + 3 else mp - 9 in
  (yoe + era * 400 + (if m <=? 2 then 1 else 0), m, d).

(** Adding a month keeps the last day of a month the last day. *)
Definition next_month (n : Z) : Z :=
  let '(y, m, d) := date_of_number n in
  let '(y', m') := if m =? 12 then (y + 1, 1) else (y, m + 1) in
  let last := days_in_month y' m' in
  day_number y' m' (if d =? days_in_month y m then last else Z.min d last).

#[export] Program Instance calendar : Calendar := {|
  day_of_week n := (n + 3) mod 7;
  year_month_day := date_of_number;
  make_date y m d :=
    if (1 <=? d) && (d <=? days_in_month y m) then Ok (day_number y m d) else Throw ex_bad_day_of_month;
  add_month := next_month |}.
Next Obligation. intros d. apply Z.mod_pos_bound. lia. Qed.
Next Obligation. intros d. simpl. rewrite Zplus_mod_idemp_l. f_equal. lia. Qed.

(** Wednesday, 15 February 2023, 10:30, and a rotation every Friday at 9:00. *)
Definition sample_now : Z := at_time (day_number 2023 2 15) (10 * 3600 + 1800).
Definition fridays : rotation_at_time_point := RotationPoint (weekday 5) 9 0 0 (Some sample_now).

Lemma scheduled_rotation_exact_witness :
  (∃ r', check_time_point (at_time (day_number 2023 2 17) (9 * 3600)) fridays = Ok (true, r')) ∧
  due fridays sample_now (at_time (day_number 2023 2 17) (9 * 3600)).
Proof.
  destruct (scheduled_rotation_exact fridays sample_now (at_time (day_number 2023 2 17) (9 * 3600)))
    as (result & r' & Hc & Hdue & _).
  - unfold rotation_wf. simpl. lia.
  - discriminate.
  - reflexivity.
  - vm_compute in Hc. injection Hc as <- <-. split; [|by apply Hdue]. eexists. vm_compute. reflexivity.
Defined.

Lemma interval_rotation_exact_witness :
  (check_time_interval 100 (RotationInterval 60 (Some 30))).1 = true.
Proof.
  pose proof (interval_rotation_exact (RotationInterval 60 (Some 30)) 30 100 eq_refl) as H.
  destruct (check_time_interval 100 (RotationInterval 60 (Some 30))) as [result r'] eqn:E.
  simpl in H |- *. apply H. lia.
Defined.

(** Rotation on a day of the month, in the Gregorian calendar, deviates
    from its documentation in two ways. A check throws when the previous
    rotation was in a month without the day; and a rotation on day 28 is missed
    on 28 March after a rotation on 28 February, because adding a month to the
    last day of February gives the last day of March. *)
Theorem monthday_rotation_deviates :
  check_time_point (sample_now + 60) (RotationPoint (monthday 31) 0 0 0 (Some sample_now))
    = Throw ex_bad_day_of_month ∧
  let previous := at_time (day_number 2023 2 28) 3600 in
  let r := RotationPoint (monthday 28) 0 0 0 (Some previous) in
  let now := at_time (day_number 2023 3 30) 0 in
  due r previous now ∧ check_time_point now r = Ok (false, r).
Proof.
  split; [reflexivity|]. split; [|reflexivity].
  exists (day_number 2023 3 28). split; [by exists 2023, 3|]. by vm_compute.
Qed.
End gregorian.
