(* ===== verification/Queues.v ===== *)
(** Record queues of asynchronous sinks (src/include/boost/log/sinks/
    bounded_fifo_queue.hpp, bounded_ordering_queue.hpp,
    unbounded_ordering_queue.hpp) with their overflow strategies
    (block_on_overflow.hpp, drop_on_overflow.hpp), as a transition system.

    Every step is one critical section of the queue's mutex, run by a producer,
    by the consumer or by the thread that interrupts the consumer; a thread that
    waits on a condition variable is part of the state. *)

From Stdlib Require Import ZArith.
From stdpp Require Import base numbers relations list.
From S2P Require Import Prelude.

Inductive overflow_strategy : Type := block_on_overflow | drop_on_overflow.

Section queue.
Context {A : Type}.

(** [enqueued_record]. *)
Record enqueued_record := Enqueued {
  m_timestamp : Z;
  m_record : A }.

(** The template parameters: [MaxQueueSizeV] ([None] for the unbounded queues),
    the overflow strategy, the ordering ([None] for the FIFO queues) and the
    ordering window. *)
Record queue_params := QueueParams {
  max_size : option nat;
  strategy : overflow_strategy;
  order : option (A → A → bool);
  ordering_window : Z }.
Context (params : queue_params).

(** A producer blocked in [on_overflow] is in [waiting] while its context is
    linked and in [woken], with [context.result], after it was unlinked.
    [asleep] tells that the consumer waits for a notification.
    [accepted], [taken], [discarded] and the number of interruptions record the
    history. *)
Record queue := Queue {
  items : list enqueued_record;
  waiting : list A;
  woken : list (A * bool);
  asleep : bool;
  interruption_requested : bool;
  now : Z;
  accepted : list A;
  taken : list A;
  discarded : list A;
  interrupts : nat }.

Definition empty_queue : queue := Queue [] [] [] false false 0 [] [] [] 0.

Definition full (q : queue) : bool :=
  match max_size params with
  | Some n => n <=? length (items q)
  | None => false
  end.

(** [m_queue.push(rec)]; the consumer is notified when the queue was empty. *)
Definition push (r : A) (q : queue) : queue :=
  Queue (items q ++ [Enqueued (now q) r]) (waiting q) (woken q)
    (match items q with [] => false | _ => asleep q end)
    (interruption_requested q) (now q) (accepted q ++ [r]) (taken q) (discarded q)
    (interrupts q).

Definition discard (r : A) (q : queue) : queue :=
  Queue (items q) (waiting q) (woken q) (asleep q) (interruption_requested q) (now q)
    (accepted q) (taken q) (discarded q ++ [r]) (interrupts q).

Definition block (r : A) (q : queue) : queue :=
  Queue (items q) (waiting q ++ [r]) (woken q) (asleep q) (interruption_requested q) (now q)
    (accepted q) (taken q) (discarded q) (interrupts q).

Definition set_woken l (q : queue) : queue :=
  Queue (items q) (waiting q) l (asleep q) (interruption_requested q) (now q)
    (accepted q) (taken q) (discarded q) (interrupts q).

(** The body of the loop in [enqueue]: push, or ask the overflow strategy. *)
Definition enqueue_attempt (r : A) (q : queue) : queue :=
  if full q then
    match strategy params with
    | block_on_overflow => block r q
    | drop_on_overflow => discard r q
    end
  else push r q.

(** The element [front()] or [top()] returns and the rest of the queue. The
    order of equivalent elements in a priority queue is not specified. *)
Definition next_element (l : list enqueued_record) (e : enqueued_record)
    (rest : list enqueued_record) : Prop :=
  match order params with
  | None => l = e :: rest
  | Some less => ∃ l1 l2, l = l1 ++ e :: l2 ∧ rest = l1 ++ l2 ∧
      ∀ x, x ∈ rest → less (m_record x) (m_record e) = false
  end.

Definition ready (e : enqueued_record) (q : queue) : Prop :=
  (ordering_window params ≤ now q - m_timestamp e)%Z.

(** [on_queue_space_available]: unlinks and notifies the first blocked
    producer. *)
Definition space_available (l : list A) (ws : list (A * bool)) : list A * list (A * bool) :=
  match l with
  | [] => ([], ws)
  | r :: rest => (rest, ws ++ [(r, true)])
  end.

(** The record is passed to the consumer. *)
Definition take_element (e : enqueued_record) (rest : list enqueued_record) (q : queue) : queue :=
  let '(l, ws) := space_available (waiting q) (woken q) in
  Queue rest l ws false (interruption_requested q) (now q)
    (accepted q) (taken q ++ [m_record e]) (discarded q) (interrupts q).

(** [interrupt_dequeue]. *)
Definition interrupt (q : queue) : queue :=
  Queue (items q) [] (woken q ++ ((λ r, (r, false)) <$> waiting q)) false true (now q)
    (accepted q) (taken q) (discarded q) (S (interrupts q)).

Inductive step : queue → queue → Prop :=
(** [enqueue] and [try_enqueue]; the latter gives up when the queue is full
    or the mutex is taken, which changes nothing. *)
| step_enqueue r q : step q (enqueue_attempt r q)
| step_try_enqueue r q : full q = false → step q (push r q)
(** A producer whose context was unlinked runs again. *)
| step_resume r l1 l2 q :
    woken q = l1 ++ (r, true) :: l2 → step q (enqueue_attempt r (set_woken (l1 ++ l2) q))
| step_give_up r l1 l2 q :
    woken q = l1 ++ (r, false) :: l2 → step q (discard r (set_woken (l1 ++ l2) q))
(** [try_dequeue] *)
| step_try_dequeue e rest q :
    next_element (items q) e rest → step q (take_element e rest q)
(** [try_dequeue_ready], and [dequeue_ready] when it is not interrupted. *)
| step_dequeue_ready e rest q :
    next_element (items q) e rest → ready e q → step q (take_element e rest q)
(** [dequeue_ready] on an empty queue. *)
| step_sleep q :
    items q = [] → interruption_requested q = false →
    step q (Queue [] (waiting q) (woken q) true false (now q) (accepted q) (taken q) (discarded q)
              (interrupts q))
(** [dequeue_ready] returns [false]. *)
| step_interrupted q :
    interruption_requested q = true →
    step q (Queue (items q) (waiting q) (woken q) false false (now q) (accepted q) (taken q) (discarded q)
              (interrupts q))
| step_interrupt q : step q (interrupt q)
| step_tick t q :
    (now q ≤ t)%Z →
    step q (Queue (items q) (waiting q) (woken q) (asleep q) (interruption_requested q) t
              (accepted q) (taken q) (discarded q) (interrupts q)).

Definition reachable : queue → Prop := rtc step empty_queue.

(** * Invariant *)

(** The woken producers that are going to try again. *)
Definition retrying (q : queue) : nat := length (filter (λ x, x.2 = true) (woken q)).

Record queue_ok (q : queue) : Prop := QueueOk {
  (** The capacity is respected. *)
  ok_bounded : ∀ n, max_size params = Some n → length (items q) ≤ n;
  (** Every accepted record was taken once or is still there. *)
  ok_conserved : accepted q ≡ₚ taken q ++ (m_record <$> items q);
  (** A FIFO queue keeps the order. *)
  ok_fifo : order params = None → accepted q = taken q ++ (m_record <$> items q);
  (** There is no blocked producer without a reason: the queue is full, or as
      many woken producers as there is room are about to try again. *)
  ok_no_lost_wakeup : waiting q ≠ [] → ∃ n, max_size params = Some n ∧
    n ≤ length (items q) + retrying q;
  (** The consumer sleeps only on an empty queue and is not interrupted. *)
  ok_consumer : asleep q = true → items q = [] ∧ interruption_requested q = false;
  (** The dropping strategy never blocks. *)
  ok_dropping : strategy params = drop_on_overflow → waiting q = [] ∧ woken q = [];
  (** The blocking strategy discards nothing unless it is interrupted. *)
  ok_blocking : strategy params = block_on_overflow → interrupts q = 0 →
    discarded q = [] ∧ Forall (λ x, x.2 = true) (woken q) }.

Lemma retrying_app q l1 x l2 :
  woken q = l1 ++ x :: l2 →
  retrying q = (if x.2 then 1 else 0) + retrying (set_woken (l1 ++ l2) q).
Proof.
  unfold retrying. intros ->. cbn [set_woken woken]. rewrite !filter_app, !length_app, filter_cons.
  destruct x as [r []]; cbn [snd]; [rewrite decide_True by done|rewrite decide_False by done]; cbn [length]; lia.
Qed.

Lemma empty_queue_ok : queue_ok empty_queue.
Proof. split; simpl; try done; intros; lia. Qed.

Lemma push_ok r q : full q = false → queue_ok q → queue_ok (push r q).
Proof.
  intros Hf [H1 H2 H3 H4 H5 H6 H7]. unfold full in Hf. split; cbn [push items accepted taken waiting woken asleep].
  - intros n Hn. rewrite Hn in Hf. to_prop. rewrite length_app. simpl. lia.
  - rewrite fmap_app, H2, app_assoc. done.
  - intros Ho. rewrite fmap_app, H3, app_assoc by done. done.
  - intros Hw. destruct (H4 Hw) as (n & Hn & Hle). exists n. split; [done|].
    unfold retrying in *. cbn. rewrite length_app. simpl. lia.
  - destruct (items q) as [|x l]; [done|]. intros Hs. by destruct (H5 Hs).
  - done.
  - done.
Qed.

Lemma block_ok r q : full q = true → strategy params = block_on_overflow → queue_ok q → queue_ok (block r q).
Proof.
  intros Hf Hs [H1 H2 H3 H4 H5 H6 H7]. unfold full in Hf.
  split; cbn [block items accepted taken waiting woken asleep]; try done; [|congruence].
  intros _. destruct (max_size params) as [n|]; [|done]. to_prop. exists n. split; [done|]. lia.
Qed.

Lemma enqueue_attempt_ok r q : queue_ok q → queue_ok (enqueue_attempt r q).
Proof.
  intros Hq. unfold enqueue_attempt. destruct (full q) eqn:Ef; [|by apply push_ok].
  destruct (strategy params) eqn:Es; [by apply block_ok|].
  destruct Hq; split; try done. congruence.
Qed.

(** A woken producer that runs again has either found room or blocks again on
    a full queue. *)
Lemma resume_ok r l1 l2 q :
  woken q = l1 ++ (r, true) :: l2 → queue_ok q →
  queue_ok (enqueue_attempt r (set_woken (l1 ++ l2) q)).
Proof.
  intros Hw Hq. pose proof (retrying_app q l1 (r, true) l2 Hw) as Hr. cbn [snd] in Hr.
  assert (strategy params = block_on_overflow) as Hs.
  { destruct (strategy params) eqn:E; [done|]. destruct (ok_dropping _ Hq E) as [_ ?].
    rewrite Hw in *. by destruct l1. }
  destruct Hq as [H1 H2 H3 H4 H5 H6 H7]. unfold enqueue_attempt. rewrite Hs.
  destruct (full (set_woken (l1 ++ l2) q)) eqn:Ef; unfold full in Ef; cbn in Ef.
  - destruct (max_size params) as [n|] eqn:En; [|done]. to_prop.
    split; cbn [block set_woken items accepted taken waiting woken asleep interruption_requested];
      rewrite ?En, ?Hs; try done.
    + intros _. exists n. split; [done|]. lia.
    + intros _ Hi. destruct (H7 Hs Hi) as [? Hall]. split; [done|]. rewrite Hw in Hall.
      apply Forall_app in Hall as [? Hall]. apply Forall_cons in Hall as [? ?]. by apply Forall_app.
  - split; cbn [push set_woken items accepted taken waiting woken asleep interruption_requested].
    + intros n Hn. rewrite Hn in Ef. to_prop. rewrite length_app. simpl. lia.
    + rewrite fmap_app, H2, app_assoc. done.
    + intros Ho. rewrite fmap_app, H3, app_assoc by done. done.
    + intros Hne. destruct (H4 Hne) as (n & Hn & Hle). exists n. split; [done|].
      rewrite length_app. unfold retrying in *. cbn in *. lia.
    + destruct (items q); [done|]. intros Hsl. by destruct (H5 Hsl).
    + congruence.
    + intros _ Hi. destruct (H7 Hs Hi) as [? Hall]. split; [done|]. rewrite Hw in Hall.
      apply Forall_app in Hall as [? Hall]. apply Forall_cons in Hall as [? ?]. by apply Forall_app.
Qed.

Lemma next_element_perm l e rest : next_element l e rest → l ≡ₚ e :: rest.
Proof.
  unfold next_element. destruct (order params); [|by intros ->].
  intros (l1 & l2 & -> & -> & _). by rewrite Permutation_middle.
Qed.

Lemma take_ok e rest q :
  next_element (items q) e rest → queue_ok q → queue_ok (take_element e rest q).
Proof.
  intros Hn [H1 H2 H3 H4 H5 H6 H7]. pose proof (next_element_perm _ _ _ Hn) as Hp.
  assert (length (items q) = S (length rest)) as Hlen by (by rewrite Hp).
  assert (order params = None → items q = e :: rest) as Hfifo
    by (intros Ho; unfold next_element in Hn; by rewrite Ho in Hn).
  unfold take_element. destruct (space_available (waiting q) (woken q)) as [l ws] eqn:Esp.
  split; cbn [items accepted taken waiting woken asleep]; try done.
  - intros n Hmax. specialize (H1 n Hmax). lia.
  - rewrite H2, Hp. cbn. by rewrite <- app_assoc.
  - intros Ho. rewrite (H3 Ho), (Hfifo Ho). cbn. by rewrite <- app_assoc.
  - unfold space_available in Esp. destruct (waiting q) as [|r l']; simplify_eq; [done|].
    intros Hne. destruct (H4 ltac:(done)) as (n & Hmax & Hle). exists n. split; [done|].
    unfold retrying in *. cbn [woken] in *. rewrite filter_app, length_app. simpl. lia.
  - intros Hs. destruct (H6 Hs) as [E1 E2]. unfold space_available in Esp. rewrite E1, E2 in Esp. by simplify_eq.
  - intros Hs Hi. destruct (H7 Hs Hi) as [? Hall]. split; [done|]. unfold space_available in Esp.
    destruct (waiting q); simplify_eq; [done|]. apply Forall_app. by split; [|repeat constructor].
Qed.

Lemma step_ok q q' : step q q' → queue_ok q → queue_ok q'.
Proof.
  intros Hstep Hq. destruct Hstep.
  - by apply enqueue_attempt_ok.
  - by apply push_ok.
  - by apply resume_ok.
  - pose proof (retrying_app q l1 (r, false) l2 H) as Hr. cbn [snd Nat.add] in Hr.
    destruct Hq as [H1 H2 H3 H4 H5 H6 H7].
    split; cbn [discard set_woken items accepted taken waiting woken asleep interruption_requested]; try done.
    + intros Hne. destruct (H4 Hne) as (n & ? & ?). exists n. split; [done|]. unfold retrying in *. cbn in *. lia.
    + intros Hs. destruct (H6 Hs) as [? E]. rewrite E in H. by destruct l1.
    + intros Hs Hi. destruct (H7 Hs Hi) as [_ Hall]. rewrite H in Hall.
      apply Forall_app in Hall as [_ Hall]. by apply Forall_cons in Hall as [? _].
  - by apply take_ok.
  - by apply take_ok.
  - destruct Hq as [H1 H2 H3 H4 H5 H6 H7]. rewrite H in *. by split.
  - destruct Hq as [H1 H2 H3 H4 H5 H6 H7]. by split.
  - destruct Hq as [H1 H2 H3 H4 H5 H6 H7]. split; cbn [interrupt items accepted taken waiting woken asleep]; try done.
    intros Hs. destruct (H6 Hs) as [-> ->]. done.
  - destruct Hq as [H1 H2 H3 H4 H5 H6 H7]. by split.
Qed.

Lemma reachable_queue_ok q : reachable q → queue_ok q.
Proof.
  intros Hr. unfold reachable in Hr. remember empty_queue as q0 eqn:E.
  assert (queue_ok q0) as H0 by (subst; apply empty_queue_ok). clear E.
  induction Hr; [done|]. apply IHHr. by eapply step_ok.
Qed.
End queue.

(** The ordering predicate is a strict order. *)
Definition order_strict {A} (params : queue_params (A := A)) : Prop :=
  match order params with
  | None => True
  | Some less => (∀ x, less x x = false) ∧
      (∀ x y z, less x y = true → less y z = true → less x z = true)
  end.

(** A queue that is not empty has an element to hand out. *)
Lemma next_element_exists {A} (params : queue_params (A := A)) l :
  order_strict params → l ≠ [] → ∃ e rest, next_element params l e rest.
Proof.
  unfold order_strict, next_element. destruct (order params) as [less|].
  - intros [Hirr Htrans] Hne. induction l as [|x l IH]; [done|]. destruct l as [|y l'].
    { exists x, [], [], []. split_and!; [done|done|]. intros z Hz. by apply elem_of_nil in Hz. }
    destruct IH as (e & rest & l1 & l2 & Hl & -> & Hmin); [done|]. rewrite Hl.
    destruct (less (m_record x) (m_record e)) eqn:E.
    + exists x, (l1 ++ e :: l2), [], (l1 ++ e :: l2). split_and!; [done|done|]. intros z Hz.
      destruct (less (m_record z) (m_record x)) eqn:Ez; [|done].
      pose proof (Htrans _ _ _ Ez E) as Hze.
      apply elem_of_app in Hz as [Hz|[->|Hz]%elem_of_cons]; [| |].
      * rewrite (Hmin z) in Hze; [done|]. apply elem_of_app. by left.
      * by rewrite Hirr in Hze.
      * rewrite (Hmin z) in Hze; [done|]. apply elem_of_app. by right.
    + exists e, (x :: l1 ++ l2), (x :: l1), l2. split_and!; [done|done|].
      intros z [->|Hz]%elem_of_cons; [done|by apply Hmin].
  - intros _. destruct l as [|e rest]; [done|]. by exists e, rest.
Qed.

(** * Theorems *)

(** C12: in every execution of a bounded or unbounded queue, by any number of
    producers, a consumer and interruptions, the queue never holds more
    records than its capacity; every accepted record is handed to the
    consumer once or is still queued; a FIFO queue hands records out in the
    order of acceptance; and the blocking strategy discards no record unless
    the queue is interrupted. *)
Theorem queue_invariant {A} (params : queue_params (A := A)) (q : queue) :
  reachable params q →
  (∀ n, max_size params = Some n → length (items q) ≤ n) ∧
  accepted q ≡ₚ taken q ++ (m_record <$> items q) ∧
  (order params = None → accepted q = taken q ++ (m_record <$> items q)) ∧
  (strategy params = block_on_overflow → interrupts q = 0 → discarded q = []).
Proof.
  intros Hr. destruct (reachable_queue_ok params q Hr) as [H1 H2 H3 _ _ _ H7].
  split_and!; [done..|]. intros Hs Hi. by apply H7.
Qed.

(** A blocked producer is never forgotten: while one is waiting for room,
    a producer that was woken before is about to try again, or the consumer is
    awake and there is a record for it, and taking that record wakes the
    producer that has been waiting for the longest time. *)
Theorem blocked_producer_progress {A} (params : queue_params (A := A)) (q : queue) n r rest :
  reachable params q → max_size params = Some (S n) → order_strict params →
  waiting q = r :: rest →
  (∃ r', (r', true) ∈ woken q) ∨
  (asleep q = false ∧ ∃ e l, next_element params (items q) e l ∧
     step params q (take_element e l q) ∧
     waiting (take_element e l q) = rest ∧ woken (take_element e l q) = woken q ++ [(r, true)]).
Proof.
  intros Hr Hmax Hord Hw. destruct (reachable_queue_ok params q Hr) as [_ _ _ H4 H5 _ _].
  rewrite Hw in H4. destruct (H4 ltac:(done)) as (m & Hm & Hle). assert (m = S n) by congruence. subst m.
  destruct (filter (λ x : A * bool, x.2 = true) (woken q)) as [|[r' b] l] eqn:Ef.
  - right. unfold retrying in Hle. rewrite Ef in Hle. simpl in Hle.
    assert (items q ≠ []) as Hne by (intros E; rewrite E in Hle; simpl in Hle; lia).
    assert (asleep q = false) as Ha by (destruct (asleep q) eqn:E; [by destruct (H5 eq_refl)|done]).
    split; [done|]. destruct (next_element_exists params (items q) Hord Hne) as (e & l & Hn).
    exists e, l. split_and!; [done|by apply step_try_dequeue|..]; unfold take_element; by rewrite Hw.
  - left. exists r'. assert ((r', b) ∈ filter (λ x : A * bool, x.2 = true) (woken q)) as Hin
      by (rewrite Ef; apply elem_of_cons; by left).
    apply list_elem_of_filter in Hin as [Hb Hin]. simpl in Hb. by subst b.
Qed.

(** A queue for one record; the producer of [2] is blocked. *)
Module sample_queue.
Definition params : queue_params (A := nat) := QueueParams (Some 1) block_on_overflow None 0.
Definition blocked : queue := enqueue_attempt params 2 (enqueue_attempt params 1 empty_queue).

Lemma blocked_reachable : reachable params blocked.
Proof.
  eapply rtc_l; [apply (step_enqueue params 1)|]. eapply rtc_l; [apply (step_enqueue params 2)|]. apply rtc_refl.
Qed.

Lemma queue_invariant_witness : length (items blocked) ≤ 1 ∧ accepted blocked = [1] ∧ waiting blocked = [2].
Proof.
  destruct (queue_invariant params blocked blocked_reachable) as (H & _).
  split; [by apply H|]. split; reflexivity.
Defined.

Lemma blocked_producer_progress_witness :
  ∃ e l, next_element params (items blocked) e l ∧ waiting (take_element e l blocked) = [].
Proof.
  destruct (blocked_producer_progress params blocked 0 2 []) as [[r' Hr]|(_ & e & l & Hn & _ & Hw & _)].
  - apply blocked_reachable.
  - reflexivity.
  - exact I.
  - reflexivity.
  - by apply elem_of_nil in Hr.
  - by exists e, l.
Defined.
End sample_queue.
