(* ===== verification/FifoQueue.v ===== *)
(** The unbounded FIFO queue of asynchronous sinks
    (src/include/boost/log/sinks/unbounded_fifo_queue.hpp): a queue of nodes with
    two locks (src/src/threadsafe_queue.cpp, detail/threadsafe_queue.hpp) and
    an event to block on (src/src/event.cpp).

    Threads are interleaved at every access to a lock, to a pointer of the
    queue, to a node and to an atomic variable. Memory is a map from addresses
    to nodes; an access to a node that was freed is a crash. *)

From stdpp Require Import base numbers relations list gmap.
From S2P Require Import Prelude Queues.

Section fifo.
Context {A : Type}.

Abbreviation addr := nat.

(** [threadsafe_queue_node]: the link and the storage, which may have no
    value. *)
Record cell := Cell {
  next : option addr;
  storage : option A }.

(** The queue, the event and the interruption flag. [pushed], [popped] and the
    number of interruptions record the history. *)
Record fifo := Fifo {
  heap : gmap addr cell;
  m_Head : addr;
  m_Tail : addr;
  head_locked : bool;
  tail_locked : bool;
  m_state : bool;
  m_interruption_requested : bool;
  pushed : list A;
  popped : list A;
  interruptions : nat }.

Definition set_heap h (s : fifo) : fifo :=
  Fifo h (m_Head s) (m_Tail s) (head_locked s) (tail_locked s) (m_state s) (m_interruption_requested s)
    (pushed s) (popped s) (interruptions s).
Definition set_head a (s : fifo) : fifo :=
  Fifo (heap s) a (m_Tail s) (head_locked s) (tail_locked s) (m_state s) (m_interruption_requested s)
    (pushed s) (popped s) (interruptions s).
Definition set_tail a (s : fifo) : fifo :=
  Fifo (heap s) (m_Head s) a (head_locked s) (tail_locked s) (m_state s) (m_interruption_requested s)
    (pushed s) (popped s) (interruptions s).
Definition lock_head b (s : fifo) : fifo :=
  Fifo (heap s) (m_Head s) (m_Tail s) b (tail_locked s) (m_state s) (m_interruption_requested s)
    (pushed s) (popped s) (interruptions s).
Definition lock_tail b (s : fifo) : fifo :=
  Fifo (heap s) (m_Head s) (m_Tail s) (head_locked s) b (m_state s) (m_interruption_requested s)
    (pushed s) (popped s) (interruptions s).
Definition set_state b (s : fifo) : fifo :=
  Fifo (heap s) (m_Head s) (m_Tail s) (head_locked s) (tail_locked s) b (m_interruption_requested s)
    (pushed s) (popped s) (interruptions s).
Definition set_interruption b (s : fifo) : fifo :=
  Fifo (heap s) (m_Head s) (m_Tail s) (head_locked s) (tail_locked s) (m_state s) b
    (pushed s) (popped s) (if b then S (interruptions s) else interruptions s).
Definition log_push r (s : fifo) : fifo :=
  Fifo (heap s) (m_Head s) (m_Tail s) (head_locked s) (tail_locked s) (m_state s) (m_interruption_requested s)
    (pushed s ++ [r]) (popped s) (interruptions s).
Definition log_pop r (s : fifo) : fifo :=
  Fifo (heap s) (m_Head s) (m_Tail s) (head_locked s) (tail_locked s) (m_state s) (m_interruption_requested s)
    (pushed s) (popped s ++ [r]) (interruptions s).

(** The constructor: one node without a value. *)
Definition new_fifo (a : addr) : fifo :=
  Fifo {[a := Cell None None]} a a false false false false [] [] 0.

(** * Threads *)

(** Which call of [try_pop] it is: the one of [try_dequeue] and
    [try_dequeue_ready], the first one of [dequeue_ready], or one in its
    loop. *)
Inductive attempt := pop_once | pop_first | pop_again.

Inductive pc :=
(** [threadsafe_queue::push]: before the allocation of the node; with a node,
    before the lock; in the critical section. *)
| pushing (r : A)
| locking_tail (p : addr)
| linking (p : addr)
| moving_tail (p : addr)
| unlocking_tail
(** [event::set_signalled] *)
| sig_load
| sig_exchange
| sig_notify
(** [interrupt_dequeue] *)
| interrupting
(** [threadsafe_queue::try_pop]: before the lock; in the critical section;
    with [node_to_free] and [node_with_value]. *)
| locking_head (k : attempt)
| reading_next (k : attempt)
| advancing (k : attempt) (n : addr)
| unlocking_head (k : attempt) (r : option (addr * addr))
| taking (old n : addr)
| freeing (old n : addr)
| destroying (n : addr)
(** [event::wait], called by [dequeue_ready], and the check after it. *)
| wait_exchange
| wait_load
| asleep
| check_interruption
(** The call has returned; an invalid access. *)
| finished
| crashed.

(** [set_next] and [get_next] dereference the pointer. *)
Definition set_next (a : addr) (n : option addr) (s : fifo) : option fifo :=
  match heap s !! a with
  | Some c => Some (set_heap (<[a := Cell n (storage c)]> (heap s)) s)
  | None => None
  end.

Definition get_next (a : addr) (s : fifo) : option (option addr) := next <$> heap s !! a.

(** The value of a node, which must have been constructed. *)
Definition get_value (a : addr) (s : fifo) : option A := heap s !! a ≫= storage.

(** [auto_deallocate]: the node must be there. *)
Definition deallocate (a : addr) (s : fifo) : option fifo :=
  match heap s !! a with
  | Some _ => Some (set_heap (delete a (heap s)) s)
  | None => None
  end.

Definition destroy_value (a : addr) (s : fifo) : option fifo :=
  match heap s !! a with
  | Some (Cell n (Some _)) => Some (set_heap (<[a := Cell n None]> (heap s)) s)
  | _ => None
  end.

(** What follows [try_pop] when the queue was empty. *)
Definition found_nothing (k : attempt) : pc :=
  match k with pop_once => finished | _ => wait_exchange end.

(** An access that may be invalid. *)
Definition access {X} (o : option X) (k : X → pc * fifo) (s : fifo) : pc * fifo :=
  match o with Some x => k x | None => (crashed, s) end.

(** [threadsafe_queue::push]. A step that takes a lock needs the lock to be
    free; the allocator may return any address that is not in use, or throw. *)
Inductive push_step : pc → fifo → pc * fifo → Prop :=
| push_throws r s : push_step (pushing r) s (finished, s)
| push_allocates r p s : heap s !! p = None →
    push_step (pushing r) s (locking_tail p, set_heap (<[p := Cell None (Some r)]> (heap s)) s)
| push_locks p s : tail_locked s = false → push_step (locking_tail p) s (linking p, lock_tail true s)
| push_links p s : push_step (linking p) s
    (access (get_value p s) (λ r, access (set_next (m_Tail s) (Some p) s) (λ s', (moving_tail p, log_push r s')) s) s)
| push_moves p s : push_step (moving_tail p) s (unlocking_tail, set_tail p s)
| push_unlocks s : push_step unlocking_tail s (sig_load, lock_tail false s).

(** [atomic_based_event::set_signalled]; the notification is below. *)
Inductive signal_step : pc → fifo → pc * fifo → Prop :=
| signal_loads s : signal_step sig_load s (if m_state s then finished else sig_exchange, s)
| signal_exchanges s : signal_step sig_exchange s (if m_state s then finished else sig_notify, set_state true s).

(** [interrupt_dequeue]. *)
Inductive interrupt_step : pc → fifo → pc * fifo → Prop :=
| interrupt_stores s : interrupt_step interrupting s (sig_load, set_interruption true s).

(** [threadsafe_queue::try_pop]. *)
Inductive pop_step : pc → fifo → pc * fifo → Prop :=
| pop_locks k s : head_locked s = false → pop_step (locking_head k) s (reading_next k, lock_head true s)
| pop_reads k s : pop_step (reading_next k) s
    (access (get_next (m_Head s) s)
       (λ n, (match n with Some n => advancing k n | None => unlocking_head k None end, s)) s)
| pop_advances k n s : pop_step (advancing k n) s (unlocking_head k (Some (m_Head s, n)), set_head n s)
| pop_unlocks k r s : pop_step (unlocking_head k r) s
    (match r with Some (old, n) => taking old n | None => found_nothing k end, lock_head false s)
| pop_takes old n s : pop_step (taking old n) s (access (get_value n s) (λ r, (freeing old n, log_pop r s)) s)
| pop_frees old n s : pop_step (freeing old n) s (access (deallocate old s) (λ s', (destroying n, s')) s)
| pop_destroys n s : pop_step (destroying n) s (access (destroy_value n s) (λ s', (finished, s')) s).

(** [atomic_based_event::wait]. The kernel may wake a thread up for no reason;
    it checks the value again. *)
Inductive wait_step : pc → fifo → pc * fifo → Prop :=
| wait_exchanges s : wait_step wait_exchange s (if m_state s then check_interruption else wait_load, set_state false s)
| wait_loads s : wait_step wait_load s (if m_state s then wait_exchange else asleep, s)
| wait_spurious s : wait_step asleep s (wait_load, s).

(** The body of the loop of [dequeue_ready] between the calls. *)
Inductive dequeue_step : pc → fifo → pc * fifo → Prop :=
| interruption_checks s : dequeue_step check_interruption s
    (if m_interruption_requested s then finished else locking_head pop_again, set_interruption false s).

Inductive thread_step (p : pc) (s : fifo) (x : pc * fifo) : Prop :=
| by_push : push_step p s x → thread_step p s x
| by_signal : signal_step p s x → thread_step p s x
| by_interrupt : interrupt_step p s x → thread_step p s x
| by_pop : pop_step p s x → thread_step p s x
| by_wait : wait_step p s x → thread_step p s x
| by_dequeue : dequeue_step p s x → thread_step p s x.

(** The calls: [enqueue] and [try_enqueue], [interrupt_dequeue], [try_dequeue]
    and [try_dequeue_ready], [dequeue_ready]. *)
Inductive entry : pc → Prop :=
| entry_enqueue r : entry (pushing r)
| entry_interrupt : entry interrupting
| entry_try_dequeue : entry (locking_head pop_once)
| entry_dequeue_ready : entry (locking_head pop_first).

Definition consuming (p : pc) : bool :=
  match p with
  | locking_head _ | reading_next _ | advancing _ _ | unlocking_head _ _ | taking _ _ | freeing _ _ | destroying _
  | wait_exchange | wait_load | asleep | check_interruption => true
  | _ => false
  end.

(** The order of the list of threads has no meaning. *)
Record system := System { threads : list pc; shared : fifo }.

(** The queue is documented for one consumer at a time; [exclusive] tells
    whether callers keep to it. [notify_one] wakes one thread, if there is
    one. *)
Inductive system_step (exclusive : bool) : system → system → Prop :=
| step_thread ts p rest s p' s' :
    ts ≡ₚ p :: rest → thread_step p s (p', s') → system_step exclusive (System ts s) (System (p' :: rest) s')
| step_notify ts rest s :
    ts ≡ₚ sig_notify :: asleep :: rest → system_step exclusive (System ts s) (System (finished :: wait_load :: rest) s)
| step_notify_none ts rest s :
    ts ≡ₚ sig_notify :: rest → asleep ∉ rest → system_step exclusive (System ts s) (System (finished :: rest) s)
| step_call ts p s :
    entry p → (exclusive = true → consuming p = true → Forall (λ q, consuming q = false) ts) →
    system_step exclusive (System ts s) (System (p :: ts) s).

Definition fifo_reachable (exclusive : bool) (x : system) : Prop :=
  ∃ a, rtc (system_step exclusive) (System [] (new_fifo a)) x.

(** * The chain of nodes *)

(** From the node [a], which has no value of the queue, the links lead through
    the nodes of [l] with their values. *)
Fixpoint chain (h : gmap addr cell) (a : addr) (l : list (addr * A)) : Prop :=
  match l with
  | [] => next <$> h !! a = Some None
  | (b, r) :: l => next <$> h !! a = Some (Some b) ∧ h !! b ≫= storage = Some r ∧ chain h b l
  end.

Lemma chain_agree h h' a l :
  (∀ x, x ∈ a :: l.*1 → h' !! x = h !! x) → chain h a l → chain h' a l.
Proof.
  revert a. induction l as [|[b r] l IH]; intros a Hx; cbn.
  - by rewrite Hx by (by left).
  - rewrite (Hx a), (Hx b) by (cbn; set_solver). intros (? & ? & ?). split_and!; [done..|].
    apply IH; [|done]. intros x Hin. apply Hx. by right.
Qed.

(** The storage of the first node does not matter. *)
Lemma chain_storage h a l c v :
  a ∉ l.*1 → h !! a = Some c → chain h a l → chain (<[a := Cell (next c) v]> h) a l.
Proof.
  intros Ha Hc. destruct l as [|[b r] l]; cbn; rewrite lookup_insert_eq, Hc; [done|].
  intros (? & ? & ?). cbn in Ha. apply not_elem_of_cons in Ha as [Hab Ha].
  split_and!; [done|by rewrite lookup_insert_ne|]. apply (chain_agree h); [|done].
  intros x Hx. apply lookup_insert_ne. set_solver.
Qed.

Lemma chain_live h a l x : chain h a l → x ∈ a :: l.*1 → is_Some (h !! x).
Proof.
  revert a. induction l as [|[b r] l IH]; intros a; cbn.
  - intros H ->%list_elem_of_singleton. destruct (h !! a); [by eexists|done].
  - intros (H1 & H2 & H3) [->|Hx]%elem_of_cons; [destruct (h !! a); [by eexists|done]|by apply (IH b)].
Qed.

Fixpoint last_node (a : addr) (l : list (addr * A)) : addr :=
  match l with
  | [] => a
  | (b, _) :: l => last_node b l
  end.

(** The last node has no successor. *)
Lemma chain_last h a l : chain h a l → next <$> h !! last_node a l = Some None.
Proof. revert a. induction l as [|[b r] l IH]; intros a; [done|]. intros (_ & _ & H). by apply IH. Qed.

Lemma last_node_in a l : last_node a l ∈ a :: l.*1.
Proof. revert a. induction l as [|[b r] l IH]; intros a; [by left|]. right. apply IH. Qed.

Lemma last_node_snoc a l p r : last_node a (l ++ [(p, r)]) = p.
Proof. revert a. induction l as [|[b r'] l IH]; intros a; [done|apply IH]. Qed.

(** A node that is ready is linked behind the last one. *)
Lemma chain_snoc h a l c p r :
  NoDup (a :: l.*1 ++ [p]) → chain h a l → h !! last_node a l = Some c → h !! p = Some (Cell None (Some r)) →
  chain (<[last_node a l := Cell (Some p) (storage c)]> h) a (l ++ [(p, r)]).
Proof.
  revert a. induction l as [|[b r'] l IH]; intros a Hnd Hch Hc Hp; cbn in *.
  - apply NoDup_cons in Hnd as [Hap _]. assert (a ≠ p) by set_solver.
    rewrite lookup_insert_eq, !lookup_insert_ne, Hp by done. done.
  - apply NoDup_cons in Hnd as [Hab Hnd]. destruct Hch as (H1 & H2 & H3).
    pose proof (last_node_in b l). assert (a ≠ last_node b l) by set_solver.
    split_and!; [by rewrite lookup_insert_ne| |by apply IH].
    destruct (decide (b = last_node b l)) as [E|]; [|by rewrite lookup_insert_ne].
    rewrite <- E in Hc |- *. rewrite lookup_insert_eq. by rewrite Hc in H2.
Qed.

(** * The invariant *)

(** The nodes that only one thread knows. *)
Definition owned (p : pc) : list addr :=
  match p with
  | locking_tail a | linking a => [a]
  | unlocking_head _ (Some (old, _)) | taking old _ | freeing old _ => [old]
  | _ => []
  end.

Definition tail_section (p : pc) : bool :=
  match p with linking _ | moving_tail _ | unlocking_tail => true | _ => false end.

Definition head_section (p : pc) : bool :=
  match p with reading_next _ | advancing _ _ | unlocking_head _ _ => true | _ => false end.

(** The value that was unlinked and not handed out yet. *)
Definition in_flight (s : fifo) (p : pc) : list A :=
  match p with
  | unlocking_head _ (Some (_, n)) | taking _ n => option_list (get_value n s)
  | _ => []
  end.

Definition thread_ok (s : fifo) (l : list (addr * A)) (p : pc) : Prop :=
  match p with
  | locking_tail a | linking a => ∃ r, heap s !! a = Some (Cell None (Some r))
  | moving_tail a => a = last_node (m_Head s) l
  | advancing _ n => ∃ r l', l = (n, r) :: l'
  | unlocking_head _ (Some (old, n)) | taking old n | freeing old n =>
      n = m_Head s ∧ is_Some (heap s !! old) ∧ is_Some (get_value n s)
  | destroying n => n = m_Head s ∧ is_Some (get_value n s)
  | crashed => False
  | _ => True
  end.

Definition is_moving (p : pc) : bool := match p with moving_tail _ => true | _ => false end.

(** The number of threads in a place. *)
Definition count (f : pc → bool) (ts : list pc) : nat := sum_list_with (λ p, Nat.b2n (f p)) ts.

#[local] Arguments count : simpl never.

(** The memory is the chain from the head and the nodes the threads own, all
    different; the tail is the last node of the chain except while it is being
    moved, when it may even point to a node that was freed; the locks exclude;
    what was pushed is what was popped, the value in flight and the chain. *)
Record fifo_ok (ts : list pc) (s : fifo) (l : list (addr * A)) : Prop := FifoOk {
  ok_chain : chain (heap s) (m_Head s) l;
  ok_distinct : NoDup (m_Head s :: l.*1 ++ (ts ≫= owned));
  ok_live : ∀ x, is_Some (heap s !! x) → x ∈ m_Head s :: l.*1 ++ (ts ≫= owned);
  ok_threads : Forall (thread_ok s l) ts;
  ok_tail : count is_moving ts = 0 → m_Tail s = last_node (m_Head s) l;
  ok_tail_lock : count tail_section ts = Nat.b2n (tail_locked s);
  ok_head_lock : count head_section ts = Nat.b2n (head_locked s);
  ok_one_consumer : count consuming ts ≤ 1;
  ok_history : pushed s = popped s ++ (ts ≫= in_flight s) ++ l.*2 }.

#[local] Instance count_proper f : Proper ((≡ₚ) ==> (=)) (count f).
Proof. intros ts ts' H. unfold count. by rewrite H. Qed.

Lemma count_cons f p ts : count f (p :: ts) = Nat.b2n (f p) + count f ts.
Proof. done. Qed.

Lemma count_pos f ts p : p ∈ ts → f p = true → 0 < count f ts.
Proof.
  intros Hp Hf. induction ts as [|q ts IH]; [by apply elem_of_nil in Hp|]. rewrite count_cons.
  apply elem_of_cons in Hp as [->|Hp]; [rewrite Hf; cbn; lia|specialize (IH Hp); lia].
Qed.

Lemma count_zero f ts : count f ts = 0 → Forall (λ p, f p = false) ts.
Proof.
  induction ts as [|p ts IH]; [constructor|]. rewrite count_cons. intros H. constructor; [by destruct (f p)|apply IH; lia].
Qed.

Definition is_asleep (p : pc) : bool := match p with asleep => true | _ => false end.

Lemma in_flight_count s ts : length (ts ≫= in_flight s) + count is_asleep ts ≤ count consuming ts.
Proof.
  induction ts as [|p ts IH]; [done|]. rewrite bind_cons, length_app, !count_cons.
  assert (length (in_flight s p) + Nat.b2n (is_asleep p) ≤ Nat.b2n (consuming p)); [|lia].
  destruct p as [| | | | | | | | | | | |k [[old n]|]| | | | | | | | |]; cbn; try lia; by destruct (get_value n s); cbn; lia.
Qed.

Lemma perm_small {X} (l l' : list X) : l ≡ₚ l' → length l ≤ 1 → l = l'.
Proof.
  destruct l as [|x [|y l]]; cbn; intros H Hl; [|by apply Permutation_singleton_l in H|lia].
  by apply Permutation_nil_l in H.
Qed.

Lemma NoDup_perm {X} (l l' : list X) : l ≡ₚ l' → NoDup l → NoDup l'.
Proof. by intros ->. Qed.

Lemma fifo_ok_perm ts ts' s l : ts ≡ₚ ts' → fifo_ok ts s l → fifo_ok ts' s l.
Proof.
  intros Hp [H1 H2 H3 H4 H5 H6 H7 H8 H9].
  assert ((ts ≫= owned) ≡ₚ (ts' ≫= owned)) as Ho by (by apply bind_Permutation).
  assert ((ts ≫= in_flight s) = (ts' ≫= in_flight s)) as Hf.
  { apply perm_small; [by apply bind_Permutation|]. pose proof (in_flight_count s ts). lia. }
  split; [done| | | | | | | |by rewrite <- Hf].
  - by rewrite <- Ho.
  - intros x Hx. rewrite <- Ho. by apply H3.
  - by rewrite <- Hp.
  - by rewrite <- Hp.
  - by rewrite <- Hp.
  - by rewrite <- Hp.
  - by rewrite <- Hp.
Qed.

Implicit Types (s : fifo) (l : list (addr * A)) (rest ts : list pc).

(** ** Steps that leave the nodes alone *)

(** The same nodes and the same history. *)
Definition same_nodes (s s' : fifo) : Prop :=
  heap s' = heap s ∧ m_Head s' = m_Head s ∧ m_Tail s' = m_Tail s ∧ pushed s' = pushed s ∧ popped s' = popped s.

Lemma in_flight_same s s' p : heap s' = heap s → in_flight s' p = in_flight s p.
Proof. unfold in_flight, get_value. by intros ->. Qed.

Lemma thread_ok_same s s' l p : heap s' = heap s → m_Head s' = m_Head s → thread_ok s l p → thread_ok s' l p.
Proof. unfold thread_ok, get_value. by intros -> ->. Qed.

Lemma fifo_ok_frame p p' rest s s' l :
  fifo_ok (p :: rest) s l → same_nodes s s' → owned p' = owned p → in_flight s p' = in_flight s p → thread_ok s l p' →
  Nat.b2n (consuming p') ≤ Nat.b2n (consuming p) → is_moving p = false → is_moving p' = false →
  Nat.b2n (tail_section p') + Nat.b2n (tail_locked s) = Nat.b2n (tail_section p) + Nat.b2n (tail_locked s') →
  Nat.b2n (head_section p') + Nat.b2n (head_locked s) = Nat.b2n (head_section p) + Nat.b2n (head_locked s') →
  fifo_ok (p' :: rest) s' l.
Proof.
  intros [H1 H2 H3 H4 H5 H6 H7 H8 H9] (E1 & E2 & E3 & E4 & E5) Ho Hf Ht Hc Hm Hm' Htl Hhl.
  rewrite !count_cons, !bind_cons in *. apply Forall_cons in H4 as [_ H4].
  split; rewrite ?count_cons, ?bind_cons, ?E1, ?E2, ?E3, ?E4, ?E5, ?Ho; try done; try lia.
  - constructor; [by eapply thread_ok_same|]. eapply Forall_impl; [exact H4|]. intros q. by apply thread_ok_same.
  - rewrite Hm'. rewrite Hm in H5. done.
  - rewrite (in_flight_same s s' p'), Hf by done. rewrite H9. do 2 f_equal. f_equal.
    apply list_bind_ext; [|done]. intros q. symmetry. by apply in_flight_same.
Qed.

(** ** Steps on nodes *)

Lemma owned_live s l ts x : Forall (thread_ok s l) ts → x ∈ ts ≫= owned → is_Some (heap s !! x).
Proof.
  intros Hts (p & Hx & Hp)%list_elem_of_bind. rewrite Forall_forall in Hts. specialize (Hts p Hp).
  destruct p as [|a|a| | | | | | | | | |k [[old n]|]|old n|old n| | | | | | |]; cbn in Hx; try set_solver;
    apply list_elem_of_singleton in Hx as ->; cbn in Hts; naive_solver.
Qed.

Lemma distinct_node s l ts x :
  NoDup (m_Head s :: l.*1 ++ (ts ≫= owned)) → x ∈ ts ≫= owned → x ∉ m_Head s :: l.*1.
Proof. rewrite app_comm_cons. intros (_ & H & _)%NoDup_app Hx Hin. by apply (H x). Qed.

(** A step of another thread on nodes that a thread does not own, by which the
    chain may grow at its end. *)
Lemma thread_ok_grows s h' l l' p :
  get_value (m_Head s) (set_heap h' s) = get_value (m_Head s) s → (∀ x, x ∈ owned p → h' !! x = heap s !! x) →
  is_moving p = false ∨ l' = l → l `prefix_of` l' →
  thread_ok s l p → thread_ok (set_heap h' s) l' p ∧ in_flight (set_heap h' s) p = in_flight s p.
Proof.
  intros Hv Hx Hm [k ->].
  destruct p as [|a|a|a| | | | | | | |k0 n|k0 [[old n]|]|old n|old n|n| | | | | |]; cbn in *; try done.
  - rewrite Hx by set_solver. done.
  - rewrite Hx by set_solver. done.
  - destruct Hm as [|E]; [done|]. by rewrite E.
  - intros (r & l0 & ->). by eauto.
  - rewrite Hx by set_solver. intros (-> & ? & ?). rewrite Hv. done.
  - rewrite Hx by set_solver. intros (-> & ? & ?). rewrite Hv. done.
  - rewrite Hx by set_solver. intros (-> & ? & ?). rewrite Hv. done.
  - intros (-> & ?). by rewrite Hv.
Qed.

Lemma rest_grows s h' l l' rest :
  get_value (m_Head s) (set_heap h' s) = get_value (m_Head s) s → (∀ x, x ∈ rest ≫= owned → h' !! x = heap s !! x) →
  Forall (λ p, is_moving p = false) rest ∨ l' = l → l `prefix_of` l' → Forall (thread_ok s l) rest →
  Forall (thread_ok (set_heap h' s) l') rest ∧ rest ≫= in_flight (set_heap h' s) = rest ≫= in_flight s.
Proof.
  intros Hv Hx Hm Hl Hr. induction Hr as [|p rest Hp Hr IH]; [done|]. rewrite bind_cons in Hx.
  destruct (thread_ok_grows s h' l l' p) as [H1 H2]; [done|set_solver| |done|done|].
  { destruct Hm as [Hm|]; [|by right]. apply Forall_cons in Hm as [? _]. by left. }
  destruct IH as [H3 H4]; [set_solver| |]. { destruct Hm as [Hm|]; [|by right]. apply Forall_cons in Hm as [_ ?]. by left. }
  split; [by constructor|]. by rewrite !bind_cons, H2, H4.
Qed.

Lemma push_allocates_ok r p rest s l : fifo_ok (pushing r :: rest) s l → heap s !! p = None →
  fifo_ok (locking_tail p :: rest) (set_heap (<[p := Cell None (Some r)]> (heap s)) s) l.
Proof.
  intros [H1 H2 H3 H4 H5 H6 H7 H8 H9] Hp. apply Forall_cons in H4 as [_ H4].
  assert (∀ x, is_Some (heap s !! x) → <[p := Cell None (Some r)]> (heap s) !! x = heap s !! x) as Hag.
  { intros x [c Hx]. apply lookup_insert_ne. intros ->. congruence. }
  assert (p ∉ m_Head s :: l.*1 ++ (rest ≫= owned)) as Hfresh.
  { rewrite app_comm_cons. intros [Hin|Hin]%elem_of_app.
    - apply (chain_live _ _ _ _ H1) in Hin. rewrite Hp in Hin. by destruct Hin.
    - apply (owned_live s l) in Hin; [|done]. rewrite Hp in Hin. by destruct Hin. }
  destruct (rest_grows s (<[p := Cell None (Some r)]> (heap s)) l l rest) as [Hr Hf]; [|..].
  { unfold get_value. cbn. rewrite Hag; [done|]. apply (chain_live _ _ _ _ H1). by left. }
  { intros x Hx. apply Hag. by apply (owned_live s l) in Hx. }
  { by right. } { done. } { done. }
  split; rewrite ?bind_cons, ?Hf in *; try done.
  - apply (chain_agree (heap s)); [|done]. intros x Hx. apply Hag. by apply (chain_live _ _ _ _ H1).
  - apply (NoDup_perm (p :: m_Head s :: l.*1 ++ (rest ≫= owned))); [cbn; solve_Permutation|by constructor].
  - intros x Hx. cbn in Hx. destruct (decide (x = p)) as [->|Hne]; [cbn; set_solver|].
    rewrite lookup_insert_ne in Hx by done. apply H3 in Hx. cbn in *. set_solver.
  - constructor; [|done]. exists r. cbn. apply lookup_insert_eq.
Qed.

Lemma tail_section_alone f p rest s l :
  (∀ q, f q = true → tail_section q = true) → tail_section p = true → fifo_ok (p :: rest) s l →
  tail_locked s = true ∧ count f rest = 0.
Proof.
  intros Hf Hp Hok. pose proof (ok_tail_lock _ _ _ Hok) as H. rewrite count_cons, Hp in H. cbn in H.
  destruct (tail_locked s); [|done]. split; [done|]. cbn in H. assert (count tail_section rest = 0) as H0 by lia. clear H Hok.
  induction rest as [|q rest IH]; [done|]. rewrite count_cons in *. specialize (Hf q). destruct (f q); cbn in *.
  - rewrite (Hf eq_refl) in H0. done.
  - apply IH. destruct (tail_section q); [done|exact H0].
Qed.

Lemma is_moving_section q : is_moving q = true → tail_section q = true.
Proof. by destruct q. Qed.

Lemma push_links_ok p rest s l : fifo_ok (linking p :: rest) s l →
  ∃ r s', get_value p s = Some r ∧ set_next (m_Tail s) (Some p) s = Some s' ∧
    fifo_ok (moving_tail p :: rest) (log_push r s') (l ++ [(p, r)]).
Proof.
  intros Hok. destruct (tail_section_alone is_moving (linking p) rest s l is_moving_section eq_refl Hok) as [_ Hmv].
  destruct Hok as [H1 H2 H3 H4 H5 H6 H7 H8 H9]. apply Forall_cons in H4 as [[r Hr] H4].
  rewrite H5 in * by (rewrite count_cons; done). pose proof (last_node_in (m_Head s) l) as Hin.
  destruct (chain_live _ _ _ _ H1 Hin) as [c Hc]. exists r. unfold get_value, set_next. rewrite Hr, Hc.
  eexists. split; [done|]. split; [done|]. set (h' := <[last_node (m_Head s) l := _]> (heap s)).
  assert (NoDup (m_Head s :: (l ++ [(p, r)]).*1 ++ (rest ≫= owned))) as Hnd.
  { rewrite fmap_app. eapply NoDup_perm; [|exact H2]. cbn. by rewrite <- app_assoc. }
  assert (∀ x, x ∉ m_Head s :: l.*1 → h' !! x = heap s !! x) as Hag.
  { intros x Hx. apply lookup_insert_ne. intros <-. done. }
  destruct (rest_grows s h' l (l ++ [(p, r)]) rest) as [Hrest Hf]; [| | | |done|].
  { unfold get_value, h'. cbn. destruct (decide (last_node (m_Head s) l = m_Head s)) as [E|Hne].
    - rewrite <- E at 1. rewrite lookup_insert_eq. rewrite <- E, Hc. done.
    - by rewrite lookup_insert_ne. }
  { intros x Hx. apply Hag. eapply distinct_node; [exact H2|]. rewrite bind_cons. set_solver. }
  { left. by apply count_zero. } { by eexists. }
  split; rewrite ?count_cons, ?bind_cons in *; try done.
  - cbn. apply chain_snoc; [|done..]. rewrite app_comm_cons in Hnd. apply NoDup_app in Hnd as [Hnd _].
    by rewrite fmap_app in Hnd.
  - intros x Hx. cbn in Hx. rewrite fmap_app.
    assert (x ∈ m_Head s :: l.*1 ++ owned (linking p) ++ (rest ≫= owned)) as Hx'; [|cbn in *; set_solver].
    apply H3. destruct (decide (last_node (m_Head s) l = x)) as [<-|Hne]; [by rewrite Hc|by unfold h' in Hx; rewrite lookup_insert_ne in Hx].
  - constructor; [cbn; by rewrite last_node_snoc|]. exact Hrest.
  - cbn in Hf |- *. rewrite H9. cbn. rewrite fmap_app, <- !app_assoc. do 2 f_equal. by rewrite <- Hf.
Qed.

Lemma push_moves_ok p rest s l : fifo_ok (moving_tail p :: rest) s l → fifo_ok (unlocking_tail :: rest) (set_tail p s) l.
Proof.
  intros [H1 H2 H3 H4 H5 H6 H7 H8 H9]. apply Forall_cons in H4 as [Hp H4].
  split; rewrite ?count_cons, ?bind_cons in *; try done. constructor; [done|]. exact H4.
Qed.

(** What the consumer does to its own nodes does not concern the producers. *)
Lemma producers_ok p rest s l s' l' :
  fifo_ok (p :: rest) s l → consuming p = true →
  last_node (m_Head s') l' = last_node (m_Head s) l → (∀ x, x ∈ rest ≫= owned → heap s' !! x = heap s !! x) →
  Forall (thread_ok s' l') rest ∧ rest ≫= in_flight s = [] ∧ rest ≫= in_flight s' = [].
Proof.
  intros Hok Hp Hl Hx. pose proof (ok_one_consumer _ _ _ Hok) as Hc. rewrite count_cons, Hp in Hc. cbn in Hc.
  assert (Forall (λ q, consuming q = false) rest) as Hrest by (apply count_zero; lia).
  pose proof (ok_threads _ _ _ Hok) as Ht. apply Forall_cons in Ht as [_ Ht]. clear Hok Hc Hp.
  induction Hrest as [|q rest Hq Hrest IH]; [done|]. apply Forall_cons in Ht as [Htq Ht]. rewrite !bind_cons in *.
  destruct IH as (H1 & H2 & H3); [set_solver|done|]. rewrite H2, H3. split; [constructor; [|done]|by destruct q].
  destruct q; cbn in *; try done; [rewrite Hx by set_solver; done..|by rewrite Hl].
Qed.

Lemma pop_advances_ok k n rest s l : fifo_ok (advancing k n :: rest) s l →
  ∃ r l', l = (n, r) :: l' ∧ fifo_ok (unlocking_head k (Some (m_Head s, n)) :: rest) (set_head n s) l'.
Proof.
  intros Hok. pose proof Hok as [H1 H2 H3 H4 H5 H6 H7 H8 H9]. apply Forall_cons in H4 as [(r & l' & ->) H4].
  exists r, l'. split; [done|]. destruct H1 as (H1 & Hv & Hch).
  destruct (producers_ok _ _ _ _ (set_head n s) l' Hok eq_refl) as (Hr & Hf & Hf'); [done|done|].
  rewrite ?count_cons, ?bind_cons, ?Hf in *. split; rewrite ?count_cons, ?bind_cons, ?Hf'; try done.
  - eapply NoDup_perm; [|exact H2]. cbn. solve_Permutation.
  - intros x Hx. apply H3 in Hx. cbn in *. set_solver.
  - constructor; [|done]. cbn. unfold get_value. cbn. rewrite Hv. split_and!; [done| |by eexists].
    destruct (heap s !! m_Head s); [by eexists|done].
  - cbn in *. unfold get_value. cbn. rewrite Hv. exact H9.
Qed.

Lemma pop_takes_ok old n rest s l : fifo_ok (taking old n :: rest) s l →
  ∃ r, get_value n s = Some r ∧ fifo_ok (freeing old n :: rest) (log_pop r s) l.
Proof.
  intros Hok. pose proof Hok as [H1 H2 H3 H4 H5 H6 H7 H8 H9]. apply Forall_cons in H4 as [(-> & Ho & [r Hr]) H4].
  exists r. split; [done|]. destruct (producers_ok _ _ _ _ (log_pop r s) l Hok eq_refl) as (Hrs & Hf & Hf'); [done|done|].
  rewrite ?count_cons, ?bind_cons, ?Hf in *. split; rewrite ?count_cons, ?bind_cons, ?Hf'; try done.
  - constructor; [|done]. split_and!; [done|done|]. by exists r.
  - cbn in *. rewrite Hr in H9. cbn in H9. by rewrite <- app_assoc.
Qed.

Lemma pop_frees_ok old n rest s l : fifo_ok (freeing old n :: rest) s l →
  ∃ s', deallocate old s = Some s' ∧ fifo_ok (destroying n :: rest) s' l.
Proof.
  intros Hok. pose proof Hok as [H1 H2 H3 H4 H5 H6 H7 H8 H9]. apply Forall_cons in H4 as [(-> & [c Ho] & Hr) H4].
  unfold deallocate. rewrite Ho. eexists. split; [done|].
  assert (old ∉ m_Head s :: l.*1 ++ (rest ≫= owned)) as Hnot.
  { assert (NoDup (old :: m_Head s :: l.*1 ++ (rest ≫= owned))) as Hnd; [|by apply NoDup_cons in Hnd as [? _]].
    eapply NoDup_perm; [|exact H2]. rewrite bind_cons. cbn. solve_Permutation. }
  assert (∀ x, x ∈ m_Head s :: l.*1 ++ (rest ≫= owned) → delete old (heap s) !! x = heap s !! x) as Hag.
  { intros x Hx. apply lookup_delete_ne. by intros <-. }
  destruct (producers_ok _ _ _ _ (set_heap (delete old (heap s)) s) l Hok eq_refl) as (Hrs & Hf & Hf'); [done| |].
  { intros x Hx. apply Hag. set_solver. }
  rewrite ?count_cons, ?bind_cons, ?Hf in *. split; rewrite ?count_cons, ?bind_cons, ?Hf'; try done.
  - apply (chain_agree (heap s)); [|done]. intros x Hx. apply Hag. set_solver.
  - eapply (NoDup_app _ [old]). eapply NoDup_perm; [|exact H2]. cbn. solve_Permutation.
  - intros x Hx. cbn in Hx. destruct (decide (x = old)) as [->|Hne]; [rewrite lookup_delete_eq in Hx; by destruct Hx|].
    rewrite lookup_delete_ne in Hx by done. apply H3 in Hx. cbn in *. set_solver.
  - constructor; [|done]. split; [done|]. unfold get_value in *. cbn. rewrite Hag by set_solver. done.
Qed.

Lemma pop_destroys_ok n rest s l : fifo_ok (destroying n :: rest) s l →
  ∃ s', destroy_value n s = Some s' ∧ fifo_ok (finished :: rest) s' l.
Proof.
  intros Hok. pose proof Hok as [H1 H2 H3 H4 H5 H6 H7 H8 H9]. apply Forall_cons in H4 as [(-> & [r Hr]) H4].
  unfold get_value in Hr. unfold destroy_value. destruct (heap s !! m_Head s) as [[nx v]|] eqn:E; [|done]. cbn in Hr. subst v.
  eexists. split; [done|]. set (h' := <[m_Head s := Cell nx None]> (heap s)).
  assert (∀ x, is_Some (h' !! x) ↔ is_Some (heap s !! x)) as Hlive.
  { intros x. unfold h'. destruct (decide (m_Head s = x)) as [<-|]; [rewrite lookup_insert_eq, E; split; by eexists|by rewrite lookup_insert_ne]. }
  assert (m_Head s ∉ l.*1 ++ (rest ≫= owned)) as Hhd by (by apply NoDup_cons in H2 as [? _]).
  destruct (producers_ok _ _ _ _ (set_heap h' s) l Hok eq_refl) as (Hrs & Hf & Hf'); [done| |].
  { intros x Hx. apply lookup_insert_ne. set_solver. }
  rewrite ?count_cons, ?bind_cons, ?Hf in *. split; rewrite ?count_cons, ?bind_cons, ?Hf'; try done.
  - cbn. apply (chain_storage (heap s) (m_Head s) l (Cell nx (Some r)) None); [set_solver|done|done].
  - intros x Hx. apply H3, Hlive, Hx.
  - by constructor.
  - cbn in *. lia.
Qed.

(** ** Every step *)

Lemma head_live s l ts : fifo_ok ts s l → ∃ c, heap s !! m_Head s = Some c ∧ (next c = None ↔ l = []) ∧
  (∀ n, next c = Some n → ∃ r l', l = (n, r) :: l').
Proof.
  intros Hok. pose proof (ok_chain _ _ _ Hok) as Hc. destruct l as [|[b r] l]; cbn in Hc.
  - destruct (heap s !! m_Head s) as [c|]; [|done]. exists c. cbn in Hc. injection Hc as Hc. split; [done|].
    split; [done|]. intros n. by rewrite Hc.
  - destruct Hc as (Hc & _ & _). destruct (heap s !! m_Head s) as [c|]; [|done]. exists c. cbn in Hc. injection Hc as Hc.
    split; [done|]. rewrite Hc. split; [done|]. intros n [= <-]. by do 2 eexists.
Qed.

(** A thread in a critical section holds the lock. *)
Lemma section_locked s l p rest : fifo_ok (p :: rest) s l →
  (tail_section p = true → tail_locked s = true) ∧ (head_section p = true → head_locked s = true).
Proof.
  intros Hok. pose proof (ok_tail_lock _ _ _ Hok) as Ht. pose proof (ok_head_lock _ _ _ Hok) as Hh.
  rewrite count_cons in Ht, Hh. split; intros E; rewrite E in *; [by destruct (tail_locked s)|by destruct (head_locked s)].
Qed.

Ltac find_access := match goal with H : access _ _ _ = _ |- _ => revert H end.

Lemma fifo_step_ok p rest s l p' s' :
  fifo_ok (p :: rest) s l → thread_step p s (p', s') → ∃ l', fifo_ok (p' :: rest) s' l'.
Proof.
  intros Hok Hs. destruct (section_locked s l p rest Hok) as [Hlt Hlh].
  destruct Hs as [Hs|Hs|Hs|Hs|Hs|Hs]; inversion Hs; subst; clear Hs.
  1, 3, 6, 7, 8, 9, 10, 13, 17, 18, 19, 20: exists l; pose proof (ok_threads _ _ _ Hok) as Ht;
    apply Forall_cons in Ht as [Ht _]; unfold found_nothing; eapply fifo_ok_frame; [exact Hok|..];
    repeat case_match; subst; cbn in *; simplify_eq; try done; try lia;
    repeat match goal with H : tail_locked _ = false |- _ => rewrite H | H : head_locked _ = false |- _ => rewrite H
      | H : true = true → _ |- _ => rewrite H by done end; cbn; try lia; done.
  - exists l. by eapply push_allocates_ok.
  - destruct (push_links_ok _ _ _ _ Hok) as (r & s1 & Hv & Hn & Hok'). find_access. rewrite Hv. cbn. rewrite Hn.
    cbn. intros [= <- <-]. by eexists.
  - exists l. by apply push_moves_ok.
  - destruct (head_live _ _ _ Hok) as (c & Hc & Hnone & Hsome). find_access. unfold get_next. rewrite Hc. cbn.
    intros [= <- <-]. exists l. eapply fifo_ok_frame; [exact Hok|..]; destruct (next c); try done. by apply Hsome.
  - destruct (pop_advances_ok _ _ _ _ _ Hok) as (r & l' & _ & Hok'). by eexists.
  - destruct (pop_takes_ok _ _ _ _ _ Hok) as (r & Hv & Hok'). find_access. rewrite Hv. intros [= <- <-]. by eexists.
  - destruct (pop_frees_ok _ _ _ _ _ Hok) as (s1 & Hv & Hok'). find_access. rewrite Hv. intros [= <- <-]. by eexists.
  - destruct (pop_destroys_ok _ _ _ _ Hok) as (s1 & Hv & Hok'). find_access. rewrite Hv. intros [= <- <-]. by eexists.
Qed.

(** ** Signals *)

(** The consumer has seen an empty queue and is going to block. *)
Definition will_wait (p : pc) : bool :=
  match p with
  | unlocking_head (pop_first | pop_again) None | wait_exchange | wait_load | asleep => true
  | _ => false
  end.

(** A producer has linked a node and is going to signal the event. *)
Definition will_signal (p : pc) : bool :=
  match p with moving_tail _ | unlocking_tail | sig_load | sig_exchange => true | _ => false end.

Definition signalling (p : pc) : bool := match p with sig_load | sig_exchange => true | _ => false end.
Definition is_notifying (p : pc) : bool := match p with sig_notify => true | _ => false end.
Definition is_checking (p : pc) : bool := match p with check_interruption => true | _ => false end.

(** The node of the head has a successor. *)
Definition linked (s : fifo) : Prop := get_next (m_Head s) s ≠ Some None.

Record signals_ok (ts : list pc) (s : fifo) : Prop := SignalsOk {
  sig_elements : 0 < count will_wait ts → linked s → m_state s = true ∨ 0 < count will_signal ts;
  sig_interruption : m_interruption_requested s = true →
    m_state s = true ∨ 0 < count signalling ts ∨ 0 < count is_checking ts;
  sig_asleep : 0 < count is_asleep ts → m_state s = true → 0 < count is_notifying ts }.

Lemma count_le f g ts : (∀ p, f p = true → g p = true) → count f ts ≤ count g ts.
Proof.
  intros H. induction ts as [|p ts IH]; [done|]. rewrite !count_cons. specialize (H p).
  destruct (f p); [rewrite H by done|]; cbn; destruct (g p); cbn; lia.
Qed.

(** The places of the consumer. *)
Lemma consumer_counts ts :
  count will_wait ts + count is_checking ts ≤ count consuming ts ∧ count is_asleep ts ≤ count will_wait ts ∧
  count signalling ts ≤ count will_signal ts.
Proof.
  split; [|split; apply count_le; by intros []]. induction ts as [|p ts IH]; [done|]. rewrite !count_cons.
  assert (Nat.b2n (will_wait p) + Nat.b2n (is_checking p) ≤ Nat.b2n (consuming p)); [|lia].
  destruct p; cbn; try lia. destruct k, r; cbn; lia.
Qed.

Ltac solve_signals :=
  split; rewrite ?count_cons; unfold linked, get_next in *; cbn in *; repeat case_match; cbn in *;
    intuition (congruence || lia).

Lemma thread_step_signals p rest s l p' s' :
  fifo_ok (p :: rest) s l → signals_ok (p :: rest) s → thread_step p s (p', s') → signals_ok (p' :: rest) s'.
Proof.
  intros Hok [W1 W2 W3] Hs. pose proof (ok_one_consumer _ _ _ Hok) as Hc.
  destruct (consumer_counts rest) as (C1 & C2 & C3). rewrite !count_cons in *.
  destruct (head_live _ _ _ Hok) as (c & Hhd & Hnone & Hsome).
  assert (linked s ↔ next c ≠ None) as Hl by (unfold linked, get_next; rewrite Hhd; cbn; split; congruence).
  destruct Hs as [Hs|Hs|Hs|Hs|Hs|Hs]; inversion Hs; subst; clear Hs; try find_access.
  4: { destruct (push_links_ok _ _ _ _ Hok) as (r & s1 & Hv & Hn & Hok'). rewrite Hv. cbn. rewrite Hn. intros [= <- <-].
       unfold set_next in Hn. destruct (heap s !! m_Tail s); [|done]. injection Hn as <-.
       split; rewrite !count_cons; cbn in *; intros; [right; lia|destruct (W2 ltac:(done)) as [?|[?|?]]; [by left|lia|lia]|apply W3; [lia|done]]. }
  10: { unfold get_next. rewrite Hhd. cbn. intros [= <- <-]. destruct (next c); solve_signals. }
  11: destruct r as [[old n]|]; [|destruct k].
  15: { destruct (pop_takes_ok _ _ _ _ _ Hok) as (r & -> & _). intros [= <- <-]. solve_signals. }
  15: { unfold deallocate. destruct (heap s !! old) eqn:E; intros [= <- <-]; cbn in *; solve_signals. }
  15: { unfold destroy_value. destruct (heap s !! n) as [[? []]|] eqn:E; intros [= <- <-]; cbn in *; solve_signals. }
  2: { assert (linked (set_heap (<[p0 := Cell None (Some r)]> (heap s)) s) ↔ linked s) as Hs.
       { unfold linked, get_next. cbn. rewrite lookup_insert_ne; [done|congruence]. }
       split; rewrite ?count_cons; cbn in *; intuition (congruence || lia). }
  all: solve_signals.
Qed.

(** ** Reachable states *)

Definition system_ok (x : system) : Prop := signals_ok (threads x) (shared x) ∧ ∃ l, fifo_ok (threads x) (shared x) l.

Lemma signals_perm ts ts' s : ts ≡ₚ ts' → signals_ok ts s → signals_ok ts' s.
Proof. intros Hp [W1 W2 W3]. split; rewrite <- !Hp; done. Qed.

Lemma step_quiet p p' rest s l :
  fifo_ok (p :: rest) s l → owned p' = owned p → in_flight s p' = in_flight s p → thread_ok s l p' →
  consuming p' = consuming p → tail_section p' = tail_section p → head_section p' = head_section p →
  is_moving p = false → is_moving p' = false → fifo_ok (p' :: rest) s l.
Proof.
  intros Hok H1 H2 H3 H4 H5 H6 H7 H8. eapply fifo_ok_frame; [exact Hok|done|done|done|done| |done|done| |];
    rewrite ?H4, ?H5, ?H6; lia.
Qed.

Lemma call_ok p ts s l : entry p → fifo_ok ts s l → (consuming p = true → Forall (λ q, consuming q = false) ts) →
  fifo_ok (p :: ts) s l.
Proof.
  intros He [H1 H2 H3 H4 H5 H6 H7 H8 H9] Hc.
  assert (count consuming (p :: ts) ≤ 1).
  { rewrite count_cons. destruct (consuming p); [|cbn; lia]. specialize (Hc eq_refl). cbn. clear -Hc.
    induction Hc as [|q ts Hq _ IH]; [done|]. rewrite count_cons, Hq. exact IH. }
  destruct He; split; rewrite ?count_cons, ?bind_cons; cbn; try done; constructor; done.
Qed.

Lemma system_step_ok x y : system_ok x → system_step true x y → system_ok y.
Proof.
  intros (Hsig & l & Hok) Hs. destruct Hs as [ts p rest s p' s' Hp Hs|ts rest s Hp|ts rest s Hp Hno|ts p s He Hc]; cbn in *.
  - apply (fifo_ok_perm _ _ _ _ Hp) in Hok. apply (signals_perm _ _ _ Hp) in Hsig.
    split; [by eapply thread_step_signals|by eapply fifo_step_ok].
  - apply (fifo_ok_perm _ _ _ _ Hp) in Hok. apply (signals_perm _ _ _ Hp) in Hsig.
    pose proof (ok_one_consumer _ _ _ Hok) as H1. destruct (consumer_counts rest) as (C1 & C2 & C3).
    rewrite !count_cons in H1. split.
    + destruct Hsig as [W1 W2 W3]. rewrite !count_cons in *. cbn in *. split; rewrite !count_cons; cbn; intros.
      * apply W1; [lia|done].
      * apply W2. done.
      * lia.
    + exists l. apply (step_quiet _ finished) in Hok; [|done..]. apply (fifo_ok_perm _ (asleep :: finished :: rest)) in Hok; [|constructor].
      apply (step_quiet _ wait_load) in Hok; [|done..]. eapply fifo_ok_perm; [|exact Hok]. constructor.
  - apply (fifo_ok_perm _ _ _ _ Hp) in Hok. apply (signals_perm _ _ _ Hp) in Hsig. split.
    + assert (count is_asleep rest = 0) as Hz.
      { clear -Hno. induction rest as [|q rest IH]; [done|]. rewrite count_cons, IH by set_solver.
        destruct q; cbn; try done. set_solver. }
      destruct Hsig as [W1 W2 W3]. rewrite !count_cons in *. cbn in *. split; rewrite ?count_cons; cbn; [done|done|lia].
    + exists l. by apply (step_quiet sig_notify finished).
  - split; [|exists l; apply call_ok; auto]. destruct Hsig as [W1 W2 W3].
    destruct He; split; rewrite ?count_cons; cbn; try done.
Qed.

Lemma fifo_reachable_ok x : fifo_reachable true x → system_ok x.
Proof.
  intros [a Hr]. eapply (rtc_ind_r system_ok); [|by intros; eapply system_step_ok|exact Hr].
  split; [by split; unfold count; cbn; intros; lia|]. exists []. split; unfold count; cbn; try done.
  - by rewrite lookup_singleton_eq.
  - apply NoDup_singleton.
  - intros x'. destruct (decide (x' = a)) as [->|Hne]; [set_solver|]. rewrite lookup_singleton_ne by done. by intros [].
  - lia.
Qed.

(** * The abstract queue *)

(** The queue model of [Queues] without a bound and without an order. *)
Definition unbounded : queue_params (A := A) := QueueParams None block_on_overflow None 0.

(** What was pushed and not handed out is in the queue. *)
Definition abstract (s : fifo) : queue :=
  Queue (Enqueued 0 <$> drop (length (popped s)) (pushed s)) [] [] false (m_interruption_requested s) 0
    (pushed s) (popped s) [] (interruptions s).

Lemma push_simulates r s s' :
  length (popped s) ≤ length (pushed s) → abstract s' = abstract s → Queues.step unbounded (abstract s) (abstract (log_push r s')).
Proof.
  intros Hl E. assert (abstract (log_push r s') = enqueue_attempt unbounded r (abstract s)) as ->; [|apply step_enqueue].
  unfold abstract in *. injection E as E1 E2 E3 E4 E5. unfold enqueue_attempt, full. cbn. unfold push. cbn.
  rewrite E2, E3, E4, E5, drop_app_le, fmap_app by lia. by destruct (drop (length (popped s)) (pushed s)).
Qed.

Lemma pop_simulates (r : A) (vs : list A) s :
  pushed s = popped s ++ r :: vs → Queues.step unbounded (abstract s) (abstract (log_pop r s)).
Proof.
  intros E. assert (abstract (log_pop r s) = take_element (Enqueued 0 r) (Enqueued 0 <$> vs) (abstract s)) as ->.
  { unfold abstract, take_element. cbn. f_equal. rewrite E.
    change (r :: vs) with ([r] ++ vs). by rewrite app_assoc, drop_app_length. }
  apply step_try_dequeue. cbn. by rewrite E, drop_app_length.
Qed.

Lemma thread_step_simulates p rest s l p' s' : fifo_ok (p :: rest) s l → thread_step p s (p', s') →
  abstract s' = abstract s ∨ Queues.step unbounded (abstract s) (abstract s').
Proof.
  intros Hok Hs. destruct Hs as [Hs|Hs|Hs|Hs|Hs|Hs]; inversion Hs; subst; clear Hs; try find_access; try by left.
  - destruct (push_links_ok _ _ _ _ Hok) as (r & s1 & Hv & Hn & _). rewrite Hv. cbn. rewrite Hn. intros [= <- <-].
    right. apply push_simulates; [rewrite (ok_history _ _ _ Hok), length_app; lia|].
    unfold set_next in Hn. by destruct (heap s !! m_Tail s); simplify_eq.
  - right. apply (step_interrupt unbounded (abstract s)).
  - unfold get_next. destruct (heap s !! m_Head s); intros [= <- <-]; by left.
  - destruct (pop_takes_ok _ _ _ _ _ Hok) as (r & Hv & _). rewrite Hv. intros [= <- <-]. right.
    pose proof (ok_history _ _ _ Hok) as Hh. rewrite bind_cons in Hh. cbn in Hh. rewrite Hv in Hh. cbn in Hh.
    by eapply pop_simulates.
  - unfold deallocate. destruct (heap s !! old); intros [= <- <-]; by left.
  - unfold destroy_value. destruct (heap s !! n) as [[? []]|]; intros [= <- <-]; by left.
  - destruct (m_interruption_requested s) eqn:E.
    + right. by apply (step_interrupted unbounded (abstract s)).
    + left. unfold abstract. cbn. by rewrite E.
Qed.

Lemma reachable_simulates x : fifo_reachable true x → Queues.reachable unbounded (abstract (shared x)).
Proof.
  intros [a Hr]. assert (fifo_reachable true (System [] (new_fifo a))) as H0 by (by exists a).
  assert (Queues.reachable unbounded (abstract (shared (System [] (new_fifo a))))) as H1 by constructor.
  induction Hr as [|x y z Hxy Hyz IH]; [done|]. apply IH.
  - destruct H0 as [b H0]. exists b. by eapply rtc_r.
  - destruct (fifo_reachable_ok _ H0) as (_ & l & Hok).
    destruct Hxy as [ts p rest s p' s' Hp Hs|ts rest s Hp|ts rest s Hp Hno|ts p s He Hc]; cbn in *; [|done..].
    apply (fifo_ok_perm _ _ _ _ Hp) in Hok.
    destruct (thread_step_simulates _ _ _ _ _ _ Hok Hs) as [->|Hq]; [done|]. by eapply rtc_r.
Qed.

(** ** Destruction *)

(** [try_pop] by the only thread. *)
Definition try_pop (s : fifo) : option (option A * fifo) :=
  match get_next (m_Head s) s with
  | Some None => Some (None, s)
  | Some (Some n) =>
      v ← get_value n s;
      s' ← deallocate (m_Head s) (log_pop v (set_head n s));
      s' ← destroy_value n s';
      Some (Some v, s')
  | None => None
  end.

Fixpoint pop_all (fuel : nat) (s : fifo) : option fifo :=
  match fuel with
  | 0 => None
  | S fuel =>
      '(v, s') ← try_pop s;
      match v with Some _ => pop_all fuel s' | None => Some s' end
  end.

(** [unsafe_empty]. *)
Definition unsafe_empty (s : fifo) : bool := bool_decide (m_Head s = m_Tail s).

(** The destructor: the queue is cleared, and the last node is freed after the
    assertion of [reset_last_node]. *)
Definition destroy_queue (fuel : nat) (s : fifo) : option (gmap addr cell) :=
  s' ← (if unsafe_empty s then Some s else pop_all fuel s);
  if unsafe_empty s' then heap <$> deallocate (m_Head s') s' else None.

Lemma try_pop_ok s n r l : fifo_ok [] s ((n, r) :: l) → ∃ s', try_pop s = Some (Some r, s') ∧ fifo_ok [] s' l.
Proof.
  intros Hok. pose proof (ok_head_lock _ _ _ Hok) as Hlk. apply (call_ok (locking_head pop_once)) in Hok; [|constructor|by intros _].
  destruct (head_locked s) eqn:El; [done|]. destruct (ok_chain _ _ _ Hok) as (Hn & Hv & _).
  assert (fifo_ok [advancing pop_once n] (lock_head true s) ((n, r) :: l)) as H1.
  { eapply fifo_ok_frame; [exact Hok|..]; try done; [by do 2 eexists|cbn; by rewrite El]. }
  destruct (pop_advances_ok _ _ _ _ _ H1) as (r' & l' & [= <- <-] & H2).
  assert (fifo_ok [taking (m_Head s) n] (set_head n s) l) as H3.
  { eapply fifo_ok_frame; [exact H2|..]; try done; [|cbn; by rewrite El].
    pose proof (ok_threads _ _ _ H2) as Ht. by apply Forall_cons in Ht as [Ht _]. }
  destruct (pop_takes_ok _ _ _ _ _ H3) as (r' & Hr & H4). destruct (pop_frees_ok _ _ _ _ _ H4) as (s1 & Hs1 & H5).
  destruct (pop_destroys_ok _ _ _ _ H5) as (s2 & Hs2 & H6). exists s2. unfold try_pop, get_next. rewrite Hn.
  change (get_value n s) with (get_value n (set_head n s)). rewrite Hr. cbn [mbind option_bind]. rewrite Hs1. cbn [mbind option_bind].
  rewrite Hs2. assert (Some r' = Some r) as [= ->] by (by rewrite <- Hr, <- Hv). split; [done|].
  destruct H6 as [A1 A2 A3 A4 A5 A6 A7 A8 A9]. by split.
Qed.

Lemma pop_all_ok l s fuel : fifo_ok [] s l → length l < fuel → ∃ s', pop_all fuel s = Some s' ∧ fifo_ok [] s' [].
Proof.
  revert s fuel. induction l as [|[n r] l IH]; intros s [|fuel] Hok Hf; cbn in Hf; [lia| |lia|]; cbn [pop_all].
  - exists s. split; [|done]. unfold try_pop, get_next. by rewrite (ok_chain _ _ _ Hok).
  - destruct (try_pop_ok s n r l Hok) as (s1 & -> & H1). cbn. apply IH; [done|lia].
Qed.

(** The destructor of a queue that no thread uses frees every node. *)
Lemma destroy_queue_ok ts s l fuel : fifo_ok ts s l → Forall (λ p, p = finished) ts → length l < fuel →
  destroy_queue fuel s = Some ∅.
Proof.
  intros Hok Hts Hf. assert (fifo_ok [] s l) as H0.
  { clear Hf. induction Hts as [|p ts -> _ IH]; [done|]. apply IH. destruct Hok as [A1 A2 A3 A4 A5 A6 A7 A8 A9].
    apply Forall_cons in A4 as [_ A4]. by split. }
  unfold destroy_queue. assert (∃ s', (if unsafe_empty s then Some s else pop_all fuel s) = Some s' ∧ fifo_ok [] s' []) as (s' & -> & H1).
  { unfold unsafe_empty. case_bool_decide as E; [|by eapply pop_all_ok]. exists s. split; [done|].
    destruct l as [|[n r] l]; [done|]. exfalso. rewrite (ok_tail _ _ _ H0) in E by done. cbn in E.
    pose proof (ok_distinct _ _ _ H0) as Hnd. apply NoDup_cons in Hnd as [Hnd _]. apply Hnd. rewrite E.
    pose proof (last_node_in n l). cbn. set_solver. }
  cbn. unfold unsafe_empty. rewrite (ok_tail _ _ _ H1) by done. cbn. rewrite bool_decide_true by done. unfold deallocate.
  pose proof (ok_chain _ _ _ H1) as Hc. cbn in Hc. destruct (heap s' !! m_Head s') as [c|] eqn:E; [|done]. cbn. f_equal.
  apply map_eq. intros x. rewrite lookup_empty. destruct (decide (x = m_Head s')) as [->|Hne]; [apply lookup_delete_eq|].
  rewrite lookup_delete_ne by done. destruct (heap s' !! x) eqn:Ex; [|done].
  pose proof (ok_live _ _ _ H1 x ltac:(by rewrite Ex)) as Hx. cbn in Hx. set_solver.
Qed.

(** C27: the unbounded FIFO queue. With any number of threads in [enqueue] and
    [interrupt_dequeue] and one consumer at a time, interleaved at every
    access, no thread ever follows a null or dangling pointer or reads a value
    that was not constructed; the queue goes through states of the abstract
    FIFO queue which the asynchronous frontend is verified with; and what the
    links of the nodes lead to, behind the value in flight, is exactly what
    was pushed and not handed out, in order. When all calls have returned, the
    destructor frees every node and its assertion holds. *)
Theorem fifo_queue_refines x : fifo_reachable true x →
  (crashed ∉ threads x) ∧ Queues.reachable unbounded (abstract (shared x)) ∧
  ∃ l, chain (heap (shared x)) (m_Head (shared x)) l ∧
    pushed (shared x) = popped (shared x) ++ (threads x ≫= in_flight (shared x)) ++ l.*2 ∧
    (Forall (λ p, p = finished) (threads x) →
       ∀ fuel, length (pushed (shared x)) < fuel → destroy_queue fuel (shared x) = Some ∅).
Proof.
  intros Hr. destruct (fifo_reachable_ok x Hr) as (_ & l & Hok). split; [|split; [by apply reachable_simulates|]].
  - intros Hin. pose proof (ok_threads _ _ _ Hok) as Ht. rewrite Forall_forall in Ht. by apply (Ht crashed).
  - exists l. split; [apply (ok_chain _ _ _ Hok)|]. split; [apply (ok_history _ _ _ Hok)|]. intros Hf fuel Hl.
    eapply destroy_queue_ok; [exact Hok|done|]. rewrite (ok_history _ _ _ Hok), !length_app, length_fmap in Hl. lia.
Qed.

(** C28: no wake-up is lost. When the consumer is blocked and no thread is between
    linking a node, or requesting an interruption, and its last step in
    [set_signalled], then there is nothing to wake up for: no interruption is
    requested and everything that was pushed was handed out. *)
Theorem no_lost_signal x : fifo_reachable true x → asleep ∈ threads x →
  Forall (λ p, will_signal p = false ∧ is_notifying p = false) (threads x) →
  get_next (m_Head (shared x)) (shared x) = Some None ∧ m_interruption_requested (shared x) = false ∧
  pushed (shared x) = popped (shared x).
Proof.
  intros Hr Ha Hq. destruct (fifo_reachable_ok x Hr) as ([W1 W2 W3] & l & Hok). destruct x as [ts s]. cbn in *.
  assert (∀ f, (∀ p, will_signal p = false ∧ is_notifying p = false → f p = false) → count f ts = 0) as Hz.
  { intros f Hf. clear -Hq Hf. induction Hq as [|q ts Hq _ IH]; [done|]. by rewrite count_cons, (Hf q Hq). }
  pose proof (count_pos is_asleep ts asleep Ha eq_refl) as Hsleep.
  assert (m_state s = false) as Hst.
  { destruct (m_state s); [|done]. specialize (W3 Hsleep eq_refl). rewrite Hz in W3 by naive_solver. lia. }
  pose proof (ok_one_consumer _ _ _ Hok) as H1. pose proof (in_flight_count s ts) as Hfl.
  destruct (consumer_counts ts) as (C1 & C2 & C3).
  assert (¬ linked s) as Hnl.
  { intros Hl. destruct (W1 ltac:(lia) Hl) as [?|Hs]; [congruence|]. rewrite Hz in Hs by naive_solver. lia. }
  destruct (head_live _ _ _ Hok) as (c & Hc & Hnone & _). unfold linked, get_next in *. rewrite Hc in *. cbn in *.
  destruct (next c) as [n|]; [by destruct Hnl|]. split; [done|]. split.
  - destruct (m_interruption_requested s); [|done]. destruct (W2 eq_refl) as [?|[Hs|Hs]]; [congruence| |].
    + rewrite Hz in Hs; [lia|]. intros p [Hp _]. by destruct p.
    + lia.
  - rewrite (ok_history _ _ _ Hok). assert (l = []) as -> by (by apply Hnone).
    assert (length (ts ≫= in_flight s) = 0) as Hlen by lia. apply nil_length_inv in Hlen as ->. by rewrite app_nil_r.
Qed.
End fifo.

(** * Schedules *)

Module sample_fifo.

(** One step of a thread as a function; [fresh] is the address the allocator
    returns. *)
Definition exec (fresh : nat) (p : pc (A := nat)) (s : fifo) : option (pc * fifo) :=
  match p with
  | pushing r => match heap s !! fresh with
                 | None => Some (locking_tail fresh, set_heap (<[fresh := Cell None (Some r)]> (heap s)) s)
                 | Some _ => None
                 end
  | locking_tail a => if tail_locked s then None else Some (linking a, lock_tail true s)
  | linking a => Some (access (get_value a s)
      (λ r, access (set_next (m_Tail s) (Some a) s) (λ s', (moving_tail a, log_push r s')) s) s)
  | moving_tail a => Some (unlocking_tail, set_tail a s)
  | unlocking_tail => Some (sig_load, lock_tail false s)
  | sig_load => Some (if m_state s then finished else sig_exchange, s)
  | sig_exchange => Some (if m_state s then finished else sig_notify, set_state true s)
  | interrupting => Some (sig_load, set_interruption true s)
  | locking_head k => if head_locked s then None else Some (reading_next k, lock_head true s)
  | reading_next k => Some (access (get_next (m_Head s) s)
      (λ n, (match n with Some n => advancing k n | None => unlocking_head k None end, s)) s)
  | advancing k n => Some (unlocking_head k (Some (m_Head s, n)), set_head n s)
  | unlocking_head k r => Some (match r with Some (old, n) => taking old n | None => found_nothing k end, lock_head false s)
  | taking old n => Some (access (get_value n s) (λ r, (freeing old n, log_pop r s)) s)
  | freeing old n => Some (access (deallocate old s) (λ s', (destroying n, s')) s)
  | destroying n => Some (access (destroy_value n s) (λ s', (finished, s')) s)
  | wait_exchange => Some (if m_state s then check_interruption else wait_load, set_state false s)
  | wait_load => Some (if m_state s then wait_exchange else asleep, s)
  | check_interruption => Some (if m_interruption_requested s then finished else locking_head pop_again, set_interruption false s)
  | _ => None
  end.

Lemma exec_sound fresh p s x : exec fresh p s = Some x → thread_step p s x.
Proof.
  destruct p; cbn; intros E; try done;
    try match goal with H : match ?c with _ => _ end = Some _ |- _ => destruct c eqn:?; [try done|try done] end;
    injection E as <-; solve [constructor; by constructor].
Qed.

(** A new call, a step of the thread at a position, with an address for the
    allocator, and the wake-up of the thread at a position by another one. *)
Inductive choice := Call (p : pc (A := nat)) | Run (i fresh : nat).

Definition call_allowed (exclusive : bool) (p : pc (A := nat)) (ts : list (pc (A := nat))) : bool :=
  negb (exclusive && consuming p) || forallb (λ q, negb (consuming q)) ts.

Definition choose (exclusive : bool) (x : system (A := nat)) (c : choice) : option (system (A := nat)) :=
  match c with
  | Call p =>
      match p with
      | pushing _ | interrupting | locking_head (pop_once | pop_first) =>
          if call_allowed exclusive p (threads x) then Some (System (p :: threads x) (shared x)) else None
      | _ => None
      end
  | Run i fresh =>
      match threads x !! i with
      | Some p => match exec fresh p (shared x) with
                  | Some (p', s') => Some (System (p' :: delete i (threads x)) s')
                  | None => None
                  end
      | None => None
      end
  end.

Lemma call_sound exclusive p ts s : entry p → call_allowed exclusive p ts = true →
  system_step exclusive (System ts s) (System (p :: ts) s).
Proof.
  intros He Hc. apply step_call; [done|]. intros -> Hp. unfold call_allowed in Hc. rewrite Hp in Hc. cbn in Hc.
  rewrite forallb_forall in Hc. apply Forall_forall. intros q Hq. apply list_elem_of_In in Hq. apply Hc in Hq.
  by destruct (consuming q).
Qed.

Lemma choose_sound exclusive x c y : choose exclusive x c = Some y → system_step exclusive x y.
Proof.
  destruct x as [ts s], c as [p|i fresh]; cbn.
  - destruct p as [| | | | | | | | |[]| | | | | | | | | | | |]; try done; destruct (call_allowed _ _ _) eqn:E; try done;
      intros [= <-]; apply call_sound; (done || constructor).
  - destruct (ts !! i) as [p|] eqn:Ei; [|done]. destruct (exec fresh p s) as [[p' s']|] eqn:Ex; [|done]. intros [= <-].
    eapply step_thread; [by apply delete_Permutation|]. by apply (exec_sound fresh).
Qed.

Fixpoint schedule (exclusive : bool) (x : system (A := nat)) (cs : list choice) : option (system (A := nat)) :=
  match cs with
  | [] => Some x
  | c :: cs => match choose exclusive x c with Some y => schedule exclusive y cs | None => None end
  end.

Lemma schedule_reachable exclusive cs x y : fifo_reachable exclusive x → schedule exclusive x cs = Some y →
  fifo_reachable exclusive y.
Proof.
  revert x. induction cs as [|c cs IH]; intros x Hx; cbn; [by intros [= <-]|].
  destruct (choose exclusive x c) as [z|] eqn:E; [|done]. apply IH. destruct Hx as [a Hx]. exists a.
  eapply rtc_r; [exact Hx|]. by apply (choose_sound _ _ c).
Qed.

Definition start : system (A := nat) := System [] (new_fifo 0).

Lemma start_reachable exclusive : fifo_reachable exclusive start.
Proof. by exists 0. Qed.

(** Two records are enqueued; a thread that has just been called is the first
    one of the list. *)
Definition enqueue_two : list choice :=
  Call (pushing 7) :: replicate 7 (Run 0 1) ++ Call (pushing 8) :: replicate 6 (Run 0 2).

(** The consumer takes the first node while the tail is still to be moved. *)
Definition take_early : list choice :=
  [Call (pushing 7); Run 0 1; Run 0 1; Run 0 1; Call (locking_head pop_once)] ++ replicate 7 (Run 0 9).

Lemma fifo_queue_refines_witness :
  ∃ x, schedule true start take_early = Some x ∧ Queues.reachable unbounded (abstract (shared x)) ∧
    popped (shared x) = [7] ∧ moving_tail 1 ∈ threads x ∧ heap (shared x) !! m_Tail (shared x) = None.
Proof.
  destruct (schedule true start take_early) as [x|] eqn:E; [|vm_compute in E; discriminate E]. exists x. split; [done|].
  destruct (fifo_queue_refines x (schedule_reachable _ _ _ _ (start_reachable true) E)) as (_ & H & _).
  split; [exact H|]. vm_compute in E. injection E as <-. split; [reflexivity|]. split; [cbn; set_solver|reflexivity].
Defined.

(** A consumer that finds the queue empty goes to sleep. *)
Definition go_to_sleep : list choice := Call (locking_head pop_first) :: replicate 5 (Run 0 9).

Lemma no_lost_signal_witness :
  ∃ x, schedule true start go_to_sleep = Some x ∧ asleep ∈ threads x ∧ pushed (shared x) = popped (shared x).
Proof.
  destruct (schedule true start go_to_sleep) as [x|] eqn:E; [|vm_compute in E; discriminate E]. exists x. split; [done|].
  pose proof (no_lost_signal x (schedule_reachable _ _ _ _ (start_reachable true) E)) as H.
  vm_compute in E. injection E as <-. assert (asleep ∈ [asleep (A := nat)]) as Ha by set_solver.
  split; [exact Ha|]. apply H; [exact Ha|]. by repeat constructor.
Defined.

(** Two consumers at a time: the node whose value one of them is about to
    read is freed by the other one. *)
Definition two_consumers : list choice :=
  enqueue_two ++ Call (locking_head pop_once) :: replicate 4 (Run 0 9) ++ Call (locking_head pop_once) :: replicate 6 (Run 0 9) ++ [Run 1 9].

Theorem second_consumer_crashes : ∃ x : system (A := nat), fifo_reachable false x ∧ crashed ∈ threads x.
Proof.
  destruct (schedule false start two_consumers) as [x|] eqn:E; [|vm_compute in E; discriminate E]. exists x.
  split; [by eapply schedule_reachable, E; apply start_reachable|]. vm_compute in E. injection E as <-. cbn. set_solver.
Qed.
End sample_fifo.
