(* ===== verification/OnceBlock.v ===== *)
(** Blocks that are executed once: src/src/once_block.cpp and
    src/include/boost/log/utility/once_block.hpp.

    Any number of threads execute any number of blocks, which share one mutex and
    one condition variable. An activation is an execution of the loop
    [for (once_block_sentry sentry(flag); !sentry.executed(); sentry.commit())
    body]. The body may execute blocks itself: such an activation is nested in the
    enclosing one, which goes on when the nested one has ended. The activations
    that a thread is in are a chain of nested ones, and only the innermost one
    moves. The sections that hold the mutex are atomic. *)

From stdpp Require Import base list gmap relations.
From S2P Require Import Prelude.

(** [once_block_flag]. *)
Inductive status := uninitialized | being_initialized | initialized.

#[export] Instance status_eq_dec : EqDecision status.
Proof. solve_decision. Defined.

(** Where an activation is. [leaving] is the destructor of the sentry, on the
    normal path or after an exception of the body; [broadcasting] is between the
    release of the mutex and the notification, after [commit] or [rollback]. *)
Inductive pc :=
| checking
| entering
| waiting (notified : bool)
| running
| committing
| leaving (normal : bool)
| rolling_back (normal : bool)
| broadcasting (after : option bool)
| finished (normal : bool).

(** [executed], before [enter_once_block] is called. *)
Definition executed (s : status) : pc := if decide (s = initialized) then leaving true else entering.

(** [enter_once_block], from locking the mutex, or waking up, to releasing it. *)
Definition enter_once_block (s : status) : status * pc :=
  match s with
  | initialized => (initialized, leaving true)
  | uninitialized => (being_initialized, running)
  | being_initialized => (being_initialized, waiting false)
  end.

(** [commit] and [rollback], up to the release of the mutex. *)
Definition commit (s : status) : status * pc := (initialized, broadcasting None).
Definition rollback (normal : bool) (s : status) : status * pc := (uninitialized, broadcasting (Some normal)).

(** The destructor of the sentry. *)
Definition destroy_sentry (normal : bool) (s : status) : pc :=
  if decide (s = initialized) then finished normal else rolling_back normal.

(** After the notification: the loop tests [executed] again, or the exception
    goes on. *)
Definition after_broadcast (after : option bool) : pc :=
  match after with None => checking | Some normal => finished normal end.

Definition notify (x : nat * pc) : nat * pc :=
  match x.2 with waiting _ => (x.1, waiting true) | _ => x end.

(** The flags of the blocks, the activations with their blocks, the activation
    whose body an activation is nested in, and the blocks whose bodies have been
    executed to the end, in order. *)
Record system := System {
  flags : gmap nat status; acts : gmap nat (nat * pc); nested : gmap nat nat; completed : list nat }.

Definition flag (σ : system) (b : nat) : status := default uninitialized (flags σ !! b).

Definition set_flag (b : nat) (s : status) (σ : system) : system :=
  System (<[b := s]> (flags σ)) (acts σ) (nested σ) (completed σ).
Definition set_pc (i b : nat) (p : pc) (σ : system) : system :=
  System (flags σ) (<[i := (b, p)]> (acts σ)) (nested σ) (completed σ).
Definition notify_all (σ : system) : system := System (flags σ) (notify <$> acts σ) (nested σ) (completed σ).
Definition add_completed (b : nat) (σ : system) : system := System (flags σ) (acts σ) (nested σ) (completed σ ++ [b]).
Definition set_nested (j i : nat) (σ : system) : system := System (flags σ) (acts σ) (<[j := i]> (nested σ)) (completed σ).

Definition ended (σ : system) (j : nat) : Prop := match acts σ !! j with Some (_, finished _) => True | _ => False end.

#[export] Instance ended_dec σ j : Decision (ended σ j).
Proof. unfold ended. destruct (acts σ !! j) as [[b []]|]; apply _. Defined.

(** The blocks in the body of the activation have ended: it is its turn. *)
Definition innermost (σ : system) (i : nat) : Prop := map_Forall (λ j i', i' = i → ended σ j) (nested σ).

(** A step that changes the flag. *)
Definition locked (i b : nat) (f : status → status * pc) (σ : system) : system :=
  let (s, p) := f (flag σ b) in set_pc i b p (set_flag b s σ).

Inductive step : system → system → Prop :=
| step_start σ i b : acts σ !! i = None → step σ (set_pc i b checking σ)
| step_nest σ i b j b' : acts σ !! i = Some (b, running) → innermost σ i → acts σ !! j = None →
    step σ (set_nested j i (set_pc j b' checking σ))
| step_check σ i b : acts σ !! i = Some (b, checking) → step σ (set_pc i b (executed (flag σ b)) σ)
| step_enter σ i b : acts σ !! i = Some (b, entering) → step σ (locked i b enter_once_block σ)
| step_wake σ i b notified : acts σ !! i = Some (b, waiting notified) → step σ (locked i b enter_once_block σ)
| step_done σ i b : acts σ !! i = Some (b, running) → innermost σ i → step σ (set_pc i b committing σ)
| step_throw σ i b : acts σ !! i = Some (b, running) → innermost σ i → step σ (set_pc i b (leaving false) σ)
| step_commit σ i b : acts σ !! i = Some (b, committing) → step σ (add_completed b (locked i b commit σ))
| step_leave σ i b normal : acts σ !! i = Some (b, leaving normal) →
    step σ (set_pc i b (destroy_sentry normal (flag σ b)) σ)
| step_rollback σ i b normal : acts σ !! i = Some (b, rolling_back normal) → step σ (locked i b (rollback normal) σ)
| step_broadcast σ i b after : acts σ !! i = Some (b, broadcasting after) →
    step σ (set_pc i b (after_broadcast after) (notify_all σ)).

Definition initial : system := System ∅ ∅ ∅ [].

(** * The invariant *)

(** The activation that has been chosen to execute the body. *)
Definition owner (p : pc) : Prop :=
  match p with running | committing | leaving false | rolling_back _ => True | _ => False end.

(** What an activation knows about its flag, and who will wake it up. *)
Definition pc_ok (σ : system) (b : nat) (p : pc) : Prop :=
  match p with
  | leaving true | finished true => flag σ b = initialized
  | rolling_back true | broadcasting (Some true) => False
  | waiting false => flag σ b = being_initialized ∨ ∃ j b' after, acts σ !! j = Some (b', broadcasting after)
  | _ => True
  end.

Record inv (σ : system) : Prop := Inv {
  inv_owner : ∀ i b p, acts σ !! i = Some (b, p) → owner p → flag σ b = being_initialized;
  inv_unique : ∀ i j b p q, acts σ !! i = Some (b, p) → acts σ !! j = Some (b, q) → owner p → owner q → i = j;
  inv_owned : ∀ b, flag σ b = being_initialized → ∃ i p, acts σ !! i = Some (b, p) ∧ owner p;
  inv_pc : ∀ i b p, acts σ !! i = Some (b, p) → pc_ok σ b p;
  inv_completed : NoDup (completed σ);
  inv_initialized : ∀ b, b ∈ completed σ ↔ flag σ b = initialized }.

Lemma flag_set σ i b p b' : flag (set_pc i b p σ) b' = flag σ b'.
Proof. done. Qed.

Lemma flag_set_flag σ b s b' : flag (set_flag b s σ) b' = if decide (b' = b) then s else flag σ b'.
Proof. unfold flag. cbn. case_decide as E; [subst; by rewrite lookup_insert_eq|by rewrite lookup_insert_ne]. Qed.

(** States with the same activations and flags. *)
Lemma inv_ext σ σ' : (∀ b, flag σ' b = flag σ b) → acts σ' = acts σ → completed σ' = completed σ → inv σ → inv σ'.
Proof.
  intros Hf Ha Hc [H1 H2 H3 H4 H5 H6].
  assert (∀ b p, pc_ok σ b p → pc_ok σ' b p) as Hpc.
  { intros b p. unfold pc_ok. rewrite Hf, Ha. done. }
  split; rewrite ?Ha, ?Hc; try done; intros b; rewrite ?Hf; try done.
  - intros b' p. rewrite Hf. apply H1.
  - apply H3.
  - intros b' p Hi. apply Hpc. by eapply H4.
Qed.

Definition is_broadcasting (p : pc) : Prop := match p with broadcasting _ => True | _ => False end.

(** What [pc_ok] of other activations needs of a change. *)
Lemma pc_ok_mono σ σ' b p : (flag σ b ≠ uninitialized → flag σ' b = flag σ b) →
  (∀ j b' after, acts σ !! j = Some (b', broadcasting after) → ∃ j b' after, acts σ' !! j = Some (b', broadcasting after)) →
  pc_ok σ b p → pc_ok σ' b p.
Proof.
  intros Hf Hb. destruct p as [| |[]| | |[]|[]|[[]|]|[]]; cbn; try done.
  - intros [E|(j & b' & a & E)]; [left; rewrite Hf by congruence; done|right; by eapply Hb].
  - intros E. rewrite Hf by congruence. done.
  - intros E. rewrite Hf by congruence. done.
Qed.

(** An activation moves on, without touching its flag. *)
Lemma set_pc_inv σ i b p : inv σ →
  match acts σ !! i with
  | None => ¬ owner p
  | Some (b0, q) => b0 = b ∧ (owner p ↔ owner q) ∧ ¬ is_broadcasting q
  end →
  pc_ok σ b p → inv (set_pc i b p σ).
Proof.
  intros [H1 H2 H3 H4 H5 H6] Hi Hp.
  assert (∀ j b0 q, acts σ !! j = Some (b0, q) → owner q → ∃ q', acts (set_pc i b p σ) !! j = Some (b0, q') ∧ owner q') as Hkeep.
  { intros j b0 q Hj Hq. cbn. destruct (decide (j = i)) as [-> |Hne]; [|rewrite lookup_insert_ne by done; eauto].
    rewrite Hj in Hi. destruct Hi as (-> & Hi & _). rewrite lookup_insert_eq. exists p. naive_solver. }
  assert (∀ j b0 q, acts (set_pc i b p σ) !! j = Some (b0, q) → owner q → ∃ q', acts σ !! j = Some (b0, q') ∧ owner q') as Hback.
  { intros j b0 q Hj Hq. cbn in Hj. apply lookup_insert_Some in Hj as [[-> [= -> ->]]|[Hne Hj]]; [|eauto].
    destruct (acts σ !! j) as [[b1 q1]|]; [|done]. destruct Hi as (-> & Hi & _). exists q1. naive_solver. }
  assert (∀ b0 q, pc_ok σ b0 q → pc_ok (set_pc i b p σ) b0 q) as Hpc.
  { intros b0 q. apply pc_ok_mono; [done|]. intros j b' a Hj. exists j, b', a. cbn. rewrite lookup_insert_ne; [done|].
    intros <-. rewrite Hj in Hi. by destruct Hi as (_ & _ & []). }
  split; try done.
  - intros j b0 q Hj Hq. destruct (Hback j b0 q Hj Hq) as (q' & Hj' & Hq'). by apply (H1 j b0 q').
  - intros j k b0 q r Hj Hk Hq Hr. destruct (Hback j b0 q Hj Hq) as (q' & Hj' & Hq'), (Hback k b0 r Hk Hr) as (r' & Hk' & Hr').
    by apply (H2 j k b0 q' r').
  - intros b0 Hb. destruct (H3 b0 Hb) as (j & q & Hj & Hq). destruct (Hkeep j b0 q Hj Hq) as (q' & Hj' & Hq'). eauto.
  - intros j b0 q Hj. cbn in Hj. apply Hpc. apply lookup_insert_Some in Hj as [[-> [= -> ->]]|[Hne Hj]]; [done|eauto].
Qed.

(** The flag is taken for the activation, which executes the body. *)
Lemma acquire_inv σ i b q : inv σ → acts σ !! i = Some (b, q) → ¬ is_broadcasting q → flag σ b = uninitialized →
  inv (set_pc i b running (set_flag b being_initialized σ)).
Proof.
  intros [H1 H2 H3 H4 H5 H6] Hi Hq Hb.
  assert (∀ j q, acts σ !! j = Some (b, q) → ¬ owner q) as Hno.
  { intros j r Hj Hr. specialize (H1 j b r Hj Hr). congruence. }
  split; cbn.
  - intros j b0 r Hj Hr. rewrite flag_set, flag_set_flag. case_decide; [done|].
    apply lookup_insert_Some in Hj as [[-> [= <- <-]]|[Hne Hj]]; [done|by eapply H1].
  - intros j k b0 r s Hj Hk Hr Hs.
    apply lookup_insert_Some in Hj as [[<- Ej]|[Hnj Hj]]; apply lookup_insert_Some in Hk as [[<- Ek]|[Hnk Hk]]; [done|..].
    + injection Ej as <- <-. by destruct (Hno k s Hk).
    + injection Ek as <- <-. by destruct (Hno j r Hj).
    + by eapply H2.
  - intros b0. rewrite flag_set, flag_set_flag. case_decide as E; [subst; intros _; exists i, running; by rewrite lookup_insert_eq|].
    intros Hf. destruct (H3 b0 Hf) as (j & r & Hj & Hr). exists j, r. rewrite lookup_insert_ne; [done|]. intros <-. naive_solver.
  - intros j b0 r Hj. apply lookup_insert_Some in Hj as [[-> [= <- <-]]|[Hne Hj]]; [done|].
    apply (pc_ok_mono σ); [|intros k b' a Hk; exists k, b', a; cbn; rewrite lookup_insert_ne; [done|intros <-; naive_solver]|eauto].
    { rewrite flag_set, flag_set_flag. case_decide; [subst; congruence|done]. }
  - done.
  - intros b0. rewrite flag_set, flag_set_flag, H6. case_decide; [subst; split; congruence|done].
Qed.

(** The owner gives the flag back, and will notify. *)
Lemma release_inv σ i b q s after l : inv σ → acts σ !! i = Some (b, q) → owner q → after ≠ Some true →
  s = initialized ∧ l = completed σ ++ [b] ∨ s = uninitialized ∧ l = completed σ →
  inv (System (<[b := s]> (flags σ)) (<[i := (b, broadcasting after)]> (acts σ)) (nested σ) l).
Proof.
  intros [H1 H2 H3 H4 H5 H6] Hi Hq Hafter Hs. set (σ' := System _ _ _ _).
  assert (∀ b0, flag σ' b0 = if decide (b0 = b) then s else flag σ b0) as Hflag by apply (flag_set_flag σ b s).
  assert (flag σ b = being_initialized) as Hb by by eapply H1.
  assert (∀ j r, j ≠ i → acts σ !! j = Some (b, r) → ¬ owner r) as Hno by (intros j r Hne Hj Hr; apply Hne; by eapply H2).
  split; subst σ'; cbn.
  - intros j b0 r Hj Hr. apply lookup_insert_Some in Hj as [[-> [= <- <-]]|[Hne Hj]]; [done|].
    rewrite Hflag. case_decide; [subst; by destruct (Hno j r)|by eapply H1].
  - intros j k b0 r t Hj Hk Hr Ht. apply lookup_insert_Some in Hj as [[-> [= <- <-]]|[Hnj Hj]]; [done|].
    apply lookup_insert_Some in Hk as [[-> [= <- <-]]|[Hnk Hk]]; [done|]. by eapply H2.
  - intros b0. rewrite Hflag. case_decide as E; [destruct Hs as [[-> _]|[-> _]]; done|].
    intros Hf. destruct (H3 b0 Hf) as (j & r & Hj & Hr). exists j, r. rewrite lookup_insert_ne; [done|]. intros <-. naive_solver.
  - intros j b0 r Hj. apply lookup_insert_Some in Hj as [[-> [= <- <-]]|[Hne Hj]]; [by destruct after as [[]|]|].
    specialize (H4 j b0 r Hj). destruct r as [| |[]| | |[]|[]|[[]|]|[]]; try done; cbn in *.
    + right. exists i, b, after. by rewrite lookup_insert_eq.
    + rewrite Hflag. case_decide; [congruence|done].
    + rewrite Hflag. case_decide; [congruence|done].
  - destruct Hs as [[_ ->]|[_ ->]]; [|done]. apply NoDup_app. split; [done|]. split; [|apply NoDup_singleton].
    intros b0 Hin ->%list_elem_of_singleton. apply H6 in Hin. congruence.
  - intros b0. rewrite Hflag. destruct Hs as [[-> ->]|[-> ->]]; rewrite ?elem_of_app, ?list_elem_of_singleton, H6;
      case_decide; naive_solver congruence.
Qed.

(** After the notification nobody waits without having been notified. *)
Lemma broadcast_inv σ i b after : inv σ → acts σ !! i = Some (b, broadcasting after) →
  inv (set_pc i b (after_broadcast after) (notify_all σ)).
Proof.
  intros [H1 H2 H3 H4 H5 H6] Hi. assert (after ≠ Some true) as Ha by (intros ->; by apply (H4 i b) in Hi).
  assert (∀ j b0 q, acts (set_pc i b (after_broadcast after) (notify_all σ)) !! j = Some (b0, q) →
    j = i ∧ b0 = b ∧ q = after_broadcast after ∨ ∃ q', acts σ !! j = Some (b0, q') ∧
      (q = q' ∧ q ≠ waiting false ∨ ∃ n, q' = waiting n ∧ q = waiting true)) as Hback.
  { intros j b0 q Hj. cbn in Hj. apply lookup_insert_Some in Hj as [[-> [= <- <-]]|[Hne Hj]]; [by left|].
    right. rewrite lookup_fmap in Hj. destruct (acts σ !! j) as [[b1 q1]|]; [|done]. cbn in Hj. injection Hj as Hj.
    unfold notify in Hj. cbn in Hj. destruct q1; injection Hj as -> <-; eexists; (split; [done|]); first [by left|right; eauto]. }
  assert (∀ j b0 q, acts (set_pc i b (after_broadcast after) (notify_all σ)) !! j = Some (b0, q) → owner q →
    acts σ !! j = Some (b0, q)) as Hown.
  { intros j b0 q Hj Hq. destruct (Hback j b0 q Hj) as [(-> & -> & ->)|(q' & Hj' & [[-> _]|(n & -> & ->)])]; [|done..].
    by destruct after as [[]|]. }
  split; try done.
  - intros j b0 q Hj Hq. by eapply (H1 j b0 q), Hq; apply Hown.
  - intros j k b0 q r Hj Hk Hq Hr. eapply (H2 j k b0 q r); auto.
  - intros b0 Hf. destruct (H3 b0 Hf) as (j & q & Hj & Hq). exists j, q. split; [|done]. cbn.
    rewrite lookup_insert_ne by (intros <-; rewrite Hj in Hi; by injection Hi as _ ->). rewrite lookup_fmap, Hj. cbn. by destruct q.
  - intros j b0 q Hj. destruct (Hback j b0 q Hj) as [(-> & -> & ->)|(q' & Hj' & [[-> Hne]|(n & -> & ->)])]; [|..|done].
    + by destruct after as [[]|].
    + specialize (H4 j b0 q' Hj'). by destruct q' as [| |[]| | |[]|[]|[[]|]|[]].
Qed.

Lemma enter_inv σ i b q : inv σ → acts σ !! i = Some (b, q) → ¬ owner q → ¬ is_broadcasting q →
  inv (locked i b enter_once_block σ).
Proof.
  intros Hinv Hi Hq Hbr. unfold locked. destruct (flag σ b) eqn:Hf; cbn; [by eapply acquire_inv|..].
  all: eapply (inv_ext (set_pc i b _ σ)); [|done..|apply set_pc_inv; [done|by rewrite Hi|]].
  - intros b'. rewrite !flag_set, flag_set_flag. case_decide; congruence.
  - by left.
  - intros b'. rewrite !flag_set, flag_set_flag. case_decide; congruence.
  - done.
Qed.

Ltac move_on Hi := apply set_pc_inv; [done|rewrite Hi; cbn; naive_solver|done].

Lemma once_step_inv σ σ' : inv σ → step σ σ' → inv σ'.
Proof.
  intros Hinv Hstep. destruct Hstep as [σ i b Hi|σ i b j b' Hi Hin Hj|σ i b Hi|σ i b Hi|σ i b n Hi|σ i b Hi|σ i b Hi|σ i b Hi|σ i b n Hi|σ i b n Hi|σ i b a Hi].
  - move_on Hi.
  - eapply (inv_ext (set_pc j b' checking σ)); [done..|]. move_on Hj.
  - unfold executed. case_decide; move_on Hi.
  - eapply enter_inv; [done|exact Hi|by intros []..].
  - eapply enter_inv; [done|exact Hi|by intros []..].
  - move_on Hi.
  - move_on Hi.
  - unfold locked. cbn. eapply (release_inv σ i b committing initialized None); eauto; done.
  - pose proof (inv_pc σ Hinv i b _ Hi) as Hp. unfold destroy_sentry. destruct n.
    + cbn in Hp. rewrite decide_True by done. move_on Hi.
    + rewrite decide_False by (rewrite (inv_owner σ Hinv i b _ Hi); done). move_on Hi.
  - pose proof (inv_pc σ Hinv i b _ Hi) as Hp. destruct n; [done|].
    unfold locked. cbn. eapply (release_inv σ i b (rolling_back false) uninitialized (Some false)); eauto; done.
  - by apply broadcast_inv.
Qed.

Lemma initial_inv : inv initial.
Proof. split; cbn; try done; [constructor|]. intros b. unfold flag. cbn. set_solver. Qed.

Lemma once_reachable_inv σ : rtc step initial σ → inv σ.
Proof.
  intros Hr. assert (∀ τ, rtc step τ σ → inv τ → inv σ) as H; [|by apply (H initial); [|apply initial_inv]].
  clear Hr. induction 1; eauto using once_step_inv.
Qed.

(** * Nesting *)

(** While a nested activation has not ended, the enclosing one executes its
    body. *)
Definition nesting_ok (σ : system) : Prop :=
  ∀ j i, nested σ !! j = Some i → ∃ b p, acts σ !! j = Some (b, p) ∧
    ((∃ normal, p = finished normal) ∨ ∃ b', acts σ !! i = Some (b', running)).

Lemma notify_keeps x b p : (∀ n, p ≠ waiting n) → x = Some (b, p) → notify <$> x = Some (b, p).
Proof. intros Hp ->. destruct p; try done. by edestruct Hp. Qed.

(** What a step does to the activations: one moves on, which has not ended and whose
    body does not wait for a nested one, and others may be notified. *)
Record moved (σ σ' : system) (k : nat) : Prop := Moved {
  moved_live : is_Some (acts σ' !! k);
  moved_others x : x ≠ k → acts σ' !! x = acts σ !! x ∨ acts σ' !! x = notify <$> acts σ !! x;
  moved_from b q : acts σ !! k = Some (b, q) → (∀ normal, q ≠ finished normal) ∧ (q = running → innermost σ k) }.

Lemma moved_nesting σ σ' k : nested σ' = nested σ → moved σ σ' k → nesting_ok σ → nesting_ok σ'.
Proof.
  intros En [[[bk qk] Hk] Hoth Hfrom] Hok j i Hj. rewrite En in Hj. destruct (Hok j i Hj) as (b & p & Hbj & Hp).
  assert (∀ x b p, x ≠ k → (∀ n, p ≠ waiting n) → acts σ !! x = Some (b, p) → acts σ' !! x = Some (b, p)) as Hkeep.
  { intros x b0 p0 Hx Hp0 E. destruct (Hoth x Hx) as [-> | ->]; [done|by apply notify_keeps]. }
  assert (∀ b', acts σ !! i = Some (b', running) → (∀ n, p ≠ finished n) → i ≠ k) as Hik.
  { intros b' Hi Hfin ->. specialize (proj2 (Hfrom b' running Hi) eq_refl j k Hj eq_refl). unfold ended. rewrite Hbj.
    destruct p; try done. by edestruct Hfin. }
  assert ((∃ n, p = finished n) ∨ ∀ n, p ≠ finished n) as Hdec by (destruct p; (by right) || (left; by eexists)).
  destruct (decide (j = k)) as [->|Hjk].
  - exists bk, qk. split; [done|right]. destruct (Hfrom b p Hbj) as [Hfin _].
    destruct Hp as [[n ->]|[b' Hi]]; [by edestruct Hfin|]. exists b'. apply Hkeep; [by eapply Hik|done|done].
  - destruct Hp as [[n ->]|[b' Hi]]; [exists b, (finished n); split; [by apply Hkeep|by left; exists n]|].
    destruct Hdec as [[n ->]|Hfin]; [exists b, (finished n); split; [by apply Hkeep|by left; exists n]|].
    assert (acts σ' !! i = Some (b', running)) as Hi' by (apply Hkeep; [by eapply Hik|done|done]).
    destruct (Hoth j Hjk) as [E|E]; rewrite Hbj in E; [exists b, p; naive_solver|].
    cbn in E. unfold notify in E. cbn in E. destruct p; (eexists b, _; split; [exact E|right; by exists b']).
Qed.

Lemma locked_moved i b q f σ : acts σ !! i = Some (b, q) → (∀ normal, q ≠ finished normal) → q ≠ running →
  moved σ (locked i b f σ) i.
Proof.
  intros Hi Hq Hr. unfold locked. destruct (f (flag σ b)) as [s p]. split; cbn.
  - rewrite lookup_insert_eq. by eexists.
  - intros x Hx. left. by rewrite lookup_insert_ne.
  - intros b0 q0. rewrite Hi. by intros [= <- <-].
Qed.

Lemma set_pc_moved σ i b p : (∀ b q, acts σ !! i = Some (b, q) → (∀ normal, q ≠ finished normal) ∧ (q = running → innermost σ i)) →
  moved σ (set_pc i b p σ) i.
Proof.
  intros Hi. split; cbn; [rewrite lookup_insert_eq; by eexists| |done]. intros x Hx. left. by rewrite lookup_insert_ne.
Qed.

(** A block in the body of another one. *)
Lemma nest_nesting σ i b j b' : acts σ !! i = Some (b, running) → acts σ !! j = None → nesting_ok σ →
  nesting_ok (set_nested j i (set_pc j b' checking σ)).
Proof.
  intros Hi Hj Hok. assert (i ≠ j) as Hne by congruence. intros k l Hk. cbn in Hk |- *.
  apply lookup_insert_Some in Hk as [[<- <-]|[Hjk Hk]].
  - exists b', checking. rewrite lookup_insert_eq, lookup_insert_ne by done. naive_solver.
  - destruct (Hok k l Hk) as (c & p & Hc & Hp). exists c, p. rewrite lookup_insert_ne by done. split; [done|].
    destruct Hp as [?|[b0 Hl]]; [by left|right]. exists b0. rewrite lookup_insert_ne by congruence. done.
Qed.

(** The activation that moves on in a step: it starts in the body of another one, or the
    nesting is as before. *)
Lemma step_moved σ σ' : step σ σ' → ∃ k, moved σ σ' k ∧
  (nested σ' = nested σ ∨ acts σ !! k = None ∧
    ∃ i b b', acts σ !! i = Some (b, running) ∧ σ' = set_nested k i (set_pc k b' checking σ)) ∧
  (∀ b n, acts σ !! k = Some (b, waiting n) → σ' = locked k b enter_once_block σ).
Proof.
  intros Hstep. destruct Hstep as [σ i b Hi|σ i b j b' Hi Hin Hj|σ i b Hi|σ i b Hi|σ i b n Hi|σ i b Hi Hin|σ i b Hi Hin|σ i b Hi|σ i b n Hi|σ i b n Hi|σ i b a Hi];
    [| exists j; split; [|split; [right; split; [done|by exists i, b, b']|by rewrite Hj]]|..].
  all: try (exists i; split; [|split; [left|rewrite Hi; naive_solver]]); try done.
  all: try (apply set_pc_moved; intros b0 q0; rewrite Hi; naive_solver).
  all: try (eapply locked_moved; [exact Hi|done..]).
  all: try (unfold locked; by destruct (_ (flag σ b))).
  - destruct (set_pc_moved σ j b' checking) as [H1 H2 H3]; [by rewrite Hj|]. by split.
  - by destruct (locked_moved i b committing commit σ Hi ltac:(done) ltac:(done)); split.
  - split; cbn; [rewrite lookup_insert_eq; by eexists| |intros b0 q0; rewrite Hi; naive_solver].
    intros x Hx. right. by rewrite lookup_insert_ne, lookup_fmap.
Qed.

Lemma step_nesting σ σ' : step σ σ' → nesting_ok σ → nesting_ok σ'.
Proof.
  intros Hstep. destruct (step_moved σ σ' Hstep) as (k & Hm & [Hn|(Hk & i & b & b' & Hi & ->)] & _);
    [by eapply moved_nesting|by eapply nest_nesting].
Qed.

Lemma reachable_nesting σ : rtc step initial σ → nesting_ok σ.
Proof.
  intros Hr. assert (∀ τ, rtc step τ σ → nesting_ok τ → nesting_ok σ) as H; [|by apply (H initial)].
  clear Hr. induction 1; eauto using step_nesting.
Qed.

(** * Progress *)

(** An activation that moves on by itself, if the bodies of blocks end. *)
Definition runnable (σ : system) (i : nat) (p : pc) : Prop :=
  match p with waiting false | finished _ => False | running => innermost σ i | _ => True end.

Lemma locked_pc σ i b f : acts (locked i b f σ) !! i = Some (b, (f (flag σ b)).2).
Proof. unfold locked. destruct (f (flag σ b)) as [s q]. apply lookup_insert_eq. Qed.

Lemma runnable_step σ i b p : acts σ !! i = Some (b, p) → runnable σ i p →
  ∃ σ' p', step σ σ' ∧ acts σ' !! i = Some (b, p') ∧ p' ≠ p.
Proof.
  intros Hi Hp.
  assert (∀ σ' p', step σ σ' → acts σ' !! i = Some (b, p') → p' ≠ p →
    ∃ σ' p', step σ σ' ∧ acts σ' !! i = Some (b, p') ∧ p' ≠ p) as Hex by eauto.
  destruct p as [| |[]| | |n|n|a|n]; try done.
  - eapply Hex; [by eapply step_check|apply lookup_insert_eq|]. unfold executed. by case_decide.
  - eapply Hex; [by apply step_enter|apply locked_pc|]. by destruct (flag σ b).
  - eapply Hex; [by eapply step_wake|apply locked_pc|]. by destruct (flag σ b).
  - eapply Hex; [by eapply step_done|apply lookup_insert_eq|done].
  - eapply Hex; [by apply step_commit|apply locked_pc|done].
  - eapply Hex; [by eapply step_leave|apply lookup_insert_eq|]. unfold destroy_sentry. by case_decide.
  - eapply Hex; [by apply step_rollback|apply locked_pc|done].
  - eapply Hex; [by eapply step_broadcast|apply lookup_insert_eq|]. by destruct a.
Qed.

(** The blocks are nested in one order everywhere. *)
Definition ordered (rank : nat → nat) (σ : system) : Prop :=
  ∀ j i b b' p p', nested σ !! j = Some i → acts σ !! j = Some (b, p) → acts σ !! i = Some (b', p') → rank b' < rank b.

(** Who an activation waits for. *)
Lemma waits_for σ i b : inv σ → acts σ !! i = Some (b, waiting false) →
  ∃ j b' q, acts σ !! j = Some (b', q) ∧ (b' = b ∧ owner q ∨ is_broadcasting q).
Proof.
  intros Hinv Hi. destruct (inv_pc σ Hinv i b _ Hi) as [Hb|(j & b' & a & Hj)].
  - destruct (inv_owned σ Hinv b Hb) as (j & q & Hj & Hq). exists j, b, q. naive_solver.
  - exists j, b', (broadcasting a). naive_solver.
Qed.

(** An activation that executes its body can go on, or a nested one has not
    ended. *)
Lemma running_or_nested σ i b : nesting_ok σ → acts σ !! i = Some (b, running) →
  innermost σ i ∨ ∃ j b' p, nested σ !! j = Some i ∧ acts σ !! j = Some (b', p) ∧ ∀ normal, p ≠ finished normal.
Proof.
  intros Hok Hi. destruct (decide (innermost σ i)) as [|Hn]; [by left|right]. unfold innermost in Hn.
  rewrite map_not_Forall in Hn by apply _. destruct Hn as (j & i' & Hj & Hn).
  assert (i' = i ∧ ¬ ended σ j) as [-> He] by (split; [apply dec_stable|]; tauto).
  destruct (Hok j i Hj) as (b' & p & Hp & _). exists j, b', p. split_and!; [done..|].
  intros n ->. apply He. unfold ended. by rewrite Hp.
Qed.

(** Everybody waits for an activation that can move on, which is found in the body of
    a block of a higher rank. *)
Lemma progress_above rank σ n : inv σ → nesting_ok σ → ordered rank σ →
  (∀ i b p, acts σ !! i = Some (b, p) → rank b ≤ n) → ∀ k i b p,
  acts σ !! i = Some (b, p) → (∀ normal, p ≠ finished normal) → n - rank b < k →
  ∃ j b' q, acts σ !! j = Some (b', q) ∧ runnable σ j q.
Proof.
  intros Hinv Hok Hord Hn. induction k as [|k IH]; intros i b p Hi Hfin Hk; [lia|].
  assert (∀ j, acts σ !! j = Some (b, running) → ∃ j b' q, acts σ !! j = Some (b', q) ∧ runnable σ j q) as Hrun.
  { intros j Hj. destruct (running_or_nested σ j b Hok Hj) as [?|(c & b' & q & Hc & Hq & Hqf)]; [by exists j, b, running|].
    pose proof (Hord c j b' b q running Hc Hq Hj). pose proof (Hn c b' q Hq). by apply (IH c b' q); [..|lia]. }
  destruct p as [| |[]| | |m|m|a|m]; try (by eexists i, b, _; split; [exact Hi|]); [| |by edestruct Hfin].
  - destruct (waits_for σ i b Hinv Hi) as (j & b' & q & Hj & [[-> Hq]|Hq]).
    + destruct q as [| |[]| | |[]|[]|a|n']; try done; [by apply (Hrun j)|by eexists j, b, _; split; [exact Hj|]..].
    + exists j, b', q. split; [done|]. by destruct q.
  - by apply (Hrun i).
Qed.

Lemma ranks_bounded rank σ : ∃ n, ∀ i b p, acts σ !! i = Some (b, p) → rank b ≤ n.
Proof.
  exists (max_list ((λ x, rank x.2.1) <$> map_to_list (acts σ))). intros i b p Hi.
  apply max_list_elem_of_le, list_elem_of_fmap. exists (i, (b, p)). by rewrite elem_of_map_to_list.
Qed.

(** C36: a block is executed once. In every interleaving of any number of threads
    and blocks, nested in any way, with bodies that may throw, at most one
    activation at a time executes the body of a block; the body is executed to its
    end at most once, and an activation that ends normally finds it executed. An
    activation that waits without having been notified waits for one that owns the
    flag of the block or is about to notify everybody. If the blocks are nested in
    one order everywhere (a block in the body of another one has a higher rank),
    as long as an activation has not ended one can move on without a spurious
    wake-up, where a body moves on when the blocks in it have ended. *)
Theorem once_block_correct σ : rtc step initial σ →
  (∀ i j b p q, acts σ !! i = Some (b, p) → acts σ !! j = Some (b, q) → owner p → owner q → i = j) ∧
  NoDup (completed σ) ∧
  (∀ i b, acts σ !! i = Some (b, finished true) → b ∈ completed σ) ∧
  (∀ i b, acts σ !! i = Some (b, running) → b ∉ completed σ) ∧
  (∀ i b, acts σ !! i = Some (b, waiting false) →
    ∃ j b' q, acts σ !! j = Some (b', q) ∧ (b' = b ∧ owner q ∨ is_broadcasting q)) ∧
  (∀ rank, ordered rank σ → ∀ i b p, acts σ !! i = Some (b, p) → (∀ normal, p ≠ finished normal) →
    ∃ j b' q σ' q', acts σ !! j = Some (b', q) ∧ runnable σ j q ∧ step σ σ' ∧ acts σ' !! j = Some (b', q') ∧ q' ≠ q).
Proof.
  intros Hr. pose proof (once_reachable_inv σ Hr) as Hinv. pose proof (reachable_nesting σ Hr) as Hok.
  split; [apply Hinv|]. split; [apply Hinv|]. split; [|split; [|split]].
  - intros i b Hi. apply (inv_initialized σ Hinv). by apply (inv_pc σ Hinv i b _ Hi).
  - intros i b Hi Hb%(inv_initialized σ Hinv). pose proof (inv_owner σ Hinv i b running Hi I). congruence.
  - intros i b. by apply waits_for.
  - intros rank Hord i b p Hi Hfin. destruct (ranks_bounded rank σ) as [n Hn].
    destruct (progress_above rank σ n Hinv Hok Hord Hn (S n) i b p Hi Hfin) as (j & b' & q & Hj & Hq); [lia|].
    destruct (runnable_step σ j b' q Hj Hq) as (σ' & q' & Hs & Hj' & Hne). by exists j, b', q, σ', q'.
Qed.

(** * Deadlocks *)

(** Activations that wait for each other: each one executes a body with a nested
    one that is among them, or waits for a body that one of them executes. *)
Definition deadlocked (σ : system) (D : gset nat) : Prop :=
  ∀ i, i ∈ D → ∃ b, acts σ !! i = Some (b, running) ∧ (∃ j, j ∈ D ∧ nested σ !! j = Some i) ∨
    (∃ n, acts σ !! i = Some (b, waiting n)) ∧ ∃ j, j ∈ D ∧ acts σ !! j = Some (b, running).

Lemma deadlocked_live σ D i b p : deadlocked σ D → i ∈ D → acts σ !! i = Some (b, p) → p = running ∨ ∃ n, p = waiting n.
Proof. intros HD Hi Hp. destruct (HD i Hi) as (b' & [[E _]|[[n E] _]]); rewrite E in Hp; injection Hp as _ <-; eauto. Qed.

(** A body that waits for a nested one of them does not go on. *)
Lemma deadlocked_nested σ D i b : deadlocked σ D → i ∈ D → acts σ !! i = Some (b, running) → ¬ innermost σ i.
Proof.
  intros HD Hi Hr Hin. destruct (HD i Hi) as (b' & [[_ (j & Hj & Hn)]|[[n E] _]]); [|congruence].
  specialize (Hin j i Hn eq_refl). unfold ended in Hin. destruct (acts σ !! j) as [[c p]|] eqn:E; [|done].
  by destruct (deadlocked_live σ D j c p HD Hj E) as [-> |[n ->]].
Qed.

(** One that is woken up waits again. *)
Lemma deadlocked_wakes σ D i b n : inv σ → deadlocked σ D → i ∈ D → acts σ !! i = Some (b, waiting n) →
  acts (locked i b enter_once_block σ) !! i = Some (b, waiting false).
Proof.
  intros Hinv HD Hi Hw. destruct (HD i Hi) as (b' & [[E _]|[[n' E] (j & _ & Hj)]]); rewrite E in Hw; [done|].
  injection Hw as -> _. rewrite locked_pc, (inv_owner σ Hinv j b running Hj I). done.
Qed.

(** The activation executes the body or waits, as before. *)
Record stays (σ σ' : system) (i : nat) : Prop := Stays {
  stays_running b : acts σ !! i = Some (b, running) → acts σ' !! i = Some (b, running);
  stays_waiting b n : acts σ !! i = Some (b, waiting n) → ∃ n, acts σ' !! i = Some (b, waiting n);
  stays_nested k : nested σ !! i = Some k → nested σ' !! i = Some k }.

Lemma deadlocked_keeps σ σ' D : deadlocked σ D → (∀ i, i ∈ D → stays σ σ' i) → deadlocked σ' D.
Proof.
  intros HD Hk i Hi. destruct (HD i Hi) as (b & [[E (j & Hj & Hn)]|[[n E] (j & Hj & Hr)]]); exists b.
  - left. split; [by apply Hk|]. exists j. split; [done|]. by apply Hk.
  - right. split; [by eapply Hk|]. exists j. split; [done|]. by apply Hk.
Qed.

Lemma moved_stays σ σ' k x : x ≠ k → moved σ σ' k → nested σ' !! x = nested σ !! x → stays σ σ' x.
Proof.
  intros Hx Hm Hn. destruct (moved_others _ _ _ Hm x Hx) as [E|E]; split; rewrite ?E, ?Hn; eauto; intros b; intros; simplify_map_eq; eauto.
Qed.

(** Activations that wait for each other never move, whatever the others do. *)
Lemma deadlocked_step σ σ' D : inv σ → step σ σ' → deadlocked σ D → deadlocked σ' D.
Proof.
  intros Hinv Hstep HD. apply (deadlocked_keeps σ); [done|]. intros x Hx.
  pose proof (λ b p, deadlocked_live σ D x b p HD Hx) as Hlive. pose proof (λ b, deadlocked_nested σ D x b HD Hx) as Hnest.
  pose proof (λ b n, deadlocked_wakes σ D x b n Hinv HD Hx) as Hwake.
  assert (is_Some (acts σ !! x)) as Hs by (destruct (HD x Hx) as (? & [[-> _]|[[? ->] _]]); by eexists).
  destruct (step_moved σ σ' Hstep) as (k & Hm & Hn & Hw). destruct (decide (x = k)) as [<-|Hxk].
  - destruct Hs as [[b p] Hp]. destruct (Hlive b p Hp) as [-> |[n ->]].
    { destruct (Hnest b Hp). by apply (moved_from _ _ _ Hm b running). }
    rewrite (Hw b n Hp). pose proof (Hwake b n Hp) as E. split; [congruence| |unfold locked; by destruct (_ (flag σ b))].
    intros b' n' Hp'. rewrite Hp in Hp'. injection Hp' as <- _. by exists false.
  - apply (moved_stays σ σ' k); [done..|]. destruct Hn as [-> |(_ & i & b & b' & _ & ->)]; [done|]. cbn. by apply lookup_insert_ne.
Qed.

Lemma deadlocked_forever σ σ' D : rtc step initial σ → rtc step σ σ' → deadlocked σ D → deadlocked σ' D.
Proof.
  intros Hr%once_reachable_inv. induction 1; eauto using deadlocked_step, once_step_inv.
Qed.

(** * Examples *)

Tactic Notation "once_step" uconstr(H) := eapply rtc_l; [by apply H|].
Tactic Notation "once_body" uconstr(H) := eapply rtc_l; [apply H; [done|apply (bool_decide_unpack _); by vm_compute|..]; done|].
Ltac once_end := match goal with |- rtc _ ?a ?b => replace a with b; [apply rtc_refl|by vm_compute] end.

(** Thread 1 executes the body of the block 5, with the block 7 in it, while
    thread 2 waits. *)
Definition halfway : system :=
  System {[5 := being_initialized; 7 := being_initialized]}
    {[1 := (5, running); 2 := (5, waiting false); 3 := (7, running)]} {[3 := 1]} [].

Lemma halfway_reachable : rtc step initial halfway.
Proof.
  once_step (step_start initial 1 5). once_step (step_check _ 1 5). once_step (step_enter _ 1 5).
  once_body (step_nest _ 1 5 3 7). once_step (step_check _ 3 7). once_step (step_enter _ 3 7).
  once_step (step_start _ 2 5). once_step (step_check _ 2 5). once_step (step_enter _ 2 5). once_end.
Qed.

(** Both blocks are executed, and thread 2 goes on. *)
Definition both_finished : system :=
  System {[5 := initialized; 7 := initialized]}
    {[1 := (5, finished true); 2 := (5, finished true); 3 := (7, finished true)]} {[3 := 1]} [7; 5].

Lemma both_reachable : rtc step initial both_finished.
Proof.
  etrans; [apply halfway_reachable|].
  once_body (step_done halfway 3 7). once_step (step_commit _ 3 7). once_step (step_broadcast _ 3 7 None).
  once_step (step_check _ 3 7). once_step (step_leave _ 3 7 true).
  once_body (step_done _ 1 5). once_step (step_commit _ 1 5). once_step (step_broadcast _ 1 5 None).
  once_step (step_wake _ 2 5 true). once_step (step_check _ 1 5). once_step (step_leave _ 1 5 true).
  once_step (step_leave _ 2 5 true). once_end.
Qed.

Lemma halfway_ordered : ordered id halfway.
Proof.
  intros j i b b' p p' Hj Hb Hb'. cbn [nested halfway] in Hj. apply lookup_singleton_Some in Hj as [<- <-]. vm_compute in Hb, Hb'.
  injection Hb as <- _. injection Hb' as <- _. unfold id. lia.
Qed.

Lemma once_block_correct_witness :
  5 ∈ completed both_finished ∧ ∃ j b q σ', acts halfway !! j = Some (b, q) ∧ runnable halfway j q ∧ step halfway σ'.
Proof.
  split.
  - destruct (once_block_correct both_finished both_reachable) as (_ & _ & H & _). by apply (H 1 5).
  - destruct (once_block_correct halfway halfway_reachable) as (_ & _ & _ & _ & _ & H).
    destruct (H id halfway_ordered 2 5 (waiting false) eq_refl ltac:(done)) as (j & b & q & σ' & _ & Hj & Hq & Hs & _).
    exists j, b, q, σ'. split; [exact Hj|]. split; [exact Hq|exact Hs].
Defined.

(** A block in its own body waits for itself. *)
Definition in_itself : system :=
  System {[5 := being_initialized]} {[1 := (5, running); 2 := (5, waiting false)]} {[2 := 1]} [].

Lemma block_in_itself : rtc step initial in_itself ∧
  ∀ σ, rtc step in_itself σ → acts σ !! 1 ≠ Some (5, finished true) ∧ acts σ !! 1 ≠ Some (5, finished false).
Proof.
  assert (rtc step initial in_itself) as Hr.
  { once_step (step_start initial 1 5). once_step (step_check _ 1 5). once_step (step_enter _ 1 5).
    once_body (step_nest _ 1 5 2 5). once_step (step_check _ 2 5). once_step (step_enter _ 2 5). once_end. }
  split; [done|]. intros σ Hσ. assert (deadlocked σ {[1; 2]}) as HD.
  { eapply deadlocked_forever; [exact Hr|done|]. intros i Hi. exists 5.
    apply elem_of_union in Hi as [->%elem_of_singleton | ->%elem_of_singleton].
    - left. split; [done|]. exists 2. by split; [set_solver|].
    - right. split; [by exists false|]. exists 1. by split; [set_solver|]. }
  split; intros E; by destruct (deadlocked_live σ _ 1 5 _ HD ltac:(set_solver) E) as [?|[? ?]].
Qed.

(** Two threads that nest two blocks in opposite orders wait for each other. *)
Definition crossed : system :=
  System {[5 := being_initialized; 7 := being_initialized]}
    {[1 := (5, running); 2 := (7, running); 3 := (7, waiting false); 4 := (5, waiting false)]} {[3 := 1; 4 := 2]} [].

Lemma crossed_blocks : rtc step initial crossed ∧
  ∀ σ i, rtc step crossed σ → i ∈ ({[1; 2; 3; 4]} : gset nat) → ¬ ended σ i.
Proof.
  assert (rtc step initial crossed) as Hr.
  { once_step (step_start initial 1 5). once_step (step_check _ 1 5). once_step (step_enter _ 1 5).
    once_step (step_start _ 2 7). once_step (step_check _ 2 7). once_step (step_enter _ 2 7).
    once_body (step_nest _ 1 5 3 7). once_step (step_check _ 3 7). once_step (step_enter _ 3 7).
    once_body (step_nest _ 2 7 4 5). once_step (step_check _ 4 5). once_step (step_enter _ 4 5). once_end. }
  split; [done|]. intros σ i Hσ Hi. assert (deadlocked σ {[1; 2; 3; 4]}) as HD.
  { eapply deadlocked_forever; [exact Hr|done|]. intros k Hk. rewrite !elem_of_union, !elem_of_singleton in Hk.
    destruct Hk as [[[-> | ->]| ->]| ->].
    - exists 5. left. split; [done|]. exists 3. by split; [set_solver|].
    - exists 7. left. split; [done|]. exists 4. by split; [set_solver|].
    - exists 7. right. split; [by exists false|]. exists 2. by split; [set_solver|].
    - exists 5. right. split; [by exists false|]. exists 1. by split; [set_solver|]. }
  unfold ended. destruct (acts σ !! i) as [[b p]|] eqn:E; [|tauto].
  destruct (deadlocked_live σ _ i b p HD Hi E) as [-> |[n ->]]; tauto.
Qed.
