(* ===== verification/GlobalLoggers.v ===== *)
(** Global loggers: src/src/global_logger_storage.cpp and
    src/include/boost/log/sources/global_logger_storage.hpp.

    A global logger has a tag. Every module of the program has its own singleton for
    a tag, and all of them share the logger in a storage that belongs to the
    library. The mutex of the storage is locked while a logger is constructed by
    the program; locking it again in the same thread is undefined. *)

From Stdlib Require Import ZArith.
From stdpp Require Import base numbers list gmap.
From S2P Require Import Prelude.

Section storage.
(** The rest of the program. *)
Context {W : Type}.

(** A logger by its identity, with where it was registered and its type. *)
Record logger_holder := LoggerHolder { m_RegistrationFile : str; m_RegistrationLine : Z; m_LoggerType : N; m_Logger : nat }.

(** The mutex and the map of the repository, the singletons of the modules that
    are initialized, and the tags whose loggers have been constructed. *)
Record storage := Storage {
  m_Locked : bool; m_Loggers : gmap N logger_holder; instances : gmap (nat * N) logger_holder; constructed : list N }.

Abbreviation M := (sm (storage * W)).

Definition lock : M unit :=
  '(s, w) ← sm_get;
  if m_Locked s then sm_lift Stuck else sm_put (Storage true (m_Loggers s) (instances s) (constructed s), w).
Definition unlock : M unit := sm_modify (λ '(s, w), (Storage false (m_Loggers s) (instances s) (constructed s), w)).

(** [std::lock_guard] around a program. *)
Definition locked {X} (m : M X) : M X :=
  lock;;
  r ← sm_catch (x ← m; mret (inl x)) (λ e, mret (inr e));
  unlock;;
  match r with inl x => mret x | inr e => sm_throw e end.

Definition add_logger (key : N) (h : logger_holder) : M unit :=
  sm_modify (λ '(s, w), (Storage (m_Locked s) (<[key := h]> (m_Loggers s)) (instances s) (constructed s), w)).

(** [global_storage::get_or_init]. *)
Definition get_or_init (key : N) (initializer : M logger_holder) : M logger_holder :=
  locked (
    '(s, _) ← sm_get;
    match m_Loggers s !! key with
    | Some h => mret h
    | None => inst ← initializer; add_logger key inst;; mret inst
    end).

(** A tag: its type, the type of its logger, where it is declared and
    [construct_logger], which returns the new logger. *)
Record tag := Tag { tag_type : N; logger_type : N; registration_file : str; registration_line : Z; tag_construct : M nat }.

(** [logger_singleton::construct_logger]. *)
Definition construct_logger (t : tag) : M logger_holder :=
  l ← tag_construct t;
  sm_modify (λ '(s, w), (Storage (m_Locked s) (m_Loggers s) (instances s) (constructed s ++ [tag_type t]), w));;
  mret (LoggerHolder (registration_file t) (u32 (registration_line t)) (logger_type t) l).

Definition set_instance (module : nat) (key : N) (h : logger_holder) : M unit :=
  sm_modify (λ '(s, w), (Storage (m_Locked s) (m_Loggers s) (<[(module, key) := h]> (instances s)) (constructed s), w)).

(** [logger_singleton::init_instance]; a logger of another type is a violation of
    the one definition rule, which is a [logic_error]. *)
Definition init_instance (module : nat) (t : tag) : M unit :=
  holder ← get_or_init (tag_type t) (construct_logger t);
  if decide (m_LoggerType holder = logger_type t) then set_instance module (tag_type t) holder
  else sm_throw ex_logic_error.

(** [logger_singleton::get]: the initialization is a once block. *)
Definition get_logger (module : nat) (t : tag) : M nat :=
  '(s, _) ← sm_get;
  (match instances s !! (module, tag_type t) with Some _ => mret () | None => init_instance module t end);;
  '(s, _) ← sm_get;
  h ← sm_lift (of_ptr (instances s !! (module, tag_type t)));
  mret (m_Logger h).

(** * Sharing *)

(** Loggers whose construction does not use the storage. *)
Definition independent (t : tag) (c : sm W nat) : Prop :=
  ∀ s w, tag_construct t (s, w) = let (r, w') := c w in (r, (s, w')).

Record storage_ok (s : storage) : Prop := StorageOk {
  ok_unlocked : m_Locked s = false;
  ok_instances : ∀ module key h, instances s !! (module, key) = Some h → m_Loggers s !! key = Some h;
  ok_constructed : NoDup (constructed s);
  ok_loggers : ∀ key, key ∈ constructed s ↔ is_Some (m_Loggers s !! key) }.

(** A step of the storage: nothing changes for a logger that is there. *)
Definition grows (s s' : storage) : Prop := storage_ok s' ∧ m_Loggers s ⊆ m_Loggers s'.

Definition holder_of (t : tag) (l : nat) : logger_holder :=
  LoggerHolder (registration_file t) (u32 (registration_line t)) (logger_type t) l.

Lemma get_or_init_present s w key i h : storage_ok s → m_Loggers s !! key = Some h → get_or_init key i (s, w) = (Ok h, (s, w)).
Proof.
  intros Hs Hh. unfold get_or_init, locked, lock, sm_catch. rewrite !sm_bind_run. cbn [sm_get]. rewrite (ok_unlocked s Hs).
  cbn [sm_put]. rewrite !sm_bind_run. cbn [sm_get m_Loggers]. rewrite Hh. cbn.
  pose proof (ok_unlocked s Hs). destruct s. cbn in *. by subst.
Qed.

Lemma get_or_init_absent s w t c : storage_ok s → m_Loggers s !! tag_type t = None → independent t c →
  get_or_init (tag_type t) (construct_logger t) (s, w) =
    match c w with
    | (Ok l, w') => (Ok (holder_of t l), (Storage false (<[tag_type t := holder_of t l]> (m_Loggers s)) (instances s)
                      (constructed s ++ [tag_type t]), w'))
    | (Throw e, w') => (Throw e, (s, w'))
    | (Stuck, w') => (Stuck, (Storage true (m_Loggers s) (instances s) (constructed s), w'))
    end.
Proof.
  intros Hs Hh Hc. unfold get_or_init, locked, lock, sm_catch. rewrite !sm_bind_run. cbn [sm_get]. rewrite (ok_unlocked s Hs).
  cbn [sm_put]. rewrite !sm_bind_run. cbn [sm_get m_Loggers]. rewrite Hh. unfold construct_logger. rewrite !sm_bind_run, Hc.
  destruct (c w) as [[l|e|] w']; [done| |done]. cbn.
  pose proof (ok_unlocked s Hs). destruct s. cbn in *. by subst.
Qed.

Lemma storage_ok_add s key h : storage_ok s → m_Loggers s !! key = None →
  grows s (Storage false (<[key := h]> (m_Loggers s)) (instances s) (constructed s ++ [key])).
Proof.
  intros [H1 H2 H3 H4] Hk. split; [split; cbn|by apply insert_subseteq].
  - done.
  - intros module k h' Hi. apply H2 in Hi. rewrite lookup_insert_ne; [done|]. congruence.
  - apply NoDup_app. split; [done|]. split; [|apply NoDup_singleton].
    intros x Hx ->%list_elem_of_singleton. apply H4 in Hx as [? ?]. congruence.
  - intros k. rewrite elem_of_app, list_elem_of_singleton, lookup_insert_is_Some', H4. naive_solver.
Qed.

Lemma storage_ok_instance s module key h : storage_ok s → m_Loggers s !! key = Some h →
  grows s (Storage (m_Locked s) (m_Loggers s) (<[(module, key) := h]> (instances s)) (constructed s)).
Proof.
  intros [H1 H2 H3 H4] Hk. split; [|done]. split; cbn; try done. intros m k h' Hi.
  destruct (decide ((m, k) = (module, key))) as [[= -> ->]|Hne].
  - rewrite lookup_insert_eq in Hi. congruence.
  - rewrite lookup_insert_ne in Hi by done. by eapply H2.
Qed.

(** What a module gets is the logger of the storage. *)
Definition get_post (t : tag) (s : storage) (r : outcome nat * (storage * W)) : Prop :=
  match r with
  | (Ok l, (s', _)) => grows s s' ∧ ∃ h, m_Loggers s' !! tag_type t = Some h ∧ m_Logger h = l
  | (Throw e, (s', _)) => grows s s'
  | (Stuck, _) => False
  end.

Lemma grows_trans s1 s2 s3 : grows s1 s2 → grows s2 s3 → grows s1 s3.
Proof. intros [_ H1] [H2 H3]. split; [done|]. by etransitivity. Qed.

Lemma init_instance_run s w module t h : storage_ok s → m_Loggers s !! tag_type t = Some h →
  get_post t s ((init_instance module t;; '(s, _) ← sm_get; h ← sm_lift (of_ptr (instances s !! (module, tag_type t))); mret (m_Logger h)) (s, w)).
Proof.
  intros Hs Hh. unfold init_instance. rewrite !sm_bind_run, (get_or_init_present s w _ _ h Hs Hh). case_decide; [|by split].
  unfold set_instance, sm_modify. rewrite sm_bind_run. cbn [sm_get]. rewrite sm_bind_run. cbn [instances]. rewrite lookup_insert_eq. cbn.
  split; [by apply storage_ok_instance|]. by exists h.
Qed.

Lemma get_logger_spec s w module t c : storage_ok s → independent t c → (∀ w, (c w).1 ≠ Stuck) →
  get_post t s (get_logger module t (s, w)).
Proof.
  intros Hs Hc Hsafe. unfold get_logger. rewrite sm_bind_run. cbn [sm_get].
  destruct (instances s !! (module, tag_type t)) as [h|] eqn:Ei.
  - rewrite sm_bind_run. cbn [mret sm_ret]. rewrite sm_bind_run. cbn [sm_get]. rewrite sm_bind_run, Ei. cbn. split; [by split|].
    exists h. split; [by eapply (ok_instances s Hs)|done].
  - destruct (m_Loggers s !! tag_type t) as [h|] eqn:El; [by eapply init_instance_run|].
    rewrite sm_bind_run. unfold init_instance. rewrite sm_bind_run, (get_or_init_absent s w t c Hs El Hc).
    pose proof (Hsafe w) as Hw. destruct (c w) as [[l|e|] w']; [|by split|done]. rewrite decide_True by done.
    unfold set_instance, sm_modify. rewrite sm_bind_run. cbn [sm_get]. rewrite sm_bind_run. cbn [instances]. rewrite lookup_insert_eq.
    cbn. pose proof (storage_ok_add s (tag_type t) (holder_of t l) Hs El) as Hg. split.
    + eapply grows_trans; [exact Hg|].
      exact (storage_ok_instance _ module (tag_type t) (holder_of t l) (proj1 Hg) (lookup_insert_eq _ _ _)).
    + exists (holder_of t l). split; [apply lookup_insert_eq|done].
Qed.

(** Calls of modules for tags, with the loggers that they got. *)
Inductive reaches : storage → list (N * nat) → Prop :=
| reach_init : reaches (Storage false ∅ ∅ []) []
| reach_get s results w module t c r s' w' : reaches s results → independent t c → (∀ w, (c w).1 ≠ Stuck) →
    get_logger module t (s, w) = (r, (s', w')) →
    reaches s' (match r with Ok l => (tag_type t, l) :: results | _ => results end).

Lemma reaches_ok s results : reaches s results →
  storage_ok s ∧ ∀ key l, (key, l) ∈ results → ∃ h, m_Loggers s !! key = Some h ∧ m_Logger h = l.
Proof.
  induction 1 as [|s results w module t c r s' w' _ [Hs IH] Hc Hsafe E].
  { split; [|by intros ?? ?%elem_of_nil]. split; cbn; try done; [constructor|].
    intros key. rewrite lookup_empty. split; [by intros ?%elem_of_nil|by intros [? ?]]. }
  pose proof (get_logger_spec s w module t c Hs Hc Hsafe) as H. rewrite E in H.
  assert (∀ key l, grows s s' → (key, l) ∈ results → ∃ h, m_Loggers s' !! key = Some h ∧ m_Logger h = l) as Hold.
  { intros key l [_ Hsub] (h & Hh & Hl)%IH. exists h. split; [by eapply lookup_weaken|done]. }
  destruct r as [l|e|]; cbn in H; [|by split; [apply H|intros; by apply Hold]|done]. destruct H as (Hg & h & Hh & Hl).
  split; [apply Hg|]. intros key l' [[= -> ->]|Hin]%elem_of_cons; [by exists h|by apply Hold].
Qed.

(** A global logger is unique: all modules that get the logger of a tag get the same
    one, it is constructed at most once, also when constructions or modules with
    another type of logger fail in between, and the storage is never left locked. *)
Theorem global_loggers_shared s results : reaches s results →
  (∀ key l l', (key, l) ∈ results → (key, l') ∈ results → l = l') ∧ NoDup (constructed s) ∧ m_Locked s = false.
Proof.
  intros [Hs Hr]%reaches_ok. split; [|split; [apply Hs|apply Hs]].
  intros key l l' (h & H1 & <-)%Hr (h' & H2 & <-)%Hr. congruence.
Qed.
End storage.

(** * Example *)

Module sample_globals.
(** The construction of the first logger gets the second one. *)
Definition second : tag (W := nat) := Tag 2 7 [] 20 (λ '(s, w), (Ok w, (s, S w))).
Definition first : tag (W := nat) := Tag 1 7 [] 10 (get_logger 0 second).

(** This locks the mutex again, unless the second logger has been got before. *)
Example nested_construction :
  (get_logger 0 first (Storage false ∅ ∅ [], 0)).1 = Stuck ∧
  ((get_logger 0 second;; get_logger 0 first) (Storage false ∅ ∅ [], 0)).1 = Ok 0.
Proof. done. Qed.
End sample_globals.
