(* ===== verification/Locks.v ===== *)
(** Locks of multithreaded loggers: the lock guards of
    src/include/boost/log/detail/locks.hpp, the choice of a lock among those
    that the features of a logger require (utility/strictest_lock.hpp), and the
    locks that the methods of a composite logger take
    (sources/basic_logger.hpp and the features beside it).

    Any number of threads call methods of loggers. A method is the sequence in
    which it locks and unlocks mutexes; the mutex of a logger may be owned by
    one thread exclusively, or shared by several. A thread that waits for a
    mutex waits for its owners, also when it is one of them, as with
    [boost::shared_mutex], the mutex of loggers that are declared by
    BOOST_LOG_DECLARE_LOGGER_MT. (For a mutex of POSIX threads, [light_rw_mutex],
    the call may fail instead, and the code does not notice it.) Attributes and
    filters that the core calls for a record do not use the logger. *)

From Stdlib Require Import ZArith.
From stdpp Require Import base numbers list gmap relations.
From S2P Require Import Prelude.

(** * Lock types *)

(** [lock_access_mode], which stands for the lock types: [no_lock],
    [shared_lock_guard] and [exclusive_lock_guard]. *)
Inductive lock_access_mode := unlocked_access | shared_access | exclusive_access.

#[export] Instance mode_eq_dec : EqDecision lock_access_mode.
Proof. solve_decision. Defined.

Definition mode_value (m : lock_access_mode) : nat :=
  match m with unlocked_access => 0 | shared_access => 1 | exclusive_access => 2 end.

(** [strictest_lock_impl]. *)
Definition strictest_lock_impl (left right : lock_access_mode) : lock_access_mode :=
  if mode_value left <? mode_value right then right else left.

(** [strictest_lock]. *)
Fixpoint strictest_lock (l : lock_access_mode) (ls : list lock_access_mode) : lock_access_mode :=
  match ls with
  | [] => l
  | r :: ls => strictest_lock (strictest_lock_impl l r) ls
  end.

(** * Methods *)

Inductive action :=
| lock_action (mode : lock_access_mode) (m : N)
| unlock_action (mode : lock_access_mode) (m : N).

(** The lock guards, around what is done while they exist. *)
Definition lock_guard (mode : lock_access_mode) (m : N) (body : list action) : list action :=
  match mode with
  | unlocked_access => body
  | _ => lock_action mode m :: body ++ [unlock_action mode m]
  end.

(** [multiple_unique_lock2]; mutexes are compared by their addresses. *)
Definition multiple_unique_lock2 (m1 m2 : N) (body : list action) : list action :=
  (if (m1 <? m2)%N then [lock_action exclusive_access m1; lock_action exclusive_access m2]
   else [lock_action exclusive_access m2; lock_action exclusive_access m1]) ++
  body ++ [unlock_action exclusive_access m2; unlock_action exclusive_access m1].

Inductive feature := severity_feature | channel_feature | exception_handler_feature.

#[export] Instance feature_eq_dec : EqDecision feature.
Proof. solve_decision. Defined.

(** [open_record_lock] of [basic_logger] and of the features. *)
Definition feature_open_record_lock (f : feature) : lock_access_mode :=
  match f with channel_feature => exclusive_access | _ => unlocked_access end.

Definition open_record_lock (fs : list feature) : lock_access_mode :=
  foldl (λ l f, strictest_lock l [feature_open_record_lock f]) shared_access fs.

(** [push_record_lock]: no feature has a requirement. *)
Definition push_record_lock (fs : list feature) : lock_access_mode :=
  foldl (λ l f, strictest_lock l [unlocked_access]) unlocked_access fs.

(** [handle_exception]: its lock is chosen by [push_record_lock]. *)
Definition handle_exception (fs : list feature) (this : N) : list action :=
  lock_guard (if decide (push_record_lock fs = unlocked_access) then shared_access else unlocked_access) this [].

(** The [catch] clause of the exception handler feature in [open_record_unlocked]
    and [push_record_unlocked]; [throws] says that it gets an exception. *)
Definition catch_exception (fs : list feature) (this : N) (throws : bool) : list action :=
  if throws && bool_decide (exception_handler_feature ∈ fs) then handle_exception fs this else [].

(** The methods of [basic_composite_logger], the copy constructor and the
    assignments; loggers are the addresses of their mutexes. *)
Inductive method :=
| m_copy (that : N)
| m_move_assign (this : N)
| m_assign (this that : N)
| m_swap (this that : N)
| m_add_attribute (this : N)
| m_remove_attribute (this : N)
| m_remove_all_attributes (this : N)
| m_get_attributes (this : N)
| m_set_attributes (this : N)
| m_open_record (fs : list feature) (this : N) (logging_enabled throws : bool)
| m_push_record (fs : list feature) (this : N) (throws : bool)
| m_get_channel (this : N)
| m_set_channel (this : N)
| m_set_exception_handler (this : N).

Definition run_method (m : method) : list action :=
  match m with
  | m_copy that => lock_guard shared_access that []
  | m_move_assign this => lock_guard exclusive_access this []
  | m_assign this that =>
      if decide (this = that) then [] else lock_guard shared_access that [] ++ lock_guard exclusive_access this []
  | m_swap this that => multiple_unique_lock2 this that []
  | m_add_attribute this | m_remove_attribute this | m_remove_all_attributes this
  | m_set_attributes this | m_set_channel this | m_set_exception_handler this => lock_guard exclusive_access this []
  | m_get_attributes this | m_get_channel this => lock_guard shared_access this []
  | m_open_record fs this logging_enabled throws =>
      if logging_enabled then lock_guard (open_record_lock fs) this (catch_exception fs this throws) else []
  | m_push_record fs this throws => lock_guard (push_record_lock fs) this (catch_exception fs this throws)
  end.

(** * Threads *)

(** The locks a thread has, and what it has yet to do. *)
Record thread := Thread { owned : list (lock_access_mode * N); rest : list action }.

Abbreviation system := (gmap nat thread).

(** [lock] and [lock_shared] of a mutex do not wait: no thread owns it in a way
    that excludes the new one. *)
Definition available (σ : system) (mode : lock_access_mode) (m : N) : Prop :=
  map_Forall (λ _ t, Forall (λ o, o.2 = m → mode = shared_access ∧ o.1 = shared_access) (owned t)) σ.

#[export] Instance available_dec σ mode m : Decision (available σ mode m).
Proof. unfold available. apply _. Defined.

Definition release (mode : lock_access_mode) (m : N) (l : list (lock_access_mode * N)) : list (lock_access_mode * N) :=
  filter (λ o, o ≠ (mode, m)) l.

Inductive step : system → system → Prop :=
| step_lock σ i l mode m acts :
    σ !! i = Some (Thread l (lock_action mode m :: acts)) → available σ mode m →
    step σ (<[i := Thread ((mode, m) :: l) acts]> σ)
| step_unlock σ i l mode m acts :
    σ !! i = Some (Thread l (unlock_action mode m :: acts)) →
    step σ (<[i := Thread (release mode m l) acts]> σ).

(** Threads that call methods one after the other. *)
Definition start (calls : gmap nat (list method)) : system :=
  (λ ms, Thread [] (ms ≫= run_method)) <$> calls.

Definition all_done (σ : system) : Prop := map_Forall (λ _ t, rest t = []) σ.

(** * Progress *)

(** A thread locks mutexes in increasing order, and unlocks what it has. *)
Fixpoint ordered (l : list (lock_access_mode * N)) (acts : list action) : Prop :=
  match acts with
  | [] => l = []
  | lock_action mode m :: acts => Forall (λ o, o.2 < m)%N l ∧ ordered ((mode, m) :: l) acts
  | unlock_action mode m :: acts => ordered (release mode m l) acts
  end.

Definition ordered_system (σ : system) : Prop := map_Forall (λ _ t, ordered (owned t) (rest t)) σ.

Lemma step_ordered σ σ' : step σ σ' → ordered_system σ → ordered_system σ'.
Proof.
  intros Hs H. destruct Hs as [σ i l mode m acts Hi _|σ i l mode m acts Hi];
    (apply map_Forall_insert_2; [|done]); specialize (H i _ Hi); cbn in H; naive_solver.
Qed.

(** All mutexes that the threads are going to lock are below [B]. *)
Definition locks_below (B : N) (σ : system) : Prop :=
  map_Forall (λ _ t, Forall (λ a, match a with lock_action _ m => (m < B)%N | _ => True end) (rest t)) σ.

Lemma actions_bounded acts :
  ∃ B, Forall (λ a, match a with lock_action _ m => (m < B)%N | _ => True end) acts.
Proof.
  induction acts as [|a acts [B IH]]; [by exists 0%N|]. destruct a as [mode m|mode m].
  - exists (N.max B (N.succ m)). constructor; [lia|]. eapply Forall_impl; [exact IH|]. intros []; cbn; [lia|done].
  - exists B. by constructor.
Qed.

Lemma locks_bounded σ : ∃ B, locks_below B σ.
Proof.
  induction σ as [|i t σ Hi [B IH]] using map_ind; [exists 0%N; apply map_Forall_empty|].
  destruct (actions_bounded (rest t)) as [B' HB']. exists (N.max B B').
  apply map_Forall_insert_2; [eapply Forall_impl; [exact HB'|]; intros []; cbn; [lia|done]|].
  eapply map_Forall_impl; [exact IH|]. cbn. intros _ t' H. eapply Forall_impl; [exact H|]. intros []; cbn; [lia|done].
Qed.

Definition can_step (σ : system) : Prop := ∃ σ', step σ σ'.

(** Who waits for a mutex waits for a thread that does not wait, or that waits
    for a greater one. *)
Lemma waiting_progress B σ : ordered_system σ → locks_below B σ →
  ∀ n i l mode m acts, σ !! i = Some (Thread l (lock_action mode m :: acts)) → (N.to_nat (B - m) ≤ n)%nat → can_step σ.
Proof.
  intros Ho HB. induction n as [|n IH]; intros i l mode m acts Hi Hn.
  { specialize (HB i _ Hi). cbn in HB. apply Forall_cons in HB as [HB _]. lia. }
  destruct (decide (available σ mode m)) as [Ha|Ha]; [eexists; by eapply step_lock|].
  unfold available in Ha. apply map_not_Forall in Ha as (j & [lj actsj] & Hj & Hx); [|apply _].
  apply not_Forall_Exists in Hx; [|apply _]. apply Exists_exists in Hx as ([mode' m'] & Hin & Hx). cbn in *.
  assert (m' = m) as -> by (destruct (decide (m' = m)); [done|naive_solver]).
  pose proof (Ho j _ Hj) as Hoj. cbn in Hoj. destruct actsj as [|[mode2 m2|mode2 m2] actsj]; cbn in Hoj.
  - subst lj. by apply not_elem_of_nil in Hin.
  - destruct Hoj as [Hlt _]. rewrite Forall_forall in Hlt. specialize (Hlt _ Hin). cbn in Hlt.
    apply (IH j lj mode2 m2 actsj Hj). pose proof (HB j _ Hj) as HBj. cbn in HBj. apply Forall_cons in HBj as [HBj _]. lia.
  - eexists. by eapply step_unlock.
Qed.

Lemma ordered_progress σ : ordered_system σ → all_done σ ∨ can_step σ.
Proof.
  intros Ho. destruct (decide (all_done σ)) as [Hd|Hd]; [by left|right].
  apply map_not_Forall in Hd as (i & [l acts] & Hi & Hx); [|apply _]. cbn in Hx.
  destruct acts as [|[mode m|mode m] acts]; [done| |eexists; by eapply step_unlock].
  destruct (locks_bounded σ) as [B HB]. by eapply (waiting_progress B).
Qed.

(** ** Every step is an action less *)

Definition total (σ : system) : nat := map_fold (λ _ t n, length (rest t) + n) 0 σ.

Lemma total_insert_new σ i t : σ !! i = None → total (<[i := t]> σ) = length (rest t) + total σ.
Proof. intros H. unfold total. by rewrite map_fold_insert_L by (done || (intros; lia)). Qed.

Lemma total_insert σ i t t' : σ !! i = Some t → total (<[i := t']> σ) + length (rest t) = total σ + length (rest t').
Proof.
  intros H. rewrite <-(insert_delete_id σ i t) at 2 by done. rewrite <-insert_delete_eq.
  rewrite !total_insert_new by apply lookup_delete_eq. lia.
Qed.

Lemma step_total σ σ' : step σ σ' → total σ = S (total σ').
Proof.
  destruct 1 as [σ i l mode m acts Hi _|σ i l mode m acts Hi].
  - pose proof (total_insert _ _ _ (Thread ((mode, m) :: l) acts) Hi) as H. cbn in H. lia.
  - pose proof (total_insert _ _ _ (Thread (release mode m l) acts) Hi) as H. cbn in H. lia.
Qed.

Lemma steps_total n σ σ' : nsteps step n σ σ' → n + total σ' = total σ.
Proof. induction 1 as [|n σ σ1 σ' Hs _ IH]; [done|]. rewrite (step_total _ _ Hs). lia. Qed.

(** ** Owners exclude each other *)

Definition exclusion (σ : system) : Prop := ∀ i j ti tj m mode,
  σ !! i = Some ti → σ !! j = Some tj → i ≠ j → (exclusive_access, m) ∈ owned ti → (mode, m) ∉ owned tj.

Lemma available_excludes σ mode m i t mode' : available σ mode m → σ !! i = Some t → (mode', m) ∈ owned t →
  mode = shared_access ∧ mode' = shared_access.
Proof. intros Ha Hi Hin. specialize (Ha i t Hi). rewrite Forall_forall in Ha. by apply (Ha (mode', m)). Qed.

Lemma step_exclusion σ σ' : step σ σ' → exclusion σ → exclusion σ'.
Proof.
  intros Hs He. destruct Hs as [σ k l mode m acts Hk Ha|σ k l mode m acts Hk]; intros i j ti tj m' mode' Hi Hj Hij Hin Hin'.
  - apply lookup_insert_Some in Hi as [[<- <-]|[Hki Hi]], Hj as [[<- <-]|[Hkj Hj]]; [done|..]; cbn in *.
    + apply elem_of_cons in Hin as [[= <- <-]|Hin].
      * by destruct (available_excludes _ _ _ _ _ _ Ha Hj Hin').
      * by apply (He k j _ _ m' mode' Hk Hj Hij).
    + apply elem_of_cons in Hin' as [[= <- <-]|Hin'].
      * by destruct (available_excludes _ _ _ _ _ _ Ha Hi Hin).
      * by apply (He i k _ _ m' mode' Hi Hk Hij).
    + by apply (He i j _ _ m' mode' Hi Hj Hij).
  - assert (∀ h th, <[k := Thread (release mode m l) acts]> σ !! h = Some th →
      ∃ th', σ !! h = Some th' ∧ ∀ o, o ∈ owned th → o ∈ owned th') as Hsub.
    { intros h th Hh. destruct (decide (h = k)) as [-> |Hne].
      - rewrite lookup_insert_eq in Hh. simplify_eq/=. eexists. split; [done|]. intros o [_ Ho]%list_elem_of_filter. done.
      - rewrite lookup_insert_ne in Hh by done. by exists th. }
    destruct (Hsub i ti Hi) as (ti' & Hi' & Hti). destruct (Hsub j tj Hj) as (tj' & Hj' & Htj).
    by apply (He i j _ _ m' mode' Hi' Hj' Hij (Hti _ Hin) (Htj _ Hin')).
Qed.

(** * The methods *)

(** [strictest_lock] gives a lock that is among the required ones and is not
    weaker than any of them. *)
Lemma strictest_lock_spec l ls :
  strictest_lock l ls ∈ l :: ls ∧ Forall (λ x, mode_value x ≤ mode_value (strictest_lock l ls)) (l :: ls).
Proof.
  revert l. induction ls as [|r ls IH]; intros l; cbn [strictest_lock]; [split; [left|by repeat constructor]|].
  destruct (IH (strictest_lock_impl l r)) as [Hin Hle]. apply Forall_cons in Hle as [Hi Hle].
  assert (strictest_lock_impl l r = l ∨ strictest_lock_impl l r = r) as Hlr.
  { unfold strictest_lock_impl. destruct (_ <? _); auto. }
  assert (mode_value l ≤ mode_value (strictest_lock_impl l r) ∧ mode_value r ≤ mode_value (strictest_lock_impl l r)) as [].
  { unfold strictest_lock_impl. destruct (Nat.ltb_spec (mode_value l) (mode_value r)); lia. }
  split; [|repeat constructor; [lia|lia|done]].
  apply elem_of_cons in Hin as [-> |Hin]; [|by do 2 right]. destruct Hlr as [-> | ->]; [left|right; left].
Qed.

Lemma strictest_exclusive l ls : exclusive_access ∈ l :: ls → strictest_lock l ls = exclusive_access.
Proof.
  intros H. destruct (strictest_lock_spec l ls) as [_ Hle]. rewrite Forall_forall in Hle. specialize (Hle _ H).
  cbn in Hle. destruct (strictest_lock l ls); cbn in Hle; [lia|lia|done].
Qed.

(** Any channel feature makes [open_record] exclusive. *)
Lemma open_record_exclusive fs : channel_feature ∈ fs → open_record_lock fs = exclusive_access.
Proof.
  unfold open_record_lock. generalize shared_access. induction fs as [|f fs IH]; intros l Hf; [by apply not_elem_of_nil in Hf|].
  cbn [foldl]. apply elem_of_cons in Hf as [<- |Hf]; [|by apply IH]. rewrite (strictest_exclusive l) by (right; left).
  clear IH. induction fs as [|f fs IH]; [done|]. cbn [foldl]. by rewrite strictest_exclusive by left.
Qed.

Lemma push_record_unlocked fs : push_record_lock fs = unlocked_access.
Proof. unfold push_record_lock. induction fs as [|f fs IH]; [done|]. cbn. exact IH. Qed.

Lemma release_all mode m : release mode m [(mode, m)] = [].
Proof. unfold release. rewrite filter_cons_False by (cbn; naive_solver). done. Qed.

Lemma release_head mode m m' : m ≠ m' → release mode m [(mode, m); (mode, m')] = [(mode, m')].
Proof. intros H. unfold release. rewrite filter_cons_False, filter_cons_True by (cbn; congruence). done. Qed.

Lemma release_second mode m m' : m ≠ m' → release mode m [(mode, m'); (mode, m)] = [(mode, m')].
Proof. intros H. unfold release. rewrite filter_cons_True, filter_cons_False by (cbn; congruence). done. Qed.

Lemma ordered_app l a b : ordered l a → ordered [] b → ordered l (a ++ b).
Proof.
  revert l. induction a as [|[mode m|mode m] a IH]; intros l; cbn; [by intros ->|naive_solver|naive_solver].
Qed.

Lemma guard_ordered mode m : ordered [] (lock_guard mode m []).
Proof. destruct mode; cbn; [done|..]; (split; [constructor|apply release_all]). Qed.

(** Two different mutexes are locked in the order of their addresses. *)
Lemma lock2_ordered m1 m2 : m1 ≠ m2 → ordered [] (multiple_unique_lock2 m1 m2 []).
Proof.
  intros Hne. unfold multiple_unique_lock2. destruct (N.ltb_spec m1 m2); cbn [app ordered].
  - split; [constructor|]. split; [by repeat constructor|]. rewrite release_head, release_all; [done|congruence].
  - split; [constructor|]. split; [repeat constructor; cbn; lia|]. rewrite release_second, release_all; [done|congruence].
Qed.

(** Calls without a lock of a mutex that the thread already has: the loggers of
    a swap are different, and no exception handler is called by [open_record],
    which calls it with the logger locked. *)
Definition safe (m : method) : bool :=
  match m with
  | m_swap this that => bool_decide (this ≠ that)
  | m_open_record fs this logging_enabled throws =>
      negb (logging_enabled && throws && bool_decide (exception_handler_feature ∈ fs))
  | _ => true
  end.

Lemma safe_ordered m : safe m → ordered [] (run_method m).
Proof.
  destruct m as [| |this that|this that| | | | | |fs this en th|fs this th| | |]; cbn [safe run_method]; intros Hs;
    try apply guard_ordered.
  - case_decide; [done|]. apply ordered_app; apply guard_ordered.
  - apply lock2_ordered. by apply bool_decide_unpack in Hs.
  - destruct en; [|done]. unfold catch_exception. destruct th; [|apply guard_ordered].
    cbn in *. destruct (bool_decide _); [done|apply guard_ordered].
  - rewrite push_record_unlocked. cbn [lock_guard]. unfold catch_exception, handle_exception.
    destruct (th && _); [apply guard_ordered|done].
Qed.

Lemma start_ordered calls : map_Forall (λ _ ms, Forall safe ms) calls → ordered_system (start calls).
Proof.
  intros H i t Ht. unfold start in Ht. rewrite lookup_fmap in Ht. apply fmap_Some in Ht as (ms & Hms & ->). cbn.
  specialize (H i ms Hms). cbn in H. clear Hms.
  induction H as [|m ms Hm _ IH]; [done|]. cbn. by apply ordered_app; [apply safe_ordered|].
Qed.

(** ** Methods that lock a mutex twice *)

(** A swap of a logger with itself; an exception in [open_record] of a logger
    with a channel and an exception handler. *)
Definition self_blocking (m : method) : option N :=
  match m with
  | m_swap this that => if decide (this = that) then Some this else None
  | m_open_record fs this true true =>
      if bool_decide (channel_feature ∈ fs) && bool_decide (exception_handler_feature ∈ fs) then Some this else None
  | _ => None
  end.

Lemma self_blocking_actions m x : self_blocking m = Some x →
  ∃ mode acts, run_method m = lock_action exclusive_access x :: lock_action mode x :: acts.
Proof.
  destruct m as [| |this that|this that| | | | | |fs this [] []|fs this th| | |]; cbn [self_blocking]; try done.
  - case_decide; [|done]. intros [= <-]. subst that. cbn [run_method]. unfold multiple_unique_lock2.
    rewrite N.ltb_irrefl. by eexists _, _.
  - destruct (bool_decide (channel_feature ∈ fs)) eqn:Hc; [|done]. apply bool_decide_eq_true in Hc.
    destruct (bool_decide (exception_handler_feature ∈ fs)) eqn:Hh; [|done]. intros [= <-]. cbn [run_method].
    rewrite open_record_exclusive by done. unfold catch_exception, handle_exception.
    rewrite Hh, push_record_unlocked, decide_True by done. by eexists _, _.
Qed.

(** The thread is before the first lock, or waits for the mutex it has. *)
Definition blocked_at (x : N) (t : thread) : Prop :=
  ∃ mode acts, t = Thread [] (lock_action exclusive_access x :: lock_action mode x :: acts) ∨
               t = Thread [(exclusive_access, x)] (lock_action mode x :: acts).

Lemma step_blocked σ σ' i x : step σ σ' → (∃ t, σ !! i = Some t ∧ blocked_at x t) → ∃ t, σ' !! i = Some t ∧ blocked_at x t.
Proof.
  intros Hs (t & Hi & Ht). destruct Hs as [σ k l mode m acts Hk Ha|σ k l mode m acts Hk];
    (destruct (decide (k = i)) as [-> |Hne]; [|exists t; by rewrite lookup_insert_ne by done]);
    rewrite Hk in Hi; simplify_eq; destruct Ht as (mode' & acts' & [Ht|Ht]); simplify_eq.
  - rewrite lookup_insert_eq. eexists. split; [done|]. exists mode', acts'. by right.
  - exfalso. destruct (available_excludes _ _ _ _ _ exclusive_access Ha Hk) as [_ Hx]; [left|done].
Qed.

(** C40: locks of multithreaded loggers. Whatever methods of loggers any number
    of threads call, no thread owns a mutex that another one owns exclusively.
    When every call is safe, that is, loggers are not swapped with themselves
    and no exception handler is called by [open_record], there is no deadlock:
    in every state that is reached all calls are completed or a thread can go
    on, and the number of steps is bounded. A thread that swaps a logger with
    itself, or whose [open_record] throws for a logger with a channel and an
    exception handler, never completes the call. *)
Theorem logger_locks calls n σ : nsteps step n (start calls) σ →
  exclusion σ ∧
  (map_Forall (λ _ ms, Forall safe ms) calls → n + total σ = total (start calls) ∧ (all_done σ ∨ can_step σ)) ∧
  (∀ i m ms x, calls !! i = Some (m :: ms) → self_blocking m = Some x → ∃ t, σ !! i = Some t ∧ rest t ≠ []).
Proof.
  intros Hn. split; [|split].
  - assert (exclusion (start calls)) as H0.
    { intros i j ti tj m mode Hi _ _ Hin _. unfold start in Hi. rewrite lookup_fmap in Hi.
      apply fmap_Some in Hi as (ms & _ & ->). by apply not_elem_of_nil in Hin. }
    clear -Hn H0. induction Hn as [|n σ0 σ1 σ Hs _ IH]; [done|]. by apply IH, (step_exclusion σ0).
  - intros Hs. split; [by apply steps_total|]. apply ordered_progress. apply start_ordered in Hs.
    clear -Hn Hs. induction Hn as [|n σ0 σ1 σ H _ IH]; [done|]. by apply IH, (step_ordered σ0).
  - intros i m ms x Hi Hm. assert (∃ t, start calls !! i = Some t ∧ blocked_at x t) as H0.
    { destruct (self_blocking_actions m x Hm) as (mode & acts & E). unfold start. rewrite lookup_fmap, Hi. cbn.
      rewrite E. eexists. split; [done|]. eexists _, _. by left. }
    clear -Hn H0. induction Hn as [|n σ0 σ1 σ Hs _ IH]; [|by eapply IH, step_blocked].
    destruct H0 as (t & Ht & mode & acts & [-> | ->]); by eexists.
Qed.

(** * Examples *)

Module sample_locks.

(** Two threads that swap two loggers in opposite order, and one that logs. *)
Definition swapping : gmap nat (list method) :=
  {[ 0 := [m_swap 1 2]; 1 := [m_swap 2 1; m_assign 1 2]; 2 := [m_open_record [severity_feature; channel_feature] 2 true true] ]}.

Definition blocking : gmap nat (list method) :=
  {[ 0 := [m_open_record [exception_handler_feature; channel_feature] 1 true true] ]}.

(** The thread has the mutex of its logger and waits for it. *)
Definition blocked : system :=
  {[ 0 := Thread [(exclusive_access, 1%N)]
            [lock_action shared_access 1; unlock_action shared_access 1; unlock_action exclusive_access 1] ]}.

Lemma blocking_blocks : step (start blocking) blocked.
Proof.
  refine (step_lock (start blocking) 0 [] exclusive_access 1 _ eq_refl _). apply (bool_decide_unpack _). by vm_compute.
Qed.

Lemma logger_locks_witness :
  (total (start swapping) = 14 ∧ (all_done (start swapping) ∨ can_step (start swapping))) ∧
  exclusion blocked ∧ ∃ t, blocked !! 0 = Some t ∧ rest t ≠ [].
Proof.
  destruct (logger_locks swapping 0 (start swapping)) as (_ & H1 & _); [constructor|].
  destruct (logger_locks blocking 1 blocked) as (H2 & _ & H3); [by eapply nsteps_once, blocking_blocks|].
  split; [|split; [exact H2|by apply (H3 0 (m_open_record [exception_handler_feature; channel_feature] 1 true true) [] 1%N)]].
  split; [by vm_compute|]. apply H1. apply (bool_decide_unpack _). by vm_compute.
Defined.

End sample_locks.
