(* ===== verification/AsyncSink.v ===== *)
(** Asynchronous sink frontend (src/include/boost/log/sinks/async_frontend.hpp,
    class [asynchronous_sink]) as a transition system of threads.

    A thread is a program counter of [run], [feed_records], [flush], [stop],
    [consume] or [try_consume]. A step is one critical section of the frontend
    mutex, one access to an atomic flag, one operation of the record queue
    (file Queues) or one call of the backend. Steps are interleaved
    arbitrarily; a thread waiting for [m_BlockCond] may check its condition
    at any time, as after a spurious wake-up. *)

From Stdlib Require Import ZArith.
From stdpp Require Import base numbers relations list.
From S2P Require Import Prelude Queues.

(** [asynchronous_sink::operation]. *)
Inductive operation : Type := idle | feeding_records | flushing.

#[export] Instance operation_eq_dec : EqDecision operation.
Proof. solve_decision. Defined.

(** The public method on behalf of which records are fed. *)
Inductive feeder : Type := by_run | by_feed_records | by_flush.

Section sink.
Context {A : Type}.
Context (params : queue_params (A := A)).
Abbreviation queue := (Queues.queue (A := A)).

(** The members of the class; [fed] and [flushes] record what the backend has
    seen. *)
Record sink := Sink {
  m_ActiveOperation : operation;
  m_StopRequested : bool;
  m_FlushRequested : bool;
  m_queue : queue;
  m_DedicatedFeedingThread : option nat;
  fed : list A;
  flushes : nat }.

Definition set_active op (s : sink) : sink :=
  Sink op (m_StopRequested s) (m_FlushRequested s) (m_queue s) (m_DedicatedFeedingThread s) (fed s) (flushes s).
Definition set_stop b (s : sink) : sink :=
  Sink (m_ActiveOperation s) b (m_FlushRequested s) (m_queue s) (m_DedicatedFeedingThread s) (fed s) (flushes s).
Definition set_flush b (s : sink) : sink :=
  Sink (m_ActiveOperation s) (m_StopRequested s) b (m_queue s) (m_DedicatedFeedingThread s) (fed s) (flushes s).
Definition set_queue q (s : sink) : sink :=
  Sink (m_ActiveOperation s) (m_StopRequested s) (m_FlushRequested s) q (m_DedicatedFeedingThread s) (fed s) (flushes s).
Definition set_dedicated d (s : sink) : sink :=
  Sink (m_ActiveOperation s) (m_StopRequested s) (m_FlushRequested s) (m_queue s) d (fed s) (flushes s).

(** [base_type::feed_record] and [base_type::flush_backend], as seen by the
    backend. *)
Definition feed r (s : sink) : sink :=
  Sink (m_ActiveOperation s) (m_StopRequested s) (m_FlushRequested s) (m_queue s) (m_DedicatedFeedingThread s)
    (fed s ++ [r]) (flushes s).
Definition flush_backend (s : sink) : sink :=
  Sink (m_ActiveOperation s) (m_StopRequested s) (m_FlushRequested s) (m_queue s) (m_DedicatedFeedingThread s)
    (fed s) (S (flushes s)).

(** * Critical sections of the frontend mutex *)

Inductive start_result :=
| start_throws              (** [unexpected_call] *)
| start_stopped (s : sink)  (** the function returns [true] *)
| start_waits               (** the thread waits for [m_BlockCond] *)
| started (s : sink).

Definition start_feeding_operation (op : operation) (s : sink) : start_result :=
  if decide (m_ActiveOperation s = idle) then started (set_active op s)
  else if decide (op = feeding_records ∧ m_ActiveOperation s = feeding_records) then start_throws
  else if m_StopRequested s then start_stopped (set_stop false s)
  else start_waits.

Definition complete_feeding_operation (s : sink) : sink :=
  set_stop false (set_active idle s).

(** [flush] after the wait for [m_BlockCond] and without one; the result tells
    whether the calling thread has to feed the records itself. *)
Inductive flush_result :=
| flush_waits (s : sink)
| flush_returns (s : sink)
| flush_feeds (s : sink).

Definition begin_flushing (s : sink) : sink := set_flush true (set_active flushing s).

Definition flush_check_wait (s : sink) : flush_result :=
  if negb (m_StopRequested s) && m_FlushRequested s then flush_waits s
  else if decide (m_ActiveOperation s = idle) then flush_feeds (begin_flushing s)
  else flush_returns s.

Definition flush_enter (s : sink) : flush_result :=
  match m_ActiveOperation s with
  | idle => flush_feeds (begin_flushing s)
  | feeding_records | flushing =>
      flush_check_wait (set_queue (interrupt (m_queue s)) (set_flush true s))
  end.

(** The critical section of [stop]. *)
Definition request_stop (s : sink) : sink :=
  set_dedicated None (set_queue (interrupt (m_queue s)) (set_stop true s)).

(** * Threads *)

Inductive pc :=
(** [run], [feed_records]: before or in [start_feeding_operation] *)
| starting (k : feeder)
(** [do_feed_records]: the check of the loop condition, the choice of the
    way to dequeue, the attempt to dequeue, the call of [feed_record] *)
| loop_check (k : feeder)
| loop_mode (k : feeder)
| loop_dequeue (k : feeder) (any : bool)
| feeding (k : feeder) (r : A)
(** [do_feed_records] after the loop; the destructor of [scoped_flag], during
    an exception or not *)
| flush_check (k : feeder)
| flushing_backend (k : feeder)
| clearing_flag (k : feeder) (threw : bool)
(** [run] after [do_feed_records] *)
| run_check
| run_dequeue
(** The destructor of [scoped_feeding_operation]. *)
| completing (threw : bool)
(** [flush], before its first critical section and waiting. *)
| flush_starting
| flush_waiting
(** [stop], before its critical section and joining the dedicated thread. *)
| stopping
| joining (t : nat)
(** [consume] and [try_consume]. *)
| consuming (r : A)
| consume_waiting (r : A)
| enqueuing (r : A)
| try_consuming (r : A)
| try_enqueuing (r : A)
(** The call has returned or thrown an exception. A producer blocked by the
    overflow strategy is represented in the queue. *)
| finished (threw : bool).

Definition after_feeding (k : feeder) : pc :=
  match k with by_run => run_check | _ => completing false end.

(** The queue has no element that can be dequeued now. *)
Definition nothing_ready (q : queue) : Prop :=
  items q = [] ∨ ∃ e rest, next_element params (items q) e rest ∧ ¬ ready params e q.

Definition sleep (q : queue) : queue :=
  Queue [] (waiting q) (woken q) true false (now q) (accepted q) (taken q) (discarded q) (interrupts q).
Definition acknowledge (q : queue) : queue :=
  Queue (items q) (waiting q) (woken q) false false (now q) (accepted q) (taken q) (discarded q) (interrupts q).

Inductive thread_step (ts : list pc) : pc → sink → pc → sink → Prop :=
| start_throw k s :
    start_feeding_operation feeding_records s = start_throws →
    thread_step ts (starting k) s (finished true) s
| start_stop k s s' :
    start_feeding_operation feeding_records s = start_stopped s' →
    thread_step ts (starting k) s (finished false) s'
| start_feeding k s s' :
    start_feeding_operation feeding_records s = started s' →
    thread_step ts (starting k) s (loop_check k) s'
| loop_continues k s :
    m_StopRequested s = false → thread_step ts (loop_check k) s (loop_mode k) s
| loop_stops k s :
    m_StopRequested s = true → thread_step ts (loop_check k) s (flush_check k) s
| loop_chooses k s :
    thread_step ts (loop_mode k) s (loop_dequeue k (m_FlushRequested s)) s
| loop_takes k any e rest s :
    next_element params (items (m_queue s)) e rest → any = true ∨ ready params e (m_queue s) →
    thread_step ts (loop_dequeue k any) s (feeding k (m_record e))
      (set_queue (take_element e rest (m_queue s)) s)
| loop_breaks_empty k s :
    items (m_queue s) = [] → thread_step ts (loop_dequeue k true) s (flush_check k) s
| loop_breaks k s :
    nothing_ready (m_queue s) → thread_step ts (loop_dequeue k false) s (flush_check k) s
| feed_returns k r s : thread_step ts (feeding k r) s (loop_check k) (feed r s)
| feed_throws k r s : thread_step ts (feeding k r) s (completing true) (feed r s)
| flush_not_requested k s :
    m_FlushRequested s = false → thread_step ts (flush_check k) s (after_feeding k) s
| flush_is_requested k s :
    m_FlushRequested s = true → thread_step ts (flush_check k) s (flushing_backend k) s
| backend_flushed k s : thread_step ts (flushing_backend k) s (clearing_flag k false) (flush_backend s)
| backend_flush_throws k s : thread_step ts (flushing_backend k) s (clearing_flag k true) (flush_backend s)
| flag_cleared k s : thread_step ts (clearing_flag k false) s (after_feeding k) (set_flush false s)
| flag_cleared_throwing k s : thread_step ts (clearing_flag k true) s (completing true) (set_flush false s)
| run_continues s : m_StopRequested s = false → thread_step ts run_check s run_dequeue s
| run_stops s : m_StopRequested s = true → thread_step ts run_check s (completing false) s
| run_takes e rest s :
    interruption_requested (m_queue s) = false →
    next_element params (items (m_queue s)) e rest → ready params e (m_queue s) →
    thread_step ts run_dequeue s (feeding by_run (m_record e))
      (set_queue (take_element e rest (m_queue s)) s)
| run_sleeps s :
    interruption_requested (m_queue s) = false → items (m_queue s) = [] →
    thread_step ts run_dequeue s run_dequeue (set_queue (sleep (m_queue s)) s)
| run_interrupted s :
    interruption_requested (m_queue s) = true →
    thread_step ts run_dequeue s (loop_check by_run) (set_queue (acknowledge (m_queue s)) s)
| operation_completed b s :
    thread_step ts (completing b) s (finished b) (complete_feeding_operation s)
| flush_started s s' : flush_enter s = flush_waits s' → thread_step ts flush_starting s flush_waiting s'
| flush_feeding s s' : flush_enter s = flush_feeds s' → thread_step ts flush_starting s (loop_check by_flush) s'
| flush_not_needed s s' : flush_enter s = flush_returns s' → thread_step ts flush_starting s (finished false) s'
| flush_woken_feeding s s' :
    flush_check_wait s = flush_feeds s' → thread_step ts flush_waiting s (loop_check by_flush) s'
| flush_woken_done s s' :
    flush_check_wait s = flush_returns s' → thread_step ts flush_waiting s (finished false) s'
| stop_joins t s :
    m_DedicatedFeedingThread s = Some t → thread_step ts stopping s (joining t) (request_stop s)
| stop_returns s :
    m_DedicatedFeedingThread s = None → thread_step ts stopping s (finished false) (request_stop s)
| joined t b s : ts !! t = Some (finished b) → thread_step ts (joining t) s (finished false) s
| consume_waits r s : m_FlushRequested s = true → thread_step ts (consuming r) s (consume_waiting r) s
| consume_enters r s : m_FlushRequested s = false → thread_step ts (consuming r) s (enqueuing r) s
| consume_woken r s : m_FlushRequested s = false → thread_step ts (consume_waiting r) s (enqueuing r) s
| consume_enqueues r s :
    thread_step ts (enqueuing r) s (finished false) (set_queue (enqueue_attempt params r (m_queue s)) s)
| try_consume_gives_up r s : m_FlushRequested s = true → thread_step ts (try_consuming r) s (finished false) s
| try_consume_enters r s : m_FlushRequested s = false → thread_step ts (try_consuming r) s (try_enqueuing r) s
| try_consume_enqueues r s :
    full params (m_queue s) = false →
    thread_step ts (try_enqueuing r) s (finished false) (set_queue (push r (m_queue s)) s)
| try_consume_fails r s : thread_step ts (try_enqueuing r) s (finished false) s.

(** The entry points of the public methods. *)
Inductive entry : pc → Prop :=
| entry_run : entry (starting by_run)
| entry_feed_records : entry (starting by_feed_records)
| entry_flush : entry flush_starting
| entry_stop : entry stopping
| entry_consume r : entry (consuming r)
| entry_try_consume r : entry (try_consuming r).

(** What the queue does without a thread of this model: a producer that was
    blocked runs again, time passes. *)
Inductive queue_step : queue → queue → Prop :=
| queue_resume r l1 l2 q :
    woken q = l1 ++ (r, true) :: l2 → queue_step q (enqueue_attempt params r (set_woken (l1 ++ l2) q))
| queue_give_up r l1 l2 q :
    woken q = l1 ++ (r, false) :: l2 → queue_step q (discard r (set_woken (l1 ++ l2) q))
| queue_tick t q :
    (now q ≤ t)%Z →
    queue_step q (Queue (items q) (waiting q) (woken q) (asleep q) (interruption_requested q) t
              (accepted q) (taken q) (discarded q) (interrupts q)).

Record system := System { threads : list pc; shared : sink }.

(** The calls that are in progress make progress. *)
Inductive advance : system → system → Prop :=
| advance_thread i ts p s p' s' :
    ts !! i = Some p → thread_step ts p s p' s' → advance (System ts s) (System (<[i:=p']> ts) s')
| advance_queue ts s q' :
    queue_step (m_queue s) q' → advance (System ts s) (System ts (set_queue q' s)).

Inductive sink_step : system → system → Prop :=
| step_advance x y : advance x y → sink_step x y
| step_call ts s p : entry p → sink_step (System ts s) (System (ts ++ [p]) s).

(** The constructors, with or without the dedicated thread. *)
Definition construct (start_thread : bool) : system :=
  if start_thread then System [starting by_run] (Sink idle false false empty_queue (Some 0) [] 0)
  else System [] (Sink idle false false empty_queue None [] 0).

Definition sink_reachable (x : system) : Prop := ∃ b, rtc sink_step (construct b) x.

(** * Invariant *)

(** The thread is inside of a feeding operation. *)
Definition is_feeding (p : pc) : bool :=
  match p with
  | loop_check _ | loop_mode _ | loop_dequeue _ _ | feeding _ _ | flush_check _ | flushing_backend _
  | clearing_flag _ _ | run_check | run_dequeue | completing _ => true
  | _ => false
  end.

(** The record the thread has dequeued and not yet passed to the backend. *)
Definition in_flight (p : pc) : list A :=
  match p with feeding _ r => [r] | _ => [] end.

(** The effect of a step on the ownership of the feeding operation. *)
Inductive ownership (p : pc) (s : sink) (p' : pc) (s' : sink) : Prop :=
| own_outside :
    is_feeding p = false → is_feeding p' = false → m_ActiveOperation s' = m_ActiveOperation s →
    taken (m_queue s') = taken (m_queue s) → fed s' = fed s → ownership p s p' s'
| own_enter :
    is_feeding p = false → is_feeding p' = true → in_flight p' = [] →
    m_ActiveOperation s = idle → m_ActiveOperation s' ≠ idle →
    taken (m_queue s') = taken (m_queue s) → fed s' = fed s → ownership p s p' s'
| own_inside :
    is_feeding p = true → is_feeding p' = true → m_ActiveOperation s' = m_ActiveOperation s →
    (taken (m_queue s) = fed s ++ in_flight p → taken (m_queue s') = fed s' ++ in_flight p') →
    ownership p s p' s'
| own_leave :
    is_feeding p = true → is_feeding p' = false → in_flight p = [] → m_ActiveOperation s' = idle →
    taken (m_queue s') = taken (m_queue s) → fed s' = fed s → ownership p s p' s'.

Lemma take_element_taken e rest (q : queue) : taken (take_element e rest q) = taken q ++ [m_record e].
Proof. unfold take_element. by destruct (space_available _ _). Qed.

Lemma enqueue_attempt_taken r q : taken (enqueue_attempt params r q) = taken q.
Proof. unfold enqueue_attempt. by repeat case_match. Qed.

Lemma flush_check_wait_cases s :
  (flush_check_wait s = flush_waits s ∧ m_StopRequested s = false ∧ m_FlushRequested s = true) ∨
  (flush_check_wait s = flush_feeds (begin_flushing s) ∧ m_ActiveOperation s = idle) ∨
  (flush_check_wait s = flush_returns s ∧ m_ActiveOperation s ≠ idle ∧
   (m_StopRequested s = true ∨ m_FlushRequested s = false)).
Proof.
  unfold flush_check_wait. destruct (m_StopRequested s), (m_FlushRequested s), (m_ActiveOperation s);
    cbn; naive_solver.
Qed.

Ltac own_simpl :=
  cbn in *; rewrite ?take_element_taken, ?enqueue_attempt_taken, ?app_nil_r in *; try done.

(** The outcomes of the critical section at the beginning of [flush]. *)
Lemma flush_enter_cases s :
  (flush_enter s = flush_feeds (begin_flushing s) ∧ m_ActiveOperation s = idle) ∨
  (m_ActiveOperation s ≠ idle ∧ ∃ s', s' = set_queue (interrupt (m_queue s)) (set_flush true s) ∧
   (flush_enter s = flush_waits s' ∨ flush_enter s = flush_returns s')).
Proof.
  unfold flush_enter. destruct (m_ActiveOperation s) eqn:E; [by left|right..];
    (split; [done|]; eexists; split; [done|]);
    destruct (flush_check_wait_cases (set_queue (interrupt (m_queue s)) (set_flush true s)))
      as [[Hf _]|[[Hf Ha]|[Hf _]]]; auto; cbn in Ha; congruence.
Qed.

Ltac flush_cases :=
  match goal with
  | H : flush_enter ?s = _ |- _ =>
      let E := fresh in revert H;
      destruct (flush_enter_cases s) as [[E ?]|(? & ? & -> & [E|E])]; rewrite E; intros ?; simplify_eq
  | H : flush_check_wait ?s = _ |- _ =>
      let E := fresh in revert H;
      destruct (flush_check_wait_cases s) as [[E _]|[[E ?]|[E _]]]; rewrite E; intros ?; simplify_eq
  end.

Lemma thread_step_ownership ts p s p' s' : thread_step ts p s p' s' → ownership p s p' s'.
Proof.
  destruct 1.
  all: try solve [apply own_outside; own_simpl].
  all: try solve [apply own_inside; own_simpl; intros ->; own_simpl].
  all: try solve [apply own_leave; own_simpl].
  all: try solve [destruct k; apply own_inside; own_simpl].
  all: try (unfold start_feeding_operation in *; repeat case_match; simplify_eq;
    solve [by apply own_outside | by apply own_enter]).
  all: flush_cases; solve [by apply own_outside | by apply own_enter].
Qed.

(** The queue of a step of a thread changes as the queue allows. *)
Lemma thread_step_queue ts p s p' s' :
  thread_step ts p s p' s' → m_queue s' = m_queue s ∨ step params (m_queue s) (m_queue s').
Proof.
  destruct 1; try (by left).
  all: try (unfold start_feeding_operation in *; repeat case_match; simplify_eq; by left).
  all: try (flush_cases; solve [by left | right; apply step_interrupt]).
  - right. by apply step_try_dequeue.
  - right. by apply step_dequeue_ready.
  - right. cbn. by apply step_sleep.
  - right. cbn. by apply step_interrupted.
  - right. apply step_interrupt.
  - right. apply step_interrupt.
  - right. apply step_enqueue.
  - right. by apply step_try_enqueue.
Qed.

Lemma queue_step_step q q' : queue_step q q' → step params q q' ∧ taken q' = taken q.
Proof.
  destruct 1; (split; [by econstructor|]); rewrite ?enqueue_attempt_taken; done.
Qed.

(** At most one thread, the owner, is in a feeding operation; it is there
    exactly when [m_ActiveOperation] is not [idle]; what was taken from the
    queue has been fed, but for the record the owner has in its hands. *)
Record sink_ok (x : system) (o : option nat) : Prop := SinkOk {
  ok_owner : ∀ i p, threads x !! i = Some p → is_feeding p = bool_decide (o = Some i);
  ok_active : o = None ↔ m_ActiveOperation (shared x) = idle;
  ok_fed : match o with
    | Some i => ∃ p, threads x !! i = Some p ∧ taken (m_queue (shared x)) = fed (shared x) ++ in_flight p
    | None => taken (m_queue (shared x)) = fed (shared x)
    end;
  ok_queue : queue_ok params (m_queue (shared x)) }.

Lemma thread_step_ok i ts p s p' s' o :
  ts !! i = Some p → thread_step ts p s p' s' → sink_ok (System ts s) o →
  ∃ o', sink_ok (System (<[i:=p']> ts) s') o'.
Proof.
  intros Hi Hstep [H1 H2 H3 H4]. cbn in *.
  assert (i < length ts) as Hlt by (by eapply lookup_lt_Some).
  assert (queue_ok params (m_queue s')) as Hq
    by (destruct (thread_step_queue _ _ _ _ _ Hstep) as [->|?]; [done|by eapply step_ok]).
  assert (∀ o', (is_feeding p' = bool_decide (o' = Some i)) →
      (∀ j, j ≠ i → (o' = Some j ↔ o = Some j)) →
      ∀ j q, <[i:=p']> ts !! j = Some q → is_feeding q = bool_decide (o' = Some j)) as Hown.
  { intros o' Hp Ho j q Hj. destruct (decide (j = i)) as [->|Hne].
    - rewrite list_lookup_insert_eq in Hj by done. by simplify_eq.
    - rewrite list_lookup_insert_ne in Hj by done. rewrite (H1 _ _ Hj). apply bool_decide_ext. symmetry. by apply Ho. }
  pose proof (H1 _ _ Hi) as Hpi.
  destruct (thread_step_ownership _ _ _ _ _ Hstep) as [Hp Hp' Ha Ht Hf|Hp Hp' Hfl Ha Ha' Ht Hf|Hp Hp' Ha Ht|Hp Hp' Hfl Ha Ht Hf];
    rewrite Hp in Hpi; symmetry in Hpi.
  - apply bool_decide_eq_false in Hpi. exists o. split; cbn; [| by rewrite Ha | | done].
    + apply Hown; [|done]. rewrite Hp'. symmetry. by apply bool_decide_eq_false.
    + rewrite Ht, Hf. destruct o as [j|]; [|done]. destruct H3 as (q & Hj & Hq'). exists q.
      rewrite list_lookup_insert_ne by congruence. done.
  - assert (o = None) as -> by tauto. exists (Some i). split; cbn; [| by split | | done].
    + apply Hown; [rewrite Hp'; symmetry; by apply bool_decide_eq_true|]. intros j Hj. split; congruence.
    + exists p'. rewrite list_lookup_insert_eq by done. split; [done|]. by rewrite Ht, Hf, Hfl, app_nil_r.
  - apply bool_decide_eq_true in Hpi as ->. exists (Some i). split; cbn; [| by rewrite Ha | | done].
    + apply Hown; [|done]. rewrite Hp'. symmetry. by apply bool_decide_eq_true.
    + destruct H3 as (q & Hj & Hq'). simplify_eq. exists p'. rewrite list_lookup_insert_eq by done. auto.
  - apply bool_decide_eq_true in Hpi as ->. exists None. split; cbn; [| done | | done].
    + apply Hown; [rewrite Hp'; symmetry; by apply bool_decide_eq_false|]. intros j Hj. split; congruence.
    + destruct H3 as (q & Hj & Hq'). simplify_eq. by rewrite Ht, Hf, Hq', Hfl, app_nil_r.
Qed.

Lemma sink_step_ok x y o : sink_step x y → sink_ok x o → ∃ o', sink_ok y o'.
Proof.
  intros [x' y' [i ts p s p' s' Hi Hstep|ts s q' Hq]|ts s p He] Hok.
  - by eapply thread_step_ok.
  - exists o. destruct Hok as [H1 H2 H3 H4]. destruct (queue_step_step _ _ Hq) as [Hs Ht]. cbn in *.
    split; cbn; [done|done| |by eapply step_ok]. by rewrite Ht.
  - exists o. destruct Hok as [H1 H2 H3 H4]. cbn in *. split; cbn; [|done| |done].
    + intros i q [Hi|[Hi Hq]]%lookup_app_Some; [by apply H1|].
      assert (is_feeding q = false) as -> by (apply list_lookup_singleton_Some in Hq as [_ <-]; by destruct He).
      symmetry. apply bool_decide_eq_false. intros ->. destruct H3 as (q' & Hq' & _).
      apply lookup_lt_Some in Hq'. lia.
    + destruct o as [i|]; [|done]. destruct H3 as (q & Hi & Hq). exists q. split; [|done]. by apply lookup_app_l_Some.
Qed.

Lemma sink_reachable_ok x : sink_reachable x → ∃ o, sink_ok x o.
Proof.
  intros (b & Hr). remember (construct b) as x0 eqn:E.
  assert (∃ o, sink_ok x0 o) as H0.
  { subst. exists None. destruct b; (split; cbn; [|done|done|apply empty_queue_ok]).
    - by intros [|i] p ?; simplify_eq/=.
    - done. }
  clear E. induction Hr as [|x y z Hxy _ IH]; [done|]. apply IH. destruct H0 as [o Ho]. by eapply sink_step_ok.
Qed.

(** * Flushing by a thread of its own *)

(** Only thread [i] runs, and the backend does not throw. *)
Inductive solo (i : nat) : system → system → Prop :=
| solo_step ts p s p' s' :
    ts !! i = Some p → thread_step ts p s p' s' →
    p' ≠ completing true → (∀ k, p' ≠ clearing_flag k true) →
    solo i (System ts s) (System (<[i:=p']> ts) s').

(** The stages of [flush] when it feeds the records itself. *)
Definition flush_stage (n : nat) (p : pc) (s : sink) : Prop :=
  m_StopRequested s = false ∧
  match p with
  | flush_starting => m_ActiveOperation s = idle ∧ flushes s = n
  | loop_check by_flush | loop_mode by_flush | loop_dequeue by_flush true | feeding by_flush _ =>
      m_FlushRequested s = true ∧ flushes s = n
  | flush_check by_flush | flushing_backend by_flush =>
      m_FlushRequested s = true ∧ items (m_queue s) = [] ∧ flushes s = n
  | clearing_flag by_flush false => items (m_queue s) = [] ∧ flushes s = S n
  | completing false => m_FlushRequested s = false ∧ items (m_queue s) = [] ∧ flushes s = S n
  | finished false => m_ActiveOperation s = idle ∧ m_FlushRequested s = false ∧
      items (m_queue s) = [] ∧ flushes s = S n
  | _ => False
  end.

Definition flush_rank (p : pc) : nat :=
  match p with
  | flush_starting => 11 | feeding _ _ => 10 | loop_check _ => 9 | loop_mode _ => 8 | loop_dequeue _ _ => 7
  | flush_check _ => 6 | flushing_backend _ => 5 | clearing_flag _ _ => 4 | completing _ => 3 | _ => 0
  end.

Lemma next_element_items q e rest :
  next_element params (items q) e rest → length (items q) = S (length (items (take_element e rest q))).
Proof.
  intros Hn. unfold take_element. destruct (space_available _ _). cbn. by rewrite (next_element_perm _ _ _ _ Hn).
Qed.

Lemma take_element_accepted e rest (q : queue) : accepted (take_element e rest q) = accepted q.
Proof. unfold take_element. by destruct (space_available _ _). Qed.

(** A step leads to the next stage and decreases the work that is left. *)
Lemma flush_stage_step n ts p s p' s' :
  thread_step ts p s p' s' → p' ≠ completing true → (∀ k, p' ≠ clearing_flag k true) → flush_stage n p s →
  flush_stage n p' s' ∧ accepted (m_queue s') = accepted (m_queue s) ∧
  4 * length (items (m_queue s')) + flush_rank p' < 4 * length (items (m_queue s)) + flush_rank p.
Proof.
  intros Hstep Hc Hf Hst. unfold flush_stage in *. destruct Hstep; cbn in Hst; try tauto; try (destruct k; try tauto);
    cbn -[Nat.mul]; rewrite ?take_element_accepted; try (destruct Hst as (? & ? & ?); simplify_eq).
  all: try (destruct any; [|tauto]).
  all: try congruence.
  all: try solve [destruct_and?; split_and!; solve [done | lia]].
  - rewrite H0. split_and!; solve [done | lia].
  - pose proof (next_element_items _ _ _ H). naive_solver lia.
  - destruct b; [tauto|]. destruct_and?. split_and!; solve [done | lia].
  - flush_cases; congruence.
  - flush_cases; [|congruence..]. cbn -[Nat.mul]. destruct_and?. split_and!; solve [done | lia].
  - flush_cases; congruence.
Qed.

Lemma flush_stage_progress n ts p s :
  order_strict params → flush_stage n p s → p ≠ finished false →
  ∃ p' s', thread_step ts p s p' s' ∧ p' ≠ completing true ∧ (∀ k, p' ≠ clearing_flag k true).
Proof.
  intros Ho [Hs Hst] Hne. destruct p; try tauto; try (destruct k; try tauto).
  - do 2 eexists. split; [by apply loop_continues|done].
  - do 2 eexists. split; [apply loop_chooses|done].
  - destruct any; [|tauto]. destruct (decide (items (m_queue s) = [])) as [E|E].
    + do 2 eexists. split; [by apply loop_breaks_empty|done].
    + destruct (next_element_exists params _ Ho E) as (e & rest & Hn).
      do 2 eexists. split; [apply loop_takes; [exact Hn|by left]|done].
  - do 2 eexists. split; [apply feed_returns|done].
  - do 2 eexists. split; [apply flush_is_requested; tauto|done].
  - do 2 eexists. split; [apply backend_flushed|done].
  - destruct threw; [tauto|]. do 2 eexists. split; [apply flag_cleared|done].
  - destruct threw; [tauto|]. do 2 eexists. split; [apply operation_completed|done].
  - destruct Hst as [Hi _]. do 2 eexists. split; [apply flush_feeding|done].
    destruct (flush_enter_cases s) as [[-> _]|[? _]]; done.
  - destruct threw; [tauto|done].
Qed.

(** A flush running alone stays in its stages, for at most as many steps as
    there is work. *)
Lemma solo_flush_stage i n m x y o p :
  nsteps (solo i) m x y → sink_ok x o → threads x !! i = Some p → flush_stage n p (shared x) →
  ∃ p' o', sink_ok y o' ∧ threads y !! i = Some p' ∧ flush_stage n p' (shared y) ∧
    accepted (m_queue (shared y)) = accepted (m_queue (shared x)) ∧
    4 * length (items (m_queue (shared y))) + flush_rank p' + m ≤
    4 * length (items (m_queue (shared x))) + flush_rank p.
Proof.
  intros Hr. revert p o. induction Hr as [x|m x y z Hxy _ IH]; intros p o Hok Hi Hst.
  - exists p, o. split_and!; [done..|lia].
  - destruct Hxy as [ts p1 s p' s' Hp Hstep Hc Hf]. cbn in *. simplify_eq.
    destruct (flush_stage_step _ _ _ _ _ _ Hstep Hc Hf Hst) as (Hst' & Ha & Hm).
    destruct (thread_step_ok _ _ _ _ _ _ _ Hp Hstep Hok) as (o' & Hok').
    destruct (IH p' o') as (p2 & o2 & Hok2 & Hp2 & Hst2 & Ha2 & Hm2); [done| |done|].
    + apply list_lookup_insert_eq. by eapply lookup_lt_Some.
    + exists p2, o2. split_and!; [done..| |lia]. by rewrite Ha2.
Qed.
End sink.

(** * Theorems *)

(** C7: in every execution of any number of threads, at most one of them is in
    a feeding operation, and one is exactly when [m_ActiveOperation] is not
    [idle]: the backend is never fed or flushed by two threads at once. *)
Theorem feeding_exclusive {A} (params : queue_params (A := A)) (x : system) :
  sink_reachable params x →
  (∀ i j p q, threads x !! i = Some p → threads x !! j = Some q →
     is_feeding p = true → is_feeding q = true → i = j) ∧
  (m_ActiveOperation (shared x) ≠ idle ↔ ∃ i p, threads x !! i = Some p ∧ is_feeding p = true).
Proof.
  intros Hr. destruct (sink_reachable_ok params x Hr) as (o & [H1 H2 H3 _]). split.
  - intros i j p q Hi Hj Hp Hq. rewrite (H1 _ _ Hi) in Hp. rewrite (H1 _ _ Hj) in Hq.
    apply bool_decide_eq_true in Hp, Hq. congruence.
  - destruct o as [k|]; split.
    + intros _. destruct H3 as (p & Hp & _). exists k, p. split; [done|]. rewrite (H1 _ _ Hp).
      by apply bool_decide_eq_true.
    + intros _ Hid. by apply H2 in Hid.
    + intros Ha. by destruct Ha; apply H2.
    + intros (i & p & Hi & Hp). rewrite (H1 _ _ Hi) in Hp. by apply bool_decide_eq_true in Hp.
Qed.

(** C8: no record is lost or duplicated between the producers and the backend:
    the accepted records are those fed to the backend, the one that a thread is
    about to feed, and the queued ones; with a FIFO queue, in this order. *)
Theorem fed_in_order {A} (params : queue_params (A := A)) (x : system) :
  sink_reachable params x →
  ∃ flight, length flight ≤ 1 ∧
    (flight ≠ [] → ∃ i p, threads x !! i = Some p ∧ in_flight p = flight) ∧
    accepted (m_queue (shared x)) ≡ₚ fed (shared x) ++ flight ++ (m_record <$> items (m_queue (shared x))) ∧
    (order params = None →
     accepted (m_queue (shared x)) = fed (shared x) ++ flight ++ (m_record <$> items (m_queue (shared x)))).
Proof.
  intros Hr. destruct (sink_reachable_ok params x Hr) as (o & [H1 H2 H3 [_ Hc Hf _ _ _ _]]).
  destruct o as [i|].
  - destruct H3 as (p & Hp & Ht). exists (in_flight p). rewrite Ht, <- app_assoc in Hc, Hf.
    split_and!; [by destruct p; cbn; lia|by eauto|done|done].
  - exists []. rewrite H3 in Hc, Hf. split_and!; [cbn; lia|done|done|done].
Qed.

(** C19: a call of [flush] on a sink that feeds no records and of which no stop
    is requested, left to run by itself with a backend that does not throw, always
    returns, after a number of steps bounded by the length of the queue; then the
    queue is empty, every record that was accepted has been fed, the backend was
    flushed once, and the sink is idle again. The order of the queue, if it has
    one, is strict. A [stop] of an idle sink leaves [m_StopRequested] set, and a
    feeding operation that starts then ends at once, without draining the queue. *)
Theorem flush_drains {A} (params : queue_params (A := A)) (x y : system) i m :
  sink_reachable params x → order_strict params →
  threads x !! i = Some flush_starting → m_ActiveOperation (shared x) = idle →
  m_StopRequested (shared x) = false → nsteps (solo params i) m x y →
  m ≤ 4 * length (items (m_queue (shared x))) + 11 ∧
  ((∃ z, solo params i y z) ∨
   (threads y !! i = Some (finished false) ∧ items (m_queue (shared y)) = [] ∧
    accepted (m_queue (shared y)) = accepted (m_queue (shared x)) ∧
    fed (shared y) ≡ₚ accepted (m_queue (shared x)) ∧ flushes (shared y) = S (flushes (shared x)) ∧
    m_FlushRequested (shared y) = false ∧ m_ActiveOperation (shared y) = idle)).
Proof.
  intros Hr Ho Hi Ha Hs Hn. destruct (sink_reachable_ok params x Hr) as (o & Hok).
  destruct (solo_flush_stage params i (flushes (shared x)) m x y o flush_starting)
    as (p & o' & Hok' & Hp & Hst & Hacc & Hm); [done..|]. cbn [flush_rank] in Hm. split; [lia|].
  destruct y as [ts s]. cbn in *.
  assert (p = finished false ∨ p ≠ finished false) as [->|Hne]
    by (destruct p; auto; destruct threw; auto).
  - right. destruct Hst as (_ & Hid & Hf & Hit & Hfl). destruct Hok' as [_ H2 H3 H4]. cbn in *.
    apply H2 in Hid as E. subst o'. destruct H4 as [_ Hc _ _ _ _ _].
    rewrite Hit in Hc. cbn in Hc. rewrite app_nil_r, H3 in Hc. rewrite <- Hacc. split_and!; done.
  - left. destruct (flush_stage_progress params _ ts p s Ho Hst Hne) as (p' & s' & Hstep & Hc & Hf).
    eexists. by apply (solo_step params i ts p s p' s').
Qed.

(** Executions with an unbounded FIFO queue of numbers. *)
Module sample_sink.
Definition fifo : queue_params (A := nat) := QueueParams None block_on_overflow None 0.

Abbreviation runs := (rtc (sink_step fifo)).

Lemma run_thread i ts p s p' s' z :
  ts !! i = Some p → thread_step fifo ts p s p' s' → runs (System (<[i:=p']> ts) s') z → runs (System ts s) z.
Proof. intros Hi Hs Hz. eapply rtc_l; [|exact Hz]. apply step_advance. by eapply advance_thread. Qed.

Lemma run_call p ts s z : entry p → runs (System (ts ++ [p]) s) z → runs (System ts s) z.
Proof. intros He Hz. eapply rtc_l; [|exact Hz]. by apply step_call. Qed.

Ltac call p := apply (run_call p); [constructor|]; cbn.
Ltac go i c := eapply (run_thread i); [reflexivity | eapply c; try reflexivity; try (by left); try (by right) |]; cbn.

Ltac arrived := apply rtc_refl.

(** A record is enqueued and a flush begins. *)
Definition before_flush : system :=
  System [finished false; flush_starting]
    (Sink idle false false (push 7 empty_queue) None [] 0).

Lemma before_flush_reachable : sink_reachable fifo before_flush.
Proof.
  exists false. cbn. call (consuming 7). go 0 @consume_enters. go 0 @consume_enqueues.
  call (flush_starting (A := nat)). arrived.
Qed.

(** The threads cannot leave their places while the shared state is as [I]
    says. *)
Lemma stuck (I : sink → Prop) (T : list pc) :
  (∀ i p s p' s', T !! i = Some p → I s → thread_step fifo T p s p' s' → p' = p ∧ I s') →
  (∀ s q', I s → queue_step fifo (m_queue s) q' → I (set_queue q' s)) →
  ∀ s y, I s → rtc (advance fifo) (System T s) y → threads y = T.
Proof.
  intros Ht Hq s y HI Hr. remember (System T s) as x eqn:E.
  assert (threads x = T ∧ I (shared x)) as [H1 H2] by (by subst). clear E s HI. revert H1 H2.
  induction Hr as [x|x y z Hxy Hyz IH]; intros HT HI; [done|].
  destruct Hxy as [i ts p s p' s' Hi Hs|ts s q' Hs]; cbn in *; subst.
  - destruct (Ht _ _ _ _ _ Hi HI Hs) as [-> HI']. apply IH; [|done]. cbn. by rewrite list_insert_id.
  - apply IH; [done|]. by apply Hq.
Qed.

(** The thread of index [i] of a list of known threads. *)
Ltac case_thread H :=
  match type of H with
  | _ !! ?i = Some _ => destruct i; cbn in H; [injection H as <- | try done; case_thread H]
  end.

(** A flush is requested, and nobody feeds records. *)
Definition orphaned (s : sink (A := nat)) : Prop :=
  m_ActiveOperation s = idle ∧ m_StopRequested s = false ∧ m_FlushRequested s = true.

Lemma orphaned_stuck T s y :
  (∀ i p, T !! i = Some p → p = finished false ∨ p = flush_waiting ∨ ∃ r, p = consume_waiting r) →
  orphaned s → rtc (advance fifo) (System T s) y → threads y = T.
Proof.
  intros HT. apply (stuck orphaned); [|by intros].
  intros i p s1 p' s' Hi (H1 & H2 & H3) Hs.
  destruct (HT _ _ Hi) as [->|[->|[r ->]]]; inversion Hs; subst; try congruence.
  all: unfold flush_check_wait in *; rewrite H2, H3 in *; done.
Qed.

(** Nothing is left for the dedicated thread, and no stop is requested. *)
Definition resting (s : sink (A := nat)) : Prop :=
  m_StopRequested s = false ∧ items (m_queue s) = [] ∧ interruption_requested (m_queue s) = false ∧
  woken (m_queue s) = [].

Lemma resting_stuck s y :
  resting s →
  rtc (advance fifo) (System [run_dequeue; finished false; joining 0] s) y →
  threads y = [run_dequeue; finished false; joining 0].
Proof.
  apply (stuck resting).
  - intros i p s1 p' s' Hi (H1 & H2 & H3 & H4) Hs. case_thread Hi; inversion Hs; subst; try congruence.
    all: done.
  - intros s1 q' (H1 & H2 & H3 & H4) Hq. destruct Hq; rewrite H4 in *; try (by destruct l1). done.
Qed.

(** A call of [flush] may return while a record that was enqueued before
    the call has not been fed: the feeding thread has just found the queue
    empty; it sees the request, flushes the backend and resets the flag without
    looking at the queue again. *)
Lemma flush_misses_record :
  ∃ x y, sink_reachable fifo x ∧ threads x = [flush_check by_run; finished false] ∧
    accepted (m_queue (shared x)) = [7] ∧
    runs (System (threads x ++ [flush_starting]) (shared x)) y ∧
    threads y !! 2 = Some (finished false) ∧ m_StopRequested (shared y) = false ∧ fed (shared y) = [].
Proof.
  eexists (System _ _), _. split_and!.
  - exists true. cbn. go 0 @start_feeding. go 0 @loop_continues. go 0 @loop_chooses. go 0 @loop_breaks.
    call (consuming 7). go 1 @consume_enters. go 1 @consume_enqueues. arrived.
  - reflexivity.
  - reflexivity.
  - cbn. go 2 @flush_started. go 0 @flush_is_requested. go 0 @backend_flushed. go 0 @flag_cleared.
    go 2 @flush_woken_done. arrived.
  - reflexivity.
  - reflexivity.
  - reflexivity.
Qed.

(** A flush that is requested after the last check of the feeding thread
    blocks the producers: when [feed_records] completes, the flush waits for a
    flag nobody is going to reset; when the feeding thread is stopped, the
    flush returns and leaves the flag set. In both cases no progress of the
    calls that have been made lets [consume] return. *)
Lemma late_flush_blocks_producers :
  (∃ x, sink_reachable fifo x ∧ threads x = [finished false; flush_waiting; consume_waiting 7] ∧
     ∀ y, rtc (advance fifo) x y → threads y = threads x) ∧
  (∃ x, sink_reachable fifo x ∧
     threads x = [finished false; finished false; finished false; consume_waiting 7] ∧
     ∀ y, rtc (advance fifo) x y → threads y = threads x).
Proof.
  split; eexists (System _ _); split_and!.
  - exists false. cbn. call (starting (A := nat) by_feed_records). go 0 @start_feeding. go 0 @loop_continues.
    go 0 @loop_chooses. go 0 @loop_breaks. go 0 @flush_not_requested. call (flush_starting (A := nat)).
    go 1 @flush_started. go 0 @operation_completed. call (consuming 7). go 2 @consume_waits. arrived.
  - reflexivity.
  - intros y. apply orphaned_stuck; [|done]. intros i p Hi. case_thread Hi; eauto.
  - exists true. cbn. go 0 @start_feeding. call (stopping (A := nat)). go 1 @stop_joins. go 0 @loop_stops.
    go 0 @flush_not_requested. go 0 @run_stops. call (flush_starting (A := nat)). go 2 @flush_not_needed.
    go 0 @operation_completed. go 1 @joined. call (consuming 7). go 3 @consume_waits. arrived.
  - reflexivity.
  - intros y. apply orphaned_stuck; [|done]. intros i p Hi. case_thread Hi; eauto.
Qed.

(** A request to stop the dedicated thread is lost when a flush completes
    before the thread has started feeding: the completion resets the request,
    and [stop] waits for the thread forever. *)
Lemma stop_request_lost :
  ∃ x, sink_reachable fifo x ∧ threads x = [run_dequeue; finished false; joining 0] ∧
    ∀ y, rtc (advance fifo) x y → threads y = threads x.
Proof.
  eexists (System _ _). split_and!.
  - exists true. cbn. call (flush_starting (A := nat)). go 1 @flush_feeding. call (stopping (A := nat)).
    go 2 @stop_joins. go 1 @loop_stops. go 1 @flush_is_requested. go 1 @backend_flushed. go 1 @flag_cleared.
    go 1 @operation_completed. go 0 @start_feeding. go 0 @loop_continues. go 0 @loop_chooses. go 0 @loop_breaks.
    go 0 @flush_not_requested. go 0 @run_continues. go 0 @run_interrupted. go 0 @loop_continues.
    go 0 @loop_chooses. go 0 @loop_breaks. go 0 @flush_not_requested. go 0 @run_continues. arrived.
  - reflexivity.
  - intros y. by apply resting_stuck.
Qed.

(** Three races of the frontend. A flush that is requested after the last
    record was dequeued returns although a record that was accepted before has
    not been fed. A flush that is requested after the last check of the feeding
    thread blocks all producers, whether the feeding thread completes or is
    stopped. A request to stop the dedicated thread is lost when a flush completes
    before the thread starts feeding, and [stop] waits forever. *)
Theorem frontend_races :
  (∃ x y, sink_reachable fifo x ∧ threads x = [flush_check by_run; finished false] ∧
    accepted (m_queue (shared x)) = [7] ∧
    runs (System (threads x ++ [flush_starting]) (shared x)) y ∧
    threads y !! 2 = Some (finished false) ∧ m_StopRequested (shared y) = false ∧ fed (shared y) = []) ∧
  (∃ x, sink_reachable fifo x ∧ threads x = [finished false; flush_waiting; consume_waiting 7] ∧
     ∀ y, rtc (advance fifo) x y → threads y = threads x) ∧
  (∃ x, sink_reachable fifo x ∧
     threads x = [finished false; finished false; finished false; consume_waiting 7] ∧
     ∀ y, rtc (advance fifo) x y → threads y = threads x) ∧
  (∃ x, sink_reachable fifo x ∧ threads x = [run_dequeue; finished false; joining 0] ∧
    ∀ y, rtc (advance fifo) x y → threads y = threads x).
Proof.
  split; [exact flush_misses_record|]. destruct late_flush_blocks_producers as [H1 H2].
  split; [exact H1|split; [exact H2|exact stop_request_lost]].
Qed.

Lemma feeding_exclusive_witness :
  m_ActiveOperation (shared before_flush) ≠ idle ↔
  ∃ i p, threads before_flush !! i = Some p ∧ is_feeding p = true.
Proof. apply (feeding_exclusive fifo before_flush before_flush_reachable). Defined.

Lemma fed_in_order_witness : ∃ flight : list nat, [7] = [] ++ flight ++ [7] ∧ length flight ≤ 1.
Proof.
  destruct (fed_in_order fifo before_flush before_flush_reachable) as (flight & Hl & _ & _ & H).
  exists flight. split; [by apply H|exact Hl].
Defined.

Lemma flush_drains_witness : ∃ z, solo fifo 1 before_flush z.
Proof.
  destruct (flush_drains fifo before_flush before_flush 1 0) as [_ [H|H]].
  - apply before_flush_reachable.
  - exact I.
  - reflexivity.
  - reflexivity.
  - reflexivity.
  - constructor.
  - exact H.
  - by destruct H as [H _].
Defined.
End sample_sink.
