(* ===== verification/Format.v ===== *)
(** Positional formatting (src/src/format_parser.cpp and
    src/include/boost/log/detail/format.hpp): the parser of format strings such
    as "%1%: %2%", the composition of the result and the pump that feeds the
    arguments. *)

From Stdlib Require Import ZArith Ascii String.
From stdpp Require Import base numbers list.
From S2P Require Import Prelude Decimal.

(** * Data *)

(** [format_element]; [arg_number] is -1 for a literal. *)
Record format_element := Element {
  arg_number : Z;
  literal_start_pos : Z;
  literal_len : Z }.

Definition literal (start_pos len : Z) : format_element := Element (-1) start_pos len.
Definition positional_argument (arg_n : Z) : format_element := Element arg_n 0 0.

Record format_description := Description {
  literal_chars : str;
  format_elements : list format_element }.

Definition percent : ascii := "%".
Definition is_percent (c : ascii) : bool := bool_decide (c = percent).

Section parser.
Context {EU : ExtractUint}.

(** * Parser *)

(** Appends the pending literal, if there is one. Positions have the type
    [unsigned int]. *)
Definition append_literal (start : Z) (d : format_description) : Z * format_description :=
  let sz := u32 (Z.of_nat (length (literal_chars d))) in
  if (start <? sz)%Z then
    (sz, Description (literal_chars d) (format_elements d ++ [literal start (u32 (sz - start))]))
  else (start, d).

Definition append_chars (s : str) (d : format_description) : format_description :=
  Description (literal_chars d ++ s) (format_elements d).

Definition append_element (e : format_element) (d : format_description) : format_description :=
  Description (literal_chars d) (format_elements d ++ [e]).

(** The loop of [parse_format]; [s] is the range from [begin] to [end], [pos]
    is [begin - original_begin] and [start] is [literal_start_pos]. *)
Fixpoint parse_loop (fuel : nat) (pos : nat) (s : str) (start : Z) (d : format_description)
    : outcome format_description :=
  match s, fuel with
  | [], _ => Ok (append_literal start d).2
  | _, O => Stuck
  | _, S fuel =>
      let n := find_pos is_percent s in
      let d := append_chars (take n s) d in
      match drop n s with
      | _ :: c :: t =>
          if is_percent c then parse_loop fuel (pos + n + 2) t start (append_chars [percent] d)
          else
            let '(start, d) := append_literal start d in
            if is_digit c && bool_decide (c ≠ "0"%char) then
              match extract_uint (c :: t) with
              | Some (k, c' :: rest) =>
                  if (k =? 0)%Z || negb (is_percent c') then Throw (ex_parse_error (pos + n))
                  else if (1000 <? k)%Z then Throw (ex_limitation_error (pos + n))
                  else parse_loop fuel (pos + (length s - length rest)) rest start
                         (append_element (positional_argument (k - 1)) d)
              | _ => Throw (ex_parse_error (pos + n))
              end
            else Throw (ex_parse_error (pos + n))
      | [_] => parse_loop fuel (pos + length s) [] start (append_chars [percent] d)
      | [] => parse_loop fuel (pos + length s) [] start d
      end
  end.

Definition parse_format (fmt : str) : outcome format_description :=
  parse_loop (length fmt) 0 fmt 0 (Description [] []).

(** * Formatter *)

Record formatting_params := FormattingParams {
  element_idx : Z;
  target : str }.

Record basic_format := BasicFormat {
  m_format : format_description;
  m_formatting_params : list formatting_params;
  m_current_idx : nat }.

Definition default_params : formatting_params := FormattingParams u32_max [].

Definition set_element_idx i (p : formatting_params) : formatting_params := FormattingParams i (target p).
Definition set_target t (p : formatting_params) : formatting_params := FormattingParams (element_idx p) t.

(** [init_params]; [idx] is the index of the first element of [els]. *)
Fixpoint init_params (idx : nat) (els : list format_element) (ps : list formatting_params)
    : list formatting_params :=
  match els with
  | [] => ps
  | e :: els =>
      init_params (S idx) els
        (if (0 <=? arg_number e)%Z then
           let n := Z.to_nat (arg_number e) in
           let ps := if length ps <=? n then resize (S n) default_params ps else ps in
           alter (set_element_idx (u32 (Z.of_nat idx))) n ps
         else ps)
  end.

Definition make_format (fmt : str) : outcome basic_format :=
  let* d := parse_format fmt in
  Ok (BasicFormat d (init_params 0 (format_elements d) []) 0).

Definition clear (f : basic_format) : basic_format :=
  BasicFormat (m_format f) (set_target [] <$> m_formatting_params f) 0.

(** The text of an element; an index or a position out of range is undefined
    behaviour. *)
Definition element_text (f : basic_format) (e : format_element) : outcome str :=
  if (0 <=? arg_number e)%Z then
    of_ptr (target <$> m_formatting_params f !! Z.to_nat (arg_number e))
  else if (Z.of_nat (length (literal_chars (m_format f))) <? literal_start_pos e + literal_len e)%Z then Stuck
  else Ok (take (Z.to_nat (literal_len e)) (drop (Z.to_nat (literal_start_pos e)) (literal_chars (m_format f)))).

Fixpoint compose_elements (f : basic_format) (els : list format_element) (out : str) : outcome str :=
  match els with
  | [] => Ok out
  | e :: els => let* t := element_text f e in compose_elements f els (out ++ t)
  end.

Definition compose (f : basic_format) (out : str) : outcome str :=
  compose_elements f (format_elements (m_format f)) out.

(** [pump::operator%]. Printing a value writes some text and may throw then. *)
Definition put (v : str * option exn) : sm basic_format unit :=
  f ← sm_get;
  if m_current_idx f <? length (m_formatting_params f) then
    sm_put (BasicFormat (m_format f)
      (alter (λ p, set_target (target p ++ v.1) p) (m_current_idx f) (m_formatting_params f)) (m_current_idx f));;
    match v.2 with
    | Some e => sm_throw e
    | None => sm_modify (λ f, BasicFormat (m_format f) (m_formatting_params f) (S (m_current_idx f)))
    end
  else mret ().

(** The life of a pump: the values are put, the destructor composes the result
    unless an exception is in flight and clears the formatter in any case. *)
Definition pump (vs : list (str * option exn)) (out : str) : sm basic_format str := λ f,
  match mapM put vs f with
  | (Ok _, f') => (compose f' out, clear f')
  | (Throw e, f') => (Throw e, clear f')
  | (Stuck, f') => (Stuck, f')
  end.

(** * The meaning of format strings *)

Inductive piece : Type := text (c : ascii) | argument (n : nat).

(** "%%" and a "%" at the end stand for a percent character, "%N%" with
    1 <= N <= 1000 and without leading zeros for argument N. *)
Inductive denotes : str → list piece → Prop :=
| denotes_nil : denotes [] []
| denotes_char c s l : c ≠ percent → denotes s l → denotes (c :: s) (text c :: l)
| denotes_escape s l : denotes s l → denotes (percent :: percent :: s) (text percent :: l)
| denotes_last : denotes [percent] [text percent]
| denotes_argument c ds s l :
    c ≠ "0"%char → all_digits (c :: ds) → (1 ≤ undec (c :: ds) ≤ 1000)%Z → denotes s l →
    denotes (percent :: c :: ds ++ percent :: s) (argument (Z.to_nat (undec (c :: ds) - 1)) :: l).

Definition piece_value (args : nat → str) (p : piece) : str :=
  match p with text c => [c] | argument n => args n end.

Definition meaning (args : nat → str) (l : list piece) : str := concat (piece_value args <$> l).

(** The text of an element, for arguments given by their positions. *)
Definition element_value (chars : str) (args : nat → str) (e : format_element) : str :=
  if (0 <=? arg_number e)%Z then args (Z.to_nat (arg_number e))
  else take (Z.to_nat (literal_len e)) (drop (Z.to_nat (literal_start_pos e)) chars).

Definition description_value (args : nat → str) (d : format_description) : str :=
  concat (element_value (literal_chars d) args <$> format_elements d).

(** ** Correctness of the parser *)

(** The literals refer to characters before [start], which is where the pending
    literal begins; argument numbers are within the limit. *)
Record parsing_ok (start : Z) (d : format_description) : Prop := ParsingOk {
  ok_start : (0 ≤ start ≤ Z.of_nat (length (literal_chars d)))%Z;
  ok_elements : Forall (λ e, (0 ≤ arg_number e < 1000) ∨ (arg_number e = -1 ∧ 0 ≤ literal_start_pos e ∧
    0 ≤ literal_len e ∧ literal_start_pos e + literal_len e ≤ start))%Z (format_elements d) }.

(** Every element of a description is a valid argument or a literal within the
    literal characters. *)
Definition description_ok (d : format_description) : Prop :=
  parsing_ok (Z.of_nat (length (literal_chars d))) d.

(** What has been parsed so far, the pending literal included. *)
Definition parsed_value (args : nat → str) (start : Z) (d : format_description) : str :=
  description_value args d ++ drop (Z.to_nat start) (literal_chars d).

Lemma take_drop_app_le {X} (l1 l2 : list X) n k : n + k ≤ length l1 → take k (drop n (l1 ++ l2)) = take k (drop n l1).
Proof.
  intros H. rewrite drop_app_le by lia. apply take_app_le. rewrite length_drop. lia.
Qed.

Lemma elements_stable args start d s :
  parsing_ok start d →
  concat (element_value (literal_chars d ++ s) args <$> format_elements d) = description_value args d.
Proof.
  intros [H1 H2]. unfold description_value. f_equal. apply list_fmap_ext. intros i e He.
  rewrite Forall_lookup in H2. apply H2 in He. unfold element_value.
  destruct (0 <=? arg_number e)%Z eqn:Ea; [done|]. to_prop. rewrite take_drop_app_le; [done|]. lia.
Qed.

Lemma meaning_app args l1 l2 : meaning args (l1 ++ l2) = meaning args l1 ++ meaning args l2.
Proof. unfold meaning. by rewrite fmap_app, concat_app. Qed.

Lemma meaning_text args s : meaning args (text <$> s) = s.
Proof. induction s as [|c s IH]; [done|]. unfold meaning in *. cbn. by rewrite IH. Qed.

(** [d'] with the pending literal from [start'] continues [d] by the pieces
    [l] and has [n] more literal characters. *)
Record continues (start : Z) (d : format_description) (start' : Z) (d' : format_description)
    (l : list piece) (n : nat) : Prop := Continues {
  con_ok : parsing_ok start' d';
  con_value : ∀ args, parsed_value args start' d' = parsed_value args start d ++ meaning args l;
  con_length : length (literal_chars d') = length (literal_chars d) + n }.

Lemma continues_trans s1 d1 s2 d2 s3 d3 l1 l2 n1 n2 :
  continues s1 d1 s2 d2 l1 n1 → continues s2 d2 s3 d3 l2 n2 → continues s1 d1 s3 d3 (l1 ++ l2) (n1 + n2).
Proof.
  intros [H1 H2 H3] [K1 K2 K3]. split; [done| |lia]. intros args. by rewrite K2, H2, meaning_app, app_assoc.
Qed.

Lemma append_chars_continues start d s :
  parsing_ok start d → continues start d start (append_chars s d) (text <$> s) (length s).
Proof.
  intros Hok. pose proof Hok as [H1 H2]. split; [| |by cbn; rewrite length_app].
  - split; cbn; [rewrite length_app; lia|done].
  - intros args. unfold parsed_value. unfold description_value at 1. cbn.
    rewrite elements_stable with (start := start) by done. rewrite meaning_text, drop_app_le by lia.
    by rewrite app_assoc.
Qed.

(** After the pending literal is appended none is pending. *)
Lemma append_literal_continues start d :
  parsing_ok start d → (Z.of_nat (length (literal_chars d)) < 2 ^ 32)%Z →
  let '(start', d') := append_literal start d in
  start' = Z.of_nat (length (literal_chars d')) ∧ continues start d start' d' [] 0.
Proof.
  intros [H1 H2] Hlen. unfold append_literal. rewrite u32_id by lia.
  destruct (start <? Z.of_nat (length (literal_chars d)))%Z eqn:Es; to_prop.
  - rewrite u32_id by lia. split; [done|]. split; cbn; [| |lia].
    + split; cbn; [lia|]. apply Forall_app. split.
      * eapply Forall_impl; [exact H2|]. cbn. intros e [?|?]; [by left|right; lia].
      * constructor; [right; cbn; lia|constructor].
    + intros args. unfold description_value, parsed_value. cbn.
      rewrite Nat2Z.id, drop_all, !app_nil_r, fmap_app, concat_app. f_equal. cbn.
      rewrite app_nil_r. unfold element_value. cbn. apply take_ge. rewrite length_drop. lia.
  - assert (start = Z.of_nat (length (literal_chars d))) as -> by lia.
    split; [done|]. split; [by split| |lia]. intros args. cbn. by rewrite app_nil_r.
Qed.

Lemma append_argument_continues k d :
  parsing_ok (Z.of_nat (length (literal_chars d))) d → (0 ≤ k < 1000)%Z →
  continues (Z.of_nat (length (literal_chars d))) d (Z.of_nat (length (literal_chars d)))
    (append_element (positional_argument k) d) [argument (Z.to_nat k)] 0.
Proof.
  intros [H1 H2] Hk. split; [| |cbn; lia].
  - split; cbn; [lia|]. apply Forall_app. split; [done|]. constructor; [left; cbn; lia|constructor].
  - intros args. unfold parsed_value, description_value, meaning. cbn.
    rewrite Nat2Z.id, drop_all, !app_nil_r, fmap_app, concat_app. f_equal.
    cbn. rewrite app_nil_r. unfold element_value. cbn. by destruct (0 <=? k)%Z eqn:E; [|to_prop; lia].
Qed.

Lemma is_percent_false c : is_percent c = false ↔ c ≠ percent.
Proof. apply bool_decide_eq_false. Qed.

Lemma denotes_app s1 s l :
  Forall (λ c, is_percent c = false) s1 → denotes s l → denotes (s1 ++ s) ((text <$> s1) ++ l).
Proof. induction 1 as [|c s1 Hc _ IH]; [done|]. intros Hl. cbn. apply denotes_char; [by apply is_percent_false|auto]. Qed.

Lemma denotes_app_inv s1 s l :
  Forall (λ c, is_percent c = false) s1 → denotes (s1 ++ s) l → ∃ l', denotes s l'.
Proof.
  intros H. revert l. induction H as [|c s1 Hc _ IH]; [by eauto|]. intros l Hl. apply is_percent_false in Hc.
  inversion Hl; subst; try done. by eapply IH.
Qed.

(** The run of characters before the next percent character. *)
Lemma split_percent s :
  Forall (λ c, is_percent c = false) (take (find_pos is_percent s) s) ∧
  (∀ c t, drop (find_pos is_percent s) s = c :: t → c = percent) ∧
  s = take (find_pos is_percent s) s ++ drop (find_pos is_percent s) s.
Proof.
  split_and!; [apply find_pos_take| |by rewrite take_drop].
  intros c t H. apply find_pos_drop in H. by apply bool_decide_eq_true in H.
Qed.

(** The number of an accepted placeholder. *)
Lemma extract_placeholder c t k c' rest :
  extract_uint (c :: t) = Some (k, c' :: rest) → is_digit c = true →
  ∃ ds, t = ds ++ c' :: rest ∧ all_digits (c :: ds) ∧ undec (c :: ds) = k.
Proof.
  intros H Hc. destruct (split_digits t) as (ds & r & -> & Hd & Hr).
  assert (all_digits (c :: ds)) as Had by (by constructor).
  rewrite (extract_uint_digits (c :: ds) r) in H by done. destruct (_ <? _)%Z; [|done]. simplify_eq.
  by exists ds.
Qed.

(** The parser returned a description that continues [d] by what the rest of
    the format string denotes. *)
Definition parsed_as (start : Z) (d : format_description) (s : str) (d' : format_description) : Prop :=
  description_ok d' ∧
  ∃ l, denotes s l ∧ ∀ args, description_value args d' = parsed_value args start d ++ meaning args l.

Lemma parsed_as_step start d start1 d1 s s1 d' l1 n :
  continues start d start1 d1 l1 n → (∀ l, denotes s1 l → denotes s (l1 ++ l)) →
  parsed_as start1 d1 s1 d' → parsed_as start d s d'.
Proof.
  intros [_ Hv _] Hs (Hf & l & Hl & Hd). split; [done|]. exists (l1 ++ l). split; [by apply Hs|].
  intros args. by rewrite Hd, Hv, meaning_app, app_assoc.
Qed.

Lemma parsed_as_end start d :
  parsing_ok start d → (Z.of_nat (length (literal_chars d)) < 2 ^ 32)%Z →
  parsed_as start d [] (append_literal start d).2.
Proof.
  intros Hok Hlen. pose proof (append_literal_continues start d Hok Hlen) as Hlit.
  destruct (append_literal start d) as [start' d']. destruct Hlit as [-> [Hok' Hv _]]. split; cbn; [done|].
  exists []. split; [constructor|]. intros args. rewrite <- Hv. unfold parsed_value.
    by rewrite Nat2Z.id, drop_all, app_nil_r.
Qed.

(** The number of an accepted placeholder is that of a positional argument. *)
Lemma placeholder_denotes c t k rest :
  extract_uint (c :: t) = Some (k, percent :: rest) → is_digit c = true → c ≠ "0"%char →
  (k ≠ 0)%Z → (k ≤ 1000)%Z →
  (0 ≤ k - 1 < 1000)%Z ∧ length rest < length t ∧
  ∀ l, denotes rest l → denotes (percent :: c :: t) (argument (Z.to_nat (k - 1)) :: l).
Proof.
  intros Eu Hc H0 Hk1 Hk2. destruct (extract_placeholder _ _ _ _ _ Eu Hc) as (ds & -> & Had & <-).
  pose proof (undec_nonneg _ Had). split_and!; [lia|lia|rewrite length_app; cbn; lia|].
  intros l Hl. apply denotes_argument; [done|done|lia|done].
Qed.

(** What the parser returns denotes the same as the format string. *)
Lemma parse_loop_sound fuel pos s start d d' :
  parse_loop fuel pos s start d = Ok d' → parsing_ok start d →
  (Z.of_nat (length (literal_chars d) + length s) < 2 ^ 32)%Z → parsed_as start d s d'.
Proof.
  revert pos s start d. induction fuel as [|fuel IH]; intros pos s start d Hp Hok Hlen.
  all: destruct s as [|c0 s0]; [cbn in Hp; simplify_eq; apply parsed_as_end; [done|cbn in Hlen; lia]|]; try done.
  remember (c0 :: s0) as s eqn:Es. destruct (split_percent s) as (Ht & Hd & Hs).
  cbn [parse_loop] in Hp. rewrite Es in Hp. rewrite <- Es in Hp. clear c0 s0 Es.
  remember (find_pos is_percent s) as n eqn:En. clear En.
  pose proof (append_chars_continues start d (take n s) Hok) as Hch. pose proof Hch as [Hok1 _ Hl1].
  assert (length s = length (take n s) + length (drop n s)) as Hls by (rewrite <- length_app; by f_equal).
  apply (parsed_as_step _ _ _ _ s (drop n s) d' _ _ Hch). { intros l Hl. rewrite Hs at 1. by apply denotes_app. }
  revert Hp Hok1 Hl1. generalize (append_chars (take n s) d). intros d1 Hp Hok1 Hl1.
  destruct (drop n s) as [|c [|c1 t]] eqn:Edrop; cbn [length] in Hls.
  - by apply IH in Hp; [|done|cbn [length]; lia].
  - assert (c = percent) as -> by (by eapply Hd).
    pose proof (append_chars_continues start d1 [percent] Hok1) as Hch1. pose proof Hch1 as [Hok2 _ Hl2].
    apply IH in Hp; [|done|cbn [length] in *; lia].
    eapply parsed_as_step; [exact Hch1| |exact Hp]. intros l Hl. inversion Hl; subst. apply denotes_last.
  - assert (c = percent) as -> by (by eapply Hd). destruct (is_percent c1) eqn:Ec1.
    { apply bool_decide_eq_true in Ec1 as ->.
      pose proof (append_chars_continues start d1 [percent] Hok1) as Hch1. pose proof Hch1 as [Hok2 _ Hl2].
      apply IH in Hp; [|done|cbn [length] in *; lia].
      eapply parsed_as_step; [exact Hch1|exact (denotes_escape t)|exact Hp]. }
    pose proof (append_literal_continues start d1 Hok1 ltac:(lia)) as Hlit.
    destruct (append_literal start d1) as [start' d2]. destruct Hlit as [-> Hlit]. pose proof Hlit as [Hok2 _ Hl2].
    destruct (is_digit c1 && bool_decide (c1 ≠ "0"%char)) eqn:Eg; [|done].
    apply andb_true_iff in Eg as [Ed ?%bool_decide_eq_true].
    destruct (extract_uint (c1 :: t)) as [[k [|c' rest]]|] eqn:Eu; [done| |done].
    destruct ((k =? 0)%Z || negb (is_percent c')) eqn:Ek; [done|].
    destruct (1000 <? k)%Z eqn:Ek'; [done|]. to_prop.
    match goal with H : is_percent _ = true |- _ => apply bool_decide_eq_true in H as -> end.
    destruct (placeholder_denotes c1 t k rest) as (Hz & Hlt & Hden); [done..|].
    pose proof (append_argument_continues (k - 1) d2 Hok2 Hz) as Harg. pose proof Harg as [Hok3 _ Hl3].
    apply IH in Hp; [|done|lia].
    eapply parsed_as_step; [exact (continues_trans _ _ _ _ _ _ _ _ _ _ Hlit Harg)|exact Hden|exact Hp].
Qed.

(** The parser accepts every format string that has a meaning, within its step
    bound. *)
Lemma parse_loop_complete fuel pos s start d l :
  denotes s l → length s ≤ fuel → is_ok (parse_loop fuel pos s start d) = true.
Proof.
  revert pos s start d l. induction fuel as [|fuel IH]; intros pos s start d l Hl Hf;
    (destruct s as [|c0 s0]; [done|]); [cbn in Hf; lia|].
  remember (c0 :: s0) as s eqn:Es. destruct (split_percent s) as (Ht & Hd & Hs).
  assert (1 ≤ length s) as Hpos by (subst; cbn; lia).
  cbn [parse_loop]. rewrite Es. rewrite <- Es. clear c0 s0 Es.
  remember (find_pos is_percent s) as n eqn:En. clear En.
  assert (length s = length (take n s) + length (drop n s)) as Hls by (rewrite <- length_app; by f_equal).
  rewrite Hs in Hl. apply denotes_app_inv in Hl as [l' Hl]; [|done].
  destruct (drop n s) as [|c [|c1 t]] eqn:Edrop; cbn [length] in Hls.
  - apply (IH _ _ _ _ []); [constructor|cbn; lia].
  - apply (IH _ _ _ _ []); [constructor|cbn; lia].
  - assert (c = percent) as -> by (by eapply Hd). inversion Hl as [|? ? ? Hne|? l2 Hl2| |c' ds s' l2 H0 Had Hr Hl2]; subst; [done| |].
    + cbn. eapply IH; [exact Hl2|lia].
    + assert (is_percent c1 = false) as ->.
      { apply is_percent_false. intros ->. by apply Forall_cons in Had as [? _]. }
      destruct (append_literal start (append_chars (take n s) d)) as [start' d2].
      apply Forall_cons in Had as Had'. destruct Had' as [Hc1 _].
      rewrite Hc1. rewrite bool_decide_eq_true_2 by done. cbn [andb].
      change (c1 :: ds ++ percent :: s') with ((c1 :: ds) ++ percent :: s').
      rewrite extract_uint_digits by done.
      destruct (undec (c1 :: ds) <? 2 ^ 32)%Z eqn:E1; to_prop; [|lia].
      destruct (undec (c1 :: ds) =? 0)%Z eqn:E2; to_prop; [lia|]. 
      change (is_percent percent) with true. cbn [orb negb].
      destruct (1000 <? undec (c1 :: ds))%Z eqn:E3; to_prop; [lia|].
      eapply IH; [exact Hl2|]. rewrite length_app in Hls. cbn [length] in Hls. lia.
Qed.

(** Within its step bound the parser returns or throws. *)
Lemma parse_loop_total fuel pos s start d : length s ≤ fuel → parse_loop fuel pos s start d ≠ Stuck.
Proof.
  revert pos s start d. induction fuel as [|fuel IH]; intros pos s start d Hf;
    (destruct s as [|c0 s0]; [done|]); [cbn in Hf; lia|].
  remember (c0 :: s0) as s eqn:Es. assert (1 ≤ length s) as Hpos by (subst; cbn; lia).
  cbn [parse_loop]. rewrite Es. rewrite <- Es. clear c0 s0 Es.
  pose proof (f_equal length (take_drop (find_pos is_percent s) s)) as Hls. rewrite length_app in Hls.
  destruct (drop _ s) as [|c [|c1 t]] eqn:Edrop; cbn [length] in Hls; [apply IH; cbn; lia..|].
  destruct (is_percent c1); [apply IH; lia|]. destruct (append_literal _ _).
  destruct (is_digit c1 && _); [|done]. destruct (extract_uint (c1 :: t)) as [[k [|c' rest]]|] eqn:Eu; [done| |done].
  apply extract_uint_some in Eu as [_ Hr]. cbn [length] in Hr. repeat case_match; try done. apply IH. lia.
Qed.

(** ** Correctness of the formatter *)

(** The parameters of a formatter that is ready for use: one for every argument,
    with no text. *)
Record format_ready (f : basic_format) : Prop := FormatReady {
  ready_description : description_ok (m_format f);
  ready_params : Forall (λ e, (arg_number e < Z.of_nat (length (m_formatting_params f)))%Z)
    (format_elements (m_format f));
  ready_empty : Forall (λ p, target p = []) (m_formatting_params f);
  ready_idx : m_current_idx f = 0 }.

Lemma init_params_spec idx els ps :
  Forall (λ p, target p = []) ps →
  Forall (λ p, target p = []) (init_params idx els ps) ∧ length ps ≤ length (init_params idx els ps) ∧
  Forall (λ e, (arg_number e < Z.of_nat (length (init_params idx els ps)))%Z) els.
Proof.
  revert idx ps. induction els as [|e els IH]; intros idx ps Hps; cbn; [by split_and!|].
  set (ps' := if (0 <=? arg_number e)%Z then _ else ps).
  assert (Forall (λ p, target p = []) ps' ∧ length ps ≤ length ps' ∧ (arg_number e < Z.of_nat (length ps'))%Z) as (H1 & H2 & H3).
  { subst ps'. destruct (0 <=? arg_number e)%Z eqn:E; to_prop; [|split_and!; [done|lia|lia]].
    rewrite length_alter. destruct (length ps <=? Z.to_nat (arg_number e)) eqn:El; to_prop; rewrite ?length_resize.
    - split_and!; [|lia|lia]. apply Forall_alter; [by apply Forall_resize|done].
    - split_and!; [|lia|lia]. by apply Forall_alter. }
  destruct (IH (S idx) ps' H1) as (K1 & K2 & K3). split_and!; [done|lia|]. constructor; [lia|done].
Qed.

Lemma clear_ready f : format_ready f → clear f = f.
Proof.
  intros [_ _ H3 H4]. destruct f as [d ps i]. unfold clear. cbn in *. subst i. f_equal.
  induction H3 as [|[i t] ps Ht _ IH]; [done|]. cbn in *. subst t. by rewrite IH.
Qed.

(** Putting a value: it is ignored, or it is added to the text of the current
    parameter. *)
Lemma put_run v f :
  put v f =
    (if m_current_idx f <? length (m_formatting_params f) then
       match v.2 with Some e => Throw e | None => Ok () end
     else Ok (),
     if m_current_idx f <? length (m_formatting_params f) then
       BasicFormat (m_format f)
         (alter (λ p, set_target (target p ++ v.1) p) (m_current_idx f) (m_formatting_params f))
         (match v.2 with Some _ => m_current_idx f | None => S (m_current_idx f) end)
     else f).
Proof. unfold put. rewrite sm_bind_run. cbn. by repeat case_match. Qed.

Lemma set_target_alter g n (ps : list formatting_params) :
  set_target [] <$> alter (λ p, set_target (g p) p) n ps = set_target [] <$> ps.
Proof.
  apply list_eq. intros i. rewrite !list_lookup_fmap. destruct (decide (i = n)) as [->|Hne].
  - rewrite list_lookup_alter_eq. by destruct (ps !! n).
  - by rewrite list_lookup_alter_ne.
Qed.

(** Whatever is put, clearing brings the formatter back. *)
Lemma puts_clear vs f r f' :
  mapM put vs f = (r, f') →
  r ≠ Stuck ∧ clear f' = clear f ∧ m_format f' = m_format f.
Proof.
  revert f r f'. induction vs as [|v vs IH]; intros f r f' H; cbn in H; unfold mret, sm_ret in H;
    [by simplify_eq|].
  rewrite sm_bind_run, put_run in H.
  assert (∀ i, clear (BasicFormat (m_format f) (alter (λ p, set_target (target p ++ v.1) p) (m_current_idx f)
      (m_formatting_params f)) i) = clear f) as Hc.
  { intros i. unfold clear. cbn [m_format m_formatting_params]. by rewrite (set_target_alter (λ p, target p ++ v.1)). }
  destruct (m_current_idx f <? length (m_formatting_params f)).
  - destruct (v.2) as [e|]; [simplify_eq; by split_and!|]. rewrite sm_bind_run in H.
    destruct (mapM put vs _) as [r1 f1] eqn:E1. apply IH in E1 as (H1 & H2 & H3). cbn in H3.
    rewrite Hc in H2. by destruct r1; injection H as <- <-.
  - rewrite sm_bind_run in H. destruct (mapM put vs f) as [r1 f1] eqn:E1. apply IH in E1 as (H1 & H2 & H3).
    by destruct r1; injection H as <- <-.
Qed.

(** The values that are put end up in the parameters from the current one
    on. *)
Lemma puts_targets vs f r f' i :
  mapM put ((λ t, (t, None)) <$> vs) f = (r, f') →
  is_ok r = true ∧
  m_formatting_params f' !! i =
    (λ p, if m_current_idx f <=? i then set_target (target p ++ default [] (vs !! (i - m_current_idx f))) p else p)
    <$> m_formatting_params f !! i.
Proof.
  revert f r f'. induction vs as [|v vs IH]; intros f r f' H; cbn in H; unfold mret, sm_ret in H.
  - simplify_eq. split; [done|]. destruct (m_formatting_params f' !! i) as [[j t]|]; [|done]. cbn.
    rewrite app_nil_r. by case_match.
  - rewrite sm_bind_run, put_run in H. cbn [fst snd] in H.
    destruct (m_current_idx f <? length (m_formatting_params f)) eqn:El; to_prop; rewrite sm_bind_run in H;
      destruct (mapM put _ _) as [r1 f1] eqn:E1 in H; apply IH in E1 as [Hok1 Hl];
      (destruct r1; [|done|done]); simplify_eq; (split; [done|]); rewrite Hl; cbn [m_formatting_params m_current_idx].
    + destruct (decide (i = m_current_idx f)) as [->|Hne].
      * rewrite list_lookup_alter_eq. destruct (m_formatting_params f !! m_current_idx f) as [[j t]|]; [|done].
        cbn [fmap option_fmap option_map]. rewrite Nat.leb_refl, Nat.sub_diag.
        by rewrite (proj2 (Nat.leb_gt (S (m_current_idx f)) (m_current_idx f)) ltac:(lia)).
      * rewrite list_lookup_alter_ne by done. destruct (m_formatting_params f !! i) as [p|]; [|done].
        cbn [fmap option_fmap option_map]. destruct (S (m_current_idx f) <=? i) eqn:E1, (m_current_idx f <=? i) eqn:E2; to_prop; try lia; [|done].
        by replace (i - m_current_idx f) with (S (i - S (m_current_idx f))) by lia.
    + destruct (m_formatting_params f !! i) as [p|] eqn:Ei; [|done]. apply lookup_lt_Some in Ei. cbn.
      by destruct (m_current_idx f <=? i) eqn:E2; to_prop; [lia|].
Qed.

Lemma compose_elements_spec f els out args :
  Forall (λ e, (0 ≤ arg_number e < Z.of_nat (length (m_formatting_params f))) ∨
    (arg_number e = -1 ∧ literal_start_pos e + literal_len e ≤ Z.of_nat (length (literal_chars (m_format f)))))%Z els →
  (∀ i p, m_formatting_params f !! i = Some p → target p = args i) →
  compose_elements f els out = Ok (out ++ concat (element_value (literal_chars (m_format f)) args <$> els)).
Proof.
  intros Hels Hargs. revert out. induction Hels as [|e els He _ IH]; intros out; cbn; [by rewrite app_nil_r|].
  assert (element_text f e = Ok (element_value (literal_chars (m_format f)) args e)) as ->;
    [|cbn; by rewrite IH, app_assoc].
  unfold element_text, element_value. destruct (0 <=? arg_number e)%Z eqn:Ea; to_prop.
  - destruct (lookup_lt_is_Some_2 (m_formatting_params f) (Z.to_nat (arg_number e))) as [p Hp]; [lia|].
    rewrite Hp. cbn. by rewrite (Hargs _ _ Hp).
  - destruct (_ <? _)%Z eqn:El; to_prop; [lia|done].
Qed.

(** A description composes to its value for the values that were put. *)
Lemma pump_composes f vs out f' r :
  format_ready f → mapM put ((λ t, (t, None)) <$> vs) f = (r, f') →
  compose f' out = Ok (out ++ description_value (λ n, default [] (vs !! n)) (m_format f)).
Proof.
  intros [Hd Hp He Hi] Hm. destruct (puts_clear _ _ _ _ Hm) as (_ & Hc & Hf).
  assert (length (m_formatting_params f') = length (m_formatting_params f)) as Hl
    by (apply (f_equal m_formatting_params) in Hc; apply (f_equal length) in Hc; cbn in Hc; by rewrite !length_fmap in Hc).
  unfold compose, description_value. rewrite <- Hf. apply compose_elements_spec.
  - rewrite Hl, Hf. destruct Hd as [_ Hd]. rewrite Forall_forall in Hd, Hp |- *. intros e Hin.
    specialize (Hd e Hin). specialize (Hp e Hin). cbn in *. lia.
  - intros i p Hip. destruct (puts_targets _ _ _ _ i Hm) as [_ Ht]. rewrite Hip in Ht.
    destruct (m_formatting_params f !! i) as [q|] eqn:Eq; [|done]. cbn in Ht. rewrite Hi, Nat.sub_0_r in Ht. simplify_eq.
    cbn. rewrite Forall_lookup in He. by rewrite (He _ _ Eq).
Qed.
End parser.

(** * Theorems *)

(** The parser of format strings accepts exactly the strings that have a
    meaning, for strings of less than 2^32 characters; the description it
    returns has the same meaning as the string, for all values of the
    arguments; all other strings are rejected by an exception, and every call
    terminates. *)
Theorem parse_format_correct {EU : ExtractUint} (fmt : str) :
  (Z.of_nat (length fmt) < 2 ^ 32)%Z →
  parse_format fmt ≠ Stuck ∧
  (is_ok (parse_format fmt) = true ↔ ∃ l, denotes fmt l) ∧
  (∀ d, parse_format fmt = Ok d → description_ok d ∧
     ∃ l, denotes fmt l ∧ ∀ args, description_value args d = meaning args l).
Proof.
  intros Hlen. assert (∀ d, parse_format fmt = Ok d → parsed_as 0 (Description [] []) fmt d) as Hsound.
  { intros d Hd. eapply parse_loop_sound; [exact Hd|split; cbn; [lia|constructor]|cbn; lia]. }
  split_and!.
  - by apply parse_loop_total.
  - split.
    + destruct (parse_format fmt) as [d| |]; [|done..]. intros _. destruct (Hsound d eq_refl) as (_ & l & Hl & _). by eauto.
    + intros [l Hl]. by eapply parse_loop_complete.
  - intros d Hd. destruct (Hsound d Hd) as (Hok & l & Hl & Hv). split; [done|]. by exists l.
Qed.

(** C20: a formatter made from a format string writes the meaning of the string
    with the given values as the arguments, missing ones being empty and
    superfluous ones ignored; it never reads out of range; and after every use,
    also one that an exception of a value ended, it is as it was before. *)
Theorem format_pump_correct {EU : ExtractUint} (fmt : str) (f : basic_format) (vs : list str)
    (bad : list (str * option exn)) (out : str) :
  (Z.of_nat (length fmt) < 2 ^ 32)%Z → make_format fmt = Ok f →
  (∃ l, denotes fmt l ∧
     pump ((λ t, (t, None)) <$> vs) out f = (Ok (out ++ meaning (λ n, default [] (vs !! n)) l), f)) ∧
  (pump bad out f).2 = f ∧ (∀ e, (mapM put bad f).1 = Throw e → (pump bad out f).1 = Throw e).
Proof.
  intros Hlen Hf. unfold make_format in Hf. destruct (parse_format fmt) as [d| |] eqn:Ed; [|done..]. cbn in Hf.
  destruct (parse_loop_sound _ _ _ _ _ _ Ed) as (Hok & l & Hl & Hv); [split; cbn; [lia|constructor]|cbn; lia|].
  assert (format_ready f) as Hready.
  { destruct (init_params_spec 0 (format_elements d) []) as (H1 & _ & H3); [done|]. by simplify_eq. }
  assert (m_format f = d) as Hfd by (by simplify_eq). clear Hf. split_and!.
  - exists l. split; [done|]. unfold pump. destruct (mapM put _ f) as [r f'] eqn:Em.
    destruct (puts_targets _ _ _ _ 0 Em) as [Hr _]. destruct r; [|done..].
    rewrite (pump_composes _ _ _ _ _ Hready Em), Hfd, Hv.
    destruct (puts_clear _ _ _ _ Em) as (_ & -> & _). by rewrite clear_ready.
  - unfold pump. destruct (mapM put bad f) as [r f'] eqn:Em. destruct (puts_clear _ _ _ _ Em) as (Hs & Hc & _).
    rewrite (clear_ready f Hready) in Hc. by destruct r.
  - intros e. unfold pump. destruct (mapM put bad f) as [r f']. cbn. by intros ->.
Qed.

(** "%2% is 100%% %1%" with the arguments "a" and "b". *)
Module sample_format.
Definition fmt : str := str_lit "%2% is 100%% %1%".
Definition a_b : list str := [str_lit "a"; str_lit "b"].

#[local] Existing Instance spirit_extract.

Lemma parse_format_correct_witness : ∃ l, denotes fmt l ∧ is_ok (parse_format fmt) = true.
Proof.
  destruct (parse_format_correct (EU := spirit_extract) fmt) as (_ & [H _] & _); [vm_compute; reflexivity|].
  destruct H as [l Hl]; [vm_compute; reflexivity|]. exists l. split; [exact Hl|vm_compute; reflexivity].
Defined.

Definition formatter : basic_format :=
  BasicFormat (Description (str_lit " is 100% ") [positional_argument 1; literal 0 9; positional_argument 0])
    [FormattingParams 2 []; FormattingParams 0 []] 0.

Lemma formatter_made : make_format fmt = Ok formatter.
Proof. vm_compute. reflexivity. Qed.

(** The text, and an exception of the second value. *)
Lemma format_pump_correct_witness :
  pump ((λ t, (t, None)) <$> a_b) [] formatter = (Ok (str_lit "b is 100% a"), formatter) ∧
  pump [(str_lit "a", None); (str_lit "b", Some ex_invalid_argument)] [] formatter =
    (Throw ex_invalid_argument, formatter).
Proof.
  destruct (format_pump_correct (EU := spirit_extract) fmt formatter a_b
    [(str_lit "a", None); (str_lit "b", Some ex_invalid_argument)] []) as (_ & H1 & H2);
    [vm_compute; reflexivity|apply formatter_made|].
  split; [vm_compute; reflexivity|].
  destruct (pump [(str_lit "a", None); (str_lit "b", Some ex_invalid_argument)] [] formatter) as [r f'].
  cbn in H1. rewrite H1. f_equal. apply H2. vm_compute. reflexivity.
Defined.
End sample_format.
