(* ===== verification/Dump.v ===== *)
(** Hexadecimal dumps of memory (src/src/dump.cpp and src/src/dump_ssse3.cpp):
    the generic routine and the two SSSE3 routines with the vector instructions
    they use.

    Bytes and characters are numbers; an XMM register is a list of sixteen
    bytes, the least significant first. *)

From Stdlib Require Import ZArith Ascii String.
From stdpp Require Import base numbers list.
From S2P Require Import Prelude Decimal.
Local Open Scope Z_scope.

Definition code (c : ascii) : Z := Z.of_N (N_of_ascii c).

Definition space : Z := 32.

(** [g_hex_char_table]. *)
Definition hex_char_table (uppercase : bool) : list Z :=
  code <$> str_lit (if uppercase then "0123456789ABCDEF" else "0123456789abcdef").

(** Indexing of an array; out of range it is undefined behaviour. *)
Definition at_index (l : list Z) (i : Z) : outcome Z :=
  if 0 <=? i then of_ptr (l !! Z.to_nat i) else Stuck.

(** * The generic routine *)

(** The body of the inner loops: a space and the two digits of [n]. *)
Definition put_byte (char_table : list Z) (n : Z) : outcome (list Z) :=
  let* hi := at_index char_table (Z.shiftr n 4) in
  let* lo := at_index char_table (Z.land n 15) in
  Ok [space; hi; lo].

(** [count] bytes from [p] are put into the buffer; the rest of the memory is
    returned as well. Reading beyond the end is undefined behaviour. *)
Fixpoint put_bytes (char_table : list Z) (count : nat) (p : list Z) (buf : list Z)
    : outcome (list Z * list Z) :=
  match count with
  | O => Ok (buf, p)
  | S count =>
      match p with
      | [] => Stuck
      | n :: p => let* t := put_byte char_table n in put_bytes char_table count p (buf ++ t)
      end
  end.

Section strides.
(** The bytes of one stride and the routine that fills the buffer. *)
Context (fill : list Z → outcome (list Z * list Z)).

(** Whole strides; [skip] is [buf_begin - buf], [out] what was written. *)
Fixpoint put_strides (count : nat) (p : list Z) (skip : nat) (out : list Z)
    : outcome (list Z * nat * list Z) :=
  match count with
  | O => Ok (p, skip, out)
  | S count =>
      let* (buf, p) := fill p in
      put_strides count p 0 (out ++ drop skip buf)
  end.
End strides.

Definition stride : nat := 256.

Definition dump_data_generic (uppercase : bool) (data out : list Z) : outcome (list Z) :=
  let char_table := hex_char_table uppercase in
  let stride_count := (length data / stride)%nat in
  let tail_size := (length data mod stride)%nat in
  let* (p, skip, out) := put_strides (λ p, put_bytes char_table stride p []) stride_count data 1 out in
  if (0 <? tail_size)%nat then
    let* (buf, _) := put_bytes char_table tail_size p [] in
    Ok (out ++ drop skip buf)
  else Ok out.

(** * Vector instructions *)

Abbreviation xmm := (list Z).

Definition mm_set1 (b : Z) : xmm := replicate 16 b.

Definition _mm_and_si128 (a b : xmm) : xmm := zip_with Z.land a b.
Definition _mm_max_epu8 (a b : xmm) : xmm := zip_with Z.max a b.
Definition _mm_add_epi8 (a b : xmm) : xmm := zip_with (λ x y, (x + y) mod 256) a b.

Definition signed8 (x : Z) : Z := if x <? 128 then x else x - 256.
Definition _mm_cmpgt_epi8 (a b : xmm) : xmm :=
  zip_with (λ x y, if signed8 y <? signed8 x then 255 else 0) a b.

(** Logical right shift of the 16-bit lanes. *)
Fixpoint _mm_srli_epi16 (a : xmm) (n : Z) : xmm :=
  match a with
  | lo :: hi :: a =>
      let w := Z.shiftr (lo + 256 * hi) n in
      w mod 256 :: w / 256 :: _mm_srli_epi16 a n
  | _ => []
  end.

(** [pshufb]: a selector with the high bit set gives zero. *)
Definition _mm_shuffle_epi8 (a sel : xmm) : xmm :=
  (λ s, if Z.testbit s 7 then 0 else default 0 (a !! Z.to_nat (Z.land s 15))) <$> sel.

Fixpoint interleave (a b : list Z) : list Z :=
  match a, b with
  | x :: a, y :: b => x :: y :: interleave a b
  | _, _ => []
  end.

Definition _mm_unpacklo_epi8 (a b : xmm) : xmm := interleave (take 8 a) (take 8 b).
Definition _mm_unpackhi_epi8 (a b : xmm) : xmm := interleave (drop 8 a) (drop 8 b).

(** The 16-bit lanes are interleaved. *)
Fixpoint interleave16 (a b : list Z) : list Z :=
  match a, b with
  | x0 :: x1 :: a, y0 :: y1 :: b => x0 :: x1 :: y0 :: y1 :: interleave16 a b
  | _, _ => []
  end.

Definition _mm_unpacklo_epi16 (a b : xmm) : xmm := interleave16 (take 8 a) (take 8 b).
Definition _mm_unpackhi_epi16 (a b : xmm) : xmm := interleave16 (drop 8 a) (drop 8 b).

(** [palignr]: bytes of [b] followed by [a], shifted right by [n] bytes. *)
Definition _mm_alignr_epi8 (a b : xmm) (n : nat) : xmm := take 16 (drop n (b ++ a)).

(** * The SSSE3 routines *)

(** The width of a character in bytes. *)
Inductive char_size : Type := size1 | size2 | size4.

(** The little-endian numbers stored in memory. *)
Fixpoint lanes2 (l : list Z) : list Z :=
  match l with b0 :: b1 :: l => b0 + 256 * b1 :: lanes2 l | _ => [] end.
Fixpoint lanes4 (l : list Z) : list Z :=
  match l with
  | b0 :: b1 :: b2 :: b3 :: l => b0 + 256 * (b1 + 256 * (b2 + 256 * b3)) :: lanes4 l
  | _ => []
  end.

(** [store_characters]: the characters that appear in the buffer. *)
Definition store_characters (w : char_size) (mm_chars : xmm) : list Z :=
  let mm_0 := mm_set1 0 in
  match w with
  | size1 => mm_chars
  | size2 => lanes2 (_mm_unpacklo_epi8 mm_chars mm_0 ++ _mm_unpackhi_epi8 mm_chars mm_0)
  | size4 =>
      let lo := _mm_unpacklo_epi8 mm_chars mm_0 in
      let hi := _mm_unpackhi_epi8 mm_chars mm_0 in
      lanes4 (_mm_unpacklo_epi16 lo mm_0 ++ _mm_unpackhi_epi16 lo mm_0 ++
              _mm_unpacklo_epi16 hi mm_0 ++ _mm_unpackhi_epi16 hi mm_0)
  end.

Definition mm_shuffle_pattern1 : xmm := [128; 0; 1; 128; 2; 3; 128; 4; 5; 128; 6; 7; 128; 8; 9; 128].
Definition mm_shuffle_pattern2 : xmm := [0; 1; 128; 2; 3; 128; 4; 5; 128; 6; 7; 128; 8; 9; 128; 10].
Definition mm_shuffle_pattern3 : xmm := [5; 128; 6; 7; 128; 8; 9; 128; 10; 11; 128; 12; 13; 128; 14; 15].

Definition mm_15 : xmm := mm_set1 15.
Definition mm_9 : xmm := mm_set1 9.
Definition mm_char_0 : xmm := mm_set1 48.
Definition mm_char_space : xmm := mm_set1 32.

(** The three output registers, made of the digits of the high and of the low
    halves of the bytes. *)
Definition join_digits (mm_input_hi mm_input_lo : xmm) : xmm * xmm * xmm :=
  let mm_1 := _mm_unpacklo_epi8 mm_input_hi mm_input_lo in
  let mm_2 := _mm_unpackhi_epi8 mm_input_hi mm_input_lo in
  (_mm_max_epu8 (_mm_shuffle_epi8 mm_1 mm_shuffle_pattern1) mm_char_space,
   _mm_max_epu8 (_mm_shuffle_epi8 (_mm_alignr_epi8 mm_2 mm_1 10) mm_shuffle_pattern2) mm_char_space,
   _mm_max_epu8 (_mm_shuffle_epi8 mm_2 mm_shuffle_pattern3) mm_char_space).

Definition dump_pack (mm_char_table mm_input : xmm) : xmm * xmm * xmm :=
  let mm_input_hi := _mm_and_si128 (_mm_srli_epi16 mm_input 4) mm_15 in
  let mm_input_lo := _mm_and_si128 mm_input mm_15 in
  join_digits (_mm_shuffle_epi8 mm_char_table mm_input_hi) (_mm_shuffle_epi8 mm_char_table mm_input_lo).

Definition dump_pack_slow_pshufb (mm_char_10_to_a mm_input : xmm) : xmm * xmm * xmm :=
  let mm_input_hi := _mm_and_si128 (_mm_srli_epi16 mm_input 4) mm_15 in
  let mm_input_lo := _mm_and_si128 mm_input mm_15 in
  let mm_addend_hi := _mm_and_si128 mm_char_10_to_a (_mm_cmpgt_epi8 mm_input_hi mm_9) in
  let mm_addend_lo := _mm_and_si128 mm_char_10_to_a (_mm_cmpgt_epi8 mm_input_lo mm_9) in
  join_digits (_mm_add_epi8 (_mm_add_epi8 mm_input_hi mm_char_0) mm_addend_hi)
    (_mm_add_epi8 (_mm_add_epi8 mm_input_lo mm_char_0) mm_addend_lo).

(** [store_characters] of the three output registers. *)
Definition store_pack (pack : xmm → xmm * xmm * xmm) (w : char_size) (mm_input : xmm) : list Z :=
  let '(mm_output1, mm_output2, mm_output3) := pack mm_input in
  store_characters w mm_output1 ++ store_characters w mm_output2 ++ store_characters w mm_output3.

Definition packs_per_stride : nat := 32.

Section packs.
(** The size of a register, and the characters that are stored for it. *)
Context (width : nat) (store : list Z → list Z).

(** A load of a register from the address [addr]; an aligned load such as
    [_mm_load_si128] faults when the address is not aligned. *)
Definition load (aligned : bool) (addr : Z) (p : list Z) : outcome (list Z) :=
  if ((length p <? width)%nat || (aligned && negb (addr mod Z.of_nat width =? 0)))%bool then Stuck
  else Ok (take width p).

(** [count] packs; the position in the memory is its address and what follows. *)
Fixpoint put_packs (count : nat) (addr : Z) (p : list Z) (buf : list Z) : outcome (list Z * Z * list Z) :=
  match count with
  | O => Ok (buf, addr, p)
  | S count =>
      let* mm_input := load true addr p in
      put_packs count (addr + Z.of_nat width) (drop width p) (buf ++ store mm_input)
  end.

Definition vector_stride : nat := packs_per_stride * width.

Fixpoint put_vector_strides (count : nat) (addr : Z) (p : list Z) (skip : nat) (out : list Z)
    : outcome (Z * list Z * nat * list Z) :=
  match count with
  | O => Ok (addr, p, skip, out)
  | S count =>
      let* (buf, addr, p) := put_packs packs_per_stride addr p [] in
      put_vector_strides count addr p 0 (out ++ drop skip (take (vector_stride * 3) buf))
  end.

(** The bytes before the first aligned address, which are dumped from an
    unaligned pack; then the address, the rest of the data, the characters to
    skip and the output. *)
Definition put_unaligned (prealign_size addr : Z) (data out : list Z) : outcome (Z * list Z * nat * list Z) :=
  if 0 <? prealign_size then
    let* mm_input := load false addr data in
    Ok (addr + prealign_size, drop (Z.to_nat prealign_size) data, 0%nat,
        out ++ take (Z.to_nat (prealign_size * 3 - 1)) (drop 1 (store mm_input)))
  else Ok (addr, data, 1%nat, out).
End packs.

Section ssse3.
Context (store : xmm → list Z) (char_table : list Z).

(** The tail: packs while there are sixteen bytes, then single bytes. *)
Definition put_tail (tail_size : nat) (addr : Z) (p : list Z) (skip : nat) (out : list Z) : outcome (list Z) :=
  if (0 <? tail_size)%nat then
    let* (buf, _, p) := put_packs 16 store (tail_size / 16) addr p [] in
    let* (buf, _) := put_bytes char_table (tail_size mod 16) p buf in
    Ok (out ++ drop skip buf)
  else Ok out.

(** [dump_data_ssse3] and [dump_data_ssse3_slow_pshufb] for [data] at the
    address [addr]. *)
Definition dump_data_vector (addr : Z) (data out : list Z) : outcome (list Z) :=
  let prealign_size := Z.land (16 - Z.land addr 15) 15 in
  let* (addr, p, skip, out) := put_unaligned 16 store prealign_size addr data out in
  let sz := length p in
  let* (addr, p, skip, out) := put_vector_strides 16 store (sz / vector_stride 16) addr p skip out in
  put_tail (sz mod vector_stride 16) addr p skip out.
End ssse3.

Definition dump_data_ssse3 (w : char_size) (uppercase : bool) : Z → list Z → list Z → outcome (list Z) :=
  let char_table := hex_char_table uppercase in
  dump_data_vector (store_pack (dump_pack char_table) w) char_table.

Definition dump_data_ssse3_slow_pshufb (w : char_size) (uppercase : bool) : Z → list Z → list Z → outcome (list Z) :=
  let mm_char_10_to_a := mm_set1 (if uppercase then 7 else 39) in
  dump_data_vector (store_pack (dump_pack_slow_pshufb mm_char_10_to_a) w) (hex_char_table uppercase).

(** The entry points dump_data_char_ssse3 and the like: short data is left to
    the generic routine. *)
Definition dump_data_char_ssse3 (w : char_size) (uppercase : bool) (addr : Z) (data out : list Z) : outcome (list Z) :=
  if (16 <=? length data)%nat then dump_data_ssse3 w uppercase addr data out
  else dump_data_generic uppercase data out.

Definition dump_data_char_ssse3_slow_pshufb (w : char_size) (uppercase : bool) (addr : Z) (data out : list Z)
    : outcome (list Z) :=
  if (16 <=? length data)%nat then dump_data_ssse3_slow_pshufb w uppercase addr data out
  else dump_data_generic uppercase data out.

(** * Reference *)

Definition byte (b : Z) : Prop := 0 ≤ b < 256.

Definition digit (uppercase : bool) (n : Z) : Z := default 0 (hex_char_table uppercase !! Z.to_nat n).

Definition byte_text (uppercase : bool) (b : Z) : list Z :=
  [space; digit uppercase (b / 16); digit uppercase (b mod 16)].

(** Every byte as two digits, with a space before each. *)
Definition text (uppercase : bool) (data : list Z) : list Z := concat (byte_text uppercase <$> data).

(** The dump: the digits of the bytes separated by spaces. *)
Definition hex_dump (uppercase : bool) (data : list Z) : list Z := drop 1 (text uppercase data).

(** ** Lemmas on the reference *)

Lemma dump_text_app u l1 l2 : text u (l1 ++ l2) = text u l1 ++ text u l2.
Proof. unfold text. by rewrite fmap_app, concat_app. Qed.

Lemma text_length u l : length (text u l) = (3 * length l)%nat.
Proof. induction l as [|b l IH]; [done|]. change (b :: l) with ([b] ++ l). rewrite dump_text_app, length_app, IH. cbn. lia. Qed.

(** The characters of the buffer that are skipped after [done] was dumped. *)
Definition skip_of (d : list Z) : nat := match d with [] => 1%nat | _ => 0%nat end.

Lemma text_continue u d1 d2 : drop 1 (text u d1) ++ drop (skip_of d1) (text u d2) = drop 1 (text u (d1 ++ d2)).
Proof.
  rewrite dump_text_app. destruct d1 as [|b d1]; [done|]. cbn [skip_of]. rewrite drop_0, drop_app_le; [done|].
  rewrite text_length. cbn. lia.
Qed.

Lemma skip_of_app d1 d2 : d2 ≠ [] → skip_of (d1 ++ d2) = 0%nat.
Proof. by destruct d1, d2. Qed.

Lemma bytes_take k l : Forall byte l → Forall byte (take k l).
Proof. apply Forall_take. Qed.
Lemma bytes_drop k l : Forall byte l → Forall byte (drop k l).
Proof. apply Forall_drop. Qed.

Lemma digit_at u n : 0 ≤ n < 16 → at_index (hex_char_table u) n = Ok (digit u n).
Proof.
  intros Hn. unfold at_index, digit. destruct (0 <=? n) eqn:E; to_prop; [|lia].
  assert (is_Some (hex_char_table u !! Z.to_nat n)) as [c Hc].
  { apply lookup_lt_is_Some. destruct u; cbn; lia. }
  by rewrite Hc.
Qed.

Lemma put_byte_text u n : byte n → put_byte (hex_char_table u) n = Ok (byte_text u n).
Proof.
  intros Hn. unfold byte in Hn. unfold put_byte.
  change 15 with (Z.ones 4). rewrite Z.land_ones, Z.shiftr_div_pow2 by lia. change (2 ^ 4) with 16.
  pose proof (Z.mod_pos_bound n 16 ltac:(lia)). pose proof (Z.div_mod n 16 ltac:(lia)).
  by rewrite !digit_at by lia.
Qed.

Lemma put_bytes_text u count p buf :
  Forall byte p → (count ≤ length p)%nat →
  put_bytes (hex_char_table u) count p buf = Ok (buf ++ text u (take count p), drop count p).
Proof.
  revert p buf. induction count as [|count IH]; intros p buf Hp Hc; [cbn; by rewrite app_nil_r|].
  destruct p as [|n p]; [cbn in Hc; lia|]. apply Forall_cons in Hp as [Hn Hp]. cbn [put_bytes].
  rewrite put_byte_text by done. cbn [obind]. rewrite IH by (done || (cbn in Hc; lia)).
  cbn [take drop]. change (n :: take count p) with ([n] ++ take count p). rewrite dump_text_app, app_assoc.
  done.
Qed.

(** The state after [d1] was dumped, in front of [p]. *)
Lemma put_strides_text u (s : nat) fill count p d1 out :
  (0 < s)%nat → (∀ p, Forall byte p → (s ≤ length p)%nat → fill p = Ok (text u (take s p), drop s p)) →
  Forall byte p → (count * s ≤ length p)%nat →
  put_strides fill count p (skip_of d1) (out ++ hex_dump u d1) =
    Ok (drop (count * s) p, skip_of (d1 ++ take (count * s) p), out ++ hex_dump u (d1 ++ take (count * s) p)).
Proof.
  intros Hs Hfill. revert p d1. induction count as [|count IH]; intros p d1 Hp Hc; [cbn; by rewrite app_nil_r|].
  cbn [put_strides]. rewrite Hfill by (done || lia). cbn [obind].
  rewrite <- app_assoc. unfold hex_dump at 1. rewrite text_continue. change (drop 1 (text u ?l)) with (hex_dump u l).
  assert (take s p ≠ []) as Hne by (destruct p; [cbn in Hc; lia|destruct s; [lia|done]]).
  rewrite <- (skip_of_app d1 _ Hne). rewrite IH by (by apply bytes_drop || (rewrite length_drop; lia)).
  rewrite drop_drop, <- app_assoc, take_take_drop. done.
Qed.

Lemma generic_text u data out :
  Forall byte data → dump_data_generic u data out = Ok (out ++ hex_dump u data).
Proof.
  intros Hd. unfold dump_data_generic.
  pose proof (Nat.div_mod_eq (length data) stride) as Hdm. set (q := (length data / stride)%nat) in *.
  rewrite <- (app_nil_r out) at 1. change 1%nat with (skip_of []). change (@nil Z) with (hex_dump u []) at 3.
  rewrite (put_strides_text u stride); [|unfold stride; lia| |done|lia].
  2: { intros p Hp Hl. by rewrite put_bytes_text. }
  cbn [obind app]. destruct (0 <? length data mod stride)%nat eqn:Et; to_prop.
  - rewrite put_bytes_text by (by apply bytes_drop || (rewrite length_drop; lia)). cbn [obind app].
    rewrite <- app_assoc. unfold hex_dump. rewrite text_continue, take_take_drop, take_ge; [done|lia].
  - rewrite take_ge by lia. done.
Qed.

(** ** The vector routines *)

Ltac destruct_xmm v H :=
  do 16 (destruct v as [|? v]; [discriminate H|]); destruct v; [|discriminate H].

(** The bytes of a 16-bit lane after a shift by four and a mask. *)
Lemma lane_nibbles lo hi :
  byte lo → byte hi →
  Z.land (Z.shiftr (lo + 256 * hi) 4 mod 256) 15 = lo / 16 ∧
  Z.land (Z.shiftr (lo + 256 * hi) 4 / 256) 15 = hi / 16.
Proof.
  unfold byte. intros Hl Hh. change 15 with (Z.ones 4). rewrite !Z.land_ones, Z.shiftr_div_pow2 by lia.
  change (2 ^ 4) with 16. replace (lo + 256 * hi) with (lo + (16 * hi) * 16) by lia. rewrite Z.div_add by lia.
  replace (lo / 16 + 16 * hi) with ((lo / 16 + 16 * (hi mod 16)) + (hi / 16) * 256)
    by (pose proof (Z.div_mod hi 16 ltac:(lia)); lia).
  assert (0 ≤ lo / 16 < 16) by (split; [apply Z.div_pos; lia|apply Z.div_lt_upper_bound; lia]).
  assert (0 ≤ hi / 16 < 16) by (split; [apply Z.div_pos; lia|apply Z.div_lt_upper_bound; lia]).
  pose proof (Z.mod_pos_bound hi 16 ltac:(lia)). rewrite Z.mod_add, Z.div_add by lia.
  rewrite (Z.mod_small _ 256), (Z.div_small _ 256) by lia. split.
  - rewrite (Z.mul_comm 16), Z.mod_add, Z.mod_small by lia. done.
  - rewrite Z.mod_small by lia. done.
Qed.

Lemma srli_nibbles n v :
  length v = (2 * n)%nat → Forall byte v → (λ b, Z.land b 15) <$> _mm_srli_epi16 v 4 = (λ b, b / 16) <$> v.
Proof.
  revert v. induction n as [|n IH]; intros v Hn Hv; [by destruct v|].
  destruct v as [|lo [|hi v]]; [cbn in Hn; lia..|]. apply Forall_cons in Hv as [Hl [Hh Hv]%Forall_cons].
  destruct (lane_nibbles lo hi Hl Hh) as [E1 E2].
  cbn [_mm_srli_epi16 fmap list_fmap]. rewrite E1, E2. do 2 f_equal. apply IH; [cbn in Hn; lia|done].
Qed.

Lemma nibbles v :
  length v = 16%nat → Forall byte v →
  _mm_and_si128 (_mm_srli_epi16 v 4) mm_15 = (λ b, b / 16) <$> v ∧
  _mm_and_si128 v mm_15 = (λ b, b mod 16) <$> v.
Proof.
  intros Hl Hv. split.
  - rewrite <- (srli_nibbles 8) by done. unfold _mm_and_si128, mm_15, mm_set1.
    rewrite zip_with_replicate_r_eq; [done|]. rewrite <- Hl.
    pose proof (f_equal length (srli_nibbles 8 v Hl Hv)) as H. by rewrite !length_fmap in H.
  - unfold _mm_and_si128, mm_15, mm_set1. rewrite zip_with_replicate_r_eq by done.
    apply list_fmap_ext. intros i b _. cbn. change 15 with (Z.ones 4). by rewrite Z.land_ones by lia.
Qed.

(** Spaces are inserted between the digits. *)
Lemma join_digits_text (h l : Z → Z) v :
  length v = 16%nat → Forall (λ b, 32 ≤ h b ∧ 32 ≤ l b) v →
  let '(o1, o2, o3) := join_digits (h <$> v) (l <$> v) in
  o1 ++ o2 ++ o3 = concat ((λ b, [space; h b; l b]) <$> v) ∧
  length o1 = 16%nat ∧ length o2 = 16%nat ∧ length o3 = 16%nat.
Proof.
  intros Hl Hv. destruct_xmm v Hl. clear Hl. repeat (apply Forall_cons in Hv as [[? ?] Hv]).
  cbn -[Z.max]. rewrite (Z.max_r 0 32) by lia. by rewrite !Z.max_l by done.
Qed.

Lemma digit_lookup u n : 0 ≤ n < 16 → digit u n = (if n <? 10 then 48 + n else (if u then 55 else 87) + n).
Proof.
  intros Hn. assert (n = 0 ∨ n = 1 ∨ n = 2 ∨ n = 3 ∨ n = 4 ∨ n = 5 ∨ n = 6 ∨ n = 7 ∨ n = 8 ∨ n = 9 ∨ n = 10 ∨
    n = 11 ∨ n = 12 ∨ n = 13 ∨ n = 14 ∨ n = 15) as H by lia.
  destruct u; destruct_or! H; subst n; reflexivity.
Qed.

Lemma digit_printable u n : 0 ≤ n < 16 → 32 ≤ digit u n.
Proof. intros Hn. rewrite digit_lookup by done. destruct (n <? 10), u; lia. Qed.

Lemma byte_nibbles b : byte b → 0 ≤ b / 16 < 16 ∧ 0 ≤ b mod 16 < 16.
Proof.
  unfold byte. intros Hb. pose proof (Z.div_mod b 16 ltac:(lia)). pose proof (Z.mod_pos_bound b 16 ltac:(lia)). lia.
Qed.

(** A routine that dumps a pack as the reference does. *)
Definition pack_ok (u : bool) (pack : xmm → xmm * xmm * xmm) : Prop :=
  ∀ v, length v = 16%nat → Forall byte v →
  let '(o1, o2, o3) := pack v in
  o1 ++ o2 ++ o3 = text u v ∧ length o1 = 16%nat ∧ length o2 = 16%nat ∧ length o3 = 16%nat.

(** It is enough that both halves of the bytes become digits. *)
Lemma pack_ok_digits u pack :
  (∀ v, length v = 16%nat → Forall byte v →
    pack v = join_digits ((λ b, digit u (b / 16)) <$> v) ((λ b, digit u (b mod 16)) <$> v)) → pack_ok u pack.
Proof.
  intros Hp v Hl Hv. rewrite Hp by done.
  apply (join_digits_text (λ b, digit u (b / 16)) (λ b, digit u (b mod 16)) v Hl).
  eapply Forall_impl; [exact Hv|]. intros b [? ?]%byte_nibbles. split; by apply digit_printable.
Qed.

Lemma fmap_bytes {X} (f g : Z → X) v : Forall byte v → (∀ b, byte b → f b = g b) → f <$> v = g <$> v.
Proof. intros Hv H. apply Forall_fmap_ext_1. eapply Forall_impl; [exact Hv|]. exact H. Qed.

Lemma shuffle_digits u (f : Z → Z) v :
  Forall byte v → (∀ b, byte b → 0 ≤ f b < 16) →
  _mm_shuffle_epi8 (hex_char_table u) (f <$> v) = (λ b, digit u (f b)) <$> v.
Proof.
  intros Hv Hf. unfold _mm_shuffle_epi8. rewrite <- list_fmap_compose. apply fmap_bytes; [done|].
  intros b Hb. specialize (Hf b Hb). unfold compose.
  assert (Z.testbit (f b) 7 = false) as ->
    by (apply Z.testbit_false; [lia|]; change (2 ^ 7) with 128; rewrite Z.div_small by lia; done).
  change 15 with (Z.ones 4). rewrite Z.land_ones, Z.mod_small by lia. done.
Qed.

Lemma dump_pack_ok u : pack_ok u (dump_pack (hex_char_table u)).
Proof.
  apply pack_ok_digits. intros v Hl Hv. unfold dump_pack. destruct (nibbles v Hl Hv) as [-> ->].
  by rewrite !shuffle_digits by (done || (intros; by apply byte_nibbles)).
Qed.

(** Lane-wise operations on lanes computed from the same bytes. *)
Lemma zip_lanes (g : Z → Z → Z) (f1 f2 : Z → Z) (v : xmm) :
  zip_with g (f1 <$> v) (f2 <$> v) = (λ b, g (f1 b) (f2 b)) <$> v.
Proof. by rewrite zip_with_fmap_l, zip_with_fmap_r, zip_with_diag. Qed.

Lemma set1_lanes c (v : list Z) : length v = 16%nat → mm_set1 c = (λ _, c) <$> v.
Proof. intros Hl. unfold mm_set1. rewrite <- Hl. symmetry. by apply const_fmap. Qed.

(** The digits by arithmetic instead of a table. *)
Lemma slow_digits (u : bool) (f : Z → Z) (v : xmm) :
  length v = 16%nat → Forall byte v → (∀ b, byte b → 0 ≤ f b < 16) →
  let mm_addend := _mm_and_si128 (mm_set1 (if u then 7 else 39)) (_mm_cmpgt_epi8 (f <$> v) mm_9) in
  _mm_add_epi8 (_mm_add_epi8 (f <$> v) mm_char_0) mm_addend = (λ b, digit u (f b)) <$> v.
Proof.
  intros Hl Hv Hf. cbn zeta. unfold _mm_and_si128, _mm_cmpgt_epi8, _mm_add_epi8, mm_9, mm_char_0.
  rewrite !(set1_lanes _ v Hl), !zip_lanes. apply fmap_bytes; [done|]. intros b Hb. specialize (Hf b Hb).
  rewrite digit_lookup by done. unfold signed8. destruct (f b <? 128) eqn:E1; to_prop; [|lia].
  change (9 <? 128) with true. cbn match. destruct (f b <? 10) eqn:E2, (9 <? f b) eqn:E3; to_prop; try lia.
  - rewrite Z.land_0_r, (Z.mod_small (f b + 48)), Z.mod_small by lia. lia.
  - rewrite (Z.mod_small (f b + 48)) by lia. 
    destruct u; [change (Z.land 7 255) with 7|change (Z.land 39 255) with 39]; rewrite Z.mod_small by lia; lia.
Qed.

Lemma dump_pack_slow_pshufb_ok (u : bool) : pack_ok u (dump_pack_slow_pshufb (mm_set1 (if u then 7 else 39))).
Proof.
  apply pack_ok_digits. intros v Hl Hv. unfold dump_pack_slow_pshufb. destruct (nibbles v Hl Hv) as [-> ->].
  by rewrite !slow_digits by (done || (intros; by apply byte_nibbles)).
Qed.

Lemma store_characters_id w v : length v = 16%nat → store_characters w v = v.
Proof.
  intros Hl. destruct w; [done|..]; destruct_xmm v Hl; cbn -[Z.mul Z.add]; repeat f_equal; lia.
Qed.

Lemma store_pack_text u pack w v :
  pack_ok u pack → length v = 16%nat → Forall byte v → store_pack pack w v = text u v.
Proof.
  intros Hpack Hl Hv. unfold store_pack. specialize (Hpack v Hl Hv). destruct (pack v) as [[o1 o2] o3].
  destruct Hpack as (<- & ? & ? & ?). by rewrite !store_characters_id.
Qed.

(** Registers of any size, for which the right characters are stored. *)
Section packs.
Context (u : bool) (width : nat) (store : list Z → list Z) (Hw : (0 < width)%nat).
Context (Hstore : ∀ v, length v = width → Forall byte v → store v = text u v).

Lemma load_ok b addr p :
  (width ≤ length p)%nat → addr mod Z.of_nat width = 0 ∨ b = false → load width b addr p = Ok (take width p).
Proof.
  intros Hl Ha. unfold load. destruct (length p <? width)%nat eqn:E; to_prop; [lia|].
  destruct Ha as [-> | ->]; [|done]. by destruct b.
Qed.

Lemma store_text p : Forall byte p → (width ≤ length p)%nat → store (take width p) = text u (take width p).
Proof. intros Hp Hl. apply Hstore; [rewrite length_take; lia|by apply bytes_take]. Qed.

Lemma put_packs_text count addr p buf :
  Forall byte p → (count * width ≤ length p)%nat → addr mod Z.of_nat width = 0 →
  ∃ addr', addr' mod Z.of_nat width = 0 ∧
    put_packs width store count addr p buf = Ok (buf ++ text u (take (count * width) p), addr', drop (count * width) p).
Proof.
  revert addr p buf. induction count as [|count IH]; intros addr p buf Hp Hc Ha;
    [exists addr; cbn; by rewrite app_nil_r|].
  cbn [put_packs]. rewrite load_ok by (lia || by left). cbn [obind]. rewrite store_text by (done || lia).
  destruct (IH (addr + Z.of_nat width) (drop width p) (buf ++ text u (take width p))) as (addr' & Ha' & ->).
  - by apply bytes_drop.
  - rewrite length_drop. lia.
  - by rewrite <- Z.add_mod_idemp_r, Z_mod_same_full, Z.add_0_r by lia.
  - exists addr'. split; [done|]. by rewrite drop_drop, <- app_assoc, <- dump_text_app, take_take_drop.
Qed.

Lemma put_vector_strides_text count addr p d1 out :
  Forall byte p → (count * vector_stride width ≤ length p)%nat → addr mod Z.of_nat width = 0 →
  ∃ addr', addr' mod Z.of_nat width = 0 ∧
    put_vector_strides width store count addr p (skip_of d1) (out ++ hex_dump u d1) =
      Ok (addr', drop (count * vector_stride width) p, skip_of (d1 ++ take (count * vector_stride width) p),
          out ++ hex_dump u (d1 ++ take (count * vector_stride width) p)).
Proof.
  assert (0 < vector_stride width)%nat as Hs by (unfold vector_stride, packs_per_stride; lia).
  revert addr p d1. induction count as [|count IH]; intros addr p d1 Hp Hc Ha;
    [exists addr; cbn; by rewrite app_nil_r|].
  cbn [put_vector_strides]. destruct (put_packs_text packs_per_stride addr p []) as (a1 & Ha1 & ->);
    [done|unfold vector_stride in Hc; lia|done|]. cbn [obind app].
  change (packs_per_stride * width)%nat with (vector_stride width).
  rewrite (take_ge (text u _)) by (rewrite text_length, length_take; lia).
  rewrite <- app_assoc. unfold hex_dump at 1. rewrite text_continue. change (drop 1 (text u ?l)) with (hex_dump u l).
  assert (take (vector_stride width) p ≠ []) as Hne by (intros E%(f_equal length); rewrite length_take in E; cbn in E; lia).
  rewrite <- (skip_of_app d1 _ Hne).
  destruct (IH a1 (drop (vector_stride width) p) (d1 ++ take (vector_stride width) p)) as (a2 & Ha2 & ->);
    [by apply bytes_drop|rewrite length_drop; lia|done|].
  exists a2. split; [done|]. by rewrite drop_drop, <- app_assoc, take_take_drop.
Qed.

(** What is stored for the unaligned pack starts with its first bytes. *)
Lemma prealign_text data k :
  (k ≤ width)%nat → (0 < k)%nat → (width ≤ length data)%nat →
  take (3 * k - 1) (drop 1 (text u (take width data))) = hex_dump u (take k data).
Proof.
  intros Hk H0 Hl. replace width with (k + (width - k))%nat by lia.
  rewrite <- take_take_drop, dump_text_app, drop_app_le by (rewrite text_length, length_take; lia).
  rewrite take_app_le by (rewrite length_drop, text_length, length_take; lia).
  apply take_ge. unfold hex_dump. rewrite length_drop, text_length, length_take. lia.
Qed.

Lemma put_unaligned_text k addr data out :
  Forall byte data → (width ≤ length data)%nat → 0 ≤ k ≤ Z.of_nat width →
  put_unaligned width store k addr data out =
    Ok (addr + k, drop (Z.to_nat k) data, skip_of (take (Z.to_nat k) data), out ++ hex_dump u (take (Z.to_nat k) data)).
Proof.
  intros Hd Hl Hk. unfold put_unaligned. destruct (0 <? k) eqn:E; to_prop.
  - rewrite load_ok by (lia || by right). cbn [obind]. rewrite store_text by done.
    replace (Z.to_nat (k * 3 - 1)) with (3 * Z.to_nat k - 1)%nat by lia. rewrite prealign_text by lia.
    destruct (Z.to_nat k) eqn:Ek; [lia|]. by destruct data; [cbn in Hl; lia|].
  - replace k with 0 by lia. cbn. by rewrite Z.add_0_r, app_nil_r.
Qed.
End packs.

(** The number of bytes before the next multiple of a power of two. *)
Lemma prealign n addr : 0 ≤ n →
  let k := Z.land (2 ^ n - Z.land addr (Z.ones n)) (Z.ones n) in 0 ≤ k < 2 ^ n ∧ (addr + k) mod 2 ^ n = 0.
Proof.
  intros Hn. cbn zeta. rewrite !Z.land_ones by lia. pose proof (Z.pow_pos_nonneg 2 n ltac:(lia) Hn) as Hp.
  split; [apply Z.mod_pos_bound; lia|]. rewrite Z.add_mod_idemp_r by lia.
  replace (addr + (2 ^ n - addr mod 2 ^ n)) with ((addr / 2 ^ n + 1) * 2 ^ n)
    by (pose proof (Z.div_mod addr (2 ^ n) ltac:(lia)); lia).
  apply Z.mod_mul. lia.
Qed.

Section vector.
Context (u : bool) (store : xmm → list Z).
Context (Hstore : ∀ v, length v = 16%nat → Forall byte v → store v = text u v).

Lemma put_tail_text n addr p d1 out :
  Forall byte p → length p = n → addr mod 16 = 0 →
  put_tail store (hex_char_table u) n addr p (skip_of d1) (out ++ hex_dump u d1) = Ok (out ++ hex_dump u (d1 ++ p)).
Proof.
  intros Hp Hn Ha. unfold put_tail. destruct (0 <? n)%nat eqn:E; to_prop; [|by destruct p; [rewrite app_nil_r|cbn in Hn; lia]].
  pose proof (Nat.div_mod_eq n 16) as Hdm.
  destruct (put_packs_text u 16 store ltac:(lia) Hstore (n / 16) addr p []) as (a1 & _ & ->); [done|lia|done|]. cbn [obind app].
  rewrite put_bytes_text by (by apply bytes_drop || (rewrite length_drop; lia)). cbn [obind].
  rewrite <- dump_text_app, take_take_drop, (take_ge p) by lia. rewrite <- app_assoc. unfold hex_dump. by rewrite text_continue.
Qed.

(** Strides and tail, after the bytes [d1] were dumped. *)
Lemma strides_tail_text width wide_store addr p d1 out :
  (0 < width)%nat → (∀ v, length v = width → Forall byte v → wide_store v = text u v) →
  (16 | Z.of_nat width) → Forall byte p → addr mod Z.of_nat width = 0 →
  (let* (addr, q, skip, out) :=
     put_vector_strides width wide_store (length p / vector_stride width) addr p (skip_of d1) (out ++ hex_dump u d1) in
   put_tail store (hex_char_table u) (length p mod vector_stride width) addr q skip out) = Ok (out ++ hex_dump u (d1 ++ p)).
Proof.
  intros Hw Hwide Hdiv Hp Ha. pose proof (Nat.div_mod_eq (length p) (vector_stride width)) as Hdm.
  destruct (put_vector_strides_text u width wide_store Hw Hwide (length p / vector_stride width) addr p d1 out)
    as (a2 & Ha2 & ->); [done|lia|done|].
  cbn [obind]. rewrite put_tail_text; [|by apply bytes_drop|rewrite length_drop; lia|].
  - by rewrite <- app_assoc, take_drop.
  - apply Z.mod_divide in Ha2; [|lia]. apply Z.mod_divide; [lia|]. by etrans.
Qed.

Lemma vector_text addr data out :
  Forall byte data → (16 ≤ length data)%nat →
  dump_data_vector store (hex_char_table u) addr data out = Ok (out ++ hex_dump u data).
Proof.
  intros Hd Hl. unfold dump_data_vector. destruct (prealign 4 addr ltac:(lia)) as [Hk Ha]. change (2 ^ 4) with 16 in *.
  change (Z.ones 4) with 15 in *. set (k := Z.land (16 - Z.land addr 15) 15) in *.
  rewrite (put_unaligned_text u 16 store ltac:(lia) Hstore) by (done || lia). cbn [obind].
  rewrite (strides_tail_text 16 store); [|lia|done|done|by apply bytes_drop|done].
  by rewrite take_drop.
Qed.
End vector.

(** The entry points of the SSSE3 routines. *)
Lemma ssse3_text w u addr data out :
  Forall byte data → dump_data_char_ssse3 w u addr data out = Ok (out ++ hex_dump u data).
Proof.
  intros Hd. unfold dump_data_char_ssse3. destruct (16 <=? length data)%nat eqn:E; to_prop; [|by apply generic_text].
  apply vector_text; [intros v; apply store_pack_text, dump_pack_ok|done|done].
Qed.

Lemma ssse3_slow_pshufb_text w u addr data out :
  Forall byte data → dump_data_char_ssse3_slow_pshufb w u addr data out = Ok (out ++ hex_dump u data).
Proof.
  intros Hd. unfold dump_data_char_ssse3_slow_pshufb.
  destruct (16 <=? length data)%nat eqn:E; to_prop; [|by apply generic_text].
  apply vector_text; [intros v; apply store_pack_text, dump_pack_slow_pshufb_ok|done|done].
Qed.
