(* ===== verification/DumpAvx2.v ===== *)
(** Hexadecimal dumps with AVX2 (src/src/dump_avx2.cpp), the selection of the
    routine for the processor (src/src/dump.cpp) and the stream manipulators
    (src/include/boost/log/utility/manipulators/dump.hpp).

    A YMM register is a list of 32 bytes; most instructions work on its two
    halves separately. *)

From Stdlib Require Import ZArith Ascii String.
From stdpp Require Import base numbers list.
From S2P Require Import Prelude Decimal Dump.
Local Open Scope Z_scope.

(** * Vector instructions *)

Abbreviation ymm := (list Z).

Definition _mm256_castsi256_si128 (a : ymm) : xmm := take 16 a.
Definition _mm256_extracti128_si256_1 (a : ymm) : xmm := drop 16 a.
Definition _mm256_broadcastsi128_si256 (a : xmm) : ymm := a ++ a.
Definition mm256_set1 (b : Z) : ymm := replicate 32 b.

(** An instruction that works on both halves. *)
Definition in_lanes (f : xmm → xmm → xmm) (a b : ymm) : ymm :=
  f (take 16 a) (take 16 b) ++ f (drop 16 a) (drop 16 b).

Definition _mm256_and_si256 (a b : ymm) : ymm := zip_with Z.land a b.
Definition _mm256_max_epu8 (a b : ymm) : ymm := zip_with Z.max a b.
Definition _mm256_srli_epi16 (a : ymm) (n : Z) : ymm := _mm_srli_epi16 a n.
Definition _mm256_shuffle_epi8 : ymm → ymm → ymm := in_lanes _mm_shuffle_epi8.
Definition _mm256_unpacklo_epi8 : ymm → ymm → ymm := in_lanes _mm_unpacklo_epi8.
Definition _mm256_unpackhi_epi8 : ymm → ymm → ymm := in_lanes _mm_unpackhi_epi8.
Definition _mm256_alignr_epi8 (a b : ymm) (n : nat) : ymm := in_lanes (λ a b, _mm_alignr_epi8 a b n) a b.

Definition _mm_unpackhi_epi64 (a b : xmm) : xmm := drop 8 a ++ drop 8 b.

(** Bytes are extended with zeros. *)
Definition _mm256_cvtepu8_epi16 (a : xmm) : ymm := a ≫= λ b, [b; 0].
Definition _mm256_cvtepu8_epi32 (a : xmm) : ymm := take 8 a ≫= λ b, [b; 0; 0; 0].

(** * The AVX2 routine *)

(** [store_characters] and [store_characters_x3]. *)
Definition store_characters_avx2 (w : char_size) (mm_chars : xmm) : list Z :=
  match w with
  | size1 => mm_chars
  | size2 => lanes2 (_mm256_cvtepu8_epi16 mm_chars)
  | size4 =>
      let mm := _mm_unpackhi_epi64 mm_chars mm_chars in
      lanes4 (_mm256_cvtepu8_epi32 mm_chars) ++ lanes4 (_mm256_cvtepu8_epi32 mm)
  end.

Definition store_characters_x3 (w : char_size) (mm_chars1 mm_chars2 mm_chars3 : ymm) : list Z :=
  store_characters_avx2 w (_mm256_castsi256_si128 mm_chars1) ++
  store_characters_avx2 w (_mm256_castsi256_si128 mm_chars2) ++
  store_characters_avx2 w (_mm256_castsi256_si128 mm_chars3) ++
  store_characters_avx2 w (_mm256_extracti128_si256_1 mm_chars1) ++
  store_characters_avx2 w (_mm256_extracti128_si256_1 mm_chars2) ++
  store_characters_avx2 w (_mm256_extracti128_si256_1 mm_chars3).

Definition mm256_shuffle_pattern1 : ymm :=
  [128; 0; 1; 128; 2; 3; 128; 4; 5; 128; 6; 7; 128; 8; 9; 128;
   128; 0; 1; 128; 2; 3; 128; 4; 5; 128; 6; 7; 128; 8; 9; 128].
Definition mm256_shuffle_pattern2 : ymm :=
  [0; 1; 128; 2; 3; 128; 4; 5; 128; 6; 7; 128; 8; 9; 128; 10;
   0; 1; 128; 2; 3; 128; 4; 5; 128; 6; 7; 128; 8; 9; 128; 10].
Definition mm256_shuffle_pattern3 : ymm :=
  [5; 128; 6; 7; 128; 8; 9; 128; 10; 11; 128; 12; 13; 128; 14; 15;
   5; 128; 6; 7; 128; 8; 9; 128; 10; 11; 128; 12; 13; 128; 14; 15].

Definition mm256_15 : ymm := mm256_set1 15.
Definition mm256_char_space : ymm := mm256_set1 32.

(** [dump_pack] for YMM registers. *)
Definition dump_pack_avx2 (mm_char_table mm_input : ymm) : ymm * ymm * ymm :=
  let mm_input_hi := _mm256_and_si256 (_mm256_srli_epi16 mm_input 4) mm256_15 in
  let mm_input_lo := _mm256_and_si256 mm_input mm256_15 in
  let mm_input_hi := _mm256_shuffle_epi8 mm_char_table mm_input_hi in
  let mm_input_lo := _mm256_shuffle_epi8 mm_char_table mm_input_lo in
  let mm_1 := _mm256_unpacklo_epi8 mm_input_hi mm_input_lo in
  let mm_2 := _mm256_unpackhi_epi8 mm_input_hi mm_input_lo in
  let mm_out1 := _mm256_shuffle_epi8 mm_1 mm256_shuffle_pattern1 in
  let mm_out3 := _mm256_shuffle_epi8 mm_2 mm256_shuffle_pattern3 in
  let mm_out2 := _mm256_shuffle_epi8 (_mm256_alignr_epi8 mm_2 mm_1 10) mm256_shuffle_pattern2 in
  (_mm256_max_epu8 mm_out1 mm256_char_space, _mm256_max_epu8 mm_out2 mm256_char_space,
   _mm256_max_epu8 mm_out3 mm256_char_space).

(** The characters stored for a pack of 32 bytes, and for one of sixteen, which
    the tail is made of. *)
Definition store_pack_avx2 (mm_char_table : ymm) (w : char_size) (mm_input : ymm) : list Z :=
  let '(mm_output1, mm_output2, mm_output3) := dump_pack_avx2 mm_char_table mm_input in
  store_characters_x3 w mm_output1 mm_output2 mm_output3.

Definition store_half_pack_avx2 (mm_char_table : ymm) (w : char_size) (mm_input : xmm) : list Z :=
  let '(mm_output1, mm_output2, mm_output3) := dump_pack (_mm256_castsi256_si128 mm_char_table) mm_input in
  store_characters_avx2 w mm_output1 ++ store_characters_avx2 w mm_output2 ++ store_characters_avx2 w mm_output3.

(** [dump_data_avx2]; data of the size of a register is dumped in one go. *)
Definition dump_data_avx2 (w : char_size) (uppercase : bool) (addr : Z) (data out : list Z) : outcome (list Z) :=
  let char_table := hex_char_table uppercase in
  let mm_char_table := _mm256_broadcastsi128_si256 char_table in
  let prealign_size := if (length data =? 32)%nat then 32 else Z.land (32 - Z.land addr 31) 31 in
  let* (addr, p, skip, out) := put_unaligned 32 (store_pack_avx2 mm_char_table w) prealign_size addr data out in
  let sz := length p in
  let* (addr, p, skip, out) :=
    put_vector_strides 32 (store_pack_avx2 mm_char_table w) (sz / vector_stride 32) addr p skip out in
  put_tail (store_half_pack_avx2 mm_char_table w) char_table (sz mod vector_stride 32) addr p skip out.

Definition dump_data_char_avx2 (w : char_size) (uppercase : bool) (addr : Z) (data out : list Z) : outcome (list Z) :=
  if (32 <=? length data)%nat then dump_data_avx2 w uppercase addr data out
  else dump_data_generic uppercase data out.

(** * Selection of the routine *)

Inductive dump_routine : Type := generic | ssse3 | ssse3_slow_pshufb | avx2.

Section selection.
(** The instruction [cpuid] for a function number: EAX, EBX, ECX and EDX; the
    register that [xgetbv] reads; whether AVX2 is enabled in the build. *)
Context (cpuid : Z → Z * Z * Z * Z) (xgetbv : Z) (use_avx2 : bool).

(** The part of [function_pointer_initializer] for AVX2: [r] is what was
    selected before, [ecx] what function 1 returned. *)
Definition select_avx2 (max_cpuid_function ecx : Z) (r : dump_routine) : dump_routine :=
  if use_avx2 && (7 <=? max_cpuid_function) && negb (Z.land ecx (Z.shiftl 1 27) =? 0)
     && (Z.land xgetbv 6 =? 6)
  then
    let '(_, ebx, _, _) := cpuid 7 in
    if negb (Z.land ebx (Z.shiftl 1 5) =? 0) then avx2 else r
  else r.

(** [function_pointer_initializer]. *)
Definition select_routine : dump_routine :=
  let '(eax, ebx, ecx, edx) := cpuid 0 in
  let max_cpuid_function := eax in
  let cpu_vendor := (ebx, edx, ecx) in
  if 1 <=? max_cpuid_function then
    let '(eax, _, ecx, _) := cpuid 1 in
    select_avx2 max_cpuid_function ecx
      (if negb (Z.land ecx (Z.shiftl 1 9) =? 0) then
         let family := Z.land (Z.shiftr eax 8) 15 + Z.land (Z.shiftr eax 20) 255 in
         let model := Z.lor (Z.land (Z.shiftr eax 4) 15) (Z.land (Z.shiftr eax 12) 240) in
         if bool_decide (cpu_vendor = (1970169159, 1231384169, 1818588270)) && (family =? 6) &&
            ((model =? 28) || (model =? 38) || (model =? 39) || (model =? 53) || (model =? 54))
         then ssse3_slow_pshufb
         else ssse3
       else generic)
  else generic.
End selection.

(** [dump_data] through the pointer that was selected. *)
Definition dump_data (r : dump_routine) (w : char_size) (uppercase : bool) (addr : Z) (data out : list Z)
    : outcome (list Z) :=
  match r with
  | generic => dump_data_generic uppercase data out
  | ssse3 => dump_data_char_ssse3 w uppercase addr data out
  | ssse3_slow_pshufb => dump_data_char_ssse3_slow_pshufb w uppercase addr data out
  | avx2 => dump_data_char_avx2 w uppercase addr data out
  end.

(** * Manipulators *)

Section manipulators.
(** The routine, the state of the stream, and how it prints a number. *)
Context (dump_data : list Z → list Z → outcome (list Z)) (good : bool) (print_number : Z → list Z).

(** [operator<< (strm, dump_manip)]. *)
Definition output_dump (data out : list Z) : outcome (list Z) :=
  if good then dump_data data out else Ok out.

(** [operator<< (strm, bounded_dump_manip)]. *)
Definition output_bounded_dump (data : list Z) (max_size : nat) (out : list Z) : outcome (list Z) :=
  if good then
    let sz := length data in
    if (sz <=? max_size)%nat then dump_data data out
    else
      let* out := dump_data (take max_size data) out in
      Ok (out ++ (code <$> str_lit " and ") ++ print_number (Z.of_nat (sz - max_size)) ++
          (code <$> str_lit " bytes more"))
  else Ok out.
End manipulators.

(** * The AVX2 routine writes the reference *)

Lemma store_characters_avx2_id w (v : list Z) : length v = 16%nat → store_characters_avx2 w v = v.
Proof. intros Hl. destruct w; [done|..]; destruct_xmm v Hl; cbn -[Z.mul Z.add]; repeat f_equal; lia. Qed.

(** Two registers of sixteen bytes side by side. *)
Lemma in_lanes_app f (a1 a2 b1 b2 : list Z) : length a1 = 16%nat → length b1 = 16%nat →
  in_lanes f (a1 ++ a2) (b1 ++ b2) = f a1 b1 ++ f a2 b2.
Proof. intros Ha Hb. unfold in_lanes. by rewrite <- Ha, take_app_length, drop_app_length, Ha, <- Hb, take_app_length, drop_app_length. Qed.

Lemma srli_app (a1 a2 : list Z) n : length a1 = 16%nat → _mm_srli_epi16 (a1 ++ a2) n = _mm_srli_epi16 a1 n ++ _mm_srli_epi16 a2 n.
Proof. intros Hl. by destruct_xmm a1 Hl. Qed.

Lemma length_srli (a : list Z) n : length a = 16%nat → length (_mm_srli_epi16 a n) = 16%nat.
Proof. intros Hl. by destruct_xmm a Hl. Qed.

Lemma length_shuffle (a sel : list Z) : length (_mm_shuffle_epi8 a sel) = length sel.
Proof. apply length_fmap. Qed.

Lemma length_zip16 (g : Z → Z → Z) (a b : list Z) : length a = 16%nat → length b = 16%nat → length (zip_with g a b) = 16%nat.
Proof. intros Ha Hb. rewrite length_zip_with. lia. Qed.

Lemma length_unpack (a b : list Z) : length a = 16%nat → length b = 16%nat →
  length (_mm_unpacklo_epi8 a b) = 16%nat ∧ length (_mm_unpackhi_epi8 a b) = 16%nat ∧
  ∀ n, (n ≤ 16)%nat → length (_mm_alignr_epi8 a b n) = 16%nat.
Proof.
  intros Ha Hb. split; [by destruct_xmm a Ha; destruct_xmm b Hb|].
  split; [by destruct_xmm a Ha; destruct_xmm b Hb|]. intros n Hn. unfold _mm_alignr_epi8.
  rewrite length_take, length_drop, length_app. lia.
Qed.

(** The rest of the wide [dump_pack], behind the digits. *)
Lemma join_digits_halves (h1 h2 l1 l2 : list Z) :
  length h1 = 16%nat → length h2 = 16%nat → length l1 = 16%nat → length l2 = 16%nat →
  (let mm_1 := _mm256_unpacklo_epi8 (h1 ++ h2) (l1 ++ l2) in
   let mm_2 := _mm256_unpackhi_epi8 (h1 ++ h2) (l1 ++ l2) in
   (_mm256_max_epu8 (_mm256_shuffle_epi8 mm_1 mm256_shuffle_pattern1) mm256_char_space,
    _mm256_max_epu8 (_mm256_shuffle_epi8 (_mm256_alignr_epi8 mm_2 mm_1 10) mm256_shuffle_pattern2) mm256_char_space,
    _mm256_max_epu8 (_mm256_shuffle_epi8 mm_2 mm256_shuffle_pattern3) mm256_char_space)) =
  (let '(a1, a2, a3) := join_digits h1 l1 in let '(b1, b2, b3) := join_digits h2 l2 in (a1 ++ b1, a2 ++ b2, a3 ++ b3)).
Proof.
  intros H1 H2 L1 L2. cbn zeta. unfold _mm256_unpacklo_epi8, _mm256_unpackhi_epi8, _mm256_shuffle_epi8, _mm256_alignr_epi8.
  rewrite !(in_lanes_app _ h1 h2 l1 l2) by done.
  destruct (length_unpack h1 l1 H1 L1) as (E1 & E2 & _).
  rewrite (in_lanes_app (λ a b, _mm_alignr_epi8 a b 10)) by done.
  destruct (length_unpack _ _ E2 E1) as (_ & _ & E3). specialize (E3 10%nat ltac:(lia)).
  change mm256_shuffle_pattern1 with (mm_shuffle_pattern1 ++ mm_shuffle_pattern1).
  change mm256_shuffle_pattern2 with (mm_shuffle_pattern2 ++ mm_shuffle_pattern2).
  change mm256_shuffle_pattern3 with (mm_shuffle_pattern3 ++ mm_shuffle_pattern3).
  change mm256_char_space with (mm_char_space ++ mm_char_space).
  rewrite !(in_lanes_app _mm_shuffle_epi8) by done. unfold _mm256_max_epu8.
  by rewrite !zip_with_app by (by rewrite length_shuffle).
Qed.

(** The wide [dump_pack] is the one for XMM registers on both halves. *)
Lemma dump_pack_avx2_halves (t v1 v2 : list Z) : length t = 16%nat → length v1 = 16%nat → length v2 = 16%nat →
  dump_pack_avx2 (_mm256_broadcastsi128_si256 t) (v1 ++ v2) =
    (let '(a1, a2, a3) := dump_pack t v1 in let '(b1, b2, b3) := dump_pack t v2 in (a1 ++ b1, a2 ++ b2, a3 ++ b3)).
Proof.
  intros Ht H1 H2. unfold dump_pack_avx2. unfold _mm256_and_si256, _mm256_srli_epi16, _mm256_broadcastsi128_si256.
  rewrite srli_app by done. change mm256_15 with (mm_15 ++ mm_15).
  rewrite !zip_with_app by (rewrite ?length_srli by done; done).
  assert (∀ a b : list Z, length a = 16%nat → _mm256_shuffle_epi8 (t ++ t) (a ++ b) = _mm_shuffle_epi8 t a ++ _mm_shuffle_epi8 t b)
    as Hs by (intros a b Ha; by apply in_lanes_app).
  rewrite !Hs by (apply length_zip16; [by rewrite ?length_srli|done]).
  apply join_digits_halves; rewrite length_shuffle; (apply length_zip16; [by rewrite ?length_srli|done]).
Qed.

Lemma store_half_pack_text w u (v : list Z) : length v = 16%nat → Forall byte v →
  store_half_pack_avx2 (_mm256_broadcastsi128_si256 (hex_char_table u)) w v = text u v.
Proof.
  intros Hl Hv. unfold store_half_pack_avx2.
  assert (_mm256_castsi256_si128 (_mm256_broadcastsi128_si256 (hex_char_table u)) = hex_char_table u) as -> by (by destruct u).
  pose proof (dump_pack_ok u v Hl Hv) as H. destruct (dump_pack _ v) as [[o1 o2] o3].
  destruct H as (<- & ? & ? & ?). by rewrite !store_characters_avx2_id.
Qed.

Lemma store_pack_avx2_text w u (v : list Z) : length v = 32%nat → Forall byte v →
  store_pack_avx2 (_mm256_broadcastsi128_si256 (hex_char_table u)) w v = text u v.
Proof.
  intros Hl Hv. rewrite <- (take_drop 16 v) in Hv |- *. apply Forall_app in Hv as [Hv1 Hv2].
  assert (length (take 16 v) = 16%nat) as H1 by (rewrite length_take; lia).
  assert (length (drop 16 v) = 16%nat) as H2 by (rewrite length_drop; lia).
  generalize dependent (take 16 v). generalize dependent (drop 16 v). clear v Hl. intros v2 Hv2 H2 v1 Hv1 H1.
  unfold store_pack_avx2. rewrite dump_pack_avx2_halves by (done || by destruct u).
  pose proof (dump_pack_ok u v1 H1 Hv1) as P1. pose proof (dump_pack_ok u v2 H2 Hv2) as P2.
  destruct (dump_pack _ v1) as [[a1 a2] a3]. destruct (dump_pack _ v2) as [[b1 b2] b3].
  destruct P1 as (E1 & A1 & A2 & A3). destruct P2 as (E2 & B1 & B2 & B3).
  rewrite dump_text_app, <- E1, <- E2. unfold store_characters_x3, _mm256_castsi256_si128, _mm256_extracti128_si256_1.
  rewrite !take_app_le, !drop_app_ge by lia. rewrite A1, A2, A3, !take_ge by lia. cbn [Nat.sub]. rewrite !drop_0.
  rewrite !store_characters_avx2_id by done. by rewrite <- !app_assoc.
Qed.

Lemma avx2_text w u addr data out :
  Forall byte data → dump_data_char_avx2 w u addr data out = Ok (out ++ hex_dump u data).
Proof.
  intros Hd. unfold dump_data_char_avx2. destruct (32 <=? length data)%nat eqn:E; to_prop; [|by apply generic_text].
  unfold dump_data_avx2. set (k := if (length data =? 32)%nat then 32 else _).
  destruct (prealign 5 addr ltac:(lia)) as [Hk Ha]. change (2 ^ 5) with 32 in *. change (Z.ones 5) with 31 in *.
  assert (0 ≤ k ≤ 32) as Hk' by (unfold k; destruct (length data =? 32)%nat; lia).
  rewrite (put_unaligned_text u 32) by (done || lia || by apply store_pack_avx2_text). cbn [obind].
  destruct (length data =? 32)%nat eqn:El; to_prop; subst k.
  - rewrite (drop_ge data), (take_ge data) by lia. cbn. done.
  - rewrite (strides_tail_text u (store_half_pack_avx2 _ w)); [by rewrite take_drop|..].
    + intros v. apply store_half_pack_text.
    + lia.
    + intros v. apply store_pack_avx2_text.
    + by exists 2.
    + by apply bytes_drop.
    + done.
Qed.

Lemma dump_data_text r w u addr data out :
  Forall byte data → dump_data r w u addr data out = Ok (out ++ hex_dump u data).
Proof.
  intros Hd. destruct r; [by apply generic_text|by apply ssse3_text|by apply ssse3_slow_pshufb_text|by apply avx2_text].
Qed.

(** * Theorems *)

(** C17: the routine chosen for the processor, generic, SSSE3 or AVX2, for characters
    of any width and data of any length and alignment, writes the digits of the
    bytes separated by spaces, as the generic routine does; it reads no byte
    outside of the data and loads no pack from an unaligned address with an
    instruction that requires alignment. *)
Theorem dump_routines_equivalent (cpuid : Z → Z * Z * Z * Z) (xgetbv : Z) (use_avx2 : bool) (w : char_size) (u : bool)
    (addr : Z) (data out : list Z) :
  Forall byte data →
  dump_data (select_routine cpuid xgetbv use_avx2) w u addr data out = Ok (out ++ hex_dump u data) ∧
  dump_data_generic u data out = Ok (out ++ hex_dump u data).
Proof. intros Hd. split; [by apply dump_data_text|by apply generic_text]. Qed.

(** The digits of a byte can be read back. *)
Definition undigit (u : bool) (c : Z) : Z :=
  if c <? 58 then c - 48 else c - (if u then 55 else 87).

(** A dump read back: two digits, a space, and so on. *)
Fixpoint undump (u : bool) (s : list Z) : list Z :=
  match s with
  | hi :: lo :: s =>
      (undigit u hi * 16 + undigit u lo) :: match s with _ :: s => undump u s | [] => [] end
  | _ => []
  end.

Lemma undigit_digit u n : 0 ≤ n < 16 → undigit u (digit u n) = n.
Proof.
  intros Hn. rewrite digit_lookup by done. unfold undigit. destruct (n <? 10) eqn:E; to_prop.
  - destruct (48 + n <? 58) eqn:E2; to_prop; lia.
  - destruct ((if u then 55 else 87) + n <? 58) eqn:E2; to_prop; destruct u; lia.
Qed.

Lemma undump_text u data : Forall byte data → undump u (hex_dump u data) = data.
Proof.
  intros Hd. unfold hex_dump, text. induction Hd as [|b data Hb Hd IH]; [done|].
  destruct (byte_nibbles b Hb) as [H1 H2]. cbn -[Z.div Z.modulo]. cbn [fmap] in IH.
  rewrite !undigit_digit by done. f_equal.
  - pose proof (Z.div_mod b 16 ltac:(lia)). lia.
  - destruct data as [|b' data]; [done|]. cbn -[Z.div Z.modulo undump] in IH |- *. exact IH.
Qed.

(** A bounded dump shows the first bytes of the data, at most as many as
    requested, so that they can be read back, and the number of bytes left out
    when there are any. *)
Theorem bounded_dump_correct (r : dump_routine) (w : char_size) (u : bool) (addr : Z)
    (print_number : Z → list Z) (data : list Z) (max_size : nat) :
  Forall byte data →
  ∃ shown rest, output_bounded_dump (dump_data r w u addr) true print_number data max_size [] = Ok (shown ++ rest) ∧
    undump u shown = take max_size data ∧
    rest = (if (length data <=? max_size)%nat then []
            else (code <$> str_lit " and ") ++ print_number (Z.of_nat (length data - max_size)) ++
                 (code <$> str_lit " bytes more")).
Proof.
  intros Hd. exists (hex_dump u (take max_size data)). unfold output_bounded_dump.
  destruct (length data <=? max_size)%nat eqn:E; to_prop; eexists; (split_and!; [|by apply undump_text, bytes_take|reflexivity]).
  - rewrite dump_data_text, take_ge by (done || lia). by rewrite app_nil_r.
  - rewrite dump_data_text by (by apply bytes_take). done.
Qed.

(** Twenty bytes at an odd address. *)
Module sample_dump.
Definition data : list Z := [0; 1; 2; 3; 4; 5; 6; 7; 8; 9; 10; 11; 12; 13; 14; 15; 16; 127; 171; 255].
Definition atom : Z → Z * Z * Z * Z := λ f,
  if f =? 0 then (10, 1970169159, 1818588270, 1231384169) else (67266, 0, 512, 0).

Lemma data_bytes : Forall byte data.
Proof. unfold data, byte. repeat constructor; cbv; congruence. Qed.

(** An old Intel Atom: the slow routine is selected. *)
Lemma dump_routines_equivalent_witness :
  dump_data (select_routine atom 7 true) size2 false 5 data [] =
    Ok (code <$> str_lit "00 01 02 03 04 05 06 07 08 09 0a 0b 0c 0d 0e 0f 10 7f ab ff").
Proof. apply (dump_routines_equivalent atom 7 true size2 false 5 data [] data_bytes). Defined.

Lemma bounded_dump_correct_witness :
  ∃ shown rest, output_bounded_dump (dump_data ssse3 size1 true 0) true (λ n, code <$> dec n) data 2 [] = Ok (shown ++ rest) ∧
    undump true shown = [0; 1].
Proof.
  destruct (bounded_dump_correct ssse3 size1 true 0 (λ n, code <$> dec n) data 2 data_bytes) as (s & r & H1 & H2 & _).
  exists s, r. split; [exact H1|exact H2].
Defined.

(** A processor with AVX2. *)
Definition haswell : Z → Z * Z * Z * Z := λ f,
  if f =? 0 then (13, 1970169159, 1818588270, 1231384169)
  else if f =? 7 then (0, 32, 0, 0) else (198339, 0, 134218240, 0).

Lemma haswell_is_wide : select_routine haswell 7 true = avx2 ∧ select_routine haswell 1 true = ssse3.
Proof. by vm_compute. Qed.

Lemma atom_is_slow : select_routine atom 7 true = ssse3_slow_pshufb.
Proof. vm_compute. reflexivity. Qed.
End sample_dump.
