(* ===== verification/ScopeFormat.v ===== *)
(** Formatting of named scopes (src/src/named_scope_format_parser.cpp): the
    extraction of function names from the signatures compilers generate, and
    the parser of scope formats such as "%C (%F:%l)".

    A pointer into a signature is its position; reading at a position outside
    of the string is undefined behaviour. *)

From Stdlib Require Import ZArith Ascii String.
From stdpp Require Import base numbers list.
From S2P Require Import Prelude Decimal.

Definition ch (x c : ascii) : bool := bool_decide (x = c).

(** [c >= lo && c <= hi]. *)
Definition in_range (lo hi c : ascii) : bool :=
  (nat_of_ascii lo <=? nat_of_ascii c) && (nat_of_ascii c <=? nat_of_ascii hi).

Definition is_name_character (c : ascii) : bool :=
  in_range "0" "9" c || in_range "A" "Z" c || ch c "_" || in_range "a" "z" c.

Section signature.
(** The string the pointers point into. *)
Context (s : str).

Definition rd (p : nat) : outcome ascii := of_ptr (s !! p).

(** A loop that advances [p] while the test holds; the bound is the distance to
    [end]. *)
Fixpoint skip_while (test : ascii → bool) (fuel p end_ : nat) : outcome nat :=
  if p <? end_ then
    let* c := rd p in
    if test c then
      match fuel with
      | O => Stuck
      | S fuel => skip_while test fuel (S p) end_
      end
    else Ok p
  else Ok p.

Definition skip_spaces (p end_ : nat) : outcome nat := skip_while (λ c, ch c " ") (end_ - p) p end_.

(** [memcmp(p, "operator", 8) == 0]. *)
Definition is_operator_keyword (p : nat) : outcome bool :=
  if length s <? p + 8 then Stuck else Ok (bool_decide (take 8 (drop p s) = str_lit "operator")).

(** The operator is a bracket and, possibly after spaces, the closing one. *)
Definition detect_brackets (close : ascii) (p end_ : nat) : outcome (option nat) :=
  let* p := skip_spaces (S p) end_ in
  if p <? end_ then
    let* c := rd p in
    Ok (if ch c close then Some (S p) else None)
  else Ok None.

(** Operators that may be doubled or followed by '='. *)
Definition detect_doubled (p end_ : nat) : outcome (option nat) :=
  if 2 <=? end_ - p then
    let* c0 := rd p in let* c1 := rd (S p) in
    Ok (Some (if ch c0 c1 || ch c1 "=" then p + 2 else p + 1))
  else Ok (Some (p + 1)).

(** [operator<], [operator<<=] and the like. *)
Definition detect_comparison (p end_ : nat) : outcome (option nat) :=
  let* shift_assign := (if 3 <=? end_ - p then
      let* c0 := rd p in let* c1 := rd (S p) in
      if ch c0 c1 then let* c2 := rd (S (S p)) in Ok (ch c2 "=") else Ok false
    else Ok false) in
  if shift_assign : bool then Ok (Some (p + 3)) else detect_doubled p end_.

(** [operator->], [operator->*], or the operators with a single '-'. *)
Definition detect_minus (p end_ : nat) : outcome (option nat) :=
  let* arrow := (if 2 <=? end_ - p then let* c1 := rd (S p) in Ok (ch c1 ">") else Ok false) in
  if arrow : bool then
    if 3 <=? end_ - p then let* c2 := rd (S (S p)) in Ok (Some (if ch c2 "*" then p + 3 else p + 2))
    else Ok (Some (p + 2))
  else detect_doubled p end_.

Definition detect_assignable (p end_ : nat) : outcome (option nat) :=
  if 2 <=? end_ - p then
    let* c1 := rd (S p) in Ok (Some (if ch c1 "=" then p + 2 else p + 1))
  else Ok (Some (p + 1)).

(** A literal operator with its suffix. *)
Definition detect_literal (p end_ : nat) : outcome (option nat) :=
  if 2 <=? end_ - p then
    let* c0 := rd p in let* c1 := rd (S p) in
    if ch c0 c1 then
      let* p := skip_spaces (p + 2) end_ in
      let* p := skip_while is_name_character (end_ - p) p end_ in
      Ok (Some p)
    else Ok None
  else Ok None.

(** [detect_operator]: the end of the operator at [kw], if there is one. *)
Definition detect_operator (begin_ end_ kw : nat) : outcome (option nat) :=
  if end_ - kw <? 9 then Ok None else
  let* is_kw := is_operator_keyword kw in
  if negb is_kw then Ok None else
  let* tail_of_name := (if begin_ <? kw then let* c := rd (kw - 1) in Ok (is_name_character c) else Ok false) in
  if tail_of_name : bool then Ok None else
  let* p := skip_spaces (kw + 8) end_ in
  if p =? end_ then Ok None else
  let* c := rd p in
  if ch c "(" then detect_brackets ")" p end_
  else if ch c "[" then detect_brackets "]" p end_
  else if ch c ">" || ch c "<" then detect_comparison p end_
  else if ch c "-" then detect_minus p end_
  else if ch c "=" || ch c "|" || ch c "&" || ch c "+" then detect_doubled p end_
  else if ch c "*" || ch c "/" || ch c "%" || ch c "^" then detect_assignable p end_
  else if ch c "," || ch c "~" || ch c "!" then Ok (Some (p + 1))
  else if ch c (ascii_of_nat 34) then detect_literal p end_
  else Ok (Some p).

(** [skip_template_parameters]; the depth counts brackets. *)
Fixpoint skip_template_loop (fuel : nat) (begin_ end_ depth p : nat) : outcome nat :=
  match depth with
  | O => Ok p
  | S depth' =>
      if p =? end_ then Ok p else
      match fuel with
      | O => Stuck
      | S fuel =>
          let* c := rd p in
          if ch c ">" then skip_template_loop fuel begin_ end_ depth' (S p)
          else if ch c "<" then skip_template_loop fuel begin_ end_ (S depth) (S p)
          else if ch c "o" then
            let* op := detect_operator begin_ end_ p in
            match op with
            | Some q => skip_template_loop fuel begin_ end_ depth q
            | None => skip_template_loop fuel begin_ end_ depth (S p)
            end
          else skip_template_loop fuel begin_ end_ depth (S p)
      end
  end.

Definition skip_template_parameters (begin_ end_ : nat) : outcome nat :=
  skip_template_loop (end_ - begin_) begin_ end_ 1 begin_.

(** [sequence_state]. *)
Inductive sequence_state : Type := not_started | started | continued | ended | operator_detected.

#[local] Instance sequence_state_eq_dec : EqDecision sequence_state.
Proof. solve_decision. Defined.

(** The search for the opening parenthesis: the position of it (or [end]) with
    [first_name_begin] and [last_name_begin]. *)
Record opening_search := Search {
  s_state : sequence_state;
  first_name_begin : option nat;
  last_name_begin : option nat }.

Definition set_state st r := Search st (first_name_begin r) (last_name_begin r).

(** Unless an operator was detected. *)
Definition set_name_state st r :=
  match s_state r with operator_detected => r | _ => set_state st r end.

(** A character that is not treated specially. *)
Definition scan_character (c : ascii) (p : nat) (r : opening_search) : opening_search :=
  match s_state r with
  | operator_detected => r
  | st =>
      if is_name_character c || ch c "~" then
        match st with
        | started => r
        | not_started | ended => Search started (Some p) (Some p)
        | _ => Search started (first_name_begin r) (Some p)
        end
      else set_state ended r
  end.

Definition begin_operator (p : nat) (r : opening_search) : opening_search :=
  Search operator_detected
    (match s_state r with not_started | ended => Some p | _ => first_name_begin r end) (Some p).

Definition scan_scope (p : nat) (r : opening_search) : opening_search :=
  let r := match s_state r with
           | not_started => Search not_started (Some p) (last_name_begin r)
           | _ => r
           end in
  set_name_state continued r.

Fixpoint opening_loop (fuel begin_ end_ p : nat) (r : opening_search) : outcome (nat * opening_search) :=
  if p =? end_ then Ok (p, r) else
  match fuel with
  | O => Stuck
  | S fuel =>
      let* c := rd p in
      if ch c "(" then Ok (if decide (s_state r = not_started) then end_ else p, r)
      else if ch c "<" then
        if decide (s_state r = not_started) then Ok (end_, r) else
        let* q := skip_template_parameters (S p) end_ in
        opening_loop fuel begin_ end_ q (set_name_state ended r)
      else if ch c " " then
        opening_loop fuel begin_ end_ (S p) (match s_state r with started => set_state ended r | _ => r end)
      else if ch c ":" then
        let* scope := (if S p =? end_ then Ok false else let* c1 := rd (S p) in Ok (ch c1 ":")) in
        if scope : bool then opening_loop fuel begin_ end_ (S (S p)) (scan_scope p r)
        else opening_loop fuel begin_ end_ (S p) (set_name_state ended r)
      else
        let* op := (if ch c "o" then detect_operator begin_ end_ p else Ok None) in
        match op with
        | Some q => opening_loop fuel begin_ end_ q (begin_operator p r)
        | None => opening_loop fuel begin_ end_ (S p) (scan_character c p r)
        end
  end.

Definition find_opening_parenthesis (begin_ end_ : nat) : outcome (nat * opening_search) :=
  opening_loop (end_ - begin_) begin_ end_ begin_ (Search not_started None None).

(** The search for the closing parenthesis, with the first character that is
    not a space. *)
Fixpoint closing_loop (fuel begin_ end_ depth p : nat) (first_char : option ascii)
    : outcome (nat * option ascii) :=
  if p =? end_ then Ok (p, first_char) else
  match fuel with
  | O => Stuck
  | S fuel =>
      let* c := rd p in
      if ch c ")" then
        if depth =? 1 then Ok (p, first_char) else closing_loop fuel begin_ end_ (depth - 1) (S p) first_char
      else if ch c "(" then closing_loop fuel begin_ end_ (S depth) (S p) first_char
      else if ch c "<" then
        let* q := skip_template_parameters (S p) end_ in
        closing_loop fuel begin_ end_ depth q first_char
      else
        let* op := (if ch c "o" then detect_operator begin_ end_ p else Ok None) in
        match op with
        | Some q => closing_loop fuel begin_ end_ depth q first_char
        | None =>
            let first_char := match first_char with
                              | None => if ch c " " then None else Some c
                              | Some _ => first_char
                              end in
            closing_loop fuel begin_ end_ depth (S p) first_char
        end
  end.

Definition find_closing_parenthesis (begin_ end_ : nat) : outcome (nat * option ascii) :=
  closing_loop (end_ - begin_) begin_ end_ 1 begin_ None.

(** [parse_function_name]: the range of the name; the search is repeated within
    the parentheses of a function or array return type. *)
Fixpoint function_name_loop (fuel : nat) (include_scope : bool) (b e : nat) : outcome (option (nat * nat)) :=
  if b =? e then Ok None else
  match fuel with
  | O => Stuck
  | S fuel =>
      let* (paren_open, r) := find_opening_parenthesis b e in
      if paren_open =? e then Ok None else
      let* (paren_close, first_char) := find_closing_parenthesis (S paren_open) e in
      if paren_close =? e then Ok None else
      let* p := skip_spaces (S paren_close) e in
      let* return_type := (if p <? e then
          let* c := rd p in
          Ok (ch c "(" || (ch c "[" && bool_decide (first_char = Some "&"%char)))
        else Ok false) in
      if return_type : bool then function_name_loop fuel include_scope (S paren_open) paren_close
      else
        Ok (match (if include_scope then first_name_begin r else last_name_begin r) with
            | Some n => Some (n, paren_open)
            | None => None
            end)
  end.

Definition parse_function_name (include_scope : bool) : outcome (option (nat * nat)) :=
  function_name_loop (length s) include_scope 0 (length s).

(** * Safety *)

(** A computation returns a value that satisfies [P]. *)
Definition returns {X} (P : X → Prop) (m : outcome X) : Prop := ∃ x, m = Ok x ∧ P x.

Lemma returns_bind {X Y} (P : X → Prop) (Q : Y → Prop) (m : outcome X) (k : X → outcome Y) :
  returns P m → (∀ x, P x → returns Q (k x)) → returns Q (obind m k).
Proof. intros (x & -> & Hx) Hk. by apply Hk. Qed.

Lemma returns_ok {X} (P : X → Prop) x : P x → returns P (Ok x).
Proof. intros H. by exists x. Qed.

Lemma returns_weaken {X} (P Q : X → Prop) m : returns P m → (∀ x, P x → Q x) → returns Q m.
Proof. intros (x & Hx & HP) HQ. exists x. auto. Qed.

Lemma rd_returns p : p < length s → returns (λ c, s !! p = Some c) (rd p).
Proof. intros [c Hc]%lookup_lt_is_Some_2. exists c. unfold rd. by rewrite Hc. Qed.

(** Reads a character, then goes on. *)
Ltac read := eapply returns_bind; [apply rd_returns; lia|]; intros ?c ?Hc; cbn beta.

Lemma skip_while_range test fuel p end_ :
  p ≤ end_ → end_ ≤ length s → end_ - p ≤ fuel →
  returns (λ q, p ≤ q ≤ end_ ∧ ∀ i, p ≤ i < q → ∃ c, s !! i = Some c ∧ test c = true) (skip_while test fuel p end_).
Proof.
  revert p. induction fuel as [|fuel IH]; intros p H1 H2 H3; cbn [skip_while]; destruct (p <? end_) eqn:E; to_prop.
  all: try (apply returns_ok; split; [lia|]; intros; lia).
  - lia.
  - read. destruct (test c) eqn:Et; [|apply returns_ok; split; [lia|]; intros; lia].
    eapply returns_weaken; [apply IH; lia|]. cbn. intros q [Hq Hall]. split; [lia|]. intros i Hi.
    destruct (decide (i = p)) as [->|]; [by exists c|apply Hall; lia].
Qed.

Lemma skip_spaces_range p end_ :
  p ≤ end_ → end_ ≤ length s → returns (λ q, p ≤ q ≤ end_) (skip_spaces p end_).
Proof.
  intros H1 H2. eapply returns_weaken; [by apply skip_while_range|]. cbn. tauto.
Qed.

(** The end of an operator is behind its keyword and not behind [end]. *)
Definition ends_in (lo hi : nat) (r : option nat) : Prop :=
  match r with Some q => lo ≤ q ≤ hi | None => True end.

Lemma detect_operator_range begin_ end_ kw :
  kw ≤ end_ → end_ ≤ length s → returns (ends_in (kw + 8) end_) (detect_operator begin_ end_ kw).
Proof.
  intros H1 H2. unfold detect_operator. destruct (end_ - kw <? 9) eqn:E; to_prop; [by apply returns_ok|].
  unfold is_operator_keyword. destruct (length s <? kw + 8) eqn:E1; to_prop; [lia|]. cbn [obind].
  case_match; [by apply returns_ok|].
  eapply (returns_bind (λ _, True)).
  { destruct (begin_ <? kw) eqn:Eb; to_prop; [|by apply returns_ok]. read. by apply returns_ok. }
  intros tail _. destruct tail; [by apply returns_ok|].
  eapply returns_bind; [apply skip_spaces_range; lia|]. intros p Hp. cbn beta in *.
  destruct (p =? end_) eqn:Ep; to_prop; [by apply returns_ok|]. read.
  unfold detect_brackets, detect_comparison, detect_minus, detect_assignable, detect_literal, detect_doubled.
  repeat match goal with
  | |- returns _ (if ?b then _ else _) => destruct b eqn:?; to_prop
  | |- returns _ (obind (rd _) _) => read
  | |- returns _ (obind (skip_spaces _ _) _) => eapply returns_bind; [apply skip_spaces_range; lia|]; intros ?q ?Hq; cbn beta in *
  | |- returns _ (obind (skip_while _ _ _ _) _) =>
      eapply returns_bind; [apply skip_while_range; lia|]; intros ?q [?Hq _]; cbn beta in *
  | |- returns _ (obind (if ?b then _ else _) _) => destruct b eqn:?; to_prop
  | |- returns _ (obind (Ok _) _) => cbn [obind]
  | |- returns _ (obind (obind _ _) _) => eapply (returns_bind (λ _, True))
  | |- returns _ (Ok _) => apply returns_ok; cbn; repeat case_match; cbn; try done; lia
  | |- ∀ _, _ → _ => intros ? _
  end.
Qed.

Lemma skip_template_range fuel begin_ end_ depth p :
  p ≤ end_ → end_ ≤ length s → end_ - p ≤ fuel →
  returns (λ q, p ≤ q ≤ end_) (skip_template_loop fuel begin_ end_ depth p).
Proof.
  revert depth p. induction fuel as [|fuel IH]; intros depth p H1 H2 H3;
    (destruct depth as [|depth]; cbn [skip_template_loop]; [apply returns_ok; lia|]);
    (destruct (p =? end_) eqn:Ep; to_prop; [apply returns_ok; lia|]); [lia|].
  read. assert (∀ d q, p < q → q ≤ end_ →
    returns (λ q, p ≤ q ≤ end_) (skip_template_loop fuel begin_ end_ d q)) as Hnext.
  { intros d q ? ?. eapply returns_weaken; [apply IH; lia|]. cbn. lia. }
  destruct (ch c ">"); [apply Hnext; lia|]. destruct (ch c "<"); [apply Hnext; lia|].
  destruct (ch c "o"); [|apply Hnext; lia].
  eapply returns_bind; [by apply (detect_operator_range begin_ end_ p)|]. intros [q|] Hq; cbn in Hq; apply Hnext; lia.
Qed.

Lemma skip_template_parameters_range p end_ :
  p ≤ end_ → end_ ≤ length s → returns (λ q, p ≤ q ≤ end_) (skip_template_parameters p end_).
Proof. intros. by apply skip_template_range. Qed.

(** A character a function name may begin with. *)
Definition name_start (n : nat) : Prop :=
  ∃ c, s !! n = Some c ∧ (is_name_character c || ch c "~" || ch c ":") = true.

(** The names found up to [p] begin at plausible positions from [b] on. *)
Definition search_ok (b p : nat) (r : opening_search) : Prop :=
  ∀ n, first_name_begin r = Some n ∨ last_name_begin r = Some n → b ≤ n < p ∧ name_start n.

Lemma search_ok_weaken b p q r : search_ok b p r → p ≤ q → search_ok b q r.
Proof. intros H Hpq n Hn. destruct (H n Hn). split; [lia|done]. Qed.

Lemma set_state_ok b p st r : search_ok b p r → search_ok b p (set_state st r).
Proof. done. Qed.

Lemma set_name_state_ok b p st r : search_ok b p r → search_ok b p (set_name_state st r).
Proof. unfold set_name_state. by case_match. Qed.

(** A position that may be recorded. *)
Lemma search_ok_new b p q r st f l :
  search_ok b p r → b ≤ p → p < q → name_start p →
  (f = first_name_begin r ∨ f = Some p) → (l = last_name_begin r ∨ l = Some p) → search_ok b q (Search st f l).
Proof.
  intros H Hb Hpq Hp Hf Hl n [Hn|Hn]; cbn in Hn.
  - destruct Hf as [-> | ->]; [destruct (H n ltac:(by left)); split; [lia|done]|simplify_eq; split; [lia|done]].
  - destruct Hl as [-> | ->]; [destruct (H n ltac:(by right)); split; [lia|done]|simplify_eq; split; [lia|done]].
Qed.

Lemma scan_character_ok b c p r :
  search_ok b p r → b ≤ p → s !! p = Some c → search_ok b (S p) (scan_character c p r).
Proof.
  intros H Hb Hc. unfold scan_character.
  assert (is_name_character c || ch c "~" = true → name_start p) as Hp.
  { intros Hn. exists c. split; [done|]. by rewrite Hn. }
  destruct r as [st f l]. destruct st; cbn [s_state first_name_begin last_name_begin];
    try (by apply (search_ok_weaken b p); [|lia]);
    destruct (is_name_character c || ch c "~"); try (by apply (search_ok_weaken b p); [|lia]);
    (eapply search_ok_new; [exact H|done|lia|by apply Hp|auto|auto]).
Qed.

Lemma begin_operator_ok b p q r :
  search_ok b p r → b ≤ p → p < q → name_start p → search_ok b q (begin_operator p r).
Proof.
  intros. unfold begin_operator. eapply search_ok_new; [done..| |by right]. case_match; auto.
Qed.

Lemma scan_scope_ok b p q r :
  search_ok b p r → b ≤ p → p < q → s !! p = Some ":"%char → search_ok b q (scan_scope p r).
Proof.
  intros H Hb Hpq Hc. unfold scan_scope. apply set_name_state_ok.
  assert (name_start p) by (by exists ":"%char).
  case_match; try (apply (search_ok_weaken b p); [done|lia]).
  eapply search_ok_new; [exact H|done|done|done|by right|by left].
Qed.

(** The opening parenthesis, or [end]. *)
Definition opening_found (b p end_ : nat) (x : nat * opening_search) : Prop :=
  p ≤ x.1 ≤ end_ ∧ search_ok b x.1 x.2 ∧ (x.1 = end_ ∨ s !! x.1 = Some "("%char).

Lemma ch_true c d : ch c d = true → c = d.
Proof. apply bool_decide_eq_true. Qed.

Lemma opening_loop_range fuel b end_ p r :
  b ≤ p → p ≤ end_ → end_ ≤ length s → end_ - p ≤ fuel → search_ok b p r →
  returns (opening_found b p end_) (opening_loop fuel b end_ p r).
Proof.
  revert p r. induction fuel as [|fuel IH]; intros p r H0 H1 H2 H3 Hr; cbn [opening_loop];
    (destruct (p =? end_) eqn:Ep; to_prop; [subst; apply returns_ok; split; [cbn; lia|]; split; [done|by left]|]); [lia|].
  assert (∀ q r', p < q → q ≤ end_ → search_ok b q r' →
    returns (opening_found b p end_) (opening_loop fuel b end_ q r')) as Hnext.
  { intros q r' ? ? ?. eapply returns_weaken; [apply IH; [lia..|done]|]. intros x (? & ? & ?). split_and!; [lia|lia|done|done]. }
  read. destruct (ch c "(") eqn:E1.
  { apply ch_true in E1 as ->. apply returns_ok. case_decide; cbn.
    - split; cbn; [lia|]. split; [apply (search_ok_weaken b p); [done|lia]|by left].
    - split; cbn; [lia|]. split; [done|by right]. }
  destruct (ch c "<").
  { case_decide; [apply returns_ok; split; cbn; [lia|]; split; [apply (search_ok_weaken b p); [done|lia]|by left]|].
    eapply returns_bind; [apply skip_template_parameters_range; lia|]. intros q Hq. cbn beta in Hq.
    apply Hnext; [lia..|]. apply set_name_state_ok, (search_ok_weaken b p); [done|lia]. }
  destruct (ch c " ").
  { apply Hnext; [lia..|]. apply (search_ok_weaken b p); [|lia]. by case_match. }
  destruct (ch c ":") eqn:E4.
  { apply ch_true in E4 as ->. eapply (returns_bind (λ sc, sc = true → S (S p) ≤ end_)).
    { destruct (S p =? end_) eqn:Es; to_prop; [by apply returns_ok|]. read. apply returns_ok. lia. }
    intros [] Hs; [apply Hnext; [lia|by apply Hs|]; apply (scan_scope_ok b p); [done|done|lia|done]|].
    apply Hnext; [lia..|]. apply set_name_state_ok, (search_ok_weaken b p); [done|lia]. }
  eapply (returns_bind (λ op, match op with Some q => p + 8 ≤ q ≤ end_ ∧ c = "o"%char | None => True end)).
  { destruct (ch c "o") eqn:Eo; [|by apply returns_ok]. apply ch_true in Eo.
    eapply returns_weaken; [by apply (detect_operator_range b end_ p)|]. by intros []. }
  intros [q|] Hq; [|apply Hnext; [lia..|]; by apply scan_character_ok].
  destruct Hq as [Hq ->]. apply Hnext; [lia..|]. apply (begin_operator_ok b p); [done|done|lia|by exists "o"%char].
Qed.

Lemma closing_loop_range fuel b end_ depth p fc :
  p ≤ end_ → end_ ≤ length s → end_ - p ≤ fuel → 1 ≤ depth →
  returns (λ x, p ≤ x.1 ≤ end_) (closing_loop fuel b end_ depth p fc).
Proof.
  revert depth p fc. induction fuel as [|fuel IH]; intros depth p fc H1 H2 H3 Hd; cbn [closing_loop];
    (destruct (p =? end_) eqn:Ep; to_prop; [apply returns_ok; cbn; lia|]); [lia|].
  assert (∀ d q fc, p < q → q ≤ end_ → 1 ≤ d →
    returns (λ x, p ≤ x.1 ≤ end_) (closing_loop fuel b end_ d q fc)) as Hnext.
  { intros d q f ? ? ?. eapply returns_weaken; [by apply IH; lia|]. cbn. lia. }
  read. destruct (ch c ")").
  { destruct (depth =? 1) eqn:E; to_prop; [apply returns_ok; cbn; lia|apply Hnext; lia]. }
  destruct (ch c "("); [apply Hnext; lia|]. destruct (ch c "<").
  { eapply returns_bind; [apply skip_template_parameters_range; lia|]. intros q Hq. cbn beta in Hq. apply Hnext; lia. }
  eapply (returns_bind (ends_in (p + 8) end_)).
  { destruct (ch c "o"); [|by apply returns_ok]. by apply detect_operator_range. }
  intros [q|] Hq; cbn in Hq; apply Hnext; lia.
Qed.

(** The range of a name within [b, e). *)
Definition name_found (b e : nat) (r : option (nat * nat)) : Prop :=
  match r with
  | Some (n, m) => b ≤ n ∧ n < m ∧ m < e ∧ name_start n ∧ s !! m = Some "("%char
  | None => True
  end.

Lemma function_name_range fuel include_scope b e :
  b ≤ e → e ≤ length s → e - b ≤ fuel → returns (name_found b e) (function_name_loop fuel include_scope b e).
Proof.
  revert b e. induction fuel as [|fuel IH]; intros b e H1 H2 H3; cbn [function_name_loop];
    (destruct (b =? e) eqn:Eb; to_prop; [by apply returns_ok|]); [lia|].
  eapply returns_bind; [apply (opening_loop_range (e - b) b e b); [lia..|by intros n [?|?]]|].
  intros [o r] (Ho & Hr & Hp). cbn in Ho, Hr, Hp. cbn beta iota.
  destruct (o =? e) eqn:Eo; to_prop; [by apply returns_ok|]. destruct Hp as [?|Hp]; [done|].
  eapply returns_bind; [apply (closing_loop_range (e - S o) (S o) e 1 (S o)); lia|].
  intros [cl fc] Hcl. cbn in Hcl. cbn beta iota. destruct (cl =? e) eqn:Ec; to_prop; [by apply returns_ok|].
  eapply returns_bind; [apply skip_spaces_range; lia|]. intros p Hsp. cbn beta in *.
  eapply (returns_bind (λ _, True)).
  { destruct (p <? e) eqn:E; to_prop; [|by apply returns_ok]. read. by apply returns_ok. }
  intros [] _.
  - eapply returns_weaken; [apply IH; lia|]. intros [[n m]|]; [|done]. cbn. lia || (intros; destruct_and?; split_and!; done || lia).
  - apply returns_ok. destruct (if include_scope then _ else _) as [n|] eqn:En; [|done]. cbn.
    destruct (Hr n) as [? ?]; [by destruct include_scope; auto|]. split_and!; done || lia.
Qed.

(** * Plain signatures *)

Definition occurs (p : nat) (w : str) : Prop := ∀ i c, w !! i = Some c → s !! (p + i) = Some c.

Lemma occurs_app p w1 w2 : occurs p (w1 ++ w2) → occurs p w1 ∧ occurs (p + length w1) w2.
Proof.
  intros H. split; intros i c Hi.
  - apply H. by apply lookup_app_l_Some.
  - rewrite <- Nat.add_assoc. apply H. rewrite lookup_app_r by lia. by replace (length w1 + i - length w1) with i by lia.
Qed.

Lemma occurs_cons p c w : occurs p (c :: w) → s !! p = Some c ∧ occurs (S p) w.
Proof.
  intros H. split; [by specialize (H 0 c eq_refl); rewrite Nat.add_0_r in H|].
  intros i d Hi. replace (S p + i) with (p + S i) by lia. by apply H.
Qed.

Definition word (w : str) : Prop := w ≠ [] ∧ Forall (λ c, is_name_character c = true) w.

(** The keyword [operator] does not occur. *)
Definition no_operator : Prop := ∀ p, take 8 (drop p s) ≠ str_lit "operator".

Context (Hop : no_operator).

Lemma detect_nothing b e p : p ≤ e → e ≤ length s → detect_operator b e p = Ok None.
Proof.
  intros H1 H2. unfold detect_operator. destruct (e - p <? 9) eqn:E; to_prop; [done|].
  unfold is_operator_keyword. destruct (length s <? p + 8) eqn:E1; to_prop; [lia|]. cbn [obind].
  by rewrite bool_decide_eq_false_2.
Qed.

Lemma rd_at p c : s !! p = Some c → rd p = Ok c.
Proof. unfold rd. by intros ->. Qed.

Lemma not_name c d : is_name_character c = true → is_name_character d = false → ch c d = false.
Proof. intros Hc Hd. apply bool_decide_eq_false. congruence. Qed.

(** The step for a character of a name. *)
Lemma opening_name_char fuel b e p r c :
  s !! p = Some c → is_name_character c = true → p < e → e ≤ length s →
  opening_loop (S fuel) b e p r = opening_loop fuel b e (S p) (scan_character c p r).
Proof.
  intros Hc Hn H1 H2. cbn [opening_loop]. destruct (p =? e) eqn:E; to_prop; [lia|].
  rewrite (rd_at _ _ Hc). cbn [obind]. rewrite !(not_name c) by done.
  destruct (ch c "o"); cbn [obind]; [rewrite detect_nothing by lia|]; done.
Qed.

Lemma opening_word fuel b e p r c w :
  occurs p (c :: w) → Forall (λ c, is_name_character c = true) (c :: w) → p + S (length w) ≤ e → e ≤ length s →
  s_state r ≠ operator_detected →
  opening_loop (S (length w) + fuel) b e p r = opening_loop fuel b e (p + S (length w)) (scan_character c p r).
Proof.
  intros [Hc Ho]%occurs_cons [Hn Hw]%Forall_cons H1 H2 Hr. cbn [Nat.add].
  rewrite (opening_name_char _ b e p r c) by (done || lia).
  assert (s_state (scan_character c p r) = started) as Hs.
  { unfold scan_character. rewrite Hn. by destruct (s_state r) eqn:E. }
  replace (p + S (length w)) with (S p + length w) by lia. assert (S p + length w ≤ e) as H3 by lia.
  revert Hs. generalize (scan_character c p r). intros r' Hs. clear Hc H1. generalize (S p) as q, Ho, H3. clear Ho H3.
  induction Hw as [|d w Hd _ IH]; intros q Ho H3; cbn [length Nat.add] in *; [by rewrite Nat.add_0_r|].
  apply occurs_cons in Ho as [Hc Ho]. rewrite (opening_name_char _ b e q r' d) by (done || lia).
  assert (scan_character d q r' = r') as -> by (unfold scan_character; by rewrite Hs, Hd).
  rewrite IH by (done || lia). f_equal. lia.
Qed.

Lemma opening_space fuel b e p r :
  s !! p = Some " "%char → p < e → e ≤ length s → s_state r = started →
  opening_loop (S fuel) b e p r = opening_loop fuel b e (S p) (set_state ended r).
Proof.
  intros Hc H1 H2 Hr. cbn [opening_loop]. destruct (p =? e) eqn:E; to_prop; [lia|].
  rewrite (rd_at _ _ Hc). cbn [obind]. change (ch " " "(") with false. change (ch " " "<") with false.
  change (ch " " " ") with true. cbn match. by rewrite Hr.
Qed.

Lemma opening_scope fuel b e p r :
  occurs p (str_lit "::") → S p < e → e ≤ length s → s_state r = started →
  opening_loop (S fuel) b e p r = opening_loop fuel b e (p + 2) (set_state continued r).
Proof.
  intros [Hc [Hc' _]%occurs_cons]%occurs_cons H1 H2 Hr. cbn [opening_loop].
  destruct (p =? e) eqn:E; to_prop; [lia|]. rewrite (rd_at _ _ Hc). cbn [obind].
  change (ch ":" "(") with false. change (ch ":" "<") with false. change (ch ":" " ") with false.
  change (ch ":" ":") with true. cbn match. destruct (S p =? e) eqn:E1; to_prop; [lia|].
  rewrite (rd_at _ _ Hc'). cbn [obind]. change (ch ":" ":") with true. cbn match.
  unfold scan_scope, set_name_state. rewrite Hr. replace (p + 2) with (S (S p)) by lia. by rewrite Hr.
Qed.

(** The search that is at [p] with [r] gets to [p'] with [r']. *)
Definition leads (b e p : nat) (r : opening_search) (p' : nat) (r' : opening_search) : Prop :=
  ∀ fuel x, e - p ≤ fuel → (∀ fuel', e - p' ≤ fuel' → opening_loop fuel' b e p' r' = Ok x) →
  opening_loop fuel b e p r = Ok x.

Lemma leads_trans b e p r p1 r1 p2 r2 : leads b e p r p1 r1 → leads b e p1 r1 p2 r2 → leads b e p r p2 r2.
Proof. unfold leads. eauto. Qed.

(** A name may begin in the state; a name with a new scope may begin. *)
Definition nameable (st : sequence_state) : bool :=
  match st with not_started | ended | continued => true | _ => false end.
Definition unnamed (st : sequence_state) : bool :=
  match st with not_started | ended => true | _ => false end.

(** The result of a name that begins at [p]. *)
Definition name_at (p : nat) (r : opening_search) : opening_search :=
  Search started (match s_state r with continued => first_name_begin r | _ => Some p end) (Some p).

Lemma leads_word b e p r w :
  occurs p w → word w → p + length w ≤ e → e ≤ length s →
  nameable (s_state r) = true → leads b e p r (p + length w) (name_at p r).
Proof.
  intros Ho [Hne Hw] H1 H2 Hr fuel x Hf Hx. destruct w as [|c w]; [done|]. cbn [length] in *.
  replace fuel with (S (length w) + (fuel - S (length w))) by lia.
  rewrite (opening_word _ b e p r c w) by (done || (by destruct (s_state r))).
  assert (scan_character c p r = name_at p r) as ->; [|apply Hx; lia].
  unfold scan_character, name_at. apply Forall_cons in Hw as [-> _]. by destruct (s_state r).
Qed.

Lemma leads_space b e p r :
  s !! p = Some " "%char → p < e → e ≤ length s → s_state r = started → leads b e p r (S p) (set_state ended r).
Proof.
  intros Hc H1 H2 Hr fuel x Hf Hx. destruct fuel as [|fuel]; [lia|]. rewrite opening_space by done. apply Hx. lia.
Qed.

Lemma leads_scope b e p r :
  occurs p (str_lit "::") → S p < e → e ≤ length s → s_state r = started → leads b e p r (p + 2) (set_state continued r).
Proof.
  intros Hc H1 H2 Hr fuel x Hf Hx. destruct fuel as [|fuel]; [lia|]. rewrite opening_scope by done. apply Hx. lia.
Qed.

Definition spaced (ws : list str) : str := concat ((λ w, w ++ str_lit " ") <$> ws).
Definition scoped (ws : list str) : str := concat ((λ w, w ++ str_lit "::") <$> ws).

(** The words of the return type are passed over. *)
Lemma leads_spaced b e p r ws :
  occurs p (spaced ws) → Forall word ws → p + length (spaced ws) ≤ e → e ≤ length s →
  unnamed (s_state r) = true →
  ∃ r', unnamed (s_state r') = true ∧ leads b e p r (p + length (spaced ws)) r'.
Proof.
  intros Ho Hws. revert p r Ho. induction Hws as [|w ws Hw _ IH]; intros p r Ho H1 H2 Hr.
  - exists r. split; [done|]. cbn. rewrite Nat.add_0_r. unfold leads. auto.
  - unfold spaced in *. cbn [fmap list_fmap concat] in *. rewrite !length_app in H1 |- *.
    change (length (str_lit " ")) with 1 in *. apply occurs_app in Ho as [[Hw1 Hsp]%occurs_app Ho]. apply occurs_cons in Hsp as [Hsp _].
    rewrite length_app in Ho. change (length (str_lit " ")) with 1 in Ho.
    destruct (IH (S (p + length w)) (set_state ended (name_at p r))) as (r' & Hr' & Hl).
    + by replace (S (p + length w)) with (p + (length w + 1)) by lia.
    + lia.
    + done.
    + done.
    + exists r'. split; [done|]. eapply leads_trans; [apply (leads_word b e p r w); [done|done|lia|done|by destruct (s_state r)]|].
      eapply leads_trans; [apply leads_space; [done|lia|done|done]|]. by replace (p + (length w + 1 + length (concat ((λ w, w ++ str_lit " ") <$> ws)))) with
        (S (p + length w) + length (concat ((λ w, w ++ str_lit " ") <$> ws))) by lia.
Qed.

(** The scopes of a name that begins at [p], in front of it. *)
Lemma leads_scoped b e p r ws :
  occurs p (scoped ws) → Forall word ws → p + length (scoped ws) ≤ e → e ≤ length s →
  nameable (s_state r) = true →
  ∃ r', leads b e p r (p + length (scoped ws)) r' ∧
    (ws = [] ∧ r' = r ∨
     ws ≠ [] ∧ s_state r' = continued ∧
     first_name_begin r' = match s_state r with continued => first_name_begin r | _ => Some p end).
Proof.
  intros Ho Hws. revert p r Ho. induction Hws as [|w ws Hw _ IH]; intros p r Ho H1 H2 Hr.
  - exists r. split; [|by left]. cbn. rewrite Nat.add_0_r. unfold leads. auto.
  - unfold scoped in *. cbn [fmap list_fmap concat] in *. rewrite !length_app in H1 |- *.
    change (length (str_lit "::")) with 2 in *. apply occurs_app in Ho as [[Hw1 Hsp]%occurs_app Ho].
    rewrite length_app in Ho. change (length (str_lit "::")) with 2 in Ho.
    destruct (IH (p + (length w + 2)) (set_state continued (name_at p r))) as (r' & Hl & Hr'); [done|lia|done|done|].
    exists r'. rewrite Nat.add_assoc. split.
    + eapply leads_trans; [apply (leads_word b e p r w); [done|done|lia|done|done]|].
      eapply leads_trans; [apply leads_scope; [done|lia|done|done]|].
      by replace (p + length w + 2) with (p + (length w + 2)) by lia.
    + right. split; [done|]. destruct Hr' as [[-> ->]|(_ & Hc & Hf)]; done.
Qed.

(** The whole name, with its scopes, after the return type. *)
Lemma leads_name b e p r ws w :
  occurs p (scoped ws ++ w) → Forall word ws → word w → p + length (scoped ws ++ w) ≤ e → e ≤ length s →
  unnamed (s_state r) = true →
  leads b e p r (p + length (scoped ws ++ w)) (Search started (Some p) (Some (p + length (scoped ws)))).
Proof.
  intros [Ho1 Ho2]%occurs_app Hws Hw H1 H2 Hr. rewrite length_app in H1 |- *.
  destruct (leads_scoped b e p r ws) as (r' & Hl & Hr'); [done|done|lia|done|by destruct (s_state r)|].
  eapply leads_trans; [exact Hl|].
  assert (name_at (p + length (scoped ws)) r' = Search started (Some p) (Some (p + length (scoped ws)))) as <-.
  { unfold name_at. f_equal. destruct Hr' as [[-> ->]|(_ & -> & ->)].
    - destruct (s_state r); try done; cbn; f_equal; lia.
    - by destruct (s_state r). }
  rewrite Nat.add_assoc. apply leads_word; [done|done|lia|done|].
  destruct Hr' as [[_ ->]|(_ & -> & _)]; [by destruct (s_state r)|done].
Qed.

Definition plain_argument (c : ascii) : bool := negb (ch c "(" || ch c ")" || ch c "<").

Lemma closing_plain fuel b e p w fc :
  occurs p (w ++ str_lit ")") → Forall (λ c, plain_argument c = true) w → p + length w < e → e ≤ length s →
  e - p ≤ fuel → ∃ fc', closing_loop fuel b e 1 p fc = Ok (p + length w, fc').
Proof.
  intros Ho Hw. revert p fuel fc Ho. induction Hw as [|c w Hc _ IH]; intros p fuel fc Ho H1 H2 Hf;
    apply occurs_cons in Ho as [Hp Ho]; (destruct fuel as [|fuel]; [lia|]); cbn [closing_loop];
    (destruct (p =? e) eqn:E; to_prop; [lia|]); rewrite (rd_at _ _ Hp); cbn [obind].
  - exists fc. cbn. by rewrite Nat.add_0_r.
  - unfold plain_argument in Hc. to_prop. cbn [length] in *.
    repeat match goal with H : ch c _ = false |- _ => rewrite H; clear H end.
    assert ((if ch c "o" then detect_operator b e p else Ok None) = Ok None) as ->.
    { destruct (ch c "o"); [|done]. by rewrite detect_nothing by lia. }
    cbn [obind]. replace (p + S (length w)) with (S p + length w) by lia. apply IH; [done|lia|done|lia].
Qed.
End signature.

(** A signature with the words of a return type, the scopes, the name and the
    parameters of a function. *)
Definition signature (ret scopes : list str) (name args : str) : str :=
  spaced ret ++ (scoped scopes ++ name) ++ str_lit "(" ++ args ++ str_lit ")".

Lemma signature_parsed ret scopes name args include_scope :
  let s := signature ret scopes name args in
  no_operator s → Forall word ret → Forall word scopes → word name → Forall (λ c, plain_argument c = true) args →
  parse_function_name s include_scope =
    Ok (Some (length (spaced ret) + (if include_scope then 0 else length (scoped scopes)),
              length (spaced ret) + length (scoped scopes ++ name))).
Proof.
  intros s Hop Hret Hsc Hname Hargs. assert (occurs s 0 s) as Ho by (intros i c Hi; exact Hi).
  pose proof (f_equal length (eq_refl : s = signature ret scopes name args)) as Hlen.
  unfold signature in Hlen. rewrite !length_app in Hlen. change (length (str_lit "(")) with 1 in Hlen.
  change (length (str_lit ")")) with 1 in Hlen. unfold s at 2, signature in Ho.
  apply occurs_app in Ho as [Ho1 Ho]. apply occurs_app in Ho as [Ho2 Ho]. apply occurs_app in Ho as [Ho3 Ho4].
  change (length (str_lit "(")) with 1 in Ho4. cbn [Nat.add] in *. set (e := length s) in *.
  set (q := length (spaced ret)) in *. set (o := q + length (scoped scopes ++ name)) in *.
  assert (o = q + (length (scoped scopes) + length name)) as Eo by (unfold o; by rewrite length_app).
  destruct (leads_spaced s Hop 0 e 0 (Search not_started None None) ret) as (r & Hr & Hl1); [done|done|lia|lia|done|].
  pose proof (leads_name s Hop 0 e q r scopes name Ho2 Hsc Hname ltac:(lia) ltac:(lia) Hr) as Hl2.
  assert (find_opening_parenthesis s 0 e = Ok (o, Search started (Some q) (Some (q + length (scoped scopes))))) as Hopen.
  { unfold find_opening_parenthesis. apply (leads_trans _ _ _ _ _ _ _ _ _ Hl1 Hl2); [lia|]. fold o. intros fuel Hf.
    apply occurs_cons in Ho3 as [Ho3 _]. destruct fuel as [|fuel]; [lia|]. cbn [opening_loop].
    destruct (o =? e) eqn:E; to_prop; [lia|]. by rewrite (rd_at s _ _ Ho3). }
  destruct (closing_plain s Hop (e - S o) (S o) e (S o) args None) as (fc & Hclose); [|done|lia|lia|lia|].
  { by replace (S o) with (o + 1) by lia. }
  unfold parse_function_name. fold e. assert (∃ n, e = S n) as [n En] by (exists (e - 1); lia).
  rewrite En at 1. cbn [function_name_loop]. destruct (0 =? e) eqn:E0; to_prop; [lia|].
  rewrite Hopen. cbn [obind]. destruct (o =? e) eqn:E1; to_prop; [lia|].
  unfold find_closing_parenthesis. rewrite Hclose. cbn [obind].
  destruct (S o + length args =? e) eqn:E2; to_prop; [lia|].
  replace (S (S o + length args)) with e by lia. unfold skip_spaces. rewrite Nat.sub_diag. cbn [skip_while].
  rewrite Nat.ltb_irrefl. cbn [obind]. rewrite Nat.ltb_irrefl. cbn [obind].
  destruct include_scope; cbn [first_name_begin last_name_begin]; [by rewrite Nat.add_0_r|done].
Qed.

(** * Formatters *)

(** [named_scope_entry]. *)
Inductive scope_name_type : Type := general | function.

Record named_scope_entry := Entry {
  scope_name : str;
  file_name : str;
  line : Z;
  type : scope_name_type }.

(** The function objects of [named_scope_formatter]. *)
Inductive formatter : Type :=
| f_literal (m_literal : str)
| f_scope_name
| f_function_name (m_include_scope : bool)
| f_full_file_name
| f_file_name
| f_line_number.

(** The loop of [file_name]: the position after the last slash before [i]. *)
Fixpoint after_slash (name : str) (i : nat) : outcome nat :=
  match i with
  | O => Ok 0
  | S j =>
      let* c := rd name j in
      if ch c "/" then Ok i else after_slash name j
  end.

Definition format_function_name (include_scope : bool) (value : named_scope_entry) : outcome str :=
  match type value with
  | function =>
      let* r := parse_function_name (scope_name value) include_scope in
      match r with
      | Some (b, e) => Ok (take (e - b) (drop b (scope_name value)))
      | None => Ok (scope_name value)
      end
  | general => Ok (scope_name value)
  end.

Definition format_file_name (value : named_scope_entry) : outcome str :=
  let n := length (file_name value) in
  let* i := after_slash (file_name value) n in
  Ok (take (n - i) (drop i (file_name value))).

Definition apply_formatter (f : formatter) (value : named_scope_entry) : outcome str :=
  match f with
  | f_literal l => Ok l
  | f_scope_name => Ok (scope_name value)
  | f_function_name b => format_function_name b value
  | f_full_file_name => Ok (file_name value)
  | f_file_name => format_file_name value
  | f_line_number => Ok (dec (line value))
  end.

(** [named_scope_formatter::operator()] on a good stream. *)
Fixpoint format_scope (fs : list formatter) (value : named_scope_entry) (out : str) : outcome str :=
  match fs with
  | [] => Ok out
  | f :: fs => let* t := apply_formatter f value in format_scope fs value (out ++ t)
  end.

Definition percent : ascii := "%".

(** Adds the pending literal, which becomes empty, and a formatter. *)
Definition add_literal (literal : str) (fmt : list formatter) : list formatter :=
  match literal with [] => fmt | _ => fmt ++ [f_literal literal] end.

Definition placeholder (c : ascii) : option formatter :=
  if ch c "n" then Some f_scope_name
  else if ch c "c" then Some (f_function_name true)
  else if ch c "C" then Some (f_function_name false)
  else if ch c "f" then Some f_full_file_name
  else if ch c "F" then Some f_file_name
  else if ch c "l" then Some f_line_number
  else None.

(** The loop of [do_parse_named_scope_format]. *)
Fixpoint parse_scope_loop (fuel : nat) (s : str) (literal : str) (fmt : list formatter) : outcome (list formatter) :=
  match s, fuel with
  | [], _ => Ok (add_literal literal fmt)
  | _, O => Stuck
  | _, S fuel =>
      let n := find_pos (λ c, ch c percent) s in
      let literal := literal ++ take n s in
      match drop n s with
      | p :: c :: t =>
          if ch c percent then parse_scope_loop fuel t (literal ++ [percent]) fmt
          else match placeholder c with
               | Some f => parse_scope_loop fuel t [] (add_literal literal fmt ++ [f])
               | None => parse_scope_loop fuel t (literal ++ [p; c]) fmt
               end
      | [_] => parse_scope_loop fuel [] (literal ++ [percent]) fmt
      | [] => parse_scope_loop fuel [] literal fmt
      end
  end.

Definition do_parse_named_scope_format (fmt : str) : outcome (list formatter) :=
  parse_scope_loop (length fmt) fmt [] [].

(** ** Reference *)

(** The part of a path after the last slash. *)
Fixpoint base_name_from (acc path : str) : str :=
  match path with
  | [] => acc
  | c :: rest => base_name_from (if decide (c = "/"%char) then [] else acc ++ [c]) rest
  end.
Definition base_name (path : str) : str := base_name_from [] path.

(** The name of the function in a scope that was made from its signature, as
    far as the signature is understood; any other scope has its own name. *)
Definition function_text (include_scope : bool) (value : named_scope_entry) : str :=
  match type value with
  | general => scope_name value
  | function =>
      match parse_function_name (scope_name value) include_scope with
      | Ok (Some (b, e)) => take (e - b) (drop b (scope_name value))
      | _ => scope_name value
      end
  end.

(** The documented placeholders and what they stand for. *)
Definition meaning (value : named_scope_entry) (c : ascii) : option str :=
  match c with
  | "n"%char => Some (scope_name value)
  | "c"%char => Some (function_text true value)
  | "C"%char => Some (function_text false value)
  | "f"%char => Some (file_name value)
  | "F"%char => Some (base_name (file_name value))
  | "l"%char => Some (dec (line value))
  | _ => None
  end.

(** The text of a scope format, read character by character. *)
Fixpoint scope_text (value : named_scope_entry) (fmt : str) : str :=
  match fmt with
  | [] => []
  | "%"%char :: "%"%char :: t => "%"%char :: scope_text value t
  | "%"%char :: c :: t =>
      match meaning value c with
      | Some x => x ++ scope_text value t
      | None => "%"%char :: c :: scope_text value t
      end
  | c :: t => c :: scope_text value t
  end.

Lemma format_scope_app fs1 fs2 value out :
  format_scope (fs1 ++ fs2) value out = (let* o := format_scope fs1 value out in format_scope fs2 value o).
Proof.
  revert out. induction fs1 as [|f fs1 IH]; intros out; [done|]. cbn. by destruct (apply_formatter f value); cbn.
Qed.

Lemma format_add_literal l fs value out :
  format_scope (add_literal l fs) value out = (let* o := format_scope fs value out in Ok (o ++ l)).
Proof.
  destruct l as [|c l]; cbn [add_literal].
  - destruct (format_scope fs value out) as [o| |]; cbn; by rewrite ?app_nil_r.
  - rewrite format_scope_app. by destruct (format_scope fs value out).
Qed.

Lemma take_drop_mid {X} (l : list X) b e : b ≤ e → l = take b l ++ take (e - b) (drop b l) ++ drop e l.
Proof.
  intros H. rewrite <- (take_drop b l) at 1. f_equal. rewrite <- (take_drop (e - b) (drop b l)) at 1. f_equal.
  rewrite drop_drop. f_equal. lia.
Qed.

Lemma format_function_name_ok include_scope value :
  ∃ t, format_function_name include_scope value = Ok t ∧
    (t = scope_name value ∨
     ∃ pre c t' post, t = c :: t' ∧ scope_name value = pre ++ t ++ "("%char :: post ∧
       (is_name_character c || ch c "~" || ch c ":") = true).
Proof.
  unfold format_function_name. destruct (type value); [eexists; split; [done|by left]|].
  destruct (function_name_range (scope_name value) (length (scope_name value)) include_scope 0 (length (scope_name value)))
    as (r & Hr & Hn); [lia..|].
  unfold parse_function_name. rewrite Hr. cbn [obind]. destruct r as [[b e]|]; [|eexists; split; [done|by left]].
  destruct Hn as (_ & Hbe & He & (c & Hc & Hch) & Hp). eexists. split; [done|]. right.
  exists (take b (scope_name value)), c, (take (e - S b) (drop (S b) (scope_name value))), (drop (S e) (scope_name value)).
  split_and!; [| |done].
  - rewrite (drop_S _ c b) by done. by replace (e - b) with (S (e - S b)) by lia.
  - rewrite (take_drop_mid (scope_name value) b e) at 1 by lia. do 2 f_equal. by apply drop_S.
Qed.

(** The part of a file name after the last slash. *)
Lemma format_file_name_ok value :
  ∃ pre t, format_file_name value = Ok t ∧ file_name value = pre ++ t ∧
    Forall (λ c, ch c "/" = false) t ∧ (pre = [] ∨ last pre = Some "/"%char).
Proof.
  unfold format_file_name. set (s := file_name value).
  assert (∀ i, i ≤ length s → Forall (λ c, ch c "/" = false) (drop i s) →
    ∃ j, after_slash s i = Ok j ∧ j ≤ length s ∧ Forall (λ c, ch c "/" = false) (drop j s) ∧
      (j = 0 ∨ s !! (j - 1) = Some "/"%char)) as H.
  { induction i as [|i IH]; intros Hi Hall; cbn; [exists 0; split_and!; [done|lia|done|by left]|].
    destruct (lookup_lt_is_Some_2 s i) as [c Hc]; [lia|]. rewrite (rd_at s _ _ Hc). cbn [obind].
    destruct (ch c "/") eqn:E.
    - apply ch_true in E as ->. exists (S i). split_and!; [done|lia|done|right; by rewrite Nat.sub_1_r].
    - apply IH; [lia|]. rewrite (drop_S _ c) by done. by constructor. }
  destruct (H (length s)) as (j & -> & Hj & Hall & Hend); [lia|by rewrite drop_ge by lia|]. cbn [obind].
  exists (take j s), (drop j s). split_and!.
  - f_equal. apply take_ge. rewrite length_drop. lia.
  - by rewrite take_drop.
  - done.
  - destruct Hend as [->|Hend]; [by left|]. destruct j as [|j]; [by left|]. right.
    rewrite Nat.sub_1_r in Hend. cbn in Hend. rewrite (take_S_r _ _ _ Hend). apply last_snoc.
Qed.

Lemma base_name_app acc pre t :
  Forall (λ c, ch c "/" = false) t → (pre = [] ∨ last pre = Some "/"%char) → acc = [] →
  base_name_from acc (pre ++ t) = t.
Proof.
  intros Ht Hpre ->. assert (∀ acc, base_name_from acc t = acc ++ t) as H.
  { clear Hpre. induction Ht as [|c t Hc _ IH]; intros acc; cbn; [by rewrite app_nil_r|].
    apply bool_decide_eq_false in Hc. rewrite decide_False by done. by rewrite IH, <- (assoc_L (++)). }
  assert (∀ acc, base_name_from acc (pre ++ t) = if decide (pre = []) then acc ++ t else t) as Hp.
  { induction pre as [|c pre IH]; intros acc; cbn; [apply H|]. destruct Hpre as [|Hl]; [done|].
    destruct pre as [|d pre].
    - cbn in Hl. injection Hl as ->. rewrite decide_True by done. cbn. by rewrite H.
    - rewrite IH by (by right). done. }
  rewrite Hp. by destruct (decide _).
Qed.

Lemma format_file_name_base value : format_file_name value = Ok (base_name (file_name value)).
Proof.
  destruct (format_file_name_ok value) as (pre & t & -> & -> & Ht & Hpre). f_equal. symmetry.
  by apply base_name_app.
Qed.

Lemma format_function_text b value : format_function_name b value = Ok (function_text b value).
Proof.
  destruct (format_function_name_ok b value) as (t & Ht & _). unfold format_function_name, function_text in *.
  destruct (type value); [done|]. destruct (parse_function_name _ b) as [[[p q]|]| |]; done.
Qed.

(** The table of the parser has the documented placeholders. *)
Lemma placeholder_meaning value c :
  match placeholder c with
  | Some f => ∃ t, meaning value c = Some t ∧ apply_formatter f value = Ok t
  | None => meaning value c = None
  end.
Proof.
  destruct c as [[] [] [] [] [] [] [] []]; cbn; try done; eexists; (split; [done|]); cbn;
    rewrite ?format_file_name_base, ?format_function_text; done.
Qed.

(** A character that does not begin a placeholder. *)
Lemma scope_text_other value c t : ch c percent = false → scope_text value (c :: t) = c :: scope_text value t.
Proof. by destruct c as [[] [] [] [] [] [] [] []]. Qed.

Lemma scope_text_app value l t :
  Forall (λ c, ch c percent = false) l → scope_text value (l ++ t) = l ++ scope_text value t.
Proof.
  induction 1 as [|c l Hc _ IH]; [done|]. cbn [app]. by rewrite scope_text_other, IH.
Qed.

Lemma scope_text_placeholder value c t : ch c percent = false →
  scope_text value (percent :: c :: t) =
  match meaning value c with
  | Some x => x ++ scope_text value t
  | None => percent :: c :: scope_text value t
  end.
Proof. by destruct c as [[] [] [] [] [] [] [] []]. Qed.

(** What remains to be parsed is formatted after what was parsed. *)
Lemma parse_scope_spec fuel s literal fmt value out :
  length s ≤ fuel →
  (let* fs := parse_scope_loop fuel s literal fmt in format_scope fs value out) =
  (let* o := format_scope fmt value out in Ok (o ++ literal ++ scope_text value s)).
Proof.
  revert s literal fmt. induction fuel as [|fuel IH]; intros s literal fmt Hf.
  all: destruct s as [|c0 s0];
    [cbn; rewrite format_add_literal; destruct (format_scope fmt value out); cbn; by rewrite ?app_nil_r|].
  { cbn in Hf. lia. }
  remember (c0 :: s0) as s eqn:Es. assert (1 ≤ length s) as Hl by (subst; cbn; lia).
  cbn [parse_scope_loop]. rewrite Es. rewrite <- Es. clear c0 s0 Es.
  pose proof (find_pos_take (λ c, ch c percent) s) as Ht. pose proof (find_pos_drop (λ c, ch c percent) s) as Hd.
  remember (find_pos (λ c, ch c percent) s) as n eqn:En. clear En.
  pose proof (f_equal length (take_drop n s)) as Hls. rewrite length_app in Hls.
  assert (scope_text value s = scope_text value (take n s ++ drop n s)) as -> by (by rewrite take_drop).
  rewrite scope_text_app by done.
  destruct (drop n s) as [|p [|c t]] eqn:Edrop; cbn [length] in Hls.
  - rewrite IH by (cbn; lia). cbn. by destruct (format_scope fmt value out); cbn; rewrite ?app_nil_r, ?app_assoc.
  - specialize (Hd _ _ eq_refl). apply ch_true in Hd as ->. rewrite IH by (cbn; lia).
    destruct (format_scope fmt value out); cbn; by rewrite ?app_nil_r, <- ?app_assoc.
  - specialize (Hd _ _ eq_refl). apply ch_true in Hd as ->.
    destruct (ch c percent) eqn:Ec.
    { apply ch_true in Ec as ->. rewrite IH by lia. destruct (format_scope fmt value out); cbn; by rewrite <- ?app_assoc. }
    rewrite scope_text_placeholder by done. pose proof (placeholder_meaning value c) as Hpl.
    destruct (placeholder c) as [f|].
    + destruct Hpl as (x & -> & Hx). rewrite IH by lia. rewrite format_scope_app, format_add_literal.
      destruct (format_scope fmt value out); cbn; [|done..]. rewrite Hx. cbn. by rewrite <- ?app_assoc.
    + rewrite Hpl, IH by lia. destruct (format_scope fmt value out); cbn; by rewrite <- ?app_assoc.
Qed.

(** * Theorems *)

(** The name of a function is extracted from any signature without reading
    outside of it and in a bounded number of steps; the result is the whole
    signature, or a part of it that begins with a character of a name, of a
    destructor or of a scope operator and ends at an opening parenthesis. *)
Theorem function_name_safe (include_scope : bool) (value : named_scope_entry) :
  ∃ t, format_function_name include_scope value = Ok t ∧
    (t = scope_name value ∨
     ∃ pre c t' post, t = c :: t' ∧ scope_name value = pre ++ t ++ "("%char :: post ∧
       (is_name_character c || ch c "~" || ch c ":") = true).
Proof. apply format_function_name_ok. Qed.

(** For a signature that consists of the words of a return type, scopes, a
    name and parameters without nested parentheses and templates, in which the
    word "operator" does not occur, the formatter prints the name, with the
    scopes if they are requested. *)
Lemma signature_name_ok (ret scopes : list str) (name args : str) (value : named_scope_entry) :
  scope_name value = signature ret scopes name args → type value = function →
  no_operator (scope_name value) → Forall word ret → Forall word scopes → word name →
  Forall (λ c, plain_argument c = true) args →
  format_function_name true value = Ok (scoped scopes ++ name) ∧
  format_function_name false value = Ok name.
Proof.
  intros Hs Ht Hop Hret Hsc Hname Hargs. rewrite Hs in Hop. unfold format_function_name. rewrite Ht, Hs.
  rewrite !signature_parsed by done. cbn [obind]. unfold signature. rewrite !drop_app_add, !length_app.
  split; f_equal.
  - rewrite drop_0. apply take_app_length'. rewrite length_app. lia.
  - rewrite <- app_assoc, drop_app_length. apply take_app_length'. lia.
Qed.

(** C21: a scope format is parsed in a bounded number of steps into formatters
    that print what the format string says, character by character: "%%" is a
    percent character, and "%n", "%c", "%C", "%f", "%F" and "%l" are the scope
    name, the function name with and without its scope, the file name, the file
    name without the path, and the line number; everything else is copied. "%F"
    is the part of the file name after the last slash; "%l" reads back as the
    line. "%c" and "%C" are the whole scope name of a scope that is not a
    function, and for a signature of a return type, scopes, a name and parameters
    without nested parentheses and templates, in which the word "operator" does
    not occur, they are the name with and without the scopes. *)
Theorem scope_format_correct (fmt out : str) (value : named_scope_entry) :
  (∃ fs, do_parse_named_scope_format fmt = Ok fs ∧
    format_scope fs value out = Ok (out ++ scope_text value fmt)) ∧
  (∃ pre, file_name value = pre ++ base_name (file_name value) ∧
    Forall (λ c, c ≠ "/"%char) (base_name (file_name value)) ∧ (pre = [] ∨ last pre = Some "/"%char)) ∧
  ((0 ≤ line value)%Z → undec (dec (line value)) = line value) ∧
  (type value = general → ∀ b, function_text b value = scope_name value) ∧
  (∀ ret scopes name args, scope_name value = signature ret scopes name args → type value = function →
    no_operator (scope_name value) → Forall word ret → Forall word scopes → word name →
    Forall (λ c, plain_argument c = true) args →
    function_text true value = scoped scopes ++ name ∧ function_text false value = name).
Proof.
  split_and!.
  - pose proof (parse_scope_spec (length fmt) fmt [] [] value out ltac:(lia)) as H.
    unfold do_parse_named_scope_format. destruct (parse_scope_loop _ fmt [] []) as [fs| |]; [|done..]. by exists fs.
  - destruct (format_file_name_ok value) as (pre & base & Hb & Hf & Hs & Hpre). rewrite format_file_name_base in Hb.
    injection Hb as Hb. rewrite Hb. exists pre. split_and!; [done| |done]. eapply Forall_impl; [exact Hs|].
    intros c Hc. by apply bool_decide_eq_false in Hc.
  - intros Hl. by apply dec_spec.
  - intros Hg b. unfold function_text. by rewrite Hg.
  - intros ret scopes name args Hs Ht Hop Hret Hsc Hname Hargs.
    destruct (signature_name_ok ret scopes name args value Hs Ht Hop Hret Hsc Hname Hargs) as [H1 H2].
    rewrite format_function_text in H1, H2. split; congruence.
Qed.

(** A member function in a namespace. *)
Module sample_scope.
Definition value : named_scope_entry :=
  Entry (str_lit "void foo::bar::baz(int, char)") (str_lit "/src/foo.cpp") 42 function.

Lemma no_operator_small s : existsb (λ p, bool_decide (take 8 (drop p s) = str_lit "operator")) (seq 0 (length s)) = false →
  no_operator s.
Proof.
  intros H p Hp. destruct (decide (p < length s)) as [Hl|Hl].
  - assert (existsb (λ p, bool_decide (take 8 (drop p s) = str_lit "operator")) (seq 0 (length s)) = true) as H1; [|congruence].
    apply existsb_exists. exists p. split; [apply in_seq; lia|]. by apply bool_decide_eq_true.
  - rewrite drop_ge in Hp by lia. done.
Qed.

Lemma signature_name_sample :
  format_function_name true value = Ok (str_lit "foo::bar::baz") ∧ format_function_name false value = Ok (str_lit "baz").
Proof.
  apply (signature_name_ok [str_lit "void"] [str_lit "foo"; str_lit "bar"] (str_lit "baz") (str_lit "int, char") value).
  - reflexivity.
  - reflexivity.
  - apply no_operator_small. vm_compute. reflexivity.
  - repeat constructor; done.
  - repeat constructor; done.
  - split; [done|]. repeat constructor.
  - repeat constructor.
Defined.

(** A format with every placeholder. *)
Lemma scope_format_correct_witness :
  ∃ fs, do_parse_named_scope_format (str_lit "%C %c %F %f:%l%%%x") = Ok fs ∧
    format_scope fs value [] = Ok (str_lit "baz foo::bar::baz foo.cpp /src/foo.cpp:42%%x") ∧
    function_text false value = str_lit "baz".
Proof.
  destruct (scope_format_correct (str_lit "%C %c %F %f:%l%%%x") [] value) as ((fs & H1 & H2) & _ & _ & _ & H3).
  exists fs. split; [exact H1|]. split; [etrans; [exact H2|vm_compute; reflexivity]|].
  apply (H3 [str_lit "void"] [str_lit "foo"; str_lit "bar"] (str_lit "baz") (str_lit "int, char")).
  - reflexivity.
  - reflexivity.
  - apply no_operator_small. vm_compute. reflexivity.
  - repeat constructor; done.
  - repeat constructor; done.
  - split; [done|]. repeat constructor.
  - repeat constructor.
Defined.

(** A leading scope operator after a return type is taken for a part of the
    return type. *)
Lemma global_scope_after_type :
  format_function_name true (Entry (str_lit "int ::foo()") [] 1 function) = Ok (str_lit "int ::foo").
Proof. vm_compute. reflexivity. Qed.
End sample_scope.
