(* ===== verification/NamedScope.v ===== *)
(** Named scopes (src/src/named_scope.cpp, include/boost/log/attributes/
    named_scope.hpp) and their formatter
    (include/boost/log/expressions/formatters/named_scope.hpp).

    The stack of scopes of a thread is a circular doubly linked list whose
    elements are objects on the stack of the thread; a value that is passed to
    another thread owns a copy. Nodes are in a heap; pointers are addresses. *)

From Stdlib Require Import ZArith String.
From stdpp Require Import base numbers list gmap strings.
From S2P Require Import Prelude ScopeFormat.

(** * Nodes *)

Abbreviation addr := nat.

(** [named_scope_list_node], with the entry it is a part of; the root node of
    a list has none. *)
Record node := Node {
  _m_pPrev : addr;
  _m_pNext : addr;
  n_entry : option named_scope_entry }.

Abbreviation heap := (gmap addr node).

Definition get_node (a : addr) : sm heap node := λ h, (of_ptr (h !! a), h).

Definition set_prev (a x : addr) : sm heap unit :=
  n ← get_node a; sm_modify (<[a := Node x (_m_pNext n) (n_entry n)]>).
Definition set_next (a x : addr) : sm heap unit :=
  n ← get_node a; sm_modify (<[a := Node (_m_pPrev n) x (n_entry n)]>).

(** [named_scope_list]: the address of the root node, the size and the flag. *)
Record named_scope_list := ScopeList {
  m_RootNode : addr;
  m_Size : Z;
  m_fNeedToDeallocate : bool }.

Definition empty (l : named_scope_list) : bool := (m_Size l =? 0)%Z.

(** The constructor of the node and of an empty list at a place. *)
Definition new_node (a : addr) (e : option named_scope_entry) : sm heap unit := sm_modify (<[a := Node a a e]>).

Definition new_list (a : addr) : sm heap named_scope_list := new_node a None;; mret (ScopeList a 0 false).

(** * Operations *)

(** [writeable_named_scope_list::push_back]. *)
Definition push_back (l : named_scope_list) (entry : addr) : sm heap named_scope_list :=
  root ← get_node (m_RootNode l);
  set_prev entry (_m_pPrev root);;
  set_next entry (m_RootNode l);;
  set_next (_m_pPrev root) entry;;
  set_prev (m_RootNode l) entry;;
  mret (ScopeList (m_RootNode l) (u64 (m_Size l + 1)) (m_fNeedToDeallocate l)).

(** [writeable_named_scope_list::pop_back]. *)
Definition pop_back (l : named_scope_list) : sm heap named_scope_list :=
  root ← get_node (m_RootNode l);
  top ← get_node (_m_pPrev root);
  set_next (_m_pPrev top) (_m_pNext top);;
  top ← get_node (_m_pPrev root);
  set_prev (_m_pNext top) (_m_pPrev top);;
  mret (ScopeList (m_RootNode l) (u64 (m_Size l - 1)) (m_fNeedToDeallocate l)).

(** The loop of the copy constructor; [p] runs through a block of memory. *)
Fixpoint copy_loop (fuel : nat) (src end_ p prev : addr) : sm heap addr :=
  if decide (src = end_) then mret prev
  else match fuel with
  | 0 => sm_lift Stuck
  | S fuel =>
      n ← get_node src;
      e ← sm_lift (of_ptr (n_entry n));
      sm_modify (<[p := Node (_m_pPrev n) (_m_pNext n) (Some e)]>);;
      set_prev p prev;;
      set_next prev p;;
      copy_loop fuel (_m_pNext n) end_ (S p) p
  end.

(** The copy constructor of a list at [a]; [block] is the memory that is
    allocated for the elements. *)
Definition copy_list (that : named_scope_list) (a block : addr) : sm heap named_scope_list :=
  new_node a None;;
  if (0 <? m_Size that)%Z then
    root ← get_node (m_RootNode that);
    prev ← copy_loop (Z.to_nat (m_Size that)) (_m_pNext root) (m_RootNode that) block a;
    set_prev a prev;;
    set_next prev a;;
    mret (ScopeList a (m_Size that) true)
  else mret (ScopeList a 0 false).

(** [deallocate] of a block: every element must be there. *)
Fixpoint deallocate (a : addr) (n : nat) : sm heap unit :=
  match n with
  | 0 => mret ()
  | S n => _ ← get_node a; sm_modify (delete a);; deallocate (S a) n
  end.

(** The destructor; the destruction of an entry does nothing. *)
Fixpoint destroy_loop (fuel : nat) (it end_ : addr) : sm heap unit :=
  if decide (it = end_) then mret ()
  else match fuel with
  | 0 => sm_lift Stuck
  | S fuel => n ← get_node it; destroy_loop fuel (_m_pNext n) end_
  end.

Definition destroy_list (l : named_scope_list) : sm heap unit :=
  (if m_fNeedToDeallocate l then
     root ← get_node (m_RootNode l);
     destroy_loop (Z.to_nat (m_Size l)) (_m_pNext root) (m_RootNode l);;
     deallocate (_m_pNext root) (Z.to_nat (m_Size l))
   else mret ());;
  sm_modify (delete (m_RootNode l)).

(** [std::swap] of two links or of two root nodes. *)
Definition swap_prev (a b : addr) : sm heap unit :=
  x ← get_node a; y ← get_node b; set_prev a (_m_pPrev y);; set_prev b (_m_pPrev x).
Definition swap_next (a b : addr) : sm heap unit :=
  x ← get_node a; y ← get_node b; set_next a (_m_pNext y);; set_next b (_m_pNext x).

(** [that.m_RootNode = m_RootNode] and the reset of [m_RootNode], in the branches
    where only one list has elements. *)
Definition move_root (from to : addr) : sm heap unit :=
  root ← get_node from;
  set_next (_m_pPrev root) to;;
  set_prev (_m_pNext root) to;;
  set_prev to (_m_pPrev root);; set_next to (_m_pNext root);;
  set_prev from from;; set_next from from.

(** The branch where both lists have elements. *)
Definition swap_roots (r1 r2 : addr) : sm heap unit :=
  x ← get_node r1;
  y ← get_node r2;
  swap_prev (_m_pNext x) (_m_pNext y);;
  swap_next (_m_pPrev x) (_m_pPrev y);;
  swap_prev r1 r2;;
  swap_next r1 r2.

(** [named_scope_list::swap]. *)
Definition swap (this that : named_scope_list) : sm heap (named_scope_list * named_scope_list) :=
  let done := (ScopeList (m_RootNode this) (m_Size that) (m_fNeedToDeallocate that),
               ScopeList (m_RootNode that) (m_Size this) (m_fNeedToDeallocate this)) in
  if negb (empty this) then
    if negb (empty that) then swap_roots (m_RootNode this) (m_RootNode that);; mret done
    else move_root (m_RootNode this) (m_RootNode that);; mret done
  else if negb (empty that) then move_root (m_RootNode that) (m_RootNode this);; mret done
  else mret (this, that).

(** * Scopes *)

(** [named_scope::sentry]: the entry is an object at the address [a]; it is
    pushed by the constructor and popped by the destructor. *)
Definition enter_scope (l : named_scope_list) (a : addr) (e : named_scope_entry) : sm heap named_scope_list :=
  new_node a (Some e);; push_back l a.

Definition leave_scope (l : named_scope_list) (a : addr) : sm heap named_scope_list :=
  l ← pop_back l; sm_modify (delete a);; mret l.

(** [named_scope::impl]: the lists of the threads, made when they are needed;
    [fresh] is the place of a new list. *)
Record scope_lists := ScopeLists {
  nodes : heap;
  pScopes : gmap nat named_scope_list }.

Definition on_nodes {X} (m : sm heap X) : sm scope_lists X := λ σ,
  let '(r, h) := m (nodes σ) in (r, ScopeLists h (pScopes σ)).

Definition set_scopes (tid : nat) (l : named_scope_list) : sm scope_lists unit :=
  sm_modify (λ σ, ScopeLists (nodes σ) (<[tid := l]> (pScopes σ))).

Definition get_scope_list (tid : nat) (fresh : addr) : sm scope_lists named_scope_list :=
  σ ← sm_get;
  match pScopes σ !! tid with
  | Some l => mret l
  | None => l ← on_nodes (new_list fresh); set_scopes tid l;; mret l
  end.

Definition push_scope (tid : nat) (entry fresh : addr) : sm scope_lists unit :=
  s ← get_scope_list tid fresh; l ← on_nodes (push_back s entry); set_scopes tid l.

Definition pop_scope (tid : nat) (fresh : addr) : sm scope_lists unit :=
  s ← get_scope_list tid fresh; l ← on_nodes (pop_back s); set_scopes tid l.

Inductive scope_op : Type :=
| Enter (a : addr) (e : named_scope_entry)
| Leave (a : addr).

Fixpoint run_scopes (ops : list scope_op) (l : named_scope_list) : sm heap named_scope_list :=
  match ops with
  | [] => mret l
  | Enter a e :: ops => l ← enter_scope l a e; run_scopes ops l
  | Leave a :: ops => l ← leave_scope l a; run_scopes ops l
  end.

(** [named_scope_value]: it refers to the list of the thread until it is
    detached, when it gets a copy of its own. *)
Record named_scope_value := ScopeValue {
  m_pValue : named_scope_list;
  m_DetachedValue : option named_scope_list }.

Definition detach_from_thread (v : named_scope_value) (a block : addr) : sm heap named_scope_value :=
  match m_DetachedValue v with
  | Some _ => mret v
  | None => l ← copy_list (m_pValue v) a block; mret (ScopeValue l (Some l))
  end.

(** * Formatting *)

Section format.
Context (m_element_formatter : named_scope_entry → str) (m_delimiter m_incomplete_marker m_empty_marker : str) (m_depth : nat).

(** [std::advance] with a negative distance, and of a reverse iterator. *)
Fixpoint retreat (n : nat) (it : addr) : sm heap addr :=
  match n with
  | 0 => mret it
  | S n => x ← get_node it; retreat n (_m_pPrev x)
  end.

Definition element (it : addr) : sm heap str :=
  x ← get_node it;
  e ← sm_lift (of_ptr (n_entry x));
  mret (m_element_formatter e).

(** The loops over the remaining elements. *)
Fixpoint forward_loop (fuel : nat) (it end_ : addr) (acc : str) : sm heap str :=
  if decide (it = end_) then mret acc
  else match fuel with
  | 0 => sm_lift Stuck
  | S fuel =>
      s ← element it;
      x ← get_node it;
      forward_loop fuel (_m_pNext x) end_ (acc ++ m_delimiter ++ s)
  end.

Definition format_forward (scopes : named_scope_list) : sm heap str :=
  let size := Z.to_nat (m_Size scopes) in
  root ← get_node (m_RootNode scopes);
  it ← (if 0 <? m_depth then retreat (Nat.min m_depth size) (m_RootNode scopes) else mret (_m_pNext root));
  if decide (it = m_RootNode scopes) then mret []
  else
    s ← element it;
    x ← get_node it;
    forward_loop size (_m_pNext x) (m_RootNode scopes)
      ((if decide (it = _m_pNext root) then [] else m_incomplete_marker) ++ s).

(** A reverse iterator is dereferenced one place before its base. *)
Fixpoint reverse_loop (fuel : nat) (it end_ : addr) (acc : str) : sm heap str :=
  if decide (it = end_) then mret acc
  else match fuel with
  | 0 => sm_lift Stuck
  | S fuel =>
      x ← get_node it;
      s ← element (_m_pPrev x);
      reverse_loop fuel (_m_pPrev x) end_ (acc ++ m_delimiter ++ s)
  end.

Definition format_reverse (scopes : named_scope_list) : sm heap str :=
  let size := Z.to_nat (m_Size scopes) in
  root ← get_node (m_RootNode scopes);
  end_ ← (if 0 <? m_depth then retreat (Nat.min m_depth size) (m_RootNode scopes) else mret (_m_pNext root));
  if decide (m_RootNode scopes = end_) then mret []
  else
    s ← element (_m_pPrev root);
    t ← reverse_loop size (_m_pPrev root) end_ s;
    mret (t ++ (if decide (end_ = _m_pNext root) then [] else m_incomplete_marker)).

Definition format_named_scope (is_forward : bool) (scopes : named_scope_list) : sm heap str :=
  if empty scopes then mret m_empty_marker
  else if is_forward then format_forward scopes else format_reverse scopes.
End format.

(** * Well-formed lists *)

Definition next (h : heap) (a : addr) : option addr := _m_pNext <$> h !! a.
Definition prev (h : heap) (a : addr) : option addr := _m_pPrev <$> h !! a.
Definition entry (h : heap) (a : addr) : option named_scope_entry := h !! a ≫= n_entry.

(** Writing a link changes only that link. *)
Definition upd_prev (a x : addr) (h : heap) : heap := alter (λ n, Node x (_m_pNext n) (n_entry n)) a h.
Definition upd_next (a x : addr) (h : heap) : heap := alter (λ n, Node (_m_pPrev n) x (n_entry n)) a h.

Lemma set_prev_run a x h : is_Some (h !! a) → set_prev a x h = (Ok (), upd_prev a x h).
Proof.
  intros [n Hn]. unfold set_prev, get_node. sm_step. rewrite Hn. cbn. unfold sm_modify, upd_prev. f_equal.
  apply map_eq. intros i. destruct (decide (i = a)) as [->|]; [by rewrite lookup_insert_eq, lookup_alter_eq, Hn|].
  by rewrite lookup_insert_ne, lookup_alter_ne.
Qed.

Lemma set_next_run a x h : is_Some (h !! a) → set_next a x h = (Ok (), upd_next a x h).
Proof.
  intros [n Hn]. unfold set_next, get_node. sm_step. rewrite Hn. cbn. unfold sm_modify, upd_next. f_equal.
  apply map_eq. intros i. destruct (decide (i = a)) as [->|]; [by rewrite lookup_insert_eq, lookup_alter_eq, Hn|].
  by rewrite lookup_insert_ne, lookup_alter_ne.
Qed.

Lemma upd_prev_live a x h i : is_Some (upd_prev a x h !! i) ↔ is_Some (h !! i).
Proof. unfold upd_prev. by rewrite lookup_alter_is_Some. Qed.
Lemma upd_next_live a x h i : is_Some (upd_next a x h !! i) ↔ is_Some (h !! i).
Proof. unfold upd_next. by rewrite lookup_alter_is_Some. Qed.

Ltac same_link a := unfold next, prev, entry, upd_prev, upd_next;
  match goal with |- context [alter _ _ ?h !! ?i] =>
    destruct (decide (i = a)) as [->|]; [rewrite lookup_alter_eq; by destruct (h !! a)|by rewrite lookup_alter_ne] end.

Lemma next_upd_prev a x h i : next (upd_prev a x h) i = next h i.
Proof. same_link a. Qed.
Lemma prev_upd_next a x h i : prev (upd_next a x h) i = prev h i.
Proof. same_link a. Qed.
Lemma entry_upd_prev a x h i : entry (upd_prev a x h) i = entry h i.
Proof. same_link a. Qed.
Lemma entry_upd_next a x h i : entry (upd_next a x h) i = entry h i.
Proof. same_link a. Qed.
Lemma prev_upd_prev a x h i : is_Some (h !! a) → prev (upd_prev a x h) i = if decide (i = a) then Some x else prev h i.
Proof.
  intros [n Hn]. unfold prev, upd_prev. case_decide; [subst; by rewrite lookup_alter_eq, Hn|by rewrite lookup_alter_ne].
Qed.
Lemma next_upd_next a x h i : is_Some (h !! a) → next (upd_next a x h) i = if decide (i = a) then Some x else next h i.
Proof.
  intros [n Hn]. unfold next, upd_next. case_decide; [subst; by rewrite lookup_alter_eq, Hn|by rewrite lookup_alter_ne].
Qed.

Ltac live := repeat (apply upd_prev_live || apply upd_next_live); done.

Ltac links :=
  repeat first [rewrite next_upd_prev | rewrite prev_upd_next | rewrite entry_upd_prev | rewrite entry_upd_next
    | rewrite next_upd_next by live | rewrite prev_upd_prev by live
    | rewrite decide_True by done | rewrite decide_False by done].

(** The links between the elements of a list, and their entries. *)
Fixpoint inner (h : heap) (l : list (addr * named_scope_entry)) : Prop :=
  match l with
  | [] => True
  | (a, e) :: l => entry h a = Some e ∧
      match l with
      | [] => True
      | (b, _) :: _ => next h a = Some b ∧ prev h b = Some a
      end ∧ inner h l
  end.

Definition first_of (r : addr) (l : list (addr * named_scope_entry)) : addr :=
  match l with [] => r | (a, _) :: _ => a end.

Fixpoint last_of (r : addr) (l : list (addr * named_scope_entry)) : addr :=
  match l with [] => r | (a, _) :: l => last_of a l end.

(** The list with its root at [r] has the elements [l]. *)
Record rep (h : heap) (r : addr) (l : list (addr * named_scope_entry)) : Prop := Rep {
  rep_distinct : NoDup (r :: l.*1);
  rep_first : next h r = Some (first_of r l);
  rep_last : prev h r = Some (last_of r l);
  rep_to_root : next h (last_of r l) = Some r;
  rep_from_root : prev h (first_of r l) = Some r;
  rep_inner : inner h l }.

(** An object represents a list, with its size. *)
Definition is_list (h : heap) (o : named_scope_list) (l : list (addr * named_scope_entry)) : Prop :=
  rep h (m_RootNode o) l ∧ m_Size o = Z.of_nat (length l).

Implicit Types (h : heap) (l : list (addr * named_scope_entry)) (e : named_scope_entry).

Lemma last_of_in r l : last_of r l ∈ r :: l.*1.
Proof. revert r. induction l as [|[a e] l IH]; intros r; [by left|]. right. apply IH. Qed.

Lemma first_of_in r l : first_of r l ∈ r :: l.*1.
Proof. destruct l as [|[a e] l]; cbn; set_solver. Qed.

Lemma last_of_snoc r l a e : last_of r (l ++ [(a, e)]) = a.
Proof. revert r. induction l as [|[b e'] l IH]; intros r; [done|apply IH]. Qed.

Lemma first_of_snoc r l a e : first_of r (l ++ [(a, e)]) = first_of a l.
Proof. by destruct l as [|[b e'] l]. Qed.

(** Links at the ends of the list and outside of it do not matter. *)
Lemma inner_agree h h' l :
  (∀ x, x ∈ l.*1 → entry h' x = entry h x) →
  (∀ x, x ∈ l.*1 → x ≠ last_of x l → next h' x = next h x) →
  (∀ x, x ∈ l.*1 → x ≠ first_of x l → prev h' x = prev h x) →
  NoDup l.*1 → inner h l → inner h' l.
Proof.
  induction l as [|[a e] l IH]; [done|]. intros He Hn Hp Hnd (Ha & Hab & Hl). apply NoDup_cons in Hnd as [Hna Hnd].
  split; [rewrite He by (cbn; set_solver); done|]. split.
  - destruct l as [|[b e'] l]; [done|]. destruct Hab as [H1 H2].
    rewrite Hn, Hp; [done|cbn; set_solver| |cbn; set_solver|].
    + cbn. intros ->. set_solver.
    + intros E. pose proof (last_of_in b l) as Hin. cbn in E, Hin, Hna. apply Hna. rewrite E. done.
  - apply IH; [set_solver| | |done|done].
    + intros x Hx Hne. apply Hn; [cbn; set_solver|]. destruct l as [|[b e'] l]; [by apply elem_of_nil in Hx|exact Hne].
    + intros x Hx Hne. apply Hp; [cbn; set_solver|]. cbn. intros ->. done.
Qed.

Lemma inner_snoc h l a e :
  inner h l → (l ≠ [] → next h (last_of a l) = Some a ∧ prev h a = Some (last_of a l)) → entry h a = Some e →
  inner h (l ++ [(a, e)]).
Proof.
  revert a. induction l as [|[b e'] l IH]; intros a; [done|]. intros (Hb & Hl & Hi) Ha Hae. cbn [app inner].
  split; [done|]. specialize (Ha ltac:(done)). destruct l as [|[c e''] l]; [done|]. cbn [app]. split; [done|]. by apply IH.
Qed.

Lemma inner_init h l a e : inner h (l ++ [(a, e)]) →
  inner h l ∧ entry h a = Some e ∧ (l ≠ [] → next h (last_of a l) = Some a ∧ prev h a = Some (last_of a l)).
Proof.
  induction l as [|[b e'] l IH]; [by intros (? & _)|]. cbn [app]. intros (Hb & Hl & Hi). destruct (IH Hi) as (H1 & H2 & H3).
  split; [|split; [done|]].
  - split; [done|]. by destruct l as [|[c e''] l].
  - intros _. destruct l as [|[c e''] l]; [done|]. apply H3. done.
Qed.

Lemma inner_live h l x : inner h l → x ∈ l.*1 → is_Some (h !! x).
Proof.
  induction l as [|[a e] l IH]; intros Hi Hx; [by apply elem_of_nil in Hx|]. destruct Hi as (Ha & _ & Hi).
  apply elem_of_cons in Hx as [->|Hx]; [|by apply IH]. unfold entry in Ha. cbn. destruct (h !! a); [by eexists|done].
Qed.

Lemma rep_live h r l x : rep h r l → x ∈ r :: l.*1 → is_Some (h !! x).
Proof.
  intros [_ Hf _ _ _ Hi] [->|Hx]%elem_of_cons; [|by eapply inner_live].
  unfold next in Hf. destruct (h !! r); [by eexists|done].
Qed.

Lemma get_node_run h a p n : prev h a = Some p → next h a = Some n → get_node a h = (Ok (Node p n (entry h a)), h).
Proof.
  unfold get_node, prev, next, entry. destruct (h !! a) as [[p' n' e']|]; [|done]. cbn. by intros [= ->] [= ->].
Qed.

(** ** Pushing and popping *)

(** The root is the last element of an empty list only. *)
Lemma last_of_root r l : NoDup (r :: l.*1) → last_of r l = r ↔ l = [].
Proof.
  intros Hnd. split; [|by intros ->]. destruct l as [|[a e] l]; [done|]. cbn. intros E.
  apply NoDup_cons in Hnd as [Hr _]. destruct Hr. rewrite <- E. apply last_of_in.
Qed.

Lemma first_of_root r l : NoDup (r :: l.*1) → first_of r l = r ↔ l = [].
Proof.
  intros Hnd. split; [|by intros ->]. destruct l as [|[a e] l]; [done|]. cbn. intros ->.
  apply NoDup_cons in Hnd as [Hr _]. destruct Hr. by left.
Qed.

Lemma last_of_default r r' l : l ≠ [] → last_of r l = last_of r' l.
Proof. by destruct l as [|[a e] l]. Qed.

Lemma first_of_default r r' l : l ≠ [] → first_of r l = first_of r' l.
Proof. by destruct l as [|[a e] l]. Qed.

Lemma NoDup_snoc_nodes r l a e : NoDup (r :: l.*1) → a ∉ r :: l.*1 → NoDup (r :: (l ++ [(a, e)]).*1).
Proof.
  intros Hnd Hna. rewrite fmap_app, app_comm_cons. apply NoDup_app. split; [done|]. split; [|apply NoDup_singleton].
  intros x Hx ->%list_elem_of_singleton. done.
Qed.

Lemma push_rep h r l a e :
  rep h r l → entry h a = Some e → a ∉ r :: l.*1 →
  rep (upd_prev r a (upd_next (last_of r l) a (upd_next a r (upd_prev a (last_of r l) h)))) r (l ++ [(a, e)]).
Proof.
  intros Hr Ha Hna. set (t := last_of r l).
  assert (is_Some (h !! a)) as La by (unfold entry in Ha; destruct (h !! a); [by eexists|done]).
  assert (is_Some (h !! r)) as Lr by (eapply rep_live; [done|by left]).
  assert (is_Some (h !! t)) as Lt by (eapply rep_live; [done|apply last_of_in]).
  destruct Hr as [Hnd Hf Hl Htr Hfr Hi]. fold t in Hl, Htr. pose proof (last_of_in r l) as Hti. fold t in Hti.
  assert (r ≠ a) as Hra by set_solver. assert (t ≠ a) as Hta by set_solver.
  pose proof (last_of_root r l Hnd) as Hrt. fold t in Hrt.
  split; [by apply NoDup_snoc_nodes|rewrite ?last_of_snoc, ?first_of_snoc; links; try done..|].
  - destruct l as [|b l]; [rewrite decide_True; [done|by symmetry; apply Hrt]|].
    rewrite decide_False; [|intros E; symmetry in E; by apply Hrt in E]. by rewrite decide_False.
  - destruct l as [|[b e'] l]; [cbn; by rewrite decide_False, decide_True by done|]. cbn in *.
    rewrite !decide_False; [done|set_solver|set_solver].
  - apply inner_snoc; [|intros Hne; rewrite (last_of_default a r) by done; fold t; by links|by links].
    eapply inner_agree; [| | |by apply NoDup_cons in Hnd as [_ ?]|exact Hi].
    + intros x _. by links.
    + intros x Hx Hne. links. rewrite !decide_False; [done|set_solver|].
      intros ->. apply Hne. apply last_of_default. by destruct l.
    + intros x Hx Hne. links. apply NoDup_cons in Hnd as [Hnr _]. rewrite !decide_False; [done|set_solver|set_solver].
Qed.

Lemma push_back_ok h o l a e :
  is_list h o l → entry h a = Some e → a ∉ m_RootNode o :: l.*1 → (Z.of_nat (length l) < 2 ^ 64 - 1)%Z →
  ∃ o' h', push_back o a h = (Ok o', h') ∧ is_list h' o' (l ++ [(a, e)]) ∧ m_RootNode o' = m_RootNode o ∧
    (∀ x, x ∉ a :: m_RootNode o :: l.*1 → h' !! x = h !! x) ∧ (∀ x, entry h' x = entry h x).
Proof.
  destruct o as [r sz fl]. intros [Hr Hs] Ha Hna Hlen. cbn [m_RootNode m_Size] in *.
  assert (is_Some (h !! a)) as La by (unfold entry in Ha; destruct (h !! a); [by eexists|done]).
  assert (is_Some (h !! r)) as Lr by (eapply rep_live; [done|by left]).
  assert (is_Some (h !! last_of r l)) as Lt by (eapply rep_live; [done|apply last_of_in]).
  unfold push_back. cbn [m_RootNode m_Size m_fNeedToDeallocate].
  sm_step. rewrite (get_node_run h r (last_of r l) (first_of r l)) by apply Hr. cbn [_m_pPrev].
  sm_step. rewrite set_prev_run by done. sm_step. rewrite set_next_run by live. sm_step. rewrite set_next_run by live.
  sm_step. rewrite set_prev_run by live. do 2 eexists. split; [done|].
  split; [split; [by apply push_rep|cbn [m_Size]; rewrite length_app, u64_id by lia; cbn; lia]|].
  split; [done|]. split; [|intros x; by links].
  intros x Hx. pose proof (last_of_in r l). unfold upd_prev, upd_next. rewrite !lookup_alter_ne by set_solver. done.
Qed.

Lemma NoDup_snoc_inv r l a e : NoDup (r :: (l ++ [(a, e)]).*1) → NoDup (r :: l.*1) ∧ a ∉ r :: l.*1.
Proof.
  rewrite fmap_app, app_comm_cons. intros (H1 & H2 & _)%NoDup_app. split; [done|]. intros Hin. by apply (H2 a Hin); left.
Qed.

Lemma pop_rep h r l a e : rep h r (l ++ [(a, e)]) →
  prev h a = Some (last_of r l) ∧ rep (upd_prev r (last_of r l) (upd_next (last_of r l) r h)) r l.
Proof.
  intros Hr. set (t := last_of r l). destruct (NoDup_snoc_inv _ _ _ _ (rep_distinct _ _ _ Hr)) as [Hnd Hna].
  assert (is_Some (h !! r)) as Lr by (eapply rep_live; [done|by left]).
  pose proof (last_of_in r l) as Hti. fold t in Hti.
  assert (is_Some (h !! t)) as Lt. { eapply rep_live; [done|]. rewrite fmap_app. set_solver. }
  destruct Hr as [_ Hf Hl Htr Hfr Hi]. rewrite ?last_of_snoc, ?first_of_snoc in *.
  destruct (inner_init _ _ _ _ Hi) as (Hi' & He & Hlast).
  pose proof (last_of_root r l Hnd) as Hrt. fold t in Hrt. pose proof (first_of_root r l Hnd) as Hrf.
  split.
  { destruct l as [|b l]; [exact Hfr|]. apply Hlast. done. }
  split; [done|links; try done..|].
  - destruct l as [|b l]; [by rewrite decide_True by (symmetry; by apply Hrt)|].
    rewrite decide_False; [by destruct b|]. intros E. symmetry in E. by apply Hrt in E.
  - destruct l as [|[b e'] l]; [by rewrite decide_True|]. cbn in *. rewrite decide_False; [done|set_solver].
  - eapply inner_agree; [| | |by apply NoDup_cons in Hnd as [_ ?]|exact Hi'].
    + intros x _. by links.
    + intros x Hx Hne. links. rewrite decide_False; [done|]. intros ->. apply Hne, last_of_default. by destruct l.
    + intros x Hx Hne. links. apply NoDup_cons in Hnd as [Hnr _]. rewrite decide_False; [done|set_solver].
Qed.

Lemma pop_back_ok h o l a e :
  is_list h o (l ++ [(a, e)]) → (Z.of_nat (length l) < 2 ^ 64 - 1)%Z →
  ∃ o' h', pop_back o h = (Ok o', h') ∧ is_list h' o' l ∧ m_RootNode o' = m_RootNode o ∧
    (∀ x, x ∉ m_RootNode o :: l.*1 → h' !! x = h !! x) ∧ (∀ x, entry h' x = entry h x).
Proof.
  destruct o as [r sz fl]. intros [Hr Hs] Hlen. cbn [m_RootNode m_Size] in *. rewrite length_app in Hs. cbn in Hs.
  destruct (pop_rep h r l a e Hr) as [Hpa Hrep]. destruct (NoDup_snoc_inv _ _ _ _ (rep_distinct _ _ _ Hr)) as [_ Hna].
  pose proof (last_of_in r l) as Hti. assert (last_of r l ≠ a) as Hta by set_solver.
  assert (is_Some (h !! r)) as Lr by (eapply rep_live; [done|by left]).
  assert (is_Some (h !! last_of r l)) as Lt. { eapply rep_live; [done|]. rewrite fmap_app. set_solver. }
  pose proof (rep_last _ _ _ Hr) as Hl. pose proof (rep_to_root _ _ _ Hr) as Htr. rewrite last_of_snoc in Hl, Htr.
  unfold pop_back. cbn [m_RootNode m_Size m_fNeedToDeallocate]. sm_step.
  rewrite (get_node_run h r a (first_of r (l ++ [(a, e)]))); [|done|apply Hr]. cbn [_m_pPrev].
  sm_step. rewrite (get_node_run h a (last_of r l) r) by done. cbn [_m_pPrev _m_pNext].
  sm_step. rewrite set_next_run by done. sm_step.
  rewrite (get_node_run _ a (last_of r l) r); [|by links|by links]. cbn [_m_pPrev _m_pNext].
  sm_step. rewrite set_prev_run by live. do 2 eexists. split; [done|].
  split; [split; [done|cbn [m_Size]; rewrite u64_id; lia]|]. split; [done|]. split; [|intros x; by links].
  intros x Hx. unfold upd_prev, upd_next. rewrite !lookup_alter_ne by set_solver. done.
Qed.

(** ** Iteration *)

(** The rest of a list as an iterator sees it. *)
Fixpoint forward (h : heap) (r : addr) (l : list (addr * named_scope_entry)) : Prop :=
  match l with
  | [] => True
  | (a, e) :: l => entry h a = Some e ∧ next h a = Some (first_of r l) ∧ forward h r l
  end.

Lemma rep_forward h r l : rep h r l → forward h r l.
Proof.
  intros [_ _ _ Htr _ Hi]. destruct l as [|[a e] l]; [done|]. cbn in Htr. revert a e Htr Hi.
  induction l as [|[b e'] l IH]; intros a e Htr (Ha & Hl & Hi); [done|]. destruct Hl as [Hab _].
  split; [done|]. split; [done|]. by apply IH.
Qed.

Lemma forward_agree h h' r l : (∀ x, x ∈ l.*1 → h' !! x = h !! x) → forward h r l → forward h' r l.
Proof.
  induction l as [|[a e] l IH]; [done|]. intros Hx (H1 & H2 & H3). cbn in Hx.
  split; [unfold entry in *; by rewrite Hx by set_solver|]. split; [unfold next in *; by rewrite Hx by set_solver|].
  apply IH; [set_solver|done].
Qed.

(** ** Copying *)

(** A list that is being built: the end is not linked to the root yet. *)
Record partial (h : heap) (r : addr) (l : list (addr * named_scope_entry)) : Prop := Partial {
  part_distinct : NoDup (r :: l.*1);
  part_root : is_Some (h !! r);
  part_first : next h r = Some (first_of r l);
  part_from_root : prev h (first_of r l) = Some r;
  part_inner : inner h l }.

Lemma partial_live h r l x : partial h r l → x ∈ r :: l.*1 → is_Some (h !! x).
Proof. intros [_ Hr _ _ Hi] [->|Hx]%elem_of_cons; [done|by eapply inner_live]. Qed.

Lemma partial_snoc h r l p e :
  partial h r l → p ∉ r :: l.*1 → entry h p = Some e →
  partial (upd_next (last_of r l) p (upd_prev p (last_of r l) h)) r (l ++ [(p, e)]).
Proof.
  intros Hpart Hp He. pose proof (last_of_in r l) as Hti. set (t := last_of r l) in *.
  assert (is_Some (h !! p)) as Lp by (unfold entry in He; destruct (h !! p); [by eexists|done]).
  assert (is_Some (h !! t)) as Lt by (by eapply partial_live).
  destruct Hpart as [Hnd Hr Hf Hfr Hi]. pose proof (last_of_root r l Hnd) as Hrt. fold t in Hrt.
  assert (t ≠ p) as Htp by set_solver.
  split; [by apply NoDup_snoc_nodes|live|rewrite first_of_snoc; links..|].
  - destruct l as [|b l]; [by rewrite decide_True by (symmetry; by apply Hrt)|].
    rewrite decide_False; [by destruct b|]. intros E. symmetry in E. by apply Hrt in E.
  - destruct l as [|[b e'] l]; [cbn; by rewrite decide_True|]. cbn in *. rewrite decide_False; [done|set_solver].
  - apply inner_snoc; [|intros Hne; rewrite (last_of_default p r) by done; fold t; by links|by links].
    eapply inner_agree; [| | |by apply NoDup_cons in Hnd as [_ ?]|exact Hi].
    + intros x _. by links.
    + intros x Hx Hne. links. rewrite decide_False; [done|]. intros ->. apply Hne, last_of_default. by destruct l.
    + intros x Hx _. links. rewrite decide_False; [done|set_solver].
Qed.

(** Copies of entries in consecutive places. *)
Definition copies (p : addr) (l : list (addr * named_scope_entry)) : list (addr * named_scope_entry) :=
  zip (seq p (length l)) l.*2.

Lemma partial_insert h r l p n : p ∉ r :: l.*1 → partial h r l → partial (<[p := n]> h) r l.
Proof.
  intros Hp [Hnd Hr Hf Hfr Hi]. pose proof (first_of_in r l). split; [done|..].
  - rewrite lookup_insert_ne by set_solver. done.
  - unfold next in *. by rewrite lookup_insert_ne by set_solver.
  - unfold prev in *. by rewrite lookup_insert_ne by set_solver.
  - eapply inner_agree; [| | |by apply NoDup_cons in Hnd as [_ ?]|exact Hi]; intros x Hx *; unfold entry, next, prev;
      by rewrite lookup_insert_ne by set_solver.
Qed.

Lemma copy_loop_ok r a l2 : ∀ h c p fuel,
  partial h a c → forward h r l2 → NoDup (r :: l2.*1) → length l2 ≤ fuel →
  (∀ x, x ∈ seq p (length l2) → x ∉ a :: c.*1 ∧ x ∉ r :: l2.*1) → (∀ x, x ∈ l2.*1 → x ∉ a :: c.*1) →
  ∃ h', copy_loop fuel (first_of r l2) r p (last_of a c) h = (Ok (last_of a (c ++ copies p l2)), h') ∧
    partial h' a (c ++ copies p l2) ∧ (∀ x, x ∉ a :: c.*1 ++ seq p (length l2) → h' !! x = h !! x).
Proof.
  induction l2 as [|[b e] l2 IH]; intros h c p fuel Hpart Hfw Hnd Hfuel Hfresh Hsep.
  - exists h. unfold copies. cbn. rewrite app_nil_r. destruct fuel; cbn [copy_loop]; rewrite decide_True by done; by split_and!.
  - destruct fuel as [|fuel]; [cbn in Hfuel; lia|]. destruct Hfw as (He & Hn & Hfw).
    assert (b ≠ r) as Hbr by (apply NoDup_cons in Hnd as [Hnd _]; cbn in Hnd; set_solver).
    destruct (Hfresh p) as [Hpc Hpr]; [cbn; set_solver|]. cbn in Hpr.
    cbn [copy_loop first_of]. rewrite decide_False by done.
    assert (∃ q, prev h b = Some q) as [q Hq] by (unfold next, prev in *; destruct (h !! b); [by eexists|done]).
    sm_step. rewrite (get_node_run h b q (first_of r l2)) by done. cbn [_m_pPrev _m_pNext n_entry].
    sm_step. rewrite He. cbn [of_ptr]. sm_step. set (h1 := <[p := _]> h).
    assert (partial h1 a c) as Hp1 by (by apply partial_insert).
    assert (entry h1 p = Some e) as He1 by (unfold entry, h1; by rewrite lookup_insert_eq).
    pose proof (last_of_in a c) as Hlast.
    assert (is_Some (h1 !! last_of a c)) as Lt by (by eapply partial_live).
    assert (is_Some (h1 !! p)) as Lp by (unfold h1; rewrite lookup_insert_eq; by eexists).
    sm_step. rewrite set_prev_run by done. sm_step. rewrite set_next_run by live.
    pose proof (partial_snoc h1 a c p e Hp1 Hpc He1) as Hp2. set (h2 := upd_next _ _ _) in *.
    assert (∀ x, x ∉ a :: c.*1 → x ≠ p → h2 !! x = h !! x) as Hframe.
    { intros x Hx Hxp. unfold h2, upd_next, upd_prev, h1. rewrite !lookup_alter_ne, lookup_insert_ne by set_solver. done. }
    destruct (IH h2 (c ++ [(p, e)]) (S p) fuel) as (h' & Hrun & Hpart' & Hfr).
    + done.
    + eapply forward_agree; [|exact Hfw]. intros x Hx. apply Hframe; [apply Hsep; cbn; set_solver|set_solver].
    + apply NoDup_cons in Hnd as [H1 H2]. cbn in *. apply NoDup_cons in H2 as [_ H2]. constructor; [set_solver|done].
    + cbn in Hfuel. lia.
    + intros x Hx. destruct (Hfresh x) as [H1 H2]; [cbn; set_solver|]. cbn in H2. apply elem_of_seq in Hx.
      rewrite fmap_app. cbn. split; [|set_solver]. assert (x ≠ p) by lia. set_solver.
    + intros x Hx. rewrite fmap_app. cbn. specialize (Hsep x ltac:(cbn; set_solver)). set_solver.
    + exists h'. rewrite last_of_snoc in Hrun. unfold copies in *. cbn [length seq zip fmap]. cbn.
      rewrite <- app_assoc in Hrun, Hpart'. split; [exact Hrun|]. split; [exact Hpart'|].
      intros x Hx. rewrite Hfr; [apply Hframe; set_solver|]. rewrite fmap_app. cbn in *. set_solver.
Qed.

Lemma copies_nodes p l : (copies p l).*1 = seq p (length l) ∧ (copies p l).*2 = l.*2.
Proof. unfold copies. rewrite fst_zip, snd_zip by (rewrite length_seq, length_fmap; lia). done. Qed.

Lemma length_copies p l : length (copies p l) = length l.
Proof. unfold copies. rewrite length_zip_with, length_seq, length_fmap. lia. Qed.

(** The last link closes the circle. *)
Lemma partial_close h r l : partial h r l → rep (upd_next (last_of r l) r (upd_prev r (last_of r l) h)) r l.
Proof.
  intros Hpart. pose proof (last_of_in r l) as Hti. set (t := last_of r l) in *.
  assert (is_Some (h !! t)) as Lt by (by eapply partial_live).
  destruct Hpart as [Hnd Hr Hf Hfr Hi]. pose proof (last_of_root r l Hnd) as Hrt. fold t in Hrt.
  split; [done|links; try done..|].
  - destruct l as [|b l]; [by rewrite decide_True by (symmetry; by apply Hrt)|].
    rewrite decide_False; [by destruct b|]. intros E. symmetry in E. by apply Hrt in E.
  - destruct l as [|[b e'] l]; [by rewrite decide_True; [f_equal; apply Hrt|]|]. cbn in *.
    apply NoDup_cons in Hnd as [Hnd _]. rewrite decide_False; [done|set_solver].
  - eapply inner_agree; [| | |by apply NoDup_cons in Hnd as [_ ?]|exact Hi].
    + intros x _. by links.
    + intros x Hx Hne. links. rewrite decide_False; [done|]. intros ->. apply Hne, last_of_default. by destruct l.
    + intros x Hx _. links. apply NoDup_cons in Hnd as [Hnd _]. rewrite decide_False; [done|set_solver].
Qed.

Lemma copy_list_ok h o l a block :
  is_list h o l → a ∉ m_RootNode o :: l.*1 →
  (∀ x, x ∈ seq block (length l) → x ∉ a :: m_RootNode o :: l.*1) →
  ∃ o' h', copy_list o a block h = (Ok o', h') ∧ is_list h' o' (copies block l) ∧ m_RootNode o' = a ∧
    m_fNeedToDeallocate o' = bool_decide (l ≠ []) ∧
    (∀ x, x ∉ a :: seq block (length l) → h' !! x = h !! x).
Proof.
  intros [Hr Hs] Ha Hb. unfold copy_list, new_node. sm_step. set (h1 := <[a := _]> h). rewrite Hs.
  assert (∀ x, x ≠ a → h1 !! x = h !! x) as Hh1 by (intros x Hx; by apply lookup_insert_ne).
  destruct l as [|b l].
  { do 2 eexists. split; [done|]. split; [|split; [done|split; [done|]]].
    - split; [|done]. split; cbn; unfold next, prev, h1; rewrite ?lookup_insert_eq; try done. apply NoDup_singleton.
    - intros x Hx. apply Hh1. set_solver. }
  set (l0 := b :: l) in *. rewrite (proj2 (Z.ltb_lt 0 _)) by (cbn; lia). sm_step.
  assert (h1 !! m_RootNode o = h !! m_RootNode o) as Er by (apply Hh1; set_solver).
  rewrite (get_node_run h1 (m_RootNode o) (last_of (m_RootNode o) l0) (first_of (m_RootNode o) l0));
    [|unfold prev; rewrite Er; apply Hr|unfold next; rewrite Er; apply Hr].
  cbn [_m_pNext]. rewrite Nat2Z.id.
  destruct (copy_loop_ok (m_RootNode o) a l0 h1 [] block (length l0)) as (h2 & Hrun & Hp & Hfr).
  { split; cbn; unfold next, prev, h1; rewrite ?lookup_insert_eq; try done. apply NoDup_singleton. }
  { eapply forward_agree; [|by apply rep_forward]. intros x Hx. apply Hh1. set_solver. }
  { apply Hr. } { done. } { intros x Hx. specialize (Hb x Hx). set_solver. } { set_solver. }
  cbn [last_of app] in Hrun, Hp. sm_step. rewrite Hrun. cbv iota beta.
  assert (is_Some (h2 !! a)) as La by apply Hp.
  assert (is_Some (h2 !! last_of a (copies block l0))) as Lt by (eapply partial_live; [done|apply last_of_in]).
  sm_step. rewrite set_prev_run by done. sm_step. rewrite set_next_run by live. do 2 eexists. split; [done|].
  split; [split; [by apply partial_close|by rewrite length_copies]|]. split; [done|]. split; [done|].
  intros x Hx. pose proof (last_of_in a (copies block l0)) as Hin. rewrite (proj1 (copies_nodes block l0)) in Hin.
  unfold upd_next, upd_prev. rewrite !lookup_alter_ne by set_solver. rewrite Hfr by (cbn; set_solver). apply Hh1. set_solver.
Qed.

(** ** Destruction *)

Lemma destroy_loop_ok h r l fuel : forward h r l → NoDup (r :: l.*1) → length l ≤ fuel →
  destroy_loop fuel (first_of r l) r h = (Ok (), h).
Proof.
  revert fuel. induction l as [|[a e] l IH]; intros fuel Hf Hnd Hfuel.
  - destruct fuel; cbn [destroy_loop first_of]; by rewrite decide_True.
  - destruct fuel as [|fuel]; [cbn in Hfuel; lia|]. destruct Hf as (_ & Hn & Hf). cbn in Hnd.
    apply NoDup_cons in Hnd as [Hr Hnd]. cbn [destroy_loop first_of]. rewrite decide_False by set_solver.
    assert (∃ q, prev h a = Some q) as [q Hq] by (unfold next, prev in *; destruct (h !! a); [by eexists|done]).
    sm_step. rewrite (get_node_run h a q (first_of r l)) by done. apply IH; [done| |cbn in Hfuel; lia].
    apply NoDup_cons in Hnd as [_ Hnd]. constructor; [set_solver|done].
Qed.

Lemma deallocate_ok n : ∀ a h, (∀ x, x ∈ seq a n → is_Some (h !! x)) →
  ∃ h', deallocate a n h = (Ok (), h') ∧ ∀ x, h' !! x = if decide (x ∈ seq a n) then None else h !! x.
Proof.
  induction n as [|n IH]; intros a h Hl; [exists h; split; [done|]; intros x; by rewrite decide_False by (by intros ?%elem_of_nil)|].
  destruct (Hl a) as [v Hv]; [cbn; set_solver|]. cbn [deallocate]. sm_step. unfold get_node. rewrite Hv. cbn [of_ptr]. sm_step.
  destruct (IH (S a) (delete a h)) as (h' & Hr & Hx).
  { intros x Hx. rewrite lookup_delete_ne; [apply Hl; cbn; set_solver|]. apply elem_of_seq in Hx. lia. }
  exists h'. split; [exact Hr|]. intros x. rewrite Hx. cbn [seq]. clear -x.
  destruct (decide (x = a)) as [->|Hne].
  - rewrite lookup_delete_eq, (decide_True (P := a ∈ a :: _)) by (by left). by case_decide.
  - rewrite lookup_delete_ne by done. case_decide as H1; case_decide as H2; rewrite elem_of_cons in H2; naive_solver.
Qed.

(** A copy that is destroyed leaves nothing behind. *)
Lemma destroy_list_ok h o l block : is_list h o l → l.*1 = seq block (length l) →
  m_fNeedToDeallocate o = bool_decide (l ≠ []) →
  ∃ h', destroy_list o h = (Ok (), h') ∧ ∀ x, h' !! x = if decide (x ∈ m_RootNode o :: l.*1) then None else h !! x.
Proof.
  intros [Hr Hs] Hseq Hfl. unfold destroy_list. rewrite Hfl, Hs, Nat2Z.id. destruct l as [|[b e] l].
  { rewrite bool_decide_false by (by intros []). eexists. split; [done|]. intros x. cbn. case_decide as Hx.
    - apply list_elem_of_singleton in Hx as ->. by rewrite lookup_delete_eq.
    - rewrite lookup_delete_ne; [done|set_solver]. }
  rewrite bool_decide_true by done. set (l0 := (b, e) :: l) in *. rewrite sm_bind_run. sm_step.
  rewrite (get_node_run h (m_RootNode o) (last_of (m_RootNode o) l0) (first_of (m_RootNode o) l0)) by apply Hr. cbn [_m_pNext].
  sm_step. rewrite destroy_loop_ok by (by apply rep_forward || apply Hr || done). cbv iota beta.
  assert (first_of (m_RootNode o) l0 = block) as -> by (cbn in Hseq |- *; congruence).
  destruct (deallocate_ok (length l0) block h) as (h' & -> & Hx).
  { intros x Hin. eapply rep_live; [exact Hr|]. rewrite Hseq. by right. }
  eexists. split; [done|]. intros x. cbn [sm_modify]. rewrite Hseq. case_decide as Hin.
  - destruct (decide (x = m_RootNode o)) as [->|]; [by rewrite lookup_delete_eq|]. rewrite lookup_delete_ne, Hx by done.
    apply decide_True. set_solver.
  - rewrite lookup_delete_ne, Hx by set_solver. apply decide_False. set_solver.
Qed.

(** ** Swapping *)

(** The elements of a list under another root. *)
Lemma rep_relocate h h' r r' l :
  rep h r l → l ≠ [] → r' ∉ l.*1 →
  next h' r' = Some (first_of r l) → prev h' r' = Some (last_of r l) →
  next h' (last_of r l) = Some r' → prev h' (first_of r l) = Some r' →
  (∀ x, x ∈ l.*1 → entry h' x = entry h x) →
  (∀ x, x ∈ l.*1 → x ≠ last_of r l → next h' x = next h x) →
  (∀ x, x ∈ l.*1 → x ≠ first_of r l → prev h' x = prev h x) → rep h' r' l.
Proof.
  intros [Hnd _ _ _ _ Hi] Hne Hr' H1 H2 H3 H4 He Hn Hp. apply NoDup_cons in Hnd as [_ Hnd].
  rewrite (last_of_default r r'), (first_of_default r r') in * by done. split; [by constructor|done..|].
  eapply inner_agree; [done| | |done|exact Hi]; intros x Hx Hxl.
  - apply Hn; [done|]. by rewrite (last_of_default r' x).
  - apply Hp; [done|]. by rewrite (first_of_default r' x).
Qed.

(** An empty list becomes an empty list. *)
Lemma rep_empty h r : next h r = Some r → prev h r = Some r → rep h r [].
Proof. intros. split; cbn; try done. apply NoDup_singleton. Qed.

Lemma in_tail r l : l ≠ [] → last_of r l ∈ l.*1 ∧ first_of r l ∈ l.*1.
Proof.
  destruct l as [|[a e] l]; [done|]. intros _. split; [apply (last_of_in a l)|by left].
Qed.

Lemma in_notin_ne (x y : addr) (s : list addr) : x ∈ s → y ∉ s → x ≠ y.
Proof. by intros Hx Hy ->. Qed.

Lemma move_root_ok h r r' l : rep h r l → l ≠ [] → rep h r' [] → r ≠ r' → r' ∉ l.*1 →
  ∃ h', move_root r r' h = (Ok (), h') ∧ rep h' r [] ∧ rep h' r' l ∧ (∀ x, x ∉ r :: r' :: l.*1 → h' !! x = h !! x).
Proof.
  intros Hr Hne Hr' Hrr Hnl. destruct (in_tail r l Hne) as [Ht Hf]. set (t := last_of r l) in *. set (f := first_of r l) in *.
  assert (is_Some (h !! r)) as Lr by (eapply rep_live; [exact Hr|by left]).
  assert (is_Some (h !! r')) as Lr' by (eapply rep_live; [exact Hr'|by left]).
  assert (is_Some (h !! t)) as Lt by (eapply rep_live; [exact Hr|by right]).
  assert (is_Some (h !! f)) as Lf by (eapply rep_live; [exact Hr|by right]).
  assert (r ∉ l.*1) as Hrl by (pose proof (rep_distinct _ _ _ Hr) as Hnd; by apply NoDup_cons in Hnd as [? _]).
  assert (t ≠ r ∧ f ≠ r ∧ t ≠ r' ∧ f ≠ r') as (D1 & D2 & D3 & D4) by (split_and!; by eapply in_notin_ne).
  unfold move_root. sm_step. rewrite (get_node_run h r t f) by apply Hr. cbn [_m_pPrev _m_pNext].
  sm_step. rewrite set_next_run by done. sm_step. rewrite set_prev_run by live. sm_step. rewrite set_prev_run by live.
  sm_step. rewrite set_next_run by live. sm_step. rewrite set_prev_run by live. rewrite set_next_run by live.
  eexists. split; [done|]. split; [apply rep_empty; by links|]. split.
  - eapply rep_relocate; [exact Hr|done|done|fold t f; links; try done..].
    + intros x _. by links.
    + intros x Hx Hxt. links. rewrite !decide_False; [done|first [done|intros E; by rewrite E in Hx]..].
    + intros x Hx Hxf. links. rewrite !decide_False; [done|first [done|intros E; by rewrite E in Hx]..].
  - intros x Hx. unfold upd_next, upd_prev. rewrite !elem_of_cons in Hx.
    rewrite !lookup_alter_ne; [done|naive_solver..].
Qed.

Lemma swap_prev_run h a b x y : prev h a = Some x → prev h b = Some y →
  swap_prev a b h = (Ok (), upd_prev b x (upd_prev a y h)).
Proof.
  unfold prev. intros Ha Hb. destruct (h !! a) as [na|] eqn:Ea; [|done]. destruct (h !! b) as [nb|] eqn:Eb; [|done].
  injection Ha as <-. injection Hb as <-. assert (is_Some (h !! a)) as La by (by rewrite Ea). assert (is_Some (h !! b)) as Lb by (by rewrite Eb).
  unfold swap_prev, get_node. sm_step. rewrite Ea. cbn [of_ptr]. sm_step. rewrite Eb. cbn [of_ptr]. sm_step.
  rewrite set_prev_run by done. by rewrite set_prev_run by live.
Qed.

Lemma swap_next_run h a b x y : next h a = Some x → next h b = Some y →
  swap_next a b h = (Ok (), upd_next b x (upd_next a y h)).
Proof.
  unfold next. intros Ha Hb. destruct (h !! a) as [na|] eqn:Ea; [|done]. destruct (h !! b) as [nb|] eqn:Eb; [|done].
  injection Ha as <-. injection Hb as <-. assert (is_Some (h !! a)) as La by (by rewrite Ea). assert (is_Some (h !! b)) as Lb by (by rewrite Eb).
  unfold swap_next, get_node. sm_step. rewrite Ea. cbn [of_ptr]. sm_step. rewrite Eb. cbn [of_ptr]. sm_step.
  rewrite set_next_run by done. by rewrite set_next_run by live.
Qed.

(** Both lists have elements. *)
Lemma swap_both_ok h r1 r2 l1 l2 : rep h r1 l1 → rep h r2 l2 → l1 ≠ [] → l2 ≠ [] →
  (∀ x, x ∈ r1 :: l1.*1 → x ∉ r2 :: l2.*1) →
  ∃ h', swap_roots r1 r2 h = (Ok (), h') ∧ rep h' r1 l2 ∧ rep h' r2 l1.
Proof.
  intros H1 H2 N1 N2 Hd. destruct (in_tail r1 l1 N1) as [T1 F1]. destruct (in_tail r2 l2 N2) as [T2 F2].
  set (t1 := last_of r1 l1) in *. set (f1 := first_of r1 l1) in *. set (t2 := last_of r2 l2) in *. set (f2 := first_of r2 l2) in *.
  assert (∀ x, x ∈ r1 :: l1.*1 → is_Some (h !! x)) as L1 by (intros x Hx; exact (rep_live _ _ _ _ H1 Hx)).
  assert (∀ x, x ∈ r2 :: l2.*1 → is_Some (h !! x)) as L2 by (intros x Hx; exact (rep_live _ _ _ _ H2 Hx)).
  assert (is_Some (h !! r1) ∧ is_Some (h !! t1) ∧ is_Some (h !! f1)) as (Lr1 & Lt1 & Lf1) by (split_and!; apply L1; (by left) || by right).
  assert (is_Some (h !! r2) ∧ is_Some (h !! t2) ∧ is_Some (h !! f2)) as (Lr2 & Lt2 & Lf2) by (split_and!; apply L2; (by left) || by right).
  assert (∀ x y, x ∈ r1 :: l1.*1 → y ∈ r2 :: l2.*1 → x ≠ y) as Hxy by (intros x y Hx Hy ->; exact (Hd _ Hx Hy)).
  assert (r1 ∉ l1.*1) as R1 by (pose proof (rep_distinct _ _ _ H1) as Hnd; by apply NoDup_cons in Hnd as [? _]).
  assert (r2 ∉ l2.*1) as R2 by (pose proof (rep_distinct _ _ _ H2) as Hnd; by apply NoDup_cons in Hnd as [? _]).
  assert (r1 ∉ l2.*1 ∧ r2 ∉ l1.*1) as [R12 R21].
  { split; intros Hin; [apply (Hd r1); [by left|by right]|apply (Hd r2); [by right|by left]]. }
  assert (r1 ≠ r2 ∧ t1 ≠ t2 ∧ f1 ≠ f2 ∧ t1 ≠ f2 ∧ f1 ≠ t2) as (D1 & D2 & D3 & D4 & D5)
    by (split_and!; apply Hxy; (by left) || by right).
  assert (t1 ≠ r1 ∧ f1 ≠ r1 ∧ t1 ≠ r2 ∧ f1 ≠ r2 ∧ t2 ≠ r1 ∧ f2 ≠ r1 ∧ t2 ≠ r2 ∧ f2 ≠ r2) as (D6 & D7 & D8 & D9 & D10 & D11 & D12 & D13).
  { split_and!; by eapply in_notin_ne. }
  unfold swap_roots. sm_step. rewrite (get_node_run h r1 t1 f1) by apply H1. cbn [_m_pPrev _m_pNext].
  sm_step. rewrite (get_node_run h r2 t2 f2) by apply H2. cbn [_m_pPrev _m_pNext].
  sm_step. rewrite (swap_prev_run h f1 f2 r1 r2); [|apply H1|apply H2].
  sm_step. rewrite (swap_next_run _ t1 t2 r1 r2); [|links; apply H1|links; apply H2].
  sm_step. rewrite (swap_prev_run _ r1 r2 t1 t2); [|links; apply H1|links; apply H2].
  rewrite (swap_next_run _ r1 r2 f1 f2); [|links; apply H1|links; apply H2].
  eexists. split; [done|]. split; (eapply rep_relocate; [first [exact H2|exact H1]|done|done|..]); fold t1 f1 t2 f2; links; try done.
  all: intros x Hx; try (intros Hne); links; try done.
  all: rewrite !decide_False; [done|..]; first [done|eapply in_notin_ne; [exact Hx|done]|apply not_eq_sym, Hxy; by right|apply Hxy; by right].
Qed.

Lemma empty_list h o l : is_list h o l → empty o = bool_decide (l = []).
Proof. intros [_ Hs]. unfold empty. rewrite Hs. by destruct l. Qed.

(** The lists exchange their elements. *)
Lemma swap_ok h o1 o2 l1 l2 : is_list h o1 l1 → is_list h o2 l2 →
  (∀ x, x ∈ m_RootNode o1 :: l1.*1 → x ∉ m_RootNode o2 :: l2.*1) →
  ∃ o1' o2' h', swap o1 o2 h = (Ok (o1', o2'), h') ∧ is_list h' o1' l2 ∧ is_list h' o2' l1 ∧
    m_RootNode o1' = m_RootNode o1 ∧ m_RootNode o2' = m_RootNode o2.
Proof.
  intros H1 H2 Hd. unfold swap. rewrite (empty_list _ _ _ H1), (empty_list _ _ _ H2). destruct H1 as [R1 S1], H2 as [R2 S2].
  assert (m_RootNode o1 ≠ m_RootNode o2) as Hne by (intros E; apply (Hd (m_RootNode o1)); [by left|rewrite E; by left]).
  assert (m_RootNode o2 ∉ l1.*1) as N1 by (intros Hin; apply (Hd (m_RootNode o2)); [by right|by left]).
  assert (m_RootNode o1 ∉ l2.*1) as N2 by (intros Hin; apply (Hd (m_RootNode o1)); [by left|by right]).
  destruct (decide (l1 = [])) as [->|E1], (decide (l2 = [])) as [->|E2];
    rewrite ?(bool_decide_false _ E1), ?(bool_decide_false _ E2), ?bool_decide_true by done; cbn [negb].
  - by exists o1, o2, h.
  - destruct (move_root_ok h (m_RootNode o2) (m_RootNode o1) l2) as (h' & Hrun & Ha & Hb & _); [done..|].
    sm_step. rewrite Hrun. do 3 eexists. split; [done|]. by split_and!.
  - destruct (move_root_ok h (m_RootNode o1) (m_RootNode o2) l1) as (h' & Hrun & Ha & Hb & _); [done..|].
    sm_step. rewrite Hrun. do 3 eexists. split; [done|]. by split_and!.
  - destruct (swap_both_ok h (m_RootNode o1) (m_RootNode o2) l1 l2) as (h' & Hrun & Ha & Hb); [done..|].
    sm_step. rewrite Hrun. do 3 eexists. split; [done|]. by split_and!.
Qed.

(** ** Nested scopes *)

Lemma rep_agree h h' r l : (∀ x, x ∈ r :: l.*1 → h' !! x = h !! x) → rep h r l → rep h' r l.
Proof.
  intros Hx [Hnd Hf Hl Htr Hfr Hi]. pose proof (first_of_in r l). pose proof (last_of_in r l).
  split; [done|unfold next, prev in *; rewrite Hx by set_solver; done..|].
  eapply inner_agree; [| | |by apply NoDup_cons in Hnd as [_ ?]|exact Hi]; intros x Hin *; unfold entry, next, prev;
    by rewrite Hx by set_solver.
Qed.

Lemma enter_scope_ok h o l a e :
  is_list h o l → h !! a = None → (Z.of_nat (length l) < 2 ^ 64 - 1)%Z →
  ∃ o' h', enter_scope o a e h = (Ok o', h') ∧ is_list h' o' (l ++ [(a, e)]) ∧ m_RootNode o' = m_RootNode o ∧
    (∀ x, x ∉ a :: m_RootNode o :: l.*1 → h' !! x = h !! x).
Proof.
  intros [Hr Hs] Ha Hlen. unfold enter_scope, new_node. sm_step. set (h1 := <[a := _]> h).
  assert (a ∉ m_RootNode o :: l.*1) as Hna.
  { intros Hin. apply (rep_live _ _ _ _ Hr) in Hin. rewrite Ha in Hin. by destruct Hin. }
  destruct (push_back_ok h1 o l a e) as (o' & h' & Hrun & Hl & Hroot & Hfr & _).
  - split; [|done]. eapply rep_agree; [|exact Hr]. intros x Hx. apply lookup_insert_ne. by intros <-.
  - unfold entry, h1. by rewrite lookup_insert_eq.
  - done.
  - done.
  - exists o', h'. rewrite Hrun. split_and!; [done..|]. intros x Hx. rewrite Hfr by done.
    apply lookup_insert_ne. intros <-. apply Hx. by left.
Qed.

Lemma leave_scope_ok h o l a e :
  is_list h o (l ++ [(a, e)]) → (Z.of_nat (length l) < 2 ^ 64 - 1)%Z →
  ∃ o' h', leave_scope o a h = (Ok o', h') ∧ is_list h' o' l ∧ m_RootNode o' = m_RootNode o ∧
    h' !! a = None ∧ (∀ x, x ∉ a :: m_RootNode o :: l.*1 → h' !! x = h !! x).
Proof.
  intros Hl Hlen. destruct (NoDup_snoc_inv _ _ _ _ (rep_distinct _ _ _ (proj1 Hl))) as [_ Hna].
  destruct (pop_back_ok h o l a e Hl Hlen) as (o' & h' & Hrun & [Hr Hs] & Hroot & Hfr & _).
  unfold leave_scope. sm_step. rewrite Hrun. do 2 eexists. split; [done|]. split.
  - split; [|done]. eapply rep_agree; [|exact Hr]. intros x Hx. apply lookup_delete_ne. intros <-. rewrite Hroot in Hx. done.
  - split; [done|]. split; [apply lookup_delete_eq|]. intros x Hx. apply not_elem_of_cons in Hx as [Hxa Hx].
    rewrite lookup_delete_ne by done. by apply Hfr.
Qed.

(** What the scopes of a thread mean: a stack, with its top first. [d] are the
    addresses that are in use; an entry is at a new address, and scopes are
    left in the opposite order. *)
Fixpoint scope_stack (ops : list scope_op) (d : gset addr) (st : list (addr * named_scope_entry)) :
    option (list (addr * named_scope_entry)) :=
  match ops with
  | [] => Some st
  | Enter a e :: ops => if decide (a ∈ d) then None else scope_stack ops ({[a]} ∪ d) ((a, e) :: st)
  | Leave a :: ops =>
      match st with
      | (b, _) :: st => if decide (a = b) then scope_stack ops (d ∖ {[a]}) st else None
      | [] => None
      end
  end.

(** The stack of a thread with the root [r] beside nodes [K] that belong to
    others. *)
Record thread_stack (h : heap) (o : named_scope_list) (st : list (addr * named_scope_entry)) (d K : gset addr) : Prop := ThreadStack {
  ts_list : is_list h o (reverse st);
  ts_live : ∀ x, is_Some (h !! x) → x ∈ d;
  ts_others : K ⊆ d;
  ts_disjoint : ∀ x, x ∈ K → x ∉ m_RootNode o :: st.*1 }.

Lemma elem_of_reverse_nodes x (st : list (addr * named_scope_entry)) : x ∈ (reverse st).*1 ↔ x ∈ st.*1.
Proof. rewrite fmap_reverse. apply elem_of_reverse. Qed.

Lemma enter_stack h o st d K a e :
  thread_stack h o st d K → a ∉ d → (Z.of_nat (length st) < 2 ^ 64 - 1)%Z →
  ∃ o' h', enter_scope o a e h = (Ok o', h') ∧ thread_stack h' o' ((a, e) :: st) ({[a]} ∪ d) K ∧
    m_RootNode o' = m_RootNode o ∧ (∀ x, x ∈ K → h' !! x = h !! x).
Proof.
  intros [Hl Hd HK Hdis] Had Hlen.
  assert (h !! a = None) as Ha by (apply eq_None_not_Some; intros Hs; by apply Had, Hd).
  destruct (enter_scope_ok h o (reverse st) a e Hl Ha) as (o1 & h1 & Hrun & Hl1 & Hroot & Hfr); [by rewrite length_reverse|].
  exists o1, h1. split; [done|]. rewrite <- reverse_cons in Hl1. split; [split; [done| |set_solver|]|split; [done|]].
  - intros x Hx. destruct (decide (x ∈ a :: m_RootNode o :: (reverse st).*1)) as [Hin|Hnin].
    + rewrite !elem_of_cons in Hin. destruct Hin as [->|Hin]; [set_solver|]. apply elem_of_union_r, Hd.
      eapply rep_live; [apply Hl|]. by rewrite elem_of_cons.
    + rewrite Hfr in Hx by done. apply elem_of_union_r. by apply Hd.
  - intros x Hx. rewrite Hroot. cbn. specialize (Hdis x Hx). rewrite !elem_of_cons in *.
    intros [->|[->|Hin]]; [apply Hdis; by left|by apply Had, HK|apply Hdis; by right].
  - intros x Hx. apply Hfr. specialize (Hdis x Hx). rewrite !elem_of_cons, elem_of_reverse_nodes in *.
    intros [->|Hin]; [by apply Had, HK|by apply Hdis].
Qed.

Lemma leave_stack h o st d K a e :
  thread_stack h o ((a, e) :: st) d K → (Z.of_nat (length st) < 2 ^ 64 - 1)%Z →
  ∃ o' h', leave_scope o a h = (Ok o', h') ∧ thread_stack h' o' st (d ∖ {[a]}) K ∧
    m_RootNode o' = m_RootNode o ∧ (∀ x, x ∈ K → h' !! x = h !! x).
Proof.
  intros [Hl Hd HK Hdis] Hlen. rewrite reverse_cons in Hl. cbn in Hdis.
  destruct (leave_scope_ok h o (reverse st) a e Hl) as (o1 & h1 & Hrun & Hl1 & Hroot & Hgone & Hfr); [by rewrite length_reverse|].
  exists o1, h1. split; [done|]. split; [split; [done| | |]|split; [done|]].
  - intros x Hx. destruct (decide (x = a)) as [->|Hxa]; [rewrite Hgone in Hx; by destruct Hx|].
    apply elem_of_difference. split; [|set_solver].
    destruct (decide (x ∈ m_RootNode o :: (reverse st).*1)) as [Hin|Hnin].
    + apply Hd. eapply rep_live; [apply Hl|]. rewrite fmap_app, app_comm_cons. apply elem_of_app. by left.
    + rewrite Hfr in Hx; [by apply Hd|]. rewrite elem_of_cons. naive_solver.
  - intros x Hx. specialize (Hdis x Hx). rewrite !elem_of_cons in Hdis. set_solver.
  - intros x Hx. rewrite Hroot. specialize (Hdis x Hx). rewrite !elem_of_cons in *. naive_solver.
  - intros x Hx. apply Hfr. specialize (Hdis x Hx). rewrite !elem_of_cons, elem_of_reverse_nodes in *. naive_solver.
Qed.

Lemma run_scopes_ok ops : ∀ h o st st' d K,
  thread_stack h o st d K → scope_stack ops d st = Some st' → (Z.of_nat (length st + length ops) < 2 ^ 64 - 1)%Z →
  ∃ o' h' d', run_scopes ops o h = (Ok o', h') ∧ thread_stack h' o' st' d' K ∧ m_RootNode o' = m_RootNode o ∧
    (∀ x, x ∈ K → h' !! x = h !! x).
Proof.
  induction ops as [|[a e|a] ops IH]; intros h o st st' d K Ht Hst Hlen; cbn [run_scopes scope_stack length] in *.
  - injection Hst as <-. by exists o, h, d.
  - case_decide as Had; [done|]. destruct (enter_stack h o st d K a e Ht Had) as (o1 & h1 & Hrun & Ht1 & Hr1 & HK1); [lia|].
    sm_step. rewrite Hrun. destruct (IH h1 o1 _ st' _ K Ht1 Hst) as (o' & h' & d' & Hrun' & Hl' & Hr' & HK'); [cbn; lia|].
    exists o', h', d'. split_and!; [done|done|congruence|]. intros x Hx. by rewrite HK', HK1.
  - destruct st as [|[b e] st]; [done|]. case_decide as Eab; [subst b|done]. cbn in Hlen.
    destruct (leave_stack h o st d K a e Ht) as (o1 & h1 & Hrun & Ht1 & Hr1 & HK1); [lia|].
    sm_step. rewrite Hrun. destruct (IH h1 o1 st st' _ K Ht1 Hst) as (o' & h' & d' & Hrun' & Hl' & Hr' & HK'); [lia|].
    exists o', h', d'. split_and!; [done|done|congruence|]. intros x Hx. by rewrite HK', HK1.
Qed.

(** A copy beside the stack of the thread. *)
Lemma detach_ok h o st d a block :
  is_list h o (reverse st) → (∀ x, is_Some (h !! x) → x ∈ d) →
  Forall (λ x, x ∉ d) (a :: seq block (length st)) → a ∉ seq block (length st) →
  ∃ c h1, copy_list o a block h = (Ok c, h1) ∧ is_list h1 c (copies block (reverse st)) ∧ m_RootNode c = a ∧
    m_fNeedToDeallocate c = bool_decide (reverse st ≠ []) ∧
    thread_stack h1 o st ({[a]} ∪ list_to_set (seq block (length st)) ∪ d) ({[a]} ∪ list_to_set (seq block (length st))).
Proof.
  intros Hl Hd Hfresh Ha. apply Forall_cons in Hfresh as [Had Hfresh]. rewrite Forall_forall in Hfresh.
  assert (∀ x, x ∈ m_RootNode o :: (reverse st).*1 → x ∈ d) as Hin by (intros x Hx; apply Hd; eapply rep_live; [apply Hl|done]).
  destruct (copy_list_ok h o (reverse st) a block Hl) as (c & h1 & Hcopy & Hc & Hroot & Hflag & Hfr).
  { intros Hx. by apply Had, Hin. }
  { intros x Hx. rewrite length_reverse in Hx. rewrite elem_of_cons. intros [->|Hx']; [done|]. by apply (Hfresh x Hx), Hin. }
  rewrite length_reverse in Hfr. exists c, h1. split_and!; [done..|].
  set (K := {[a]} ∪ list_to_set (seq block (length st)) : gset addr).
  assert (∀ x, x ∈ K ↔ x ∈ a :: seq block (length st)) as HK
    by (intros x; unfold K; rewrite elem_of_union, elem_of_singleton, elem_of_list_to_set, elem_of_cons; done).
  assert (∀ x, x ∈ d → x ∉ K) as HdK.
  { intros x Hx. rewrite HK, elem_of_cons. intros [->|Hx']; [done|]. by apply (Hfresh x Hx'). }
  split; [|intros x Hx; destruct (decide (x ∈ K)) as [Hk|Hk]; [by apply elem_of_union_l|]|apply union_subseteq_l|].
  - split; [|apply Hl]. eapply rep_agree; [|apply Hl]. intros x Hx. apply Hfr. rewrite <- HK. by apply HdK, Hin.
  - rewrite Hfr in Hx by (by rewrite <- HK). apply elem_of_union_r. by apply Hd.
  - intros x Hx Hx'. apply (HdK x); [|done]. apply Hin. by rewrite elem_of_cons, elem_of_reverse_nodes, <- elem_of_cons.
Qed.

(** C29: values of named scopes. The scopes of a thread are a stack of the entries
    of the sentries, whatever else is in memory: entering and leaving scopes
    in the opposite order never follows a bad pointer and keeps the links and
    the size of the list right. A value that is detached from the thread has the
    scopes the thread had at that time, in order, and it keeps them while the
    thread goes on to enter and leave scopes; detaching it again does nothing;
    and its destruction frees its root and the nodes it allocated for the
    copy, which were still there, and nothing else. The memory of the copy is
    new, and there are less than 2^64 - 1 scopes. *)
Theorem detached_scopes_stay h o st d a block ops st' :
  is_list h o (reverse st) → (∀ x, is_Some (h !! x) → x ∈ d) →
  Forall (λ x, x ∉ d) (a :: seq block (length st)) → a ∉ seq block (length st) →
  scope_stack ops ({[a]} ∪ list_to_set (seq block (length st)) ∪ d) st = Some st' →
  (Z.of_nat (length st + length ops) < 2 ^ 64 - 1)%Z →
  ∃ v h1 o' h2 h3, detach_from_thread (ScopeValue o None) a block h = (Ok v, h1) ∧
    run_scopes ops o h1 = (Ok o', h2) ∧ is_list h2 o' (reverse st') ∧
    is_list h2 (m_pValue v) (copies block (reverse st)) ∧ (copies block (reverse st)).*2 = reverse st.*2 ∧
    detach_from_thread v a block h2 = (Ok v, h2) ∧
    (∀ x, x ∈ a :: seq block (length st) → is_Some (h2 !! x)) ∧
    destroy_list (m_pValue v) h2 = (Ok (), h3) ∧
    (∀ x, h3 !! x = if decide (x ∈ a :: seq block (length st)) then None else h2 !! x) ∧
    is_list h3 o' (reverse st').
Proof.
  intros Hl Hd Hfresh Ha Hst Hlen. destruct (detach_ok h o st d a block Hl Hd Hfresh Ha) as (c & h1 & Hcopy & Hc & Hroot & Hflag & Ht).
  set (K := {[a]} ∪ list_to_set (seq block (length st)) : gset addr) in *.
  destruct (run_scopes_ok ops h1 o st st' _ K Ht Hst Hlen) as (o' & h2 & d' & Hrun & Ht2 & Hr2 & HK2).
  destruct (copies_nodes block (reverse st)) as [Hn1 Hn2]. rewrite length_reverse in Hn1.
  assert (∀ x, x ∈ m_RootNode c :: (copies block (reverse st)).*1 ↔ x ∈ K) as HK.
  { intros x. unfold K. rewrite Hroot, Hn1, elem_of_union, elem_of_singleton, elem_of_list_to_set, elem_of_cons. done. }
  assert (is_list h2 c (copies block (reverse st))) as Hc2.
  { split; [|apply Hc]. eapply rep_agree; [|apply Hc]. intros x Hx. apply HK2. by apply HK. }
  destruct (destroy_list_ok h2 c (copies block (reverse st)) block) as (h3 & Hdes & H3); [done|..].
  { by rewrite length_copies, length_reverse. }
  { rewrite Hflag. apply bool_decide_ext. by destruct st as [|b st]; [|rewrite reverse_cons; destruct (reverse st)]. }
  exists (ScopeValue c (Some c)), h1, o', h2, h3. cbn [m_pValue]. split; [unfold detach_from_thread; cbn [m_DetachedValue m_pValue]; sm_step; by rewrite Hcopy|].
  split_and!; [done|apply Ht2|done|by rewrite Hn2, fmap_reverse|done| |done| |].
  { intros x Hx. eapply rep_live; [apply Hc2|]. by rewrite Hroot, Hn1. }
  { intros x. rewrite H3. apply decide_ext. by rewrite Hroot, Hn1. }
  split; [|apply Ht2]. eapply rep_agree; [|apply Ht2]. intros x Hx. rewrite H3. apply decide_False. rewrite HK.
  intros Hk. apply (ts_disjoint _ _ _ _ _ Ht2 x Hk). by rewrite elem_of_cons, <- elem_of_reverse_nodes, <- elem_of_cons.
Qed.

(** ** The lists of the threads *)

(** Every thread has a list of its own nodes, linked to no other one. *)
Definition threads_ok (σ : scope_lists) (ls : gmap nat (list (addr * named_scope_entry))) : Prop :=
  (∀ t l, ls !! t = Some l → ∃ o, pScopes σ !! t = Some o ∧ is_list (nodes σ) o l) ∧
  (∀ t, is_Some (pScopes σ !! t) → is_Some (ls !! t)) ∧
  (∀ t t' o o' l l', t ≠ t' → pScopes σ !! t = Some o → pScopes σ !! t' = Some o' → ls !! t = Some l → ls !! t' = Some l' →
     ∀ x, x ∈ m_RootNode o :: l.*1 → x ∉ m_RootNode o' :: l'.*1).

Lemma get_scope_list_run σ tid fresh o : pScopes σ !! tid = Some o → get_scope_list tid fresh σ = (Ok o, σ).
Proof. intros Ho. unfold get_scope_list, sm_get. rewrite sm_bind_run. by rewrite Ho. Qed.

(** Pushing changes the list of the thread and leaves the others alone. *)
Lemma push_scope_ok σ ls tid l a e fresh :
  threads_ok σ ls → ls !! tid = Some l → entry (nodes σ) a = Some e → (Z.of_nat (length l) < 2 ^ 64 - 1)%Z →
  (∀ t o l', pScopes σ !! t = Some o → ls !! t = Some l' → a ∉ m_RootNode o :: l'.*1) →
  ∃ σ', push_scope tid a fresh σ = (Ok (), σ') ∧ threads_ok σ' (<[tid := l ++ [(a, e)]]> ls).
Proof.
  intros (Hl & Hdom & Hdis) Htid Ha Hlen Hfresh. destruct (Hl tid l Htid) as (o & Ho & Hol).
  destruct (push_back_ok (nodes σ) o l a e Hol Ha (Hfresh tid o l Ho Htid) Hlen) as (o' & h' & Hrun & Hl' & Hroot & Hfr & _).
  eexists. unfold push_scope. split.
  { sm_step. rewrite (get_scope_list_run _ _ _ _ Ho). sm_step. unfold on_nodes. rewrite Hrun. reflexivity. }
  split_and!; cbn [nodes pScopes].
  - intros t k Ht. destruct (decide (t = tid)) as [->|Hne].
    + rewrite lookup_insert_eq in Ht. rewrite lookup_insert_eq. injection Ht as <-. by exists o'.
    + rewrite lookup_insert_ne in Ht by done. rewrite lookup_insert_ne by done. destruct (Hl t k Ht) as (q & Hq & Hqr & Hqs).
      exists q. split; [done|]. split; [|done]. eapply rep_agree; [|exact Hqr]. intros x Hx. apply Hfr.
      apply not_elem_of_cons. split; [intros ->; by apply (Hfresh t q k Hq Ht)|]. by apply (Hdis t tid q o k l Hne Hq Ho Ht Htid).
  - intros t. rewrite !lookup_insert_is_Some. naive_solver.
  - assert (∀ x, x ∈ m_RootNode o' :: (l ++ [(a, e)]).*1 ↔ x = a ∨ x ∈ m_RootNode o :: l.*1) as Hmem.
    { intros x. rewrite Hroot, fmap_app, !elem_of_cons, elem_of_app. cbn. rewrite list_elem_of_singleton. naive_solver. }
    intros t t' q q' k k' Hne. destruct (decide (t = tid)) as [->|N1]; [|destruct (decide (t' = tid)) as [->|N2]].
    + rewrite !lookup_insert_eq, !(lookup_insert_ne _ tid t') by done. intros [= <-] Hq' [= <-] Hk' x [->|Hx]%Hmem;
        [by apply (Hfresh t' q' k')|by apply (Hdis tid t' o q' l k')].
    + rewrite !lookup_insert_eq, !(lookup_insert_ne _ tid t) by done. intros Hq [= <-] Hk [= <-] x Hx [->|Hx']%Hmem;
        [by apply (Hfresh t q k)|by apply (Hdis t tid q o k l Hne Hq Ho Hk Htid x)].
    + rewrite !lookup_insert_ne by done. intros Hq Hq' Hk Hk'. by apply (Hdis t t').
Qed.

(** * Formatted scopes *)

(** The node at a position of a list; the root is behind the last one. *)
Definition position (r : addr) (l : list (addr * named_scope_entry)) (i : nat) : addr := first_of r (drop i l).

Lemma position_root r l : position r l (length l) = r.
Proof. unfold position. by rewrite drop_all. Qed.

Lemma inner_adjacent h l1 a e b e' l2 : inner h (l1 ++ (a, e) :: (b, e') :: l2) →
  entry h a = Some e ∧ next h a = Some b ∧ prev h b = Some a.
Proof. induction l1 as [|[c e''] l1 IH]; [by intros (? & [? ?] & _)|]. intros (_ & _ & H). by apply IH. Qed.

(** The links of an element and of its successor. *)
Lemma position_links h r l i : rep h r l → i < length l →
  ∃ a e, l !! i = Some (a, e) ∧ position r l i = a ∧ entry h a = Some e ∧
    next h (position r l i) = Some (position r l (S i)) ∧ prev h (position r l (S i)) = Some (position r l i).
Proof.
  intros [_ _ Hl Htr _ Hi] Hlt. destruct (lookup_lt_is_Some_2 l i Hlt) as [[a e] Hae]. exists a, e.
  destruct (list_elem_of_split_length _ _ _ Hae) as (l1 & l2 & -> & ->). unfold position.
  rewrite drop_app_length. replace (l1 ++ (a, e) :: l2) with ((l1 ++ [(a, e)]) ++ l2) by (by rewrite <- app_assoc).
  replace (S (length l1)) with (length (l1 ++ [(a, e)])) by (rewrite length_app; cbn; lia). rewrite drop_app_length.
  split; [rewrite <- app_assoc; by apply list_lookup_middle|]. split; [done|]. cbn [first_of].
  destruct l2 as [|[b e'] l2].
  - rewrite last_of_snoc in Hl, Htr. apply inner_init in Hi as (_ & He & _). done.
  - apply inner_adjacent in Hi as (? & ? & ?). done.
Qed.

Lemma position_inj r l i j : NoDup (r :: l.*1) → i ≤ length l → j ≤ length l → position r l i = position r l j → i = j.
Proof.
  intros Hnd Hi Hj. assert (∀ k, k ≤ length l → (l.*1 ++ [r]) !! k = Some (position r l k)) as Hp.
  { intros k Hk. unfold position. destruct (decide (k = length l)) as [->|Hne].
    - rewrite drop_all. rewrite lookup_app_r by (by rewrite length_fmap). by rewrite length_fmap, Nat.sub_diag.
    - rewrite lookup_app_l by (rewrite length_fmap; lia). rewrite list_lookup_fmap.
      destruct (lookup_lt_is_Some_2 l k ltac:(lia)) as [[a e] Ha]. rewrite Ha. cbn.
      by rewrite (drop_S l (a, e) k Ha). }
  intros E. assert (NoDup (l.*1 ++ [r])) as Hnd' by (by rewrite Permutation_app_comm).
  eapply NoDup_lookup; [exact Hnd'|by apply Hp|rewrite E; by apply Hp].
Qed.

Section formatted.
Context (fmt : named_scope_entry → str) (delimiter incomplete empty_marker : str) (depth : nat).

(** Elements with the delimiter between them. *)
Definition delimited (l : list named_scope_entry) : str := concat ((λ e, delimiter ++ fmt e) <$> l).

Definition join (l : list named_scope_entry) : str :=
  match l with [] => [] | e :: l => fmt e ++ delimited l end.

Lemma retreat_ok h r l k i : rep h r l → i ≤ length l → k ≤ i → retreat k (position r l i) h = (Ok (position r l (i - k)), h).
Proof.
  intros Hr. revert i. induction k as [|k IH]; intros i Hi Hk; cbn [retreat]; [by rewrite Nat.sub_0_r|].
  destruct i as [|i]; [lia|]. destruct (position_links h r l i Hr ltac:(lia)) as (a & e & _ & _ & _ & _ & Hp).
  assert (∃ n, next h (position r l (S i)) = Some n) as [n Hn] by (unfold prev, next in *; destruct (h !! _); [by eexists|done]).
  sm_step. rewrite (get_node_run _ _ _ _ Hp Hn). cbn [_m_pPrev]. rewrite IH by lia. done.
Qed.

Lemma element_ok h r l i a e : rep h r l → l !! i = Some (a, e) → element fmt (position r l i) h = (Ok (fmt e), h).
Proof.
  intros Hr Hl. apply lookup_lt_Some in Hl as Hlt. destruct (position_links h r l i Hr Hlt) as (a' & e' & Hl' & Ha & He & _ & _).
  rewrite Hl in Hl'. injection Hl' as <- <-. unfold element. sm_step. unfold get_node, entry in *. rewrite Ha in *.
  destruct (h !! a) as [x|]; [|done]. cbn in *. sm_step. by rewrite He.
Qed.

Lemma node_next h r l i : rep h r l → i < length l →
  ∃ x, get_node (position r l i) h = (Ok x, h) ∧ _m_pNext x = position r l (S i).
Proof.
  intros Hr Hlt. destruct (position_links h r l i Hr Hlt) as (a & e & _ & _ & _ & Hn & _).
  unfold get_node, next in *. destruct (h !! position r l i) as [x|]; [|done]. exists x. split; [done|]. by injection Hn.
Qed.

Lemma node_prev h r l i : rep h r l → i < length l →
  ∃ x, get_node (position r l (S i)) h = (Ok x, h) ∧ _m_pPrev x = position r l i.
Proof.
  intros Hr Hlt. destruct (position_links h r l i Hr Hlt) as (a & e & _ & _ & _ & _ & Hp).
  unfold get_node, prev in *. destruct (h !! position r l (S i)) as [x|]; [|done]. exists x. split; [done|]. by injection Hp.
Qed.

Lemma forward_loop_ok h r l fuel i acc : rep h r l → i ≤ length l → length l - i ≤ fuel →
  forward_loop fmt delimiter fuel (position r l i) r acc h = (Ok (acc ++ delimited (drop i l).*2), h).
Proof.
  intros Hr. revert i acc. induction fuel as [|fuel IH]; intros i acc Hi Hf; cbn [forward_loop].
  - assert (i = length l) as -> by lia. rewrite position_root, decide_True, drop_all by done. cbn. by rewrite app_nil_r.
  - destruct (decide (i = length l)) as [->|Hne].
    { rewrite position_root, decide_True, drop_all by done. cbn. by rewrite app_nil_r. }
    rewrite decide_False.
    2: { intros E. apply Hne. eapply position_inj; [apply Hr|done|done|]. by rewrite position_root. }
    destruct (lookup_lt_is_Some_2 l i ltac:(lia)) as [[a e] Ha]. sm_step. rewrite (element_ok h r l i a e) by done.
    destruct (node_next h r l i Hr ltac:(lia)) as (x & Hx & Hn). sm_step. rewrite Hx, Hn, IH by lia.
    rewrite (drop_S l (a, e) i Ha). unfold delimited. cbn. by rewrite <- !app_assoc.
Qed.

Lemma reverse_loop_ok h r l fuel i j acc : rep h r l → i ≤ length l → j ≤ i → i - j ≤ fuel →
  reverse_loop fmt delimiter fuel (position r l i) (position r l j) acc h =
    (Ok (acc ++ delimited (reverse (take (i - j) (drop j l)).*2)), h).
Proof.
  intros Hr. revert i acc. induction fuel as [|fuel IH]; intros i acc Hi Hj Hf; cbn [reverse_loop].
  - assert (i = j) as -> by lia. rewrite decide_True, Nat.sub_diag, take_0 by done. cbn. by rewrite app_nil_r.
  - destruct (decide (i = j)) as [->|Hne]; [rewrite decide_True, Nat.sub_diag, take_0 by done; cbn; by rewrite app_nil_r|].
    rewrite decide_False by (intros E; apply Hne; eapply position_inj; [apply Hr|lia|lia|done]).
    destruct i as [|i]; [lia|]. destruct (node_prev h r l i Hr ltac:(lia)) as (x & Hx & Hp). sm_step. rewrite Hx, Hp.
    destruct (lookup_lt_is_Some_2 l i ltac:(lia)) as [[a e] Ha]. sm_step. rewrite (element_ok h r l i a e) by done.
    rewrite IH by lia. replace (S i - j) with (S (i - j)) by lia.
    rewrite (take_S_r _ _ (a, e)) by (rewrite lookup_drop; by replace (j + (i - j)) with i by lia).
    rewrite fmap_app, reverse_app. unfold delimited. cbn. by rewrite <- !app_assoc.
Qed.

(** The number of scopes that are shown. *)
Definition shown (n : nat) : nat := if depth =? 0 then n else Nat.min depth n.

(** The innermost scopes, with a marker where others are left out. *)
Definition scopes_text (is_forward : bool) (l : list named_scope_entry) : str :=
  let k := shown (length l) in
  let chosen := drop (length l - k) l in
  let marker := if k <? length l then incomplete else [] in
  match l with
  | [] => empty_marker
  | _ => if is_forward then marker ++ join chosen else join (reverse chosen) ++ marker
  end.

Lemma shown_bounds n : 0 < n → 0 < shown n ≤ n.
Proof. unfold shown. destruct (depth =? 0) eqn:E; [lia|]. apply Nat.eqb_neq in E. lia. Qed.

(** Where the iteration starts, or ends. *)
Lemma start_node_ok h r l x : rep h r l → get_node r h = (Ok x, h) →
  (if 0 <? depth then retreat (Nat.min depth (length l)) r else mret (_m_pNext x)) h =
    (Ok (position r l (length l - shown (length l))), h) ∧ _m_pNext x = position r l 0.
Proof.
  intros Hr Hx. assert (_m_pNext x = position r l 0) as E.
  { pose proof (rep_first _ _ _ Hr) as Hf. unfold get_node, next in *. destruct (h !! r) as [y|]; [|done].
    injection Hx as <-. injection Hf as ->. unfold position. by rewrite drop_0. }
  split; [|done]. unfold shown. destruct depth as [|n]; cbn [Nat.eqb].
  - rewrite Nat.sub_diag, <- E. done.
  - rewrite (proj2 (Nat.ltb_lt 0 (S n))) by lia. rewrite <- (position_root r l) at 1. apply retreat_ok; [done|lia|lia].
Qed.

Lemma join_snoc_drop l i a e : l !! i = Some (a, e) → join (drop i l).*2 = fmt e ++ delimited (drop (S i) l).*2.
Proof. intros H. by rewrite (drop_S l (a, e) i H). Qed.

Lemma drop_nodes i l : (drop i l).*2 = drop i l.*2.
Proof. by rewrite fmap_drop. Qed.

Lemma format_forward_ok h o l : is_list h o l → l ≠ [] →
  format_forward fmt delimiter incomplete depth o h = (Ok (scopes_text true l.*2), h).
Proof.
  intros [Hr Hs] Hne. set (r := m_RootNode o) in *. assert (0 < length l) as Hpos by (destruct l; [done|cbn; lia]).
  pose proof (shown_bounds (length l) Hpos) as Hk. set (i := length l - shown (length l)).
  assert (∃ x, get_node r h = (Ok x, h)) as [x Hx].
  { unfold get_node. destruct (rep_live h r l r Hr) as [x ->]; [by left|]. by eexists. }
  destruct (start_node_ok h r l x Hr Hx) as [Hst Hn]. unfold format_forward. fold r. rewrite Hs, Nat2Z.id. sm_step. rewrite Hx.
  sm_step. rewrite Hst. fold i. rewrite decide_False.
  2: { intros E. rewrite <- (position_root r l) in E at 2. apply position_inj in E; [lia|apply Hr|lia|lia]. }
  destruct (lookup_lt_is_Some_2 l i ltac:(lia)) as [[a e] Ha]. sm_step. rewrite (element_ok h r l i a e) by done.
  destruct (node_next h r l i Hr ltac:(lia)) as (y & Hy & Hyn). sm_step. rewrite Hy, Hyn, forward_loop_ok by (done || lia).
  f_equal. f_equal. unfold scopes_text. rewrite length_fmap, <- fmap_drop. fold i. rewrite (join_snoc_drop l i a e Ha).
  rewrite Hn. destruct l as [|b l]; [done|]. cbn [fmap list_fmap]. rewrite <- app_assoc. f_equal.
  destruct (shown (length (b :: l)) <? length (b :: l)) eqn:E.
  - apply Nat.ltb_lt in E. rewrite decide_False; [done|]. intros E'. apply position_inj in E'; [lia|apply Hr|lia|lia].
  - apply Nat.ltb_ge in E. rewrite decide_True; [done|]. unfold i. f_equal. lia.
Qed.

Lemma format_reverse_ok h o l : is_list h o l → l ≠ [] →
  format_reverse fmt delimiter incomplete depth o h = (Ok (scopes_text false l.*2), h).
Proof.
  intros [Hr Hs] Hne. set (r := m_RootNode o) in *. assert (0 < length l) as Hpos by (destruct l; [done|cbn; lia]).
  pose proof (shown_bounds (length l) Hpos) as Hk. set (i := length l - shown (length l)).
  destruct (node_prev h r l (length l - 1) Hr ltac:(lia)) as (x & Hx & Hp).
  replace (S (length l - 1)) with (length l) in Hx by lia. rewrite position_root in Hx.
  destruct (start_node_ok h r l x Hr Hx) as [Hst Hn]. unfold format_reverse. fold r. rewrite Hs, Nat2Z.id. sm_step. rewrite Hx.
  sm_step. rewrite Hst. fold i. rewrite decide_False.
  2: { intros E. rewrite <- (position_root r l) in E at 1. apply position_inj in E; [lia|apply Hr|lia|lia]. }
  destruct (lookup_lt_is_Some_2 l (length l - 1) ltac:(lia)) as [[a e] Ha]. rewrite Hp. sm_step.
  rewrite (element_ok h r l _ a e) by done. sm_step. rewrite reverse_loop_ok by (done || lia). cbv iota beta.
  unfold mret, sm_ret. f_equal. f_equal. unfold scopes_text. rewrite length_fmap, <- fmap_drop. fold i.
  set (T := take (length l - 1 - i) (drop i l)). assert (drop i l = T ++ [(a, e)]) as E.
  { rewrite <- (take_drop (length l - 1 - i) (drop i l)). unfold T. f_equal. rewrite drop_drop.
    replace (i + (length l - 1 - i)) with (length l - 1) by lia. rewrite (drop_S l (a, e) _ Ha).
    by rewrite drop_ge by lia. }
  rewrite E, fmap_app, reverse_app. destruct l as [|b l]; [done|]. cbn [fmap list_fmap]. f_equal. rewrite Hn.
  destruct (shown (length (b :: l)) <? length (b :: l)) eqn:E1.
  - apply Nat.ltb_lt in E1. rewrite decide_False; [done|]. intros E'. apply position_inj in E'; [lia|apply Hr|lia|lia].
  - apply Nat.ltb_ge in E1. rewrite decide_True; [done|]. unfold i. f_equal. lia.
Qed.

(** The formatter of named scopes. Forward and backward iteration over the
    links of the list print the innermost scopes, at most as many as the depth
    says, with delimiters between them, outermost or innermost first, the
    marker where scopes are left out and the marker for an empty list. *)
Theorem named_scopes_formatted h o l is_forward : is_list h o l →
  format_named_scope fmt delimiter incomplete empty_marker depth is_forward o h = (Ok (scopes_text is_forward l.*2), h).
Proof.
  intros Hl. unfold format_named_scope. rewrite (empty_list _ _ _ Hl). case_bool_decide as E; [by subst|].
  destruct is_forward; [by apply format_forward_ok|by apply format_reverse_ok].
Qed.
End formatted.

(** * A thread with two scopes *)

Module sample_scopes.
Definition entry_of (name : string) : named_scope_entry := Entry (str_lit name) (str_lit "f.cpp") 1 general.

(** The list of a thread at the address 1. *)
Definition memory : heap := {[1 := Node 1 1 None]}.
Definition scopes : named_scope_list := ScopeList 1 0 false.

Lemma scopes_ok : is_list memory scopes [].
Proof. split; [|done]. apply rep_empty; done. Qed.

Definition stack : list (addr * named_scope_entry) := [(11, entry_of "b"); (10, entry_of "a")].

Definition two_scopes : outcome named_scope_list * heap :=
  run_scopes [Enter 10 (entry_of "a"); Enter 11 (entry_of "b")] scopes memory.

Lemma two_scopes_ok : ∃ o h, two_scopes = (Ok o, h) ∧ is_list h o (reverse stack) ∧ m_RootNode o = 1 ∧
  (∀ x, is_Some (h !! x) → x ∈ ({[1; 10; 11]} : gset addr)).
Proof.
  assert (thread_stack memory scopes [] {[1]} ∅) as Ht.
  { split; [apply scopes_ok| |set_solver|set_solver]. intros x [n Hx]. unfold memory in Hx. apply lookup_singleton_Some in Hx as [<- _]. set_solver. }
  destruct (run_scopes_ok [Enter 10 (entry_of "a"); Enter 11 (entry_of "b")] memory scopes [] stack {[1]} ∅ Ht)
    as (o & h & d & Hrun & [Hl _ _ _] & Hr & _); [by vm_compute|cbn; lia|]. exists o, h. split_and!; [done..|].
  assert (dom two_scopes.2 = ({[1; 10; 11]} : gset addr)) as E by (vm_compute; reflexivity).
  unfold two_scopes in E. rewrite Hrun in E. intros x Hx. rewrite <- E. by apply elem_of_dom.
Qed.

Lemma detached_scopes_stay_witness :
  ∃ v o' h2 h3, is_list h2 (m_pValue v) (copies 20 (reverse stack)) ∧ is_list h3 o' [] ∧
    is_Some (h2 !! 21) ∧ h3 !! 21 = None ∧
    (copies 20 (reverse stack)).*2 = [entry_of "a"; entry_of "b"].
Proof.
  destruct two_scopes_ok as (o & h & _ & Hl & _ & Hd).
  destruct (detached_scopes_stay h o stack {[1; 10; 11]} 5 20 [Leave 11; Leave 10] [] Hl Hd)
    as (v & h1 & o' & h2 & h3 & _ & _ & _ & Hc & _ & _ & Hlive & _ & Hfree & H3).
  - apply Forall_cons. split; [set_solver|]. apply Forall_cons. split; [set_solver|]. apply Forall_cons.
    split; [set_solver|]. by apply Forall_nil.
  - apply (bool_decide_unpack _). reflexivity.
  - vm_compute. reflexivity.
  - cbn. lia.
  - exists v, o', h2, h3. split; [exact Hc|]. split; [exact H3|]. split; [apply Hlive; cbn; set_solver|].
    split; [rewrite Hfree; reflexivity|reflexivity].
Defined.

Lemma named_scopes_formatted_witness :
  ∃ o h, format_named_scope scope_name (str_lit "->") (str_lit "...") [] 1 true o h = (Ok (str_lit "...b"), h) ∧
    format_named_scope scope_name (str_lit "->") (str_lit "...") [] 0 false o h = (Ok (str_lit "b->a"), h).
Proof.
  destruct two_scopes_ok as (o & h & _ & Hl & _ & _). exists o, h.
  split; rewrite (named_scopes_formatted scope_name _ _ _ _ h o (reverse stack) _ Hl); reflexivity.
Defined.
End sample_scopes.
