(* ===== verification/IpcQueue.v ===== *)
(** Interprocess message queue (src/src/posix/ipc_reliable_message_queue.cpp):
    the layout of the queue in shared memory and the operations that a thread
    performs on it while it holds the queue mutex.

    The region is the header and the bytes of the allocation blocks, which start
    behind the header. Offsets are relative to the first block, an access out of
    the blocks is undefined behaviour. A message occupies consecutive blocks of
    the ring; the first one begins with the size of the message. *)

From Stdlib Require Import ZArith.
From stdpp Require Import base numbers list.
From S2P Require Import Prelude.
Local Open Scope Z_scope.

(** * Bit tools (src/src/bit_tools.hpp) *)

Definition is_power_of_2 (n : Z) : bool := negb (n =? 0) && (Z.land n (n - 1) =? 0).

Definition make_fourcc (c1 c2 c3 c4 : Z) : Z :=
  Z.lor (Z.lor (Z.lor (u32 (Z.shiftl c1 24)) (u32 (Z.shiftl c2 16))) (u32 (Z.shiftl c3 8))) c4.

(** [boost::alignment::align_up] for [std::size_t]: the next multiple of an
    alignment, which is a power of two. *)
Class Alignment := {
  align_up : Z → Z → Z;
  align_up_spec : ∀ n a, 0 ≤ n → is_power_of_2 a = true → 0 < a → n + a ≤ 2 ^ 64 →
    (a | align_up n a) ∧ n ≤ align_up n a < n + a }.

(** [BOOST_LOG_CPU_CACHE_LINE_SIZE]. *)
Definition cpu_cache_line_size : Z := 64.

(** * MurmurHash3 (src/src/murmur3.hpp) *)

Record murmur3_32 := Murmur { m_state : Z; m_len : Z }.

Definition murmur_init (seed : Z) : murmur3_32 := Murmur seed 0.

Definition rotl32 (x r : Z) : Z := Z.lor (u32 (Z.shiftl x r)) (Z.shiftr x (32 - r)).

Definition mix (h : murmur3_32) (value : Z) : murmur3_32 :=
  let value := u32 (value * 0xcc9e2d51) in
  let value := rotl32 value 15 in
  let value := u32 (value * 0x1b873593) in
  let x := Z.lxor (m_state h) value in
  Murmur (u32 (u32 (rotl32 x 13 * 5) + 0xe6546b64)) (u32 (m_len h + 4)).

Definition finalize (h : murmur3_32) : Z :=
  let x := Z.lxor (m_state h) (m_len h) in
  let x := Z.lxor x (Z.shiftr x 16) in
  let x := u32 (x * 0x85ebca6b) in
  let x := Z.lxor x (Z.shiftr x 13) in
  let x := u32 (x * 0xc2b2ae35) in
  Z.lxor x (Z.shiftr x 16).

(** * Data in shared memory *)

(** The state of the process-shared robust mutex: [held false] is held by a
    thread that has not made it consistent after the death of an owner. *)
Inductive mutex_state : Type :=
| available
| held (consistent : bool)
| owner_dead
| not_recoverable.

#[export] Instance mutex_state_eq_dec : EqDecision mutex_state.
Proof. solve_decision. Defined.

(** What a thread does that other threads notice: notifications of the two
    condition variables, and the history of the queue. *)
Inductive event : Type :=
| ev_sent (message : list Z)
| ev_received (message : list Z)
| ev_cleared
| ev_notify_one_nonempty
| ev_notify_all_nonempty
| ev_notify_all_nonfull.

(** [reliable_message_queue::implementation::header]. *)
Record header := Header {
  m_abi_tag : Z;
  m_ref_count : Z;
  m_capacity : Z;
  m_block_size : Z;
  m_mutex : mutex_state;
  m_size : Z;
  m_put_pos : Z;
  m_get_pos : Z }.

Record region := Region {
  hdr : header;
  blocks : list Z;
  log : list event }.

Definition set_positions (size put get : Z) (q : region) : region :=
  let h := hdr q in
  Region (Header (m_abi_tag h) (m_ref_count h) (m_capacity h) (m_block_size h) (m_mutex h) size put get)
    (blocks q) (log q).
Definition set_mutex (m : mutex_state) (q : region) : region :=
  let h := hdr q in
  Region (Header (m_abi_tag h) (m_ref_count h) (m_capacity h) (m_block_size h) m (m_size h) (m_put_pos h)
    (m_get_pos h)) (blocks q) (log q).
Definition set_blocks (b : list Z) (q : region) : region := Region (hdr q) b (log q).
Definition emit (e : event) (q : region) : region := Region (hdr q) (blocks q) (log q ++ [e]).

(** [reliable_message_queue::overflow_policy], [operation_result] and the
    members of an open queue object. *)
Inductive overflow_policy : Type := block_on_overflow | fail_on_overflow | throw_on_overflow.

Inductive operation_result : Type := succeeded | no_space | aborted.

#[export] Instance overflow_policy_eq_dec : EqDecision overflow_policy.
Proof. solve_decision. Defined.

#[export] Instance operation_result_eq_dec : EqDecision operation_result.
Proof. solve_decision. Defined.

Record implementation := Impl {
  m_overflow_policy : overflow_policy;
  m_block_size_mask : Z;
  m_block_size_log2 : Z;
  m_stop : bool }.

(** ** Memory accesses *)

(** The bytes of a 32-bit number in the byte order of x86. *)
Definition le32 (n : Z) : list Z :=
  [n mod 256; (n / 256) mod 256; (n / 65536) mod 256; (n / 16777216) mod 256].

Definition of_le32 (b : list Z) : Z :=
  match b with
  | [b0; b1; b2; b3] => b0 + 256 * b1 + 65536 * b2 + 16777216 * b3
  | _ => 0
  end.

(** Replaces the elements of a list from a position on. *)
Definition splice (off : nat) (d l : list Z) : list Z := take off l ++ d ++ drop (off + length d) l.

Definition load (off n : Z) : sm region (list Z) :=
  q ← sm_get;
  if (0 <=? off) && (0 <=? n) && (off + n <=? Z.of_nat (length (blocks q)))
  then mret (take (Z.to_nat n) (drop (Z.to_nat off) (blocks q)))
  else sm_lift Stuck.

Definition store (off : Z) (d : list Z) : sm region unit :=
  q ← sm_get;
  if (0 <=? off) && (off + Z.of_nat (length d) <=? Z.of_nat (length (blocks q)))
  then sm_put (set_blocks (splice (Z.to_nat off) d (blocks q)) q)
  else sm_lift Stuck.

(** [std::memcpy] of [n] bytes of a buffer of the caller to the blocks. *)
Definition memcpy (off : Z) (src : list Z) (n : Z) : sm region unit :=
  if (0 <=? n) && (n <=? Z.of_nat (length src)) then store off (take (Z.to_nat n) src) else sm_lift Stuck.

Definition sm_assert {St} (b : bool) : sm St unit := if b then mret () else sm_lift Stuck.

(** * The mutex (src/src/posix/ipc_sync_wrappers.hpp) *)

(** [interprocess_mutex::lock]; [Ok false] is the exception [lock_owner_dead],
    which [lock_queue] catches. A thread that locks a mutex it holds waits
    forever. *)
Definition mutex_lock : sm region bool :=
  q ← sm_get;
  match m_mutex (hdr q) with
  | available => sm_put (set_mutex (held true) q);; mret true
  | owner_dead => sm_put (set_mutex (held false) q);; mret false
  | not_recoverable => sm_throw ex_system_error
  | held _ => sm_lift Stuck
  end.

(** [interprocess_mutex::unlock], with its [BOOST_VERIFY]. *)
Definition mutex_unlock : sm region unit :=
  q ← sm_get;
  match m_mutex (hdr q) with
  | held true => sm_put (set_mutex available q)
  | held false => sm_put (set_mutex not_recoverable q)
  | _ => sm_lift Stuck
  end.

(** [interprocess_mutex::recover]. *)
Definition mutex_recover : sm region unit :=
  q ← sm_get;
  match m_mutex (hdr q) with
  | held false => sm_put (set_mutex (held true) q)
  | _ => sm_throw ex_system_error
  end.

(** The end of [interprocess_condition_variable::wait]: [pthread_cond_wait]
    locks the mutex again and reports the state in which it finds it; every
    error becomes an exception, also the one with which the mutex is locked. *)
Definition cond_wait_relock : sm region unit :=
  q ← sm_get;
  match m_mutex (hdr q) with
  | available => sm_put (set_mutex (held true) q)
  | owner_dead => sm_put (set_mutex (held false) q);; sm_throw ex_system_error
  | not_recoverable => sm_throw ex_system_error
  | held _ => sm_lift Stuck
  end.

(** The scope of an [auto_unlock]: the mutex is unlocked when the scope is
    left, by an exception or not. *)
Definition auto_unlock {X H} (m : sm (region * H) X) : sm (region * H) X := λ σ,
  match m σ with
  | (Stuck, σ') => (Stuck, σ')
  | (r, (q, h)) =>
      match mutex_unlock q with
      | (Ok _, q') => (r, (q', h))
      | (Throw e, q') => (Throw e, (q', h))
      | (Stuck, q') => (Stuck, (q', h))
      end
  end.

(** Code that accesses only the region, in code that also calls a handler. *)
Definition on_queue {X H} (m : sm region X) : sm (region * H) X := λ σ,
  let (r, q) := m (fst σ) in (r, (q, snd σ)).
Definition on_handler {X H} (m : sm H X) : sm (region * H) X := λ σ,
  let (r, h) := m (snd σ) in (r, (fst σ, h)).

Section queue.
Context `{AL : Alignment}.

(** * Blocks *)

(** [block_header::get_header_overhead]. *)
Definition get_header_overhead : Z := u32 (align_up 4 32).

(** [block_header::get_data]. *)
Definition get_data (block : Z) : Z := block + get_header_overhead.

(** [header::get_block]. *)
Definition get_block (index : Z) : sm region Z :=
  q ← sm_get;
  sm_assert (index <? m_capacity (hdr q));;
  mret (u64 (m_block_size (hdr q) * index)).

(** [estimate_region_size]; the size of the header depends on the platform. *)
Definition estimate_region_size (sizeof_header capacity block_size : Z) : Z :=
  u64 (align_up sizeof_header cpu_cache_line_size + u64 (capacity * block_size)).

(** [init_block_size]. *)
Definition init_block_size (block_size : Z) (impl : implementation) : implementation :=
  let mask := u32 (block_size - 1) in
  let b0 := block_size in
  let (b1, l1) := if Z.land b0 0xffff =? 0 then (Z.shiftr b0 16, 16) else (b0, 0) in
  let (b2, l2) := if Z.land b1 0xff =? 0 then (Z.shiftr b1 8, l1 + 8) else (b1, l1) in
  let (b3, l3) := if Z.land b2 0xf =? 0 then (Z.shiftr b2 4, l2 + 4) else (b2, l2) in
  let (b4, l4) := if Z.land b3 0x3 =? 0 then (Z.shiftr b3 2, l3 + 2) else (b3, l3) in
  let l5 := if Z.land b4 0x1 =? 0 then l4 + 1 else l4 in
  Impl (m_overflow_policy impl) mask l5 (m_stop impl).

(** [estimate_block_count]: the sum is a 32-bit number. *)
Definition estimate_block_count (impl : implementation) (size : Z) : Z :=
  Z.shiftr (u32 (u32 (size + get_header_overhead) + m_block_size_mask impl)) (m_block_size_log2 impl).

(** [clear_queue]. *)
Definition clear_queue : sm region unit :=
  sm_modify (λ q, emit ev_notify_all_nonfull (emit ev_cleared (set_positions 0 0 0 q))).

(** [lock_queue]. The handler of [lock_owner_dead] unlocks the mutex when
    the recovery fails. *)
Definition lock_queue : sm region unit :=
  locked ← mutex_lock;
  if locked : bool then mret ()
  else sm_catch (clear_queue;; mutex_recover) (λ e, mutex_unlock;; sm_throw e).

(** [enqueue_message]. *)
Definition enqueue_message (message_data : list Z) (message_size block_count : Z) : sm region unit :=
  q ← sm_get;
  let capacity := m_capacity (hdr q) in
  let block_size := m_block_size (hdr q) in
  let pos := m_put_pos (hdr q) in
  sm_assert (pos <? capacity);;
  block ← get_block pos;
  store block (le32 message_size);;
  let write_size :=
    Z.min (u32 (u32 (u32 (capacity - pos) * block_size) - get_header_overhead)) message_size in
  memcpy (get_data block) message_data write_size;;
  let pos := u32 (pos + block_count) in
  pos ←
    (if capacity <=? pos then
       let pos := u32 (pos - capacity) in
       let message_data := drop (Z.to_nat write_size) message_data in
       let write_size := u32 (message_size - write_size) in
       (if 0 <? write_size then block0 ← get_block 0; memcpy block0 message_data write_size
        else mret ());;
       mret pos
     else mret pos);
  q ← sm_get;
  let old_queue_size := m_size (hdr q) in
  sm_put (set_positions (u32 (old_queue_size + block_count)) pos (m_get_pos (hdr q)) q);;
  sm_modify (emit (ev_sent message_data));;
  if old_queue_size =? 0 then sm_modify (emit ev_notify_one_nonempty) else mret ().

(** A call of the receive handler with [n] bytes at an address in the blocks. *)
Definition call_handler {H} (handler : list Z → sm H unit) (off n : Z) : sm (region * H) (list Z) :=
  d ← on_queue (load off n);
  on_handler (handler d);;
  mret d.

(** [dequeue_message]. *)
Definition dequeue_message {H} (impl : implementation) (handler : list Z → sm H unit) :
    sm (region * H) unit :=
  q ← on_queue sm_get;
  let capacity := m_capacity (hdr q) in
  let block_size := m_block_size (hdr q) in
  let pos := m_get_pos (hdr q) in
  sm_assert (pos <? capacity);;
  block ← on_queue (get_block pos);
  size_bytes ← on_queue (load block 4);
  let message_size := of_le32 size_bytes in
  let block_count := estimate_block_count impl message_size in
  sm_assert (block_count <=? m_size (hdr q));;
  let read_size :=
    Z.min (u32 (u32 (u32 (capacity - pos) * block_size) - get_header_overhead)) message_size in
  d1 ← call_handler handler (get_data block) read_size;
  let pos := u32 (pos + block_count) in
  r ←
    (if capacity <=? pos then
       let pos := u32 (pos - capacity) in
       let read_size := u32 (message_size - read_size) in
       d2 ← (if 0 <? read_size then block0 ← on_queue (get_block 0); call_handler handler block0 read_size
             else mret []);
       mret (pos, d2)
     else mret (pos, []));
  let (pos, d2) := r : Z * list Z in
  on_queue (q ← sm_get;
    sm_put (set_positions (u32 (m_size (hdr q) - block_count)) (m_put_pos (hdr q)) pos q);;
    sm_modify (emit (ev_received (d1 ++ d2)));;
    sm_modify (emit ev_notify_all_nonfull)).

(** * The public operations, from the lock of the mutex to its release

    [Ok None] means that the thread waits for a condition variable: it has
    released the mutex, and continues with the corresponding [_resumed]
    section when it wakes up. *)

(** The body of the loop in [send]. *)
Definition send_body {H} (impl : implementation) (data : list Z) (size block_count : Z) :
    sm (region * H) (option operation_result) :=
  q ← on_queue sm_get;
  if m_stop impl then mret (Some aborted)
  else if block_count <=? u32 (m_capacity (hdr q) - m_size (hdr q)) then
    on_queue (enqueue_message data size block_count);; mret (Some succeeded)
  else match m_overflow_policy impl with
       | fail_on_overflow => mret (Some no_space)
       | throw_on_overflow => sm_throw ex_capacity_limit_reached
       | block_on_overflow => mret None
       end.

Definition send {H} (impl : implementation) (data : list Z) (size : Z) :
    sm (region * H) (option operation_result) :=
  let block_count := estimate_block_count impl size in
  q ← on_queue sm_get;
  if m_capacity (hdr q) <? block_count then sm_throw ex_logic_error
  else if m_stop impl then mret (Some aborted)
  else on_queue lock_queue;; auto_unlock (send_body impl data size block_count).

Definition send_resumed {H} (impl : implementation) (data : list Z) (size : Z) :
    sm (region * H) (option operation_result) :=
  auto_unlock (on_queue cond_wait_relock;; send_body impl data size (estimate_block_count impl size)).

Definition try_send {H} (impl : implementation) (data : list Z) (size : Z) : sm (region * H) bool :=
  let block_count := estimate_block_count impl size in
  q ← on_queue sm_get;
  if m_capacity (hdr q) <? block_count then sm_throw ex_logic_error
  else if m_stop impl then mret false
  else
    on_queue lock_queue;;
    auto_unlock
      (q ← on_queue sm_get;
       if m_stop impl then mret false
       else if u32 (m_capacity (hdr q) - m_size (hdr q)) <? block_count then mret false
       else on_queue (enqueue_message data size block_count);; mret true).

(** The body of the loop in [receive]. *)
Definition receive_body {H} (impl : implementation) (handler : list Z → sm H unit) :
    sm (region * H) (option operation_result) :=
  q ← on_queue sm_get;
  if m_stop impl then mret (Some aborted)
  else if 0 <? m_size (hdr q) then dequeue_message impl handler;; mret (Some succeeded)
  else mret None.

Definition receive {H} (impl : implementation) (handler : list Z → sm H unit) :
    sm (region * H) (option operation_result) :=
  if m_stop impl then mret (Some aborted)
  else on_queue lock_queue;; auto_unlock (receive_body impl handler).

Definition receive_resumed {H} (impl : implementation) (handler : list Z → sm H unit) :
    sm (region * H) (option operation_result) :=
  auto_unlock (on_queue cond_wait_relock;; receive_body impl handler).

Definition try_receive {H} (impl : implementation) (handler : list Z → sm H unit) :
    sm (region * H) bool :=
  if m_stop impl then mret false
  else
    on_queue lock_queue;;
    auto_unlock
      (q ← on_queue sm_get;
       if m_size (hdr q) =? 0 then mret false
       else dequeue_message impl handler;; mret true).

(** [stop_local]; the result tells whether the flag of the object is set. *)
Definition stop_local {H} (impl : implementation) : sm (region * H) implementation :=
  if m_stop impl then mret impl
  else
    on_queue lock_queue;;
    auto_unlock
      (on_queue (sm_modify (emit ev_notify_all_nonempty);; sm_modify (emit ev_notify_all_nonfull));;
       mret (Impl (m_overflow_policy impl) (m_block_size_mask impl) (m_block_size_log2 impl) true)).

Definition reset_local (impl : implementation) : implementation :=
  Impl (m_overflow_policy impl) (m_block_size_mask impl) (m_block_size_log2 impl) false.

Definition clear {H} : sm (region * H) unit :=
  on_queue lock_queue;; auto_unlock (on_queue clear_queue).

(** * Receive handlers *)

(** [fixed_buffer_state]: the bytes already written and the room left. *)
Record fixed_buffer_state := FixedBuffer { fb_data : list Z; fb_size : Z }.

Definition fixed_buffer_receive_handler (d : list Z) : sm fixed_buffer_state unit :=
  p ← sm_get;
  let size := Z.of_nat (length d) in
  if fb_size p <? size then sm_throw ex_bad_alloc
  else sm_put (FixedBuffer (fb_data p ++ d) (u32 (fb_size p - size))).

Definition container_receive_handler (d : list Z) : sm (list Z) unit :=
  sm_modify (λ container, container ++ d).

(** [receive(void*, size_type, size_type&)] sets [message_size] to this. *)
Definition received_size (buffer_size : Z) (p : fixed_buffer_state) : Z := u32 (buffer_size - fb_size p).

(** * Creating, opening and closing a queue *)

(** [header::get_abi_tag]; the sizes and offsets of the members, in the order
    of their declaration, depend on the platform. *)
Definition get_abi_tag (members : list (Z * Z)) : Z :=
  let h := murmur_init (make_fourcc 114 101 108 113) in
  let h := mix h (make_fourcc 112 116 104 114) in
  let h := mix h 0 in
  let h := mix h cpu_cache_line_size in
  let h := mix h 32 in
  finalize (fold_left (λ h (m : Z * Z), mix (mix h (u32 m.1)) (u32 m.2)) members h).

(** The constructor of [header] in memory that the system has filled with
    zeros. *)
Definition new_header (abi_tag capacity block_size : Z) : header :=
  Header abi_tag (u32 (0 + 1)) capacity block_size available 0 0 0.

Definition create_region (abi_tag capacity block_size : Z) (impl : implementation) : region * implementation :=
  (Region (new_header abi_tag capacity block_size) (replicate (Z.to_nat (capacity * block_size)) 0) [],
   init_block_size block_size impl).

(** [reliable_message_queue::create] when the name is free, with the
    constructor of [implementation]. *)
Definition create (abi_tag capacity block_size : Z) (policy : overflow_policy) :
    outcome (region * implementation) :=
  if negb (is_power_of_2 block_size) then Throw ex_invalid_argument
  else
    let block_size := u32 (align_up block_size cpu_cache_line_size) in
    if get_header_overhead <=? block_size
    then Ok (create_region abi_tag capacity block_size (Impl policy 0 0 false))
    else Stuck.

Definition set_ref_count (n : Z) (q : region) : region :=
  let h := hdr q in
  Region (Header (m_abi_tag h) n (m_capacity h) (m_block_size h) (m_mutex h) (m_size h) (m_put_pos h)
    (m_get_pos h)) (blocks q) (log q).

(** [close_region]: the result tells whether the segment is removed. *)
Definition close_region : sm region bool :=
  q ← sm_get;
  sm_put (set_ref_count (u32 (m_ref_count (hdr q) - 1)) q);;
  mret (m_ref_count (hdr q) =? 1).

(** [adopt_region], from the observation that the region is initialized: one
    more reference is counted, and the layout is checked. *)
Definition adopt_region (abi_tag : Z) (impl : implementation) : sm region implementation :=
  q ← sm_get;
  sm_put (set_ref_count (u32 (m_ref_count (hdr q) + 1)) q);;
  sm_catch
    ((if negb (m_abi_tag (hdr q) =? abi_tag) then sm_throw ex_setup_error else mret ());;
     (if negb (is_power_of_2 (m_block_size (hdr q))) then sm_throw ex_setup_error else mret ());;
     mret (init_block_size (m_block_size (hdr q)) impl))
    (λ e, close_region;; sm_throw e).

(** * The queue as a list of messages *)

(** The number of blocks of a message. *)
Definition blocks_of (block_size : Z) (m : list Z) : Z :=
  (Z.of_nat (length m) + 32 + block_size - 1) / block_size.

Definition blocks_used (block_size : Z) (ms : list (list Z)) : Z :=
  foldr (λ m acc, blocks_of block_size m + acc) 0 ms.

(** The bytes that hold a message. *)
Definition valid_frame (block_size : Z) (m frame : list Z) : Prop :=
  length frame = Z.to_nat (blocks_of block_size m * block_size) ∧
  take 4 frame = le32 (Z.of_nat (length m)) ∧
  take (length m) (drop 32 frame) = m.

(** The blocks in the order in which they are read, from a given position. *)
Definition ring_view (g : nat) (mem : list Z) : list Z := drop g mem ++ take g mem.

(** The position of a block behind another one. *)
Definition next_pos (cap pos count : Z) : Z := if pos + count <? cap then pos + count else pos + count - cap.

(** The object is attached to the region. *)
Definition attached (impl : implementation) (q : region) : Prop :=
  ∃ k, 5 ≤ k < 32 ∧ m_block_size (hdr q) = 2 ^ k ∧
    m_block_size_mask impl = 2 ^ k - 1 ∧ m_block_size_log2 impl = k.

(** A message whose size can be rounded up to blocks in 32-bit arithmetic. *)
Definition sendable (block_size : Z) (m : list Z) : Prop := Z.of_nat (length m) + 31 + block_size < 2 ^ 32.

(** The region holds the messages [ms], the oldest first. *)
Record queue_rep (q : region) (ms : list (list Z)) : Prop := {
  rep_capacity : 0 < m_capacity (hdr q);
  rep_block_size : ∃ k, 5 ≤ k < 32 ∧ m_block_size (hdr q) = 2 ^ k;
  rep_total : m_capacity (hdr q) * m_block_size (hdr q) ≤ 2 ^ 32;
  rep_length : Z.of_nat (length (blocks q)) = m_capacity (hdr q) * m_block_size (hdr q);
  rep_sendable : Forall (sendable (m_block_size (hdr q))) ms;
  rep_size : m_size (hdr q) = blocks_used (m_block_size (hdr q)) ms;
  rep_fits : m_size (hdr q) ≤ m_capacity (hdr q);
  rep_get : 0 ≤ m_get_pos (hdr q) < m_capacity (hdr q);
  rep_put : m_put_pos (hdr q) = next_pos (m_capacity (hdr q)) (m_get_pos (hdr q)) (m_size (hdr q));
  rep_view : ∃ frames free,
    ring_view (Z.to_nat (m_get_pos (hdr q) * m_block_size (hdr q))) (blocks q) = concat frames ++ free ∧
    Forall2 (valid_frame (m_block_size (hdr q))) ms frames }.

(** * Lemmas on byte sequences *)

Lemma splice_app_r off d A F :
  (length A ≤ off)%nat → splice off d (A ++ F) = A ++ splice (off - length A) d F.
Proof.
  intros H. unfold splice. rewrite take_app, drop_app, take_ge, drop_ge by lia.
  rewrite <- app_assoc. simpl. do 4 f_equal. lia.
Qed.

Lemma splice_app_l off d A F :
  (off + length d ≤ length A)%nat → splice off d (A ++ F) = splice off d A ++ F.
Proof.
  intros H. unfold splice. rewrite take_app_le, drop_app_le by lia. by rewrite <- !app_assoc.
Qed.

Lemma length_splice off d l : (off + length d ≤ length l)%nat → length (splice off d l) = length l.
Proof. intros H. unfold splice. rewrite !length_app, length_take, length_drop. lia. Qed.

Lemma splice_nil off l : splice off [] l = l.
Proof. unfold splice. rewrite Nat.add_0_r. apply take_drop. Qed.

Lemma drop_splice n off d l :
  (off + length d ≤ n)%nat → (off ≤ length l)%nat → drop n (splice off d l) = drop n l.
Proof.
  intros H1 H2. unfold splice. rewrite drop_app_ge by (rewrite length_take; lia).
  rewrite length_take, Nat.min_l, drop_app_ge, drop_drop by lia. f_equal. lia.
Qed.

(** Two consecutive writes are one. *)
Lemma splice_splice off d1 d2 l :
  (off + length d1 + length d2 ≤ length l)%nat →
  splice (off + length d1) d2 (splice off d1 l) = splice off (d1 ++ d2) l.
Proof.
  intros H. unfold splice at 2. rewrite splice_app_r by (rewrite length_take; lia).
  rewrite splice_app_r by (rewrite length_take; lia). rewrite length_take.
  unfold splice. rewrite length_app, <- app_assoc.
  replace (off + length d1 - off `min` length l - length d1)%nat with 0%nat by lia.
  rewrite take_0, drop_drop. simpl. do 4 f_equal. lia.
Qed.

Lemma ring_view_app A B : ring_view (length A) (A ++ B) = B ++ A.
Proof. unfold ring_view. by rewrite drop_app_length, take_app_length. Qed.

Lemma length_ring_view g mem : length (ring_view g mem) = length mem.
Proof. unfold ring_view. rewrite length_app, length_drop, length_take. lia. Qed.

Lemma ring_split g mem :
  (g ≤ length mem)%nat → ∃ A B, mem = A ++ B ∧ length A = g ∧ ring_view g mem = B ++ A.
Proof.
  intros H. exists (take g mem), (drop g mem). rewrite take_drop, length_take. split_and!; [done|lia|done].
Qed.

Lemma ring_splice_hi g p d mem :
  (g ≤ p)%nat → (p + length d ≤ length mem)%nat →
  ring_view g (splice p d mem) = splice (p - g) d (ring_view g mem).
Proof.
  intros H1 H2. destruct (ring_split g mem) as (A & B & -> & <- & ->); [lia|].
  rewrite length_app in H2. rewrite splice_app_r, ring_view_app, splice_app_l by lia. done.
Qed.

Lemma ring_splice_lo g p d mem :
  (p + length d ≤ g)%nat → (g ≤ length mem)%nat →
  ring_view g (splice p d mem) = splice (length mem - g + p) d (ring_view g mem).
Proof.
  intros H1 H2. destruct (ring_split g mem) as (A & B & -> & HA & ->); [lia|].
  rewrite splice_app_l by lia. rewrite <- HA, <- (length_splice p d A) at 1 by lia.
  rewrite ring_view_app, splice_app_r by (rewrite length_app; lia).
  rewrite length_app. do 2 f_equal. lia.
Qed.

(** Turning the ring further. *)
Lemma ring_view_turn g n X Y mem :
  (g < length mem)%nat → (n ≤ length mem)%nat → ring_view g mem = X ++ Y → length X = n →
  ring_view (if decide (g + n < length mem)%nat then g + n else g + n - length mem)%nat mem = Y ++ X.
Proof.
  intros Hg Hn Hv <-. destruct (ring_split g mem) as (A & B & -> & <- & HAB); [lia|].
  rewrite HAB in Hv. pose proof (f_equal length Hv) as Hlen. rewrite !length_app in *. case_decide.
  - assert (∃ B', B = X ++ B' ∧ Y = B' ++ A) as (B' & -> & ->).
    { apply app_eq_inv in Hv as [(k & -> & ->)|(k & -> & ->)]; [by exists k|].
      rewrite length_app in *. destruct k; simpl in *; [|lia]. exists []. by rewrite !app_nil_r. }
    rewrite app_assoc, <- length_app, ring_view_app. by rewrite app_assoc.
  - assert (∃ A', X = B ++ A' ∧ A = A' ++ Y) as (A' & -> & ->).
    { apply app_eq_inv in Hv as [(k & -> & ->)|(k & -> & ->)]; [|by exists k].
      rewrite length_app in *. destruct k; simpl in *; [|lia]. exists []. by rewrite !app_nil_r. }
    rewrite !length_app in *.
    replace (length A' + length Y + (length B + length A') - (length A' + length Y + length B))%nat
      with (length A') by lia.
    rewrite <- app_assoc, ring_view_app. by rewrite <- app_assoc.
Qed.

(** Reading the ring at the front, and from the physical beginning. *)
Lemma ring_read_hi g k n mem :
  (g + k + n ≤ length mem)%nat → take n (drop (g + k) mem) = take n (drop k (ring_view g mem)).
Proof.
  intros H. unfold ring_view. rewrite drop_app_le by (rewrite length_drop; lia).
  rewrite take_app_le by (rewrite !length_drop; lia). by rewrite drop_drop.
Qed.

Lemma ring_read_lo g n mem :
  (n ≤ g)%nat → (g ≤ length mem)%nat → take n mem = take n (drop (length mem - g) (ring_view g mem)).
Proof.
  intros H1 H2. unfold ring_view. rewrite drop_app_ge by (rewrite length_drop; lia).
  rewrite length_drop. replace (length mem - g - (length mem - g))%nat with 0%nat by lia.
  rewrite drop_0, take_take. f_equal. lia.
Qed.

Lemma of_le32_le32 n : 0 ≤ n < 2 ^ 32 → of_le32 (le32 n) = n.
Proof.
  intros H. unfold of_le32, le32. replace 65536 with (256 * 256) by lia.
  replace 16777216 with (256 * 256 * 256) by lia. rewrite <- !Z.div_div by lia.
  pose proof (Z.div_mod n 256 ltac:(lia)). pose proof (Z.div_mod (n / 256) 256 ltac:(lia)).
  pose proof (Z.div_mod (n / 256 / 256) 256 ltac:(lia)).
  pose proof (Z.div_mod (n / 256 / 256 / 256) 256 ltac:(lia)).
  assert (n / 256 / 256 / 256 / 256 = 0).
  { rewrite !Z.div_div by lia. apply Z.div_small. lia. }
  lia.
Qed.

Lemma load_run off n q :
  0 ≤ off → 0 ≤ n → off + n ≤ Z.of_nat (length (blocks q)) →
  load off n q = (Ok (take (Z.to_nat n) (drop (Z.to_nat off) (blocks q))), q).
Proof.
  intros H1 H2 H3. unfold load. rewrite sm_bind_run. cbn [sm_get].
  rewrite !(proj2 (Z.leb_le _ _)) by lia. done.
Qed.

Lemma store_run off d q :
  0 ≤ off → off + Z.of_nat (length d) ≤ Z.of_nat (length (blocks q)) →
  store off d q = (Ok (), set_blocks (splice (Z.to_nat off) d (blocks q)) q).
Proof.
  intros H1 H2. unfold store. rewrite sm_bind_run. cbn [sm_get].
  rewrite !(proj2 (Z.leb_le _ _)) by lia. done.
Qed.

Lemma memcpy_run off src n q :
  0 ≤ off → 0 ≤ n ≤ Z.of_nat (length src) → off + n ≤ Z.of_nat (length (blocks q)) →
  memcpy off src n q =
    (Ok (), set_blocks (splice (Z.to_nat off) (take (Z.to_nat n) src) (blocks q)) q).
Proof.
  intros H1 H2 H3. unfold memcpy. rewrite !(proj2 (Z.leb_le _ _)) by lia. cbn [andb].
  apply store_run; [done|]. rewrite length_take. lia.
Qed.

(** ** Writing and reading a frame in the ring *)

(** The writes of a message at the end of the used part [A] of the ring, the
    last one at the physical beginning, fill the free part. *)
Lemma write_frame mem g p A F hd m w :
  (g < length mem)%nat → ring_view g mem = A ++ F → length hd = 4%nat →
  p = (if decide (g + length A < length mem)%nat then g + length A else g + length A - length mem)%nat →
  (p + 32 ≤ length mem)%nat → (p < g → p + 32 ≤ g)%nat →
  (32 + length m ≤ length F)%nat → w = ((length mem - p - 32) `min` length m)%nat →
  ring_view g (splice 0 (drop w m) (splice (p + 32) (take w m) (splice p hd mem))) =
    A ++ splice 32 m (splice 0 hd F).
Proof.
  intros Hg Hv Hhd Hp Hp32 Hlow HF Hw. pose proof (length_ring_view g mem) as Hlen.
  rewrite Hv, length_app in Hlen. case_decide as Hd.
  - assert (length (take w m) = w) as Htw by (rewrite length_take; lia).
    assert (length (splice p hd mem) = length mem) as L1 by (apply length_splice; lia).
    assert (length (splice (p + 32) (take w m) (splice p hd mem)) = length mem) as L2
      by (rewrite length_splice, L1; lia).
    destruct (decide (length m ≤ w)%nat) as [Hall|Hpart].
    + rewrite drop_ge, splice_nil, (take_ge m) by lia.
      rewrite !ring_splice_hi, Hv by lia. rewrite !splice_app_r by lia.
      do 3 f_equal; lia.
    + assert (length (drop w m) ≤ g)%nat as Hdw by (rewrite length_drop; lia).
      rewrite ring_splice_lo by (rewrite ?L2; lia). rewrite L2, !ring_splice_hi, Hv by lia.
      rewrite !splice_app_r by lia. f_equal.
      replace (length mem - g + 0 - length A)%nat with (32 + length (take w m))%nat by lia.
      replace (p + 32 - g - length A)%nat with 32%nat by lia.
      replace (p - g - length A)%nat with 0%nat by lia.
      rewrite splice_splice, take_drop; [done|].
      rewrite length_splice, Htw, length_drop by lia. lia.
  - assert (w = length m) as -> by lia. rewrite drop_ge, splice_nil, take_ge by lia.
    rewrite ring_splice_lo by (rewrite ?length_splice; lia).
    rewrite length_splice, ring_splice_lo, Hv by lia. rewrite !splice_app_r by lia.
    do 3 f_equal; lia.
Qed.

Lemma written_frame F hd m n :
  length hd = 4%nat → (32 + length m ≤ n)%nat → (n ≤ length F)%nat →
  let frame := take n (splice 32 m (splice 0 hd F)) in
  length frame = n ∧ take 4 frame = hd ∧ take (length m) (drop 32 frame) = m.
Proof.
  intros Hhd Hn HF frame.
  assert (length (splice 0 hd F) = length F) as L1 by (apply length_splice; lia).
  split_and!.
  - unfold frame. rewrite length_take, length_splice; lia.
  - unfold frame. rewrite take_take, Nat.min_l by lia. unfold splice at 1.
    rewrite take_app_le by (rewrite length_take; lia). rewrite take_take, Nat.min_l by lia.
    unfold splice. simpl. rewrite take_app_le by lia. apply take_ge. lia.
  - unfold frame. rewrite skipn_firstn_comm, take_take, Nat.min_l by lia. unfold splice at 1.
    rewrite drop_app_ge by (rewrite length_take; lia).
    rewrite length_take, L1, Nat.min_l, Nat.sub_diag by lia. rewrite drop_0. apply take_app_length.
Qed.

(** The reads of a message at the front of the ring give its bytes. *)
Lemma read_frame mem g frame Y m w :
  (g + 32 ≤ length mem)%nat → ring_view g mem = frame ++ Y → (32 + length m ≤ length frame)%nat →
  take (length m) (drop 32 frame) = m → w = ((length mem - g - 32) `min` length m)%nat →
  take w (drop (g + 32) mem) ++ take (length m - w) mem = m.
Proof.
  intros Hg Hv Hfr Hm Hw. pose proof (length_ring_view g mem) as Hlen.
  rewrite Hv, length_app in Hlen.
  assert (∀ k n, (32 + k + n ≤ length frame)%nat →
    take n (drop (32 + k) (frame ++ Y)) = take n (drop k (drop 32 frame))) as Hread.
  { intros k n Hkn. rewrite drop_app_le, take_app_le by (rewrite ?length_drop; lia).
    by rewrite drop_drop. }
  rewrite ring_read_hi, Hv by lia. rewrite (Hread 0%nat) by lia. rewrite drop_0.
  destruct (decide (length m ≤ w)%nat) as [Hall|Hpart].
  - replace (length m - w)%nat with 0%nat by lia. replace w with (length m) by lia.
    by rewrite take_0, app_nil_r.
  - rewrite (ring_read_lo g (length m - w)) by lia. rewrite Hv.
    replace (length mem - g)%nat with (32 + w)%nat by lia. rewrite Hread by lia.
    transitivity (take (length m) (drop 32 frame)); [|done].
    rewrite <- (take_drop w (take (length m) (drop 32 frame))), take_take, skipn_firstn_comm.
    do 2 f_equal. lia.
Qed.

(** ** Sizes in blocks *)

Lemma header_overhead : get_header_overhead = 32.
Proof.
  unfold get_header_overhead.
  destruct (align_up_spec 4 32) as [[z Hz] Hr]; [lia|done|lia|lia|]. rewrite u32_id; lia.
Qed.

Lemma blocks_of_bounds bs m :
  32 ≤ bs → Z.of_nat (length m) + 32 ≤ blocks_of bs m * bs < Z.of_nat (length m) + 32 + bs.
Proof.
  intros Hbs. unfold blocks_of. pose proof (Z.div_mod (Z.of_nat (length m) + 32 + bs - 1) bs ltac:(lia)).
  pose proof (Z.mod_pos_bound (Z.of_nat (length m) + 32 + bs - 1) bs ltac:(lia)). lia.
Qed.

Lemma blocks_of_pos bs m : 32 ≤ bs → 1 ≤ blocks_of bs m.
Proof. intros Hbs. pose proof (blocks_of_bounds bs m Hbs). nia. Qed.

Lemma pow2_ge_32 k : 5 ≤ k → 32 ≤ 2 ^ k.
Proof. intros Hk. change 32 with (2 ^ 5). by apply Z.pow_le_mono_r. Qed.

Lemma estimate_block_count_ok impl q m :
  attached impl q → sendable (m_block_size (hdr q)) m →
  estimate_block_count impl (Z.of_nat (length m)) = blocks_of (m_block_size (hdr q)) m.
Proof.
  intros (k & Hk & Hbs & Hmask & Hlog) Hs. unfold sendable, estimate_block_count, blocks_of in *.
  rewrite header_overhead, Hmask, Hlog, Hbs in *. pose proof (pow2_ge_32 k ltac:(lia)).
  rewrite (u32_id (_ + 32)), u32_id by lia. rewrite Z.shiftr_div_pow2 by lia. f_equal. lia.
Qed.

Lemma blocks_used_app bs ms ms' : blocks_used bs (ms ++ ms') = blocks_used bs ms + blocks_used bs ms'.
Proof.
  unfold blocks_used. induction ms as [|m ms IH]; cbn [app foldr]; [done|]. rewrite IH. lia.
Qed.

Lemma blocks_used_nonneg bs ms : 32 ≤ bs → 0 ≤ blocks_used bs ms.
Proof.
  intros Hbs. unfold blocks_used. induction ms as [|m ms IH]; cbn [foldr]; [lia|].
  pose proof (blocks_of_pos bs m Hbs). lia.
Qed.

Lemma blocks_used_zero bs ms : 32 ≤ bs → blocks_used bs ms = 0 ↔ ms = [].
Proof.
  intros Hbs. split; [|by intros ->]. destruct ms as [|m ms]; [done|]. intros H.
  change (blocks_of bs m + blocks_used bs ms = 0) in H.
  pose proof (blocks_of_pos bs m Hbs). pose proof (blocks_used_nonneg bs ms Hbs). lia.
Qed.

Lemma frames_length bs ms frames :
  32 ≤ bs → Forall2 (valid_frame bs) ms frames →
  Z.of_nat (length (concat frames)) = blocks_used bs ms * bs.
Proof.
  intros Hbs. induction 1 as [|m fr ms frs Hv _ IH]; [done|].
  cbn [concat]. rewrite length_app, Nat2Z.inj_add, IH. destruct Hv as [-> _].
  change (blocks_used bs (m :: ms)) with (blocks_of bs m + blocks_used bs ms).
  pose proof (blocks_of_pos bs m Hbs). rewrite Z2Nat.id; nia.
Qed.

Lemma blocks_le a c b bs : a + c ≤ b → 0 ≤ bs → a * bs + c * bs ≤ b * bs.
Proof. intros. rewrite <- Z.mul_add_distr_r. by apply Z.mul_le_mono_nonneg_r. Qed.

(** The room up to the physical end, computed by the code in 32-bit
    arithmetic. *)
Lemma chunk_size bs cap pos size :
  32 ≤ bs → 0 ≤ pos < cap → cap * bs ≤ 2 ^ 32 → 0 ≤ size < 2 ^ 32 - 32 →
  Z.min (u32 (u32 (u32 (cap - pos) * bs) - 32)) size = Z.min ((cap - pos) * bs - 32) size.
Proof.
  intros Hbs Hpos Htot Hsize. rewrite (u32_id (cap - pos)) by nia.
  assert (u32 (u32 ((cap - pos) * bs) - 32) = (cap - pos) * bs - 32) as ->; [|done].
  destruct (Z.lt_ge_cases ((cap - pos) * bs) (2 ^ 32)) as [Hlt|Hge].
  - rewrite (u32_id ((cap - pos) * bs)), u32_id by nia. done.
  - assert ((cap - pos) * bs = 2 ^ 32) as -> by nia. done.
Qed.

Lemma get_block_run index q :
  0 ≤ index < m_capacity (hdr q) → 0 ≤ m_block_size (hdr q) → m_capacity (hdr q) * m_block_size (hdr q) ≤ 2 ^ 32 →
  get_block index q = (Ok (index * m_block_size (hdr q)), q).
Proof.
  intros H1 H2 H3. unfold get_block. rewrite sm_bind_run. cbn [sm_get].
  rewrite (proj2 (Z.ltb_lt _ _)) by lia. rewrite sm_bind_run. cbn.
  rewrite u64_id by nia. by rewrite Z.mul_comm.
Qed.

(** ** The operations on the ring *)

Lemma rep_facts q ms :
  queue_rep q ms →
  32 ≤ m_block_size (hdr q) ∧ 0 ≤ m_size (hdr q) ≤ m_capacity (hdr q) ∧
  0 ≤ m_put_pos (hdr q) < m_capacity (hdr q) ∧ m_capacity (hdr q) < 2 ^ 32.
Proof.
  intros [Hcap (k & Hk & Hbs) Htot Hlen _ Hsize Hfits Hget Hput _].
  pose proof (pow2_ge_32 k ltac:(lia)). rewrite <- Hbs in *.
  pose proof (blocks_used_nonneg (m_block_size (hdr q)) ms ltac:(lia)).
  split_and!; try lia; try nia; rewrite Hput; unfold next_pos; case_match; to_prop; lia.
Qed.

Lemma next_pos_range cap pos count :
  0 ≤ pos < cap → 0 ≤ count ≤ cap → 0 ≤ next_pos cap pos count < cap.
Proof. intros. unfold next_pos. case_match; to_prop; lia. Qed.

Lemma next_pos_add cap pos n count :
  0 ≤ pos < cap → 0 ≤ n → 0 ≤ count → n + count ≤ cap →
  next_pos cap (next_pos cap pos n) count = next_pos cap pos (n + count).
Proof. intros. unfold next_pos. repeat case_match; to_prop; lia. Qed.

Lemma next_pos_code {St} cap pos count (k : sm St unit) σ :
  0 ≤ pos < cap → 0 ≤ count ≤ cap → cap < 2 ^ 31 →
  (if cap <=? u32 (pos + count) then k;; mret (u32 (u32 (pos + count) - cap)) else mret (u32 (pos + count))) σ =
  ((if cap <=? pos + count then k else mret ());; mret (next_pos cap pos count)) σ.
Proof.
  intros H1 H2 H3. unfold next_pos. rewrite (u32_id (pos + count)) by lia.
  case_match; to_prop.
  - rewrite (proj2 (Z.ltb_ge _ _)) by lia. rewrite u32_id by lia. done.
  - rewrite (proj2 (Z.ltb_lt _ _)) by lia. done.
Qed.

Lemma next_pos_code_pair {St X} cap pos count (k : sm St X) x σ :
  0 ≤ pos < cap → 0 ≤ count ≤ cap → cap < 2 ^ 31 →
  (if cap <=? u32 (pos + count) then d ← k; mret (u32 (u32 (pos + count) - cap), d)
   else mret (u32 (pos + count), x)) σ =
  (d ← (if cap <=? pos + count then k else mret x); mret (next_pos cap pos count, d)) σ.
Proof.
  intros H1 H2 H3. unfold next_pos. rewrite (u32_id (pos + count)) by lia.
  case_match; to_prop.
  - rewrite (proj2 (Z.ltb_ge _ _)) by lia. rewrite u32_id by lia. done.
  - rewrite (proj2 (Z.ltb_lt _ _)) by lia. done.
Qed.

(** What [enqueue_message] makes of the region. *)
Definition enqueued (m : list Z) (q : region) : region :=
  let h := hdr q in
  let count := blocks_of (m_block_size h) m in
  let p := Z.to_nat (m_put_pos h * m_block_size h) in
  let w := Z.to_nat (Z.min ((m_capacity h - m_put_pos h) * m_block_size h - 32) (Z.of_nat (length m))) in
  let mem := splice 0 (drop w m)
    (splice (p + 32) (take w m) (splice p (le32 (Z.of_nat (length m))) (blocks q))) in
  let q := set_positions (m_size h + count) (next_pos (m_capacity h) (m_put_pos h) count) (m_get_pos h)
    (set_blocks mem q) in
  let q := emit (ev_sent m) q in
  if m_size h =? 0 then emit ev_notify_one_nonempty q else q.

Lemma set_blocks_same q : set_blocks (blocks q) q = q.
Proof. by destruct q. Qed.

(** The end of a message, if there is one, goes to the first block. *)
Lemma tail_write (b : bool) m w q :
  0 ≤ w ≤ Z.of_nat (length m) → Z.of_nat (length m) < 2 ^ 32 →
  (b = false → w = Z.of_nat (length m)) →
  0 < m_capacity (hdr q) → 0 ≤ m_block_size (hdr q) → m_capacity (hdr q) * m_block_size (hdr q) ≤ 2 ^ 32 →
  Z.of_nat (length m) - w ≤ Z.of_nat (length (blocks q)) →
  (if b then
     (if 0 <? u32 (Z.of_nat (length m) - w)
      then block0 ← get_block 0; memcpy block0 (drop (Z.to_nat w) m) (u32 (Z.of_nat (length m) - w))
      else mret ())
   else mret ()) q = (Ok (), set_blocks (splice 0 (drop (Z.to_nat w) m) (blocks q)) q).
Proof.
  intros Hw Hm Hb H1 H2 H3 H4. rewrite u32_id by lia. destruct (decide (w = Z.of_nat (length m))) as [->|Hne].
  - rewrite Z.sub_diag. cbn [Z.ltb Z.compare]. rewrite drop_ge, splice_nil, set_blocks_same by lia.
    by destruct b.
  - destruct b; [|by destruct Hne; auto]. rewrite (proj2 (Z.ltb_lt _ _)) by lia.
    rewrite sm_bind_run, get_block_run by lia.
    rewrite memcpy_run by (rewrite ?length_drop; lia). rewrite take_ge by (rewrite length_drop; lia). done.
Qed.

Lemma enqueue_run q ms m :
  queue_rep q ms → sendable (m_block_size (hdr q)) m →
  m_size (hdr q) + blocks_of (m_block_size (hdr q)) m ≤ m_capacity (hdr q) →
  enqueue_message m (Z.of_nat (length m)) (blocks_of (m_block_size (hdr q)) m) q = (Ok (), enqueued m q).
Proof.
  intros HR Hs Hroom. destruct (rep_facts q ms HR) as (Hbs & Hsz & Hput & Hcap).
  pose proof (rep_total _ _ HR) as Htot. pose proof (rep_length _ _ HR) as Hlen.
  pose proof (blocks_of_bounds _ m Hbs) as Hm. pose proof (blocks_of_pos _ m Hbs) as Hm1.
  unfold sendable in Hs. unfold enqueue_message. rewrite sm_bind_run. cbn [sm_get].
  unfold sm_assert at 1. rewrite (proj2 (Z.ltb_lt (m_put_pos _) _)) by lia.
  rewrite sm_bind_run. cbn [mret sm_ret]. rewrite sm_bind_run, get_block_run by lia.
  unfold get_data. rewrite header_overhead, chunk_size by nia.
  set (bs := m_block_size (hdr q)) in *. set (put := m_put_pos (hdr q)) in *.
  set (cap := m_capacity (hdr q)) in *. set (w := Z.min ((cap - put) * bs - 32) (Z.of_nat (length m))) in *.
  assert (0 ≤ w ≤ Z.of_nat (length m)) as Hw by nia.
  rewrite sm_bind_run, store_run by (cbn; nia).
  rewrite sm_bind_run, memcpy_run by (cbn [blocks set_blocks]; rewrite ?length_splice; cbn; nia).
  rewrite sm_bind_run.
  match goal with |- context [(if cap <=? u32 (put + ?c) then ?k;; _ else _) ?σ] =>
    rewrite (next_pos_code cap put c k σ) by nia end.
  rewrite sm_bind_run, tail_write; cbn [set_blocks hdr blocks].
  - cbn [mret sm_ret]. do 3 sm_step. cbn [hdr set_blocks]. rewrite u32_id by lia. unfold enqueued. fold bs put cap w.
    replace (Z.to_nat (put * bs + 32)) with (Z.to_nat (put * bs) + 32)%nat by nia.
    by case_match.
  - done.
  - lia.
  - intros Hle. to_prop. nia.
  - fold cap. lia.
  - fold bs. lia.
  - fold cap bs. lia.
  - rewrite !length_splice; [nia|..]; rewrite ?length_splice; rewrite ?length_take; cbn; nia.
Qed.

Lemma enqueued_hdr m q :
  hdr (enqueued m q) =
    let h := hdr q in
    let count := blocks_of (m_block_size h) m in
    Header (m_abi_tag h) (m_ref_count h) (m_capacity h) (m_block_size h) (m_mutex h) (m_size h + count)
      (next_pos (m_capacity h) (m_put_pos h) count) (m_get_pos h).
Proof. unfold enqueued. by case_match. Qed.

Lemma enqueued_log m q :
  log (enqueued m q) = log q ++ ev_sent m :: (if m_size (hdr q) =? 0 then [ev_notify_one_nonempty] else []).
Proof. unfold enqueued. case_match; cbn; by rewrite <- ?app_assoc. Qed.

(** The ring after [enqueue_message]. *)
Lemma enqueued_view q ms m :
  queue_rep q ms → m_size (hdr q) + blocks_of (m_block_size (hdr q)) m ≤ m_capacity (hdr q) →
  ∃ frames free,
    ring_view (Z.to_nat (m_get_pos (hdr q) * m_block_size (hdr q))) (blocks (enqueued m q)) =
      concat frames ++ free ∧
    Forall2 (valid_frame (m_block_size (hdr q))) (ms ++ [m]) frames.
Proof.
  intros HR Hroom. destruct (rep_facts q ms HR) as (Hbs & Hsz & Hput & Hcap).
  destruct HR as [_ _ Htot Hlen _ Hsize _ Hget Hputeq (frames & free & Hview & Hfr)].
  pose proof (blocks_of_bounds _ m Hbs) as Hm. pose proof (frames_length _ _ _ Hbs Hfr) as HA.
  rewrite <- Hsize in HA. unfold enqueued.
  set (h := hdr q) in *. set (bs := m_block_size h) in *. set (cap := m_capacity h) in *.
  set (g := Z.to_nat (m_get_pos h * bs)) in *. set (p := Z.to_nat (m_put_pos h * bs)) in *.
  set (w := Z.to_nat _). set (hd := le32 _).
  pose proof (length_ring_view g (blocks q)) as HL. rewrite Hview, length_app in HL.
  assert (Z.of_nat g = m_get_pos h * bs ∧ Z.of_nat p = m_put_pos h * bs) as [Zg Zp] by (unfold g, p; nia).
  pose proof (blocks_le (m_put_pos h) 1 cap bs ltac:(lia) ltac:(lia)) as M1.
  pose proof (blocks_le (m_get_pos h) 1 cap bs ltac:(lia) ltac:(lia)) as M2.
  pose proof (blocks_le (m_size h) (blocks_of bs m) cap bs ltac:(lia) ltac:(lia)) as M3.
  assert (m_put_pos h < m_get_pos h → m_put_pos h * bs + 1 * bs ≤ m_get_pos h * bs) as M4
    by (intros; apply blocks_le; lia).
  assert (p = if decide (g + length (concat frames) < length (blocks q))%nat
              then g + length (concat frames) else g + length (concat frames) - length (blocks q))%nat as Hp.
  { rewrite Hputeq in Zp. unfold next_pos in Zp. clear - Zp Zg HA Hlen Hbs. case_match; to_prop; case_decide; nia. }
  pose proof (write_frame (blocks q) g p (concat frames) free hd m w ltac:(lia) Hview eq_refl Hp
    ltac:(lia) ltac:(clear - M4 Zg Zp Hbs; nia) ltac:(lia) ltac:(lia)) as HW.
  pose proof (written_frame free hd m (Z.to_nat (blocks_of bs m * bs)) eq_refl ltac:(lia) ltac:(lia)) as HF.
  set (F' := splice 32 m (splice 0 hd free)) in *.
  exists (frames ++ [take (Z.to_nat (blocks_of bs m * bs)) F']), (drop (Z.to_nat (blocks_of bs m * bs)) F').
  split; [|by apply Forall2_app; [done|repeat constructor; apply HF]].
  rewrite concat_app. cbn [concat]. rewrite app_nil_r, <- app_assoc, take_drop. rewrite <- HW. by destruct (m_size h =? 0).
Qed.

Lemma enqueued_length q ms m :
  queue_rep q ms → m_size (hdr q) + blocks_of (m_block_size (hdr q)) m ≤ m_capacity (hdr q) →
  length (blocks (enqueued m q)) = length (blocks q).
Proof.
  intros HR Hroom. destruct (rep_facts q ms HR) as (Hbs & Hsz & Hput & Hcap).
  pose proof (rep_length _ _ HR) as Hlen. pose proof (blocks_of_bounds _ m Hbs) as Hm.
  unfold enqueued. set (h := hdr q) in *.
  pose proof (blocks_le (m_put_pos h) 1 (m_capacity h) (m_block_size h) ltac:(lia) ltac:(lia)) as M1.
  pose proof (blocks_le (m_size h) (blocks_of (m_block_size h) m) (m_capacity h) (m_block_size h)
    ltac:(lia) ltac:(lia)) as M2.
  pose proof (Z.mul_nonneg_nonneg (m_put_pos h) (m_block_size h) ltac:(lia) ltac:(lia)) as M3.
  pose proof (Z.mul_nonneg_nonneg (m_size h) (m_block_size h) ltac:(lia) ltac:(lia)) as M4.
  set (w := Z.to_nat _). assert (w ≤ length m)%nat as Hw by (clear; unfold w; lia).
  assert (Z.of_nat w ≤ Z.max 0 ((m_capacity h - m_put_pos h) * m_block_size h - 32)) as Hw2 by (clear; unfold w; lia).
  set (p := Z.to_nat (m_put_pos h * m_block_size h)). set (hd := le32 _).
  assert (length (splice p hd (blocks q)) = length (blocks q)) as L1.
  { apply length_splice. change (length hd) with 4%nat. lia. }
  assert (length (splice (p + 32) (take w m) (splice p hd (blocks q))) = length (blocks q)) as L2.
  { rewrite length_splice, L1; rewrite ?L1, ?length_take; lia. }
  transitivity (length (splice 0 (drop w m) (splice (p + 32) (take w m) (splice p hd (blocks q)))));
    [by destruct (m_size h =? 0)|].
  rewrite length_splice, L2; rewrite ?L2, ?length_drop; lia.
Qed.

Lemma enqueued_rep q ms m :
  queue_rep q ms → sendable (m_block_size (hdr q)) m →
  m_size (hdr q) + blocks_of (m_block_size (hdr q)) m ≤ m_capacity (hdr q) →
  queue_rep (enqueued m q) (ms ++ [m]).
Proof.
  intros HR Hs Hroom. pose proof (enqueued_view q ms m HR Hroom) as Hview.
  destruct (rep_facts q ms HR) as (Hbs & Hsz & Hput & Hcap). pose proof (blocks_of_pos _ m Hbs) as Hm1.
  pose proof (enqueued_length q ms m HR Hroom) as Hel.
  destruct HR as [Hcap0 Hpow Htot Hlen Hsend Hsize Hfits Hget Hputeq _].
  split; rewrite enqueued_hdr; cbn -[Z.mul]; try done.
  - by rewrite Hel.
  - apply Forall_app_2; [done|]. by apply Forall_singleton.
  - rewrite blocks_used_app, Hsize. cbn. lia.
  - rewrite Hputeq. apply next_pos_add; lia.
Qed.

(** The calls of the handler for a message whose first [w] bytes lie before the
    physical end of the ring. *)
Definition deliver {H} (handler : list Z → sm H unit) (w : nat) (m : list Z) : sm H unit :=
  handler (take w m);;
  if decide (length m ≤ w)%nat then mret () else handler (drop w m).

Definition chunk_of (q : region) (m : list Z) : nat :=
  Z.to_nat (Z.min ((m_capacity (hdr q) - m_get_pos (hdr q)) * m_block_size (hdr q) - 32) (Z.of_nat (length m))).

(** What [dequeue_message] makes of the region. *)
Definition dequeued (m : list Z) (q : region) : region :=
  let h := hdr q in
  let count := blocks_of (m_block_size h) m in
  emit ev_notify_all_nonfull (emit (ev_received m)
    (set_positions (m_size h - count) (m_put_pos h) (next_pos (m_capacity h) (m_get_pos h) count) q)).

Lemma on_queue_run {X H} (m : sm region X) q (h : H) r q' :
  m q = (r, q') → on_queue m (q, h) = (r, (q', h)).
Proof. intros Hm. unfold on_queue. cbn [fst snd]. by rewrite Hm. Qed.

Lemma call_handler_run {H} (handler : list Z → sm H unit) off n q (h : H) :
  0 ≤ off → 0 ≤ n → off + n ≤ Z.of_nat (length (blocks q)) →
  call_handler handler off n (q, h) =
    let d := take (Z.to_nat n) (drop (Z.to_nat off) (blocks q)) in
    match handler d h with
    | (Ok _, h') => (Ok d, (q, h'))
    | (Throw e, h') => (Throw e, (q, h'))
    | (Stuck, h') => (Stuck, (q, h'))
    end.
Proof.
  intros H1 H2 H3. unfold call_handler. rewrite sm_bind_run.
  rewrite (on_queue_run _ q h _ _ (load_run off n q H1 H2 H3)). rewrite sm_bind_run.
  unfold on_handler. cbn [fst snd]. by destruct (handler _ h) as [[?|?|] ?].
Qed.

(** The second call of the handler, if the message wraps around. *)
Lemma tail_read {H} (handler : list Z → sm H unit) (b : bool) n w q (h : H) :
  0 ≤ w ≤ n → n < 2 ^ 32 → (b = false → w = n) →
  0 < m_capacity (hdr q) → 0 ≤ m_block_size (hdr q) → m_capacity (hdr q) * m_block_size (hdr q) ≤ 2 ^ 32 →
  n - w ≤ Z.of_nat (length (blocks q)) →
  (if b then
     (if 0 <? u32 (n - w) then block0 ← on_queue (get_block 0); call_handler handler block0 (u32 (n - w))
      else mret [])
   else mret []) (q, h) =
    let d := take (Z.to_nat (n - w)) (blocks q) in
    if decide (n = w) then (Ok d, (q, h))
    else match handler d h with
         | (Ok _, h') => (Ok d, (q, h'))
         | (Throw e, h') => (Throw e, (q, h'))
         | (Stuck, h') => (Stuck, (q, h'))
         end.
Proof.
  intros Hw Hn Hb H1 H2 H3 H4. rewrite u32_id by lia. case_decide as Hd.
  - rewrite Hd, Z.sub_diag. cbn. rewrite take_0. by destruct b.
  - destruct b; [|by destruct Hd; symmetry; auto]. rewrite (proj2 (Z.ltb_lt _ _)) by lia.
    rewrite sm_bind_run, (on_queue_run _ q h _ _ (get_block_run 0 q ltac:(lia) H2 H3)).
    by rewrite call_handler_run by lia.
Qed.

(** The bytes of the oldest message. *)
Lemma front_bytes q m ms :
  queue_rep q (m :: ms) →
  let g := Z.to_nat (m_get_pos (hdr q) * m_block_size (hdr q)) in
  take 4 (drop g (blocks q)) = le32 (Z.of_nat (length m)) ∧
  take (chunk_of q m) (drop (g + 32) (blocks q)) = take (chunk_of q m) m ∧
  take (length m - chunk_of q m) (blocks q) = drop (chunk_of q m) m ∧
  (32 + length m ≤ length (blocks q))%nat.
Proof.
  intros HR g. destruct (rep_facts q _ HR) as (Hbs & Hsz & Hput & Hcap).
  pose proof (blocks_of_bounds _ m Hbs) as Hm.
  destruct HR as [_ _ Htot Hlen _ _ _ Hget _ (frames & free & Hview & Hfr)].
  apply Forall2_cons_inv_l in Hfr as (fr & frs & (Hfl & Hf4 & Hfm) & _ & ->).
  cbn [concat] in Hview. rewrite <- app_assoc in Hview. unfold chunk_of.
  set (bs := m_block_size (hdr q)) in *. set (cap := m_capacity (hdr q)) in *. fold g in Hview.
  pose proof (blocks_le (m_get_pos (hdr q)) 1 cap bs ltac:(lia) ltac:(lia)) as M1.
  pose proof (Z.mul_nonneg_nonneg (m_get_pos (hdr q)) bs ltac:(lia) ltac:(lia)) as M2.
  assert (Z.of_nat g = m_get_pos (hdr q) * bs) as Zg by lia. clearbody g.
  pose proof (length_ring_view g (blocks q)) as HL. rewrite Hview, length_app in HL.
  set (w := Z.to_nat _).
  pose proof (read_frame (blocks q) g fr _ m w ltac:(lia) Hview ltac:(lia) Hfm ltac:(lia)) as HR.
  assert (length (take w (drop (g + 32) (blocks q))) = w) as Hw by (rewrite length_take, length_drop; lia).
  split_and!.
  - rewrite <- (Nat.add_0_r g), ring_read_hi, Hview by lia. rewrite drop_0, take_app_le by lia. done.
  - revert HR Hw. generalize (take w (drop (g + 32) (blocks q))) as X, (take (length m - w) (blocks q)) as Y.
    intros X Y <- HX. by rewrite take_app_le, take_ge by lia.
  - revert HR Hw. generalize (take w (drop (g + 32) (blocks q))) as X, (take (length m - w) (blocks q)) as Y.
    clearbody w. intros X Y <- HX. by rewrite drop_app_ge, HX, Nat.sub_diag by lia.
  - lia.
Qed.

Lemma front_blocks q m ms :
  queue_rep q (m :: ms) →
  1 ≤ blocks_of (m_block_size (hdr q)) m ≤ m_size (hdr q) ∧
  Z.of_nat (length m) + 32 ≤ blocks_of (m_block_size (hdr q)) m * m_block_size (hdr q) ∧
  0 ≤ m_get_pos (hdr q) * m_block_size (hdr q) ∧
  m_get_pos (hdr q) * m_block_size (hdr q) + m_block_size (hdr q) ≤ Z.of_nat (length (blocks q)).
Proof.
  intros HR. destruct (rep_facts q _ HR) as (Hbs & _). pose proof (rep_get _ _ HR) as Hget.
  pose proof (blocks_of_bounds _ m Hbs) as Hm. pose proof (blocks_of_pos _ m Hbs) as Hm1.
  rewrite (rep_size _ _ HR), (rep_length _ _ HR).
  pose proof (blocks_used_nonneg _ ms Hbs) as Hn.
  change (blocks_used (m_block_size (hdr q)) (m :: ms)) with
    (blocks_of (m_block_size (hdr q)) m + blocks_used (m_block_size (hdr q)) ms).
  pose proof (blocks_le (m_get_pos (hdr q)) 1 (m_capacity (hdr q)) (m_block_size (hdr q))
    ltac:(lia) ltac:(lia)) as M1.
  pose proof (Z.mul_nonneg_nonneg (m_get_pos (hdr q)) (m_block_size (hdr q)) ltac:(lia) ltac:(lia)) as M2.
  lia.
Qed.

(** [dequeue_message] passes the oldest message to the handler, in one piece or
    two, and removes it unless the handler throws. *)
Lemma dequeue_run {H} impl (handler : list Z → sm H unit) q m ms (h : H) :
  queue_rep q (m :: ms) → attached impl q →
  dequeue_message impl handler (q, h) =
    match deliver handler (chunk_of q m) m h with
    | (Ok _, h') => (Ok (), (dequeued m q, h'))
    | (Throw e, h') => (Throw e, (q, h'))
    | (Stuck, h') => (Stuck, (q, h'))
    end.
Proof.
  intros HR Hat. destruct (rep_facts q _ HR) as (Hbs & Hsz & Hput & Hcap).
  pose proof (rep_sendable _ _ HR) as Hs. apply Forall_cons in Hs as [Hs _].
  pose proof (estimate_block_count_ok impl q m Hat Hs) as Hest. unfold sendable in Hs.
  destruct (front_bytes q m ms HR) as (B1 & B2 & B3 & B4).
  destruct (front_blocks q m ms HR) as (F1 & F2 & F3 & F4).
  pose proof (rep_total _ _ HR) as Htot. pose proof (rep_length _ _ HR) as Hlen. pose proof (rep_get _ _ HR) as Hget.
  unfold dequeue_message. rewrite sm_bind_run, (on_queue_run sm_get q h _ _ eq_refl).
  unfold sm_assert. rewrite (proj2 (Z.ltb_lt (m_get_pos _) _)) by lia. sm_step.
  rewrite sm_bind_run, (on_queue_run _ q h _ _ (get_block_run (m_get_pos (hdr q)) q Hget ltac:(lia) Htot)).
  rewrite sm_bind_run, (on_queue_run _ q h _ _ (load_run (m_get_pos (hdr q) * m_block_size (hdr q)) 4 q
    ltac:(lia) ltac:(lia) ltac:(lia))).
  change (Z.to_nat 4) with 4%nat. rewrite B1, of_le32_le32, Hest by lia.
  rewrite (proj2 (Z.leb_le (blocks_of _ _) (m_size _))) by lia. sm_step.
  unfold get_data. rewrite header_overhead, chunk_size by lia.
  set (w := Z.min _ _). assert (Z.to_nat w = chunk_of q m) as Hw by done.
  assert (0 ≤ w ≤ Z.of_nat (length m)) as Hwr by (unfold w; lia).
  rewrite sm_bind_run, call_handler_run by lia. unfold deliver. rewrite sm_bind_run.
  replace (Z.to_nat (m_get_pos (hdr q) * m_block_size (hdr q) + 32))
    with (Z.to_nat (m_get_pos (hdr q) * m_block_size (hdr q)) + 32)%nat by lia.
  rewrite Hw, B2. cbn zeta. destruct (handler (take (chunk_of q m) m) h) as [[?|?|] h1]; [|done..].
  rewrite sm_bind_run, next_pos_code_pair by nia. 
  rewrite sm_bind_run, tail_read; [|try lia..].
  - replace (Z.to_nat (Z.of_nat (length m) - w)) with (length m - chunk_of q m)%nat by lia. rewrite B3.
    cbn zeta. rewrite (decide_ext (Z.of_nat (length m) = w) (length m ≤ chunk_of q m)%nat) by lia.
    case_decide; [|destruct (handler (drop _ m) h1) as [[?|?|] h2]; [|done..]];
      cbn [mret sm_ret]; unfold on_queue; cbn [fst snd]; do 3 sm_step; unfold dequeued;
      by rewrite take_drop, u32_id by lia.
  - intros Hf. to_prop. unfold w.
    pose proof (blocks_le (m_get_pos (hdr q)) (blocks_of (m_block_size (hdr q)) m) (m_capacity (hdr q))
      (m_block_size (hdr q)) ltac:(lia) ltac:(lia)). lia.
Qed.

(** The front of the ring after a message has been removed. *)
Lemma dequeued_view q m ms :
  queue_rep q (m :: ms) →
  ∃ frames free,
    ring_view (Z.to_nat (next_pos (m_capacity (hdr q)) (m_get_pos (hdr q)) (blocks_of (m_block_size (hdr q)) m) *
      m_block_size (hdr q))) (blocks q) = concat frames ++ free ∧
    Forall2 (valid_frame (m_block_size (hdr q))) ms frames.
Proof.
  intros HR. destruct (rep_facts q _ HR) as (Hbs & Hsz & Hput & Hcap).
  destruct (front_blocks q m ms HR) as (F1 & F2 & F3 & F4).
  destruct HR as [_ _ Htot Hlen _ _ _ Hget _ (frames & free & Hview & Hfr)].
  apply Forall2_cons_inv_l in Hfr as (fr & frs & (Hfl & _ & _) & Hfrs & ->).
  cbn [concat] in Hview. rewrite <- app_assoc in Hview. exists frs, (free ++ fr). split; [|done].
  pose proof (length_ring_view (Z.to_nat (m_get_pos (hdr q) * m_block_size (hdr q))) (blocks q)) as HL.
  rewrite Hview, length_app in HL.
  pose proof (ring_view_turn (Z.to_nat (m_get_pos (hdr q) * m_block_size (hdr q))) (length fr) fr
    (concat frs ++ free) (blocks q) ltac:(lia) ltac:(lia) Hview eq_refl) as HT.
  rewrite app_assoc, <- HT. f_equal. rewrite Hfl. unfold next_pos.
  set (bs := m_block_size (hdr q)) in *. set (n := blocks_of bs m) in *. set (g := m_get_pos (hdr q)) in *.
  clear - Hlen Hget F1 F2 F3 Hbs. case_match; to_prop; case_decide; nia.
Qed.

Lemma dequeued_rep q m ms : queue_rep q (m :: ms) → queue_rep (dequeued m q) ms.
Proof.
  intros HR. pose proof (dequeued_view q m ms HR) as Hview.
  destruct (front_blocks q m ms HR) as (F1 & _).
  destruct HR as [Hcap0 Hpow Htot Hlen Hsend Hsize Hfits Hget Hputeq _].
  change (blocks_used _ (m :: ms)) with
    (blocks_of (m_block_size (hdr q)) m + blocks_used (m_block_size (hdr q)) ms) in Hsize.
  apply Forall_cons in Hsend as [_ Hsend].
  split; cbn -[Z.mul Z.ltb]; try done; try lia.
  - apply next_pos_range; lia.
  - rewrite Hputeq, next_pos_add by lia. f_equal. lia.
Qed.

(** ** Clearing, locking and unlocking *)

(** The part of the invariant that no operation changes. *)
Record layout (q : region) : Prop := {
  lay_capacity : 0 < m_capacity (hdr q);
  lay_block_size : ∃ k, 5 ≤ k < 32 ∧ m_block_size (hdr q) = 2 ^ k;
  lay_total : m_capacity (hdr q) * m_block_size (hdr q) ≤ 2 ^ 32;
  lay_length : Z.of_nat (length (blocks q)) = m_capacity (hdr q) * m_block_size (hdr q) }.

Definition cleared (q : region) : region :=
  emit ev_notify_all_nonfull (emit ev_cleared (set_positions 0 0 0 q)).

Lemma rep_layout q ms : queue_rep q ms → layout q.
Proof. by intros [????]. Qed.

Lemma cleared_rep q : layout q → queue_rep (cleared q) [].
Proof.
  intros [H1 H2 H3 H4]. split; cbn -[Z.mul Z.ltb]; try done; try lia.
  - unfold next_pos. by rewrite (proj2 (Z.ltb_lt _ _)) by lia.
  - exists [], (blocks q). split; [|done]. unfold ring_view. by rewrite app_nil_r.
Qed.

Lemma rep_set_mutex x q ms : queue_rep q ms → queue_rep (set_mutex x q) ms.
Proof. by intros []. Qed.

Lemma set_mutex_twice x y q : set_mutex x (set_mutex y q) = set_mutex x q.
Proof. done. Qed.

Lemma set_mutex_same x q : m_mutex (hdr q) = x → set_mutex x q = q.
Proof. intros <-. by destruct q as [[] ? ?]. Qed.

Lemma enqueued_set_mutex m x q : enqueued m (set_mutex x q) = set_mutex x (enqueued m q).
Proof. unfold enqueued. cbn. by case_match. Qed.

(** The region that a thread finds after [lock_queue]: a queue whose mutex
    was held by a thread that died has been cleared. *)
Definition after_lock (q : region) : region :=
  set_mutex available (if decide (m_mutex (hdr q) = owner_dead) then cleared q else q).

Lemma lock_queue_run q :
  lock_queue q =
    match m_mutex (hdr q) with
    | available | owner_dead => (Ok (), set_mutex (held true) (after_lock q))
    | not_recoverable => (Throw ex_system_error, q)
    | held _ => (Stuck, q)
    end.
Proof.
  unfold lock_queue, mutex_lock, after_lock. rewrite !sm_bind_run. cbn [sm_get].
  by destruct (m_mutex (hdr q)).
Qed.

Lemma auto_unlock_run {X H} (m : sm (region * H) X) q h r q' h' :
  m (q, h) = (r, (set_mutex (held true) q', h')) → r ≠ Stuck →
  auto_unlock m (q, h) = (r, (set_mutex available q', h')).
Proof. intros Hm Hr. unfold auto_unlock. rewrite Hm. by destruct r. Qed.

(** ** The sections of [send] and [receive] *)

Lemma send_body_run {H} impl m q ms (h : H) :
  queue_rep q ms → attached impl q → sendable (m_block_size (hdr q)) m →
  send_body impl m (Z.of_nat (length m)) (blocks_of (m_block_size (hdr q)) m) (q, h) =
    if m_stop impl then (Ok (Some aborted), (q, h))
    else if m_size (hdr q) + blocks_of (m_block_size (hdr q)) m <=? m_capacity (hdr q)
    then (Ok (Some succeeded), (enqueued m q, h))
    else match m_overflow_policy impl with
         | fail_on_overflow => (Ok (Some no_space), (q, h))
         | throw_on_overflow => (Throw ex_capacity_limit_reached, (q, h))
         | block_on_overflow => (Ok None, (q, h))
         end.
Proof.
  intros HR Hat Hs. destruct (rep_facts q ms HR) as (Hbs & Hsz & Hput & Hcap).
  unfold send_body. rewrite sm_bind_run, (on_queue_run sm_get q h _ _ eq_refl).
  destruct (m_stop impl); [done|]. rewrite u32_id by lia.
  destruct (Z.leb_spec (m_size (hdr q) + blocks_of (m_block_size (hdr q)) m) (m_capacity (hdr q))).
  - rewrite (proj2 (Z.leb_le _ _)) by lia.
    by rewrite sm_bind_run, (on_queue_run _ q h _ _ (enqueue_run q ms m HR Hs ltac:(lia))).
  - rewrite (proj2 (Z.leb_gt _ _)) by lia. by destruct (m_overflow_policy impl).
Qed.

Lemma receive_body_run {H} impl (handler : list Z → sm H unit) q ms (h : H) :
  queue_rep q ms → attached impl q →
  receive_body impl handler (q, h) =
    if m_stop impl then (Ok (Some aborted), (q, h))
    else match ms with
         | [] => (Ok None, (q, h))
         | m :: _ =>
             match deliver handler (chunk_of q m) m h with
             | (Ok _, h') => (Ok (Some succeeded), (dequeued m q, h'))
             | (Throw e, h') => (Throw e, (q, h'))
             | (Stuck, h') => (Stuck, (q, h'))
             end
         end.
Proof.
  intros HR Hat. destruct (rep_facts q ms HR) as (Hbs & Hsz & Hput & Hcap).
  unfold receive_body. rewrite sm_bind_run, (on_queue_run sm_get q h _ _ eq_refl).
  destruct (m_stop impl); [done|]. destruct ms as [|m ms].
  - by rewrite (rep_size _ _ HR).
  - destruct (front_blocks q m ms HR) as (F1 & _). rewrite (proj2 (Z.ltb_lt _ _)) by lia.
    rewrite sm_bind_run, (dequeue_run impl handler q m ms h HR Hat).
    by destruct (deliver handler (chunk_of q m) m h) as [[?|?|] h'].
Qed.

(** ** The operations *)

(** The mutex can be locked. *)
Definition lockable (q : region) : Prop := m_mutex (hdr q) = available ∨ m_mutex (hdr q) = owner_dead.

(** The queue holds [ms] as seen by the next thread that locks the mutex. *)
Definition holds (q : region) (ms : list (list Z)) : Prop := lockable q ∧ queue_rep (after_lock q) ms.

(** The outcome of the loop body of [send] and of [receive], on a region that
    is not locked. *)
Definition send_outcome (impl : implementation) (m : list Z) (q : region) :
    outcome (option operation_result) * region :=
  if m_stop impl then (Ok (Some aborted), q)
  else if m_size (hdr q) + blocks_of (m_block_size (hdr q)) m <=? m_capacity (hdr q)
  then (Ok (Some succeeded), enqueued m q)
  else match m_overflow_policy impl with
       | fail_on_overflow => (Ok (Some no_space), q)
       | throw_on_overflow => (Throw ex_capacity_limit_reached, q)
       | block_on_overflow => (Ok None, q)
       end.

Definition receive_outcome {H} (impl : implementation) (handler : list Z → sm H unit)
    (q : region) (ms : list (list Z)) (h : H) : outcome (option operation_result) * (region * H) :=
  if m_stop impl then (Ok (Some aborted), (q, h))
  else match ms with
       | [] => (Ok None, (q, h))
       | m :: _ =>
           match deliver handler (chunk_of q m) m h with
           | (Ok _, h') => (Ok (Some succeeded), (dequeued m q, h'))
           | (Throw e, h') => (Throw e, (q, h'))
           | (Stuck, h') => (Stuck, (q, h'))
           end
       end.

Lemma after_lock_mutex q : m_mutex (hdr (after_lock q)) = available.
Proof. done. Qed.

Lemma after_lock_available q : m_mutex (hdr q) = available → after_lock q = q.
Proof.
  intros Hq. unfold after_lock. rewrite decide_False by (rewrite Hq; done). by apply set_mutex_same.
Qed.

Lemma after_lock_layout q : m_block_size (hdr (after_lock q)) = m_block_size (hdr q) ∧
  m_capacity (hdr (after_lock q)) = m_capacity (hdr q).
Proof. unfold after_lock. by case_decide. Qed.

Lemma attached_after_lock impl q : attached impl q → attached impl (set_mutex (held true) (after_lock q)).
Proof.
  intros (k & Hk & Hbs & Hr). exists k. destruct (after_lock_layout q) as [Hb _].
  cbn. cbn in Hb. by rewrite Hb.
Qed.

Lemma locked_section {X H} (m : sm (region * H) X) q h r q' h' :
  lockable q → m (set_mutex (held true) (after_lock q), h) = (r, (set_mutex (held true) q', h')) → r ≠ Stuck →
  m_mutex (hdr q') = available →
  (on_queue lock_queue;; auto_unlock m) (q, h) = (r, (q', h')).
Proof.
  intros Hl Hm Hr Hq'. rewrite sm_bind_run.
  assert (lock_queue q = (Ok (), set_mutex (held true) (after_lock q))) as HL.
  { rewrite lock_queue_run. by destruct Hl as [-> | ->]. }
  rewrite (on_queue_run _ q h _ _ HL), (auto_unlock_run m _ h r q' h' Hm Hr).
  by rewrite set_mutex_same.
Qed.

Lemma send_body_locked {H} impl m q ms (h : H) r q' :
  queue_rep q ms → m_mutex (hdr q) = available → attached impl (set_mutex (held true) q) →
  sendable (m_block_size (hdr q)) m → send_outcome impl m q = (r, q') →
  r ≠ Stuck ∧ m_mutex (hdr q') = available ∧
  send_body impl m (Z.of_nat (length m)) (blocks_of (m_block_size (hdr q)) m)
    (set_mutex (held true) q, h) = (r, (set_mutex (held true) q', h)).
Proof.
  intros HR Hav Hat Hs Ho.
  pose proof (send_body_run impl m (set_mutex (held true) q) ms h (rep_set_mutex _ _ _ HR) Hat Hs) as HB.
  change (m_block_size (hdr (set_mutex (held true) q))) with (m_block_size (hdr q)) in HB. rewrite HB.
  rewrite enqueued_set_mutex. unfold send_outcome in Ho. cbn [set_mutex hdr m_size m_capacity].
  destruct (m_stop impl); [by simplify_eq|]. destruct (_ <=? _).
  - simplify_eq. split_and!; [done|by rewrite enqueued_hdr|done].
  - destruct (m_overflow_policy impl); by simplify_eq.
Qed.

Lemma send_run {H} impl m q ms (h : H) :
  holds q ms → attached impl q → sendable (m_block_size (hdr q)) m →
  send impl m (Z.of_nat (length m)) (q, h) =
    if m_capacity (hdr q) <? blocks_of (m_block_size (hdr q)) m then (Throw ex_logic_error, (q, h))
    else if m_stop impl then (Ok (Some aborted), (q, h))
    else let (r, q') := send_outcome impl m (after_lock q) in (r, (q', h)).
Proof.
  intros [Hl HR] Hat Hs. unfold send. rewrite sm_bind_run, (on_queue_run sm_get q h _ _ eq_refl).
  rewrite (estimate_block_count_ok impl q m Hat Hs). repeat case_match; try done.
  destruct (after_lock_layout q) as [Hb _].
  rewrite <- Hb. rewrite <- Hb in Hs.
  destruct (send_body_locked impl m (after_lock q) ms h o r HR (after_lock_mutex q)
    (attached_after_lock _ _ Hat) Hs) as (Hr & Hq' & Hbody); [done|].
  by apply locked_section.
Qed.

Lemma send_resumed_run {H} impl m q ms (h : H) :
  queue_rep q ms → m_mutex (hdr q) = available → attached impl q → sendable (m_block_size (hdr q)) m →
  send_resumed impl m (Z.of_nat (length m)) (q, h) =
    let (r, q') := send_outcome impl m q in (r, (q', h)).
Proof.
  intros HR Hav Hat Hs. unfold send_resumed. destruct (send_outcome impl m q) as [r q'] eqn:Ho.
  destruct (send_body_locked impl m q ms h r q' HR Hav) as (Hr & Hq' & Hbody); [done..|].
  rewrite (auto_unlock_run _ q h r q' h); [by rewrite set_mutex_same| |done].
  rewrite sm_bind_run, (on_queue_run cond_wait_relock q h (Ok ()) (set_mutex (held true) q)).
  - by rewrite (estimate_block_count_ok impl q m Hat Hs).
  - unfold cond_wait_relock. sm_step. by rewrite Hav.
Qed.

Lemma try_send_run {H} impl m q ms (h : H) :
  holds q ms → attached impl q → sendable (m_block_size (hdr q)) m →
  try_send impl m (Z.of_nat (length m)) (q, h) =
    if m_capacity (hdr q) <? blocks_of (m_block_size (hdr q)) m then (Throw ex_logic_error, (q, h))
    else if m_stop impl then (Ok false, (q, h))
    else let q := after_lock q in
         if m_size (hdr q) + blocks_of (m_block_size (hdr q)) m <=? m_capacity (hdr q)
         then (Ok true, (enqueued m q, h)) else (Ok false, (q, h)).
Proof.
  intros [Hl HR] Hat Hs. destruct (rep_facts _ ms HR) as (Hbs & Hsz & Hput & Hcap).
  unfold try_send. rewrite sm_bind_run, (on_queue_run sm_get q h _ _ eq_refl).
  rewrite (estimate_block_count_ok impl q m Hat Hs).
  destruct (m_capacity (hdr q) <? _); [done|]. destruct (m_stop impl) eqn:Hstop; [done|].
  destruct (after_lock_layout q) as [Hb Hc]. cbn zeta. rewrite <- Hb in *. clear Hb Hc.
  set (q1 := after_lock q) in *.
  pose proof (enqueue_run (set_mutex (held true) q1) ms m (rep_set_mutex _ _ _ HR) Hs) as HE.
  change (m_block_size (hdr (set_mutex (held true) q1))) with (m_block_size (hdr q1)) in HE.
  destruct (Z.leb_spec (m_size (hdr q1) + blocks_of (m_block_size (hdr q1)) m) (m_capacity (hdr q1))) as [Hle|Hgt];
    (apply locked_section; [done| |done|]).
  - fold q1. rewrite sm_bind_run, (on_queue_run sm_get _ h _ _ eq_refl). cbn [hdr set_mutex m_capacity m_size].
    rewrite u32_id, (proj2 (Z.ltb_ge _ _)) by lia.
    by rewrite sm_bind_run, (on_queue_run _ _ h _ _ (HE Hle)), enqueued_set_mutex.
  - by rewrite enqueued_hdr.
  - fold q1. rewrite sm_bind_run, (on_queue_run sm_get _ h _ _ eq_refl). cbn [hdr set_mutex m_capacity m_size].
    by rewrite u32_id, (proj2 (Z.ltb_lt _ _)) by lia.
  - done.
Qed.

(** Handlers do not have undefined behaviour themselves. *)
Definition safe_handler {H} (handler : list Z → sm H unit) : Prop := ∀ d h, (handler d h).1 ≠ Stuck.

Lemma deliver_safe {H} (handler : list Z → sm H unit) w m h :
  safe_handler handler → (deliver handler w m h).1 ≠ Stuck.
Proof.
  intros Hs. unfold deliver. rewrite sm_bind_run. pose proof (Hs (take w m) h) as H1.
  destruct (handler (take w m) h) as [[?|?|] h1]; try done. case_decide; [done|apply Hs].
Qed.

Lemma receive_body_locked {H} impl (handler : list Z → sm H unit) q ms (h : H) r q' h' :
  safe_handler handler → queue_rep q ms → m_mutex (hdr q) = available →
  attached impl (set_mutex (held true) q) → receive_outcome impl handler q ms h = (r, (q', h')) →
  r ≠ Stuck ∧ m_mutex (hdr q') = available ∧
  receive_body impl handler (set_mutex (held true) q, h) = (r, (set_mutex (held true) q', h')).
Proof.
  intros Hsafe HR Hav Hat Ho.
  rewrite (receive_body_run impl handler (set_mutex (held true) q) ms h (rep_set_mutex _ _ _ HR) Hat).
  unfold receive_outcome in Ho. destruct (m_stop impl); [by simplify_eq|].
  destruct ms as [|m ms]; [by simplify_eq|].
  change (chunk_of (set_mutex (held true) q) m) with (chunk_of q m).
  pose proof (deliver_safe handler (chunk_of q m) m h Hsafe) as Hd.
  destruct (deliver handler (chunk_of q m) m h) as [[?|?|] h1]; by simplify_eq.
Qed.

Lemma receive_run {H} impl (handler : list Z → sm H unit) q ms (h : H) :
  safe_handler handler → holds q ms → attached impl q →
  receive impl handler (q, h) =
    if m_stop impl then (Ok (Some aborted), (q, h))
    else receive_outcome impl handler (after_lock q) ms h.
Proof.
  intros Hsafe [Hl HR] Hat. unfold receive. destruct (m_stop impl) eqn:Hstop; [done|].
  destruct (receive_outcome impl handler (after_lock q) ms h) as [r [q' h']] eqn:Ho.
  destruct (receive_body_locked impl handler (after_lock q) ms h r q' h' Hsafe HR (after_lock_mutex q)
    (attached_after_lock _ _ Hat)) as (Hr & Hq' & Hbody); [done|].
  by apply locked_section.
Qed.

Lemma receive_resumed_run {H} impl (handler : list Z → sm H unit) q ms (h : H) :
  safe_handler handler → queue_rep q ms → m_mutex (hdr q) = available → attached impl q →
  receive_resumed impl handler (q, h) = receive_outcome impl handler q ms h.
Proof.
  intros Hsafe HR Hav Hat. unfold receive_resumed.
  destruct (receive_outcome impl handler q ms h) as [r [q' h']] eqn:Ho.
  destruct (receive_body_locked impl handler q ms h r q' h' Hsafe HR Hav) as (Hr & Hq' & Hbody); [done..|].
  rewrite (auto_unlock_run _ q h r q' h'); [by rewrite set_mutex_same| |done].
  rewrite sm_bind_run, (on_queue_run cond_wait_relock q h (Ok ()) (set_mutex (held true) q)); [done|].
  unfold cond_wait_relock. sm_step. by rewrite Hav.
Qed.

Lemma try_receive_run {H} impl (handler : list Z → sm H unit) q ms (h : H) :
  safe_handler handler → holds q ms → attached impl q →
  try_receive impl handler (q, h) =
    if m_stop impl then (Ok false, (q, h))
    else let q := after_lock q in
         match ms with
         | [] => (Ok false, (q, h))
         | m :: _ =>
             match deliver handler (chunk_of q m) m h with
             | (Ok _, h') => (Ok true, (dequeued m q, h'))
             | (Throw e, h') => (Throw e, (q, h'))
             | (Stuck, h') => (Stuck, (q, h'))
             end
         end.
Proof.
  intros Hsafe [Hl HR] Hat. unfold try_receive. destruct (m_stop impl); [done|]. cbn zeta.
  destruct ms as [|m ms].
  - apply locked_section; [done| |done|done].
    rewrite sm_bind_run, (on_queue_run sm_get _ h _ _ eq_refl).
    cbn [hdr set_mutex m_size]. by rewrite (rep_size _ _ HR).
  - destruct (front_blocks _ m ms HR) as (F1 & _).
    pose proof (dequeue_run impl handler (set_mutex (held true) (after_lock q)) m ms h
      (rep_set_mutex _ _ _ HR) (attached_after_lock _ _ Hat)) as HD.
    change (chunk_of (set_mutex (held true) (after_lock q)) m) with (chunk_of (after_lock q) m) in HD.
    pose proof (deliver_safe handler (chunk_of (after_lock q) m) m h Hsafe) as Hd.
    destruct (deliver handler (chunk_of (after_lock q) m) m h) as [[?|?|] h1]; [| |done];
      (apply locked_section; [done| |done|done]);
      rewrite sm_bind_run, (on_queue_run sm_get _ h _ _ eq_refl); cbn [hdr set_mutex m_size];
      rewrite (proj2 (Z.eqb_neq _ _)) by lia; by rewrite sm_bind_run, HD.
Qed.

Lemma clear_run {H} q (h : H) : lockable q → clear (q, h) = (Ok (), (cleared (after_lock q), h)).
Proof. intros Hl. by apply locked_section. Qed.

Lemma stop_local_run {H} impl q (h : H) :
  lockable q →
  stop_local impl (q, h) =
    if m_stop impl then (Ok impl, (q, h))
    else (Ok (Impl (m_overflow_policy impl) (m_block_size_mask impl) (m_block_size_log2 impl) true),
          (emit ev_notify_all_nonfull (emit ev_notify_all_nonempty (after_lock q)), h)).
Proof. intros Hl. unfold stop_local. destruct (m_stop impl); [done|]. by apply locked_section. Qed.

(** A queue whose mutex is lost to every thread. *)
Lemma lock_queue_not_recoverable {X H} (m : sm (region * H) X) q h :
  m_mutex (hdr q) = not_recoverable →
  (on_queue lock_queue;; auto_unlock m) (q, h) = (Throw ex_system_error, (q, h)).
Proof.
  intros Hq. rewrite sm_bind_run, (on_queue_run lock_queue q h (Throw ex_system_error) q); [done|].
  by rewrite lock_queue_run, Hq.
Qed.

(** ** Receive handlers *)

Lemma fixed_buffer_safe : safe_handler fixed_buffer_receive_handler.
Proof. intros d h. unfold fixed_buffer_receive_handler. sm_step. by case_match. Qed.

Lemma container_safe : safe_handler container_receive_handler.
Proof. done. Qed.

Lemma deliver_container w m c : deliver container_receive_handler w m c = (Ok (), c ++ m).
Proof.
  unfold deliver, container_receive_handler. sm_step. case_decide; unfold sm_modify.
  - by rewrite take_ge by done.
  - by rewrite <- app_assoc, take_drop.
Qed.

(** A message is copied to a buffer if it fits, in one piece or two. *)
Lemma deliver_fixed_buffer w m n :
  0 ≤ n < 2 ^ 32 →
  ∃ p, deliver fixed_buffer_receive_handler w m (FixedBuffer [] n) =
    if Z.of_nat (length m) <=? n then (Ok (), FixedBuffer m (n - Z.of_nat (length m)))
    else (Throw ex_bad_alloc, p).
Proof.
  intros Hn. unfold deliver, fixed_buffer_receive_handler. do 2 sm_step. cbn [fb_data fb_size app].
  assert (length (take w m) = (w `min` length m)%nat) as Hw by apply length_take.
  destruct (Z.leb_spec (Z.of_nat (length m)) n) as [Hle|Hgt].
  - exists (FixedBuffer [] n). rewrite (proj2 (Z.ltb_ge n _)) by lia. rewrite u32_id by lia. cbn [sm_put].
    case_decide; [by rewrite take_ge by done|].
    sm_step. cbn [fb_data fb_size]. rewrite length_drop, (proj2 (Z.ltb_ge _ _)) by lia.
    rewrite take_drop, u32_id by lia. unfold sm_put. do 2 f_equal. lia.
  - destruct (Z.ltb_spec n (Z.of_nat (length (take w m)))); [by eexists|]. cbn [sm_put].
    rewrite decide_False, u32_id by lia. sm_step. cbn [fb_data fb_size].
    rewrite length_drop, (proj2 (Z.ltb_lt _ _)) by lia. by eexists.
Qed.

(** ** Block sizes *)

Lemma power_of_2_spec n : 0 ≤ n → is_power_of_2 n = true ↔ ∃ k, 0 ≤ k ∧ n = 2 ^ k.
Proof.
  intros Hn. unfold is_power_of_2. rewrite andb_true_iff, negb_true_iff, Z.eqb_neq, Z.eqb_eq. split.
  - intros [H0 Hl]. exists (Z.log2 n). split; [apply Z.log2_nonneg|].
    destruct (Z.log2_spec n ltac:(lia)) as [H1 H2].
    destruct (decide (n = 2 ^ Z.log2 n)) as [|Hne]; [done|exfalso].
    assert (Z.log2 (n - 1) = Z.log2 n) as Hlog.
    { apply Z.log2_unique; [apply Z.log2_nonneg|lia]. }
    assert (Z.testbit (Z.land n (n - 1)) (Z.log2 n) = true) as Hb.
    { rewrite Z.land_spec, Z.bit_log2 by lia. rewrite <- Hlog. apply Z.bit_log2.
      pose proof (Z.pow_pos_nonneg 2 (Z.log2 n) ltac:(lia) (Z.log2_nonneg n)). lia. }
    by rewrite Hl, Z.bits_0 in Hb.
  - intros (k & Hk & ->). pose proof (Z.pow_pos_nonneg 2 k ltac:(lia) Hk). split; [lia|].
    replace (2 ^ k - 1) with (Z.ones k) by (rewrite Z.ones_equiv; lia).
    rewrite Z.land_ones by done. apply Z.mod_same. lia.
Qed.

(** [align_up] keeps powers of two above the alignment. *)
Lemma align_up_pow2 k : 0 ≤ k < 32 → align_up (2 ^ k) 64 = 2 ^ Z.max k 6.
Proof.
  intros Hk. assert (2 ^ k ≤ 2 ^ 31) as Hb by (apply Z.pow_le_mono_r; lia).
  pose proof (Z.pow_pos_nonneg 2 k ltac:(lia) ltac:(lia)) as Hp.
  destruct (align_up_spec (2 ^ k) 64) as [[z Hz] Hr]; [lia|done|lia|lia|].
  destruct (Z.le_gt_cases k 6) as [Hle|Hgt].
  - rewrite Z.max_r by lia. assert (2 ^ k ≤ 2 ^ 6) by (apply Z.pow_le_mono_r; lia).
    change (2 ^ 6) with 64 in *. lia.
  - rewrite Z.max_l by lia. replace k with (6 + (k - 6)) in * by lia.
    rewrite Z.pow_add_r in * by lia. change (2 ^ 6) with 64 in *. lia.
Qed.

Lemma init_block_size_ok k impl :
  0 ≤ k < 32 →
  init_block_size (2 ^ k) impl = Impl (m_overflow_policy impl) (2 ^ k - 1) k (m_stop impl).
Proof.
  intros Hk. assert (In k (seqZ 0 32)) as Hin by (apply list_elem_of_In, elem_of_seqZ; lia).
  revert k Hk Hin. assert (Forall (λ k, init_block_size (2 ^ k) impl =
    Impl (m_overflow_policy impl) (2 ^ k - 1) k (m_stop impl)) (seqZ 0 32)) as Hall.
  { repeat (apply Forall_cons; split; [done|]). constructor. }
  intros k _ Hin. apply list_elem_of_In in Hin. by apply (proj1 (Forall_forall _ _) Hall).
Qed.

(** * The queue as a FIFO of messages *)

(** What [send] does to the messages in the queue; [Ok None] means that the
    sender waits. *)
Definition fifo_send (cap bs : Z) (impl : implementation) (m : list Z) (ms : list (list Z)) :
    outcome (option operation_result) * list (list Z) :=
  if cap <? blocks_of bs m then (Throw ex_logic_error, ms)
  else if m_stop impl then (Ok (Some aborted), ms)
  else if blocks_used bs ms + blocks_of bs m <=? cap then (Ok (Some succeeded), ms ++ [m])
  else match m_overflow_policy impl with
       | fail_on_overflow => (Ok (Some no_space), ms)
       | throw_on_overflow => (Throw ex_capacity_limit_reached, ms)
       | block_on_overflow => (Ok None, ms)
       end.

(** [try_send] reports failures other than an oversized message by [false]. *)
Definition try_result (r : outcome (option operation_result)) : outcome bool :=
  match r with
  | Throw ex_logic_error => Throw ex_logic_error
  | Ok (Some succeeded) => Ok true
  | _ => Ok false
  end.

(** What [receive] does, when the handler gets the first [w] bytes of the
    message in its first call. *)
Definition fifo_receive {H} (impl : implementation) (handler : list Z → sm H unit) (w : nat)
    (ms : list (list Z)) (h : H) : outcome (option operation_result) * (list (list Z) * H) :=
  if m_stop impl then (Ok (Some aborted), (ms, h))
  else match ms with
       | [] => (Ok None, (ms, h))
       | m :: rest =>
           match deliver handler w m h with
           | (Ok _, h') => (Ok (Some succeeded), (rest, h'))
           | (Throw e, h') => (Throw e, (ms, h'))
           | (Stuck, h') => (Stuck, (ms, h'))
           end
       end.

Definition try_receive_result (r : outcome (option operation_result)) : outcome bool :=
  match r with
  | Throw e => Throw e
  | Ok (Some succeeded) => Ok true
  | Ok _ => Ok false
  | Stuck => Stuck
  end.

Lemma holds_available q ms : m_mutex (hdr q) = available → queue_rep q ms → holds q ms.
Proof. intros Hq HR. split; [by left|]. by rewrite after_lock_available. Qed.

Lemma holds_after_lock q ms : holds q ms → holds (after_lock q) ms.
Proof. intros [_ HR]. by apply holds_available. Qed.

Lemma holds_enqueued q ms m :
  holds q ms → sendable (m_block_size (hdr q)) m →
  m_size (hdr (after_lock q)) + blocks_of (m_block_size (hdr (after_lock q))) m ≤ m_capacity (hdr (after_lock q)) →
  holds (enqueued m (after_lock q)) (ms ++ [m]).
Proof.
  intros [_ HR] Hs Hle. destruct (after_lock_layout q) as [Hb _].
  apply holds_available; [by rewrite enqueued_hdr|]. apply enqueued_rep; [done|by rewrite Hb|done].
Qed.

Lemma holds_dequeued q ms m : holds q (m :: ms) → holds (dequeued m (after_lock q)) ms.
Proof. intros [_ HR]. by apply holds_available, dequeued_rep. Qed.

Hint Resolve holds_after_lock holds_enqueued holds_dequeued : boostlog.

Ltac fifo_done := solve [split; eexists; (split; [reflexivity|eauto with boostlog])].

(** C9: [send] and [try_send] implement the FIFO, on every path: an oversized
    message, a stopped object, a full queue with each overflow policy, and a
    mutex whose last owner died, in which case the queue is found empty. They
    have no undefined behaviour: every write is within the blocks. *)
Theorem send_refines {H} impl m q ms (h : H) :
  holds q ms → attached impl q → sendable (m_block_size (hdr q)) m →
  let (r, ms') := fifo_send (m_capacity (hdr q)) (m_block_size (hdr q)) impl m ms in
  (∃ q', send impl m (Z.of_nat (length m)) (q, h) = (r, (q', h)) ∧ holds q' ms') ∧
  (∃ q', try_send impl m (Z.of_nat (length m)) (q, h) = (try_result r, (q', h)) ∧ holds q' ms').
Proof.
  intros HH Hat Hs. rewrite (send_run impl m q ms h HH Hat Hs), (try_send_run impl m q ms h HH Hat Hs).
  pose proof (rep_size _ _ (proj2 HH)) as Hsize. destruct (after_lock_layout q) as [Hb Hc].
  unfold fifo_send, send_outcome. cbn zeta. rewrite Hb in Hsize |- *. rewrite Hc, <- Hsize.
  destruct (m_capacity (hdr q) <? _); [fifo_done|]. destruct (m_stop impl); [fifo_done|].
  destruct (_ <=? m_capacity (hdr q)) eqn:Hle; to_prop.
  - assert (holds (enqueued m (after_lock q)) (ms ++ [m])) by (apply holds_enqueued; rewrite ?Hb, ?Hc; done).
    fifo_done.
  - destruct (m_overflow_policy impl); fifo_done.
Qed.

(** [receive] and [try_receive] implement the FIFO for every handler: the
    oldest message is passed to the handler, in one piece or in two, and is
    removed unless the handler throws. Every read is within the blocks. *)
Theorem receive_refines {H} impl (handler : list Z → sm H unit) q ms (h : H) :
  safe_handler handler → holds q ms → attached impl q →
  ∃ w, let '(r, (ms', h')) := fifo_receive impl handler w ms h in
  (∃ q', receive impl handler (q, h) = (r, (q', h')) ∧ holds q' ms') ∧
  (∃ q', try_receive impl handler (q, h) = (try_receive_result r, (q', h')) ∧ holds q' ms').
Proof.
  intros Hsafe HH Hat. exists (chunk_of (after_lock q) (default [] (head ms))).
  rewrite (receive_run impl handler q ms h Hsafe HH Hat), (try_receive_run impl handler q ms h Hsafe HH Hat).
  unfold fifo_receive, receive_outcome. destruct (m_stop impl); [fifo_done|].
  destruct ms as [|m ms]; [fifo_done|]. cbn [head default].
  pose proof (deliver_safe handler (chunk_of (after_lock q) m) m h Hsafe) as Hd. cbn zeta.
  destruct (deliver handler _ m h) as [[?|?|] h']; [fifo_done..|done].
Qed.

(** * Objects and regions are well-formed *)

Lemma create_run tag cap k policy :
  0 ≤ k < 32 →
  create tag cap (2 ^ k) policy =
    Ok (Region (new_header tag cap (2 ^ Z.max k 6)) (replicate (Z.to_nat (cap * 2 ^ Z.max k 6)) 0) [],
        Impl policy (2 ^ Z.max k 6 - 1) (Z.max k 6) false).
Proof.
  intros Hk. unfold create, cpu_cache_line_size.
  rewrite (proj2 (power_of_2_spec (2 ^ k) ltac:(apply Z.pow_nonneg; lia))) by (exists k; split; lia).
  cbn [negb]. rewrite align_up_pow2, header_overhead by done.
  assert (2 ^ Z.max k 6 ≤ 2 ^ 31) by (apply Z.pow_le_mono_r; lia).
  pose proof (pow2_ge_32 (Z.max k 6) ltac:(lia)). rewrite u32_id, (proj2 (Z.leb_le _ _)) by lia.
  unfold create_region. by rewrite init_block_size_ok by lia.
Qed.

Lemma new_region_rep tag cap k mem :
  0 < cap → 5 ≤ k < 32 → cap * 2 ^ k ≤ 2 ^ 32 → Z.of_nat (length mem) = cap * 2 ^ k →
  queue_rep (Region (new_header tag cap (2 ^ k)) mem []) [].
Proof.
  intros H1 Hk H2 H3. split; cbn -[Z.mul Z.ltb Z.pow]; try done; try lia.
  - by exists k.
  - unfold next_pos. by rewrite (proj2 (Z.ltb_lt _ _)) by lia.
  - exists [], mem. split; [|done]. unfold ring_view. by rewrite app_nil_r.
Qed.

Lemma adopt_run tag impl q :
  layout q → 0 ≤ m_ref_count (hdr q) → m_ref_count (hdr q) + 1 < 2 ^ 32 →
  adopt_region tag impl q =
    if m_abi_tag (hdr q) =? tag
    then (Ok (init_block_size (m_block_size (hdr q)) impl), set_ref_count (m_ref_count (hdr q) + 1) q)
    else (Throw ex_setup_error, q).
Proof.
  intros [_ (k & Hk & Hbs) _ _] H1 H2. unfold adopt_region. do 2 sm_step. rewrite u32_id by lia.
  rewrite (proj2 (power_of_2_spec (m_block_size (hdr q)) ltac:(rewrite Hbs; apply Z.pow_nonneg; lia)))
    by (exists k; split; [lia|done]).
  destruct (_ =? tag); [done|].
  unfold sm_catch, close_region. cbn -[u32 Z.add Z.sub]. unfold mbind, sm_bind. cbn -[u32 Z.add Z.sub].
  rewrite Z.add_simpl_r, u32_id by lia. by destruct q as [[] ? ?].
Qed.

(** Objects are well-formed: [create] accepts exactly the powers of two, makes
    an empty queue and an object with the mask and the logarithm of its block
    size, which is a multiple of the cache line; [adopt_region] attaches another
    object to any well-formed region with the same layout tag, and otherwise
    leaves the region and its reference counter as they were; the size of the
    region covers every block. *)
Theorem create_adopt_ok (tag cap bs : Z) policy sizeof_header impl :
  0 ≤ bs < 2 ^ 32 → 0 < cap → cap * Z.max bs 64 ≤ 2 ^ 32 → 0 ≤ sizeof_header < 2 ^ 32 →
  if is_power_of_2 bs then
    ∃ q obj, create tag cap bs policy = Ok (q, obj) ∧ queue_rep q [] ∧ attached obj q ∧
      m_stop obj = false ∧ m_ref_count (hdr q) = 1 ∧ m_block_size (hdr q) = Z.max bs 64 ∧
      (∀ ms q', queue_rep q' ms → m_block_size (hdr q') = m_block_size (hdr q) →
        0 < m_ref_count (hdr q') < 2 ^ 32 - 1 →
        ∃ obj', adopt_region (m_abi_tag (hdr q')) impl q' =
            (Ok obj', set_ref_count (m_ref_count (hdr q') + 1) q') ∧ attached obj' q' ∧
          adopt_region (m_abi_tag (hdr q') + 1) impl q' = (Throw ex_setup_error, q')) ∧
      estimate_region_size sizeof_header cap (Z.max bs 64) =
        align_up sizeof_header 64 + Z.of_nat (length (blocks q))
  else create tag cap bs policy = Throw ex_invalid_argument.
Proof.
  intros Hbs Hcap Htot Hsh. destruct (is_power_of_2 bs) eqn:Hpow; [|by unfold create; rewrite Hpow].
  apply power_of_2_spec in Hpow as (k & Hk0 & ->); [|lia].
  assert (k < 32) as Hk32. { apply (Z.pow_lt_mono_r_iff 2); lia. }
  assert (Z.max (2 ^ k) 64 = 2 ^ Z.max k 6) as Hmax.
  { change 64 with (2 ^ 6). destruct (Z.le_gt_cases k 6);
      [assert (2 ^ k ≤ 2 ^ 6) by (apply Z.pow_le_mono_r; lia)|assert (2 ^ 6 ≤ 2 ^ k) by (apply Z.pow_le_mono_r; lia)].
    - rewrite Z.max_r, Z.max_r by lia. done.
    - rewrite Z.max_l, Z.max_l by lia. done. }
  rewrite Hmax in *. pose proof (pow2_ge_32 (Z.max k 6) ltac:(lia)) as H32.
  assert (0 ≤ cap * 2 ^ Z.max k 6) by nia.
  rewrite (create_run tag cap k policy) by lia. do 2 eexists. split; [done|].
  split_and!; try done.
  - apply new_region_rep; rewrite ?length_replicate; lia.
  - exists (Z.max k 6). split_and!; try done; lia.
  - intros ms q' HR Hb Hrc. cbn [hdr new_header m_block_size] in Hb.
    rewrite !(adopt_run _ impl q' (rep_layout _ _ HR)) by lia. rewrite Z.eqb_refl, (proj2 (Z.eqb_neq _ _)) by lia.
    eexists. split_and!; [done| |done]. exists (Z.max k 6). rewrite Hb, init_block_size_ok by lia.
    split_and!; try done; lia.
  - unfold estimate_region_size, cpu_cache_line_size. cbn [blocks]. rewrite length_replicate, Z2Nat.id by lia.
    destruct (align_up_spec sizeof_header 64) as [_ Hr]; [lia|done|lia|lia|].
    rewrite (u64_id (cap * _)), u64_id by lia. done.
Qed.

End queue.

(** * A concrete queue *)

Module sample.

#[export] Program Instance alignment : Alignment := {| align_up n a := (n + a - 1) / a * a |}.
Next Obligation.
  intros n a Hn _ Ha _. split; [by exists ((n + a - 1) / a)|].
  pose proof (Z.div_mod (n + a - 1) a ltac:(lia)). pose proof (Z.mod_pos_bound (n + a - 1) a ltac:(lia)). lia.
Qed.

(** Four blocks of 64 bytes. *)
Definition region0 : region := Region (new_header 7 4 (2 ^ 6)) (replicate 256 0) [].
Definition object0 : implementation := Impl block_on_overflow 63 6 false.

Lemma region0_holds : holds region0 [].
Proof. apply holds_available; [done|]. by apply new_region_rep. Qed.

Lemma object0_attached : attached object0 region0.
Proof. by exists 6. Qed.

(** Two messages; the second one needs two blocks. *)
Definition message1 : list Z := [1; 2; 3].
Definition message2 : list Z := replicate 40 9.

Lemma send_refines_witness :
  let (r, ms') := fifo_send (m_capacity (hdr region0)) (m_block_size (hdr region0)) object0 message2 [] in
  (∃ q', send object0 message2 (Z.of_nat (length message2)) (region0, ()) = (r, (q', ())) ∧ holds q' ms') ∧
  (∃ q', try_send object0 message2 (Z.of_nat (length message2)) (region0, ()) = (try_result r, (q', ())) ∧
    holds q' ms').
Proof. apply (send_refines object0 message2 region0 [] () region0_holds object0_attached). done. Defined.

(** The blocks after sending both messages. *)
Definition region1 : region := enqueued message2 (enqueued message1 region0).

Lemma region1_holds : holds region1 [message1; message2].
Proof.
  apply holds_available; [by vm_compute|].
  apply (enqueued_rep _ [message1]); [apply (enqueued_rep _ [])|..]; try done. by apply new_region_rep.
Qed.

Lemma receive_refines_witness :
  ∃ w, let '(r, (ms', h')) :=
    fifo_receive object0 container_receive_handler w [message1; message2] [] in
  (∃ q', receive object0 container_receive_handler (region1, []) = (r, (q', h')) ∧ holds q' ms') ∧
  (∃ q', try_receive object0 container_receive_handler (region1, []) = (try_receive_result r, (q', h')) ∧
    holds q' ms').
Proof.
  apply (receive_refines object0 container_receive_handler region1 [message1; message2] [] container_safe
    region1_holds). by exists 6.
Defined.

Lemma create_adopt_ok_witness :
  ∃ q obj, create 7 4 16 block_on_overflow = Ok (q, obj) ∧ queue_rep q [] ∧ attached obj q.
Proof.
  destruct (create_adopt_ok 7 4 16 block_on_overflow 300 object0 ltac:(lia) ltac:(lia) ltac:(lia) ltac:(lia))
    as (q & obj & H1 & H2 & H3 & _).
  by exists q, obj.
Defined.

(** A queue of two blocks, in which a message lies in the second block while
    the first one is free. *)
Definition region2 : region :=
  dequeued message1 (enqueued message1 (enqueued message1
    (Region (new_header 7 2 (2 ^ 6)) (replicate 128 0) []))).

(** A message of almost [2 ^ 32] bytes. *)
Definition huge : Z := 2 ^ 32 - 40.

(** The region after sending a huge message. *)
Definition overwritten (data : list Z) (q : region) : region :=
  emit (ev_sent data) (set_positions (m_size (hdr q)) (m_put_pos (hdr q)) (m_get_pos (hdr q))
    (set_blocks (splice 32 (take 96 data) (splice 0 (le32 huge) (blocks q))) q)).

Lemma enqueue_huge data :
  Z.of_nat (length data) = huge →
  enqueue_message data huge (estimate_block_count object0 huge) (set_mutex (held true) region2) =
    (Ok (), set_mutex (held true) (overwritten data region2)).
Proof.
  intros Hlen. unfold enqueue_message. sm_step.
  unfold sm_assert at 1. rewrite (proj2 (Z.ltb_lt (m_put_pos _) _)) by done. sm_step.
  rewrite sm_bind_run, get_block_run by (vm_compute; intuition congruence).
  rewrite sm_bind_run, store_run by (vm_compute; congruence).
  rewrite sm_bind_run. set (w := Z.min _ _). assert (w = 96) as Hw by done. clearbody w. subst w.
  change (get_data _) with 32.
  rewrite memcpy_run; [|done|rewrite Hlen; done|done].
  change (_ <=? u32 _) with false. do 4 sm_step. done.
Qed.

Lemma huge_message_overwrites (data : list Z) :
  Z.of_nat (length data) = huge →
  m_capacity (hdr region2) < blocks_of (m_block_size (hdr region2)) data ∧
  holds region2 [message1] ∧
  estimate_block_count object0 huge = 0 ∧
  ∃ q', send object0 data huge (region2, ()) = (Ok (Some succeeded), (q', ())) ∧
    m_size (hdr q') = m_size (hdr region2) ∧ take 96 (drop 32 (blocks q')) = take 96 data ∧
    m_get_pos (hdr q') * m_block_size (hdr q') = 64.
Proof.
  intros Hlen. split_and!.
  - unfold blocks_of. rewrite Hlen. by vm_compute.
  - apply holds_available; [by vm_compute|]. apply (dequeued_rep _ message1 [message1]).
    apply (enqueued_rep _ [message1]); [apply (enqueued_rep _ [])|..]; try done. by apply new_region_rep.
  - done.
  - assert (length (take 96 data) = 96%nat) as H96 by (rewrite length_take; unfold huge in Hlen; lia).
    exists (overwritten data region2). split_and!; [|done| |done].
    + unfold send. rewrite sm_bind_run, (on_queue_run sm_get region2 () _ _ eq_refl).
      change (m_capacity (hdr region2) <? estimate_block_count object0 huge) with false.
      cbn [m_stop object0]. apply locked_section; [by left| |done|done].
      rewrite after_lock_available by done. unfold send_body.
      rewrite sm_bind_run, (on_queue_run sm_get _ () _ _ eq_refl).
      change (estimate_block_count object0 huge <=? _) with true. cbn [m_stop object0].
      rewrite sm_bind_run. by rewrite (on_queue_run _ _ () _ _ (enqueue_huge data Hlen)).
    + unfold overwritten. cbn [blocks emit set_positions set_blocks]. unfold splice at 1.
      rewrite drop_app_ge by done. change (32 - _)%nat with 0%nat. rewrite drop_0.
      rewrite take_app_le by lia. by rewrite take_ge by lia.
Qed.

(** A queue of slightly more than 4 GiB. *)
Definition large_header : header := new_header 7 (2 ^ 26 + 1) (2 ^ 6).

Definition truncated (m : list Z) (q : region) : region :=
  emit ev_notify_one_nonempty (emit (ev_sent m) (set_positions 3 3 0
    (set_blocks (splice 32 (take 32 m) (splice 0 (le32 100) (blocks q))) q))).

Lemma enqueue_large mem m :
  Z.of_nat (length mem) = (2 ^ 26 + 1) * 2 ^ 6 → length m = 100%nat →
  enqueue_message m 100 3 (set_mutex (held true) (Region large_header mem [])) =
    (Ok (), set_mutex (held true) (truncated m (Region large_header mem []))).
Proof.
  intros Hlen Hm. unfold enqueue_message. sm_step.
  unfold sm_assert at 1. rewrite (proj2 (Z.ltb_lt (m_put_pos _) _)) by done. sm_step.
  assert (∀ q, hdr q = hdr (set_mutex (held true) (Region large_header mem [])) → get_block 0 q = (Ok 0, q)) as Hblock
    by (intros q Hq; unfold get_block; sm_step; by rewrite Hq).
  rewrite sm_bind_run, Hblock by done.
  rewrite sm_bind_run, store_run by (cbn [blocks set_mutex]; rewrite ?Hlen; done).
  rewrite sm_bind_run. set (w := Z.min _ _). assert (w = 32) as Hw by done. clearbody w. subst w.
  change (get_data _) with 32.
  rewrite memcpy_run; [|done|rewrite Hm; done|].
  - change (_ <=? u32 _) with false. do 4 sm_step. done.
  - cbn [blocks set_mutex set_blocks]. rewrite length_splice, Hlen; [done|]. change (length (le32 100)) with 4%nat. lia.
Qed.

(** The bytes of a message behind its first 32 are not written. *)
Lemma large_queue_truncates mem m :
  Z.of_nat (length mem) = (2 ^ 26 + 1) * 2 ^ 6 → length m = 100%nat →
  ∃ q', send object0 m 100 (Region large_header mem [], ()) = (Ok (Some succeeded), (q', ())) ∧
    drop 64 (blocks q') = drop 64 mem.
Proof.
  intros Hlen Hm. exists (truncated m (Region large_header mem [])). split.
  - unfold send. rewrite sm_bind_run, (on_queue_run sm_get _ () _ _ eq_refl).
    change (_ <? estimate_block_count object0 100) with false.
    cbn [m_stop object0]. apply locked_section; [by left| |done|done].
    rewrite after_lock_available by done. unfold send_body.
    rewrite sm_bind_run, (on_queue_run sm_get _ () _ _ eq_refl).
    change (estimate_block_count object0 100) with 3. change (3 <=? _) with true. cbn [m_stop object0].
    rewrite sm_bind_run. by rewrite (on_queue_run _ _ () _ _ (enqueue_large mem m Hlen Hm)).
  - unfold truncated. cbn [blocks emit set_positions set_blocks].
    assert (length (splice 0 (le32 100) mem) = length mem) as HL
      by (apply length_splice; change (length (le32 100)) with 4%nat; lia).
    rewrite !drop_splice; [done|cbn; lia|lia|rewrite length_take; lia|lia].
Qed.

(** Sizes overflow in 32-bit arithmetic. The number of blocks of a message of
    almost [2 ^ 32] bytes wraps around to zero: [send] reports success for a
    message that the queue cannot hold, where it is documented to throw
    [logic_error], the message is not in the queue, and its bytes overwrite the
    message that is there, up to the end of the blocks. In a queue of more than
    4 GiB the room up to the end of the blocks wraps around: [send] reports
    success but leaves out the end of a message of 100 bytes. *)
Theorem message_sizes_overflow :
  (∀ data, Z.of_nat (length data) = huge →
    m_capacity (hdr region2) < blocks_of (m_block_size (hdr region2)) data ∧
    holds region2 [message1] ∧
    ∃ q', send object0 data huge (region2, ()) = (Ok (Some succeeded), (q', ())) ∧
      m_size (hdr q') = m_size (hdr region2) ∧ take 96 (drop 32 (blocks q')) = take 96 data ∧
      m_get_pos (hdr q') * m_block_size (hdr q') = 64) ∧
  (∀ mem m, Z.of_nat (length mem) = (2 ^ 26 + 1) * 2 ^ 6 → length m = 100%nat →
    ∃ q', send object0 m 100 (Region large_header mem [], ()) = (Ok (Some succeeded), (q', ())) ∧
      drop 64 (blocks q') = drop 64 mem).
Proof.
  split.
  - intros data Hlen. destruct (huge_message_overwrites data Hlen) as (H1 & H2 & _ & H3). done.
  - intros mem m. apply large_queue_truncates.
Qed.

End sample.
