(* ===== verification/IpcSystem.v ===== *)
(** Processes that use an interprocess message queue
    (src/src/posix/ipc_reliable_message_queue.cpp), as a transition system.

    Threads of any number of processes call the operations of file IpcQueue on
    queue objects that are attached to one region. A step is the part of an
    operation from the lock of the queue mutex, or from the end of a wait, to
    the release of the mutex or the beginning of a wait: only the owner of the
    mutex accesses the region, so that these parts exclude each other. A thread
    can die at any moment, also while it owns the mutex; it then leaves the
    positions and the blocks in any state. A waiting thread may wake up without
    a notification; the flag of a waiting thread tells whether it has been
    notified. The queue has a single reader, as its documentation requires. *)

From Stdlib Require Import ZArith.
From stdpp Require Import base numbers relations list.
From S2P Require Import Prelude IpcQueue.
Local Open Scope Z_scope.

Section system.
Context `{AL : Alignment}.
Context {H : Type} (handler : list Z → sm H unit) (reader : nat).

(** * Threads *)

Inductive pc : Type :=
| idle
| sending (o : nat) (m : list Z)
| try_sending (o : nat) (m : list Z)
| send_waiting (o : nat) (m : list Z) (notified : bool)
| receiving (o : nat) (h : H)
| try_receiving (o : nat) (h : H)
| receive_waiting (o : nat) (h : H) (notified : bool)
| stopping (o : nat)
| clearing (o : nat)
| finished (r : outcome (option operation_result))
| dead.

Record system := System {
  queue : region;
  objects : list implementation;
  threads : list pc;
  history : list event;
  crashed : bool }.

(** The queue object that a thread uses. *)
Definition object_of (p : pc) : option nat :=
  match p with
  | sending o _ | try_sending o _ | send_waiting o _ _ | receiving o _ | try_receiving o _
  | receive_waiting o _ _ | stopping o | clearing o => Some o
  | idle | finished _ | dead => None
  end.

(** The result of [try_send] and [try_receive], as a result of [send]. *)
Definition bool_result (r : outcome bool) : outcome (option operation_result) :=
  match r with
  | Ok true => Ok (Some succeeded)
  | Ok false => Ok None
  | Throw e => Throw e
  | Stuck => Stuck
  end.

Definition unit_result {X} (r : outcome X) : outcome (option operation_result) :=
  match r with Ok _ => Ok (Some succeeded) | Throw e => Throw e | Stuck => Stuck end.

Definition after_send (o : nat) (m : list Z) (r : outcome (option operation_result)) : pc :=
  match r with Ok None => send_waiting o m false | _ => finished r end.

Definition after_receive (o : nat) (h : H) (r : outcome (option operation_result)) : pc :=
  match r with Ok None => receive_waiting o h false | _ => finished r end.

(** One step of a thread with its queue object: the next program counter, the
    region and the object. *)
Definition exec (p : pc) (impl : implementation) (q : region) : pc * region * implementation :=
  match p with
  | sending o m =>
      let '(r, (q', _)) := send impl m (Z.of_nat (length m)) (q, ()) in (after_send o m r, q', impl)
  | send_waiting o m _ =>
      let '(r, (q', _)) := send_resumed impl m (Z.of_nat (length m)) (q, ()) in (after_send o m r, q', impl)
  | try_sending _ m =>
      let '(r, (q', _)) := try_send impl m (Z.of_nat (length m)) (q, ()) in (finished (bool_result r), q', impl)
  | receiving o h =>
      let '(r, (q', h')) := receive impl handler (q, h) in (after_receive o h' r, q', impl)
  | receive_waiting o h _ =>
      let '(r, (q', h')) := receive_resumed impl handler (q, h) in (after_receive o h' r, q', impl)
  | try_receiving _ h =>
      let '(r, (q', _)) := try_receive impl handler (q, h) in (finished (bool_result r), q', impl)
  | stopping _ =>
      let '(r, (q', _)) := stop_local impl (q, ()) in
      (finished (unit_result r), q', match r with Ok impl' => impl' | _ => impl end)
  | clearing _ =>
      let '(r, (q', _)) := clear (q, ()) in (finished (unit_result r), q', impl)
  | idle | finished _ | dead => (p, q, impl)
  end.

(** ** Notifications *)

Definition wake_writer (p : pc) : pc :=
  match p with send_waiting o m _ => send_waiting o m true | _ => p end.

Definition wake_reader (p : pc) : pc :=
  match p with receive_waiting o h _ => receive_waiting o h true | _ => p end.

(** What an event does to the waiting threads; [notify_one] wakes one of the
    threads that wait, if there is one. *)
Inductive notify : event → list pc → list pc → Prop :=
| notify_history e ts :
    (match e with ev_sent _ | ev_received _ | ev_cleared => True | _ => False end) → notify e ts ts
| notify_one_none ts :
    (∀ i o h, ts !! i ≠ Some (receive_waiting o h false)) → notify ev_notify_one_nonempty ts ts
| notify_one_some ts i o h :
    ts !! i = Some (receive_waiting o h false) →
    notify ev_notify_one_nonempty ts (<[i := receive_waiting o h true]> ts)
| notify_readers ts : notify ev_notify_all_nonempty ts (wake_reader <$> ts)
| notify_writers ts : notify ev_notify_all_nonfull ts (wake_writer <$> ts).

Inductive notify_list : list event → list pc → list pc → Prop :=
| notify_nil ts : notify_list [] ts ts
| notify_cons e es ts ts1 ts2 : notify e ts ts1 → notify_list es ts1 ts2 → notify_list (e :: es) ts ts2.

(** ** Steps *)

Definition reset_log (q : region) : region := Region (hdr q) (blocks q) [].

(** A call that a thread may make: the message is not larger than 32-bit
    arithmetic allows, and only one thread receives. *)
Definition callable (σ : system) (i : nat) (p : pc) : Prop :=
  (∃ o, object_of p = Some o ∧ (o < length (objects σ))%nat) ∧
  match p with
  | sending _ m | try_sending _ m => sendable (m_block_size (hdr (queue σ))) m
  | receiving _ _ | try_receiving _ _ => i = reader
  | stopping _ | clearing _ => True
  | _ => False
  end.

Inductive step : system → system → Prop :=
| step_call q objs ts hist c i p :
    ts !! i = Some idle → callable (System q objs ts hist c) i p →
    step (System q objs ts hist c) (System q objs (<[i := p]> ts) hist c)
| step_exec q objs ts hist c i p o impl p' q' impl' ts' :
    ts !! i = Some p → object_of p = Some o → objs !! o = Some impl →
    exec p impl q = (p', q', impl') → notify_list (log q') ts ts' →
    step (System q objs ts hist c)
      (System (reset_log q') (<[o := impl']> objs) (<[i := p']> ts') (hist ++ log q') c)
| step_reset q objs ts hist c o impl :
    objs !! o = Some impl →
    step (System q objs ts hist c) (System q (<[o := reset_local impl]> objs) ts hist c)
| step_return q objs ts hist c i r :
    ts !! i = Some (finished r) →
    step (System q objs ts hist c) (System q objs (<[i := idle]> ts) hist c)
| step_die q objs ts hist c i p :
    ts !! i = Some p → step (System q objs ts hist c) (System q objs (<[i := dead]> ts) hist c)
(** Death in a critical section. *)
| step_crash q objs ts hist c i p o size put get mem :
    ts !! i = Some p → object_of p = Some o → lockable q → length mem = length (blocks q) →
    step (System q objs ts hist c)
      (System (set_mutex owner_dead (set_positions size put get (set_blocks mem q)))
        objs (<[i := dead]> ts) hist true).

(** The queue has been created, objects are attached and no call is active. *)
Definition initial (σ : system) : Prop :=
  queue_rep (queue σ) [] ∧ m_mutex (hdr (queue σ)) = available ∧ log (queue σ) = [] ∧
  Forall (λ impl, attached impl (queue σ)) (objects σ) ∧ Forall (λ p, p = idle) (threads σ) ∧
  history σ = [] ∧ crashed σ = false.

Definition reachable (σ : system) : Prop := ∃ σ0, initial σ0 ∧ rtc step σ0 σ.

(** * The abstract queue *)

(** A FIFO of messages that occupy a limited number of blocks. *)
Definition fifo_event (cap bs : Z) (ms : list (list Z)) (e : event) : option (list (list Z)) :=
  match e with
  | ev_sent m => if blocks_used bs ms + blocks_of bs m <=? cap then Some (ms ++ [m]) else None
  | ev_received m =>
      match ms with
      | m' :: rest => if decide (m = m') then Some rest else None
      | [] => None
      end
  | ev_cleared => Some []
  | _ => Some ms
  end.

Fixpoint fifo_run (cap bs : Z) (ms : list (list Z)) (es : list event) : option (list (list Z)) :=
  match es with
  | [] => Some ms
  | e :: es => fifo_event cap bs ms e ≫= λ ms, fifo_run cap bs ms es
  end.

(** * What a step does to the region *)

(** The messages that the next owner of the mutex finds. *)
Definition found (q : region) (ms : list (list Z)) : list (list Z) :=
  if decide (m_mutex (hdr q) = owner_dead) then [] else ms.

Inductive effect (q : region) (ms : list (list Z)) : region → list (list Z) → Prop :=
| eff_none : effect q ms q ms
| eff_locked : lockable q → effect q ms (after_lock q) (found q ms)
| eff_sent m :
    lockable q → sendable (m_block_size (hdr q)) m →
    blocks_used (m_block_size (hdr q)) (found q ms) + blocks_of (m_block_size (hdr q)) m ≤ m_capacity (hdr q) →
    effect q ms (enqueued m (after_lock q)) (found q ms ++ [m])
| eff_received m rest :
    lockable q → found q ms = m :: rest → effect q ms (dequeued m (after_lock q)) rest
| eff_cleared : lockable q → effect q ms (cleared (after_lock q)) []
| eff_stopped :
    lockable q →
    effect q ms (emit ev_notify_all_nonfull (emit ev_notify_all_nonempty (after_lock q))) (found q ms)
(** A thread woke up from a wait and unlocked a mutex whose owner had died. *)
| eff_poisoned : m_mutex (hdr q) = owner_dead → effect q ms (set_mutex not_recoverable q) ms.

(** The region between two steps. *)
Record region_ok (q : region) (ms : list (list Z)) : Prop := {
  ok_layout : layout q;
  ok_log : log q = [];
  ok_mutex : lockable q ∨ m_mutex (hdr q) = not_recoverable;
  ok_rep : m_mutex (hdr q) = available → queue_rep q ms }.

Lemma region_ok_holds q ms : region_ok q ms → lockable q → holds q (found q ms).
Proof.
  intros [Hl _ _ Hr] Hlk. split; [done|]. unfold found, after_lock. destruct Hlk as [Hav|Hdead].
  - rewrite !decide_False by (rewrite Hav; done). apply rep_set_mutex. auto.
  - rewrite !decide_True by done. by apply rep_set_mutex, cleared_rep.
Qed.

Lemma reset_log_rep q ms : queue_rep q ms → queue_rep (reset_log q) ms.
Proof. by intros []. Qed.

Lemma rep_emit e q ms : queue_rep q ms → queue_rep (emit e q) ms.
Proof. by intros []. Qed.

Lemma after_lock_log q : log q = [] →
  log (after_lock q) = if decide (m_mutex (hdr q) = owner_dead) then [ev_cleared; ev_notify_all_nonfull] else [].
Proof. intros Hq. unfold after_lock. case_decide; cbn; by rewrite Hq. Qed.

(** Every effect keeps the region well-formed. *)
Lemma effect_ok q ms q' ms' : region_ok q ms → effect q ms q' ms' → region_ok (reset_log q') ms'.
Proof.
  intros Hok He.
  assert (∀ q1 ms1, queue_rep q1 ms1 → m_mutex (hdr q1) = available → region_ok (reset_log q1) ms1) as Hdone.
  { intros q1 ms1 HR Hav. split; [by eapply rep_layout, reset_log_rep|done|left; by left|].
    intros _. by apply reset_log_rep. }
  destruct He as [|Hl|m Hl Hs Hroom|m rest Hl Hf|Hl|Hl|Hd];
    try (destruct (region_ok_holds q ms Hok Hl) as [_ HR]).
  - destruct Hok as [H1 H2 H3 H4]. split; [by destruct H1|done|done|]. intros Hav. by apply reset_log_rep, H4.
  - by apply Hdone.
  - destruct (after_lock_layout q) as [Hb Hc].
    apply Hdone; [|by rewrite enqueued_hdr]. apply enqueued_rep; [done|by rewrite Hb|].
    by rewrite (rep_size _ _ HR), Hb, Hc.
  - rewrite Hf in HR. apply Hdone; [by apply dequeued_rep|done].
  - apply Hdone; [apply cleared_rep; by eapply rep_layout|done].
  - apply Hdone; [by do 2 apply rep_emit|done].
  - destruct Hok as [H1 H2 H3 H4]. split; [by destruct H1|done|by right|done].
Qed.

Lemma effect_static q ms q' ms' :
  effect q ms q' ms' →
  m_block_size (hdr q') = m_block_size (hdr q) ∧ m_capacity (hdr q') = m_capacity (hdr q).
Proof. intros []; rewrite ?enqueued_hdr; cbn; try apply after_lock_layout; done. Qed.

Lemma fifo_run_app cap bs ms es es' :
  fifo_run cap bs ms (es ++ es') = fifo_run cap bs ms es ≫= λ ms, fifo_run cap bs ms es'.
Proof.
  revert ms. induction es as [|e es IH]; intros ms; [done|]. cbn.
  destruct (fifo_event cap bs ms e); cbn; auto.
Qed.

(** The events of every effect are steps of the abstract queue. *)
Lemma effect_fifo q ms q' ms' :
  region_ok q ms → effect q ms q' ms' →
  fifo_run (m_capacity (hdr q)) (m_block_size (hdr q)) ms (log q') = Some ms'.
Proof.
  intros Hok He. pose proof (ok_log _ _ Hok) as Hlog. pose proof (after_lock_log q Hlog) as Hal.
  assert (∀ es, fifo_run (m_capacity (hdr q)) (m_block_size (hdr q)) ms (log (after_lock q) ++ es) =
    fifo_run (m_capacity (hdr q)) (m_block_size (hdr q)) (found q ms) es) as Hfound.
  { intros es. rewrite Hal. unfold found. by case_decide. }
  destruct He as [|Hl|m Hl Hs Hroom|m rest Hl Hf|Hl|Hl|Hd].
  - by rewrite Hlog.
  - by rewrite <- (app_nil_r (log _)), Hfound.
  - rewrite enqueued_log, Hfound. cbn -[Z.add Z.leb]. rewrite (proj2 (Z.leb_le _ _)) by done. cbn.
    by destruct (_ =? 0).
  - cbn. rewrite <- app_assoc, Hfound, Hf. cbn. by rewrite decide_True by done.
  - cbn. by rewrite <- app_assoc, Hfound.
  - cbn. by rewrite <- app_assoc, Hfound.
  - cbn. by rewrite Hlog.
Qed.

(** A step that does not notify the writers frees no blocks. *)
Lemma effect_quiet_writers q ms q' ms' :
  region_ok q ms → effect q ms q' ms' → ev_notify_all_nonfull ∉ log q' → m_mutex (hdr q') = available →
  m_mutex (hdr q) = available ∧
  blocks_used (m_block_size (hdr q)) ms ≤ blocks_used (m_block_size (hdr q)) ms'.
Proof.
  intros Hok He Hq Hav. pose proof (after_lock_log q (ok_log _ _ Hok)) as Hal.
  assert (32 ≤ m_block_size (hdr q)) as Hbs.
  { destruct (lay_block_size _ (ok_layout _ _ Hok)) as (k & Hk & ->). apply pow2_ge_32; lia. }
  assert (∀ es, lockable q → ev_notify_all_nonfull ∉ log (after_lock q) ++ es →
    m_mutex (hdr q) = available ∧ found q ms = ms) as Hquiet.
  { intros es Hl Hin. rewrite Hal in Hin. unfold found. case_decide; [set_solver|]. by destruct Hl. }
  destruct He as [|Hl|m Hl Hs Hroom|m rest Hl Hf|Hl|Hl|Hd]; cbn in Hq; try (exfalso; set_solver).
  - done.
  - rewrite <- (app_nil_r (log _)) in Hq. destruct (Hquiet _ Hl Hq) as [-> ->]. done.
  - rewrite enqueued_log in Hq. destruct (Hquiet _ Hl Hq) as [-> ->]. split; [done|].
    rewrite blocks_used_app. pose proof (blocks_used_nonneg (m_block_size (hdr q)) [m] Hbs). lia.
Qed.

(** A step that does not notify the reader leaves an empty queue empty. *)
Lemma effect_quiet_reader q ms q' ms' :
  region_ok q ms → effect q ms q' ms' → ev_notify_one_nonempty ∉ log q' → m_mutex (hdr q') = available →
  (m_mutex (hdr q) = available → ms = []) → ms' = [].
Proof.
  intros Hok He Hq Hav Hempty.
  assert (lockable q → found q ms = []) as Hf.
  { intros [Hl|Hl]; unfold found; [rewrite decide_False by (rewrite Hl; done); auto|by rewrite decide_True]. }
  destruct He as [|Hl|m Hl Hs Hroom|m rest Hl Hr|Hl|Hl|Hd]; auto.
  - destruct (region_ok_holds q ms Hok Hl) as [_ HR]. rewrite (Hf Hl) in HR.
    rewrite enqueued_log, (rep_size _ _ HR) in Hq. cbn in Hq. set_solver.
  - by rewrite (Hf Hl) in Hr.
  - discriminate.
Qed.

(** A thread that wakes up while the mutex has no living owner. *)
Lemma resumed_dead {X Y} (m : sm (region * Y) X) q h :
  m_mutex (hdr q) = owner_dead →
  auto_unlock (on_queue cond_wait_relock;; m) (q, h) =
    (Throw ex_system_error, (set_mutex not_recoverable q, h)).
Proof.
  intros Hq. unfold auto_unlock. rewrite sm_bind_run.
  rewrite (on_queue_run cond_wait_relock q h (Throw ex_system_error) (set_mutex (held false) q)); [done|].
  unfold cond_wait_relock. sm_step. by rewrite Hq.
Qed.

Lemma resumed_lost {X Y} (m : sm (region * Y) X) q h :
  m_mutex (hdr q) = not_recoverable →
  auto_unlock (on_queue cond_wait_relock;; m) (q, h) = (Stuck, (q, h)).
Proof.
  intros Hq. unfold auto_unlock. rewrite sm_bind_run.
  rewrite (on_queue_run cond_wait_relock q h (Throw ex_system_error) q).
  - unfold mutex_unlock. sm_step. by rewrite Hq.
  - unfold cond_wait_relock. sm_step. by rewrite Hq.
Qed.

(** The result of a section: what it does to the region, that it is defined if
    the mutex is not lost, and when it waits. *)
Definition section_ok (q : region) (ms : list (list Z)) (impl : implementation)
    (r : outcome (option operation_result)) (q' : region) (waits : list (list Z) → Prop) : Prop :=
  ∃ ms', effect q ms q' ms' ∧
    (m_mutex (hdr q) = available → m_mutex (hdr q') = available ∧ r ≠ Stuck) ∧
    (r = Ok None → m_stop impl = false ∧ m_mutex (hdr q') = available ∧ waits ms').

Definition no_room (q : region) (m : list Z) (ms : list (list Z)) : Prop :=
  m_capacity (hdr q) < blocks_used (m_block_size (hdr q)) ms + blocks_of (m_block_size (hdr q)) m.

Lemma send_outcome_ok q ms impl m r q' :
  region_ok q ms → lockable q → sendable (m_block_size (hdr q)) m →
  send_outcome impl m (after_lock q) = (r, q') → section_ok q ms impl r q' (no_room q m).
Proof.
  intros Hok Hl Hs Ho. destruct (region_ok_holds q ms Hok Hl) as [_ HR].
  pose proof (rep_size _ _ HR) as Hsize. destruct (after_lock_layout q) as [Hb Hc].
  unfold send_outcome in Ho. rewrite Hsize, Hb, Hc in Ho.
  destruct (m_stop impl) eqn:Hst; [|destruct (_ <=? _) eqn:Hle; to_prop]; simplify_eq.
  - exists (found q ms). split_and!; [by constructor|done|done].
  - exists (found q ms ++ [m]). split_and!; [by constructor|by rewrite enqueued_hdr|done].
  - exists (found q ms). destruct (m_overflow_policy impl); simplify_eq; (split_and!; [by constructor|done|done]).
Qed.

Lemma receive_outcome_ok q ms impl h r q' h' :
  safe_handler handler → region_ok q ms → lockable q →
  receive_outcome impl handler (after_lock q) (found q ms) h = (r, (q', h')) →
  section_ok q ms impl r q' (λ ms', ms' = []).
Proof.
  intros Hsafe Hok Hl Ho. unfold receive_outcome in Ho. destruct (m_stop impl) eqn:Hst.
  { simplify_eq. exists (found q ms). split_and!; [by constructor|done|done]. }
  destruct (found q ms) as [|m rest] eqn:Hf.
  { simplify_eq. exists (found q ms). split_and!; [by constructor|done|done]. }
  pose proof (deliver_safe handler (chunk_of (after_lock q) m) m h Hsafe) as Hd.
  destruct (deliver handler _ m h) as [[?|?|] h1]; simplify_eq.
  - exists rest. split_and!; [by constructor|done|done].
  - exists (found q ms). split_and!; [by constructor|done|done].
Qed.

Hypothesis handler_safe : safe_handler handler.

(** Every operation that locks the mutex fails when the mutex is lost. *)
Lemma send_ok q ms impl m r q' :
  region_ok q ms → attached impl q → sendable (m_block_size (hdr q)) m →
  send (H := unit) impl m (Z.of_nat (length m)) (q, ()) = (r, (q', ())) → section_ok q ms impl r q' (no_room q m).
Proof.
  intros Hok Hat Hs Hrun. destruct (ok_mutex _ _ Hok) as [Hl|Hlost].
  - rewrite (send_run impl m q _ () (region_ok_holds q ms Hok Hl) Hat Hs) in Hrun.
    destruct (m_capacity (hdr q) <? _); [simplify_eq; exists ms; split_and!; [constructor|done|done]|].
    destruct (m_stop impl) eqn:Hst; [simplify_eq; exists ms; split_and!; [constructor|done|done]|].
    destruct (send_outcome impl m (after_lock q)) as [r1 q1] eqn:Ho. simplify_eq. by eapply send_outcome_ok.
  - exists ms. unfold send in Hrun. rewrite sm_bind_run, (on_queue_run sm_get q () _ _ eq_refl) in Hrun.
    repeat case_match; rewrite ?lock_queue_not_recoverable in Hrun by done;
      unfold sm_throw, mret, sm_ret in *; simplify_eq; (split_and!; [constructor|by rewrite Hlost|done]).
Qed.

Lemma try_send_ok q ms impl m r q' :
  region_ok q ms → attached impl q → sendable (m_block_size (hdr q)) m →
  try_send (H := unit) impl m (Z.of_nat (length m)) (q, ()) = (r, (q', ())) →
  ∃ ms', effect q ms q' ms' ∧ (m_mutex (hdr q) = available → m_mutex (hdr q') = available ∧ r ≠ Stuck).
Proof.
  intros Hok Hat Hs Hrun. destruct (ok_mutex _ _ Hok) as [Hl|Hlost].
  - pose proof (region_ok_holds q ms Hok Hl) as HH. destruct (after_lock_layout q) as [Hb Hc].
    rewrite (try_send_run impl m q _ () HH Hat Hs) in Hrun. cbn zeta in Hrun.
    rewrite (rep_size _ _ (proj2 HH)), Hb, Hc in Hrun.
    destruct (m_capacity (hdr q) <? _); [simplify_eq; exists ms; split; [constructor|done]|].
    destruct (m_stop impl) eqn:Hst; [simplify_eq; exists ms; split; [constructor|done]|].
    destruct (_ <=? _) eqn:Hle; to_prop; simplify_eq.
    + exists (found q ms ++ [m]). split; [by constructor|]. by rewrite enqueued_hdr.
    + exists (found q ms). split; [by constructor|done].
  - exists ms. unfold try_send in Hrun. rewrite sm_bind_run, (on_queue_run sm_get q () _ _ eq_refl) in Hrun.
    repeat case_match; rewrite ?lock_queue_not_recoverable in Hrun by done;
      unfold sm_throw, mret, sm_ret in *; simplify_eq; (split; [constructor|by rewrite Hlost]).
Qed.

Lemma receive_ok q ms impl h r q' h' :
  region_ok q ms → attached impl q → receive impl handler (q, h) = (r, (q', h')) →
  section_ok q ms impl r q' (λ ms', ms' = []).
Proof.
  intros Hok Hat Hrun. destruct (ok_mutex _ _ Hok) as [Hl|Hlost].
  - rewrite (receive_run impl handler q _ h handler_safe (region_ok_holds q ms Hok Hl) Hat) in Hrun.
    destruct (m_stop impl) eqn:Hst; [simplify_eq; exists ms; split_and!; [constructor|done|done]|].
    by eapply receive_outcome_ok.
  - exists ms. unfold receive in Hrun.
    case_match; rewrite ?lock_queue_not_recoverable in Hrun by done;
      unfold sm_throw, mret, sm_ret in *; simplify_eq; (split_and!; [constructor|by rewrite Hlost|done]).
Qed.

Lemma try_receive_ok q ms impl h r q' h' :
  region_ok q ms → attached impl q → try_receive impl handler (q, h) = (r, (q', h')) →
  ∃ ms', effect q ms q' ms' ∧ (m_mutex (hdr q) = available → m_mutex (hdr q') = available ∧ r ≠ Stuck).
Proof.
  intros Hok Hat Hrun. destruct (ok_mutex _ _ Hok) as [Hl|Hlost].
  - rewrite (try_receive_run impl handler q _ h handler_safe (region_ok_holds q ms Hok Hl) Hat) in Hrun.
    destruct (m_stop impl) eqn:Hst; [simplify_eq; exists ms; split; [constructor|done]|]. cbn zeta in Hrun.
    destruct (found q ms) as [|m rest] eqn:Hf.
    { simplify_eq. exists (found q ms). split; [by constructor|done]. }
    pose proof (deliver_safe handler (chunk_of (after_lock q) m) m h handler_safe) as Hd.
    destruct (deliver handler _ m h) as [[?|?|] h1]; simplify_eq.
    + exists rest. split; [by constructor|done].
    + exists (found q ms). split; [by constructor|done].
  - exists ms. unfold try_receive in Hrun.
    case_match; rewrite ?lock_queue_not_recoverable in Hrun by done;
      unfold sm_throw, mret, sm_ret in *; simplify_eq; (split; [constructor|by rewrite Hlost]).
Qed.

(** The sections after a wait. *)
Lemma send_resumed_ok q ms impl m r q' :
  region_ok q ms → attached impl q → sendable (m_block_size (hdr q)) m →
  send_resumed (H := unit) impl m (Z.of_nat (length m)) (q, ()) = (r, (q', ())) →
  section_ok q ms impl r q' (no_room q m).
Proof.
  intros Hok Hat Hs Hrun. destruct (ok_mutex _ _ Hok) as [[Hav|Hdead]|Hlost].
  - rewrite (send_resumed_run impl m q ms () (ok_rep _ _ Hok Hav) Hav Hat Hs) in Hrun.
    destruct (send_outcome impl m q) as [r1 q1] eqn:Ho. simplify_eq.
    apply send_outcome_ok; try done; [by left|]. by rewrite after_lock_available.
  - exists ms. unfold send_resumed in Hrun. rewrite resumed_dead in Hrun by done. simplify_eq.
    split_and!; [by constructor|by rewrite Hdead|done].
  - exists ms. unfold send_resumed in Hrun. rewrite resumed_lost in Hrun by done. simplify_eq.
    split_and!; [constructor|by rewrite Hlost|done].
Qed.

Lemma receive_resumed_ok q ms impl h r q' h' :
  region_ok q ms → attached impl q → receive_resumed impl handler (q, h) = (r, (q', h')) →
  section_ok q ms impl r q' (λ ms', ms' = []).
Proof.
  intros Hok Hat Hrun. destruct (ok_mutex _ _ Hok) as [[Hav|Hdead]|Hlost].
  - rewrite (receive_resumed_run impl handler q ms h handler_safe (ok_rep _ _ Hok Hav) Hav Hat) in Hrun.
    eapply (receive_outcome_ok q ms impl h); try done; [by left|].
    rewrite after_lock_available by done. unfold found. by rewrite decide_False by (rewrite Hav; done).
  - exists ms. unfold receive_resumed in Hrun. rewrite resumed_dead in Hrun by done. simplify_eq.
    split_and!; [by constructor|by rewrite Hdead|done].
  - exists ms. unfold receive_resumed in Hrun. rewrite resumed_lost in Hrun by done. simplify_eq.
    split_and!; [constructor|by rewrite Hlost|done].
Qed.

(** ** Steps of threads *)

(** The arguments of a call in progress. *)
Definition pc_ok (bs : Z) (objs : list implementation) (i : nat) (p : pc) : Prop :=
  (∀ o, object_of p = Some o → (o < length objs)%nat) ∧
  match p with
  | sending _ m | try_sending _ m | send_waiting _ m _ => sendable bs m
  | receiving _ _ | try_receiving _ _ | receive_waiting _ _ _ => i = reader
  | _ => True
  end.

(** Why a thread waits that has not been notified: its object is not stopped,
    and unless the owner of the mutex has died, there is no room for its message
    or the queue is empty. *)
Definition wait_ok (q : region) (ms : list (list Z)) (objs : list implementation) (p : pc) : Prop :=
  match p with
  | send_waiting o m false =>
      (∃ impl, objs !! o = Some impl ∧ m_stop impl = false) ∧
      (m_mutex (hdr q) = available → no_room q m ms)
  | receive_waiting o _ false =>
      (∃ impl, objs !! o = Some impl ∧ m_stop impl = false) ∧ (m_mutex (hdr q) = available → ms = [])
  | _ => True
  end.

(** The object after a step: unchanged, or stopped with notifications. *)
Definition object_step (q' : region) (impl impl' : implementation) : Prop :=
  impl' = impl ∨
  (impl' = Impl (m_overflow_policy impl) (m_block_size_mask impl) (m_block_size_log2 impl) true ∧
   ev_notify_all_nonfull ∈ log q' ∧ ev_notify_all_nonempty ∈ log q').

Definition exec_post (bs : Z) (objs : list implementation) (i o : nat) (q : region) (ms : list (list Z))
    (impl : implementation) (p' : pc) (q' : region) (impl' : implementation) : Prop :=
  ∃ ms', effect q ms q' ms' ∧ object_step q' impl impl' ∧
    pc_ok bs objs i p' ∧ wait_ok q' ms' (<[o := impl']> objs) p' ∧
    (m_mutex (hdr q) = available → m_mutex (hdr q') = available ∧ p' ≠ finished Stuck).

Lemma after_send_post bs objs i o q ms impl m r q' :
  bs = m_block_size (hdr q) → objs !! o = Some impl → sendable bs m →
  section_ok q ms impl r q' (no_room q m) → exec_post bs objs i o q ms impl (after_send o m r) q' impl.
Proof.
  intros -> Ho Hs (ms' & He & Hav & Hw). exists ms'. pose proof (lookup_lt_Some _ _ _ Ho) as Hlt.
  destruct (effect_static _ _ _ _ He) as [Hb Hc].
  split_and!; [done|by left|..].
  - destruct r as [[?|]|?|]; split; try done; by intros ? [= <-].
  - destruct r as [[?|]|?|]; try done. destruct (Hw eq_refl) as (H1 & H2 & H3). cbn. split.
    + exists impl. by rewrite list_lookup_insert_eq.
    + intros _. unfold no_room in *. by rewrite Hb, Hc.
  - intros Hq. destruct (Hav Hq) as [H1 H2]. split; [done|]. destruct r as [[?|]|?|]; cbn; congruence.
Qed.

Lemma after_receive_post bs objs i o q ms impl h r q' :
  i = reader → objs !! o = Some impl →
  section_ok q ms impl r q' (λ ms', ms' = []) → exec_post bs objs i o q ms impl (after_receive o h r) q' impl.
Proof.
  intros Hi Ho (ms' & He & Hav & Hw). exists ms'. pose proof (lookup_lt_Some _ _ _ Ho) as Hlt.
  split_and!; [done|by left|..].
  - destruct r as [[?|]|?|]; split; try done; by intros ? [= <-].
  - destruct r as [[?|]|?|]; try done. destruct (Hw eq_refl) as (H1 & H2 & H3). cbn. split; [|done].
    exists impl. by rewrite list_lookup_insert_eq.
  - intros Hq. destruct (Hav Hq) as [H1 H2]. split; [done|]. destruct r as [[?|]|?|]; cbn; congruence.
Qed.

Lemma finished_post bs objs i o q ms ms' impl impl' r q' :
  effect q ms q' ms' → object_step q' impl impl' →
  (m_mutex (hdr q) = available → m_mutex (hdr q') = available ∧ r ≠ Stuck) →
  exec_post bs objs i o q ms impl (finished r) q' impl'.
Proof.
  intros He Ho Hav. exists ms'. split_and!; try done.
  intros Hq. destruct (Hav Hq) as [H1 H2]. split; congruence.
Qed.

Lemma stop_clear_post bs objs i o q ms impl p p' q' impl' :
  region_ok q ms → p = stopping o ∨ p = clearing o → exec p impl q = (p', q', impl') →
  exec_post bs objs i o q ms impl p' q' impl'.
Proof.
  intros Hok Hp Hrun. destruct (ok_mutex _ _ Hok) as [Hl|Hlost]; destruct Hp as [-> | ->]; cbn in Hrun.
  - rewrite stop_local_run in Hrun by done. destruct (m_stop impl); simplify_eq.
    + eapply finished_post; [constructor|by left|done].
    + eapply finished_post; [by constructor| |done]. right. cbn. set_solver.
  - rewrite clear_run in Hrun by done. simplify_eq. eapply finished_post; [by constructor|by left|done].
  - unfold stop_local in Hrun. destruct (m_stop impl); [simplify_eq/=|].
    + eapply finished_post; [constructor|by left|by rewrite Hlost].
    + rewrite lock_queue_not_recoverable in Hrun by done. simplify_eq.
      eapply finished_post; [constructor|by left|by rewrite Hlost].
  - unfold clear in Hrun. rewrite lock_queue_not_recoverable in Hrun by done. simplify_eq.
    eapply finished_post; [constructor|by left|by rewrite Hlost].
Qed.

Lemma exec_ok q ms objs i o p impl p' q' impl' :
  region_ok q ms → attached impl q → objs !! o = Some impl → object_of p = Some o →
  pc_ok (m_block_size (hdr q)) objs i p → exec p impl q = (p', q', impl') →
  exec_post (m_block_size (hdr q)) objs i o q ms impl p' q' impl'.
Proof.
  intros Hok Hat Ho Hobj [_ Hpc] Hrun.
  destruct p as [|o' m|o' m|o' m n|o' h|o' h|o' h n|o'|o'|r|]; simplify_eq; cbn in Hobj; simplify_eq.
  - cbn in Hrun. destruct (send _ _ _ _) as [r [q1 []]] eqn:E. simplify_eq.
    apply after_send_post; try done. by eapply send_ok.
  - cbn in Hrun. destruct (try_send _ _ _ _) as [r [q1 []]] eqn:E. simplify_eq.
    destruct (try_send_ok _ _ _ _ _ _ Hok Hat Hpc E) as (ms' & He & Hav).
    eapply finished_post; [done|by left|]. intros Hq. destruct (Hav Hq). by destruct r as [[]| |].
  - cbn in Hrun. destruct (send_resumed _ _ _ _) as [r [q1 []]] eqn:E. simplify_eq.
    apply after_send_post; try done. by eapply send_resumed_ok.
  - cbn in Hrun. destruct (receive _ _ _) as [r [q1 h1]] eqn:E. simplify_eq.
    apply after_receive_post; try done. by eapply receive_ok.
  - cbn in Hrun. destruct (try_receive _ _ _) as [r [q1 h1]] eqn:E. simplify_eq.
    destruct (try_receive_ok _ _ _ _ _ _ _ Hok Hat E) as (ms' & He & Hav).
    eapply finished_post; [done|by left|]. intros Hq. destruct (Hav Hq). by destruct r as [[]| |].
  - cbn in Hrun. destruct (receive_resumed _ _ _) as [r [q1 h1]] eqn:E. simplify_eq.
    apply after_receive_post; try done. by eapply receive_resumed_ok.
  - eapply stop_clear_post; [done|by left|done].
  - eapply stop_clear_post; [done|by right|done].
Qed.

(** ** Notifications *)

(** A call without its notification flag. *)
Definition call_of (p : pc) : pc := wake_reader (wake_writer p).

Lemma notify_call e ts ts' j p' :
  notify e ts ts' → ts' !! j = Some p' → ∃ p, ts !! j = Some p ∧ call_of p = call_of p'.
Proof.
  destruct 1 as [e ts _|ts _|ts i o h Hi|ts|ts]; [by eauto..| | |].
  - intros Hj. destruct (decide (j = i)) as [->|Hne].
    + rewrite list_lookup_insert_eq in Hj by (by eapply lookup_lt_Some). simplify_eq. by eexists.
    + rewrite list_lookup_insert_ne in Hj by done. by eexists.
  - rewrite list_lookup_fmap, fmap_Some. intros (p & Hp & ->). exists p. by destruct p.
  - rewrite list_lookup_fmap, fmap_Some. intros (p & Hp & ->). exists p. by destruct p.
Qed.

Lemma notify_list_call es ts ts' j p' :
  notify_list es ts ts' → ts' !! j = Some p' → ∃ p, ts !! j = Some p ∧ call_of p = call_of p'.
Proof.
  intros Hn. revert p'. induction Hn as [|e es ts ts1 ts2 He _ IH]; intros p' Hj; [by eexists|].
  destruct (IH p' Hj) as (p1 & Hp1 & E1). destruct (notify_call _ _ _ _ _ He Hp1) as (p & Hp & E).
  exists p. by rewrite E.
Qed.

Lemma notify_list_length es ts ts' : notify_list es ts ts' → length ts' = length ts.
Proof.
  induction 1 as [|e es ts ts1 ts2 He _ IH]; [done|]. rewrite IH.
  destruct He; rewrite ?length_insert, ?length_fmap; done.
Qed.

(** A writer that has not been notified was not notified before. *)
Lemma notify_list_writer es ts ts' j o m :
  notify_list es ts ts' → ts' !! j = Some (send_waiting o m false) →
  ts !! j = Some (send_waiting o m false) ∧ ev_notify_all_nonfull ∉ es.
Proof.
  induction 1 as [|e es ts ts1 ts2 He _ IH]; intros Hj; [split; [done|apply not_elem_of_nil]|].
  destruct (IH Hj) as [H1 H2].
  destruct He as [e ts He|ts _|ts i o' h Hi|ts|ts].
  - split; [done|]. apply not_elem_of_cons. split; [by intros <-|done].
  - split; [done|]. by apply not_elem_of_cons.
  - split; [|by apply not_elem_of_cons]. destruct (decide (j = i)) as [->|Hne].
    + rewrite list_lookup_insert_eq in H1 by (by eapply lookup_lt_Some). done.
    + by rewrite list_lookup_insert_ne in H1.
  - split; [|by apply not_elem_of_cons]. apply list_lookup_fmap_Some in H1 as (p & Hp & E). by destruct p; simplify_eq/=.
  - apply list_lookup_fmap_Some in H1 as (p & Hp & E). by destruct p; simplify_eq/=.
Qed.

(** A reader that has not been notified was not notified before; if it is the
    only one, no notification was sent to the readers. *)
Lemma notify_list_reader es ts ts' j o h :
  notify_list es ts ts' → ts' !! j = Some (receive_waiting o h false) →
  (∀ k o h b, ts !! k = Some (receive_waiting o h b) → k = j) →
  ts !! j = Some (receive_waiting o h false) ∧ (ev_notify_all_nonempty ∉ es) ∧ ev_notify_one_nonempty ∉ es.
Proof.
  induction 1 as [|e es ts ts1 ts2 He _ IH]; intros Hj Hone; [split_and!; [done|apply not_elem_of_nil..]|].
  destruct IH as (H1 & H2 & H3); [done| |].
  { intros k o1 h1 b1 Hk. destruct (notify_call _ _ _ _ _ He Hk) as (p & Hp & E).
    destruct p; simplify_eq/=. by eapply Hone. }
  rewrite !not_elem_of_cons. destruct He as [e ts He|ts Hnone|ts i o' h' Hi|ts|ts].
  - split_and!; try done; by intros <-.
  - by destruct (Hnone j o h).
  - assert (i = j) as -> by (by eapply Hone).
    rewrite list_lookup_insert_eq in H1 by (by eapply lookup_lt_Some). done.
  - apply list_lookup_fmap_Some in H1 as (p & Hp & E). by destruct p; simplify_eq/=.
  - split_and!; try done. apply list_lookup_fmap_Some in H1 as (p & Hp & E). by destruct p; simplify_eq/=.
Qed.

(** * The invariant *)

Record inv_with (σ : system) (ms : list (list Z)) : Prop := {
  inv_region : region_ok (queue σ) ms;
  inv_fifo : fifo_run (m_capacity (hdr (queue σ))) (m_block_size (hdr (queue σ))) [] (history σ) = Some ms;
  inv_objects : Forall (λ impl, attached impl (queue σ)) (objects σ);
  inv_pcs : ∀ i p, threads σ !! i = Some p → pc_ok (m_block_size (hdr (queue σ))) (objects σ) i p;
  inv_waits : ∀ i p, threads σ !! i = Some p → wait_ok (queue σ) ms (objects σ) p;
  inv_crash : crashed σ = false →
    m_mutex (hdr (queue σ)) = available ∧ ∀ i, threads σ !! i ≠ Some (finished Stuck) }.

Lemma pc_ok_call bs objs objs' i p p' :
  call_of p = call_of p' → length objs' = length objs → pc_ok bs objs i p → pc_ok bs objs' i p'.
Proof. unfold pc_ok. intros E ->. by destruct p, p'; simplify_eq/=. Qed.

Lemma wait_ok_insert q ms objs o impl p :
  (∀ impl0, objs !! o = Some impl0 → m_stop impl0 = false → m_stop impl = false) →
  wait_ok q ms objs p → wait_ok q ms (<[o := impl]> objs) p.
Proof.
  intros Hstop.
  assert (∀ o', (∃ impl0, objs !! o' = Some impl0 ∧ m_stop impl0 = false) →
    ∃ impl0, <[o := impl]> objs !! o' = Some impl0 ∧ m_stop impl0 = false) as Hex.
  { intros o' (impl0 & H1 & H2). destruct (decide (o' = o)) as [->|Hne].
    - exists impl. rewrite list_lookup_insert_eq by (by eapply lookup_lt_Some). eauto.
    - exists impl0. by rewrite list_lookup_insert_ne. }
  destruct p; try done; cbn; case_match; try done; intros [H1 H2]; split; auto.
Qed.

(** The threads that were waiting before a step of another thread. *)
Lemma others_wait q ms q' ms' objs o impl impl' ts ts' j p' :
  region_ok q ms → effect q ms q' ms' → objs !! o = Some impl → object_step q' impl impl' →
  (∀ i p, ts !! i = Some p → pc_ok (m_block_size (hdr q)) objs i p) →
  (∀ i p, ts !! i = Some p → wait_ok q ms objs p) → notify_list (log q') ts ts' → ts' !! j = Some p' →
  wait_ok (reset_log q') ms' (<[o := impl']> objs) p'.
Proof.
  intros Hok He Ho Hobj Hpcs Hwaits Hn Hj. destruct (effect_static _ _ _ _ He) as [Hb Hc].
  assert (ev_notify_all_nonfull ∉ log q' ∨ ev_notify_all_nonempty ∉ log q' →
    ∀ impl0, objs !! o = Some impl0 → m_stop impl0 = false → m_stop impl' = false) as Hstop.
  { intros Hq impl0 H0 Hst. destruct Hobj as [->|(-> & Hin1 & Hin2)]; [by simplify_eq|]. by destruct Hq. }
  destruct p' as [| | |o1 m1 [|]| | |o1 h1 [|]| | | |]; try done.
  - destruct (notify_list_writer _ _ _ _ _ _ Hn Hj) as [H1 H2].
    apply wait_ok_insert; [eauto|]. destruct (Hwaits _ _ H1) as [W1 W2]. split; [done|]. intros Hav.
    destruct (effect_quiet_writers _ _ _ _ Hok He H2 Hav) as [Hav0 Hused]. specialize (W2 Hav0).
    unfold no_room in *. cbn. rewrite Hb, Hc. lia.
  - destruct (notify_list_reader _ _ _ _ _ _ Hn Hj) as (H1 & H2 & H3).
    { destruct (notify_list_call _ _ _ _ _ Hn Hj) as (p0 & Hp0 & E0). destruct p0; simplify_eq/=.
      destruct (Hpcs _ _ Hp0) as [_ Hr0]. cbn in Hr0. intros k o2 h2 b2 Hk.
      destruct (Hpcs _ _ Hk) as [_ Hr]. cbn in Hr. congruence. }
    apply wait_ok_insert; [eauto|]. destruct (Hwaits _ _ H1) as [W1 W2]. split; [done|]. intros Hav.
    by eapply effect_quiet_reader.
Qed.

Lemma attached_static impl q q' :
  m_block_size (hdr q') = m_block_size (hdr q) → attached impl q → attached impl q'.
Proof. intros Hb (k & Hk & Hbs & Hr). exists k. by rewrite Hb. Qed.

Lemma attached_step impl impl' q q' q'' :
  object_step q'' impl impl' → m_block_size (hdr q') = m_block_size (hdr q) → attached impl q → attached impl' q'.
Proof. intros [->|(-> & _)] Hb Hat; by apply (attached_static _ q). Qed.

Lemma inv_exec q objs ts hist c ms i p o impl p' q' impl' ts' :
  inv_with (System q objs ts hist c) ms →
  ts !! i = Some p → object_of p = Some o → objs !! o = Some impl →
  exec p impl q = (p', q', impl') → notify_list (log q') ts ts' →
  ∃ ms', inv_with (System (reset_log q') (<[o := impl']> objs) (<[i := p']> ts') (hist ++ log q') c) ms'.
Proof.
  intros [Hok Hfifo Hobjs Hpcs Hwaits Hcrash] Hi Hop Ho Hrun Hn. cbn in *.
  pose proof (proj1 (Forall_lookup _ _) Hobjs o impl Ho) as Hat.
  destruct (exec_ok q ms objs i o p impl p' q' impl' Hok Hat Ho Hop (Hpcs _ _ Hi) Hrun)
    as (ms' & He & Hobj & Hpc & Hwait & Hav).
  destruct (effect_static _ _ _ _ He) as [Hb Hc]. exists ms'. split; cbn.
  - by eapply effect_ok.
  - rewrite Hb, Hc, fifo_run_app, Hfifo. by eapply effect_fifo.
  - apply Forall_insert; [|by eapply attached_step].
    eapply Forall_impl; [exact Hobjs|]. intros x. by apply attached_static.
  - intros j pj Hj. rewrite Hb.
    destruct (decide (j = i)) as [->|Hne].
    + apply list_lookup_insert_Some in Hj as [(_ & <- & _)|[? _]]; [|done].
      by eapply pc_ok_call; [..|exact Hpc]; [|rewrite length_insert].
    + rewrite list_lookup_insert_ne in Hj by done.
      destruct (notify_list_call _ _ _ _ _ Hn Hj) as (p0 & Hp0 & E).
      eapply pc_ok_call; [exact E|by rewrite length_insert|auto].
  - intros j pj Hj. destruct (decide (j = i)) as [->|Hne].
    + apply list_lookup_insert_Some in Hj as [(_ & <- & _)|[? _]]; [|done]. done.
    + rewrite list_lookup_insert_ne in Hj by done. by eapply others_wait.
  - intros Hcr. destruct (Hcrash Hcr) as [Hm Hst]. destruct (Hav Hm) as [Hm' Hp']. split; [done|].
    intros j Hj. apply list_lookup_insert_Some in Hj as [(_ & -> & _)|[_ Hj]]; [done|].
    destruct (notify_list_call _ _ _ _ _ Hn Hj) as (p0 & Hp0 & E). destruct p0; simplify_eq/=. by eapply Hst.
Qed.

(** Steps that change only the program counter of one thread. *)
Lemma inv_pc q objs ts hist c ms i p :
  inv_with (System q objs ts hist c) ms → pc_ok (m_block_size (hdr q)) objs i p → wait_ok q ms objs p →
  p ≠ finished Stuck → inv_with (System q objs (<[i := p]> ts) hist c) ms.
Proof.
  intros [Hok Hfifo Hobjs Hpcs Hwaits Hcrash] Hpc Hw Hp. split; cbn in *; try done.
  - intros j pj Hj. apply list_lookup_insert_Some in Hj as [(-> & -> & _)|[_ Hj]]; auto.
  - intros j pj Hj. apply list_lookup_insert_Some in Hj as [(-> & -> & _)|[_ Hj]]; eauto.
  - intros Hc. destruct (Hcrash Hc) as [H1 H2]. split; [done|].
    intros j Hj. apply list_lookup_insert_Some in Hj as [(-> & -> & _)|[_ Hj]]; [done|by eapply H2].
Qed.

Lemma inv_step σ σ' ms : inv_with σ ms → step σ σ' → ∃ ms', inv_with σ' ms'.
Proof.
  intros Hinv Hstep.
  destruct Hstep as [q objs ts hist c i p Hi [(o & Hop & Hlt) Hcall]| |q objs ts hist c o impl Ho
    |q objs ts hist c i r Hi|q objs ts hist c i p Hi
    |q objs ts hist c i p o size put get mem Hi Hop Hl Hmem].
  - exists ms. cbn in *. apply inv_pc; try done.
    + split; [|by destruct p]. intros o' Ho'. by simplify_eq.
    + by destruct p.
    + by intros ->.
  - by eapply inv_exec.
  - exists ms. destruct Hinv as [Hok Hfifo Hobjs Hpcs Hwaits Hcrash]. split; cbn in *; try done.
    + apply Forall_insert; [done|]. by apply (proj1 (Forall_lookup _ _) Hobjs o impl).
    + intros j p Hj. eapply pc_ok_call; [done|by rewrite length_insert|auto].
    + intros j p Hj. apply wait_ok_insert; eauto.
  - exists ms. by apply inv_pc.
  - exists ms. by apply inv_pc.
  - exists ms. destruct (inv_pc q objs ts hist c ms i dead Hinv) as [Hok Hfifo Hobjs Hpcs Hwaits _]; try done.
    cbn in *. split; cbn; try done.
    + destruct Hok as [[L1 L2 L3 L4] Hlog _ _]. split; [|done|left; by right|done].
      split; cbn; try done. by rewrite Hmem.
    + intros j pj Hj. specialize (Hwaits j pj Hj).
      destruct pj as [| | |o1 m1 [|]| | |o1 h1 [|]| | | |]; try done; by destruct Hwaits.
Qed.

Lemma inv_reachable σ : reachable σ → ∃ ms, inv_with σ ms.
Proof.
  intros (σ0 & (HR & Hav & Hlog & Hobjs & Hts & Hh & Hc) & Hsteps).
  assert (∃ ms, inv_with σ0 ms) as Hinv0.
  { exists []. pose proof (proj1 (Forall_lookup _ _) Hts) as Hidle. split; try done.
    - split; [by eapply rep_layout|done|by left; left|done].
    - by rewrite Hh.
    - intros i p Hp. by rewrite (Hidle i p Hp).
    - intros i p Hp. by rewrite (Hidle i p Hp).
    - intros _. split; [done|]. intros i Hi. by discriminate (Hidle i _ Hi). }
  clear -Hsteps Hinv0 handler_safe. induction Hsteps as [|σ1 σ2 σ3 Hs _ IH]; [done|].
  apply IH. destruct Hinv0 as [ms Hms]. by eapply inv_step.
Qed.

(** * Theorems *)

(** C10: the queue is a FIFO: in every reachable state, whatever the interleaving of
    the threads and wherever threads die, the history of sent, received and
    discarded messages is one of the abstract queue, messages are received once
    and in the order in which they were sent, and the region holds exactly the
    messages that were sent and not received. As long as no thread dies in a
    critical section, no operation has undefined behaviour and the mutex is
    consistent. *)
Theorem system_fifo σ :
  reachable σ →
  ∃ ms, fifo_run (m_capacity (hdr (queue σ))) (m_block_size (hdr (queue σ))) [] (history σ) = Some ms ∧
    (m_mutex (hdr (queue σ)) = available → queue_rep (queue σ) ms) ∧
    (crashed σ = false →
      m_mutex (hdr (queue σ)) = available ∧ ∀ i, threads σ !! i ≠ Some (finished Stuck)).
Proof.
  intros Hr. destruct (inv_reachable σ Hr) as [ms [Hok Hfifo _ _ _ Hcrash]].
  exists ms. split_and!; [done|apply Hok|done].
Qed.

(** C11: no wake-up is lost: while the mutex is consistent, a thread that waits
    without having been notified has a reason to wait. Its object is not
    stopped, and the queue has too few free blocks for its message, or no message
    to receive. *)
Theorem no_lost_wakeup σ i p o :
  reachable σ → m_mutex (hdr (queue σ)) = available → threads σ !! i = Some p → object_of p = Some o →
  let h := hdr (queue σ) in
  match p with
  | send_waiting _ m false =>
      (∃ impl, objects σ !! o = Some impl ∧ m_stop impl = false) ∧
      m_capacity h - m_size h < blocks_of (m_block_size h) m
  | receive_waiting _ _ false =>
      (∃ impl, objects σ !! o = Some impl ∧ m_stop impl = false) ∧ m_size h = 0
  | _ => True
  end.
Proof.
  intros Hr Hav Hi Ho. destruct (inv_reachable σ Hr) as [ms [Hok _ _ _ Hwaits _]].
  pose proof (ok_rep _ _ Hok Hav) as HR. specialize (Hwaits i p Hi).
  destruct p as [| | |o1 m1 [|]| | |o1 h1 [|]| | | |]; try done; cbn in Ho; simplify_eq;
    destruct Hwaits as [H1 H2]; specialize (H2 Hav); (split; [done|]); rewrite (rep_size _ _ HR).
  - unfold no_room in H2. lia.
  - by rewrite H2.
Qed.

(** A lost mutex stays lost. *)
Lemma exec_lost p impl q p' q' impl' :
  m_mutex (hdr q) = not_recoverable → exec p impl q = (p', q', impl') → q' = q.
Proof.
  intros Hq Hrun. destruct p as [|o' m|o' m|o' m n|o' h|o' h|o' h n|o'|o'|r|]; cbn in Hrun; try by simplify_eq.
  - unfold send in Hrun. rewrite sm_bind_run, (on_queue_run sm_get q () _ _ eq_refl) in Hrun.
    repeat case_match; rewrite ?lock_queue_not_recoverable in * by done; unfold sm_throw, mret, sm_ret in *; by simplify_eq.
  - unfold try_send in Hrun. rewrite sm_bind_run, (on_queue_run sm_get q () _ _ eq_refl) in Hrun.
    repeat case_match; rewrite ?lock_queue_not_recoverable in * by done; unfold sm_throw, mret, sm_ret in *; by simplify_eq.
  - unfold send_resumed in Hrun. rewrite resumed_lost in Hrun by done. by simplify_eq.
  - unfold receive in Hrun.
    destruct (m_stop impl); rewrite ?lock_queue_not_recoverable in Hrun by done; by simplify_eq/=.
  - unfold try_receive in Hrun.
    destruct (m_stop impl); rewrite ?lock_queue_not_recoverable in Hrun by done; by simplify_eq/=.
  - unfold receive_resumed in Hrun. rewrite resumed_lost in Hrun by done. by simplify_eq.
  - unfold stop_local in Hrun.
    destruct (m_stop impl); rewrite ?lock_queue_not_recoverable in Hrun by done; by simplify_eq/=.
  - unfold clear in Hrun. rewrite lock_queue_not_recoverable in Hrun by done. by simplify_eq.
Qed.

Lemma lost_forever σ σ' :
  m_mutex (hdr (queue σ)) = not_recoverable → rtc step σ σ' → m_mutex (hdr (queue σ')) = not_recoverable.
Proof.
  intros Hq Hs. induction Hs as [|σ1 σ2 σ3 Hstep _ IH]; [done|]. apply IH. clear IH.
  destruct Hstep as [| q objs ts hist c i p o impl p' q' impl' ts' Hi Hop Ho Hrun _| | | |
    q objs ts hist c i p o size put get mem Hi Hop [Hl|Hl] Hmem]; cbn in *; try done; try congruence.
  by rewrite (exec_lost _ _ _ _ _ _ Hq Hrun).
Qed.

End system.

(** * A concrete system *)

Module sample.
Import IpcQueue.sample.

(** A queue of one block, a reader and three writers. *)
Definition state0 : system (H := list Z) :=
  System (Region (new_header 7 1 (2 ^ 6)) (replicate 64 0) []) [object0] (replicate 4 idle) [] false.

Abbreviation sample_step := (step container_receive_handler 0).
Abbreviation sample_reachable := (reachable container_receive_handler 0).

Lemma state0_initial : initial state0.
Proof.
  unfold initial. split_and!; try done; [by apply new_region_rep| |].
  - apply Forall_singleton. by exists 6.
  - by repeat constructor.
Qed.

Ltac call i p := eapply rtc_l; [apply (step_call _ _ _ _ _ _ _ i p); [reflexivity|]|].
Ltac run i :=
  eapply rtc_l;
  [eapply (step_exec _ _ _ _ _ _ _ i); [reflexivity|reflexivity|reflexivity|vm_compute; reflexivity|]|].

(** The first writer fills the queue, the other two wait for room. *)
Definition state1 : system (H := list Z) :=
  System (reset_log (enqueued message1 (queue state0))) [object0]
    [idle; finished (Ok (Some succeeded)); send_waiting 0 message1 false; send_waiting 0 message1 false]
    [ev_sent message1; ev_notify_one_nonempty] false.

Lemma state1_reached : rtc sample_step state0 state1.
Proof.
  assert (∀ (σ : system (H := list Z)) i, i = 1%nat ∨ i = 2%nat ∨ i = 3%nat → queue σ = queue state0 ∨ queue σ = queue state1 →
    objects σ = [object0] → callable 0 σ i (sending 0 message1)) as Hcall.
  { intros σ i _ Hq Hobjs. split; [exists 0%nat; rewrite Hobjs; split; [done|cbn; lia]|].
    by destruct Hq as [-> | ->]. }
  call 1%nat (sending (H := list Z) 0 message1). { apply Hcall; auto. }
  run 1%nat.
  { cbn. eapply notify_cons; [by apply notify_history|]. eapply notify_cons; [|apply notify_nil].
    apply notify_one_none. intros [|[|[|[|?]]]]; done. }
  call 2%nat (sending (H := list Z) 0 message1). { apply Hcall; auto. }
  run 2%nat. { apply notify_nil. }
  call 3%nat (sending (H := list Z) 0 message1). { apply Hcall; auto. }
  run 3%nat. { apply notify_nil. }
  apply rtc_refl.
Qed.

Lemma state1_reachable : sample_reachable state1.
Proof. exists state0. split; [apply state0_initial|apply state1_reached]. Qed.

Lemma system_fifo_witness :
  ∃ ms, fifo_run 1 64 [] (history state1) = Some ms ∧ queue_rep (queue state1) ms.
Proof.
  destruct (system_fifo container_receive_handler 0 container_safe state1 state1_reachable)
    as (ms & H1 & H2 & _).
  exists ms. split; [exact H1|]. by apply H2.
Defined.

Lemma no_lost_wakeup_witness :
  (∃ impl, objects state1 !! 0%nat = Some impl ∧ m_stop impl = false) ∧
  m_capacity (hdr (queue state1)) - m_size (hdr (queue state1)) <
    blocks_of (m_block_size (hdr (queue state1))) message1.
Proof.
  exact (no_lost_wakeup container_receive_handler 0 container_safe state1 2 (send_waiting 0 message1 false) 0
    state1_reachable eq_refl eq_refl eq_refl).
Defined.

(** A thread that dies in a critical section while others wait makes the queue
    unusable. The reader dies after it has removed a message and notified the
    writers. The first writer that wakes up owns the mutex, but the wait reports
    the death of its owner as an error: the exception unlocks the mutex, which
    becomes unrecoverable although [lock_queue] would have repaired it. The second
    writer fails to lock the mutex and then unlocks a mutex it does not own,
    which is a failed assertion. From then on no operation can lock the mutex. *)
Theorem crash_loses_mutex :
  (∃ σ, sample_reachable σ ∧ m_mutex (hdr (queue σ)) = not_recoverable ∧
    threads σ = [dead; finished (Ok (Some succeeded)); finished (Throw ex_system_error); finished Stuck]) ∧
  (∀ σ σ', m_mutex (hdr (queue σ)) = not_recoverable → rtc sample_step σ σ' →
    m_mutex (hdr (queue σ')) = not_recoverable).
Proof.
  split; [|apply lost_forever].
  assert (∃ σ, rtc sample_step state1 σ ∧ m_mutex (hdr (queue σ)) = not_recoverable ∧
    threads σ = [dead; finished (Ok (Some succeeded)); finished (Throw ex_system_error); finished Stuck])
    as (σ & Hs & Hm & Ht).
  { eexists. split_and!.
    - call 0%nat (receiving (H := list Z) 0 []). { by split; [exists 0%nat|]; [split; [|cbn; lia]|]. }
      eapply rtc_l.
      { apply (step_crash _ _ _ _ _ _ _ 0 (receiving 0 []) 0 0 0 0 (blocks (queue state1)));
          [done|done|by left|done]. }
      run 2%nat. { apply notify_nil. }
      run 3%nat. { apply notify_nil. }
      apply rtc_refl.
    - done.
    - done. }
  exists σ. split_and!; [|done|done]. exists state0. split; [apply state0_initial|].
  by transitivity state1; [apply state1_reached|].
Qed.

End sample.
