(* ===== verification/DateTimeFormat.v ===== *)
(** Formatting of dates and times: the parser of format strings
    (src/src/date_time_format_parser.cpp), the callback interface
    (src/include/boost/log/detail/date_time_format_parser.hpp), the formatter it
    builds and the decomposed time it prints
    (src/include/boost/log/detail/decomposed_time.hpp).

    The parser is the composition of the flags of dates, of times and of the
    common ones, as the templates compose them; it reports what it finds by
    callbacks, for which the builder adds functions and literals to a formatter.
    The names of months and days come from the locale, which is a parameter. *)

From Stdlib Require Import ZArith Ascii String.
From stdpp Require Import base numbers strings list.
From S2P Require Import Prelude Decimal Rotation.
Local Open Scope Z_scope.

(** * The callback interface *)

Inductive callback : Type :=
| on_literal (lit : str)
| on_placeholder (ph : str)
| on_short_year
| on_full_year
| on_numeric_month
| on_short_month
| on_full_month
| on_month_day (leading_zero : bool)
| on_numeric_week_day
| on_short_week_day
| on_full_week_day
| on_iso_date
| on_extended_iso_date
| on_hours (leading_zero : bool)
| on_hours_12 (leading_zero : bool)
| on_minutes
| on_seconds
| on_fractional_seconds
| on_am_pm (upper_case : bool)
| on_duration_sign (display_positive : bool)
| on_iso_time_zone
| on_extended_iso_time_zone
| on_iso_time
| on_extended_iso_time
| on_default_time.

(** * The parser *)

(** The member [m_literal] of the flags and the calls made so far. *)
Record parser_state := Parser { m_literal : str; calls : list callback }.

Definition add_literal (s : str) : sm parser_state unit :=
  sm_modify (λ p, Parser (m_literal p ++ s) (calls p)).

Definition call (c : callback) : sm parser_state unit :=
  sm_modify (λ p, Parser (m_literal p) (calls p ++ [c])).

(** [common_flags::flush]. *)
Definition flush : sm parser_state unit :=
  p ← sm_get;
  match m_literal p with
  | [] => mret ()
  | lit => call (on_literal lit);; sm_modify (λ p, Parser [] (calls p))
  end.

(** The parse functions get the rest of the format from a percent character
    on, which has at least two characters, and return the rest to be parsed. *)
Definition flag_parser : Type := str → sm parser_state str.

(** [begin[1]]. *)
Definition second (s : str) : outcome ascii := of_ptr (s !! 1%nat).

(** [len >= n && std::memcmp(begin, literal, n) == 0]. *)
Definition begins_with (lit s : str) : bool :=
  (Nat.leb (length lit) (length s)) && bool_decide (take (length lit) s = lit).

Definition iso_date_format : str := str_lit "%Y%m%d".
Definition extended_iso_date_format : str := str_lit "%Y-%m-%d".
Definition iso_time_format : str := str_lit "%H%M%S".
Definition extended_iso_time_format : str := str_lit "%H:%M:%S".
Definition default_time_format : str := str_lit "%H:%M:%S.%f".

(** [flush] and a callback; [begin + 2]. *)
Definition report (c : callback) (s : str) : sm parser_state str := flush;; call c;; mret (drop 2 s).

Definition common_flags : flag_parser := λ s,
  c ← sm_lift (second s);
  if Ascii.eqb c "%" then add_literal (str_lit "%");; mret (drop 2 s)
  else report (on_placeholder (take 2 s)) s.

Definition date_flags (base : flag_parser) : flag_parser := λ s,
  c ← sm_lift (second s);
  if Ascii.eqb c "Y" then
    flush;;
    if begins_with extended_iso_date_format s then call on_extended_iso_date;; mret (drop 8 s)
    else if begins_with iso_date_format s then call on_iso_date;; mret (drop 6 s)
    else call on_full_year;; mret (drop 2 s)
  else if Ascii.eqb c "y" then report on_short_year s
  else if Ascii.eqb c "m" then report on_numeric_month s
  else if Ascii.eqb c "B" then report on_full_month s
  else if Ascii.eqb c "b" then report on_short_month s
  else if Ascii.eqb c "d" then report (on_month_day true) s
  else if Ascii.eqb c "e" then report (on_month_day false) s
  else if Ascii.eqb c "w" then report on_numeric_week_day s
  else if Ascii.eqb c "A" then report on_full_week_day s
  else if Ascii.eqb c "a" then report on_short_week_day s
  else base s.

Definition time_flags (base : flag_parser) : flag_parser := λ s,
  c ← sm_lift (second s);
  if Ascii.eqb c "O" || Ascii.eqb c "H" then
    flush;;
    if begins_with default_time_format s then call on_default_time;; mret (drop 11 s)
    else if begins_with extended_iso_time_format s then call on_extended_iso_time;; mret (drop 8 s)
    else if begins_with iso_time_format s then call on_iso_time;; mret (drop 6 s)
    else call (on_hours true);; mret (drop 2 s)
  else if Ascii.eqb c "T" then report on_extended_iso_time s
  else if Ascii.eqb c "k" then report (on_hours false) s
  else if Ascii.eqb c "I" then report (on_hours_12 true) s
  else if Ascii.eqb c "l" then report (on_hours_12 false) s
  else if Ascii.eqb c "M" then report on_minutes s
  else if Ascii.eqb c "S" then report on_seconds s
  else if Ascii.eqb c "f" then report on_fractional_seconds s
  else if Ascii.eqb c "P" then report (on_am_pm false) s
  else if Ascii.eqb c "p" then report (on_am_pm true) s
  else if Ascii.eqb c "Q" then report on_extended_iso_time_zone s
  else if Ascii.eqb c "q" then report on_iso_time_zone s
  else if Ascii.eqb c "-" then report (on_duration_sign false) s
  else if Ascii.eqb c "+" then report (on_duration_sign true) s
  else base s.

(** The loop of [parse_format]; every iteration consumes a character. *)
Fixpoint parse_format_loop (fuel : nat) (parser : flag_parser) (s : str) : sm parser_state unit :=
  match s with
  | [] => flush
  | _ =>
      match fuel with
      | O => sm_lift Stuck
      | S fuel =>
          let p := find_pos (λ c, Ascii.eqb c "%") s in
          add_literal (take p s);;
          let rest := drop p s in
          if Nat.leb 2 (length rest) then s' ← parser rest; parse_format_loop fuel parser s'
          else
            (match rest with [] => mret () | _ => add_literal rest end);;
            parse_format_loop fuel parser []
      end
  end.

Definition parse_format (parser : flag_parser) (s : str) : outcome (list callback) :=
  match parse_format_loop (length s) parser s (Parser [] []) with
  | (Ok _, p) => Ok (calls p)
  | (Throw e, _) => Throw e
  | (Stuck, _) => Stuck
  end.

Definition parse_date_format : str → outcome (list callback) := parse_format (date_flags common_flags).
Definition parse_time_format : str → outcome (list callback) := parse_format (time_flags common_flags).
Definition parse_date_time_format : str → outcome (list callback) :=
  parse_format (date_flags (time_flags common_flags)).

(** * Decomposed time *)

Record decomposed_time := DecomposedTime {
  year : Z;
  month : Z;
  day : Z;
  hours : Z;
  minutes : Z;
  seconds : Z;
  subseconds : Z;
  negative : bool }.

Definition week_day (t : decomposed_time) : Z :=
  let a := u32 (14 - month t) / 12 in
  let y := u32 (year t - a) in
  let m := u32 (u32 (month t + u32 (12 * a)) - 2) in
  u32 (u32 (u32 (u32 (u32 (day t + y) + y / 4) - y / 100) + y / 400) + u32 (31 * m) / 12) mod 7.

Definition first_day_offset : list Z := [0; 31; 59; 90; 120; 151; 181; 212; 243; 273; 304; 334].

Definition year_day (t : decomposed_time) : outcome Z :=
  let is_leap_year := (year t mod 4 =? 0) && (negb (year t mod 100 =? 0) || (year t mod 400 =? 0)) in
  let* offset := of_ptr (first_day_offset !! Z.to_nat (u32 (month t - 1))) in
  Ok (u32 (offset + day t + (if (2 <? month t) && is_leap_year then 1 else 0))).

(** The members of [std::tm] that [to_tm] sets. *)
Record tm := Tm { tm_year : Z; tm_mon : Z; tm_mday : Z; tm_hour : Z; tm_min : Z; tm_sec : Z; tm_wday : Z; tm_yday : Z }.

Definition to_tm (t : decomposed_time) : outcome tm :=
  let* yday := year_day t in
  Ok (Tm (year t - 1900) (month t - 1) (day t) (hours t) (minutes t) (seconds t) (week_day t) yday).

(** [put_integer]: the numeral is generated in a buffer of 11 characters. *)
Definition put_integer (value width : Z) (fill : ascii) : outcome str :=
  let buf := dec value in
  if Nat.leb (length buf) 11 then Ok (pad_left fill (Z.to_nat width) buf) else Stuck.

(** * The formatter *)

(** The functions of [date_time_formatter]. *)
Inductive formatter_function : Type :=
| format_literal
| format_through_locale (format : ascii)
| format_full_year
| format_short_year
| format_numeric_month
| format_month_day (fill : ascii)
| format_week_day
| format_hours (fill : ascii)
| format_hours_12 (fill : ascii)
| format_minutes
| format_seconds
| format_fractional_seconds
| format_am_pm (upper_case : bool)
| format_sign (display_positive : bool).

#[export] Instance formatter_function_eq_dec : EqDecision formatter_function.
Proof. solve_decision. Defined.

Record date_time_formatter := Formatter {
  m_formatters : list formatter_function;
  m_literal_lens : list Z;
  m_literal_chars : str }.

Definition empty_formatter : date_time_formatter := Formatter [] [] [].

Definition add_formatter (f : formatter_function) (fm : date_time_formatter) : date_time_formatter :=
  Formatter (m_formatters fm ++ [f]) (m_literal_lens fm) (m_literal_chars fm).

Definition formatter_add_literal (lit : str) (fm : date_time_formatter) : date_time_formatter :=
  Formatter (m_formatters fm ++ [format_literal]) (m_literal_lens fm ++ [u32 (Z.of_nat (length lit))])
    (m_literal_chars fm ++ lit).

(** [decomposed_time_formatter_builder], with the inherited default functions
    of the callback interface. *)
Definition builder_step (fm : date_time_formatter) (c : callback) : date_time_formatter :=
  match c with
  | on_literal s | on_placeholder s => formatter_add_literal s fm
  | on_short_year => add_formatter format_short_year fm
  | on_full_year => add_formatter format_full_year fm
  | on_numeric_month => add_formatter format_numeric_month fm
  | on_short_month => add_formatter (format_through_locale "b") fm
  | on_full_month => add_formatter (format_through_locale "B") fm
  | on_month_day z => add_formatter (format_month_day (if z then "0" else " ")) fm
  | on_numeric_week_day => add_formatter format_week_day fm
  | on_short_week_day => add_formatter (format_through_locale "a") fm
  | on_full_week_day => add_formatter (format_through_locale "A") fm
  | on_hours z => add_formatter (format_hours (if z then "0" else " ")) fm
  | on_hours_12 z => add_formatter (format_hours_12 (if z then "0" else " ")) fm
  | on_minutes => add_formatter format_minutes fm
  | on_seconds => add_formatter format_seconds fm
  | on_fractional_seconds => add_formatter format_fractional_seconds fm
  | on_am_pm u => add_formatter (format_am_pm u) fm
  | on_duration_sign p => add_formatter (format_sign p) fm
  | on_iso_time_zone | on_extended_iso_time_zone => fm
  | on_iso_date =>
      add_formatter (format_month_day "0") (add_formatter format_numeric_month (add_formatter format_full_year fm))
  | on_extended_iso_date =>
      let fm := add_formatter format_full_year fm in
      let fm := formatter_add_literal (str_lit "-") fm in
      let fm := add_formatter format_numeric_month fm in
      let fm := formatter_add_literal (str_lit "-") fm in
      add_formatter (format_month_day "0") fm
  | on_iso_time =>
      add_formatter format_seconds (add_formatter format_minutes (add_formatter (format_hours "0") fm))
  | on_extended_iso_time =>
      let fm := add_formatter (format_hours "0") fm in
      let fm := formatter_add_literal (str_lit ":") fm in
      let fm := add_formatter format_minutes fm in
      let fm := formatter_add_literal (str_lit ":") fm in
      add_formatter format_seconds fm
  | on_default_time =>
      let fm := add_formatter (format_hours "0") fm in
      let fm := formatter_add_literal (str_lit ":") fm in
      let fm := add_formatter format_minutes fm in
      let fm := formatter_add_literal (str_lit ":") fm in
      let fm := add_formatter format_seconds fm in
      let fm := formatter_add_literal (str_lit ".") fm in
      add_formatter format_fractional_seconds fm
  end.

Definition build (cs : list callback) : date_time_formatter := fold_left builder_step cs empty_formatter.

Section formatting.
(** The facet [std::time_put] of the locale of the stream. *)
Context (time_put : tm → ascii → str).

(** [context] without its references, and the characters that were written. *)
Record context := Context { literal_index : nat; literal_pos : Z; out : str }.

(** What a function other than [format_literal] writes. *)
Definition format_value (f : formatter_function) (t : decomposed_time) : outcome str :=
  match f with
  | format_literal => Ok []
  | format_through_locale c => let* tm := to_tm t in Ok (time_put tm c)
  | format_full_year => put_integer (year t) 4 "0"
  | format_short_year => put_integer (year t mod 100) 2 "0"
  | format_numeric_month => put_integer (month t) 2 "0"
  | format_month_day fill => put_integer (day t) 2 fill
  | format_week_day => put_integer (week_day t) 1 "0"
  | format_hours fill => put_integer (hours t) 2 fill
  | format_hours_12 fill => put_integer (u32 (hours t mod 12 + 1)) 2 fill
  | format_minutes => put_integer (minutes t) 2 "0"
  | format_seconds => put_integer (seconds t) 2 "0"
  | format_fractional_seconds => put_integer (subseconds t) 6 "0"
  | format_am_pm upper =>
      Ok (if 11 <? hours t then str_lit (if upper then "PM" else "pm") else str_lit (if upper then "AM" else "am"))
  | format_sign display_positive =>
      Ok (if negative t then str_lit "-" else if display_positive : bool then str_lit "+" else [])
  end.

(** One call of a function with the context. *)
Definition apply_function (fm : date_time_formatter) (t : decomposed_time) (ctx : context)
    (f : formatter_function) : outcome context :=
  match f with
  | format_literal =>
      let* len := of_ptr (m_literal_lens fm !! literal_index ctx) in
      let pos := literal_pos ctx in
      if pos + len <=? Z.of_nat (length (m_literal_chars fm))
      then Ok (Context (S (literal_index ctx)) (u32 (pos + len))
             (out ctx ++ take (Z.to_nat len) (drop (Z.to_nat pos) (m_literal_chars fm))))
      else Stuck
  | _ => let* s := format_value f t in Ok (Context (literal_index ctx) (literal_pos ctx) (out ctx ++ s))
  end.

Fixpoint apply_functions (fm : date_time_formatter) (t : decomposed_time) (fs : list formatter_function)
    (ctx : context) : outcome context :=
  match fs with
  | [] => Ok ctx
  | f :: fs => let* ctx := apply_function fm t ctx f in apply_functions fm t fs ctx
  end.

(** [date_time_formatter::operator()] on a stream that is good; the functions
    write to its buffer. *)
Definition format_time (fm : date_time_formatter) (t : decomposed_time) : outcome str :=
  let* ctx := apply_functions fm t (m_formatters fm) (Context 0 0 []) in Ok (out ctx).

(** The formatters of dates, times and durations, from the format string on. *)
Definition print_time (parse : str → outcome (list callback)) (format : str) (t : decomposed_time) : outcome str :=
  let* cs := parse format in format_time (build cs) t.

(** * The meaning of format strings *)

(** The placeholders of dates and of times. *)
Definition date_placeholder (c : ascii) : option formatter_function :=
  if Ascii.eqb c "Y" then Some format_full_year
  else if Ascii.eqb c "y" then Some format_short_year
  else if Ascii.eqb c "m" then Some format_numeric_month
  else if Ascii.eqb c "B" then Some (format_through_locale "B")
  else if Ascii.eqb c "b" then Some (format_through_locale "b")
  else if Ascii.eqb c "d" then Some (format_month_day "0")
  else if Ascii.eqb c "e" then Some (format_month_day " ")
  else if Ascii.eqb c "w" then Some format_week_day
  else if Ascii.eqb c "A" then Some (format_through_locale "A")
  else if Ascii.eqb c "a" then Some (format_through_locale "a")
  else None.

(** [%T] stands for a format, and the time zones of times without one for
    nothing. *)
Definition time_placeholder (c : ascii) : option (formatter_function + bool) :=
  if Ascii.eqb c "O" || Ascii.eqb c "H" then Some (inl (format_hours "0"))
  else if Ascii.eqb c "T" then Some (inr true)
  else if Ascii.eqb c "k" then Some (inl (format_hours " "))
  else if Ascii.eqb c "I" then Some (inl (format_hours_12 "0"))
  else if Ascii.eqb c "l" then Some (inl (format_hours_12 " "))
  else if Ascii.eqb c "M" then Some (inl format_minutes)
  else if Ascii.eqb c "S" then Some (inl format_seconds)
  else if Ascii.eqb c "f" then Some (inl format_fractional_seconds)
  else if Ascii.eqb c "P" then Some (inl (format_am_pm false))
  else if Ascii.eqb c "p" then Some (inl (format_am_pm true))
  else if Ascii.eqb c "Q" || Ascii.eqb c "q" then Some (inr false)
  else if Ascii.eqb c "-" then Some (inl (format_sign false))
  else if Ascii.eqb c "+" then Some (inl (format_sign true))
  else None.

(** The text of a function. *)
Definition text (t : decomposed_time) (f : formatter_function) : str :=
  match format_value f t with Ok s => s | _ => [] end.

Definition date_meaning (t : decomposed_time) (base : ascii → str) (c : ascii) : str :=
  match date_placeholder c with Some f => text t f | None => base c end.

Definition time_meaning (t : decomposed_time) (base : ascii → str) (c : ascii) : str :=
  match time_placeholder c with
  | Some (inl f) => text t f
  | Some (inr true) =>
      text t (format_hours "0") ++ str_lit ":" ++ text t format_minutes ++ str_lit ":" ++ text t format_seconds
  | Some (inr false) => []
  | None => base c
  end.

Definition common_meaning (c : ascii) : str := if Ascii.eqb c "%" then str_lit "%" else ["%"%char; c].

(** Placeholders are replaced one by one, other characters are copied. *)
Fixpoint expand (meaning : ascii → str) (s : str) : str :=
  match s with
  | [] => []
  | c :: s' =>
      if Ascii.eqb c "%" then
        match s' with
        | [] => [c]
        | d :: s'' => meaning d ++ expand meaning s''
        end
      else c :: expand meaning s'
  end.

(** * Correctness of the formatter *)

(** The members are 32-bit numbers and the month is one. *)
Definition valid_time (t : decomposed_time) : Prop :=
  1 ≤ month t ≤ 12 ∧
  Forall (λ x, 0 ≤ x < 2 ^ 32) [year t; day t; hours t; minutes t; seconds t; subseconds t].

Lemma put_integer_ok v width fill :
  0 ≤ v < 2 ^ 32 → put_integer v width fill = Ok (pad_left fill (Z.to_nat width) (dec v)).
Proof.
  intros Hv. unfold put_integer. pose proof (dec_length 10 v ltac:(cbn; lia) ltac:(lia)).
  by rewrite (proj2 (Nat.leb_le _ _)) by lia.
Qed.

Lemma week_day_range t : 0 ≤ week_day t < 7.
Proof. apply Z.mod_pos_bound. lia. Qed.

Lemma to_tm_ok t : 1 ≤ month t ≤ 12 → ∃ r, to_tm t = Ok r.
Proof.
  intros Hm. unfold to_tm, year_day.
  assert (∃ o, first_day_offset !! Z.to_nat (u32 (month t - 1)) = Some o) as [o ->]; [|by eexists].
  rewrite u32_id by lia. apply lookup_lt_is_Some. cbn. lia.
Qed.

Lemma format_value_ok f t : valid_time t → format_value f t = Ok (text t f).
Proof.
  intros [Hm Hall]. unfold text.
  repeat (apply Forall_cons in Hall as [? Hall]).
  destruct f; cbn [format_value]; try done; try (by rewrite put_integer_ok by lia).
  - by destruct (to_tm_ok t Hm) as [r ->].
  - rewrite put_integer_ok; [done|]. pose proof (Z.mod_pos_bound (year t) 100 ltac:(lia)). lia.
  - rewrite put_integer_ok; [done|]. pose proof (week_day_range t). lia.
  - rewrite put_integer_ok; [done|]. apply u32_range.
Qed.

(** The text of a callback, and the characters it adds to the literals. *)
Definition callback_text (t : decomposed_time) (c : callback) : str :=
  match c with
  | on_literal s | on_placeholder s => s
  | on_short_year => text t format_short_year
  | on_full_year => text t format_full_year
  | on_numeric_month => text t format_numeric_month
  | on_short_month => text t (format_through_locale "b")
  | on_full_month => text t (format_through_locale "B")
  | on_month_day z => text t (format_month_day (if z then "0" else " "))
  | on_numeric_week_day => text t format_week_day
  | on_short_week_day => text t (format_through_locale "a")
  | on_full_week_day => text t (format_through_locale "A")
  | on_hours z => text t (format_hours (if z then "0" else " "))
  | on_hours_12 z => text t (format_hours_12 (if z then "0" else " "))
  | on_minutes => text t format_minutes
  | on_seconds => text t format_seconds
  | on_fractional_seconds => text t format_fractional_seconds
  | on_am_pm u => text t (format_am_pm u)
  | on_duration_sign p => text t (format_sign p)
  | on_iso_time_zone | on_extended_iso_time_zone => []
  | on_iso_date => text t format_full_year ++ text t format_numeric_month ++ text t (format_month_day "0")
  | on_extended_iso_date =>
      text t format_full_year ++ str_lit "-" ++ text t format_numeric_month ++ str_lit "-" ++
      text t (format_month_day "0")
  | on_iso_time => text t (format_hours "0") ++ text t format_minutes ++ text t format_seconds
  | on_extended_iso_time =>
      text t (format_hours "0") ++ str_lit ":" ++ text t format_minutes ++ str_lit ":" ++ text t format_seconds
  | on_default_time =>
      text t (format_hours "0") ++ str_lit ":" ++ text t format_minutes ++ str_lit ":" ++
      text t format_seconds ++ str_lit "." ++ text t format_fractional_seconds
  end.

Definition callback_literals (c : callback) : nat :=
  match c with
  | on_literal s | on_placeholder s => length s
  | on_extended_iso_date | on_extended_iso_time => 2
  | on_default_time => 3
  | _ => 0
  end.

Definition literals (cs : list callback) : nat := sum_list_with callback_literals cs.

(** The formatter prints [o] and uses up its literals. *)
Record prints (fm : date_time_formatter) (t : decomposed_time) (o : str) : Prop := {
  prints_lens : Forall (λ n, 0 ≤ n) (m_literal_lens fm);
  prints_run : apply_functions fm t (m_formatters fm) (Context 0 0 []) =
    Ok (Context (length (m_literal_lens fm)) (Z.of_nat (length (m_literal_chars fm))) o) }.

Lemma apply_functions_app fm t fs fs' ctx :
  apply_functions fm t (fs ++ fs') ctx = let* ctx := apply_functions fm t fs ctx in apply_functions fm t fs' ctx.
Proof.
  revert ctx. induction fs as [|f fs IH]; intros ctx; [done|]. cbn.
  destruct (apply_function fm t ctx f); cbn; auto.
Qed.

(** Literals that are added later do not matter. *)
Lemma apply_function_extend fm fm' t f ctx ctx' l c :
  Forall (λ n, 0 ≤ n) (m_literal_lens fm) → 0 ≤ literal_pos ctx →
  m_literal_lens fm' = m_literal_lens fm ++ l → m_literal_chars fm' = m_literal_chars fm ++ c →
  apply_function fm t ctx f = Ok ctx' → apply_function fm' t ctx f = Ok ctx' ∧ 0 ≤ literal_pos ctx'.
Proof.
  intros Hpos Hctx Hl Hc Hrun.
  destruct (decide (f = format_literal)) as [->|Hf].
  - cbn in *. destruct (m_literal_lens fm !! literal_index ctx) as [n|] eqn:Hn; [|done]. cbn in Hrun.
    pose proof (proj1 (Forall_lookup _ _) Hpos _ _ Hn) as Hn0. cbn in Hn0.
    rewrite Hl, Hc, (lookup_app_l_Some _ _ _ _ Hn). cbn.
    destruct (_ <=? _) eqn:Hle in Hrun; [|done]. to_prop. simplify_eq.
    rewrite length_app, (proj2 (Z.leb_le _ _)) by lia.
    rewrite drop_app_le, take_app_le by (rewrite ?length_drop; lia). split; [done|apply u32_range].
  - destruct f; try done; cbn [apply_function] in *; destruct (format_value _ _); try done; cbn [obind] in *;
      by simplify_eq.
Qed.

Lemma apply_functions_extend fm fm' t fs ctx ctx' l c :
  Forall (λ n, 0 ≤ n) (m_literal_lens fm) → 0 ≤ literal_pos ctx →
  m_literal_lens fm' = m_literal_lens fm ++ l → m_literal_chars fm' = m_literal_chars fm ++ c →
  apply_functions fm t fs ctx = Ok ctx' → apply_functions fm' t fs ctx = Ok ctx'.
Proof.
  intros Hpos Hctx Hl Hc. revert ctx Hctx. induction fs as [|f fs IH]; intros ctx Hctx Hrun; [done|]. cbn in *.
  destruct (apply_function fm t ctx f) as [ctx1| |] eqn:E; try done. cbn in Hrun.
  destruct (apply_function_extend fm fm' t f ctx ctx1 l c Hpos Hctx Hl Hc E) as [-> H1]. cbn. by apply IH.
Qed.

Lemma add_formatter_prints fm t o f :
  f ≠ format_literal → valid_time t → prints fm t o → prints (add_formatter f fm) t (o ++ text t f).
Proof.
  intros Hf Ht [Hl Hrun]. split; [done|]. cbn. rewrite apply_functions_app.
  rewrite (apply_functions_extend fm (add_formatter f fm) t _ (Context 0 0 []) _ [] [] Hl (Z.le_refl 0)
    (eq_sym (app_nil_r _)) (eq_sym (app_nil_r _)) Hrun). cbn [obind].
  pose proof (format_value_ok f t Ht) as Hv. destruct f; try done; cbn [apply_functions apply_function] in *; by rewrite Hv.
Qed.

Lemma add_literal_prints fm t o lit :
  Z.of_nat (length (m_literal_chars fm) + length lit) < 2 ^ 32 → prints fm t o →
  prints (formatter_add_literal lit fm) t (o ++ lit).
Proof.
  intros Hlen [Hl Hrun]. split.
  - apply Forall_app_2; [done|]. apply Forall_singleton. apply u32_range.
  - cbn [formatter_add_literal m_formatters]. rewrite apply_functions_app.
    rewrite (apply_functions_extend fm (formatter_add_literal lit fm) t _ (Context 0 0 []) _
      [u32 (Z.of_nat (length lit))] lit Hl (Z.le_refl 0) eq_refl eq_refl Hrun).
    cbn. rewrite lookup_app_r, Nat.sub_diag by lia. cbn. rewrite (u32_id (Z.of_nat (length lit))) by lia.
    rewrite length_app, (proj2 (Z.leb_le _ _)), u32_id by lia. cbn.
    rewrite !Nat2Z.id, drop_app_length, take_ge by lia.
    do 2 f_equal; [rewrite length_app; cbn; lia|lia].
Qed.

Lemma builder_step_prints fm t o c :
  valid_time t → Z.of_nat (length (m_literal_chars fm) + callback_literals c) < 2 ^ 32 → prints fm t o →
  prints (builder_step fm c) t (o ++ callback_text t c) ∧
  length (m_literal_chars (builder_step fm c)) = (length (m_literal_chars fm) + callback_literals c)%nat.
Proof.
  intros Ht Hlen Hp.
  destruct c; cbn [builder_step callback_text callback_literals] in *; rewrite ?app_nil_r, ?app_assoc;
    (split; [repeat first
      [ done
      | apply add_formatter_prints; [done|done|]
      | apply add_literal_prints; [cbn; rewrite ?length_app; cbn; lia|] ]
      |cbn; rewrite ?length_app; cbn; lia]).
Qed.

Lemma build_prints t cs fm o :
  valid_time t → Z.of_nat (length (m_literal_chars fm) + literals cs) < 2 ^ 32 → prints fm t o →
  prints (fold_left builder_step cs fm) t (o ++ concat (callback_text t <$> cs)).
Proof.
  intros Ht. revert fm o. induction cs as [|c cs IH]; intros fm o Hlen Hp; cbn; [by rewrite app_nil_r|].
  change (literals (c :: cs)) with (callback_literals c + literals cs)%nat in Hlen.
  destruct (builder_step_prints fm t o c Ht ltac:(lia) Hp) as [Hp' Hl'].
  rewrite app_assoc. apply IH; [rewrite Hl'; lia|done].
Qed.

Lemma format_build t cs :
  valid_time t → Z.of_nat (literals cs) < 2 ^ 32 → format_time (build cs) t = Ok (concat (callback_text t <$> cs)).
Proof.
  intros Ht Hl. unfold format_time, build.
  destruct (build_prints t cs empty_formatter [] Ht Hl) as [_ Hrun]; [by split; [constructor|]|].
  by rewrite Hrun.
Qed.

(** * Correctness of the parser *)

(** What has been found so far. *)
Definition parsed_text (t : decomposed_time) (p : parser_state) : str :=
  concat (callback_text t <$> calls p) ++ m_literal p.

Definition parsed_literals (p : parser_state) : nat := (literals (calls p) + length (m_literal p))%nat.

(** The parser went from [p] with the rest [s] to [p'] with the rest [s']. *)
Definition advanced (t : decomposed_time) (M : ascii → str) (s : str) (p : parser_state) (s' : str)
    (p' : parser_state) : Prop :=
  (length s' < length s)%nat ∧
  parsed_text t p' ++ expand M s' = parsed_text t p ++ expand M s ∧
  (parsed_literals p' + length s' ≤ parsed_literals p + length s)%nat.

(** The flags handle the characters of [D] as [m] says. *)
Definition flags_ok (t : decomposed_time) (parser : flag_parser) (m : ascii → str) (D : ascii → Prop) : Prop :=
  ∀ M c rest p, (∀ d, D d → M d = m d) → D c →
  ∃ s' p', parser ("%"%char :: c :: rest) p = (Ok s', p') ∧ advanced t M ("%"%char :: c :: rest) p s' p'.

Lemma flush_run t p :
  ∃ p', flush p = (Ok (), p') ∧ m_literal p' = [] ∧ parsed_text t p' = parsed_text t p ∧
    parsed_literals p' = parsed_literals p ∧ concat (callback_text t <$> calls p') = parsed_text t p ∧
    literals (calls p') = parsed_literals p.
Proof.
  unfold flush, parsed_text, parsed_literals. rewrite sm_bind_run. cbn [sm_get].
  destruct (m_literal p) as [|c l] eqn:E.
  - exists p. cbn. by rewrite E, !app_nil_r, Nat.add_0_r.
  - exists (Parser [] (calls p ++ [on_literal (c :: l)])). unfold literals. cbn.
    rewrite !fmap_app, concat_app, sum_list_with_app. cbn. rewrite !app_nil_r. split_and!; done || lia.
Qed.

(** A callback for [n] characters of the format. *)
Lemma flush_call t M c n s p :
  (0 < n ≤ length s)%nat → callback_text t c ++ expand M (drop n s) = expand M s → (callback_literals c ≤ n)%nat →
  ∃ p', (flush;; call c;; mret (drop n s)) p = (Ok (drop n s), p') ∧ advanced t M s p (drop n s) p'.
Proof.
  intros Hn Htext Hlits. destruct (flush_run t p) as (p1 & Hf & Hnil & _ & _ & Hcalls & Hl).
  rewrite sm_bind_run, Hf. cbn. eexists. split; [done|].
  unfold advanced, parsed_text, parsed_literals, literals in *. cbn. rewrite length_drop, Hnil. split_and!.
  - lia.
  - rewrite fmap_app, concat_app, Hcalls. cbn. rewrite !app_nil_r, <- !app_assoc. by rewrite Htext.
  - rewrite sum_list_with_app, Hl. cbn. lia.
Qed.

Lemma begins_with_spec lit s : begins_with lit s = true → ∃ rest, s = lit ++ rest.
Proof.
  unfold begins_with. intros H. to_prop. apply bool_decide_eq_true in H0.
  exists (drop (length lit) s). by rewrite <- H0 at 1; rewrite take_drop.
Qed.

Lemma report_ok t M c d rest p :
  callback_text t c = M d → (callback_literals c ≤ 2)%nat →
  ∃ s' p', report c ("%"%char :: d :: rest) p = (Ok s', p') ∧ advanced t M ("%"%char :: d :: rest) p s' p'.
Proof.
  intros Ht Hl. destruct (flush_call t M c 2 ("%"%char :: d :: rest) p) as (p' & Hrun & Hadv).
  - cbn. lia.
  - cbn. by rewrite Ht.
  - done.
  - by eexists _, p'.
Qed.

Lemma common_flags_ok t D : flags_ok t common_flags common_meaning D.
Proof.
  intros M c rest p HM Hc. specialize (HM c Hc). unfold common_meaning in HM.
  unfold common_flags. rewrite sm_bind_run. cbn [second of_ptr sm_lift lookup list_lookup].
  destruct (Ascii.eqb c "%") eqn:E.
  - eexists _, _. split; [done|]. unfold advanced, parsed_text, parsed_literals, literals. cbn. rewrite drop_0, HM.
    split_and!.
    + lia.
    + by rewrite <- !app_assoc.
    + rewrite length_app. cbn. lia.
  - by apply report_ok.
Qed.

(** A placeholder that stands for itself. *)
Ltac placeholder :=
  lazymatch goal with
  | |- context [if Ascii.eqb ?c ?d then report _ _ else _] =>
      destruct (Ascii.eqb c d) eqn:?; [apply report_ok; [by symmetry|cbn; lia]|]
  end.

(** A format of several placeholders that has a callback of its own. *)
Lemma composite_ok t M c lit s p :
  begins_with lit s = true → (0 < length lit)%nat →
  (∀ rest, callback_text t c ++ expand M rest = expand M (lit ++ rest)) → (callback_literals c ≤ length lit)%nat →
  ∃ s' p', (flush;; call c;; mret (drop (length lit) s)) p = (Ok s', p') ∧ advanced t M s p s' p'.
Proof.
  intros (rest & ->)%begins_with_spec Hpos Htext Hlits.
  destruct (flush_call t M c (length lit) (lit ++ rest) p) as (p' & Hrun & Hadv).
  - rewrite length_app. lia.
  - by rewrite drop_app_length, Htext.
  - done.
  - by eexists _, p'.
Qed.

Lemma date_flags_ok t base m (D : ascii → Prop) :
  flags_ok t base m (λ c, D c ∧ date_placeholder c = None) → D "Y"%char → D "m"%char → D "d"%char →
  flags_ok t (date_flags base) (date_meaning t m) D.
Proof.
  intros Hbase DY Dm Dd M c rest p HM Hc. pose proof (HM c Hc) as HMc.
  unfold date_flags. rewrite sm_bind_run. cbn [second of_ptr sm_lift lookup list_lookup].
  assert (date_placeholder c = None → ∃ s' p', base ("%"%char :: c :: rest) p = (Ok s', p') ∧
    advanced t M ("%"%char :: c :: rest) p s' p') as Hrest.
  { intros Hnone. apply Hbase; [|done]. intros d [Hd Hd']. rewrite (HM d Hd). unfold date_meaning. by rewrite Hd'. }
  unfold date_meaning, date_placeholder in HMc, Hrest.
  destruct (Ascii.eqb c "Y") eqn:EY; [|repeat placeholder; by apply Hrest].
  apply Ascii.eqb_eq in EY as ->. cbn in HMc.
  destruct (begins_with extended_iso_date_format _) eqn:E1; [|destruct (begins_with iso_date_format _) eqn:E2].
  - apply (composite_ok t M on_extended_iso_date extended_iso_date_format); [exact E1|cbn; lia| |cbn; lia].
    intros r. cbn. rewrite (HM _ DY), (HM _ Dm), (HM _ Dd). cbn. by repeat progress (rewrite <- ?app_assoc; cbn [app]).
  - apply (composite_ok t M on_iso_date iso_date_format); [exact E2|cbn; lia| |cbn; lia].
    intros r. cbn. rewrite (HM _ DY), (HM _ Dm), (HM _ Dd). cbn. by repeat progress (rewrite <- ?app_assoc; cbn [app]).
  - apply (report_ok t M on_full_year); [by symmetry|cbn; lia].
Qed.

Lemma time_flags_ok t base m (D : ascii → Prop) :
  flags_ok t base m (λ c, D c ∧ time_placeholder c = None) → D "H"%char → D "M"%char → D "S"%char → D "f"%char →
  flags_ok t (time_flags base) (time_meaning t m) D.
Proof.
  intros Hbase DH DM DS Df M c rest p HM Hc. pose proof (HM c Hc) as HMc.
  unfold time_flags. rewrite sm_bind_run. cbn [second of_ptr sm_lift lookup list_lookup].
  assert (time_placeholder c = None → ∃ s' p', base ("%"%char :: c :: rest) p = (Ok s', p') ∧
    advanced t M ("%"%char :: c :: rest) p s' p') as Hrest.
  { intros Hnone. apply Hbase; [|done]. intros d [Hd Hd']. rewrite (HM d Hd). unfold time_meaning. by rewrite Hd'. }
  unfold time_meaning, time_placeholder in HMc, Hrest.
  destruct (Ascii.eqb c "O" || Ascii.eqb c "H") eqn:EH.
  - destruct (begins_with default_time_format _) eqn:E1;
      [|destruct (begins_with extended_iso_time_format _) eqn:E2;
        [|destruct (begins_with iso_time_format _) eqn:E3]].
    + apply (composite_ok t M on_default_time default_time_format); [exact E1|cbn; lia| |cbn; lia].
      intros r. cbn. rewrite (HM _ DH), (HM _ DM), (HM _ DS), (HM _ Df). cbn. by repeat progress (rewrite <- ?app_assoc; cbn [app]).
    + apply (composite_ok t M on_extended_iso_time extended_iso_time_format); [exact E2|cbn; lia| |cbn; lia].
      intros r. cbn. rewrite (HM _ DH), (HM _ DM), (HM _ DS). cbn. by repeat progress (rewrite <- ?app_assoc; cbn [app]).
    + apply (composite_ok t M on_iso_time iso_time_format); [exact E3|cbn; lia| |cbn; lia].
      intros r. cbn. rewrite (HM _ DH), (HM _ DM), (HM _ DS). cbn. by repeat progress (rewrite <- ?app_assoc; cbn [app]).
    + apply (report_ok t M (on_hours true)); [by symmetry|cbn; lia].
  - do 9 placeholder.
    destruct (Ascii.eqb c "Q"); [apply report_ok; [by symmetry|cbn; lia]|].
    destruct (Ascii.eqb c "q"); [apply report_ok; [by symmetry|cbn; lia]|].
    repeat placeholder. by apply Hrest.
Qed.

(** ** The loop *)

Lemma expand_literal M l s : Forall (λ c, Ascii.eqb c "%" = false) l → expand M (l ++ s) = l ++ expand M s.
Proof. induction 1 as [|c l Hc _ IH]; [done|]. cbn. by rewrite Hc, IH. Qed.

Lemma parse_loop_ok t parser M fuel s p :
  flags_ok t parser M (λ _, True) → (length s ≤ fuel)%nat →
  ∃ p', parse_format_loop fuel parser s p = (Ok (), p') ∧
    concat (callback_text t <$> calls p') = parsed_text t p ++ expand M s ∧
    (literals (calls p') ≤ parsed_literals p + length s)%nat.
Proof.
  intros Hok. revert s p. induction fuel as [|fuel IH]; intros s p Hlen.
  { destruct s; [|cbn in Hlen; lia]. destruct (flush_run t p) as (p' & Hf & _ & _ & _ & H1 & H2).
    exists p'. cbn. rewrite app_nil_r. split_and!; [done|done|lia]. }
  destruct s as [|c0 s0] eqn:Es.
  { destruct (flush_run t p) as (p' & Hf & _ & _ & _ & H1 & H2).
    exists p'. cbn. rewrite app_nil_r. split_and!; [done|done|lia]. }
  cbn [parse_format_loop]. rewrite <- Es in *. clear Es c0 s0.
  set (n := find_pos (λ c, Ascii.eqb c "%") s).
  pose proof (find_pos_take (λ c, Ascii.eqb c "%") s) as Hlit. fold n in Hlit.
  pose proof (take_drop n s) as Hsplit. pose proof (f_equal length Hsplit) as Hl. rewrite length_app in Hl.
  rewrite sm_bind_run. cbn [add_literal sm_modify]. set (p1 := Parser _ _).
  assert (parsed_text t p1 ++ expand M (drop n s) = parsed_text t p ++ expand M s ∧
    (parsed_literals p1 + length (drop n s) ≤ parsed_literals p + length s)%nat) as [H1 H2].
  { unfold parsed_text, parsed_literals, p1. cbn [m_literal calls]. rewrite <- Hsplit at 3. rewrite expand_literal by done.
    rewrite length_app, <- !app_assoc. split; [done|lia]. }
  destruct (drop n s) as [|c [|d rest]] eqn:Er; cbn [length Nat.leb].
  - rewrite sm_bind_run. cbn [mret sm_ret]. destruct (IH [] p1 ltac:(cbn; lia)) as (p' & Hrun & T1 & T2).
    exists p'. split_and!; [done|by rewrite T1|cbn in *; lia].
  - rewrite sm_bind_run. cbn [add_literal sm_modify]. set (p2 := Parser _ _).
    destruct (IH [] p2 ltac:(cbn; lia)) as (p' & Hrun & T1 & T2). exists p'. split_and!; [done| |].
    + rewrite T1, <- H1. unfold parsed_text, p2. cbn. rewrite <- !app_assoc. by destruct (Ascii.eqb c "%").
    + unfold parsed_literals, p2 in *. cbn [m_literal calls] in *. rewrite length_app in T2. cbn in *. lia.
  - pose proof (find_pos_drop _ _ _ _ Er) as Hc. apply Ascii.eqb_eq in Hc as ->.
    destruct (Hok M d rest p1) as (s' & p2 & Hrun & Hlt & Htext & Hlits); [done|done|].
    rewrite sm_bind_run, Hrun. cbn [length] in Hlt, Hl.
    destruct (IH s' p2 ltac:(lia)) as (p' & Hloop & T1 & T2).
    exists p'. split_and!; [done|by rewrite T1, Htext|lia].
Qed.

Lemma parse_format_ok t parser M s :
  flags_ok t parser M (λ _, True) →
  ∃ cs, parse_format parser s = Ok cs ∧ concat (callback_text t <$> cs) = expand M s ∧ (literals cs ≤ length s)%nat.
Proof.
  intros Hok. unfold parse_format.
  destruct (parse_loop_ok t parser M (length s) s (Parser [] []) Hok) as (p' & -> & H1 & H2); [done|].
  by exists (calls p').
Qed.

Lemma print_time_ok parser M (format : str) (t : decomposed_time) :
  valid_time t → Z.of_nat (length format) < 2 ^ 32 → flags_ok t parser M (λ _, True) →
  print_time (parse_format parser) format t = Ok (expand M format).
Proof.
  intros Ht Hlen Hok. unfold print_time.
  destruct (parse_format_ok t parser M format Hok) as (cs & -> & Htext & Hlits). cbn [obind].
  rewrite format_build by (done || lia). by rewrite Htext.
Qed.

Lemma time_parser_ok t : flags_ok t (time_flags common_flags) (time_meaning t common_meaning) (λ _, True).
Proof. apply time_flags_ok; [apply common_flags_ok|done..]. Qed.

(** C22: formats mean what they say. For every format string shorter than [2 ^ 32]
    characters and every time, parsing the format and applying the formatter it
    builds terminates and prints the format with each placeholder replaced, one
    after the other, by the text of the member it stands for: "%%" is a percent
    character, an unknown placeholder and a single percent character at the end
    are copied. The formats of whole dates and times that the parser treats
    separately, and the merging of literals, make no difference. Date, time and
    combined formats know the placeholders of dates, of times and of both. *)
Theorem date_time_format_correct (format : str) (t : decomposed_time) :
  valid_time t → Z.of_nat (length format) < 2 ^ 32 →
  print_time parse_date_format format t = Ok (expand (date_meaning t common_meaning) format) ∧
  print_time parse_time_format format t = Ok (expand (time_meaning t common_meaning) format) ∧
  print_time parse_date_time_format format t = Ok (expand (date_meaning t (time_meaning t common_meaning)) format).
Proof.
  intros Ht Hlen. split_and!; apply print_time_ok; try done.
  - apply date_flags_ok; [apply common_flags_ok|done..].
  - apply time_parser_ok.
  - apply date_flags_ok; [apply time_flags_ok; [apply common_flags_ok|done..]|done..].
Qed.

End formatting.

(** * The members of a date *)

Lemma week_shift x y q : y = x + q * 7 → x mod 7 = y mod 7.
Proof. intros ->. by rewrite Z.mod_add by lia. Qed.

Lemma month_cases (P : Z → Prop) :
  P 1 → P 2 → P 3 → P 4 → P 5 → P 6 → P 7 → P 8 → P 9 → P 10 → P 11 → P 12 → ∀ m, 1 ≤ m ≤ 12 → P m.
Proof.
  intros ???????????? m Hm.
  assert (m = 1 ∨ m = 2 ∨ m = 3 ∨ m = 4 ∨ m = 5 ∨ m = 6 ∨ m = 7 ∨ m = 8 ∨ m = 9 ∨ m = 10 ∨ m = 11 ∨ m = 12) by lia.
  naive_solver.
Qed.

(** The sums of [week_day] do not overflow. *)
Lemma week_day_unbounded d y k :
  0 ≤ d < 2 ^ 8 → 0 ≤ y < 2 ^ 30 → 0 ≤ k < 2 ^ 8 →
  u32 (u32 (u32 (u32 (u32 (d + y) + y / 4) - y / 100) + y / 400) + k) = d + y + y / 4 - y / 100 + y / 400 + k.
Proof.
  intros Hd Hy Hk. pose proof (Z.div_mod y 4 ltac:(lia)). pose proof (Z.mod_pos_bound y 4 ltac:(lia)).
  pose proof (Z.div_mod y 100 ltac:(lia)). pose proof (Z.mod_pos_bound y 100 ltac:(lia)).
  pose proof (Z.div_mod y 400 ltac:(lia)). pose proof (Z.mod_pos_bound y 400 ltac:(lia)).
  rewrite (u32_id (d + y)), (u32_id (d + y + _)), (u32_id (d + y + _ - _)), (u32_id (d + y + _ - _ + _)), u32_id by lia.
  done.
Qed.

Lemma week_day_value y m d :
  1 ≤ y < 2 ^ 30 → 1 ≤ m ≤ 12 → 1 ≤ d ≤ 31 →
  ∀ h mi s ss neg, week_day (DecomposedTime y m d h mi s ss neg) = (gregorian.day_number y m d + 3) mod 7.
Proof.
  intros Hy Hm Hd h mi s ss neg. revert m Hm. unfold week_day. cbn [year month day].
  apply month_cases; unfold gregorian.day_number;
    match goal with |- context [u32 (14 - ?m) / 12] =>
      let a := eval vm_compute in (u32 (14 - m) / 12) in change (u32 (14 - m) / 12) with a;
      let b := eval vm_compute in (m <=? 2) in change (m <=? 2) with b; cbv beta iota zeta;
      match goal with |- context [u32 (31 * ?x) / 12] =>
        let k := eval vm_compute in (u32 (31 * x) / 12) in change (u32 (31 * x) / 12) with k end;
      rewrite (u32_id (y - a)), week_day_unbounded by lia;
      let e := eval vm_compute in ((153 * ((m + 9) mod 12) + 2) / 5) in
      change ((153 * ((m + 9) mod 12) + 2) / 5) with e;
      let c := eval vm_compute in ((e + 2 - 31 * ((m + 9) mod 12 + 1) / 12) / 7) in
      apply (week_shift _ _ (52 * (y - a) + c)); rewrite ?Z.sub_0_r; lia
    end.
Qed.

Definition leap_year (y : Z) : bool := (y mod 4 =? 0) && (negb (y mod 100 =? 0) || (y mod 400 =? 0)).

Lemma leap_step y :
  y / 4 - y / 100 + y / 400 - ((y - 1) / 4 - (y - 1) / 100 + (y - 1) / 400) = if leap_year y then 1 else 0.
Proof.
  unfold leap_year.
  assert (∀ k, 0 < k → y / k - (y - 1) / k = if y mod k =? 0 then 1 else 0) as Hk.
  { intros k Hk. pose proof (Z.div_mod y k ltac:(lia)). pose proof (Z.mod_pos_bound y k Hk).
    pose proof (Z.div_mod (y - 1) k ltac:(lia)). pose proof (Z.mod_pos_bound (y - 1) k Hk).
    destruct (y mod k =? 0) eqn:E; to_prop; nia. }
  pose proof (Hk 4 ltac:(lia)). pose proof (Hk 100 ltac:(lia)). pose proof (Hk 400 ltac:(lia)). clear Hk.
  destruct (y mod 4 =? 0) eqn:E4, (y mod 100 =? 0) eqn:E100, (y mod 400 =? 0) eqn:E400; cbn; to_prop; try lia;
    exfalso; clear - E4 E100 E400; Z.to_euclidean_division_equations; lia.
Qed.

Lemma year_day_value y m d :
  1 ≤ y < 2 ^ 30 → 1 ≤ m ≤ 12 → 1 ≤ d ≤ 31 →
  ∀ h mi s ss neg, year_day (DecomposedTime y m d h mi s ss neg) =
    Ok (gregorian.day_number y m d - gregorian.day_number y 1 1 + 1).
Proof.
  intros Hy Hm Hd h mi s ss neg. pose proof (leap_step y) as Hleap. revert m Hm.
  unfold year_day, gregorian.day_number. cbn [year month day]. fold (leap_year y).
  apply month_cases;
    match goal with |- context [first_day_offset !! ?i] =>
      let o := eval vm_compute in (first_day_offset !! i) in change (first_day_offset !! i) with o end;
    cbn -[Z.mul Z.add Z.sub Z.div u32 leap_year]; destruct (leap_year y); rewrite u32_id by lia; f_equal; 
    repeat match goal with |- context [(?a * ?b + ?c) / 5] =>
      let e := eval vm_compute in ((a * b + c) / 5) in change ((a * b + c) / 5) with e end; lia.
Qed.

(** The day of the week and the day of the year are those of the Gregorian
    calendar, for all dates after the year 0 whose year fits in 30 bits; in
    particular the 32-bit sums do not overflow. *)
Theorem date_members_correct y m d h mi s ss neg :
  1 ≤ y < 2 ^ 30 → 1 ≤ m ≤ 12 → 1 ≤ d ≤ 31 →
  let t := DecomposedTime y m d h mi s ss neg in
  week_day t = day_of_week (Calendar := gregorian.calendar) (gregorian.day_number y m d) ∧
  year_day t = Ok (gregorian.day_number y m d - gregorian.day_number y 1 1 + 1).
Proof. intros Hy Hm Hd t. split; [by apply week_day_value|by apply year_day_value]. Qed.

(** The hour on a clock with twelve hours. *)
Definition twelve_hour (h : Z) : Z := if h mod 12 =? 0 then 12 else h mod 12.

Lemma pad_dec_inj width a b :
  0 ≤ a → 0 ≤ b → pad_left "0" width (dec a) = pad_left "0" width (dec b) → a = b.
Proof.
  intros Ha Hb E. destruct (dec_spec a Ha) as (_ & Da & <-). destruct (dec_spec b Hb) as (_ & Db & <-).
  destruct (pad_zero_spec width _ Da) as (_ & <- & _). destruct (pad_zero_spec width _ Db) as (_ & <- & _).
  by rewrite E.
Qed.

(** No hour is printed right in the twelve-hour format: the number printed for
    "%I" is one more than the hour, modulo twelve. *)
Theorem twelve_hour_format_wrong time_put (t : decomposed_time) :
  valid_time t →
  print_time time_put parse_time_format (str_lit "%I") t ≠ Ok (pad_left "0" 2 (dec (twelve_hour (hours t)))).
Proof.
  intros Ht. unfold parse_time_format.
  rewrite (print_time_ok time_put _ _ (str_lit "%I") t Ht ltac:(done) (time_parser_ok time_put t)).
  cbn -[Z.modulo]. rewrite app_nil_r. unfold text. cbn [format_value].
  pose proof (Z.mod_pos_bound (hours t) 12 ltac:(lia)) as Hm.
  rewrite put_integer_ok by (rewrite u32_id; lia). rewrite u32_id by lia. change (Z.to_nat 2) with 2%nat.
  intros [= E]. apply pad_dec_inj in E; unfold twelve_hour in *; destruct (hours t mod 12 =? 0) eqn:E0; to_prop; lia.
Qed.

(** * A concrete time *)

Module sample_time.

(** Wednesday, 15 February 2023, 07:05:09.000123; the names of days and months
    are left out. *)
Definition moment : decomposed_time := DecomposedTime 2023 2 15 7 5 9 123 false.
Definition no_names : tm → ascii → str := λ _ _, [].

Lemma moment_valid : valid_time moment.
Proof. split; [cbn; lia|]. repeat (apply Forall_cons; split; [cbn; lia|]). constructor. Qed.

Lemma date_time_format_correct_witness :
  print_time no_names parse_date_time_format (str_lit "on %Y-%m-%d at %T.%f (%w, 100%%)") moment =
    Ok (str_lit "on 2023-02-15 at 07:05:09.000123 (3, 100%)").
Proof.
  destruct (date_time_format_correct no_names (str_lit "on %Y-%m-%d at %T.%f (%w, 100%%)") moment moment_valid)
    as (_ & _ & ->); [vm_compute; reflexivity|]. vm_compute. reflexivity.
Defined.

Lemma date_members_correct_witness : week_day moment = 3 ∧ year_day moment = Ok 46.
Proof.
  destruct (date_members_correct 2023 2 15 7 5 9 123 false ltac:(lia) ltac:(lia) ltac:(lia)) as [H1 H2].
  split; [exact H1|exact H2].
Defined.

Lemma twelve_hour_format_wrong_witness :
  print_time no_names parse_time_format (str_lit "%I") moment ≠ Ok (str_lit "07").
Proof. exact (twelve_hour_format_wrong no_names moment moment_valid). Defined.

End sample_time.
