(* ===== verification/DefaultFormatter.v ===== *)
(** The default formatter of settings files:
    src/src/setup/default_formatter_factory.cpp.

    The value of an attribute is written as text, dates and times in ISO formats.
    Dates and durations are values of Boost.DateTime, which are what their
    accessors say; its [to_tm] functions are parameters ([ToTm]) with the
    documented fields of their results ([ToTmLaws]). [strftime] and [snprintf]
    fill buffers of fixed sizes. The stream is the string it writes to. *)

From Stdlib Require Import ZArith Ascii String.
From stdpp Require Import base numbers list gmap strings.
From S2P Require Import Prelude Decimal BucketList AttributeSet AttributeValueSet ValueExtraction.
Local Open Scope Z_scope.

(** * Values *)

(** [std::tm], with the years from 1900 and the months from 0. *)
Record tm := Tm { tm_year : Z; tm_mon : Z; tm_mday : Z; tm_hour : Z; tm_min : Z; tm_sec : Z }.

Inductive special_values := not_a_date_time | pos_infin | neg_infin.

Record date := Date { year : Z; month : Z; day : Z }.

(** A point of time: a date and the microseconds of the day. *)
Record ptime := Ptime { the_date : date; time_of_day : Z }.

(** The values that the formatter treats on its own, with the number of
    microseconds of a duration and the number of days of another one, and others
    with their types. *)
Inductive value (X : Type) :=
| other (t : N) (x : X)
| std_tm (t : tm)
| posix_time (v : special_values + ptime)
| local_time (v : special_values + ptime * str)
| gregorian_date (v : special_values + date)
| time_duration (v : special_values + Z)
| date_duration (v : special_values + Z)
| period (first last : value X).
Arguments other {X} t x.
Arguments std_tm {X} t.
Arguments posix_time {X} v.
Arguments local_time {X} v.
Arguments gregorian_date {X} v.
Arguments time_duration {X} v.
Arguments date_duration {X} v.
Arguments period {X} first last.

(** The range of the dates of Boost.DateTime. *)
Definition date_ok (d : date) : Prop := 1400 ≤ year d ≤ 9999 ∧ 1 ≤ month d ≤ 12 ∧ 1 ≤ day d ≤ 31.
Definition ptime_ok (p : ptime) : Prop := date_ok (the_date p) ∧ 0 ≤ time_of_day p < 86400 * 1000000.

#[export] Instance date_ok_dec d : Decision (date_ok d).
Proof. unfold date_ok. apply _. Defined.
#[export] Instance ptime_ok_dec p : Decision (ptime_ok p).
Proof. unfold ptime_ok. apply _. Defined.

(** [boost::gregorian::to_tm] and [boost::posix_time::to_tm], and what is
    documented about them: the fields are those of the date, and the hours, minutes
    and seconds of the day, which are zero for a date alone. *)
Class ToTm := { date_to_tm : date → tm; ptime_to_tm : ptime → tm }.

Class ToTmLaws `{!ToTm} := {
  date_to_tm_fields d : date_ok d → date_to_tm d = Tm (year d - 1900) (month d - 1) (day d) 0 0 0;
  ptime_to_tm_fields p : ptime_ok p → ∃ h m sec, ptime_to_tm p =
      Tm (year (the_date p) - 1900) (month (the_date p) - 1) (day (the_date p)) h m sec ∧
    0 ≤ h < 24 ∧ 0 ≤ m < 60 ∧ 0 ≤ sec < 60 ∧ (h * 60 + m) * 60 + sec = time_of_day p / 1000000 }.

(** * Buffers *)

Definition padded (width : nat) (n : Z) : str := pad_left "0" width (dec n).

(** [strftime] with the formats of the source: the number of characters and the
    buffer, which are zero and undefined when the text does not fit. *)
Definition strftime (size : nat) (text : str) : str := if decide (length text < size)%nat then text else [].

Definition date_text (t : tm) : str :=
  dec (tm_year t + 1900) ++ str_lit "-" ++ padded 2 (tm_mon t + 1) ++ str_lit "-" ++ padded 2 (tm_mday t).
Definition date_time_text (t : tm) : str :=
  date_text t ++ str_lit " " ++ padded 2 (tm_hour t) ++ str_lit ":" ++ padded 2 (tm_min t) ++ str_lit ":" ++ padded 2 (tm_sec t).

(** The characters of the buffer after [snprintf] at its end, without the zero. *)
Definition append_snprintf (buf_size : nat) (buf text : str) : str :=
  let size := (buf_size - length buf)%nat in
  if decide (size ≤ length text)%nat then buf ++ take (size - 1) text else buf ++ text.

(** A buffer with its zero, which is written as well when the text is cut. *)
Definition write_snprintf (buf_size : nat) (text : str) : str :=
  if decide (buf_size ≤ length text)%nat then take (buf_size - 1) text ++ [Ascii.zero] else text.

(** * The visitor *)

Section formatter.
Context {TM : ToTm} {X : Type} (print_other : X → str).

Definition write (s : str) : sm str unit := sm_modify (λ strm, strm ++ s).

Definition format_special_date_time (v : special_values) : sm str unit :=
  match v with
  | not_a_date_time => write (str_lit "not-a-date-time")
  | pos_infin => write (str_lit "+infinity")
  | neg_infin => write (str_lit "-infinity")
  end.

Definition format_ptime (p : ptime) : sm str unit :=
  let buf := strftime 32 (date_time_text (ptime_to_tm p)) in
  write (append_snprintf 32 buf (str_lit "." ++ padded 6 (time_of_day p mod 1000000))).

Definition format_duration (value : Z) : sm str unit :=
  (if value <? 0 then write (str_lit "-") else mret ());;
  let total_useconds := u64 value in
  let hours := total_useconds / (3600 * 1000000) in
  let minutes := total_useconds / (60 * 1000000) mod 60 in
  let seconds := total_useconds / 1000000 mod 60 in
  let useconds := total_useconds mod 1000000 in
  write (write_snprintf 64 (padded 2 hours ++ str_lit ":" ++ padded 2 minutes ++ str_lit ":" ++ padded 2 seconds ++
    str_lit "." ++ padded 6 useconds)).

(** [operator<<] of an [int]. *)
Definition int_text (z : Z) : str := if z <? 0 then str_lit "-" ++ dec (- z) else dec z.

Fixpoint visit (v : value X) : sm str unit :=
  match v with
  | other _ x => write (print_other x)
  | std_tm t => write (strftime 32 (date_time_text t))
  | posix_time (inl s) => format_special_date_time s
  | posix_time (inr p) => format_ptime p
  | local_time (inl s) => format_special_date_time s
  | local_time (inr (p, zone)) => format_ptime p;; write (str_lit " ");; write zone
  | gregorian_date (inl s) => format_special_date_time s
  | gregorian_date (inr d) => write (strftime 32 (date_text (date_to_tm d)))
  | time_duration (inl s) => format_special_date_time s
  | time_duration (inr us) => format_duration us
  | date_duration (inl s) => format_special_date_time s
  | date_duration (inr days) => write (int_text days)
  | period first last => write (str_lit "[");; visit first;; write (str_lit "/");; visit last;; write (str_lit "]")
  end.

(** * The formatter *)

Context (type_of : value X → N) (value_types : list N).
Context {A S : Type} `{!AttrStore A S} (get_value : A → str → outcome (option (value X)) * str).

Definition default_formatter (name : N) : sm (attribute_value_set (option (value X)) S * str) unit :=
  visit_named type_of get_value (type_sequence value_types) fallback_to_none name visit;; mret ().

(** [create_formatter]: the arguments are ignored. *)
Definition create_formatter (name : N) (args : list (str * str)) := default_formatter name.

(** * Reading the texts *)

Definition read_date (s : str) : option (date * str) :=
  '(y, s) ← read_number s; s ← expect "-" s; '(m, s) ← read_number s; s ← expect "-" s; '(d, s) ← read_number s;
  Some (Date y m d, s).

Definition read_clock (s : str) : option (Z * Z * Z * str) :=
  '(h, s) ← read_number s; s ← expect ":" s; '(m, s) ← read_number s; s ← expect ":" s; '(sec, s) ← read_number s;
  Some (h, m, sec, s).

(** Nothing is left behind what was read. *)
Definition whole {Y} (x : Y * str) : option Y := match x.2 with [] => Some x.1 | _ => None end.

Definition read_tm (s : str) : option tm :=
  '(d, s) ← read_date s; s ← expect " " s; '(h, m, sec, s) ← read_clock s;
  whole (Tm (year d - 1900) (month d - 1) (day d) h m sec, s).

(** Hours, minutes, seconds and microseconds, together in microseconds. *)
Definition read_time (s : str) : option (Z * str) :=
  '(h, m, sec, s) ← read_clock s; s ← expect "." s; '(us, s) ← read_number s;
  Some (((h * 60 + m) * 60 + sec) * 1000000 + us, s).

Definition read_ptime (s : str) : option ptime :=
  '(d, s) ← read_date s; s ← expect " " s; '(t, s) ← read_time s; whole (Ptime d t, s).

(** A number or what follows a sign. *)
Definition read_sign {Y} (read : str → option (Y * str)) (s : str) : option (bool * Y) :=
  let (neg, s) := match expect "-" s with Some s => (true, s) | None => (false, s) end in
  '(t, s) ← read s; whole (neg, t, s).

(** The sign and the microseconds of a duration, and a signed number. *)
Definition read_duration : str → option (bool * Z) := read_sign read_time.
Definition read_int (s : str) : option Z := (λ '(neg, n), if neg : bool then - n else n) <$> read_sign read_number s.

Definition tm_ok (t : tm) : Prop :=
  0 ≤ tm_year t + 1900 ≤ 9999 ∧ 0 ≤ tm_mon t ≤ 11 ∧ 0 ≤ tm_mday t ≤ 31 ∧
  0 ≤ tm_hour t ≤ 23 ∧ 0 ≤ tm_min t ≤ 59 ∧ 0 ≤ tm_sec t ≤ 60.

(** The names of the special values. *)
Definition special_name (v : special_values) : str :=
  str_lit match v with not_a_date_time => "not-a-date-time" | pos_infin => "+infinity" | neg_infin => "-infinity" end.

(** What the text of a value says: it is read back, apart from the values of the
    types that have an [operator<<] of their own. The text of a negative duration
    has the magnitude [2 ^ 64] plus the number of microseconds. *)
Fixpoint text_means (v : value X) (text : str) : Prop :=
  match v with
  | other _ x => text = print_other x
  | std_tm t => tm_ok t → read_tm text = Some t
  | posix_time (inr p) => ptime_ok p → read_ptime text = Some p
  | local_time (inr (p, zone)) => ptime_ok p → ∃ t, text = t ++ str_lit " " ++ zone ∧ read_ptime t = Some p
  | gregorian_date (inr d) => date_ok d → read_date text = Some (d, [])
  | time_duration (inr us) => - 2 ^ 63 ≤ us < 2 ^ 63 →
      read_duration text = Some (bool_decide (us < 0), if decide (us < 0) then 2 ^ 64 + us else us)
  | date_duration (inr n) => read_int text = Some n
  | posix_time (inl s) | local_time (inl s) | gregorian_date (inl s) | time_duration (inl s) | date_duration (inl s) =>
      text = special_name s
  | period first last => ∃ t1 t2, text = str_lit "[" ++ t1 ++ str_lit "/" ++ t2 ++ str_lit "]" ∧
      text_means first t1 ∧ text_means last t2
  end.

Definition clock_text (h m sec : Z) : str := padded 2 h ++ str_lit ":" ++ padded 2 m ++ str_lit ":" ++ padded 2 sec.
Definition time_text (h m sec us : Z) : str := clock_text h m sec ++ str_lit "." ++ padded 6 us.

Lemma read_clock_text h m sec rest : 0 ≤ h → 0 ≤ m → 0 ≤ sec → stops_digits rest →
  read_clock (clock_text h m sec ++ rest) = Some (h, m, sec, rest).
Proof.
  intros Hh Hm Hs Hr. unfold read_clock, clock_text, padded. change (str_lit ":") with [":"%char]. rewrite <- !app_assoc. cbn [app].
  do 2 (rewrite read_padded by (lia || done); cbn [mbind option_bind]; rewrite expect_char; cbn [mbind option_bind]).
  by rewrite read_padded by (lia || done).
Qed.

Lemma read_time_text h m sec us : 0 ≤ h → 0 ≤ m → 0 ≤ sec → 0 ≤ us →
  read_time (time_text h m sec us) = Some (((h * 60 + m) * 60 + sec) * 1000000 + us, []).
Proof.
  intros Hh Hm Hs Hu. unfold read_time, time_text. change (str_lit ".") with ["."%char]. cbn [app].
  rewrite read_clock_text by done. cbn [mbind option_bind]. rewrite expect_char. cbn [mbind option_bind]. unfold padded.
  rewrite <- (app_nil_r (pad_left _ 6 _)), read_padded by (lia || done). done.
Qed.

Lemma read_date_text t rest : 0 ≤ tm_year t + 1900 → 0 ≤ tm_mon t → 0 ≤ tm_mday t → stops_digits rest →
  read_date (date_text t ++ rest) = Some (Date (tm_year t + 1900) (tm_mon t + 1) (tm_mday t), rest).
Proof.
  intros Hy Hm Hd Hr. unfold read_date, date_text, padded.
  change (str_lit "-") with ["-"%char]. rewrite <- !app_assoc. cbn [app].
  destruct (dec_spec (tm_year t + 1900) ltac:(lia)) as (Hne & Hds & Hu). rewrite read_dec, Hu by done. cbn [mbind option_bind].
  rewrite expect_char. cbn [mbind option_bind]. rewrite read_padded by (lia || done). cbn [mbind option_bind].
  rewrite expect_char. cbn [mbind option_bind]. by rewrite read_padded by (lia || done).
Qed.

Lemma padded_length width z : (0 < width)%nat → 0 ≤ z < 10 ^ Z.of_nat width → (length (padded width z) = width)%nat.
Proof.
  intros Hw Hz. pose proof (dec_length width z Hz Hw). unfold padded, pad_left. rewrite length_app, length_replicate. lia.
Qed.

Lemma date_text_length t : tm_ok t → (length (date_text t) ≤ 10)%nat.
Proof.
  intros (Hy & Hm & Hd & _). unfold date_text. pose proof (dec_length 4 (tm_year t + 1900) ltac:(cbn; lia) ltac:(lia)).
  rewrite !length_app, !padded_length by (cbn; lia). change (length (str_lit "-")) with 1%nat. lia.
Qed.

Lemma strftime_date t : tm_ok t → strftime 32 (date_text t) = date_text t.
Proof. intros Ht. unfold strftime. pose proof (date_text_length t Ht). by rewrite decide_True by lia. Qed.

(** A date with the time of the day fits in the buffer. *)
Lemma strftime_date_time t : tm_ok t →
  strftime 32 (date_time_text t) = date_text t ++ str_lit " " ++ clock_text (tm_hour t) (tm_min t) (tm_sec t) ∧
  (length (strftime 32 (date_time_text t)) ≤ 19)%nat.
Proof.
  intros Ht. pose proof (date_text_length t Ht). destruct Ht as (_ & _ & _ & Hh & Hm & Hs).
  assert (length (date_time_text t) ≤ 19)%nat as Hl.
  { unfold date_time_text. rewrite !length_app, !(padded_length 2) by (cbn; lia).
    change (length (str_lit " ")) with 1%nat. change (length (str_lit ":")) with 1%nat. lia. }
  unfold strftime. by rewrite decide_True by lia.
Qed.

Lemma read_tm_text t : tm_ok t → read_tm (strftime 32 (date_time_text t)) = Some t.
Proof.
  intros Ht. destruct (strftime_date_time t Ht) as [-> _]. destruct Ht as (Hy & Hm & Hd & Hh & Hi & Hs). unfold read_tm.
  change (str_lit " ") with [" "%char]. cbn [app]. rewrite read_date_text by (lia || done). cbn [mbind option_bind].
  rewrite expect_char. cbn [mbind option_bind]. rewrite <- (app_nil_r (clock_text _ _ _)), read_clock_text by (lia || done).
  cbn. destruct t. cbn. by rewrite !Z.add_simpl_r.
Qed.

Section laws.
Context {HTM : ToTmLaws}.

Lemma date_to_tm_ok d : date_ok d → tm_ok (date_to_tm d) ∧ read_date (strftime 32 (date_text (date_to_tm d))) = Some (d, []).
Proof.
  intros Hd. pose proof Hd as (Hy & Hm & Hdd). rewrite (date_to_tm_fields d Hd). set (t := Tm _ _ _ _ _ _).
  assert (tm_ok t) as Ht by (unfold tm_ok, t; cbn; lia). split; [done|]. rewrite strftime_date by done.
  rewrite <- (app_nil_r (date_text t)), read_date_text; [|unfold t; cbn; lia..|done]. unfold t. cbn. rewrite !Z.sub_add. by destruct d.
Qed.

(** A point of time is written so that it can be read back. *)
Lemma format_ptime_reads p strm : ptime_ok p → ∃ text, format_ptime p strm = (Ok (), strm ++ text) ∧ read_ptime text = Some p.
Proof.
  intros Hp. pose proof Hp as [(Hy & Hm & Hd) Ht]. eexists. split; [done|].
  destruct (ptime_to_tm_fields p Hp) as (h & m & sec & -> & Hh & Hmi & Hs & E).
  set (t := Tm _ _ _ _ _ _). assert (tm_ok t) as Hok by (unfold tm_ok, t; cbn; lia).
  destruct (strftime_date_time t Hok) as [Et Hl]. unfold append_snprintf.
  pose proof (Z.mod_pos_bound (time_of_day p) 1000000 ltac:(lia)).
  rewrite decide_False by (rewrite length_app, padded_length by (cbn; lia); change (length (str_lit ".")) with 1%nat; lia).
  rewrite Et, <- !app_assoc. unfold read_ptime. change (str_lit " ") with [" "%char]. cbn [app].
  rewrite read_date_text; [|unfold t; cbn; lia..|done]. cbn [mbind option_bind].
  rewrite expect_char. cbn [mbind option_bind].
  change (clock_text _ _ _ ++ _) with (time_text h m sec (time_of_day p mod 1000000)). rewrite read_time_text by lia.
  cbn. rewrite !Z.sub_add, E. pose proof (Z.div_mod (time_of_day p) 1000000 ltac:(lia)) as Em.
  destruct p as [[]]. cbn in *. do 2 f_equal. lia.
Qed.
End laws.

(** The text of a number of microseconds. *)
Definition micros_text (t : Z) : str :=
  time_text (t / (3600 * 1000000)) (t / (60 * 1000000) mod 60) (t / 1000000 mod 60) (t mod 1000000).

Lemma read_micros t : 0 ≤ t → read_time (micros_text t) = Some (t, []).
Proof.
  intros Ht. unfold micros_text.
  assert (0 ≤ t / (3600 * 1000000)) by (apply Z.div_pos; lia).
  pose proof (Z.mod_pos_bound (t / (60 * 1000000)) 60 ltac:(lia)). pose proof (Z.mod_pos_bound (t / 1000000) 60 ltac:(lia)).
  pose proof (Z.mod_pos_bound t 1000000 ltac:(lia)). rewrite read_time_text by lia. do 2 f_equal.
  pose proof (Z.div_mod t 1000000 ltac:(lia)) as E1. rewrite (Z.mul_comm 3600), (Z.mul_comm 60 1000000), <- !Z.div_div by lia.
  set (n := t / 1000000) in *. pose proof (Z.div_mod n 60 ltac:(lia)) as E2.
  pose proof (Z.div_mod (n / 60) 60 ltac:(lia)) as E3. rewrite Z.div_div in E3 by lia. change (60 * 60) with 3600 in E3. lia.
Qed.

Lemma micros_length t : 0 ≤ t < 2 ^ 64 → (length (micros_text t) < 64)%nat.
Proof.
  intros Ht. assert (0 ≤ t / (3600 * 1000000) < 10 ^ 10) as Hh by (split; [apply Z.div_pos; lia|apply Z.div_lt_upper_bound; lia]).
  pose proof (Z.mod_pos_bound (t / (60 * 1000000)) 60 ltac:(lia)). pose proof (Z.mod_pos_bound (t / 1000000) 60 ltac:(lia)).
  pose proof (Z.mod_pos_bound t 1000000 ltac:(lia)).
  pose proof (dec_length 10 (t / (3600 * 1000000)) Hh ltac:(lia)).
  unfold micros_text, time_text, clock_text. rewrite !length_app, !(padded_length _ (_ mod _)) by (cbn; lia). unfold padded, pad_left.
  rewrite length_app, length_replicate. change (length (str_lit ":")) with 1%nat. change (length (str_lit ".")) with 1%nat. lia.
Qed.

Lemma micros_positive t : 0 ≤ t → expect "-" (micros_text t) = None.
Proof.
  intros Ht. pose proof (read_micros t Ht) as H. unfold read_time, read_clock, read_number in H. destruct (micros_text t) as [|c s]; [done|]. cbn.
  case_decide as Hc; [|done]. subst c. by cbn in H.
Qed.

(** What is read from the text of a duration: the magnitude is the number of
    microseconds modulo 2^64. *)
Lemma format_duration_reads us strm : ∃ text, format_duration us strm = (Ok (), strm ++ text) ∧
  read_duration text = Some (bool_decide (us < 0), u64 us).
Proof.
  pose proof (u64_range us) as Hr.
  assert (format_duration us strm = ((if us <? 0 then write (str_lit "-") else mret ());;
    write (write_snprintf 64 (micros_text (u64 us)))) strm) as ->.
  { unfold format_duration, micros_text, time_text, clock_text. by rewrite <- !app_assoc. }
  unfold write_snprintf. pose proof (micros_length (u64 us) Hr). rewrite decide_False by lia. destruct (Z.ltb_spec us 0).
  - exists ("-"%char :: micros_text (u64 us)). split; [rewrite sm_bind_run; unfold write, sm_modify; by rewrite <- app_assoc|].
    unfold read_duration, read_sign. rewrite expect_char, read_micros by lia. cbn. by rewrite bool_decide_eq_true_2.
  - exists (micros_text (u64 us)). split; [done|]. unfold read_duration, read_sign. rewrite micros_positive, read_micros by lia.
    cbn. by rewrite bool_decide_eq_false_2 by lia.
Qed.

Lemma u64_signed us : - 2 ^ 63 ≤ us < 2 ^ 63 → u64 us = if decide (us < 0) then 2 ^ 64 + us else us.
Proof.
  intros Hus. unfold u64. destruct (decide (us < 0)) as [Hneg|]; [|by rewrite Z.mod_small by lia].
  replace (2 ^ 64 + us) with (us + 1 * 2 ^ 64) by lia. rewrite <- (Z.mod_add us 1 (2 ^ 64)) by lia. apply Z.mod_small. lia.
Qed.

(** A number has no sign. *)
Lemma dec_positive n : 0 ≤ n → expect "-" (dec n) = None.
Proof.
  intros Hn. destruct (dec_spec n Hn) as (Hne & Hds & _). destruct (dec n) as [|c s]; [done|]. cbn.
  case_decide as Hc; [|done]. subst c. by apply Forall_cons in Hds as [Hc _].
Qed.

Lemma read_int_text n : read_int (int_text n) = Some n.
Proof.
  assert (∀ k, 0 ≤ k → read_number (dec k) = Some (k, [])) as Hread.
  { intros k Hk. destruct (dec_spec k Hk) as (Hne & Hds & Hu). rewrite <- (app_nil_r (dec k)) at 1. by rewrite read_dec, Hu. }
  unfold read_int, int_text, read_sign. destruct (Z.ltb_spec n 0).
  - change (str_lit "-") with ["-"%char]. cbn [app]. rewrite expect_char, Hread by lia. cbn. f_equal. lia.
  - by rewrite dec_positive, Hread by lia.
Qed.

Lemma write_app s strm : write s strm = (Ok (), strm ++ s).
Proof. done. Qed.

Lemma format_special_means v strm : ∃ text, format_special_date_time v strm = (Ok (), strm ++ text) ∧ text = special_name v.
Proof. destruct v; by eexists. Qed.

(** The visitor writes the text of the value and does nothing else. *)
Lemma visit_means `{!ToTmLaws} x strm : ∃ text, visit x strm = (Ok (), strm ++ text) ∧ text_means x text.
Proof.
  revert strm. induction x as [t x|t|[v|p]|[v|[p z]]|[v|d]|[v|us]|[v|n]|a IHa b IHb]; intros strm; cbn [visit text_means];
    try apply format_special_means.
  - eauto.
  - eexists. split; [done|]. apply read_tm_text.
  - destruct (decide (ptime_ok p)) as [Hp|Hp]; [|by eexists].
    destruct (format_ptime_reads p strm Hp) as (text & -> & Hr). eauto.
  - destruct (decide (ptime_ok p)) as [Hp|Hp];
      [|eexists; split; [unfold format_ptime; rewrite !sm_bind_run, write_app, sm_bind_run, !write_app, <- !app_assoc; done|done]].
    destruct (format_ptime_reads p strm Hp) as (text & E & Hr). eexists. split; [|by intros _; exists text].
    by rewrite sm_bind_run, E, sm_bind_run, !write_app, <- !app_assoc.
  - eexists. split; [done|]. intros Hd. by apply date_to_tm_ok.
  - destruct (format_duration_reads us strm) as (text & E & Hr). exists text. split; [done|]. intros Hus. by rewrite Hr, u64_signed.
  - eexists. split; [done|]. apply read_int_text.
  - rewrite sm_bind_run, write_app, sm_bind_run. destruct (IHa (strm ++ str_lit "[")) as (ta & -> & Ha).
    rewrite sm_bind_run, write_app, sm_bind_run. destruct (IHb (((strm ++ str_lit "[") ++ ta) ++ str_lit "/")) as (tb & -> & Hb).
    rewrite write_app. eexists. split; [by rewrite <- !app_assoc|by exists ta, tb].
Qed.

(** C38: texts of the default formatter. It writes the text of the value that
    the record has for the attribute to the stream, and nothing when the record has no value
    of a supported type; it never fails. From the text the value can be read
    back: a calendar time, a point of time (with its zone behind it when it is
    local), a date, a duration that is not negative, a number of days; the
    special values have their names, and a period has the texts of its ends. The
    text of a negative duration has the sign and the hours, minutes and seconds
    of 2^64 plus the number of its microseconds instead of its magnitude. The
    values of other types are written with their own operators. The values of the
    record are acquired and the name is initialized; dates are in the range of Boost.DateTime, whose [to_tm]
    gives the documented fields. *)
Theorem default_formatter_texts `{!ToTmLaws} name v strm : vset_wf v → pending v = ∅ → name ≠ uninitialized →
  ∃ text, default_formatter name (v, strm) = (Ok (), (v, strm ++ text)) ∧
    match value_in v name with
    | Some x => if decide (type_of x ∈ value_types) then text_means x text else text = []
    | None => text = []
    end.
Proof.
  intros Hv Hp Hn. unfold default_formatter. rewrite sm_bind_run, visit_named_run, (find_frozen get_value v strm) by done.
  unfold value_in, selected. destruct (mjoin (frozen v !! name)) as [x|]; [|by exists []; rewrite app_nil_r].
  cbn [types_list fall_back]. case_decide; [|by exists []; rewrite app_nil_r].
  destruct (visit_means x strm) as (text & E & Ht). exists text. split; [|done].
  cbn [on_world]. rewrite sm_bind_run, E. done.
Qed.
End formatter.

(** * Example *)

Module sample_texts.
(** Values without a type of their own are texts. *)
Definition type_of (v : value str) : N :=
  match v with
  | other t _ => t | std_tm _ => 100 | posix_time _ => 101 | local_time _ => 102 | gregorian_date _ => 103
  | time_duration _ => 104 | date_duration _ => 105 | period _ _ => 106
  end.

(** The fields of a date, and of the seconds of a day. *)
#[export] Instance sample_to_tm : ToTm := {|
  date_to_tm d := Tm (year d - 1900) (month d - 1) (day d) 0 0 0;
  ptime_to_tm p :=
    let s := time_of_day p / 1000000 in
    Tm (year (the_date p) - 1900) (month (the_date p) - 1) (day (the_date p)) (s / 3600) (s / 60 mod 60) (s mod 60) |}.

#[export] Instance sample_to_tm_laws : ToTmLaws.
Proof.
  split; [done|]. intros p [_ Ht]. set (n := time_of_day p / 1000000).
  assert (0 ≤ n < 86400) as Hn by (subst n; split; [apply Z.div_pos; lia|apply Z.div_lt_upper_bound; lia]).
  exists (n / 3600), (n / 60 mod 60), (n mod 60). split; [done|].
  assert (0 ≤ n / 3600 < 24) by (split; [apply Z.div_pos; lia|apply Z.div_lt_upper_bound; lia]).
  pose proof (Z.mod_pos_bound (n / 60) 60 ltac:(lia)). pose proof (Z.mod_pos_bound n 60 ltac:(lia)).
  pose proof (Z.div_mod n 60 ltac:(lia)). pose proof (Z.div_mod (n / 60) 60 ltac:(lia)) as H3.
  rewrite Z.div_div in H3 by lia. change (60 * 60) with 3600 in H3. lia.
Qed.

Definition leap_day : ptime := Ptime (Date 2024 2 29) 3723000042.

(** The attribute 5 is the period from a point of time to the end of time, others
    are the durations of so many seconds before. *)
Definition acquire (a : nat) (w : str) : outcome (option (value str)) * str :=
  (Ok (Some (if decide (a = 5%nat) then period (posix_time (inr leap_day)) (posix_time (inl pos_infin))
    else time_duration (inr (- Z.of_nat a * 1000000)))), w).

(** A record with the attributes of the sample set, all acquired; the one with the
    name 1 is 5. *)
Definition record_values : attribute_value_set (option (value str)) (attribute_set nat) :=
  (freeze acquire (create 4 (Some sample_set) None None, [])).2.1.

Lemma record_values_ok : vset_wf record_values ∧ pending record_values = ∅.
Proof.
  assert (vset_wf (create (V := option (value str)) 4 (Some sample_set) None None)) as Hc by (apply create_wf; [apply sample_set_wf|done..]).
  pose proof (freeze_spec acquire _ ([] : str) ltac:(done) Hc) as H. unfold record_values.
  destruct (freeze acquire _) as [[[]|e|] [v w]] eqn:E; [|by vm_compute in E..]. destruct H as (H1 & H2 & H3 & H4 & _).
  split; [apply H1|]. unfold pending. cbn. rewrite H2, H3, H4. done.
Qed.

Lemma default_formatter_texts_witness :
  default_formatter (λ s : str, s) type_of [106%N] acquire 1 (record_values, []) =
    (Ok (), (record_values, str_lit "[2024-02-29 01:02:03.000042/+infinity]")) ∧
  ∃ t, str_lit "[2024-02-29 01:02:03.000042/+infinity]" =
      str_lit "[" ++ t ++ str_lit "/" ++ str_lit "+infinity" ++ str_lit "]" ∧
    read_ptime t = Some leap_day.
Proof.
  destruct (default_formatter_texts (λ s : str, s) type_of [106%N] acquire 1 record_values [] (proj1 record_values_ok)
    (proj2 record_values_ok) ltac:(done)) as (text & E & Ht).
  assert (text = str_lit "[2024-02-29 01:02:03.000042/+infinity]") as ->.
  { apply (f_equal (λ x, x.2.2)) in E. change ([] ++ text) with text in E. cbn [snd] in E. rewrite <- E. vm_compute. reflexivity. }
  assert (value_in record_values 1 = Some (period (posix_time (inr leap_day)) (posix_time (inl pos_infin)))) as Ev
    by (vm_compute; reflexivity).
  rewrite Ev in Ht. split; [exact E|]. destruct (decide _) as [_|Hn]; [|by destruct Hn; left].
  destruct Ht as (t1 & t2 & Et & H1 & ->). exists t1. split; [exact Et|].
  apply H1. apply (bool_decide_unpack _). vm_compute. exact I.
Defined.

(** Minus five seconds. *)
Lemma negative_duration_text :
  visit (λ s : str, s) (time_duration (inr (-5000000))) [] = (Ok (), str_lit "-5124095576:01:44.551616").
Proof. by vm_compute. Qed.
End sample_texts.
