(* ===== verification/CodeConvert.v ===== *)
(** Character code conversion (src/src/code_conversion.cpp and
    src/include/boost/log/detail/code_conversion.hpp): the strings of one
    character type that are appended to strings of another one.

    The conversion itself is done by the [std::codecvt] facet of a locale. It is
    modelled as the standard documents it, for encodings without shift states:
    the facet converts character after character until the source is exhausted,
    the destination has no room for the next character, or the next character is
    incomplete or invalid. What a character is, and what it becomes, is a parameter. *)

From Stdlib Require Import ZArith.
From stdpp Require Import base numbers list.
From S2P Require Import Prelude.

(** * The facet *)

(** The next character of a source: the number of its units and the units it
    becomes. *)
Inductive next_char (Dst : Type) :=
  | Char (n : nat) (out : list Dst)
  | Incomplete
  | Invalid.
Arguments Char {Dst} n out.
Arguments Incomplete {Dst}.
Arguments Invalid {Dst}.

(** [std::codecvt_base::result]. *)
Inductive codecvt_result := cv_ok | cv_partial | cv_error | cv_noconv.

(** The size of [converted_buffer]. *)
Definition converted_buffer_size : nat := 256.

Class Encoding (Src Dst : Type) := {
  always_noconv : bool;
  as_is : Src → Dst;
  next : list Src → next_char Dst;
  next_progress : ∀ s n out, next s = Char n out →
    0 < n ≤ length s ∧ 0 < length out ≤ converted_buffer_size }.

Section convert.
Context {Src Dst : Type} `{!Encoding Src Dst}.

(** [fac.in] and [fac.out]: the result, the rest of the source and the units
    written, at most [cap]. *)
Fixpoint convert_chars (fuel : nat) (src : list Src) (cap : nat) : codecvt_result * list Src * list Dst :=
  match fuel, src with
  | _, [] => (cv_ok, [], [])
  | O, _ => (cv_partial, src, [])
  | S fuel, _ =>
      match next src with
      | Char n out =>
          if length out <=? cap then
            let '(res, rest, dst) := convert_chars fuel (drop n src) (cap - length out) in
            (res, rest, out ++ dst)
          else (cv_partial, src, [])
      | Incomplete => (cv_partial, src, [])
      | Invalid => (cv_error, src, [])
      end
  end.

Definition convert (src : list Src) (cap : nat) : codecvt_result * list Src * list Dst :=
  if always_noconv then (cv_noconv, src, []) else convert_chars (length src) src cap.

(** * code_convert *)

(** The loop, on the string [converted] and the number of units that may still
    be added; the result is the rest of the source. *)
Fixpoint convert_loop (fuel : nat) (src : list Src) (max_size : nat) : sm (list Dst) (list Src) :=
  let buf_size := max_size `min` converted_buffer_size in
  match src with
  | [] => mret src
  | _ =>
      if buf_size =? 0 then mret src
      else
        match fuel with
        | O => sm_lift Stuck
        | S fuel =>
            let '(res, src', dst) := convert src buf_size in
            match res with
            | cv_ok => sm_modify (λ s, s ++ dst);; convert_loop fuel src' (max_size - length dst)
            | cv_noconv =>
                let size := max_size `min` length src in
                sm_modify (λ s, s ++ (as_is <$> take size src));; mret (drop size src)
            | cv_partial =>
                match dst with
                | _ :: _ => sm_modify (λ s, s ++ dst);; convert_loop fuel src' (max_size - length dst)
                | [] => match src' with [] => mret [] | _ => sm_throw ex_conversion_error end
                end
            | cv_error => sm_throw ex_conversion_error
            end
        end
  end.

(** The number of source units converted. *)
Definition code_convert (src : list Src) (max_size : nat) : sm (list Dst) nat :=
  rest ← convert_loop (length src) src max_size; mret (length src - length rest).

(** [code_convert_impl]. *)
Definition code_convert_impl (src : list Src) (max_size : nat) : sm (list Dst) bool :=
  n ← code_convert src max_size; mret (n =? length src).

End convert.

(** [code_convert] between types of the same size. *)
Definition code_convert_same {Src Dst : Type} (cast : Src → Dst) (src : list Src) (max_size : nat) : sm (list Dst) bool :=
  s ← sm_get;
  let size_left := if length s <? max_size then max_size - length s else 0 in
  let overflow := size_left <? length src in
  sm_modify (λ s, s ++ (cast <$> take (if overflow then size_left else length src) src));;
  mret (negb overflow).

(** [code_convert_impl] between [char16_t], [char32_t] and [wchar_t] strings:
    through a [char] string. *)
Definition code_convert_via {Src B Dst : Type} `{!Encoding Src B, !Encoding B Dst} (string_max_size : nat)
    (src : list Src) (max_size : nat) : sm (list Dst) bool :=
  temp_str ← (λ s, match code_convert src string_max_size ([] : list B) with
                   | (Ok _, temp) => (Ok temp, s)
                   | (Throw e, _) => (Throw e, s)
                   | (Stuck, _) => (Stuck, s)
                   end : outcome (list B) * list Dst);
  n ← code_convert temp_str max_size; mret (n =? length temp_str).

(** [to_narrow] and [to_wide]. *)
Definition convert_string {Src Dst : Type} `{!Encoding Src Dst} (string_max_size : nat) (src : list Src) : outcome (list Dst) :=
  match code_convert_impl src string_max_size [] with
  | (Ok _, s) => Ok s
  | (Throw e, _) => Throw e
  | (Stuck, _) => Stuck
  end.

Lemma code_convert_same_run {Src Dst : Type} (cast : Src → Dst) src max_size s :
  code_convert_same cast src max_size s =
  (Ok (length src <=? max_size - length s), s ++ (cast <$> take (max_size - length s) src)).
Proof.
  unfold code_convert_same. sm_step.
  assert ((if length s <? max_size then max_size - length s else 0) = max_size - length s) as ->
    by (destruct (Nat.ltb_spec (length s) max_size); lia).
  sm_step. destruct (Nat.ltb_spec (max_size - length s) (length src)), (Nat.leb_spec (length src) (max_size - length s));
    try lia; [done|]. by rewrite !take_ge by lia.
Qed.

(** * The conversion of a whole source *)

Section convert_lemmas.
Context {Src Dst : Type} `{!Encoding Src Dst}.

Lemma convert_chars_fuel fuel fuel' src cap : length src ≤ fuel → length src ≤ fuel' →
  convert_chars fuel src cap = convert_chars fuel' src cap.
Proof.
  revert fuel' src cap. induction fuel as [|fuel IH]; intros [|fuel'] [|c src] cap H H'; cbn in H, H'; try done; try lia.
  cbn [convert_chars]. destruct (next (c :: src)) as [n out| |] eqn:Hn; [|done..].
  destruct (length out <=? cap); [|done]. apply next_progress in Hn as [Hn _]. cbn in Hn.
  by rewrite (IH fuel') by (rewrite length_drop; cbn; lia).
Qed.

(** The facet's conversion without the fuel. *)
Definition conversion (src : list Src) (cap : nat) : codecvt_result * list Src * list Dst :=
  convert_chars (length src) src cap.

Lemma conversion_unfold src cap : src ≠ [] →
  conversion src cap =
  match next src with
  | Char n out =>
      if length out <=? cap then
        let '(res, rest, dst) := conversion (drop n src) (cap - length out) in (res, rest, out ++ dst)
      else (cv_partial, src, [])
  | Incomplete => (cv_partial, src, [])
  | Invalid => (cv_error, src, [])
  end.
Proof.
  destruct src as [|c src]; [done|]. intros _. unfold conversion at 1. cbn [length convert_chars].
  destruct (next (c :: src)) as [n out| |] eqn:Hn; [|done..]. destruct (length out <=? cap); [|done].
  apply next_progress in Hn as [Hn _]. cbn in Hn. unfold conversion.
  by rewrite (convert_chars_fuel (length src) (length (drop n (c :: src)))) by (rewrite length_drop; cbn; lia).
Qed.

(** Induction along the characters of a source. *)
Lemma source_ind (P : list Src → Prop) :
  P [] → (∀ src, src ≠ [] → (∀ n out, next src = Char n out → P (drop n src)) → P src) → ∀ src, P src.
Proof.
  intros H0 HS src. induction src as [src IH] using (induction_ltof1 _ length).
  destruct src as [|c src]; [done|]. apply HS; [done|]. intros n out Hn. apply IH. unfold ltof.
  apply next_progress in Hn as [Hn _]. cbn in Hn. rewrite length_drop. cbn. lia.
Qed.

(** The facet stops early for a reason. *)
Lemma conversion_spec src : ∀ cap, let '(res, rest, dst) := conversion src cap in
  length dst ≤ cap ∧ length rest ≤ length src ∧ (dst ≠ [] → length rest < length src) ∧
  (rest = [] → res = cv_ok) ∧ res ≠ cv_noconv ∧ (res = cv_ok → rest = []) ∧ (dst = [] → rest = src) ∧
  (res ≠ cv_error → rest ≠ [] → next rest ≠ Invalid).
Proof.
  induction src as [|src Hsrc IH] using source_ind; intros cap.
  { cbn. repeat split; try done; lia. }
  rewrite conversion_unfold by done. destruct (next src) as [n out| |] eqn:Hn.
  2-3: by rewrite <-?Hn; repeat split; try done; cbn; try lia; congruence.
  destruct (Nat.leb_spec (length out) cap); [|by repeat split; try done; cbn; try lia; congruence].
  specialize (IH n out eq_refl (cap - length out)). destruct (conversion _ _) as [[res rest] dst].
  apply next_progress in Hn as [Hn Ho]. destruct IH as (H1 & H2 & H3 & H4 & H5 & H6 & H7 & H8).
  rewrite length_drop in *. rewrite length_app. repeat split; try done; try lia.
  intros [-> ->]%app_nil. cbn in Ho. lia.
Qed.

(** A conversion can be done in two calls. *)
Lemma conversion_split src : ∀ c cap, c ≤ cap → let '(res, rest, dst) := conversion src c in
  conversion src cap =
    match res with
    | cv_error => (cv_error, rest, dst)
    | _ => let '(res', rest', dst') := conversion rest (cap - length dst) in (res', rest', dst ++ dst')
    end.
Proof.
  induction src as [|src Hsrc IH] using source_ind; intros c cap Hc; [done|].
  rewrite (conversion_unfold src c) by done. destruct (next src) as [n out| |] eqn:Hn.
  - destruct (Nat.leb_spec (length out) c).
    + specialize (IH n out eq_refl (c - length out) (cap - length out) ltac:(lia)).
      destruct (conversion (drop n src) (c - length out)) as [[res rest] dst].
      rewrite conversion_unfold, Hn by done. destruct (Nat.leb_spec (length out) cap); [|lia]. rewrite IH.
      rewrite length_app, Nat.sub_add_distr.
      destruct res; try done; destruct (conversion rest _) as [[res' rest'] dst']; by rewrite <-(assoc_L (++)).
    + cbn. rewrite Nat.sub_0_r. by destruct (conversion src cap) as [[res' rest'] dst'].
  - cbn. rewrite Nat.sub_0_r. by destruct (conversion src cap) as [[res' rest'] dst'].
  - by rewrite conversion_unfold, Hn.
Qed.

(** Without progress there is none with more room either, unless the room is
    less than the buffer. *)
Lemma conversion_stuck src cap : src ≠ [] →
  let '(res, _, dst) := conversion src (cap `min` converted_buffer_size) in
  dst = [] → res ≠ cv_error → conversion src cap = (cv_partial, src, []).
Proof.
  intros Hsrc. rewrite !conversion_unfold by done. destruct (next src) as [n out| |] eqn:Hn; [|done..].
  apply next_progress in Hn as [_ Ho]. destruct (Nat.leb_spec (length out) (cap `min` converted_buffer_size)).
  - destruct (conversion _ _) as [[res rest] dst]. intros [-> ->]%app_nil. cbn in Ho. lia.
  - intros _ _. by destruct (Nat.leb_spec (length out) cap); [lia|].
Qed.

Lemma convert_conversion src cap : always_noconv = false → convert src cap = conversion src cap.
Proof. intros H. unfold convert. by rewrite H. Qed.

(** One pass of the loop. *)
Lemma convert_loop_step fuel src cap : always_noconv = false → src ≠ [] →
  convert_loop (S fuel) src cap = if cap `min` converted_buffer_size =? 0 then mret src else
    let '(res, src', dst) := conversion src (cap `min` converted_buffer_size) in
    match res, dst with
    | cv_ok, _ | cv_partial, _ :: _ => sm_modify (λ s, s ++ dst);; convert_loop fuel src' (cap - length dst)
    | _, _ => sm_throw ex_conversion_error
    end.
Proof.
  intros Hno Hsrc. destruct src as [|c src]; [done|]. cbn [convert_loop]. rewrite convert_conversion by done.
  destruct (_ =? 0); [done|]. pose proof (conversion_spec (c :: src) (cap `min` converted_buffer_size)) as Hc.
  destruct (conversion _ _) as [[res rest] dst]. destruct Hc as (_ & _ & _ & _ & Hn & _ & Hd & _).
  destruct res; try done. destruct dst; [|done]. by rewrite Hd.
Qed.

(** What the loop does with the room [cap]. *)
Definition loop_result (src : list Src) (cap : nat) (s : list Dst) (r : outcome (list Src) * list Dst) : Prop :=
  let '(res, rest, dst) := conversion src cap in
  match res with
  | cv_error => ∃ dst', dst' `prefix_of` dst ∧ r = (Throw ex_conversion_error, s ++ dst')
  | _ => if bool_decide (rest = []) || (length dst =? cap) then r = (Ok rest, s ++ dst)
         else r = (Throw ex_conversion_error, s ++ dst)
  end.

Lemma loop_result_step src cap rest dst s r : length dst ≤ cap →
  conversion src cap = (let '(res', rest', dst') := conversion rest (cap - length dst) in (res', rest', dst ++ dst')) →
  loop_result rest (cap - length dst) (s ++ dst) r → loop_result src cap s r.
Proof.
  intros Hle Hc. unfold loop_result. rewrite Hc. destruct (conversion rest _) as [[res' rest'] dst'].
  rewrite length_app, <-(assoc_L (++)).
  assert ((length dst + length dst' =? cap) = (length dst' =? cap - length dst)) as ->.
  { destruct (Nat.eqb_spec (length dst + length dst') cap), (Nat.eqb_spec (length dst') (cap - length dst)); lia || done. }
  destruct res'; try done. intros (d & Hd & ->). exists (dst ++ d). rewrite (assoc_L (++)). split; [by apply prefix_app|done].
Qed.

Lemma convert_loop_result fuel : ∀ src cap s, always_noconv = false → length src ≤ fuel →
  (cap = 0 → src ≠ [] → next src ≠ Invalid) → loop_result src cap s (convert_loop fuel src cap s).
Proof.
  induction fuel as [|fuel IH]; intros src cap s Hno Hfuel H0.
  { destruct src; [|cbn in Hfuel; lia]. unfold loop_result. cbn. by rewrite app_nil_r. }
  destruct (decide (src = [])) as [-> |Hsrc]; [unfold loop_result; cbn; by rewrite app_nil_r|].
  rewrite convert_loop_step by done. destruct (Nat.eqb_spec (cap `min` converted_buffer_size) 0) as [Hz|Hz].
  { assert (cap = 0) as -> by (unfold converted_buffer_size in Hz; lia). specialize (H0 eq_refl Hsrc).
    unfold loop_result. rewrite conversion_unfold by done. destruct (next src) as [n out| |] eqn:Hn; [|by rewrite orb_true_r, app_nil_r|done].
    apply next_progress in Hn as [_ Ho]. destruct (Nat.leb_spec (length out) 0); [lia|]. by rewrite orb_true_r, app_nil_r. }
  pose proof (conversion_spec src (cap `min` converted_buffer_size)) as Hs.
  pose proof (conversion_split src (cap `min` converted_buffer_size) cap ltac:(lia)) as Hp.
  pose proof (conversion_stuck src cap Hsrc) as Hk.
  destruct (conversion src (cap `min` converted_buffer_size)) as [[res rest] dst].
  destruct Hs as (H1 & H2 & H3 & H4 & H5 & H6 & H7 & H8). destruct res; [| | |done].
  - sm_step. eapply (loop_result_step src cap rest dst); [lia|exact Hp|]. apply IH; [done|rewrite H6 by done; cbn; lia|auto].
  - destruct dst as [|d dst].
    + unfold loop_result. rewrite Hk, app_nil_r by done. rewrite bool_decide_false by done.
      cbn. by destruct cap.
    + sm_step. eapply (loop_result_step src cap rest (d :: dst)); [lia|exact Hp|]. specialize (H3 ltac:(done)). apply IH; [done|lia|auto].
  - unfold loop_result. rewrite Hp. exists []. rewrite app_nil_r. split; [apply prefix_nil|done].
Qed.

(** Sources of valid characters, and what they become. *)
Inductive converts : list Src → list Dst → Prop :=
  | converts_nil : converts [] []
  | converts_char src n out dst :
      src ≠ [] → next src = Char n out → converts (drop n src) dst → converts src (out ++ dst).

Lemma converts_conversion src dst cap : converts src dst → length dst ≤ cap →
  conversion src cap = (cv_ok, [], dst).
Proof.
  intros H. revert cap. induction H as [|src n out dst Hsrc Hn H IH]; intros cap Hle; [done|].
  rewrite length_app in Hle. rewrite conversion_unfold, Hn by done.
  destruct (Nat.leb_spec (length out) cap); [|lia]. by rewrite IH by lia.
Qed.

Lemma converts_no_error src dst cap : converts src dst →
  let '(res, rest, out) := conversion src cap in res ≠ cv_error ∧ out `prefix_of` dst.
Proof.
  intros H. revert cap. induction H as [|src n out dst Hsrc Hn H IH]; intros cap; [done|].
  rewrite conversion_unfold, Hn by done. destruct (length out <=? cap); [|split; [done|apply prefix_nil]].
  specialize (IH (cap - length out)). destruct (conversion _ _) as [[res rest] o]. destruct IH as [? ?].
  split; [done|by apply prefix_app].
Qed.

Lemma code_convert_result src dst cap s :
  always_noconv = false → converts src dst →
  let '(_, rest, out) := conversion src cap in
  code_convert src cap s =
    (if bool_decide (rest = []) || (length out =? cap)
     then (Ok (length src - length rest), s ++ out)
     else (Throw ex_conversion_error, s ++ out)) ∧
  out `prefix_of` dst ∧ length out ≤ cap ∧ (length dst ≤ cap → rest = [] ∧ out = dst).
Proof.
  intros Hno Hv. assert (cap = 0 → src ≠ [] → next src ≠ Invalid) as H0.
  { intros _ Hsrc. destruct Hv as [|src n out dst _ Hn _]; [done|]. by rewrite Hn. }
  pose proof (convert_loop_result (length src) src cap s Hno ltac:(done) H0) as H.
  pose proof (converts_no_error src dst cap Hv) as He. pose proof (conversion_spec src cap) as Hs.
  pose proof (converts_conversion src dst cap Hv) as Hf. unfold loop_result in H. unfold code_convert.
  rewrite sm_bind_run. destruct (conversion src cap) as [[res rest] out].
  destruct He as [He Hp]. split; [|split; [done|split; [apply Hs|]]].
  - destruct res; try done; destruct (_ || _); by rewrite H.
  - intros Hle. by specialize (Hf Hle) as [= -> -> ->].
Qed.

Lemma code_convert_fits src dst cap s : always_noconv = false → converts src dst → length dst ≤ cap →
  code_convert src cap s = (Ok (length src), s ++ dst).
Proof.
  intros Hno Hv Hle. pose proof (code_convert_result src dst cap s Hno Hv) as H.
  destruct (conversion src cap) as [[res rest] out]. destruct H as (-> & _ & _ & H). destruct (H Hle) as [-> ->].
  by rewrite bool_decide_true, Nat.sub_0_r.
Qed.

(** C24: conversion in pieces. [code_convert] goes through a buffer of 256 units;
    the result is that of a single call of the facet with the whole room. A valid
    source that fits is converted completely and the function reports its whole
    length. Otherwise the characters that fit are appended, and the function
    reports their length when they fill the room, and throws [conversion_error]
    when they do not: when a character of several units straddles the limit. *)
Theorem code_convert_buffered src dst cap s :
  always_noconv = false → converts src dst →
  let '(_, rest, out) := conversion src cap in
  code_convert src cap s =
    (if bool_decide (rest = []) || (length out =? cap)
     then (Ok (length src - length rest), s ++ out)
     else (Throw ex_conversion_error, s ++ out)) ∧
  out `prefix_of` dst ∧ length out ≤ cap ∧ (length dst ≤ cap → rest = [] ∧ out = dst).
Proof.
  exact (code_convert_result src dst cap s).
Qed.

Lemma convert_string_fits max src dst : always_noconv = false → converts src dst → length dst ≤ max →
  convert_string max src = Ok dst.
Proof.
  intros Hno Hv Hle. unfold convert_string, code_convert_impl. rewrite sm_bind_run.
  by rewrite (code_convert_fits src dst).
Qed.

End convert_lemmas.

(** * Conversion back *)

(** One facet converts back each character that the other one writes. *)
Class Inverse {A B : Type} (E : Encoding A B) (D : Encoding B A) : Prop :=
  inverse_next : ∀ (s : list A) n (out t : list B), s ≠ [] → next s = Char n out → next (out ++ t) = Char (length out) (take n s).

Section inverse.
Context {A B : Type} `{E : !Encoding A B, D : !Encoding B A, !Inverse E D}.

Lemma converts_back (src : list A) (dst : list B) : converts src dst → converts dst src.
Proof.
  induction 1 as [|src n out dst Hsrc Hn H IH]; [constructor|].
  pose proof (next_progress _ _ _ Hn) as [Hl Ho]. rewrite <-(take_drop n src).
  apply (converts_char _ (length out)); [intros [-> ->]%app_nil; cbn in Ho; lia| |].
  { exact (inverse_next (E := E) (D := D) src n out dst Hsrc Hn). }
  by rewrite drop_app_length.
Qed.

(** [to_narrow] and [to_wide]. A string of valid characters is converted
    completely and without error, and the conversion back restores it, when the
    facets are inverse to each other on characters and the strings fit. *)
Theorem convert_roundtrip max (src : list A) (dst : list B) :
  @always_noconv A B E = false → @always_noconv B A D = false →
  converts src dst → length src ≤ max → length dst ≤ max →
  convert_string max src = Ok dst ∧ convert_string max dst = Ok src.
Proof.
  intros HE HD Hv Hs Hd. split; apply convert_string_fits; try done. by apply converts_back.
Qed.

End inverse.

(** * UTF-8 *)

Module utf8.

(** A character of 32 bits and a byte. *)
Record wchar := W { code : Z }.
Record octet := B { bits : Z }.

#[export] Instance wchar_eq_dec : EqDecision wchar.
Proof. solve_decision. Defined.
#[export] Instance octet_eq_dec : EqDecision octet.
Proof. solve_decision. Defined.

Local Open Scope Z_scope.

Definition trail (c : Z) : octet := B (0x80 + c mod 64).

Definition next_out (s : list wchar) : next_char octet :=
  match s with
  | [] => Incomplete
  | W c :: _ =>
      if (c <? 0) || (0x10FFFF <? c) then Invalid
      else if c <? 0x80 then Char 1 [B c]
      else if c <? 0x800 then Char 1 [B (0xC0 + c / 64); trail c]
      else if c <? 0x10000 then Char 1 [B (0xE0 + c / 64 / 64); trail (c / 64); trail c]
      else Char 1 [B (0xF0 + c / 64 / 64 / 64); trail (c / 64 / 64); trail (c / 64); trail c]
  end.

Definition next_in (s : list octet) : next_char wchar :=
  match s with
  | [] => Incomplete
  | B b :: s =>
      if b <? 0x80 then Char 1 [W b]
      else if b <? 0xC0 then Invalid
      else if b <? 0xE0 then
        match s with B b1 :: _ => Char 2 [W ((b - 0xC0) * 64 + (b1 - 0x80))] | _ => Incomplete end
      else if b <? 0xF0 then
        match s with
        | B b1 :: B b2 :: _ => Char 3 [W (((b - 0xE0) * 64 + (b1 - 0x80)) * 64 + (b2 - 0x80))]
        | _ => Incomplete
        end
      else
        match s with
        | B b1 :: B b2 :: B b3 :: _ =>
            Char 4 [W ((((b - 0xF0) * 64 + (b1 - 0x80)) * 64 + (b2 - 0x80)) * 64 + (b3 - 0x80))]
        | _ => Incomplete
        end
  end.

#[export] Program Instance out : Encoding wchar octet :=
  {| always_noconv := false; as_is := λ c, B (code c); next := next_out |}.
Next Obligation.
  intros s n o. unfold next_out, converted_buffer_size. intros H.
  repeat (case_match; simplify_eq); cbn; lia.
Qed.

#[export] Program Instance inn : Encoding octet wchar :=
  {| always_noconv := false; as_is := λ b, W (bits b); next := next_in |}.
Next Obligation.
  intros s n o. unfold next_in, converted_buffer_size. intros H.
  repeat (case_match; simplify_eq); cbn; lia.
Qed.

#[export] Instance utf8_inverse : Inverse out inn.
Proof.
  intros s n o t _. destruct s as [|[c] s]; [done|]. cbn. unfold trail.
  repeat case_match; intros [= <- <-]; cbn; to_prop;
    repeat match goal with
           | |- context [?a <? ?b] => destruct (Z.ltb_spec a b); try (exfalso; Z.to_euclidean_division_equations; lia)
           end; do 3 f_equal; Z.to_euclidean_division_equations; lia.
Qed.

(** A string of five characters, of one to four bytes. *)
Definition text : list wchar := W <$> [0x41; 0xE9; 0x20AC; 0x1F600; 0x21].

Definition text_bytes : list octet :=
  B <$> [0x41; 0xC3; 0xA9; 0xE2; 0x82; 0xAC; 0xF0; 0x9F; 0x98; 0x80; 0x21].

Lemma text_converts : converts text text_bytes.
Proof.
  apply (converts_char text 1 [B 0x41]); [done..|]. apply (converts_char _ 1 [B 0xC3; B 0xA9]); [done..|].
  apply (converts_char _ 1 [B 0xE2; B 0x82; B 0xAC]); [done..|].
  apply (converts_char _ 1 [B 0xF0; B 0x9F; B 0x98; B 0x80]); [done..|].
  apply (converts_char _ 1 [B 0x21]); [done..|]. apply converts_nil.
Qed.

(** The whole text; room for its first three bytes; room that ends within the
    second character. *)
Lemma code_convert_buffered_witness :
  code_convert text 11 [] = (Ok 5%nat, text_bytes) ∧
  code_convert text 3 [] = (Ok 2%nat, take 3 text_bytes) ∧
  code_convert text 2 [] = (Throw ex_conversion_error, take 1 text_bytes).
Proof.
  pose proof (code_convert_buffered text text_bytes 11 [] eq_refl text_converts) as H1.
  pose proof (code_convert_buffered text text_bytes 3 [] eq_refl text_converts) as H2.
  pose proof (code_convert_buffered text text_bytes 2 [] eq_refl text_converts) as H3.
  vm_compute in H1, H2, H3. vm_compute.
  split; [apply H1|split; [apply H2|apply H3]].
Defined.

Lemma convert_roundtrip_witness :
  convert_string 100 text = Ok text_bytes ∧ convert_string 100 text_bytes = Ok text.
Proof. apply (convert_roundtrip 100 text text_bytes); [done|done|apply text_converts|vm_compute; lia..]. Defined.

End utf8.
