(* ===== verification/StreamBuf.v ===== *)
(** Formatting streams: the buffer that writes to an attached string of limited
    size (src/include/boost/log/detail/attachable_sstream_buf.hpp), the stream
    around it (src/include/boost/log/utility/formatting_ostream.hpp) and the
    formatter that limits the output of another one
    (src/include/boost/log/expressions/formatters/max_size_decorator.hpp).

    Characters that the standard stream classes put one by one collect in a
    buffer of 16 characters; strings are appended to the attached string. The
    string is cut when it reaches its maximum size, at the end of a complete
    character. *)

From Stdlib Require Import ZArith.
From stdpp Require Import base numbers list.
From S2P Require Import Prelude CodeConvert.

(** * Ends of characters *)

(** [length_until_boundary]: the length of the longest beginning of [s] with
    complete characters that has at most [max_size] units. For [char] it is
    computed by [std::codecvt::length] of the locale. *)
Class CharBoundary (char : Type) := {
  length_until_boundary : list char → nat → nat;
  boundary_le : ∀ s n, length_until_boundary s n ≤ n }.

(** Every unit is a character. *)
Class UnitBoundary (char : Type) `{!CharBoundary char} : Prop :=
  boundary_unit : ∀ (s : list char) n, n ≤ length s → length_until_boundary s n = n.

(** For [wchar_t] of 16 bits: leading surrogates at the end are left out. *)
Definition is_leading_surrogate (c : Z) : bool := (Z.land c 0xFC00 =? 0xD800)%Z.

Fixpoint utf16_boundary (s : list Z) (pos : nat) : nat :=
  match pos with
  | O => O
  | S pos' =>
      match s !! pos' with
      | Some c => if is_leading_surrogate c then utf16_boundary s pos' else S pos'
      | None => S pos'
      end
  end.

(** For [wchar_t] of 32 bits. *)
Definition utf32_boundary (s : list Z) (max_size : nat) : nat := max_size.

(** The largest [n] up to [pos] such that the first [n] units of [s] do not end
    with a leading surrogate. *)
Lemma utf16_boundary_spec s pos : pos ≤ length s →
  let n := utf16_boundary s pos in
  n ≤ pos ∧ (∀ c, last (take n s) = Some c → is_leading_surrogate c = false) ∧
  (∀ i c, n ≤ i < pos → s !! i = Some c → is_leading_surrogate c).
Proof.
  induction pos as [|pos IH]; intros Hle; cbn; [split; [lia|split; [done|lia]]|].
  destruct (s !! pos) as [c|] eqn:Hc; [|apply lookup_ge_None_1 in Hc; lia].
  destruct (is_leading_surrogate c) eqn:Hs.
  - destruct IH as (H1 & H2 & H3); [lia|]. split; [lia|]. split; [done|]. intros i d Hi Hd.
    destruct (decide (i = pos)) as [-> |]; [by simplify_eq; rewrite Hs|by apply (H3 i); [lia|]].
  - split; [done|]. split; [|lia]. intros d. erewrite take_S_r by done. rewrite last_snoc. congruence.
Qed.

Lemma utf16_boundary_le s n : utf16_boundary s n ≤ n.
Proof. induction n as [|n IH]; cbn; [done|]. repeat case_match; lia. Qed.

Section streambuf.
Context {char : Type} `{!CharBoundary char}.
(** [std::basic_string::max_size]. *)
Context (string_max_size : nat).

(** * The stream buffer *)

Definition buffer_size : nat := 16.

(** The state of [basic_ostringstreambuf]: the contents of the attached string,
    its limit, the overflow flag, and the characters in the put area. *)
Record streambuf := StreamBuf {
  storage : option (list char);
  max_size : nat;
  storage_overflow : bool;
  put_area : list char }.

Definition set_storage (s : list char) (b : streambuf) : streambuf :=
  StreamBuf (Some s) (max_size b) (storage_overflow b) (put_area b).
Definition set_overflow (f : bool) (b : streambuf) : streambuf :=
  StreamBuf (storage b) (max_size b) f (put_area b).
Definition set_put_area (s : list char) (b : streambuf) : streambuf :=
  StreamBuf (storage b) (max_size b) (storage_overflow b) s.

Definition new_streambuf : streambuf := StreamBuf None 0 false [].

(** The attached string; [BOOST_ASSERT(m_storage_state.storage != NULL)]. *)
Definition get_storage : sm streambuf (list char) :=
  b ← sm_get; sm_lift (of_ptr (storage b)).

Definition size_left : sm streambuf nat :=
  s ← get_storage;
  b ← sm_get;
  mret (if length s <? max_size b then max_size b - length s else 0).

(** [append(const char_type*, size_type)]. *)
Definition append (s : list char) : sm streambuf nat :=
  b ← sm_get;
  if storage_overflow b then mret 0
  else
    st ← get_storage;
    left ← size_left;
    if length s <=? left then sm_modify (set_storage (st ++ s));; mret (length s)
    else
      let left := length_until_boundary s left in
      sm_modify (set_storage (st ++ take left s));;
      sm_modify (set_overflow true);;
      mret left.

(** [append(size_type, char_type)]. *)
Definition append_fill (n : nat) (c : char) : sm streambuf nat :=
  b ← sm_get;
  if storage_overflow b then mret 0
  else
    st ← get_storage;
    left ← size_left;
    if n <=? left then sm_modify (set_storage (st ++ replicate n c));; mret n
    else
      sm_modify (set_storage (st ++ replicate left c));;
      sm_modify (set_overflow true);;
      mret left.

Definition push_back (c : char) : sm streambuf nat :=
  b ← sm_get;
  if storage_overflow b then mret 0
  else
    st ← get_storage;
    if length st <? max_size b then sm_modify (set_storage (st ++ [c]));; mret 1
    else sm_modify (set_overflow true);; mret 0.

(** [sync]. *)
Definition sync : sm streambuf unit :=
  b ← sm_get;
  match put_area b with
  | [] => mret ()
  | s => append s;; sm_modify (set_put_area [])
  end.

(** [overflow] with a character. *)
Definition overflow (c : char) : sm streambuf unit := sync;; push_back c;; mret ().

(** [std::basic_streambuf::sputc]. *)
Definition sputc (c : char) : sm streambuf unit :=
  b ← sm_get;
  if length (put_area b) <? buffer_size then sm_modify (set_put_area (put_area b ++ [c])) else overflow c.

Definition xsputn (s : list char) : sm streambuf nat := sync;; append s.

Definition ensure_max_size : sm streambuf unit :=
  b ← sm_get;
  match storage b with
  | Some s =>
      if max_size b <? length s then
        let len := length_until_boundary s (max_size b) in
        sm_modify (set_storage (take len s));; sm_modify (set_overflow true)
      else mret ()
  | None => mret ()
  end.

(** [max_size(size_type)]. *)
Definition set_max_size (size : nat) : sm streambuf unit :=
  b ← sm_get;
  let size := match storage b with
              | Some _ => if string_max_size <? size then string_max_size else size
              | None => size
              end in
  sm_modify (λ b, StreamBuf (storage b) size (storage_overflow b) (put_area b));;
  ensure_max_size.

(** [detach]; the result is the contents of the string. *)
Definition detach : sm streambuf (option (list char)) :=
  b ← sm_get;
  match storage b with
  | Some _ =>
      sync;;
      b ← sm_get;
      sm_modify (λ b, StreamBuf None 0 false (put_area b));;
      mret (storage b)
  | None => mret None
  end.

(** [attach(string_type&, size_type)]. *)
Definition attach (s : list char) (size : nat) : sm streambuf unit :=
  detach;;
  sm_modify (set_storage s);;
  set_max_size size.

(** * The formatting stream *)

(** [basic_formatting_ostream]: the buffer, and the state and format of the
    standard stream. *)
Record stream := Stream {
  sb : streambuf;
  good : bool;
  width : nat;
  fill : char;
  align_left : bool }.

Definition with_sb (b : streambuf) (s : stream) : stream := Stream b (good s) (width s) (fill s) (align_left s).
Definition set_good (g : bool) (s : stream) : stream := Stream (sb s) g (width s) (fill s) (align_left s).
Definition set_width (n : nat) (s : stream) : stream := Stream (sb s) (good s) n (fill s) (align_left s).
Definition set_fill (c : char) (s : stream) : stream := Stream (sb s) (good s) (width s) c (align_left s).
Definition set_align (l : bool) (s : stream) : stream := Stream (sb s) (good s) (width s) (fill s) l.

(** Code of the buffer, in code of the stream. *)
Definition on_buf {X} (m : sm streambuf X) : sm stream X := λ s,
  let (r, b) := m (sb s) in (r, with_sb b s).

(** [init_stream]: the constructors. *)
Definition new_stream (space : char) : stream := Stream new_streambuf false 0 space false.

Definition stream_attach (s : list char) : sm stream unit :=
  on_buf (attach s string_max_size);; sm_modify (set_good true).

Definition stream_detach : sm stream (option (list char)) :=
  s ← on_buf detach; sm_modify (set_good false);; mret s.

(** [std::ostream::flush], [put] and [write]: nothing is done when the stream
    is not good; a short write makes it bad. *)
Definition stream_flush : sm stream unit :=
  s ← sm_get; if good s then on_buf sync else mret ().

Definition stream_put (c : char) : sm stream unit :=
  s ← sm_get; if good s then on_buf (sputc c) else mret ().

Definition stream_write (p : list char) : sm stream unit :=
  s ← sm_get;
  if good s then
    n ← on_buf (xsputn p);
    if n =? length p then mret () else sm_modify (set_good false)
  else mret ().

(** [str]. *)
Definition stream_str : sm stream (list char) :=
  _ ← on_buf get_storage; on_buf sync;; on_buf get_storage.

Definition aligned_write (p : list char) : sm stream unit :=
  s ← sm_get;
  let alignment_size := width s - length p in
  if align_left s then on_buf (append p);; on_buf (append_fill alignment_size (fill s));; mret ()
  else on_buf (append_fill alignment_size (fill s));; on_buf (append p);; mret ().

(** [operator<<] for strings and characters. *)
Definition formatted_write (p : list char) : sm stream unit :=
  s ← sm_get;
  if good s then
    stream_flush;;
    (if width s <=? length p then on_buf (append p);; mret () else aligned_write p);;
    sm_modify (set_width 0)
  else mret ().

(** ** Strings of other character types *)

Section other.
Context {other : Type}.
(** The overload of [code_convert] for the character types, and the locale. *)
Context (code_convert : list other → nat → sm (list char) bool).

(** The conversion, into the attached string. *)
Definition append_converted (p : list other) : sm streambuf unit :=
  b ← sm_get;
  if storage_overflow b then mret ()
  else
    st ← get_storage;
    let (r, st) := code_convert p (max_size b) st in
    sm_modify (set_storage st);;
    r ← sm_lift r;
    if (r : bool) then mret () else sm_modify (set_overflow true).

(** [write(const OtherCharT*, std::streamsize)]. *)
Definition stream_write_other (p : list other) : sm stream unit :=
  s ← sm_get;
  if good s then stream_flush;; on_buf (append_converted p) else mret ().

Definition aligned_write_other (p : list other) : sm stream unit :=
  s ← sm_get;
  let alignment_size := width s - length p in
  if align_left s then on_buf (append_converted p);; on_buf (append_fill alignment_size (fill s));; mret ()
  else on_buf (append_fill alignment_size (fill s));; on_buf (append_converted p).

Definition formatted_write_other (p : list other) : sm stream unit :=
  s ← sm_get;
  if good s then
    stream_flush;;
    (if width s <=? length p then on_buf (append_converted p) else aligned_write_other p);;
    sm_modify (set_width 0)
  else mret ().

End other.

(** * The size limiting decorator *)

(** After the decorated formatter: the marker, and the old limit. *)
Definition finish_limited (old_max_size : nat) (marker : list char) : sm stream unit :=
  stream_flush;;
  s ← sm_get;
  (if storage_overflow (sb s) then
     match marker with
     | [] => on_buf (sm_modify (set_overflow false))
     | _ =>
         on_buf (set_max_size (max_size (sb s) - length marker));;
         on_buf (set_max_size string_max_size);;
         on_buf (sm_modify (set_overflow false));;
         on_buf (append marker);; mret ()
     end
   else mret ());;
  on_buf (set_max_size old_max_size).

(** The handler. *)
Definition restore_limit (old_max_size : nat) : sm stream unit :=
  on_buf (sm_modify (set_overflow false));; on_buf (set_max_size old_max_size).

(** [max_size_decorator_output_terminal::operator()] around a formatter. *)
Definition max_size_decorator (limit : nat) (marker : list char) (subactor : sm stream unit) : sm stream unit :=
  stream_flush;;
  s ← sm_get;
  if storage_overflow (sb s) then mret ()
  else
    let old_max_size := max_size (sb s) in
    st ← on_buf get_storage;
    let start_pos := length st in
    let max_size_left := string_max_size - start_pos in
    on_buf (set_max_size (start_pos + (if limit <=? max_size_left then limit else max_size_left)));;
    sm_catch (subactor;; finish_limited old_max_size marker) (λ e, restore_limit old_max_size;; sm_throw e).

(** * Programs that write to a stream *)

(** Output operations: [strm << std::setw(w) << std::setfill(c) << std::left << p]
    (or [std::right]), [strm.put(c)], [strm.write(p, n)] and [strm.flush()]. *)
Inductive stream_op :=
  | op_text (w : nat) (c : char) (l : bool) (p : list char)
  | op_put (c : char)
  | op_write (p : list char)
  | op_flush.

Definition run_op (o : stream_op) : sm stream unit :=
  match o with
  | op_text w c l p =>
      sm_modify (set_width w);; sm_modify (set_fill c);; sm_modify (set_align l);; formatted_write p
  | op_put c => stream_put c
  | op_write p => stream_write p
  | op_flush => stream_flush
  end.

(** Formatters: output operations one after another, with parts of limited
    size. *)
Inductive formatter :=
  | fmt_op (o : stream_op)
  | fmt_seq (f g : formatter)
  | fmt_max_size (limit : nat) (marker : list char) (f : formatter).

Fixpoint run_formatter (f : formatter) : sm stream unit :=
  match f with
  | fmt_op o => run_op o
  | fmt_seq f g => run_formatter f;; run_formatter g
  | fmt_max_size limit marker f => max_size_decorator limit marker (run_formatter f)
  end.

(** ** Their text *)

Definition padded (w : nat) (c : char) (l : bool) (p : list char) : list char :=
  let pad := replicate (w - length p) c in if l then p ++ pad else pad ++ p.

Definition op_output (o : stream_op) : list char :=
  match o with
  | op_text w c l p => padded w c l p
  | op_put c => [c]
  | op_write p => p
  | op_flush => []
  end.

(** A text limited to [limit] characters, the last of them the marker when it
    is cut. *)
Definition limited (limit : nat) (marker t : list char) : list char :=
  if length t <=? limit then t else take (limit - length marker) t ++ marker.

Fixpoint output (f : formatter) : list char :=
  match f with
  | fmt_op o => op_output o
  | fmt_seq f g => output f ++ output g
  | fmt_max_size limit marker f => limited limit marker (output f)
  end.

(** The markers fit in their limits ([BOOST_ASSERT] in the constructor), and no
    unformatted [write] is used. *)
Fixpoint formatter_ok (f : formatter) : Prop :=
  match f with
  | fmt_op (op_write _) => False
  | fmt_op _ => True
  | fmt_seq f g => formatter_ok f ∧ formatter_ok g
  | fmt_max_size limit marker f => length marker ≤ limit ∧ formatter_ok f
  end.

(** An upper bound of the room in the string that a formatter uses. *)
Fixpoint room (f : formatter) : nat :=
  match f with
  | fmt_op o => length (op_output o)
  | fmt_seq f g => room f + room g
  | fmt_max_size limit _ f => limit + room f
  end.

(** * The text in a buffer *)

(** [st] is [total] cut at the limit [mx]: at the end of the last complete
    character, within the limit, of the piece that crosses it. *)
Definition cut (mx : nat) (total st : list char) : Prop :=
  ∃ s piece rest, total = s ++ piece ++ rest ∧ length s ≤ mx < length s + length piece ∧
    (st = s ++ take (length_until_boundary piece (mx - length s)) piece ∨ st = take mx total).

(** The buffer has been given the text [total], under the limit [mx]. *)
Definition holds (mx : nat) (total : list char) (b : streambuf) : Prop :=
  max_size b = mx ∧ length (put_area b) ≤ buffer_size ∧
  ∃ st, storage b = Some st ∧
    if storage_overflow b then cut mx total st
    else st ++ put_area b = total ∧ length st ≤ mx.

Lemma cut_app mx total st t : cut mx total st → cut mx (total ++ t) st.
Proof.
  intros (s & piece & rest & -> & Hl & Hst). exists s, piece, (rest ++ t). rewrite <-!(assoc_L (++)).
  split; [done|]. split; [done|]. destruct Hst as [Hst|Hst]; [by left|right].
  rewrite Hst, !(assoc_L (++)). symmetry. apply take_app_le. rewrite !length_app. lia.
Qed.

Lemma cut_length mx total st : cut mx total st → length st ≤ mx < length total.
Proof.
  intros (s & piece & rest & -> & Hl & Hst). rewrite !length_app. split; [|lia].
  destruct Hst as [->| ->]; rewrite ?length_app, length_take; [|lia].
  pose proof (boundary_le piece (mx - length s)). lia.
Qed.

Lemma cut_prefix mx total st : cut mx total st → st `prefix_of` total.
Proof.
  intros (s & piece & rest & -> & Hl & [->| ->]); [|apply prefix_take].
  apply prefix_app. apply prefix_app_r, prefix_take.
Qed.

Lemma cut_unit `{!UnitBoundary char} mx total st : cut mx total st → st = take mx total.
Proof.
  intros (s & piece & rest & -> & Hl & [->| ->]); [|done]. rewrite boundary_unit by lia.
  rewrite (take_app_ge s), (take_app_le piece); [done|lia..].
Qed.

(** ** Runs of the buffer's operations *)

Definition full (st : list char) mx ov pa : streambuf := StreamBuf (Some st) mx ov pa.

Lemma get_storage_run st mx ov pa : get_storage (full st mx ov pa) = (Ok st, full st mx ov pa).
Proof. done. Qed.

Lemma size_left_run st mx ov pa : size_left (full st mx ov pa) = (Ok (mx - length st), full st mx ov pa).
Proof.
  unfold size_left. sm_step. rewrite get_storage_run. sm_step. unfold full; cbn [max_size].
  destruct (Nat.ltb_spec (length st) mx); [done|]. by replace (mx - length st) with 0 by lia.
Qed.

Lemma append_run s st mx pa :
  append s (full st mx false pa) =
  if length s <=? mx - length st then (Ok (length s), full (st ++ s) mx false pa)
  else (Ok (length_until_boundary s (mx - length st)),
        full (st ++ take (length_until_boundary s (mx - length st)) s) mx true pa).
Proof.
  unfold append. sm_step. cbn [full storage_overflow]. sm_step. rewrite get_storage_run.
  sm_step. rewrite size_left_run. by destruct (length s <=? mx - length st).
Qed.

Lemma append_fill_run n c st mx pa :
  append_fill n c (full st mx false pa) =
  if n <=? mx - length st then (Ok n, full (st ++ replicate n c) mx false pa)
  else (Ok (mx - length st), full (st ++ replicate (mx - length st) c) mx true pa).
Proof.
  unfold append_fill. sm_step. cbn [full storage_overflow]. sm_step. rewrite get_storage_run.
  sm_step. rewrite size_left_run. by destruct (n <=? mx - length st).
Qed.

Lemma holds_intro mx total st (ov : bool) :
  (if ov then cut mx total st else st = total ∧ length st ≤ mx) → holds mx total (full st mx ov []).
Proof.
  intros H. split; [done|]. split; [cbn; lia|]. exists st. split; [done|]. cbn. destruct ov; [done|].
  by rewrite app_nil_r.
Qed.

Lemma holds_elim mx total st (ov : bool) :
  holds mx total (full st mx ov []) → if ov then cut mx total st else st = total ∧ length st ≤ mx.
Proof. intros (_ & _ & st0 & [= <-] & H). cbn in H. by rewrite app_nil_r in H. Qed.

(** A run that gives the buffer [t], with an empty put area. *)
Definition emits {X} (t : list char) (m : sm streambuf X) : Prop :=
  ∀ mx total st ov, holds mx total (full st mx ov []) →
  ∃ x st' ov', m (full st mx ov []) = (Ok x, full st' mx ov' []) ∧ holds mx (total ++ t) (full st' mx ov' []).

Lemma emits_cut {X} t (m : sm streambuf X) :
  (∀ st mx, ∃ x, m (full st mx true []) = (Ok x, full st mx true [])) →
  (∀ st mx, length st ≤ mx → ∃ x st' ov', m (full st mx false []) = (Ok x, full st' mx ov' []) ∧
      if (ov' : bool) then cut mx (st ++ t) st' else st' = st ++ t ∧ length st' ≤ mx) →
  emits t m.
Proof.
  intros Hov Hm mx total st ov H%holds_elim. destruct ov.
  - destruct (Hov st mx) as (x & ->). exists x, st, true. split; [done|]. by apply holds_intro, cut_app.
  - destruct H as [-> Hle]. destruct (Hm total mx Hle) as (x & st' & ov' & -> & H). exists x, st', ov'.
    split; [done|]. by apply holds_intro.
Qed.

Lemma emits_append s : emits s (append s).
Proof.
  apply emits_cut; [by eexists|]. intros st mx Hle. rewrite append_run.
  destruct (Nat.leb_spec (length s) (mx - length st)); do 3 eexists; (split; [done|]); cbn.
  - rewrite length_app. split; [done|lia].
  - exists st, s, []. rewrite app_nil_r. split; [done|]. split; [lia|by left].
Qed.

Lemma emits_fill n c : emits (replicate n c) (append_fill n c).
Proof.
  apply emits_cut; [by eexists|]. intros st mx Hle. rewrite append_fill_run.
  destruct (Nat.leb_spec n (mx - length st)); do 3 eexists; (split; [done|]); cbn.
  - rewrite length_app, length_replicate. split; [done|lia].
  - exists st, (replicate n c), []. rewrite app_nil_r, length_replicate. split; [done|]. split; [lia|right].
    by rewrite take_app_ge, take_replicate, Nat.min_l by lia.
Qed.

Lemma emits_push_back c : emits [c] (push_back c).
Proof.
  apply emits_cut; [by eexists|]. intros st mx Hle. unfold push_back. sm_step. cbn [full storage_overflow].
  sm_step. rewrite get_storage_run. cbn [full max_size].
  destruct (Nat.ltb_spec (length st) mx); do 3 eexists; (split; [done|]); cbn.
  - rewrite length_app. cbn. split; [done|lia].
  - exists st, [c], []. cbn. split; [done|]. split; [lia|right]. by rewrite take_app_le, take_ge by lia.
Qed.

Lemma holds_full mx total b : holds mx total b → ∃ st ov pa, b = full st mx ov pa.
Proof. destruct b as [s m ov pa]. intros (<- & _ & st & Hst & _). cbn in *. subst. by exists st, ov, pa. Qed.

Lemma holds_sync mx total b : holds mx total b →
  ∃ st ov, sync b = (Ok (), full st mx ov []) ∧ holds mx total (full st mx ov []) ∧
    (storage_overflow b → ov).
Proof.
  intros H. destruct (holds_full _ _ _ H) as (st & ov & pa & ->). destruct H as (_ & _ & st0 & [= <-] & H).
  unfold sync. sm_step. cbn [full put_area]. destruct pa as [|c pa].
  { exists st, ov. split; [done|]. split; [|done]. apply holds_intro. cbn in H. by rewrite app_nil_r in H. }
  sm_step. unfold full in *; cbn [storage_overflow put_area] in H. destruct ov.
  - exists st, true. split; [done|]. split; [|done]. by apply holds_intro.
  - fold (full st mx false (c :: pa)). rewrite append_run. destruct H as [Ht Hle].
    destruct (Nat.leb_spec (length (c :: pa)) (mx - length st)).
    + exists (st ++ c :: pa), false. split; [done|]. split; [|done]. apply holds_intro.
      split; [done|]. rewrite length_app. lia.
    + eexists _, true. split; [done|]. split; [|done]. apply holds_intro.
      exists st, (c :: pa), []. rewrite app_nil_r. split; [done|]. split; [lia|by left].
Qed.

Lemma holds_overflowed mx total t b :
  holds mx total b → storage_overflow b → holds mx (total ++ t) b.
Proof.
  intros (? & ? & st & ? & H) Hov. split; [done|]. split; [done|]. exists st. split; [done|].
  destruct (storage_overflow b); [|done]. by apply cut_app.
Qed.

Lemma emits_bind {X Y} t u (m : sm streambuf X) (k : sm streambuf Y) :
  emits t m → emits u k → emits (t ++ u) (m;; k).
Proof.
  intros Hm Hk mx total st ov H. destruct (Hm _ _ _ _ H) as (x & st1 & ov1 & E1 & H1).
  destruct (Hk _ _ _ _ H1) as (y & st2 & ov2 & E2 & H2). exists y, st2, ov2.
  rewrite sm_bind_run, E1. cbn. by rewrite (assoc_L (++)).
Qed.

Lemma emits_ret {X} (x : X) : emits [] (mret x).
Proof. intros mx total st ov H. exists x, st, ov. by rewrite app_nil_r. Qed.

(** Code that first writes out the put area. *)
Lemma sync_emits {X} t (m : sm streambuf X) mx total b :
  emits t m → holds mx total b →
  ∃ x st ov, (sync;; m) b = (Ok x, full st mx ov []) ∧ holds mx (total ++ t) (full st mx ov []).
Proof.
  intros Hm H. destruct (holds_sync _ _ _ H) as (st & ov & E & H1 & _).
  destruct (Hm _ _ _ _ H1) as (x & st' & ov' & E' & H2). exists x, st', ov'. split; [|done].
  by rewrite sm_bind_run, E.
Qed.

Lemma holds_sputc mx total c b : holds mx total b → ∃ b', sputc c b = (Ok (), b') ∧ holds mx (total ++ [c]) b'.
Proof.
  intros H. unfold sputc. sm_step. destruct (Nat.ltb_spec (length (put_area b)) buffer_size).
  - eexists. split; [done|]. destruct H as (Hm & Hp & st & Hst & H). split; [done|].
    split; [cbn; rewrite length_app; cbn; lia|]. exists st. split; [done|]. cbn.
    destruct (storage_overflow b); [by apply cut_app|]. destruct H as [<- Hle]. by rewrite (assoc_L (++)).
  - destruct (sync_emits [c] (push_back c;; mret ()) mx total b) as ([] & st & ov & E & H'); [|done|].
    + rewrite <-(app_nil_r [c]). apply emits_bind; [apply emits_push_back|apply emits_ret].
    + exists (full st mx ov []). by split.
Qed.

Lemma append_short s st mx ov pa n b' :
  append s (full st mx ov pa) = (Ok n, b') → n = length s ∨ storage_overflow b'.
Proof.
  destruct ov; [intros [= <- <-]; by right|]. rewrite append_run.
  destruct (length s <=? mx - length st); intros [= <- <-]; [by left|by right].
Qed.

(** ** Runs of the stream's operations *)

(** A stream that is not good any more has overflowed. *)
Definition stream_holds (mx : nat) (total : list char) (s : stream) : Prop :=
  holds mx total (sb s) ∧ (good s ∨ storage_overflow (sb s)).

Lemma on_buf_run {X} (m : sm streambuf X) s r b :
  m (sb s) = (r, b) → on_buf m s = (r, with_sb b s).
Proof. intros E. unfold on_buf. by rewrite E. Qed.

Lemma stream_flush_run mx total s : good s → holds mx total (sb s) →
  ∃ st ov, stream_flush s = (Ok (), with_sb (full st mx ov []) s) ∧ holds mx total (full st mx ov []) ∧
    (storage_overflow (sb s) → ov).
Proof.
  intros Hg H. destruct (holds_sync _ _ _ H) as (st & ov & E & H' & Hov). exists st, ov. split; [|done].
  unfold stream_flush. sm_step. destruct (good s); [|done]. by apply on_buf_run.
Qed.

(** Code that does nothing unless the stream is good. *)
Lemma bad_holds mx total t s : stream_holds mx total s → good s = false → stream_holds mx (total ++ t) s.
Proof. intros [H Hs] Hg. destruct Hs as [Hs|Hs]; [by rewrite Hg in Hs|]. split; [by apply holds_overflowed|by right]. Qed.

Lemma put_holds mx total c s : stream_holds mx total s →
  ∃ s', stream_put c s = (Ok (), s') ∧ stream_holds mx (total ++ [c]) s' ∧ good s' = good s.
Proof.
  intros Hs. unfold stream_put. sm_step. destruct (good s) eqn:Hg; [|by eauto using bad_holds].
  destruct (holds_sputc mx total c (sb s) (proj1 Hs)) as (b & E & H).
  exists (with_sb b s). split; [by apply on_buf_run|]. split; [|done]. split; [done|left; cbn; by rewrite Hg].
Qed.

Lemma flush_holds mx total s : stream_holds mx total s →
  ∃ s', stream_flush s = (Ok (), s') ∧ stream_holds mx total s' ∧ good s' = good s.
Proof.
  intros Hs. destruct (good s) eqn:Hg.
  - destruct (stream_flush_run mx total s) as (st & ov & E & H & _); [by rewrite Hg|apply Hs|].
    eexists. split; [done|]. split; [|done]. split; [done|left; cbn; by rewrite Hg].
  - exists s. split; [|done]. unfold stream_flush. sm_step. by rewrite Hg.
Qed.

Lemma write_holds mx total p s : stream_holds mx total s →
  ∃ s', stream_write p s = (Ok (), s') ∧ stream_holds mx (total ++ p) s'.
Proof.
  intros Hs. unfold stream_write. sm_step. destruct (good s) eqn:Hg; [|by eauto using bad_holds].
  destruct (holds_sync _ _ _ (proj1 Hs)) as (st & ov & E & H & _).
  destruct (emits_append p mx total st ov H) as (n & st' & ov' & E' & H').
  sm_step. erewrite on_buf_run; [|unfold xsputn; rewrite sm_bind_run, E; exact E'].
  destruct (append_short _ _ _ _ _ _ _ E') as [-> |Hov].
  - rewrite Nat.eqb_refl. eexists. split; [done|]. split; [done|left; cbn; by rewrite Hg].
  - destruct (n =? length p); (eexists; split; [done|]); by (split; [done|right]).
Qed.

Lemma aligned_write_run mx total p s st ov :
  sb s = full st mx ov [] → holds mx total (sb s) →
  ∃ st' ov', aligned_write p s = (Ok (), with_sb (full st' mx ov' []) s) ∧
    holds mx (total ++ padded (width s) (fill s) (align_left s) p) (full st' mx ov' []).
Proof.
  intros Hb H. unfold aligned_write, padded. sm_step. rewrite Hb in H.
  destruct (align_left s); rewrite (assoc_L (++)).
  - destruct (emits_append p _ _ _ _ H) as (x & st1 & ov1 & E1 & H1).
    destruct (emits_fill (width s - length p) (fill s) _ _ _ _ H1) as (y & st2 & ov2 & E2 & H2).
    exists st2, ov2. split; [|done]. sm_step. erewrite on_buf_run by (by rewrite Hb).
    sm_step. by erewrite on_buf_run by exact E2.
  - destruct (emits_fill (width s - length p) (fill s) _ _ _ _ H) as (x & st1 & ov1 & E1 & H1).
    destruct (emits_append p _ _ _ _ H1) as (y & st2 & ov2 & E2 & H2).
    exists st2, ov2. split; [|done]. sm_step. erewrite on_buf_run by (by rewrite Hb).
    sm_step. by erewrite on_buf_run by exact E2.
Qed.

Lemma padded_narrow w c l p : w ≤ length p → padded w c l p = p.
Proof. intros H. unfold padded. replace (w - length p) with 0 by lia. destruct l; [by rewrite app_nil_r|done]. Qed.

Lemma formatted_write_holds mx total p s : stream_holds mx total s →
  ∃ s', formatted_write p s = (Ok (), s') ∧
    stream_holds mx (total ++ padded (width s) (fill s) (align_left s) p) s' ∧ good s' = good s.
Proof.
  intros Hs. unfold formatted_write. sm_step. destruct (good s) eqn:Hg; [|by eauto using bad_holds].
  destruct (stream_flush_run mx total s) as (st & ov & E & H & _); [by rewrite Hg|apply Hs|].
  sm_step. rewrite E. sm_step. destruct (Nat.leb_spec (width s) (length p)) as [Hw|Hw].
  - destruct (emits_append p _ _ _ _ H) as (x & st1 & ov1 & E1 & H1).
    rewrite sm_bind_run. erewrite on_buf_run by exact E1. eexists. split; [done|].
    rewrite padded_narrow by done. split; [|done]. split; [done|left; cbn; by rewrite Hg].
  - destruct (aligned_write_run mx total p (with_sb (full st mx ov []) s) st ov) as (st1 & ov1 & E1 & H1); [done..|].
    rewrite E1. eexists. split; [done|]. split; [|done]. split; [done|left; cbn; by rewrite Hg].
Qed.

Lemma run_op_holds mx total o s : stream_holds mx total s →
  ∃ s', run_op o s = (Ok (), s') ∧ stream_holds mx (total ++ op_output o) s' ∧
    (match o with op_write _ => True | _ => good s' = good s end).
Proof.
  intros Hs. destruct o as [w c l p|c|p|]; cbn [run_op op_output].
  - do 3 sm_step. by apply (formatted_write_holds mx total p (set_align l (set_fill c (set_width w s)))).
  - by apply put_holds.
  - destruct (write_holds mx total p s Hs) as (s' & E & H). by exists s'.
  - rewrite app_nil_r. by apply flush_holds.
Qed.

Definition run_ops (os : list stream_op) : sm stream unit := foldr (λ o k, run_op o;; k) (mret ()) os.

Lemma run_ops_holds mx total os s : stream_holds mx total s →
  ∃ s', run_ops os s = (Ok (), s') ∧ stream_holds mx (total ++ mjoin (op_output <$> os)) s'.
Proof.
  revert total s. induction os as [|o os IH]; intros total s Hs; cbn.
  { exists s. by rewrite app_nil_r. }
  destruct (run_op_holds mx total o s Hs) as (s1 & E & H1 & _). rewrite sm_bind_run, E. cbn.
  destruct (IH _ _ H1) as (s2 & E2 & H2). exists s2. by rewrite (assoc_L (++)).
Qed.

Lemma str_holds mx total s : holds mx total (sb s) →
  ∃ text s', stream_str s = (Ok text, s') ∧
    (storage (sb s') = Some text ∧ max_size (sb s') = mx ∧ good s' = good s) ∧
    if length total <=? mx then text = total ∧ storage_overflow (sb s') = false
    else cut mx total text ∧ storage_overflow (sb s') = true.
Proof.
  intros H. destruct (holds_full _ _ _ H) as (st0 & ov0 & pa0 & Hb).
  destruct (holds_sync _ _ _ H) as (st & ov & E & H' & _). unfold stream_str.
  exists st, (with_sb (full st mx ov []) s).
  rewrite sm_bind_run. erewrite on_buf_run by (rewrite Hb; apply get_storage_run). rewrite <-Hb.
  rewrite sm_bind_run. erewrite on_buf_run by exact E. split; [done|]. split; [done|]. cbn.
  apply holds_elim in H'. destruct ov.
  - pose proof (cut_length _ _ _ H'). destruct (Nat.leb_spec (length total) mx); [lia|done].
  - destruct H' as [-> Hle]. apply Nat.leb_le in Hle. by rewrite Hle.
Qed.

(** Output through a formatting stream. Whatever sequence of formatted
    strings (with widths, fill characters and alignments), characters,
    unformatted writes and flushes a program sends to an attached stream, no
    operation fails, and [str] then returns the text written, in order, when it
    fits in the limit. Otherwise it returns a beginning of it within the limit,
    cut in the piece that crosses the limit, and the overflow is noted. *)
Theorem stream_text mx start os s :
  stream_holds mx start s →
  let total := start ++ mjoin (op_output <$> os) in
  ∃ text s', (run_ops os;; stream_str) s = (Ok text, s') ∧ storage (sb s') = Some text ∧
    if length total <=? mx then text = total ∧ storage_overflow (sb s') = false
    else cut mx total text ∧ text `prefix_of` total ∧ length text ≤ mx ∧ storage_overflow (sb s') = true.
Proof.
  intros Hs total. destruct (run_ops_holds mx start os s Hs) as (s1 & E & H1 & _).
  destruct (str_holds _ _ _ H1) as (text & s2 & E2 & (Hst & _) & H2). exists text, s2.
  split; [by rewrite sm_bind_run, E|]. split; [done|]. fold total in H2.
  destruct (length total <=? mx); [done|]. destruct H2 as [Hcut Hov]. split; [done|].
  split; [by eapply cut_prefix|]. split; [by eapply cut_length|done].
Qed.

(** ** Strings of other character types *)

(** Characters of the same size are appended up to the limit. *)
Lemma emits_same {other} (cast : other → char) p : emits (cast <$> p) (append_converted (code_convert_same cast) p).
Proof.
  apply emits_cut; [by eexists|]. intros st mx Hle. unfold append_converted. sm_step. cbn [full storage_overflow].
  sm_step. rewrite get_storage_run. cbn [full max_size]. rewrite code_convert_same_run. do 2 sm_step.
  destruct (Nat.leb_spec (length p) (mx - length st)); do 3 eexists; (split; [done|]); cbn.
  - rewrite take_ge by lia. rewrite length_app, length_fmap. split; [done|lia].
  - exists st, (cast <$> p), []. rewrite app_nil_r, length_fmap. split; [done|]. split; [lia|right].
    by rewrite take_app_ge, fmap_take by lia.
Qed.

(** Other conversions: the limit of the whole string is taken for the room. *)
Lemma append_converted_run {other} `{!Encoding other char} p dst mx st pa :
  always_noconv = false → converts p dst → length dst ≤ mx →
  append_converted code_convert_impl p (full st mx false pa) = (Ok (), full (st ++ dst) mx false pa).
Proof.
  intros Hno Hv Hle. unfold append_converted. sm_step. cbn [full storage_overflow]. sm_step. rewrite get_storage_run.
  unfold code_convert_impl. cbn [full max_size]. rewrite sm_bind_run, (code_convert_fits p dst) by done.
  cbn [mret sm_ret]. rewrite Nat.eqb_refl. done.
Qed.

(** The size limit is not applied to converted strings. A string of another
    character size is appended completely whenever its conversion alone is
    within the limit of the attached string, whatever that string already
    holds: the contents may reach twice the limit, and no overflow is noted. *)
Theorem converted_limit_ignored {other} `{!Encoding other char} p dst mx start s :
  always_noconv = false → converts p dst → length dst ≤ mx → length start ≤ mx →
  good s → holds mx start (sb s) → width s ≤ length p →
  ∃ s', formatted_write_other code_convert_impl p s = (Ok (), s') ∧ good s' ∧
    storage (sb s') = Some (start ++ dst) ∧ storage_overflow (sb s') = false.
Proof.
  intros Hno Hv Hle Hst Hg H Hw. unfold formatted_write_other. sm_step.
  destruct (good s) eqn:Hg'; [|done]. destruct (stream_flush_run mx start s) as (st & ov & E & H1 & _); [by rewrite Hg'|done|].
  sm_step. rewrite E. apply Nat.leb_le in Hw. rewrite Hw, sm_bind_run. apply holds_elim in H1.
  destruct ov; [apply cut_length in H1; lia|]. destruct H1 as [-> _].
  erewrite on_buf_run by (by apply append_converted_run). eexists. split; [done|]. cbn. by rewrite Hg'.
Qed.

(** ** Formatters with parts of limited size *)

Section unit_boundary.
Context `{!UnitBoundary char}.

Lemma set_max_size_run n st mx ov pa : n ≤ string_max_size →
  set_max_size n (full st mx ov pa) = (Ok (), full (take n st) n (if n <? length st then true else ov) pa).
Proof.
  intros Hn. unfold set_max_size. sm_step. cbn [full storage].
  destruct (Nat.ltb_spec string_max_size n); [lia|]. sm_step. unfold ensure_max_size. sm_step.
  cbn [full storage max_size storage_overflow put_area]. destruct (Nat.ltb_spec n (length st)).
  - rewrite boundary_unit by lia. done.
  - by rewrite take_ge by lia.
Qed.

Lemma cut_take mx total : mx < length total → cut mx total (take mx total).
Proof. intros H. exists [], total, []. rewrite app_nil_r. cbn. split; [done|]. split; [lia|by right]. Qed.

(** Back to an outer limit. *)
Lemma restore_holds mx total m : mx ≤ string_max_size →
  ∃ b, set_max_size mx (full total m false []) = (Ok (), b) ∧ holds mx total b.
Proof.
  intros Hmx. rewrite set_max_size_run by done. eexists. split; [done|]. apply holds_intro.
  destruct (Nat.ltb_spec mx (length total)); [by apply cut_take|]. by rewrite take_ge by lia.
Qed.

Lemma output_room f : formatter_ok f → length (output f) ≤ room f.
Proof.
  induction f as [o|f IHf g IHg|limit marker f IH]; cbn; [done| |].
  - intros [Hf Hg]. rewrite length_app. specialize (IHf Hf). specialize (IHg Hg). lia.
  - intros [Hm _]. unfold limited. destruct (Nat.leb_spec (length (output f)) limit); [lia|].
    rewrite length_app, length_take. lia.
Qed.

(** What the decorator does after the formatter: the marker and the old limit. *)
Lemma limit_output total t limit marker mx (ov : bool) st :
  length marker ≤ limit → length total + limit ≤ string_max_size → mx ≤ string_max_size →
  holds (length total + limit) (total ++ t) (full st (length total + limit) ov []) →
  ∃ b,
    ((if ov then
        match marker with
        | [] => sm_modify (set_overflow false)
        | _ => set_max_size (length total + limit - length marker);; set_max_size string_max_size;;
               sm_modify (set_overflow false);; append marker;; mret ()
        end
      else mret ());; set_max_size mx) (full st (length total + limit) ov []) = (Ok (), b) ∧
    holds mx (total ++ limited limit marker t) b.
Proof.
  intros Hm Hroom Hmx H%holds_elim. unfold limited. destruct ov.
  - pose proof (cut_length _ _ _ H) as [Hst Hlen]. rewrite length_app in Hlen. apply cut_unit in H. subst st.
    destruct (Nat.leb_spec (length t) limit); [lia|]. rewrite sm_bind_run. destruct marker as [|c marker].
    + rewrite take_app, take_ge, Nat.add_sub_swap, Nat.sub_diag in * by lia. cbn.
      rewrite app_nil_r, Nat.sub_0_r. by apply (restore_holds mx (total ++ take limit t)).
    + set (mk := c :: marker) in *.
      rewrite sm_bind_run, set_max_size_run by lia. cbn iota beta. rewrite sm_bind_run, set_max_size_run by lia.
      cbn iota beta. sm_step. unfold set_overflow, full; cbn [storage max_size storage_overflow put_area].
      fold (full (take string_max_size (take (length total + limit - length mk)
        (take (length total + limit) (total ++ t)))) string_max_size false []).
      rewrite !take_take, take_app_ge by lia.
      replace (_ `min` _ - length total) with (limit - length mk) by lia.
      rewrite sm_bind_run, append_run.
      destruct (Nat.leb_spec (length mk) (string_max_size - length (total ++ take (limit - length mk) t))) as [_|Hbad].
      * cbn [mret sm_ret]. rewrite <-(assoc_L (++)). apply (restore_holds mx); done.
      * rewrite length_app, length_take in Hbad. lia.
  - destruct H as [-> Hle]. rewrite length_app in Hle. destruct (Nat.leb_spec (length t) limit); [|lia].
    by apply (restore_holds mx).
Qed.

Lemma on_buf_bind {X Y} (m : sm streambuf X) (k : X → sm streambuf Y) s :
  on_buf (m ≫= k) s = (on_buf m ≫= λ x, on_buf (k x)) s.
Proof. unfold on_buf, mbind, sm_bind. by destruct (m (sb s)) as [[] b]. Qed.

Lemma on_buf_seq {X Y} (m : sm streambuf X) (k : sm streambuf Y) (k' : sm stream Y) :
  (∀ s, k' s = on_buf k s) → ∀ s, (on_buf m;; k') s = on_buf (m;; k) s.
Proof.
  intros Hk s. rewrite on_buf_bind, !sm_bind_run. by destruct (on_buf m s) as [[] s'].
Qed.

Lemma sm_bind_eq {St X Y} (m m' : sm St X) (k : X → sm St Y) s : m s = m' s → (m ≫= k) s = (m' ≫= k) s.
Proof. intros E. by rewrite !sm_bind_run, E. Qed.

Lemma finish_on_buf (ov : bool) marker n mx s :
  ((if ov then
      match marker with
      | [] => on_buf (sm_modify (set_overflow false))
      | _ => on_buf (set_max_size n);; on_buf (set_max_size string_max_size);;
             on_buf (sm_modify (set_overflow false));; on_buf (append marker);; mret ()
      end
    else mret ());; on_buf (set_max_size mx)) s =
  on_buf ((if ov then
             match marker with
             | [] => sm_modify (set_overflow false)
             | _ => set_max_size n;; set_max_size string_max_size;;
                    sm_modify (set_overflow false);; append marker;; mret ()
             end
           else mret ());; set_max_size mx) s.
Proof.
  rewrite on_buf_bind. apply sm_bind_eq. destruct ov; [|by destruct s].
  destruct marker as [|c marker]; [done|]. do 4 (revert s; apply on_buf_seq; intros s). by destruct s.
Qed.

(** What the decorator does before the formatter. *)
Lemma decorator_enters limit marker (m : sm stream unit) mx total s :
  length total + limit ≤ string_max_size → good s → holds mx total (sb s) →
  if length total <=? mx then
    max_size_decorator limit marker m s =
      sm_catch (m;; finish_limited mx marker) (λ e, restore_limit mx;; sm_throw e)
        (with_sb (full total (length total + limit) false []) s)
  else ∃ b, max_size_decorator limit marker m s = (Ok (), with_sb b s) ∧ holds mx total b ∧ storage_overflow b.
Proof.
  intros Hroom Hg H. destruct (stream_flush_run _ _ _ Hg H) as (st & ov & E & H1 & _).
  unfold max_size_decorator. rewrite sm_bind_run, E. sm_step. cbn [with_sb sb full storage_overflow].
  pose proof (holds_elim _ _ _ _ H1) as H2. destruct ov.
  { pose proof (cut_length _ _ _ H2). destruct (Nat.leb_spec (length total) mx); [lia|]. by eexists. }
  destruct H2 as [-> Hle]. destruct (Nat.leb_spec (length total) mx); [|lia].
  cbv zeta. sm_step. erewrite on_buf_run by (apply get_storage_run). cbv iota beta. sm_step.
  destruct (Nat.leb_spec limit (string_max_size - length total)); [|lia].
  erewrite on_buf_run by (apply set_max_size_run; lia). rewrite take_ge by lia.
  by destruct (Nat.ltb_spec (length total + limit) (length total)); [lia|].
Qed.

(** The decorator around code that gives the stream the text [t]. *)
Lemma decorator_holds limit marker t (m : sm stream unit) mx total s :
  length marker ≤ limit → length total + limit ≤ string_max_size → mx ≤ string_max_size →
  good s → holds mx total (sb s) →
  (∀ s', good s' → holds (length total + limit) total (sb s') →
    ∃ s'', m s' = (Ok (), s'') ∧ holds (length total + limit) (total ++ t) (sb s'') ∧ good s'') →
  ∃ s', max_size_decorator limit marker m s = (Ok (), s') ∧
    holds mx (total ++ limited limit marker t) (sb s') ∧ good s'.
Proof.
  intros Hm Hroom Hmx Hg H Hsub. pose proof (decorator_enters limit marker m mx total s Hroom Hg H) as He.
  destruct (Nat.leb_spec (length total) mx) as [Hle|Hle].
  2:{ destruct He as (b & -> & Hb & Hov). eexists. split; [done|]. by split; [apply holds_overflowed|]. }
  rewrite He. destruct (Hsub (with_sb (full total (length total + limit) false []) s)) as (s2 & E2 & H2 & Hg2);
    [done|by apply holds_intro; split; [|lia]|].
  destruct (stream_flush_run _ _ _ Hg2 H2) as (st2 & ov2 & E3 & H3 & _).
  destruct (limit_output total t limit marker mx ov2 st2 Hm Hroom Hmx H3) as (b & Eb & Hb).
  exists (with_sb b s2). split; [|done]. unfold sm_catch, finish_limited. rewrite sm_bind_run, E2.
  sm_step. rewrite E3. sm_step. cbn [with_sb sb full storage_overflow max_size].
  by erewrite finish_on_buf, on_buf_run by exact Eb.
Qed.

Lemma run_formatter_holds f : formatter_ok f → ∀ mx total s,
  length total + room f ≤ string_max_size → mx ≤ string_max_size → good s → holds mx total (sb s) →
  ∃ s', run_formatter f s = (Ok (), s') ∧ holds mx (total ++ output f) (sb s') ∧ good s'.
Proof.
  induction f as [o|f IHf g IHg|limit marker f IH]; cbn [formatter_ok room run_formatter output];
    intros Hok mx total s Hroom Hmx Hg H.
  - destruct (run_op_holds mx total o s) as (s' & E & [H' _] & Hg'); [by split; [|left]|].
    exists s'. split; [done|]. split; [done|]. destruct o; by rewrite ?Hg'.
  - destruct Hok as [Hf Hg']. destruct (IHf Hf mx total s) as (s1 & E1 & H1 & Hg1); [lia|done..|].
    pose proof (output_room f Hf).
    destruct (IHg Hg' mx (total ++ output f) s1) as (s2 & E2 & H2 & Hg2); [rewrite length_app; lia|done..|].
    exists s2. rewrite sm_bind_run, E1. by rewrite (assoc_L (++)).
  - destruct Hok as [Hm Hok]. apply decorator_holds; [done|lia|done..|].
    intros s' Hg' H'. by apply IH; [done|lia|lia|..].
Qed.

(** The string of a stream, for characters of one unit. *)
Lemma str_unit mx total s : holds mx total (sb s) →
  ∃ s', stream_str s = (Ok (take mx total), s') ∧ good s' = good s ∧
    max_size (sb s') = mx ∧ storage_overflow (sb s') = (mx <? length total).
Proof.
  intros H. destruct (str_holds _ _ _ H) as (text & s2 & E2 & (_ & Hm & Hg2) & H2).
  assert (text = take mx total ∧ storage_overflow (sb s2) = (mx <? length total)) as [-> Hov].
  { destruct (Nat.leb_spec (length total) mx), (Nat.ltb_spec mx (length total)); try lia; destruct H2 as [H2 ->].
    - by rewrite H2, take_ge by lia.
    - split; [by apply cut_unit|done]. }
  by exists s2.
Qed.

(** C23: limited formatters. For characters of one unit, a formatter built from
    strings, characters, flushes and nested parts of limited size writes exactly
    its text: each limited part contributes its text when that is within the
    limit, and otherwise the beginning of it that leaves room for the marker, and
    the marker; the string is cut at the limit of the stream itself only. The
    limit of the stream is as before, and the stream remains usable. *)
Theorem formatter_refines f mx start s :
  formatter_ok f → length start + room f ≤ string_max_size → mx ≤ string_max_size →
  good s → holds mx start (sb s) →
  let total := start ++ output f in
  ∃ s', (run_formatter f;; stream_str) s = (Ok (take mx total), s') ∧ good s' ∧
    max_size (sb s') = mx ∧ storage_overflow (sb s') = (mx <? length total).
Proof.
  intros Hok Hroom Hmx Hg H total. destruct (run_formatter_holds f Hok mx start s Hroom Hmx Hg H) as (s1 & E & H1 & Hg1).
  destruct (str_unit _ _ _ H1) as (s2 & E2 & Hg2 & H2). exists s2. split; [by rewrite sm_bind_run, E|].
  by rewrite Hg2.
Qed.

(** When the decorated formatter throws, the old limit is restored, and
    the exception is passed on. *)
Lemma decorator_throws limit marker (m : sm stream unit) mx total s st2 n2 ov2 pa2 e s2 :
  mx ≤ string_max_size → length total + limit ≤ string_max_size →
  good s → holds mx total (sb s) → length total ≤ mx →
  m (with_sb (full total (length total + limit) false []) s) = (Throw e, s2) → sb s2 = full st2 n2 ov2 pa2 →
  max_size_decorator limit marker m s =
    (Throw e, with_sb (full (take mx st2) mx (mx <? length st2) pa2) s2).
Proof.
  intros Hmx Hroom Hg H Hle E Hb. pose proof (decorator_enters limit marker m mx total s Hroom Hg H) as He.
  apply Nat.leb_le in Hle. rewrite Hle in He. rewrite He. unfold sm_catch. rewrite sm_bind_run, E.
  unfold restore_limit. rewrite !sm_bind_run. erewrite on_buf_run by (by rewrite Hb). cbv iota beta.
  erewrite on_buf_run by (by apply set_max_size_run). by destruct (mx <? length st2).
Qed.

End unit_boundary.
End streambuf.

(** * Examples *)

Module sample_stream.
Import utf8.

(** Bytes of a single-byte encoding. *)
#[export] Program Instance byte_boundary : CharBoundary octet := {| length_until_boundary := λ _ n, n |}.
Next Obligation. intros. lia. Qed.

#[export] Instance byte_unit : UnitBoundary octet.
Proof. by intros s n _. Qed.

(** The instances for [wchar_t] of 16 and 32 bits. *)
Definition utf16_chars : CharBoundary Z := {| length_until_boundary := utf16_boundary; boundary_le := utf16_boundary_le |}.
Program Definition utf32_chars : CharBoundary Z := {| length_until_boundary := utf32_boundary |}.
Next Obligation. unfold utf32_boundary. lia. Qed.

Definition bytes (s : list nat) : list octet := (λ n, B (Z.of_nat n)) <$> s.
Definition space : octet := B 0x20.

(** Strings of at most 40 characters. *)
Definition string_max : nat := 40.

(** A stream with an empty string of limit [mx] attached. *)
Definition attached (mx : nat) : stream :=
  snd ((stream_attach string_max [];; on_buf (set_max_size string_max mx)) (new_stream space)).

Lemma attached_holds mx : mx = 25 ∨ mx = 40 → good (attached mx) ∧ holds mx [] (sb (attached mx)).
Proof.
  intros [-> | ->]; (split; [done|]); (split; [done|]); (split; [vm_compute; lia|]); exists [];
    (split; [done|]); (split; [done|cbn; lia]).
Qed.

(** "ab" to the right in four columns, twenty single characters, and "xyz". *)
Definition program : list stream_op :=
  op_text 4 (B 0x2A) false (bytes [0x61; 0x62]) :: replicate 20 (op_put (B 0x2E)) ++ [op_write (bytes [0x78; 0x79; 0x7A])].

Lemma stream_text_witness :
  (∃ text s', (run_ops program;; stream_str) (attached 40) = (Ok text, s') ∧
     text = mjoin (op_output <$> program)) ∧
  (∃ text s', (run_ops program;; stream_str) (attached 25) = (Ok text, s') ∧
     length text ≤ 25 ∧ storage_overflow (sb s') = true).
Proof.
  destruct (attached_holds 40 (or_intror eq_refl)) as [Hg1 H1].
  destruct (attached_holds 25 (or_introl eq_refl)) as [Hg2 H2]. split.
  - destruct (stream_text 40 [] program (attached 40) (conj H1 (or_introl Hg1))) as (text & s' & E & _ & H).
    exists text, s'. split; [exact E|exact (proj1 H)].
  - destruct (stream_text 25 [] program (attached 25) (conj H2 (or_introl Hg2))) as (text & s' & E & _ & H).
    exists text, s'. split; [exact E|]. exact (conj (proj1 (proj2 (proj2 H))) (proj2 (proj2 (proj2 H)))).
Defined.

(** Ten letters limited to eight characters with the marker "..", in them a part
    of three digits limited to two. *)
Definition nested : formatter :=
  fmt_seq (fmt_max_size 8 (bytes [0x2E; 0x2E])
             (fmt_seq (fmt_op (op_text 0 space false (bytes [0x61; 0x62; 0x63; 0x64; 0x65])))
                (fmt_seq (fmt_max_size 2 [] (fmt_op (op_text 0 space false (bytes [0x31; 0x32; 0x33]))))
                   (fmt_op (op_text 0 space false (bytes [0x66; 0x67; 0x68; 0x69; 0x6A]))))))
    (fmt_op (op_text 0 space false (bytes [0x7C]))).

(** The output is "abcde1..|". *)
Lemma formatter_refines_witness :
  ∃ s', (run_formatter string_max nested;; stream_str) (attached 40) =
    (Ok (bytes [0x61; 0x62; 0x63; 0x64; 0x65; 0x31; 0x2E; 0x2E; 0x7C]), s') ∧ good s' ∧ max_size (sb s') = 40.
Proof.
  destruct (attached_holds 40 (or_intror eq_refl)) as [Hg H].
  destruct (formatter_refines string_max nested 40 [] (attached 40)) as (s' & E & Hg' & Hm & _);
    [cbn; repeat split; lia|vm_compute; lia|vm_compute; lia|exact Hg|exact H|].
  exists s'. split; [exact E|]. exact (conj Hg' Hm).
Defined.

(** Ten characters in a string of limit 12, and a wide string of eleven bytes:
    the string has 21 characters. *)
Definition filled : stream :=
  snd (run_ops (replicate 10 (op_put (B 0x2D))) (attached 12)).

Lemma filled_holds : good filled ∧ holds 12 (bytes (replicate 10 0x2D)) (sb filled).
Proof.
  split; [done|]. split; [done|]. split; [vm_compute; lia|]. exists []. split; [done|]. split; [done|cbn; lia].
Qed.

Lemma converted_limit_ignored_witness :
  ∃ s', formatted_write_other code_convert_impl text filled = (Ok (), s') ∧ good s' ∧
    storage (sb s') = Some (bytes (replicate 10 0x2D) ++ text_bytes) ∧ storage_overflow (sb s') = false.
Proof.
  destruct filled_holds as [Hg H].
  apply (converted_limit_ignored text text_bytes 12); [done|apply text_converts|vm_compute; lia|vm_compute; lia| | |vm_compute; lia].
  - exact Hg.
  - exact H.
Defined.

(** A formatter of limited size that uses [write]. When the limit cuts an
    unformatted [write] short, the standard stream becomes bad, and the decorator
    does not make it good again: the rest of the record is lost, although it is
    not limited. Formatted output does not have the problem. *)
Theorem short_write_loses_rest :
  let limited_by o := fmt_seq (fmt_max_size 3 [] (fmt_op o)) (fmt_op (op_text 0 space false (bytes [0x7C]))) in
  let run o := fst ((run_formatter string_max (limited_by o);; stream_str) (attached 40)) in
  let word := bytes [0x61; 0x62; 0x63; 0x64] in
  run (op_write word) = Ok (bytes [0x61; 0x62; 0x63]) ∧
  run (op_text 0 space false word) = Ok (bytes [0x61; 0x62; 0x63; 0x7C]).
Proof. vm_compute. done. Qed.

End sample_stream.
