(* ===== verification/Decorators.v ===== *)
(** Character decorators: formatters that replace patterns in the text that
    another formatter writes
    (src/include/boost/log/expressions/formatters/char_decorator.hpp), with the
    replacements for CSV, XML and C strings (csv_decorator.hpp,
    xml_decorator.hpp and c_decorator.hpp beside it).

    The replacements of a [pattern_replacer] are applied one after the other,
    each to the whole text from the start position on. The decorations of the
    library come to replacing each character on its own, and can be undone.
    The decorator that also escapes the characters that are not printable goes
    back to the beginning of the string after each of them, and escapes
    characters before the start position too. *)

From Stdlib Require Import ZArith Ascii String.
From stdpp Require Import base numbers list strings.
From S2P Require Import Prelude CodeConvert StreamBuf.

(** * Pattern replacement *)

Section replacer.
Context {char : Type} `{!EqDecision char}.

Record string_lengths := StringLengths { from_len : nat; to_len : nat }.

(** The patterns and replacements, interleaved in one string, and their
    lengths. *)
Record pattern_replacer := Replacer {
  m_decoration_chars : list char;
  m_string_lengths : list string_lengths }.

(** [static_cast< unsigned int >] of a length. *)
Definition as_uint (n : nat) : nat := Z.to_nat (u32 (Z.of_nat n)).

(** The body of the constructors' loops. *)
Definition add_decoration (r : pattern_replacer) (from to : list char) : pattern_replacer :=
  Replacer (m_decoration_chars r ++ from ++ to)
           (m_string_lengths r ++ [StringLengths (as_uint (length from)) (as_uint (length to))]).

Definition no_decorations : pattern_replacer := Replacer [] [].

(** The constructor with a sequence of pairs. *)
Definition replacer_of_pairs (decorations : list (list char * list char)) : pattern_replacer :=
  foldl (λ r d, add_decoration r d.1 d.2) no_decorations decorations.

(** The constructor with two sequences; they have the same length. *)
Fixpoint add_decorations (r : pattern_replacer) (from to : list (list char)) : outcome pattern_replacer :=
  match from, to with
  | f :: from, t :: to => add_decorations (add_decoration r f t) from to
  | [], [] => Ok r
  | _, _ => Stuck
  end.

Definition replacer_of_ranges (from to : list (list char)) : outcome pattern_replacer :=
  add_decorations no_decorations from to.

(** [std::basic_string::find] of a pattern, from a position. *)
Fixpoint find_in (pat s : list char) : option nat :=
  if decide (take (length pat) s = pat) then Some 0
  else match s with
       | [] => None
       | _ :: s => S <$> find_in pat s
       end.

Definition str_find (s pat : list char) (pos : nat) : option nat :=
  if pos <=? length s then Nat.add pos <$> find_in pat (drop pos s) else None.

(** [std::basic_string::replace] of [n] characters at a position in the string. *)
Definition str_replace (s : list char) (pos n : nat) (by_ : list char) : list char :=
  take pos s ++ by_ ++ drop (pos + n) s.

(** The loop for one pattern. *)
Fixpoint replace_all (fuel : nat) (from to s : list char) (pos : nat) : outcome (list char) :=
  match fuel with
  | O => Stuck
  | S fuel =>
      match str_find s from pos with
      | Some pos => replace_all fuel from to (str_replace s pos (length from) to) (pos + length to)
      | None => Ok s
      end
  end.

(** The loop over the decorations; [from_chars] is the rest of
    [m_decoration_chars]. *)
Fixpoint replace_patterns (from_chars : list char) (lens : list string_lengths) (s : list char) (start_pos : nat)
    : outcome (list char) :=
  match lens with
  | [] => Ok s
  | it :: lens =>
      let to_chars := drop (from_len it) from_chars in
      obind (replace_all (S (S (length s))) (take (from_len it) from_chars) (take (to_len it) to_chars) s start_pos)
        (λ s, replace_patterns (drop (to_len it) to_chars) lens s start_pos)
  end.

(** [operator()]. *)
Definition apply_replacer (r : pattern_replacer) (s : list char) (start_pos : nat) : outcome (list char) :=
  replace_patterns (m_decoration_chars r) (m_string_lengths r) s start_pos.

(** ** What the loops do *)

(** [t'] is [t] with the leftmost occurrences of the pattern replaced, each
    looked for after the one before it. *)
Inductive replaced (from to : list char) : list char → list char → Prop :=
| replaced_none t : find_in from t = None → replaced from to t t
| replaced_some t p t' :
    find_in from t = Some p → replaced from to (drop (p + length from) t) t' →
    replaced from to t (take p t ++ to ++ t').

Lemma find_in_bound pat s p : find_in pat s = Some p → p + length pat ≤ length s.
Proof.
  revert p. induction s as [|c s IH]; intros p; cbn [find_in]; case_decide as H; intros Hf; try done.
  1,2: injection Hf as <-; apply (f_equal length) in H; rewrite length_take in H; lia.
  - apply fmap_Some in Hf as (q & Hq & ->). specialize (IH q Hq). cbn. lia.
Qed.

(** One pass over the text from [pos] on ends, when the pattern is not empty. *)
Lemma replace_all_run fuel from to s pos : from ≠ [] → pos ≤ length s → length s - pos < fuel →
  ∃ t', replace_all fuel from to s pos = Ok (take pos s ++ t') ∧ replaced from to (drop pos s) t'.
Proof.
  intros Hf. revert s pos. induction fuel as [|fuel IH]; intros s pos Hpos Hfuel; [lia|].
  cbn [replace_all]. unfold str_find. rewrite (proj2 (Nat.leb_le _ _) Hpos).
  destruct (find_in from (drop pos s)) as [p|] eqn:Hfind; cbn.
  2:{ exists (drop pos s). rewrite take_drop. split; [done|by constructor]. }
  pose proof (find_in_bound _ _ _ Hfind) as Hb. rewrite length_drop in Hb.
  assert (0 < length from) by (destruct from; cbn; [done|lia]).
  unfold str_replace. edestruct (IH (take (pos + p) s ++ to ++ drop (pos + p + length from) s) (pos + p + length to))
    as (t' & -> & Ht').
  { rewrite !length_app, length_take, length_drop. lia. }
  { rewrite !length_app, length_take, length_drop. lia. }
  assert (length (take (pos + p) s ++ to) = pos + p + length to) as Hlen.
  { rewrite length_app, length_take. lia. }
  rewrite (assoc_L (++)), <-Hlen, take_app_length in *. rewrite drop_app_length in Ht'.
  exists (take p (drop pos s) ++ to ++ t'). split.
  - f_equal. rewrite take_drop_commute, !(assoc_L (++)). do 2 f_equal.
    rewrite <-(take_drop pos (take (pos + p) s)) at 1. rewrite take_take. do 2 f_equal. lia.
  - apply replaced_some; [done|]. by rewrite drop_drop, Nat.add_assoc.
Qed.

Lemma replace_all_length fuel from to s pos s' :
  replace_all fuel from to s pos = Ok s' → pos ≤ length s → pos ≤ length s'.
Proof.
  revert s pos. induction fuel as [|fuel IH]; intros s pos; [done|]. cbn [replace_all].
  destruct (str_find s from pos) as [p|] eqn:Hp; [|intros [= ->]; lia]. unfold str_find in Hp. intros Hr Hle.
  rewrite (proj2 (Nat.leb_le _ _) Hle) in Hp. apply fmap_Some in Hp as (q & Hq & ->).
  pose proof (find_in_bound _ _ _ Hq) as Hb. rewrite length_drop in Hb. apply IH in Hr; [lia|].
  unfold str_replace. rewrite !length_app, length_take, length_drop. lia.
Qed.

(** An empty pattern is found at every position: the loop has no end. *)
Lemma empty_pattern_diverges fuel to s pos : pos ≤ length s → replace_all fuel [] to s pos = Stuck.
Proof.
  revert s pos. induction fuel as [|fuel IH]; intros s pos Hpos; [done|]. cbn [replace_all]. unfold str_find.
  rewrite (proj2 (Nat.leb_le _ _) Hpos).
  assert (find_in [] (drop pos s) = Some 0) as -> by (by destruct (drop pos s)).
  cbn. apply IH. unfold str_replace. rewrite !length_app, length_take, length_drop. lia.
Qed.

(** ** The constructors *)

(** Lengths that the casts keep. *)
Definition short (s : list char) : Prop := (Z.of_nat (length s) < 2 ^ 32)%Z.

Lemma as_uint_id (s : list char) : short s → as_uint (length s) = length s.
Proof. intros H. unfold as_uint. rewrite u32_id by (unfold short in H; lia). lia. Qed.

Definition pairs_replacer (ds : list (list char * list char)) : pattern_replacer :=
  Replacer (ds ≫= λ d, d.1 ++ d.2)
           ((λ d, StringLengths (as_uint (length d.1)) (as_uint (length d.2))) <$> ds).

Definition extended (r : pattern_replacer) (ds : list (list char * list char)) : pattern_replacer :=
  Replacer (m_decoration_chars r ++ m_decoration_chars (pairs_replacer ds))
           (m_string_lengths r ++ m_string_lengths (pairs_replacer ds)).

Lemma extended_cons r d ds : extended (add_decoration r d.1 d.2) ds = extended r (d :: ds).
Proof. unfold extended, add_decoration. cbn. by rewrite <-!(assoc_L (++)). Qed.

Lemma replacer_of_pairs_eq ds : replacer_of_pairs ds = pairs_replacer ds.
Proof.
  assert (∀ r, foldl (λ r d, add_decoration r d.1 d.2) r ds = extended r ds) as Hx; [|apply Hx].
  induction ds as [|d ds IH]; intros r; cbn [foldl].
  - destruct r. unfold extended. cbn. by rewrite !app_nil_r.
  - rewrite IH. apply extended_cons.
Qed.

(** Both constructors make the same replacer. *)
Lemma replacer_of_ranges_eq ds : replacer_of_ranges ds.*1 ds.*2 = Ok (replacer_of_pairs ds).
Proof.
  rewrite replacer_of_pairs_eq.
  assert (∀ r, add_decorations r ds.*1 ds.*2 = Ok (extended r ds)) as Hx; [|apply Hx].
  induction ds as [|d ds IH]; intros r; cbn.
  - destruct r. unfold extended. cbn. by rewrite !app_nil_r.
  - rewrite IH. by rewrite extended_cons.
Qed.

(** The replacements of all decorations, in their order. *)
Fixpoint replaced_seq (ds : list (list char * list char)) (t t' : list char) : Prop :=
  match ds with
  | [] => t' = t
  | d :: ds => ∃ u, replaced d.1 d.2 t u ∧ replaced_seq ds u t'
  end.

Definition decoration_ok (d : list char * list char) : Prop := d.1 ≠ [] ∧ short d.1 ∧ short d.2.

Lemma apply_pairs ds s start : Forall decoration_ok ds → start ≤ length s →
  ∃ t', apply_replacer (replacer_of_pairs ds) s start = Ok (take start s ++ t') ∧ replaced_seq ds (drop start s) t'.
Proof.
  rewrite replacer_of_pairs_eq. unfold apply_replacer. cbn [pairs_replacer m_decoration_chars m_string_lengths].
  intros Hds. revert s. induction Hds as [|[from to] ds (Hf & Hs1 & Hs2) _ IH]; intros s Hle; cbn.
  { exists (drop start s). by rewrite take_drop. }
  cbn in *. rewrite !as_uint_id, <-(assoc_L (++)), take_app_length, drop_app_length by done.
  rewrite take_app_length, drop_app_length.
  destruct (replace_all_run (S (S (length s))) from to s start Hf Hle) as (u & E & Hu); [lia|].
  pose proof (replace_all_length _ _ _ _ _ _ E Hle) as Hle'. cbn [replace_all] in E. rewrite E. cbn.
  destruct (IH _ Hle') as (t' & -> & Ht'). assert (start = length (take start s)) as Hl by (rewrite length_take; lia).
  rewrite take_app_length' by done. rewrite drop_app_length' in Ht' by done. by exists t'; eauto.
Qed.

(** ** Patterns of one character *)

(** Replace a character. *)
Definition subst_char (c : char) (to : list char) (x : char) : list char := if decide (x = c) then to else [x].

(** Replace a character as the first decoration for it says. *)
Fixpoint subst_chars (ds : list (char * list char)) (x : char) : list char :=
  match ds with
  | [] => [x]
  | (c, to) :: ds => if decide (x = c) then to else subst_chars ds x
  end.

Definition char_patterns (ds : list (char * list char)) : list (list char * list char) :=
  (λ d, ([d.1], d.2)) <$> ds.

(** Where the pattern is found, it is the first such character. *)
Lemma find_char c t :
  match find_in [c] t with
  | Some p => (c ∉ take p t) ∧ t = take p t ++ c :: drop (p + 1) t
  | None => c ∉ t
  end.
Proof.
  induction t as [|x t IH]; cbn [find_in]; case_decide as H; [done|apply not_elem_of_nil|..].
  - simplify_eq/=. split; [apply not_elem_of_nil|]. by rewrite drop_0.
  - assert (x ≠ c) by (intros ->; by destruct H). destruct (find_in [c] t) as [p|]; cbn.
    + destruct IH as [IH1 IH2]. split; [by apply not_elem_of_cons|]. by f_equal.
    + by apply not_elem_of_cons.
Qed.

Lemma subst_char_absent c to t : c ∉ t → t ≫= subst_char c to = t.
Proof.
  induction t as [|x t IH]; [done|]. intros [Hx Ht]%not_elem_of_cons. cbn. unfold subst_char at 1.
  rewrite decide_False by done. cbn. by f_equal; apply IH.
Qed.

Lemma replaced_char c to t t' : replaced [c] to t t' → t' = t ≫= subst_char c to.
Proof.
  induction 1 as [t H|t p t' H _ IH]; pose proof (find_char c t) as Hc; rewrite H in Hc.
  - by rewrite subst_char_absent.
  - destruct Hc as [Ha Ht]. rewrite Ht at 2. rewrite bind_app, subst_char_absent by done. cbn.
    unfold subst_char at 1. by rewrite decide_True, IH by done.
Qed.

(** No replacement has a character that a later decoration replaces. *)
Fixpoint in_order (ds : list (char * list char)) : Prop :=
  match ds with
  | [] => True
  | (_, to) :: ds => Forall (λ x, x ∉ ds.*1) to ∧ in_order ds
  end.

#[export] Instance in_order_dec ds : Decision (in_order ds).
Proof. induction ds as [|[c to] ds IH]; cbn; apply _. Defined.

Lemma subst_chars_absent ds x : x ∉ ds.*1 → subst_chars ds x = [x].
Proof.
  induction ds as [|[c to] ds IH]; [done|]. cbn. intros [Hx Hds]%not_elem_of_cons. rewrite decide_False by done. auto.
Qed.

(** The replacements one after the other are replacements of each character. *)
Lemma replaced_chars ds t t' : in_order ds → replaced_seq (char_patterns ds) t t' → t' = t ≫= subst_chars ds.
Proof.
  revert t. induction ds as [|[c to] ds IH]; intros t; cbn.
  { intros _ ->. induction t as [|x t IH]; [done|]. cbn. by f_equal. }
  intros [Hto Hin] (u & Hu%replaced_char & Ht'). rewrite (IH u) by done. subst u. clear IH Ht'.
  induction t as [|x t IH]; [done|]. cbn. rewrite bind_app, IH. f_equal. unfold subst_char. case_decide; cbn.
  - clear IH. induction Hto as [|y to Hy _ IHto]; [done|]. cbn. rewrite subst_chars_absent by done. cbn. by f_equal.
  - by rewrite app_nil_r.
Qed.

(** What a replacer with one-character patterns does. *)
Lemma apply_chars ds s start :
  in_order ds → Forall (λ d, short d.2) ds → start ≤ length s →
  apply_replacer (replacer_of_pairs (char_patterns ds)) s start =
    Ok (take start s ++ (drop start s ≫= subst_chars ds)).
Proof.
  intros Hin Hsh Hle. destruct (apply_pairs (char_patterns ds) s start) as (t' & -> & Ht'); [|done|].
  - apply Forall_fmap. eapply Forall_impl; [done|]. intros [c to] H. by repeat split.
  - by rewrite (replaced_chars ds (drop start s) t').
Qed.

(** ** Undoing decorations *)

(** The decoration whose replacement the text begins with. *)
Definition replacement_at (ds : list (char * list char)) (s : list char) : option (char * list char) :=
  head (filter (λ d, d.2 `prefix_of` s) ds).

Fixpoint undecorate (fuel : nat) (ds : list (char * list char)) (s : list char) : list char :=
  match fuel, s with
  | S fuel, x :: s' =>
      match replacement_at ds s with
      | Some (c, to) => c :: undecorate fuel ds (drop (length to) s)
      | None => x :: undecorate fuel ds s'
      end
  | _, _ => []
  end.

(** Replacements begin with a character that is replaced, and none begins
    another one. *)
Definition decodable (ds : list (char * list char)) : Prop :=
  Forall (λ d, Exists (λ c, head d.2 = Some c) ds.*1) ds ∧
  Forall (λ d, Forall (λ d', d.2 `prefix_of` d'.2 → d = d') ds) ds.

Lemma subst_chars_case ds x :
  (∃ to, (x, to) ∈ ds ∧ subst_chars ds x = to) ∨ (x ∉ ds.*1) ∧ subst_chars ds x = [x].
Proof.
  induction ds as [|[c to] ds IH]; cbn; [right; split; [apply not_elem_of_nil|done]|].
  case_decide as Hx; [subst; left; exists to; split; [left|done]|].
  destruct IH as [(to' & H1 & H2)|[H1 H2]]; [left; exists to'; by split; [right|]|right].
  by split; [apply not_elem_of_cons|].
Qed.

(** After a replaced character comes its replacement. *)
Lemma replacement_found ds x to rest : decodable ds → (x, to) ∈ ds →
  replacement_at ds (to ++ rest) = Some (x, to).
Proof.
  intros [_ Hd] Hin. unfold replacement_at. rewrite Forall_forall in Hd.
  destruct (filter (λ d, d.2 `prefix_of` to ++ rest) ds) as [|d l] eqn:Hf; cbn.
  { assert ((x, to) ∈ filter (λ d, d.2 `prefix_of` to ++ rest) ds) as H.
    { apply list_elem_of_filter. split; [by apply prefix_app_r|done]. }
    rewrite Hf in H. by apply not_elem_of_nil in H. }
  assert (d ∈ filter (λ d, d.2 `prefix_of` to ++ rest) ds) as [Hp Hdin]%list_elem_of_filter by (rewrite Hf; left).
  f_equal. destruct (prefix_weak_total d.2 to (to ++ rest)) as [H|H]; [done|by apply prefix_app_r|..].
  - specialize (Hd d Hdin). rewrite Forall_forall in Hd. by apply (Hd (x, to)).
  - specialize (Hd (x, to) Hin). rewrite Forall_forall in Hd. symmetry. by apply (Hd d).
Qed.

(** Before a character that is not replaced, no replacement begins. *)
Lemma replacement_none ds x rest : decodable ds → (x ∉ ds.*1) → replacement_at ds (x :: rest) = None.
Proof.
  intros [Hh _] Hx. unfold replacement_at. rewrite Forall_forall in Hh.
  destruct (filter (λ d, d.2 `prefix_of` x :: rest) ds) as [|d l] eqn:Hf; [done|exfalso].
  assert (d ∈ filter (λ d, d.2 `prefix_of` x :: rest) ds) as [Hp Hdin]%list_elem_of_filter by (rewrite Hf; left).
  specialize (Hh d Hdin). apply Exists_exists in Hh as (c & Hc & Hhd).
  destruct d as [c' [|y to]]; [done|]. simplify_eq/=. destruct Hp as [k Hk]. by simplify_eq/=.
Qed.

Lemma undecorate_decorated ds t fuel : decodable ds → length (t ≫= subst_chars ds) ≤ fuel →
  undecorate fuel ds (t ≫= subst_chars ds) = t.
Proof.
  intros Hd. revert fuel. induction t as [|x t IH]; intros fuel Hfuel; [by destruct fuel|]. cbn in *.
  rewrite length_app in Hfuel. destruct (subst_chars_case ds x) as [(to & Hin & E)|[Hx E]]; rewrite E in *.
  - pose proof (replacement_found ds x to (t ≫= subst_chars ds) Hd Hin) as Hr.
    destruct to as [|y to].
    { destruct Hd as [Hh _]. rewrite Forall_forall in Hh. specialize (Hh _ Hin). by apply Exists_exists in Hh as (? & _ & ?). }
    destruct fuel as [|fuel]; [cbn in Hfuel; lia|]. cbn [undecorate app] in *. rewrite Hr. cbn in *.
    rewrite drop_app_length, IH by lia. done.
  - destruct fuel as [|fuel]; [cbn in Hfuel; lia|]. cbn in *. rewrite replacement_none by done. by rewrite IH by lia.
Qed.

(** Replacements are not empty, so that text does not get shorter. *)
Lemma decorated_length ds t : decodable ds → length t ≤ length (t ≫= subst_chars ds).
Proof.
  intros [Hh _]. rewrite Forall_forall in Hh. induction t as [|x t IH]; cbn; [lia|]. rewrite length_app.
  destruct (subst_chars_case ds x) as [(to & Hin & ->)|[_ ->]]; [|cbn; lia].
  specialize (Hh _ Hin). apply Exists_exists in Hh as (c & _ & Hc). destruct to; [done|]. cbn. lia.
Qed.

End replacer.

(** * The decorator *)

Section decorator.
Context {char : Type} `{!CharBoundary char}.

(** [char_decorator_output_terminal::operator()]: [m_impl] is the replacer's
    [operator()], and [subactor] the decorated formatter. *)
Definition char_decorator (m_impl : list char → nat → outcome (list char)) (subactor : sm stream unit) : sm stream unit :=
  stream_flush;;
  st ← on_buf get_storage;
  let start_pos := length st in
  subactor;;
  stream_flush;;
  st ← on_buf get_storage;
  st ← sm_lift (m_impl st start_pos);
  on_buf (sm_modify (set_storage st));;
  on_buf ensure_max_size.

(** The implementation changes the text from the start position on only, and
    by [esc]. *)
Definition escapes (m_impl : list char → nat → outcome (list char)) (esc : list char → list char) : Prop :=
  ∀ s start, start ≤ length s → m_impl s start = Ok (take start s ++ esc (drop start s)).

(** [esc] replaces pieces of the text by pieces that are not shorter. *)
Definition pointwise (esc : list char → list char) : Prop :=
  (∀ t u, esc (t ++ u) = esc t ++ esc u) ∧ ∀ t, length t ≤ length (esc t).

Context `{!UnitBoundary char}.

Lemma ensure_max_size_run st mx ov :
  ensure_max_size (full st mx ov []) = (Ok (), full (take mx st) mx (if mx <? length st then true else ov) []).
Proof.
  unfold ensure_max_size. sm_step. cbn [full storage max_size]. destruct (Nat.ltb_spec mx (length st)).
  - by rewrite boundary_unit by lia.
  - by rewrite take_ge by lia.
Qed.

(** The string when the decorated formatter is done. *)
Lemma holds_unit mx total st ov : holds mx total (full st mx ov []) → st = take mx total ∧ ov = (mx <? length total).
Proof.
  intros H%holds_elim. destruct (Nat.ltb_spec mx (length total)), ov.
  - by split; [apply cut_unit|].
  - destruct H. subst. lia.
  - apply cut_length in H. lia.
  - destruct H as [-> _]. by rewrite take_ge by lia.
Qed.

Lemma holds_take mx total : holds mx total (full (take mx total) mx (mx <? length total) []).
Proof.
  apply holds_intro. destruct (Nat.ltb_spec mx (length total)); [by apply cut_take|].
  rewrite take_ge by lia. split; [done|lia].
Qed.

(** What the replacement does to the string when the text was cut at the limit
    before it. *)
Lemma escape_cut esc mx total t : pointwise esc →
  let st := take mx (total ++ t) in
  let n := length (take mx total) in
  take mx (take n st ++ esc (drop n st)) = take mx (total ++ esc t) ∧
  (mx <? length (take n st ++ esc (drop n st))) || (mx <? length (total ++ t)) = (mx <? length (total ++ esc t)).
Proof.
  intros [Happ Hlen] st n. assert (esc [] = []) as Hnil.
  { apply length_zero_iff_nil. pose proof (f_equal length (Happ [] [])) as H. cbn in H. rewrite length_app in H. lia. }
  pose proof (Hlen t) as Ht. destruct (Nat.leb_spec (length total) mx) as [Hle|Hgt]; subst st n.
  - rewrite (take_ge total), (take_app_ge total t mx), take_app_length, drop_app_length by lia.
    set (k := mx - length total). destruct (Nat.leb_spec (length t) k).
    + rewrite (take_ge t), !length_app by lia. split; [done|].
      destruct (Nat.ltb_spec mx (length total + length t)); [lia|by rewrite orb_false_r].
    + rewrite !length_app. split.
      * rewrite <-(take_drop k t) at 2. rewrite Happ. pose proof (Hlen (take k t)) as Hk. rewrite length_take in Hk.
        rewrite !take_app_ge by lia. f_equal. symmetry. apply take_app_le. lia.
      * destruct (Nat.ltb_spec mx (length total + length t)), (Nat.ltb_spec mx (length total + length (esc t)));
          rewrite ?orb_true_r; done || lia.
  - rewrite !(take_app_le total), length_take, Nat.min_l, take_take, Nat.min_id by lia. rewrite drop_ge, Hnil, app_nil_r by (rewrite length_take; lia).
    rewrite take_take, Nat.min_id, !length_app. split; [done|].
    destruct (Nat.ltb_spec mx (length total + length t)), (Nat.ltb_spec mx (length total + length (esc t)));
      rewrite ?orb_true_r; done || lia.
Qed.

Lemma get_stored (st : list char) mx ov pa s :
  on_buf get_storage (with_sb (full st mx ov pa) s) = (Ok st, with_sb (full st mx ov pa) s).
Proof. done. Qed.

(** The decorator around code that gives the stream the text [t]: the stream is
    given [esc t]. *)
Lemma char_decorator_holds m_impl esc t (m : sm stream unit) mx total s :
  escapes m_impl esc → pointwise esc → good s → holds mx total (sb s) →
  (∀ s', good s' → holds mx total (sb s') → ∃ s'', m s' = (Ok (), s'') ∧ holds mx (total ++ t) (sb s'') ∧ good s'') →
  ∃ s', char_decorator m_impl m s = (Ok (), s') ∧ holds mx (total ++ esc t) (sb s') ∧ good s'.
Proof.
  intros Himpl Hesc Hg H Hm. destruct (stream_flush_run _ _ _ Hg H) as (st & ov & E & H1 & _).
  destruct (Hm (with_sb (full st mx ov []) s) Hg H1) as (s2 & E2 & H2 & Hg2).
  destruct (stream_flush_run _ _ _ Hg2 H2) as (st2 & ov2 & E3 & H3 & _).
  destruct (holds_unit _ _ _ _ H1) as [-> ->]. destruct (holds_unit _ _ _ _ H3) as [-> ->].
  destruct (escape_cut esc mx total t Hesc) as [Ht Hov].
  exists (with_sb (full (take mx (total ++ esc t)) mx (mx <? length (total ++ esc t)) []) s2).
  split; [|split; [apply holds_take|exact Hg2]].
  unfold char_decorator. rewrite sm_bind_run, E. cbv beta iota zeta. rewrite sm_bind_run.
  rewrite get_stored. cbv beta iota zeta. rewrite sm_bind_run, E2.
  cbv beta iota zeta. rewrite sm_bind_run, E3. cbv beta iota zeta. rewrite sm_bind_run.
  rewrite get_stored. cbv beta iota zeta. rewrite sm_bind_run.
  rewrite Himpl by (rewrite !length_take, length_app; lia). unfold sm_lift at 1. cbv beta iota zeta.
  rewrite <-Ht, <-Hov. set (st2 := _ ++ esc _). rewrite sm_bind_run. erewrite on_buf_run by reflexivity.
  cbv beta iota zeta. erewrite on_buf_run by (apply (ensure_max_size_run st2)). reflexivity.
Qed.

End decorator.

(** * The decorations of the library *)

Definition chr (n : nat) : ascii := ascii_of_nat n.
Definition quote : ascii := chr 34.

(** A text with quotes and backslashes written by other characters: a grave
    accent for a quote, and a tilde for a backslash. *)
Definition lit (s : string) : str :=
  (λ c, if decide (c = "`"%char) then quote else if decide (c = "~"%char) then chr 92 else c) <$> str_lit s.

(** [csv_decorator_traits]. *)
Definition csv_patterns : list str := [[quote]].
Definition csv_replacements : list str := [lit "``"].

(** [xml_decorator_traits]. *)
Definition xml_patterns : list str := lit <$> ["&"; "<"; ">"; "`"; "'"]%string.
Definition xml_replacements : list str := lit <$> ["&amp;"; "&lt;"; "&gt;"; "&quot;"; "&apos;"]%string.

(** [c_decorator_traits]: backslash, alert, backspace, form feed, new line,
    carriage return, tabulations, quotes and the question mark. *)
Definition c_patterns : list str :=
  (λ n, [chr n]) <$> [92; 7; 8; 12; 10; 13; 9; 11; 39; 34; 63].
Definition c_replacements : list str :=
  lit <$> ["~~"; "~a"; "~b"; "~f"; "~n"; "~r"; "~t"; "~v"; "~'"; "~`"; "~?"]%string.

(** [csv_decor], [xml_decor] and [c_decor]. *)
Inductive decor := csv_decor | xml_decor | c_decor.

Definition patterns (d : decor) : list str :=
  match d with csv_decor => csv_patterns | xml_decor => xml_patterns | c_decor => c_patterns end.
Definition replacements (d : decor) : list str :=
  match d with csv_decor => csv_replacements | xml_decor => xml_replacements | c_decor => c_replacements end.

(** [operator[]] of the generators: the replacer that the decorator uses. *)
Definition decor_impl (d : decor) (s : str) (start_pos : nat) : outcome str :=
  obind (replacer_of_ranges (patterns d) (replacements d)) (λ r, apply_replacer r s start_pos).

(** ** Escape sequences for characters that are not printable *)

(** The value of a [char], which is signed. *)
Definition char_value (c : ascii) : Z :=
  let n := Z.of_nat (nat_of_ascii c) in if (n <? 128)%Z then n else (n - 256)%Z.

Definition not_printable (c : ascii) : bool := (char_value c <? 0x20)%Z || (0x7e <? char_value c)%Z.

(** A digit of the format "%X". *)
Definition hex_digit (n : nat) : ascii := if n <? 10 then chr (48 + n) else chr (55 + n).

(** The size of [buf] in [c_ascii_pattern_replacer]. *)
Definition escape_buf_size : nat := (7 + 3) / 4 + 3.

(** [print_escaped]: the format "\x%.2X" with the [uint8_t] of the character,
    as far as it fits in the buffer with a zero after it. *)
Definition print_escaped (c : ascii) : str :=
  let n := nat_of_ascii c in
  take (escape_buf_size - 1) (lit "~x" ++ [hex_digit (n / 16); hex_digit (n mod 16)]).

(** The loop of [c_ascii_pattern_replacer::operator()]; [it] is the index of
    the iterator. After a replacement it is set to the [n - 1]st character of
    the string, and incremented. *)
Fixpoint escape_loop (fuel : nat) (s : str) (it : nat) : outcome str :=
  match fuel with
  | O => Stuck
  | S fuel =>
      if decide (it = length s) then Ok s
      else
        match s !! it with
        | None => Stuck
        | Some c =>
            if not_printable c then
              let buf := print_escaped c in
              let s := str_replace s it 1 buf in
              escape_loop fuel s (S (length buf - 1))
            else escape_loop fuel s (S it)
        end
  end.

Definition c_ascii_impl (s : str) (start_pos : nat) : outcome str :=
  obind (decor_impl c_decor s start_pos) (λ s, escape_loop (S (4 * length s) * S (4 * length s)) s start_pos).

(** * What the decorators write *)

(** The decorations, with the character of each pattern. *)
Definition decorations (d : decor) : list (ascii * str) := zip (mjoin (patterns d)) (replacements d).

Definition decorated (d : decor) (t : str) : str := t ≫= subst_chars (decorations d).

Lemma decor_replacer d :
  replacer_of_ranges (patterns d) (replacements d) = Ok (replacer_of_pairs (char_patterns (decorations d))).
Proof. rewrite <-replacer_of_ranges_eq. by destruct d. Qed.

Lemma decor_in_order d : in_order (decorations d).
Proof. apply (bool_decide_unpack _). by destruct d; vm_compute. Qed.

Lemma decor_short d : Forall (λ x, short x.2) (decorations d).
Proof. unfold short. apply (bool_decide_unpack _). by destruct d; vm_compute. Qed.

Lemma decor_decodable d : decodable (decorations d).
Proof. split; apply (bool_decide_unpack _); by destruct d; vm_compute. Qed.

Lemma decor_escapes d : escapes (decor_impl d) (decorated d).
Proof.
  intros s start Hle. unfold decor_impl. rewrite decor_replacer. cbn [obind].
  apply apply_chars; [apply decor_in_order|apply decor_short|done].
Qed.

Lemma decor_pointwise d : pointwise (decorated d).
Proof.
  split; [intros; apply bind_app|]. intros t. apply decorated_length, decor_decodable.
Qed.

(** Characters in the decorated text that are replaced are part of a
    replacement. *)
Lemma decorated_chars d t :
  Forall (λ c, (c ∉ (decorations d).*1) ∨ c ∈ mjoin (replacements d)) (decorated d t).
Proof.
  unfold decorated. induction t as [|x t IH]; cbn; [constructor|]. apply Forall_app. split; [|done].
  destruct (subst_chars_case (decorations d) x) as [(to & Hin & ->)|[Hx ->]]; [|by apply Forall_singleton; left].
  apply Forall_forall. intros c Hc. right. apply list_elem_of_join. exists to. split; [done|].
  apply elem_of_zip_r in Hin. done.
Qed.

Section formatters.
Context `{!CharBoundary ascii, !UnitBoundary ascii} (string_max_size : nat).

(** C39: decorated output. Around any formatter, the CSV, XML and C decorators
    give the stream the formatter's text with each special character replaced,
    and nothing before it is changed, also when the replacement makes the text
    reach the limit of the stream. The text can be read back: undoing the
    replacements gives the formatter's text. Special characters are in it only
    as parts of replacements. *)
Theorem decorators_roundtrip d f mx start s :
  formatter_ok f → length start + room f ≤ string_max_size → mx ≤ string_max_size →
  good s → holds mx start (sb s) →
  let text := decorated d (output f) in
  (∃ s', (char_decorator (decor_impl d) (run_formatter string_max_size f);; stream_str) s = (Ok (take mx (start ++ text)), s') ∧
     good s' ∧ max_size (sb s') = mx ∧ storage_overflow (sb s') = (mx <? length (start ++ text))) ∧
  undecorate (length text) (decorations d) text = output f ∧
  Forall (λ c, (c ∉ (decorations d).*1) ∨ c ∈ mjoin (replacements d)) text.
Proof.
  intros Hok Hroom Hmx Hg H text. split; [|split; [by apply undecorate_decorated; [apply decor_decodable|]|apply decorated_chars]].
  destruct (char_decorator_holds (decor_impl d) (decorated d) (output f) (run_formatter string_max_size f) mx start s)
    as (s1 & E & H1 & Hg1); [apply decor_escapes|apply decor_pointwise|done|done|..].
  { intros s' Hg' H'. by apply run_formatter_holds. }
  destruct (str_unit _ _ _ H1) as (s2 & E2 & Hg2 & H2). exists s2. split; [by rewrite sm_bind_run, E|].
  by rewrite Hg2.
Qed.

End formatters.

(** ** Characters that are not printable *)

Definition escape_char (c : ascii) : str := if not_printable c then print_escaped c else [c].
Definition escaped (t : str) : str := t ≫= escape_char.
Definition printable (t : str) : Prop := Forall (λ c, not_printable c = false) t.

Lemma forall_ascii (P : ascii → bool) : forallb (λ n, P (ascii_of_nat n)) (seq 0 256) = true → ∀ c, P c = true.
Proof.
  rewrite forallb_forall. intros H c. rewrite <-(ascii_nat_embedding c). apply H, in_seq.
  pose proof (nat_ascii_bounded c). lia.
Qed.

Lemma print_escaped_ok c : length (print_escaped c) = 4 ∧ printable (print_escaped c).
Proof.
  pose proof (forall_ascii (λ c, bool_decide (length (print_escaped c) = 4 ∧
    Forall (λ c, not_printable c = false) (print_escaped c)))) as H.
  apply (bool_decide_eq_true_1 _), H. by vm_compute.
Qed.

Lemma escaped_printable t : printable t → escaped t = t.
Proof.
  induction 1 as [|c t Hc _ IH]; [done|]. unfold escaped in *. cbn. unfold escape_char at 1. rewrite Hc. cbn. by rewrite IH.
Qed.

Lemma escaped_app t u : escaped (t ++ u) = escaped t ++ escaped u.
Proof. apply bind_app. Qed.

Lemma escaped_single c : not_printable c → escaped [c] = print_escaped c.
Proof. intros H. unfold escaped. cbn. unfold escape_char. destruct (not_printable c); [|done]. apply app_nil_r. Qed.

(** The text from the start position on has a character to escape. *)
Definition has_escapes (t : str) : bool := existsb not_printable t.

Lemma no_escapes t : has_escapes t = false → printable t.
Proof.
  unfold has_escapes. induction t as [|c t IH]; cbn; [constructor|]. intros [Hc Ht]%orb_false_iff.
  constructor; [done|]. by apply IH.
Qed.

(** What the loop makes of the string: from the fifth character on, or from the
    start position when that is before it. *)
Definition loop_result (s : str) (start : nat) : str :=
  if has_escapes (drop start s) then
    take (start `min` 4) s ++ escaped (drop (start `min` 4) s)
  else s.

(** After a replacement the loop is at the fifth character. *)
Lemma loop_restart s i c : s !! i = Some c → not_printable c →
  let s' := str_replace s i 1 (print_escaped c) in
  take (i `min` 4) s ++ escaped (drop (i `min` 4) s) = take 4 s' ++ escaped (drop 4 s').
Proof.
  intros Hi Hc s'. destruct (print_escaped_ok c) as [Hl Hp]. pose proof (lookup_lt_Some _ _ _ Hi) as Hlt.
  assert (length (take i s) = i) as Hti by (rewrite length_take; lia).
  unfold str_replace in s'. destruct (Nat.leb_spec 4 i) as [H4|H4]; subst s'.
  - rewrite Nat.min_r, take_app_le, take_take, Nat.min_l by lia. f_equal.
    rewrite drop_app_le, !escaped_app by lia. rewrite <-(take_drop_middle s i c Hi) at 1.
    rewrite drop_app_le, escaped_app by lia. f_equal. change (c :: ?l) with ([c] ++ l).
    by rewrite escaped_app, escaped_single, (escaped_printable _ Hp), Nat.add_1_r by done.
  - rewrite Nat.min_l by lia. rewrite !take_app, !drop_app, Hti, (take_ge (take i s)), (drop_ge (take i s)) by lia.
    cbn [app]. rewrite <-(assoc_L (++)). f_equal. rewrite escaped_app, (escaped_printable (drop _ (print_escaped c))).
    2:{ by apply Forall_drop. }
    rewrite Hl. replace (4 - i - 4) with 0 by lia. rewrite take_0, drop_0, app_nil_r, (assoc_L (++)), take_drop.
    rewrite (drop_S _ c) by done. change (c :: ?l) with ([c] ++ l). by rewrite escaped_app, escaped_single, Nat.add_1_r by done.
Qed.

(** Each replacement leaves one character less to escape, and makes the string
    three characters longer. *)
Definition escapes_in (s : str) : nat := length (List.filter not_printable s).

Lemma escapes_in_app s t : escapes_in (s ++ t) = escapes_in s + escapes_in t.
Proof. unfold escapes_in. by rewrite List.filter_app, length_app. Qed.

Lemma escapes_in_printable t : printable t → escapes_in t = 0.
Proof. unfold escapes_in. induction 1 as [|c t Hc _ IH]; [done|]. cbn. by rewrite Hc. Qed.

Lemma replace_escape s i c : s !! i = Some c → not_printable c →
  let s' := str_replace s i 1 (print_escaped c) in
  length s' = length s + 3 ∧ escapes_in s = S (escapes_in s').
Proof.
  intros Hi Hc s'. destruct (print_escaped_ok c) as [Hl Hp]. pose proof (lookup_lt_Some _ _ _ Hi). subst s'.
  unfold str_replace. rewrite !length_app, length_take, length_drop, Hl. split; [lia|].
  rewrite <-(take_drop_middle s i c Hi) at 1. rewrite !escapes_in_app, (escapes_in_printable (print_escaped c)) by done.
  change (c :: ?l) with ([c] ++ l). rewrite escapes_in_app, Nat.add_1_r. unfold escapes_in at 2. cbn.
  destruct (not_printable c); [cbn; lia|done].
Qed.

Lemma loop_result_fifth s : loop_result s 4 = take 4 s ++ escaped (drop 4 s).
Proof.
  unfold loop_result. destruct (has_escapes (drop 4 s)) eqn:He; [done|].
  by rewrite escaped_printable, take_drop by (by apply no_escapes).
Qed.

Lemma loop_result_skip s i c : s !! i = Some c → not_printable c = false → loop_result s (S i) = loop_result s i.
Proof.
  intros Hi Hc. unfold loop_result. rewrite (drop_S s c i) by done. unfold has_escapes at 2. cbn [existsb].
  rewrite Hc, orb_false_l. fold (has_escapes (drop (S i) s)). destruct (has_escapes _); [|done].
  destruct (Nat.leb_spec 4 i); [by rewrite !Nat.min_r by lia|]. rewrite !Nat.min_l by lia.
  rewrite (take_S_r s i c), (drop_S s c i) by done. change (c :: drop (S i) s) with ([c] ++ drop (S i) s).
  rewrite escaped_app, (escaped_printable [c]) by (by constructor). by rewrite (assoc_L (++)).
Qed.

Lemma escape_loop_run fuel s i : i ≤ length s →
  escapes_in s * S (length s + 3 * escapes_in s) + (length s - i) < fuel →
  escape_loop fuel s i = Ok (loop_result s i).
Proof.
  revert s i. induction fuel as [|fuel IH]; intros s i Hi Hfuel; [lia|]. cbn [escape_loop]. case_decide as Hend.
  { subst i. unfold loop_result. by rewrite drop_ge by lia. }
  destruct (s !! i) as [c|] eqn:Hc; [|apply lookup_ge_None_1 in Hc; lia].
  destruct (not_printable c) eqn:Hn.
  - assert (not_printable c) as Hn' by (by rewrite Hn). cbv zeta. destruct (print_escaped_ok c) as [-> _]. cbn [Nat.sub].
    destruct (replace_escape s i c Hc Hn') as [Hl He]. pose proof (loop_restart s i c Hc Hn') as Hr. cbv zeta in *.
    set (s' := str_replace s i 1 (print_escaped c)) in *. rewrite IH, loop_result_fifth, <-Hr by nia.
    f_equal. unfold loop_result. rewrite (drop_S s c i) by done. unfold has_escapes. cbn. by rewrite Hn.
  - rewrite IH by lia. f_equal. by apply (loop_result_skip s i c).
Qed.

Lemma escapes_in_le s : escapes_in s ≤ length s.
Proof. unfold escapes_in. induction s as [|c s IH]; cbn; [lia|]. destruct (not_printable c); cbn; lia. Qed.

(** The C decorator for ASCII. The special characters are replaced from the
    start position on, as by the C decorator. When what follows has a character
    that is not printable, then all such characters from the fifth of the
    string on are escaped, those before the start position too. *)
Theorem c_ascii_exact s start : start ≤ length s →
  let text := decorated c_decor (drop start s) in
  c_ascii_impl s start =
    Ok (if has_escapes text then
          take (start `min` 4) s ++ escaped (drop (start `min` 4) (take start s)) ++ escaped text
        else take start s ++ text).
Proof.
  intros Hle text. unfold c_ascii_impl. rewrite (decor_escapes c_decor s start Hle). cbn [obind]. fold text.
  assert (length (take start s) = start) as Hl by (rewrite length_take; lia).
  rewrite escape_loop_run.
  - unfold loop_result. rewrite drop_app_length' by done. destruct (has_escapes text); [|done].
    rewrite take_app_le, take_take, Nat.min_l, drop_app_le, escaped_app by lia. done.
  - rewrite length_app. lia.
  - set (u := take start s ++ text). pose proof (escapes_in_le u). nia.
Qed.

(** So the text is as documented when what precedes it has no such character
    from the fifth on. *)
Corollary c_ascii_after_printable s start : start ≤ length s → printable (drop 4 (take start s)) →
  c_ascii_impl s start = Ok (take start s ++ escaped (decorated c_decor (drop start s))).
Proof.
  intros Hle Hp. rewrite c_ascii_exact by done. set (text := decorated c_decor (drop start s)). cbv zeta.
  destruct (has_escapes text) eqn:He; [|by rewrite escaped_printable by (by apply no_escapes)].
  rewrite (assoc_L (++)). do 2 f_equal. assert (length (take start s) = start) by (rewrite length_take; lia).
  destruct (Nat.leb_spec start 4).
  - rewrite Nat.min_l, (drop_ge (take start s)) by lia. apply app_nil_r.
  - rewrite Nat.min_r, escaped_printable by (done || lia). rewrite <-(take_drop 4 (take start s)) at 2.
    by rewrite take_take, Nat.min_l by lia.
Qed.

(** * Examples *)

Module sample_decor.

(** Characters of one byte. *)
#[export] Program Instance ascii_boundary : CharBoundary ascii := {| length_until_boundary := λ _ n, n |}.
Next Obligation. intros. lia. Qed.

#[export] Instance ascii_unit : UnitBoundary ascii.
Proof. by intros s n _. Qed.

Definition string_max : nat := 100.

(** A stream for a string of at most 20 characters, which has a label. *)
Definition label : str := str_lit "text=".
Definition attached : stream :=
  snd ((stream_attach string_max label;; on_buf (set_max_size string_max 20)) (new_stream " "%char)).

Definition message : formatter := fmt_op (op_text 0 " "%char false (lit "a<`b`")).

Example decorated_message :
  fst ((char_decorator (decor_impl xml_decor) (run_formatter string_max message);; stream_str) attached) =
    Ok (lit "text=a&lt;&quot;b&qu").
Proof. by vm_compute. Qed.

Lemma decorators_roundtrip_witness :
  (∃ s', (char_decorator (decor_impl xml_decor) (run_formatter string_max message);; stream_str) attached =
      (Ok (lit "text=a&lt;&quot;b&qu"), s') ∧ good s') ∧
  undecorate 18 (decorations xml_decor) (lit "a&lt;&quot;b&quot;") = lit "a<`b`".
Proof.
  destruct (decorators_roundtrip string_max xml_decor message 20 label attached) as [(s' & E & Hg & _) [Hu _]];
    [done|vm_compute; lia|vm_compute; lia|done|..].
  - split; [done|]. split; [vm_compute; lia|]. exists label. split; [done|]. split; [done|vm_compute; lia].
  - assert (decorated xml_decor (output message) = lit "a&lt;&quot;b&quot;") as Ht by (vm_compute; reflexivity).
    assert (take 20 (label ++ lit "a&lt;&quot;b&quot;") = lit "text=a&lt;&quot;b&qu") as Hcut by (vm_compute; reflexivity).
    assert (length (lit "a&lt;&quot;b&quot;") = 18) as Hl by (vm_compute; reflexivity).
    assert (output message = lit "a<`b`") as Ho by (vm_compute; reflexivity).
    rewrite Ht, Hcut in E. rewrite Ht, Hl, Ho in Hu. by split; [exists s'|].
Defined.

(** A tabulation written before the decorated text is escaped with it. *)
Example c_ascii_escapes_before :
  c_ascii_impl (str_lit "name:" ++ [chr 9; chr 200]) 6 = Ok (lit "name:~x09~xC8") ∧
  c_ascii_impl (str_lit "name:" ++ [chr 9; "x"%char]) 6 = Ok (str_lit "name:" ++ [chr 9; "x"%char]).
Proof. split; by vm_compute. Qed.

End sample_decor.
