(* ===== verification/Manipulators.v ===== *)
(** Stream manipulators: ranges, tuples and optional values
    (src/include/boost/log/utility/manipulators/range.hpp, tuple.hpp,
    optional.hpp), the newline that ends a line (auto_newline.hpp), and
    conditional formatters (src/include/boost/log/expressions/formatters/if.hpp).

    The elements of a range, a tuple or an optional value are written by code of
    the program that gives the stream their texts. *)

From stdpp Require Import base numbers list.
From S2P Require Import Prelude CodeConvert StreamBuf.

Section manipulators.
Context {char : Type} `{!EqDecision char, !CharBoundary char}.

(** [range_manipulator::output]: the loop after the first element, and the
    whole; elements are given by the code that writes them. *)
Fixpoint range_rest (delimiter : sm stream unit) (l : list (sm (@stream char) unit)) : sm stream unit :=
  match l with
  | [] => mret ()
  | it :: l => delimiter;; it;; range_rest delimiter l
  end.

Definition range_output (delimiter : sm stream unit) (l : list (sm (@stream char) unit)) : sm stream unit :=
  match l with
  | [] => mret ()
  | it :: l => it;; range_rest delimiter l
  end.

(** [range_manipulator< RangeT, void >::output]. *)
Fixpoint range_output_all (l : list (sm (@stream char) unit)) : sm stream unit :=
  match l with
  | [] => mret ()
  | it :: l => it;; range_output_all l
  end.

(** [tuple_manipulator::output_visitor]; the flag is false for the first
    element. *)
Definition output_visitor (delimiter : sm stream unit) (not_first : bool) (elem : sm (@stream char) unit) : sm stream bool :=
  (if not_first then delimiter else mret ());; elem;; mret true.

(** [boost::fusion::fold] with the visitor. *)
Fixpoint fold_elements (delimiter : sm stream unit) (not_first : bool) (l : list (sm (@stream char) unit)) : sm stream unit :=
  match l with
  | [] => mret ()
  | elem :: l => b ← output_visitor delimiter not_first elem; fold_elements delimiter b l
  end.

Definition tuple_output (delimiter : sm stream unit) (l : list (sm (@stream char) unit)) : sm stream unit :=
  fold_elements delimiter false l.

(** [operator<<] for ranges and tuples: nothing is written to a stream that is
    not good. *)
Definition when_good (m : sm (@stream char) unit) : sm stream unit := s ← sm_get; if good s then m else mret ().

(** [optional_manipulator::output], with and without a marker for no value. *)
Definition optional_output (none : option (sm stream unit)) (opt : option (sm (@stream char) unit)) : sm stream unit :=
  match opt, none with
  | Some value, _ => value
  | None, Some none => none
  | None, None => mret ()
  end.

(** [operator<<] for [auto_newline]. *)
Definition auto_newline (newline : char) : sm stream unit :=
  s ← sm_get;
  if good s then
    match storage (sb s) with
    | Some _ =>
        on_buf sync;;
        str ← on_buf get_storage;
        if decide (last str = Some newline) then mret () else on_buf (push_back newline);; mret ()
    | None => mret ()
    end
  else mret ().

(** [if_output_terminal] and [if_else_output_terminal]; the condition is
    evaluated for the record. *)
Definition if_output {R : Type} (cond : R → outcome bool) (then_ : R → sm (@stream char) unit) (rec : R) : sm stream unit :=
  b ← sm_lift (cond rec); (if (b : bool) then then_ rec else mret ()).

Definition if_else_output {R : Type} (cond : R → outcome bool) (then_ else_ : R → sm (@stream char) unit) (rec : R) : sm stream unit :=
  b ← sm_lift (cond rec); (if (b : bool) then then_ rec else else_ rec).

(** * Their text *)

(** Code that gives a good stream the text that [f] makes of what it has. *)
Definition rewrites (f : list char → list char) (m : sm stream unit) : Prop :=
  ∀ mx total s, good s → holds mx total (sb s) →
  ∃ s', m s = (Ok (), s') ∧ holds mx (f total) (sb s') ∧ good s'.

Definition writes (t : list char) (m : sm stream unit) : Prop := rewrites (λ total, total ++ t) m.

Lemma rewrites_seq f g m k : rewrites f m → rewrites g k → rewrites (λ total, g (f total)) (m;; k).
Proof.
  intros Hm Hk mx total s Hg H. destruct (Hm mx total s Hg H) as (s1 & E1 & H1 & Hg1).
  destruct (Hk _ _ s1 Hg1 H1) as (s2 & E2 & H2). exists s2. by rewrite sm_bind_run, E1.
Qed.

Lemma writes_seq t u m k : writes t m → writes u k → writes (t ++ u) (m;; k).
Proof.
  intros Hm Hk mx total s Hg H. destruct (rewrites_seq _ _ _ _ Hm Hk mx total s Hg H) as (s' & E & H').
  exists s'. by rewrite (assoc_L (++)).
Qed.

Lemma writes_ret : writes [] (mret ()).
Proof. intros mx total s Hg H. exists s. by rewrite app_nil_r. Qed.

(** Strings and characters are written in this way. *)
Lemma text_writes w c l p : writes (padded w c l p) (run_op (op_text w c l p)).
Proof.
  intros mx total s Hg H. destruct (run_op_holds mx total (op_text w c l p) s) as (s' & E & [H' _] & Hg'); [by split; [|left]|].
  exists s'. by rewrite Hg'.
Qed.

Lemma put_writes c : writes [c] (run_op (op_put c)).
Proof.
  intros mx total s Hg H. destruct (run_op_holds mx total (op_put c) s) as (s' & E & [H' _] & Hg'); [by split; [|left]|].
  exists s'. by rewrite Hg'.
Qed.

(** Texts with delimiters between them. *)
Fixpoint delimited (d : list char) (l : list (list char)) : list char :=
  match l with
  | [] => []
  | t :: l => t ++ match l with [] => [] | _ => d ++ delimited d l end
  end.

Lemma range_rest_writes d delimiter ts l : writes d delimiter → Forall2 writes ts l →
  writes (match ts with [] => [] | _ => d ++ delimited d ts end) (range_rest delimiter l).
Proof.
  intros Hd. induction 1 as [|t m ts l Hm Hl IH]; [apply writes_ret|]. cbn [range_rest delimited].
  apply writes_seq; [done|]. by apply writes_seq.
Qed.

Lemma range_writes d delimiter ts l : writes d delimiter → Forall2 writes ts l →
  writes (delimited d ts) (range_output delimiter l).
Proof.
  intros Hd H. destruct H as [|t m ts l Hm Hl]; [apply writes_ret|]. cbn [range_output delimited].
  by apply writes_seq; [|apply range_rest_writes].
Qed.

Lemma range_all_writes ts l : Forall2 writes ts l → writes (mjoin ts) (range_output_all l).
Proof. induction 1 as [|t m ts l Hm Hl IH]; [apply writes_ret|]. by apply writes_seq. Qed.

(** Tuples are written as ranges are. *)
Lemma tuple_as_range delimiter l s : tuple_output delimiter l s = range_output delimiter l s.
Proof.
  assert (∀ l s, fold_elements delimiter true l s = range_rest delimiter l s) as Hrest.
  { clear l s. induction l as [|m l IH]; intros s; [done|]. cbn [fold_elements range_rest]. unfold output_visitor.
    rewrite !sm_bind_run. destruct (delimiter s) as [[[]| |] s1]; [|done..]. rewrite !sm_bind_run.
    destruct (m s1) as [[[]| |] s2]; [|done..]. apply IH. }
  destruct l as [|m l]; [done|]. unfold tuple_output. cbn [fold_elements range_output]. unfold output_visitor.
  rewrite !sm_bind_run. cbn [mret sm_ret]. rewrite !sm_bind_run. destruct (m s) as [[[]| |] s1]; [|done..]. apply Hrest.
Qed.

Lemma when_good_run m s : good s → when_good m s = m s.
Proof. intros Hg. unfold when_good. sm_step. by destruct (good s). Qed.

Lemma optional_writes tn t none opt :
  (if none is Some m then writes tn m else tn = []) → (if opt is Some m then writes t m else t = tn) →
  writes t (optional_output none opt).
Proof. destruct opt, none; cbn; [done|done|by intros ? ->|intros -> ->; apply writes_ret]. Qed.

(** ** Reading a range back *)

(** Split a text at a delimiter of one character. *)
Fixpoint split_at (d : char) (s : list char) : list (list char) :=
  match s with
  | [] => [[]]
  | c :: s =>
      if decide (c = d) then [] :: split_at d s
      else match split_at d s with
           | t :: ts => (c :: t) :: ts
           | [] => [[c]]
           end
  end.

Lemma split_at_skip d t s : d ∉ t →
  split_at d (t ++ s) = match split_at d s with u :: us => (t ++ u) :: us | [] => [t] end.
Proof.
  induction t as [|c t IH]; intros Hd; cbn; [destruct s; cbn; repeat case_match; done|].
  apply not_elem_of_cons in Hd as [Hc Hd]. rewrite decide_False, (IH Hd) by done.
  by destruct (split_at d s).
Qed.

Lemma split_delimited d ts : ts ≠ [] → Forall (λ t, d ∉ t) ts → split_at d (delimited [d] ts) = ts.
Proof.
  intros Hne H. induction H as [|t ts Ht Hts IH]; [done|]. cbn [delimited]. rewrite split_at_skip by done.
  destruct ts as [|u ts]; [cbn; by rewrite app_nil_r|]. cbn [app split_at]. rewrite decide_True by done.
  rewrite IH by done. by rewrite app_nil_r.
Qed.

(** ** The end of a line *)

(** The text with a newline at its end. *)
Definition ended (newline : char) (t : list char) : list char :=
  if decide (last t = Some newline) then t else t ++ [newline].

Lemma auto_newline_rewrites newline : rewrites (ended newline) (auto_newline newline).
Proof.
  intros mx total s Hg H. unfold auto_newline. sm_step. rewrite (Is_true_true_1 _ Hg).
  destruct (holds_full _ _ _ H) as (st0 & ov0 & pa0 & Hb). destruct (holds_sync _ _ _ H) as (st & ov & E & H1 & _).
  rewrite Hb. cbn [full storage]. rewrite sm_bind_run. erewrite on_buf_run by exact E. cbv beta iota.
  rewrite sm_bind_run. erewrite on_buf_run by apply get_storage_run. cbv beta iota. unfold ended.
  pose proof (holds_elim _ _ _ _ H1) as H2. destruct ov.
  - assert (holds mx (if decide (last total = Some newline) then total else total ++ [newline]) (full st mx true [])) as H3.
    { apply holds_intro. case_decide; [done|by apply cut_app]. }
    exists (with_sb (full st mx true []) s). split; [by destruct (decide (last st = Some newline))|by split].
  - destruct H2 as [-> Hle]. case_decide; [by eexists|].
    destruct (emits_push_back newline _ _ _ _ H1) as (x & st' & ov' & E' & H').
    eexists. rewrite sm_bind_run. erewrite on_buf_run by exact E'. split; [done|]. by split.
Qed.

(** A list of values as one line: the texts of the elements with delimiters
    between them, behind what the stream has, and one newline at the end. The
    stream is not changed otherwise, and a delimiter that is not in the texts
    separates them again. *)
Theorem range_line d newline delimiter ts l : writes [d] delimiter → Forall2 writes ts l →
  rewrites (λ total, ended newline (total ++ delimited [d] ts)) (when_good (range_output delimiter l);; auto_newline newline) ∧
  rewrites (λ total, ended newline (total ++ delimited [d] ts)) (when_good (tuple_output delimiter l);; auto_newline newline) ∧
  (ts ≠ [] → Forall (λ t, d ∉ t) ts → split_at d (delimited [d] ts) = ts).
Proof.
  intros Hd Hl. pose proof (range_writes _ _ _ _ Hd Hl) as Hr.
  assert (∀ m, (∀ s, m s = range_output delimiter l s) → writes (delimited [d] ts) (when_good m)) as Hw.
  { intros m Hm mx total s Hg H. destruct (Hr mx total s Hg H) as (s' & E & H'). exists s'.
    by rewrite when_good_run, Hm by done. }
  split; [|split; [|apply split_delimited]]; (eapply rewrites_seq; [|apply auto_newline_rewrites]); apply Hw; [done|].
  apply tuple_as_range.
Qed.

End manipulators.
