(* ===== verification/StringLiteral.v ===== *)
(** String literals: src/include/boost/log/utility/string_literal.hpp.

    A literal is a pointer and a length. Pointers point into arrays of constant
    characters; reading outside of an array is undefined. *)

From Stdlib Require Import ZArith.
From stdpp Require Import base numbers list gmap.
From S2P Require Import Prelude StreamBuf.

Section literals.
(** Characters, in the order of their codes, and the terminating one. *)
Context {char : Type} `{!EqDecision char} (code : char → Z) `{!Inj (=) (=) code} (zero : char).

(** * Memory *)

(** A pointer: an array and a position in it. *)
Abbreviation pointer := (nat * nat)%type.
Abbreviation memory := (gmap nat (list char)).

(** [n] characters from a pointer. *)
Definition read (m : memory) (p : pointer) (n : nat) : outcome (list char) :=
  let* a := of_ptr (m !! p.1) in
  if decide (p.2 + n ≤ length a) then Ok (take n (drop p.2 a)) else Stuck.

(** [traits_type::length]. *)
Fixpoint scan_zero (l : list char) : outcome nat :=
  match l with
  | [] => Stuck
  | c :: l => if decide (c = zero) then Ok 0 else let* n := scan_zero l in Ok (S n)
  end.

Definition str_length (m : memory) (p : pointer) : outcome nat :=
  let* a := of_ptr (m !! p.1) in scan_zero (drop p.2 a).

(** [traits_type::compare] of characters in the same number. *)
Fixpoint traits_compare (l r : list char) : Z :=
  match l, r with
  | a :: l, b :: r => if decide (code a < code b)%Z then -1 else if decide (code b < code a)%Z then 1 else traits_compare l r
  | _, _ => 0
  end%Z.

(** * Literals *)

Record string_literal := StringLiteral { m_pStart : pointer; m_Len : nat }.

(** The array [g_EmptyString]. *)
Context (g_EmptyString : pointer).

Definition empty_literal : string_literal := StringLiteral g_EmptyString 0.

(** The constructor and assignment from an array, the terminating zero included. *)
Definition literal_of_array (p : pointer) (len : nat) : string_literal := StringLiteral p (len - 1).

Definition compare_internal (m : memory) (pLeft : pointer) (LeftLen : nat) (pRight : pointer) (RightLen : nat) : outcome Z :=
  let lengths : Z := if decide (LeftLen < RightLen) then (-1)%Z else if decide (RightLen < LeftLen) then 1%Z else 0%Z in
  if decide (pLeft = pRight) then Ok lengths
  else
    let n := if decide (LeftLen < RightLen) then LeftLen else RightLen in
    let* l := read m pLeft n in
    let* r := read m pRight n in
    let result := traits_compare l r in
    if decide (result = 0%Z) then Ok lengths else Ok result.

(** The comparison operators: with a literal or a string, and with a
    zero-terminated one; [test] is the test of the result. *)
Definition compare_with (test : Z → bool) (m : memory) (l : string_literal) (p : pointer) (len : nat) : outcome bool :=
  let* r := compare_internal m (m_pStart l) (m_Len l) p len in Ok (test r).

Definition compare_with_c_str (test : Z → bool) (m : memory) (l : string_literal) (p : pointer) : outcome bool :=
  let* len := str_length m p in compare_with test m l p len.

Definition op_eq (r : Z) : bool := bool_decide (r = 0)%Z.
Definition op_ne (r : Z) : bool := bool_decide (r ≠ 0)%Z.
Definition op_lt (r : Z) : bool := bool_decide (r < 0)%Z.
Definition op_le (r : Z) : bool := bool_decide (r ≤ 0)%Z.
Definition op_gt (r : Z) : bool := bool_decide (r > 0)%Z.
Definition op_ge (r : Z) : bool := bool_decide (r >= 0)%Z.

Definition literal_at (m : memory) (l : string_literal) (i : nat) : outcome char :=
  if decide (m_Len l ≤ i) then Throw ex_out_of_range
  else let* s := read m (m_pStart l) (S i) in of_ptr (s !! i).

Definition str (m : memory) (l : string_literal) : outcome (list char) := read m (m_pStart l) (m_Len l).
Definition clear (l : string_literal) : string_literal := StringLiteral g_EmptyString 0.
Definition swap (p : string_literal * string_literal) : string_literal * string_literal := (p.2, p.1).
Definition assign (that l : string_literal) : string_literal := StringLiteral (m_pStart that) (m_Len that).

Definition advance (p : pointer) (n : nat) : pointer := (p.1, p.2 + n).

(** [copy] to a buffer; the result has the buffer and the number of characters. *)
Definition copy (m : memory) (l : string_literal) (buf : list char) (n pos : nat) : outcome (list char * nat) :=
  if decide (m_Len l < pos) then Throw ex_out_of_range
  else
    let len := m_Len l - pos in
    let len := if decide (n < len) then n else len in
    let* s := read m (advance (m_pStart l) pos) len in
    if decide (len ≤ length buf) then Ok (s ++ drop len buf, len) else Stuck.

(** [compare] with a part of the literal. *)
Definition compare (m : memory) (l : string_literal) (pos n : nat) (p : pointer) (len : nat) : outcome Z :=
  if decide (m_Len l < pos) then Throw ex_out_of_range
  else
    let compare_size := m_Len l - pos in
    let compare_size := if decide (len < compare_size) then len else compare_size in
    let compare_size := if decide (n < compare_size) then n else compare_size in
    compare_internal m (advance (m_pStart l) pos) compare_size p compare_size.

(** * The order of strings *)

Fixpoint lex (l r : list char) : comparison :=
  match l, r with
  | [], [] => Eq
  | [], _ => Lt
  | _, [] => Gt
  | a :: l, b :: r => match (code a ?= code b)%Z with Eq => lex l r | c => c end
  end.

Definition to_int (c : comparison) : Z := match c with Lt => -1 | Eq => 0 | Gt => 1 end%Z.

Lemma lex_Eq l r : lex l r = Eq ↔ l = r.
Proof.
  revert r. induction l as [|a l IH]; intros [|b r]; cbn; [done..|].
  destruct (Z.compare_spec (code a) (code b)) as [E|E|E].
  - apply (inj code) in E as ->. rewrite IH. naive_solver.
  - split; [done|]. intros [= -> ->]. lia.
  - split; [done|]. intros [= -> ->]. lia.
Qed.

Lemma lex_swap l r : lex r l = CompOpp (lex l r).
Proof.
  revert r. induction l as [|a l IH]; intros [|b r]; cbn; [done..|].
  rewrite (Z.compare_antisym (code a) (code b)). by destruct (code a ?= code b)%Z; cbn.
Qed.

Lemma lex_trans l r s : lex l r = Lt → lex r s = Lt → lex l s = Lt.
Proof.
  revert r s. induction l as [|a l IH]; intros [|b r] [|c s]; cbn; try done.
  destruct (Z.compare_spec (code a) (code b)), (Z.compare_spec (code b) (code c)), (Z.compare_spec (code a) (code c));
    try done; try lia; eauto.
Qed.

(** Prefixes of the same string are ordered by length. *)
Lemma lex_prefixes a n k : n ≤ length a → k ≤ length a → lex (take n a) (take k a) = (n ?= k)%nat.
Proof.
  revert n k. induction a as [|x a IH]; intros [|n] [|k] Hn Hk; cbn in *; try done; try lia.
  rewrite Z.compare_refl. apply IH; lia.
Qed.

Lemma traits_compare_lex l r n : n = length l `min` length r →
  to_int (lex l r) = (if decide (traits_compare (take n l) (take n r) = 0)%Z
                      then to_int (length l ?= length r)%nat else traits_compare (take n l) (take n r)).
Proof.
  intros ->. revert r. induction l as [|a l IH]; intros [|b r]; cbn; [done..|].
  destruct (Z.compare_spec (code a) (code b)) as [E|E|E].
  - rewrite (decide_False (P := (code a < code b)%Z)), (decide_False (P := (code b < code a)%Z)) by lia. apply IH.
  - by rewrite (decide_True (P := (code a < code b)%Z)) by lia.
  - by rewrite (decide_False (P := (code a < code b)%Z)), (decide_True (P := (code b < code a)%Z)) by lia.
Qed.

(** The characters [s] at a pointer. *)
Definition points_to (m : memory) (p : pointer) (s : list char) : Prop :=
  ∃ a, m !! p.1 = Some a ∧ p.2 + length s ≤ length a ∧ take (length s) (drop p.2 a) = s.

(** A literal with the text [s], and a zero-terminated string. *)
Definition literal_is (m : memory) (l : string_literal) (s : list char) : Prop :=
  m_Len l = length s ∧ points_to m (m_pStart l) s.
Definition c_string (m : memory) (p : pointer) (s : list char) : Prop := (zero ∉ s) ∧ points_to m p (s ++ [zero]).

Lemma read_points m p s n : points_to m p s → n ≤ length s → read m p n = Ok (take n s).
Proof.
  intros (a & Ha & Hle & Hs) Hn. unfold read. rewrite Ha. cbn. rewrite decide_True by lia.
  by rewrite <- Hs, take_take, Nat.min_l by lia.
Qed.

Lemma points_to_app m p s t : points_to m p (s ++ t) → points_to m p s.
Proof.
  intros (a & Ha & Hle & Hs). rewrite length_app in Hle. exists a. split; [done|]. split; [lia|].
  apply (f_equal (take (length s))) in Hs. by rewrite take_take, take_app_length, length_app, Nat.min_l in Hs by lia.
Qed.

Lemma points_to_advance m p s n : points_to m p s → n ≤ length s → points_to m (advance p n) (drop n s).
Proof.
  intros (a & Ha & Hle & Hs) Hn. exists a. cbn. rewrite length_drop. split; [done|]. split; [lia|].
  apply (f_equal (drop n)) in Hs. by rewrite skipn_firstn_comm, drop_drop in Hs.
Qed.

Lemma str_length_run m p s : c_string m p s → str_length m p = Ok (length s).
Proof.
  intros (Hz & a & Ha & Hle & Hs). unfold str_length. rewrite Ha. cbn.
  assert (drop p.2 a = s ++ [zero] ++ drop (length (s ++ [zero])) (drop p.2 a)) as ->.
  { rewrite (assoc_L (++)), <- Hs at 1. by rewrite take_drop. }
  generalize (drop (length (s ++ [zero])) (drop p.2 a)). intros r. clear -Hz. change ([zero] ++ r) with (zero :: r).
  induction s as [|c s IH]; cbn [app scan_zero length]; [by rewrite decide_True|].
  apply not_elem_of_cons in Hz as [Hc Hz]. rewrite decide_False by done. by rewrite IH.
Qed.

Lemma compare_internal_run m p q s t : points_to m p s → points_to m q t →
  compare_internal m p (length s) q (length t) = Ok (to_int (lex s t)).
Proof.
  intros Hp Hq. unfold compare_internal.
  assert ((if decide (length s < length t) then (-1)%Z else if decide (length t < length s) then 1%Z else 0%Z) =
    to_int (length s ?= length t)%nat) as ->.
  { destruct (Nat.compare_spec (length s) (length t)); repeat case_decide; by (try lia). }
  destruct (decide (p = q)) as [<-|Hne].
  - destruct Hp as (a & Ha & Hle & Hs), Hq as (a' & Ha' & Hle' & Ht). assert (a' = a) as -> by congruence.
    rewrite <- Hs, <- Ht. rewrite (lex_prefixes (drop p.2 a)) by (rewrite length_drop; lia). by rewrite Hs, Ht.
  - set (n := if decide (length s < length t) then length s else length t).
    assert (n = length s `min` length t) as Hn by (subst n; case_decide; lia).
    rewrite (read_points m p s), (read_points m q t) by (done || lia). cbn.
    rewrite (traits_compare_lex s t n Hn). by case_decide.
Qed.

(** Comparisons of literals. The operators on a literal and a literal, string
    or zero-terminated string are those of the lexicographic order of the texts,
    which is a total order, also when both are stored at the same address or
    contain zeros; nothing outside of the texts and the terminating zeros is
    read. *)
Theorem literal_order m l s p t : literal_is m l s → points_to m p t →
  (∀ test, compare_with test m l p (length t) = Ok (test (to_int (lex s t))) ∧
    (c_string m p t → compare_with_c_str test m l p = Ok (test (to_int (lex s t))))) ∧
  (op_eq (to_int (lex s t)) ↔ s = t) ∧ op_ne (to_int (lex s t)) = negb (op_eq (to_int (lex s t))) ∧
  (op_lt (to_int (lex s t)) ↔ lex s t = Lt) ∧ op_gt (to_int (lex s t)) = op_lt (to_int (lex t s)) ∧
  op_le (to_int (lex s t)) = negb (op_gt (to_int (lex s t))) ∧ op_ge (to_int (lex s t)) = negb (op_lt (to_int (lex s t))) ∧
  (∀ u, lex s t = Lt → lex t u = Lt → lex s u = Lt).
Proof.
  intros [Hlen Hl] Hp. split; [|split_and!].
  - intros test. assert (compare_with test m l p (length t) = Ok (test (to_int (lex s t)))) as E.
    { unfold compare_with. by rewrite Hlen, compare_internal_run. }
    split; [done|]. intros Hc. unfold compare_with_c_str. by rewrite (str_length_run m p t).
  - rewrite <- lex_Eq. by destruct (lex s t).
  - by destruct (lex s t).
  - by destruct (lex s t).
  - rewrite (lex_swap s t). by destruct (lex s t).
  - by destruct (lex s t).
  - by destruct (lex s t).
  - intros u. apply lex_trans.
Qed.

(** Reading a literal: characters, the text, and copies of a part of it to a
    buffer that is large enough. *)
Lemma literal_at_run m l s i : literal_is m l s →
  literal_at m l i = match s !! i with Some c => Ok c | None => Throw ex_out_of_range end.
Proof.
  intros [Hlen Hl]. unfold literal_at. rewrite Hlen. case_decide as Hi; [by rewrite lookup_ge_None_2|].
  rewrite (read_points m _ s) by (done || lia). cbn. rewrite lookup_take_lt by lia.
  by destruct (lookup_lt_is_Some_2 s i ltac:(lia)) as [c ->].
Qed.

Lemma str_run m l s : literal_is m l s → str m l = Ok s.
Proof. intros [Hlen Hl]. unfold str. by rewrite Hlen, (read_points m _ s), firstn_all. Qed.

Lemma copy_run m l s buf n pos : literal_is m l s → n `min` (length s - pos) ≤ length buf →
  copy m l buf n pos = if decide (length s < pos) then Throw ex_out_of_range
                       else let k := n `min` (length s - pos) in Ok (take k (drop pos s) ++ drop k buf, k).
Proof.
  intros [Hlen Hl] Hbuf. unfold copy. rewrite Hlen. case_decide as Hpos; [done|].
  replace (if decide (n < length s - pos) then n else length s - pos) with (n `min` (length s - pos)) by (case_decide; lia).
  rewrite (read_points m _ (drop pos s)) by (first [by apply points_to_advance; [done|lia]|rewrite length_drop; lia]).
  cbn. by rewrite decide_True.
Qed.

(** [compare] only compares as many characters as both strings have. *)
Lemma compare_run m l s pos n p t : literal_is m l s → points_to m p t →
  compare m l pos n p (length t) =
    if decide (length s < pos) then Throw ex_out_of_range
    else let k := n `min` (length t `min` (length s - pos)) in Ok (to_int (lex (take k (drop pos s)) (take k t))).
Proof.
  intros [Hlen Hl] Hp. unfold compare. rewrite Hlen. case_decide as Hpos; [done|]. cbn zeta.
  set (k := n `min` (length t `min` (length s - pos))).
  assert ((if decide (n < (if decide (length t < length s - pos) then length t else length s - pos)) then n
    else (if decide (length t < length s - pos) then length t else length s - pos)) = k) as ->.
  { subst k. repeat case_decide; lia. }
  rewrite <- (compare_internal_run m (advance (m_pStart l) pos) p).
  - rewrite !length_take, length_drop. f_equal; lia.
  - eapply points_to_app. rewrite (take_drop k). by apply points_to_advance; [|lia].
  - eapply points_to_app. by rewrite (take_drop k).
Qed.

(** * Output *)

Section output.
Context `{!CharBoundary char}.

Definition chunk_size : nat := 8.

(** The loop of [insert_fill_chars]; the result is the rest of [n]. *)
Fixpoint fill_chunks (fuel : nat) (filler : char) (n : nat) : sm (stream (char := char)) nat :=
  match fuel with
  | 0 => mret n
  | S fuel =>
      s ← sm_get;
      if (chunk_size <=? n) && good s then
        stream_write (replicate chunk_size filler);; fill_chunks fuel filler (n - chunk_size)
      else mret n
  end.

Definition insert_fill_chars (n : nat) : sm stream unit :=
  s ← sm_get;
  n ← fill_chunks n (fill s) n;
  s' ← sm_get;
  if (0 <? n) && good s' then stream_write (take n (replicate chunk_size (fill s))) else mret ().

Definition insert_aligned (p : list char) : sm stream unit :=
  s ← sm_get;
  let alignment_size := width s - length p in
  if align_left s then
    stream_write p;;
    s' ← sm_get;
    if good s' then insert_fill_chars alignment_size else mret ()
  else
    insert_fill_chars alignment_size;;
    s' ← sm_get;
    if good s' then stream_write p else mret ().

(** [operator<<] for a literal with the text [p]. *)
Definition output_literal (p : list char) : sm stream unit :=
  s ← sm_get;
  if good s then
    (if width s <=? length p then stream_write p else insert_aligned p);;
    sm_modify (set_width 0)
  else mret ().

(** Operations after which the stream has been given [t], and not more unless it
    has overflowed. *)
Lemma unless_bad mx total t s (m : sm stream unit) : stream_holds mx total s →
  (∃ s', m s = (Ok (), s') ∧ stream_holds mx (total ++ t) s') →
  ∃ s', (s0 ← sm_get; if good s0 then m else mret ()) s = (Ok (), s') ∧ stream_holds mx (total ++ t) s'.
Proof. intros Hs Hm. sm_step. destruct (good s) eqn:Hg; [done|]. eauto using bad_holds. Qed.

Lemma fill_chunks_run mx filler fuel n total s : n ≤ fuel → stream_holds mx total s →
  ∃ s' k, fill_chunks fuel filler n s = (Ok k, s') ∧ k ≤ n ∧ stream_holds mx (total ++ replicate (n - k) filler) s' ∧
    (good s' → k < chunk_size).
Proof.
  revert n total s. induction fuel as [|fuel IH]; intros n total s Hn Hs; cbn [fill_chunks].
  { assert (n = 0) as -> by lia. exists s, 0. cbn. rewrite app_nil_r. unfold chunk_size. split_and!; [done|lia|done|lia]. }
  sm_step. destruct ((chunk_size <=? n) && good s) eqn:E.
  - apply andb_true_iff in E as [E%Nat.leb_le _].
    destruct (write_holds mx total (replicate chunk_size filler) s Hs) as (s1 & E1 & H1).
    rewrite sm_bind_run, E1. unfold chunk_size in *. destruct (IH (n - 8) _ s1 ltac:(lia) H1) as (s' & k & E2 & Hk & H2 & Hg).
    exists s', k. split; [done|]. split; [lia|]. split; [|done].
    rewrite <- (assoc_L (++)), <- replicate_add in H2. by replace (n - k) with (8 + (n - 8 - k)) by lia.
  - exists s, n. rewrite Nat.sub_diag. cbn. rewrite app_nil_r. split_and!; [done|lia|done|].
    intros Hg. apply andb_false_iff in E as [E%Nat.leb_gt|E]; [done|]. by rewrite E in Hg.
Qed.

Lemma insert_fill_chars_run mx n total s : stream_holds mx total s →
  ∃ s', insert_fill_chars n s = (Ok (), s') ∧ stream_holds mx (total ++ replicate n (fill s)) s'.
Proof.
  intros Hs. unfold insert_fill_chars. sm_step.
  destruct (fill_chunks_run mx (fill s) n n total s ltac:(lia) Hs) as (s1 & k & E1 & Hk & H1 & Hg).
  rewrite sm_bind_run, E1. sm_step.
  assert (replicate n (fill s) = replicate (n - k) (fill s) ++ replicate k (fill s)) as ->.
  { rewrite <- replicate_add. f_equal. lia. }
  rewrite (assoc_L (++)). destruct (good s1) eqn:Hg1; [|rewrite andb_false_r; eauto using bad_holds].
  rewrite andb_true_r. specialize (Hg ltac:(done)). destruct k as [|k]; [exists s1; cbn; by rewrite app_nil_r|].
  rewrite take_replicate, Nat.min_l by (unfold chunk_size in *; lia). by apply write_holds.
Qed.

(** A literal is written as any other text: aligned in the width of the stream. *)
Lemma output_literal_run mx p total s : stream_holds mx total s →
  ∃ s', output_literal p s = (Ok (), s') ∧
    stream_holds mx (total ++ (if good s then padded (width s) (fill s) (align_left s) p else [])) s'.
Proof.
  intros Hs. unfold output_literal. sm_step. destruct (good s) eqn:Hg; [|exists s; by rewrite app_nil_r].
  assert (∀ m t, (∃ s', m s = (Ok (), s') ∧ stream_holds mx t s') →
    ∃ s', (m;; sm_modify (set_width 0)) s = (Ok (), s') ∧ stream_holds mx t s') as Hw.
  { intros m t (s' & E & H). exists (set_width 0 s'). by rewrite sm_bind_run, E. }
  apply Hw. clear Hw. destruct (Nat.leb_spec (width s) (length p)) as [Hle|Hlt].
  { rewrite padded_narrow by done. by apply write_holds. }
  unfold insert_aligned, padded. sm_step. destruct (align_left s).
  - destruct (write_holds mx total p s Hs) as (s1 & E1 & H1). rewrite sm_bind_run, E1, (assoc_L (++)).
    assert (fill s1 = fill s) as <-.
    { revert E1. unfold stream_write. sm_step. rewrite Hg, sm_bind_run. unfold on_buf.
      destruct (xsputn p (sb s)) as [[n|e|] b]; [|done..]. by destruct (n =? length p); intros [= <-]. }
    apply unless_bad; [done|]. by apply insert_fill_chars_run.
  - destruct (insert_fill_chars_run mx (width s - length p) total s Hs) as (s1 & E1 & H1).
    rewrite sm_bind_run, E1, (assoc_L (++)). apply unless_bad; [done|]. by apply write_holds.
Qed.
End output.
End literals.

(** * Examples *)

Module sample_literals.
(** Characters are their codes; the array 1 has the text 97, 98, 99 and the
    array 2 the text 97, 98, 99, 100. *)
Definition arrays : gmap nat (list Z) := {[ 0 := [0%Z]; 1 := [97; 98; 99; 0]%Z; 2 := [97; 98; 99; 100; 0]%Z ]}.

#[local] Instance id_inj : Inj (=) (=) (id : Z → Z).
Proof. by intros x y. Qed.

Definition abc : string_literal := literal_of_array (1, 0) 4.

Lemma literal_order_witness :
  compare_with_c_str id 0%Z op_lt arrays abc (2, 0) = Ok true ∧ compare_with_c_str id 0%Z op_eq arrays abc (1, 0) = Ok true.
Proof.
  assert (literal_is arrays abc [97; 98; 99]%Z) as Habc.
  { split; [done|]. exists [97; 98; 99; 0]%Z. split; [done|]. cbn. split; [lia|done]. }
  split.
  - destruct (literal_order id 0%Z arrays abc [97; 98; 99]%Z (2, 0) [97; 98; 99; 100]%Z Habc) as [H _].
    { exists [97; 98; 99; 100; 0]%Z. split; [done|]. cbn. split; [lia|done]. }
    apply (H op_lt). split; [set_solver|]. exists [97; 98; 99; 100; 0]%Z. split; [done|]. cbn. split; [lia|done].
  - destruct (literal_order id 0%Z arrays abc [97; 98; 99]%Z (1, 0) [97; 98; 99]%Z Habc (proj2 Habc)) as [H _].
    apply (H op_eq). split; [set_solver|]. exists [97; 98; 99; 0]%Z. split; [done|]. cbn. split; [lia|done].
Defined.

(** [compare] finds no difference between a literal and a longer string that
    begins with it, although [operator==] does. *)
Example prefix_compares_equal :
  compare id arrays abc 0 3 (2, 0) 4 = Ok 0%Z ∧ compare_with id op_eq arrays abc (2, 0) 4 = Ok false.
Proof. by split. Qed.
End sample_literals.
