(* ===== verification/AttributeNames.v ===== *)
(** The repository of attribute names: src/src/attribute_name.cpp,
    attributes/attribute_name.hpp and src/src/default_attribute_names.cpp.

    Names are numbered in the order in which they are first used. A lookup holds
    the mutex for reading; a name that was not found is looked up again and added
    with the mutex held for writing, so that other threads may add names in
    between. The ordered set is the one of Boost.Intrusive and is described by the
    class [NodeSet]. *)

From Stdlib Require Import ZArith Ascii String.
From stdpp Require Import base numbers list gmap strings sorting relations.
From S2P Require Import StringLiteral Prelude AttributeSet.

(** * Nodes and their order *)

Record node := Node { m_id : N; m_name : str }.

#[export] Instance node_eq_dec : EqDecision node.
Proof. solve_decision. Defined.

(** The code of an [unsigned char]. *)
Definition byte (c : ascii) : Z := Z.of_nat (nat_of_ascii c).

#[export] Instance byte_inj : Inj (=) (=) byte.
Proof. intros a b E%Nat2Z.inj. by rewrite <- (ascii_nat_embedding a), E, ascii_nat_embedding. Qed.

(** [std::strcmp] of the texts before the terminating zeros. *)
Definition strcmp (left right : str) : comparison := lex byte left right.

Definition order_by_name (left right : str) : bool := bool_decide (strcmp left right = Lt).

(** [intrusive::set] ordered by [order_by_name], with the nodes in their order. *)
Class NodeSet (T : Type) := {
  set_empty : T;
  set_nodes : T → list node;
  set_find : T → str → option node;
  set_lower_bound : T → str → option node;
  set_insert : T → option node → node → T * node;
  set_empty_nodes : set_nodes set_empty = [];
  set_sorted t : StronglySorted (λ a b, order_by_name (m_name a) (m_name b)) (set_nodes t);
  set_find_law t k : match set_find t k with
    | Some n => n ∈ set_nodes t ∧ strcmp (m_name n) k = Eq
    | None => ∀ n, n ∈ set_nodes t → strcmp (m_name n) k ≠ Eq
    end;
  set_lower_bound_law t k : match set_lower_bound t k with
    | Some n => ∃ l1 l2, set_nodes t = l1 ++ n :: l2 ∧ (∀ x, x ∈ l1 → order_by_name (m_name x) k) ∧
                         order_by_name (m_name n) k = false
    | None => ∀ x, x ∈ set_nodes t → order_by_name (m_name x) k
    end;
  set_insert_law t hint n : (∀ x, x ∈ set_nodes t → strcmp (m_name x) (m_name n) ≠ Eq) →
    (set_insert t hint n).2 = n ∧ set_nodes (set_insert t hint n).1 ≡ₚ n :: set_nodes t }.

(** * The repository *)

Section repository.
Context {T : Type} `{!NodeSet T}.

Record repository := Repository { m_NodeList : list node; m_NodeSet : T }.

Definition init_instance : repository := Repository [] set_empty.

(** The lookup with the mutex held for reading. *)
Definition find_id (name : str) (r : repository) : option N := m_id <$> set_find (m_NodeSet r) name.

(** The part with the mutex held for writing. *)
Definition insert_id (name : str) : sm repository N :=
  r ← sm_get;
  let it := set_lower_bound (m_NodeSet r) name in
  if match it with None => true | Some n => bool_decide (m_name n ≠ name) end then
    let new_id := length (m_NodeList r) in
    if decide (uninitialized ≤ N.of_nat new_id)%N then sm_throw (ex_limitation_error 0)
    else
      let back := Node (N.of_nat new_id mod 2 ^ 32) name in
      let (set, n) := set_insert (m_NodeSet r) it back in
      sm_put (Repository (m_NodeList r ++ [back]) set);; mret (m_id n)
  else
    n ← sm_lift (of_ptr it); mret (m_id n).

Definition get_id_from_string (name : str) : sm repository N :=
  r ← sm_get;
  match find_id name r with Some id => mret id | None => insert_id name end.

Definition get_string_from_id (id : N) (r : repository) : outcome str :=
  let* n := of_ptr (m_NodeList r !! N.to_nat id) in Ok (m_name n).

(** * Names *)

(** [attribute_name]: its identifier. The constructors: *)
Definition no_name : N := uninitialized.
Definition name_of_c_str (name : str) : sm repository N := get_id_from_string name.
Definition name_of_string (name : str) : sm repository N := get_id_from_string (c_str name).

Definition name_string (id : N) (r : repository) : outcome str := get_string_from_id id r.

Definition name_eq (a b : N) : bool := bool_decide (a = b).

(** Comparison with a string. *)
Definition name_eq_string (id : N) (that : str) (r : repository) : outcome bool :=
  if decide (id = uninitialized) then Ok false else let* s := name_string id r in Ok (bool_decide (s = that)).

(** [operator<<]: the text that is put out. *)
Definition name_text (id : N) (r : repository) : outcome str :=
  if decide (id = uninitialized) then Ok (str_lit "[uninitialized]") else let* s := name_string id r in Ok (c_str s).

(** [default_attribute_names::names]. *)
Fixpoint construct_names (l : list str) : sm repository (list N) :=
  match l with
  | [] => mret []
  | name :: l => id ← name_of_c_str name; ids ← construct_names l; mret (id :: ids)
  end.

Definition default_names : sm repository (list N) :=
  construct_names (str_lit <$> ["Severity"; "Channel"; "Message"; "LineID"; "TimeStamp"; "ProcessID"; "ThreadID"]%string).

(** * The invariant *)

(** The nodes are numbered, have different names and are those of the set. *)
Record repo_ok (r : repository) : Prop := RepoOk {
  ok_ids : ∀ i n, m_NodeList r !! i = Some n → m_id n = N.of_nat i;
  ok_names : NoDup (m_name <$> m_NodeList r);
  ok_set : set_nodes (m_NodeSet r) ≡ₚ m_NodeList r;
  ok_size : (N.of_nat (length (m_NodeList r)) ≤ uninitialized)%N }.

(** The name with an identifier. *)
Definition names_of (r : repository) : list str := m_name <$> m_NodeList r.

Definition has_name (r : repository) (id : N) (name : str) : Prop := names_of r !! N.to_nat id = Some name.

Lemma strcmp_Eq a b : strcmp a b = Eq ↔ a = b.
Proof. apply lex_Eq. apply _. Qed.

Lemma set_names r name : repo_ok r → (∃ n, n ∈ set_nodes (m_NodeSet r) ∧ m_name n = name) ↔ name ∈ names_of r.
Proof.
  intros Hr. unfold names_of. rewrite list_elem_of_fmap. setoid_rewrite (ok_set r Hr). naive_solver.
Qed.

Lemma node_has_name r n : repo_ok r → n ∈ set_nodes (m_NodeSet r) → has_name r (m_id n) (m_name n) ∧ (m_id n < uninitialized)%N.
Proof.
  intros Hr Hn. rewrite (ok_set r Hr) in Hn. apply list_elem_of_lookup in Hn as [i Hi].
  pose proof (ok_ids r Hr i n Hi) as Hid. unfold has_name, names_of. rewrite Hid, Nat2N.id, list_lookup_fmap, Hi.
  split; [done|]. apply lookup_lt_Some in Hi. pose proof (ok_size r Hr). lia.
Qed.

Lemma find_id_spec r name : repo_ok r →
  match find_id name r with
  | Some id => has_name r id name ∧ (id < uninitialized)%N
  | None => name ∉ names_of r
  end.
Proof.
  intros Hr. unfold find_id. pose proof (set_find_law (m_NodeSet r) name) as H.
  destruct (set_find (m_NodeSet r) name) as [n|]; cbn.
  - destruct H as [Hn <-%strcmp_Eq]. by apply node_has_name.
  - intros (n & Hn & Heq)%(set_names r name Hr). apply (H n Hn). by apply strcmp_Eq.
Qed.

(** The binary search finds the name or the place of a name that is missing. *)
Lemma lower_bound_new r name : repo_ok r →
  match set_lower_bound (m_NodeSet r) name with
  | Some n => n ∈ set_nodes (m_NodeSet r) ∧ (m_name n ≠ name → name ∉ names_of r)
  | None => name ∉ names_of r
  end.
Proof.
  intros Hr. pose proof (set_lower_bound_law (m_NodeSet r) name) as H. pose proof (set_sorted (m_NodeSet r)) as Hs.
  pose proof (set_names r name Hr) as Hin. revert H Hs Hin. generalize (set_nodes (m_NodeSet r)) as l. intros l.
  destruct (set_lower_bound (m_NodeSet r) name) as [n|].
  - intros (l1 & l2 & -> & H1 & H2) Hs Hin. split; [set_solver|]. intros Hne (x & Hx & <-)%Hin.
    apply elem_of_app in Hx as [Hx%H1|Hx].
    + apply bool_decide_unpack in Hx. unfold strcmp in Hx. by rewrite (proj2 (lex_Eq byte _ _) eq_refl) in Hx.
    + apply elem_of_cons in Hx as [-> |Hx]; [done|]. apply StronglySorted_app_1_r in Hs.
      apply StronglySorted_inv in Hs as [_ Hs]. rewrite Forall_forall in Hs. specialize (Hs x Hx).
      unfold order_by_name in *. rewrite bool_decide_eq_false in H2. by apply bool_decide_unpack in Hs.
  - intros H _ Hin (x & Hx%H & <-)%Hin. apply bool_decide_unpack in Hx. unfold strcmp in Hx.
    by rewrite (proj2 (lex_Eq byte _ _) eq_refl) in Hx.
Qed.

Lemma repo_ok_insert r name hint : repo_ok r → name ∉ names_of r → (N.of_nat (length (m_NodeList r)) < uninitialized)%N →
  let back := Node (N.of_nat (length (m_NodeList r)) mod 2 ^ 32) name in
  (set_insert (m_NodeSet r) hint back).2 = back ∧
  repo_ok (Repository (m_NodeList r ++ [back]) (set_insert (m_NodeSet r) hint back).1) ∧
  m_id back = N.of_nat (length (m_NodeList r)).
Proof.
  intros Hr Hnew Hsize back. assert (m_id back = N.of_nat (length (m_NodeList r))) as Hid.
  { cbn. apply N.mod_small. unfold uninitialized in Hsize. change (N.ones 32) with (2 ^ 32 - 1)%N in Hsize. lia. }
  destruct (set_insert_law (m_NodeSet r) hint back) as [H1 H2].
  { intros x Hx Heq%strcmp_Eq. apply Hnew. apply (set_names r name Hr). by exists x. }
  split; [done|]. split; [|done]. split; cbn [m_NodeList m_NodeSet].
  - intros i n Hi. apply lookup_app_Some in Hi as [Hi|[Hge Hi]]; [by apply (ok_ids r Hr)|].
    apply list_lookup_singleton_Some in Hi as [Hi <-]. rewrite Hid. f_equal. lia.
  - rewrite fmap_app. apply NoDup_app. split; [apply (ok_names r Hr)|]. split; [|apply NoDup_singleton].
    intros x Hx ->%list_elem_of_singleton. by apply Hnew.
  - rewrite H2, (ok_set r Hr). by rewrite Permutation_app_comm.
  - rewrite length_app. cbn. lia.
Qed.

(** What a call of the part with the write lock does. *)
Definition insert_post (name : str) (r : repository) (res : outcome N * repository) : Prop :=
  match res with
  | (Ok id, r') => repo_ok r' ∧ has_name r' id name ∧ (id < uninitialized)%N ∧
      names_of r' = (if decide (name ∈ names_of r) then names_of r else names_of r ++ [name])
  | (Throw e, r') => r' = r ∧ e = ex_limitation_error 0 ∧ (name ∉ names_of r) ∧ N.of_nat (length (names_of r)) = uninitialized
  | (Stuck, _) => False
  end.

Lemma insert_id_spec r name : repo_ok r → insert_post name r (insert_id name r).
Proof.
  intros Hr. unfold insert_id. rewrite sm_bind_run. cbn [sm_get]. pose proof (lower_bound_new r name Hr) as Hlb.
  set (it := set_lower_bound (m_NodeSet r) name) in *.
  destruct (match it with None => true | Some n => bool_decide (m_name n ≠ name) end) eqn:E.
  - assert (name ∉ names_of r) as Hnew.
    { destruct it as [n|]; [|done]. apply bool_decide_eq_true in E. by apply Hlb. }
    case_decide as Hfull.
    { cbn. split; [done|]. split; [done|]. split; [done|]. unfold names_of. rewrite length_fmap. pose proof (ok_size r Hr). lia. }
    destruct (repo_ok_insert r name it Hr Hnew ltac:(lia)) as (H1 & H2 & Hid).
    destruct (set_insert (m_NodeSet r) it _) as [set n]. cbn [fst snd] in H1, H2. subst n.
    rewrite sm_bind_run. cbn [sm_put insert_post mret sm_ret]. split; [done|]. unfold has_name, names_of. cbn [m_NodeList].
    rewrite Hid, Nat2N.id, fmap_app, decide_False by done. split; [|split; [lia|done]].
    by rewrite lookup_app_r, length_fmap, Nat.sub_diag by (by rewrite length_fmap).
  - destruct it as [n|]; [|done]. rewrite bool_decide_eq_false in E. apply dec_stable in E as <-. destruct Hlb as [Hn _].
    cbn [sm_lift of_ptr]. rewrite sm_bind_run. cbn [sm_lift mret sm_ret insert_post]. split; [done|].
    destruct (node_has_name r n Hr Hn) as [H1 H2]. split; [done|]. split; [done|].
    rewrite decide_True; [done|]. apply (set_names r _ Hr). by exists n.
Qed.

Lemma insert_names r name res : insert_post name r res → names_of r `prefix_of` names_of res.2.
Proof.
  destruct res as [[id|e|] r']; cbn; [|by intros (-> & _)|done]. intros (_ & _ & _ & ->). case_decide; [done|]. by exists [name].
Qed.

(** * Threads *)

(** A call of [get_id_from_string]: before the lookup, and before the part with
    the write lock. *)
Inductive pc := looking (name : str) | inserting (name : str) | returned.

(** The repository, the calls, and the names with the identifiers that were
    returned for them. *)
Record system := System { repo : repository; calls : gmap nat pc; results : list (str * N) }.

Definition return_id (i : nat) (name : str) (r : outcome N * repository) (σ : system) : system :=
  System r.2 (<[i := returned]> (calls σ)) (match r.1 with Ok id => (name, id) :: results σ | _ => results σ end).

Inductive step : system → system → Prop :=
| step_call σ i name : calls σ !! i = None → step σ (System (repo σ) (<[i := looking name]> (calls σ)) (results σ))
| step_found σ i name id : calls σ !! i = Some (looking name) → find_id name (repo σ) = Some id →
    step σ (return_id i name (Ok id, repo σ) σ)
| step_not_found σ i name : calls σ !! i = Some (looking name) → find_id name (repo σ) = None →
    step σ (System (repo σ) (<[i := inserting name]> (calls σ)) (results σ))
| step_insert σ i name : calls σ !! i = Some (inserting name) → step σ (return_id i name (insert_id name (repo σ)) σ).

Definition initial : system := System init_instance ∅ [].

Record inv (σ : system) : Prop := Inv {
  inv_repo : repo_ok (repo σ);
  inv_results : ∀ name id, (name, id) ∈ results σ → has_name (repo σ) id name ∧ (id < uninitialized)%N }.

Lemma init_ok : repo_ok init_instance.
Proof. split; cbn; [done|constructor|by rewrite set_empty_nodes|unfold uninitialized; lia]. Qed.

Lemma has_name_mono r r' id name : names_of r `prefix_of` names_of r' → has_name r id name → has_name r' id name.
Proof. unfold has_name. intros [l ->] H. by apply lookup_app_l_Some. Qed.

Lemma step_inv σ σ' : step σ σ' → inv σ → inv σ' ∧ names_of (repo σ) `prefix_of` names_of (repo σ').
Proof.
  intros Hs [Hr Hres]. destruct Hs as [σ i name Hi|σ i name id Hi E|σ i name Hi E|σ i name Hi].
  - done.
  - pose proof (find_id_spec (repo σ) name Hr) as H. rewrite E in H. split; [|done]. split; [done|]. cbn.
    intros name' id' [[= -> ->]|Hin]%elem_of_cons; [done|]. by apply Hres.
  - done.
  - pose proof (insert_id_spec (repo σ) name Hr) as H. pose proof (insert_names (repo σ) name _ H) as Hp.
    split; [|done]. destruct (insert_id name (repo σ)) as [[id|e|] r']; cbn in H, Hp.
    + destruct H as (Hr' & Hid & Hlt & _). split; [done|]. cbn.
      intros name' id' [[= -> ->]|[Hn Hl]%Hres]%elem_of_cons; [done|]. split; [by eapply has_name_mono|done].
    + destruct H as (-> & _). by split.
    + done.
Qed.

Lemma steps_inv σ σ' : rtc step σ σ' → inv σ → inv σ' ∧ names_of (repo σ) `prefix_of` names_of (repo σ').
Proof.
  induction 1 as [|σ σ1 σ2 Hs _ IH]; intros Hi; [done|]. destruct (step_inv _ _ Hs Hi) as [H1 H2].
  destruct (IH H1) as [H3 H4]. split; [done|]. by transitivity (names_of (repo σ1)).
Qed.

Lemma reachable_inv σ : rtc step initial σ → inv σ.
Proof. intros Hr. apply (steps_inv _ _ Hr). split; [apply init_ok|]. by intros ?? ?%elem_of_nil. Qed.

Lemma get_string_name r id name : has_name r id name → get_string_from_id id r = Ok name.
Proof.
  unfold has_name, names_of, get_string_from_id. rewrite list_lookup_fmap. destruct (_ !! _); [|done]. by intros [= <-].
Qed.

Lemma has_name_inj r id id' name : repo_ok r → has_name r id name → has_name r id' name → id = id'.
Proof. intros Hr H1 H2. apply N2Nat.inj. by eapply NoDup_lookup; [apply (ok_names r Hr)|..]. Qed.

(** A whole call without other threads, in any state. *)
Lemma get_id_spec r name : repo_ok r → insert_post name r (get_id_from_string name r).
Proof.
  intros Hr. unfold get_id_from_string. rewrite sm_bind_run. cbn [sm_get]. pose proof (find_id_spec r name Hr) as H.
  destruct (find_id name r) as [id|]; [|by apply insert_id_spec]. cbn. destruct H as [H1 H2].
  split; [done|]. split; [done|]. split; [done|]. rewrite decide_True; [done|]. by eapply list_elem_of_lookup_2.
Qed.

(** C37: attribute names. In every interleaving of any number of threads that ask
    for the identifiers of names, the identifiers are assigned one after the other
    from zero; equal names get equal identifiers and different names different
    ones, none is the one of an uninitialized name, and the string of an
    identifier is its name, at that time and whatever other names are added later.
    A call fails only when the name is new and all identifiers are in use. *)
Theorem names_interned σ σ' : rtc step initial σ → rtc step σ σ' →
  (∀ name id, (name, id) ∈ results σ → get_string_from_id id (repo σ') = Ok name ∧ id ≠ uninitialized ∧
    name_text id (repo σ') = Ok (c_str name) ∧ (N.to_nat id < length (m_NodeList (repo σ))) ∧
    ∀ that, name_eq_string id that (repo σ') = Ok (bool_decide (name = that))) ∧
  (∀ name id name' id', (name, id) ∈ results σ → (name', id') ∈ results σ' → name_eq id id' = bool_decide (name = name')) ∧
  (∀ i n, m_NodeList (repo σ) !! i = Some n → m_id n = N.of_nat i) ∧
  (∀ name, match (get_id_from_string name (repo σ)).1 with
     | Ok id => True
     | Throw e => e = ex_limitation_error 0 ∧ N.of_nat (length (m_NodeList (repo σ))) = uninitialized ∧ name ∉ names_of (repo σ)
     | Stuck => False
     end).
Proof.
  intros Hr Hs. pose proof (reachable_inv σ Hr) as [Hok Hres].
  destruct (steps_inv _ _ Hs (Inv σ Hok Hres)) as [[Hok' Hres'] Hpre].
  assert (∀ name id, (name, id) ∈ results σ → has_name (repo σ') id name ∧ id ≠ uninitialized) as Hlater.
  { intros name id [H1 H2]%Hres. split; [by eapply has_name_mono|lia]. }
  split_and!.
  - intros name id Hin. destruct (Hlater name id Hin) as [Hn Hu]. apply get_string_name in Hn.
    unfold name_text, name_eq_string, name_string. rewrite !decide_False, Hn by done. cbn. split_and!; try done;
      [|intros that; by rewrite decide_False].
    apply Hres in Hin as [Hin%lookup_lt_Some _]. unfold names_of in Hin. by rewrite length_fmap in Hin.
  - intros name id name' id' Hin Hin'. unfold name_eq. apply bool_decide_ext.
    destruct (Hlater name id Hin) as [H1 _], (Hres' name' id' Hin') as [H2 _]. split.
    + intros <-. unfold has_name in H1, H2. congruence.
    + intros <-. by eapply has_name_inj.
  - apply (ok_ids _ Hok).
  - intros name. pose proof (get_id_spec (repo σ) name Hok) as H.
    destruct (get_id_from_string name (repo σ)) as [[id|e|] r']; cbn in H |- *; [done| |done].
    destruct H as (_ & -> & Hnew & Hlen). unfold names_of in Hlen. by rewrite length_fmap in Hlen.
Qed.
End repository.

(** * Example *)

Module sample_names.
(** A set as an ordered list, without using the hint. *)
Fixpoint insert_node (n : node) (l : list node) : list node :=
  match l with
  | [] => [n]
  | x :: l => if order_by_name (m_name x) (m_name n) then x :: insert_node n l else n :: x :: l
  end.

Definition before (a b : node) : Prop := order_by_name (m_name a) (m_name b).

Definition sorted_nodes : Type := { l : list node | StronglySorted before l }.

Definition find_name (l : list node) (k : str) : option node := snd <$> list_find (λ n, m_name n = k) l.

Lemma order_trans a b c : order_by_name a b → order_by_name b c → order_by_name a c.
Proof. unfold order_by_name, strcmp. rewrite !bool_decide_spec. apply lex_trans. Qed.

Lemma order_total a b : order_by_name a b = false → a ≠ b → order_by_name b a.
Proof.
  unfold order_by_name. rewrite bool_decide_eq_false, bool_decide_spec. unfold strcmp. rewrite (lex_swap byte a b).
  intros H Hne. destruct (lex byte a b) eqn:E; [|done|done]. destruct Hne. by apply (lex_Eq byte).
Qed.

Lemma insert_node_perm n l : insert_node n l ≡ₚ n :: l.
Proof.
  induction l as [|x l IH]; cbn; [done|]. case_match; [|done]. rewrite IH. constructor.
Qed.

Lemma insert_node_sorted n l : StronglySorted before l → n.(m_name) ∉ m_name <$> l → StronglySorted before (insert_node n l).
Proof.
  induction 1 as [|x l Hl IH Hx]; cbn; [by repeat constructor|]. intros [Hne Hn]%not_elem_of_cons. case_match eqn:E.
  - constructor; [by apply IH|]. rewrite insert_node_perm. constructor; [|done]. unfold before. by rewrite E.
  - assert (before n x) as Hnx by (by apply order_total). constructor; [by constructor|]. constructor; [done|].
    eapply Forall_impl; [exact Hx|]. intros y Hy. by eapply order_trans.
Qed.

(** A node with a name that is there is not inserted. *)
Lemma insert_sorted n (t : sorted_nodes) :
  StronglySorted before (if decide (m_name n ∈ m_name <$> `t) then `t else insert_node n (`t)).
Proof. case_decide; [apply (proj2_sig t)|]. apply insert_node_sorted; [apply (proj2_sig t)|done]. Qed.

Definition insert_set (t : sorted_nodes) (hint : option node) (n : node) : sorted_nodes * node :=
  (exist _ _ (insert_sorted n t), default n (find_name (`t) (m_name n))).

(** The first node that is not before the name. *)
Definition lower_bound_node (t : sorted_nodes) (k : str) : option node :=
  snd <$> list_find (λ n, order_by_name (m_name n) k = false) (`t).

Lemma find_law (t : sorted_nodes) k : match find_name (`t) k with
  | Some n => n ∈ `t ∧ strcmp (m_name n) k = Eq
  | None => ∀ n, n ∈ `t → strcmp (m_name n) k ≠ Eq
  end.
Proof.
  unfold find_name. destruct (list_find _ _) as [[i n]|] eqn:E; cbn.
  - apply list_find_Some in E as (Hi & <- & _). split; [by eapply list_elem_of_lookup_2|by apply strcmp_Eq].
  - apply list_find_None in E. rewrite Forall_forall in E. intros n Hn Heq%strcmp_Eq. by apply (E n).
Qed.

Lemma lower_bound_law (t : sorted_nodes) k : match lower_bound_node t k with
  | Some n => ∃ l1 l2, `t = l1 ++ n :: l2 ∧ (∀ x, x ∈ l1 → order_by_name (m_name x) k) ∧ order_by_name (m_name n) k = false
  | None => ∀ x, x ∈ `t → order_by_name (m_name x) k
  end.
Proof.
  unfold lower_bound_node. destruct (list_find _ _) as [[i n]|] eqn:E; cbn.
  - apply list_find_Some in E as (Hi & Hn & Hlt). exists (take i (`t)), (drop (S i) (`t)). split_and!; [|intros x Hx|done].
    + by rewrite take_drop_middle.
    + apply list_elem_of_lookup in Hx as [j Hj]. apply lookup_take_Some in Hj as [Hj Hij].
      specialize (Hlt j x Hj Hij). by destruct (order_by_name (m_name x) k).
  - apply list_find_None in E. rewrite Forall_forall in E. intros x Hx%E. by destruct (order_by_name (m_name x) k).
Qed.

Lemma insert_law (t : sorted_nodes) hint n : (∀ x, x ∈ `t → strcmp (m_name x) (m_name n) ≠ Eq) →
  (insert_set t hint n).2 = n ∧ proj1_sig ((insert_set t hint n).1) ≡ₚ n :: `t.
Proof.
  intros Hnew. assert (m_name n ∉ m_name <$> `t) as Hn.
  { intros (x & Hx & Hin)%list_elem_of_fmap. apply (Hnew x Hin). by apply strcmp_Eq. }
  cbn. rewrite decide_False by done. split; [|apply insert_node_perm].
  pose proof (find_law t (m_name n)) as H. destruct (find_name (`t) (m_name n)) as [x|]; [|done].
  destruct H as [Hx Heq]. by destruct (Hnew x Hx).
Qed.

#[local] Instance sorted_node_set : NodeSet sorted_nodes := {|
  set_empty := exist _ [] (SSorted_nil before);
  set_nodes t := `t;
  set_find t k := find_name (`t) k;
  set_lower_bound := lower_bound_node;
  set_insert := insert_set;
  set_empty_nodes := eq_refl;
  set_sorted t := proj2_sig t;
  set_find_law := find_law;
  set_lower_bound_law := lower_bound_law;
  set_insert_law := insert_law |}.

(** Two threads look the same new name up before one of them adds it, and a third
    one adds another name in between. *)
Definition run_race : outcome N * outcome N * outcome N * repository :=
  let r0 := init_instance in
  let (a, r1) := insert_id (str_lit "Severity") r0 in
  let (b, r2) := insert_id (str_lit "Channel") r1 in
  let (c, r3) := insert_id (str_lit "Severity") r2 in (a, b, c, r3).

Definition raced : system :=
  let '(_, _, _, r) := run_race in
  System r {[1 := returned; 2 := returned; 3 := returned]}
    [(str_lit "Severity", 0%N); (str_lit "Channel", 1%N); (str_lit "Severity", 0%N)].

Lemma raced_reachable : rtc step initial raced.
Proof.
  eapply rtc_l; [by apply (step_call _ 1 (str_lit "Severity"))|]. eapply rtc_l; [by apply (step_call _ 2 (str_lit "Severity"))|].
  eapply rtc_l; [by apply (step_call _ 3 (str_lit "Channel"))|].
  eapply rtc_l; [by apply (step_not_found _ 1 (str_lit "Severity"))|]. eapply rtc_l; [by apply (step_not_found _ 2 (str_lit "Severity"))|].
  eapply rtc_l; [by apply (step_not_found _ 3 (str_lit "Channel"))|].
  eapply rtc_l; [by apply (step_insert _ 1 (str_lit "Severity"))|]. eapply rtc_l; [by apply (step_insert _ 3 (str_lit "Channel"))|].
  eapply rtc_l; [by apply (step_insert _ 2 (str_lit "Severity"))|].
  apply rtc_refl.
Qed.

Lemma names_interned_witness :
  (str_lit "Channel", 1%N) ∈ results raced ∧ get_string_from_id 1 (repo raced) = Ok (str_lit "Channel") ∧
  name_eq 0 0 = true ∧ name_eq 0 1 = false.
Proof.
  destruct (names_interned raced raced raced_reachable (rtc_refl _ _)) as (H1 & H2 & _).
  assert ((str_lit "Channel", 1%N) ∈ results raced) as Hc by (apply (bool_decide_unpack _); by vm_compute).
  assert ((str_lit "Severity", 0%N) ∈ results raced) as Hs by (apply (bool_decide_unpack _); by vm_compute).
  split; [done|]. split; [by apply (H1 _ _ Hc)|].
  split; [exact (H2 _ _ _ _ Hs Hs)|exact (H2 _ _ _ _ Hs Hc)].
Defined.
End sample_names.

