(* ===== verification/Frontend.v ===== *)
(** Sink frontends: the filter, the exception handler and the formatting of
    records (src/include/boost/log/sinks/basic_sink_frontend.hpp), the
    synchronous and the unlocked frontend (sync_frontend.hpp,
    unlocked_frontend.hpp), several threads in them, and synchronous sinks
    behind the logging core.

    A thread formats records in a context of its own, which holds a copy of the
    formatter and the locale and is renewed when the version of the settings has
    changed. *)

From Stdlib Require Import ZArith.
From stdpp Require Import base numbers list gmap functions.
From S2P Require Import Prelude BucketList AttributeValueSet Core StreamBuf.

(** Runs [m], then [fin] on every path, as a destructor does. *)
Definition sm_finally {St X} (m : sm St X) (fin : sm St unit) : sm St X := λ σ,
  match m σ with
  | (Ok x, σ') => (fin;; mret x) σ'
  | (Throw e, σ') => (fin;; sm_throw e) σ'
  | (Stuck, σ') => (Stuck, σ')
  end.

(** The operations of a mutex as [lock_guard] and the frontends use them. *)
Record mutex (W : Type) := Mutex {
  mutex_lock : sm W unit;
  mutex_try_lock : sm W bool;
  mutex_unlock : W → W }.
Arguments Mutex {W}.
Arguments mutex_lock {W} _.
Arguments mutex_try_lock {W} _.
Arguments mutex_unlock {W} _.

(** [fake_mutex]. *)
Definition fake_mutex {W} : mutex W := Mutex (mret ()) (mret true) id.

(** A block with a lock guard in it. *)
Definition with_lock {W X} (mu : mutex W) (m : sm W X) : sm W X :=
  mutex_lock mu;; sm_finally m (sm_modify (mutex_unlock mu)).

Section frontend.
Context {char : Type} `{!CharBoundary char} (string_max_size : nat) (space : char).
(** Records, locales, attribute values, and the rest of the program: what
    backends, filters and exception handlers act on. *)
Context {rec locale V W : Type}.

Abbreviation stream := (@stream char).

(** A formatter writes a record to a stream with a locale. *)
Definition formatter_type : Type := rec → locale → sm stream unit.

(** * The frontend *)

(** [formatting_context]; [m_FormattedRecord] is the string that is attached to
    the stream. *)
Record formatting_context := FormattingContext {
  c_Version : Z;
  c_FormattingStream : stream;
  c_Locale : locale;
  c_Formatter : formatter_type }.

Definition new_context (version : Z) (loc : locale) (f : formatter_type) : outcome formatting_context :=
  match stream_attach string_max_size [] (new_stream space) with
  | (Ok _, s) => Ok (FormattingContext version s loc f)
  | (Throw e, _) => Throw e
  | (Stuck, _) => Stuck
  end.

(** [basic_sink_frontend] and [basic_formatting_sink_frontend]; an empty filter
    accepts every record; [m_pContext] has the contexts by thread. *)
Record frontend := Frontend {
  m_Filter : query V W;
  m_ExceptionHandler : option (exn → sm W unit);
  m_Version : Z;
  m_Formatter : formatter_type;
  m_Locale : locale;
  m_pContext : gmap nat formatting_context }.

(** The constructor; the formatter and the locale are the defaults. *)
Definition new_frontend (default_formatter : formatter_type) (global_locale : locale) : frontend :=
  Frontend (QRet true) None 0 default_formatter global_locale ∅.

Definition set_filter (q : query V W) (f : frontend) : frontend :=
  Frontend q (m_ExceptionHandler f) (m_Version f) (m_Formatter f) (m_Locale f) (m_pContext f).
Definition reset_filter (f : frontend) : frontend := set_filter (QRet true) f.

Definition set_handler (h : option (exn → sm W unit)) (f : frontend) : frontend :=
  Frontend (m_Filter f) h (m_Version f) (m_Formatter f) (m_Locale f) (m_pContext f).
Definition set_exception_handler (h : exn → sm W unit) (f : frontend) : frontend := set_handler (Some h) f.
Definition reset_exception_handler (f : frontend) : frontend := set_handler None f.

Definition set_formatter (fm : formatter_type) (f : frontend) : frontend :=
  Frontend (m_Filter f) (m_ExceptionHandler f) (u32 (m_Version f + 1)) fm (m_Locale f) (m_pContext f).
Definition reset_formatter (default_formatter : formatter_type) (f : frontend) : frontend :=
  set_formatter default_formatter f.
Definition getloc (f : frontend) : locale := m_Locale f.
Definition imbue (loc : locale) (f : frontend) : frontend :=
  Frontend (m_Filter f) (m_ExceptionHandler f) (u32 (m_Version f + 1)) (m_Formatter f) loc (m_pContext f).

Definition set_contexts (cs : gmap nat formatting_context) (f : frontend) : frontend :=
  Frontend (m_Filter f) (m_ExceptionHandler f) (m_Version f) (m_Formatter f) (m_Locale f) cs.

(** [will_consume]. *)
Definition sink_will_consume (f : frontend) : query V W :=
  QTry (m_Filter f) (λ e,
    match m_ExceptionHandler f with
    | None => QThrow e
    | Some h => QDo (h e ≫= λ _, mret false) QRet
    end).

(** ** The context of a thread *)

(** [!context || context->m_Version != m_Version.load()], negated. *)
Definition context_current (tid : nat) (f : frontend) : bool :=
  match m_pContext f !! tid with
  | Some c => (c_Version c =? m_Version f)%Z
  | None => false
  end.

Definition renew_context (tid : nat) : sm frontend unit :=
  f ← sm_get;
  c ← sm_lift (new_context (m_Version f) (m_Locale f) (m_Formatter f));
  sm_modify (set_contexts (<[tid := c]> (m_pContext f))).

Definition get_context (tid : nat) : sm frontend unit :=
  f ← sm_get; if context_current tid f then mret () else renew_context tid.

(** Code that works on the stream of the thread's context. *)
Definition on_context {X} (tid : nat) (m : sm stream X) : sm frontend X := λ f,
  match m_pContext f !! tid with
  | None => (Stuck, f)
  | Some c =>
      let (r, s) := m (c_FormattingStream c) in
      (r, set_contexts (<[tid := FormattingContext (c_Version c) s (c_Locale c) (c_Formatter c)]> (m_pContext f)) f)
  end.

(** The formatting; the result is [m_FormattedRecord]. *)
Definition format_record (tid : nat) (r : rec) : sm frontend (list char) :=
  f ← sm_get;
  c ← sm_lift (of_ptr (m_pContext f !! tid));
  on_context tid (c_Formatter c r (c_Locale c);; stream_flush;; on_buf get_storage).

(** [~cleanup_guard]. *)
Definition clean_stream : sm stream unit :=
  on_buf (sm_modify (set_storage []));;
  on_buf (set_max_size string_max_size string_max_size);;
  on_buf (sm_modify (set_overflow false));;
  sm_modify (set_good true).

Definition cleanup (tid : nat) : sm frontend unit := on_context tid clean_stream.

(** ** Feeding *)

(** The operations of a backend; [flush] is there if it is required. *)
Record backend := Backend {
  backend_consume : rec → list char → sm W unit;
  backend_flush : option (sm W unit) }.

Definition on_front {X} (m : sm frontend X) : sm (frontend * W) X := λ '(f, w),
  let (r, f') := m f in (r, (f', w)).
Definition on_world {X} (m : sm W X) : sm (frontend * W) X := λ '(f, w),
  let (r, w') := m w in (r, (f, w')).

(** [if (exception_handler().empty()) throw; exception_handler()();] *)
Definition handle_error (e : exn) : sm (frontend * W) unit :=
  '(f, _) ← sm_get; on_world (handle (m_ExceptionHandler f) e).

(** [basic_formatting_sink_frontend::feed_record]. *)
Definition feed_record (mu : mutex W) (b : backend) (tid : nat) (r : rec) : sm (frontend * W) unit :=
  on_front (get_context tid);;
  sm_finally
    (sm_catch
       (text ← on_front (format_record tid r);
        on_world (with_lock mu (backend_consume b r text)))
       handle_error)
    (on_front (cleanup tid)).

(** [try_feed_record], with the [feed_record] of either frontend. *)
Definition try_feed_record (mu : mutex W) (feed : mutex W → sm (frontend * W) unit) : sm (frontend * W) bool :=
  locked ← sm_catch (on_world (mutex_try_lock mu)) (λ e, handle_error e;; mret false);
  if locked : bool then
    sm_finally (feed fake_mutex;; mret true) (on_world (sm_modify (mutex_unlock mu)))
  else mret false.

(** [basic_sink_frontend::feed_record], for backends without formatting. *)
Definition basic_feed_record (mu : mutex W) (consume : rec → sm W unit) (r : rec) : sm (frontend * W) unit :=
  sm_catch (on_world (with_lock mu (consume r))) handle_error.

(** [flush_backend]. *)
Definition flush_backend (mu : mutex W) (b : backend) : sm (frontend * W) unit :=
  match backend_flush b with
  | Some fl => sm_catch (on_world (with_lock mu fl)) handle_error
  | None => mret ()
  end.

(** ** [synchronous_sink] and [unlocked_sink] *)

Definition sync_consume mu b tid r : sm (frontend * W) unit := feed_record mu b tid r.
Definition sync_try_consume mu b tid r : sm (frontend * W) bool :=
  try_feed_record mu (λ mu, feed_record mu b tid r).
Definition sync_flush mu b : sm (frontend * W) unit := flush_backend mu b.

Definition unlocked_consume b tid r : sm (frontend * W) unit := feed_record fake_mutex b tid r.
(** [sink::try_consume]. *)
Definition unlocked_try_consume b tid r : sm (frontend * W) bool := unlocked_consume b tid r;; mret true.
Definition unlocked_flush b : sm (frontend * W) unit := flush_backend fake_mutex b.

(** * What a feed does *)

(** A stream that is ready for a record. *)
Definition clean (s : stream) : Prop := good s ∧ sb s = StreamBuf (Some []) string_max_size false [].

(** On a stream that is ready, [fm] writes the text [txt], within the size of a
    string, or throws. When it throws, it has sent the characters it put in the
    buffer to the string, and has not detached the string. *)
Definition formatter_spec (txt : rec → locale → list char + exn) (fm : formatter_type) : Prop :=
  ∀ r loc s, clean s → ∃ s',
    match txt r loc with
    | inl t => fm r loc s = (Ok (), s') ∧ good s' ∧ holds string_max_size t (sb s') ∧ length t ≤ string_max_size
    | inr e => fm r loc s = (Throw e, s') ∧ is_Some (storage (sb s')) ∧ put_area (sb s') = []
    end.

(** The text a formatter writes to the stream of a new context. *)
Definition text_of (fm : formatter_type) (r : rec) (loc : locale) : list char + exn :=
  match new_context 0 loc fm with
  | Ok c =>
      match (fm r loc;; stream_flush;; on_buf get_storage) (c_FormattingStream c) with
      | (Ok t, _) => inl t
      | (Throw e, _) => inr e
      | (Stuck, _) => inl []
      end
  | _ => inl []
  end.

(** The contexts are ready, are not newer than the settings, and those of the
    current version are copies of the settings. *)
Record front_ok (f : frontend) : Prop := FrontOk {
  contexts_clean : map_Forall (λ _ c, clean (c_FormattingStream c)) (m_pContext f);
  contexts_version : map_Forall (λ _ c, (c_Version c ≤ m_Version f)%Z) (m_pContext f);
  contexts_settings : map_Forall (λ _ c, c_Version c = m_Version f →
    c_Formatter c = m_Formatter f ∧ c_Locale c = m_Locale f) (m_pContext f);
  version_range : (0 ≤ m_Version f < 2 ^ 32)%Z }.

(** The same frontend apart from the contexts. *)
Definition same_settings (f f' : frontend) : Prop := f' = set_contexts (m_pContext f') f.

(** A call of [feed_record] as seen by the program: the text goes to the backend
    under the lock, exceptions go to the handler. *)
Definition feed_spec (mu : mutex W) (b : backend) (txt : rec → locale → list char + exn)
    (f : frontend) (r : rec) : sm W unit :=
  sm_catch
    match txt r (m_Locale f) with
    | inl t => with_lock mu (backend_consume b r t)
    | inr e => sm_throw e
    end
    (handle (m_ExceptionHandler f)).

Lemma new_context_run version loc fm : ∃ s,
  new_context version loc fm = Ok (FormattingContext version s loc fm) ∧ clean s.
Proof.
  unfold new_context, stream_attach, on_buf, attach, set_max_size, ensure_max_size. eexists. split.
  - cbn -[Nat.ltb]. by rewrite Nat.ltb_irrefl.
  - done.
Qed.

(** The guard restores everything but the buffer. *)
Lemma clean_stream_run s : is_Some (storage (sb s)) →
  ∃ s', clean_stream s = (Ok (), s') ∧ good s' ∧
    sb s' = StreamBuf (Some []) string_max_size false (put_area (sb s)).
Proof.
  intros _. unfold clean_stream, on_buf, set_max_size, ensure_max_size. eexists. split.
  - cbn -[Nat.ltb]. by rewrite Nat.ltb_irrefl.
  - done.
Qed.

Lemma flush_storage t s : good s → holds string_max_size t (sb s) → length t ≤ string_max_size →
  ∃ s', (stream_flush;; on_buf get_storage) s = (Ok t, s') ∧ storage (sb s') = Some t ∧ put_area (sb s') = [].
Proof.
  intros Hg H Hle. destruct (stream_flush_run string_max_size t s Hg H) as (st & ov & E & H' & _).
  eexists. rewrite sm_bind_run, E. cbn.
  apply holds_elim in H'. destruct ov; [pose proof (cut_length _ _ _ H'); lia|]. by destruct H' as [-> _].
Qed.

(** A formatter that is described by [txt] has that text. *)
Lemma text_of_spec txt fm r loc : formatter_spec txt fm → text_of fm r loc = txt r loc.
Proof.
  intros H. unfold text_of. destruct (new_context_run 0 loc fm) as (s & -> & Hs). cbn [c_FormattingStream].
  destruct (H r loc s Hs) as (s' & Hs'). destruct (txt r loc) as [t|e].
  - destruct Hs' as (E & Hg & Hh & Hle). destruct (flush_storage t s' Hg Hh Hle) as (s2 & E2 & _).
    by rewrite sm_bind_run, E, E2.
  - by rewrite sm_bind_run, (proj1 Hs').
Qed.

Lemma text_of_described txt fm : formatter_spec txt fm → formatter_spec (text_of fm) fm.
Proof. intros H r loc s Hs. rewrite (text_of_spec txt) by done. by apply H. Qed.

Lemma on_context_run {X} tid (m : sm stream X) f c (r : outcome X) s : m_pContext f !! tid = Some c →
  m (c_FormattingStream c) = (r, s) →
  on_context tid m f =
    (r, set_contexts (<[tid := FormattingContext (c_Version c) s (c_Locale c) (c_Formatter c)]> (m_pContext f)) f).
Proof. intros Hc E. unfold on_context. by rewrite Hc, E. Qed.

(** After [get_context] the thread has a ready copy of the settings. *)
Lemma get_context_run tid f : front_ok f → ∃ f' c,
  get_context tid f = (Ok (), f') ∧ front_ok f' ∧ same_settings f f' ∧
  m_pContext f' !! tid = Some c ∧ c_Version c = m_Version f ∧
  c_Formatter c = m_Formatter f ∧ c_Locale c = m_Locale f.
Proof.
  intros [H1 H2 H3 H4]. unfold get_context. sm_step. destruct (context_current tid f) eqn:Hcur.
  - unfold context_current in Hcur. destruct (m_pContext f !! tid) as [c|] eqn:Hc; [|done].
    apply Z.eqb_eq in Hcur. exists f, c. split; [done|]. split; [done|]. split; [by destruct f|].
    destruct (H3 _ _ Hc Hcur). done.
  - unfold renew_context. sm_step.
    destruct (new_context_run (m_Version f) (m_Locale f) (m_Formatter f)) as (s & -> & Hs).
    eexists _, (FormattingContext _ s _ _). split; [done|].
    split; [split; cbn; [by apply map_Forall_insert_2..|done]|].
    split; [done|]. split; [apply lookup_insert_eq|done].
Qed.

Lemma map_Forall_renew {A} (P : A → Prop) (m : gmap nat A) i x :
  map_Forall (λ _, P) m → P x → map_Forall (λ _, P) (<[i := x]> m).
Proof. intros Hm Hx. by apply map_Forall_insert_2. Qed.

(** A stream that has been cleaned is as good as a new one for the context. *)
Lemma front_ok_cleaned tid f f1 c s : front_ok f → m_pContext f !! tid = Some c → clean s →
  m_pContext f1 = <[tid := FormattingContext (c_Version c) s (c_Locale c) (c_Formatter c)]> (m_pContext f) →
  same_settings f f1 → front_ok f1.
Proof.
  intros [H1 H2 H3 H4] Hc Hs Hf1 ->. rewrite Hf1. split; cbn; [apply map_Forall_renew..|done]; cbn.
  - done.
  - done.
  - done.
  - exact (H2 _ _ Hc).
  - done.
  - exact (H3 _ _ Hc).
Qed.

(** The formatting of a record in a context, with its result. *)
Lemma format_record_run tid r txt f c : m_pContext f !! tid = Some c → clean (c_FormattingStream c) →
  formatter_spec txt (c_Formatter c) → ∃ s,
  format_record tid r f =
    (match txt r (c_Locale c) with inl t => Ok t | inr e => Throw e end,
     set_contexts (<[tid := FormattingContext (c_Version c) s (c_Locale c) (c_Formatter c)]> (m_pContext f)) f) ∧
  is_Some (storage (sb s)) ∧ put_area (sb s) = [].
Proof.
  intros Hc Hcl Htxt. destruct (Htxt r (c_Locale c) _ Hcl) as (s & Hs).
  unfold format_record. sm_step. rewrite Hc. cbn [of_ptr]. sm_step. destruct (txt r (c_Locale c)) as [t|e].
  - destruct Hs as (E & Hg & Hh & Hle). destruct (flush_storage t s Hg Hh Hle) as (s2 & E2 & Hst & Hpa).
    exists s2. split; [|by rewrite Hst]. apply on_context_run; [done|]. by rewrite sm_bind_run, E.
  - destruct Hs as (E & Hst & Hpa). exists s. split; [|done]. apply on_context_run; [done|]. by rewrite sm_bind_run, E.
Qed.

(** The context is ready again after the guard. *)
Lemma cleanup_run tid f c : front_ok (set_contexts (<[tid := c]> (m_pContext f)) f) →
  ∀ s, is_Some (storage (sb s)) → put_area (sb s) = [] →
  let c' s := FormattingContext (c_Version c) s (c_Locale c) (c_Formatter c) in
  ∃ s', cleanup tid (set_contexts (<[tid := c' s]> (m_pContext f)) f) =
    (Ok (), set_contexts (<[tid := c' s']> (m_pContext f)) f) ∧ clean s' ∧
    front_ok (set_contexts (<[tid := c' s']> (m_pContext f)) f).
Proof.
  intros Hf s Hst Hpa c'. destruct (clean_stream_run s Hst) as (s' & E & Hg & Hb). rewrite Hpa in Hb.
  exists s'. split.
  - unfold cleanup. rewrite (on_context_run tid clean_stream _ (c' s) (Ok ()) s'); [|apply lookup_insert_eq|done].
    cbn. by rewrite insert_insert_eq.
  - split; [done|]. refine (front_ok_cleaned tid _ _ c s' Hf (lookup_insert_eq _ _ _) (conj Hg Hb) _ eq_refl).
    cbn. by rewrite insert_insert_eq.
Qed.

Lemma sm_finally_ok {St X} (m : sm St X) fin σ r σ1 σ2 : m σ = (r, σ1) → r ≠ Stuck → fin σ1 = (Ok (), σ2) →
  sm_finally m fin σ = (r, σ2).
Proof. intros E Hr Ef. unfold sm_finally. rewrite E. destruct r; [..|done]; by rewrite sm_bind_run, Ef. Qed.

(** What the program sees of the guarded part of a call. *)
Lemma feed_body_run mu b tid r txt f1 f2 w :
  m_ExceptionHandler f2 = m_ExceptionHandler f1 →
  format_record tid r f1 =
    (match txt r (m_Locale f1) with inl t => Ok t | inr e => Throw e end, f2) →
  sm_catch (text ← on_front (format_record tid r); on_world (with_lock mu (backend_consume b r text)))
    handle_error (f1, w) =
  ((feed_spec mu b txt f1 r w).1, (f2, (feed_spec mu b txt f1 r w).2)).
Proof.
  intros Hh E. unfold sm_catch at 1. rewrite sm_bind_run. unfold on_front. rewrite E.
  unfold feed_spec, sm_catch, handle_error. destruct (txt r (m_Locale f1)) as [t|e].
  - unfold on_world at 1. destruct (with_lock mu (backend_consume b r t) w) as [[] w']; [done| |done].
    sm_step. unfold on_world. rewrite Hh. by destruct (handle _ _ _).
  - sm_step. unfold on_world. rewrite Hh. by destruct (handle _ _ _).
Qed.

(** A call of [feed_record] is its specification, and leaves the frontend ready
    for the next record. *)
Lemma feed_record_run mu b tid r txt f w : front_ok f → formatter_spec txt (m_Formatter f) →
  ∃ f', feed_record mu b tid r (f, w) =
      ((feed_spec mu b txt f r w).1, (f', (feed_spec mu b txt f r w).2)) ∧
    same_settings f f' ∧ ((feed_spec mu b txt f r w).1 ≠ Stuck → front_ok f').
Proof.
  intros Hf Htxt. unfold feed_record.
  destruct (get_context_run tid f Hf) as (f1 & c & E1 & Hf1 & Hs1 & Hc & Hv & Hfm & Hloc).
  rewrite sm_bind_run. unfold on_front at 1. rewrite E1.
  destruct (format_record_run tid r txt f1 c Hc) as (s & E2 & Hst & Hpa);
    [exact (contexts_clean _ Hf1 _ _ Hc)|by rewrite Hfm|].
  assert (m_ExceptionHandler f1 = m_ExceptionHandler f ∧ m_Locale f1 = m_Locale f) as [Hh Hl] by by rewrite Hs1.
  assert (feed_spec mu b txt f1 r w = feed_spec mu b txt f r w) as Hspec by (unfold feed_spec; by rewrite Hh, Hl).
  replace (c_Locale c) with (m_Locale f1) in E2 at 1 by congruence.
  pose proof (λ H, feed_body_run mu b tid r txt f1 _ w H E2) as E3. specialize (E3 eq_refl). rewrite Hspec in E3.
  destruct (feed_spec mu b txt f r w) as [res w'] eqn:Er. cbn [fst snd] in *.
  destruct (cleanup_run tid f1 c) with s as (s' & E4 & Hcl & Hf'); [by rewrite insert_id; [destruct f1|]|done..|].
  destruct res as [u|e|].
  3: { eexists. split; [unfold sm_finally; by rewrite E3|]. split; [by rewrite Hs1|done]. }
  all: eexists; split; [|by split; [rewrite Hs1|intros _; exact Hf']].
  all: eapply sm_finally_ok; [exact E3|done|]; unfold on_front; by rewrite E4.
Qed.

(** ** Changing the settings *)

Lemma new_frontend_ok fm loc : front_ok (new_frontend fm loc).
Proof. split; cbn; [apply map_Forall_empty..|lia]. Qed.

(** A change of the formatter or the locale makes the contexts outdated. *)
Lemma new_version_ok f f' : front_ok f → m_pContext f' = m_pContext f →
  m_Version f' = u32 (m_Version f + 1) → (m_Version f + 1 < 2 ^ 32)%Z → front_ok f'.
Proof.
  intros [H1 H2 H3 H4] Hc Hv Hlt. assert (m_Version f' = m_Version f + 1)%Z as Hv'.
  { rewrite Hv. unfold u32. apply Z.mod_small. lia. }
  split; rewrite ?Hc, ?Hv'; [done|..|lia].
  - intros i c Hi. pose proof (H2 i c Hi). cbn in *. lia.
  - intros i c Hi ?. pose proof (H2 i c Hi). cbn in *. lia.
Qed.

Lemma set_formatter_ok fm f : front_ok f → (m_Version f + 1 < 2 ^ 32)%Z → front_ok (set_formatter fm f).
Proof. intros Hf Hlt. by apply (new_version_ok f). Qed.

Lemma imbue_ok loc f : front_ok f → (m_Version f + 1 < 2 ^ 32)%Z → front_ok (imbue loc f).
Proof. intros Hf Hlt. by apply (new_version_ok f). Qed.

(** * Threads in a synchronous sink *)

(** Where a thread is in [consume] or [try_consume]. [start] is the version of
    the settings when the call was made, [held] tells whether [try_consume] has
    locked the mutex of the backend. *)
Inductive pc : Type :=
| Idle
| Load (r : rec) (start : nat) (held : bool)
| Renew (r : rec) (start : nat) (held : bool)
| Formatting (r : rec) (start : nat) (held : bool)
| Locking (r : rec) (start : nat) (text : list char)
| Feeding (r : rec) (start : nat) (text : list char) (held : bool)
| Failed (e : exn) (held : bool)
| Leaving (result : option exn) (held : bool)
| Crashed.

(** A text that was passed to the backend, with the versions of the settings when
    the call started and when the text was passed. *)
Record feed := Feed { fed_rec : rec; fed_text : list char; fed_from : nat; fed_until : nat }.

(** The frontend, the rest of the program, the thread that holds the mutex of the
    backend, and the threads; the history of the settings, and what the
    backend has been given. *)
Record system := System {
  sys_front : frontend;
  sys_world : W;
  sys_owner : option nat;
  sys_threads : nat → pc;
  sys_history : list (formatter_type * locale);
  sys_fed : list feed }.

(** The number of the current settings in the history. *)
Definition current (x : system) : nat := length (sys_history x) - 1.

Definition release (held : bool) (owner : option nat) : option nat := if held then None else owner.

(** The next step of a thread in a call; [None] when it waits for the mutex. *)
Definition thread_step (b : backend) (tid : nat) (x : system) : option system :=
  let f := sys_front x in
  let w := sys_world x in
  let move p f w owner := System f w owner (<[tid := p]> (sys_threads x)) (sys_history x) in
  let stay p := move p f w (sys_owner x) (sys_fed x) in
  match sys_threads x tid with
  | Idle | Crashed => None
  | Load r k held =>
      Some (stay (if context_current tid f then Formatting r k held else Renew r k held))
  | Renew r k held =>
      let (res, f') := renew_context tid f in
      Some (match res with
            | Ok _ => move (Formatting r k held) f' w (sys_owner x) (sys_fed x)
            | Throw e => move Idle f' w (release held (sys_owner x)) (sys_fed x)
            | Stuck => move Crashed f' w (sys_owner x) (sys_fed x)
            end)
  | Formatting r k held =>
      let (res, f') := format_record tid r f in
      Some (move match res with
                 | Ok text => if held then Feeding r k text true else Locking r k text
                 | Throw e => Failed e held
                 | Stuck => Crashed
                 end f' w (sys_owner x) (sys_fed x))
  | Locking r k text =>
      match sys_owner x with
      | None => Some (move (Feeding r k text false) f w (Some tid) (sys_fed x))
      | Some _ => None
      end
  | Feeding r k text held =>
      let (res, w') := backend_consume b r text w in
      Some (move match res with
                 | Ok _ => Leaving None held
                 | Throw e => Failed e held
                 | Stuck => Crashed
                 end f w' (release (negb held) (sys_owner x))
                 (sys_fed x ++ [Feed r text k (current x)]))
  | Failed e held =>
      let (res, w') := handle (m_ExceptionHandler f) e w in
      Some (move match res with
                 | Ok _ => Leaving None held
                 | Throw e' => Leaving (Some e') held
                 | Stuck => Crashed
                 end f w' (sys_owner x) (sys_fed x))
  | Leaving _ held =>
      let (res, f') := cleanup tid f in
      Some (move match res with Ok _ | Throw _ => Idle | Stuck => Crashed end
              f' w (release held (sys_owner x)) (sys_fed x))
  end.

(** Calls of [consume] and [try_consume] (which does nothing when the mutex is
    locked), steps in calls, changes of the settings, of the filter and of the
    exception handler, and flushes. *)
Inductive sys_step (b : backend) : system → system → Prop :=
| step_consume tid r x : sys_threads x tid = Idle →
    sys_step b x (System (sys_front x) (sys_world x) (sys_owner x)
      (<[tid := Load r (current x) false]> (sys_threads x)) (sys_history x) (sys_fed x))
| step_try_consume tid r x : sys_threads x tid = Idle → sys_owner x = None →
    sys_step b x (System (sys_front x) (sys_world x) (Some tid)
      (<[tid := Load r (current x) true]> (sys_threads x)) (sys_history x) (sys_fed x))
| step_thread tid x x' : thread_step b tid x = Some x' → sys_step b x x'
| step_set_formatter fm x :
    sys_step b x (System (set_formatter fm (sys_front x)) (sys_world x) (sys_owner x) (sys_threads x)
      (sys_history x ++ [(fm, m_Locale (sys_front x))]) (sys_fed x))
| step_imbue loc x :
    sys_step b x (System (imbue loc (sys_front x)) (sys_world x) (sys_owner x) (sys_threads x)
      (sys_history x ++ [(m_Formatter (sys_front x), loc)]) (sys_fed x))
| step_set_filter q x :
    sys_step b x (System (set_filter q (sys_front x)) (sys_world x) (sys_owner x) (sys_threads x)
      (sys_history x) (sys_fed x))
| step_set_handler h x : (∀ g e w, h = Some g → (g e w).1 ≠ Stuck) →
    sys_step b x (System (set_handler h (sys_front x)) (sys_world x) (sys_owner x) (sys_threads x)
      (sys_history x) (sys_fed x))
| step_flush res f' w' x : sys_owner x = None →
    flush_backend fake_mutex b (sys_front x, sys_world x) = (res, (f', w')) →
    sys_step b x (System f' w' (sys_owner x) (sys_threads x) (sys_history x) (sys_fed x)).

Definition sys_start (fm : formatter_type) (loc : locale) (w : W) : system :=
  System (new_frontend fm loc) w None (λ _, Idle) [(fm, loc)] [].

Inductive sys_reachable (b : backend) (x0 : system) : system → Prop :=
| reachable_start : sys_reachable b x0 x0
| reachable_step x x' : sys_reachable b x0 x → sys_step b x x' → sys_reachable b x0 x'.

(** ** The invariant *)

Section invariant.
Context (b : backend) (Hb : ∀ r t w, (backend_consume b r t w).1 ≠ Stuck).

(** There are less than [2 ^ 32] changes of the settings, and the formatters are
    described by their texts on a stream that is ready. *)
Definition history_ok (h : list (formatter_type * locale)) : Prop :=
  (Z.of_nat (length h) ≤ 2 ^ 32)%Z ∧ Forall (λ '(fm, _), formatter_spec (text_of fm) fm) h.

(** The text is that of the record with settings between two versions. *)
Definition justified (h : list (formatter_type * locale)) (r : rec) (text : list char) (from until : nat) : Prop :=
  ∃ j fm loc, from ≤ j ≤ until ∧ h !! j = Some (fm, loc) ∧ text_of fm r loc = inl text.

Definition context_from (h : list (formatter_type * locale)) (c : formatting_context) : Prop :=
  ∃ j, c_Version c = Z.of_nat j ∧ h !! j = Some (c_Formatter c, c_Locale c).

(** Before the formatter runs, and until the guard is left. *)
Definition ready_context (c : formatting_context) : Prop := clean (c_FormattingStream c).
Definition used_context (c : formatting_context) : Prop :=
  is_Some (storage (sb (c_FormattingStream c))) ∧ put_area (sb (c_FormattingStream c)) = [].

Definition pc_ok (h : list (formatter_type * locale)) (oc : option formatting_context) (p : pc) : Prop :=
  match p with
  | Idle => ∀ c, oc = Some c → ready_context c
  | Load _ k _ | Renew _ k _ => k < length h ∧ ∀ c, oc = Some c → ready_context c
  | Formatting _ k _ => ∃ c, oc = Some c ∧ ready_context c ∧ (Z.of_nat k ≤ c_Version c)%Z
  | Locking r k t | Feeding r k t _ =>
      justified h r t k (length h - 1) ∧ ∃ c, oc = Some c ∧ used_context c
  | Failed _ _ | Leaving _ _ => ∃ c, oc = Some c ∧ used_context c
  | Crashed => False
  end.

(** The positions in which a thread has the mutex. *)
Definition has_mutex (p : pc) : bool :=
  match p with
  | Load _ _ held | Renew _ _ held | Formatting _ _ held | Failed _ held | Leaving _ held => held
  | Feeding _ _ _ _ => true
  | _ => false
  end.

Record sys_inv (x : system) : Prop := SysInv {
  inv_version : (m_Version (sys_front x) + 1 = Z.of_nat (length (sys_history x)))%Z;
  inv_last : sys_history x !! current x = Some (m_Formatter (sys_front x), m_Locale (sys_front x));
  inv_handler : ∀ g e w, m_ExceptionHandler (sys_front x) = Some g → (g e w).1 ≠ Stuck;
  inv_contexts : map_Forall (λ _, context_from (sys_history x)) (m_pContext (sys_front x));
  inv_threads : ∀ tid, pc_ok (sys_history x) (m_pContext (sys_front x) !! tid) (sys_threads x tid);
  inv_owner : ∀ tid, has_mutex (sys_threads x tid) ↔ sys_owner x = Some tid;
  inv_fed : Forall (λ d, justified (sys_history x) (fed_rec d) (fed_text d) (fed_from d) (fed_until d)) (sys_fed x) }.

(** A step of one thread. *)
Lemma inv_move x tid p f' w' o' fed' : sys_inv x → same_settings (sys_front x) f' →
  (∀ t, t ≠ tid → m_pContext f' !! t = m_pContext (sys_front x) !! t) →
  (∀ c, m_pContext f' !! tid = Some c → context_from (sys_history x) c) →
  pc_ok (sys_history x) (m_pContext f' !! tid) p →
  (has_mutex p ↔ o' = Some tid) → (∀ t, t ≠ tid → o' = Some t ↔ sys_owner x = Some t) →
  Forall (λ d, justified (sys_history x) (fed_rec d) (fed_text d) (fed_from d) (fed_until d)) fed' →
  sys_inv (System f' w' o' (<[tid := p]> (sys_threads x)) (sys_history x) fed').
Proof.
  intros [H1 H2 H3 H4 H5 H6 H7] Hs Hne Hc Hp Ho Hone Hfed.
  split; cbn [sys_front sys_world sys_owner sys_threads sys_history sys_fed]; [by rewrite Hs..| | | |done].
  - intros t c Ht. destruct (decide (t = tid)) as [-> |Hn]; [by apply Hc|]. rewrite Hne in Ht by done. by apply (H4 t).
  - intros t. destruct (decide (t = tid)) as [-> |Hn]; [by rewrite fn_lookup_insert|].
    by rewrite fn_lookup_insert_ne, Hne by done.
  - intros t. destruct (decide (t = tid)) as [-> |Hn]; [by rewrite fn_lookup_insert|].
    rewrite fn_lookup_insert_ne by done. by rewrite H6, Hone.
Qed.

(** A thread that does not touch the frontend. *)
Lemma inv_stay x tid p w' o' fed' : sys_inv x →
  pc_ok (sys_history x) (m_pContext (sys_front x) !! tid) p →
  (has_mutex p ↔ o' = Some tid) → (∀ t, t ≠ tid → o' = Some t ↔ sys_owner x = Some t) →
  Forall (λ d, justified (sys_history x) (fed_rec d) (fed_text d) (fed_from d) (fed_until d)) fed' →
  sys_inv (System (sys_front x) w' o' (<[tid := p]> (sys_threads x)) (sys_history x) fed').
Proof.
  intros Hx. apply inv_move; [done|by destruct (sys_front x)|done|]. intros c Hc. exact (inv_contexts _ Hx _ _ Hc).
Qed.

Lemma inv_length x : sys_inv x → current x < length (sys_history x).
Proof. intros Hx. by eapply lookup_lt_Some, inv_last. Qed.

Lemma load_inv x tid r k held : sys_inv x → sys_threads x tid = Load r k held →
  pc_ok (sys_history x) (m_pContext (sys_front x) !! tid)
    (if context_current tid (sys_front x) then Formatting r k held else Renew r k held).
Proof.
  intros Hx Hp. pose proof (inv_threads _ Hx tid) as Ht. rewrite Hp in Ht. unfold context_current.
  destruct (m_pContext (sys_front x) !! tid) as [c|] eqn:Hc; [|done]. destruct (Z.eqb_spec (c_Version c) (m_Version (sys_front x))) as [E|]; [|done].
  destruct Ht as [Hk Hr]. exists c. split; [done|]. split; [by apply Hr|]. pose proof (inv_version _ Hx). lia.
Qed.

Lemma renew_inv x tid r k held : sys_inv x → sys_threads x tid = Renew r k held →
  ∃ c, renew_context tid (sys_front x) =
      (Ok (), set_contexts (<[tid := c]> (m_pContext (sys_front x))) (sys_front x)) ∧
    context_from (sys_history x) c ∧ pc_ok (sys_history x) (Some c) (Formatting r k held).
Proof.
  intros Hx Hp. pose proof (inv_threads _ Hx tid) as Hk. rewrite Hp in Hk. destruct Hk as [Hk _].
  destruct (new_context_run (m_Version (sys_front x)) (m_Locale (sys_front x)) (m_Formatter (sys_front x))) as (s & E & Hs).
  eexists. split; [unfold renew_context; sm_step; rewrite E; done|]. pose proof (inv_version _ Hx).
  pose proof (inv_last _ Hx) as Hl. pose proof (inv_length _ Hx). unfold current in *. split.
  - exists (length (sys_history x) - 1). split; [cbn; lia|done].
  - eexists. split; [done|]. split; [done|cbn; lia].
Qed.

Lemma format_inv x tid r k held : history_ok (sys_history x) → sys_inv x → sys_threads x tid = Formatting r k held →
  ∃ c res, format_record tid r (sys_front x) =
      (res, set_contexts (<[tid := c]> (m_pContext (sys_front x))) (sys_front x)) ∧
    context_from (sys_history x) c ∧ used_context c ∧
    match res with
    | Ok t => justified (sys_history x) r t k (length (sys_history x) - 1)
    | Throw _ => True
    | Stuck => False
    end.
Proof.
  intros [_ Hh] Hx Hp. pose proof (inv_threads _ Hx tid) as Ht. rewrite Hp in Ht. destruct Ht as (c & Hc & Hr & Hk).
  destruct (inv_contexts _ Hx _ _ Hc) as (j & Hj & Hhj).
  pose proof (Forall_lookup_1 _ _ _ _ Hh Hhj) as Hspec. cbn in Hspec.
  destruct (format_record_run tid r _ _ c Hc Hr Hspec) as (s & E & Hs). do 2 eexists. split; [exact E|].
  split; [by exists j|]. split; [done|]. destruct (text_of (c_Formatter c) r (c_Locale c)) as [t|e] eqn:Et; [|done].
  exists j, (c_Formatter c), (c_Locale c). apply lookup_lt_Some in Hhj as Hlt. split; [lia|done].
Qed.

Lemma leave_inv x tid : sys_inv x → (∃ c, m_pContext (sys_front x) !! tid = Some c ∧ used_context c) →
  ∃ c, cleanup tid (sys_front x) =
      (Ok (), set_contexts (<[tid := c]> (m_pContext (sys_front x))) (sys_front x)) ∧
    context_from (sys_history x) c ∧ ready_context c.
Proof.
  intros Hx (c & Hc & Hst & Hpa). destruct (clean_stream_run _ Hst) as (s & E & Hg & Hs). eexists.
  split; [unfold cleanup; by apply on_context_run|]. split; [exact (inv_contexts _ Hx _ _ Hc)|]. rewrite Hpa in Hs. done.
Qed.

(** A thread that has put its context back. *)
Lemma inv_context x tid c p o' : sys_inv x → context_from (sys_history x) c → pc_ok (sys_history x) (Some c) p →
  (has_mutex p ↔ o' = Some tid) → (∀ t, t ≠ tid → o' = Some t ↔ sys_owner x = Some t) →
  sys_inv (System (set_contexts (<[tid := c]> (m_pContext (sys_front x))) (sys_front x)) (sys_world x) o'
    (<[tid := p]> (sys_threads x)) (sys_history x) (sys_fed x)).
Proof.
  intros Hx Hc Hp Ho Hone. apply inv_move; try done.
  - intros t Ht. cbn. by rewrite lookup_insert_ne.
  - cbn. intros c'. rewrite lookup_insert_eq. by intros [= <-].
  - cbn. by rewrite lookup_insert_eq.
  - exact (inv_fed _ Hx).
Qed.

(** Giving the mutex back, or keeping it. *)
Lemma release_owner held x tid (p p' : pc) : sys_inv x → sys_threads x tid = p → has_mutex p = held →
  has_mutex p' = false →
  (has_mutex p' ↔ release held (sys_owner x) = Some tid) ∧
  (∀ t, t ≠ tid → release held (sys_owner x) = Some t ↔ sys_owner x = Some t).
Proof.
  intros Hx Hp Hm Hm'. pose proof (inv_owner _ Hx tid) as Ho. rewrite Hp, Hm in Ho. rewrite Hm'.
  destruct held; cbn.
  - split; [done|]. intros t Ht. split; [done|]. rewrite (proj1 Ho I). congruence.
  - split; [|done]. split; [done|]. intros E. by apply Ho in E.
Qed.

Lemma thread_step_inv tid x x' : history_ok (sys_history x) → sys_inv x → thread_step b tid x = Some x' → sys_inv x'.
Proof.
  intros Hh Hx. unfold thread_step. cbv zeta. pose proof (inv_threads _ Hx tid) as Ht. pose proof (inv_owner _ Hx tid) as Ho.
  destruct (sys_threads x tid) as [|r k held|r k held|r k held|r k text|r k text held|e held|res held|] eqn:Hp; [done|..|done].
  - intros [= <-]. apply (inv_stay x); [done|by apply load_inv| |done|by apply inv_fed].
    by destruct (context_current tid (sys_front x)).
  - destruct (renew_inv x tid r k held Hx Hp) as (c & -> & Hc & Hok). intros [= <-]. by apply (inv_context x).
  - destruct (format_inv x tid r k held Hh Hx Hp) as (c & res & -> & Hc & Hu & Hres). intros [= <-].
    apply (inv_context x); [done..| | |done]; destruct res as [t|e|]; try done; destruct held; try done.
    all: first [by exists c|split; [done|by exists c]].
  - destruct (sys_owner x) as [o|] eqn:Eo; [done|]. intros [= <-].
    apply (inv_stay x); [done..|by intros t Ht'; rewrite Eo; split; congruence|by apply inv_fed].
  - destruct (backend_consume b r text (sys_world x)) as [res w'] eqn:E. intros [= <-]. destruct Ht as [Hj Hu].
    pose proof (Hb r text (sys_world x)) as Hns. rewrite E in Hns.
    assert (∀ t, t ≠ tid → release (negb held) (sys_owner x) = Some t ↔ sys_owner x = Some t) as Hone.
    { intros t Hn. rewrite (proj1 Ho I). destruct held; cbn; split; congruence. }
    apply (inv_stay x); [done|by destruct res| |done|apply Forall_app_2; [by apply inv_fed|by apply Forall_singleton]].
    rewrite (proj1 Ho I). by destruct res, held.
  - destruct (handle _ e (sys_world x)) as [res w'] eqn:E. intros [= <-].
    assert (res ≠ Stuck) as Hns.
    { unfold handle in E. destruct (m_ExceptionHandler (sys_front x)) as [g|] eqn:Eg; [|by injection E as <- _].
      pose proof (inv_handler _ Hx g e (sys_world x) Eg) as Hg. by rewrite E in Hg. }
    apply (inv_stay x); [done|by destruct res|by destruct res|done|by apply inv_fed].
  - destruct (leave_inv x tid Hx Ht) as (c & -> & Hc & Hr). intros [= <-].
    destruct (release_owner held x tid _ Idle Hx Hp eq_refl eq_refl). apply (inv_context x); try done.
    by intros c' [= <-].
Qed.

(** ** Changes of the settings *)

Lemma justified_app h h' r t from until until' : justified h r t from until → until ≤ until' →
  justified (h ++ h') r t from until'.
Proof.
  intros (j & fm & loc & Hj & Hl & Ht) Hu. exists j, fm, loc. split; [lia|]. split; [|done]. by apply lookup_app_l_Some.
Qed.

Lemma pc_ok_app h e oc p : pc_ok h oc p → pc_ok (h ++ [e]) oc p.
Proof.
  assert (length (h ++ [e]) = S (length h)) as Hl by (rewrite length_app; cbn; lia).
  destruct p; cbn; rewrite ?Hl; try done.
  - intros [? ?]. split; [lia|done].
  - intros [? ?]. split; [lia|done].
  - intros [? ?]. split; [by eapply justified_app; [done|lia]|done].
  - intros [? ?]. split; [by eapply justified_app; [done|lia]|done].
Qed.

Lemma inv_settings x f' fm loc : sys_inv x → history_ok (sys_history x ++ [(fm, loc)]) →
  m_pContext f' = m_pContext (sys_front x) → m_ExceptionHandler f' = m_ExceptionHandler (sys_front x) →
  m_Version f' = u32 (m_Version (sys_front x) + 1) → m_Formatter f' = fm → m_Locale f' = loc →
  sys_inv (System f' (sys_world x) (sys_owner x) (sys_threads x) (sys_history x ++ [(fm, loc)]) (sys_fed x)).
Proof.
  intros [H1 H2 H3 H4 H5 H6 H7] [Hlen _] Hc Hex Hv Hfm Hloc.
  rewrite length_app in Hlen. cbn [length] in Hlen.
  split; cbn [sys_front sys_world sys_owner sys_threads sys_history sys_fed]; rewrite ?Hc, ?Hex; try done.
  - rewrite length_app, Hv. unfold u32. rewrite Z.mod_small by lia. cbn. lia.
  - unfold current. cbn. rewrite Hfm, Hloc, length_app, lookup_app_r by (cbn; lia).
    by replace (length (sys_history x) + length [(fm, loc)] - 1 - length (sys_history x)) with 0 by (cbn; lia).
  - intros t c Ht. destruct (H4 t c Ht) as (j & Hj & Hl). exists j. split; [done|]. by apply lookup_app_l_Some.
  - intros t. by apply pc_ok_app.
  - eapply Forall_impl; [|exact H7]. intros d Hd. eapply justified_app; [exact Hd|lia].
Qed.

Lemma thread_step_history tid x x' : thread_step b tid x = Some x' → sys_history x' = sys_history x.
Proof. unfold thread_step. cbv zeta. intros E. repeat case_match; by simplify_eq. Qed.

Lemma sys_step_history x x' : sys_step b x x' → sys_history x `prefix_of` sys_history x'.
Proof.
  destruct 1 as [| |tid x x' Hs| | | | |]; cbn; try done; [|by eexists..].
  by rewrite (thread_step_history _ _ _ Hs).
Qed.

Lemma history_ok_prefix h h' : history_ok h' → h `prefix_of` h' → history_ok h.
Proof.
  intros [Hl Hf] Hp. split; [apply prefix_length in Hp; lia|]. destruct Hp as [k ->]. by apply Forall_app in Hf as [? _].
Qed.

Lemma sys_step_inv x x' : sys_step b x x' → history_ok (sys_history x') → sys_inv x → sys_inv x'.
Proof.
  intros Hs Hh Hx. destruct Hs as [tid r x Hi|tid r x Hi Ho|tid x x' Hs|fm x|loc x|q x|h x Hg|res f' w' x Ho E].
  - pose proof (inv_threads _ Hx tid) as Ht. pose proof (inv_owner _ Hx tid) as How. rewrite Hi in Ht, How.
    apply (inv_stay x); [done|split; [by apply inv_length|done]|done|done|by apply inv_fed].
  - pose proof (inv_threads _ Hx tid) as Ht. rewrite Hi in Ht.
    apply (inv_stay x); [done|split; [by apply inv_length|done]|done| |by apply inv_fed].
    intros t Hn. rewrite Ho. split; congruence.
  - eapply thread_step_inv; [|done|exact Hs]. by rewrite (thread_step_history _ _ _ Hs) in Hh.
  - by apply inv_settings.
  - by apply inv_settings.
  - by destruct Hx.
  - by destruct Hx.
  - unfold flush_backend in E. assert (f' = sys_front x) as -> ; [|by destruct Hx].
    destruct (backend_flush b) as [fl|]; [|by injection E]. unfold sm_catch, on_world in E.
    destruct (with_lock fake_mutex fl (sys_world x)) as [[] w1]; try (by injection E).
    unfold handle_error, on_world in E. rewrite sm_bind_run in E. cbn in E. destruct (handle _ _ _). by injection E.
Qed.

Lemma sys_reachable_inv fm loc w x : sys_reachable b (sys_start fm loc w) x → history_ok (sys_history x) → sys_inv x.
Proof.
  induction 1 as [|x x' Hr IH Hs]; intros Hh.
  - by split.
  - eapply sys_step_inv; [done|done|]. apply IH. eapply history_ok_prefix; [exact Hh|]. by eapply sys_step_history.
Qed.

(** A thread that is passing a record to the backend. *)
Definition feeding (p : pc) : Prop := match p with Feeding _ _ _ _ => True | _ => False end.

(** C30: concurrent logging through a synchronous sink. Whatever threads log
    through the sink, with [consume] and [try_consume] and exceptions of the
    formatters and the backend, while others change the formatter (at most
    [2 ^ 32 - 1] times), the locale, the filter and the exception handler and
    flush the sink: there is no undefined behaviour, the backend is used by one
    thread at a time, and every text that it is given is exactly the text of the
    record in a formatter and locale that were the sink's settings at some time
    between the call and the use of the backend. The formatters write texts
    within the size of a string to a stream that is ready; one that throws has
    left nothing in the put area of the stream and has not detached its string
    (without this the next text of the thread begins with what it left, see
    [failed_formatter_leaks]). The backend has no undefined behaviour. *)
Theorem records_formatted_current fm loc w x :
  sys_reachable b (sys_start fm loc w) x → history_ok (sys_history x) →
  (∀ t, sys_threads x t ≠ Crashed) ∧
  (∀ t1 t2, feeding (sys_threads x t1) → feeding (sys_threads x t2) → t1 = t2) ∧
  Forall (λ d, justified (sys_history x) (fed_rec d) (fed_text d) (fed_from d) (fed_until d)) (sys_fed x).
Proof.
  intros Hr Hh. pose proof (sys_reachable_inv fm loc w x Hr Hh) as Hx. split; [|split; [|by apply inv_fed]].
  - intros t E. pose proof (inv_threads _ Hx t) as Ht. by rewrite E in Ht.
  - intros t1 t2 H1 H2. assert (∀ t, feeding (sys_threads x t) → sys_owner x = Some t) as Ho.
    { intros t Ht. apply (inv_owner _ Hx). by destruct (sys_threads x t). }
    apply Ho in H1, H2. congruence.
Qed.
End invariant.

(** ** Formatters of the stream library *)

(** Formatters made of output operations and limited parts have their texts. *)
Lemma run_formatter_spec `{!UnitBoundary char} (F : rec → locale → formatter) :
  (∀ r loc, formatter_ok (F r loc) ∧ room (F r loc) ≤ string_max_size) →
  formatter_spec (λ r loc, inl (output (F r loc))) (λ r loc, run_formatter string_max_size (F r loc)).
Proof.
  intros HF r loc s [Hg Hs]. destruct (HF r loc) as [Hok Hroom].
  destruct (run_formatter_holds string_max_size (F r loc) Hok string_max_size [] s) as (s' & E & H & Hg'); [done..| |].
  { rewrite Hs. split; [done|]. split; [cbn; lia|]. exists []. split; [done|]. split; [done|cbn; lia]. }
  exists s'. split; [done|]. split; [done|]. split; [done|]. pose proof (output_room (F r loc) Hok). lia.
Qed.

(** A formatter that writes as such, and then throws for some records. *)
Lemma throwing_formatter_spec (txt : rec → locale → list char + exn) (fm : formatter_type) (bad : rec → option exn) :
  formatter_spec txt fm →
  formatter_spec (λ r loc, match bad r with Some e => inr e | None => txt r loc end)
    (λ r loc, match bad r with Some e => sm_throw e | None => fm r loc end).
Proof.
  intros H r loc s Hs. destruct (bad r) as [e|]; [|by apply H]. exists s. destruct Hs as [_ ->]. by repeat eexists.
Qed.

(** ** Executions as lists of commands *)

Inductive command : Type :=
| do_consume (tid : nat) (r : rec)
| do_try_consume (tid : nat) (r : rec)
| do_step (tid : nat)
| do_set_formatter (fm : formatter_type)
| do_imbue (loc : locale).

Definition run_command (b : backend) (c : command) (x : system) : option system :=
  match c with
  | do_consume tid r =>
      match sys_threads x tid with
      | Idle => Some (System (sys_front x) (sys_world x) (sys_owner x)
          (<[tid := Load r (current x) false]> (sys_threads x)) (sys_history x) (sys_fed x))
      | _ => None
      end
  | do_try_consume tid r =>
      match sys_threads x tid, sys_owner x with
      | Idle, None => Some (System (sys_front x) (sys_world x) (Some tid)
          (<[tid := Load r (current x) true]> (sys_threads x)) (sys_history x) (sys_fed x))
      | _, _ => None
      end
  | do_step tid => thread_step b tid x
  | do_set_formatter fm => Some (System (set_formatter fm (sys_front x)) (sys_world x) (sys_owner x) (sys_threads x)
      (sys_history x ++ [(fm, m_Locale (sys_front x))]) (sys_fed x))
  | do_imbue loc => Some (System (imbue loc (sys_front x)) (sys_world x) (sys_owner x) (sys_threads x)
      (sys_history x ++ [(m_Formatter (sys_front x), loc)]) (sys_fed x))
  end.

Definition run_commands (b : backend) (cs : list command) (x : system) : option system :=
  foldl (λ o c, o ≫= run_command b c) (Some x) cs.

Lemma run_commands_reachable b cs x0 x : run_commands b cs x0 = Some x → sys_reachable b x0 x.
Proof.
  revert x. induction cs as [|c cs IH] using rev_ind; intros x; [intros [= <-]; constructor|].
  unfold run_commands. rewrite foldl_app. cbn. intros (y & Hy & Hx)%bind_Some. apply IH in Hy.
  eapply reachable_step; [exact Hy|]. destruct c as [tid r|tid r|tid|fm|loc]; cbn in Hx.
  - destruct (sys_threads y tid) eqn:E; try done. injection Hx as <-. by apply step_consume.
  - destruct (sys_threads y tid) eqn:E, (sys_owner y) eqn:Eo; try done. injection Hx as <-. by apply step_try_consume.
  - by eapply step_thread.
  - injection Hx as <-. apply step_set_formatter.
  - injection Hx as <-. apply step_imbue.
Qed.
End frontend.

(** * Examples *)

Module sample_frontend.
Import CodeConvert.utf8 StreamBuf.sample_stream.

(** Records are numbers, the program is the list of texts that were written. The
    formatter writes a letter and the digit of the record. *)
Abbreviation program := (list (list octet)).

Definition tagged (c : Z) (r loc : nat) : formatter :=
  fmt_seq (fmt_op (op_text 0 space false [B c])) (fmt_op (op_put (B (0x30 + Z.of_nat r)))).
Definition tag (c : Z) : formatter_type (rec := nat) (locale := nat) :=
  λ r loc, run_formatter string_max (tagged c r loc).

Lemma tag_spec c : formatter_spec string_max (text_of string_max space (tag c)) (tag c).
Proof.
  eapply text_of_described, (run_formatter_spec string_max (tagged c)). intros r loc. split; [done|vm_compute; lia].
Qed.

Definition writer : backend (rec := nat) (W := program) := Backend (λ _ t w, (Ok (), w ++ [t])) None.

(** Thread 1 starts with formatter "a"; the formatter is changed before it
    formats. Thread 2 logs with the new formatter, and again after another
    change, while thread 1 waits to feed its record. *)
Definition commands : list (command (rec := nat) (locale := nat)) :=
  [do_consume 1 7; do_step 1; do_step 1; do_set_formatter (tag 0x62); do_step 1;
   do_try_consume 2 8; do_step 2; do_step 2; do_step 2; do_step 2; do_step 2;
   do_set_formatter (tag 0x63); do_consume 2 9; do_step 2; do_step 2; do_step 2; do_step 2; do_step 2;
   do_step 1; do_step 1].

Definition start := sys_start (V := nat) (tag 0x61) 0 ([] : program).

Definition final : system := default start (run_commands string_max space writer commands start).

Lemma final_run : run_commands string_max space writer commands start = Some final.
Proof. unfold final. destruct (run_commands _ _ _ _ _) eqn:E; [done|by vm_compute in E]. Qed.

Lemma final_history : history_ok string_max space (sys_history final).
Proof.
  split; [by vm_compute|]. assert (sys_history final = [(tag 0x61, 0); (tag 0x62, 0); (tag 0x63, 0)]) as -> by reflexivity.
  repeat (constructor; [apply tag_spec|]). constructor.
Qed.

Lemma records_formatted_current_witness :
  fed_text <$> sys_fed final = [bytes [0x62; 0x38]; bytes [0x63; 0x39]; bytes [0x61; 0x37]] ∧
  Forall (λ d, justified string_max space (sys_history final) (fed_rec d) (fed_text d) (fed_from d) (fed_until d))
    (sys_fed final).
Proof.
  split; [by vm_compute|].
  refine (proj2 (proj2 (records_formatted_current string_max space writer _ (tag 0x61) 0 [] final _ final_history))).
  - done.
  - exact (run_commands_reachable _ _ _ _ _ _ final_run).
Defined.

(** ** Text of a failed record *)

(** The formatter puts a character and then throws for record 0, and writes "ab"
    for other records. *)
Definition unsteady : formatter_type (rec := nat) (locale := nat) := λ r _,
  match r with
  | 0 => stream_put (B 0x78);; sm_throw ex_out_of_range
  | _ => formatted_write (bytes [0x61; 0x62])
  end.

Definition swallow (e : exn) : sm program unit := mret ().

Definition unsteady_sink : frontend := set_exception_handler swallow (new_frontend (V := nat) unsteady 0).

(** A failed formatter leaks. The guard that restores the context does not
    discard the characters in the buffer of the stream: when a formatter puts
    single characters and throws, they are written at the beginning of the next
    record that the thread formats with the context, here "xab" for "ab". *)
Theorem failed_formatter_leaks :
  (feed_record string_max space fake_mutex writer 1 1 (unsteady_sink, [])).2.2 = [bytes [0x61; 0x62]] ∧
  ((feed_record string_max space fake_mutex writer 1 0;; feed_record string_max space fake_mutex writer 1 1)
    (unsteady_sink, [])).2.2 = [bytes [0x78; 0x61; 0x62]].
Proof. split_and!; by vm_compute. Qed.
End sample_frontend.
