(* ===== verification/SinkDelivery.v ===== *)
(** Synchronous and unlocked sinks behind the logging core: the virtual functions
    of src/include/boost/log/sinks/sink.hpp as the frontends of [Frontend]
    implement them and the core calls them, and what a record that is pushed
    becomes in the backends. *)

From Stdlib Require Import ZArith.
From stdpp Require Import base numbers list gmap functions.
From S2P Require Import Prelude BucketList AttributeSet AttributeValueSet Core StreamBuf Frontend.

Section sinks.
Context {char : Type} `{!CharBoundary char} (string_max_size : nat) (space : char).
Context {V AS W locale : Type}.

Abbreviation rec := (private_data V AS).
Abbreviation frontend := (@frontend char rec locale V W).

(** The sinks: the mutex and the backend of each, which of them are unlocked
    sinks, and whether a sink still exists. *)
Context (mus : sink_id → mutex W) (bs : sink_id → backend (char := char) (rec := rec) (W := W)).
Context (unlocked : sink_id → bool) (gone : sink_id → W → bool).

(** The frontends and the rest of the program. *)
Definition world : Type := (sink_id → frontend) * W.

Definition at_sink {X} (s : sink_id) (m : sm (frontend * W) X) : sm world X := λ '(fs, w),
  let '(r, (f, w')) := m (fs s, w) in (r, (<[s := f]> fs, w')).

(** A filter as the core runs it. *)
Fixpoint lift_query (q : query V W) : query V world :=
  match q with
  | QRet a => QRet a
  | QThrow e => QThrow e
  | QFind key k => QFind key (λ v, lift_query (k v))
  | QDo act k => QDo (λ '(fs, w), let (r, w') := act w in (r, (fs, w'))) (λ x, lift_query (k x))
  | QTry body h => QTry (lift_query body) (λ e, lift_query (h e))
  end.

(** The virtual functions, called by thread [tid], with the settings [fs0]. *)
Definition frontend_sinks (tid : nat) (fs0 : sink_id → frontend) : sink_ops V AS world := {|
  will_consume s := lift_query (sink_will_consume (fs0 s));
  is_cross_thread _ := false;
  try_consume s p := at_sink s
    (if unlocked s then unlocked_try_consume string_max_size space (bs s) tid p
     else sync_try_consume string_max_size space (mus s) (bs s) tid p);
  consume s p := at_sink s
    (if unlocked s then unlocked_consume string_max_size space (bs s) tid p
     else sync_consume string_max_size space (mus s) (bs s) tid p);
  flush_sink s := at_sink s (if unlocked s then unlocked_flush (bs s) else sync_flush (mus s) (bs s));
  expired s w := gone s w.2 |}.

(** * What backends write *)

(** What has been written by each backend; a backend writes the text it is
    given, or throws after it has written anything of its own, and nothing else
    writes. *)
Class Written (written : W → sink_id → list (list char)) : Prop := {
  written_consume s r t w :
    match backend_consume (bs s) r t w with
    | (Ok _, w') => ∀ s', written w' s' = if decide (s' = s) then written w s ++ [t] else written w s'
    | (Throw _, w') => ∀ s', s' ≠ s → written w' s' = written w s'
    | (Stuck, _) => False
    end;
  written_lock s w : (mutex_lock (mus s) w).1 ≠ Stuck ∧ ∀ s', written (mutex_lock (mus s) w).2 s' = written w s';
  written_try_lock s w :
    (mutex_try_lock (mus s) w).1 ≠ Stuck ∧ ∀ s', written (mutex_try_lock (mus s) w).2 s' = written w s';
  written_unlock s w s' : written (mutex_unlock (mus s) w) s' = written w s' }.

Section delivery.
Context (written : W → sink_id → list (list char)) `{!Written written}.
Context (tid : nat) (fs0 : sink_id → frontend).
(** The sinks have no exception handlers of their own, and their formatters
    write texts. *)
Context (Hnone : ∀ s, m_ExceptionHandler (fs0 s) = None).
Context (Htext : ∀ s, formatter_spec string_max_size (text_of string_max_size space (m_Formatter (fs0 s))) (m_Formatter (fs0 s))).

(** The text of a record in a sink. *)
Definition sink_text (s : sink_id) (p : rec) : list char + exn :=
  text_of string_max_size space (m_Formatter (fs0 s)) p (m_Locale (fs0 s)).

Definition fronts_ok (fs : sink_id → frontend) : Prop :=
  ∀ s, front_ok string_max_size (fs s) ∧ same_settings (fs0 s) (fs s).

(** The result [r] of giving the record to the sink in [w]. *)
Definition gave {X} (s : sink_id) (p : rec) (w : W) (took : X → bool) (r : outcome X) (w' : W) : Prop :=
  match r with
  | Ok x =>
      if took x then ∃ t, sink_text s p = inl t ∧
        ∀ s', written w' s' = if decide (s' = s) then written w s ++ [t] else written w s'
      else ∀ s', written w' s' = written w s'
  | Throw _ => ∀ s', s' ≠ s ∨ (∃ e, sink_text s p = inr e) → written w' s' = written w s'
  | Stuck => False
  end.

Lemma with_lock_gave s mu p t w : mu = mus s ∨ mu = fake_mutex → sink_text s p = inl t →
  gave s p w (λ _, true) (with_lock mu (backend_consume (bs s) p t) w).1 (with_lock mu (backend_consume (bs s) p t) w).2.
Proof.
  intros Hmu Ht. assert ((mutex_lock mu w).1 ≠ Stuck ∧ (∀ s', written (mutex_lock mu w).2 s' = written w s') ∧
    ∀ w s', written (mutex_unlock mu w) s' = written w s') as (Hl & Hlw & Hu).
  { destruct Hmu as [-> | ->]; [|done]. split; [apply written_lock|]. split; [apply written_lock|]. intros. apply written_unlock. }
  unfold with_lock. rewrite sm_bind_run. destruct (mutex_lock mu w) as [[u|e|] w1]; cbn in Hl, Hlw; [|by intros s' _|done].
  pose proof (written_consume s p t w1) as Hc. unfold sm_finally.
  destruct (backend_consume (bs s) p t w1) as [[v|e|] w2]; [| |done]; sm_step; cbn [gave fst snd mret sm_ret sm_throw].
  - exists t. split; [done|]. intros s'. by rewrite Hu, Hc, !Hlw.
  - intros s' [Hs'|[e' He']]; [|congruence]. by rewrite Hu, Hc, Hlw.
Qed.

(** A call of [feed_record] in the sink [s]. *)
Lemma feed_gave s mu p fs w : mu = mus s ∨ mu = fake_mutex → fronts_ok fs →
  ∃ f r w', feed_record string_max_size space mu (bs s) tid p (fs s, w) = (r, (f, w')) ∧
    fronts_ok (<[s := f]> fs) ∧ gave s p w (λ _, true) r w'.
Proof.
  intros Hmu Hfs. destruct (Hfs s) as [Hok Hs].
  assert (m_Formatter (fs s) = m_Formatter (fs0 s) ∧ m_Locale (fs s) = m_Locale (fs0 s) ∧
    m_ExceptionHandler (fs s) = None) as (Hfm & Hl & Hh) by (rewrite Hs; cbn; by rewrite Hnone).
  destruct (feed_record_run string_max_size space mu (bs s) tid p (text_of string_max_size space (m_Formatter (fs0 s))) (fs s) w)
    as (f & E & Hsame & Hok'); [done|rewrite Hfm; apply Htext|].
  assert (gave s p w (λ _, true) (feed_spec mu (bs s) (text_of string_max_size space (m_Formatter (fs0 s))) (fs s) p w).1
    (feed_spec mu (bs s) (text_of string_max_size space (m_Formatter (fs0 s))) (fs s) p w).2) as Hg.
  { unfold feed_spec. rewrite Hl, Hh. unfold sm_catch. change (text_of _ _ _ _ _) with (sink_text s p).
    destruct (sink_text s p) as [t|e] eqn:Et; [|done]. pose proof (with_lock_gave s mu p t w Hmu Et) as Hw.
    destruct (with_lock _ _ w) as [[] w']; by cbn in *. }
  do 3 eexists. split; [exact E|]. split; [|exact Hg]. intros s'. destruct (decide (s' = s)) as [-> |Hne].
  - rewrite fn_lookup_insert. split; [|by rewrite Hsame, Hs]. apply Hok'. intros Hst. by rewrite Hst in Hg.
  - by rewrite fn_lookup_insert_ne by done.
Qed.

Lemma at_sink_run {X} s (m : sm (frontend * W) X) fs w r f w' :
  m (fs s, w) = (r, (f, w')) → at_sink s m (fs, w) = (r, (<[s := f]> fs, w')).
Proof. intros E. unfold at_sink. by rewrite E. Qed.

Lemma consume_gave s p fs w : fronts_ok fs →
  ∃ fs' r w', consume (frontend_sinks tid fs0) s p (fs, w) = (r, (fs', w')) ∧
    fronts_ok fs' ∧ gave s p w (λ _, true) r w'.
Proof.
  intros Hfs. cbn [consume frontend_sinks]. unfold unlocked_consume, sync_consume.
  destruct (unlocked s).
  - destruct (feed_gave s fake_mutex p fs w) as (f & r & w' & E & Hf & Hg); [by right|done|].
    do 3 eexists. split; [by apply at_sink_run|done].
  - destruct (feed_gave s (mus s) p fs w) as (f & r & w' & E & Hf & Hg); [by left|done|].
    do 3 eexists. split; [by apply at_sink_run|done].
Qed.

(** Without the mutex nothing is done. *)
Lemma try_feed_gave s p fs w : fronts_ok fs →
  ∃ f r w', sync_try_consume string_max_size space (mus s) (bs s) tid p (fs s, w) = (r, (f, w')) ∧
    fronts_ok (<[s := f]> fs) ∧ gave s p w id r w'.
Proof.
  intros Hfs. unfold sync_try_consume, try_feed_record. rewrite sm_bind_run. unfold sm_catch, on_world at 1.
  destruct (written_try_lock s w) as [Hns Hw]. destruct (mutex_try_lock (mus s) w) as [[[]|e|] w1]; cbn in Hns, Hw; [| | |done].
  - destruct (feed_gave s fake_mutex p fs w1) as (f & r & w' & E & Hf & Hg); [by right|done|].
    unfold sm_finally. rewrite sm_bind_run, E. destruct r as [u|e|]; [| |done].
    + do 3 eexists. split; [done|]. split; [done|]. destruct Hg as (t & Ht & Hg). exists t. split; [done|].
      intros s'. by rewrite written_unlock, Hg, !Hw.
    + do 3 eexists. split; [done|]. split; [done|]. intros s' Hs'. by rewrite written_unlock, Hg, Hw.
  - do 3 eexists. split; [done|]. split; [|done]. intros s'. destruct (decide (s' = s)) as [-> |Hne];
      [rewrite fn_lookup_insert|rewrite fn_lookup_insert_ne by done]; apply Hfs.
  - unfold handle_error. rewrite !sm_bind_run. cbn [sm_get]. rewrite (proj2 (Hfs s)). cbn. rewrite Hnone. do 3 eexists.
    split; [done|]. split; [|by intros s1 _]. intros s'. destruct (decide (s' = s)) as [-> |Hne];
      [rewrite fn_lookup_insert|rewrite fn_lookup_insert_ne by done]; [|apply Hfs].
    rewrite <- (proj2 (Hfs s)). apply Hfs.
Qed.

Lemma try_consume_gave s p fs w : fronts_ok fs →
  ∃ fs' r w', try_consume (frontend_sinks tid fs0) s p (fs, w) = (r, (fs', w')) ∧
    fronts_ok fs' ∧ gave s p w id r w'.
Proof.
  intros Hfs. cbn [try_consume frontend_sinks]. unfold unlocked_try_consume, unlocked_consume. destruct (unlocked s).
  - destruct (feed_gave s fake_mutex p fs w) as (f & r & w' & E & Hf & Hg); [by right|done|].
    destruct r as [u|e|]; [| |done].
    + eexists _, (Ok true), w'. split; [apply at_sink_run; by rewrite sm_bind_run, E|done].
    + eexists _, (Throw e), w'. split; [apply at_sink_run; by rewrite sm_bind_run, E|done].
  - destruct (try_feed_gave s p fs w) as (f & r & w' & E & Hf & Hg); [done|].
    do 3 eexists. split; [by apply at_sink_run|done].
Qed.

(** * Delivery *)

(** The sinks that took the record, and those that failed. *)
Definition takes (ev : event) : option sink_id :=
  match ev with
  | EvTried s true | EvConsumed s => Some s
  | _ => None
  end.
Definition fails (ev : event) : option sink_id := match ev with EvFailed s _ => Some s | _ => None end.

Definition times (s : sink_id) (l : list sink_id) : nat := length (filter (s =.) l).

(** The text, if the formatter writes one. *)
Definition text_or_nil (s : sink_id) (p : rec) : list char := match sink_text s p with inl t => t | inr _ => [] end.

(** Every backend that has not thrown has written the text of the record as many
    times as its sink took the record. *)
Definition delivered (p : rec) (w0 : W) (x : world * trace) : Prop :=
  fronts_ok x.1.1 ∧ ∀ s,
    (s ∉ omap fails x.2 ∨ (∃ e, sink_text s p = inr e) →
      written x.1.2 s = written w0 s ++ replicate (times s (omap takes x.2)) (text_or_nil s p)) ∧
    (s ∈ omap takes x.2 → ∃ t, sink_text s p = inl t).

Lemma times_app s l1 l2 : times s (l1 ++ l2) = times s l1 + times s l2.
Proof. unfold times. by rewrite list.filter_app, length_app. Qed.

Lemma times_one s s' : times s [s'] = if decide (s = s') then 1 else 0.
Proof. unfold times. rewrite filter_cons. by destruct (decide (s = s')). Qed.

(** The result of a call, in the trace. *)
Lemma gave_delivered {X} s p w0 fs' w' fs w (tk : X → bool) (r : outcome X) tr evs :
  delivered p w0 ((fs, w), tr) → fronts_ok fs' → gave s p w tk r w' →
  omap takes evs = match r with Ok x => if tk x then [s] else [] | _ => [] end →
  omap fails evs = match r with Throw _ => [s] | _ => [] end →
  delivered p w0 ((fs', w'), tr ++ evs).
Proof.
  intros [_ Hd] Hfs Hg Hev Hev2. split; [done|]. cbn [fst snd] in *. intros s'.
  rewrite !omap_app, times_app, Hev, Hev2. destruct (Hd s') as [Hw Ht].
  destruct r as [x|e|]; cbn in Hg; [|cbn|done].
  - rewrite app_nil_r. destruct (tk x); [|cbn; rewrite Nat.add_0_r, app_nil_r; by split; [intros; rewrite Hg; auto|]].
    destruct Hg as (t & Et & Hg). rewrite times_one, Hg. destruct (decide (s' = s)) as [-> |Hne]; cbn.
    + split; [|intros _; by eexists]. intros Hs. rewrite Hw, replicate_add, (assoc_L (++)) by done.
      unfold text_or_nil. by rewrite Et.
    + rewrite Nat.add_0_r. split; [done|]. rewrite elem_of_app, list_elem_of_singleton. naive_solver.
  - rewrite Nat.add_0_r, app_nil_r. split; [|done]. rewrite not_elem_of_app, list_elem_of_singleton.
    intros [[Hn Hne]|He].
    + rewrite Hg by (by left). apply Hw. by left.
    + rewrite Hg, Hw; [done|by right|]. destruct (decide (s' = s)) as [-> |]; [by right|by left].
Qed.

(** The sinks keep the account. *)
Lemma sinks_keep wc p w0 : ops_keep (frontend_sinks tid fs0) wc (delivered p w0) p.
Proof.
  intros s [[fs w] tr] Hd. pose proof (proj1 Hd) as Hfs. split.
  - destruct (try_consume_gave s p fs w Hfs) as (fs' & r & w' & E & Hf & Hg).
    cbn [traced try_consume] in *. unfold trace_call. rewrite E. destruct r as [[]|e|]; [..|done]; (split; [done|]); cbn [snd].
    all: by eapply gave_delivered.
  - destruct (consume_gave s p fs w Hfs) as (fs' & r & w' & E & Hf & Hg).
    cbn [traced consume] in *. unfold trace_call. rewrite E. destruct r as [u|e|]; [..|done]; (split; [done|]); cbn [snd].
    all: by eapply gave_delivered.
Qed.

Lemma times_settled s tr : times s (settled tr) = times s (omap takes tr) + times s (omap fails tr).
Proof.
  unfold settled. induction tr as [|ev tr IH] using rev_ind; [done|]. rewrite !omap_app, !times_app, IH.
  destruct ev as [? []| | |]; cbn; lia.
Qed.

Lemma times_elem s l : 0 < times s l ↔ s ∈ l.
Proof.
  unfold times. split.
  - intros H. destruct (filter (s =.) l) as [|x l'] eqn:E; [cbn in H; lia|].
    assert (x ∈ filter (s =.) l) as [-> Hx]%list_elem_of_filter by (rewrite E; by left). done.
  - intros H. assert (s ∈ filter (s =.) l) as Hs by (by apply list_elem_of_filter).
    destruct (filter (s =.) l); [by apply not_elem_of_nil in Hs|cbn; lia].
Qed.

Lemma times_perm s l l' : l ≡ₚ l' → times s l = times s l'.
Proof. intros H. unfold times. by rewrite H. Qed.

Lemma times_nodup s l : NoDup l → times s l ≤ 1.
Proof.
  intros H. unfold times. induction H as [|x l Hx H IH]; [cbn; lia|]. rewrite filter_cons.
  destruct (decide (s = x)) as [-> |]; [|done]. cbn. enough (times x l = 0) by (unfold times in *; lia).
  destruct (times x l) eqn:E; [done|]. exfalso. apply Hx, times_elem. lia.
Qed.

(** A failure that is in the trace was passed to the handler of the core. *)
Lemma failure_handled s tr : all_handled tr → 0 < times s (omap fails tr) →
  ∃ e, EvFailed s e ∈ tr ∧ EvHandled e None ∈ tr.
Proof.
  intros Hh (ev & Hev & Hs)%times_elem%list_elem_of_omap. destruct ev as [| |s0 e|]; simplify_eq/=. exists e.
  split; [done|]. assert ((e, None) ∈ handled tr) as (ev & Hin & He)%list_elem_of_omap.
  { rewrite Hh. apply list_elem_of_fmap. exists e. split; [done|]. apply list_elem_of_omap. by exists (EvFailed s e). }
  destruct ev; by simplify_eq/=.
Qed.

(** What the sinks have made of the record [p] when every failure was handled. *)
Lemma delivered_texts p w0 w1 fs' w' tr live :
  NoDup live → settled tr ≡ₚ live → all_handled tr → delivered p w0 ((fs', w'), tr) → (∀ s, written w0 s = written w1 s) →
  ∀ s, if decide (s ∈ live) then
      (∃ t, sink_text s p = inl t ∧ written w' s = written w1 s ++ [t]) ∨
      (∃ e, EvFailed s e ∈ tr ∧ EvHandled e None ∈ tr) ∧
        ((∃ e, sink_text s p = inr e) → written w' s = written w1 s)
    else written w' s = written w1 s.
Proof.
  intros Hnd Hset Herr [_ Hd] Hw0 s. destruct (Hd s) as [Hw Htx]. cbn [fst snd] in *. rewrite <- Hw0.
  apply (times_perm s) in Hset. rewrite times_settled in Hset.
  pose proof (times_nodup s live Hnd). pose proof (times_elem s live) as Hin. pose proof (times_elem s (omap fails tr)) as Hf.
  assert (times s (omap fails tr) = 0 → written w' s = written w0 s ++ replicate (times s (omap takes tr)) (text_or_nil s p)) as Hw1.
  { intros Hz. apply Hw. left. rewrite <- Hf. lia. }
  case_decide as Hs.
  - destruct (times s (omap takes tr)) as [|n] eqn:En.
    + right. split; [apply failure_handled; [done|naive_solver lia]|]. intros He.
      rewrite Hw by (by right). cbn. by rewrite app_nil_r.
    + assert (n = 0) as -> by lia. left. destruct Htx as [t Ht]; [apply times_elem; lia|].
      exists t. split; [done|]. rewrite Hw1 by lia. unfold text_or_nil. by rewrite Ht.
  - assert (times s live = 0) by (destruct (times s live); [done|naive_solver lia]).
    rewrite Hw1 by lia. replace (times s (omap takes tr)) with 0 by lia. cbn. by rewrite app_nil_r.
Qed.

(** Code that leaves the frontends and the backends alone. *)
Definition writes_nothing {X} (m : sm world X) : Prop :=
  ∀ fs w, ∃ r w', m (fs, w) = (r, (fs, w')) ∧ r ≠ Stuck ∧ ∀ s, written w' s = written w s.

Lemma detach_writes_nothing (detach : V → sm world V) (p : rec) fs w : (∀ x, writes_nothing (detach x)) →
  ∃ r p' w', detach_record detach p (fs, w) = (r, (p', (fs, w'))) ∧ r ≠ Stuck ∧ ∀ s, written w' s = written w s.
Proof.
  intros Hd. unfold detach_record. destruct (m_detach_from_thread_needed p); [|by exists (Ok ()), p, w].
  assert (∀ l w, ∃ r l' w', detach_nodes detach l (fs, w) = (r, (l', (fs, w'))) ∧ r ≠ Stuck ∧
    ∀ s, written w' s = written w s) as H.
  { induction l as [|n l IH]; intros w1; [by exists (Ok ()), [], w1|]. simpl.
    destruct (Hd (n_data n).1 fs w1) as (r & w2 & -> & Hr & Hw2). destruct r as [x|e|]; [| |done].
    - destruct (IH w2) as (r & l' & w3 & -> & Hr3 & Hw3). do 3 eexists. split; [done|]. split; [done|].
      intros s. by rewrite Hw3, Hw2.
    - do 3 eexists. by split. }
  destruct (H (v_Nodes (m_attribute_values p)) w) as (r & l' & w' & -> & Hr & Hw'). do 3 eexists. by split.
Qed.

(** C31: delivery to the backends. A record that was opened, with distinct
    accepting sinks and all its values acquired, is pushed to synchronous and
    unlocked sinks, which may be busy, whose formatters, mutexes and backends may
    throw, and some of which may have been destroyed. The conditions: the core
    has a handler that swallows exceptions; the sinks have no exception handlers
    of their own, and are ready for a record; a formatter writes a text that fits in
    a string, or throws and leaves nothing in the put area of the sink's stream
    buffer; a backend that returns has written the text it was
    given, one that throws may have written anything of its own; and handlers,
    mutexes and the detaching of values leave backends and frontends alone.
    Then the push ends. When every value could be detached, every sink that is
    alive and had accepted the record has written exactly the text of the
    detached record by the formatter and the locale of the sink, once, or it
    failed, the exception was passed to the handler, and nothing was written if
    it was the formatter that failed; the other sinks have written nothing. When
    a value could not be detached, the handler is called once, nothing is
    written and the record stays in its handle. All frontends are ready for the
    next record. *)
Theorem sinks_deliver {A R} `{!AttrStore A AS} `{!Rng R} (get_value : A → world * trace → outcome V * (world * trace))
    (detach : V → sm world V) wc empty_attrs (c : core V AS R (world * trace)) p h fs w :
  m_exception_handler c = Some (traced_handler h) →
  (∀ e, writes_nothing (h e)) → (∀ e x, (h e x).1 = Ok ()) → (∀ x, writes_nothing (detach x)) →
  m_accepting_sinks p ≠ [] → NoDup (m_accepting_sinks p) → all_frozen (m_attribute_values p) → fronts_ok fs →
  ∃ d p' w1 hd c' fs' w' tr,
    detach_record detach p (fs, w) = (d, (p', (fs, w1))) ∧
    push_record get_value (λ x, untraced (detach x)) (traced (frontend_sinks tid fs0) wc) empty_attrs tid
      (Some p, (c, ((fs, w), []))) = (Ok (), (hd, (c', ((fs', w'), tr)))) ∧ fronts_ok fs' ∧
    match d with
    | Ok _ => hd = None ∧ ∀ s,
        if decide (s ∈ filter (λ s, gone s w1 = false) (m_accepting_sinks p)) then
          (∃ t, sink_text s p' = inl t ∧ written w' s = written w s ++ [t]) ∨
          (∃ e, EvFailed s e ∈ tr ∧ EvHandled e None ∈ tr) ∧
            ((∃ e, sink_text s p' = inr e) → written w' s = written w s)
        else written w' s = written w s
    | Throw e => hd = Some p' ∧ tr = [EvHandled e None] ∧ ∀ s, written w' s = written w s
    | Stuck => False
    end.
Proof.
  intros Hc Hh Hsw Hdet Hne Hnd Hfr Hfs.
  destruct (detach_writes_nothing detach p fs w Hdet) as (d & p' & w1 & Ed & Hst & Hw1).
  destruct (push_record_keeps get_value detach (frontend_sinks tid fs0) wc empty_attrs tid c p (Some h) (fs, w)
    (delivered p' w1)) as [Hpost HJ]; rewrite ?Ed; [done|apply sinks_keep|done| |done|done| |].
  { intros f [= <-] e [[fs1 w2] tr] [Hf1 Hd]. destruct (Hh e fs1 w2) as (r & w3 & E & Hr & Hw3).
    unfold traced_handler, trace_call. rewrite E. cbn. split; [done|]. split; [done|]. cbn. intros s.
    destruct r as [u|e'|]; [..|done]; rewrite !omap_app; cbn; rewrite !app_nil_r, ?Hw3; apply Hd. }
  { split; [done|]. intros s. cbn. rewrite app_nil_r. split; [done|]. by intros ?%not_elem_of_nil. }
  assert (∀ e r evs, handling (Some h) e r evs → r = Ok () ∧ evs = [EvHandled e None]) as Hhan.
  { intros e r evs [[x Hx] Hr]. rewrite Hsw in Hx. by subst r. }
  unfold delivery_post in Hpost.
  destruct (push_record _ _ _ _ _ _) as [o [hd [c' [[fs' w'] tr]]]]. cbn [fst snd] in Hpost, HJ.
  exists d, p', w1, hd, c', fs', w', tr. split; [done|].
  inversion Hpost as [q wq tr1 E Hset Hall|e q wq r tr1 E Hr|q wq s e tr1 evs e1 evs1 uns r E _ _ Hr]; subst; rewrite Ed in E.
  - injection E as -> <- <-. split; [done|]. split; [apply HJ|]. split; [done|].
    by eapply delivered_texts; [apply list.NoDup_filter|..].
  - injection E as -> <- <-. apply Hhan in Hr as [-> ->]. split; [done|]. split; [apply HJ|]. split_and!; [done..|].
    intros s. destruct (proj2 HJ s) as [Hw _]. cbn in Hw. rewrite Hw, app_nil_r by (left; apply not_elem_of_nil). done.
  - by apply Hhan in Hr as [? _].
Qed.
End delivery.
End sinks.

(** * Example *)

Module sample_delivery.
Import CodeConvert.utf8 StreamBuf.sample_stream Core.sample.

#[local] Instance sample_rng : Rng nat := {| rng_seed := λ n, n; rng_next := λ n, (Z.of_nat n, S n) |}.

(** Records of the core; the program has what was written and the answers of
    [try_lock] that are to come. *)
Abbreviation record := (private_data nat (attribute_set nat)).
Definition program : Type := (sink_id → list (list octet)) * list bool.

(** Sink 1 is synchronous, sink 2 is unlocked and throws, sink 3 is unlocked. *)
Definition busy_mutex : mutex program :=
  Mutex (mret ()) (λ '(l, bs), match bs with [] => (Ok true, (l, [])) | b :: bs => (Ok b, (l, bs)) end) id.

Definition sample_backend (s : sink_id) : backend (char := octet) (rec := record) (W := program) :=
  Backend (λ _ t '(l, bs),
    if decide (s = 2) then (Throw (ex_user 7), (l, bs)) else (Ok (), (<[s := l s ++ [t]]> l, bs))) None.

(** The text is the number of the sink in a letter and the number of accepting
    sinks. *)
Definition letters (s : sink_id) (p : record) (_ : unit) : formatter :=
  fmt_seq (fmt_op (op_text 0 space false [B (0x60 + Z.of_nat s)]))
    (fmt_op (op_put (B (0x30 + Z.of_nat (length (m_accepting_sinks p)))))).

Definition letter_formatter (s : sink_id) : formatter_type (rec := record) (locale := unit) :=
  λ r loc, run_formatter string_max (letters s r loc).

Definition fronts (s : sink_id) : frontend (char := octet) (rec := record) (locale := unit) (V := nat) (W := program) :=
  new_frontend (letter_formatter s) ().

Definition sample_sinks : sink_ops nat (attribute_set nat) _ :=
  frontend_sinks string_max space (λ _, busy_mutex) sample_backend (λ s, bool_decide (s ≠ 1)) (λ _ _, false) 4 fronts.

#[local] Instance sample_written : Written (λ _, busy_mutex) sample_backend (λ w : program, w.1).
Proof.
  split; try done.
  - intros s r t [l bs]. cbn. destruct (decide (s = 2)); [done|]. intros s'. cbn [fst].
    destruct (decide (s' = s)) as [-> |]; [by rewrite fn_lookup_insert|by rewrite fn_lookup_insert_ne].
  - intros s [l [|b bs]]; done.
Qed.

Lemma fronts_text s :
  formatter_spec string_max (text_of string_max space (m_Formatter (fronts s))) (m_Formatter (fronts s)).
Proof.
  change (m_Formatter (fronts s)) with (letter_formatter s). refine (text_of_described string_max space _ _ _).
  apply (run_formatter_spec string_max (letters s)). intros r loc. split; [done|vm_compute; lia].
Qed.

Abbreviation sample_world := (world (char := octet) (V := nat) (AS := attribute_set nat) (W := program) (locale := unit)).

Definition quiet {X} (e : exn) : sm X unit := mret ().

(** The synchronous sink is busy twice; the first and the third sink write "a3"
    and "c3", the second one fails. *)
Lemma sinks_deliver_witness :
  ∃ hd c' fs' w' tr, push_record (R := nat) (λ a w, (Ok a, w)) (λ x, untraced (keep x)) (traced sample_sinks filter_of) empty_set 4
    (Some sample_record, (sample_core (Some (traced_handler quiet)), ((fronts, (λ _, [], [false; false])), []))) =
    (Ok (), (hd, (c', ((fs', w'), tr)))) ∧
    w'.1 1 = [bytes [0x61; 0x33]] ∧ w'.1 2 = [] ∧ w'.1 3 = [bytes [0x63; 0x33]] ∧ EvHandled (ex_user 7) None ∈ tr.
Proof.
  destruct (sinks_deliver string_max space (λ _, busy_mutex) sample_backend (λ s, bool_decide (s ≠ 1)) (λ _ _, false)
    (λ w : program, w.1) 4 fronts (λ _, eq_refl) fronts_text (λ a (w : sample_world * trace), (Ok a : outcome nat, w))
    keep filter_of empty_set (sample_core (Some (traced_handler quiet))) sample_record quiet
    fronts (λ _ : sink_id, [], [false; false]) eq_refl)
    as (d & p' & w1 & hd & c' & fs' & w' & tr & _ & E & _).
  - intros e fs w. by exists (Ok ()), w.
  - done.
  - intros x fs w. by exists (Ok x), w.
  - done.
  - by apply (bool_decide_unpack _).
  - done.
  - intros s. split; [apply new_frontend_ok|done].
  - exists hd, c', fs', w', tr. split; [exact E|]. split; [|split; [|split]].
    1-3: etrans; [symmetry; exact (f_equal (λ x, x.2.2.2.1.2.1 _) E)|by vm_compute].
    assert (tr = [EvTried 1 false; EvFailed 2 (ex_user 7); EvHandled (ex_user 7) None; EvTried 3 true; EvTried 1 false;
      EvConsumed 1]) as -> by (etrans; [symmetry; exact (f_equal (λ x, x.2.2.2.2) E)|vm_compute; reflexivity]).
    do 2 apply list_elem_of_further. apply list_elem_of_here.
Defined.
End sample_delivery.
