(* ===== verification/Syslog.v ===== *)
(** The syslog backend: src/src/syslog_backend.cpp, sinks/syslog_backend.hpp,
    sinks/syslog_constants.hpp and sinks/attribute_mapping.hpp.

    Levels of records come from a mapping of an attribute value. A record goes to
    the syslog service of the system, which all native backends share, or to a
    syslog server as a packet in the format of RFC 3164. Sockets, the resolver of
    host names and the calls of the system are parameters. *)

From Stdlib Require Import ZArith Ascii String.
From stdpp Require Import base numbers list gmap strings.
From S2P Require Import Prelude Decimal BucketList AttributeSet AttributeValueSet ValueExtraction.
Local Open Scope Z_scope.

(** * Levels and facilities *)

Definition info : Z := 6.

(** [make_level] and [make_facility]; the argument is converted to [unsigned int]. *)
Definition make_level (lev : Z) : outcome Z := if 8 <=? u32 lev then Throw ex_out_of_range else Ok lev.

Definition make_facility (fac : Z) : outcome Z :=
  if negb (Z.land (u32 fac) 7 =? 0) || (23 * 8 <? u32 fac) then Throw ex_out_of_range else Ok fac.

Definition int_range (z : Z) : Prop := - 2 ^ 31 ≤ z < 2 ^ 31.

Definition level_ok (lev : Z) : Prop := 0 ≤ lev < 8.
Definition facility_ok (fac : Z) : Prop := ∃ k, 0 ≤ k < 24 ∧ fac = 8 * k.

Lemma make_level_spec lev : int_range lev →
  (level_ok lev ∧ make_level lev = Ok lev) ∨ (¬ level_ok lev ∧ make_level lev = Throw ex_out_of_range).
Proof.
  unfold int_range, make_level, level_ok, u32. intros Hl. destruct (8 <=? lev mod 2 ^ 32) eqn:E; to_prop.
  - right. split; [|done]. intros H. rewrite Z.mod_small in E; lia.
  - left. split; [|done]. pose proof (Z.mod_pos_bound lev (2 ^ 32)). destruct (Z_lt_le_dec lev 0).
    + rewrite <- (Z.mod_unique lev (2 ^ 32) (-1) (lev + 2 ^ 32)) in E by lia. lia.
    + rewrite Z.mod_small in E by lia. lia.
Qed.

Lemma make_facility_spec fac : int_range fac →
  (facility_ok fac ∧ make_facility fac = Ok fac) ∨ (¬ facility_ok fac ∧ make_facility fac = Throw ex_out_of_range).
Proof.
  unfold int_range, make_facility, facility_ok, u32. intros Hl.
  change 7 with (Z.ones 3). rewrite Z.land_ones by lia. change (2 ^ 3) with 8.
  assert (fac mod 2 ^ 32 = if decide (fac < 0) then fac + 2 ^ 32 else fac) as ->.
  { case_decide; [symmetry; apply (Z.mod_unique fac (2 ^ 32) (-1)); lia|apply Z.mod_small; lia]. }
  set (u := if decide (fac < 0) then fac + 2 ^ 32 else fac).
  destruct (negb (u mod 8 =? 0) || (23 * 8 <? u)) eqn:E.
  - right. split; [|done]. intros (k & Hk & ->). subst u. rewrite decide_False in E by lia.
    rewrite Z.mul_comm, Z.mod_mul in E by lia. cbn in E. to_prop. lia.
  - left. split; [|done]. apply orb_false_iff in E as [E1 E2]. to_prop.
    assert (u = fac) as Hu by (subst u; case_decide; lia). rewrite Hu in *. exists (fac / 8).
    pose proof (Z.div_mod fac 8 ltac:(lia)). assert (0 ≤ fac) by (subst u; case_decide; lia). lia.
Qed.

(** The level and the facility in a priority. *)
Lemma priority_decodes fac lev : facility_ok fac → level_ok lev →
  Z.lor fac lev = fac + lev ∧ Z.lor fac lev mod 8 = lev ∧ Z.lor fac lev - Z.lor fac lev mod 8 = fac.
Proof.
  intros (k & Hk & ->) Hl. unfold level_ok in Hl. assert (Z.lor (8 * k) lev = 8 * k + lev) as ->.
  { rewrite <- Z.add_lor_land. assert (Z.land (8 * k) lev = 0) as ->; [|lia]. apply Z.bits_inj'. intros n Hn.
    rewrite Z.land_spec, Z.bits_0. destruct (Z_lt_le_dec n 3).
    - rewrite Z.mul_comm. change 8 with (2 ^ 3). by rewrite Z.mul_pow2_bits_low.
    - rewrite <- (Z.mod_small lev (2 ^ 3)) by (cbn; lia). rewrite Z.mod_pow2_bits_high by lia. apply andb_false_r. }
  split; [done|]. assert ((8 * k + lev) mod 8 = lev) as ->; [|lia].
  by rewrite Z.add_comm, Z.mul_comm, Z.mod_add, Z.mod_small by lia.
Qed.

(** * Packets *)

(** [std::tm]. *)
Record tm := Tm { tm_mon : Z; tm_mday : Z; tm_hour : Z; tm_min : Z; tm_sec : Z }.

Definition tm_ok (t : tm) : Prop :=
  0 ≤ tm_mon t < 12 ∧ 1 ≤ tm_mday t ≤ 31 ∧ 0 ≤ tm_hour t < 24 ∧ 0 ≤ tm_min t < 60 ∧ 0 ≤ tm_sec t ≤ 60.

Definition months : list str := str_lit <$>
  ["Jan"; "Feb"; "Mar"; "Apr"; "May"; "Jun"; "Jul"; "Aug"; "Sep"; "Oct"; "Nov"; "Dec"]%string.

Definition two_digits (z : Z) : str := pad_left "0" 2 (dec z).

(** The text that [snprintf] prints. *)
Definition packet_text (pri : Z) (local_host_name : str) (t : tm) (message : str) : outcome str :=
  let* month := of_ptr (months !! Z.to_nat (tm_mon t)) in
  Ok (str_lit "<" ++ dec pri ++ str_lit ">" ++ month ++ str_lit " " ++ pad_left " " 2 (dec (tm_mday t)) ++ str_lit " " ++
      two_digits (tm_hour t) ++ str_lit ":" ++ two_digits (tm_min t) ++ str_lit ":" ++ two_digits (tm_sec t) ++
      str_lit " " ++ c_str local_host_name ++ str_lit " " ++ c_str message).

(** The size of the buffer. *)
Definition packet_buffer : Z := 1025.

(** [snprintf]: the number of characters it would print, negative if that is not
    an [int], and the characters in the buffer without the zero. *)
Definition snprintf (size : Z) (text : str) : Z * str :=
  let n := Z.of_nat (length text) in
  if n <? 2 ^ 31 then (n, take (Z.to_nat (size - 1)) text) else (-1, []).

(** What [send_message] sends. *)
Definition make_packet (pri : Z) (local_host_name : str) (t : tm) (message : str) : outcome (option str) :=
  let* text := packet_text pri local_host_name t message in
  let (n, packet) := snprintf packet_buffer text in
  if 0 <? n then
    let packet_size := if packet_buffer <=? n then packet_buffer - 1 else n in
    Ok (Some (take (Z.to_nat packet_size) packet))
  else Ok None.

(** * Reading packets *)

(** A reader of RFC 3164. *)
Record packet := Packet { p_pri : Z; p_month : nat; p_day : Z; p_hour : Z; p_min : Z; p_sec : Z; p_host : str; p_message : str }.

Definition skip_space (s : str) : str := default s (expect " " s).

Definition read_word (s : str) : str * str := (take (find_pos (λ c, bool_decide (c = " "%char)) s) s, drop (find_pos (λ c, bool_decide (c = " "%char)) s) s).

Definition read_packet (s : str) : option packet :=
  s ← expect "<" s; '(pri, s) ← read_number s; s ← expect ">" s;
  '(month, _) ← list_find (λ m, m = take 3 s) months;
  s ← expect " " (drop 3 s); '(day, s) ← read_number (skip_space s);
  s ← expect " " s; '(hour, s) ← read_number s;
  s ← expect ":" s; '(min, s) ← read_number s;
  s ← expect ":" s; '(sec, s) ← read_number s;
  s ← expect " " s; let (host, s) := read_word s in
  s ← expect " " s;
  Some (Packet pri month day hour min sec host s).

Lemma read_two_digits z rest : 0 ≤ z → stops_digits rest → read_number (two_digits z ++ rest) = Some (z, rest).
Proof. apply read_padded. lia. Qed.

(** A day is printed in two columns. *)
Lemma read_day z rest : 1 ≤ z ≤ 31 → stops_digits rest →
  read_number (skip_space (pad_left " " 2 (dec z) ++ rest)) = Some (z, rest).
Proof.
  intros Hz Hr. assert (∃ ds, dec z = ds ∧ all_digits ds ∧ ds ≠ [] ∧ undec ds = z ∧
    skip_space (pad_left " " 2 ds ++ rest) = ds ++ rest) as (ds & -> & Hd & Hne & Hu & ->); [|by rewrite read_dec, Hu].
  destruct (dec_spec z ltac:(lia)) as (Hne & Hd & Hu). exists (dec z). split_and!; try done.
  pose proof (dec_length 2 z ltac:(cbn; lia) ltac:(lia)) as Hlen. unfold pad_left.
  destruct (dec z) as [|c ds]; [done|]. apply Forall_cons in Hd as [Hc _]. cbn [length] in *.
  destruct ds as [|c' [|]]; [done| |cbn in Hlen; lia]. cbn. unfold skip_space. cbn.
  by rewrite decide_False by (intros <-; vm_compute in Hc; done).
Qed.

Lemma read_word_app w rest : (" "%char ∉ w) → read_word (w ++ " "%char :: rest) = (w, " "%char :: rest).
Proof.
  intros Hw. unfold read_word. assert (find_pos (λ c, bool_decide (c = " "%char)) (w ++ " "%char :: rest) = length w) as ->.
  { induction w as [|c w IH]; [done|]. apply not_elem_of_cons in Hw as [Hc Hw]. cbn. rewrite bool_decide_eq_false_2 by congruence.
    by rewrite IH. }
  by rewrite take_app_length, drop_app_length.
Qed.

Lemma months_lookup i m rest : months !! i = Some m →
  length m = 3%nat ∧ list_find (λ m', m' = take 3 (m ++ rest)) months = Some (i, m).
Proof.
  intros Hm. assert (Forall (λ p, length p.2 = 3%nat ∧ list_find (λ m', m' = p.2) months = Some p) (imap pair months)) as Hall.
  { apply (bool_decide_unpack _). by vm_compute. }
  rewrite Forall_forall in Hall. destruct (Hall (i, m)) as [Hl Hf].
  { apply elem_of_lookup_imap. by exists i, m. }
  split; [done|]. replace (take 3 (m ++ rest)) with m; [done|]. cbn in Hl. by rewrite <- Hl, take_app_length.
Qed.

Lemma packet_text_reads pri host t message text : 0 ≤ pri → tm_ok t → (" "%char ∉ host) →
  (zero%char ∉ host) → (zero%char ∉ message) → packet_text pri host t message = Ok text →
  read_packet text = Some (Packet pri (Z.to_nat (tm_mon t)) (tm_mday t) (tm_hour t) (tm_min t) (tm_sec t) host message).
Proof.
  intros Hpri (Hmon & Hday & Hhour & Hmin & Hsec) Hsp Hz1 Hz2. unfold packet_text.
  destruct (months !! Z.to_nat (tm_mon t)) as [m|] eqn:Em; [|done]. cbn [of_ptr obind]. intros [= <-].
  rewrite (c_str_id host), (c_str_id message) by done.
  destruct (dec_spec pri Hpri) as (Hne & Hd & Hu). unfold read_packet.
  change (str_lit "<") with ["<"%char]. change (str_lit ">") with [">"%char]. change (str_lit " ") with [" "%char].
  change (str_lit ":") with [":"%char]. cbn [app]. rewrite expect_char. cbn [mbind option_bind].
  rewrite read_dec by done. cbn [mbind option_bind]. rewrite expect_char. cbn [mbind option_bind].
  match goal with |- context [take 3 (m ++ ?r)] => destruct (months_lookup _ m r Em) as [Hm3 ->] end.
  cbn [mbind option_bind]. rewrite <- Hm3 at 1. rewrite drop_app_length, expect_char. cbn [mbind option_bind].
  rewrite read_day by done. cbn [mbind option_bind]. rewrite expect_char. cbn [mbind option_bind].
  do 2 (rewrite read_two_digits by (lia || done); cbn [mbind option_bind]; rewrite expect_char; cbn [mbind option_bind]).
  rewrite read_two_digits by (lia || done). cbn [mbind option_bind]. rewrite expect_char. cbn [mbind option_bind].
  rewrite read_word_app by done. rewrite expect_char. cbn [mbind option_bind]. by rewrite Hu.
Qed.

(** Syslog packets. A packet has at most the 1024 characters that RFC 3164
    allows and is the beginning of the text of the record. When the record fits
    in a packet, a reader of the format gets back the facility and the level, the
    time, the host and the message, for every facility, level and time. *)
Theorem packet_roundtrip fac lev host t message : facility_ok fac → level_ok lev → tm_ok t →
  (" "%char ∉ host) → (zero%char ∉ host) → (zero%char ∉ message) → Z.of_nat (length host + length message) < 2 ^ 30 →
  ∃ text sent, packet_text (Z.lor fac lev) host t message = Ok text ∧
    make_packet (Z.lor fac lev) host t message = Ok (Some sent) ∧
    (length sent ≤ 1024)%nat ∧ sent `prefix_of` text ∧
    ((length text ≤ 1024)%nat → ∃ pri, read_packet sent =
      Some (Packet pri (Z.to_nat (tm_mon t)) (tm_mday t) (tm_hour t) (tm_min t) (tm_sec t) host message) ∧
      pri mod 8 = lev ∧ pri - pri mod 8 = fac).
Proof.
  intros Hfac Hlev Ht Hsp Hz1 Hz2 Hlen. destruct (priority_decodes fac lev Hfac Hlev) as (Hpri & Hl & Hf).
  assert (0 ≤ Z.lor fac lev < 1000) as Hrange.
  { destruct Hfac as (k & Hk & ->). unfold level_ok in Hlev. lia. }
  destruct (packet_text (Z.lor fac lev) host t message) as [text| |] eqn:E.
  2,3: exfalso; revert E; unfold packet_text; destruct Ht as (Hmon & _).
  2,3: destruct (lookup_lt_is_Some_2 months (Z.to_nat (tm_mon t))) as [m ->]; [change (length months) with 12%nat; lia|done].
  assert (length text ≤ 100 + length host + length message)%nat as Hb.
  { revert E. unfold packet_text. destruct (months !! Z.to_nat (tm_mon t)) as [m|] eqn:Em; [|done]. cbn [of_ptr obind].
    intros [= <-]. rewrite (c_str_id host), (c_str_id message) by done. destruct Ht as (_ & Hday & Hhour & Hmin & Hsec).
    pose proof (months_lookup _ m [] Em) as [Hm _]. pose proof (dec_length 3 (Z.lor fac lev) ltac:(cbn; lia) ltac:(lia)).
    assert (∀ z, 0 ≤ z < 100 → (length (two_digits z) ≤ 2)%nat ∧ (length (pad_left " " 2 (dec z)) ≤ 2)%nat) as H2.
    { intros z Hz. pose proof (dec_length 2 z ltac:(cbn; lia) ltac:(lia)). unfold two_digits, pad_left.
      rewrite !length_app, !length_replicate. lia. }
    pose proof (H2 (tm_mday t) ltac:(lia)). pose proof (H2 (tm_hour t) ltac:(lia)).
    pose proof (H2 (tm_min t) ltac:(lia)). pose proof (H2 (tm_sec t) ltac:(lia)).
    repeat first [rewrite length_app|progress cbn [length]]. lia. }
  assert (text ≠ []) as Hne.
  { revert E. unfold packet_text. destruct (months !! _); [|done]. by intros [= <-]. }
  exists text, (take 1024 text). split; [done|]. split.
  - unfold make_packet. rewrite E. cbn [obind]. unfold snprintf. rewrite (proj2 (Z.ltb_lt _ _)) by lia.
    rewrite (proj2 (Z.ltb_lt 0 _)) by (destruct text; [done|cbn; lia]). do 2 f_equal.
    unfold packet_buffer. destruct (Z.leb_spec 1025 (Z.of_nat (length text))).
    + by rewrite take_take.
    + rewrite Nat2Z.id. rewrite take_take. change (Z.to_nat (1025 - 1)) with 1024%nat. rewrite !take_ge by lia. done.
  - split; [rewrite length_take; lia|]. split; [apply prefix_take|].
    intros Hfit. rewrite take_ge by lia. exists (Z.lor fac lev). split; [|done].
    eapply packet_text_reads; try done. lia.
Qed.

(** * Mappings of attribute values *)

Section mapping.
Context {val : Type} (type_of : val → N) {A W S : Type} `{!AttrStore A S}.
Context (get_value : A → W → outcome (option val) * W).
Abbreviation M := (sm (attribute_value_set (option val) S * W)).

(** A mapping: the name, the types of values and the default level. *)
Record mapping := Mapping { m_Name : N; m_types : value_types; m_DefaultValue : Z }.

(** The visitor of a mapping stores the level of a value in a variable. *)
Definition run_mapping (m : mapping) (vis : val → sm Z unit) : M Z :=
  it ← find_value get_value (m_Name m);
  sm_lift (let (r, res) := invoke_visitor type_of (m_types m) fallback_to_none (mjoin it) vis (m_DefaultValue m) in
           let* _ := r in Ok res).

(** [basic_direct_mapping]: the value itself, converted. *)
Definition direct_mapping (m : mapping) (to_level : val → Z) : M Z := run_mapping m (λ v, sm_put (to_level v)).

(** [basic_custom_mapping] with its table. *)
Definition custom_mapping `{!EqDecision val, !Countable val} (m : mapping) (table : gmap val Z) : M Z :=
  run_mapping m (λ v, match table !! v with Some l => sm_put l | None => mret () end).

(** The level of a record: of the value if it is there, has one of the types and
    is mapped, the default one otherwise. *)
Definition mapped_level (m : mapping) (f : val → option Z) (v : option val) : Z :=
  default (m_DefaultValue m) (v ≫= λ x, if decide (type_of x ∈ types_list (m_types m)) then f x else None).

Lemma run_mapping_spec m f vis σ : (∀ v res, vis v res = (Ok (), default res (f v))) →
  run_mapping m vis σ = match find_value get_value (m_Name m) σ with
    | (Ok it, σ') => (Ok (mapped_level m f (mjoin it)), σ')
    | (Throw e, σ') => (Throw e, σ')
    | (Stuck, σ') => (Stuck, σ')
    end.
Proof.
  intros Hvis. unfold run_mapping. rewrite sm_bind_run. destruct (find_value get_value (m_Name m) σ) as [[it|e|] σ']; [|done..].
  unfold sm_lift. rewrite invoke_visitor_run. unfold mapped_level, selected.
  destruct (mjoin it) as [x|]; [|done]. cbn. case_decide; [|done]. by rewrite sm_bind_run, Hvis.
Qed.

Lemma direct_mapping_spec m to_level σ : direct_mapping m to_level σ =
  match find_value get_value (m_Name m) σ with
  | (Ok it, σ') => (Ok (mapped_level m (λ v, Some (to_level v)) (mjoin it)), σ')
  | (Throw e, σ') => (Throw e, σ')
  | (Stuck, σ') => (Stuck, σ')
  end.
Proof. by apply run_mapping_spec. Qed.

Lemma custom_mapping_spec `{!EqDecision val, !Countable val} m (table : gmap val Z) σ : custom_mapping m table σ =
  match find_value get_value (m_Name m) σ with
  | (Ok it, σ') => (Ok (mapped_level m (λ v, table !! v) (mjoin it)), σ')
  | (Throw e, σ') => (Throw e, σ')
  | (Stuck, σ') => (Stuck, σ')
  end.
Proof. apply run_mapping_spec. intros v res. by destruct (table !! v). Qed.
End mapping.

(** * The backend *)

(** Codes of the system: the levels in the order of the portable ones, and the
    facilities. *)
Class NativeCodes := {
  LOG_EMERG : Z; LOG_ALERT : Z; LOG_CRIT : Z; LOG_ERR : Z; LOG_WARNING : Z; LOG_NOTICE : Z; LOG_INFO : Z; LOG_DEBUG : Z;
  LOG_KERN : Z; LOG_USER : Z; LOG_MAIL : Z; LOG_DAEMON : Z; LOG_AUTH : Z; LOG_SYSLOG : Z; LOG_LPR : Z; LOG_NEWS : Z;
  LOG_UUCP : Z; LOG_CRON : Z; LOG_AUTHPRIV : Z; LOG_FTP : Z; LOG_LOCAL : nat → Z }.

Inductive ip_versions := v4 | v6 | other_ip_version.
Inductive impl_types := native | udp_socket_based.

#[export] Instance ip_versions_eq_dec : EqDecision ip_versions.
Proof. solve_decision. Defined.

(** An address with its version, and a port. *)
Record endpoint := Endpoint { ep_version : ip_versions; ep_address : Z; ep_port : Z }.

Section backend.
Context `{!NativeCodes} {R W socket : Type}.

(** Sockets and the resolver, which may throw, and the clock. *)
Context (open_socket : ip_versions → endpoint → sm W socket) (close_socket : socket → W → W).
Context (send_to : socket → str → endpoint → sm W unit) (local_time : sm W tm).
Context (resolve : ip_versions → str → str → bool → sm W endpoint) (m_LocalHostName : str).

(** Calls of the syslog service. *)
Inductive syslog_call := openlog (ident : option str) (facility : Z) | closelog | syslog_ (priority : Z) (message : str).

(** The calls, the users of the service, and the rest. *)
Record state := State { calls : list syslog_call; users : nat; world : W }.

Definition call (c : syslog_call) (s : state) : state := State (calls s ++ [c]) (users s) (world s).

(** [native_syslog_initializer::get_instance], and the release of the instance. *)
Definition get_instance (ident : str) (facility : Z) (s : state) : state :=
  let s := if decide (users s = 0%nat) then call (openlog (if decide (ident = []) then None else Some (c_str ident)) facility) s else s in
  State (calls s) (users s + 1) (world s).

Definition release_instance (s : state) : state :=
  let s := State (calls s) (users s - 1) (world s) in
  if decide (users s = 0%nat) then call closelog s else s.

Definition native_facilities : list Z :=
  [LOG_KERN; LOG_USER; LOG_MAIL; LOG_DAEMON; LOG_AUTH; LOG_SYSLOG; LOG_LPR; LOG_NEWS; LOG_UUCP; LOG_CRON; LOG_AUTHPRIV;
   LOG_FTP; LOG_USER; LOG_USER; LOG_USER; LOG_USER; LOG_LOCAL 0; LOG_LOCAL 1; LOG_LOCAL 2; LOG_LOCAL 3; LOG_LOCAL 4;
   LOG_LOCAL 5; LOG_LOCAL 6; LOG_LOCAL 7].

Definition convert_facility (fac : Z) : outcome Z := of_ptr (native_facilities !! Z.to_nat (u32 fac / 8)).

Definition native_level (lev : Z) : Z :=
  match lev with
  | 0 => LOG_EMERG | 1 => LOG_ALERT | 2 => LOG_CRIT | 3 => LOG_ERR | 4 => LOG_WARNING | 5 => LOG_NOTICE | 7 => LOG_DEBUG
  | _ => LOG_INFO
  end.

(** The derived classes, and what the base class holds. *)
Inductive derived :=
| native_impl
| udp_impl (m_Protocol : ip_versions) (m_pSocket : option socket) (m_TargetHost : endpoint).

Record implementation := Implementation { m_LevelMapper : option (R → sm W Z); m_Facility : Z; impl : derived }.

Abbreviation M := (sm (implementation * state)).

Definition set_impl (d : derived) : M unit :=
  sm_modify (λ '(i, σ), (Implementation (m_LevelMapper i) (m_Facility i) d, σ)).
Definition on_state (f : state → state) : M unit := sm_modify (λ '(i, σ), (i, f σ)).
Definition on_world_ {X} (m : sm W X) : M X := λ '(i, σ),
  let (r, w) := m (world σ) in (r, (i, State (calls σ) (users σ) w)).

(** The default target: port 514 of the local host. *)
Definition local_target (protocol : ip_versions) : endpoint :=
  match protocol with v4 => Endpoint v4 0x7F000001 514 | _ => Endpoint v6 1 514 end.

Definition construct (fac : Z) (use_impl : impl_types) (ip_version : ip_versions) (ident : str) : sm state implementation :=
  match use_impl with
  | native => f ← sm_lift (convert_facility fac); sm_modify (get_instance ident f);; mret (Implementation None f native_impl)
  | udp_socket_based =>
      match ip_version with
      | other_ip_version => sm_throw ex_setup_error
      | _ => mret (Implementation None fac (udp_impl ip_version None (local_target ip_version)))
      end
  end.

Definition close (s : socket) (σ : state) : state := State (calls σ) (users σ) (close_socket s (world σ)).

(** The destructor. *)
Definition destroy : M unit :=
  '(i, _) ← sm_get;
  match impl i with
  | native_impl => on_state release_instance
  | udp_impl _ (Some s) _ => on_state (close s)
  | udp_impl _ None _ => mret ()
  end.

Definition set_severity_mapper (f : R → sm W Z) : M unit :=
  sm_modify (λ '(i, σ), (Implementation (Some f) (m_Facility i) (impl i), σ)).

(** [send]: a socket is opened by the first message and kept. *)
Definition send (lev : Z) (message : str) : M unit :=
  '(i, _) ← sm_get;
  match impl i with
  | native_impl => on_state (call (syslog_ (Z.lor (m_Facility i) (native_level lev)) (c_str message)))
  | udp_impl protocol sock target =>
      s ← match sock with
          | Some s => mret s
          | None =>
              s ← on_world_ (open_socket protocol (Endpoint protocol 0 0));
              set_impl (udp_impl protocol (Some s) target);; mret s
          end;
      t ← on_world_ local_time;
      packet ← sm_lift (make_packet (Z.lor (m_Facility i) lev) m_LocalHostName t message);
      match packet with Some p => on_world_ (send_to s p target) | None => mret () end
  end.

Definition consume (rec : R) (message : str) : M unit :=
  '(i, _) ← sm_get;
  lev ← match m_LevelMapper i with None => mret info | Some f => on_world_ (f rec) end;
  send lev message.

(** A new socket; the previous one is closed when it is there. *)
Definition reset_socket (local : endpoint) : M unit :=
  '(i, _) ← sm_get;
  match impl i with
  | udp_impl protocol sock target =>
      s ← on_world_ (open_socket protocol local);
      set_impl (udp_impl protocol (Some s) target);;
      match sock with Some s' => on_state (close s') | None => mret () end
  | native_impl => mret ()
  end.

(** [set_local_address] and [set_target_address], by name and by address. *)
Definition set_local_address_name (addr : str) (port : Z) : M unit :=
  '(i, _) ← sm_get;
  match impl i with
  | udp_impl protocol _ _ => local ← on_world_ (resolve protocol addr (dec port) true); reset_socket local
  | native_impl => mret ()
  end.

Definition set_local_address (addr : endpoint) : M unit :=
  '(i, _) ← sm_get;
  match impl i with
  | udp_impl protocol _ _ => if decide (ep_version addr = protocol) then reset_socket addr else sm_throw ex_setup_error
  | native_impl => mret ()
  end.

Definition set_target_address_name (addr : str) (port : Z) : M unit :=
  '(i, _) ← sm_get;
  match impl i with
  | udp_impl protocol sock _ =>
      remote ← on_world_ (resolve protocol addr (dec port) false); set_impl (udp_impl protocol sock remote)
  | native_impl => mret ()
  end.

Definition set_target_address (addr : endpoint) : M unit :=
  '(i, _) ← sm_get;
  match impl i with
  | udp_impl protocol sock _ =>
      if decide (ep_version addr = protocol) then set_impl (udp_impl protocol sock addr) else sm_throw ex_setup_error
  | native_impl => mret ()
  end.

(** * The shared service *)

(** The state of the service after calls, and that no call is made to a closed
    service nor opens an open one. *)
Definition after_call (open : bool) (c : syslog_call) : bool :=
  match c with openlog _ _ => true | closelog => false | syslog_ _ _ => open end.
Definition call_ok (open : bool) (c : syslog_call) : bool :=
  match c with openlog _ _ => negb open | _ => open end.

Fixpoint calls_ok (open : bool) (l : list syslog_call) : bool :=
  match l with [] => true | c :: l => call_ok open c && calls_ok (after_call open c) l end.
Definition is_open (l : list syslog_call) : bool := fold_left after_call l false.

Definition is_native (i : implementation) : Prop := impl i = native_impl.
#[local] Instance is_native_dec i : Decision (is_native i).
Proof. unfold is_native. destruct (impl i); [by left|right; discriminate]. Defined.

(** The operations of a backend. *)
Inductive operation :=
| op_set_severity_mapper (f : R → sm W Z)
| op_consume (rec : R) (message : str)
| op_set_local_address_name (addr : str) (port : Z)
| op_set_local_address (addr : endpoint)
| op_set_target_address_name (addr : str) (port : Z)
| op_set_target_address (addr : endpoint).

Definition run (o : operation) : M unit :=
  match o with
  | op_set_severity_mapper f => set_severity_mapper f
  | op_consume rec message => consume rec message
  | op_set_local_address_name addr port => set_local_address_name addr port
  | op_set_local_address addr => set_local_address addr
  | op_set_target_address_name addr port => set_target_address_name addr port
  | op_set_target_address addr => set_target_address addr
  end.

(** Backends that are created, used, also by operations that throw, and destroyed
    in any order. *)
Inductive reaches : list implementation → state → Prop :=
| reach_init w : reaches [] (State [] 0 w)
| reach_new live s fac use_impl version ident i s' : reaches live s →
    construct fac use_impl version ident s = (Ok i, s') → reaches (i :: live) s'
| reach_run l1 l2 i s o r i' s' : reaches (l1 ++ i :: l2) s → run o (i, s) = (r, (i', s')) → reaches (l1 ++ i' :: l2) s'
| reach_delete l1 l2 i s i' s' : reaches (l1 ++ i :: l2) s → destroy (i, s) = (Ok (), (i', s')) → reaches (l1 ++ l2) s'.

Definition service_ok (n : nat) (s : state) : Prop :=
  users s = n ∧ calls_ok false (calls s) ∧ is_open (calls s) = bool_decide (n ≠ 0%nat).

Lemma calls_ok_snoc l c open : calls_ok open (l ++ [c]) = calls_ok open l && call_ok (fold_left after_call l open) c.
Proof. revert open. induction l as [|d l IH]; intros open; cbn; [by rewrite andb_true_r|]. by rewrite IH, andb_assoc. Qed.

Lemma call_service n s c : service_ok n s → call_ok (bool_decide (n ≠ 0%nat)) c →
  calls_ok false (calls s ++ [c]) ∧ is_open (calls s ++ [c]) = after_call (bool_decide (n ≠ 0%nat)) c.
Proof.
  intros (_ & Hok & Ho) Hc. unfold is_open in *. rewrite calls_ok_snoc, fold_left_app, Ho. cbn. split; [|done].
  apply andb_True. by split.
Qed.

Lemma get_instance_service n s ident f : service_ok n s → service_ok (n + 1) (get_instance ident f s).
Proof.
  intros Hs. pose proof Hs as (Hu & Hok & Ho). unfold get_instance. rewrite Hu. destruct n as [|n].
  - rewrite decide_True by done.
    destruct (call_service 0 s (openlog (if decide (ident = []) then None else Some (c_str ident)) f) Hs) as [H1 H2]; [done|].
    by split; [cbn; rewrite Hu|].
  - rewrite decide_False by done. split; [cbn; lia|]. by split.
Qed.

Lemma release_instance_service n s : service_ok (S n) s → service_ok n (release_instance s).
Proof.
  intros Hs. pose proof Hs as (Hu & Hok & Ho). unfold release_instance. cbn [users]. rewrite Hu.
  replace (S n - 1)%nat with n by lia. destruct n as [|n].
  - rewrite decide_True by done. destruct (call_service 1 s closelog Hs) as [H1 H2]; [done|]. by split.
  - rewrite decide_False by done. by split.
Qed.

Definition natives (l : list implementation) : nat := length (filter is_native l).

Lemma natives_app l1 l2 : natives (l1 ++ l2) = (natives l1 + natives l2)%nat.
Proof. unfold natives. by rewrite filter_app, length_app. Qed.

Lemma natives_cons i l : natives (i :: l) = (natives [i] + natives l)%nat.
Proof. apply (natives_app [i]). Qed.

Lemma natives_one i : natives [i] = if decide (is_native i) then 1%nat else 0%nat.
Proof. unfold natives. rewrite filter_cons, filter_nil. by case_decide. Qed.

Lemma construct_service n s fac use_impl version ident i s' : service_ok n s →
  construct fac use_impl version ident s = (Ok i, s') → service_ok (natives [i] + n) s'.
Proof.
  intros Hs. unfold construct. rewrite natives_one. destruct use_impl.
  - rewrite sm_bind_run. unfold sm_lift. destruct (convert_facility fac) as [f| |]; [|done..].
    intros [= <- <-]. rewrite decide_True, Nat.add_comm by done. by apply get_instance_service.
  - destruct version; intros [= <- <-]; (rewrite decide_False by done); done.
Qed.

(** Programs of a backend with a socket do not use the service. *)
Definition keeps {X} (m : M X) : Prop := ∀ n i s, ¬ is_native i → service_ok n s →
  ¬ is_native (m (i, s)).2.1 ∧ service_ok n (m (i, s)).2.2.

Lemma keeps_bind {X Y} (m : M X) (k : X → M Y) : keeps m → (∀ x, keeps (k x)) → keeps (m ≫= k).
Proof.
  intros Hm Hk n i s Hi Hs. rewrite sm_bind_run. specialize (Hm n i s Hi Hs).
  destruct (m (i, s)) as [[x|e|] [i' s']]; [|exact Hm..]. destruct Hm. by apply Hk.
Qed.

Lemma keeps_lift {X} (m : outcome X) : keeps (sm_lift m).
Proof. by intros n i s. Qed.

Lemma keeps_world {X} (m : sm W X) : keeps (on_world_ m).
Proof. intros n i s Hi Hs. unfold on_world_. by destruct (m (world s)). Qed.

Lemma keeps_set_impl p k t : keeps (set_impl (udp_impl p k t)).
Proof. by intros n i s. Qed.

Lemma keeps_close k : keeps (on_state (close k)).
Proof. by intros n i s. Qed.

Lemma keeps_socket p k t : keeps (match k with
  | Some s => mret s
  | None => s ← on_world_ (open_socket p (Endpoint p 0 0)); set_impl (udp_impl p (Some s) t);; mret s
  end).
Proof.
  destruct k as [sk|]; [apply (keeps_lift (Ok sk))|]. apply keeps_bind; [apply keeps_world|]. intros sk.
  apply keeps_bind; [apply keeps_set_impl|]. intros _. apply (keeps_lift (Ok sk)).
Qed.

Lemma keeps_reset p k t local : keeps (s ← on_world_ (open_socket p local);
  set_impl (udp_impl p (Some s) t);; match k with Some s' => on_state (close s') | None => mret () end).
Proof.
  apply keeps_bind; [apply keeps_world|]. intros sk. apply keeps_bind; [apply keeps_set_impl|]. intros _.
  destruct k; [apply keeps_close|apply (keeps_lift (Ok ()))].
Qed.

Lemma keeps_get {X} (f : implementation * state → M X) :
  (∀ i s p k t, impl i = udp_impl p k t → keeps (f (i, s))) → keeps (sm_get ≫= f).
Proof.
  intros Hf n i s Hi Hs. rewrite sm_bind_run. cbn [sm_get]. destruct (impl i) as [|p k t] eqn:E; [by destruct (Hi E)|].
  by apply (Hf i s p k t).
Qed.

Lemma keeps_send lev message : keeps (send lev message).
Proof.
  apply keeps_get. intros i s p k t E. rewrite E. apply keeps_bind; [apply keeps_socket|]. intros sk.
  apply keeps_bind; [apply keeps_world|]. intros now. apply keeps_bind; [apply keeps_lift|].
  intros [q|]; [apply keeps_world|apply (keeps_lift (Ok ()))].
Qed.

Lemma keeps_reset_socket local : keeps (reset_socket local).
Proof. apply keeps_get. intros i s p k t E. rewrite E. apply keeps_reset. Qed.

Lemma keeps_run o : keeps (run o).
Proof.
  destruct o as [f|rec message|addr port|addr|addr port|addr]; cbn [run].
  - by intros n i s.
  - apply keeps_get. intros i s p k t E. apply keeps_bind; [|intros lev; apply keeps_send].
    destruct (m_LevelMapper i); [apply keeps_world|apply (keeps_lift (Ok info))].
  - apply keeps_get. intros i s p k t E. rewrite E. apply keeps_bind; [apply keeps_world|]. intros local. apply keeps_reset_socket.
  - apply keeps_get. intros i s p k t E. rewrite E. case_decide; [apply keeps_reset_socket|apply (keeps_lift (Throw _))].
  - apply keeps_get. intros i s p k t E. rewrite E. apply keeps_bind; [apply keeps_world|]. intros remote. apply keeps_set_impl.
  - apply keeps_get. intros i s p k t E. rewrite E. case_decide; [apply keeps_set_impl|apply (keeps_lift (Throw _))].
Qed.

(** A native backend logs its records and does nothing else. *)
Lemma run_native o n i s : is_native i → service_ok (S n) s →
  is_native (run o (i, s)).2.1 ∧ service_ok (S n) (run o (i, s)).2.2.
Proof.
  intros Hi Hs. pose proof Hs as (Hu & _). unfold is_native in Hi.
  destruct o as [f|rec message|addr port|addr|addr port|addr]; cbn [run].
  2: {
    unfold consume. rewrite sm_bind_run. cbn [sm_get]. rewrite sm_bind_run.
    set (lev := match m_LevelMapper i with None => mret info | Some f => on_world_ (f rec) end).
    assert (∃ r w, lev (i, s) = (r, (i, State (calls s) (users s) w))) as (r & w & ->).
    { subst lev. destruct (m_LevelMapper i) as [f|].
      - unfold on_world_. destruct (f rec (world s)) as [r w]. by exists r, w.
      - exists (Ok info), (world s). by destruct s. }
    destruct r as [l|e|]; [|done..]. unfold send. rewrite sm_bind_run. cbn [sm_get]. rewrite Hi. split; [done|].
    assert (service_ok (S n) (State (calls s) (users s) w)) as Hs' by exact Hs.
    destruct (call_service (S n) _ (syslog_ (Z.lor (m_Facility i) (native_level l)) (c_str message)) Hs') as [H1 H2]; [done|].
    by split. }
  all: unfold set_local_address_name, set_local_address, set_target_address_name, set_target_address, set_severity_mapper.
  all: rewrite ?sm_bind_run; cbn [sm_get]; rewrite ?Hi; done.
Qed.

Lemma destroy_service n i i' s s' : service_ok (natives [i] + n) s → destroy (i, s) = (Ok (), (i', s')) → service_ok n s'.
Proof.
  rewrite natives_one. unfold destroy. rewrite sm_bind_run. cbn [sm_get]. intros Hs.
  destruct (impl i) as [|p [sk|] t] eqn:E; case_decide as Hn; unfold is_native in Hn; try congruence; intros [= <- <-].
  - by apply release_instance_service.
  - done.
  - done.
Qed.

Lemma reaches_service live s : reaches live s → service_ok (natives live) s.
Proof.
  induction 1 as [w|live s fac use_impl version ident i s' _ IH E|l1 l2 i s o r i' s' _ IH E|l1 l2 i s i' s' _ IH E].
  - done.
  - rewrite natives_cons. by eapply construct_service.
  - rewrite natives_app, natives_cons, natives_one in IH |- *.
    destruct (decide (is_native i)) as [Hi|Hi].
    + replace (natives l1 + (1 + natives l2))%nat with (S (natives l1 + natives l2)) in IH by lia.
      destruct (run_native o _ i s Hi IH) as [H1 H2]. rewrite E in H1, H2. cbn in H1, H2. rewrite decide_True by done.
      by replace (natives l1 + (1 + natives l2))%nat with (S (natives l1 + natives l2)) by lia.
    + destruct (keeps_run o _ i s Hi IH) as [H1 H2]. rewrite E in H1, H2. cbn in H1, H2. by rewrite decide_False by done.
  - rewrite natives_app, natives_cons in IH. rewrite natives_app. eapply destroy_service; [|done].
    by replace (natives [i] + (natives l1 + natives l2))%nat with (natives l1 + (natives [i] + natives l2))%nat by lia.
Qed.

(** The service of the system is open exactly while there is a native backend,
    whatever backends are created, used and destroyed; it is opened and closed in
    turn, and no message is logged while it is closed. *)
Theorem native_service_shared live s : reaches live s →
  users s = length (filter is_native live) ∧ calls_ok false (calls s) ∧
  is_open (calls s) = bool_decide (filter is_native live ≠ []).
Proof.
  intros (Hu & Hc & Ho)%reaches_service. split; [done|]. split; [done|]. rewrite Ho. apply bool_decide_ext. unfold natives.
  destruct (filter is_native live); cbn; naive_solver lia.
Qed.
End backend.

(** * Example *)

(** An error of the facility for mail, on the fifth of January. *)
Lemma packet_roundtrip_witness :
  make_packet (Z.lor 16 3) (str_lit "host") (Tm 0 5 9 8 7) (str_lit "disk full") =
    Ok (Some (str_lit "<19>Jan  5 09:08:07 host disk full")) ∧
  ∃ pri, read_packet (str_lit "<19>Jan  5 09:08:07 host disk full") =
    Some (Packet pri 0 5 9 8 7 (str_lit "host") (str_lit "disk full")) ∧ pri mod 8 = 3 ∧ pri - pri mod 8 = 16.
Proof.
  split; [by vm_compute|].
  destruct (packet_roundtrip 16 3 (str_lit "host") (Tm 0 5 9 8 7) (str_lit "disk full")) as (text & sent & E1 & E2 & _ & _ & H).
  - exists 2. split; [lia|done].
  - unfold level_ok. lia.
  - unfold tm_ok. cbn. lia.
  - apply (bool_decide_unpack _). by vm_compute.
  - apply (bool_decide_unpack _). by vm_compute.
  - apply (bool_decide_unpack _). by vm_compute.
  - cbn. lia.
  - vm_compute in E1. injection E1 as <-. vm_compute in E2. injection E2 as <-. apply H. cbn. lia.
Defined.
