(* ===== verification/TextBackends.v ===== *)
(** Text backends: src/src/text_ostream_backend.cpp,
    src/src/text_multifile_backend.cpp, sinks/text_ipc_message_queue_backend.hpp,
    src/src/default_sink.cpp and src/src/id_formatting.hpp.

    The streams of the first backend are objects that the program shares with it.
    The second one appends each record to a file that depends on the record. *)

From Stdlib Require Import ZArith Ascii String.
From stdpp Require Import base numbers list gmap strings.
From S2P Require Import Prelude Decimal BucketList AttributeSet AttributeValueSet ValueExtraction.

(** * Newlines *)

Inductive auto_newline_mode := disabled_auto_newline | always_insert | insert_if_missing.

#[export] Instance auto_newline_mode_eq_dec : EqDecision auto_newline_mode.
Proof. solve_decision. Defined.

Definition newline : ascii := "010"%char.

(** Whether a newline is put behind the message. *)
Definition need_trailing_newline (mode : auto_newline_mode) (message : str) : bool :=
  match mode with
  | disabled_auto_newline => false
  | always_insert => true
  | insert_if_missing => match list.last message with None => true | Some c => negb (bool_decide (c = newline)) end
  end.

(** What is written for a message. *)
Definition line (mode : auto_newline_mode) (message : str) : str :=
  message ++ (if need_trailing_newline mode message then [newline] else []).

(** * Output streams *)

(** [std::ostream]: operations that may throw, and the text that was written. A
    stream that is not good writes nothing; one that stays good has written
    everything. *)
Class OStream (S : Type) := {
  os_good : S → bool;
  os_write : str → sm S unit;
  os_flush : sm S unit;
  os_text : S → str;
  os_write_law : ∀ p s, ∃ q, q `prefix_of` p ∧ os_text (os_write p s).2 = os_text s ++ q ∧
    (os_good s = false → q = []) ∧ ((os_write p s).1 = Ok () → os_good (os_write p s).2 → q = p ∧ os_good s);
  os_write_safe : ∀ p s, (os_write p s).1 ≠ Stuck;
  os_flush_law : ∀ s, os_text (os_flush s).2 = os_text s ∧ (os_good (os_flush s).2 → os_good s);
  os_flush_safe : ∀ s, (os_flush s).1 ≠ Stuck }.

Section ostream_backend.
Context {S : Type} `{!OStream S}.

(** [put]. *)
Definition os_put (c : ascii) : sm S unit := os_write [c].

(** The streams of the program by their addresses, and the backend. *)
Abbreviation streams := (gmap nat S).

Record backend := Backend { m_Streams : list nat; m_AutoNewlineMode : auto_newline_mode; m_fAutoFlush : bool }.

Definition construct (mode : auto_newline_mode) (auto_flush : bool) : backend := Backend [] mode auto_flush.
Definition set_auto_newline_mode (mode : auto_newline_mode) (b : backend) : backend := Backend (m_Streams b) mode (m_fAutoFlush b).
Definition auto_flush (f : bool) (b : backend) : backend := Backend (m_Streams b) (m_AutoNewlineMode b) f.

Definition add_stream (id : nat) (b : backend) : backend :=
  if decide (id ∈ m_Streams b) then b else Backend (m_Streams b ++ [id]) (m_AutoNewlineMode b) (m_fAutoFlush b).

Definition remove_stream (id : nat) (b : backend) : backend :=
  match list_find (λ i, i = id) (m_Streams b) with
  | Some (i, _) => Backend (delete i (m_Streams b)) (m_AutoNewlineMode b) (m_fAutoFlush b)
  | None => b
  end.

(** An operation on a stream. *)
Definition on_stream {X} (id : nat) (m : sm S X) : sm streams X := λ σ,
  match σ !! id with
  | Some s => let (r, s') := m s in (r, <[id := s']> σ)
  | None => (Stuck, σ)
  end.

(** The body of the loop of [consume]. *)
Definition write_line (b : backend) (message : str) : sm S unit :=
  s ← sm_get;
  if os_good s then
    os_write message;;
    (if need_trailing_newline (m_AutoNewlineMode b) message then os_put newline else mret ());;
    (if m_fAutoFlush b then os_flush else mret ())
  else mret ().

Fixpoint for_streams (ids : list nat) (m : sm S unit) : sm streams unit :=
  match ids with
  | [] => mret ()
  | id :: ids => on_stream id m;; for_streams ids m
  end.

Definition consume (b : backend) (message : str) : sm streams unit := for_streams (m_Streams b) (write_line b message).

Definition flush (b : backend) : sm streams unit :=
  for_streams (m_Streams b) (s ← sm_get; if os_good s then os_flush else mret ()).

(** ** What they do *)

Lemma add_stream_set id b : NoDup (m_Streams b) →
  NoDup (m_Streams (add_stream id b)) ∧ ∀ i, i ∈ m_Streams (add_stream id b) ↔ i = id ∨ i ∈ m_Streams b.
Proof.
  intros Hnd. unfold add_stream. case_decide as E; [naive_solver|]. cbn. split.
  - apply NoDup_app. split_and!; [done| |apply NoDup_singleton]. set_solver.
  - set_solver.
Qed.

Lemma remove_stream_set id b : NoDup (m_Streams b) →
  NoDup (m_Streams (remove_stream id b)) ∧ ∀ i, i ∈ m_Streams (remove_stream id b) ↔ i ≠ id ∧ i ∈ m_Streams b.
Proof.
  intros Hnd. unfold remove_stream. destruct (list_find _ _) as [[k x]|] eqn:E.
  - apply list_find_Some in E as (Hk & -> & _). cbn. pose proof (delete_Permutation _ _ _ Hk) as Hp. rewrite Hp in Hnd.
    apply NoDup_cons in Hnd as [Hni Hnd]. split; [done|]. intros i.
    assert (i ∈ m_Streams b ↔ i ∈ id :: delete k (m_Streams b)) as -> by by rewrite <- Hp.
    rewrite elem_of_cons. split; [|naive_solver]. intros Hi. split; [by intros ->|by right].
  - apply list_find_None in E. rewrite Forall_forall in E. naive_solver.
Qed.

(** A line is written to its end, or the stream is not good any more. *)
Definition wrote (p : str) (s s' : S) (r : outcome unit) : Prop :=
  ∃ q, q `prefix_of` p ∧ os_text s' = os_text s ++ q ∧ (os_good s = false → q = []) ∧ (r = Ok () → os_good s' → q = p).

Lemma write_line_run b message s : wrote (line (m_AutoNewlineMode b) message) s (write_line b message s).2 (write_line b message s).1 ∧
  (write_line b message s).1 ≠ Stuck.
Proof.
  unfold write_line. sm_step. destruct (os_good s) eqn:Hg.
  2: { cbn. split; [|done]. exists []. rewrite app_nil_r, Hg. split_and!; [apply prefix_nil|done..]. }
  destruct (os_write_law message s) as (q1 & Hp1 & Ht1 & _ & Hg1). pose proof (os_write_safe message s) as Hs1.
  rewrite sm_bind_run. destruct (os_write message s) as [[u|e|] s1]; cbn in *; [| |done].
  2: { split; [|done]. exists q1. unfold line. split_and!; [by apply prefix_app_r|done|congruence|done]. }
  rewrite sm_bind_run. set (nl := if need_trailing_newline (m_AutoNewlineMode b) message then [newline] else []).
  assert (∃ r s2, (if need_trailing_newline (m_AutoNewlineMode b) message then os_put newline else mret ()) s1 = (r, s2) ∧ r ≠ Stuck ∧
    ∃ q2, q2 `prefix_of` nl ∧ os_text s2 = os_text s1 ++ q2 ∧ (os_good s1 = false → q2 = []) ∧ (r = Ok () → os_good s2 → q2 = nl ∧ os_good s1))
    as (r2 & s2 & -> & Hs2 & q2 & Hp2 & Ht2 & Hb2 & Hg2).
  { subst nl. destruct (need_trailing_newline _ _).
    - unfold os_put. destruct (os_write_law [newline] s1) as (q2 & H). pose proof (os_write_safe [newline] s1).
      destruct (os_write [newline] s1) as [r2 s2]. exists r2, s2. split; [done|]. split; [done|]. by exists q2.
    - exists (Ok ()), s1. split; [done|]. split; [done|]. exists []. by rewrite app_nil_r. }
  assert (wrote (line (m_AutoNewlineMode b) message) s s2 r2) as Hw.
  { destruct (os_good s1) eqn:E1.
    - destruct (Hg1 ltac:(by destruct u) ltac:(done)) as [-> _]. exists (message ++ q2). unfold line. fold nl.
      split_and!; [by apply prefix_app|by rewrite Ht2, Ht1, (assoc_L (++))|congruence|].
      intros Hr Hgood. by destruct (Hg2 Hr Hgood) as [-> _].
    - exists q1. unfold line. rewrite (Hb2 ltac:(done)), app_nil_r in Ht2.
      split_and!; [by apply prefix_app_r|congruence|congruence|]. intros Hr Hgood. destruct (Hg2 Hr Hgood) as [_ ?]. done. }
  destruct r2 as [u2|e2|]; [|split; [|done]|done].
  2: { destruct Hw as (q & ? & ? & ? & _). by exists q. }
  destruct (m_fAutoFlush b); [|by destruct u2]. destruct (os_flush_law s2) as [Hft Hfg].
  pose proof (os_flush_safe s2). split; [|done]. destruct Hw as (q & ? & ? & ? & Hq). exists q. rewrite Hft.
  split_and!; [done..|]. intros Hr Hgood. apply Hq; [by destruct u2|auto].
Qed.

Lemma for_streams_run p (m : sm S unit) ids σ : (∀ s, wrote p s (m s).2 (m s).1 ∧ (m s).1 ≠ Stuck) →
  NoDup ids → (∀ id, id ∈ ids → is_Some (σ !! id)) →
  let '(r, σ') := for_streams ids m σ in
  r ≠ Stuck ∧ (∀ id, id ∉ ids → σ' !! id = σ !! id) ∧
  (∀ id, id ∈ ids → ∃ s s', σ !! id = Some s ∧ σ' !! id = Some s' ∧ wrote p s s' r).
Proof.
  intros Hm Hnd. revert σ. induction Hnd as [|id ids Hid Hnd IH]; intros σ Hall; cbn [for_streams]; [set_solver|].
  destruct (Hall id ltac:(set_solver)) as [s Hs]. destruct (Hm s) as [Hw Hns]. rewrite sm_bind_run. unfold on_stream at 1.
  rewrite Hs. destruct (m s) as [[u|e|] s1]; cbn in Hw, Hns; [| |done].
  - specialize (IH (<[id := s1]> σ)). destruct (for_streams ids m (<[id := s1]> σ)) as [r σ'].
    destruct IH as (Hr & Hout & Hin).
    { intros i Hi. rewrite lookup_insert_ne by set_solver. apply Hall. set_solver. }
    split; [done|]. split.
    + intros i Hi. rewrite Hout by set_solver. by rewrite lookup_insert_ne by set_solver.
    + intros i [-> |Hi]%elem_of_cons.
      * exists s, s1. rewrite Hout, lookup_insert_eq by done. split_and!; [done..|].
        destruct Hw as (q & ? & ? & ? & Hq). exists q. split_and!; [done..|]. intros _. by apply Hq; destruct u.
      * destruct (Hin i Hi) as (t & t' & Ht & Ht' & Hwt). rewrite lookup_insert_ne in Ht by set_solver. by exists t, t'.
  - split; [done|]. split; [intros i Hi; by rewrite lookup_insert_ne by set_solver|].
    intros i [-> |Hi]%elem_of_cons; [exists s, s1; by rewrite lookup_insert_eq|].
    destruct (Hall i ltac:(set_solver)) as [t Ht]. exists t, t. rewrite lookup_insert_ne by set_solver. split_and!; [done..|].
    exists []. rewrite app_nil_r. split_and!; [apply prefix_nil|done..].
Qed.

(** A record is written to every stream of the backend, followed by a newline as
    the mode says, and to no other one; streams that are not good are left alone,
    and one that stays good has the whole line unless writing threw. *)
Theorem ostream_backend_writes b message σ : NoDup (m_Streams b) → (∀ id, id ∈ m_Streams b → is_Some (σ !! id)) →
  let '(r, σ') := consume b message σ in
  r ≠ Stuck ∧ (∀ id, id ∉ m_Streams b → σ' !! id = σ !! id) ∧
  (∀ id, id ∈ m_Streams b → ∃ s s', σ !! id = Some s ∧ σ' !! id = Some s' ∧ wrote (line (m_AutoNewlineMode b) message) s s' r).
Proof. intros Hnd Hall. apply for_streams_run; [|done|done]. intros s. apply write_line_run. Qed.
End ostream_backend.

(** * Files chosen by the record *)

Section multifile.
Context {R FS path : Type} `{!EqDecision path, !Countable path}.

(** The file system: directories, whether a file can be opened, and how much of a
    text can be written to an open file. *)
Context (make_absolute : path → path) (parent_path : path → path).
Context (create_directories : path → sm FS unit) (open_file : path → FS → bool * FS) (room : path → str → FS → nat * FS).

(** The contents of the files and the rest. *)
Record disk := Disk { files : gmap path str; rest_ : FS }.

(** [set_file_name_composer] stores it. *)
Record multifile_backend := MultifileBackend { m_FileNameComposer : option (R → sm disk path); m_NewlineMode : auto_newline_mode }.

Definition construct_multifile (mode : auto_newline_mode) : multifile_backend := MultifileBackend None mode.

Definition set_file_name_composer (f : R → sm disk path) (b : multifile_backend) : multifile_backend :=
  MultifileBackend (Some f) (m_NewlineMode b).

Definition set_newline_mode (mode : auto_newline_mode) (b : multifile_backend) : multifile_backend :=
  MultifileBackend (m_FileNameComposer b) mode.

Definition on_rest_ {X} (m : sm FS X) : sm disk X := λ d, let (r, fs) := m (rest_ d) in (r, Disk (files d) fs).

(** Writing to the open file, at its end; the result tells whether the stream is
    still good. *)
Definition append_text (p : path) (s : str) (good : bool) : sm disk bool := λ d,
  if good then
    let (n, fs) := room p s (rest_ d) in
    (Ok (bool_decide (length s ≤ n)), Disk (<[p := default [] (files d !! p) ++ take n s]> (files d)) fs)
  else (Ok false, d).

(** Opening with [out | app] creates the file. *)
Definition open_append (p : path) : sm disk bool := λ d,
  let (ok, fs) := open_file p (rest_ d) in
  (Ok ok, Disk (if ok then <[p := default [] (files d !! p)]> (files d) else files d) fs).

Definition consume_multifile (b : multifile_backend) (rec : R) (message : str) : sm disk unit :=
  match m_FileNameComposer b with
  | None => mret ()
  | Some composer =>
      name ← composer rec;
      let file_name := make_absolute name in
      on_rest_ (create_directories (parent_path file_name));;
      is_open ← open_append file_name;
      if is_open : bool then
        good ← append_text file_name message true;
        _ ← (if need_trailing_newline (m_NewlineMode b) message then append_text file_name [newline] good else mret good);
        mret ()
      else mret ()
  end.

Definition content (d : disk) (p : path) : str := default [] (files d !! p).

(** A record changes only the file that its name is composed to, to which a
    beginning of its line is appended. *)
Lemma consume_multifile_run b composer rec message d name d1 :
  m_FileNameComposer b = Some composer → composer rec d = (Ok name, d1) → files d1 = files d →
  let '(r, d') := consume_multifile b rec message d in
  (∀ p, p ≠ make_absolute name → content d' p = content d p) ∧
  ∃ q, q `prefix_of` line (m_NewlineMode b) message ∧ content d' (make_absolute name) = content d (make_absolute name) ++ q ∧
    ((∀ p s fs, length s ≤ (room p s fs).1) → (∀ p fs, (open_file p fs).1) → (∀ p fs, (create_directories p fs).1 = Ok ()) →
     r = Ok () ∧ q = line (m_NewlineMode b) message).
Proof.
  intros Hb Hc Hf. set (p := make_absolute name). unfold consume_multifile. rewrite Hb, sm_bind_run, Hc. fold p.
  assert (∀ d', files d' = files d → (∀ p', p' ≠ p → content d' p' = content d p') ∧
    ∃ q, q `prefix_of` line (m_NewlineMode b) message ∧ content d' p = content d p ++ q) as Hsame.
  { intros d' Hd'. unfold content. rewrite Hd'. split; [done|]. exists []. rewrite app_nil_r. split; [apply prefix_nil|done]. }
  rewrite sm_bind_run. unfold on_rest_ at 1.
  destruct (create_directories (parent_path p) (rest_ d1)) as [[u|e|] fs1] eqn:Ec.
  2,3: destruct (Hsame (Disk (files d1) fs1) Hf) as [H1 (q & H2 & H3)]; split; [done|]; exists q; split_and!; [done..|];
    intros _ _ Hall; specialize (Hall (parent_path p) (rest_ d1)); by rewrite Ec in Hall.
  rewrite sm_bind_run. unfold open_append. cbn [rest_ files]. destruct (open_file p fs1) as [ok fs2] eqn:Eo. destruct ok.
  2: { destruct (Hsame (Disk (files d1) fs2) Hf) as [H1 (q & H2 & H3)]. split; [done|]. exists q. split_and!; [done..|].
       intros _ Hall. specialize (Hall p fs1). by rewrite Eo in Hall. }
  rewrite sm_bind_run. unfold append_text at 1. cbn [rest_ files]. destruct (room p message fs2) as [n fs3] eqn:Er.
  rewrite lookup_insert_eq. cbn [from_option id].
  set (d3 := Disk (<[p := default [] (files d1 !! p) ++ take n message]> (<[p := default [] (files d1 !! p)]> (files d1))) fs3).
  assert (∀ p', p' ≠ p → content d3 p' = content d p') as Hother.
  { intros p' Hne. unfold content, d3. cbn. by rewrite !lookup_insert_ne, Hf. }
  assert (content d3 p = content d p ++ take n message) as Hp by (unfold content, d3; cbn; by rewrite lookup_insert_eq, Hf).
  unfold line. destruct (need_trailing_newline (m_NewlineMode b) message).
  - rewrite sm_bind_run. unfold append_text. destruct (bool_decide (length message ≤ n)) eqn:En.
    + apply bool_decide_eq_true in En. rewrite take_ge in Hp by done. destruct (room p [newline] (rest_ d3)) as [k fs4] eqn:Ek.
      cbn. split; [intros p' Hne; unfold content; cbn; rewrite lookup_insert_ne by done; by apply Hother|].
      exists (message ++ take k [newline]). split_and!; [apply prefix_app, prefix_take|..].
      * unfold content in Hp |- *. cbn [files]. rewrite lookup_insert_eq. cbn [from_option id]. cbn [files d3] in Hp. by rewrite Hp, (assoc_L (++)).
      * intros Hroom _ _. split; [done|]. specialize (Hroom p [newline] (rest_ d3)). rewrite Ek in Hroom. cbn in Hroom.
        by rewrite take_ge.
    + apply bool_decide_eq_false in En. cbn. split; [done|]. exists (take n message). split_and!; [apply prefix_app_r, prefix_take|done|].
      intros Hroom. specialize (Hroom p message fs2). by rewrite Er in Hroom.
  - cbn. split; [done|]. exists (take n message). rewrite app_nil_r. split_and!; [apply prefix_take|done|].
    intros Hroom _ _. specialize (Hroom p message fs2). rewrite Er in Hroom. by rewrite take_ge.
Qed.

Fixpoint consume_all (b : multifile_backend) (l : list (R * str)) : sm disk unit :=
  match l with
  | [] => mret ()
  | (rec, message) :: l => consume_multifile b rec message;; consume_all b l
  end.

(** The lines of the records that are routed to a file. *)
Definition routed (route : R → path) (mode : auto_newline_mode) (p : path) (l : list (R * str)) : str :=
  mjoin ((λ x, if decide (make_absolute (route x.1) = p) then line mode x.2 else []) <$> l).

(** Every file has the lines of the records that are routed to it, in the order
    of the records, behind what it contained before. *)
Theorem multifile_routes b route l d :
  m_FileNameComposer b = Some (λ rec, mret (route rec)) →
  (∀ p s fs, length s ≤ (room p s fs).1) → (∀ p fs, (open_file p fs).1) → (∀ p fs, (create_directories p fs).1 = Ok ()) →
  ∃ d', consume_all b l d = (Ok (), d') ∧ ∀ p, content d' p = content d p ++ routed route (m_NewlineMode b) p l.
Proof.
  intros Hb Hroom Hopen Hdir. revert d. induction l as [|[rec message] l IH]; intros d.
  { exists d. split; [done|]. intros p. unfold routed. cbn. by rewrite app_nil_r. }
  cbn [consume_all]. rewrite sm_bind_run.
  pose proof (consume_multifile_run b _ rec message d (route rec) d Hb ltac:(done) ltac:(done)) as H.
  destruct (consume_multifile b rec message d) as [r d1]. destruct H as (Hother & q & _ & Hq & Hall).
  destruct (Hall Hroom Hopen Hdir) as [-> ->]. destruct (IH d1) as (d' & E & Hd'). exists d'. split; [done|].
  intros p. rewrite Hd'. unfold routed. cbn. rewrite (assoc_L (++)). f_equal. case_decide as Hp; [by subst p|].
  by rewrite Hother, app_nil_r.
Qed.
End multifile.

(** * Messages to another process *)

Section ipc_backend.
Context {Q : Type} (queue_is_open : Q → bool) (queue_send : str → sm Q unit).

(** The largest value of [size_type], which has 32 bits. *)
Definition size_type_max : Z := (2 ^ 32 - 1)%Z.

Definition consume_ipc (message : str) : sm Q unit :=
  q ← sm_get;
  if queue_is_open q then
    if decide (size_type_max < Z.of_nat (length message))%Z then sm_throw (ex_limitation_error 0) else queue_send message
  else mret ().
End ipc_backend.

(** * Identifiers *)

(** A digit of the table [g_hex_char_table]. *)
Definition hex_digit (uppercase : bool) (d : Z) : ascii :=
  if (d <? 10)%Z then digit_char d else ascii_of_nat (Z.to_nat (d - 10) + (if uppercase then 65 else 97)).

(** [format_id] with a buffer of [size] characters, for identifiers of
    [id_size] bytes; the text without the zero. *)
Definition format_id (id_size size : nat) (id : Z) (uppercase : bool) : outcome str :=
  if decide (size < 3) then Stuck
  else
    let n := if decide (id_size * 2 < size - 3) then id_size * 2 else size - 3 in
    Ok (["0"; (if uppercase then "X" else "x")]%char ++
        ((λ i, hex_digit uppercase (Z.land (Z.shiftr id (4 * Z.of_nat (n - 1 - i))) 15)) <$> seq 0 n)).

(** Reading hexadecimal digits. *)
Definition hex_value (c : ascii) : Z :=
  let n := Z.of_nat (nat_of_ascii c) in
  if (n <? 58)%Z then (n - 48)%Z else if (n <? 91)%Z then (n - 55)%Z else (n - 87)%Z.
Definition read_hex (s : str) : Z := fold_left (λ acc c, acc * 16 + hex_value c)%Z s 0%Z.

Lemma hex_digit_value uppercase d : (0 ≤ d < 16)%Z → hex_value (hex_digit uppercase d) = d.
Proof.
  intros Hd. assert (Forall (λ d, hex_value (hex_digit true d) = d ∧ hex_value (hex_digit false d) = d) (seqZ 0 16)) as Hall
    by (apply (bool_decide_unpack _); by vm_compute).
  rewrite Forall_forall in Hall. destruct (Hall d) as [H1 H2]; [apply elem_of_seqZ; lia|]. by destruct uppercase.
Qed.

Lemma read_hex_snoc s c : read_hex (s ++ [c]) = (read_hex s * 16 + hex_value c)%Z.
Proof. unfold read_hex. by rewrite fold_left_app. Qed.

Lemma read_hex_digits uppercase id k n : (0 ≤ id)%Z → k ≤ n →
  read_hex ((λ i, hex_digit uppercase (Z.land (Z.shiftr id (4 * Z.of_nat (n - 1 - i))) 15)) <$> seq 0 k) =
  (id / 16 ^ Z.of_nat (n - k) mod 16 ^ Z.of_nat k)%Z.
Proof.
  intros Hid. set (f i := hex_digit uppercase (Z.land (Z.shiftr id (4 * Z.of_nat (n - 1 - i))) 15)).
  induction k as [|k IH]; intros Hk; [by rewrite Z.mod_1_r|].
  rewrite seq_S, fmap_app. change (f <$> [0 + k]) with [f k]. rewrite read_hex_snoc, IH by lia. unfold f.
  change 15%Z with (Z.ones 4). rewrite Z.land_ones, Z.shiftr_div_pow2 by lia. change (2 ^ 4)%Z with 16%Z.
  rewrite hex_digit_value by (apply Z.mod_pos_bound; lia).
  replace (2 ^ (4 * Z.of_nat (n - 1 - k)))%Z with (16 ^ Z.of_nat (n - S k))%Z
    by (change 16%Z with (2 ^ 4)%Z; rewrite <- Z.pow_mul_r by lia; f_equal; lia).
  replace (n - k) with (S (n - S k)) by lia. rewrite !Nat2Z.inj_succ, !Z.pow_succ_r by lia.
  set (m := n - S k). rewrite (Z.mul_comm 16 (16 ^ Z.of_nat m)), <- Z.div_div by lia.
  set (x := (id / 16 ^ Z.of_nat m)%Z). rewrite (Z.mul_comm 16 (16 ^ Z.of_nat k)), Z.mul_comm.
  rewrite (Z.mul_comm (16 ^ Z.of_nat k) 16). rewrite (Z.rem_mul_r x 16 (16 ^ Z.of_nat k)) by lia. lia.
Qed.

(** An identifier is printed as [0x] and its digits, which are read back as the
    identifier; a buffer that is too small gets the last digits. *)
Theorem format_id_roundtrip id_size size id uppercase : 3 ≤ size → (0 ≤ id < 16 ^ Z.of_nat (id_size * 2))%Z →
  ∃ ds, format_id id_size size id uppercase = Ok (["0"; (if uppercase then "X" else "x")]%char ++ ds) ∧
    length ds + 3 ≤ size ∧ read_hex ds = (id mod 16 ^ Z.of_nat (length ds))%Z ∧
    (id_size * 2 + 3 ≤ size → read_hex ds = id).
Proof.
  intros Hsize Hid. unfold format_id. rewrite decide_False by lia.
  set (n := if decide (id_size * 2 < size - 3) then id_size * 2 else size - 3). eexists. split; [done|].
  rewrite length_fmap, length_seq. assert (n ≤ size - 3 ∧ (id_size * 2 + 3 ≤ size → n = id_size * 2)) as [Hn1 Hn2] by (subst n; case_decide; lia).
  pose proof (read_hex_digits uppercase id n n ltac:(lia) ltac:(lia)) as E. rewrite Nat.sub_diag, Z.pow_0_r, Z.div_1_r in E.
  split; [lia|]. split; [done|]. intros Hle. rewrite E, Hn2 by done. by apply Z.mod_small.
Qed.

(** * The default sink *)

(** The names of trivial severity levels, padded to the same width. *)
Definition severity_level_to_string (lvl : Z) : str :=
  match lvl with
  | 0 => str_lit "[trace]  "
  | 1 => str_lit "[debug]  "
  | 2 => str_lit "[info]   "
  | 3 => str_lit "[warning]"
  | 4 => str_lit "[error]  "
  | 5 => str_lit "[fatal]  "
  | _ => str_lit "[-]      "
  end%Z.

(** [decomposed_time_point]. *)
Record time_point := TimePoint { year : Z; month : Z; day : Z; hours : Z; minutes : Z; seconds : Z; useconds : Z }.

(** The text that [message_printer] prints. *)
Definition printed (now : time_point) (tid : str) (lvl : Z) (message : str) : str :=
  let num width n := pad_left "0" width (dec n) in
  str_lit "[" ++ num 4 (year now) ++ str_lit "-" ++ num 2 (month now) ++ str_lit "-" ++ num 2 (day now) ++ str_lit " " ++
  num 2 (hours now) ++ str_lit ":" ++ num 2 (minutes now) ++ str_lit ":" ++ num 2 (seconds now) ++ str_lit "." ++
  num 6 (useconds now) ++ str_lit "] [" ++ tid ++ str_lit "] " ++ severity_level_to_string lvl ++ str_lit " " ++
  c_str message ++ [newline].

Section default_sink.
Context {val : Type} (type_of : val → N) {A W S : Type} `{!AttrStore A S}.
Context (get_value : A → W → outcome (option val) * W).
(** The types of severity levels and messages, and what their values are. *)
Context (severity_type : N) (message_types : value_types) (severity_of : val → Z) (message_of : val → str).
Context (m_severity_name m_message_name : N) (default_severity : val).
(** The clock, the identifier of the thread and the standard output. *)
Context (local_time : W → time_point) (thread_id : str) (print : str → W → W) (fflush : W → W).

Definition message_printer (lvl : Z) (v : val) : sm W unit :=
  w ← sm_get; sm_modify (print (printed (local_time w) thread_id lvl (message_of v))).

Definition default_will_consume : bool := true.

Definition default_consume : sm (attribute_value_set (option val) S * W) unit :=
  r ← extract_named type_of get_value (single_type severity_type) (fallback_to_default default_severity) m_severity_name;
  lvl ← sm_lift (get_ref type_of (single_type severity_type) severity_type r);
  visit_named type_of get_value message_types fallback_to_none m_message_name (message_printer (severity_of lvl));;
  on_world (sm_modify fflush).

Definition default_flush : sm W unit := sm_modify fflush.

(** The default sink prints one line for a record with a message, with the
    severity of the record or the default one, and nothing for another one. *)
Theorem default_sink_prints v w : vset_wf v → pending v = ∅ →
  m_severity_name ≠ AttributeSet.uninitialized → m_message_name ≠ AttributeSet.uninitialized →
  default_consume (v, w) = (Ok (), (v, fflush
    (match value_in v m_message_name with
     | Some m =>
         if decide (type_of m ∈ types_list message_types) then
           let lvl := match value_in v m_severity_name with
                      | Some s => if decide (type_of s = severity_type) then s else default_severity
                      | None => default_severity
                      end in
           print (printed (local_time w) thread_id (severity_of lvl) (message_of m)) w
         else w
     | None => w
     end))).
Proof.
  intros Hv Hp Hs Hm. unfold default_consume, extract_named. rewrite !sm_bind_run, (find_frozen get_value v w) by done.
  unfold sm_lift at 1. rewrite extract_value_run. unfold selected, value_in. cbn [types_list fall_back].
  set (lvl := match mjoin (frozen v !! m_severity_name) with
    | Some s => if decide (type_of s = severity_type) then s else default_severity | None => default_severity end).
  assert (match mjoin (frozen v !! m_severity_name) with
    | Some x => if decide (type_of x ∈ [severity_type]) then Ok (Some x) else Ok (Some default_severity)
    | None => Ok (Some default_severity) end = Ok (Some lvl)) as ->.
  { subst lvl. destruct (mjoin (frozen v !! m_severity_name)) as [s|]; [|done].
    rewrite (decide_ext _ (type_of s = severity_type)) by (by rewrite list_elem_of_singleton). by case_decide. }
  cbn [obind ref_of make_ref ref_types]. rewrite sm_bind_run. cbn [sm_lift get_ref get_ptr ref_types obind of_ptr m_ptr].
  rewrite sm_bind_run, visit_named_run, (find_frozen get_value v w) by done. unfold selected. cbn [fall_back].
  destruct (mjoin (frozen v !! m_message_name)) as [m|]; [|done]. by case_decide.
Qed.
End default_sink.

(** * Examples *)

Module sample_backends.
(** A stream that takes a limited number of characters. *)
Record bounded := Bounded { text : str; bound : nat; ok : bool }.

Definition write (p : str) : sm bounded unit := λ s,
  if ok s then (Ok (), Bounded (text s ++ take (bound s - length (text s)) p) (bound s) (bool_decide (length (text s ++ p) ≤ bound s)))
  else (Ok (), s).

Lemma write_law p s : ∃ q, q `prefix_of` p ∧ text (write p s).2 = text s ++ q ∧
  (ok s = false → q = []) ∧ ((write p s).1 = Ok () → ok (write p s).2 → q = p ∧ ok s).
Proof.
  unfold write. destruct s as [t n g]. cbn. destruct g; cbn.
  - exists (take (n - length t) p). split_and!; [apply prefix_take|done..|]. intros _ H%bool_decide_unpack.
    rewrite length_app in H. by rewrite take_ge by lia.
  - exists []. rewrite app_nil_r. split_and!; [apply prefix_nil|done..].
Qed.

Lemma write_safe p s : (write p s).1 ≠ Stuck.
Proof. unfold write. by destruct (ok s). Qed.

#[local] Instance bounded_stream : OStream bounded := {|
  os_good := ok; os_write := write; os_flush := mret (); os_text := text;
  os_write_law := write_law; os_write_safe := write_safe;
  os_flush_law s := conj eq_refl (λ H, H); os_flush_safe s := ltac:(done) |}.

(** A stream with enough room, one without, and one that has failed before. *)
Definition three_streams : gmap nat bounded :=
  {[1 := Bounded [] 100 true; 2 := Bounded [] 2 true; 3 := Bounded [] 100 false]}.

Definition both : backend := add_stream 3 (add_stream 2 (add_stream 1 (construct insert_if_missing false))).

Example lines_written :
  (λ s, (text s, ok s)) <$> (consume both (str_lit "abc") three_streams).2 =
  {[1 := (str_lit "abc" ++ [newline], true); 2 := (str_lit "ab", false); 3 := ([], false)]}.
Proof. by vm_compute. Qed.

Example thread_id_printed : format_id 4 64 0x1AF false = Ok (str_lit "0x000001af").
Proof. by vm_compute. Qed.
End sample_backends.
