(* ===== verification/Loggers.v ===== *)
(** Loggers and their features: src/include/boost/log/sources/basic_logger.hpp,
    features.hpp, severity_feature.hpp, channel_feature.hpp,
    exception_handler_feature.hpp, src/src/severity_level.cpp and
    attributes/mutable_constant.hpp.

    A composite logger derives from a chain of features over the basic logger.
    The level of a severity logger is kept in the thread, not in the logger; the
    channel of a logger is an object that its attribute refers to. *)

From Stdlib Require Import ZArith.
From stdpp Require Import base numbers list gmap.
From S2P Require Import Prelude BucketList AttributeSet AttributeValueSet Core.

(** * Assignment through [attribute_set::operator\[\]] *)

Section assign.
Context {A : Type}.

Definition set_attr_data (it : addr) (data : A) (s : attribute_set A) : attribute_set A :=
  AttributeSet ((λ n, if decide (n_addr n = it) then Node (n_addr n) (n_key n) data else n) <$> m_Nodes s)
    (m_Buckets s) (m_Pool s).

(** [attribute_set_reference_proxy::operator=]. *)
Definition assign_attr (sys : addr) (key : N) (data : A) (s : attribute_set A) : outcome (attribute_set A) :=
  let* (it, inserted, s') := insert sys key data s in
  Ok (if inserted : bool then s' else set_attr_data it data s').

(** Keys and addresses identify nodes. *)
Lemma same_key_node (s : attribute_set A) n m : set_wf s → n ∈ m_Nodes s → m ∈ m_Nodes s → n_key n = n_key m → n = m.
Proof.
  intros Hs Hn Hm Hk. assert (NoDup (n_key <$> m_Nodes s)) as Hnd by (eapply wf_keys_NoDup, set_wf_nodes, Hs).
  apply list_elem_of_lookup in Hn as [i Hi], Hm as [j Hj]. assert (i = j) as ->; [|congruence].
  eapply (NoDup_lookup _ _ _ (n_key n)); [exact Hnd|..]; rewrite list_lookup_fmap, ?Hi, ?Hj; cbn; congruence.
Qed.

Lemma same_addr_node (s : attribute_set A) n m : set_wf s → n ∈ m_Nodes s → m ∈ m_Nodes s → n_addr n = n_addr m → n = m.
Proof.
  intros Hs Hn Hm Hk. assert (deref (m_Nodes s) (n_addr n) = Some n) as H1 by by apply deref_node.
  assert (deref (m_Nodes s) (n_addr m) = Some m) as H2 by by apply deref_node. congruence.
Qed.

(** Nodes that keep their keys and addresses. *)
Lemma bucket_nodes_fmap (g : node A → node A) l i : (∀ m, n_key (g m) = n_key m) →
  bucket_nodes (g <$> l) i = g <$> bucket_nodes l i.
Proof.
  intros Hg. unfold bucket_nodes. induction l as [|m l IH]; [done|]. rewrite fmap_cons, !filter_cons, Hg, IH.
  by destruct (decide _).
Qed.

Lemma same_nodes_wf (g : node A → node A) l tbl :
  (∀ m, n_key (g m) = n_key m) → (∀ m, n_addr (g m) = n_addr m) → wf l tbl → wf (g <$> l) tbl.
Proof.
  intros Hk Ha (order & seg & Hr). apply (relabel_wf order seg l tbl); [done|done|..].
  - rewrite <- list_fmap_compose. erewrite list_fmap_ext; [by eapply repr_addrs|]. intros; cbn. apply Ha.
  - split; [by eapply repr_table_len|]. intros i b Hb. rewrite (repr_table _ _ _ _ Hr i b Hb), bucket_nodes_fmap by done.
    rewrite (repr_bucket_nodes _ _ _ _ i Hr). f_equal.
    + destruct (seg i); [done|]. cbn. by rewrite Ha.
    + rewrite fmap_last. destruct (list.last (seg i)); [|done]. cbn. by rewrite Ha.
Qed.

Lemma set_attr_data_spec n data s : set_wf s → n ∈ m_Nodes s →
  set_wf (set_attr_data (n_addr n) data s) ∧ abs (set_attr_data (n_addr n) data s) = <[n_key n := data]> (abs s).
Proof.
  intros Hs Hn. set (g m := if decide (n_addr m = n_addr n) then Node (n_addr m) (n_key m) data else m).
  assert (∀ m, n_key (g m) = n_key m) as Hk by (intros m; unfold g; by case_decide).
  assert (∀ m, n_addr (g m) = n_addr m) as Ha by (intros m; unfold g; by case_decide).
  assert (set_wf (set_attr_data (n_addr n) data s)) as Hs'.
  { destruct Hs as [Hwf Hnames Hown Hpool]. split; [by apply same_nodes_wf|..|done].
    - cbn. fold g. rewrite Forall_fmap. eapply Forall_impl; [exact Hnames|]. intros m Hm. cbn. by rewrite Hk.
    - unfold owned. cbn. fold g. rewrite <- list_fmap_compose.
      erewrite (list_fmap_ext _ n_addr); [exact Hown|]. intros; cbn. apply Ha. }
  split; [done|]. apply map_eq. intros k. apply option_eq. intros v. rewrite (abs_lookup _ k v Hs'). cbn. fold g.
  setoid_rewrite list_elem_of_fmap. destruct (decide (k = n_key n)) as [-> |Hne].
  - rewrite lookup_insert_eq. split.
    + intros (m & (x & -> & Hx) & Hkx & <-). rewrite Hk in Hkx.
      assert (x = n) as -> by (eapply (same_key_node s); done). unfold g. by rewrite decide_True.
    + intros [= <-]. exists (g n). split; [by exists n|]. split; [done|]. unfold g. by rewrite decide_True.
  - rewrite lookup_insert_ne by done. rewrite (abs_lookup s k v Hs). split.
    + intros (m & (x & -> & Hx) & Hkx & <-). rewrite Hk in Hkx. exists x. split; [done|]. split; [done|].
      unfold g. case_decide as E; [|done]. assert (x = n) as -> by (eapply (same_addr_node s); done). done.
    + intros (x & Hx & Hkx & Hv). exists (g x). split; [by exists x|]. rewrite Hk. split; [done|]. unfold g.
      case_decide as E; [|done]. assert (x = n) as -> by (eapply (same_addr_node s); done). done.
Qed.

Lemma assign_attr_spec sys key data s : set_wf s → key ≠ uninitialized → sys ∉ owned s →
  ∃ s', assign_attr sys key data s = Ok s' ∧ set_wf s' ∧ abs s' = <[key := data]> (abs s).
Proof.
  intros Hs Hk Hsys. unfold assign_attr. destruct (abs s !! key) as [v|] eqn:E.
  - destruct (insert_present sys key data s v Hs Hk E) as (n & -> & Hn & Hnk & Hnv). cbn.
    destruct (set_attr_data_spec n data s Hs Hn) as [H1 H2]. eexists. split; [done|]. split; [done|]. by rewrite H2, Hnk.
  - destruct (insert_absent sys key data s Hs Hk Hsys E) as (a & s' & -> & Hs' & Habs & _). by exists s'.
Qed.

(** An address that the allocator may return. *)
Definition fresh_addr (s : attribute_set A) : addr := new_addr (owned s).

Lemma fresh_addr_ok s : fresh_addr s ∉ owned s.
Proof. apply new_addr_fresh. Qed.

(** A copy of a set, with new nodes. *)
Definition copy_set (s : attribute_set A) : outcome (attribute_set A) := copy (new_storage (size s)) s.

Lemma copy_set_spec s : set_wf s → ∃ s', copy_set s = Ok s' ∧ set_wf s' ∧ abs s' = abs s.
Proof.
  intros Hs. destruct (copy_spec (new_storage (size s)) s Hs) as (s' & E & Hs' & Habs & _);
    [apply new_storage_NoDup|apply length_new_storage|]. by exists s'.
Qed.
End assign.

(** * Loggers *)

(** A feature of a composite logger. *)
Inductive feature := f_severity | f_channel | f_handler.

#[export] Instance feature_eq_dec : EqDecision feature.
Proof. solve_decision. Defined.

Section loggers.
(** Channel names, other attributes, and the rest of the program. *)
Context {Ch U X : Type}.
(** The names of the attributes, and the default-constructed channel name. *)
Context (severity_name channel_name : N) (default_channel : Ch).

(** The attributes of loggers: the severity level of the current thread, the
    value of a shared object, any other. *)
Inductive source_attribute : Type :=
| attr_severity
| attr_channel (cell : nat)
| attr_user (u : U).

(** The members of the features; a member of a feature that the logger does not
    have is not used. *)
Record logger := Logger {
  m_Attributes : attribute_set source_attribute;
  m_DefaultSeverity : Z;
  m_ChannelAttr : nat;
  m_LoggerHandler : option (exn → sm X unit) }.

(** The objects of channel attributes ([mutable_constant::impl]), the severity
    level of each thread, and the rest. *)
Record env := Env {
  cells : gmap nat Ch;
  levels : gmap nat Z;
  rest : X }.

(** [get_severity_level]: 0 in a new thread. *)
Definition level_of (tid : nat) (e : env) : Z := default 0%Z (levels e !! tid).

(** [severity_level::set_value] and [mutable_constant::set]. *)
Definition set_level (tid : nat) (z : Z) (e : env) : env := Env (cells e) (<[tid := z]> (levels e)) (rest e).
Definition set_cell (c : nat) (ch : Ch) (e : env) : env := Env (<[c := ch]> (cells e)) (levels e) (rest e).
Definition get_cell (c : nat) : sm env Ch := e ← sm_get; sm_lift (of_ptr (cells e !! c)).

(** [new impl(value)]. *)
Definition new_cell (ch : Ch) : sm env nat :=
  e ← sm_get;
  let c := fresh (dom (cells e)) in
  sm_modify (set_cell c ch);; mret c.

(** Named arguments of constructors and of [open_record]. *)
Record arguments := Arguments_ { arg_severity : option Z; arg_channel : option Ch }.

(** ** Constructors *)

Definition with_attributes (s : attribute_set source_attribute) (l : logger) : logger :=
  Logger s (m_DefaultSeverity l) (m_ChannelAttr l) (m_LoggerHandler l).
Definition with_severity (z : Z) (l : logger) : logger :=
  Logger (m_Attributes l) z (m_ChannelAttr l) (m_LoggerHandler l).
Definition with_channel (c : nat) (l : logger) : logger :=
  Logger (m_Attributes l) (m_DefaultSeverity l) c (m_LoggerHandler l).
Definition with_handler (h : option (exn → sm X unit)) (l : logger) : logger :=
  Logger (m_Attributes l) (m_DefaultSeverity l) (m_ChannelAttr l) h.

(** [add_attribute_unlocked]; the result tells whether it was added. *)
Definition add_attribute (name : N) (a : source_attribute) (l : logger) : outcome (bool * logger) :=
  let* (_, inserted, s) := insert (fresh_addr (m_Attributes l)) name a (m_Attributes l) in
  Ok (inserted, with_attributes s l).

Definition assign_attribute (name : N) (a : source_attribute) (l : logger) : outcome logger :=
  let* s := assign_attr (fresh_addr (m_Attributes l)) name a (m_Attributes l) in Ok (with_attributes s l).

(** The constructors with arguments. *)
Definition new_basic_logger : logger := Logger empty_set 0 0 None.

Definition new_severity_logger (args : arguments) (l : logger) : sm env logger :=
  l' ← sm_lift (add_attribute severity_name attr_severity (with_severity (default 0%Z (arg_severity args)) l));
  mret l'.2.

Definition new_channel_logger (args : arguments) (l : logger) : sm env logger :=
  c ← new_cell (default default_channel (arg_channel args));
  l' ← sm_lift (add_attribute channel_name (attr_channel c) (with_channel c l));
  mret l'.2.

Definition new_handler_logger (l : logger) : sm env logger := mret (with_handler None l).

(** From the basic logger to the outermost feature, which is the first of the
    list. *)
Fixpoint construct (fs : list feature) (args : arguments) : sm env logger :=
  match fs with
  | [] => mret new_basic_logger
  | f_severity :: base => l ← construct base args; new_severity_logger args l
  | f_channel :: base => l ← construct base args; new_channel_logger args l
  | f_handler :: base => l ← construct base args; new_handler_logger l
  end.

(** The copy constructors. *)
Definition copy_basic_logger (that : logger) : sm env logger :=
  s ← sm_lift (copy_set (m_Attributes that)); mret (Logger s 0 0 None).

Definition copy_severity_logger (that l : logger) : sm env logger :=
  sm_lift (assign_attribute severity_name attr_severity (with_severity (m_DefaultSeverity that) l)).

Definition copy_channel_logger (that l : logger) : sm env logger :=
  ch ← get_cell (m_ChannelAttr that);
  c ← new_cell ch;
  sm_lift (assign_attribute channel_name (attr_channel c) (with_channel c l)).

Definition copy_handler_logger (that l : logger) : sm env logger := mret (with_handler (m_LoggerHandler that) l).

Fixpoint copy_construct (fs : list feature) (that : logger) : sm env logger :=
  match fs with
  | [] => copy_basic_logger that
  | f_severity :: base => l ← copy_construct base that; copy_severity_logger that l
  | f_channel :: base => l ← copy_construct base that; copy_channel_logger that l
  | f_handler :: base => l ← copy_construct base that; copy_handler_logger that l
  end.

(** [swap_unlocked] of each feature, after the one of its base. *)
Definition swap_basic (p : logger * logger) : logger * logger :=
  (with_attributes (m_Attributes p.2) p.1, with_attributes (m_Attributes p.1) p.2).
Definition swap_severity (p : logger * logger) : logger * logger :=
  (with_severity (m_DefaultSeverity p.2) p.1, with_severity (m_DefaultSeverity p.1) p.2).
Definition swap_channel (p : logger * logger) : logger * logger :=
  (with_channel (m_ChannelAttr p.2) p.1, with_channel (m_ChannelAttr p.1) p.2).
Definition swap_handler (p : logger * logger) : logger * logger :=
  (with_handler (m_LoggerHandler p.2) p.1, with_handler (m_LoggerHandler p.1) p.2).

Fixpoint swap_unlocked (fs : list feature) (p : logger * logger) : logger * logger :=
  match fs with
  | [] => swap_basic p
  | f_severity :: base => swap_severity (swap_unlocked base p)
  | f_channel :: base => swap_channel (swap_unlocked base p)
  | f_handler :: base => swap_handler (swap_unlocked base p)
  end.

(** [assign] of another logger: copy and swap; the result is the assigned logger. *)
Definition assign (fs : list feature) (this that : logger) : sm env logger :=
  tmp ← copy_construct fs that; mret (swap_unlocked fs (this, tmp)).1.

(** ** Attributes, channel and handler *)

Definition remove_attribute (it : addr) (l : logger) : outcome logger :=
  let* s := erase_iter it (m_Attributes l) in Ok (with_attributes s l).
Definition remove_all_attributes (l : logger) : logger := with_attributes (clear (m_Attributes l)) l.
Definition get_attributes (l : logger) : outcome (attribute_set source_attribute) := copy_set (m_Attributes l).
Definition set_attributes (s : attribute_set source_attribute) (l : logger) : outcome logger :=
  let* s' := copy_set s in Ok (with_attributes s' l).

Definition get_channel (l : logger) : sm env Ch := get_cell (m_ChannelAttr l).
Definition set_channel (ch : Ch) (l : logger) : sm env unit := sm_modify (set_cell (m_ChannelAttr l) ch).
Definition set_logger_handler (h : exn → sm X unit) (l : logger) : logger := with_handler (Some h) l.

(** ** Records *)

(** What loggers use of the core, in a thread: whether logging is enabled,
    opening a record with the attributes of a source, and pushing the record of
    a handle, which is emptied when the record is taken from it. *)
Class CoreApi (R : Type) := {
  api_enabled : X → bool;
  api_open : nat → attribute_set source_attribute → sm env (option R);
  api_push : nat → sm (option R * env) unit }.

Context {R : Type} `{!CoreApi R}.

Definition on_rest {Y} (m : sm X Y) : sm env Y := λ e,
  let (r, x) := m (rest e) in (r, Env (cells e) (levels e) x).

(** [handle_exception]. *)
Definition handle_exception (l : logger) (e : exn) : sm env unit := on_rest (handle (m_LoggerHandler l) e).

(** [open_record_unlocked] of each feature, with the one of its base. *)
Definition severity_open_record (tid : nat) (l : logger) (args : arguments) (base : sm env (option R)) : sm env (option R) :=
  sm_modify (set_level tid (default (m_DefaultSeverity l) (arg_severity args)));; base.

Definition channel_open_record (l : logger) (args : arguments) (base : sm env (option R)) : sm env (option R) :=
  match arg_channel args with
  | Some ch => set_channel ch l;; base
  | None => base
  end.

Definition handler_open_record (l : logger) (base : sm env (option R)) : sm env (option R) :=
  sm_catch base (λ e, handle_exception l e;; mret None).

Fixpoint open_record_unlocked (fs : list feature) (tid : nat) (l : logger) (args : arguments) : sm env (option R) :=
  match fs with
  | [] => api_open tid (m_Attributes l)
  | f_severity :: base => severity_open_record tid l args (open_record_unlocked base tid l args)
  | f_channel :: base => channel_open_record l args (open_record_unlocked base tid l args)
  | f_handler :: base => handler_open_record l (open_record_unlocked base tid l args)
  end.

(** Code that does not use the handle. *)
Definition beside_handle {Y} (m : sm env Y) : sm (option R * env) Y := λ '(h, e),
  let (r, e') := m e in (r, (h, e')).

Definition handler_push_record (l : logger) (base : sm (option R * env) unit) : sm (option R * env) unit :=
  sm_catch base (λ e, beside_handle (handle_exception l e)).

Fixpoint push_record_unlocked (fs : list feature) (tid : nat) (l : logger) : sm (option R * env) unit :=
  match fs with
  | [] => api_push tid
  | f_severity :: base | f_channel :: base => push_record_unlocked base tid l
  | f_handler :: base => handler_push_record l (push_record_unlocked base tid l)
  end.

(** [basic_composite_logger::open_record] and [push_record]. *)
Definition logger_open_record (fs : list feature) (tid : nat) (l : logger) (args : arguments) : sm env (option R) :=
  e ← sm_get;
  if api_enabled (rest e) then open_record_unlocked fs tid l args else mret None.

Definition logger_push_record (fs : list feature) (tid : nat) (l : logger) : sm (option R * env) unit :=
  push_record_unlocked fs tid l.

(** * The order of the features *)

(** The state in which the core is called. *)
Definition prepared (fs : list feature) (tid : nat) (l : logger) (args : arguments) (e : env) : env :=
  let e := if decide (f_severity ∈ fs) then set_level tid (default (m_DefaultSeverity l) (arg_severity args)) e else e in
  match arg_channel args with
  | Some ch => if decide (f_channel ∈ fs) then set_cell (m_ChannelAttr l) ch e else e
  | None => e
  end.

(** A call of the core with the handler of the logger around it. *)
Definition guarded {St Y} (fs : list feature) (handler : exn → sm St Y) (m : sm St Y) : sm St Y :=
  if decide (f_handler ∈ fs) then sm_catch m handler else m.

Definition open_failed (l : logger) (e : exn) : sm env (option R) := handle_exception l e;; mret None.
Definition push_failed (l : logger) (e : exn) : sm (option R * env) unit := beside_handle (handle_exception l e).

Lemma decide_cons {Y} (f g : feature) fs (a b : Y) :
  (if decide (f ∈ g :: fs) then a else b) = if decide (f = g) then a else if decide (f ∈ fs) then a else b.
Proof. destruct (decide (f ∈ g :: fs)), (decide (f = g)), (decide (f ∈ fs)); set_solver. Qed.

Lemma prepared_severity fs tid l args e : f_severity ∉ fs →
  prepared fs tid l args (set_level tid (default (m_DefaultSeverity l) (arg_severity args)) e) =
  prepared (f_severity :: fs) tid l args e.
Proof.
  intros Hn. unfold prepared. rewrite !decide_cons. rewrite (decide_False (P := f_severity ∈ fs)) by done.
  rewrite decide_True by done. destruct (arg_channel args); [|done]. by rewrite !decide_cons, (decide_False (P := f_channel = f_severity)).
Qed.

Lemma prepared_channel fs tid l args e : f_channel ∉ fs →
  prepared fs tid l args (match arg_channel args with Some ch => set_cell (m_ChannelAttr l) ch e | None => e end) =
  prepared (f_channel :: fs) tid l args e.
Proof.
  intros Hn. unfold prepared. rewrite !decide_cons. rewrite (decide_False (P := f_severity = f_channel)) by done.
  destruct (arg_channel args); [|done]. rewrite decide_cons, (decide_True (P := f_channel = f_channel)) by done.
  rewrite (decide_False (P := f_channel ∈ fs)) by done. by destruct (decide _).
Qed.

Lemma prepared_handler fs tid l args e : prepared (f_handler :: fs) tid l args e = prepared fs tid l args e.
Proof. unfold prepared. by destruct (arg_channel args); rewrite !decide_cons, ?(decide_False (P := _ = f_handler)). Qed.

Lemma guarded_cons {St Y} f fs (handler : exn → sm St Y) m : f ≠ f_handler →
  guarded (f :: fs) handler m = guarded fs handler m.
Proof. intros Hf. unfold guarded. by rewrite decide_cons, (decide_False (P := f_handler = f)) by congruence. Qed.

(** The chain calls the core once, after the arguments have been stored. *)
Lemma open_prepared fs tid l args e : NoDup fs →
  open_record_unlocked fs tid l args e = guarded fs (open_failed l) (api_open tid (m_Attributes l)) (prepared fs tid l args e).
Proof.
  intros Hnd. revert e. induction Hnd as [|f fs Hf Hnd IH]; intros e.
  { unfold prepared, guarded. cbn. by destruct (arg_channel args). }
  destruct f; cbn [open_record_unlocked]; unfold severity_open_record, channel_open_record, handler_open_record.
  - sm_step. rewrite guarded_cons by done. by rewrite IH, prepared_severity.
  - rewrite guarded_cons by done. rewrite <- prepared_channel by done. destruct (arg_channel args) eqn:E; [|by rewrite IH].
    unfold set_channel. sm_step. by rewrite IH.
  - rewrite prepared_handler. unfold sm_catch. rewrite IH. unfold guarded.
    by rewrite decide_cons, (decide_True (P := f_handler = f_handler)), (decide_False (P := f_handler ∈ fs)).
Qed.

Lemma push_guarded fs tid l he : NoDup fs → push_record_unlocked fs tid l he = guarded fs (push_failed l) (api_push tid) he.
Proof.
  intros Hnd. revert he. induction Hnd as [|f fs Hf Hnd IH]; intros he; [done|].
  destruct f; cbn [push_record_unlocked]; [by rewrite guarded_cons..|]. unfold handler_push_record, sm_catch. rewrite IH. unfold guarded.
  by rewrite decide_cons, (decide_True (P := f_handler = f_handler)), (decide_False (P := f_handler ∈ fs)).
Qed.

(** The features of a logger work in any order. For every list of different
    features, opening a record stores the level in the thread and the channel
    given in the statement in the logger, calls the core once with the attributes
    of the logger, and passes its exceptions to the handler if there is one; a
    logger with the features in another order does the same, also when records
    are pushed. Nothing is done when logging is disabled. *)
Theorem features_any_order fs fs' tid l args e : NoDup fs → fs ≡ₚ fs' →
  logger_open_record fs tid l args e =
    (if api_enabled (rest e) then guarded fs (open_failed l) (api_open tid (m_Attributes l)) (prepared fs tid l args e)
     else (Ok None, e)) ∧
  logger_open_record fs' tid l args e = logger_open_record fs tid l args e ∧
  ∀ h, logger_push_record fs tid l (h, e) = guarded fs (push_failed l) (api_push tid) (h, e) ∧
    logger_push_record fs' tid l (h, e) = logger_push_record fs tid l (h, e).
Proof.
  intros Hnd Hp. assert (NoDup fs') as Hnd' by by rewrite <- Hp.
  assert (∀ f, f ∈ fs' ↔ f ∈ fs) as Hin by (intros f; by rewrite Hp).
  assert (prepared fs' tid l args e = prepared fs tid l args e) as Hprep.
  { unfold prepared. destruct (arg_channel args); rewrite !(decide_ext (_ ∈ fs') (_ ∈ fs)) by done; done. }
  assert (∀ St Y (h : exn → sm St Y) m, guarded fs' h m = guarded fs h m) as Hg.
  { intros. unfold guarded. by rewrite (decide_ext (_ ∈ fs') (_ ∈ fs)) by done. }
  assert (logger_open_record fs tid l args e =
    (if api_enabled (rest e) then guarded fs (open_failed l) (api_open tid (m_Attributes l)) (prepared fs tid l args e)
     else (Ok None, e))) as E.
  { unfold logger_open_record. sm_step. destruct (api_enabled (rest e)); [by apply open_prepared|done]. }
  split; [done|]. split.
  - rewrite E. unfold logger_open_record. sm_step. destruct (api_enabled (rest e)); [|done].
    by rewrite open_prepared, Hprep, Hg.
  - intros h. unfold logger_push_record. by rewrite !push_guarded, Hg.
Qed.

(** * The attributes of a logger *)

Section attributes.
Context (Hsev : severity_name ≠ uninitialized) (Hchan : channel_name ≠ uninitialized).
Context (Hnames : severity_name ≠ channel_name).

(** The attributes of the features over other ones. *)
Definition own_attributes (fs : list feature) (c : nat) (m : gmap N source_attribute) : gmap N source_attribute :=
  let m := if decide (f_channel ∈ fs) then <[channel_name := attr_channel c]> m else m in
  if decide (f_severity ∈ fs) then <[severity_name := attr_severity]> m else m.

(** The logger's attributes have the attributes of its features, and the
    channel is an object of its own. *)
Record logger_ok (fs : list feature) (l : logger) (e : env) : Prop := LoggerOk {
  ok_set : set_wf (m_Attributes l);
  ok_severity : f_severity ∈ fs → abs (m_Attributes l) !! severity_name = Some attr_severity;
  ok_channel : f_channel ∈ fs → abs (m_Attributes l) !! channel_name = Some (attr_channel (m_ChannelAttr l)) ∧
    is_Some (cells e !! m_ChannelAttr l) }.

(** A logger made in [e], whose attributes were [m] before its features added
    theirs: nothing that existed is changed. *)
Record made (fs : list feature) (m : gmap N source_attribute) (z : Z) (ch : Ch) (h : option (exn → sm X unit))
    (e : env) (l : logger) (e' : env) : Prop := Made {
  made_set : set_wf (m_Attributes l);
  made_attributes : abs (m_Attributes l) = own_attributes fs (m_ChannelAttr l) m;
  made_severity : f_severity ∈ fs → m_DefaultSeverity l = z;
  made_channel : f_channel ∈ fs → cells e !! m_ChannelAttr l = None ∧ cells e' !! m_ChannelAttr l = Some ch;
  made_handler : f_handler ∈ fs → m_LoggerHandler l = h;
  made_cells : cells e ⊆ cells e';
  made_rest : levels e' = levels e ∧ rest e' = rest e }.

Lemma own_severity fs c m : f_severity ∉ fs →
  own_attributes (f_severity :: fs) c m = <[severity_name := attr_severity]> (own_attributes fs c m).
Proof.
  intros Hn. unfold own_attributes. rewrite !decide_cons, (decide_True (P := f_severity = f_severity)) by done.
  rewrite (decide_False (P := f_channel = f_severity)) by done. by rewrite (decide_False (P := f_severity ∈ fs)).
Qed.

Lemma own_channel fs c c' m : f_channel ∉ fs →
  own_attributes (f_channel :: fs) c m = <[channel_name := attr_channel c]> (own_attributes fs c' m).
Proof.
  intros Hn. unfold own_attributes. rewrite !decide_cons, (decide_True (P := f_channel = f_channel)) by done.
  rewrite (decide_False (P := f_severity = f_channel)), (decide_False (P := f_channel ∈ fs)) by done.
  destruct (decide (f_severity ∈ fs)); [|done]. by rewrite insert_insert_ne.
Qed.

Lemma own_handler fs c m : own_attributes (f_handler :: fs) c m = own_attributes fs c m.
Proof. unfold own_attributes. by rewrite !decide_cons, !(decide_False (P := _ = f_handler)). Qed.

Lemma own_absent fs c key : (f_severity ∈ fs → key ≠ severity_name) → (f_channel ∈ fs → key ≠ channel_name) →
  own_attributes fs c ∅ !! key = None.
Proof.
  intros H1 H2. unfold own_attributes.
  destruct (decide (f_severity ∈ fs)), (decide (f_channel ∈ fs)); rewrite ?lookup_insert_ne by naive_solver; done.
Qed.

(** The step of a severity logger, with an attribute that is stored by [store]. *)
Lemma made_severity_step fs m z ch h e l e' s : made fs m z ch h e l e' → f_severity ∉ fs →
  set_wf s → abs s = <[severity_name := attr_severity]> (abs (m_Attributes l)) →
  made (f_severity :: fs) m z ch h e (with_attributes s (with_severity z l)) e'.
Proof.
  intros [H1 H2 H3 H4 H5 H6 H7] Hf Hs Ha.
  split; cbn; try done; [by rewrite Ha, H2, own_severity|..]; intros [E|Hin]%elem_of_cons; try done; auto.
Qed.

Lemma made_channel_step fs m z ch h e l e' s :
  made fs m z ch h e l e' → f_channel ∉ fs →
  let c := fresh (dom (cells e')) in
  set_wf s → abs s = <[channel_name := attr_channel c]> (abs (m_Attributes l)) →
  made (f_channel :: fs) m z ch h e (with_attributes s (with_channel c l)) (set_cell c ch e').
Proof.
  intros [H1 H2 H3 H4 H5 H6 H7] Hf c Hs Ha.
  assert (cells e' !! c = None) as Hc by (apply not_elem_of_dom, is_fresh).
  split; cbn; try done.
  - rewrite Ha, H2. by rewrite (own_channel fs c (m_ChannelAttr l)).
  - intros [E|Hin]%elem_of_cons; [done|auto].
  - intros _. split; [|apply lookup_insert_eq]. by eapply lookup_weaken_None.
  - intros [E|Hin]%elem_of_cons; [done|auto].
  - apply insert_subseteq_r; [by eapply lookup_weaken_None|done].
Qed.

Lemma made_handler_step fs m z ch h e l e' :
  made fs m z ch h e l e' → made (f_handler :: fs) m z ch h e (with_handler h l) e'.
Proof.
  intros [H1 H2 H3 H4 H5 H6 H7]. split; cbn; try done; [by rewrite H2, own_handler|..];
    intros [E|Hin]%elem_of_cons; try done; auto.
Qed.

Lemma new_cell_run ch e : new_cell ch e = (Ok (fresh (dom (cells e))), set_cell (fresh (dom (cells e))) ch e).
Proof. done. Qed.

Lemma construct_made fs args e : NoDup fs → ∃ l e',
  construct fs args e = (Ok l, e') ∧
  made fs ∅ (default 0%Z (arg_severity args)) (default default_channel (arg_channel args)) None e l e'.
Proof.
  induction 1 as [|f fs Hf Hnd IH].
  { eexists _, e. split; [done|]. split; cbn; try done; first [apply empty_set_wf|by intros ?%not_elem_of_nil]. }
  destruct IH as (l & e' & E & Hm). destruct f; cbn [construct]; rewrite sm_bind_run, E;
    unfold new_severity_logger, new_channel_logger, new_handler_logger.
  - unfold add_attribute.
    destruct (insert_absent (fresh_addr (m_Attributes l)) severity_name attr_severity (m_Attributes l)) as (a & s & E2 & Hs & Ha & _);
      [apply Hm|done|apply fresh_addr_ok|rewrite (made_attributes _ _ _ _ _ _ _ _ Hm); by apply own_absent|].
    cbn [m_Attributes with_severity]. rewrite E2. eexists _, e'. split; [done|]. by apply made_severity_step.
  - rewrite sm_bind_run, new_cell_run. unfold add_attribute.
    destruct (insert_absent (fresh_addr (m_Attributes l)) channel_name (attr_channel (fresh (dom (cells e')))) (m_Attributes l))
      as (a & s & E2 & Hs & Ha & _);
      [apply Hm|done|apply fresh_addr_ok|rewrite (made_attributes _ _ _ _ _ _ _ _ Hm); by apply own_absent|].
    cbn [m_Attributes with_channel]. rewrite E2. do 2 eexists. split; [done|]. by apply made_channel_step.
  - do 2 eexists. split; [done|]. by apply made_handler_step.
Qed.

Lemma copy_made fs that ch e : NoDup fs → set_wf (m_Attributes that) →
  (f_channel ∈ fs → cells e !! m_ChannelAttr that = Some ch) → ∃ l e',
  copy_construct fs that e = (Ok l, e') ∧
  made fs (abs (m_Attributes that)) (m_DefaultSeverity that) ch (m_LoggerHandler that) e l e'.
Proof.
  intros Hnd Hs. induction Hnd as [|f fs Hf Hnd IH]; intros Hc.
  { destruct (copy_set_spec (m_Attributes that) Hs) as (s & E & Hs' & Ha). eexists _, e.
    split; [cbn; unfold copy_basic_logger; rewrite sm_bind_run; by rewrite E|]. split; cbn; try done; by intros ?%not_elem_of_nil. }
  destruct IH as (l & e' & E & Hm); [set_solver|]. destruct f; cbn [copy_construct]; rewrite sm_bind_run, E;
    unfold copy_severity_logger, copy_channel_logger, copy_handler_logger.
  - unfold assign_attribute.
    destruct (assign_attr_spec (fresh_addr (m_Attributes l)) severity_name attr_severity (m_Attributes l)) as (s & E2 & Hs' & Ha);
      [apply Hm|done|apply fresh_addr_ok|].
    cbn [m_Attributes with_severity]. rewrite E2. eexists _, e'. split; [done|]. by apply made_severity_step.
  - rewrite sm_bind_run. unfold get_cell. sm_step.
    assert (cells e' !! m_ChannelAttr that = Some ch) as -> .
    { eapply lookup_weaken; [apply Hc; by left|apply Hm]. }
    cbn [of_ptr].
    rewrite sm_bind_run, new_cell_run. unfold assign_attribute.
    destruct (assign_attr_spec (fresh_addr (m_Attributes l)) channel_name (attr_channel (fresh (dom (cells e')))) (m_Attributes l))
      as (s & E2 & Hs' & Ha); [apply Hm|done|apply fresh_addr_ok|].
    cbn [m_Attributes with_channel]. rewrite E2. do 2 eexists. split; [done|]. by apply made_channel_step.
  - do 2 eexists. split; [done|]. by apply made_handler_step.
Qed.

Lemma made_ok fs m z ch h e l e' : made fs m z ch h e l e' → logger_ok fs l e'.
Proof.
  intros [H1 H2 H3 H4 H5 H6 H7]. split; [done|..]; rewrite H2; unfold own_attributes.
  - intros Hin. rewrite decide_True by done. apply lookup_insert_eq.
  - intros Hin. destruct (H4 Hin) as [_ ->]. split; [|done]. rewrite (decide_True (P := f_channel ∈ fs)) by done.
    destruct (decide _); rewrite ?lookup_insert_ne by done; apply lookup_insert_eq.
Qed.

(** The members that the features of the chain have are exchanged. *)
Lemma swap_made fs m z ch h e l e' this : NoDup fs → made fs m z ch h e l e' →
  made fs m z ch h e (swap_unlocked fs (this, l)).1 e'.
Proof.
  intros Hnd [H1 H2 H3 H4 H5 H6 H7].
  assert (∀ p, let q := swap_unlocked fs p in
    m_Attributes q.1 = m_Attributes p.2 ∧
    m_DefaultSeverity q.1 = (if decide (f_severity ∈ fs) then m_DefaultSeverity p.2 else m_DefaultSeverity p.1) ∧
    m_DefaultSeverity q.2 = (if decide (f_severity ∈ fs) then m_DefaultSeverity p.1 else m_DefaultSeverity p.2) ∧
    m_ChannelAttr q.1 = (if decide (f_channel ∈ fs) then m_ChannelAttr p.2 else m_ChannelAttr p.1) ∧
    m_ChannelAttr q.2 = (if decide (f_channel ∈ fs) then m_ChannelAttr p.1 else m_ChannelAttr p.2) ∧
    m_LoggerHandler q.1 = (if decide (f_handler ∈ fs) then m_LoggerHandler p.2 else m_LoggerHandler p.1) ∧
    m_LoggerHandler q.2 = (if decide (f_handler ∈ fs) then m_LoggerHandler p.1 else m_LoggerHandler p.2)) as Hsw.
  { clear -Hnd. induction Hnd as [|f fs Hf Hnd IH]; intros [a b]; [done|]. specialize (IH (a, b)). cbn in IH |- *.
    unfold swap_severity, swap_channel, swap_handler. destruct (swap_unlocked fs (a, b)) as [a' b']. destruct IH as (I1 & I2 & I3 & I4 & I5 & I6 & I7). cbn in *.
    rewrite !decide_cons. destruct f; cbn; split_and!; try done.
    all: try (rewrite decide_True by done); rewrite ?I2, ?I3, ?I4, ?I5, ?I6, ?I7; by rewrite decide_False by done. }
  destruct (Hsw (this, l)) as (I1 & I2 & I3 & I4 & I5 & I6 & I7). cbn in I1, I2, I4, I6. split; cbn; try done.
  - by rewrite I1.
  - rewrite I1, I4, H2. unfold own_attributes. by destruct (decide (f_channel ∈ fs)).
  - intros Hin. rewrite I2, decide_True by done. auto.
  - intros Hin. rewrite I4, decide_True by done. auto.
  - intros Hin. rewrite I6, decide_True by done. auto.
Qed.

(** What a copy and its original have in common, and what not: the attributes of
    the features are the copy's own, whether the original still had them or not. *)
Definition copy_of (fs : list feature) (that : logger) (ch : Ch) (e : env) (l : logger) (e' : env) : Prop :=
  made fs (abs (m_Attributes that)) (m_DefaultSeverity that) ch (m_LoggerHandler that) e l e' ∧
  (∀ key, (f_severity ∈ fs → key ≠ severity_name) → (f_channel ∈ fs → key ≠ channel_name) →
     abs (m_Attributes l) !! key = abs (m_Attributes that) !! key) ∧
  logger_ok fs l e' ∧ (logger_ok fs that e → logger_ok fs that e' ∧
    ∀ key, (f_channel ∈ fs → key ≠ channel_name) → abs (m_Attributes l) !! key = abs (m_Attributes that) !! key) ∧
  (f_channel ∈ fs → ∀ ch', (get_channel that (set_channel ch' l e').2).1 = Ok ch ∧
     (get_channel l (set_channel ch' that e').2).1 = Ok ch).

Lemma made_copy fs that ch e l e' :
  (f_channel ∈ fs → cells e !! m_ChannelAttr that = Some ch) →
  made fs (abs (m_Attributes that)) (m_DefaultSeverity that) ch (m_LoggerHandler that) e l e' →
  copy_of fs that ch e l e'.
Proof.
  intros Hch Hm.
  assert (∀ key, (f_severity ∈ fs → key ≠ severity_name) → (f_channel ∈ fs → key ≠ channel_name) →
    abs (m_Attributes l) !! key = abs (m_Attributes that) !! key) as Hother.
  { intros key H1 H2. rewrite (made_attributes _ _ _ _ _ _ _ _ Hm). unfold own_attributes.
    destruct (decide (f_severity ∈ fs)), (decide (f_channel ∈ fs)); rewrite ?lookup_insert_ne by naive_solver; done. }
  split; [done|]. split; [done|]. split; [by eapply made_ok|]. split.
  - intros Hok. split.
    + destruct Hok as [H1 H2 H3]. split; [done|done|]. intros Hin. destruct (H3 Hin) as [Ha [x Hx]]. split; [done|].
      exists x. eapply lookup_weaken; [done|apply Hm].
    + intros key Hkey. destruct (decide (f_severity ∈ fs ∧ key = severity_name)) as [[Hs ->]|Hn].
      * by rewrite (ok_severity _ _ _ Hok Hs), (ok_severity _ _ _ (made_ok _ _ _ _ _ _ _ _ Hm) Hs).
      * apply Hother; naive_solver.
  - intros Hin ch'. destruct (made_channel _ _ _ _ _ _ _ _ Hm Hin) as [Hnew Hl]. specialize (Hch Hin).
    assert (cells e' !! m_ChannelAttr that = Some ch) as Ht by (eapply lookup_weaken; [done|apply Hm]).
    assert (m_ChannelAttr that ≠ m_ChannelAttr l) by congruence.
    unfold get_channel, get_cell. rewrite !sm_bind_run. cbn. by rewrite !lookup_insert_ne, Ht, Hl.
Qed.

(** C33: copies of loggers are independent. Copying a logger, and assigning it to
    another one, gives a logger with the default severity, the channel name and
    the handler of the original. Its attributes are those of the original, except
    that the severity and the channel attribute of its features are registered in
    the copy in any case, also when they were removed from the original or
    replaced there. Its channel is an object of its own: nothing that existed
    before is changed, and setting the channel of either logger does not change
    the other one's. The features of the logger are distinct, the names of the
    severity and the channel attribute are initialized and different, and the
    attribute set of the original is well formed. *)
Theorem copies_independent fs that this ch e : NoDup fs → set_wf (m_Attributes that) →
  (f_channel ∈ fs → cells e !! m_ChannelAttr that = Some ch) →
  (∃ l e', copy_construct fs that e = (Ok l, e') ∧ copy_of fs that ch e l e') ∧
  (∃ l e', assign fs this that e = (Ok l, e') ∧ copy_of fs that ch e l e').
Proof.
  intros Hnd Hs Hch. destruct (copy_made fs that ch e Hnd Hs Hch) as (l & e' & E & Hl). split.
  - exists l, e'. split; [done|]. by apply made_copy.
  - exists (swap_unlocked fs (this, l)).1, e'. split; [unfold assign; by rewrite sm_bind_run, E|].
    apply made_copy; [done|]. by apply swap_made.
Qed.
End attributes.
End loggers.

(** * Records of the core *)

Section core_records.
Context {Ch U UV Text W Rnd : Type} `{!Rng Rnd}.
Context (severity_name channel_name : N).

(** The values of a record: the severity level of the thread that reads it, a
    level, a channel name, a message, any other. *)
Inductive source_value : Type :=
| val_severity
| val_level (z : Z)
| val_channel (ch : option Ch)
| val_message (text : Text)
| val_user (v : UV).

(** What filters, sinks, handlers and attributes that the core calls see of the
    program: the severity level of the calling thread and the rest. The level is
    stored by statements only. *)
Abbreviation world := (Z * W)%type.
Abbreviation attrs_t := (attribute_set (source_attribute (U := U))).
Abbreviation rec_t := (private_data source_value attrs_t).
Abbreviation X := (core source_value attrs_t Rnd world * W)%type.
Abbreviation env_t := (env (Ch := Ch) (X := X)).

(** [get_value] and [detach_from_thread] of other attributes: code that acts on
    the world and may throw. *)
Context (user_value : U → sm world UV) (user_detach : UV → sm world UV).

(** [attribute::get_value]. *)
Definition source_get_value (e : env_t) (a : source_attribute (U := U)) : sm world source_value :=
  match a with
  | attr_severity => mret val_severity
  | attr_channel c => mret (val_channel (cells e !! c))
  | attr_user u => v ← user_value u; mret (val_user v)
  end.

(** [attribute_value::detach_from_thread]: a severity value keeps the level of
    the thread. *)
Definition detach_value (v : source_value) : sm world source_value :=
  match v with
  | val_severity => '(z, _) ← sm_get; mret (val_level z)
  | val_user v => v' ← user_detach v; mret (val_user v')
  | _ => mret v
  end.

Context (ops : sink_ops source_value attrs_t world).

(** Code of the core in the thread [tid]. *)
Definition on_core {Y} (tid : nat) (m : sm (core source_value attrs_t Rnd world * world) Y) : sm env_t Y := λ e,
  let '(r, (c, (_, w))) := m ((rest e).1, (level_of tid e, (rest e).2)) in
  (r, Env (cells e) (levels e) (c, w)).

(** [core::push_record_move] on the handle of a record. *)
Definition push_handle (tid : nat) : sm (option rec_t * env_t) unit := λ '(h, e),
  let '(r, (h', (c, (_, w)))) :=
    push_record (source_get_value e) detach_value ops empty_set tid (h, ((rest e).1, (level_of tid e, (rest e).2))) in
  (r, (h', Env (cells e) (levels e) (c, w))).

#[local] Instance core_api : CoreApi (Ch := Ch) (U := U) (X := X) rec_t := {|
  api_enabled x := m_enabled x.1;
  api_open tid attrs := λ e,
    on_core tid (open_record (source_get_value e) ops empty_set tid (FromSet attrs)) e;
  api_push := push_handle |}.

(** ** Attributes without side effects *)

Context (user_const : U → UV).

Definition value_of (e : env_t) (a : source_attribute (U := U)) : source_value :=
  match a with
  | attr_severity => val_severity
  | attr_channel c => val_channel (cells e !! c)
  | attr_user u => val_user (user_const u)
  end.

(** The values of a record that a logger opens, with the attributes of the
    logger before those of the thread and of the core. *)
Definition record_values (e : env_t) (tid : nat) (l : logger (U := U) (X := X)) : gmap N source_value :=
  let '(d, _) := get_thread_data empty_set tid (rest e).1 in
  value_of e <$> (abs (m_Attributes l) ∪ abs (m_thread_attributes d) ∪ abs (m_global_attributes (rest e).1)).

Implicit Types (l : logger (U := U) (X := X)) (e : env_t).

(** What the core makes of the record. *)
Lemma api_open_spec tid l e : (∀ u w, user_value u w = (Ok (user_const u), w)) →
  core_wf empty_set (rest e).1 → set_wf (m_Attributes l) →
  query_names (m_filter (rest e).1) →
  (∀ s, s ∈ offered (rest e).1 → query_names (will_consume ops s)) →
  let sp := open_spec ops (rest e).1 (record_values e tid l) (level_of tid e, (rest e).2) in
  ∃ r c', api_open tid (m_Attributes l) e = (r, Env (cells e) (levels e) (c', sp.2.2)) ∧
    (let* o := r in Ok (describe <$> o)) = sp.1.
Proof.
  intros Hu Hc Hs Hf Hq. destruct e as [cs ls [c w]]. cbn [rest fst snd] in *. set (e := Env cs ls (c, w)).
  assert (∀ a x, source_get_value e a x = (Ok (value_of e a), x)) as Hpure.
  { intros [|c'|u] x; [done|done|]. cbn. by rewrite sm_bind_run, Hu. }
  pose proof (open_record_spec (source_get_value e) (value_of e) Hpure ops empty_set tid
    (FromSet (m_Attributes l)) c (level_of tid e, w) Hc Hs Hf Hq) as H.
  unfold record_values. change (rest e) with (c, w). cbn [fst snd]. destruct (get_thread_data empty_set tid c) as [d c1].
  destruct H as (r & E & Hr). cbn [composed] in E, Hr. cbv zeta. exists r. eexists. cbn [core_api api_open]. unfold on_core.
  change (rest e) with (c, w). cbn [fst snd]. rewrite E. split; [|exact Hr]. by destruct (open_spec _ _ _ _) as [o [z' w']].
Qed.

(** A record that is returned has the values that the filters saw. *)
Lemma open_spec_record (c : core source_value attrs_t Rnd world) m (x0 : world) x : (open_spec ops c m x0).1 = Ok (Some x) →
  ∃ x1 x2, query_sem (m_filter c) m x0 = (Ok true, x1) ∧
    accepting ops (m_exception_handler c) (offered c) m x1 = (Ok x.1.1, x2) ∧ x.1.2 = m.
Proof.
  unfold open_spec. destruct (negb (m_enabled c)); [done|].
  destruct (query_sem (m_filter c) m x0) as [[[]|e|] x1]; [|done| |done].
  - destruct (accepting _ _ _ m x1) as [[[|s l]|e|] x2] eqn:E; try done. intros [= <-]. by exists x1, x2.
  - destruct (handle _ _ _) as [[]]; done.
Qed.

Lemma own_value e fs l tid key a : logger_ok severity_name channel_name fs l e →
  abs (m_Attributes l) !! key = Some a → record_values e tid l !! key = Some (value_of e a).
Proof.
  intros _ Ha. unfold record_values. destruct (get_thread_data _ _ _) as [d c1].
  rewrite lookup_fmap. by erewrite lookup_union_Some_l by (by apply lookup_union_Some_l).
Qed.

Lemma prepared_ok fs l e tid args : logger_ok severity_name channel_name fs l e →
  let e1 := prepared fs tid l args e in
  logger_ok severity_name channel_name fs l e1 ∧ rest e1 = rest e ∧
  (f_severity ∈ fs → level_of tid e1 = default (m_DefaultSeverity l) (arg_severity args)) ∧
  (f_channel ∈ fs → ∀ ch, cells e !! m_ChannelAttr l = Some ch →
     cells e1 !! m_ChannelAttr l = Some (default ch (arg_channel args))).
Proof.
  intros [H1 H2 H3] e1. subst e1. unfold prepared, level_of.
  destruct (decide (f_severity ∈ fs)) as [Hs|Hs], (arg_channel args) as [ch|], (decide (f_channel ∈ fs)) as [Hc|Hc];
    (split; [split; [done|done|]|]); cbn; rewrite ?lookup_insert_eq; try done.
  all: try (by intros ?; split; [apply H3|]).
  all: by intros ?; split; [apply H3|apply H3].
Qed.

(** C32: records of loggers. For a logger with any of the features, a record
    that it opens has been accepted by the filter of the core and by its sinks,
    run in the thread with its severity level, for exactly the attribute values
    that the record has: those of the logger, then of the thread, then of the
    core. The severity of the record is the level of the thread, which is the one
    given in the statement or the default one of the logger; the channel is the
    one given in the statement, which the logger then keeps, or the channel of
    the logger. The attributes of the features are still registered in the
    logger, and other attributes have values that do not depend on the moment
    they are acquired. *)
Theorem logger_record_values fs tid l args e p e' ch :
  (∀ u w, user_value u w = (Ok (user_const u), w)) →
  NoDup fs → logger_ok severity_name channel_name fs l e → core_wf empty_set (rest e).1 →
  query_names (m_filter (rest e).1) →
  (∀ s, s ∈ offered (rest e).1 → query_names (will_consume ops s)) →
  (f_channel ∈ fs → cells e !! m_ChannelAttr l = Some ch) →
  logger_open_record fs tid l args e = (Ok (Some p), e') →
  let m := record_values (prepared fs tid l args e) tid l in
  frozen (m_attribute_values p) = m ∧
  (∃ x1 x2, query_sem (m_filter (rest e).1) m (level_of tid e', (rest e).2) = (Ok true, x1) ∧
     accepting ops (m_exception_handler (rest e).1) (offered (rest e).1) m x1 = (Ok (m_accepting_sinks p), x2)) ∧
  (f_severity ∈ fs → m !! severity_name = Some val_severity ∧
     level_of tid e' = default (m_DefaultSeverity l) (arg_severity args)) ∧
  (f_channel ∈ fs → m !! channel_name = Some (val_channel (Some (default ch (arg_channel args)))) ∧
     cells e' !! m_ChannelAttr l = Some (default ch (arg_channel args))).
Proof.
  intros Hu Hnd Hok Hcore Hfil Hq Hch Hopen. set (e1 := prepared fs tid l args e).
  destruct (prepared_ok fs l e tid args Hok) as (Hok1 & Hrest & Hlev & Hcell). fold e1 in Hok1, Hrest, Hlev, Hcell.
  assert (api_open tid (m_Attributes l) e1 = (Ok (Some p), e')) as Hapi.
  { unfold logger_open_record in Hopen. rewrite sm_bind_run in Hopen. cbn in Hopen.
    destruct (m_enabled (rest e).1); [|done]. rewrite open_prepared in Hopen by done. fold e1 in Hopen.
    unfold guarded in Hopen. destruct (decide _) as [Hh|Hh]; [|done]. unfold sm_catch in Hopen.
    destruct (api_open _ _ e1) as [[o|ex|] e2]; [done| |done]. unfold open_failed in Hopen. rewrite sm_bind_run in Hopen.
    by destruct (handle_exception l ex e2) as [[]]. }
  destruct (api_open_spec tid l e1 Hu) as (r & c' & E & Hr); rewrite ?Hrest; [done|apply Hok|done|done|].
  rewrite Hapi in E. injection E as <- ->. rewrite Hrest in Hr. cbn in Hr. symmetry in Hr.
  destruct (open_spec_record _ _ _ _ Hr) as (x1 & x2 & Hf & Ha & Hm). cbn [describe fst snd] in Hm, Ha.
  split; [done|]. split; [by exists x1, x2|]. split.
  - intros Hin. split; [|by apply Hlev].
    by rewrite (own_value e1 fs l tid severity_name attr_severity Hok1 (ok_severity _ _ _ _ _ Hok1 Hin)).
  - intros Hin. specialize (Hcell Hin ch (Hch Hin)). split; [|done].
    rewrite (own_value e1 fs l tid channel_name _ Hok1 (proj1 (ok_channel _ _ _ _ _ Hok1 Hin))). cbn. by rewrite Hcell.
Qed.
End core_records.

(** * Examples *)

Module sample_loggers.
#[local] Instance sample_rng : Rng nat := {| rng_seed := λ n, n; rng_next := λ n, (Z.of_nat n, S n) |}.

Definition severity_name : N := 1%N.
Definition channel_name : N := 2%N.

Abbreviation value := (source_value (Ch := nat) (UV := nat) (Text := nat)).
Abbreviation attrs := (attribute_set (source_attribute (U := nat))).
Abbreviation world := (Z * nat)%type.
Abbreviation X := (core value attrs nat world * nat)%type.

(** A record of severity 5 or more. *)
Definition severe : query value world :=
  QFind severity_name (λ v, match v with
    | Some val_severity => QDo (λ '(z, w), (Ok (5 <=? z)%Z, (z, w))) QRet
    | Some (val_level z) => QRet (5 <=? z)%Z
    | _ => QRet false
    end).

(** Sinks that count records, in a core that has the sink 1 and asks for the
    severity and the channel of records. *)
Definition counting_sink : sink_ops value attrs world := {|
  will_consume _ := QRet true;
  is_cross_thread s := false;
  try_consume s p '(z, w) := (Ok true, (z, S w));
  consume s p '(z, w) := (Ok (), (z, S w));
  flush_sink s w := (Ok (), w);
  expired s w := false |}.

Definition sample_core : core value attrs nat world :=
  Core [1] 0 empty_set ∅ true
    (QFind channel_name (λ v, match v with Some (val_channel (Some 7)) => severe | _ => QRet false end)) None.

Lemma sample_filter_names : query_names (m_filter sample_core).
Proof.
  split; [discriminate|]. intros x. repeat case_match; try done. split; [discriminate|]. by intros [[]|].
Qed.

Definition sample_env : env (Ch := nat) (X := X) := Env ∅ ∅ (sample_core, 0).
Definition features : list feature := [f_severity; f_channel; f_handler].

Lemma features_NoDup : NoDup features.
Proof. apply (bool_decide_unpack _). by vm_compute. Qed.

(** A logger with the default severity 2 and channel 7. *)
Definition made_logger : outcome (logger (U := nat) (X := X)) * env (Ch := nat) (X := X) :=
  construct severity_name channel_name 0 features (Arguments_ (Some 2%Z) (Some 7)) sample_env.
Definition lg : logger (U := nat) (X := X) :=
  match made_logger.1 with Ok l => l | _ => Logger empty_set 0 0 None end.

Lemma lg_ok : logger_ok severity_name channel_name features lg made_logger.2 ∧
  cells made_logger.2 !! m_ChannelAttr lg = Some 7.
Proof.
  destruct (construct_made (Ch := nat) (U := nat) (X := X) severity_name channel_name 0 ltac:(done) ltac:(done)
    ltac:(done) features (Arguments_ (Some 2%Z) (Some 7)) sample_env features_NoDup) as (l & e' & E & Hm).
  unfold lg, made_logger. rewrite E. split; [by eapply made_ok|]. apply Hm. set_solver.
Qed.

Lemma counting_core_wf : core_wf (empty_set : attrs) sample_core.
Proof. split; cbn; [apply (bool_decide_unpack _); reflexivity|lia|apply empty_set_wf..|done]. Qed.

Definition sample_api : CoreApi (Ch := nat) (U := nat) (X := X) (private_data value attrs) :=
  core_api (λ u, mret u) (λ v, mret v) counting_sink.

(** The copy of the logger has channel 7, also after the channel of the logger
    is set to 8. *)
Lemma copies_independent_witness : ∃ l e',
  copy_construct severity_name channel_name features lg made_logger.2 = (Ok l, e') ∧
  m_DefaultSeverity l = 2%Z ∧ (get_channel l (set_channel 8 lg e').2).1 = Ok 7.
Proof.
  destruct (copies_independent (Ch := nat) (U := nat) (X := X) severity_name channel_name ltac:(done) ltac:(done)
    ltac:(done) features lg lg 7 made_logger.2 features_NoDup (ok_set _ _ _ _ _ (proj1 lg_ok)) (λ _, proj2 lg_ok))
    as [(l & e' & E & Hm & _ & _ & _ & Hc) _].
  exists l, e'. split; [exact E|]. split; [|apply Hc; set_solver].
  rewrite (made_severity _ _ _ _ _ _ _ _ _ _ Hm) by set_solver. by vm_compute.
Defined.

(** A record with severity 5 given in the statement, accepted for its severity
    and its channel. *)
Lemma logger_record_values_witness : ∃ p e',
  logger_open_record (CoreApi0 := sample_api) features 4 lg (Arguments_ (Some 5%Z) None) made_logger.2 = (Ok (Some p), e') ∧
  level_of 4 e' = 5%Z ∧
  frozen (m_attribute_values p) !! channel_name = Some (val_channel (Some 7)).
Proof.
  destruct (logger_open_record (CoreApi0 := sample_api) features 4 lg (Arguments_ (Some 5%Z) None) made_logger.2)
    as [[[p|]|ex|] e'] eqn:E; [|by vm_compute in E..].
  destruct (logger_record_values severity_name channel_name (λ u, mret u) (λ v, mret v) counting_sink (λ u, u) features 4 lg
    (Arguments_ (Some 5%Z) None) made_logger.2 p e' 7 ltac:(done) features_NoDup (proj1 lg_ok) counting_core_wf sample_filter_names)
    as (Hm & _ & Hs & Hc); [done|intros _; apply lg_ok|exact E|].
  exists p, e'. split; [done|]. split; [apply Hs; set_solver|]. rewrite Hm. apply Hc. set_solver.
Defined.
End sample_loggers.
