(* ===== verification/RecordStream.v ===== *)
(** Logging statements: the record stream and its pool
    (src/src/record_ostream.cpp) and the pump that pushes the record when the
    streaming expression is done (src/include/boost/log/sources/record_ostream.hpp).

    A statement opens a record, writes its message to a stream from the pool of
    the thread, and pushes the record. The expression may contain other
    statements, and may throw. *)

From Stdlib Require Import ZArith.
From stdpp Require Import base numbers list gmap.
From S2P Require Import Prelude BucketList AttributeSet AttributeValueSet Core StreamBuf Frontend Loggers.

Section statements.
Context {char : Type} `{!CharBoundary char} (string_max_size : nat) (space : char).
Context {Ch U X R : Type} `{!CoreApi (Ch := Ch) (U := U) (X := X) R}.

(** The message of a record: [init_stream] adds an empty one to a record or
    replaces the one that is there; the stream then writes to it. *)
Class MessageApi := {
  init_message : R → outcome R;
  with_message : list char → R → R }.
Context `{!MessageApi}.

Abbreviation env_t := (env (Ch := Ch) (X := X)).
Abbreviation logger_t := (logger (U := U) (X := X)).
Abbreviation stream_t := (@stream char).

(** * Record streams *)

(** [basic_record_ostream]: the stream, and whether [m_record] is set. The message
    of the record is the string that is attached to the stream. *)
Record record_stream := RecordStream { rs_stream : stream_t; rs_record : bool }.

(** [basic_formatting_ostream::init_stream]. *)
Definition reset_stream (s : stream_t) : stream_t :=
  Stream (sb s) (match storage (sb s) with Some _ => true | None => false end) 0 space false.

(** [detach_from_record]. *)
Definition detach_from_record (s : record_stream) : outcome record_stream :=
  if rs_record s then
    match stream_detach (rs_stream s) with
    | (Ok _, st) => Ok (RecordStream st false)
    | (Throw e, _) => Throw e
    | (Stuck, _) => Stuck
    end
  else Ok s.

(** [attach_record] with a record, and [init_stream]; the result has the record. *)
Definition attach_record (r : R) (s : record_stream) : outcome (R * record_stream) :=
  let* s := detach_from_record s in
  let* r' := init_message r in
  match stream_attach string_max_size [] (reset_stream (rs_stream s)) with
  | (Ok _, st) => Ok (r', RecordStream st true)
  | (Throw e, _) => Throw e
  | (Stuck, _) => Stuck
  end.

(** The state: the pools of the threads, from the top, and the rest. *)
Record state := State {
  pools : gmap nat (list record_stream);
  st_env : env_t }.

Definition on_env {Y} (m : sm env_t Y) : sm state Y := λ σ,
  let (r, e) := m (st_env σ) in (r, State (pools σ) e).

Definition pool_of (tid : nat) (σ : state) : list record_stream := default [] (pools σ !! tid).
Definition set_pool (tid : nat) (l : list record_stream) (σ : state) : state :=
  State (<[tid := l]> (pools σ)) (st_env σ).

(** [allocate_compound]. *)
Definition allocate_compound (tid : nat) (r : R) : sm state (R * record_stream) :=
  σ ← sm_get;
  match pool_of tid σ with
  | s :: l => sm_modify (set_pool tid l);; sm_lift (attach_record r s)
  | [] => sm_lift (attach_record r (RecordStream (new_stream space) false))
  end.

(** [release_compound]. *)
Definition release_compound (tid : nat) (s : record_stream) : sm state unit :=
  s' ← sm_lift (detach_from_record s);
  sm_modify (λ σ, set_pool tid (s' :: pool_of tid σ) σ).

(** * Statements *)

(** A statement with the logger, its features and the arguments, and what the
    expression does: write to the stream, run other statements, throw. *)
Inductive statement : Type :=
| Statement (fs : list feature) (l : logger_t) (args : arguments (Ch := Ch)) (b : body)
with body : Type :=
| b_end
| b_op (o : @stream_op char) (b : body)
| b_log (s : statement) (b : body)
| b_throw (e : exn).

(** [~record_pump]: the record is pushed unless the expression has thrown; the
    stream is released. [h] is the record variable of the statement. *)
Definition finish_pump (fs : list feature) (tid : nat) (l : logger_t) (s : record_stream) (r : R) (thrown : option exn)
    : sm state (option R) :=
  match thrown with
  | Some e => release_compound tid s;; sm_throw e
  | None =>
      match (stream_flush;; on_buf get_storage) (rs_stream s) with
      | (Ok text, st) =>
          sm_finally
            (on_env (λ e, let '(res, (h, e')) := logger_push_record fs tid l (Some (with_message text r), e) in
                          ((let* _ := res in Ok h), e')))
            (release_compound tid (RecordStream st (rs_record s)))
      | (Throw e, st) => release_compound tid (RecordStream st (rs_record s));; sm_throw e
      | (Stuck, _) => sm_lift Stuck
      end
  end.

(** The result of an operation of the stream. *)
Definition stream_step (o : @stream_op char) (s : record_stream) : outcome (option exn * record_stream) :=
  match run_op o (rs_stream s) with
  | (Ok _, st) => Ok (None, RecordStream st (rs_record s))
  | (Throw e, st) => Ok (Some e, RecordStream st (rs_record s))
  | (Stuck, _) => Stuck
  end.

(** Runs [m] and returns what it throws. *)
Definition sm_try {St} (m : sm St unit) : sm St (option exn) := λ σ,
  match m σ with
  | (Ok _, σ') => (Ok None, σ')
  | (Throw e, σ') => (Ok (Some e), σ')
  | (Stuck, σ') => (Stuck, σ')
  end.

(** The loop of the statement macro, [for (record rec = lg.open_record(...); !!rec;)
    make_record_pump(lg, rec).stream() << ...], with at most [k] iterations of
    the expression [run]. *)
Fixpoint pump_loop (fs : list feature) (tid : nat) (l : logger_t)
    (run : record_stream → sm state (option exn * record_stream)) (k : nat) (h : option R) : sm state unit :=
  match h with
  | None => mret ()
  | Some r =>
      match k with
      | 0 => sm_lift Stuck
      | S k' =>
          '(r', s) ← allocate_compound tid r;
          '(thrown, s') ← run s;
          h' ← finish_pump fs tid l s' r' thrown;
          pump_loop fs tid l run k' h'
      end
  end.

(** One iteration. *)
Definition pump_once (fs : list feature) (tid : nat) (l : logger_t)
    (run : record_stream → sm state (option exn * record_stream)) (r : R) : sm state (option R) :=
  '(r', s) ← allocate_compound tid r;
  '(thrown, s') ← run s;
  finish_pump fs tid l s' r' thrown.

Lemma pump_loop_step fs tid l run k r σ h σ' : pump_once fs tid l run r σ = (Ok h, σ') →
  pump_loop fs tid l run (S k) (Some r) σ = pump_loop fs tid l run k h σ'.
Proof.
  unfold pump_once. cbn [pump_loop]. rewrite !sm_bind_run.
  destruct (allocate_compound tid r σ) as [[[r' s]|ex|] σ1]; [|done..]. rewrite !sm_bind_run.
  destruct (run s σ1) as [[[thrown s']|ex|] σ2]; [|done..]. rewrite sm_bind_run. by intros ->.
Qed.

(** A statement, and its expression with what it throws. *)
Fixpoint run_statement (n : nat) (tid : nat) (s : statement) : sm state unit :=
  match s with
  | Statement fs l args b =>
      h ← on_env (logger_open_record fs tid l args);
      pump_loop fs tid l (run_body n tid b) n h
  end
with run_body (n : nat) (tid : nat) (b : body) (s : record_stream) : sm state (option exn * record_stream) :=
  match b with
  | b_end => mret (None, s)
  | b_throw e => mret (Some e, s)
  | b_op o b' =>
      '(thrown, s') ← sm_lift (stream_step o s);
      match thrown with
      | Some e => mret (Some e, s')
      | None => run_body n tid b' s'
      end
  | b_log s0 b' =>
      thrown ← sm_try (run_statement n tid s0);
      match thrown with
      | Some e => mret (Some e, s)
      | None => run_body n tid b' s
      end
  end.

(** * What statements do *)

(** Statements without streams: the expression has the text it writes, the
    record gets it as its message. The loop runs again as long as the push leaves
    the record in the handle. *)
Fixpoint spec_loop (fs : list feature) (tid : nat) (l : logger_t) (run : sm env_t (option exn * list char))
    (k : nat) (h : option R) : sm env_t unit :=
  match h with
  | None => mret ()
  | Some r =>
      match k with
      | 0 => sm_lift Stuck
      | S k' =>
          r' ← sm_lift (init_message r);
          '(thrown, text) ← run;
          match thrown with
          | Some e => sm_throw e
          | None => λ e,
              match logger_push_record fs tid l (Some (with_message text r'), e) with
              | (Ok _, (h', e')) => spec_loop fs tid l run k' h' e'
              | (Throw ex, (_, e')) => (Throw ex, e')
              | (Stuck, (_, e')) => (Stuck, e')
              end
          end
      end
  end.

Fixpoint spec_statement (n tid : nat) (s : statement) : sm env_t unit :=
  match s with
  | Statement fs l args b =>
      h ← logger_open_record fs tid l args;
      spec_loop fs tid l (spec_body n tid b) n h
  end
with spec_body (n tid : nat) (b : body) : sm env_t (option exn * list char) :=
  match b with
  | b_end => mret (None, [])
  | b_throw e => mret (Some e, [])
  | b_op o b' => '(thrown, text) ← spec_body n tid b'; mret (thrown, op_output o ++ text)
  | b_log s0 b' =>
      thrown ← sm_try (spec_statement n tid s0);
      match thrown with
      | Some e => mret (Some e, [])
      | None => spec_body n tid b'
      end
  end.

(** The text that the expression writes itself. *)
Fixpoint body_text (b : body) : list char :=
  match b with
  | b_end | b_throw _ => []
  | b_op o b' => op_output o ++ body_text b'
  | b_log _ b' => body_text b'
  end.

(** The features are different ones, and the texts fit in strings. *)
Fixpoint statement_ok (s : statement) : Prop :=
  match s with Statement fs l args b => NoDup fs ∧ length (body_text b) ≤ string_max_size ∧ body_ok b end
with body_ok (b : body) : Prop :=
  match b with
  | b_end | b_throw _ => True
  | b_op _ b' => body_ok b'
  | b_log s0 b' => statement_ok s0 ∧ body_ok b'
  end.

(** How deep statements are nested. *)
Fixpoint statement_depth (s : statement) : nat :=
  match s with Statement _ _ _ b => S (body_depth b) end
with body_depth (b : body) : nat :=
  match b with
  | b_end | b_throw _ => 0
  | b_op _ b' => body_depth b'
  | b_log s0 b' => Nat.max (statement_depth s0) (body_depth b')
  end.

(** A stream in a pool. *)
Definition idle_stream (s : record_stream) : Prop :=
  rs_record s = false ∧ storage (sb (rs_stream s)) = None ∧ put_area (sb (rs_stream s)) = [] ∧
  storage_overflow (sb (rs_stream s)) = false.

Definition pools_ok (pl : gmap nat (list record_stream)) : Prop := map_Forall (λ _ l, Forall idle_stream l) pl.

(** What code of the thread [tid] that has at most [d] streams at a time does to
    the pools: its own has all the streams it had, and no more than the larger of
    their number and [d]; the other ones are as they were. A stream is lost only
    when a message cannot be added to a record. *)
Definition pool_size (tid : nat) (pl : gmap nat (list record_stream)) : nat := length (default [] (pl !! tid)).

Record pools_kept (tid d : nat) (pl pl' : gmap nat (list record_stream)) : Prop := PoolsKept {
  kept_ok : pools_ok pl';
  kept_others : ∀ tid', tid' ≠ tid → pl' !! tid' = pl !! tid';
  kept_most : pool_size tid pl' ≤ Nat.max (pool_size tid pl) d;
  kept_least : (∀ r, ∃ r', init_message r = Ok r') → pool_size tid pl ≤ pool_size tid pl' }.

Lemma pools_kept_refl tid d pl : pools_ok pl → pools_kept tid d pl pl.
Proof. split; [done|done|lia|done]. Qed.

Lemma pools_kept_trans tid d1 d2 d pl1 pl2 pl3 :
  pools_kept tid d1 pl1 pl2 → pools_kept tid d2 pl2 pl3 → Nat.max d1 d2 ≤ d → pools_kept tid d pl1 pl3.
Proof.
  intros [O1 T1 M1 L1] [O2 T2 M2 L2] Hd. split; [done| |lia|intros Hm; specialize (L1 Hm); specialize (L2 Hm); lia].
  intros tid' Hne. by rewrite T2, T1.
Qed.

(** A stream that has been given the text [total]. *)
Definition writing (total : list char) (s : record_stream) : Prop :=
  rs_record s = true ∧ good (rs_stream s) ∧ holds string_max_size total (sb (rs_stream s)).

Lemma attach_record_run r r' s : init_message r = Ok r' → idle_stream s →
  ∃ s', attach_record r s = Ok (r', s') ∧ writing [] s'.
Proof.
  intros Hr (Hrec & Hst & Hpa & Hov). unfold attach_record, detach_from_record. rewrite Hrec. cbn. rewrite Hr. cbn.
  destruct (rs_stream s) as [[st mx ov pa] g w f al]. cbn in Hst, Hpa, Hov. subst st pa ov.
  unfold stream_attach, on_buf, attach, set_max_size, ensure_max_size. eexists. split.
  - cbn -[Nat.ltb]. by rewrite Nat.ltb_irrefl.
  - split; [done|]. split; [done|]. split; [done|]. split; [cbn; lia|]. exists []. split; [done|]. cbn. split; [done|lia].
Qed.

Lemma detach_run total s : writing total s → ∃ s', detach_from_record s = Ok s' ∧ idle_stream s'.
Proof.
  intros (Hrec & Hg & Hh). unfold detach_from_record. rewrite Hrec. unfold stream_detach.
  destruct (holds_full _ _ _ Hh) as (st & ov & pa & Hb). destruct (holds_sync _ _ _ Hh) as (st' & ov' & E & _).
  rewrite sm_bind_run. unfold on_buf, detach. rewrite sm_bind_run. cbn [sm_get].
  assert (storage (sb (rs_stream s)) = Some st) as -> by by rewrite Hb.
  rewrite sm_bind_run, E. eexists. split; [done|]. done.
Qed.

Lemma release_run tid total s pl e : writing total s → pools_ok pl →
  ∃ s', release_compound tid s (State pl e) = (Ok (), State (<[tid := s' :: default [] (pl !! tid)]> pl) e) ∧ idle_stream s'.
Proof.
  intros Hs Hpl. destruct (detach_run total s Hs) as (s' & E & Hi). unfold release_compound. sm_step. rewrite E.
  by exists s'.
Qed.

Lemma pool_idle tid pl : pools_ok pl → Forall idle_stream (default [] (pl !! tid)).
Proof. intros Hpl. destruct (pl !! tid) as [l|] eqn:El; [by apply (Hpl tid)|constructor]. Qed.

(** Taking a stream from the pool, if there is one. *)
Definition pool_popped (tid : nat) (pl : gmap nat (list record_stream)) : gmap nat (list record_stream) :=
  match default [] (pl !! tid) with
  | _ :: l => <[tid := l]> pl
  | [] => pl
  end.

Lemma pool_popped_ok tid pl : pools_ok pl →
  pools_ok (pool_popped tid pl) ∧ (∀ tid', tid' ≠ tid → pool_popped tid pl !! tid' = pl !! tid') ∧
  pool_size tid (pool_popped tid pl) = pred (pool_size tid pl).
Proof.
  intros Hpl. pose proof (pool_idle tid pl Hpl) as Hl. unfold pool_popped, pool_size.
  destruct (default [] (pl !! tid)) as [|s l] eqn:E; [by rewrite E|]. apply Forall_cons in Hl as [_ Hl].
  split; [by apply map_Forall_insert_2|]. split; [|by rewrite lookup_insert_eq].
  intros tid' Hne. by rewrite lookup_insert_ne.
Qed.

(** A stream is taken, other code keeps the pools, and a stream is put back. *)
Lemma pools_kept_around tid d s pl pl' : pools_ok pl → idle_stream s → pools_kept tid d (pool_popped tid pl) pl' →
  pools_kept tid (S d) pl (<[tid := s :: default [] (pl' !! tid)]> pl').
Proof.
  intros Hpl Hs [O T M L]. destruct (pool_popped_ok tid pl Hpl) as (_ & Hoth & Hsize). rewrite Hsize in M, L. split.
  - apply map_Forall_insert_2; [|done]. constructor; [done|]. by apply pool_idle.
  - intros tid' Hne. by rewrite lookup_insert_ne, T, Hoth.
  - unfold pool_size at 1. rewrite lookup_insert_eq. cbn. fold (pool_size tid pl'). lia.
  - intros Hm. specialize (L Hm). unfold pool_size at 2. rewrite lookup_insert_eq. cbn. fold (pool_size tid pl'). lia.
Qed.

Lemma allocate_run tid r r' pl e : init_message r = Ok r' → pools_ok pl →
  ∃ s, allocate_compound tid r (State pl e) = (Ok (r', s), State (pool_popped tid pl) e) ∧ writing [] s.
Proof.
  intros Hr Hpl. unfold allocate_compound. sm_step. unfold pool_of, pool_popped. cbn [pools].
  pose proof (pool_idle tid pl Hpl) as Hl.
  destruct (default [] (pl !! tid)) as [|s l].
  - destruct (attach_record_run r r' (RecordStream (new_stream space) false)) as (s' & E & Hw); [done|done|].
    exists s'. unfold sm_lift. by rewrite E.
  - apply Forall_cons in Hl as [Hs Hl]. destruct (attach_record_run r r' s Hr Hs) as (s' & E & Hw).
    sm_step. rewrite E. by exists s'.
Qed.

(** A record whose message cannot be added; the stream is lost. *)
Lemma allocate_fails tid r pl e : pools_ok pl →
  match init_message r with
  | Ok _ => True
  | Throw ex => allocate_compound tid r (State pl e) = (Throw ex, State (pool_popped tid pl) e)
  | Stuck => (allocate_compound tid r (State pl e)).1 = Stuck
  end.
Proof.
  intros Hpl. assert (∀ s, idle_stream s → attach_record r s = obind (init_message r) (λ r', attach_record r s)) as Ha.
  { intros s (Hrec & _). unfold attach_record, detach_from_record. rewrite Hrec. cbn. by destruct (init_message r). }
  pose proof (pool_idle tid pl Hpl) as Hl.
  destruct (init_message r) as [r'|ex|] eqn:Er; [done|..]; unfold allocate_compound, pool_popped; rewrite sm_bind_run; cbn [sm_get];
    unfold pool_of; cbn [pools].
  all: destruct (default [] (pl !! tid)) as [|s l]; [|apply Forall_cons in Hl as [Hs Hl]; sm_step]; unfold sm_lift; by rewrite Ha.
Qed.

(** An operation that stays within the size of a string. *)
Lemma stream_step_run o total s : writing total s → length (total ++ op_output o) ≤ string_max_size →
  ∃ s', stream_step o s = Ok (None, s') ∧ writing (total ++ op_output o) s'.
Proof.
  intros (Hrec & Hg & Hh) Hle. unfold stream_step.
  destruct (run_op_holds string_max_size total o (rs_stream s)) as (st & -> & [Hh' Hgo] & _); [by split; [|left]|].
  eexists. split; [done|]. split; [done|]. split; [|done]. cbn. destruct Hgo as [|Hov]; [done|].
  destruct Hh' as (_ & _ & st' & _ & Hcut). destruct (storage_overflow (sb st)); [|done].
  apply cut_length in Hcut. lia.
Qed.

(** The end of a statement, by what its expression has thrown. *)
Lemma finish_run fs tid l total s r thrown pl e : writing total s → length total ≤ string_max_size →
  pools_ok pl →
  let sp := match thrown with
            | Some ex => (Throw ex, e)
            | None => let '(res, (h, e')) := logger_push_record fs tid l (Some (with_message total r), e) in
                      ((let* _ := res in Ok h), e')
            end in
  sp.1 = Stuck ∧ (finish_pump fs tid l s r thrown (State pl e)).1 = Stuck ∨
  ∃ s', finish_pump fs tid l s r thrown (State pl e) =
      (sp.1, State (<[tid := s' :: default [] (pl !! tid)]> pl) sp.2) ∧ idle_stream s'.
Proof.
  intros Hs Hle Hpl sp. subst sp. unfold finish_pump. destruct thrown as [ex|].
  { right. destruct (release_run tid total s pl e Hs Hpl) as (s' & E & Hi). exists s'. by rewrite sm_bind_run, E. }
  destruct Hs as (Hrec & Hg & Hh). destruct (stream_flush_run string_max_size total (rs_stream s) Hg Hh) as (st & ov & E & Hh' & _).
  assert (st = total ∧ ov = false) as [-> ->].
  { pose proof Hh' as H'. apply holds_elim in H'. destruct ov; [apply cut_length in H'; lia|]. by destruct H' as [-> _]. }
  rewrite sm_bind_run, E. unfold on_buf. cbn [sb with_sb]. rewrite get_storage_run.
  set (s' := RecordStream _ _). assert (writing total s') as Hs' by done.
  unfold sm_finally, on_env. cbn [st_env pools].
  destruct (logger_push_record fs tid l (Some (with_message total r), e)) as [res [h e']].
  destruct (release_run tid total s' pl e' Hs' Hpl) as (s2 & E' & Hi). destruct res as [u|ex|]; cbn; [..|by left].
  all: right; exists s2; by rewrite sm_bind_run, E'.
Qed.

(** * The theorem *)

Scheme statement_mut := Induction for statement Sort Prop
  with body_mut := Induction for body Sort Prop.
Combined Scheme statement_body_ind from statement_mut, body_mut.

(** A run with streams is the run without them, and keeps the pools. *)
Definition refines (tid d : nat) (run : sm state unit) (spec : sm env_t unit) : Prop := ∀ pl e, pools_ok pl →
  match spec e with
  | (Stuck, _) => (run (State pl e)).1 = Stuck
  | (res, e') => ∃ pl', run (State pl e) = (res, State pl' e') ∧ pools_kept tid d pl pl'
  end.

Definition statement_refines (s : statement) : Prop := ∀ n tid, statement_ok s →
  refines tid (statement_depth s) (run_statement n tid s) (spec_statement n tid s).

(** The expression [run] of at most [len] characters. *)
Definition expression_refines (tid d len : nat) (run : record_stream → sm state (option exn * record_stream))
    (spec : sm env_t (option exn * list char)) : Prop :=
  ∀ total s pl e, pools_ok pl → writing total s → length total + len ≤ string_max_size →
  match spec e with
  | (Ok (thrown, text), e') => ∃ s' pl', run s (State pl e) = (Ok (thrown, s'), State pl' e') ∧
      pools_kept tid d pl pl' ∧ writing (total ++ text) s' ∧ length (total ++ text) ≤ string_max_size
  | (Throw _, _) => False
  | (Stuck, _) => (run s (State pl e)).1 = Stuck
  end.

Definition body_refines (b : body) : Prop := ∀ n tid, body_ok b →
  expression_refines tid (body_depth b) (length (body_text b)) (run_body n tid b) (spec_body n tid b).

Lemma loop_refines fs tid l d len run spec k h : expression_refines tid d len run spec → len ≤ string_max_size →
  refines tid (S d) (pump_loop fs tid l run k h) (spec_loop fs tid l spec k h).
Proof.
  intros Hrun Hlen. revert h. induction k as [|k IH]; intros [r|] pl e Hpl; cbn [pump_loop spec_loop].
  1: done.
  1,3: exists pl; split; [done|by apply pools_kept_refl].
  rewrite !sm_bind_run. unfold sm_lift at 1. pose proof (allocate_fails tid r pl e Hpl) as Hfail.
  destruct (pool_popped_ok tid pl Hpl) as (Hpop & Hoth & Hsize).
  destruct (init_message r) as [r'|ex|] eqn:Er.
  2: { rewrite Hfail. exists (pool_popped tid pl). split; [done|]. split; [done|done|lia|].
       intros Hm. destruct (Hm r) as [? Hr]. congruence. }
  2: { destruct (allocate_compound tid r (State pl e)) as [[]]; by cbn in *. }
  clear Hfail. destruct (allocate_run tid r r' pl e Er Hpl) as (s & -> & Hs).
  rewrite !sm_bind_run. specialize (Hrun [] s _ e Hpop Hs Hlen).
  destruct (spec e) as [[[thrown text]|ex|] e2]; [|done|].
  2: { destruct (run s _) as [[]]; by cbn in *. }
  destruct Hrun as (s' & pl2 & -> & Hpl2 & Hs' & Hlen'). cbn [app] in Hs', Hlen'. rewrite !sm_bind_run.
  destruct (finish_run fs tid l text s' r' thrown pl2 e2 Hs' Hlen' (kept_ok _ _ _ _ Hpl2)) as [[Hst Hf]|(s2 & -> & Hi)].
  { destruct thrown as [ex|]; [done|]. destruct (logger_push_record fs tid l _) as [[u|ex|] [h e3]]; [done|done|].
    destruct (finish_pump fs tid l s' r' None (State pl2 e2)) as [[]]; by cbn in *. }
  pose proof (pools_kept_around tid d s2 pl pl2 Hpl Hi Hpl2) as Hk.
  destruct thrown as [ex|]; [by eexists|].
  destruct (logger_push_record fs tid l _) as [[u|ex|] [h e3]]; cbn; [|by eexists|done].
  specialize (IH h _ e3 (kept_ok _ _ _ _ Hk)). destruct (spec_loop fs tid l spec k h e3) as [res e4]; destruct res; [..|done].
  all: destruct IH as (pl' & E & Hpl'); exists pl'; (split; [exact E|]); eapply pools_kept_trans; [exact Hk|exact Hpl'|lia].
Qed.

Lemma statements_refine : (∀ s, statement_refines s) ∧ (∀ b, body_refines b).
Proof.
  apply statement_body_ind.
  - intros fs l args b IH n tid (Hnd & Hlen & Hb) pl e Hpl. cbn [spec_statement run_statement statement_depth].
    rewrite !sm_bind_run. unfold on_env. cbn [st_env pools].
    destruct (logger_open_record fs tid l args e) as [[h|ex|] e1]; [| |done].
    + by apply (loop_refines fs tid l (body_depth b) (length (body_text b))); [apply IH|..].
    + exists pl. split; [done|]. by apply pools_kept_refl.
  - intros n tid _ total s pl e Hpl Hs Hlen. cbn in *. exists s, pl. rewrite app_nil_r.
    split_and!; [done|by apply pools_kept_refl|done|lia].
  - intros o b IH n tid Hb total s pl e Hpl Hs Hlen. cbn [spec_body run_body body_text body_ok body_depth] in *.
    rewrite length_app in Hlen.
    destruct (stream_step_run o total s Hs) as (s' & E & Hs'); [rewrite length_app; lia|].
    specialize (IH n tid Hb _ s' pl e Hpl Hs'). rewrite !sm_bind_run. unfold sm_lift. rewrite E.
    rewrite length_app in IH. specialize (IH ltac:(lia)).
    destruct (spec_body n tid b e) as [[[thrown text]|ex|] e']; [|done|done]. cbn. by rewrite (assoc_L (++)).
  - intros s0 IHs b IHb n tid [Hs0 Hb] total s pl e Hpl Hs Hlen. cbn [spec_body run_body body_text body_depth] in *.
    specialize (IHs n tid Hs0 pl e Hpl). rewrite !sm_bind_run. unfold sm_try.
    destruct (spec_statement n tid s0 e) as [[u|ex|] e1].
    + destruct IHs as (pl1 & -> & Hpl1). specialize (IHb n tid Hb total s pl1 e1 (kept_ok _ _ _ _ Hpl1) Hs Hlen).
      destruct (spec_body n tid b e1) as [[[thrown text]|ex|] e2]; [|done|done].
      destruct IHb as (s' & pl' & -> & Hpl' & Hw). exists s', pl'. split; [done|]. split; [|done].
      by eapply pools_kept_trans.
    + destruct IHs as (pl' & -> & Hpl'). exists s, pl'. rewrite app_nil_r.
      split_and!; [done| |done|lia]. eapply pools_kept_trans; [exact Hpl'|by apply (pools_kept_refl _ 0), Hpl'|lia].
    + destruct (run_statement n tid s0 (State pl e)) as [[]]; by cbn in *.
  - intros ex n tid _ total s pl e Hpl Hs Hlen. cbn in *. exists s, pl. rewrite app_nil_r.
    split_and!; [done|by apply pools_kept_refl|done|lia].
Qed.

(** ** One iteration *)

(** The push takes the record from the handle, whatever happens then. *)
Definition push_takes : Prop := ∀ tid r e, (api_push tid (Some r, e)).2.1 = None.

Lemma logger_push_takes fs tid l r e : push_takes → NoDup fs → (logger_push_record fs tid l (Some r, e)).2.1 = None.
Proof.
  intros takes Hnd. unfold logger_push_record. rewrite push_guarded by done. unfold guarded, sm_catch.
  pose proof (takes tid r e) as Ht. destruct (decide _); [|done].
  destruct (api_push tid (Some r, e)) as [[u|ex|] [h e']]; [done| |done]. cbn in Ht. subst h.
  unfold push_failed, beside_handle. by destruct (handle_exception l ex e').
Qed.

Lemma spec_loop_once fs tid l run1 run2 k h e : push_takes → NoDup fs → (∀ e, run1 e = run2 e) →
  spec_loop fs tid l run1 (S k) h e = spec_loop fs tid l run2 1 h e.
Proof.
  intros takes Hnd Hrun. destruct h as [r|]; [|done]. cbn [spec_loop]. rewrite !sm_bind_run. unfold sm_lift.
  destruct (init_message r) as [r'|ex|]; [|done..]. rewrite !sm_bind_run, Hrun.
  destruct (run2 e) as [[[[ex|] text]|ex|] e1]; [done| |done..].
  pose proof (logger_push_takes fs tid l (with_message text r') e1 takes Hnd) as Ht.
  destruct (logger_push_record fs tid l _) as [[u|ex|] [h e2]]; [|done..]. cbn in Ht. subst h. by destruct k.
Qed.

Lemma spec_once k tid : push_takes →
  (∀ s, statement_ok s → ∀ e, spec_statement (S k) tid s e = spec_statement 1 tid s e) ∧
  (∀ b, body_ok b → ∀ e, spec_body (S k) tid b e = spec_body 1 tid b e).
Proof.
  intros takes. apply statement_body_ind.
  - intros fs l args b IH (Hnd & _ & Hb) e. cbn [spec_statement]. rewrite !sm_bind_run.
    destruct (logger_open_record fs tid l args e) as [[h|ex|] e1]; [|done..]. by apply spec_loop_once; [..|apply IH].
  - done.
  - intros o b IH Hb e. cbn [spec_body]. by rewrite !sm_bind_run, IH.
  - intros s0 IHs b IHb [Hs Hb] e. cbn [spec_body]. rewrite !sm_bind_run. unfold sm_try. rewrite IHs by done.
    destruct (spec_statement 1 tid s0 e) as [[u|ex|] e1]; [|done..]. by apply IHb.
  - done.
Qed.

(** C34: logging statements, with at most [n] iterations of each loop. Whatever a
    statement and the statements in its expression write, and wherever they
    throw, the streams of the pools do not mix: every record that is pushed has as
    its message exactly the text that the expression of its own statement wrote; a
    statement whose expression throws pushes nothing and passes the exception on.
    The streams go back to the pool of the thread, ready for other records: it has
    at least the streams it had (a stream is lost only when a message cannot be
    added to a record) and at most as many as statements are nested, if these are
    more; the pools of other threads are not touched. This holds when the
    loops end within [n] iterations and the code that statements call has no
    undefined behaviour. One iteration of every loop is enough, and more change
    nothing, when the core takes every record from its handle, which it does unless
    a value of the record cannot be detached from the thread. The texts fit in
    strings, and the features of loggers are distinct. *)
Theorem statement_messages n tid s pl e : statement_ok s → pools_ok pl →
  ((spec_statement n tid s e).1 ≠ Stuck →
   ∃ pl', run_statement n tid s (State pl e) =
      ((spec_statement n tid s e).1, State pl' (spec_statement n tid s e).2) ∧
    pools_kept tid (statement_depth s) pl pl') ∧
  (push_takes → 0 < n → spec_statement n tid s e = spec_statement 1 tid s e).
Proof.
  intros Hs Hpl. split.
  - intros Hns. pose proof (proj1 statements_refine s n tid Hs pl e Hpl) as Href.
    destruct (spec_statement n tid s e) as [[] e']; by cbn in *.
  - intros takes Hn. destruct n as [|n]; [lia|by apply spec_once].
Qed.
End statements.

(** * Code that does not throw *)

Lemma lookup_node_no_throw {V} (l : list (node V)) tbl key e : lookup_node l tbl key ≠ Throw e.
Proof.
  assert (∀ fuel b p, find_in_bucket_loop fuel l key b p ≠ Throw e) as H.
  { induction fuel as [|fuel IH]; intros b p; [done|]. simpl. case_decide; [done|]. destruct p as [a|]; [|done].
    simpl. destruct (deref l a); [|done]. simpl. by case_match. }
  unfold lookup_node. destruct (tbl !! _) as [b|]; [|done]. simpl. destruct (b_first b) as [a0|]; [|done].
  unfold find_in_bucket. pose proof (H (S (length l)) b (b_first b)) as Hf. destruct (find_in_bucket_loop _ _ _ _ _) as [p|e'|]; [|by intros [= ->]|done].
  destruct p as [a|]; [|done]. simpl. destruct (deref l a); [|done]. simpl. by case_decide.
Qed.

Lemma link_node_no_throw {V} (l : list (node V)) tbl p n e : link_node l tbl p n ≠ Throw e.
Proof.
  unfold link_node. destruct (tbl !! _) as [b|]; [|done]. simpl. case_decide; [done|].
  destruct p as [a|]; [|done]. simpl. destruct (deref l a); [|done]. simpl. by repeat case_match.
Qed.

(** Freezing throws only what attributes throw. *)
Lemma freeze_no_throw {A V W S} `{!AttrStore A S} (get : A → W → outcome V * W) (v : attribute_value_set V S) w e :
  (∀ a w e, (get a w).1 ≠ Throw e) → (freeze get (v, w)).1 ≠ Throw e.
Proof.
  intros Hg. assert (∀ l (v : attribute_value_set V S) w, (freeze_nodes_from get l (v, w)).1 ≠ Throw e) as Hl.
  { induction l as [|[key a] l IH]; intros v1 w1; [done|]. cbn [freeze_nodes_from]. unfold sm_get, sm_lift.
    rewrite !sm_bind_run. unfold name_id. case_decide; [done|]. rewrite !sm_bind_run.
    pose proof (lookup_node_no_throw (v_Nodes v1) (v_Buckets v1) key) as Hn.
    destruct (lookup_node _ _ key) as [[n|p]|e'|]; [apply IH| |by destruct (Hn e')|done].
    rewrite sm_bind_run. unfold run_get_value. pose proof (Hg a w1) as Hga.
    destruct (get a w1) as [[x|e'|] w2]; [|by destruct (Hga e')|done]. rewrite sm_bind_run.
    unfold insert_node, sm_get, sm_lift, sm_put. rewrite !sm_bind_run.
    destruct (match v_Storage v1 with [] => _ | _ :: _ => _ end) as [[q dyn] st]. rewrite !sm_bind_run. pose proof (link_node_no_throw (v_Nodes v1) (v_Buckets v1) p) as Hk.
    destruct (link_node _ _ _ _) as [[l' tbl']|e'|] eqn:Ek; [|by destruct (Hk _ _ Ek)|done]. apply IH. }
  assert (∀ s drop (v : attribute_value_set V S) w, (freeze_set get s drop (v, w)).1 ≠ Throw e) as Hset.
  { intros [s|] drop v1 w1; [|done]. unfold freeze_set. rewrite sm_bind_run.
    pose proof (Hl (store_elements s) v1 w1) as H. by destruct (freeze_nodes_from get _ (v1, w1)) as [[]  []]. }
  unfold freeze, sm_get. rewrite !sm_bind_run.
  pose proof (Hset (m_pSourceAttributes v) drop_source v w) as H1.
  destruct (freeze_set get _ _ (v, w)) as [[]  [v1 w1]]; [|done|done]. rewrite sm_bind_run.
  pose proof (Hset (m_pThreadAttributes v) drop_thread v1 w1) as H2.
  destruct (freeze_set get _ _ (v1, w1)) as [[]  [v2 w2]]; [|done|done]. apply Hset.
Qed.

Lemma detach_nodes_no_throw {V X : Type} (detach : V → sm X V) (l : list (vnode V)) x e :
  (∀ v x e, (detach v x).1 ≠ Throw e) → (detach_nodes detach l x).1 ≠ Throw e.
Proof.
  intros Hd. revert x. induction l as [|n l IH]; intros x; [done|]. cbn.
  pose proof (Hd (n_data n).1 x) as Hn. destruct (detach (n_data n).1 x) as [[v|e'|] x1]; [|by destruct (Hn e')|done].
  specialize (IH x1). by destruct (detach_nodes detach l x1) as [r [l' x2]].
Qed.

(** * Messages of the records of the core *)

Section core_messages.
Context {Ch U UV char W Rnd : Type} `{!Rng Rnd}.
Context (message_name : N).

Abbreviation value := (source_value (Ch := Ch) (UV := UV) (Text := list char)).
Abbreviation rec_t := (private_data value (attribute_set (source_attribute (U := U)))).

Definition with_nodes (l : list (vnode value)) (p : rec_t) : rec_t :=
  let v := m_attribute_values p in with_values (set_nodes v l (v_Buckets v) (v_Storage v)) p.

Definition set_value_at (a : addr) (x : value) (p : rec_t) : rec_t :=
  with_nodes ((λ n, if decide (n_addr n = a) then Node (n_addr n) (n_key n) (x, (n_data n).2) else n) <$>
    v_Nodes (m_attribute_values p)) p.

(** The part of [init_stream] that adds the message. *)
Definition add_message (p : rec_t) : outcome rec_t :=
  match insert_value message_name (val_message []) (m_attribute_values p, ()) with
  | (Ok (a, inserted), (v, _)) =>
      Ok (if inserted : bool then with_values v p else set_value_at a (val_message []) (with_values v p))
  | (Throw e, _) => Throw e
  | (Stuck, _) => Stuck
  end.

(** The message after the stream has written [text] to it. *)
Definition store_message (text : list char) (p : rec_t) : rec_t :=
  with_nodes ((λ n, if decide (n_key n = message_name) then Node (n_addr n) (n_key n) (val_message text, (n_data n).2) else n)
    <$> v_Nodes (m_attribute_values p)) p.

#[local] Instance core_messages : MessageApi (char := char) (R := rec_t) :=
  {| init_message := add_message; with_message := store_message |}.

(** When neither acquiring nor detaching values throws, the core takes every
    record from its handle. *)
Lemma push_handle_takes (user_value : U → sm (Z * W) UV) (user_detach : UV → sm (Z * W) UV)
    (ops : sink_ops value (attribute_set (source_attribute (U := U))) (Z * W)) tid p
    (e : env (Ch := Ch) (X := core value (attribute_set (source_attribute (U := U))) Rnd (Z * W) * W)) :
  (∀ u x e, (user_value u x).1 ≠ Throw e) → (∀ v x e, (user_detach v x).1 ≠ Throw e) →
  (push_handle user_value user_detach ops tid (Some p, e)).2.1 = None.
Proof.
  intros Hu Hd. unfold push_handle, push_record.
  assert (∀ x, match lock_record (source_get_value user_value e) (detach_value user_detach) (Some p, x) with
    | (Throw _, _) => False | (_, (h, _)) => h = None end) as Hlock.
  { intros x. unfold lock_record. destruct (m_detach_from_thread_needed p); [|done].
    pose proof (freeze_no_throw (source_get_value user_value e) (m_attribute_values p) x) as Hf.
    destruct (freeze _ _) as [[u|ex|] [v x1]]; [|apply (Hf ex); [|done]|done].
    - pose proof (detach_nodes_no_throw (detach_value user_detach) (v_Nodes v) x1) as Hn.
      destruct (detach_nodes _ _ x1) as [[u'|ex|] [nodes x2]]; [done|apply (Hn ex); [|done]|done].
      intros [| | | |y] x' ex'; try done; [by destruct x'|]. cbn. rewrite sm_bind_run. specialize (Hd y x').
      destruct (user_detach y x') as [[v'|e'|] ?]; [done|by destruct (Hd e')|done].
    - intros [| |u] x' ex'; try done. cbn. rewrite sm_bind_run. specialize (Hu u x').
      destruct (user_value u x') as [[v'|e'|] ?]; [done|by destruct (Hu e')|done]. }
  specialize (Hlock (level_of tid e, (rest e).2)).
  destruct (lock_record _ _ _) as [[q|ex|] [h x]]; [|done|by destruct x]. subst h.
  destruct (m_accepting_sinks q); [by destruct x|]. destruct (push_loop _ _ _ _ _ _) as [[u|ex|] [b [c [z w]]]]; [done| |done].
  by destruct (handle _ _ _) as [? [? ?]].
Qed.
End core_messages.

(** * Examples *)

Module sample_statements.
Import CodeConvert.utf8 StreamBuf.sample_stream.

#[local] Instance sample_rng : Rng nat := {| rng_seed := λ n, n; rng_next := λ n, (Z.of_nat n, S n) |}.

Definition severity_name : N := 1%N.
Definition channel_name : N := 2%N.
Definition message_name : N := 3%N.

Abbreviation value := (source_value (Ch := nat) (UV := nat) (Text := list octet)).
Abbreviation attrs := (attribute_set (source_attribute (U := nat))).

(** What the sink has written: the severity and the message of each record. *)
Definition output : Type := list (option Z * list octet).

(** The sink extracts the severity in a thread of level [z]. *)
Definition severity_in (z : Z) (p : private_data value attrs) : option Z :=
  n ← list_find (λ n, n_key n = severity_name) (v_Nodes (m_attribute_values p));
  match (n_data n.2).1 with
  | val_severity => Some z
  | val_level z' => Some z'
  | _ => None
  end.

Definition message_in (p : private_data value attrs) : list octet :=
  match snd <$> list_find (λ n, n_key n = message_name) (v_Nodes (m_attribute_values p)) with
  | Some n => match (n_data n).1 with val_message t => t | _ => [] end
  | None => []
  end.

Abbreviation world := (Z * output)%type.

Definition write_sink : sink_ops value attrs world := {|
  will_consume _ := QRet true;
  is_cross_thread s := bool_decide (s = 2);
  try_consume s p '(z, w) := (Ok true, (z, w ++ [(severity_in z p, message_in p)]));
  consume s p '(z, w) := (Ok (), (z, w ++ [(severity_in z p, message_in p)]));
  flush_sink s w := (Ok (), w);
  expired s w := false |}.

Abbreviation X := (core value attrs nat world * output)%type.

Definition swallow (e : exn) : sm world unit := mret ().

(** The core has the sink [s], and swallows exceptions. *)
Definition sample_core (s : sink_id) : core value attrs nat world :=
  Core [s] 0 empty_set ∅ true (QRet true) (Some swallow).

Definition sample_env (s : sink_id) : env (Ch := nat) (X := X) := Env ∅ ∅ (sample_core s, []).

Definition features : list feature := [f_severity; f_channel; f_handler].

#[local] Instance sample_api : CoreApi (Ch := nat) (U := nat) (X := X) (private_data value attrs) :=
  core_api (λ u, mret u) (λ v, mret v) write_sink.
#[local] Instance sample_messages : MessageApi (char := octet) (R := private_data value attrs) := core_messages message_name.

(** A logger with the default severity 2 and channel 9, and the state after it
    was made. *)
Definition made_logger (s : sink_id) : outcome (logger (U := nat) (X := X)) * env (Ch := nat) (X := X) :=
  construct severity_name channel_name 0 features (Arguments_ (Some 2%Z) (Some 9)) (sample_env s).

Definition no_logger : logger (U := nat) (X := X) := Logger empty_set 0 0 None.
Definition lg (s : sink_id) : logger (U := nat) (X := X) :=
  match (made_logger s).1 with Ok l => l | _ => no_logger end.

(** "ab" written by a statement with severity 2 and, between the letters, a
    statement with severity 5 that writes "x". *)
Definition put (c : Z) (b : body (char := octet) (Ch := nat) (U := nat) (X := X)) := b_op (op_put (B c)) b.
Definition inner (s : sink_id) := Statement features (lg s) (Arguments_ (Some 5%Z) None) (put 0x78 b_end).
Definition outer (s : sink_id) := Statement features (lg s) (Arguments_ None None) (put 0x61 (b_log (inner s) (put 0x62 b_end))).
Definition plain (s : sink_id) := Statement features (lg s) (Arguments_ None None) (put 0x61 (put 0x62 b_end)).

Definition written (s : sink_id) (st : statement) : output :=
  (rest (st_env (run_statement string_max space 1 4 st (State ∅ (made_logger s).2)).2)).2.

(** The severity of a record is not its own. The level of a statement is
    stored in the thread and read when sinks format the record. A statement in the
    expression of another one overwrites it: the record of severity 2, which
    the filters saw as such, is written with severity 5, also when it is detached
    for a sink in another thread. Without the inner statement it is written
    with severity 2. *)
Theorem nested_statement_severity :
  written 1 (plain 1) = [(Some 2%Z, bytes [0x61; 0x62])] ∧
  written 1 (outer 1) = [(Some 5%Z, bytes [0x78]); (Some 5%Z, bytes [0x61; 0x62])] ∧
  written 2 (outer 2) = [(Some 5%Z, bytes [0x78]); (Some 5%Z, bytes [0x61; 0x62])].
Proof. split_and!; by vm_compute. Qed.

Lemma outer_ok s : statement_ok string_max (outer s).
Proof.
  assert (NoDup features) by (apply (bool_decide_unpack _); by vm_compute).
  cbn. split; [done|]. split; [vm_compute; lia|]. split; [|done]. split; [done|]. split; [vm_compute; lia|done].
Qed.

Lemma sample_takes : push_takes (Ch := nat) (U := nat) (X := X) (R := private_data value attrs).
Proof. intros tid r e. by apply push_handle_takes. Qed.

Lemma statement_messages_witness :
  ∃ pl', run_statement string_max space 3 4 (outer 1) (State ∅ (made_logger 1).2) =
    (Ok (), State pl' (spec_statement 1 4 (outer 1) (made_logger 1).2).2) ∧ pool_size 4 pl' ≤ 2 ∧
    snd <$> (rest (spec_statement 1 4 (outer 1) (made_logger 1).2).2).2 = [bytes [0x78]; bytes [0x61; 0x62]].
Proof.
  destruct (statement_messages string_max space 3 4 (outer 1) ∅ (made_logger 1).2)
    as [Hrun Hone]; [apply outer_ok|apply map_Forall_empty|]. destruct Hrun as (pl' & E & Hpl); [by vm_compute|].
  rewrite (Hone sample_takes ltac:(lia)) in E. exists pl'. split; [exact E|]. split; [apply Hpl|by vm_compute].
Defined.

(** ** A record that cannot be detached *)

(** Values of user attributes throw when they are detached from the thread. *)
Definition throwing_api : CoreApi (Ch := nat) (U := nat) (X := X) (private_data value attrs) :=
  core_api (λ u, mret u) (λ _, sm_throw ex_bad_alloc) write_sink.

(** The logger with another attribute, and a statement that writes "a" to the
    sink in another thread. *)
Definition user_logger : logger (U := nat) (X := X) :=
  match add_attribute 7%N (attr_user 1) (lg 2) with Ok l => l.2 | _ => no_logger end.

Definition letter : body (char := octet) (Ch := nat) (U := nat) (X := X) := put 0x61 b_end.

Definition iteration (r : private_data value attrs) :=
  pump_once string_max space (CoreApi0 := throwing_api) features 4 user_logger
    (run_body string_max space (CoreApi0 := throwing_api) 1 4 letter) r.

(** The record when it was opened, and after one iteration. *)
Definition opened := on_env (char := octet)
  (logger_open_record (CoreApi0 := throwing_api) features 4 user_logger (Arguments_ None None)) (State ∅ (made_logger 2).2).

Definition tried : outcome (option (private_data value attrs)) * state :=
  match opened with
  | (Ok (Some r), σ) => iteration r σ
  | (_, σ) => (Stuck, σ)
  end.

(** An iteration leaves the record as it was. *)
Lemma tried_again : match tried with (Ok (Some r), σ) => iteration r σ = tried | _ => False end.
Proof. vm_compute. reflexivity. Qed.

Lemma tried_loop k : match tried with
  | (Ok h, σ) => (pump_loop (CoreApi0 := throwing_api) string_max space features 4 user_logger
      (run_body (CoreApi0 := throwing_api) string_max space 1 4 letter) k h σ).1 = Stuck
  | _ => False
  end.
Proof.
  pose proof tried_again as Ha. destruct tried as [[[r|]|ex|] σ]; [|done..].
  induction k as [|k IH]; [done|]. by rewrite (pump_loop_step _ _ _ _ _ _ _ _ _ _ _ Ha).
Qed.

(** A statement that does not end: when detaching a value of a record
    throws and the handler of the core swallows the exception, the record stays in
    the handle: the loop of the statement, which ends when the handle is empty,
    runs the expression and pushes the record again, however many iterations
    [n] it is given. *)
Theorem undetached_statement_loops n :
  (run_statement (CoreApi0 := throwing_api) string_max space n 4
    (Statement features user_logger (Arguments_ None None) letter) (State ∅ (made_logger 2).2)).1 = Stuck.
Proof.
  cbn [run_statement]. rewrite sm_bind_run. fold opened.
  change (run_body (CoreApi0 := throwing_api) string_max space n 4 letter)
    with (run_body (CoreApi0 := throwing_api) string_max space 1 4 letter).
  pose proof (tried_loop (pred n)) as Ht. unfold tried in Ht.
  destruct opened as [[[r|]|ex|] σ]; [|done..]. destruct n as [|n]; [done|].
  destruct (iteration r σ) as [[h|ex|] σ'] eqn:E; [|done..]. by rewrite (pump_loop_step _ _ _ _ _ _ _ _ _ _ _ E).
Qed.
End sample_statements.
