(* ===== verification/ParserUtils.v ===== *)
(** The scanners that the parsers of settings, filters and formatters share
    (src/src/setup/parser_utils.cpp and src/src/setup/parser_utils.hpp): spaces,
    attribute names, operands and escape sequences.

    A range of iterators is the list of its characters. Characters are
    classified as in the "C" locale. *)

From Stdlib Require Import ZArith Ascii String.
From stdpp Require Import base numbers list.
From S2P Require Import Prelude.

Local Open Scope char_scope.

(** * Characters *)

Definition char_comment : ascii := "#".
Definition char_comma : ascii := ",".
Definition char_dot : ascii := ".".
Definition char_quote : ascii := ascii_of_nat 34.
Definition char_percent : ascii := "%".
Definition char_exclamation : ascii := "!".
Definition char_and : ascii := "&".
Definition char_or : ascii := "|".
Definition char_equal : ascii := "=".
Definition char_underline : ascii := "_".
Definition char_backslash : ascii := "\".
Definition char_section_bracket_left : ascii := "[".
Definition char_section_bracket_right : ascii := "]".
Definition char_paren_bracket_left : ascii := "(".
Definition char_paren_bracket_right : ascii := ")".

Definition in_range (lo hi : nat) (c : ascii) : bool :=
  ((lo <=? nat_of_ascii c) && (nat_of_ascii c <=? hi))%nat.

Definition isspace (c : ascii) : bool := in_range 9 13 c || in_range 32 32 c.
Definition isupper (c : ascii) : bool := in_range 65 90 c.
Definition islower (c : ascii) : bool := in_range 97 122 c.
Definition isalpha (c : ascii) : bool := isupper c || islower c.
Definition isalnum (c : ascii) : bool := isalpha c || is_digit c.
Definition isxdigit (c : ascii) : bool := is_digit c || in_range 65 70 c || in_range 97 102 c.
Definition isgraph (c : ascii) : bool := in_range 33 126 c.

Definition is_char (c d : ascii) : bool := bool_decide (d = c).

(** * Scanners *)

Fixpoint trim_spaces_left (s : str) : str :=
  match s with
  | c :: t => if isspace c then trim_spaces_left t else s
  | [] => []
  end.

Fixpoint trim_spaces_right (s : str) : str :=
  match s with
  | [] => []
  | c :: t =>
      match trim_spaces_right t with
      | [] => if isspace c then [] else [c]
      | t => c :: t
      end
  end.

Definition is_name_char (c : ascii) : bool := isalnum c || is_char char_underline c.

(** The name and what follows it. *)
Fixpoint scan_while (P : ascii → bool) (s : str) : str * str :=
  match s with
  | c :: t => if P c then let '(a, b) := scan_while P t in (c :: a, b) else ([], s)
  | [] => ([], [])
  end.

Definition scan_attr_placeholder (s : str) : str * str := scan_while is_name_char s.

(** * Escape sequences *)

Definition to_number (c : ascii) : nat :=
  let n := nat_of_ascii c in
  (if is_digit c then n - 48
   else if in_range 97 102 c then n - 97 + 10
   else if in_range 65 70 c then n - 65 + 10
   else 0)%nat.

Definition is_octal (c : ascii) : bool := in_range 48 55 c.

(** A character code, converted to [char]. *)
Definition to_char (n : nat) : ascii := ascii_of_nat (n mod 256)%nat.

(** The octal digits at [b], at most [k] of them. The character at the end of
    the string is read, which is undefined. *)
Fixpoint octal_digits (k : nat) (c : nat) (b : str) : outcome (nat * str) :=
  match k with
  | O => Ok (c, b)
  | S k =>
      match b with
      | [] => Stuck
      | d :: b' => if is_octal d then octal_digits k (c * 8 + (nat_of_ascii d - 48))%nat b' else Ok (c, b)
      end
  end.

(** The sequence of a backslash and [c] followed by [t]; [out] are the
    characters before it. The results are the characters before [it] and those
    from [it] on. *)
Definition translate_escape (out : str) (c : ascii) (t : str) : outcome (str * str) :=
  if is_char "n" c then Ok (out, ascii_of_nat 10 :: t)
  else if is_char "r" c then Ok (out, ascii_of_nat 13 :: t)
  else if is_char "a" c then Ok (out, ascii_of_nat 7 :: t)
  else if is_char "\" c then Ok (out ++ [c], t)
  else if is_char "t" c then Ok (out, ascii_of_nat 9 :: t)
  else if is_char "b" c then Ok (out, ascii_of_nat 8 :: t)
  else if is_char "x" c then
    match t with
    | c1 :: c2 :: t' =>
        if isxdigit c1 && isxdigit c2 then Ok (out ++ [to_char (to_number c1 * 16 + to_number c2)%nat], t')
        else Ok (out, c :: t)
    | _ => Ok (out, c :: t)
    end
  else if is_octal c then
    let* (n, b) := octal_digits 2 (nat_of_ascii c - 48)%nat t in Ok (out ++ [to_char n], b)
  else Ok (out, c :: t).

(** The loop of [translate_escape_sequences]; [out] are the characters before
    [it], [s] those from [it] on. It does not end at a single backslash. *)
Fixpoint translate_loop (fuel : nat) (out s : str) : outcome str :=
  match s with
  | [] => Ok out
  | _ =>
      match fuel with
      | O => Stuck
      | S fuel =>
          let n := find_pos (is_char char_backslash) s in
          let* (out, s) := match drop n s with
                           | _ :: c :: t => translate_escape (out ++ take n s) c t
                           | s' => Ok (out ++ take n s, s')
                           end in
          translate_loop fuel out s
      end
  end.

Definition translate_escape_sequences (s : str) : outcome str := translate_loop (length s) [] s.

(** * Operands *)

(** A quoted string up to its end: the characters before the closing quote and
    those behind it. *)
Fixpoint scan_quoted (s : str) : outcome (str * str) :=
  match s with
  | [] => Throw (ex_parse_error 0)
  | c :: t =>
      if is_char char_quote c then Ok ([], t)
      else if is_char char_backslash c then
        match t with
        | [] => Throw (ex_parse_error 0)
        | d :: t => let* (a, b) := scan_quoted t in Ok (c :: d :: a, b)
        end
      else let* (a, b) := scan_quoted t in Ok (c :: a, b)
  end.

Definition is_word_char (c : ascii) : bool :=
  isalnum c || is_char "_" c || is_char "-" c || is_char "+" c || is_char "." c.

(** The operand and what follows it. *)
Definition parse_operand (s : str) : outcome (str * str) :=
  match s with
  | [] => Throw (ex_parse_error 0)
  | c :: t =>
      if is_char char_quote c then
        let* (a, rest) := scan_quoted t in
        let* operand := translate_escape_sequences a in
        Ok (operand, rest)
      else
        let '(a, rest) := scan_while is_word_char t in Ok (c :: a, rest)
  end.

(** * Lemmas *)

Lemma is_char_true c d : is_char c d = true ↔ d = c.
Proof. unfold is_char. by rewrite bool_decide_eq_true. Qed.

Lemma is_char_refl c : is_char c c = true.
Proof. by apply is_char_true. Qed.

Lemma is_char_ne c d : d ≠ c → is_char c d = false.
Proof. intros H. by apply bool_decide_eq_false_2. Qed.

(** Sequences of spaces are skipped. *)
Lemma trim_left_app ws s : Forall (λ c, isspace c) ws → trim_spaces_left (ws ++ s) = trim_spaces_left s.
Proof. induction 1 as [|c ws Hc _ IH]; [done|]. cbn. by destruct (isspace c). Qed.

Lemma trim_left_id c s : isspace c = false → trim_spaces_left (c :: s) = c :: s.
Proof. intros H. cbn. by rewrite H. Qed.

Lemma trim_left_all ws : Forall (λ c, isspace c) ws → trim_spaces_left ws = [].
Proof. intros H. rewrite <-(app_nil_r ws). by rewrite trim_left_app. Qed.

Lemma trim_left_length s : length (trim_spaces_left s) ≤ length s.
Proof. induction s as [|c s IH]; cbn; [done|]. destruct (isspace c); cbn; lia. Qed.

Lemma trim_left_suffix s : trim_spaces_left s `suffix_of` s.
Proof. induction s as [|c s IH]; cbn; [done|]. destruct (isspace c); [by apply suffix_cons_r|done]. Qed.

Lemma trim_left_head s c t : trim_spaces_left s = c :: t → isspace c = false.
Proof. induction s as [|d s IH]; cbn; [done|]. destruct (isspace d) eqn:E; [done|]. by intros [= -> ->]. Qed.

Lemma trim_left_idem s : trim_spaces_left (trim_spaces_left s) = trim_spaces_left s.
Proof. destruct (trim_spaces_left s) as [|c t] eqn:E; [done|]. apply trim_left_id. by eapply trim_left_head. Qed.

Lemma trim_right_app s ws : Forall (λ c, isspace c) ws → trim_spaces_right (s ++ ws) = trim_spaces_right s.
Proof.
  intros H. induction s as [|c s IH]; cbn; [|by rewrite IH].
  induction H as [|c ws Hc _ IH]; [done|]. cbn. rewrite IH. by destruct (isspace c).
Qed.

Lemma trim_right_id s c : last s = Some c → isspace c = false → trim_spaces_right s = s.
Proof.
  induction s as [|d s IH]; [done|]. intros Hl Hc. cbn. destruct s as [|d' s].
  - cbn in Hl. simplify_eq. cbn. by rewrite Hc.
  - rewrite IH by done. done.
Qed.

Lemma scan_while_app (P : ascii → bool) a b : Forall (λ c, P c) a → (∀ c t, b = c :: t → P c = false) →
  scan_while P (a ++ b) = (a, b).
Proof.
  intros Ha Hb. induction Ha as [|c a Hc _ IH]; cbn.
  - destruct b as [|c b]; [done|]. cbn. by rewrite (Hb c b).
  - destruct (P c); [|done]. by rewrite IH.
Qed.

Lemma scan_while_split (P : ascii → bool) s : let '(a, b) := scan_while P s in
  s = a ++ b ∧ Forall (λ c, P c) a ∧ (∀ c t, b = c :: t → P c = false).
Proof.
  induction s as [|c s IH]; cbn; [done|]. destruct (P c) eqn:E.
  - destruct (scan_while P s) as [a b]. destruct IH as (-> & Ha & Hb).
    split; [done|]. split; [|done]. constructor; [by rewrite E|done].
  - split; [done|]. split; [done|]. by intros d t [= -> ->].
Qed.

(** ** Quoted operands *)

(** A string with quotes, backslashes and line ends escaped. *)
Definition escape_char (c : ascii) : str :=
  if is_char char_quote c || is_char char_backslash c then [char_backslash; c]
  else if is_char (ascii_of_nat 10) c then [char_backslash; "n"]
  else [c].

Definition escape (s : str) : str := s ≫= escape_char.

Definition quoted (s : str) : str := char_quote :: escape s ++ [char_quote].

Lemma escape_cons c s : escape (c :: s) = escape_char c ++ escape s.
Proof. done. Qed.

Definition plain (s : str) : Prop := Forall (λ c, c ≠ char_backslash) s.

Lemma plain_find pre s : plain pre →
  find_pos (is_char char_backslash) (pre ++ s) = length pre + find_pos (is_char char_backslash) s.
Proof.
  intros H. apply find_pos_app_skip. eapply Forall_impl; [exact H|]. intros d Hd. by apply is_char_ne.
Qed.

Lemma translate_loop_plain fuel out pre : plain pre → length pre ≤ fuel →
  translate_loop fuel out pre = Ok (out ++ pre).
Proof.
  intros Hpre Hf. destruct (decide (pre = [])) as [-> |Hne]; [destruct fuel; cbn; by rewrite app_nil_r|].
  destruct fuel as [|fuel]; [destruct pre; [done|cbn in Hf; lia]|].
  pose proof (plain_find pre [] Hpre) as Hn. rewrite app_nil_r in Hn. cbn in Hn. rewrite Nat.add_0_r in Hn.
  destruct pre as [|c pre]; [done|]. cbn [translate_loop]. rewrite Hn, drop_all, take_ge by done.
  by destruct fuel.
Qed.

(** One escape sequence. *)
Lemma translate_loop_escape fuel out pre c t : plain pre →
  translate_loop (S fuel) out (pre ++ char_backslash :: c :: t) =
  (let* (out, s) := translate_escape (out ++ pre) c t in translate_loop fuel out s).
Proof.
  intros Hpre. pose proof (plain_find pre (char_backslash :: c :: t) Hpre) as Hn. cbn in Hn.
  rewrite is_char_refl, Nat.add_0_r in Hn.
  assert (pre ++ char_backslash :: c :: t ≠ []) as Hne by (by destruct pre).
  revert Hn Hne. pose proof (drop_app_length pre (char_backslash :: c :: t)) as Hd.
  pose proof (take_app_length pre (char_backslash :: c :: t)) as Ht. revert Hd Ht.
  generalize (pre ++ char_backslash :: c :: t) as s. intros s Hd Ht Hn Hne.
  destruct s as [|x s]; [done|]. cbn [translate_loop]. by rewrite Hn, Hd, Ht.
Qed.

(** Characters that stand for themselves behind a backslash. *)
Definition inert (c : ascii) : bool :=
  negb (is_char "n" c || is_char "r" c || is_char "a" c || is_char "t" c || is_char "b" c || is_char "x" c || is_octal c).

(** [t] is a text with escape sequences for [s]. *)
Inductive escapes : str → str → Prop :=
  | escapes_nil : escapes [] []
  | escapes_plain c s t : c ≠ char_backslash → escapes s t → escapes (c :: s) (c :: t)
  | escapes_char c s t : inert c → escapes s t → escapes (c :: s) (char_backslash :: c :: t)
  | escapes_newline s t : escapes s t → escapes (ascii_of_nat 10 :: s) (char_backslash :: "n" :: t).

Lemma translate_inert out c t : inert c →
  translate_escape out c t = Ok (if is_char char_backslash c then (out ++ [c], t) else (out, c :: t)).
Proof.
  unfold inert, translate_escape. intros H. change (is_char char_backslash c) with (is_char "\" c).
  destruct (is_char "n" c); [done|]. destruct (is_char "r" c); [done|]. destruct (is_char "a" c); [done|].
  destruct (is_char "\" c); [done|]. destruct (is_char "t" c); [done|]. destruct (is_char "b" c); [done|].
  destruct (is_char "x" c); [done|]. by destruct (is_octal c).
Qed.

Lemma translate_escapes s t : escapes s t → ∀ fuel out pre, plain pre → length pre + length t ≤ fuel →
  translate_loop fuel out (pre ++ t) = Ok (out ++ pre ++ s).
Proof.
  induction 1 as [|c s t Hc H IH|c s t Hc H IH|s t H IH]; intros fuel out pre Hpre Hf.
  - rewrite !app_nil_r. apply translate_loop_plain; [done|cbn in Hf; lia].
  - rewrite (cons_middle c), (assoc_L (++)), IH; [by rewrite <-!(assoc_L (++))| |rewrite length_app; cbn in *; lia].
    apply Forall_app. split; [done|by repeat constructor].
  - destruct fuel as [|fuel]; [cbn in Hf; lia|]. rewrite translate_loop_escape, translate_inert by done.
    cbn in Hf. destruct (is_char char_backslash c) eqn:E; cbn.
    + etrans; [apply (IH fuel ((out ++ pre) ++ [c]) []); [constructor|cbn; lia]|by rewrite <-!(assoc_L (++))].
    + etrans; [apply (IH fuel (out ++ pre) [c]); [|cbn; lia]|by rewrite <-(assoc_L (++))].
      repeat constructor. intros ->. by rewrite is_char_refl in E.
  - destruct fuel as [|fuel]; [cbn in Hf; lia|]. rewrite translate_loop_escape by done. cbn in Hf.
    change (translate_escape _ "n" t) with (Ok (out ++ pre, ascii_of_nat 10 :: t)). cbn [obind].
    etrans; [apply (IH fuel (out ++ pre) [ascii_of_nat 10]); [by repeat constructor|cbn; lia]|by rewrite <-(assoc_L (++))].
Qed.

Lemma translate_escapes_all s t : escapes s t → translate_escape_sequences t = Ok s.
Proof. intros H. exact (translate_escapes s t H (length t) [] [] (Forall_nil_2 _) (le_n _)). Qed.

(** Strings survive being quoted. *)
Lemma escape_escapes s : escapes s (escape s).
Proof.
  induction s as [|c s IH]; [constructor|]. rewrite escape_cons. unfold escape_char.
  destruct (is_char char_quote c || is_char char_backslash c) eqn:E.
  - apply orb_true_iff in E as [->%is_char_true| ->%is_char_true]; by constructor.
  - destruct (is_char (ascii_of_nat 10) c) eqn:E'; [apply is_char_true in E' as ->; by constructor|].
    apply escapes_plain; [|done]. intros ->. apply orb_false_iff in E as [_ E]. by rewrite is_char_refl in E.
Qed.

Lemma scan_quoted_escape s rest : scan_quoted (escape s ++ char_quote :: rest) = Ok (escape s, rest).
Proof.
  induction s as [|c s IH]; [done|]. rewrite escape_cons. unfold escape_char.
  destruct (is_char char_quote c || is_char char_backslash c) eqn:E; [|destruct (is_char (ascii_of_nat 10) c)].
  - cbn. by rewrite IH.
  - cbn. by rewrite IH.
  - apply orb_false_iff in E as [E1 E2]. cbn. by rewrite E1, E2, IH.
Qed.

(** The parser reads back a quoted string, whatever its characters. *)
Lemma parse_operand_quoted s rest : parse_operand (quoted s ++ rest) = Ok (s, rest).
Proof.
  unfold quoted. cbn. rewrite <-(assoc_L (++)). cbn. rewrite scan_quoted_escape. cbn.
  by rewrite (translate_escapes_all s _ (escape_escapes s)).
Qed.

(** ** Safety *)

(** No backslash is followed by an octal digit. *)
Fixpoint no_octal (s : str) : bool :=
  match s with
  | c :: ((d :: _) as t) => negb (is_char char_backslash c && is_octal d) && no_octal t
  | _ => true
  end.

(** Every backslash is followed by a character. *)
Inductive paired : str → Prop :=
  | paired_nil : paired []
  | paired_char c s : c ≠ char_backslash → paired s → paired (c :: s)
  | paired_escape c s : paired s → paired (char_backslash :: c :: s).

Lemma no_octal_tail c s : no_octal (c :: s) → no_octal s.
Proof. destruct s as [|d s]; [done|]. cbn [no_octal]. rewrite andb_True. by intros [_ ?]. Qed.

Lemma no_octal_suffix s t : s `suffix_of` t → no_octal t → no_octal s.
Proof. intros [k ->]. induction k as [|c k IH]; [done|]. intros H. by apply IH, (no_octal_tail c). Qed.

Lemma no_octal_cons c s : c ≠ char_backslash → no_octal s → no_octal (c :: s).
Proof.
  intros Hc Hs. destruct s as [|d s]; [done|]. cbn [no_octal]. by rewrite is_char_ne.
Qed.

Lemma paired_drop pre s : plain pre → paired (pre ++ s) → paired s.
Proof.
  induction 1 as [|c pre Hc _ IH]; [done|]. cbn. inversion 1; simplify_eq. by apply IH.
Qed.

(** A paired string starts with plain characters. *)
Lemma paired_cases s : paired s → ∃ pre, plain pre ∧
  (s = pre ∨ ∃ c t, s = pre ++ char_backslash :: c :: t ∧ paired t).
Proof.
  induction 1 as [|c s Hc Hs (pre & Hpre & IH)|c s Hs IH].
  - exists []. split; [constructor|by left].
  - exists (c :: pre). split; [by constructor|]. destruct IH as [-> |(d & t & -> & Ht)]; [by left|right; by exists d, t].
  - exists []. split; [constructor|]. right. by exists c, s.
Qed.

(** One escape sequence without octal digits: characters go, and the rest is as
    before. *)
Lemma translate_escape_ok out c t : is_octal c = false → paired t → no_octal t →
  ∃ out' s, translate_escape out c t = Ok (out', s) ∧ paired s ∧ no_octal s ∧ length s ≤ S (length t).
Proof.
  intros Hc Hp Hn. unfold translate_escape.
  assert (∀ d, d ≠ char_backslash → paired (d :: t) ∧ no_octal (d :: t) ∧ length (d :: t) ≤ S (length t)) as Hd.
  { intros d Hd. split; [by constructor|]. split; [by apply no_octal_cons|done]. }
  destruct (is_char "n" c); [do 2 eexists; split; [done|by apply Hd]|].
  destruct (is_char "r" c); [do 2 eexists; split; [done|by apply Hd]|].
  destruct (is_char "a" c); [do 2 eexists; split; [done|by apply Hd]|].
  destruct (is_char "\" c) eqn:Hb; [do 2 eexists; split; [done|]; repeat split; [done|done|lia]|].
  assert (c ≠ char_backslash) as Hcb by (intros ->; by rewrite is_char_refl in Hb).
  destruct (is_char "t" c); [do 2 eexists; split; [done|by apply Hd]|].
  destruct (is_char "b" c); [do 2 eexists; split; [done|by apply Hd]|].
  destruct (is_char "x" c); [|rewrite Hc; do 2 eexists; split; [done|by apply Hd]].
  destruct t as [|c1 [|c2 t']]; [do 2 eexists; split; [done|by apply Hd]..|].
  destruct (isxdigit c1 && isxdigit c2) eqn:E; do 2 eexists; (split; [done|]); [|by apply Hd].
  assert (∀ d, isxdigit d → d ≠ char_backslash) as Hx by (by intros d H ->).
  apply andb_true_iff in E as [E1 E2]. split; [|split].
  - apply (paired_drop [c1; c2]); [|done]. repeat constructor; apply Hx; by rewrite ?E1, ?E2.
  - by do 2 apply no_octal_tail in Hn.
  - cbn. lia.
Qed.

Lemma translate_total s fuel out : paired s → no_octal s → length s ≤ fuel → ∃ t, translate_loop fuel out s = Ok t.
Proof.
  revert s out. induction fuel as [|fuel IH]; intros s out Hp Hn Hf.
  { destruct s; [by eexists|cbn in Hf; lia]. }
  destruct (paired_cases s Hp) as (pre & Hpre & [-> |(c & t & -> & Ht)]).
  { eexists. by apply translate_loop_plain. }
  assert (no_octal (char_backslash :: c :: t)) as Hn' by (eapply no_octal_suffix; [by exists pre|done]).
  cbn [no_octal] in Hn'. apply andb_True in Hn' as [Hc Ht'].
  rewrite is_char_refl in Hc. cbn in Hc. apply negb_True in Hc.
  destruct (translate_escape_ok (out ++ pre) c t) as (out' & s & E & Hs1 & Hs2 & Hs3);
    [by apply not_true_is_false; intros E; rewrite E in Hc|done|by eapply no_octal_tail|].
  rewrite translate_loop_escape by done. rewrite E. cbn. apply IH; [done..|].
  rewrite length_app in Hf. cbn in Hf. lia.
Qed.

Lemma scan_quoted_spec s :
  match scan_quoted s with
  | Ok (a, b) => paired a ∧ ∃ k, s = a ++ k :: b
  | Throw e => e = ex_parse_error 0
  | Stuck => False
  end.
Proof.
  induction s as [s IH] using (induction_ltof1 _ length). unfold ltof in IH.
  destruct s as [|c t]; [done|]. cbn [scan_quoted]. destruct (is_char char_quote c).
  { split; [constructor|by exists c]. }
  destruct (is_char char_backslash c) eqn:E.
  - apply is_char_true in E as ->. destruct t as [|d t]; [done|].
    specialize (IH t ltac:(cbn; lia)). destruct (scan_quoted t) as [[a b]|e|]; [|done..].
    destruct IH as (Hp & k & ->). split; [by constructor|by exists k].
  - specialize (IH t ltac:(cbn; lia)). destruct (scan_quoted t) as [[a b]|e|]; [|done..].
    destruct IH as (Hp & k & ->). split; [|by exists k]. constructor; [|done].
    intros ->. by rewrite is_char_refl in E.
Qed.

(** The prefix of a string without hazards. *)
Lemma no_octal_prefix s t : no_octal (s ++ t) → no_octal s.
Proof.
  induction s as [|c s IH]; [done|]. destruct s as [|d s]; [done|].
  change (no_octal (c :: d :: (s ++ t)) → no_octal (c :: d :: s)). cbn [no_octal].
  rewrite !andb_True. intros [? ?]. split; [done|by apply IH].
Qed.

(** An operand is read, and something of the input is consumed, or there is a
    parse error. *)
Lemma parse_operand_total s : no_octal s →
  match parse_operand s with
  | Ok (_, rest) => rest `suffix_of` s ∧ length rest < length s
  | Throw e => e = ex_parse_error 0
  | Stuck => False
  end.
Proof.
  intros Hn. destruct s as [|c t]; [done|]. cbn [parse_operand]. destruct (is_char char_quote c).
  - pose proof (scan_quoted_spec t) as Hs. destruct (scan_quoted t) as [[a b]|e|]; [|done..].
    destruct Hs as (Hp & k & ->). cbn.
    destruct (translate_total a (length a) [] Hp) as (o & Ho); [|done|].
    { eapply no_octal_prefix, (no_octal_tail c), Hn. }
    unfold translate_escape_sequences. rewrite Ho. cbn. split; [|rewrite length_app; cbn; lia].
    exists (c :: a ++ [k]). cbn. by rewrite <-(assoc_L (++)).
  - pose proof (scan_while_split is_word_char t) as H. destruct (scan_while is_word_char t) as [a b].
    destruct H as (-> & _ & _). split; [by exists (c :: a)|rewrite !length_cons, length_app; lia].
Qed.
