(* ===== verification/SettingsParser.v ===== *)
(** The parser of settings files (src/src/setup/settings_parser.cpp): sections,
    parameters and comments, into the settings container
    (src/include/boost/log/utility/setup/settings.hpp).

    The container is a property tree of another library; its type and its
    operations are parameters. Conversion to the narrow encoding is the identity:
    the parser of narrow characters is modelled. *)

From Stdlib Require Import ZArith Ascii String.
From stdpp Require Import base numbers list gmap.
From S2P Require Import Prelude ParserUtils.

Local Open Scope char_scope.

(** * The container *)

(** A path is a sequence of keys. [put] sets the value at a path, and [get_optional]
    reads it. *)
Class PropertyTree := {
  ptree : Type;
  empty_ptree : ptree;
  put : list str → str → ptree → ptree;
  get_optional : list str → ptree → option str;
  get_put : ∀ p v t, get_optional p (put p v t) = Some v;
  get_put_other : ∀ p q v w t, q ≠ p → get_optional q t = Some w → get_optional q (put p v t) = Some w }.

(** The keys of a path string, which are separated by dots. *)
Fixpoint path_keys (s : str) : list str :=
  match s with
  | [] => [[]]
  | c :: t =>
      match path_keys t with
      | k :: ks => if is_char char_dot c then [] :: k :: ks else (c :: k) :: ks
      | [] => []
      end
  end.

(** [m_Settings[section][param]]: the path of the parameter. *)
Definition param_path (section param : str) : list str := path_keys section ++ path_keys param.

Section settings.
Context `{PT : PropertyTree}.

(** * The parser *)

Record parser := Parser {
  m_SectionName : str;
  m_ParameterName : str;
  m_Settings : ptree;
  m_LineCounter : nat }.

Definition with_section (n : str) (p : parser) : parser := Parser n (m_ParameterName p) (m_Settings p) (m_LineCounter p).
Definition with_param (n : str) (p : parser) : parser := Parser (m_SectionName p) n (m_Settings p) (m_LineCounter p).
Definition with_settings (t : ptree) (p : parser) : parser := Parser (m_SectionName p) (m_ParameterName p) t (m_LineCounter p).
Definition next_line (p : parser) : parser := Parser (m_SectionName p) (m_ParameterName p) (m_Settings p) (S (m_LineCounter p)).

(** [BOOST_LOG_THROW_DESCR_PARAMS(parse_error, ..., (m_LineCounter))]. *)
Definition fail_line {X} : sm parser X := p ← sm_get; sm_throw (ex_parse_error (m_LineCounter p)).

Definition sink_prefix : str := str_lit "Sink:".

Definition set_section_name (name : str) : sm parser unit :=
  match name with
  | [] => fail_line
  | _ =>
      if forallb (λ c, is_char char_dot c || isalnum c) name then
        sm_modify (with_section
          (if bool_decide (take 5 name = sink_prefix) then str_lit "Sinks." ++ drop 5 name else name))
      else fail_line
  end.

Definition set_parameter_name (name : str) : sm parser unit :=
  p ← sm_get;
  match m_SectionName p with
  | [] => fail_line
  | _ =>
      match name with
      | [] => fail_line
      | c :: t => if isalpha c && forallb isgraph t then sm_modify (with_param name) else fail_line
      end
  end.

Definition set_parameter_value (value : str) : sm parser unit :=
  sm_modify (λ p, with_settings (put (param_path (m_SectionName p) (m_ParameterName p)) value (m_Settings p)) p);;
  sm_modify (with_param []).

(** The end of a line: spaces and a comment. *)
Definition end_of_line (s : str) : sm parser unit :=
  match trim_spaces_left s with
  | [] => mret ()
  | c :: _ => if is_char char_comment c then mret () else fail_line
  end.

(** [parse_line]. *)
Definition parse_line (line : str) : sm parser unit :=
  match trim_spaces_left line with
  | [] => mret ()
  | c :: t =>
      if is_char char_section_bracket_left c then
        let start := trim_spaces_left t in
        let n := find_pos (is_char char_section_bracket_right) start in
        match drop n start with
        | [] => fail_line
        | _ :: rest => set_section_name (trim_spaces_right (take n start));; end_of_line rest
        end
      else if is_char char_comment c then end_of_line (c :: t)
      else
        let n := find_pos (is_char char_equal) (c :: t) in
        match drop n (c :: t) with
        | [] => fail_line
        | _ :: rest =>
            set_parameter_name (trim_spaces_right (take n (c :: t)));;
            match trim_spaces_left rest with
            | [] => fail_line
            | d :: v =>
                if is_char char_comment d then fail_line
                else
                  match parse_operand (d :: v) with
                  | Ok (value, rest) => set_parameter_value value;; end_of_line rest
                  | Throw (ex_parse_error _) => fail_line
                  | Throw e => sm_throw e
                  | Stuck => sm_lift Stuck
                  end
            end
        end
  end.

(** [std::getline] until the end of the stream. *)
Fixpoint split_lines (s : str) : list str :=
  match s with
  | [] => [[]]
  | c :: t =>
      match split_lines t with
      | l :: ls => if is_char (ascii_of_nat 10) c then [] :: l :: ls else (c :: l) :: ls
      | [] => []
      end
  end.

Fixpoint parse_lines (lines : list str) : sm parser unit :=
  match lines with
  | [] => mret ()
  | line :: lines => parse_line line;; sm_modify next_line;; parse_lines lines
  end.

(** [parse_settings]; [good] is the state of the stream. *)
Definition parse_settings (good : bool) (text : str) : outcome ptree :=
  if good then
    let (r, p) := parse_lines (split_lines text) (Parser [] [] empty_ptree 1) in
    let* _ := r in Ok (m_Settings p)
  else Throw ex_invalid_argument.

(** * Settings files *)

(** A value in quotes or a word; a line with its spaces and comment. *)
Inductive value := v_quoted (v : str) | v_word (w : str).

Inductive line :=
  | l_blank (ws : str) (comment : option str)
  | l_section (ws1 ws2 name ws3 ws4 : str) (comment : option str)
  | l_param (ws1 name ws2 ws3 : str) (v : value) (ws4 : str) (comment : option str).

Definition render_comment (comment : option str) : str :=
  match comment with Some c => char_comment :: c | None => [] end.

Definition render_value (v : value) : str := match v with v_quoted v => quoted v | v_word w => w end.

Definition render_line (l : line) : str :=
  match l with
  | l_blank ws comment => ws ++ render_comment comment
  | l_section ws1 ws2 name ws3 ws4 comment =>
      ws1 ++ char_section_bracket_left :: ws2 ++ name ++ ws3 ++ char_section_bracket_right :: ws4 ++ render_comment comment
  | l_param ws1 name ws2 ws3 v ws4 comment =>
      ws1 ++ name ++ ws2 ++ char_equal :: ws3 ++ render_value v ++ ws4 ++ render_comment comment
  end.

(** The lines with line ends between them. *)
Fixpoint join_lines (ls : list str) : str :=
  match ls with
  | [] => []
  | [l] => l
  | l :: ls => l ++ ascii_of_nat 10 :: join_lines ls
  end.

Definition spaces (ws : str) : Prop := Forall (λ c, isspace c) ws.
Definition one_line (s : str) : Prop := Forall (λ c, c ≠ ascii_of_nat 10) s.

Definition value_ok (v : value) : Prop :=
  match v with
  | v_quoted _ => True
  | v_word [] => False
  | v_word (c :: w) => is_char char_quote c = false ∧ is_char char_comment c = false ∧ isspace c = false ∧
                       Forall (λ c, is_word_char c) w
  end.

Definition section_name_ok (name : str) : Prop := name ≠ [] ∧ Forall (λ c, is_char char_dot c || isalnum c) name.

Definition param_name_ok (name : str) : Prop :=
  match name with
  | c :: t => isalpha c ∧ Forall (λ c, isgraph c ∧ c ≠ char_equal) t
  | [] => False
  end.

Definition line_ok (l : line) : Prop :=
  one_line (render_line l) ∧
  match l with
  | l_blank ws _ => spaces ws
  | l_section ws1 ws2 name ws3 ws4 _ => spaces ws1 ∧ spaces ws2 ∧ spaces ws3 ∧ spaces ws4 ∧ section_name_ok name
  | l_param ws1 name ws2 ws3 v ws4 _ =>
      spaces ws1 ∧ spaces ws2 ∧ spaces ws3 ∧ spaces ws4 ∧ param_name_ok name ∧ value_ok v
  end.

(** Parameters come after the first section header. *)
Fixpoint file_ok (section : str) (ls : list line) : Prop :=
  match ls with
  | [] => True
  | l :: ls =>
      line_ok l ∧
      match l with
      | l_blank _ _ => file_ok section ls
      | l_section _ _ name _ _ _ => file_ok name ls
      | l_param _ _ _ _ _ _ _ => section ≠ [] ∧ file_ok section ls
      end
  end.

Definition value_text (v : value) : str := match v with v_quoted v => v | v_word w => w end.

(** The parameters that a file sets, in their order. *)
Fixpoint assignments (section : str) (ls : list line) : list (list str * str) :=
  match ls with
  | [] => []
  | l_blank _ _ :: ls => assignments section ls
  | l_section _ _ name _ _ _ :: ls => assignments name ls
  | l_param _ name _ _ v _ _ :: ls => (param_path section name, value_text v) :: assignments section ls
  end.

(** The value that is set last. *)
Definition last_value (p : list str) (as_ : list (list str * str)) : option str :=
  snd <$> last (filter (λ a, a.1 = p) as_).

(** ** Lines *)

Lemma end_of_line_ok ws comment p : spaces ws → end_of_line (ws ++ render_comment comment) p = (Ok (), p).
Proof. intros H. unfold end_of_line. rewrite trim_left_app by done. by destruct comment. Qed.

Lemma parse_blank ws comment p : spaces ws → parse_line (ws ++ render_comment comment) p = (Ok (), p).
Proof. intros H. unfold parse_line. rewrite trim_left_app by done. by destruct comment. Qed.

(** A character class that keeps out another one. *)
Lemma section_char_plain c : is_char char_dot c || isalnum c → isspace c = false ∧ is_char char_section_bracket_right c = false.
Proof. destruct c as [[] [] [] [] [] [] [] []]; vm_compute; done. Qed.

Lemma spaces_plain c : isspace c →
  is_char char_section_bracket_right c = false ∧ is_char char_equal c = false ∧ is_word_char c = false.
Proof. destruct c as [[] [] [] [] [] [] [] []]; vm_compute; done. Qed.

(** A word [s], surrounded by spaces, in front of a delimiter that is not in it. *)
Lemma split_word (P : ascii → bool) ws s ws' d rest :
  spaces ws → spaces ws' → s ≠ [] → Forall (λ c, isspace c = false ∧ P c = false) s →
  (∀ c, isspace c → P c = false) → P d = true →
  trim_spaces_left (ws ++ s ++ ws' ++ d :: rest) = s ++ ws' ++ d :: rest ∧
  find_pos P (s ++ ws' ++ d :: rest) = length (s ++ ws') ∧ trim_spaces_right (s ++ ws') = s.
Proof.
  intros Hws Hws' Hne Hs HP Hd. split; [|split].
  - rewrite trim_left_app by done. destruct Hs as [|c s [Hc _] _]; [done|]. by apply trim_left_id.
  - rewrite (assoc_L (++)), find_pos_app_skip; [cbn; rewrite Hd; lia|]. apply Forall_app. split.
    + eapply Forall_impl; [exact Hs|]. by intros c [_ ?].
    + eapply Forall_impl; [exact Hws'|]. auto.
  - rewrite trim_right_app by done. destruct (last s) as [c|] eqn:E; [|by apply last_None in E].
    eapply trim_right_id; [exact E|]. apply last_Some_elem_of in E. rewrite Forall_forall in Hs. by apply Hs.
Qed.

Lemma take_drop_word {A} (s ws : list A) d rest :
  take (length (s ++ ws)) (s ++ ws ++ d :: rest) = s ++ ws ∧ drop (length (s ++ ws)) (s ++ ws ++ d :: rest) = d :: rest.
Proof. by rewrite (assoc_L (++)), take_app_length, drop_app_length. Qed.

Lemma set_section_name_ok name p : section_name_ok name → set_section_name name p = (Ok (), with_section name p).
Proof.
  intros [Hne Hname]. unfold set_section_name. destruct name as [|c t] eqn:E; [done|]. rewrite <-E in *.
  assert (forallb (λ c, is_char char_dot c || isalnum c) name = true) as ->.
  { by apply Is_true_true, forallb_True. }
  rewrite bool_decide_false; [done|]. intros Hp.
  assert (":" ∈ name) as Hin by (rewrite <-(take_drop 5 name), Hp; set_solver).
  rewrite Forall_forall in Hname. by apply Hname in Hin.
Qed.

Lemma parse_section ws1 ws2 name ws3 ws4 comment p :
  spaces ws1 → spaces ws2 → spaces ws3 → spaces ws4 → section_name_ok name →
  parse_line (render_line (l_section ws1 ws2 name ws3 ws4 comment)) p = (Ok (), with_section name p).
Proof.
  intros H1 H2 H3 H4 Hname. unfold parse_line, render_line. rewrite trim_left_app, trim_left_id by done.
  cbn [is_char]. rewrite is_char_refl.
  destruct (split_word (is_char char_section_bracket_right) ws2 name ws3 char_section_bracket_right
    (ws4 ++ render_comment comment)) as (E1 & E2 & E3); [done|done|apply Hname| | |apply is_char_refl|].
  { eapply Forall_impl; [apply Hname|]. intros c. apply section_char_plain. }
  { intros c Hc. by apply spaces_plain. }
  rewrite E1, E2. destruct (take_drop_word name ws3 char_section_bracket_right (ws4 ++ render_comment comment)) as [-> ->].
  rewrite E3, sm_bind_run, set_section_name_ok by done. by apply end_of_line_ok.
Qed.

Lemma param_char_plain c : isgraph c ∧ c ≠ char_equal → isspace c = false ∧ is_char char_equal c = false.
Proof. intros [H Hc]. split; [|by apply is_char_ne]. revert H. destruct c as [[] [] [] [] [] [] [] []]; vm_compute; done. Qed.

Lemma alpha_plain c : isalpha c →
  isgraph c ∧ c ≠ char_equal ∧ is_char char_section_bracket_left c = false ∧ is_char char_comment c = false.
Proof. destruct c as [[] [] [] [] [] [] [] []]; vm_compute; done. Qed.

Lemma set_parameter_name_ok name p : param_name_ok name → m_SectionName p ≠ [] →
  set_parameter_name name p = (Ok (), with_param name p).
Proof.
  intros Hname Hsec. unfold set_parameter_name. sm_step. destruct (m_SectionName p); [done|].
  destruct name as [|c t]; [done|]. destruct Hname as [Hc Ht]. destruct (isalpha c); [|done].
  assert (forallb isgraph t = true) as ->; [|done]. apply Is_true_true, forallb_True.
  eapply Forall_impl; [exact Ht|]. by intros d [? _].
Qed.

(** A value and the end of its line. *)
Lemma parse_value_ok v ws comment : value_ok v → spaces ws →
  ∃ c t, render_value v = c :: t ∧ is_char char_comment c = false ∧ isspace c = false ∧
    parse_operand ((c :: t) ++ ws ++ render_comment comment) = Ok (value_text v, ws ++ render_comment comment).
Proof.
  intros Hv Hws. destruct v as [v|[|c w]]; [|done|].
  - exists char_quote, (escape v ++ [char_quote]). split; [done|]. split; [done|]. split; [done|].
    apply parse_operand_quoted.
  - destruct Hv as (Hq & Hc & Hs & Hw). exists c, w. split; [done|]. split; [done|]. split; [done|].
    cbn. rewrite Hq, scan_while_app; [done|done|]. intros d t Hd. destruct Hws as [|d' ws Hd' _].
    + destruct comment; [|done]. cbn in Hd. by simplify_eq.
    + cbn in Hd. simplify_eq. by apply spaces_plain.
Qed.

Lemma parse_param ws1 name ws2 ws3 v ws4 comment p :
  spaces ws1 → spaces ws2 → spaces ws3 → spaces ws4 → param_name_ok name → value_ok v → m_SectionName p ≠ [] →
  parse_line (render_line (l_param ws1 name ws2 ws3 v ws4 comment)) p =
  (Ok (), Parser (m_SectionName p) [] (put (param_path (m_SectionName p) name) (value_text v) (m_Settings p)) (m_LineCounter p)).
Proof.
  intros H1 H2 H3 H4 Hname Hv Hsec. unfold parse_line, render_line.
  destruct (parse_value_ok v ws4 comment Hv H4) as (d & w & Ev & Hd & Hsp & Eop). rewrite Ev.
  destruct name as [|c t] eqn:Ename; [done|]. pose proof Hname as [Hc Ht].
  destruct (alpha_plain c Hc) as (Hg & Heq & Hb & Hcm).
  destruct (split_word (is_char char_equal) ws1 name ws2 char_equal (ws3 ++ (d :: w) ++ ws4 ++ render_comment comment))
    as (E1 & E2 & E3); [done|done|by subst| | |apply is_char_refl|].
  { subst. constructor; [by apply param_char_plain|]. eapply Forall_impl; [exact Ht|]. apply param_char_plain. }
  { intros x Hx. by apply spaces_plain. }
  destruct (take_drop_word name ws2 char_equal (ws3 ++ (d :: w) ++ ws4 ++ render_comment comment)) as [Et Ed].
  rewrite Ename in E1, E2, E3, Et, Ed. rewrite E1. cbn [app] in *. cbv zeta. rewrite Hb, Hcm, E2, Ed, Et, E3.
  rewrite sm_bind_run, set_parameter_name_ok by done.
  rewrite trim_left_app by done. cbn [app]. rewrite trim_left_id, Hd by done. rewrite Eop.
  by apply (end_of_line_ok ws4 comment).
Qed.

(** ** Files *)

Lemma split_lines_ne s : split_lines s ≠ [].
Proof. induction s as [|c s IH]; cbn; [done|]. destruct (split_lines s); [done|]. by destruct (is_char _ c). Qed.

Lemma split_lines_cons l s : one_line l →
  split_lines (l ++ ascii_of_nat 10 :: s) = l :: split_lines s.
Proof.
  intros H. induction H as [|c l Hc _ IH]; cbn [app split_lines].
  - rewrite is_char_refl. by destruct (split_lines s) eqn:E; [apply split_lines_ne in E|].
  - by rewrite IH, is_char_ne.
Qed.

Lemma split_lines_one l : one_line l → split_lines l = [l].
Proof. induction 1 as [|c l Hc _ IH]; cbn; [done|]. by rewrite IH, is_char_ne. Qed.

Lemma split_join ls : ls ≠ [] → Forall one_line ls → split_lines (join_lines ls) = ls.
Proof.
  intros Hne H. induction H as [|l ls Hl Hls IH]; [done|]. destruct ls as [|l' ls].
  - by apply split_lines_one.
  - change (join_lines (l :: l' :: ls)) with (l ++ ascii_of_nat 10 :: join_lines (l' :: ls)).
    by rewrite split_lines_cons, IH.
Qed.

Definition put_all (as_ : list (list str * str)) (t : ptree) : ptree := foldl (λ t a, put a.1 a.2 t) t as_.

Lemma put_all_last as_ t p v : last_value p as_ = Some v → get_optional p (put_all as_ t) = Some v.
Proof.
  revert v. induction as_ as [|[q w] as_ IH] using rev_ind; [done|]. intros v. unfold last_value, put_all.
  rewrite foldl_snoc, filter_app, filter_cons. cbn. destruct (decide (q = p)) as [-> |Hq].
  - rewrite last_snoc. intros [= ->]. apply get_put.
  - rewrite app_nil_r. intros Hv. apply get_put_other; [done|]. by apply IH.
Qed.

Lemma parse_lines_ok ls : ∀ p, file_ok (m_SectionName p) ls →
  ∃ p', parse_lines (render_line <$> ls) p = (Ok (), p') ∧
    m_Settings p' = put_all (assignments (m_SectionName p) ls) (m_Settings p).
Proof.
  induction ls as [|l ls IH]; intros p Hok; [by exists p|]. destruct Hok as [[_ Hl] Hok].
  cbn [fmap list_fmap parse_lines]. rewrite sm_bind_run.
  destruct l as [ws comment|ws1 ws2 name ws3 ws4 comment|ws1 name ws2 ws3 v ws4 comment]; cbn [assignments].
  - unfold render_line. rewrite parse_blank by done. by apply (IH (next_line p)).
  - destruct Hl as (?&?&?&?&?). rewrite parse_section by done. by apply (IH (next_line (with_section name p))).
  - destruct Hl as (?&?&?&?&?&?), Hok as [? ?]. rewrite parse_param by done. cbv iota beta. sm_step.
    set (p1 := next_line _). destruct (IH p1) as (p' & E & E'); [done|]. by exists p'.
Qed.

Lemma file_one_line section ls : file_ok section ls → Forall one_line (render_line <$> ls).
Proof.
  revert section. induction ls as [|l ls IH]; intros section; [constructor|]. intros [[Hl _] H].
  constructor; [done|]. destruct l; naive_solver.
Qed.

(** C16: settings files. Parsing a file of sections, parameters and comments, with
    spaces in any place and values as words or as quoted strings of any
    characters, succeeds, and each parameter then has the value that the file
    assigns to it last. *)
Theorem settings_roundtrip ls : file_ok [] ls →
  ∃ t, parse_settings true (join_lines (render_line <$> ls)) = Ok t ∧
    ∀ p v, last_value p (assignments [] ls) = Some v → get_optional p t = Some v.
Proof.
  intros Hok. destruct (parse_lines_ok ls (Parser [] [] empty_ptree 1) Hok) as (p' & E & E').
  exists (m_Settings p'). split; [|intros p v Hv; rewrite E'; by apply put_all_last].
  unfold parse_settings. destruct (decide (ls = [])) as [-> |Hne]; [by injection E as <-|].
  rewrite split_join; [by rewrite E|by destruct ls|by eapply file_one_line].
Qed.

(** ** Errors *)

(** A line is parsed, or its number is reported. *)
Definition line_triple {X} (n : nat) (m : sm parser X) : Prop :=
  sm_triple (λ p, m_LineCounter p = n) m (λ _ p, m_LineCounter p = n) (λ e _, e = ex_parse_error n).

Lemma fail_line_triple {X} n : line_triple n (fail_line (X := X)).
Proof. by intros p <-. Qed.

Lemma modify_triple n f : (∀ p, m_LineCounter (f p) = m_LineCounter p) → line_triple n (sm_modify f).
Proof. intros Hf p <-. apply Hf. Qed.

Lemma bind_triple {X Y} n (m : sm parser X) (k : X → sm parser Y) :
  line_triple n m → (∀ x, line_triple n (k x)) → line_triple n (m ≫= k).
Proof. apply sm_triple_bind. Qed.

Lemma ret_triple {X} n (x : X) : line_triple n (mret x).
Proof. by apply sm_triple_ret. Qed.

#[local] Hint Resolve fail_line_triple ret_triple : boostlog.

Lemma set_section_name_triple n name : line_triple n (set_section_name name).
Proof.
  unfold set_section_name. destruct name as [|c t]; [apply fail_line_triple|].
  destruct (forallb _ _); [by apply modify_triple|apply fail_line_triple].
Qed.

Lemma set_parameter_name_triple n name : line_triple n (set_parameter_name name).
Proof.
  intros p Hp. unfold set_parameter_name. sm_step. destruct (m_SectionName p); [by apply fail_line_triple|].
  destruct name as [|c t]; [by apply fail_line_triple|].
  destruct (_ && _); [by apply modify_triple|by apply fail_line_triple].
Qed.

Lemma end_of_line_triple n s : line_triple n (end_of_line s).
Proof. unfold end_of_line. destruct (trim_spaces_left s) as [|c t]; [auto with boostlog|]. destruct (is_char _ c); auto with boostlog. Qed.

Lemma parse_line_triple n l : no_octal l → line_triple n (parse_line l).
Proof.
  intros Hn. unfold parse_line. pose proof (trim_left_suffix l) as Hs.
  destruct (trim_spaces_left l) as [|c t]; [auto with boostlog|].
  destruct (is_char char_section_bracket_left c).
  { cbv zeta. destruct (drop _ _); [auto with boostlog|].
    apply bind_triple; [apply set_section_name_triple|]. intros _. apply end_of_line_triple. }
  destruct (is_char char_comment c); [apply end_of_line_triple|]. cbv zeta.
  destruct (drop (find_pos (is_char char_equal) (c :: t)) (c :: t)) as [|e rest] eqn:Ed; [auto with boostlog|].
  apply bind_triple; [apply set_parameter_name_triple|]. intros _.
  pose proof (trim_left_suffix rest) as Hr. destruct (trim_spaces_left rest) as [|d v]; [auto with boostlog|].
  destruct (is_char char_comment d); [auto with boostlog|].
  assert (no_octal (d :: v)) as Hv.
  { eapply no_octal_suffix; [|exact Hn]. etrans; [exact Hr|]. etrans; [|exact Hs].
    exists (take (find_pos (is_char char_equal) (c :: t)) (c :: t) ++ [e]).
    rewrite <-(assoc_L (++)). cbn [app]. by rewrite <-Ed, take_drop. }
  pose proof (parse_operand_total (d :: v) Hv) as Ho.
  destruct (parse_operand (d :: v)) as [[value rest']|x|]; [|rewrite Ho; auto with boostlog|done].
  apply bind_triple; [|intros _; apply end_of_line_triple]. unfold set_parameter_value.
  apply bind_triple; [by apply modify_triple|]. intros _. by apply modify_triple.
Qed.

Lemma parse_lines_total ls : ∀ p, Forall no_octal ls →
  match parse_lines ls p with
  | (Ok _, _) => True
  | (Throw e, _) => ∃ n, e = ex_parse_error n ∧ m_LineCounter p ≤ n < m_LineCounter p + length ls
  | (Stuck, _) => False
  end.
Proof.
  induction ls as [|l ls IH]; intros p Hn; [done|]. apply Forall_cons in Hn as [Hl Hn]. cbn [parse_lines length].
  pose proof (parse_line_triple (m_LineCounter p) l Hl p eq_refl) as H. rewrite sm_bind_run.
  destruct (parse_line l p) as [[[]|e|] p1]; [|exists (m_LineCounter p); split; [done|lia]|done].
  sm_step. specialize (IH (next_line p1) Hn). destruct (parse_lines ls (next_line p1)) as [[u|e|] p2]; [done| |done].
  destruct IH as (n & -> & Hle). exists n. split; [done|]. cbn in Hle. lia.
Qed.

Lemma split_lines_prefix s l ls : split_lines s = l :: ls → l `prefix_of` s.
Proof.
  revert l ls. induction s as [|c s IH]; intros l ls; cbn; [by intros [= <- <-]|].
  destruct (split_lines s) as [|l' ls']; [done|].
  destruct (is_char _ c); intros [= <- <-]; [apply prefix_nil|]. apply prefix_cons. by eapply IH.
Qed.

Lemma split_lines_no_octal s : no_octal s → Forall no_octal (split_lines s).
Proof.
  induction s as [|c s IH]; intros Hn; [by repeat constructor|]. specialize (IH (no_octal_tail c s Hn)).
  pose proof (split_lines_prefix s) as Hp. cbn. destruct (split_lines s) as [|l ls]; [done|].
  apply Forall_cons in IH as [Hl Hls]. destruct (is_char _ c); [by repeat constructor|]. constructor; [|done].
  destruct (Hp l ls eq_refl) as [k ->]. by apply (no_octal_prefix (c :: l) k).
Qed.

Lemma trim_right_cons c s : isspace c = false → trim_spaces_right (c :: s) = c :: trim_spaces_right s.
Proof. intros H. cbn. rewrite H. by destruct (trim_spaces_right s). Qed.

(** The line "[Sink:" with anything behind it. *)
Lemma legacy_line l p : parse_line (str_lit "[Sink:" ++ l) p = (Throw (ex_parse_error (m_LineCounter p)), p).
Proof.
  unfold parse_line. cbn [str_lit list_ascii_of_string app]. rewrite trim_left_id by done. cbn [is_char].
  rewrite is_char_refl. rewrite (trim_left_id "S") by done. cbv zeta.
  assert (find_pos (is_char char_section_bracket_right) (sink_prefix ++ l) =
    5 + find_pos (is_char char_section_bracket_right) l)%nat as Hf by done.
  cbn [sink_prefix str_lit list_ascii_of_string app] in Hf. rewrite Hf. cbn [Nat.add take drop].
  destruct (drop _ l) as [|e rest]; [done|]. rewrite !trim_right_cons by done. done.
Qed.

Lemma legacy_section text : parse_settings true (str_lit "[Sink:" ++ text) = Throw (ex_parse_error 1).
Proof.
  unfold parse_settings. assert (∃ l ls, split_lines (str_lit "[Sink:" ++ text) = (str_lit "[Sink:" ++ l) :: ls) as (l & ls & ->).
  { destruct (split_lines text) as [|l ls] eqn:E; [by apply split_lines_ne in E|]. exists l, ls. cbn. by rewrite E. }
  cbn [parse_lines]. by rewrite sm_bind_run, legacy_line.
Qed.

(** Errors in settings files. For every text without octal escapes the parser
    ends, and it returns settings or reports the number of a line of the text.
    Section headers of the form "[Sink:...]", which are documented as accepted
    for compatibility, are always rejected. *)
Theorem settings_errors text :
  (no_octal text →
   match parse_settings true text with
   | Ok _ => True
   | Throw e => ∃ n, e = ex_parse_error n ∧ 1 ≤ n ≤ length (split_lines text)
   | Stuck => False
   end) ∧
  parse_settings true (str_lit "[Sink:" ++ text) = Throw (ex_parse_error 1).
Proof.
  split; [|apply legacy_section].
  intros Hn. unfold parse_settings.
  pose proof (parse_lines_total (split_lines text) (Parser [] [] empty_ptree 1) (split_lines_no_octal _ Hn)) as H.
  destruct (parse_lines _ _) as [[u|e|] p]; cbn in *; [done| |done].
  destruct H as (n & -> & Hle). exists n. split; [done|lia].
Qed.

End settings.

(** * An example *)

Module sample_settings.

(** A tree as the list of its assignments, the newest first. *)
Fixpoint lookup_path (p : list str) (t : list (list str * str)) : option str :=
  match t with
  | [] => None
  | (q, v) :: t => if bool_decide (q = p) then Some v else lookup_path p t
  end.

#[export] Program Instance path_list : PropertyTree :=
  {| ptree := list (list str * str); empty_ptree := []; put := λ p v t, (p, v) :: t; get_optional := lookup_path |}.
Next Obligation. intros p v t. cbn. by rewrite bool_decide_true. Qed.
Next Obligation. intros p q v w t Hq H. cbn. by rewrite bool_decide_false. Qed.

Definition sp : str := [" "].

(** A file with a comment, a header and two values of one parameter. *)
Definition file : list line :=
  [ l_blank [] (Some (str_lit " sinks"));
    l_section sp [] (str_lit "Sinks.File") [] sp None;
    l_param [] (str_lit "FileName") sp sp (v_word (str_lit "a.log")) sp (Some (str_lit "old"));
    l_blank sp None;
    l_param sp (str_lit "FileName") [] [] (v_quoted (str_lit "b c\d.log")) [] None ].

Lemma file_valid : file_ok [] file.
Proof. repeat (split || constructor); try done; by vm_compute. Qed.

Lemma settings_roundtrip_witness :
  ∃ t, parse_settings true (join_lines (render_line <$> file)) = Ok t ∧
    get_optional [str_lit "Sinks"; str_lit "File"; str_lit "FileName"] t = Some (str_lit "b c\d.log").
Proof.
  destruct (settings_roundtrip file file_valid) as (t & E & H). exists t. split; [exact E|].
  apply H. vm_compute. reflexivity.
Defined.

Lemma settings_errors_witness :
  parse_settings true (str_lit "[Sink:File]") = Throw (ex_parse_error 1) ∧
  (∃ n, parse_settings true (str_lit "[A] x") = Throw (ex_parse_error n) ∧ 1 ≤ n ≤ 1).
Proof.
  split; [exact (proj2 (settings_errors (str_lit "File]")))|].
  pose proof (proj1 (settings_errors (str_lit "[A] x")) I) as H. vm_compute in H.
  destruct H as (n & [= <-] & H). exists 1. split; [reflexivity|]. lia.
Defined.

End sample_settings.
