(* ===== verification/FilterParser.v ===== *)
(** The parser of filters (src/src/setup/filter_parser.cpp): conditions on
    attributes, their negation, conjunction and disjunction, with parentheses.

    The relations themselves are made by the filter factories that are
    registered for the attributes; they are a parameter. *)

From Stdlib Require Import ZArith Ascii String.
From stdpp Require Import base numbers list.
From S2P Require Import Prelude ParserUtils.

Local Open Scope char_scope.

(** * Factories *)

Inductive relation := equality | inequality | greater | less | greater_or_equal | less_or_equal.

(** The factory of an attribute: the virtual functions of [filter_factory], for
    the attribute name. A filter is a predicate on the attribute values of
    a record. *)
Class FilterFactories (values : Type) := {
  on_exists_test : str → outcome (values → bool);
  on_relation : relation → str → str → outcome (values → bool);
  on_custom_relation : str → str → str → outcome (values → bool) }.

Section filter_parser.
Context {values : Type} `{FF : !FilterFactories values}.

Abbreviation filter_fn := (values → bool).

(** * The parser *)

Record parser := Parser {
  m_AttributeName : option str;
  m_Operand : option str;
  m_ComparisonRelation : option relation;
  m_CustomRelation : str;
  m_Subexpressions : list filter_fn }.

Definition new_parser : parser := Parser None None None [] [].

Definition set_attribute (a : option str) (p : parser) : parser :=
  Parser a (m_Operand p) (m_ComparisonRelation p) (m_CustomRelation p) (m_Subexpressions p).
Definition set_operand (o : option str) (p : parser) : parser :=
  Parser (m_AttributeName p) o (m_ComparisonRelation p) (m_CustomRelation p) (m_Subexpressions p).
Definition set_relation (r : option relation) (p : parser) : parser :=
  Parser (m_AttributeName p) (m_Operand p) r (m_CustomRelation p) (m_Subexpressions p).
Definition set_custom (c : str) (p : parser) : parser :=
  Parser (m_AttributeName p) (m_Operand p) (m_ComparisonRelation p) c (m_Subexpressions p).
Definition set_subexpressions (l : list filter_fn) (p : parser) : parser :=
  Parser (m_AttributeName p) (m_Operand p) (m_ComparisonRelation p) (m_CustomRelation p) l.
Definition push (f : filter_fn) (p : parser) : parser := set_subexpressions (f :: m_Subexpressions p) p.

(** [BOOST_LOG_THROW_DESCR(parse_error, ...)]. *)
Definition fail {X} : sm parser X := sm_throw (ex_parse_error 0).

(** [scan_keyword]: a keyword and a space behind it; the rest starts with the
    space. *)
Fixpoint scan_keyword (s : str) (keyword : str) : option str :=
  match s with
  | [] => None
  | c1 :: t =>
      match keyword with
      | [] => if isspace c1 then Some s else None
      | c2 :: keyword => if is_char c2 c1 then scan_keyword t keyword else None
      end
  end.

Definition not_keyword : str := str_lit "not".
Definition and_keyword : str := str_lit "and".
Definition or_keyword : str := str_lit "or".
Definition equal_keyword : str := str_lit "=".
Definition not_equal_keyword : str := str_lit "!=".
Definition greater_keyword : str := str_lit ">".
Definition less_keyword : str := str_lit "<".
Definition greater_or_equal_keyword : str := str_lit ">=".
Definition less_or_equal_keyword : str := str_lit "<=".

(** The empty name is not a name. *)
Definition on_attribute_name (name : str) : sm parser unit :=
  match name with
  | [] => fail
  | _ => sm_modify (set_attribute (Some name))
  end.

(** The factory may throw; the assertions are undefined behaviour. *)
Definition on_relation_complete : sm parser unit :=
  p ← sm_get;
  match m_AttributeName p with
  | Some name =>
      (match m_Operand p with
       | Some operand =>
           match m_ComparisonRelation p with
           | Some r => f ← sm_lift (on_relation r name operand); sm_modify (push f);; sm_modify (set_relation None)
           | None =>
               match m_CustomRelation p with
               | [] => sm_lift Stuck
               | custom => f ← sm_lift (on_custom_relation custom name operand); sm_modify (push f);; sm_modify (set_custom [])
               end
           end;;
           sm_modify (set_operand None)
       | None =>
           match m_ComparisonRelation p, m_CustomRelation p with
           | None, [] => f ← sm_lift (on_exists_test name); sm_modify (push f)
           | _, _ => sm_lift Stuck
           end
       end);;
      sm_modify (set_attribute None)
  | None => sm_lift Stuck
  end.

Definition on_negation : sm parser unit :=
  p ← sm_get;
  match m_Subexpressions p with
  | f :: fs => sm_modify (set_subexpressions ((λ v, negb (f v)) :: fs))
  | [] => fail
  end.

Definition on_and : sm parser unit :=
  p ← sm_get;
  match m_Subexpressions p with
  | r :: l :: fs => sm_modify (set_subexpressions ((λ v, l v && r v) :: fs))
  | _ => fail
  end.

Definition on_or : sm parser unit :=
  p ← sm_get;
  match m_Subexpressions p with
  | r :: l :: fs => sm_modify (set_subexpressions ((λ v, l v || r v) :: fs))
  | _ => fail
  end.

(** The comparison keyword at the beginning of [s], tried in the order of the
    code, and what follows it. *)
Definition scan_relation (s : str) : option (relation * str) :=
  match scan_keyword s equal_keyword with Some t => Some (equality, t) | None =>
  match scan_keyword s not_equal_keyword with Some t => Some (inequality, t) | None =>
  match scan_keyword s greater_keyword with Some t => Some (greater, t) | None =>
  match scan_keyword s less_keyword with Some t => Some (less, t) | None =>
  match scan_keyword s greater_or_equal_keyword with Some t => Some (greater_or_equal, t) | None =>
  match scan_keyword s less_or_equal_keyword with Some t => Some (less_or_equal, t) | None => None
  end end end end end end.

(** The operand of a relation. *)
Definition relation_operand (next : str) : sm parser str :=
  ' (operand, rest) ← sm_lift (parse_operand (trim_spaces_left next));
  sm_modify (set_operand (Some operand));; mret rest.

(** [parse_relation]; the result is what follows. *)
Definition parse_relation (s : str) : sm parser str :=
  rest ←
    match s with
    | [] => mret []
    | _ =>
        match scan_relation s with
        | Some (r, next) => sm_modify (set_relation (Some r));; relation_operand next
        | None =>
            let '(custom, next) := scan_while is_name_char s in
            match custom with
            | [] => mret s
            | _ => sm_modify (set_custom custom);; relation_operand next
            end
        end
    end;
  on_relation_complete;; mret rest.

(** An attribute placeholder behind its first percent sign. *)
Definition parse_placeholder (next : str) : sm parser str :=
  let '(name, p) := scan_attr_placeholder (trim_spaces_left next) in
  match p with
  | [] => fail
  | _ =>
      on_attribute_name name;;
      match trim_spaces_left p with
      | c :: p => if is_char char_percent c then mret (trim_spaces_left p) else fail
      | [] => fail
      end
  end.

Inductive logical_op := op_and | op_or.

Definition run_op (op : option logical_op) : sm parser unit :=
  match op with
  | Some op_and => on_and
  | Some op_or => on_or
  | None => mret ()
  end.

(** The logical operation at the beginning of [s]. *)
Definition scan_op (s : str) : option (logical_op * str) :=
  match s with
  | [] => None
  | c :: t =>
      if is_char char_and c then Some (op_and, t) else
      match scan_keyword s and_keyword with
      | Some next => Some (op_and, next)
      | None =>
          if is_char char_or c then Some (op_or, t) else
          match scan_keyword s or_keyword with
          | Some next => Some (op_or, next)
          | None => None
          end
      end
  end.

(** The end of [parse]. *)
Definition end_of_parse (depth : nat) (s : str) : sm parser str :=
  match s with
  | [] => if (0 <? depth)%nat then fail else mret []
  | _ => mret s
  end.

(** What [parse] does behind a subexpression; [again] is its loop. *)
Definition parse_operator (again : option logical_op → str → sm parser str) (depth : nat) (s : str) : sm parser str :=
  match trim_spaces_left s with
  | [] => end_of_parse depth []
  | (c :: next) as p =>
      if is_char char_paren_bracket_right c then
        match depth with
        | O => fail
        | S depth => end_of_parse depth next
        end
      else
        match scan_op p with
        | Some (op, next) => again (Some op) (trim_spaces_left next)
        | None => fail
        end
  end.

(** [parse] from the head of its loop on, and [parse_subexpression]; [pending]
    is the operation in front of [s], and [negated] and [negation_present] are
    the local variables of the code. *)
Fixpoint parse (fuel : nat) (depth : nat) (pending : option logical_op) (s : str) : sm parser str :=
  match s with
  | [] => match pending with Some _ => fail | None => end_of_parse depth [] end
  | _ =>
      match fuel with
      | O => sm_lift Stuck
      | S fuel =>
          p ← parse_subexpression fuel depth false false s;
          run_op pending;;
          parse_operator (parse fuel depth) depth p
      end
  end
with parse_subexpression (fuel : nat) (depth : nat) (negated negation_present : bool) (s : str) : sm parser str :=
  match s with
  | [] => if negation_present then fail else mret []
  | c :: next =>
      match fuel with
      | O => sm_lift Stuck
      | S fuel =>
          if is_char char_percent c then
            p ← parse_placeholder next;
            p ← (if negation_present then on_relation_complete;; mret p else parse_relation p);
            (if negated then on_negation else mret ());; mret p
          else
            match (if is_char char_exclamation c then Some next else scan_keyword s not_keyword) with
            | Some next => parse_subexpression fuel depth (negb negated) true (trim_spaces_left next)
            | None =>
                if is_char char_paren_bracket_left c then
                  p ← parse fuel (S depth) None (trim_spaces_left next);
                  (if negated then on_negation else mret ());; mret p
                else fail
            end
      end
  end.

(** [parse_filter]; the default filter accepts everything. *)
Definition parse_filter (s : str) : outcome filter_fn :=
  let s' := trim_spaces_left s in
  let (r, p) := parse (2 * length s' + 1) 0 None s' new_parser in
  let* _ := r in
  match m_Subexpressions p with
  | f :: _ => Ok f
  | [] => Ok (λ _, true)
  end.

(** * Filter expressions *)

Inductive expr :=
  | e_exists (name : str)
  | e_rel (name : str) (r : relation) (operand : str)
  | e_custom (name custom operand : str)
  | e_not (e : expr)
  | e_and (a b : expr)
  | e_or (a b : expr).

(** What an expression means, with the factories called from left to right. *)
Fixpoint eval (e : expr) : outcome filter_fn :=
  match e with
  | e_exists name => on_exists_test name
  | e_rel name r operand => on_relation r name operand
  | e_custom name custom operand => on_custom_relation custom name operand
  | e_not e => let* f := eval e in Ok (λ v, negb (f v))
  | e_and a b => let* f := eval a in let* g := eval b in Ok (λ v, f v && g v)
  | e_or a b => let* f := eval a in let* g := eval b in Ok (λ v, f v || g v)
  end.

Definition keyword (r : relation) : str :=
  match r with
  | equality => equal_keyword
  | inequality => not_equal_keyword
  | greater => greater_keyword
  | less => less_keyword
  | greater_or_equal => greater_or_equal_keyword
  | less_or_equal => less_or_equal_keyword
  end.

Definition placeholder (name : str) : str := char_percent :: name ++ [char_percent].
Definition space : str := [" "].
Definition parens (s : str) : str := char_paren_bracket_left :: s ++ [char_paren_bracket_right].

(** The text of an expression. Operations of both kinds associate to the left
    and need no parentheses there; a right operand that is an operation, and an
    operand of the negation other than a presence test, are in parentheses. *)
Fixpoint print (e : expr) : str :=
  match e with
  | e_exists name => placeholder name
  | e_rel name r operand => placeholder name ++ space ++ keyword r ++ space ++ quoted operand
  | e_custom name custom operand => placeholder name ++ space ++ custom ++ space ++ quoted operand
  | e_not (e_exists name) => char_exclamation :: placeholder name
  | e_not e => char_exclamation :: parens (print e)
  | e_and a b => print a ++ space ++ char_and :: space ++ (match b with e_and _ _ | e_or _ _ => parens (print b) | _ => print b end)
  | e_or a b => print a ++ space ++ char_or :: space ++ (match b with e_and _ _ | e_or _ _ => parens (print b) | _ => print b end)
  end.

Definition name_ok (name : str) : Prop := name ≠ [] ∧ Forall (λ c, is_name_char c) name.

Fixpoint expr_ok (e : expr) : Prop :=
  match e with
  | e_exists name => name_ok name
  | e_rel name _ _ => name_ok name
  | e_custom name custom _ => name_ok name ∧ name_ok custom
  | e_not e => expr_ok e
  | e_and a b => expr_ok a ∧ expr_ok b
  | e_or a b => expr_ok a ∧ expr_ok b
  end.

(** ** Conditions *)

(** A parser between conditions. *)
Definition ready (fs : list filter_fn) : parser := Parser None None None [] fs.

(** A run that pushes the filter [o], if there is one, and leaves [rest]. *)
Definition pushes (o : outcome filter_fn) (fs : list filter_fn) (rest : str) (r : outcome str * parser) : Prop :=
  match o with
  | Ok f => ∃ rest', r = (Ok rest', ready (f :: fs)) ∧ trim_spaces_left rest' = trim_spaces_left rest
  | Throw x => ∃ p, r = (Throw x, p)
  | Stuck => ∃ p, r = (Stuck, p)
  end.

Lemma name_char_plain c : is_name_char c → isspace c = false ∧ is_char char_percent c = false ∧
  is_char "=" c = false ∧ is_char "!" c = false ∧ is_char ">" c = false ∧ is_char "<" c = false.
Proof. destruct c as [[] [] [] [] [] [] [] []]; vm_compute; done. Qed.

Lemma parse_placeholder_ok name rest fs : name_ok name →
  parse_placeholder (name ++ char_percent :: rest) (ready fs) =
  (Ok (trim_spaces_left rest), Parser (Some name) None None [] fs).
Proof.
  intros [Hne Hn]. unfold parse_placeholder, scan_attr_placeholder.
  assert (trim_spaces_left (name ++ char_percent :: rest) = name ++ char_percent :: rest) as ->.
  { destruct Hn as [|c t Hc _]; [done|]. apply trim_left_id. by apply name_char_plain. }
  rewrite scan_while_app by (done || by intros c t [= <- <-]). unfold on_attribute_name.
  destruct name as [|c t] eqn:E; [done|]. rewrite <-E. sm_step. rewrite trim_left_id by done.
  by rewrite is_char_refl.
Qed.

(** What may follow a presence test: nothing that looks like a relation. *)
Definition ends_condition (rest : str) : Prop :=
  ∀ c t, trim_spaces_left rest = c :: t →
    is_name_char c = false ∧ is_char "=" c = false ∧ is_char "!" c = false ∧ is_char ">" c = false ∧ is_char "<" c = false.

Lemma relation_complete_exists name fs s :
  pushes (on_exists_test name) fs s ((on_relation_complete;; mret (trim_spaces_left s)) (Parser (Some name) None None [] fs)).
Proof.
  unfold pushes. rewrite sm_bind_run. unfold on_relation_complete. sm_step. cbn [m_AttributeName m_Operand m_ComparisonRelation m_CustomRelation].
  rewrite !sm_bind_run. cbn [sm_lift]. destruct (on_exists_test name) as [f|x|]; [|by eexists..].
  exists (trim_spaces_left s). split; [done|]. apply trim_left_idem.
Qed.

Lemma parse_relation_none name fs s : ends_condition s →
  pushes (on_exists_test name) fs s (parse_relation (trim_spaces_left s) (Parser (Some name) None None [] fs)).
Proof.
  intros He. unfold parse_relation.
  assert ((match trim_spaces_left s with
           | [] => mret []
           | _ => match scan_relation (trim_spaces_left s) with
                  | Some (r, next) => sm_modify (set_relation (Some r));; relation_operand next
                  | None => let '(custom, next) := scan_while is_name_char (trim_spaces_left s) in
                            match custom with
                            | [] => mret (trim_spaces_left s)
                            | _ => sm_modify (set_custom custom);; relation_operand next
                            end
                  end
           end : sm parser str) = mret (trim_spaces_left s)) as ->.
  { destruct (trim_spaces_left s) as [|c t] eqn:E; [done|]. destruct (He c t E) as (Hn & H1 & H2 & H3 & H4).
    unfold scan_relation, scan_keyword. cbn. rewrite H1, H2, H3, H4, Hn. done. }
  sm_step. apply relation_complete_exists.
Qed.

Lemma relation_operand_ok operand rest p :
  relation_operand (space ++ quoted operand ++ rest) p = (Ok rest, set_operand (Some operand) p).
Proof.
  unfold relation_operand. assert (trim_spaces_left (space ++ quoted operand ++ rest) = quoted operand ++ rest) as -> by done.
  by rewrite parse_operand_quoted.
Qed.

Lemma scan_keyword_relation r s : scan_relation (keyword r ++ space ++ s) = Some (r, space ++ s).
Proof. by destruct r. Qed.

Lemma parse_relation_ok name r operand rest fs :
  pushes (on_relation r name operand) fs rest
    (parse_relation (keyword r ++ space ++ quoted operand ++ rest) (Parser (Some name) None None [] fs)).
Proof.
  unfold parse_relation. destruct (keyword r ++ space ++ quoted operand ++ rest) as [|c t] eqn:E; [by destruct r|].
  rewrite <-E, scan_keyword_relation. rewrite sm_bind_run. sm_step. rewrite relation_operand_ok.
  unfold pushes, on_relation_complete. rewrite sm_bind_run. sm_step. cbn.
  unfold mbind, sm_bind. cbn. destruct (on_relation r name operand) as [f|x|]; [|by eexists..]. by exists rest.
Qed.

Lemma parse_custom_ok name custom text operand rest fs : name_ok custom →
  parse_operand (trim_spaces_left text) = Ok (operand, rest) →
  pushes (on_custom_relation custom name operand) fs rest
    (parse_relation (custom ++ space ++ text) (Parser (Some name) None None [] fs)).
Proof.
  intros [Hne Hc] Hop. unfold parse_relation. destruct custom as [|c t]; [done|].
  assert (scan_relation ((c :: t) ++ space ++ text) = None) as Hr.
  { apply Forall_cons in Hc as [(_ & _ & H1 & H2 & H3 & H4)%name_char_plain _].
    unfold scan_relation, scan_keyword. cbn. by rewrite H1, H2, H3, H4. }
  cbn [app] in *. rewrite Hr. pose proof (scan_while_app is_name_char (c :: t) (space ++ text) Hc) as Hs.
  cbn [app] in Hs. cbn [app]. rewrite Hs by (intros d u [= <- <-]; done).
  rewrite sm_bind_run. sm_step. unfold relation_operand. rewrite sm_bind_run.
  assert (trim_spaces_left (space ++ text) = trim_spaces_left text) as -> by done. rewrite Hop.
  unfold pushes, on_relation_complete. cbn.
  unfold mbind, sm_bind. cbn. destruct (on_custom_relation (c :: t) name operand) as [f|x|]; [|by eexists..]. by exists rest.
Qed.

(** ** Subexpressions *)

Definition negate (neg : bool) (o : outcome filter_fn) : outcome filter_fn :=
  if neg then let* f := o in Ok (λ v, negb (f v)) else o.

Lemma pushes_negate (neg : bool) o fs rest (m : sm parser str) p :
  pushes o fs rest (m p) →
  pushes (negate neg o) fs rest ((p ← m; (if neg then on_negation else mret ());; mret p) p).
Proof.
  unfold pushes. rewrite sm_bind_run. destruct o as [f|x|]; cbn [negate obind].
  - intros (rest' & -> & Hr). destruct neg; exists rest'; (split; [done|exact Hr]).
  - intros (p' & ->). destruct neg; by exists p'.
  - intros (p' & ->). destruct neg; by exists p'.
Qed.

(** A condition in the text, possibly negated. *)
Lemma parse_condition fuel depth name s rest fs o (neg present : bool) :
  name_ok name →
  pushes o fs rest ((if present then on_relation_complete;; mret (trim_spaces_left s)
                     else parse_relation (trim_spaces_left s)) (Parser (Some name) None None [] fs)) →
  pushes (negate neg o) fs rest (parse_subexpression (S fuel) depth neg present (placeholder name ++ s) (ready fs)).
Proof.
  intros Hn H. unfold placeholder. cbn [app parse_subexpression]. rewrite is_char_refl.
  rewrite <-(assoc_L (++)). cbn [app]. rewrite sm_bind_run, parse_placeholder_ok by done.
  by apply (pushes_negate neg o fs rest (if present then _ else _)).
Qed.

(** An expression in parentheses, from the run of [parse] on what is between
    them. *)
Lemma parse_parens fuel depth s rest fs o (neg present : bool) :
  trim_spaces_left s = s → (rest = [] → depth = 0) →
  match o with
  | Ok f => ∃ again, parse fuel (S depth) None (s ++ char_paren_bracket_right :: rest) (ready fs) =
              parse_operator again (S depth) (char_paren_bracket_right :: rest) (ready (f :: fs))
  | Throw x => ∃ p, parse fuel (S depth) None (s ++ char_paren_bracket_right :: rest) (ready fs) = (Throw x, p)
  | Stuck => ∃ p, parse fuel (S depth) None (s ++ char_paren_bracket_right :: rest) (ready fs) = (Stuck, p)
  end → s ≠ [] →
  pushes (negate neg o) fs rest (parse_subexpression (S fuel) depth neg present (parens s ++ rest) (ready fs)).
Proof.
  intros Hs Hd H Hne. unfold parens. cbn [app parse_subexpression]. rewrite <-(assoc_L (++)). cbn [app].
  cbn [is_char]. assert (is_char char_percent char_paren_bracket_left = false) as -> by done.
  assert (is_char char_exclamation char_paren_bracket_left = false) as -> by done.
  assert (scan_keyword (char_paren_bracket_left :: s ++ char_paren_bracket_right :: rest) not_keyword = None) as -> by done.
  rewrite is_char_refl.
  assert (trim_spaces_left (s ++ char_paren_bracket_right :: rest) = s ++ char_paren_bracket_right :: rest) as ->.
  { destruct s as [|c t]; [done|]. cbn [app]. apply trim_left_id. by eapply (trim_left_head (c :: t)). }
  apply (pushes_negate neg o). unfold pushes. destruct o as [f|x|]; [|done..].
  destruct H as (again & ->). exists rest. split; [|done]. unfold parse_operator. rewrite trim_left_id by done.
  rewrite is_char_refl. unfold end_of_parse. destruct rest; [by rewrite (Hd eq_refl)|done].
Qed.

(** ** Expressions *)

Definition unit_text (e : expr) : str :=
  match e with e_and _ _ | e_or _ _ => parens (print e) | _ => print e end.

Definition op_char (op : logical_op) : ascii := match op with op_and => char_and | op_or => char_or end.

Definition combine (op : logical_op) (f g : filter_fn) : filter_fn :=
  match op with op_and => λ v, f v && g v | op_or => λ v, f v || g v end.

Lemma print_head e : ∃ c t, print e = c :: t ∧ isspace c = false.
Proof.
  induction e as [name|name r o|name cu o|e _|a [c [t [Ea Hc]]] b _|a [c [t [Ea Hc]]] b _]; cbn;
    try (by do 2 eexists; split); try (rewrite Ea; by do 2 eexists; split).
  destruct e; by do 2 eexists; split.
Qed.

Lemma print_trim e s : trim_spaces_left (print e ++ s) = print e ++ s.
Proof. destruct (print_head e) as (c & t & -> & Hc). by apply trim_left_id. Qed.

Lemma ends_operator op s : ends_condition (space ++ op_char op :: s).
Proof. intros c t. destruct op; cbn; by intros [= <- <-]. Qed.

Lemma ends_paren s : ends_condition (char_paren_bracket_right :: s).
Proof. intros c t. cbn. by intros [= <- <-]. Qed.

Lemma parse_operator_trim again depth s s' :
  trim_spaces_left s = trim_spaces_left s' → parse_operator again depth s = parse_operator again depth s'.
Proof. intros E. unfold parse_operator. by rewrite E. Qed.

(** The operation between two operands. *)
Lemma parse_operator_op again depth op s p :
  parse_operator again depth (space ++ op_char op :: space ++ s) p = again (Some op) (trim_spaces_left s) p.
Proof. by destruct op. Qed.

(** A run of the loop of [parse] that pushes the filter [o] and goes on at
    [rest], with fuel for it. *)
Definition continues (o : outcome filter_fn) (depth : nat) (fs : list filter_fn) (rest : str)
    (r : outcome str * parser) : Prop :=
  match o with
  | Ok f => ∃ fuel, 2 * length rest ≤ fuel ∧ r = parse_operator (parse fuel depth) depth rest (ready (f :: fs))
  | Throw x => ∃ p, r = (Throw x, p)
  | Stuck => ∃ p, r = (Stuck, p)
  end.

Definition unit_ok (e : expr) : Prop := ∀ fuel depth rest fs,
  2 * length (unit_text e ++ rest) ≤ fuel → (rest = [] → depth = 0) → ends_condition rest →
  pushes (eval e) fs rest (parse_subexpression fuel depth false false (unit_text e ++ rest) (ready fs)).

Definition chain_ok (e : expr) : Prop := ∀ fuel depth rest fs,
  2 * length (print e ++ rest) + 1 ≤ fuel → (rest = [] → depth = 0) → ends_condition rest →
  continues (eval e) depth fs rest (parse fuel depth None (print e ++ rest) (ready fs)).

Lemma unit_head e s : ∃ c t, unit_text e ++ s = c :: t.
Proof. destruct (print_head e) as (c & t & E & _). destruct e; cbn [unit_text]; rewrite ?E; by do 2 eexists. Qed.

(** One pass of the loop of [parse]; [h] is the effect of the pending operation. *)
Lemma unit_continues e pending h fuel depth rest fs0 fs : unit_ok e →
  (∀ f, run_op pending (ready (f :: fs0)) = (Ok (), ready (h f :: fs))) →
  2 * length (unit_text e ++ rest) + 1 ≤ fuel → (rest = [] → depth = 0) → ends_condition rest →
  continues (let* f := eval e in Ok (h f)) depth fs rest (parse fuel depth pending (unit_text e ++ rest) (ready fs0)).
Proof.
  intros Hu Hop Hf Hd He. destruct fuel as [|fuel]; [lia|]. destruct (unit_head e rest) as (c & t & E).
  specialize (Hu fuel depth rest fs0 ltac:(lia) Hd He). rewrite E in *. cbn [parse].
  rewrite sm_bind_run. unfold pushes in Hu. destruct (eval e) as [f|x|]; cbn [obind continues].
  - destruct Hu as (rest' & -> & Hr). exists fuel. split.
    + assert (length rest ≤ length (c :: t)) by (rewrite <-E, length_app; lia). cbn in Hf, H |- *. lia.
    + rewrite (parse_operator_trim _ _ _ _ Hr). by rewrite sm_bind_run, Hop.
  - by destruct Hu as (p & ->); exists p.
  - by destruct Hu as (p & ->); exists p.
Qed.

(** An expression that is a unit, on its own. *)
Lemma unit_chain e : unit_text e = print e → unit_ok e → chain_ok e.
Proof.
  intros Et Hu fuel depth rest fs Hf Hd He. rewrite <-Et in *.
  pose proof (unit_continues e None (λ f, f) fuel depth rest fs fs Hu ltac:(done) Hf Hd He) as H.
  by destruct (eval e).
Qed.

(** The right operand of an operation, behind the left one. *)
Lemma binary_chain a b op : chain_ok a → unit_ok b → ∀ fuel depth rest fs,
  let text := print a ++ space ++ op_char op :: space ++ unit_text b in
  2 * length (text ++ rest) + 1 ≤ fuel → (rest = [] → depth = 0) → ends_condition rest →
  continues (let* f := eval a in let* g := eval b in Ok (combine op f g)) depth fs rest
    (parse fuel depth None (text ++ rest) (ready fs)).
Proof.
  intros Ha Hb fuel depth rest fs text Hf Hd He.
  assert (text ++ rest = print a ++ space ++ op_char op :: space ++ unit_text b ++ rest) as Et.
  { unfold text. rewrite <-(assoc_L (++)). cbn. by rewrite <-?(assoc_L (++)). }
  rewrite Et in *. specialize (Ha fuel depth _ fs Hf ltac:(done) (ends_operator op (space ++ unit_text b ++ rest))).
  unfold continues in Ha at 1. destruct (eval a) as [f|x|]; cbn [obind]; [|done..].
  destruct Ha as (fuel1 & Hf1 & ->). rewrite parse_operator_op.
  assert (trim_spaces_left (unit_text b ++ rest) = unit_text b ++ rest) as ->.
  { destruct (print_head b) as (c & t & E & Hc). destruct b; cbn [unit_text]; try apply print_trim; by apply trim_left_id. }
  apply (unit_continues b (Some op) (combine op f)); [done|by destruct op| |done|done].
  cbn in Hf1. lia.
Qed.

(** An expression in parentheses. *)
Lemma parens_unit e : chain_ok e → ∀ fuel depth rest fs (neg present : bool),
  2 * length (parens (print e) ++ rest) ≤ fuel → (rest = [] → depth = 0) →
  pushes (negate neg (eval e)) fs rest (parse_subexpression fuel depth neg present (parens (print e) ++ rest) (ready fs)).
Proof.
  intros Hc fuel depth rest fs neg present Hf Hd. destruct fuel as [|fuel]; [cbn in Hf; lia|].
  apply parse_parens; [rewrite <-(app_nil_r (print e)); apply print_trim|done| |].
  - unfold parens in Hf. cbn in Hf. rewrite !length_app in Hf. cbn in Hf.
    specialize (Hc fuel (S depth) (char_paren_bracket_right :: rest) fs). unfold continues in Hc.
    destruct (eval e) as [f|x|]; [|apply Hc; [rewrite length_app; cbn; lia|done|apply ends_paren]..].
    destruct Hc as (fuel' & _ & E); [rewrite length_app; cbn; lia|done|apply ends_paren|]. by eexists.
  - destruct (print_head e) as (c & t & -> & _). done.
Qed.

Lemma exists_unit name : name_ok name → unit_ok (e_exists name).
Proof.
  intros Hn fuel depth rest fs Hf Hd He. destruct fuel as [|fuel]; [cbn in Hf; lia|].
  apply (parse_condition fuel depth name rest rest fs (on_exists_test name) false false Hn).
  by apply parse_relation_none.
Qed.

Lemma rel_unit name r o : name_ok name → unit_ok (e_rel name r o).
Proof.
  intros Hn fuel depth rest fs Hf Hd He. destruct fuel as [|fuel]; [cbn in Hf; lia|].
  cbn [unit_text print]. rewrite <-!(assoc_L (++)).
  apply (parse_condition fuel depth name _ rest fs (on_relation r name o) false false Hn).
  assert (trim_spaces_left (space ++ keyword r ++ space ++ quoted o ++ rest) = keyword r ++ space ++ quoted o ++ rest) as ->
    by (by destruct r). apply parse_relation_ok.
Qed.

Lemma custom_unit name cu o : name_ok name → name_ok cu → unit_ok (e_custom name cu o).
Proof.
  intros Hn Hcu fuel depth rest fs Hf Hd He. destruct fuel as [|fuel]; [cbn in Hf; lia|].
  cbn [unit_text print]. rewrite <-!(assoc_L (++)).
  apply (parse_condition fuel depth name _ rest fs (on_custom_relation cu name o) false false Hn).
  assert (trim_spaces_left (space ++ cu ++ space ++ quoted o ++ rest) = cu ++ space ++ quoted o ++ rest) as ->.
  { destruct Hcu as [? Hcu]. destruct Hcu as [|c t Hc _]; [done|]. apply (trim_left_id c). by apply name_char_plain. }
  apply parse_custom_ok; [done|]. unfold quoted. cbn [app]. rewrite trim_left_id by done. apply parse_operand_quoted.
Qed.

(** The negation sign. *)
Lemma parse_exclamation fuel depth c s p : isspace c = false →
  parse_subexpression (S fuel) depth false false (char_exclamation :: c :: s) p =
  parse_subexpression fuel depth true true (c :: s) p.
Proof. intros Hc. cbn [parse_subexpression]. by rewrite is_char_ne, is_char_refl, trim_left_id. Qed.

Lemma not_unit e : expr_ok e → chain_ok e → unit_ok (e_not e).
Proof.
  intros Hok Hc fuel depth rest fs Hf Hd He.
  destruct fuel as [|fuel]; [by destruct (unit_head (e_not e) rest) as (c & t & E); rewrite E in Hf; cbn in Hf; lia|].
  assert (∀ e, 2 * length ((char_exclamation :: parens (print e)) ++ rest) ≤ S fuel → chain_ok e →
    pushes (eval (e_not e)) fs rest
      (parse_subexpression (S fuel) depth false false ((char_exclamation :: parens (print e)) ++ rest) (ready fs))) as Hp.
  { intros e' Hf' Hc'. unfold parens at 1. cbn [app]. rewrite parse_exclamation by done.
    apply (parens_unit e' Hc' fuel depth rest fs true true); [cbn in Hf' |- *; lia|done]. }
  destruct e as [name| | | | |]; cbn [unit_text print] in *; [|by apply Hp..].
  destruct fuel as [|fuel]; [cbn in Hf; lia|]. unfold placeholder at 1. cbn [app]. rewrite parse_exclamation by done.
  apply (parse_condition fuel depth name rest rest fs (on_exists_test name) true true Hok).
  apply relation_complete_exists.
Qed.

Lemma expr_unit_chain e : expr_ok e → unit_ok e ∧ chain_ok e.
Proof.
  induction e as [name|name r o|name cu o|e IH|a IHa b IHb|a IHa b IHb]; cbn [expr_ok]; intros Hok.
  - assert (unit_ok (e_exists name)) by (by apply exists_unit). split; [done|by apply unit_chain].
  - assert (unit_ok (e_rel name r o)) by (by apply rel_unit). split; [done|by apply unit_chain].
  - assert (unit_ok (e_custom name cu o)) by (by apply custom_unit; apply Hok). split; [done|by apply unit_chain].
  - assert (unit_ok (e_not e)) by (apply not_unit; [done|by apply IH]). split; [done|by apply unit_chain].
  - destruct Hok as [Hoa Hob]. destruct (IHa Hoa) as [_ Hca], (IHb Hob) as [Hub _].
    assert (chain_ok (e_and a b)) as Hc by (exact (binary_chain a b op_and Hca Hub)).
    split; [|done]. intros fuel depth rest fs Hf Hd He. by apply (parens_unit (e_and a b) Hc fuel depth rest fs false false).
  - destruct Hok as [Hoa Hob]. destruct (IHa Hoa) as [_ Hca], (IHb Hob) as [Hub _].
    assert (chain_ok (e_or a b)) as Hc by (exact (binary_chain a b op_or Hca Hub)).
    split; [|done]. intros fuel depth rest fs Hf Hd He. by apply (parens_unit (e_or a b) Hc fuel depth rest fs false false).
Qed.

Lemma parse_print e : expr_ok e → parse_filter (print e) = eval e.
Proof.
  intros Hok. destruct (expr_unit_chain e Hok) as [_ Hc]. unfold parse_filter.
  pose proof (print_trim e []) as Ht. rewrite app_nil_r in Ht. rewrite Ht.
  specialize (Hc (2 * length (print e) + 1)%nat 0 [] []). rewrite !app_nil_r in Hc.
  specialize (Hc (le_n _) (λ _, eq_refl) ltac:(done)).
  change new_parser with (ready []). unfold continues in Hc. destruct (eval e) as [f|x|].
  - by destruct Hc as (fuel & _ & ->).
  - by destruct Hc as (p & ->).
  - by destruct Hc as (p & ->).
Qed.

(** C15: filters. The text of a filter expression is parsed into the filter that
    the expression means, with the factories called in the order of the
    conditions; an exception of a factory is passed on. Conjunction and
    disjunction have the same precedence and associate to the left. *)
Theorem filter_roundtrip e : expr_ok e → parse_filter (print e) = eval e.
Proof. apply parse_print. Qed.

Lemma name_char_word c : is_name_char c → is_word_char c.
Proof. destruct c as [[] [] [] [] [] [] [] []]; vm_compute; done. Qed.

Lemma keyword_rejected a b f : name_ok a → name_ok b →
  parse_filter (placeholder a ++ space ++ and_keyword ++ space ++ placeholder b) ≠ Ok f.
Proof.
  intros Ha Hb. unfold parse_filter.
  assert (trim_spaces_left (placeholder a ++ space ++ and_keyword ++ space ++ placeholder b) =
    placeholder a ++ space ++ and_keyword ++ space ++ placeholder b) as -> by (by apply trim_left_id).
  set (s := placeholder a ++ space ++ and_keyword ++ space ++ placeholder b).
  assert (∃ fuel, 2 * length s + 1 = S (S fuel))%nat as (fuel & ->) by (exists (2 * length s - 1)%nat; cbn; lia).
  change new_parser with (ready []).
  assert (parse (S (S fuel)) 0 None s = (p ← parse_subexpression (S fuel) 0 false false s;
    run_op None;; parse_operator (parse (S fuel) 0) 0 p)) as -> by done.
  rewrite sm_bind_run. unfold s.
  pose proof (parse_condition fuel 0 a (space ++ and_keyword ++ space ++ placeholder b) [char_percent] []
    (on_custom_relation and_keyword a (char_percent :: b)) false false Ha) as H.
  assert (∀ r : outcome str * parser, pushes (on_custom_relation and_keyword a (char_percent :: b)) [] [char_percent] r →
    (let (r, p) := match r with
                   | (Ok x, σ) => (run_op None;; parse_operator (parse (S fuel) 0) 0 x) σ
                   | (Throw e, σ) => (Throw e, σ)
                   | (Stuck, σ) => (Stuck, σ)
                   end in
     let* _ := r in match m_Subexpressions p with f :: _ => Ok f | [] => Ok (λ _, true) end) ≠ Ok f) as Hend.
  { intros r. unfold pushes. destruct (on_custom_relation _ _ _); [|by intros (p & ->)..].
    intros (rest & -> & Hr). rewrite sm_bind_run. cbn [run_op mret sm_ret]. unfold parse_operator. by rewrite Hr. }
  apply Hend, H, (parse_custom_ok a and_keyword (placeholder b)); [by split; repeat constructor|].
  unfold placeholder. rewrite trim_left_id by done. cbn [parse_operand]. rewrite is_char_ne by done.
  rewrite scan_while_app; [done| |by intros d u [= <- <-]].
  eapply Forall_impl; [apply Hb|]. apply name_char_word.
Qed.

(** A presence test in front of a keyword operation. The documentation allows
    "and" for "&", but behind an attribute alone the keyword is taken for the
    name of a custom relation, and the filter is rejected. *)
Theorem keyword_after_presence a b f : name_ok a → name_ok b →
  parse_filter (placeholder a ++ space ++ and_keyword ++ space ++ placeholder b) ≠ Ok f ∧
  parse_filter (placeholder a ++ space ++ [char_and] ++ space ++ placeholder b) =
    (let* f := on_exists_test a in let* g := on_exists_test b in Ok (λ v, f v && g v)).
Proof.
  intros Ha Hb. split; [by apply keyword_rejected|].
  exact (parse_print (e_and (e_exists a) (e_exists b)) (conj Ha Hb)).
Qed.

(** ** Every input *)

Section safety.
Context (exists_safe : ∀ name, on_exists_test name ≠ Stuck)
  (relation_safe : ∀ r name o, on_relation r name o ≠ Stuck)
  (custom_safe : ∀ c name o, on_custom_relation c name o ≠ Stuck).

Lemma relation_complete_safe name operand r custom fs :
  match operand with Some _ => r ≠ None ∨ custom ≠ [] | None => r = None ∧ custom = [] end →
  sm_safe (on_relation_complete (Parser (Some name) operand r custom fs)) (λ _ p, ∃ f,
    p = Parser None None None (match r, operand with None, Some _ => [] | _, _ => custom end) (f :: fs)).
Proof.
  intros H. unfold on_relation_complete. sm_step. cbn [m_AttributeName m_Operand m_ComparisonRelation m_CustomRelation].
  destruct operand as [o|].
  - rewrite sm_bind_run, sm_bind_run. destruct r as [r|].
    + rewrite sm_bind_run. cbn [sm_lift]. pose proof (relation_safe r name o).
      destruct (on_relation r name o); [cbn; by eexists|done|done].
    + destruct custom as [|c t]; [by destruct H|]. rewrite sm_bind_run. cbn [sm_lift].
      pose proof (custom_safe (c :: t) name o). destruct (on_custom_relation _ _ _); [cbn; by eexists|done|done].
  - destruct H as [-> ->]. rewrite sm_bind_run, sm_bind_run. cbn [sm_lift]. pose proof (exists_safe name).
    destruct (on_exists_test name); [cbn; by eexists|done|done].
Qed.

Lemma scan_keyword_suffix s kw t : scan_keyword s kw = Some t → t `suffix_of` s.
Proof.
  revert kw. induction s as [|c s IH]; intros [|k kw]; cbn; try done.
  - destruct (isspace c); [|done]. by intros [= <-].
  - destruct (is_char k c); [|done]. intros H. by apply suffix_cons_r, (IH kw).
Qed.

Lemma scan_relation_suffix s r t : scan_relation s = Some (r, t) → t `suffix_of` s.
Proof.
  unfold scan_relation. intros H.
  repeat match type of H with context [scan_keyword s ?k] => destruct (scan_keyword s k) eqn:?; [simplify_eq; by eapply scan_keyword_suffix|] end.
  done.
Qed.

Lemma relation_operand_safe next p : no_octal next →
  sm_safe (relation_operand next p) (λ rest p', rest `suffix_of` next ∧ ∃ o, p' = set_operand (Some o) p).
Proof.
  intros Hn. unfold relation_operand. pose proof (trim_left_suffix next) as Hs.
  pose proof (parse_operand_total (trim_spaces_left next) (no_octal_suffix _ _ Hs Hn)) as H.
  rewrite sm_bind_run. cbn [sm_lift]. destruct (parse_operand _) as [[o rest]|e|]; [|done..]. cbn.
  split; [|by eexists]. etrans; [apply H|done].
Qed.

Lemma parse_relation_safe s name fs : no_octal s →
  sm_safe (parse_relation s (Parser (Some name) None None [] fs)) (λ rest p, rest `suffix_of` s ∧ ∃ f, p = ready (f :: fs)).
Proof.
  intros Hn. unfold parse_relation.
  apply (sm_safe_bind _ _ _ (λ rest p, rest `suffix_of` s ∧ ∃ operand r custom, p = Parser (Some name) operand r custom fs ∧
    match operand with Some _ => (r ≠ None ∧ custom = []) ∨ (r = None ∧ custom ≠ []) | None => r = None ∧ custom = [] end)).
  - destruct s as [|c t] eqn:Es; [cbn; split; [done|]; by exists None, None, []|]. rewrite <-Es in *.
    destruct (scan_relation s) as [[r next]|] eqn:Er.
    + apply scan_relation_suffix in Er as Hs. sm_step.
      eapply sm_safe_weaken; [apply relation_operand_safe, (no_octal_suffix _ _ Hs Hn)|].
      intros rest p [Hr (o & ->)]. split; [by etrans|]. exists (Some o), (Some r), []. split; [done|by left].
    + pose proof (scan_while_split is_name_char s) as Hw. destruct (scan_while is_name_char s) as [custom next].
      destruct Hw as (Hw & _ & _). destruct custom as [|d custom].
      { cbn. split; [done|]. by exists None, None, []. }
      assert (next `suffix_of` s) as Hs by (by exists (d :: custom)). sm_step.
      eapply sm_safe_weaken; [apply relation_operand_safe, (no_octal_suffix _ _ Hs Hn)|].
      intros rest p [Hr (o & ->)]. split; [by etrans|]. exists (Some o), None, (d :: custom). split; [done|by right].
  - intros rest p (Hr & operand & r & custom & -> & H).
    eapply sm_safe_bind; [apply relation_complete_safe; destruct operand; naive_solver|].
    intros _ p' (f & ->). cbn. split; [done|]. exists f. unfold ready. f_equal.
    destruct operand, r; naive_solver.
Qed.

Lemma parse_placeholder_safe next fs :
  sm_safe (parse_placeholder next (ready fs)) (λ rest p, rest `suffix_of` next ∧ ∃ name, p = Parser (Some name) None None [] fs).
Proof.
  unfold parse_placeholder, scan_attr_placeholder. pose proof (trim_left_suffix next) as Hs.
  pose proof (scan_while_split is_name_char (trim_spaces_left next)) as Hw.
  destruct (scan_while is_name_char (trim_spaces_left next)) as [name p]. destruct Hw as (Hw & _ & _).
  destruct p as [|c u] eqn:Ep; [done|]. rewrite <-Ep in *. destruct name as [|d name]; [done|].
  cbn [on_attribute_name]. sm_step. pose proof (trim_left_suffix p) as Hp.
  destruct (trim_spaces_left p) as [|e p']; [done|]. destruct (is_char char_percent e); [|done].
  cbn. split; [|by eexists]. etrans; [apply trim_left_suffix|]. etrans; [by apply (suffix_cons_r p' p' e)|].
  etrans; [exact Hp|]. etrans; [|exact Hs]. rewrite Hw. by exists (d :: name).
Qed.

(** A subexpression consumes text and pushes one filter. *)
Definition sub_safe (fuel : nat) : Prop := ∀ depth neg present s fs,
  2 * length s ≤ fuel → no_octal s → s ≠ [] ∨ present = true →
  sm_safe (parse_subexpression fuel depth neg present s (ready fs))
    (λ rest p, rest `suffix_of` s ∧ length rest < length s ∧ ∃ f, p = ready (f :: fs)).

Definition stack_ok (pending : option logical_op) (fs fs' : list filter_fn) : Prop :=
  match pending with Some _ => ∃ g, fs = g :: fs' | None => fs = fs' end.

(** The loop pushes one filter, in place of the left operand of the pending
    operation, unless the whole text is empty. *)
Definition chain_safe (fuel : nat) : Prop := ∀ depth pending s fs fs',
  2 * length s + 1 ≤ fuel → no_octal s → stack_ok pending fs fs' →
  sm_safe (parse fuel depth pending s (ready fs))
    (λ rest p, rest `suffix_of` s ∧ ((s = [] ∧ pending = None ∧ depth = 0 ∧ p = ready fs') ∨ ∃ f, p = ready (f :: fs'))).

Lemma end_of_parse_safe depth s p Q : Q s p → sm_safe (end_of_parse depth s p) Q.
Proof. intros H. unfold end_of_parse. destruct s; [destruct (0 <? depth)%nat; [done|exact H]|exact H]. Qed.

Lemma scan_op_suffix s op t : scan_op s = Some (op, t) → ∃ c s', s = c :: s' ∧ t `suffix_of` s.
Proof.
  unfold scan_op. destruct s as [|c s']; [done|]. intros H. exists c, s'. split; [done|].
  destruct (is_char char_and c); [simplify_eq; by apply suffix_cons_r|].
  destruct (scan_keyword (c :: s') and_keyword) eqn:E; [simplify_eq; by eapply scan_keyword_suffix|].
  destruct (is_char char_or c); [simplify_eq; by apply suffix_cons_r|].
  destruct (scan_keyword (c :: s') or_keyword) eqn:E'; [simplify_eq; by eapply scan_keyword_suffix|done].
Qed.

Lemma run_op_safe pending f fs fs' : stack_ok pending fs fs' →
  ∃ g, run_op pending (ready (f :: fs)) = (Ok (), ready (g :: fs')).
Proof. destruct pending as [[]|]; cbn; [intros (g & ->); by eexists..|intros ->; by eexists]. Qed.

(** The end of a subexpression: a filter has been pushed. *)
Lemma negate_safe (neg : bool) (m : sm parser str) p Q fs :
  sm_safe (m p) (λ rest p', Q rest ∧ ∃ f, p' = ready (f :: fs)) →
  sm_safe ((p ← m; (if neg then on_negation else mret ());; mret p) p) (λ rest p', Q rest ∧ ∃ f, p' = ready (f :: fs)).
Proof.
  intros H. eapply sm_safe_bind; [exact H|]. intros rest p' [HQ (f & ->)]. destruct neg; (split; [done|by eexists]).
Qed.

Lemma condition_safe (neg present : bool) next fs : no_octal next →
  sm_safe ((p ← parse_placeholder next;
         p ← (if present then on_relation_complete;; mret p else parse_relation p);
         (if neg then on_negation else mret ());; mret p) (ready fs))
    (λ rest p, rest `suffix_of` next ∧ ∃ f, p = ready (f :: fs)).
Proof.
  intros Hn. eapply sm_safe_bind; [apply parse_placeholder_safe|]. intros rest p (Hr & name & ->).
  apply (negate_safe neg (if present then on_relation_complete;; mret rest else parse_relation rest)).
  destruct present.
  - eapply sm_safe_bind; [by apply relation_complete_safe|]. intros _ p (f & ->). cbn. split; [done|by exists f].
  - eapply sm_safe_weaken; [apply parse_relation_safe, (no_octal_suffix _ _ Hr Hn)|].
    intros rest' p (Hr' & f & ->). split; [by etrans|by exists f].
Qed.

(** What [parse_subexpression] finds behind a negation. *)
Lemma negation_suffix c next t :
  (if is_char char_exclamation c then Some next else scan_keyword (c :: next) not_keyword) = Some t → t `suffix_of` next.
Proof.
  destruct (is_char char_exclamation c); [by intros [= ->]|]. cbn [scan_keyword not_keyword str_lit list_ascii_of_string].
  destruct (is_char "n" c); [|done]. apply scan_keyword_suffix.
Qed.

Lemma sub_safe_step fuel : sub_safe fuel → chain_safe fuel → sub_safe (S fuel).
Proof.
  intros IHs IHc depth neg present s fs Hf Hn Hne. destruct s as [|c next]; [by destruct Hne as [| ->]|].
  cbn [length] in Hf. assert (no_octal next) as Hn' by (by eapply no_octal_tail).
  assert (∀ rest : str, rest `suffix_of` next → rest `suffix_of` c :: next ∧ length rest < length (c :: next)) as Hsuf.
  { intros rest Hr. split; [by apply suffix_cons_r|]. apply suffix_length in Hr. cbn. lia. }
  assert (∀ r, sm_safe r (λ rest p, rest `suffix_of` next ∧ ∃ f, p = ready (f :: fs)) →
    sm_safe r (λ rest p, rest `suffix_of` c :: next ∧ length rest < length (c :: next) ∧ ∃ f, p = ready (f :: fs))) as Hw.
  { intros r Hr. eapply sm_safe_weaken; [exact Hr|]. intros rest p [H H']. by split; [apply Hsuf|split; [apply Hsuf|]]. }
  apply Hw. cbn [parse_subexpression]. destruct (is_char char_percent c); [by apply condition_safe|].
  pose proof (negation_suffix c next) as Hneg. destruct (if is_char char_exclamation c then _ else _) as [t|].
  - specialize (Hneg t eq_refl). pose proof (trim_left_suffix t) as Ht. apply suffix_length in Hneg as Hl, Ht as Hl'.
    eapply sm_safe_weaken; [apply (IHs depth (negb neg) true (trim_spaces_left t) fs); [lia| |by right]|].
    + eapply no_octal_suffix; [|exact Hn']. by etrans.
    + intros rest p (Hr & _ & Hp). split; [|done]. etrans; [exact Hr|]. by etrans.
  - destruct (is_char char_paren_bracket_left c); [|done]. pose proof (trim_left_suffix next) as Ht.
    apply suffix_length in Ht as Hl. apply negate_safe.
    eapply sm_safe_weaken; [apply (IHc (S depth) None (trim_spaces_left next) fs fs); [lia| |done]|].
    + by eapply no_octal_suffix.
    + intros rest p (Hr & [(_ & _ & ? & _)|Hp]); [done|]. split; [by etrans|done].
Qed.

Lemma chain_safe_step fuel : sub_safe fuel → chain_safe fuel → chain_safe (S fuel).
Proof.
  intros IHs IHc depth pending s fs fs' Hf Hn Hst. destruct s as [|c next] eqn:Es.
  { cbn [parse]. destruct pending; [done|]. cbn in Hst. subst. unfold end_of_parse.
    destruct depth; cbn; [|done]. split; [done|by left]. }
  cbn [parse]. rewrite <-Es in *. eapply sm_safe_bind; [apply IHs; [lia|done|left; by subst]|].
  intros rest p (Hr & Hlt & f & ->). destruct (run_op_safe pending f fs fs' Hst) as (g & Eg).
  rewrite sm_bind_run, Eg. cbv iota beta. unfold parse_operator. pose proof (trim_left_suffix rest) as Ht.
  destruct (trim_spaces_left rest) as [|d t].
  { apply end_of_parse_safe. split; [apply suffix_nil|right; by exists g]. }
  assert (d :: t `suffix_of` s) as Hdt by (by etrans).
  destruct (is_char char_paren_bracket_right d).
  { destruct depth; [done|]. apply end_of_parse_safe. split; [by eapply suffix_cons_l|right; by exists g]. }
  destruct (scan_op (d :: t)) as [[op u]|] eqn:Eo; [|done]. destruct (scan_op_suffix _ _ _ Eo) as (_ & _ & _ & Hu).
  pose proof (trim_left_suffix u) as Hu'. apply suffix_length in Ht as Hl1, Hu as Hl2, Hu' as Hl3.
  assert (trim_spaces_left u `suffix_of` s) as Hus by (etrans; [exact Hu'|]; by etrans).
  eapply sm_safe_weaken; [apply (IHc depth (Some op) (trim_spaces_left u) (g :: fs') fs'); [lia| |by exists g]|].
  - by eapply no_octal_suffix.
  - intros rest' p (Hr' & H). split; [by etrans|]. destruct H as [(_ & ? & _)|H]; [done|by right].
Qed.

Lemma parse_safe fuel : sub_safe fuel ∧ chain_safe fuel.
Proof.
  induction fuel as [|fuel [IHs IHc]].
  - split; [|intros ? ? ? ? ? ?; lia]. intros depth neg present s fs Hf Hn Hne.
    destruct s; [by destruct Hne as [| ->]|cbn in Hf; lia].
  - split; [by apply sub_safe_step|by apply chain_safe_step].
Qed.

Lemma parse_filter_safe s : no_octal s → parse_filter s ≠ Stuck.
Proof.
  intros Hn. unfold parse_filter. pose proof (trim_left_suffix s) as Hs.
  destruct (parse_safe (2 * length (trim_spaces_left s) + 1)) as [_ Hc].
  specialize (Hc 0 None (trim_spaces_left s) [] [] (le_n _) (no_octal_suffix _ _ Hs Hn) eq_refl).
  change new_parser with (ready []). destruct (parse _ _ _ _ _) as [[x|e|] p]; [|done|done]. cbn.
  by destruct (m_Subexpressions p).
Qed.

End safety.

(** The filter parser on every input. For every text without octal escapes,
    and factories that return or throw, the parser ends with a filter or an
    exception: the recursion is bounded by the length of the text, and the
    internal assertions hold. *)
Theorem filter_parser_total s :
  (∀ name, on_exists_test name ≠ Stuck) → (∀ r name o, on_relation r name o ≠ Stuck) →
  (∀ c name o, on_custom_relation c name o ≠ Stuck) → no_octal s →
  (∃ f, parse_filter s = Ok f) ∨ (∃ e, parse_filter s = Throw e).
Proof.
  intros H1 H2 H3 Hn. pose proof (parse_filter_safe H1 H2 H3 s Hn) as H.
  destruct (parse_filter s) as [f|e|]; [left|right|done]; by eexists.
Qed.

End filter_parser.
