(* ===== verification/DefaultFilter.v ===== *)
(** Relations on attribute values and the default filter factory
    (src/include/boost/log/utility/functional/logical.hpp, in_range.hpp,
    begins_with.hpp, ends_with.hpp and contains.hpp,
    src/src/setup/default_filter_factory.cpp), with the names of the severity
    levels (src/src/trivial.cpp).

    Floating point numbers, the parsers of numbers (Boost.Spirit) and regular
    expressions are parameters. *)

From Stdlib Require Import ZArith Ascii String.
From stdpp Require Import base numbers list.
From S2P Require Import Prelude ParserUtils FilterParser.

(** * Integers of different types *)

(** An integral type: its size in bits and its sign. *)
Record int_type := IntType { width : Z; is_signed : bool }.

Definition long : int_type := IntType 64 true.

Definition in_type (t : int_type) (x : Z) : Prop :=
  if is_signed t then (- 2 ^ (width t - 1) ≤ x < 2 ^ (width t - 1))%Z else (0 ≤ x < 2 ^ width t)%Z.

(** [static_cast] to an integral type. *)
Definition static_cast (t : int_type) (x : Z) : Z :=
  if is_signed t then ((x + 2 ^ (width t - 1)) mod 2 ^ width t - 2 ^ (width t - 1))%Z
  else (x mod 2 ^ width t)%Z.

(** [make_common_integral_type]. *)
Definition common_integral_type (t u : int_type) : int_type :=
  if (width t <? width u)%Z then u
  else if (width t =? width u)%Z then (if is_signed t then u else t)
  else t.

Definition relate {A} (eqb ltb : A → A → bool) (r : relation) (x y : A) : bool :=
  match r with
  | equality => eqb x y
  | inequality => negb (eqb x y)
  | greater => ltb y x
  | less => ltb x y
  | greater_or_equal => negb (ltb x y)
  | less_or_equal => negb (ltb y x)
  end.

(** The relation of two integers, of the types [t] and [u]. *)
Definition relate_int (r : relation) (t u : int_type) (x y : Z) : bool :=
  let c := common_integral_type t u in relate Z.eqb Z.ltb r (static_cast c x) (static_cast c y).

(** [in_range_fun]. *)
Definition in_range_int (t u : int_type) (x least most : Z) : bool :=
  let c := common_integral_type t u in
  ((static_cast c least <=? static_cast c x) && (static_cast c x <? static_cast c most))%Z.

(** * Strings *)

(** [std::string] is ordered by its characters as unsigned numbers. *)
Fixpoint str_ltb (x y : str) : bool :=
  match x, y with
  | _, [] => false
  | [], _ => true
  | c :: x, d :: y =>
      if (nat_of_ascii c <? nat_of_ascii d)%nat then true
      else if (nat_of_ascii d <? nat_of_ascii c)%nat then false
      else str_ltb x y
  end.

Definition relate_str : relation → str → str → bool := relate (λ x y, bool_decide (x = y)) str_ltb.

(** [begins_with_fun]. *)
Fixpoint begins_with (x y : str) : bool :=
  match x, y with
  | c :: x, d :: y => if bool_decide (c = d) then begins_with x y else false
  | _, [] => true
  | [], _ => false
  end.

(** [ends_with_fun]: the same from behind. *)
Definition ends_with (x y : str) : bool := begins_with (reverse x) (reverse y).

(** The search loop of [contains_fun], with [n] positions left. *)
Fixpoint contains_loop (n : nat) (it y : str) : bool :=
  match n with
  | O => false
  | S n => if begins_with it y then true else contains_loop n (tail it) y
  end.

Definition contains (x y : str) : bool :=
  if (length y <=? length x)%nat then contains_loop (length x - length y + 1) x y else false.

(** * Severity levels *)

Definition severity_names : list str :=
  str_lit <$> ["trace"; "debug"; "info"; "warning"; "error"; "fatal"]%string.

(** [to_string]. *)
Definition to_string (lvl : Z) : option str :=
  if (u32 lvl <? 6)%Z then severity_names !! Z.to_nat (u32 lvl) else None.

Definition is_name (n : nat) (s : str) : bool := bool_decide (severity_names !! n = Some s).

(** [from_string]. *)
Definition from_string (s : str) : option Z :=
  if (length s =? 5)%nat then
    if is_name 0 s then Some 0%Z
    else if is_name 1 s then Some 1%Z
    else if is_name 4 s then Some 4%Z
    else if is_name 5 s then Some 5%Z
    else None
  else if (length s =? 4)%nat then if is_name 2 s then Some 2%Z else None
  else if (length s =? 7)%nat then if is_name 3 s then Some 3%Z else None
  else None.

(** * The default factory *)

Section factory.
(** Floating point numbers with their relations. *)
Context {real : Type} (relate_real : relation → real → real → bool) (real_of_Z : Z → real).
(** The parsers of the whole operand, and the match of a regular expression. *)
Context (parse_real : str → option real) (parse_long : str → option Z) (matches : str → str → outcome (str → bool)).

Inductive attribute_value :=
  | av_int (t : int_type) (x : Z)
  | av_real (x : real)
  | av_string (s : str)
  | av_severity (lvl : Z)
  | av_other.

(** The attribute values of a record. *)
Definition values := str → option attribute_value.

(** [predicate_wrapper]: the predicate is called for a value of the supported
    types; otherwise the result is [false]. *)
Definition predicate_wrapper (name : str) (pred : attribute_value → option bool) : values → bool :=
  λ v, match v name with
       | Some a => default false (pred a)
       | None => false
       end.

Definition string_predicate (rel : str → str → bool) (operand : str) (a : attribute_value) : option bool :=
  match a with av_string s => Some (rel s operand) | _ => None end.

(** [numeric_predicate< double, RelationT >], for floating point and string
    values. *)
Definition real_predicate (r : relation) (operand : str) (n : real) (a : attribute_value) : option bool :=
  match a with
  | av_real x => Some (relate_real r x n)
  | _ => string_predicate (relate_str r) operand a
  end.

(** [numeric_predicate< long, RelationT >], for arithmetic and string values. *)
Definition long_predicate (r : relation) (operand : str) (n : Z) (a : attribute_value) : option bool :=
  match a with
  | av_int t x => Some (relate_int r t long x n)
  | av_real x => Some (relate_real r x (real_of_Z n))
  | _ => string_predicate (relate_str r) operand a
  end.

Definition severity_predicate (r : relation) (operand : str) (lvl : Z) (a : attribute_value) : option bool :=
  match a with
  | av_severity x => Some (relate Z.eqb Z.ltb r x lvl)
  | _ => string_predicate (relate_str r) operand a
  end.

Definition severity_name : str := str_lit "Severity".

(** [parse_argument]. *)
Definition parse_argument (r : relation) (name arg : str) : values → bool :=
  match parse_real arg with
  | Some x => predicate_wrapper name (real_predicate r arg x)
  | None =>
      match parse_long arg with
      | Some n => predicate_wrapper name (long_predicate r arg n)
      | None =>
          match (if bool_decide (name = severity_name) then from_string arg else None) with
          | Some lvl => predicate_wrapper name (severity_predicate r arg lvl)
          | None => predicate_wrapper name (string_predicate (relate_str r) arg)
          end
      end
  end.

Definition begins_with_keyword : str := str_lit "begins_with".
Definition ends_with_keyword : str := str_lit "ends_with".
Definition contains_keyword : str := str_lit "contains".
Definition matches_keyword : str := str_lit "matches".

(** [on_custom_relation]. *)
Definition custom_relation (rel name arg : str) : outcome (values → bool) :=
  if bool_decide (rel = begins_with_keyword) then Ok (predicate_wrapper name (string_predicate begins_with arg))
  else if bool_decide (rel = ends_with_keyword) then Ok (predicate_wrapper name (string_predicate ends_with arg))
  else if bool_decide (rel = contains_keyword) then Ok (predicate_wrapper name (string_predicate contains arg))
  else if bool_decide (rel = matches_keyword) then
    let* m := matches name arg in Ok (predicate_wrapper name (string_predicate (λ s _, m s) arg))
  else Throw (ex_parse_error 0).

(** [default_filter_factory] and the base class. *)
#[local] Instance default_filter_factory : FilterFactories values := {|
  on_exists_test := λ name, Ok (λ v, bool_decide (is_Some (v name)));
  on_relation := λ r name arg, Ok (parse_argument r name arg);
  on_custom_relation := custom_relation |}.

End factory.

(** * Strings *)

Lemma begins_with_prefix x y : begins_with x y = true ↔ y `prefix_of` x.
Proof.
  revert y. induction x as [|c x IH]; intros [|d y]; cbn.
  - done.
  - split; [done|]. by intros ?%prefix_nil_not.
  - split; [intros _; apply prefix_nil|done].
  - case_bool_decide as E; [subst; rewrite IH; split; [apply prefix_cons|apply prefix_cons_inv_2]|].
    split; [done|]. intros H. by apply prefix_cons_inv_1 in H.
Qed.

Lemma ends_with_suffix x y : ends_with x y = true ↔ y `suffix_of` x.
Proof.
  unfold ends_with. by rewrite begins_with_prefix, suffix_prefix_reverse.
Qed.

Lemma contains_loop_spec n x y :
  contains_loop n x y = true ↔ ∃ k, (k < n)%nat ∧ begins_with (drop k x) y = true.
Proof.
  revert x. induction n as [|n IH]; intros x; cbn.
  - split; [done|]. intros (k & Hk & _). lia.
  - destruct (begins_with x y) eqn:E.
    + split; [|done]. intros _. exists 0. split; [lia|done].
    + assert (∀ k, drop (S k) x = drop k (tail x)) as Hd by (intros k; destruct x; cbn; by rewrite ?drop_nil).
      rewrite IH. split.
      * intros (k & Hk & H). exists (S k). split; [lia|]. by rewrite Hd.
      * intros ([|k] & Hk & H); [rewrite drop_0 in H; congruence|]. exists k. split; [lia|]. by rewrite <-Hd.
Qed.

Lemma contains_infix x y : contains x y = true ↔ ∃ a b, x = a ++ y ++ b.
Proof.
  unfold contains. destruct (Nat.leb_spec (length y) (length x)).
  - rewrite contains_loop_spec. split.
    + intros (k & Hk & [b Hb]%begins_with_prefix). exists (take k x), b. by rewrite <-Hb, take_drop.
    + intros (a & b & ->). exists (length a). rewrite !length_app in *. split; [lia|].
      apply begins_with_prefix. rewrite drop_app_length. by apply prefix_app_r.
  - split; [done|]. intros (a & b & ->). rewrite !length_app in *. lia.
Qed.

(** * Severity levels *)

(** The names of the levels are read back, and nothing else is a level. *)
Lemma severity_roundtrip s lvl : (0 ≤ lvl < 2 ^ 32)%Z → from_string s = Some lvl ↔ to_string lvl = Some s.
Proof.
  intros Hl. unfold to_string, from_string, is_name. rewrite u32_id by done. split.
  - intros H. repeat (case_match; simplify_eq);
      match goal with Hb : bool_decide _ = true |- _ => exact (bool_decide_eq_true_1 _ Hb) end.
  - destruct (Z.ltb_spec lvl 6); [|done].
    assert (lvl = 0 ∨ lvl = 1 ∨ lvl = 2 ∨ lvl = 3 ∨ lvl = 4 ∨ lvl = 5)%Z as Hc by lia.
    destruct Hc as [->|[->|[->|[->|[->| ->]]]]]; cbn; intros [= <-]; reflexivity.
Qed.

(** * Integers *)

Lemma static_cast_id t x : (0 < width t)%Z → in_type t x → static_cast t x = x.
Proof.
  unfold in_type, static_cast. intros Hw Hx. destruct (is_signed t); [|by apply Z.mod_small].
  assert (2 ^ width t = 2 * 2 ^ (width t - 1))%Z as E.
  { rewrite <-Z.pow_succ_r by lia. f_equal. lia. }
  rewrite Z.mod_small by lia. lia.
Qed.

(** Values of a type are values of a wider signed type, and of the same type. *)
Lemma in_common_type t u x y : (0 < width t)%Z → (0 < width u)%Z → is_signed u = true →
  in_type t x → in_type u y → (width t ≤ width u)%Z →
  (is_signed t = true ∨ width t < width u ∨ 0 ≤ y)%Z →
  in_type (common_integral_type t u) x ∧ in_type (common_integral_type t u) y.
Proof.
  intros Ht Hu Hs Hx Hy Hw Hc. unfold common_integral_type, in_type in *. rewrite Hs in *.
  destruct (Z.ltb_spec (width t) (width u)).
  - rewrite Hs. split; [|done]. 
    assert (2 ^ width t ≤ 2 ^ (width u - 1))%Z by (apply Z.pow_le_mono_r; lia).
    assert (2 ^ (width t - 1) ≤ 2 ^ (width u - 1))%Z by (apply Z.pow_le_mono_r; lia).
    destruct (is_signed t); lia.
  - assert (width t = width u) as E by lia. rewrite E, Z.eqb_refl. destruct (is_signed t) eqn:Hst.
    + rewrite Hs, <-E. rewrite E in *. done.
    + rewrite Hst. rewrite E in *. assert (2 ^ (width u - 1) ≤ 2 ^ width u)%Z by (apply Z.pow_le_mono_r; lia).
      split; [done|]. destruct Hc as [?|[?|?]]; [done|lia|lia].
Qed.

(** The relation is that of the numbers, except for a negative operand and
    unsigned values of the size of the operand. *)
Lemma relate_int_long r t x n : (0 < width t ≤ 64)%Z → in_type t x → in_type long n →
  relate_int r t long x n =
  relate Z.eqb Z.ltb r x (if negb (is_signed t) && (width t =? 64)%Z && (n <? 0)%Z then n + 2 ^ 64 else n)%Z.
Proof.
  intros Hw Hx Hn. unfold relate_int.
  destruct (negb (is_signed t) && (width t =? 64)%Z && (n <? 0)%Z) eqn:E.
  - apply andb_true_iff in E as [[H Hw']%andb_true_iff Hneg]. apply negb_true_iff in H.
    apply Z.eqb_eq in Hw'. apply Z.ltb_lt in Hneg.
    unfold common_integral_type. cbn [width is_signed long]. rewrite Hw'. cbn. rewrite H.
    assert (static_cast t x = x) as -> by (apply static_cast_id; [lia|done]).
    unfold static_cast. rewrite H, Hw'. f_equal. symmetry. apply (Z.mod_unique_pos _ _ (-1)); [|lia].
    unfold in_type in Hn. cbn in Hn. lia.
  - destruct (in_common_type t long x n) as [H1 H2]; [lia|done|done|done|done|cbn; lia| |].
    { destruct (is_signed t); [by left|]. destruct (Z.eqb_spec (width t) 64), (Z.ltb_spec n 0); cbn in *; lia || done. }
    assert (0 < width (common_integral_type t long))%Z as Hc.
    { unfold common_integral_type. repeat case_match; cbn; lia. }
    by rewrite !static_cast_id.
Qed.

Section exact.
Context {real : Type} (relate_real : relation → real → real → bool) (real_of_Z : Z → real).
Context (parse_real : str → option real) (parse_long : str → option Z) (matches : str → str → outcome (str → bool)).
#[local] Existing Instance default_filter_factory.

(** Filters on integer attributes. The filter that is made from the text of
    a condition with an integer operand compares the values of integer
    attributes of all types with it as numbers; only for unsigned attributes of
    the size of [long] a negative operand is taken modulo 2^64, so that no value
    is greater than a small negative number. *)
Theorem integer_filter_exact name r arg n : name_ok name →
  parse_real arg = None → parse_long arg = Some n → in_type long n →
  ∃ f, parse_filter (FF := default_filter_factory relate_real real_of_Z parse_real parse_long matches)
         (print (e_rel name r arg)) = Ok f ∧
    ∀ v t x, v name = Some (av_int t x) → (0 < width t ≤ 64)%Z → in_type t x →
      f v = relate Z.eqb Z.ltb r x (if negb (is_signed t) && (width t =? 64)%Z && (n <? 0)%Z then n + 2 ^ 64 else n)%Z.
Proof.
  intros Hname Hr Hl Hn. exists (parse_argument relate_real real_of_Z parse_real parse_long r name arg).
  split; [exact (parse_print (FF := default_filter_factory _ _ _ _ _) (e_rel name r arg) Hname)|]. intros v t x Hv Hw Hx.
  unfold parse_argument, predicate_wrapper. rewrite Hr, Hl, Hv. cbn. by apply relate_int_long.
Qed.

End exact.

(** * An example *)

Module sample_filter.

(** Operands of a sign and digits. *)
Fixpoint digits (s : str) (n : Z) : option Z :=
  match s with
  | [] => Some n
  | c :: s => if is_digit c then digits s (10 * n + digit_value c)%Z else None
  end.

Definition parse_number (s : str) : option Z :=
  match s with
  | c :: s' => if is_char "-"%char c then Z.opp <$> digits s' 0 else digits s 0
  | [] => None
  end.

#[export] Instance factories : FilterFactories (values (real := Z)) :=
  default_filter_factory (relate Z.eqb Z.ltb) id (λ _, None) parse_number (λ _ _, Throw (ex_parse_error 0)).

Definition attr : str := str_lit "n".
Definition record_of (t : int_type) (x : Z) : values (real := Z) :=
  λ name, if bool_decide (name = attr) then Some (av_int t x) else None.

(** "%n% > -1" accepts 7 as a signed number and rejects it as an unsigned one. *)
Lemma integer_filter_exact_witness :
  ∃ f, parse_filter (print (e_rel attr greater (str_lit "-1"))) = Ok f ∧
    f (record_of long 7) = true ∧ f (record_of (IntType 64 false) 7) = false.
Proof.
  destruct (integer_filter_exact (relate Z.eqb Z.ltb) id (λ _, None) parse_number (λ _ _, Throw (ex_parse_error 0))
    attr greater (str_lit "-1") (-1)) as (f & E & H); [by split; repeat constructor|reflexivity|reflexivity|by vm_compute|].
  exists f. split; [exact E|]. split.
  - rewrite (H _ long 7%Z); [reflexivity|reflexivity|done|by vm_compute].
  - rewrite (H _ (IntType 64 false) 7%Z); [reflexivity|reflexivity|done|by vm_compute].
Defined.

(** The presence of an attribute and a comparison, with and without the keyword. *)
Definition sample_expr : expr := e_and (e_not (e_exists (str_lit "m"))) (e_or (e_rel attr less_or_equal (str_lit "5")) (e_exists attr)).

Lemma filter_roundtrip_witness :
  parse_filter (print sample_expr) = eval sample_expr ∧ is_ok (eval sample_expr) = true.
Proof. split; [apply filter_roundtrip; repeat split; by repeat constructor|reflexivity]. Defined.

Lemma keyword_after_presence_witness :
  parse_filter (str_lit "%n% and %n%") ≠ Ok (λ _, true) ∧ is_ok (parse_filter (str_lit "%n% & %n%")) = true.
Proof.
  assert (name_ok attr) as Hn by (split; repeat constructor; done).
  destruct (keyword_after_presence attr attr (λ _, true) Hn Hn) as [H1 H2]. split; [exact H1|].
  change (str_lit "%n% & %n%") with (placeholder attr ++ space ++ [char_and] ++ space ++ placeholder attr).
  by rewrite H2.
Defined.

Lemma filter_parser_total_witness :
  (∃ f, parse_filter (str_lit "!(%n%") = Ok f) ∨ (∃ e, parse_filter (str_lit "!(%n%") = Throw e).
Proof.
  apply filter_parser_total; [done|done| |done]. intros c name o. cbn. unfold custom_relation. by repeat case_bool_decide.
Defined.

End sample_filter.
