(* ===== verification/FormatterParser.v ===== *)
(** The parser of formatters (src/src/setup/formatter_parser.cpp): literal text
    and attribute placeholders with arguments.

    The formatters of attributes are made by the registered factories, and the
    text of the message is written by an expression; both are parameters. A
    formatter is modelled by the text it writes for a record. *)

From Stdlib Require Import ZArith Ascii String.
From stdpp Require Import base numbers list.
From S2P Require Import Prelude ParserUtils.

Local Open Scope char_scope.

(** The arguments of a placeholder, as a map. *)
Definition args_map := list (str * str).

Definition args_insert (k v : str) (m : args_map) : args_map :=
  (k, v) :: filter (λ a, a.1 ≠ k) m.

Class FormatterFactories (values : Type) := {
  create_formatter : str → args_map → outcome (values → str);
  message_formatter : values → str }.

Section formatter_parser.
Context {values : Type} `{FF : !FormatterFactories values}.

Abbreviation formatter := (values → str).

(** * The parser *)

Record parser := Parser {
  m_Formatter : option formatter;
  m_AttrName : option str;
  m_FactoryArgs : args_map }.

Definition new_parser : parser := Parser None None [].

Definition set_formatter (f : option formatter) (p : parser) : parser := Parser f (m_AttrName p) (m_FactoryArgs p).
Definition set_name (n : option str) (p : parser) : parser := Parser (m_Formatter p) n (m_FactoryArgs p).
Definition set_args (m : args_map) (p : parser) : parser := Parser (m_Formatter p) (m_AttrName p) m.

Definition fail {X} : sm parser X := sm_throw (ex_parse_error 0).

Definition chained_formatter (f g : formatter) : formatter := λ v, f v ++ g v.

Definition append_formatter (f : formatter) : sm parser unit :=
  p ← sm_get;
  match m_Formatter p with
  | Some g => sm_modify (set_formatter (Some (chained_formatter g f)))
  | None => sm_modify (set_formatter (Some f))
  end.

Definition push_string (s : str) : sm parser unit :=
  s ← sm_lift (translate_escape_sequences s); append_formatter (λ _, s).

Definition message_name : str := str_lit "Message".
Definition message_text_keyword : str := str_lit "_".

Definition on_attribute_name (name : str) : sm parser unit :=
  match name with
  | [] => fail
  | _ => sm_modify (set_name (Some (if bool_decide (name = message_text_keyword) then message_name else name)))
  end.

Definition push_attr : sm parser unit :=
  p ← sm_get;
  match m_AttrName p with
  | Some name =>
      (if bool_decide (name = message_name) then append_formatter message_formatter
       else f ← sm_lift (create_formatter name (m_FactoryArgs p)); append_formatter f);;
      sm_modify (set_name None);; sm_modify (set_args [])
  | None => sm_lift Stuck
  end.

Definition push_arg (name value : str) : sm parser unit :=
  sm_modify (λ p, set_args (args_insert name value (m_FactoryArgs p)) p).

(** The name of an argument and what follows it; the name ends at a space or
    an equality sign. *)
Fixpoint scan_arg_name (s : str) : option (str * str) :=
  match s with
  | [] => Some ([], [])
  | c :: t =>
      if isspace c || is_char char_equal c then Some ([], s)
      else if is_name_char c then '(a, b) ← scan_arg_name t; Some (c :: a, b)
      else None
  end.

(** The loop of [parse_args], from the first character of a name on. *)
Fixpoint parse_args_loop (fuel : nat) (s : str) : sm parser str :=
  match fuel, s with
  | O, _ => sm_lift Stuck
  | _, [] => sm_lift Stuck
  | S fuel, c :: t =>
      if isalpha c then
        match scan_arg_name t with
        | None => fail
        | Some (a, p) =>
            match trim_spaces_left p with
            | e :: p =>
                if is_char char_equal e then
                  ' (value, p) ← sm_lift (parse_operand (trim_spaces_left p));
                  push_arg (c :: a) value;;
                  match trim_spaces_left p with
                  | [] => fail
                  | d :: p =>
                      if is_char char_paren_bracket_right d then mret p
                      else if is_char char_comma d then
                        match trim_spaces_left p with
                        | [] => fail
                        | p => parse_args_loop fuel p
                        end
                      else fail
                  end
                else fail
            | [] => fail
            end
        end
      else fail
  end.

Definition parse_args (s : str) : sm parser str :=
  match s with
  | [] => fail
  | c :: t => if is_char char_paren_bracket_right c then mret t else parse_args_loop (length s) s
  end.

(** A literal up to a placeholder or the end. *)
Fixpoint scan_literal (s : str) : outcome (str * str) :=
  match s with
  | [] => Ok ([], [])
  | c :: t =>
      if is_char char_backslash c then
        match t with
        | [] => Throw (ex_parse_error 0)
        | d :: t => let* (a, b) := scan_literal t in Ok (c :: d :: a, b)
        end
      else if is_char char_percent c then Ok ([], s)
      else let* (a, b) := scan_literal t in Ok (c :: a, b)
  end.

(** A placeholder behind its first percent sign. *)
Definition parse_attribute (s : str) : sm parser str :=
  let '(name, p) := scan_attr_placeholder (trim_spaces_left s) in
  match p with
  | [] => fail
  | _ =>
      on_attribute_name name;;
      p ← match trim_spaces_left p with
          | [] => fail
          | (c :: p') as p =>
              if is_char char_paren_bracket_left c then
                p ← parse_args (trim_spaces_left p');
                match trim_spaces_left p with [] => fail | p => mret p end
              else mret p
          end;
      match p with
      | c :: p => if is_char char_percent c then push_attr;; mret p else fail
      | [] => sm_lift Stuck
      end
  end.

(** [parse]. *)
Fixpoint parse (fuel : nat) (s : str) : sm parser unit :=
  match s with
  | [] => mret ()
  | _ =>
      match fuel with
      | O => sm_lift Stuck
      | S fuel =>
          ' (lit, p) ← sm_lift (scan_literal s);
          (match lit with [] => mret () | _ => push_string lit end);;
          match p with
          | [] => mret ()
          | _ :: p => p ← parse_attribute p; parse fuel p
          end
      end
  end.

(** [parse_formatter]; without parts nothing is written. *)
Definition parse_formatter (s : str) : outcome formatter :=
  let (r, p) := parse (length s) s new_parser in
  let* _ := r in
  Ok (default (λ _, []) (m_Formatter p)).

(** * Format strings *)

(** A literal and the placeholder behind it. *)
Record item := Item { i_text : str; i_name : str; i_args : list (str * str) }.

Definition escape_text_char (c : ascii) : str :=
  if is_char char_percent c || is_char char_backslash c then [char_backslash; c] else [c].

Definition escape_text (s : str) : str := s ≫= escape_text_char.

Definition print_arg (a : str * str) : str := a.1 ++ char_equal :: quoted a.2.

Fixpoint print_args (a : str * str) (l : list (str * str)) : str :=
  match l with
  | [] => print_arg a ++ [char_paren_bracket_right]
  | b :: l => print_arg a ++ char_comma :: " " :: print_args b l
  end.

Definition print_item (it : item) : str :=
  escape_text (i_text it) ++ char_percent :: i_name it ++
  (match i_args it with [] => [] | a :: l => char_paren_bracket_left :: print_args a l end) ++ [char_percent].

Definition print_format (items : list item) (last : str) : str := (items ≫= print_item) ++ escape_text last.

Definition arg_ok (a : str * str) : Prop :=
  match a.1 with c :: t => isalpha c ∧ Forall (λ c, is_name_char c) t | [] => False end.

Definition item_ok (it : item) : Prop :=
  i_name it ≠ [] ∧ Forall (λ c, is_name_char c) (i_name it) ∧ Forall arg_ok (i_args it).

(** ** Their meaning *)

Definition args_of (l : list (str * str)) : args_map := foldl (λ m a, args_insert a.1 a.2 m) [] l.

Definition attribute_formatter (it : item) : outcome formatter :=
  let name := if bool_decide (i_name it = message_text_keyword) then message_name else i_name it in
  if bool_decide (name = message_name) then Ok message_formatter
  else create_formatter name (args_of (i_args it)).

(** The formatters of the placeholders, from left to right. *)
Fixpoint attribute_formatters (items : list item) : outcome (list formatter) :=
  match items with
  | [] => Ok []
  | it :: items => let* f := attribute_formatter it in let* fs := attribute_formatters items in Ok (f :: fs)
  end.

(** The text of a record. *)
Fixpoint format_text (items : list item) (fs : list formatter) (last : str) (v : values) : str :=
  match items, fs with
  | it :: items, f :: fs => i_text it ++ f v ++ format_text items fs last v
  | _, _ => last
  end.

(** ** Literals *)

Lemma escape_text_escapes s : escapes s (escape_text s).
Proof.
  induction s as [|c s IH]; [constructor|]. change (escape_text (c :: s)) with (escape_text_char c ++ escape_text s).
  unfold escape_text_char. destruct (is_char char_percent c || is_char char_backslash c) eqn:E.
  - apply orb_true_iff in E as [->%is_char_true| ->%is_char_true]; by constructor.
  - apply escapes_plain; [|done]. intros ->. apply orb_false_iff in E as [_ E]. by rewrite is_char_refl in E.
Qed.

Lemma scan_literal_escape s rest : (∀ c t, rest = c :: t → c = char_percent) →
  scan_literal (escape_text s ++ rest) = Ok (escape_text s, rest).
Proof.
  intros Hr. induction s as [|c s IH].
  - destruct rest as [|c t]; [done|]. rewrite (Hr c t eq_refl). done.
  - change (escape_text (c :: s)) with (escape_text_char c ++ escape_text s). unfold escape_text_char.
    destruct (is_char char_percent c || is_char char_backslash c) eqn:E; cbn [app scan_literal].
    + rewrite is_char_refl, IH. done.
    + apply orb_false_iff in E as [-> ->]. by rewrite IH.
Qed.

(** Appending a part. *)
Definition add_text (f : option formatter) (g : formatter) : option formatter :=
  Some (match f with Some f => chained_formatter f g | None => g end).

Lemma append_formatter_run g f n a : append_formatter g (Parser f n a) = (Ok (), Parser (add_text f g) n a).
Proof. by destruct f. Qed.

Lemma push_string_run s f n a :
  push_string (escape_text s) (Parser f n a) = (Ok (), Parser (add_text f (λ _, s)) n a).
Proof.
  unfold push_string. rewrite (translate_escapes_all s _ (escape_text_escapes s)). sm_step. apply append_formatter_run.
Qed.

(** ** Placeholders *)

Lemma arg_char_plain c : is_name_char c →
  isspace c = false ∧ is_char char_equal c = false ∧ is_char char_percent c = false ∧
  is_char char_paren_bracket_right c = false.
Proof. destruct c as [[] [] [] [] [] [] [] []]; vm_compute; done. Qed.

Lemma alpha_name_char c : isalpha c → is_name_char c.
Proof. unfold is_name_char, isalnum. by destruct (isalpha c). Qed.

Lemma scan_arg_name_ok t s : Forall (λ c, is_name_char c) t →
  scan_arg_name (t ++ char_equal :: s) = Some (t, char_equal :: s).
Proof.
  induction 1 as [|c t Hc _ IH]; [done|]. cbn [app scan_arg_name].
  destruct (arg_char_plain c Hc) as (-> & -> & _). apply Is_true_true in Hc. rewrite Hc. cbn [orb]. by rewrite IH.
Qed.

(** One argument, up to what follows its value. *)
Lemma parse_arg_step fuel a s f n m : arg_ok a →
  parse_args_loop (S fuel) (print_arg a ++ s) (Parser f n m) =
  (match trim_spaces_left s with
   | [] => fail
   | d :: p =>
       if is_char char_paren_bracket_right d then mret p
       else if is_char char_comma d then
         match trim_spaces_left p with [] => fail | p => parse_args_loop fuel p end
       else fail
   end) (Parser f n (args_insert a.1 a.2 m)).
Proof.
  destruct a as [name value]. unfold arg_ok, print_arg. cbn [fst snd]. destruct name as [|c t]; [done|]. intros [Hc Ht].
  cbn [app]. rewrite <-(assoc_L (++)). cbn [app parse_args_loop]. apply Is_true_true in Hc as ->.
  rewrite scan_arg_name_ok by done. rewrite trim_left_id by done. rewrite is_char_refl.
  assert (trim_spaces_left (quoted value ++ s) = quoted value ++ s) as -> by done.
  rewrite parse_operand_quoted. by sm_step.
Qed.

Lemma parse_args_loop_ok l : ∀ a fuel rest f n m, Forall arg_ok (a :: l) → length l < fuel →
  parse_args_loop fuel (print_args a l ++ rest) (Parser f n m) =
  (Ok rest, Parser f n (foldl (λ m a, args_insert a.1 a.2 m) m (a :: l))).
Proof.
  induction l as [|b l IH]; intros a fuel rest f n m Hok Hf; (destruct fuel as [|fuel]; [cbn in Hf; lia|]);
    apply Forall_cons in Hok as [Ha Hl]; cbn [print_args]; rewrite <-(assoc_L (++)); rewrite parse_arg_step by done; cbn [app].
  - rewrite trim_left_id by done. by rewrite is_char_refl.
  - rewrite trim_left_id by done. rewrite is_char_refl.
    assert (is_char char_paren_bracket_right char_comma = false) as -> by done.
    assert (∃ c t, print_args b l ++ rest = c :: t ∧ isspace c = false) as (c & t & E & Hc).
    { apply Forall_cons in Hl as [Hb _]. destruct b as [[|c t] v]; [done|]. destruct Hb as [Hc _].
      apply alpha_name_char, arg_char_plain in Hc as (Hc & _). destruct l; cbn; by do 2 eexists; split. }
    assert (trim_spaces_left (" " :: print_args b l ++ rest) = print_args b l ++ rest) as ->.
    { cbn. rewrite E. cbn. by rewrite Hc. }
    rewrite E, <-E. apply IH; [done|cbn in Hf; lia].
Qed.

Lemma parse_args_ok a l rest f n : Forall arg_ok (a :: l) →
  parse_args (trim_spaces_left (print_args a l ++ rest)) (Parser f n []) = (Ok rest, Parser f n (args_of (a :: l))).
Proof.
  intros Hok. assert (∃ c t, print_args a l ++ rest = c :: t ∧ isspace c = false ∧ is_char char_paren_bracket_right c = false)
    as (c & t & E & Hs & Hp).
  { apply Forall_cons in Hok as [Ha _]. destruct a as [[|c t] v]; [done|]. destruct Ha as [Hc _].
    apply alpha_name_char, arg_char_plain in Hc as (Hs & _ & _ & Hp). destruct l; cbn; by do 2 eexists. }
  rewrite E, trim_left_id by done. unfold parse_args. rewrite Hp, <-E. apply parse_args_loop_ok; [done|].
  rewrite length_app. clear -l. revert a. induction l as [|b l IH]; intros a; cbn [print_args]; rewrite length_app; cbn; [lia|].
  specialize (IH b). lia.
Qed.

(** A run that appends the formatter [o], if there is one, and leaves [rest]. *)
Definition appends (o : outcome formatter) (f : option formatter) (x : str) (r : outcome str * parser) : Prop :=
  match o with
  | Ok g => r = (Ok x, Parser (add_text f g) None [])
  | Throw e => ∃ p, r = (Throw e, p)
  | Stuck => ∃ p, r = (Stuck, p)
  end.

Lemma push_attr_appends it f rest :
  let name := if bool_decide (i_name it = message_text_keyword) then message_name else i_name it in
  appends (attribute_formatter it) f rest ((push_attr;; mret rest) (Parser f (Some name) (args_of (i_args it)))).
Proof.
  intros name. unfold attribute_formatter. fold name. rewrite sm_bind_run. unfold push_attr. sm_step. cbn [m_AttrName m_FactoryArgs].
  case_bool_decide.
  - rewrite sm_bind_run, append_formatter_run. done.
  - rewrite sm_bind_run, sm_bind_run. cbn [sm_lift]. destruct (create_formatter name _) as [g|e|]; [|by eexists..].
    by rewrite append_formatter_run.
Qed.

Lemma parse_attribute_appends it rest f : item_ok it →
  appends (attribute_formatter it) f rest
    (parse_attribute (i_name it ++ (match i_args it with [] => [] | a :: l => char_paren_bracket_left :: print_args a l end)
                      ++ char_percent :: rest) (Parser f None [])).
Proof.
  intros (Hne & Hn & Ha). set (tl := _ ++ char_percent :: rest).
  assert (∃ c t, tl = c :: t ∧ is_name_char c = false ∧ isspace c = false) as (c & t & Etl & Hc & Hs).
  { unfold tl. destruct (i_args it); by do 2 eexists. }
  unfold parse_attribute, scan_attr_placeholder.
  assert (trim_spaces_left (i_name it ++ tl) = i_name it ++ tl) as ->.
  { destruct (i_name it) as [|d u]; [done|]. apply Forall_cons in Hn as [(Hd & _)%arg_char_plain _]. by apply trim_left_id. }
  rewrite scan_while_app; [|done|intros d u; rewrite Etl; by intros [= <- <-]].
  rewrite Etl. unfold on_attribute_name. destruct (i_name it) as [|d u] eqn:En; [done|]. rewrite <-En. sm_step.
  rewrite trim_left_id by done. pose proof (push_attr_appends it f rest) as Hpush. cbn zeta in Hpush.
  unfold tl in Etl. destruct (i_args it) as [|a l] eqn:Ea; cbn [app] in Etl; injection Etl as <- <-.
  - exact Hpush.
  - assert (is_char char_paren_bracket_left char_paren_bracket_left = true) as -> by done.
    rewrite !sm_bind_run. cbn [app]. unfold set_name. cbn [m_Formatter m_FactoryArgs]. rewrite parse_args_ok by done. rewrite trim_left_id by done. exact Hpush.
Qed.

(** ** Formats *)

Definition text_of (f : option formatter) (v : values) : str := default (λ _, []) f v.

Lemma text_of_add f g v : text_of (add_text f g) v = text_of f v ++ g v.
Proof. by destruct f. Qed.

Lemma escape_text_nil s : escape_text s = [] → s = [].
Proof. destruct s as [|c s]; [done|]. cbn. unfold escape_text_char. by destruct (_ || _). Qed.

(** The literal in front of a placeholder or at the end. *)
Lemma parse_literal s f :
  ∃ f', (match escape_text s with [] => mret () | _ => push_string (escape_text s) end) (Parser f None []) =
          (Ok (), Parser f' None []) ∧ ∀ v, text_of f' v = text_of f v ++ s.
Proof.
  destruct (escape_text s) as [|c t] eqn:E.
  - apply escape_text_nil in E as ->. exists f. split; [done|]. intros v. by rewrite app_nil_r.
  - rewrite <-E, push_string_run. eexists. split; [done|]. intros v. by rewrite text_of_add.
Qed.

Lemma parse_items_ok last items : ∀ fuel f, Forall item_ok items → length items < fuel →
  match attribute_formatters items with
  | Ok gs => ∃ f', parse fuel (print_format items last) (Parser f None []) = (Ok (), Parser f' None []) ∧
               ∀ v, text_of f' v = text_of f v ++ format_text items gs last v
  | Throw e => ∃ p, parse fuel (print_format items last) (Parser f None []) = (Throw e, p)
  | Stuck => ∃ p, parse fuel (print_format items last) (Parser f None []) = (Stuck, p)
  end.
Proof.
  induction items as [|it items IH]; intros fuel f Hok Hf; (destruct fuel as [|fuel]; [cbn in Hf; lia|]).
  - cbn [attribute_formatters format_text]. unfold print_format. cbn [mbind list_bind app].
    destruct (escape_text last) as [|c t] eqn:E.
    + apply escape_text_nil in E as ->. exists f. split; [done|]. intros v. by rewrite app_nil_r.
    + cbn [parse]. rewrite <-E. pose proof (scan_literal_escape last [] ltac:(done)) as Hs. rewrite app_nil_r in Hs.
      rewrite Hs. destruct (parse_literal last f) as (f' & El & Ht). exists f'. split; [|done].
      sm_step. by rewrite sm_bind_run, El.
  - apply Forall_cons in Hok as [Hit Hok].
    assert (print_format (it :: items) last = escape_text (i_text it) ++ char_percent :: i_name it ++
      (match i_args it with [] => [] | a :: l => char_paren_bracket_left :: print_args a l end) ++
      char_percent :: print_format items last) as Ep.
    { unfold print_format. cbn [mbind list_bind]. unfold print_item at 1. rewrite <-!(assoc_L (++)). cbn [app].
      by rewrite <-!(assoc_L (++)). }
    assert (∃ c t, print_format (it :: items) last = c :: t) as (c & t & Ect).
    { rewrite Ep. destruct (escape_text (i_text it)); by do 2 eexists. }
    rewrite Ect. cbn [parse]. rewrite <-Ect, Ep, scan_literal_escape by (by intros ? ? [= <- <-]). sm_step.
    destruct (parse_literal (i_text it) f) as (f1 & El & Ht1). rewrite sm_bind_run, El. cbv iota beta.
    pose proof (parse_attribute_appends it (print_format items last) f1 Hit) as Ha. rewrite sm_bind_run.
    cbn [attribute_formatters]. unfold appends in Ha. destruct (attribute_formatter it) as [g|e|]; cbn [obind];
      [|by destruct Ha as (p & ->); eexists..].
    rewrite Ha. specialize (IH fuel (add_text f1 g) Hok ltac:(cbn in Hf; lia)).
    destruct (attribute_formatters items) as [gs|e|]; cbn [obind]; [|done..].
    destruct IH as (f' & -> & Ht). exists f'. split; [done|]. intros v. cbn [format_text].
    rewrite Ht, text_of_add, Ht1. by rewrite <-!(assoc_L (++)).
Qed.

Lemma items_length items : 2 * length items ≤ length (items ≫= print_item).
Proof.
  induction items as [|it items IH]; [cbn; lia|].
  change ((it :: items) ≫= print_item) with (print_item it ++ (items ≫= print_item)). rewrite length_app.
  assert (2 ≤ length (print_item it)); [|cbn [length]; lia].
  unfold print_item. repeat (rewrite length_app || rewrite length_cons). lia.
Qed.

(** C25: format strings. A format string of literals, with percent signs and
    backslashes escaped, and of attribute placeholders, with arguments given as
    quoted strings, is parsed into the formatter that writes the literals and
    the texts of the attributes in their order; the factories are called from
    left to right, and an exception of theirs is passed on. *)
Theorem formatter_roundtrip items last : Forall item_ok items →
  match attribute_formatters items with
  | Ok gs => ∃ f, parse_formatter (print_format items last) = Ok f ∧ ∀ v, f v = format_text items gs last v
  | Throw e => parse_formatter (print_format items last) = Throw e
  | Stuck => parse_formatter (print_format items last) = Stuck
  end.
Proof.
  intros Hok. pose proof (items_length items) as Hl. unfold parse_formatter.
  destruct (decide (print_format items last = [])) as [E|Hne].
  { unfold print_format in E. apply app_nil in E as [E1 E2]. rewrite E1 in Hl.
    destruct items as [|it items]; [|cbn in Hl; lia]. apply escape_text_nil in E2 as ->. by eexists. }
  assert (length items < length (print_format items last)) as Hf.
  { destruct (print_format items last) as [|c t] eqn:E; [done|]. apply (f_equal length) in E.
    unfold print_format in E. rewrite length_app in E. cbn in *. lia. }
  pose proof (parse_items_ok last items _ None Hok Hf) as H. fold new_parser in H.
  destruct (attribute_formatters items) as [gs|e|].
  - destruct H as (f' & -> & Ht). eexists. split; [done|]. exact Ht.
  - by destruct H as (p & ->).
  - by destruct H as (p & ->).
Qed.

(** * Every input *)

Section safety.
Context (factory_safe : ∀ name args, create_formatter name args ≠ Stuck).

Lemma scan_arg_name_suffix s a b : scan_arg_name s = Some (a, b) → b `suffix_of` s.
Proof.
  revert a. induction s as [|c s IH]; intros a; cbn; [by intros [= _ <-]|].
  destruct (isspace c || is_char char_equal c); [by intros [= _ <-]|]. destruct (is_name_char c); [|done].
  destruct (scan_arg_name s) as [[a' b']|]; [|done]. intros [= _ <-]. by eapply suffix_cons_r, IH.
Qed.

(** Scanners go to the end of the text. *)
Lemma trim_suffix_tail s c t u : trim_spaces_left s = c :: t → s `suffix_of` u → t `suffix_of` u.
Proof.
  intros E H. etrans; [|exact H]. pose proof (trim_left_suffix s) as Hs. rewrite E in Hs. by eapply suffix_cons_l.
Qed.

Lemma operand_safe {X} s u (k : str * str → sm parser X) p Q : s `suffix_of` u → no_octal u →
  (∀ value rest, rest `suffix_of` u → length rest < length u → sm_safe (k (value, rest) p) Q) →
  sm_safe ((v ← sm_lift (parse_operand (trim_spaces_left s)); k v) p) Q.
Proof.
  intros Hs Hn Hk. assert (trim_spaces_left s `suffix_of` u) as Ht by (etrans; [apply trim_left_suffix|done]).
  pose proof (parse_operand_total (trim_spaces_left s) (no_octal_suffix _ _ Ht Hn)) as H.
  rewrite sm_bind_run. cbn [sm_lift]. destruct (parse_operand _) as [[v rest]|e|]; [|done..].
  destruct H as [Hr Hl]. apply Hk; [by etrans|]. apply suffix_length in Ht. lia.
Qed.

Lemma parse_args_loop_safe fuel : ∀ s f name m, s ≠ [] → length s ≤ fuel → no_octal s →
  sm_safe (parse_args_loop fuel s (Parser f (Some name) m))
    (λ rest p, rest `suffix_of` s ∧ ∃ m', p = Parser f (Some name) m').
Proof.
  induction fuel as [|fuel IH]; intros s f name m Hne Hf Hn; (destruct s as [|c t]; [done|]); [cbn in Hf; lia|].
  cbn [parse_args_loop]. destruct (isalpha c); [|done]. destruct (scan_arg_name t) as [[a p]|] eqn:Ea; [|done].
  apply scan_arg_name_suffix in Ea. destruct (trim_spaces_left p) as [|e q] eqn:Eq; [done|].
  destruct (is_char char_equal e); [|done]. pose proof (trim_suffix_tail _ _ _ _ Eq Ea) as Hq.
  apply no_octal_tail in Hn as Hn'. apply operand_safe with (u := t); [done|done|]. intros value rest Hr Hl.
  sm_step. destruct (trim_spaces_left rest) as [|d r] eqn:Er; [done|]. pose proof (trim_suffix_tail _ _ _ _ Er Hr) as Hrt.
  destruct (is_char char_paren_bracket_right d); [cbn; split; [by apply suffix_cons_r|by eexists]|].
  destruct (is_char char_comma d); [|done]. pose proof (trim_left_suffix r) as Hs.
  destruct (trim_spaces_left r) as [|x y] eqn:Ex; [done|]. assert (x :: y `suffix_of` t) as Hxt by (by etrans).
  apply suffix_length in Hxt as Hlen. eapply sm_safe_weaken; [apply IH; [done|cbn in *; lia|by eapply no_octal_suffix]|].
  intros rest' p' (Hr' & Hp'). split; [|done]. etrans; [exact Hr'|]. by apply suffix_cons_r.
Qed.

Lemma parse_args_safe s f name m : no_octal s →
  sm_safe (parse_args s (Parser f (Some name) m)) (λ rest p, rest `suffix_of` s ∧ ∃ m', p = Parser f (Some name) m').
Proof.
  intros Hn. unfold parse_args. destruct s as [|c t]; [done|]. destruct (is_char char_paren_bracket_right c).
  - cbn. split; [by apply suffix_cons_r|by eexists].
  - by apply parse_args_loop_safe.
Qed.

Lemma push_attr_safe f name m : sm_safe (push_attr (Parser f (Some name) m)) (λ _ p, ∃ f', p = Parser f' None []).
Proof.
  unfold push_attr. sm_step. cbn [m_AttrName m_FactoryArgs]. rewrite sm_bind_run. case_bool_decide.
  - rewrite append_formatter_run. cbn. by eexists.
  - rewrite sm_bind_run. cbn [sm_lift]. pose proof (factory_safe name m).
    destruct (create_formatter name m); [|done..]. rewrite append_formatter_run. cbn. by eexists.
Qed.

(** The end of a placeholder. *)
Lemma end_placeholder_safe c q s f name m : c :: q `suffix_of` s →
  sm_safe ((if is_char char_percent c then push_attr;; mret q else fail) (Parser f (Some name) m))
    (λ rest p, rest `suffix_of` s ∧ ∃ f', p = Parser f' None []).
Proof.
  intros Hs. destruct (is_char char_percent c); [|done]. eapply sm_safe_bind; [apply push_attr_safe|].
  intros _ p (f' & ->). cbn. split; [by eapply suffix_cons_l|by eexists].
Qed.

Lemma parse_attribute_safe s f : no_octal s →
  sm_safe (parse_attribute s (Parser f None [])) (λ rest p, rest `suffix_of` s ∧ ∃ f', p = Parser f' None []).
Proof.
  intros Hn. unfold parse_attribute, scan_attr_placeholder. pose proof (trim_left_suffix s) as Hs.
  pose proof (scan_while_split is_name_char (trim_spaces_left s)) as Hw.
  destruct (scan_while is_name_char (trim_spaces_left s)) as [name p]. destruct Hw as (Hw & _ & _).
  assert (p `suffix_of` s) as Hp by (etrans; [|exact Hs]; rewrite Hw; by exists name).
  destruct p as [|c u] eqn:Ep; [done|]. rewrite <-Ep in *. destruct name as [|d name]; [done|].
  cbn [on_attribute_name]. sm_step. pose proof (trim_left_suffix p) as Ht.
  destruct (trim_spaces_left p) as [|e q] eqn:Eq; [done|]. assert (e :: q `suffix_of` s) as Hq by (by etrans).
  destruct (is_char char_paren_bracket_left e).
  - assert (trim_spaces_left q `suffix_of` s) as Hqs by (etrans; [apply trim_left_suffix|by eapply suffix_cons_l]).
    eapply sm_safe_bind; [eapply sm_safe_bind; [apply parse_args_safe, (no_octal_suffix _ _ Hqs Hn)|]|].
    + intros r p' (Hr & m' & ->). pose proof (trim_left_suffix r) as Htr.
      instantiate (1 := λ r p', (∃ c t, r = c :: t) ∧ r `suffix_of` s ∧ ∃ n m', p' = Parser f (Some n) m').
      destruct (trim_spaces_left r) as [|x y]; [done|]. cbn. split; [by do 2 eexists|]. split; [|by do 2 eexists].
      etrans; [exact Htr|]. by etrans.
    + intros r p' ((c' & t' & ->) & Hr & n & m' & ->). by apply end_placeholder_safe.
  - by apply end_placeholder_safe.
Qed.

Lemma scan_literal_spec s :
  match scan_literal s with
  | Ok (a, b) => paired a ∧ s = a ++ b
  | Throw e => e = ex_parse_error 0
  | Stuck => False
  end.
Proof.
  induction s as [s IH] using (induction_ltof1 _ length). unfold ltof in IH.
  destruct s as [|c t]; [split; [constructor|done]|]. cbn [scan_literal]. destruct (is_char char_backslash c) eqn:E.
  - apply is_char_true in E as ->. destruct t as [|d t]; [done|].
    specialize (IH t ltac:(cbn; lia)). destruct (scan_literal t) as [[a b]|e|]; [|done..].
    destruct IH as (Hp & ->). split; [by constructor|done].
  - destruct (is_char char_percent c); [split; [constructor|done]|].
    specialize (IH t ltac:(cbn; lia)). destruct (scan_literal t) as [[a b]|e|]; [|done..].
    destruct IH as (Hp & ->). split; [|done]. constructor; [|done]. intros ->. by rewrite is_char_refl in E.
Qed.

Lemma push_literal_safe lit f : paired lit → no_octal lit →
  sm_safe ((match lit with [] => mret () | _ => push_string lit end) (Parser f None [])) (λ _ p, ∃ f', p = Parser f' None []).
Proof.
  intros Hp Hn. destruct lit as [|c t] eqn:E; [cbn; by eexists|]. rewrite <-E in *.
  unfold push_string, translate_escape_sequences.
  destruct (translate_total lit (length lit) [] Hp Hn) as (o & Ho); [done|]. rewrite sm_bind_run. cbn [sm_lift].
  rewrite Ho, append_formatter_run. by eexists.
Qed.

Lemma parse_format_safe fuel : ∀ s f, length s ≤ fuel → no_octal s →
  sm_safe (parse fuel s (Parser f None [])) (λ _ p, ∃ f', p = Parser f' None []).
Proof.
  induction fuel as [|fuel IH]; intros s f Hf Hn; (destruct s as [|c t] eqn:Es; [cbn; by eexists|]); [cbn in Hf; lia|].
  cbn [parse]. rewrite <-Es in *. pose proof (scan_literal_spec s) as Hs. rewrite sm_bind_run. cbn [sm_lift].
  destruct (scan_literal s) as [[lit p]|e|]; [|done..]. destruct Hs as (Hp & Hs). cbv beta iota.
  eapply sm_safe_bind; [apply push_literal_safe; [done|eapply no_octal_prefix; by rewrite <-Hs]|].
  intros _ σ (f' & ->). destruct p as [|d q]; [cbn; by eexists|].
  assert (q `suffix_of` s) as Hq by (exists (lit ++ [d]); by rewrite <-(assoc_L (++))).
  eapply sm_safe_bind; [apply parse_attribute_safe, (no_octal_suffix _ _ Hq Hn)|].
  intros rest σ (Hr & f1 & ->). apply IH; [|eapply no_octal_suffix; [by etrans|done]].
  apply suffix_length in Hr. rewrite Hs, length_app, length_cons in Hf. lia.
Qed.

(** Every format string is parsed or refused. For every format string
    without a backslash in front of an octal digit, and factories that return
    or throw, the parser ends, and it returns a formatter or throws; no
    iterator goes past the end of the text and no member that is not set is
    used. *)
Theorem formatter_parser_total s : no_octal s →
  match parse_formatter s with Ok _ => True | Throw _ => True | Stuck => False end.
Proof.
  intros Hn. unfold parse_formatter. pose proof (parse_format_safe (length s) s None (le_n _) Hn) as H.
  fold new_parser in H. destruct (parse (length s) s new_parser) as [[x|e|] p]; done.
Qed.

End safety.

End formatter_parser.

Module sample_formatter.

(** The values of two attributes and the message; the factory knows one
    argument, "upper". *)
Record record_values := RecordValues { line_id : str; message : str }.

#[export] Instance sample_factories : FormatterFactories record_values := {
  create_formatter name args :=
    if bool_decide (name = str_lit "LineID") then Ok (λ v, line_id v ++ (args ≫= snd))
    else Throw (ex_parse_error 0);
  message_formatter := message }.

Definition items : list item :=
  [Item (str_lit "100% ") (str_lit "LineID") [(str_lit "format", str_lit "a%b")]; Item (str_lit ": ") (str_lit "_") []].

Lemma formatter_roundtrip_witness :
  ∃ f, parse_formatter (print_format items (str_lit "\n")) = Ok f ∧
    f (RecordValues (str_lit "7") (str_lit "text")) = str_lit "100% 7a%b: text\n".
Proof.
  assert (Forall item_ok items) as Hok by (repeat split; repeat constructor; done).
  destruct (formatter_roundtrip items (str_lit "\n") Hok) as (f & E & H). exists f. split; [exact E|].
  by rewrite H.
Defined.

Lemma formatter_parser_total_witness :
  match parse_formatter (str_lit "%LineID(format=") with
  | Ok _ => True | Throw _ => True | Stuck => False
  end.
Proof.
  apply formatter_parser_total; [|done]. intros name args. cbn. by case_bool_decide.
Defined.

End sample_formatter.
