(* ===== verification/SettingsValues.v ===== *)
(** Values of parameters in settings (src/src/setup/init_from_settings.cpp):
    integers, flags, newline modes and the time points of file rotation. *)

From Stdlib Require Import ZArith Ascii String.
From stdpp Require Import base numbers list.
From S2P Require Import Prelude Decimal ParserUtils Rotation FileCollector TextFileBackend.
Local Open Scope Z_scope.

(** * Integers *)

(** [qi::extract_uint< T, 10, lo, hi >] for a [T] of [bits] bits: at least [lo]
    and at most [hi] digits are read; a number that does not fit is refused. *)
Class ExtractDigits := {
  extract_digits : Z → nat → option nat → str → option (Z * str);
  extract_digits_some : ∀ bits lo hi ds rest, all_digits ds → ds ≠ [] → (lo ≤ length ds)%nat →
    match hi with
    | Some n => (length ds ≤ n)%nat ∧ (length ds = n ∨ stops_digits rest)
    | None => stops_digits rest
    end →
    extract_digits bits lo hi (ds ++ rest) = if undec ds <? 2 ^ bits then Some (undec ds, rest) else None;
  extract_digits_none : ∀ bits lo hi ds rest, all_digits ds → stops_digits rest → (length ds < lo)%nat →
    extract_digits bits lo hi (ds ++ rest) = None }.

Section values.
Context {extract : ExtractDigits}.

(** [throw_invalid_value]. *)
Definition invalid_value {X} : outcome X := Throw ex_invalid_value.

(** [param_cast_to_int] for an unsigned type of [bits] bits. *)
Definition param_cast_to_int (bits : Z) (value : str) : outcome Z :=
  match extract_digits bits 1 None value with
  | Some (n, []) => Ok n
  | _ => invalid_value
  end.

(** * Flags *)

Definition tolower (c : ascii) : ascii :=
  if isupper c then ascii_of_nat (nat_of_ascii c + 32) else c.

Definition is_case_insensitive_equal (left right : ascii) : bool := bool_decide (tolower left = tolower right).

Definition true_keyword : str := str_lit "true".
Definition false_keyword : str := str_lit "false".

(** A keyword is compared when it has the length of the value. *)
Definition is_keyword (keyword value : str) : bool :=
  (length keyword =? length value)%nat && forallb (λ p, is_case_insensitive_equal p.1 p.2) (zip value keyword).

Definition param_cast_to_bool (value : str) : outcome bool :=
  if is_keyword true_keyword value then Ok true
  else if is_keyword false_keyword value then Ok false
  else let* n := param_cast_to_int 32 value in Ok (negb (n =? 0)).

Definition param_cast_to_auto_newline_mode (value : str) : outcome auto_newline_mode :=
  if bool_decide (value = str_lit "Disabled") then Ok disabled_auto_newline
  else if bool_decide (value = str_lit "AlwaysInsert") then Ok always_insert
  else if bool_decide (value = str_lit "InsertIfMissing") then Ok insert_if_missing
  else invalid_value.

(** * Time points *)

(** The names of weekdays with the numbers of [date_time::weekdays], in the
    order of the comparisons. *)
Definition weekday_names : list (str * str * Z) :=
  [(str_lit "Monday", str_lit "Mon", 1); (str_lit "Tuesday", str_lit "Tue", 2);
   (str_lit "Wednesday", str_lit "Wed", 3); (str_lit "Thursday", str_lit "Thu", 4);
   (str_lit "Friday", str_lit "Fri", 5); (str_lit "Saturday", str_lit "Sat", 6);
   (str_lit "Sunday", str_lit "Sun", 0)].

Definition is_weekday (s weekday short_weekday : str) : bool :=
  bool_decide (s = weekday) || bool_decide (s = short_weekday).

Fixpoint find_weekday (s : str) (names : list (str * str * Z)) : option Z :=
  match names with
  | [] => None
  | (long_name, short_name, d) :: names =>
      if is_weekday s long_name short_name then Some d else find_weekday s names
  end.

(** The character at a position; the string is terminated by a null. *)
Definition peek (s : str) : ascii := match s with c :: _ => c | [] => ascii_of_nat 0 end.

Definition colon : ascii := ":"%char.

(** An hour, a minute or a second. *)
Definition time_component (s : str) : option (Z * str) := extract_digits 8 2 (Some 2%nat) s.

(** [gregorian::greg_day]. *)
Definition greg_day (n : Z) : outcome Z :=
  if (1 <=? n) && (n <=? 31) then Ok n else Throw ex_bad_day_of_month.

(** The day in front of the time, and what follows it. The number of a day is
    checked when the predicate is constructed. *)
Definition parse_day (value : str) : outcome (day_kind * str) :=
  match value with
  | [] => Stuck
  | c :: t =>
      if isalpha c then
        let '(a, p) := scan_while isalpha t in
        match find_weekday (c :: a) weekday_names with
        | Some d => Ok (weekday d, p)
        | None => invalid_value
        end
      else
        let '(a, p) := scan_while is_digit t in
        if isspace (peek p) then
          match extract_digits 16 1 (Some 2%nat) (c :: a) with
          | Some (mday, []) => Ok (monthday mday, p)
          | _ => invalid_value
          end
        else if is_char colon (peek p) then Ok (not_specified, value)
        else invalid_value
  end.

(** Hour, minute and second up to the end of the value. *)
Definition parse_time (p : str) : outcome (Z * Z * Z) :=
  match time_component p with
  | Some (hour, p) =>
      if is_char colon (peek p) then
        match time_component (tail p) with
        | Some (minute, p) =>
            if is_char colon (peek p) then
              match time_component (tail p) with
              | Some (second, []) => Ok (hour, minute, second)
              | _ => invalid_value
              end
            else invalid_value
        | None => invalid_value
        end
      else invalid_value
  | None => invalid_value
  end.

Definition param_cast_to_rotation_time_point (value : str) : outcome rotation_at_time_point :=
  if isalnum (peek value) then
    let* (day, p) := parse_day value in
    let* (hour, minute, second) := parse_time (trim_spaces_left p) in
    let* day := match day with
                | monthday n => let* n := greg_day n in Ok (monthday n)
                | _ => Ok day
                end in
    make_rotation day hour minute second
  else invalid_value.

(** * What is accepted *)

(** ** Numbers *)

(** A run of digits that fits, up to the end of the string. *)
Definition numeral (bits : Z) (s : str) (n : Z) : Prop :=
  s ≠ [] ∧ all_digits s ∧ undec s = n ∧ n < 2 ^ bits.

Lemma extract_all bits s n :
  extract_digits bits 1 None s = Some (n, []) ↔ numeral bits s n.
Proof.
  split.
  - intros H. destruct (split_digits s) as (ds & rest & -> & Hd & Hr). destruct ds as [|c ds].
    { rewrite (extract_digits_none bits 1 None []) in H; [done|done|done|cbn; lia]. }
    rewrite extract_digits_some in H; [|done|done|cbn; lia|done].
    destruct (_ <? _) eqn:E; [|done]. to_prop. simplify_eq. rewrite app_nil_r. by split_and!.
  - intros (Hne & Hd & <- & Hlt). rewrite <- (app_nil_r s) at 1. rewrite extract_digits_some; [|done|done| |done].
    + destruct (_ <? _) eqn:E; [done|]. to_prop. lia.
    + destruct s; [done|]. cbn. lia.
Qed.

Lemma param_cast_to_int_exact bits s :
  match param_cast_to_int bits s with
  | Ok n => numeral bits s n
  | Throw e => e = ex_invalid_value ∧ ∀ n, ¬ numeral bits s n
  | Stuck => False
  end.
Proof.
  unfold param_cast_to_int. pose proof (extract_all bits s) as H.
  destruct (extract_digits bits 1 None s) as [[n [|c rest]]|] eqn:E.
  - by apply H.
  - split; [done|]. intros m Hm%H. done.
  - split; [done|]. intros m Hm%H. done.
Qed.

(** ** Flags *)

Lemma is_keyword_spec keyword value :
  is_keyword keyword value = true ↔ tolower <$> value = tolower <$> keyword.
Proof.
  unfold is_keyword. rewrite andb_true_iff, Nat.eqb_eq, forallb_forall.
  revert keyword. induction value as [|c s IH]; intros [|k keyword]; cbn.
  - by split.
  - split; [by intros []|done].
  - split; [by intros []|done].
  - specialize (IH keyword). unfold is_case_insensitive_equal in *. split.
    + intros [Hl H]. pose proof (H (c, k) (or_introl eq_refl)) as Hc. cbn in Hc. apply bool_decide_eq_true in Hc.
      f_equal; [done|]. apply IH. split; [lia|]. intros x Hx. apply H. by right.
    + intros [= Hc Hs]. apply IH in Hs as [Hl H]. split; [lia|]. intros x [<-|Hx]; [by apply bool_decide_eq_true|by apply H].
Qed.

(** The values of a flag. *)
Definition flag_text (s : str) (b : bool) : Prop :=
  (tolower <$> s = true_keyword ∧ b = true) ∨ (tolower <$> s = false_keyword ∧ b = false) ∨
  (∃ n, numeral 32 s n ∧ b = negb (n =? 0)).

Lemma param_cast_to_bool_exact s :
  match param_cast_to_bool s with
  | Ok b => flag_text s b
  | Throw e => e = ex_invalid_value ∧ ∀ b, ¬ flag_text s b
  | Stuck => False
  end.
Proof.
  unfold param_cast_to_bool, flag_text. pose proof (is_keyword_spec true_keyword s) as Ht.
  pose proof (is_keyword_spec false_keyword s) as Hf.
  change (tolower <$> true_keyword) with true_keyword in Ht. change (tolower <$> false_keyword) with false_keyword in Hf.
  destruct (is_keyword true_keyword s); [left; split; [by apply Ht|done]|].
  destruct (is_keyword false_keyword s); [right; left; split; [by apply Hf|done]|].
  pose proof (param_cast_to_int_exact 32 s) as Hn. destruct (param_cast_to_int 32 s) as [n|e|]; [|destruct Hn as [-> Hn]|done].
  - right. right. by exists n.
  - split; [done|]. intros b [[H _]|[[H _]|(n & H & _)]]; [by apply Ht in H|by apply Hf in H|by apply (Hn n)].
Qed.

(** ** Time points *)

Definition two_digits (n : Z) : str := [digit_char (n / 10); digit_char (n mod 10)].

Definition time_text (hour minute second : Z) : str :=
  two_digits hour ++ colon :: two_digits minute ++ colon :: two_digits second.

Definition spaces (ws : str) : Prop := Forall (λ c, isspace c) ws.

(** The day in front of the time: a name with or without spaces behind it, or
    a number of one or two digits with spaces behind it. *)
Inductive day_text : str → day_kind → Prop :=
  | day_text_none : day_text [] not_specified
  | day_text_week long_name short_name d name ws :
      (long_name, short_name, d) ∈ weekday_names → name = long_name ∨ name = short_name → spaces ws →
      day_text (name ++ ws) (weekday d)
  | day_text_month ds ws :
      all_digits ds → (1 ≤ length ds ≤ 2)%nat → 1 ≤ undec ds ≤ 31 → spaces ws → ws ≠ [] →
      day_text (ds ++ ws) (monthday (undec ds)).

Lemma digit_inverse c : is_digit c = true → digit_char (digit_value c) = c ∧ 0 ≤ digit_value c < 10.
Proof. destruct c as [[] [] [] [] [] [] [] []]; vm_compute; (done || by split_and!). Qed.

Lemma time_component_spec s n rest :
  time_component s = Some (n, rest) ↔ s = two_digits n ++ rest ∧ 0 ≤ n < 100.
Proof.
  unfold time_component. split.
  - intros H. destruct (split_digits s) as (ds & r & -> & Hd & Hr). destruct ds as [|c [|d ds]].
    { rewrite (extract_digits_none _ _ _ [] r) in H; [done|done|done|cbn; lia]. }
    { rewrite (extract_digits_none _ _ _ [c] r) in H; [done|done|done|cbn; lia]. }
    apply Forall_cons in Hd as [Hc [Hd Hds]%Forall_cons].
    change ((c :: d :: ds) ++ r) with ([c; d] ++ (ds ++ r)) in *.
    rewrite extract_digits_some in H; [|by repeat constructor|done|done|by split; [|left]].
    destruct (digit_inverse c Hc) as [Ec Hvc]. destruct (digit_inverse d Hd) as [Ed Hvd].
    unfold undec in H. cbn [fold_left] in H. destruct (_ <? _) eqn:E; [|done]. simplify_eq.
    replace (0 * 10 + digit_value c) with (digit_value c) by lia. split; [|lia]. unfold two_digits.
    assert ((digit_value c * 10 + digit_value d) / 10 = digit_value c) as -> by (rewrite Z.div_add_l, Z.div_small; lia).
    assert ((digit_value c * 10 + digit_value d) mod 10 = digit_value d) as ->
      by (rewrite Z.add_comm, Z.mod_add, Z.mod_small; lia).
    by rewrite Ec, Ed.
  - intros [-> Hn]. pose proof (Z.div_mod n 10 ltac:(lia)). pose proof (Z.mod_pos_bound n 10 ltac:(lia)).
    destruct (digit_char_ok (n / 10)) as [H1 V1]; [lia|]. destruct (digit_char_ok (n mod 10)) as [H2 V2]; [lia|].
    rewrite extract_digits_some; [|by repeat constructor|done|done|by split; [|left]].
    unfold undec. cbn [two_digits fold_left]. rewrite V1, V2. replace ((0 * 10 + n / 10) * 10 + n mod 10) with n by lia.
    destruct (n <? 2 ^ 8) eqn:E; [done|]. to_prop. lia.
Qed.

Lemma peek_colon p : is_char colon (peek p) = true → p = colon :: tail p.
Proof. destruct p as [|c p]; [done|]. cbn. by intros ->%is_char_true. Qed.

Lemma parse_time_exact p :
  match parse_time p with
  | Ok (h, m, s) => p = time_text h m s ∧ 0 ≤ h < 100 ∧ 0 ≤ m < 100 ∧ 0 ≤ s < 100
  | Throw e => e = ex_invalid_value
  | Stuck => False
  end.
Proof.
  unfold parse_time. destruct (time_component p) as [[h p1]|] eqn:E1; [|done]. apply time_component_spec in E1 as [-> Hh].
  destruct (is_char colon (peek p1)) eqn:C1; [|done]. rewrite (peek_colon p1 C1).
  destruct (time_component (tail p1)) as [[m p2]|] eqn:E2; cbn [tail]; rewrite ?E2; [|done].
  apply time_component_spec in E2 as [-> Hm].
  destruct (is_char colon (peek p2)) eqn:C2; [|done]. rewrite (peek_colon p2 C2).
  destruct (time_component (tail p2)) as [[s [|c p3]]|] eqn:E3; cbn [tail]; rewrite ?E3; [|done..].
  apply time_component_spec in E3 as [-> Hs]. by rewrite app_nil_r.
Qed.

Lemma parse_time_ok h m s : 0 ≤ h < 100 → 0 ≤ m < 100 → 0 ≤ s < 100 → parse_time (time_text h m s) = Ok (h, m, s).
Proof.
  intros Hh Hm Hs. unfold parse_time, time_text.
  assert (∀ n rest, 0 ≤ n < 100 → time_component (two_digits n ++ rest) = Some (n, rest)) as H
    by (intros; by apply time_component_spec).
  rewrite H by done. cbn [peek]. rewrite is_char_refl. cbn [tail]. rewrite H by done. cbn [peek]. rewrite is_char_refl.
  cbn [tail]. rewrite <- (app_nil_r (two_digits s)), H by done. done.
Qed.

Lemma time_text_head h m s : 0 ≤ h < 100 → ∃ c t, time_text h m s = c :: t ∧ is_digit c = true.
Proof.
  intros Hh. do 2 eexists. split; [done|]. apply digit_char_ok.
  split; [apply Z.div_pos; lia|apply Z.div_lt_upper_bound; lia].
Qed.

Lemma digit_char_kinds c : is_digit c = true →
  isspace c = false ∧ isalpha c = false ∧ isalnum c = true ∧ is_char colon c = false.
Proof. destruct c as [[] [] [] [] [] [] [] []]; vm_compute; done. Qed.

Lemma find_weekday_some s names d : find_weekday s names = Some d →
  ∃ long_name short_name, (long_name, short_name, d) ∈ names ∧ (s = long_name ∨ s = short_name).
Proof.
  induction names as [|[[l sh] d'] names IH]; cbn; [done|]. unfold is_weekday. destruct (_ || _) eqn:E.
  - intros [= ->]. exists l, sh. split; [by left|]. apply orb_true_iff in E as [E|E]; apply bool_decide_eq_true in E; auto.
  - intros (l' & sh' & Hin & Hs)%IH. exists l', sh'. split; [by right|done].
Qed.

(** A name of a weekday has letters only, and it is found. *)
Lemma weekday_name_ok l sh d name : (l, sh, d) ∈ weekday_names → name = l ∨ name = sh →
  find_weekday name weekday_names = Some d ∧ 0 ≤ d < 7 ∧
  ∃ c t, name = c :: t ∧ isalpha c = true ∧ Forall (λ c, isalpha c) t.
Proof.
  unfold weekday_names at 1. rewrite !elem_of_cons, elem_of_nil. intros H Hn.
  destruct_or! H; try done; simplify_eq; destruct Hn as [-> | ->]; (split; [by vm_compute|]);
    (split; [lia|]); do 2 eexists; (split; [done|]); split; [done|repeat constructor| done |repeat constructor..].
Qed.

Lemma trim_left_split s : ∃ ws, spaces ws ∧ s = ws ++ trim_spaces_left s.
Proof.
  induction s as [|c s (ws & Hw & E)]; [by exists []; split; [constructor|]|]. cbn. destruct (isspace c) eqn:Hc.
  - exists (c :: ws). split; [constructor; [by rewrite Hc|done]|]. cbn. by rewrite <- E.
  - exists []. split; [constructor|done].
Qed.

(** The day that was read and where the time begins. *)
Definition day_read (value : str) (day : day_kind) (p : str) : Prop :=
  match day with
  | not_specified => p = value ∧ trim_spaces_left value = value
  | weekday d => ∃ l sh name, (l, sh, d) ∈ weekday_names ∧ (name = l ∨ name = sh) ∧ value = name ++ p
  | monthday n => ∃ ds, all_digits ds ∧ (1 ≤ length ds ≤ 2)%nat ∧ undec ds = n ∧ value = ds ++ p ∧ isspace (peek p) = true
  end.

Lemma day_number ds n : all_digits ds → extract_digits 16 1 (Some 2%nat) ds = Some (n, []) →
  (1 ≤ length ds ≤ 2)%nat ∧ undec ds = n.
Proof.
  intros Hd H. destruct ds as [|c [|d [|e ds]]].
  - rewrite <- (app_nil_r []), extract_digits_none in H; [done|done|done|cbn; lia].
  - rewrite <- (app_nil_r [c]), extract_digits_some in H; [|done|done|done|split; [cbn; lia|by right]].
    destruct (_ <? _); [|done]. simplify_eq. split; [cbn; lia|done].
  - rewrite <- (app_nil_r [c; d]), extract_digits_some in H; [|done|done|cbn; lia|by split; [|left]].
    destruct (_ <? _); [|done]. simplify_eq. split; [cbn; lia|done].
  - apply Forall_cons in Hd as [Hc [Hd _]%Forall_cons]. change (c :: d :: e :: ds) with ([c; d] ++ e :: ds) in H.
    rewrite extract_digits_some in H; [|by repeat constructor|done|cbn; lia|by split; [|left]].
    by destruct (_ <? _).
Qed.

Lemma parse_day_exact value : isalnum (peek value) = true →
  match parse_day value with
  | Ok (day, p) => day_read value day p
  | Throw e => e = ex_invalid_value
  | Stuck => False
  end.
Proof.
  destruct value as [|c t]; [done|]. cbn [peek parse_day]. intros Hc. destruct (isalpha c) eqn:Ea.
  - pose proof (scan_while_split isalpha t) as Hs. destruct (scan_while isalpha t) as [a p]. destruct Hs as (-> & _ & _).
    destruct (find_weekday _ _) as [d|] eqn:E; [|done]. apply find_weekday_some in E as (l & sh & Hin & Hn).
    by exists l, sh, (c :: a).
  - assert (is_digit c = true) as Hd by (unfold isalnum in Hc; by rewrite Ea in Hc).
    pose proof (scan_while_split is_digit t) as Hs. destruct (scan_while is_digit t) as [a p]. destruct Hs as (-> & Ha & _).
    destruct (isspace (peek p)) eqn:Es.
    + destruct (extract_digits _ _ _ _) as [[n [|? ?]]|] eqn:En; [|done..].
      assert (all_digits (c :: a)) as Hda by (constructor; [done|]; eapply Forall_impl; [exact Ha|]; intros; by apply Is_true_true).
      apply day_number in En as [Hl Hn]; [|done]. by exists (c :: a).
    + destruct (is_char colon (peek p)); [|done]. split; [done|]. apply trim_left_id. by apply digit_char_kinds.
Qed.

Lemma parse_day_ok text day h m s : day_text text day → 0 ≤ h < 100 →
  ∃ p, parse_day (text ++ time_text h m s) = Ok (day, p) ∧ trim_spaces_left p = time_text h m s ∧
       isalnum (peek (text ++ time_text h m s)) = true.
Proof.
  intros Ht Hh. destruct (time_text_head h m s Hh) as (c & t & Ect & Hc).
  destruct (digit_char_kinds c Hc) as (Hsp & Hal & Han & _). destruct Ht as [|l sh d name ws Hin Hn Hw|ds ws Hd Hl Hv Hw Hne].
  - exists (time_text h m s). cbn [app]. rewrite Ect. split; [|split; [by apply trim_left_id|done]].
    cbn [parse_day]. rewrite Hal. unfold time_text, two_digits in Ect. cbn [app] in Ect. injection Ect as <- <-.
    pose proof (Z.mod_pos_bound h 10 ltac:(lia)) as Hm. destruct (digit_char_ok (h mod 10) Hm) as [Hd _].
    match goal with |- context [scan_while is_digit (?x :: ?r)] => change (x :: r) with ([x] ++ r) end.
    rewrite (scan_while_app is_digit [digit_char (h mod 10)]); [|by repeat constructor; rewrite Hd|by intros ? ? [= <- <-]].
    done.
  - destruct (weekday_name_ok l sh d name Hin Hn) as (Hf & _ & c' & a & -> & Hc' & Ha).
    exists (ws ++ time_text h m s). cbn [app parse_day peek]. rewrite Hc'. rewrite <- app_assoc.
    rewrite (scan_while_app isalpha a); [|done|].
    + rewrite Hf. split; [done|]. split; [|unfold isalnum; by rewrite Hc'].
      rewrite trim_left_app by done. rewrite Ect. by apply trim_left_id.
    + intros e u. destruct Hw as [|x ws Hx _]; [rewrite Ect; by intros [= <- <-]|]. intros [= <- <-].
      revert Hx. destruct x as [[] [] [] [] [] [] [] []]; vm_compute; done.
  - exists (ws ++ time_text h m s). destruct ds as [|c' a]; [cbn in Hl; lia|]. apply Forall_cons in Hd as [Hc' Ha].
    destruct (digit_char_kinds c' Hc') as (_ & Hal' & Han' & _). cbn [app parse_day peek]. rewrite Hal', <- app_assoc.
    destruct ws as [|x ws]; [done|]. apply Forall_cons in Hw as Hxw. destruct Hxw as [Hx _].
    rewrite (scan_while_app is_digit a).
    + cbn [app peek]. apply Is_true_true in Hx as ->.
      rewrite <- (app_nil_r (c' :: a)) at 1. rewrite extract_digits_some; [|by constructor|done|lia|split; [lia|by right]].
      destruct (_ <? _) eqn:E; [|to_prop; lia]. split; [done|]. split; [|done].
      change (x :: ws ++ time_text h m s) with ((x :: ws) ++ time_text h m s). rewrite trim_left_app by done. rewrite Ect. by apply trim_left_id.
    + eapply Forall_impl; [exact Ha|]. intros ? H. by rewrite H.
    + intros e u [= <- <-]. revert Hx. destruct x as [[] [] [] [] [] [] [] []]; vm_compute; done.
Qed.

(** A text that stands for a rotation: a day, or none, and a time. *)
Definition time_point_text (value : str) (r : rotation_at_time_point) : Prop :=
  ∃ text day h m s, day_text text day ∧ value = text ++ time_text h m s ∧
    0 ≤ h < 24 ∧ 0 ≤ m < 60 ∧ 0 ≤ s < 60 ∧ r = RotationPoint day h m s None.

Lemma make_rotation_exact day h m s : 0 ≤ h → 0 ≤ m → 0 ≤ s →
  match make_rotation day h m s with
  | Ok r => r = RotationPoint day h m s None ∧ h < 24 ∧ m < 60 ∧ s < 60
  | Throw e => e = ex_out_of_range
  | Stuck => False
  end.
Proof.
  intros. unfold make_rotation, check_time_point_validity.
  destruct (24 <=? h) eqn:E1; [done|]. destruct (60 <=? m) eqn:E2; [done|]. destruct (60 <=? s) eqn:E3; [done|].
  to_prop. cbn. split; [done|lia].
Qed.

(** The day that was read, once its number was checked, and the spaces behind
    it are the text of a day. *)
Lemma day_read_text value day p : day_read value day p →
  match day with monthday n => 1 ≤ n ≤ 31 | _ => True end →
  ∃ text, day_text text day ∧ value = text ++ trim_spaces_left p.
Proof.
  destruct (trim_left_split p) as (ws & Hw & E). destruct day as [|d|n]; cbn.
  - intros [-> Ht] _. exists []. split; [constructor|]. by rewrite Ht.
  - intros (l & sh & name & Hin & Hn & ->) _. exists (name ++ ws). split; [by econstructor|]. by rewrite <- app_assoc, <- E.
  - intros (ds & Hd & Hl & <- & -> & Hs) Hr. exists (ds ++ ws). split; [|by rewrite <- app_assoc, <- E].
    constructor; [done..|]. intros ->. destruct p as [|c p]; [done|]. cbn in E, Hs.
    rewrite Hs in E. apply (f_equal length) in E. pose proof (trim_left_length p). cbn in E. lia.
Qed.

Lemma time_point_sound value r :
  param_cast_to_rotation_time_point value = Ok r → time_point_text value r.
Proof.
  unfold param_cast_to_rotation_time_point. destruct (isalnum (peek value)) eqn:Ea; [|done].
  pose proof (parse_day_exact value Ea) as Hd. destruct (parse_day value) as [[day p]|e|]; [|done..]. cbn [obind].
  pose proof (parse_time_exact (trim_spaces_left p)) as Ht.
  destruct (parse_time (trim_spaces_left p)) as [[[h m] s]|e|]; [|done..]. cbn [obind].
  destruct Ht as (Et & Hh & Hm & Hs).
  assert (∀ day', make_rotation day' h m s = Ok r → day' = day → match day with monthday n => 1 ≤ n ≤ 31 | _ => True end →
    time_point_text value r) as Hfin.
  { intros day' Hr -> Hn. pose proof (make_rotation_exact day h m s ltac:(lia) ltac:(lia) ltac:(lia)) as Hx. rewrite Hr in Hx.
    destruct Hx as (-> & ? & ? & ?). destruct (day_read_text value day p Hd Hn) as (text & Htx & ->).
    exists text, day, h, m, s. rewrite Et. split_and!; try done; lia. }
  destruct day as [|d|n]; cbn [obind]; intros Hr; [by eapply Hfin..|].
  unfold greg_day in Hr. destruct (_ && _) eqn:E; [|done]. cbn [obind] in Hr. to_prop. eapply Hfin; [exact Hr|done|lia].
Qed.

Lemma time_point_complete value r :
  time_point_text value r → param_cast_to_rotation_time_point value = Ok r.
Proof.
  intros (text & day & h & m & s & Ht & -> & Hh & Hm & Hs & ->).
  destruct (parse_day_ok text day h m s Ht ltac:(lia)) as (p & Hp & Etr & Hal).
  unfold param_cast_to_rotation_time_point. rewrite Hal, Hp. cbn [obind]. rewrite Etr, parse_time_ok by lia. cbn [obind].
  assert (make_rotation day h m s = Ok (RotationPoint day h m s None)) as Hr.
  { unfold make_rotation, check_time_point_validity. destruct (24 <=? h) eqn:E1; [to_prop; lia|].
    destruct (60 <=? m) eqn:E2; [to_prop; lia|]. by destruct (60 <=? s) eqn:E3; [to_prop; lia|]. }
  destruct Ht as [| |ds ws _ _ Hv _ _]; [done..|]. unfold greg_day.
  destruct (1 <=? undec ds) eqn:E1; [|to_prop; lia]. by destruct (undec ds <=? 31) eqn:E2; [|to_prop; lia].
Qed.

Lemma time_point_safe value : param_cast_to_rotation_time_point value ≠ Stuck.
Proof.
  unfold param_cast_to_rotation_time_point. destruct (isalnum (peek value)) eqn:Ea; [|done].
  pose proof (parse_day_exact value Ea) as Hd. destruct (parse_day value) as [[day p]|e|]; [|done..]. cbn [obind].
  pose proof (parse_time_exact (trim_spaces_left p)) as Ht.
  destruct (parse_time (trim_spaces_left p)) as [[[h m] s]|e|]; [|done..]. cbn [obind].
  assert (∀ day', make_rotation day' h m s ≠ Stuck) as Hr.
  { intros day'. pose proof (make_rotation_exact day' h m s) as Hx. destruct Ht as (_ & ? & ? & ?).
    destruct (make_rotation day' h m s); [done..|]. destruct Hx; lia. }
  destruct day as [|d|n]; cbn [obind]; [apply Hr..|]. unfold greg_day. destruct (_ && _); [apply Hr|done].
Qed.

(** Time points of file rotation. The value of the parameter is accepted
    exactly when it has one of the documented forms, a time of the day alone,
    behind the short or long name of a weekday, or behind the number of a day
    of the month, and the predicate that is constructed has that day and that
    time; the hour is below 24, the minute and the second below 60 and the day
    between 1 and 31. No character behind the end of the value is read. *)
Theorem rotation_time_point_exact value r :
  param_cast_to_rotation_time_point value ≠ Stuck ∧
  (param_cast_to_rotation_time_point value = Ok r ↔ time_point_text value r) ∧
  (time_point_text value r → rotation_wf r).
Proof.
  split; [apply time_point_safe|]. split; [split; [apply time_point_sound|apply time_point_complete]|].
  intros (text & day & h & m & s & Ht & _ & Hh & Hm & Hs & ->). split_and!; cbn; [lia..|].
  destruct Ht as [|l sh d name ws Hin Hn _|]; [done| |done]. by destruct (weekday_name_ok l sh d name Hin Hn) as (_ & ? & _).
Qed.
End values.

(** * A parser of digits *)

Definition spirit_extract_digits (bits : Z) (lo : nat) (hi : option nat) (s : str) : option (Z * str) :=
  let '(ds, rest) := take_digits s in
  let n := match hi with Some n => Nat.min n (length ds) | None => length ds end in
  if (n <? lo)%nat || (n =? 0)%nat then None
  else if undec (take n ds) <? 2 ^ bits then Some (undec (take n ds), drop n ds ++ rest) else None.

#[export] Program Instance spirit_digits : ExtractDigits := {| extract_digits := spirit_extract_digits |}.
Next Obligation.
  intros bits lo hi ds rest Hd Hne Hlo Hhi. cbn. unfold spirit_extract_digits.
  destruct (split_digits rest) as (ds2 & r & -> & Hd2 & Hr).
  rewrite app_assoc, take_digits_app by (done || by apply all_digits_app).
  assert (match hi with Some n => Nat.min n (length (ds ++ ds2)) | None => length (ds ++ ds2) end = length ds) as ->.
  { rewrite length_app. destruct hi as [n|].
    - destruct Hhi as [Hn [Hn'|Hst]]; [lia|]. destruct ds2 as [|c ds2]; [cbn; lia|].
      apply Forall_cons in Hd2 as [Hc _]. cbn in Hst. congruence.
    - destruct ds2 as [|c ds2]; [cbn; lia|]. apply Forall_cons in Hd2 as [Hc _]. cbn in Hhi. congruence. }
  destruct ds as [|c ds]; [done|]. destruct (_ || _) eqn:E.
  { apply orb_true_iff in E as [E|E]; [apply Nat.ltb_lt in E; cbn in *; lia|done]. }
  by rewrite take_app_length, drop_app_length.
Qed.
Next Obligation.
  intros bits lo hi ds rest Hd Hr Hlo. cbn. unfold spirit_extract_digits. rewrite take_digits_app by done.
  destruct (_ || _) eqn:E; [done|]. apply orb_false_iff in E as [E _]. apply Nat.ltb_ge in E. destruct hi; lia.
Qed.

Module sample_values.
(** Rotation on Saturdays at half past nine. *)
Lemma rotation_time_point_exact_witness :
  param_cast_to_rotation_time_point (str_lit "Sat 09:30:00") = Ok (RotationPoint (weekday 6) 9 30 0 None) ∧
  rotation_wf (RotationPoint (weekday 6) 9 30 0 None).
Proof.
  destruct (rotation_time_point_exact (str_lit "Sat 09:30:00") (RotationPoint (weekday 6) 9 30 0 None)) as (_ & Hi & Hw).
  assert (param_cast_to_rotation_time_point (str_lit "Sat 09:30:00") = Ok (RotationPoint (weekday 6) 9 30 0 None)) as E
    by (vm_compute; reflexivity).
  split; [exact E|]. apply Hw, Hi, E.
Defined.
End sample_values.
