(* ===== verification/InitSettings.v ===== *)
(** Setup of the library from settings (src/src/setup/init_from_settings.cpp):
    the factories of sinks, the repository of factories, and the initialization
    of the core with a set of sinks.

    A settings section is an interface. Filters and formatters are made by the
    parsers of [FilterParser] and [FormatterParser]; a text file backend is the
    one of [TextFileBackend] with its settings. *)

From Stdlib Require Import ZArith Ascii String.
From stdpp Require Import base numbers list gmap strings.
From S2P Require Import Prelude Decimal ParserUtils FileNamePattern FileCollector TextFileBackend Rotation Core.
From S2P Require Import FilterParser DefaultFilter FormatterParser SettingsValues.
Local Open Scope Z_scope.

(** * Interfaces *)

(** What is used of [basic_settings_section]: the value of a parameter, the
    section of a name, the sections inside in their order, and whether there is
    nothing inside. *)
Class SettingsSection (section : Type) := {
  param : section → str → option str;
  subsection : section → str → option section;
  children : section → list section;
  section_empty : section → bool }.

(** [boost::none] parameters are skipped. *)
Definition with_param {section St} `{!SettingsSection section} (params : section) (name : string)
    (k : str → sm St unit) : sm St unit :=
  match param params (str_lit name) with
  | Some v => k v
  | None => mret ()
  end.

Lemma with_param_none {section St} `{!SettingsSection section} (params : section) name (k : str → sm St unit) :
  param params (str_lit name) = None → with_param params name k = mret ().
Proof. unfold with_param. by intros ->. Qed.

(** * Frontends *)

(** A frontend with its backend. The exception handler of an asynchronous
    frontend suppresses exceptions. *)
Record frontend (B values : Type) := Frontend {
  f_backend : B;
  f_async : bool;
  f_formatter : option (values → str);
  f_suppress : bool;
  f_filter : values → bool }.
Arguments Frontend {B values}.
Arguments f_backend {B values}.
Arguments f_async {B values}.
Arguments f_formatter {B values}.
Arguments f_suppress {B values}.
Arguments f_filter {B values}.

Section frontends.
Context {section values : Type} `{!SettingsSection section} `{!FilterFactories values} `{!FormatterFactories values}.
Context {extract : ExtractDigits}.

(** A filter that is not set passes every record. *)
Definition filter_param (params : section) : outcome (values → bool) :=
  match param params (str_lit "Filter") with
  | Some s => parse_filter s
  | None => Ok (λ _, true)
  end.

Definition bool_param (params : section) (name : string) (def : bool) : outcome bool :=
  match param params (str_lit name) with
  | Some s => param_cast_to_bool s
  | None => Ok def
  end.

(** [init_formatter], for backends that need formatted records. *)
Definition init_formatter (params : section) (formatting : bool) : outcome (option (values → str)) :=
  if formatting then
    match param params (str_lit "Format") with
    | Some s => let* f := parse_formatter s in Ok (Some f)
    | None => Ok None
    end
  else Ok None.

(** [init_sink]. *)
Definition init_sink {B} (backend : B) (params : section) (formatting : bool) : outcome (frontend B values) :=
  let* filt := filter_param params in
  let* async := bool_param params "Asynchronous" false in
  let* fmt := init_formatter params formatting in
  Ok (Frontend backend async fmt async filt).
End frontends.

(** * The text file sink *)

Section text_file.
Context {section : Type} `{!SettingsSection section} {extract : ExtractDigits} {extract_counter : ExtractUint}.
Context {C F FS P : Type} `{!EqDecision P} `{!FileSystem FS P} `{!FileStream F FS P} `{!Collector C FS P}.
(** [filesystem::path] of a string, the current directory, [make_collector] and
    the call of a rotation predicate. *)
Context (path_of : str → P) (current_path : P) (make_collector : P → Z → Z → Z → sm FS C)
  (time_predicate : rotation_at_time_interval + rotation_at_time_point → sm FS bool).

Abbreviation config := (settings F FS P).
Abbreviation state := (running C F P).
Abbreviation M := (sm ((config * state) * FS)).

(** ** The setters of the backend *)

Definition update (f : config → config) : M unit := sm_modify (λ '((s, b), w), ((f s, b), w)).

Definition with_pattern (pat dir : P) (gen : pattern_scan) (s : config) : config :=
  Settings pat dir gen (m_Target s) (m_FileOpenMode s) (m_OpenHandler s) (m_CloseHandler s) (m_FileRotationSize s)
    (m_TimeBasedRotation s) (m_AutoNewlineMode s) (m_AutoFlush s) (m_FinalRotationEnabled s).
Definition with_target (t : option (P * P * pattern_scan)) (s : config) : config :=
  Settings (m_FileNamePattern s) (m_BackendDir s) (m_FileNameGenerator s) t (m_FileOpenMode s) (m_OpenHandler s)
    (m_CloseHandler s) (m_FileRotationSize s) (m_TimeBasedRotation s) (m_AutoNewlineMode s) (m_AutoFlush s)
    (m_FinalRotationEnabled s).
Definition with_mode (mode : open_mode) (s : config) : config :=
  Settings (m_FileNamePattern s) (m_BackendDir s) (m_FileNameGenerator s) (m_Target s) mode (m_OpenHandler s)
    (m_CloseHandler s) (m_FileRotationSize s) (m_TimeBasedRotation s) (m_AutoNewlineMode s) (m_AutoFlush s)
    (m_FinalRotationEnabled s).
Definition set_rotation_size (size : Z) (s : config) : config :=
  Settings (m_FileNamePattern s) (m_BackendDir s) (m_FileNameGenerator s) (m_Target s) (m_FileOpenMode s) (m_OpenHandler s)
    (m_CloseHandler s) size (m_TimeBasedRotation s) (m_AutoNewlineMode s) (m_AutoFlush s) (m_FinalRotationEnabled s).
Definition set_time_based_rotation (predicate : option (sm FS bool)) (s : config) : config :=
  Settings (m_FileNamePattern s) (m_BackendDir s) (m_FileNameGenerator s) (m_Target s) (m_FileOpenMode s) (m_OpenHandler s)
    (m_CloseHandler s) (m_FileRotationSize s) predicate (m_AutoNewlineMode s) (m_AutoFlush s) (m_FinalRotationEnabled s).
Definition set_auto_newline_mode (mode : auto_newline_mode) (s : config) : config :=
  Settings (m_FileNamePattern s) (m_BackendDir s) (m_FileNameGenerator s) (m_Target s) (m_FileOpenMode s) (m_OpenHandler s)
    (m_CloseHandler s) (m_FileRotationSize s) (m_TimeBasedRotation s) mode (m_AutoFlush s) (m_FinalRotationEnabled s).
Definition auto_flush (enable : bool) (s : config) : config :=
  Settings (m_FileNamePattern s) (m_BackendDir s) (m_FileNameGenerator s) (m_Target s) (m_FileOpenMode s) (m_OpenHandler s)
    (m_CloseHandler s) (m_FileRotationSize s) (m_TimeBasedRotation s) (m_AutoNewlineMode s) enable (m_FinalRotationEnabled s).
Definition enable_final_rotation (enable : bool) (s : config) : config :=
  Settings (m_FileNamePattern s) (m_BackendDir s) (m_FileNameGenerator s) (m_Target s) (m_FileOpenMode s) (m_OpenHandler s)
    (m_CloseHandler s) (m_FileRotationSize s) (m_TimeBasedRotation s) (m_AutoNewlineMode s) (m_AutoFlush s) enable.

Definition set_file_name_pattern (pattern : P) : M unit :=
  '(pat, dir, gen) ← sm_lift (parse_pattern current_path
    (if decide (pattern = empty_path) then append empty_path default_file_name_pattern else pattern));
  update (with_pattern pat dir gen).

Definition set_target_file_name_pattern (pattern : P) : M unit :=
  if decide (pattern = empty_path) then update (with_target None)
  else t ← sm_lift (parse_pattern current_path pattern); update (with_target (Some t)).

(** [rotation_at_time_interval]; the constructor asserts that the interval is
    not empty. *)
Definition make_interval (seconds : Z) : outcome rotation_at_time_interval :=
  if 0 <? seconds then Ok (RotationInterval seconds None) else Stuck.

(** ** The factory *)

Definition uintmax_max : Z := 2 ^ 64 - 1.

Definition int_param (params : section) (name : string) (bits def : Z) : outcome Z :=
  match param params (str_lit name) with
  | Some s => param_cast_to_int bits s
  | None => Ok def
  end.

(** File rotation by time: an interval goes before a time point. *)
Definition rotation_params (params : section) : M unit :=
  match param params (str_lit "RotationInterval") with
  | Some v =>
      n ← sm_lift (param_cast_to_int 32 v);
      r ← sm_lift (make_interval n);
      update (set_time_based_rotation (Some (time_predicate (inl r))))
  | None =>
      with_param params "RotationTimePoint" (λ v,
        r ← sm_lift (param_cast_to_rotation_time_point v);
        update (set_time_based_rotation (Some (time_predicate (inr r)))))
  end.

(** [scan_for_files] of the backend. *)
Definition scan (method : scan_method) : M unit := λ '((s, b), w),
  let '(r, (b', w')) := scan_for_files s method true (b, w) in
  (let* _ := r in Ok (), ((s, b'), w')).

Definition scan_param (value : str) : M unit :=
  if bool_decide (value = str_lit "All") then scan scan_all
  else if bool_decide (value = str_lit "Matching") then scan scan_matching
  else sm_throw ex_invalid_value.

(** The parameters of the file collector. *)
Definition collector_params (params : section) : M unit :=
  with_param params "Target" (λ target,
    max_size ← sm_lift (int_param params "MaxSize" 64 uintmax_max);
    space ← sm_lift (int_param params "MinFreeSpace" 64 0);
    max_files ← sm_lift (int_param params "MaxFiles" 64 uintmax_max);
    (λ '((s, b), w),
      let '(r, w') := make_collector (path_of target) max_size space max_files w in
      match r with
      | Ok c => (Ok (), ((s, set_file_collector (Some c) b), w'))
      | Throw e => (Throw e, ((s, b), w'))
      | Stuck => (Stuck, ((s, b), w'))
      end);;
    with_param params "ScanForFiles" scan_param).

(** The parameters of the backend in their order. *)
Definition file_params (params : section) : M unit :=
  match param params (str_lit "FileName") with
  | Some v => set_file_name_pattern (path_of v)
  | None => sm_throw ex_missing_value
  end;;
  with_param params "TargetFileName" (λ v, set_target_file_name_pattern (path_of v));;
  with_param params "RotationSize" (λ v, n ← sm_lift (param_cast_to_int 64 v); update (set_rotation_size n));;
  rotation_params params;;
  with_param params "EnableFinalRotation" (λ v, x ← sm_lift (param_cast_to_bool v); update (enable_final_rotation x));;
  with_param params "AutoNewline" (λ v, m ← sm_lift (param_cast_to_auto_newline_mode v); update (set_auto_newline_mode m));;
  with_param params "AutoFlush" (λ v, x ← sm_lift (param_cast_to_bool v); update (auto_flush x));;
  with_param params "Append" (λ v,
    x ← sm_lift (param_cast_to_bool v);
    if x : bool then update (with_mode (set_open_mode (OpenMode false true true false false false))) else mret ());;
  collector_params params.

(** A backend with the defaults of the constructor. *)
Definition default_backend : outcome (config * state) :=
  construct current_path None None (OpenMode false true false false true false) uintmax_max None
    insert_if_missing false true.

Definition text_file_backend (params : section) : sm FS (config * state) := λ w,
  match default_backend with
  | Ok b => let '(r, (b', w')) := file_params params (b, w) in (let* _ := r in Ok b', w')
  | Throw e => (Throw e, w)
  | Stuck => (Stuck, w)
  end.

(** ** What the factory produces *)

(** A parameter that may be absent. *)
Definition read_param {X} (params : section) (name : string) (cast : str → outcome X) : outcome (option X) :=
  match param params (str_lit name) with
  | Some v => let* x := cast v in Ok (Some x)
  | None => Ok None
  end.

Definition rotation_read (params : section) : outcome (option (rotation_at_time_interval + rotation_at_time_point)) :=
  match param params (str_lit "RotationInterval") with
  | Some v => let* n := param_cast_to_int 32 v in Ok (Some (inl (RotationInterval n None)))
  | None => read_param params "RotationTimePoint" (λ v, let* r := param_cast_to_rotation_time_point v in Ok (inr r))
  end.

(** The settings that were asked for, with the defaults of the constructor. *)
Record file_config (params : section) (s : config) : Prop := FileConfig {
  cfg_name : ∃ v pattern, param params (str_lit "FileName") = Some v ∧
    pattern = (if decide (path_of v = empty_path) then append empty_path default_file_name_pattern else path_of v) ∧
    parse_pattern current_path pattern = Ok (m_FileNamePattern s, m_BackendDir s, m_FileNameGenerator s);
  cfg_size : ∃ o, read_param params "RotationSize" (param_cast_to_int 64) = Ok o ∧
    m_FileRotationSize s = default uintmax_max o;
  cfg_rotation : ∃ o, rotation_read params = Ok o ∧ m_TimeBasedRotation s = (time_predicate <$> o);
  cfg_final : ∃ o, read_param params "EnableFinalRotation" param_cast_to_bool = Ok o ∧
    m_FinalRotationEnabled s = default true o;
  cfg_newline : ∃ o, read_param params "AutoNewline" param_cast_to_auto_newline_mode = Ok o ∧
    m_AutoNewlineMode s = default insert_if_missing o;
  cfg_flush : ∃ o, read_param params "AutoFlush" param_cast_to_bool = Ok o ∧ m_AutoFlush s = default false o;
  cfg_append : ∃ o, read_param params "Append" param_cast_to_bool = Ok o ∧ mode_app (m_FileOpenMode s) = default false o;
  cfg_handlers : m_OpenHandler s = None ∧ m_CloseHandler s = None }.

Definition opt_set {X} (f : X → config → config) (o : option X) (s : config) : config :=
  match o with Some x => f x s | None => s end.

Implicit Types (params : section) (s : config) (b : state) (w : FS).

Lemma with_param_set {X} params name (cast : str → outcome X) (f : X → config → config) s b w :
  (∀ v, cast v ≠ Stuck) →
  sm_safe (with_param params name (λ v, x ← sm_lift (cast v); update (f x)) ((s, b), w))
    (λ _ σ, ∃ o, read_param params name cast = Ok o ∧ σ = ((opt_set f o s, b), w)).
Proof.
  intros Hc. unfold with_param, read_param. destruct (param params _) as [v|]; [|by exists None].
  rewrite sm_bind_run. cbn [sm_lift]. specialize (Hc v). destruct (cast v) as [x|e|]; [|done..]. by exists (Some x).
Qed.

Lemma int_not_stuck bits v : param_cast_to_int bits v ≠ Stuck.
Proof. pose proof (param_cast_to_int_exact bits v). by destruct (param_cast_to_int bits v). Qed.

Lemma bool_not_stuck v : param_cast_to_bool v ≠ Stuck.
Proof. pose proof (param_cast_to_bool_exact v). by destruct (param_cast_to_bool v). Qed.

Lemma newline_not_stuck v : param_cast_to_auto_newline_mode v ≠ Stuck.
Proof. unfold param_cast_to_auto_newline_mode. by repeat case_bool_decide. Qed.

Lemma parse_pattern_ok (p : P) : ∃ t, parse_pattern current_path p = Ok t.
Proof. unfold parse_pattern. destruct (parse_total (filename p)) as [g ->]. by eexists. Qed.

Lemma target_step params s b w :
  sm_safe (with_param params "TargetFileName" (λ v, set_target_file_name_pattern (path_of v)) ((s, b), w))
    (λ _ σ, ∃ o, σ = ((opt_set with_target o s, b), w)).
Proof.
  unfold with_param. destruct (param params _) as [v|]; [|by exists None]. unfold set_target_file_name_pattern.
  case_decide; [by exists (Some None)|]. destruct (parse_pattern_ok (path_of v)) as [t Ht]. rewrite Ht.
  by exists (Some (Some t)).
Qed.

Lemma rotation_step params s b w :
  (∀ v, param params (str_lit "RotationInterval") = Some v → ¬ numeral 32 v 0) →
  sm_safe (rotation_params params ((s, b), w))
    (λ _ σ, ∃ o, rotation_read params = Ok o ∧
       σ = ((opt_set (λ r, set_time_based_rotation (Some (time_predicate r))) o s, b), w)).
Proof.
  intros Hz. unfold rotation_params, rotation_read. destruct (param params (str_lit "RotationInterval")) as [v|].
  - pose proof (param_cast_to_int_exact 32 v) as Hn. rewrite sm_bind_run. cbn [sm_lift].
    destruct (param_cast_to_int 32 v) as [n|e|]; [|done..]. cbv iota beta. rewrite sm_bind_run. cbn [sm_lift]. unfold make_interval.
    assert (0 < n) as Hpos. { destruct Hn as (Hne & Hd & <- & Hlt). pose proof (undec_nonneg v Hd) as H0.
      destruct (decide (undec v = 0)) as [E|]; [|lia]. exfalso. apply (Hz v eq_refl). split_and!; [done|done|done|lia]. }
    destruct (0 <? n) eqn:E; to_prop; [|lia]. by eexists.
  - unfold with_param, read_param. destruct (param params _) as [v|]; [|by exists None].
    rewrite sm_bind_run. cbn [sm_lift]. pose proof (time_point_safe v).
    destruct (param_cast_to_rotation_time_point v) as [r|e|]; [|done..]. by exists (Some (inr r)).
Qed.

Lemma append_step params s b w :
  sm_safe (with_param params "Append" (λ v,
      x ← sm_lift (param_cast_to_bool v);
      if x : bool then update (with_mode (set_open_mode (OpenMode false true true false false false))) else mret ())
      ((s, b), w))
    (λ _ σ, ∃ o, read_param params "Append" param_cast_to_bool = Ok o ∧
       σ = (((if default false o then with_mode (set_open_mode (OpenMode false true true false false false)) s else s), b), w)).
Proof.
  unfold with_param, read_param. destruct (param params _) as [v|]; [|by exists None].
  rewrite sm_bind_run. cbn [sm_lift]. pose proof (bool_not_stuck v). destruct (param_cast_to_bool v) as [[]|e|]; [| |done..].
  - by exists (Some true).
  - by exists (Some false).
Qed.

(** A collector that is made is in order. *)
Context (make_collector_ok : ∀ target max_size space max_files w,
  match make_collector target max_size space max_files w with
  | (Ok c, _) => collector_ok c | (Throw _, _) => True | (Stuck, _) => False
  end).

Lemma scan_step method s b w : backend_ok b → is_Some (m_pFileCollector b) →
  sm_safe (scan method ((s, b), w)) (λ _ σ, ∃ b' w', σ = ((s, b'), w') ∧ backend_ok b' ∧ is_Some (m_pFileCollector b')).
Proof.
  intros Hb [c Hc]. unfold scan. pose proof (scan_for_files_safe s method true b w Hb) as H.
  destruct (scan_for_files s method true (b, w)) as [r [b' w']] eqn:E. unfold scan_for_files in E. rewrite Hc in E.
  destruct (collector_scan_for_files _ _ _) as [[x|e|] [c' w'']]; simplify_eq; [|done..].
  destruct H as [H _]. cbn. do 2 eexists. split; [done|]. split; [exact H|].
  repeat case_match; by eexists.
Qed.

Lemma collector_step params s b w : backend_ok b → m_pFileCollector b = None →
  sm_safe (collector_params params ((s, b), w)) (λ _ σ, ∃ b' w', σ = ((s, b'), w') ∧ backend_ok b' ∧
    (is_Some (m_pFileCollector b') ↔ is_Some (param params (str_lit "Target")))).
Proof.
  intros Hb Hnone. unfold collector_params, with_param at 1. destruct (param params (str_lit "Target")) as [t|].
  2: { do 2 eexists. split; [done|]. split; [done|]. rewrite Hnone. by split; intros [? [=]]. }
  assert (∀ name bits def, int_param params name bits def ≠ Stuck) as Hi
    by (intros; unfold int_param; destruct (param params _); [apply int_not_stuck|done]).
  do 3 (rewrite sm_bind_run; cbn [sm_lift];
    match goal with |- context [match int_param ?a ?n ?x ?y with _ => _ end] =>
      specialize (Hi n x y) as Hs; destruct (int_param a n x y) as [?|?|]; [|done..]; clear Hs; cbv iota beta end).
  rewrite sm_bind_run. pose proof (make_collector_ok (path_of t) a a0 a1 w) as Hm.
  destruct (make_collector _ _ _ _ w) as [[c|e|] w']; [|done..]. cbv iota beta.
  assert (backend_ok (set_file_collector (Some c) b)) as Hb' by (destruct Hb as ([? ?] & _ & ?); split_and!; [done|done|exact Hm|done]).
  unfold with_param. destruct (param params (str_lit "ScanForFiles")) as [v|].
  - assert (∀ m, sm_safe (scan m ((s, set_file_collector (Some c) b), w')) (λ _ σ, ∃ b' w', σ = ((s, b'), w') ∧ backend_ok b' ∧
      (is_Some (m_pFileCollector b') ↔ is_Some (Some t)))) as Hscan.
    { intros m. eapply sm_safe_weaken; [by apply scan_step|]. intros _ σ (b' & w2 & -> & ? & ?). do 2 eexists. by split_and!. }
    unfold scan_param. case_bool_decide; [apply Hscan|]. case_bool_decide; [apply Hscan|done].
  - do 2 eexists. by split_and!.
Qed.

Context (time_predicate_safe : ∀ r w, (time_predicate r w).1 ≠ Stuck).

Lemma file_params_ok params s b w :
  (∀ v, param params (str_lit "RotationInterval") = Some v → ¬ numeral 32 v 0) →
  default_backend = Ok (s, b) →
  sm_safe (file_params params ((s, b), w)) (λ _ σ, ∃ s' b' w', σ = ((s', b'), w') ∧ file_config params s' ∧ backend_ok b' ∧
    (is_Some (m_pFileCollector b') ↔ is_Some (param params (str_lit "Target")))).
Proof.
  intros Hz Hdef. unfold default_backend, construct in Hdef.
  match goal with H : context [parse_pattern current_path ?p] |- _ => destruct (parse_pattern_ok p) as [[[pat0 dir0] gen0] Hp0] end.
  rewrite Hp0 in Hdef. cbn [obind] in Hdef. simplify_eq.
  assert (backend_ok (Running 0 empty_path stream_init 0 None false true : state)) as Hb
    by (split_and!; [cbn; lia|cbn; lia|done|right; split; [apply stream_init_closed|done]]).
  unfold file_params. destruct (param params (str_lit "FileName")) as [v|] eqn:Ev; [|done].
  rewrite sm_bind_run. unfold set_file_name_pattern. set (pattern := if decide _ then _ else _).
  destruct (parse_pattern_ok pattern) as [[[pat dir] gen] Hp]. rewrite Hp. rewrite sm_bind_run. cbn [sm_lift]. cbv iota beta.
  eapply sm_safe_bind; [apply target_step|]. intros _ σ (o1 & ->).
  eapply sm_safe_bind; [apply with_param_set, int_not_stuck|]. intros _ σ (o2 & E2 & ->).
  eapply sm_safe_bind; [by apply rotation_step|]. intros _ σ (o3 & E3 & ->).
  eapply sm_safe_bind; [apply with_param_set, bool_not_stuck|]. intros _ σ (o4 & E4 & ->).
  eapply sm_safe_bind; [apply with_param_set, newline_not_stuck|]. intros _ σ (o5 & E5 & ->).
  eapply sm_safe_bind; [apply with_param_set, bool_not_stuck|]. intros _ σ (o6 & E6 & ->).
  eapply sm_safe_bind; [apply append_step|]. intros _ σ (o7 & E7 & ->).
  eapply sm_safe_weaken; [by apply collector_step|]. intros _ σ (b' & w' & -> & Hb' & Hc).
  do 3 eexists. split; [done|]. split; [|done].
  split; [exists v, pattern; split; [done|]; split; [done|]; rewrite Hp|exists o2; split; [done|]|exists o3; split; [done|]
    |exists o4; split; [done|]|exists o5; split; [done|]|exists o6; split; [done|]|exists o7; split; [done|]|];
    by destruct o1, o2, o3, o4, o5, o6, o7 as [[]|].
Qed.

Lemma default_backend_ok : ∃ s b, default_backend = Ok (s, b).
Proof.
  unfold default_backend, construct.
  match goal with |- context [parse_pattern current_path ?p] => destruct (parse_pattern_ok p) as [[[pat dir] gen] ->] end.
  by do 2 eexists.
Qed.

Lemma text_file_sink_safe params w :
  (∀ v, param params (str_lit "RotationInterval") = Some v → ¬ numeral 32 v 0) →
  match text_file_backend params w with
  | (Ok (s, b), _) => file_config params s ∧ settings_ok s ∧ backend_ok b ∧
      (is_Some (m_pFileCollector b) ↔ is_Some (param params (str_lit "Target")))
  | (Throw e, _) => param params (str_lit "FileName") = None → e = ex_missing_value
  | (Stuck, _) => False
  end.
Proof.
  intros Hz. unfold text_file_backend. destruct default_backend_ok as (s & b & Hd). rewrite Hd.
  pose proof (file_params_ok params s b w Hz Hd) as H.
  destruct (file_params params ((s, b), w)) as [[u|e|] [[s' b'] w']] eqn:E; [|clear H|done].
  - destruct H as (s1 & b1 & w1 & [= -> -> ->] & Hcfg & Hb & Hc). cbn [obind]. split; [done|]. split; [|done].
    destruct (cfg_rotation _ _ Hcfg) as (o & _ & Ho). destruct (cfg_handlers _ _ Hcfg) as [H1 H2].
    unfold settings_ok. rewrite H1, H2, Ho. split; [done|]. split; [done|]. destruct o; [cbn; apply time_predicate_safe|done].
  - cbn [obind]. intros Hn. unfold file_params in E. rewrite sm_bind_run, Hn in E. unfold sm_throw in E. by simplify_eq.
Qed.

(** The text file sink of a settings section. The backend that is made has
    the settings the section asks for, with the defaults of the constructor for
    absent parameters, and both its settings and its state meet what the
    backend requires, so that its guarantees hold; it has a collector exactly
    when a target is given. Otherwise the factory throws, and without a file
    name it throws [missing_value]. The interval of rotation, if there is one,
    must not be zero. *)
Theorem text_file_sink_ready params w :
  (∀ v, param params (str_lit "RotationInterval") = Some v → ¬ numeral 32 v 0) →
  match text_file_backend params w with
  | (Ok (s, b), _) => file_config params s ∧ settings_ok s ∧ backend_ok b ∧
      (is_Some (m_pFileCollector b) ↔ is_Some (param params (str_lit "Target")))
  | (Throw e, _) => param params (str_lit "FileName") = None → e = ex_missing_value
  | (Stuck, _) => False
  end.
Proof. apply text_file_sink_safe. Qed.

(** An interval of zero seconds is accepted by the parser of integers and
    fails the assertion of the predicate. *)
Theorem zero_interval_asserts params w v :
  is_Some (param params (str_lit "FileName")) → param params (str_lit "TargetFileName") = None →
  param params (str_lit "RotationSize") = None → param params (str_lit "RotationInterval") = Some v → numeral 32 v 0 →
  (text_file_backend params w).1 = Stuck.
Proof.
  intros [f Hf] Ht Hs Hi Hv. unfold text_file_backend. destruct default_backend_ok as (s & b & ->).
  assert ((file_params params ((s, b), w)).1 = Stuck) as E; [|by destruct (file_params params ((s, b), w)) as [r [b' w']]; cbn in E; subst].
  unfold file_params. rewrite (with_param_none params "TargetFileName" _ Ht), (with_param_none params "RotationSize" _ Hs), Hf.
  rewrite sm_bind_run. unfold set_file_name_pattern. set (pattern := if decide _ then _ else _).
  destruct (parse_pattern_ok pattern) as [[[pat dir] gen] Hp]. rewrite sm_bind_run, Hp. cbn [sm_lift]. cbv iota beta.
  unfold update, sm_modify. cbv iota beta. rewrite !sm_bind_run. unfold mret at 1, sm_ret at 1. cbv iota beta.
  rewrite !sm_bind_run. unfold mret at 1, sm_ret at 1. cbv iota beta. rewrite sm_bind_run.
  unfold rotation_params. rewrite Hi, sm_bind_run. cbn [sm_lift].
  assert (param_cast_to_int 32 v = Ok 0) as -> by (unfold param_cast_to_int; by rewrite (proj2 (extract_all 32 v 0) Hv)).
  done.
Qed.
End text_file.

(** * The repository of factories *)

Section setup.
Context {section values : Type} `{!SettingsSection section} `{!FilterFactories values} `{!FormatterFactories values}.
Context {extract : ExtractDigits} {extract_counter : ExtractUint}.
Context {C F FS P : Type} `{!EqDecision P} `{!FileSystem FS P} `{!FileStream F FS P} `{!Collector C FS P}.
Context (path_of : str → P) (current_path : P) (make_collector : P → Z → Z → Z → sm FS C)
  (time_predicate : rotation_at_time_interval + rotation_at_time_point → sm FS bool).
(** [set_local_address] and [set_target_address] of the syslog backend, which
    resolve host names and open a socket. *)
Context {address : Type} (resolve_local resolve_target : str → sm FS address).

(** The console backend: the type of characters and its two settings. *)
Record console_backend := Console {
  c_wide : bool;
  c_newline : auto_newline_mode;
  c_flush : bool }.

Record syslog_backend := SyslogBackend {
  sl_local : option address;
  sl_target : option address }.

Inductive sink_object : Type :=
  | text_file_sink (f : frontend (settings F FS P * running C F P) values)
  | console_sink (f : frontend console_backend values)
  | syslog_sink (f : frontend syslog_backend values)
  | user_sink (id : nat).

(** The core, the sinks that were ever created, which are known by their
    positions, and the file system. *)
Context {V AS R W : Type}.
Record setup := Setup {
  s_core : core V AS R W;
  s_objects : list sink_object;
  s_world : FS }.

Definition in_world {X} (m : sm FS X) : sm setup X := λ σ,
  let '(r, w) := m (s_world σ) in (r, Setup (s_core σ) (s_objects σ) w).

Definition on_core (f : core V AS R W → core V AS R W) : sm setup unit :=
  sm_modify (λ σ, Setup (f (s_core σ)) (s_objects σ) (s_world σ)).

(** [boost::make_shared]. *)
Definition new_sink (o : sink_object) : sm setup sink_id := λ σ,
  (Ok (length (s_objects σ)), Setup (s_core σ) (s_objects σ ++ [o]) (s_world σ)).

(** ** The factories *)

Abbreviation factory := (section → sm setup sink_id).

Definition create_text_file_sink : factory := λ params,
  b ← in_world (text_file_backend path_of current_path make_collector time_predicate params);
  f ← sm_lift (init_sink b params true);
  new_sink (text_file_sink f).

Definition newline_param (params : section) : outcome auto_newline_mode :=
  match param params (str_lit "AutoNewline") with
  | Some v => param_cast_to_auto_newline_mode v
  | None => Ok insert_if_missing
  end.

(** The type of characters is selected before the backend is made. *)
Definition create_console_sink : factory := λ params,
  wide ← sm_lift (bool_param params "Wide" false);
  newline ← sm_lift (newline_param params);
  flush ← sm_lift (bool_param params "AutoFlush" false);
  f ← sm_lift (init_sink (Console wide newline flush) params true);
  new_sink (console_sink f).

Definition address_param (params : section) (name : string) (resolve : str → sm FS address) : sm setup (option address) :=
  match param params (str_lit name) with
  | Some v => a ← in_world (resolve v); mret (Some a)
  | None => mret None
  end.

Definition create_syslog_sink : factory := λ params,
  local ← address_param params "LocalAddress" resolve_local;
  target ← address_param params "TargetAddress" resolve_target;
  f ← sm_lift (init_sink (SyslogBackend local target) params true);
  new_sink (syslog_sink f).

(** [sinks_repository]: the factories by their names. *)
Definition factories : Type := gmap str (section → sm setup sink_id).

Definition init_instance : factories :=
  <[str_lit "Syslog" := create_syslog_sink]>
  (<[str_lit "Console" := create_console_sink]>
  (<[str_lit "TextFile" := create_text_file_sink]> ∅)).

Definition register_sink_factory (name : str) (f : factory) (fs : factories) : factories := <[name := f]> fs.

Context (repo : factories).

Definition construct_sink_from_settings : factory := λ params,
  match param params (str_lit "Destination") with
  | Some dest =>
      match repo !! dest with
      | Some f => f params
      | None => sm_throw ex_invalid_value
      end
  | None => sm_throw ex_missing_value
  end.

(** ** Initialization *)

(** How the core calls a filter. *)
Context (core_filter : (values → bool) → query V W).

Definition apply_core_settings (params : section) : sm setup unit :=
  match param params (str_lit "Filter") with
  | Some s => f ← sm_lift (parse_filter s); on_core (set_filter (core_filter f))
  | None => on_core reset_filter
  end;;
  match param params (str_lit "DisableLogging") with
  | Some s => b ← sm_lift (param_cast_to_bool s); on_core (λ c, (set_logging_enabled (negb b) c).2)
  | None => on_core (λ c, (set_logging_enabled true c).2)
  end.

(** Empty sections are ignored. *)
Fixpoint construct_sinks (sections : list section) : sm setup (list sink_id) :=
  match sections with
  | [] => mret []
  | s :: sections =>
      if section_empty s then construct_sinks sections
      else
        x ← construct_sink_from_settings s;
        xs ← construct_sinks sections;
        mret (x :: xs)
  end.

Fixpoint add_sinks (l : list sink_id) : sm setup unit :=
  match l with
  | [] => mret ()
  | x :: l => on_core (add_sink x);; add_sinks l
  end.

(** All sinks are constructed before the first one is added to the core. *)
Definition init_sinks (setts : section) : sm setup unit :=
  match subsection setts (str_lit "Sinks") with
  | Some sink_params =>
      new_sinks ← construct_sinks (children sink_params);
      add_sinks new_sinks
  | None => mret ()
  end.

Definition init_from_settings (setts : section) : sm setup unit :=
  match subsection setts (str_lit "Core") with
  | Some core_params => apply_core_settings core_params
  | None => mret ()
  end;;
  init_sinks setts.

(** ** What is promised of factories *)

(** The parameters that are free of what the parsers cannot cope with: octal
    escapes, and an interval of zero. *)
Definition acceptable (params : section) : Prop :=
  (∀ v, param params (str_lit "RotationInterval") = Some v → ¬ numeral 32 v 0) ∧
  (∀ v, param params (str_lit "Filter") = Some v → no_octal v) ∧
  (∀ v, param params (str_lit "Format") = Some v → no_octal v).

(** A factory leaves the core alone, only creates objects, and returns a new
    one of them or throws. *)
Definition creates (σ : setup) (r : outcome sink_id * setup) : Prop :=
  s_core r.2 = s_core σ ∧ s_objects σ `prefix_of` s_objects r.2 ∧
  match r.1 with
  | Ok x => (length (s_objects σ) ≤ x < length (s_objects r.2))%nat
  | Throw _ => True
  | Stuck => False
  end.

Definition factory_ok (f : factory) : Prop := ∀ params σ, acceptable params → creates σ (f params σ).

Class WellBehaved := {
  wb_exists : ∀ name, on_exists_test name ≠ Stuck;
  wb_relation : ∀ r name o, on_relation r name o ≠ Stuck;
  wb_custom : ∀ c name o, on_custom_relation c name o ≠ Stuck;
  wb_formatter : ∀ name args, create_formatter name args ≠ Stuck;
  wb_collector : ∀ target max_size space max_files w,
    match make_collector target max_size space max_files w with
    | (Ok c, _) => collector_ok c | (Throw _, _) => True | (Stuck, _) => False
    end;
  wb_predicate : ∀ r w, (time_predicate r w).1 ≠ Stuck;
  wb_local : ∀ a w, (resolve_local a w).1 ≠ Stuck;
  wb_target : ∀ a w, (resolve_target a w).1 ≠ Stuck }.

Context {wb : WellBehaved}.
Implicit Types (σ : setup) (params : section).

Lemma parse_filter_not_stuck s : no_octal s → parse_filter s ≠ Stuck.
Proof.
  intros Hn E. pose proof (parse_filter_safe wb_exists wb_relation wb_custom s Hn) as H. by rewrite E in H.
Qed.

Lemma parse_formatter_not_stuck s : no_octal s → parse_formatter s ≠ Stuck.
Proof.
  intros Hn E. pose proof (formatter_parser_total wb_formatter s Hn) as H. by rewrite E in H.
Qed.

Lemma bool_param_not_stuck params name def : bool_param params name def ≠ Stuck.
Proof. unfold bool_param. destruct (param params _); [apply bool_not_stuck|done]. Qed.

Lemma init_sink_not_stuck {B} (b : B) params : acceptable params → init_sink b params true ≠ Stuck.
Proof.
  intros (_ & Hf & Hm). unfold init_sink, filter_param, init_formatter.
  pose proof (bool_param_not_stuck params "Asynchronous" false) as Ha.
  assert (match param params (str_lit "Filter") with Some s => parse_filter s | None => Ok (λ _, true) end ≠ Stuck) as H1.
  { destruct (param params (str_lit "Filter")) as [s|]; [by apply parse_filter_not_stuck, Hf|done]. }
  destruct (match param params (str_lit "Filter") with Some s => _ | None => _ end); [|done..]. cbn [obind].
  destruct (bool_param params "Asynchronous" false); [|done..]. cbn [obind].
  destruct (param params (str_lit "Format")) as [s|]; [|done]. pose proof (parse_formatter_not_stuck s (Hm s eq_refl)).
  by destruct (parse_formatter s).
Qed.

(** ** The default factories *)

Lemma creates_new σ o : creates σ (new_sink o σ).
Proof.
  split; [done|]. split; [by eexists|]. cbn. rewrite length_app. cbn. lia.
Qed.

(** A value that is needed before the sink is created. *)
Lemma creates_lift {X} (m : outcome X) (k : X → sm setup sink_id) σ :
  m ≠ Stuck → (∀ x, m = Ok x → creates σ (k x σ)) → creates σ ((x ← sm_lift m; k x) σ).
Proof. intros Hm Hk. rewrite sm_bind_run. cbn [sm_lift]. destruct m as [x|e|]; [by apply Hk|by split|done]. Qed.

Lemma creates_world {X} (m : sm FS X) (k : X → sm setup sink_id) σ :
  (∀ w, (m w).1 ≠ Stuck) → (∀ x σ', s_core σ' = s_core σ → s_objects σ' = s_objects σ → creates σ (k x σ')) →
  creates σ ((x ← in_world m; k x) σ).
Proof.
  intros Hm Hk. rewrite sm_bind_run. unfold in_world. specialize (Hm (s_world σ)).
  destruct (m (s_world σ)) as [[x|e|] w]; [by apply Hk|by split|done].
Qed.

Lemma creates_weaken σ σ' r : s_core σ' = s_core σ → s_objects σ' = s_objects σ → creates σ' r → creates σ r.
Proof. unfold creates. by intros -> ->. Qed.

Lemma text_file_factory_ok : factory_ok create_text_file_sink.
Proof.
  intros params σ Ha. unfold create_text_file_sink. apply creates_world.
  - intros w. pose proof (text_file_sink_safe path_of current_path make_collector time_predicate wb_collector wb_predicate
      params w (proj1 Ha)). by destruct (text_file_backend _ _ _ _ params w) as [[x|e|] w'].
  - intros b σ' H1 H2. eapply creates_weaken; [done|done|].
    apply creates_lift; [by apply init_sink_not_stuck|]. intros f _. apply creates_new.
Qed.

Lemma console_factory_ok : factory_ok create_console_sink.
Proof.
  intros params σ Ha. unfold create_console_sink. apply creates_lift; [apply bool_param_not_stuck|]. intros wide _.
  apply creates_lift; [unfold newline_param; destruct (param params _); [apply newline_not_stuck|done]|]. intros nl _.
  apply creates_lift; [apply bool_param_not_stuck|]. intros fl _.
  apply creates_lift; [by apply init_sink_not_stuck|]. intros f _. apply creates_new.
Qed.

Lemma creates_address params name resolve (k : option address → sm setup sink_id) σ :
  (∀ a w, (resolve a w).1 ≠ Stuck) →
  (∀ x σ', s_core σ' = s_core σ → s_objects σ' = s_objects σ → creates σ (k x σ')) →
  creates σ ((x ← address_param params name resolve; k x) σ).
Proof.
  intros Hr Hk. unfold address_param. destruct (param params _) as [v|]; [|by apply Hk].
  rewrite sm_bind_run. unfold in_world. rewrite sm_bind_run. specialize (Hr v (s_world σ)).
  destruct (resolve v (s_world σ)) as [[x|e|] w]; [by apply Hk|by split|done].
Qed.

Lemma syslog_factory_ok : factory_ok create_syslog_sink.
Proof.
  intros params σ Ha. unfold create_syslog_sink. apply creates_address; [apply wb_local|]. intros x σ1 H1 H2.
  eapply creates_weaken; [done|done|]. apply creates_address; [apply wb_target|]. intros y σ2 H3 H4.
  eapply creates_weaken; [done|done|]. apply creates_lift; [by apply init_sink_not_stuck|]. intros f _. apply creates_new.
Qed.

Lemma default_factories_ok : map_Forall (λ _, factory_ok) init_instance.
Proof.
  unfold init_instance. apply map_Forall_insert_2; [apply syslog_factory_ok|].
  apply map_Forall_insert_2; [apply console_factory_ok|].
  apply map_Forall_insert_2; [apply text_file_factory_ok|apply map_Forall_empty].
Qed.

Lemma registered_factories_ok name f fs :
  factory_ok f → map_Forall (λ _, factory_ok) fs → map_Forall (λ _, factory_ok) (register_sink_factory name f fs).
Proof. intros Hf Hfs. by apply map_Forall_insert_2. Qed.

(** ** Initialization *)

Context (repo_ok : map_Forall (λ _, factory_ok) repo).

Lemma construct_sink_ok params σ : acceptable params → creates σ (construct_sink_from_settings params σ).
Proof.
  intros Ha. unfold construct_sink_from_settings. destruct (param params _) as [dest|]; [|by split].
  destruct (repo !! dest) as [f|] eqn:E; [by apply (repo_ok dest f E)|by split].
Qed.

(** The sinks of sections, in their order: an empty section has none, any other
    one has the sink that the factory registered for its destination makes from
    the section itself. *)
Inductive built : list section → list sink_id → setup → setup → Prop :=
| built_end σ : built [] [] σ σ
| built_empty s sections ids σ σ' :
    section_empty s = true → built sections ids σ σ' → built (s :: sections) ids σ σ'
| built_sink s sections dest f x ids σ σ1 σ' :
    section_empty s = false → param s (str_lit "Destination") = Some dest → repo !! dest = Some f →
    f s σ = (Ok x, σ1) → built sections ids σ1 σ' → built (s :: sections) (x :: ids) σ σ'.

Lemma construct_sinks_ok sections σ : Forall acceptable sections →
  let '(r, σ') := construct_sinks sections σ in
  s_core σ' = s_core σ ∧ s_objects σ `prefix_of` s_objects σ' ∧
  match r with
  | Ok ids => built sections ids σ σ' ∧ NoDup ids ∧
      Forall (λ x, length (s_objects σ) ≤ x < length (s_objects σ'))%nat ids
  | Throw _ => True
  | Stuck => False
  end.
Proof.
  intros Ha. revert σ. induction Ha as [|s sections Hs _ IH]; intros σ; cbn [construct_sinks].
  { split; [done|]. split; [done|]. split; [constructor|]. split; constructor. }
  destruct (section_empty s) eqn:E.
  { specialize (IH σ). destruct (construct_sinks sections σ) as [[ids|e|] σ2]; [|done|done].
    destruct IH as (H1 & H2 & Hb & H3). split; [done|]. split; [done|]. split; [by apply built_empty|done]. }
  rewrite sm_bind_run. pose proof (construct_sink_ok s σ Hs) as Hc.
  destruct (construct_sink_from_settings s σ) as [[x|e|] σ1] eqn:Ec; [|by destruct Hc as (? & ? & _)|by destruct Hc as (_ & _ & [])].
  destruct Hc as (H1 & H2 & Hx). cbn in Hx, H1, H2. rewrite sm_bind_run. specialize (IH σ1).
  destruct (construct_sinks sections σ1) as [[ids|e|] σ2]; cbn; destruct IH as (H3 & H4 & H5).
  - destruct H5 as (Hb & Hnd & Hall). pose proof (prefix_length _ _ H2). pose proof (prefix_length _ _ H4).
    split; [congruence|]. split; [by etrans|]. split; [|split].
    + unfold construct_sink_from_settings in Ec. destruct (param s _) as [dest|] eqn:Ed; [|done].
      destruct (repo !! dest) as [f|] eqn:Ef; [|done]. by eapply built_sink.
    + constructor; [|done]. intros Hin. rewrite Forall_forall in Hall. specialize (Hall x Hin). cbn in Hall. lia.
    + constructor; [lia|]. eapply Forall_impl; [exact Hall|]. cbn. lia.
  - split; [congruence|]. split; [by etrans|done].
  - done.
Qed.

(** Sinks that are not registered yet are appended to the registry. *)
Lemma add_sinks_run l σ : NoDup l → Forall (λ x, x ∉ m_sinks (s_core σ)) l →
  add_sinks l σ = (Ok (), Setup (set_sinks (m_sinks (s_core σ) ++ l) (s_core σ)) (s_objects σ) (s_world σ)).
Proof.
  intros Hnd. revert σ. induction Hnd as [|x l Hx Hnd IH]; intros σ Hf; cbn [add_sinks].
  - rewrite app_nil_r. by destruct σ as [[] ? ?].
  - apply Forall_cons in Hf as [Hn Hf]. rewrite sm_bind_run. unfold on_core, sm_modify. cbv iota beta.
    unfold add_sink. rewrite decide_False by done. rewrite IH.
    + cbn. rewrite <- app_assoc. done.
    + cbn. rewrite Forall_forall in Hf |- *. set_solver.
Qed.

(** The filter and the flag of the core that a section asks for. *)
Definition core_settings (params : section) (c : core V AS R W) : outcome (core V AS R W) :=
  let* f := match param params (str_lit "Filter") with
            | Some s => let* f := parse_filter s in Ok (core_filter f)
            | None => Ok (QRet true)
            end in
  let* disabled := bool_param params "DisableLogging" false in
  Ok (set_logging_enabled (negb disabled) (set_filter f c)).2.

Lemma apply_core_settings_run params σ : (∀ v, param params (str_lit "Filter") = Some v → no_octal v) →
  let '(r, σ') := apply_core_settings params σ in
  s_objects σ' = s_objects σ ∧ s_world σ' = s_world σ ∧ m_sinks (s_core σ') = m_sinks (s_core σ) ∧
  match r with
  | Ok _ => core_settings params (s_core σ) = Ok (s_core σ')
  | Throw e => core_settings params (s_core σ) = Throw e
  | Stuck => False
  end.
Proof.
  intros Hn. unfold apply_core_settings, core_settings, bool_param.
  assert (∀ f σ, let '(r, σ') := (match param params (str_lit "DisableLogging") with
      | Some s => b ← sm_lift (param_cast_to_bool s); on_core (λ c, (set_logging_enabled (negb b) c).2)
      | None => on_core (λ c, (set_logging_enabled true c).2) end) (Setup (set_filter f (s_core σ)) (s_objects σ) (s_world σ)) in
    s_objects σ' = s_objects σ ∧ s_world σ' = s_world σ ∧ m_sinks (s_core σ') = m_sinks (s_core σ) ∧
    match r with
    | Ok _ => (let* disabled := match param params (str_lit "DisableLogging") with Some s => param_cast_to_bool s | None => Ok false end in
               Ok (set_logging_enabled (negb disabled) (set_filter f (s_core σ))).2) = Ok (s_core σ')
    | Throw e => (let* disabled := match param params (str_lit "DisableLogging") with Some s => param_cast_to_bool s | None => Ok false end in
               Ok (set_logging_enabled (negb disabled) (set_filter f (s_core σ))).2) = Throw e
    | Stuck => False
    end) as Hd.
  { intros f σ'. destruct (param params (str_lit "DisableLogging")) as [s|]; [|done]. rewrite sm_bind_run. cbn [sm_lift].
    pose proof (bool_not_stuck s). by destruct (param_cast_to_bool s). }
  destruct (param params (str_lit "Filter")) as [s|]; rewrite sm_bind_run; [|apply Hd].
  rewrite sm_bind_run. cbn [sm_lift]. pose proof (parse_filter_not_stuck s (Hn s eq_refl)).
  destruct (parse_filter s) as [f|e|]; [apply Hd|done|done].
Qed.

(** Every section that is read is acceptable. *)
Definition settings_acceptable (setts : section) : Prop :=
  (∀ c v, subsection setts (str_lit "Core") = Some c → param c (str_lit "Filter") = Some v → no_octal v) ∧
  (∀ s, subsection setts (str_lit "Sinks") = Some s → Forall acceptable (children s)).

(** The sections of the sinks that are asked for. *)
Definition sink_sections (setts : section) : list section :=
  match subsection setts (str_lit "Sinks") with
  | Some s => children s
  | None => []
  end.

(** Registered sinks are objects that exist. *)
Definition sinks_known (σ : setup) : Prop := Forall (λ x, x < length (s_objects σ))%nat (m_sinks (s_core σ)).

Lemma init_sinks_ok setts σ :
  (∀ s, subsection setts (str_lit "Sinks") = Some s → Forall acceptable (children s)) → sinks_known σ →
  let '(r, σ') := init_sinks setts σ in
  s_objects σ `prefix_of` s_objects σ' ∧ sinks_known σ' ∧
  match r with
  | Ok _ => ∃ ids σ1, built (sink_sections setts) ids σ σ1 ∧
      σ' = Setup (set_sinks (m_sinks (s_core σ) ++ ids) (s_core σ)) (s_objects σ1) (s_world σ1) ∧
      NoDup ids ∧ Forall (λ x, length (s_objects σ) ≤ x < length (s_objects σ'))%nat ids
  | Throw _ => s_core σ' = s_core σ
  | Stuck => False
  end.
Proof.
  intros Ha Hk. unfold init_sinks, sink_sections. destruct (subsection setts (str_lit "Sinks")) as [s|].
  2: { split; [done|]. split; [done|]. exists [], σ. rewrite app_nil_r.
       split_and!; [constructor|by destruct σ as [[] ? ?]|constructor|constructor]. }
  rewrite sm_bind_run. pose proof (construct_sinks_ok (children s) σ (Ha s eq_refl)) as Hc.
  destruct (construct_sinks (children s) σ) as [[ids|e|] σ1]; [| |by destruct Hc as (_ & _ & [])].
  - destruct Hc as (Hcore & Hpre & Hb & Hnd & Hall). apply prefix_length in Hpre as Hlen.
    assert (Forall (λ x, x ∉ m_sinks (s_core σ1)) ids) as Hfresh.
    { rewrite Hcore. unfold sinks_known in Hk. rewrite Forall_forall in Hk, Hall |- *.
      intros x Hx Hin. specialize (Hk x Hin). specialize (Hall x Hx). cbn in *. lia. }
    rewrite add_sinks_run by done. cbn. rewrite Hcore. split; [done|]. split.
    + unfold sinks_known. cbn. apply Forall_app. split; (eapply Forall_impl; [exact Hk || exact Hall|]; cbn; lia).
    + exists ids, σ1. by split_and!.
  - destruct Hc as (Hcore & Hpre & _). split; [done|]. split; [|done]. unfold sinks_known. rewrite Hcore.
    eapply Forall_impl; [exact Hk|]. apply prefix_length in Hpre. cbn. lia.
Qed.

(** C26: initialization from settings. Provided that the registered factories
    create sinks or throw, as the default ones do, that filters and formats have
    no octal escapes and no rotation interval is zero, and that the registered
    sinks exist, the whole initialization ends. Either the
    filter and the flag of the core are the ones asked for, every section that is
    not empty has given a sink, made by the factory registered for its destination
    from the section itself, one section after the other, and these sinks, which
    are new and distinct, are appended to the registry in the order of their
    sections. Or an exception is thrown, and the registry has the sinks it had,
    although some new sinks may have been created and the core may have its new
    filter. *)
Theorem init_all_or_nothing setts σ :
  settings_acceptable setts → sinks_known σ →
  let '(r, σ') := init_from_settings setts σ in
  s_objects σ `prefix_of` s_objects σ' ∧ sinks_known σ' ∧
  match r with
  | Ok _ => ∃ c ids σ1,
      match subsection setts (str_lit "Core") with Some p => core_settings p (s_core σ) = Ok c | None => c = s_core σ end ∧
      built (sink_sections setts) ids (Setup c (s_objects σ) (s_world σ)) σ1 ∧
      σ' = Setup (set_sinks (m_sinks (s_core σ) ++ ids) c) (s_objects σ1) (s_world σ1) ∧
      NoDup ids ∧ Forall (λ x, length (s_objects σ) ≤ x < length (s_objects σ'))%nat ids
  | Throw _ => m_sinks (s_core σ') = m_sinks (s_core σ)
  | Stuck => False
  end.
Proof.
  intros [Hf Ha] Hk. unfold init_from_settings. rewrite sm_bind_run.
  destruct (subsection setts (str_lit "Core")) as [p|].
  - pose proof (apply_core_settings_run p σ (λ v, Hf p v eq_refl)) as Hc.
    destruct (apply_core_settings p σ) as [[u|e|] σ1]; [| |by destruct Hc as (_ & _ & _ & [])];
      destruct Hc as (Ho & Hw & Hs & Hc).
    + assert (sinks_known σ1) as Hk1 by (unfold sinks_known; by rewrite Ho, Hs).
      pose proof (init_sinks_ok setts σ1 Ha Hk1) as Hi. destruct σ1 as [c1 o1 w1]. cbn in Ho, Hw. subst o1 w1.
      destruct (init_sinks setts _) as [[v|e|] σ2]; [| |by destruct Hi as (_ & _ & [])];
        destruct Hi as (H1 & H2 & H3); (split; [done|]; split; [done|]).
      * destruct H3 as (ids & σ3 & H3). cbn in H3, Hs. rewrite Hs in H3. by exists c1, ids, σ3.
      * by rewrite H3.
    + split; [by rewrite Ho|]. split; [|done]. unfold sinks_known. by rewrite Ho, Hs.
  - pose proof (init_sinks_ok setts σ Ha Hk) as Hi. unfold mret, sm_ret. cbv iota beta.
    destruct (init_sinks setts σ) as [[v|e|] σ2]; [| |by destruct Hi as (_ & _ & [])];
      destruct Hi as (H1 & H2 & H3); (split; [done|]; split; [done|]).
    + destruct H3 as (ids & σ3 & H3). destruct σ as [c0 o0 w0]. by exists c0, ids, σ3.
    + by rewrite H3.
Qed.
End setup.

(** * A property tree *)

Module sample_setup.
Import sample_fs sample_backend sample_filter.

(** A node has a value and named children; parameters are children without
    children of their own. *)
Inductive tree : Type := Node (value : str) (nodes : list (str * tree)).

Definition child (t : tree) (name : str) : option tree :=
  let '(Node _ nodes) := t in snd <$> head (filter (λ x, x.1 = name) nodes).

#[export] Instance tree_section : SettingsSection tree := {
  param t name := (λ c, let '(Node v _) := c in v) <$> child t name;
  subsection := child;
  children t := let '(Node _ nodes) := t in nodes.*2;
  section_empty t := let '(Node _ nodes) := t in bool_decide (nodes = []) }.

Abbreviation sample_values := (values (real := Z)).

#[export] Instance message_only : FormatterFactories sample_values := {
  create_formatter _ _ := Throw (ex_parse_error 0);
  message_formatter _ := [] }.

Definition leaf (name value : string) : str * tree := (str_lit name, Node (str_lit value) []).
Definition node (name : string) (nodes : list (str * tree)) : str * tree := (str_lit name, Node [] nodes).

Definition sample_path (s : str) : path := ([], s).
Definition sample_dir : path := (str_lit "d", []).

Definition sample_make_collector (target : path) (max_size space max_files : Z) : sm fs (file_collector path) :=
  mret (FileCollector max_size space max_files sample_dir target [] 0).

Definition never (r : rotation_at_time_interval + rotation_at_time_point) : sm fs bool := mret false.

Definition resolve (a : str) : sm fs str :=
  if bool_decide (a = []) then sm_throw ex_invalid_value else mret a.

Definition file_section (time : string) : list (str * tree) :=
  [leaf "Destination" "TextFile"; leaf "FileName" "l%N"; leaf "RotationTimePoint" time; leaf "Append" "TRUE";
   leaf "Target" "t"; leaf "Filter" "%n% > 3"].

Lemma no_octal_filter : no_octal (str_lit "%n% > 3").
Proof. done. Qed.

Lemma file_section_acceptable time : acceptable (Node [] (file_section time)).
Proof.
  split_and!; intros v; [intros E; vm_compute in E; discriminate E| |intros E; vm_compute in E; discriminate E].
  intros E. vm_compute in E. injection E as <-. exact no_octal_filter.
Qed.

Lemma collector_is_ok target max_size space max_files w :
  match sample_make_collector target max_size space max_files w with
  | (Ok c, _) => collector_ok c | (Throw _, _) => True | (Stuck, _) => False
  end.
Proof. done. Qed.

Lemma text_file_sink_ready_witness :
  match text_file_backend (extract_counter := spirit_extract) sample_path sample_dir sample_make_collector never
    (Node [] (file_section "1 00:00:00")) [] with
  | (Ok (s, b), _) => settings_ok s ∧ backend_ok b ∧ mode_app (m_FileOpenMode s) = true ∧ is_Some (m_pFileCollector b)
  | _ => False
  end.
Proof.
  pose proof (text_file_sink_ready (extract_counter := spirit_extract) sample_path sample_dir sample_make_collector never
    collector_is_ok (λ r w, ltac:(discriminate)) (Node [] (file_section "1 00:00:00")) []
    (proj1 (file_section_acceptable "1 00:00:00"))) as H.
  destruct (text_file_backend _ _ _ _ _ _) as [[[s b]|e|] w] eqn:E; [|vm_compute in E; discriminate E..].
  destruct H as (_ & Hs & Hb & Hc). split; [exact Hs|]. split; [exact Hb|]. split; [|apply Hc; by eexists].
  vm_compute in E. injection E as <- <- <-. reflexivity.
Defined.

Lemma sample_well_behaved : WellBehaved (values := sample_values) (C := file_collector path) (FS := fs)
  sample_make_collector never resolve resolve.
Proof.
  split; try done.
  - intros c name o. cbn. unfold custom_relation. by repeat case_bool_decide.
  - intros a w. unfold resolve. by case_bool_decide.
  - intros a w. unfold resolve. by case_bool_decide.
Qed.

Definition sample_settings (time : string) : tree :=
  Node [] [node "Core" [leaf "DisableLogging" "1"];
           node "Sinks" [node "A" (file_section time); leaf "Stray" "1"; node "B" [leaf "Destination" "Console"]]].

Abbreviation sample_state := (setup (values := sample_values) (C := file_collector path) (F := stream) (FS := fs) (P := path)
  (address := str) (V := nat) (AS := unit) (R := unit) (W := unit)).

Definition sample_start : sample_state := Setup (Core [0%nat] 7%nat () ∅ true (QRet true) None) [user_sink 3] [].

Definition sample_factories : gmap str (tree → sm sample_state sink_id) :=
  init_instance (extract_counter := spirit_extract) sample_path sample_dir sample_make_collector never resolve resolve.

Definition sample_init (time : string) : outcome unit * sample_state :=
  init_from_settings (section := tree) sample_factories (λ _, QRet true) (sample_settings time) sample_start.

Lemma sample_factories_ok : map_Forall (λ _, factory_ok) sample_factories.
Proof. apply default_factories_ok, sample_well_behaved. Qed.

Lemma sample_settings_acceptable time : settings_acceptable (sample_settings time).
Proof.
  split.
  - intros c v E1 E2. vm_compute in E1. injection E1 as <-. vm_compute in E2. discriminate E2.
  - intros s E. vm_compute in E. injection E as <-. constructor; [apply (file_section_acceptable time)|].
    repeat constructor; intros v E; vm_compute in E; discriminate E.
Qed.

(** Two sinks are added behind the registered one; with a value that is not a
    time point none is, and the core has its new flag. *)
Definition observe (x : outcome unit * sample_state) : outcome unit * list sink_id * bool :=
  (x.1, m_sinks (s_core x.2), m_enabled (s_core x.2)).

Lemma init_all_or_nothing_witness :
  observe (sample_init "Sat 09:30:00") = (Ok (), [0; 1; 2]%nat, false) ∧ sinks_known (sample_init "Sat 09:30:00").2 ∧
  observe (sample_init "Sat 09:30") = (Throw ex_invalid_value, [0]%nat, false) ∧ sinks_known (sample_init "Sat 09:30").2.
Proof.
  assert (sinks_known sample_start) as Hk by (repeat constructor).
  assert (∀ time, sinks_known (sample_init time).2) as H.
  { intros time. pose proof (init_all_or_nothing (wb := sample_well_behaved) _ _ _ _ sample_factories (λ _, QRet true)
      sample_factories_ok (sample_settings time) sample_start (sample_settings_acceptable time) Hk) as H.
    unfold sample_init. destruct (init_from_settings _ _ _ _) as [r σ]. apply H. }
  split_and!; [vm_compute; reflexivity|apply H|vm_compute; reflexivity|apply H].
Defined.
End sample_setup.
